(* ===== verification/_CoqProject ===== *)
-Q . S2P
Prelude.v
Multimap.v
Types.v
QueueTask.v
QueueStrategy.v
BaseQueue.v
SerialQueue.v
ConcurrentQueue.v
AdapterQueue.v
TrafficRecord.v
QueueHandler.v
QueueMonitor.v
LinkedList.v
Scheduler.v
ExecuteUnit.v
EuConfig.v
DelayedWorker.v
TimerManager.v
Poller.v
PollerSafety.v
PollerLive.v
LoopPoller.v
CoRoutine.v
GraphCheck.v
SpmcQueue.v
LfQueue.v
JobRing.v
JobPromise.v
JobPartner.v
PartnerSafety.v
PartnerLive.v
PartnerProgress.v
FiberContext.v
RefObj.v
Slab.v
Api.v
Mutex.v
SharedMutex.v
WaitQueue.v
Dependence.v
DependenceFlat.v
DependenceSpec.v
DependenceChain.v
DependenceOps.v
DependenceDone.v
DependenceRefine.v
