(* ===== verification/Prelude.v ===== *)
(** * FFRT: verification development

    FFRT (Function Flow Runtime) runs tasks on a pool of worker threads.  A program
    submits tasks with data dependences, or to queues; tasks synchronise with
    mutexes and condition variables, sleep, and set timers.  This library models
    the parts that decide when a task runs, who wakes whom, and who owns what, and
    proves them correct.  Paths below are relative to src/.

    ** Parts of the program and the files that model them

    - Dependences (src/dm/, src/core/version_ctx.cpp, entity.cpp, src/tm/scpu_task.cpp):
      [Dependence] has the versions, the tasks and every operation of the manager as
      state transformers on stores of objects; [DependenceFlat], [DependenceSpec],
      [DependenceChain], [DependenceOps], [DependenceDone] and [DependenceRefine]
      relate them to a specification, the list of unfinished jobs.
    - Queues (src/queue/): [QueueTask] (src/tm/queue_task.cpp) has the tasks in a
      store shared by pointers, the clocks and a trace of visible actions;
      [QueueStrategy], [BaseQueue], [SerialQueue], [ConcurrentQueue] and
      [AdapterQueue] the queues; [TrafficRecord] the overload check;
      [QueueHandler] the object behind [ffrt_queue_t], which works on any queue
      through the class [BaseQueueOps] and its law [RemoveTaskLaw]; [QueueMonitor]
      the alarm that watches any queue with the law [MonitoredLaw]; [Api] the
      attribute objects, [ffrt_queue_create] and [submit_apply].
    - Scheduling (src/sched/, src/eu/): [Scheduler] has the ready queues and, in its
      module [UV], the life of the tasks of libuv; [ExecuteUnit] the worker groups,
      the notification strategies, worker escape and the worker loop; [EuConfig]
      the escape configuration and the statistics.
    - Coroutines (src/eu/co_routine.cpp): [CoRoutine] has the stacks in a store, the
      environments of the workers and the tasks, with [CoStart], [CoWait] and the end of
      a task split where control passes between stacks; its module [Tsd] the switch of
      thread-specific data.
    - Pollers (src/eu/base_poller.cpp, io_poller.cpp): [Poller] has the records of
      registered descriptors in a store, the epoll instance as its interest list, and
      the poller thread; [PollerSafety] its invariants and [PollerLive] the theorems.
      [LoopPoller] (src/eu/loop_poller.cpp, loop.cpp) has the timers and the thread of
      a loop.
    - Time (src/sync/): [DelayedWorker] the thread that serves deadlines,
      [TimerManager] the timers on top of it.
    - Synchronisation (src/sync/): [Mutex] (plain and recursive), [SharedMutex],
      [WaitQueue] (condition variables for threads and for coroutines), and
      [GraphCheck] (src/util/graph_check.cpp) the deadlock check of the mutex.
    - Data structures: [LinkedList] (include/util/linked_list.h) on a heap of nodes,
      [Multimap] for std::multimap, [SpmcQueue] (src/util/spmc_queue.cpp) and [Slab]
      (include/util/slab.h).
    - Job patterns (interfaces/kits/cpp/pattern/): [LfQueue] has the lock-free queues
      of job_utils.h and the flagged list both refine; [JobRing] the job ring on
      top of that list; [JobPromise] the promise of a job's result; [RefObj] the
      reference-counted objects and their smart pointer.  [JobPartner] has the job
      partner (job_partner.h) and its fibers, with the stacks of the threads as lists
      of frames; [PartnerSafety] its invariant, [PartnerLive] the counters and the
      theorems about all runs, [PartnerProgress] those about progress.
    - Contexts (src/eu/co2_context.c): [FiberContext] executes the assembly of three
      architectures on a machine of registers and memory; the class [ArchOk] is what
      the C code relies on.
    - [Types] has the enumerations and the QoS class; this file the notation for
      record updates, machine integers and the lemmas the components share.

    ** How the code is modelled

    A struct is a [Record] with the fields of the source that the modelled code
    reads or writes, an enumeration an [Inductive] type, a function a [Definition] of
    the same name (a constructor is [..._ctor]; a method whose name is used by
    several classes carries the class as a prefix).  State is passed explicitly.
    [None] as a result stands for behaviour that is undefined in C++: a null or
    dangling pointer, or an empty container.  Integers are [Z], with [u8], [u16], [u32], [u64],
    [i32] and [i64] written where the code can wrap; where a counter is left
    unbounded the file says why.  An object shared through pointers lives in a store
    indexed by its address.

    Concurrent code is a step relation whose steps are the atomic sections of the
    code: what runs under one lock, or one access to an atomic.  A blocking call
    is split where it blocks.  Fields that no code reads ("ghost" fields, named in
    each file) record history for the statements.  A theorem about all executions
    is a statement about every state reachable by [rtc] of the steps, proved by an
    invariant.

    What lies outside src/ is a parameter: the regular expression library, the event
    handler library, the order in which an unordered set is traversed, the
    addresses [calloc] and [mmap] return, the clock, the scheduling of threads.
    Its documented behaviour is a hypothesis where a theorem needs it, and a
    witness after the theorem applies it to concrete values.

    ** What the theorems show

    - Dependences: for the children of one parent, with inputs and outputs that name
      each data once, a task is handed to the scheduler exactly when no earlier
      unfinished task conflicts with it; submission and completion never touch freed
      memory; the oldest task can always run; in the end all versions are
      freed.  Two theorems show where the code departs from this: inputs that name a
      data twice, and readers of a nested version that is merged when ready.
    - Queues: a serial queue runs its tasks in order, one at a time, and never
      sleeps past a due time; a concurrent queue keeps to its concurrency, attends
      every pending task and wakes [WaitAll] when it is drained; the dequeue
      strategies take what they should, with a bound on starvation; cancellation
      is all or nothing where the queue keeps the contract of [Remove], and fails on the
      adapter queue, which does not; a created queue is well formed; attributes
      read back what was set, with exact reference counts of the callbacks.  The
      monitor has one alarm, set again while it finds a task; two theorems show that a
      task submitted at the wrong moment is not watched, and that a threshold above
      4294967 ms wraps around.
    - Scheduling: while a ready task waits, some worker or notifier is on its way
      to it; the counters of a worker group count its workers, within the
      configured limit; a UV task is run or cancelled exactly once and waits only
      while eight others run.  One theorem shows that worker escape can switch
      itself off.
    - Coroutines: whatever the interleaving of workers, no operation touches a
      freed stack or a foreign context, a stack belongs to one task and one worker, and a
      task goes on on the stack it waited on; thread-specific data of a task and of its
      workers do not mix.
    - Pollers: without [EPOLL_CTL_MOD] the epoll instance and the poller thread never use
      a freed record; a waiting task is woken once, by an event or by its own timeout; the
      thread of the IO poller runs while it is needed; cached events are merged without
      loss.  Theorems show the use after free of [EPOLL_CTL_MOD], the lost waiter when
      threads wait for one descriptor, the descriptor that cannot be deleted after a
      hang-up, and an index past the end in [MonitTimeOut].
    - Loops: a sleeping loop has nothing to do and wakes in time for its first timer; a
      stopped timer never fires again.  Theorems show that timeouts of 2^31 ms and more
      are cut to 32 bits, and that a callback that stops its own timer hangs.
    - Time: no deadline of the delayed worker is missed and each work is served
      once; a stopped timer never fires again, and a running one is neither lost
      nor doubled.
    - Synchronisation: the mutex refines a lock and loses no wake-up, the recursive
      mutex counts, readers share and writers exclude, a timed wait is resumed
      exactly once.  A notification without the mutex, and a spurious wake-up, can lose
      waiters.  The cycle search of the deadlock check decides cyclicity.
    - Data structures: the intrusive list refines a sequence, the ring is a
      bounded FIFO, the allocator hands out disjoint blocks.
    - Job patterns: the lock-free queues refine a list with published heads and
      are FIFOs; a job ring runs its jobs once and in order, and without a threshold it
      never leaves a job or a sleeper behind; a promise's job runs once and wakes
      everyone who waits.  Two theorems show that [wait] on a ring can return before
      the caller's job is run when another submission is under way, and that a
      ring with a threshold can leave a waiter asleep.  Reference counts are exact.
    - Job partner: however jobs are nested, suspended and resumed, fibers are switched
      safely; the workers are counted and bounded; [wait] returns only when every job
      is over; and with only the master waiting and no threshold no job and no
      sleeper is left behind.  Theorems show what happens otherwise: a second
      waiter or a threshold can leave threads asleep, a stolen master job strands its
      fiber, and [wait] can return before a callback is called.
    - Contexts: a switch saves and restores every register that has to survive it, a
      new fiber starts in its function on its own stack; [fiber::init] stays inside a
      stack that holds the fiber and overruns a smaller one.

    ** Fuel

    Recursion is structural on the data except in five places.
    [GraphCheck.IsCyclicDfs] takes the number of vertices plus one, and
    [IsCyclic_iff_cycle] proves that it is enough.  [QueueHandler.Dispatch_chain]
    takes the length of the batch, and [QueueTask_Execute_chain] proves that it is
    enough.  [Slab.push_blocks] takes the size of the range,
    and is proved equal to the closed form [blocks].  [LinkedList.walk] is only used in
    statements about traversals.  [LfQueue.align2n_loop] takes 64, the width of its
    argument, and [align2n_spec] proves that it is enough.  The theorems about
    [num] of the job ring, which has 64 bits, are about runs of fewer than 2^63
    jobs ([few_jobs]), those about the records of the pollers about runs that make
    fewer than 2^31 of them ([few_records]; the counts of deletions are 32-bit
    integers), [partner_wait_sound] is about fewer than 2^64 jobs, and those about the sleep of a loop about timeouts below 2^31 ms
    ([in_range]).

    ** Not modelled

    - The guards of a stack (magic number, page protection), which need its addresses, the
      assembly for RISC-V, an architecture that interfaces/kits/c/type_def.h rejects, and
      the calls of sanitizers.  The models of the synchronisation primitives contain what
      [CoRoutine] shows, that a blocked task continues when it is woken; [CoRoutine] and
      [JobPartner] contain what [FiberContext] shows of a switch.
    - The destructors of the pollers and of the loop, and descriptors that are closed and
      reused while they are registered, beyond the entry that leaves the interest list.
      A concurrent queue uses its loop through the class [LoopOps].
    - Thread creation, thread groups, QoS and load-tracking interfaces of the kernel
      (src/eu/rtg_*.cpp, qos_interface.cpp, src/sched/interval.cpp and the like), and
      the shutdown of the runtime.
    - Logs, traces, dumps (src/dfx/), the texts of the queue monitor and the worker
      monitor (src/util/worker_monitor.cpp): they read state and write text.
    - The header-only C++ wrappers of the C interface (interfaces/kits/cpp/task.h,
      queue.h and the like).  The attributes of a job ring are those of its construction,
      and a job does not itself block on the ring that runs it.
    - Memory orders weaker than sequential consistency. *)

From stdpp Require Export base decidable functions gmap sets list list_numbers strings pretty sorting relations.
From Stdlib Require Export ZArith Lia.

#[global] Open Scope Z_scope.

(** ** Record update

    [r <| f := v |>] is the record [r] with field [f] set to [v].  A record type
    takes part by declaring an [Eta] instance, its constructor applied to all
    its projections; the setter of a field is then computed by instance search. *)

Class Eta (R : Type) := eta_expand : R → R.

Class Setter {R T : Type} (proj : R → T) := set_field : (T → T) → R → R.
Arguments set_field {R T} proj {_} _ _ /.

Ltac build_setter :=
  match goal with
  | |- @Setter ?R ?T ?proj =>
      let f := fresh "f" in
      let r := fresh "r" in
      intros f r;
      let e := constr:(eta_expand r) in
      let e := eval cbv beta delta [eta_expand] in e in
      let e := eval hnf in e in
      match e with
      | context C [proj r] => let x := context C [f (proj r)] in exact x
      end
  end.
#[export] Hint Extern 1 (Setter _) => build_setter : typeclass_instances.

Declare Scope ffrt_scope.
Delimit Scope ffrt_scope with ffrt.
Notation "r <| f := v |>" := (set_field f (λ _, v) r)
  (at level 12, left associativity, f at level 9, v at level 200,
   format "r  <|  f  :=  v  |>") : ffrt_scope.
Notation "r <| f ::= g |>" := (set_field f g r)
  (at level 12, left associativity, f at level 9, g at level 200,
   format "r  <|  f  ::=  g  |>") : ffrt_scope.
#[global] Open Scope ffrt_scope.

(** ** Machine integers

    A machine integer is a [Z]; [uw] is the value an unsigned [w]-bit variable
    holds after an assignment, [sw] the value of a signed one (two's
    complement). *)

Definition uw (w x : Z) : Z := x `mod` 2 ^ w.
Definition sw (w x : Z) : Z :=
  let y := uw w x in if decide (y < 2 ^ (w - 1)) then y else y - 2 ^ w.

Definition u8 (x : Z) : Z := uw 8 x.
Definition u16 (x : Z) : Z := uw 16 x.
Definition u32 (x : Z) : Z := uw 32 x.
Definition u64 (x : Z) : Z := uw 64 x.
Definition i32 (x : Z) : Z := sw 32 x.
Definition i64 (x : Z) : Z := sw 64 x.

Definition UINT32_MAX : Z := 2 ^ 32 - 1.
Definition UINT64_MAX : Z := 2 ^ 64 - 1.
Definition INT_MAX : Z := 2 ^ 31 - 1.

Definition is_u32 (x : Z) : Prop := 0 <= x <= UINT32_MAX.
Definition is_u64 (x : Z) : Prop := 0 <= x <= UINT64_MAX.

Lemma uw_small w x : 0 <= x < 2 ^ w → uw w x = x.
Proof. apply Z.mod_small. Qed.

Lemma uw_range w x : 0 <= w → 0 <= uw w x < 2 ^ w.
Proof. intros Hw. apply Z.mod_pos_bound. lia. Qed.

Lemma u32_id x : is_u32 x → u32 x = x.
Proof. unfold is_u32, UINT32_MAX. intros. apply uw_small. lia. Qed.

Lemma u64_id x : is_u64 x → u64 x = x.
Proof. unfold is_u64, UINT64_MAX. intros. apply uw_small. lia. Qed.

Lemma u64_add_l x y : u64 (u64 x + y) = u64 (x + y).
Proof. apply Zplus_mod_idemp_l. Qed.

Lemma u64_sub_l x y : u64 (u64 x - y) = u64 (x - y).
Proof. apply Zminus_mod_idemp_l. Qed.

Lemma is_u64_u64 x : is_u64 (u64 x).
Proof. unfold is_u64, UINT64_MAX, u64. pose proof (uw_range 64 x ltac:(lia)). lia. Qed.

Lemma is_u32_u32 x : is_u32 (u32 x).
Proof. unfold is_u32, UINT32_MAX, u32. pose proof (uw_range 32 x ltac:(lia)). lia. Qed.

Lemma sw_small w x : 0 < w → - 2 ^ (w - 1) <= x < 2 ^ (w - 1) → sw w x = x.
Proof.
  intros Hw Hx. unfold sw, uw.
  assert (2 ^ w = 2 * 2 ^ (w - 1)) as Hp.
  { rewrite <-Z.pow_succ_r by lia. f_equal. lia. }
  destruct (decide (0 <= x)).
  - rewrite Z.mod_small by lia. case_decide; lia.
  - rewrite <-(Z.mod_add x 1), Z.mod_small by lia. case_decide; lia.
Qed.

Lemma i32_small x : - 2 ^ 31 <= x < 2 ^ 31 → i32 x = x.
Proof. intros. apply sw_small; lia. Qed.

(** ** Shared hint databases and tactics *)

Create HintDb ffrt discriminated.
#[export] Hint Resolve is_u64_u64 is_u32_u32 : ffrt.

(** Case analysis on every [if]/[match] of the goal, closing the easy cases. *)
Ltac case_all := repeat (case_match; simplify_eq/=; try done).

(** ** Functions updated at a point *)

Lemma fn_insert_decide {A B} `{EqDecision A} (f : A → B) i v k :
  <[i := v]> f k = if decide (k = i) then v else f k.
Proof. case_decide; subst; [apply fn_lookup_insert|by apply fn_lookup_insert_ne]. Qed.

(** ** Lists *)

Section list_lemmas.
Context {A : Type}.
Implicit Types (l : list A) (P : A → Prop).

Lemma list_filter_ext P Q `{!∀ x, Decision (P x), !∀ x, Decision (Q x)} l :
  (∀ x, x ∈ l → P x ↔ Q x) → filter P l = filter Q l.
Proof.
  induction l as [|x l IH]; intros Hx; [done|]. rewrite !filter_cons.
  rewrite (IH ltac:(intros y Hy; apply Hx; by right)).
  specialize (Hx x ltac:(left)). repeat case_decide; naive_solver.
Qed.

Lemma filter_true_id P `{!∀ x, Decision (P x)} l :
    Forall P l → filter P l = l.
Proof.
    induction 1 as [|x l Hx _ IH]; [done|]. rewrite filter_cons_True by done. by f_equal.
Qed.

Lemma Permutation_filter_split P `{!∀ x, Decision (P x)} l :
    filter P l ++ filter (λ x, ¬ P x) l ≡ₚ l.
Proof.
    induction l as [|x l IH]; [done|].
    destruct (decide (P x)).
    - rewrite filter_cons_True by done. rewrite filter_cons_False by tauto. simpl. by rewrite IH.
    - rewrite filter_cons_False by done. rewrite filter_cons_True by done.
      rewrite <-Permutation_middle. by rewrite IH.
Qed.

Lemma StronglySorted_app_iff (R : relation A) l1 l2 :
    StronglySorted R (l1 ++ l2) ↔
      StronglySorted R l1 ∧ StronglySorted R l2 ∧ (∀ x y, x ∈ l1 → y ∈ l2 → R x y).
Proof.
    induction l1 as [|a l1 IH]; simpl.
    - split; [intros H; repeat split; [constructor|done|set_solver]|naive_solver].
    - split.
      + intros H. inv H. apply IH in H2 as (Hs1 & Hs2 & Hx).
        rewrite Forall_app in H3. destruct H3 as [Hf1 Hf2]. rewrite Forall_forall in Hf2.
        split_and!; [by constructor|done|].
        intros x y [->|?]%elem_of_cons ?; [by apply Hf2|by apply Hx].
      + intros (H1 & H2 & Hx). inv H1. constructor.
        * apply IH. split_and!; [done|done|]. intros x y ??. apply Hx; [by right|done].
        * rewrite Forall_app. split; [done|]. rewrite Forall_forall. intros y Hy.
          apply Hx; [by left|done].
Qed.

Lemma StronglySorted_sublist (R : relation A) l1 l2 :
    l1 `sublist_of` l2 → StronglySorted R l2 → StronglySorted R l1.
Proof.
    induction 1 as [|x l1 l2 Hs IH|x l1 l2 Hs IH]; intros HS; [done| |].
    - inv HS. constructor; [by apply IH|]. rewrite Forall_forall in *. intros y Hy.
      apply H2. eapply sublist_subseteq; eauto.
    - inv HS. by apply IH.
Qed.
Lemma prefix_elem_of l1 l2 x : l1 `prefix_of` l2 → x ∈ l1 → x ∈ l2.
Proof. intros [k ->] ?. apply elem_of_app. by left. Qed.
End list_lemmas.

(** ** Sums of flags *)

Definition zsum {A} (f : A → bool) (l : list A) : Z := foldr (λ x n, Z.b2z (f x) + n) 0 l.

Lemma zsum_nonneg {A} (f : A → bool) l : 0 <= zsum f l <= Z.of_nat (length l).
Proof. induction l as [|x l IH]; simpl; [lia|]. destruct (f x); simpl; lia. Qed.

Lemma zsum_ext {A} (f g : A → bool) l : (∀ x, x ∈ l → f x = g x) → zsum f l = zsum g l.
Proof.
  induction l as [|x l IH]; simpl; intros H; [done|]. rewrite (H x) by left.
  f_equal. apply IH. intros y ?. apply H. by right.
Qed.

Lemma zsum_zero {A} (f : A → bool) l : zsum f l = 0 ↔ ∀ x, x ∈ l → f x = false.
Proof.
  induction l as [|x l IH]; simpl; [split; [by intros _ x ?%elem_of_nil|done]|].
  pose proof (zsum_nonneg f l). split.
  - intros H0 y [Hyx|Hy]%elem_of_cons; [subst y; destruct (f x); simpl in *; [lia|done]|].
    apply IH; [|done]. destruct (f x); simpl in *; lia.
  - intros Hall. rewrite (Hall x) by left. simpl. apply IH. intros y ?. apply Hall. by right.
Qed.

(** Changing the flag of one member. *)
Lemma zsum_change {A} `{EqDecision A} (f g : A → bool) l x :
  NoDup l → (∀ y, y ≠ x → g y = f y) →
  zsum g l = zsum f l + (if decide (x ∈ l) then Z.b2z (g x) - Z.b2z (f x) else 0).
Proof.
  intros Hnd Hne. induction Hnd as [|y l Hy Hnd IH]; simpl; [done|]. rewrite IH.
  destruct (decide (y = x)) as [->|Hyx].
  - rewrite (decide_False (P := x ∈ l)) by done. rewrite decide_True by left. lia.
  - rewrite (Hne y) by done. destruct (decide (x ∈ l)).
    + rewrite decide_True by (by right). lia.
    + rewrite decide_False by set_solver. lia.
Qed.

Lemma zsum_app {A} (f : A → bool) l1 l2 : zsum f (l1 ++ l2) = zsum f l1 + zsum f l2.
Proof. induction l1 as [|x l IH]; simpl; [done|]. rewrite IH. lia. Qed.

Lemma zsum_Permutation {A} (f : A → bool) l1 l2 : l1 ≡ₚ l2 → zsum f l1 = zsum f l2.
Proof. induction 1; simpl; lia. Qed.

Lemma zsum_pos {A} (f : A → bool) l : 0 < zsum f l ↔ ∃ x, x ∈ l ∧ f x = true.
Proof.
  induction l as [|x l IH]; simpl; [split; [lia|by intros (x & ?%elem_of_nil & _)]|].
  pose proof (zsum_nonneg f l). destruct (f x) eqn:Hx; simpl.
  - split; [intros _; exists x; split; [left|done]|lia].
  - rewrite Z.add_0_l, IH. split; intros (y & Hy & Hf); exists y; split; [by right|done| |done].
    apply elem_of_cons in Hy as [->|?]; [congruence|done].
Qed.

(** ** Sums of weights over a list updated in place *)

Definition wsum {A} (f : A → Z) (l : list A) : Z := foldr (λ x n, f x + n) 0 l.

Lemma wsum_app {A} (f : A → Z) l1 l2 : wsum f (l1 ++ l2) = wsum f l1 + wsum f l2.
Proof. induction l1 as [|x l IH]; simpl; [done|]. rewrite IH. lia. Qed.

Lemma wsum_nonneg {A} (f : A → Z) l : (∀ x, 0 <= f x) → 0 <= wsum f l.
Proof. intros Hf. induction l as [|x l IH]; simpl; [done|]. specialize (Hf x). lia. Qed.

Lemma wsum_insert {A} (f : A → Z) l i x y :
  l !! i = Some x → wsum f (<[i := y]> l) = wsum f l - f x + f y.
Proof.
  revert i. induction l as [|z l IH]; intros [|i]; simpl; intros Hi; simplify_eq; [lia|].
  rewrite (IH i Hi). lia.
Qed.

Lemma wsum_alter {A} (f : A → Z) (g : A → A) l i x :
  l !! i = Some x → wsum f (alter g i l) = wsum f l - f x + f (g x).
Proof.
  revert i. induction l as [|z l IH]; intros [|i]; simpl; intros Hi; simplify_eq; [lia|].
  change (list_alter g i l) with (alter g i l). rewrite (IH i Hi). lia.
Qed.

Lemma wsum_alter_same {A} (f : A → Z) (g : A → A) l i : (∀ x, f (g x) = f x) → wsum f (alter g i l) = wsum f l.
Proof.
  intros Hg. revert i. induction l as [|z l IH]; intros [|i]; simpl; rewrite ?Hg; [done..|].
  change (list_alter g i l) with (alter g i l). by rewrite IH.
Qed.

Lemma wsum_pos {A} (f : A → Z) l : 0 < wsum f l → ∃ x, x ∈ l ∧ 0 < f x.
Proof.
  induction l as [|x l IH]; simpl; [lia|]. intros H.
  destruct (decide (0 < f x)); [exists x; split; [left|done]|].
  destruct IH as (y & ? & ?); [lia|]. exists y. split; [by right|done].
Qed.

Lemma wsum_zero {A} (f : A → Z) l : (∀ x, x ∈ l → f x = 0) → wsum f l = 0.
Proof.
  induction l as [|x l IH]; simpl; intros H; [done|].
  rewrite (H x), IH; [done| |left]. intros y ?. apply H. by right.
Qed.

Lemma wsum_le {A} (f g : A → Z) l : (∀ x, f x <= g x) → wsum f l <= wsum g l.
Proof. intros Hfg. induction l as [|x l IH]; simpl; [lia|]. specialize (Hfg x). lia. Qed.

(** The difference at one element is part of the difference of the sums. *)
Lemma wsum_le_at {A} (f g : A → Z) l i x :
  (∀ y, f y <= g y) → l !! i = Some x → wsum f l + (g x - f x) <= wsum g l.
Proof.
  intros Hfg. revert i. induction l as [|y l IH]; intros [|i]; simpl; [done..| |].
  - intros [= ->]. pose proof (wsum_le f g l Hfg). lia.
  - intros Hi. specialize (IH i Hi). specialize (Hfg y). lia.
Qed.

Lemma wsum_elem {A} (f : A → Z) l i x : (∀ y, 0 <= f y) → l !! i = Some x → f x <= wsum f l.
Proof.
  intros Hf Hi. pose proof (wsum_le_at (λ _, 0) f l i x Hf Hi) as H. rewrite (wsum_zero (λ _, 0)) in H by done. lia.
Qed.

Lemma wsum_fmap {A B} (f : B → Z) (h : A → B) l : wsum f (h <$> l) = wsum (λ x, f (h x)) l.
Proof. induction l as [|x l IH]; csimpl; [done|]. by rewrite <-IH. Qed.

Lemma wsum_ext {A} (f g : A → Z) l : (∀ x, f x = g x) → wsum f l = wsum g l.
Proof. intros Hfg. induction l as [|x l IH]; simpl; [done|]. by rewrite IH, Hfg. Qed.

Lemma wsum_replicate {A} (f : A → Z) n x : wsum f (replicate n x) = Z.of_nat n * f x.
Proof. induction n as [|n IH]; simpl; [done|]. rewrite IH. lia. Qed.

(** ** Invariants of a step relation *)

Lemma rtc_invariant {A} (R : relation A) (P : A → Prop) x y :
  P x → (∀ a b, P a → R a b → P b) → rtc R x y → P y.
Proof. intros Hx HR. induction 1; eauto. Qed.

(** One step of a concrete run, by the constructor of the step relation. *)
Tactic Notation "run_step" uconstr(c) := eapply rtc_l; [eapply c; vm_compute; reflexivity|].
