(* ===== verification/Multimap.v ===== *)
(** * std::multimap with integer keys

    The queues, the delayed worker and the loop poller keep their pending work
    in a [std::multimap] keyed by an absolute time.  A multimap is modelled by
    the list of its (key, value) pairs in iteration order; the operations are
    the ones the sources use, with the library's stable placement: an inserted
    pair goes after every pair with an equal key. *)

From S2P Require Import Prelude.

Section multimap.
Context {V : Type}.
Implicit Types (m : list (Z * V)) (k : Z) (v : V).

(** [insert({k, v})] *)
Fixpoint mm_insert (k : Z) (v : V) (m : list (Z * V)) : list (Z * V) :=
  match m with
  | [] => [(k, v)]
  | (k', v') :: m' => if decide (k < k') then (k, v) :: m else (k', v') :: mm_insert k v m'
  end.

(** [insert(first, last)] *)
Definition mm_insert_range (l m : list (Z * V)) : list (Z * V) :=
  foldl (λ m kv, mm_insert kv.1 kv.2 m) m l.

(** [distance(begin(), lower_bound(k))] *)
Fixpoint mm_lower_bound (k : Z) (m : list (Z * V)) : nat :=
  match m with
  | [] => O
  | (k', _) :: m' => if decide (k' < k) then S (mm_lower_bound k m') else O
  end.

(** Search [p] in [equal_range(k)] from its first pair and erase the first
    match; [None] when the range holds none. *)
Fixpoint mm_erase_in_range (k : Z) (p : V → bool) (m : list (Z * V)) : option (list (Z * V)) :=
  match m with
  | [] => None
  | (k', v') :: m' =>
      if decide (k' = k) then
        if p v' then Some m' else cons (k', v') <$> mm_erase_in_range k p m'
      else if decide (k' < k) then cons (k', v') <$> mm_erase_in_range k p m'
      else None
  end.

(** The representation invariant: pairs are in key order. *)
Definition mm_le (x y : Z * V) : Prop := x.1 <= y.1.
Definition mm_sorted (m : list (Z * V)) : Prop := StronglySorted mm_le m.

Lemma mm_sorted_nil : mm_sorted [].
Proof. constructor. Qed.

Lemma mm_sorted_cons x m : mm_sorted (x :: m) ↔ mm_sorted m ∧ ∀ y, y ∈ m → x.1 <= y.1.
Proof.
    unfold mm_sorted. split.
    - intros H. inv H. rewrite Forall_forall in H3. done.
    - intros [? ?]. constructor; [done|]. by apply Forall_forall.
Qed.

Lemma mm_insert_split k v m :
    mm_sorted m →
    ∃ l1 l2, m = l1 ++ l2 ∧ mm_insert k v m = l1 ++ (k, v) :: l2 ∧
      (∀ x, x ∈ l1 → x.1 <= k) ∧ (∀ x, x ∈ l2 → k < x.1).
Proof.
    induction m as [|[k' v'] m IH]; intros Hs; simpl.
    - exists [], []. set_solver.
    - apply mm_sorted_cons in Hs as [Hs Hle]. simpl in Hle. case_decide.
      + exists [], ((k', v') :: m). split_and!; [done|done|set_solver|].
        intros x [->|Hx]%elem_of_cons; simpl; [lia|]. specialize (Hle x Hx). lia.
      + destruct (IH Hs) as (l1 & l2 & -> & -> & H1 & H2).
        exists ((k', v') :: l1), l2. split_and!; [done|done| |done].
        intros x [->|Hx]%elem_of_cons; simpl; [lia|auto].
Qed.

Lemma mm_insert_perm k v m : mm_insert k v m ≡ₚ (k, v) :: m.
Proof.
    induction m as [|[k' v'] m IH]; simpl; [done|]. case_decide; [done|].
    rewrite IH. by rewrite Permutation_swap.
Qed.

Lemma mm_insert_elem_of k v m x : x ∈ mm_insert k v m ↔ x = (k, v) ∨ x ∈ m.
Proof. rewrite mm_insert_perm. apply elem_of_cons. Qed.

Lemma mm_insert_length k v m : length (mm_insert k v m) = S (length m).
Proof. by rewrite mm_insert_perm. Qed.

Lemma mm_insert_sorted k v m : mm_sorted m → mm_sorted (mm_insert k v m).
Proof.
    induction m as [|[k' v'] m IH]; intros Hs; simpl.
    - apply mm_sorted_cons. set_solver.
    - pose proof Hs as Hs'. apply mm_sorted_cons in Hs as [Hs Hle]. simpl in Hle.
      case_decide; apply mm_sorted_cons; simpl.
      + split; [done|]. intros y [->|Hy]%elem_of_cons; simpl; [lia|].
        specialize (Hle y Hy). lia.
      + split; [auto|]. intros y [->|Hy]%mm_insert_elem_of; simpl; [lia|auto].
Qed.

Lemma mm_insert_not_nil k v m : mm_insert k v m ≠ [].
Proof. intros H. apply (f_equal length) in H. by rewrite mm_insert_length in H. Qed.

(** The head of the map after an insertion: the new pair exactly when it is
      strictly earlier than every other. *)
Lemma mm_insert_head k v m :
    head (mm_insert k v m) =
      match head m with
      | Some (k', v') => if decide (k < k') then Some (k, v) else Some (k', v')
      | None => Some (k, v)
      end.
Proof. destruct m as [|[k' v'] m]; simpl; [done|]. by case_decide. Qed.

Lemma mm_sorted_head_min k v m x : mm_sorted ((k, v) :: m) → x ∈ (k, v) :: m → k <= x.1.
Proof.
    intros [_ Hle]%mm_sorted_cons [->|Hx]%elem_of_cons; simpl in *; [lia|by apply Hle].
Qed.

Lemma mm_sorted_tail x m : mm_sorted (x :: m) → mm_sorted m.
Proof. by intros [? _]%mm_sorted_cons. Qed.

Lemma mm_sorted_app l1 l2 : mm_sorted (l1 ++ l2) → mm_sorted l1 ∧ mm_sorted l2.
Proof. unfold mm_sorted. rewrite StronglySorted_app_iff. tauto. Qed.

Lemma mm_sorted_sublist l m : l `sublist_of` m → mm_sorted m → mm_sorted l.
Proof. apply StronglySorted_sublist. Qed.

Lemma mm_insert_after k v m :
    mm_sorted m → (∀ x, x ∈ m → x.1 <= k) → mm_insert k v m = m ++ [(k, v)].
Proof.
    intros _. induction m as [|[k' v'] m IH]; intros Hle; simpl; [done|].
    rewrite decide_False; [|by specialize (Hle (k', v') ltac:(left)); simpl in Hle; lia].
    f_equal. apply IH. intros x Hx. apply Hle. by right.
Qed.

Lemma mm_insert_range_sorted l m : mm_sorted m → mm_sorted (mm_insert_range l m).
Proof.
    unfold mm_insert_range. revert m. induction l as [|[k v] l IH]; intros m Hm; simpl; [done|].
    apply IH. by apply mm_insert_sorted.
Qed.

(** Inserting a sorted range after smaller keys appends it. *)
Lemma mm_insert_range_append l m :
    mm_sorted (m ++ l) → mm_insert_range l m = m ++ l.
Proof.
    unfold mm_insert_range. revert m. induction l as [|[k v] l IH]; intros m Hs; simpl.
    - by rewrite app_nil_r.
    - rewrite (cons_middle (k, v) m l) in Hs |- *. rewrite app_assoc in Hs |- *.
      assert (mm_sorted (m ++ [(k, v)])) as Hmk by (by apply mm_sorted_app in Hs as [? _]).
      rewrite mm_insert_after.
      + by apply IH.
      + by apply mm_sorted_app in Hmk as [? _].
      + unfold mm_sorted in Hmk. rewrite StronglySorted_app_iff in Hmk.
        destruct Hmk as (_ & _ & Hx). intros x Hin.
        apply (Hx x (k, v)); [done|by left].
Qed.

Lemma mm_lower_bound_count k m :
    mm_sorted m → mm_lower_bound k m = length (filter (λ x, x.1 < k) m).
Proof.
    induction m as [|[k' v'] m IH]; intros Hs; simpl; [done|].
    apply mm_sorted_cons in Hs as [Hs Hle]. rewrite filter_cons. simpl. case_decide; simpl.
    - by rewrite IH.
    - symmetry. apply length_zero_iff_nil, elem_of_nil_inv. intros x [Hx Hin]%list_elem_of_filter.
      specialize (Hle x Hin). simpl in Hle. lia.
Qed.

Lemma mm_erase_in_range_Some k p m m' :
    mm_erase_in_range k p m = Some m' →
    ∃ l1 l2 v, m = l1 ++ (k, v) :: l2 ∧ m' = l1 ++ l2 ∧ p v = true ∧
      (∀ x, x ∈ l1 → x.1 = k → p x.2 = false).
Proof.
    revert m'. induction m as [|[k' v'] m IH]; intros m' H; simpl in H; [done|].
    repeat case_decide; simplify_eq/=; [destruct (p v') eqn:Hp|..]; simplify_eq/=.
    - exists [], m', v'. split_and!; try done. set_solver.
    - apply fmap_Some in H as (m'' & H & ->).
      destruct (IH _ H) as (l1 & l2 & v & -> & -> & ? & Hno).
      exists ((k, v') :: l1), l2, v. split_and!; try done.
      intros x [->|Hx]%elem_of_cons Hk; simpl; auto.
    - apply fmap_Some in H as (m'' & H & ->).
      destruct (IH _ H) as (l1 & l2 & v & -> & -> & ? & Hno).
      exists ((k', v') :: l1), l2, v. split_and!; try done.
      intros x [->|Hx]%elem_of_cons Hk; simpl in *; [lia|auto].
Qed.

Lemma mm_erase_in_range_None k p m :
    mm_sorted m →
    mm_erase_in_range k p m = None ↔ ∀ v, (k, v) ∈ m → p v = false.
Proof.
    induction m as [|[k' v'] m IH]; intros Hs; simpl; [set_solver|].
    apply mm_sorted_cons in Hs as [Hs Hle]. specialize (IH Hs). simpl in Hle.
    repeat case_decide; simplify_eq/=.
    - destruct (p v') eqn:Hp.
      + split; [done|]. intros H. rewrite H in Hp; [done|left].
      + rewrite fmap_None, IH. split.
        * intros H v [?|?]%elem_of_cons; simplify_eq; auto.
        * intros H v ?. apply H. by right.
    - rewrite fmap_None, IH. split.
      + intros H' v [?|?]%elem_of_cons; simplify_eq; auto.
      + intros H' v ?. apply H'. by right.
    - split; [|done]. intros _ v [?|Hin]%elem_of_cons; simplify_eq.
      specialize (Hle _ Hin). simpl in Hle. lia.
Qed.
End multimap.

#[export] Hint Resolve mm_sorted_nil mm_insert_sorted mm_insert_range_sorted : ffrt.
