(* ===== verification/Types.v ===== *)
(** * Enumerations and the QoS class

    The enumerations shared by the components (include/internal_inc/types.h,
    interfaces/kits/c/type_def.h, interfaces/inner_api/c/queue_ext.h) and the
    [QoS] class with its mapping (include/sched/qos.h, src/sched/qos.cpp). *)

From S2P Require Import Prelude.

(** ** Task states *)

Inductive TaskStatus :=
| PENDING | ENQUEUED | DEQUEUED | SUBMITTED | READY | POPPED | EXECUTING
| THREAD_BLOCK | COROUTINE_BLOCK | FINISH | WAIT_RELEASING | CANCELED.

#[export] Instance TaskStatus_eq_dec : EqDecision TaskStatus.
Proof. solve_decision. Defined.

Definition StatusToString (status : TaskStatus) : string :=
  match status with
  | PENDING => "PND" | ENQUEUED => "ENQ" | DEQUEUED => "DEQ" | SUBMITTED => "SUB"
  | READY => "RDY" | POPPED => "POP" | EXECUTING => "EXE" | THREAD_BLOCK => "THB"
  | COROUTINE_BLOCK => "CRB" | FINISH => "FIN" | WAIT_RELEASING => "WRS" | CANCELED => "CAN"
  end.

Inductive BlockType := BLOCK_COROUTINE | BLOCK_THREAD.

#[export] Instance BlockType_eq_dec : EqDecision BlockType.
Proof. solve_decision. Defined.

Inductive Dependence :=
| DEPENDENCE_INIT | DATA_DEPENDENCE | CALL_DEPENDENCE | CONDITION_DEPENDENCE.

#[export] Instance Dependence_eq_dec : EqDecision Dependence.
Proof. solve_decision. Defined.

(** ** Queue types, priorities and results *)

Definition ffrt_queue_serial : Z := 0.
Definition ffrt_queue_concurrent : Z := 1.
Definition ffrt_queue_max : Z := 2.
Definition ffrt_queue_eventhandler_interactive : Z := 3.
Definition ffrt_queue_eventhandler_adapter : Z := 4.
Definition ffrt_queue_inner_max : Z := 5.

Definition ffrt_queue_priority_immediate : Z := 0.
Definition ffrt_queue_priority_high : Z := 1.
Definition ffrt_queue_priority_low : Z := 2.
Definition ffrt_queue_priority_idle : Z := 3.

Definition ffrt_inner_queue_priority_vip : Z := 0.
Definition ffrt_inner_queue_priority_immediate : Z := 1.
Definition ffrt_inner_queue_priority_high : Z := 2.
Definition ffrt_inner_queue_priority_low : Z := 3.
Definition ffrt_inner_queue_priority_idle : Z := 4.

(** [enum QueueAction] *)
Definition INACTIVE : Z := -1.
Definition SUCC : Z := 0.
Definition FAILED : Z := 1.
Definition CONCURRENT : Z := 2.

(** ** Quality of service *)

Definition qos_inherit : Z := -1.
Definition qos_background : Z := 0.
Definition qos_utility : Z := 1.
Definition qos_default : Z := 2.
Definition qos_user_initiated : Z := 3.
Definition qos_deadline_request : Z := 4.
Definition qos_user_interactive : Z := 5.
Definition qos_max : Z := qos_user_interactive.

(** [QoS::QoS(int)] *)
Definition QoS (qos : Z) : Z :=
  if decide (qos < qos_inherit) then qos_inherit
  else if decide (qos > qos_max) then qos_max
  else qos.

Definition QoS_Min : Z := qos_background.
Definition QoS_Max : Z := qos_max + 1.

Definition QoSMap (qos : Z) : Z :=
  if decide (qos <= qos_inherit) then qos_inherit
  else if decide (qos >= qos_background ∧ qos <= qos_max) then qos
  else qos_default.

Definition QoSMax : Z := qos_max + 1.

(** A value the per-QoS arrays of the scheduler and of the execute unit can be
    indexed with. *)
Definition qos_index (qos : Z) : Prop := QoS_Min <= qos < QoS_Max.

Lemma QoS_range qos : qos_inherit <= QoS qos <= qos_max.
Proof. unfold QoS, qos_inherit, qos_max, qos_user_interactive. repeat case_decide; lia. Qed.

Lemma QoS_idemp qos : QoS (QoS qos) = QoS qos.
Proof. unfold QoS, qos_inherit, qos_max, qos_user_interactive. repeat case_decide; lia. Qed.

Lemma QoSMap_range qos : QoSMap qos = qos_inherit ∨ qos_index (QoSMap qos).
Proof.
  unfold QoSMap, qos_index, QoS_Min, QoS_Max, qos_background, qos_max, qos_user_interactive.
  repeat case_decide; [by left|right; lia|right]. unfold qos_default. lia.
Qed.
