(* ===== verification/QueueTask.v ===== *)
(** * Queue tasks and the world they live in

    Models src/tm/queue_task.{h,cpp} and the part of include/tm/task_base.h a
    queue task inherits.  Tasks are shared through pointers, so they live in a
    store [w_tasks] indexed by address; an operation on a task rewrites its
    store entry, and a pointer is read with the total lookup [!!!].  The world
    also holds the two clocks the sources read, the last task id, and the trace
    of the externally visible actions: running and destroying a user function,
    freeing a task, waking the waiters of a task, handing a task to the
    scheduler. *)

From S2P Require Import Prelude Types.

(** ** State *)

Abbreviation tid := positive.

Record QueueTask := mkQueueTask {
  qt_gid : Z;
  qt_label : string;
  qt_qos : Z;
  qt_rc : Z;                       (* atomic_uint32_t *)
  qt_preStatus : TaskStatus;
  qt_curStatus : TaskStatus;
  qt_statusTime : Z;
  qt_fromTid : Z;
  qt_uptime : Z;                   (* uint64_t, microseconds *)
  qt_insertHead : bool;
  qt_delay : Z;
  qt_schedTimeout : Z;
  qt_nextTask : option tid;
  qt_isFinished : bool;
  qt_onWait : bool;
  qt_isWeStart : bool;
  qt_prio : Z;
  qt_curTaskIdx : nat;
  qt_hasDestroy : bool;            (* f->destroy is not null *)
  qt_hasTimeoutCb : bool;          (* timeoutScheduleCb_ is not null *)
}.

#[export] Instance QueueTask_eta : Eta QueueTask := λ t,
  mkQueueTask (qt_gid t) (qt_label t) (qt_qos t) (qt_rc t) (qt_preStatus t) (qt_curStatus t)
    (qt_statusTime t) (qt_fromTid t) (qt_uptime t) (qt_insertHead t) (qt_delay t)
    (qt_schedTimeout t) (qt_nextTask t) (qt_isFinished t) (qt_onWait t) (qt_isWeStart t)
    (qt_prio t) (qt_curTaskIdx t) (qt_hasDestroy t)
    (qt_hasTimeoutCb t).

#[export] Instance QueueTask_inhabited : Inhabited QueueTask :=
  populate (mkQueueTask 0 "" qos_default 0 PENDING PENDING 0 0 0 false 0 0 None
              false false false 0 0 false false).

Inductive Event :=
| EvExec (t : tid)        (* f->exec(f) *)
| EvDestroy (t : tid)     (* f->destroy(f) *)
| EvFree (t : tid)        (* FreeMem() *)
| EvWakeWaiters (t : tid) (* finishCond_.notify_all() *)
| EvReady (t : tid)       (* Scheduler::PushTask *)
| EvTimeoutCb (t : tid)   (* the schedule timeout callback of t submitted *)
| EvWatchdogCb (t : tid)  (* the queue's timeout callback submitted for t *).

#[export] Instance Event_eq_dec : EqDecision Event.
Proof. solve_decision. Defined.

Record World := mkWorld {
  w_tasks : gmap tid QueueTask;
  w_now : Z;          (* steady_clock, microseconds *)
  w_cntvct : Z;       (* TimeStampCntvct() *)
  w_taskId : Z;       (* g_taskId *)
  w_trace : list Event;
  w_trafficRecordInfo : list (Z * string);   (* TrafficRecord::trafficRecordInfo *)
}.

#[export] Instance World_eta : Eta World := λ w,
  mkWorld (w_tasks w) (w_now w) (w_cntvct w) (w_taskId w) (w_trace w) (w_trafficRecordInfo w).

Definition task_at (w : World) (t : tid) : QueueTask := w_tasks w !!! t.
Definition upd_task (t : tid) (f : QueueTask → QueueTask) (w : World) : World :=
  w <| w_tasks ::= alter f t |>.
Definition emit (e : Event) (w : World) : World := w <| w_trace ::= λ tr, tr ++ [e] |>.

(** ** TaskBase *)

Definition SetStatus (s : TaskStatus) (t : tid) (w : World) : World :=
  upd_task t (λ q, q <| qt_statusTime := w_cntvct w |> <| qt_preStatus := qt_curStatus q |>
                     <| qt_curStatus := s |>) w.

Definition QueueTask_FreeMem (t : tid) (w : World) : World := emit (EvFree t) w.

Definition IncDeleteRef (t : tid) (w : World) : World :=
  upd_task t (λ q, q <| qt_rc := u32 (qt_rc q + 1) |>) w.

Definition DecDeleteRef (t : tid) (w : World) : World :=
  let v := qt_rc (task_at w t) in
  let w := upd_task t (λ q, q <| qt_rc := u32 (qt_rc q - 1) |>) w in
  if decide (v = 1) then QueueTask_FreeMem t w else w.

(** ** QueueTask *)

Record task_attr_private := mkTaskAttr {
  ta_qos : Z;
  ta_name : string;
  ta_delay : Z;
  ta_timeout : Z;
  ta_notifyWorker : bool;
  ta_isDelaying : bool;
  ta_prio : Z;
  ta_taskLocal : bool;
  ta_headInsert : bool;
  ta_timeoutCb : option tid;
  ta_stackSize : Z;
  ta_groupRoot : bool;
}.

#[export] Instance task_attr_private_eta : Eta task_attr_private := λ a,
  mkTaskAttr (ta_qos a) (ta_name a) (ta_delay a) (ta_timeout a) (ta_notifyWorker a) (ta_isDelaying a) (ta_prio a)
    (ta_taskLocal a) (ta_headInsert a) (ta_timeoutCb a) (ta_stackSize a) (ta_groupRoot a).

(** The constructor, [handlerName] being [None] when [handler] is null.  The
    new object is placed at the address [t] of the function storage. *)
Definition QueueTask_ctor (handlerName : option string) (attr : option task_attr_private)
    (insertHead : bool) (hasDestroy : bool) (t : tid) (w : World) : World :=
  let gid := u64 (w_taskId w + 1) in
  let label :=
    match handlerName, attr with
    | Some n, Some a => (n +:+ "_" +:+ ta_name a +:+ "_" +:+ pretty gid)%string
    | Some n, None => (n +:+ "_" +:+ pretty gid)%string
    | None, _ => ""
    end in
  let qos := match attr with
             | Some a => QoS (ta_qos a)
             | None => QoS qos_default end in
  let delay := match attr with Some a => ta_delay a | None => 0 end in
  let uptime := match attr with Some a => u64 (w_now w + ta_delay a) | None => w_now w end in
  let prio := match attr with Some a => ta_prio a | None => ffrt_queue_priority_low end in
  let timeout := match attr with Some a => ta_timeout a | None => 0 end in
  let cb := match attr with Some a => bool_decide (is_Some (ta_timeoutCb a)) | None => false end in
  w <| w_taskId := gid |>
    <| w_tasks ::= <[t := mkQueueTask gid label qos 1 PENDING PENDING (w_cntvct w) 0 uptime
                            insertHead delay timeout None false false false prio 0 hasDestroy cb]> |>.

Definition QueueTask_Dequeue (t : tid) (w : World) : World := SetStatus DEQUEUED t w.

Definition QueueTask_SetNextTask (t next : tid) (w : World) : World :=
  upd_task t (λ q, q <| qt_nextTask := Some next |>) w.

Definition QueueTask_SetPriority (t : tid) (prio : Z) (w : World) : World :=
  upd_task t (λ q, q <| qt_prio := prio |>) w.

Definition QueueTask_SetQos (t : tid) (qos : Z) (w : World) : World :=
  upd_task t (λ q, q <| qt_qos := QoS qos |>) w.

Definition QueueTask_Prepare (t : tid) (w : World) : World := SetStatus ENQUEUED t w.

Definition QueueTask_Ready (t : tid) (w : World) : World := emit (EvReady t) (SetStatus READY t w).

Definition QueueTask_Notify (t : tid) (w : World) : World :=
  let w := upd_task t (λ q, q <| qt_isFinished := true |>) w in
  if qt_onWait (task_at w t) then emit (EvWakeWaiters t) w else w.

Definition destroy_func (t : tid) (w : World) : World :=
  if qt_hasDestroy (task_at w t) then emit (EvDestroy t) w else w.

Definition QueueTask_Destroy (t : tid) (w : World) : World := DecDeleteRef t (destroy_func t w).

Definition QueueTask_Finish (t : tid) (w : World) : World := QueueTask_Notify t (destroy_func t w).

Definition QueueTask_Cancel (t : tid) (w : World) : World :=
  QueueTask_Destroy t (QueueTask_Notify t (SetStatus CANCELED t w)).

(** One evaluation of the loop condition of [QueueTask::Wait]: [true] when the
    caller keeps waiting on [finishCond_]. *)
Definition QueueTask_Wait (t : tid) (w : World) : World * bool :=
  let w := upd_task t (λ q, q <| qt_onWait := true |>) w in
  (w, negb (qt_isFinished (task_at w t))).

Section match_name.
(** [std::regex_match(str, std::regex(pattern))] *)
Context (regex_match : string → string → bool).

Definition QueueTask_IsMatch (name : string) (w : World) (t : tid) : bool :=
  regex_match (qt_label (task_at w t)) (".*_" +:+ name +:+ "_.*").
End match_name.

(** ** Lemmas *)

Lemma task_at_upd w t t' f :
  task_at (upd_task t f w) t' =
    if decide (t = t' ∧ is_Some (w_tasks w !! t)) then f (task_at w t') else task_at w t'.
Proof.
  unfold task_at, upd_task; simpl. rewrite !lookup_total_alt.
  destruct (decide (t = t')) as [<-|Hne].
  - rewrite lookup_alter_eq. destruct (w_tasks w !! t) as [q|] eqn:Hq; simpl.
    + rewrite decide_True by eauto. done.
    + rewrite decide_False; [done|]. intros [_ [? ?]]. congruence.
  - rewrite lookup_alter_ne by done. rewrite decide_False by tauto. done.
Qed.

(** A projection an update does not touch is read unchanged. *)
Lemma task_at_upd_proj {A} (p : QueueTask → A) w t t' f :
  (∀ q, p (f q) = p q) → p (task_at (upd_task t f w) t') = p (task_at w t').
Proof. intros Hp. rewrite task_at_upd. case_decide; [apply Hp|done]. Qed.

Lemma task_at_emit e w t : task_at (emit e w) t = task_at w t.
Proof. done. Qed.

Lemma upd_task_now t f w : w_now (upd_task t f w) = w_now w.
Proof. done. Qed.

Lemma upd_task_trace t f w : w_trace (upd_task t f w) = w_trace w.
Proof. done. Qed.
