(* ===== verification/QueueStrategy.v ===== *)
(** * Dequeue strategies

    Models src/queue/queue_strategy.h.  A strategy takes the pending maps of a
    queue and the current time and returns the task to run next together with
    the remaining maps; [None] stands for the undefined behaviour of
    dereferencing [begin()] of an empty map. *)

From S2P Require Import Prelude Multimap Types QueueTask.

Abbreviation whenmap := (list (Z * tid)).

(** ** DequeBatch *)

Fixpoint DequeBatch_loop (now : Z) (head node : tid) (m : whenmap) (w : World)
    : whenmap * World :=
  match m with
  | [] => ([], w)
  | (k, next) :: m' =>
      if decide (k < now) then
        if decide (qt_qos (task_at w next) ≠ qt_qos (task_at w head)) then (m, w)
        else DequeBatch_loop now head next m'
               (QueueTask_Dequeue next (QueueTask_SetNextTask node next w))
      else (m, w)
  end.

Definition DequeBatch (now : Z) (m : whenmap) (w : World) : option (tid * whenmap * World) :=
  match m with
  | [] => None
  | (_, head) :: m' =>
      let '(m'', w) := DequeBatch_loop now head head m' (QueueTask_Dequeue head w) in
      Some (head, m'', w)
  end.

(** ** Strategies over one map per priority *)

(** [map.empty()] and [map.cbegin()->first] of the map at an index *)
Definition map_at (maps : list whenmap) (i : nat) : whenmap := default [] (maps !! i).
Definition begin_time (m : whenmap) : option Z := fst <$> head m.

(** [erase(cbegin())] of the map at an index *)
Definition pop_at (i : nat) (maps : list whenmap) : option (tid * list whenmap) :=
  match map_at maps i with
  | [] => None
  | (_, t) :: m' => Some (t, <[i := m']> maps)
  end.

(** First index of [idxs] whose map is not empty and satisfies [p] on its
    earliest time: the selection loops with their [break]. *)
Fixpoint first_idx (p : nat → Z → bool) (maps : list whenmap) (idxs : list nat) : option nat :=
  match idxs with
  | [] => None
  | i :: idxs' =>
      match begin_time (map_at maps i) with
      | Some k => if p i k then Some i else first_idx p maps idxs'
      | None => first_idx p maps idxs'
      end
  end.

Definition priority_pick (now : Z) (maps : list whenmap) : nat :=
  default (Z.to_nat ffrt_queue_priority_idle)
    (first_idx (λ _ k, bool_decide (k <= now)) maps (seq 0 4)).

Definition DequeSingleByPriority (now : Z) (maps : list whenmap) (w : World)
    : option (tid * list whenmap * World) :=
  '(t, maps') ← pop_at (priority_pick now maps) maps;
  Some (t, maps', QueueTask_Dequeue t w).

(** ** DequeSingleAgainstStarvation *)

Definition maxPullTaskCount : Z := 5.

(** The first loop: the map with the earliest time, starting from the idle one. *)
Fixpoint earliest_idx (maps : list whenmap) (best : nat) (idxs : list nat) : nat :=
  match idxs with
  | [] => best
  | i :: idxs' =>
      let best' :=
        match begin_time (map_at maps i), begin_time (map_at maps best) with
        | None, _ => best
        | Some _, None => i
        | Some k, Some kb => if decide (kb > k) then i else best
        end in
      earliest_idx maps best' idxs'
  end.

Definition starvation_pick (now : Z) (maps : list whenmap) (pulled : list Z) : nat :=
  let iterIndex := earliest_idx maps (Z.to_nat ffrt_inner_queue_priority_idle) (seq 0 4) in
  default iterIndex
    (first_idx (λ i k, bool_decide (pulled !!! i < maxPullTaskCount) && bool_decide (k < now))
       maps (seq 0 4)).

(** [pulledTaskCount[i]++] and the reset of the counts of higher priorities *)
Definition starvation_count (i : nat) (pulled : list Z) : list Z :=
  replicate i 0 ++ (pulled !!! i + 1) :: drop (S i) pulled.

Definition DequeSingleAgainstStarvation (now : Z) (maps : list whenmap) (pulled : list Z)
    (w : World) : option (tid * list whenmap * list Z * World) :=
  let i := starvation_pick now maps pulled in
  '(t, maps') ← pop_at i maps;
  Some (t, maps', starvation_count i pulled, QueueTask_Dequeue t w).

(** ** DequeBatch: what is taken and how it is linked *)

(** The tasks a batch takes after its head: the due ones up to the first with
    another QoS. *)
Fixpoint batch_prefix (now qos : Z) (w : World) (m : whenmap) : whenmap :=
  match m with
  | [] => []
  | (k, t) :: m' =>
      if decide (k < now ∧ qt_qos (task_at w t) = qos) then (k, t) :: batch_prefix now qos w m'
      else []
  end.

(** [linked w t l]: from [t], the next pointers visit exactly the tasks [l]. *)
Fixpoint linked (w : World) (t : tid) (l : list tid) : Prop :=
  match l with
  | [] => qt_nextTask (task_at w t) = None
  | t' :: l' => qt_nextTask (task_at w t) = Some t' ∧ linked w t' l'
  end.

Definition in_store (w : World) (t : tid) : Prop := is_Some (w_tasks w !! t).

Lemma batch_prefix_prefix now qos w m : batch_prefix now qos w m `prefix_of` m.
Proof.
  induction m as [|[k t] m IH]; simpl; [done|]. case_decide; [|apply prefix_nil].
  by apply prefix_cons.
Qed.

Lemma batch_prefix_elem_of now qos w m t :
  t ∈ (batch_prefix now qos w m).*2 → t ∈ m.*2.
Proof.
  rewrite !list_elem_of_fmap. intros (x & -> & Hx). exists x. split; [done|].
  eapply prefix_elem_of, Hx. apply batch_prefix_prefix.
Qed.

Lemma upd_task_in_store t f w t' : in_store (upd_task t f w) t' ↔ in_store w t'.
Proof.
  unfold in_store, upd_task; simpl. destruct (decide (t = t')) as [<-|].
  - by rewrite lookup_alter_eq, fmap_is_Some.
  - by rewrite lookup_alter_ne.
Qed.

Lemma emit_in_store e w t : in_store (emit e w) t ↔ in_store w t.
Proof. done. Qed.

Lemma batch_prefix_ext now qos w w' m :
  (∀ t, qt_qos (task_at w' t) = qt_qos (task_at w t)) →
  batch_prefix now qos w' m = batch_prefix now qos w m.
Proof. intros H. induction m as [|[k t] m IH]; simpl; [done|]. rewrite H, IH. done. Qed.

(** One step of the batch loop, as the world sees it. *)
Definition batch_step (node next : tid) (w : World) : World :=
  QueueTask_Dequeue next (QueueTask_SetNextTask node next w).

Lemma batch_step_qos node next w t :
  qt_qos (task_at (batch_step node next w) t) = qt_qos (task_at w t).
Proof.
  unfold batch_step, QueueTask_Dequeue, SetStatus, QueueTask_SetNextTask.
  by rewrite !task_at_upd_proj.
Qed.

Lemma batch_step_next node next w t :
  in_store w node →
  qt_nextTask (task_at (batch_step node next w) t) =
    if decide (node = t) then Some next else qt_nextTask (task_at w t).
Proof.
  intros Hin. unfold batch_step, QueueTask_Dequeue, SetStatus, QueueTask_SetNextTask.
  rewrite task_at_upd_proj by done. rewrite task_at_upd.
  destruct (decide (node = t)) as [<-|].
  - rewrite decide_True by done. done.
  - rewrite decide_False by tauto. done.
Qed.

Lemma batch_step_in_store node next w t : in_store (batch_step node next w) t ↔ in_store w t.
Proof.
  unfold batch_step, QueueTask_Dequeue, SetStatus, QueueTask_SetNextTask.
  by rewrite !upd_task_in_store.
Qed.

Lemma batch_step_status node next w t :
  in_store w next →
  qt_curStatus (task_at (batch_step node next w) t) =
    if decide (next = t) then DEQUEUED else qt_curStatus (task_at w t).
Proof.
  intros Hin. unfold batch_step, QueueTask_Dequeue, SetStatus.
  rewrite task_at_upd. destruct (decide (next = t)) as [<-|].
  - rewrite decide_True; [done|]. split; [done|]. unfold QueueTask_SetNextTask.
    by apply upd_task_in_store.
  - rewrite decide_False by tauto. unfold QueueTask_SetNextTask. by rewrite task_at_upd_proj.
Qed.

Lemma DequeBatch_loop_spec now head node m w :
  NoDup (node :: m.*2) →
  Forall (in_store w) (node :: m.*2) →
  Forall (λ t, qt_nextTask (task_at w t) = None) (node :: m.*2) →
  let p := batch_prefix now (qt_qos (task_at w head)) w m in
  ∃ w', DequeBatch_loop now head node m w = (drop (length p) m, w') ∧
    linked w' node (p.*2) ∧
    (∀ t, t ∈ p.*2 → qt_curStatus (task_at w' t) = DEQUEUED) ∧
    (∀ t, t ∉ p.*2 → qt_curStatus (task_at w' t) = qt_curStatus (task_at w t)) ∧
    (∀ t, t ∉ node :: p.*2 → qt_nextTask (task_at w' t) = qt_nextTask (task_at w t)).
Proof.
  revert node w. induction m as [|[k next] m IH]; intros node w Hnd Hst Hnx.
  { exists w. apply Forall_cons in Hnx as [Hn _]. split_and!; naive_solver set_solver. }
  cbv zeta. change ((k, next) :: m).*2 with (next :: m.*2) in *.
  simpl DequeBatch_loop. simpl batch_prefix.
  destruct (decide (k < now)) as [Hk|Hk]; last first.
  { rewrite decide_False by tauto. exists w. apply Forall_cons in Hnx as [Hn _].
    split_and!; naive_solver set_solver. }
  destruct (decide (qt_qos (task_at w next) = qt_qos (task_at w head))) as [Hq|Hq]; last first.
  { rewrite decide_True by done. rewrite decide_False by tauto. exists w.
    apply Forall_cons in Hnx as [Hn _]. split_and!; naive_solver set_solver. }
  rewrite decide_False by tauto. rewrite decide_True by done.
  change (QueueTask_Dequeue next (QueueTask_SetNextTask node next w)) with (batch_step node next w).
  assert (Hnode : in_store w node) by (by inv Hst).
  assert (Hnext : in_store w next) by (inv Hst; by inv H2).
  apply NoDup_cons in Hnd as [Hni Hnd]. apply not_elem_of_cons in Hni as [Hne Hni].
  destruct (IH next (batch_step node next w)) as (w' & Heq & Hl & Hs & Hs' & Hf).
  - done.
  - inv Hst. eapply Forall_impl; [done|]. intros t. by rewrite batch_step_in_store.
  - inv Hnx. rewrite Forall_forall in H2 |- *. intros t Ht. rewrite batch_step_next by done.
    rewrite decide_False; [by apply H2|]. intros ->. set_solver.
  - rewrite batch_step_qos in *. rewrite (batch_prefix_ext _ _ w) in * by (intros; apply batch_step_qos).
    exists w'. split_and!.
    + by rewrite Heq.
    + simpl. split; [|done]. rewrite Hf.
      * rewrite batch_step_next by done. by rewrite decide_True.
      * apply not_elem_of_cons. split; [done|]. intros Hin. eapply Hni, batch_prefix_elem_of, Hin.
    + intros t Ht. simpl in Ht.
      destruct (decide (t ∈ (batch_prefix now (qt_qos (task_at w head)) w m).*2)) as [Hp|Hp]; [by apply Hs|].
      rewrite Hs' by done. rewrite batch_step_status by done. rewrite decide_True; [done|]. set_solver.
    + intros t Ht. simpl in Ht. rewrite Hs' by set_solver. rewrite batch_step_status by done.
      rewrite decide_False; [done|]. set_solver.
    + intros t Ht. simpl in Ht. rewrite Hf by set_solver. rewrite batch_step_next by done.
      rewrite decide_False; [done|]. set_solver.
Qed.

(** ** DequeSingleByPriority *)

Lemma first_idx_Some p maps idxs i :
  first_idx p maps idxs = Some i →
  ∃ l1 l2, idxs = l1 ++ i :: l2 ∧
    (∃ k, begin_time (map_at maps i) = Some k ∧ p i k = true) ∧
    (∀ j k, j ∈ l1 → begin_time (map_at maps j) = Some k → p j k = false).
Proof.
  induction idxs as [|j idxs IH]; simpl; [done|].
  destruct (begin_time (map_at maps j)) as [k|] eqn:Hb; [destruct (p j k) eqn:Hp|];
    intros H; simplify_eq.
  - exists [], idxs. split_and!; [done|by eauto|set_solver].
  - destruct (IH H) as (l1 & l2 & -> & ? & Hno). exists (j :: l1), l2.
    split_and!; [done|done|]. intros j' k' [->|?]%elem_of_cons ?; [congruence|eauto].
  - destruct (IH H) as (l1 & l2 & -> & ? & Hno). exists (j :: l1), l2.
    split_and!; [done|done|]. intros j' k' [->|?]%elem_of_cons ?; [congruence|eauto].
Qed.

Lemma first_idx_None p maps idxs :
  first_idx p maps idxs = None ↔
    ∀ i k, i ∈ idxs → begin_time (map_at maps i) = Some k → p i k = false.
Proof.
  induction idxs as [|j idxs IH]; simpl; [set_solver|].
  destruct (begin_time (map_at maps j)) as [k|] eqn:Hb; [destruct (p j k) eqn:Hp|].
  - split; [done|]. intros H. rewrite (H j k) in Hp; [done|left|done].
  - rewrite IH. split; [intros H i k' [->|?]%elem_of_cons ?; [congruence|eauto]|].
    intros H i k' ??. apply (H i k'); [by right|done].
  - rewrite IH. split; [intros H i k' [->|?]%elem_of_cons ?; [congruence|eauto]|].
    intros H i k' ??. apply (H i k'); [by right|done].
Qed.

(** [seq] up to a selected index: the indices before it are the smaller ones. *)
Lemma seq_split_lt n l1 i l2 : seq 0 n = l1 ++ i :: l2 → l1 = seq 0 i ∧ (i < n)%nat.
Proof.
  intros H. assert (i = length l1) as Hi.
  { assert (Hl : seq 0 n !! length l1 = Some i) by (rewrite H; by apply list_lookup_middle).
    apply lookup_seq in Hl as [? _]. lia. }
  assert (Hlen : length (seq 0 n) = length (l1 ++ i :: l2)) by (by rewrite H).
  rewrite length_seq, length_app in Hlen. simpl in Hlen.
  split; [|lia]. apply (f_equal (take i)) in H. rewrite take_app_length' in H by done.
  rewrite <-H, take_seq. f_equal. lia.
Qed.

Lemma first_idx_seq_Some p maps n i :
  first_idx p maps (seq 0 n) = Some i →
  (i < n)%nat ∧ (∃ k, begin_time (map_at maps i) = Some k ∧ p i k = true) ∧
  (∀ j k, (j < i)%nat → begin_time (map_at maps j) = Some k → p j k = false).
Proof.
  intros (l1 & l2 & Hseq & Hi & Hno)%first_idx_Some. apply seq_split_lt in Hseq as [-> ?].
  split_and!; [done|done|]. intros j k Hj. apply Hno, elem_of_seq. lia.
Qed.

Lemma first_idx_seq_is_Some p maps n j k :
  (j < n)%nat → begin_time (map_at maps j) = Some k → p j k = true →
  ∃ i, first_idx p maps (seq 0 n) = Some i ∧ (i <= j)%nat.
Proof.
  intros Hj Hb Hp. destruct (first_idx p maps (seq 0 n)) as [i|] eqn:Hf.
  - exists i. split; [done|]. apply first_idx_seq_Some in Hf as (_ & _ & Hno).
    destruct (decide (i <= j)%nat); [done|]. rewrite (Hno j k) in Hp; [done|lia|done].
  - rewrite first_idx_None in Hf. rewrite (Hf j k) in Hp; [done|apply elem_of_seq; lia|done].
Qed.

Lemma begin_time_Some m k : begin_time m = Some k ↔ ∃ t m', m = (k, t) :: m'.
Proof.
  destruct m as [|[k' t] m]; unfold begin_time; simpl; [naive_solver|].
  split; [intros [= ->]; eauto|by intros (?&?&[= -> _ _])].
Qed.

Lemma pop_at_Some i maps t maps' :
  pop_at i maps = Some (t, maps') ↔
    ∃ k m', map_at maps i = (k, t) :: m' ∧ maps' = <[i := m']> maps.
Proof.
  unfold pop_at. destruct (map_at maps i) as [|[k t'] m'].
  - split; [done|]. by intros (?&?&?&_).
  - split; [intros [= -> <-]; eauto|]. by intros (?&?&[= -> -> ->]&->).
Qed.

Lemma map_at_alter f i maps j :
  map_at (alter f i maps) j =
    if decide (i = j ∧ (i < length maps)%nat) then f (map_at maps j) else map_at maps j.
Proof.
  unfold map_at. destruct (decide (i = j)) as [<-|Hne].
  - destruct (decide (i < length maps)%nat) as [Hlt|Hge].
    + rewrite decide_True by done. destruct (lookup_lt_is_Some_2 maps i Hlt) as [m Hm].
      rewrite list_lookup_alter_eq, Hm. done.
    + rewrite decide_False by tauto. rewrite list_lookup_alter_eq.
      rewrite lookup_ge_None_2 by lia. done.
  - rewrite decide_False by tauto. by rewrite list_lookup_alter_ne.
Qed.

Lemma map_at_insert m i maps j :
  map_at (<[i := m]> maps) j =
    if decide (i = j ∧ (i < length maps)%nat) then m else map_at maps j.
Proof.
  unfold map_at. destruct (decide (i = j)) as [<-|Hne].
  - destruct (decide (i < length maps)%nat) as [Hlt|Hge].
    + rewrite decide_True by done. by rewrite list_lookup_insert_eq.
    + rewrite decide_False by tauto. by rewrite list_insert_ge by lia.
  - rewrite decide_False by tauto. by rewrite list_lookup_insert_ne.
Qed.

Lemma map_at_lt maps i : map_at maps i ≠ [] → (i < length maps)%nat.
Proof.
  unfold map_at. intros H. apply lookup_lt_is_Some. destruct (maps !! i); [by eexists|done].
Qed.

(** ** DequeSingleAgainstStarvation: bounded bypass *)

(** A map is due when its earliest task is. *)
Definition due (now : Z) (m : whenmap) : bool :=
  match begin_time m with Some k => bool_decide (k < now) | None => false end.

(** Consecutive dequeues: between two of them the maps and the clock change in
    any way (pushes, removals), the counts only through the dequeues.  The run
    records each task taken with the maps it was taken from. *)
Fixpoint starvation_run (envs : list (Z * list whenmap)) (pulled : list Z) (w : World)
    : list (tid * list whenmap) :=
  match envs with
  | [] => []
  | (now, maps) :: envs' =>
      match DequeSingleAgainstStarvation now maps pulled w with
      | Some (t, _, pulled', w') => (t, maps) :: starvation_run envs' pulled' w'
      | None => []
      end
  end.

(** Potential of the counts below [j]: the digits in base [maxPullTaskCount + 1]. *)
Fixpoint potential (pulled : list Z) : Z :=
  match pulled with
  | [] => 0
  | c :: pulled' => c `min` maxPullTaskCount + (maxPullTaskCount + 1) * potential pulled'
  end.

Lemma potential_bounds l :
  Forall (λ c, 0 <= c) l → 0 <= potential l < (maxPullTaskCount + 1) ^ Z.of_nat (length l).
Proof.
  induction 1 as [|c l Hc _ IH]; simpl; [lia|].
  rewrite Nat2Z.inj_succ, Z.pow_succ_r by lia. unfold maxPullTaskCount in *. lia.
Qed.

Lemma potential_app l1 l2 :
  potential (l1 ++ l2) = potential l1 + (maxPullTaskCount + 1) ^ Z.of_nat (length l1) * potential l2.
Proof.
  induction l1 as [|c l1 IH]; [simpl; lia|].
  change (length (c :: l1)) with (S (length l1)).
  rewrite Nat2Z.inj_succ, Z.pow_succ_r by lia. simpl. rewrite IH. ring.
Qed.

Lemma potential_replicate n : potential (replicate n 0) = 0.
Proof. induction n as [|n IH]; simpl; [done|]. rewrite IH. done. Qed.

(** Taking from an index whose count is below the limit raises the potential. *)
Lemma starvation_count_potential i j pulled :
  (i < j)%nat → (j <= length pulled)%nat → Forall (λ c, 0 <= c) pulled →
  pulled !!! i < maxPullTaskCount →
  potential (take j pulled) < potential (take j (starvation_count i pulled)).
Proof.
  intros Hij Hj Hpos Hlt. unfold starvation_count.
  destruct (lookup_lt_is_Some_2 pulled i) as [c Hc]; [lia|].
  rewrite (list_lookup_total_correct _ _ _ Hc) in *.
  rewrite <-(take_drop_middle pulled i c Hc) at 1.
  assert (Hlen : length (take i pulled) = i) by (rewrite length_take; lia).
  rewrite !take_app, Hlen, length_replicate.
  rewrite !(take_ge _ j) by (rewrite ?length_replicate; lia).
  destruct (j - i)%nat as [|n] eqn:Hn; [lia|]. simpl.
  rewrite !potential_app, potential_replicate, length_replicate, Hlen. simpl.
  assert (Hlo : potential (take i pulled) < (maxPullTaskCount + 1) ^ Z.of_nat i).
  { rewrite <-Hlen at 2. apply potential_bounds. by apply Forall_take. }
  assert (0 <= c) by (by eapply Forall_lookup_1 in Hc).
  unfold maxPullTaskCount in *. rewrite !Z.min_l by lia.
  pose proof (Z.pow_pos_nonneg 6 (Z.of_nat i) ltac:(lia) ltac:(lia)). simpl (5 + 1) in *. nia.
Qed.

Lemma starvation_count_length i pulled :
  (i < length pulled)%nat → length (starvation_count i pulled) = length pulled.
Proof.
  intros. unfold starvation_count. rewrite length_app, length_replicate. simpl.
  rewrite length_drop. lia.
Qed.

Lemma starvation_count_above i j pulled :
  (i < j)%nat → (j < length pulled)%nat → starvation_count i pulled !!! j = pulled !!! j.
Proof.
  intros. rewrite !list_lookup_total_alt. f_equal. unfold starvation_count.
  rewrite lookup_app_r; rewrite length_replicate; [|lia].
  destruct (j - i)%nat as [|n] eqn:Hn; [lia|]. simpl. rewrite lookup_drop. f_equal. lia.
Qed.

Lemma starvation_count_pos i pulled :
  (i < length pulled)%nat →
  Forall (λ c, 0 <= c) pulled → Forall (λ c, 0 <= c) (starvation_count i pulled).
Proof.
  intros Hi H. unfold starvation_count. apply Forall_app. split.
  - apply Forall_replicate. lia.
  - constructor; [|by apply Forall_drop].
    destruct (lookup_lt_is_Some_2 pulled i) as [c Hc]; [lia|].
    rewrite (list_lookup_total_correct _ _ _ Hc). eapply Forall_lookup_1 in Hc; [|done].
    simpl in Hc. lia.
Qed.

(** A due index below the limit is bypassed only by a smaller one below the limit. *)
Lemma starvation_pick_due now maps pulled j :
  (j < 4)%nat → due now (map_at maps j) = true → pulled !!! j < maxPullTaskCount →
  let i := starvation_pick now maps pulled in
  (i <= j)%nat ∧ pulled !!! i < maxPullTaskCount ∧ due now (map_at maps i) = true.
Proof.
  intros Hj Hdue Hlt. unfold due in Hdue.
  destruct (begin_time (map_at maps j)) as [k|] eqn:Hk; [|done].
  destruct (first_idx_seq_is_Some
    (λ i k, bool_decide (pulled !!! i < maxPullTaskCount) && bool_decide (k < now))
    maps 4 j k) as (i & Hf & Hi); [done|done|by rewrite Hdue, bool_decide_true|].
  unfold starvation_pick. rewrite Hf. simpl. split; [done|].
  apply first_idx_seq_Some in Hf as (_ & (k' & Hk' & Hp) & _).
  apply andb_true_iff in Hp as [Hp1 Hp2]. split; [by apply bool_decide_eq_true in Hp1|].
  unfold due. by rewrite Hk'.
Qed.

Lemma starvation_run_bound envs pulled w j :
  (j < 4)%nat → length pulled = 5%nat → Forall (λ c, 0 <= c) pulled →
  pulled !!! j < maxPullTaskCount →
  Forall (λ e, due e.1 (map_at e.2 j) = true) envs →
  (maxPullTaskCount + 1) ^ Z.of_nat j - potential (take j pulled) <= Z.of_nat (length envs) →
  ∃ t maps i k m, (t, maps) ∈ starvation_run envs pulled w ∧
    (j <= i)%nat ∧ map_at maps i = (k, t) :: m.
Proof.
  intros Hj. revert pulled w.
  induction envs as [|[now maps] envs IH]; intros pulled w Hlen Hpos Hlt Hdue Hn.
  { simpl in Hn. pose proof (potential_bounds (take j pulled) (Forall_take _ _ _ Hpos)) as Hb.
    rewrite length_take_le in Hb by lia. lia. }
  apply Forall_cons in Hdue as [Hd Hdue]. simpl in Hd.
  destruct (starvation_pick_due _ _ _ _ Hj Hd Hlt) as (Hi & Hil & Hid).
  simpl. unfold DequeSingleAgainstStarvation.
  set (i := starvation_pick now maps pulled) in *.
  unfold due in Hid. destruct (begin_time (map_at maps i)) as [k|] eqn:Hk; [|done].
  apply begin_time_Some in Hk as (t & m & Hm).
  assert (pop_at i maps = Some (t, <[i := m]> maps)) as -> by (apply pop_at_Some; eauto).
  simpl. destruct (decide (i = j)) as [->|Hne].
  { exists t, maps, j, k, m. split_and!; [by left|lia|by rewrite Hm]. }
  assert (i < j)%nat by lia.
  destruct (IH (starvation_count i pulled) (QueueTask_Dequeue t w))
    as (t' & maps' & i' & k' & m' & Hin & ? & ?).
  - by rewrite starvation_count_length by lia.
  - apply starvation_count_pos; [lia|done].
  - by rewrite starvation_count_above by lia.
  - done.
  - pose proof (starvation_count_potential i j pulled ltac:(lia) ltac:(lia) Hpos Hil).
    simpl in Hn. lia.
  - exists t', maps', i', k', m'. split_and!; [by right|done|done].
Qed.

Lemma batch_prefix_longest now qos w m :
  ∃ rest, m = batch_prefix now qos w m ++ rest ∧
    drop (length (batch_prefix now qos w m)) m = rest ∧
    Forall (λ x, x.1 < now ∧ qt_qos (task_at w x.2) = qos) (batch_prefix now qos w m) ∧
    (∀ x, head rest = Some x → ¬ (x.1 < now ∧ qt_qos (task_at w x.2) = qos)).
Proof.
  induction m as [|[k t] m IH]; simpl; [by exists []|].
  destruct IH as (rest & Hm & Hd & Hf & Hh). case_decide as Hk; simpl.
  - exists rest. split_and!; [by f_equal|done|by constructor|done].
  - exists ((k, t) :: m). split_and!; [done|done|done|]. by intros x [= <-].
Qed.

(** Fields the dequeue does not write. *)
Definition deque_frame {A} (p : QueueTask → A) : Prop :=
  (∀ q s c pre, p (q <| qt_statusTime := c |> <| qt_preStatus := pre |> <| qt_curStatus := s |>) = p q) ∧
  (∀ q n, p (q <| qt_nextTask := n |>) = p q).

Lemma DequeBatch_loop_frame {A} (p : QueueTask → A) now head node m w m' w' :
  deque_frame p → DequeBatch_loop now head node m w = (m', w') →
  ∀ t, p (task_at w' t) = p (task_at w t) ∧ (in_store w' t ↔ in_store w t).
Proof.
  intros [H1 H2]. revert node w. induction m as [|[k next] m IH]; intros node w Heq t; simpl in Heq;
    [by simplify_eq|].
  repeat case_decide; try by simplify_eq.
  destruct (IH _ _ Heq t) as [-> ->]. unfold QueueTask_Dequeue, SetStatus, QueueTask_SetNextTask.
  rewrite !upd_task_in_store. split; [|done].
  rewrite task_at_upd_proj by (intros; apply H1).
  rewrite task_at_upd_proj; [done|intros; apply H2].
Qed.

Lemma DequeBatch_frame {A} (p : QueueTask → A) now m w t m' w' :
  deque_frame p → DequeBatch now m w = Some (t, m', w') →
  ∀ t, p (task_at w' t) = p (task_at w t) ∧ (in_store w' t ↔ in_store w t).
Proof.
  intros Hp Hd t'. unfold DequeBatch in Hd. destruct m as [|[k head] m]; [done|].
  destruct (DequeBatch_loop _ _ _ _ _) as [m0 w0] eqn:Hl. simplify_eq.
  destruct (DequeBatch_loop_frame p _ _ _ _ _ _ _ Hp Hl t') as [-> ->].
  unfold QueueTask_Dequeue, SetStatus. rewrite upd_task_in_store. split; [|done].
  destruct Hp as [H1 _]. rewrite task_at_upd_proj; [done|intros; apply H1].
Qed.

Lemma DequeBatch_spec now k head m w :
  NoDup (head :: m.*2) →
  Forall (in_store w) (head :: m.*2) →
  Forall (λ t, qt_nextTask (task_at w t) = None) (head :: m.*2) →
  ∃ p rest w',
    DequeBatch now ((k, head) :: m) w = Some (head, rest, w') ∧
    m = p ++ rest ∧
    Forall (λ x, x.1 < now ∧ qt_qos (task_at w x.2) = qt_qos (task_at w head)) p ∧
    (∀ x, list.head rest = Some x →
       ¬ (x.1 < now ∧ qt_qos (task_at w x.2) = qt_qos (task_at w head))) ∧
    linked w' head (p.*2) ∧
    (∀ t, qt_curStatus (task_at w' t) =
       if decide (t ∈ head :: p.*2) then DEQUEUED else qt_curStatus (task_at w t)) ∧
    (∀ t, t ∉ head :: p.*2 → qt_nextTask (task_at w' t) = qt_nextTask (task_at w t)).
Proof.
  intros Hnd Hst Hnx. set (w1 := QueueTask_Dequeue head w).
  assert (Hq : ∀ t, qt_qos (task_at w1 t) = qt_qos (task_at w t))
    by (intros; by apply task_at_upd_proj).
  assert (Hn : ∀ t, qt_nextTask (task_at w1 t) = qt_nextTask (task_at w t))
    by (intros; by apply task_at_upd_proj).
  assert (Hs : ∀ t, in_store w1 t ↔ in_store w t) by (intros; apply upd_task_in_store).
  destruct (DequeBatch_loop_spec now head head m w1) as (w' & Heq & Hl & Hd & Hu & Hf0).
  - done.
  - eapply Forall_impl; [exact Hst|]. intros t. apply Hs.
  - eapply Forall_impl; [exact Hnx|]. intros t Ht. simpl. by rewrite Hn.
  - rewrite Hq in *. rewrite (batch_prefix_ext _ _ w) in * by done.
    destruct (batch_prefix_longest now (qt_qos (task_at w head)) w m) as (rest & Hm & Hdr & Hf & Hh).
    set (p := batch_prefix now (qt_qos (task_at w head)) w m) in *.
    exists p, rest, w'. split_and!; [|done|done|done|done| |].
    + unfold DequeBatch. change (QueueTask_Dequeue head w) with w1. by rewrite Heq, Hdr.
    + intros t. destruct (decide (t ∈ p.*2)) as [Hp|Hp].
      * rewrite decide_True by set_solver. by apply Hd.
      * rewrite Hu by done. unfold w1, QueueTask_Dequeue, SetStatus. rewrite task_at_upd.
        destruct (decide (head = t)) as [<-|].
        -- rewrite !decide_True; [done|set_solver|]. split; [done|]. by inv Hst.
        -- rewrite !decide_False; [done|set_solver|tauto].
    + intros t Ht. rewrite Hf0 by done. apply Hn.
Qed.

(** ** Properties *)

(** [DequeBatch] takes the head of the map and the longest run of following
    tasks that are due and share its QoS, removes exactly those from the map,
    links them from the head in map order, and marks them (and nothing else)
    dequeued. *)
Theorem DequeBatch_takes_due_same_qos now k head m w :
  NoDup (head :: m.*2) →
  Forall (in_store w) (head :: m.*2) →
  Forall (λ t, qt_nextTask (task_at w t) = None) (head :: m.*2) →
  ∃ p rest w',
    DequeBatch now ((k, head) :: m) w = Some (head, rest, w') ∧
    m = p ++ rest ∧
    Forall (λ x, x.1 < now ∧ qt_qos (task_at w x.2) = qt_qos (task_at w head)) p ∧
    (∀ x, list.head rest = Some x →
       ¬ (x.1 < now ∧ qt_qos (task_at w x.2) = qt_qos (task_at w head))) ∧
    linked w' head (p.*2) ∧
    (∀ t, qt_curStatus (task_at w' t) =
       if decide (t ∈ head :: p.*2) then DEQUEUED else qt_curStatus (task_at w t)).
Proof.
  intros Hnd Hst Hnx. destruct (DequeBatch_spec now k head m w Hnd Hst Hnx)
    as (p & rest & w' & ? & ? & ? & ? & ? & ? & _). by exists p, rest, w'.
Qed.

Definition sample_world : World :=
  mkWorld (<[1%positive := inhabitant]> (<[2%positive := inhabitant]>
             (<[3%positive := inhabitant <| qt_qos := qos_background |>]> ∅))) 100 0 0 [] [].

Lemma DequeBatch_takes_due_same_qos_witness :
  ∃ p rest w',
    DequeBatch 50 [(10, 1%positive); (20, 2%positive); (30, 3%positive)] sample_world
      = Some (1%positive, rest, w') ∧ [(20, 2%positive); (30, 3%positive)] = p ++ rest ∧
    linked w' 1%positive (p.*2).
Proof.
  destruct (DequeBatch_takes_due_same_qos 50 10 1%positive [(20, 2%positive); (30, 3%positive)]
    sample_world) as (p & rest & w' & H1 & H2 & _ & _ & H3 & _).
  - simpl. apply (bool_decide_unpack _). vm_compute. done.
  - simpl. rewrite !Forall_cons; split_and!; [by eexists..|done].
  - simpl. repeat constructor.
  - by exists p, rest, w'.
Defined.

(** [DequeSingleByPriority] takes the earliest task of the highest priority
    that has a due task; with no due task it falls back to the earliest idle
    one. *)
Theorem DequeSingleByPriority_highest_due now maps w t maps' w' :
  DequeSingleByPriority now maps w = Some (t, maps', w') →
  ∃ i k m, map_at maps i = (k, t) :: m ∧ maps' = <[i := m]> maps ∧
    w' = QueueTask_Dequeue t w ∧ (i <= 3)%nat ∧
    (∀ j k', (j < i)%nat → begin_time (map_at maps j) = Some k' → now < k') ∧
    (k <= now ∨
      i = 3%nat ∧ ∀ j k', (j <= 3)%nat → begin_time (map_at maps j) = Some k' → now < k').
Proof.
  unfold DequeSingleByPriority, priority_pick.
  destruct (first_idx _ maps (seq 0 4)) as [i|] eqn:Hf; simpl;
    intros ((t' & maps'') & Hp & [= -> -> ->])%bind_Some;
    apply pop_at_Some in Hp as (k & m & Hm & ->).
  - apply first_idx_seq_Some in Hf as (Hi & (k' & Hk' & Hle) & Hno).
    exists i, k, m. split_and!; [done|done|done|lia| |left].
    + intros j kj Hj Hkj. specialize (Hno j kj Hj Hkj). simpl in Hno. apply bool_decide_eq_false in Hno. lia.
    + unfold begin_time in Hk'. rewrite Hm in Hk'. simplify_eq/=.
      by apply bool_decide_eq_true in Hle.
  - rewrite first_idx_None in Hf.
    assert (Hno : ∀ j k', (j <= 3)%nat → begin_time (map_at maps j) = Some k' → now < k').
    { intros j kj Hj Hkj. specialize (Hf j kj ltac:(apply elem_of_seq; lia) Hkj).
      simpl in Hf. apply bool_decide_eq_false in Hf. lia. }
    exists 3%nat, k, m. split_and!; [done|done|done|lia| |by right].
    intros j kj Hj. apply Hno. lia.
Qed.

Lemma DequeSingleByPriority_highest_due_witness :
  ∃ i k m, map_at [[(90, 1%positive)]; [(20, 2%positive)]; []; []] i = (k, 2%positive) :: m ∧
    (i <= 3)%nat.
Proof.
  destruct (DequeSingleByPriority_highest_due 50 [[(90, 1%positive)]; [(20, 2%positive)]; []; []]
    sample_world 2%positive [[(90, 1%positive)]; []; []; []]
    (QueueTask_Dequeue 2%positive sample_world)) as (i & k & m & H & _ & _ & Hi & _).
  - vm_compute. done.
  - by exists i, k, m.
Defined.

(** [DequeSingleAgainstStarvation] bounds how long a priority is bypassed:
    while a non-idle priority [j] stays due and its count is below the limit,
    among any [6 ^ j] consecutive dequeues one takes a task of priority [j] or
    lower, whatever is pushed meanwhile. *)
Theorem DequeSingleAgainstStarvation_bounded_bypass envs pulled w j :
  (j < 4)%nat → length pulled = 5%nat → Forall (λ c, 0 <= c) pulled →
  pulled !!! j < maxPullTaskCount →
  Forall (λ e, due e.1 (map_at e.2 j) = true) envs →
  6 ^ Z.of_nat j <= Z.of_nat (length envs) →
  ∃ t maps i k m, (t, maps) ∈ starvation_run envs pulled w ∧
    (j <= i)%nat ∧ map_at maps i = (k, t) :: m.
Proof.
  intros Hj Hlen Hpos Hlt Hdue Hn. eapply starvation_run_bound; try done.
  pose proof (potential_bounds (take j pulled) (Forall_take _ _ _ Hpos)).
  change (maxPullTaskCount + 1) with 6 in *. lia.
Qed.

Lemma DequeSingleAgainstStarvation_bounded_bypass_witness :
  ∃ t maps i k m,
    (t, maps) ∈ starvation_run
      (replicate 6 (50, [[(10, 1%positive)]; [(20, 2%positive)]; []; []; []])) [0; 0; 0; 0; 0]
      sample_world ∧ (1 <= i)%nat ∧ map_at maps i = (k, t) :: m.
Proof.
  apply (DequeSingleAgainstStarvation_bounded_bypass _ _ _ 1).
  - lia.
  - done.
  - repeat constructor; lia.
  - vm_compute. done.
  - repeat constructor.
  - simpl. lia.
Defined.
