(* ===== verification/BaseQueue.v ===== *)
(** * BaseQueue

    Models src/queue/base_queue.{h,cpp}: the state every queue shares and the
    operations the concrete queues reuse on one pending map.  An operation that
    takes a map by reference returns the new map.  [bq_notified] counts the
    notifications sent to [cond_]; a waiter that recorded the count when it went
    to sleep is woken once the count has grown. *)

From S2P Require Import Prelude Multimap Types QueueTask QueueStrategy.

Definition QUEUE_NAME_SIZE_MAX : Z := 128.

Record BaseQueue := mkBaseQueue {
  bq_queueId : Z;
  bq_name : string;
  bq_delayStatus : bool;
  bq_isExit : bool;
  bq_isActiveState : bool;
  bq_whenMap : whenmap;
  bq_isEmpty : bool;
  bq_minTime : Z;
  bq_headTaskVec : list (option tid);
  bq_notified : nat;
}.

#[export] Instance BaseQueue_eta : Eta BaseQueue := λ q,
  mkBaseQueue (bq_queueId q) (bq_name q) (bq_delayStatus q) (bq_isExit q) (bq_isActiveState q)
    (bq_whenMap q) (bq_isEmpty q) (bq_minTime q) (bq_headTaskVec q) (bq_notified q).

Definition notify_cond (q : BaseQueue) : BaseQueue := q <| bq_notified ::= S |>.

(** The members without initialiser ([isEmpty_], [minTime_]) are written before
    they are read. *)
Definition BaseQueue_ctor (queueId : Z) (name : option string) : BaseQueue :=
  let n :=
    match name with
    | Some s =>
        if decide (Z.of_nat (String.length s) <= QUEUE_NAME_SIZE_MAX)
        then ("sq_" +:+ s +:+ "_" +:+ pretty queueId)%string
        else ("sq_unnamed_" +:+ pretty queueId)%string
    | None => ("sq_unnamed_" +:+ pretty queueId)%string
    end in
  mkBaseQueue queueId n false false false [] false 0 [None] 0.

(** [Cancel()] on every task of a map, in map order. *)
Definition cancel_all (m : whenmap) (w : World) : World :=
  foldl (λ w x, QueueTask_Cancel x.2 w) w m.

Definition ClearWhenMap (m : whenmap) (q : BaseQueue) (w : World)
    : Z * BaseQueue * whenmap * World :=
  (i32 (Z.of_nat (length m)), notify_cond q, [], cancel_all m w).

Definition BaseQueue_Stop_map (q : BaseQueue) (m : whenmap) (w : World)
    : BaseQueue * whenmap * World :=
  let '(_, q, m, w) := ClearWhenMap m (q <| bq_isExit := true |>) w in (q, m, w).

Definition BaseQueue_Stop (q : BaseQueue) (w : World) : BaseQueue * World :=
  let '(q, m, w) := BaseQueue_Stop_map q (bq_whenMap q) w in (q <| bq_whenMap := m |>, w).

Definition BaseQueue_Remove_map (q : BaseQueue) (m : whenmap) (w : World)
    : Z * BaseQueue * whenmap * World :=
  if bq_isExit q then (0, q, m, w) else ClearWhenMap m q w.

Definition BaseQueue_Remove (q : BaseQueue) (w : World) : Z * BaseQueue * World :=
  let '(r, q, m, w) := BaseQueue_Remove_map q (bq_whenMap q) w in
  (r, q <| bq_whenMap := m |>, w).

Section by_name.
Context (regex_match : string → string → bool).

(** The loop of [Remove(name)]: matching tasks are cancelled and erased. *)
Fixpoint Remove_name_loop (name : string) (m : whenmap) (w : World) : Z * whenmap * World :=
  match m with
  | [] => (0, [], w)
  | (k, t) :: m' =>
      if QueueTask_IsMatch regex_match name w t then
        let '(n, m'', w') := Remove_name_loop name m' (QueueTask_Cancel t w) in (n + 1, m'', w')
      else
        let '(n, m'', w') := Remove_name_loop name m' w in (n, (k, t) :: m'', w')
  end.

Definition BaseQueue_Remove_name_map (name : string) (q : BaseQueue) (m : whenmap) (w : World)
    : Z * whenmap * World :=
  if bq_isExit q then (FAILED, m, w) else Remove_name_loop name m w.

Definition BaseQueue_Remove_name (name : string) (q : BaseQueue) (w : World)
    : Z * BaseQueue * World :=
  let '(r, m, w) := BaseQueue_Remove_name_map name q (bq_whenMap q) w in
  (r, q <| bq_whenMap := m |>, w).

Definition BaseQueue_HasTask_map (name : string) (m : whenmap) (w : World) : bool :=
  existsb (λ x, QueueTask_IsMatch regex_match name w x.2) m.

Definition BaseQueue_HasTask (name : string) (q : BaseQueue) (w : World) : bool :=
  BaseQueue_HasTask_map name (bq_whenMap q) w.
End by_name.

Definition BaseQueue_Remove_task_map (t : tid) (q : BaseQueue) (m : whenmap) (w : World)
    : Z * whenmap :=
  if bq_isExit q then (FAILED, m)
  else match mm_erase_in_range (qt_uptime (task_at w t)) (λ t', bool_decide (t' = t)) m with
       | Some m' => (SUCC, m')
       | None => (FAILED, m)
       end.

Definition BaseQueue_Remove_task (t : tid) (q : BaseQueue) (w : World) : Z * BaseQueue :=
  let '(r, m) := BaseQueue_Remove_task_map t q (bq_whenMap q) w in (r, q <| bq_whenMap := m |>).

Definition BaseQueue_GetDueTaskCount_map (m : whenmap) (w : World) : Z :=
  Z.of_nat (mm_lower_bound (w_now w) m).

Definition BaseQueue_GetDueTaskCount (q : BaseQueue) (w : World) : Z :=
  BaseQueue_GetDueTaskCount_map (bq_whenMap q) w.

Definition BaseQueue_GetHeadTask (q : BaseQueue) : list (option tid) * BaseQueue :=
  match bq_whenMap q with
  | [] => ([], q)
  | (_, t) :: _ =>
      let q := q <| bq_headTaskVec ::= <[0%nat := Some t]> |> in (bq_headTaskVec q, q)
  end.

Definition BaseQueue_GetMapSize (q : BaseQueue) : Z := Z.of_nat (length (bq_whenMap q)).

(** The minimum of the earliest times of the maps at [0..ffrt_queue_priority_idle]. *)
Definition min_begin (maps : list whenmap) (idxs : list nat) : Z :=
  foldl (λ acc i, match begin_time (map_at maps i) with
                  | Some k => if decide (k < acc) then k else acc
                  | None => acc
                  end) UINT64_MAX idxs.

Definition GetWhenMapVecStats (maps : list whenmap) (q : BaseQueue) : BaseQueue :=
  let m := min_begin maps (seq 0 (Z.to_nat (ffrt_queue_priority_idle + 1))) in
  q <| bq_minTime := m |> <| bq_isEmpty := bool_decide (m = UINT64_MAX) |>.

(** The kinds of queue [CreateQueue] builds, by its table. *)
Inductive QueueKind := KSerial | KConcurrent | KInteractive | KAdapter.

Definition CREATE_FUNC_MAP : list (Z * QueueKind) :=
  [(ffrt_queue_serial, KSerial); (ffrt_queue_concurrent, KConcurrent);
   (ffrt_queue_eventhandler_interactive, KInteractive);
   (ffrt_queue_eventhandler_adapter, KAdapter)].

Definition CreateQueue (queueType : Z) : option QueueKind :=
  match list_find (λ x, x.1 = queueType) CREATE_FUNC_MAP with
  | Some (_, (_, k)) => Some k
  | None => None
  end.

(** What a pull returns: the loop goes to sleep for a time, or the function
    returns a task or null. *)
Inductive PullResult := PullWait (diff : Z) | PullRet (t : option tid).

(** ** Lemmas *)

(** The fields no cancellation writes. *)
Definition cancel_frame {A} (p : QueueTask → A) : Prop :=
  (∀ q s c pre, p (q <| qt_statusTime := c |> <| qt_preStatus := pre |> <| qt_curStatus := s |>) = p q) ∧
  (∀ q, p (q <| qt_isFinished := true |>) = p q) ∧
  (∀ q n, p (q <| qt_rc := n |>) = p q).

Lemma destroy_func_task_at t w t' : task_at (destroy_func t w) t' = task_at w t'.
Proof. unfold destroy_func. by case_match. Qed.

Lemma DecDeleteRef_task_at t w t' :
  task_at (DecDeleteRef t w) t' = task_at (upd_task t (λ q, q <| qt_rc := u32 (qt_rc q - 1) |>) w) t'.
Proof. unfold DecDeleteRef. by case_decide. Qed.

Lemma QueueTask_Notify_task_at t w t' :
  task_at (QueueTask_Notify t w) t' = task_at (upd_task t (λ q, q <| qt_isFinished := true |>) w) t'.
Proof. unfold QueueTask_Notify. by case_match. Qed.

Lemma QueueTask_Cancel_frame {A} (p : QueueTask → A) t w t' :
  cancel_frame p → p (task_at (QueueTask_Cancel t w) t') = p (task_at w t').
Proof.
  intros (H1 & H2 & H3). unfold QueueTask_Cancel, QueueTask_Destroy.
  rewrite DecDeleteRef_task_at, task_at_upd_proj by (intros; apply H3).
  rewrite destroy_func_task_at, QueueTask_Notify_task_at, task_at_upd_proj by (intros; apply H2).
  unfold SetStatus. by rewrite task_at_upd_proj by (intros; apply H1).
Qed.

Lemma cancel_all_frame {A} (p : QueueTask → A) m w t :
  cancel_frame p → p (task_at (cancel_all m w) t) = p (task_at w t).
Proof.
  intros Hp. unfold cancel_all. revert w. induction m as [|x m IH]; intros w; simpl; [done|].
  by rewrite IH, QueueTask_Cancel_frame.
Qed.

Lemma QueueTask_Cancel_now t w : w_now (QueueTask_Cancel t w) = w_now w.
Proof.
  unfold QueueTask_Cancel, QueueTask_Destroy, DecDeleteRef, QueueTask_FreeMem, destroy_func,
    QueueTask_Notify. by repeat case_match.
Qed.

Lemma cancel_all_now m w : w_now (cancel_all m w) = w_now w.
Proof.
  unfold cancel_all. revert w. induction m as [|x m IH]; intros w; simpl; [done|].
  by rewrite IH, QueueTask_Cancel_now.
Qed.


Section by_name_lemmas.
Context (regex_match : string → string → bool).

Lemma IsMatch_Cancel name t w t' :
  QueueTask_IsMatch regex_match name (QueueTask_Cancel t w) t' =
  QueueTask_IsMatch regex_match name w t'.
Proof.
  unfold QueueTask_IsMatch. rewrite (QueueTask_Cancel_frame qt_label); [done|].
  by repeat split.
Qed.

(** [Remove(name)] keeps exactly the tasks that do not match and counts the others. *)
Lemma Remove_name_loop_spec name m w n m' w' :
  Remove_name_loop regex_match name m w = (n, m', w') →
  let P := λ x : Z * tid, QueueTask_IsMatch regex_match name w x.2 = true in
  m' = filter (λ x, ¬ P x) m ∧ n = Z.of_nat (length (filter P m)) ∧
  w' = cancel_all (filter P m) w.
Proof.
  revert n m' w w'. induction m as [|[k t] m IH]; intros n m' w w' H; simpl in H; [naive_solver|].
  cbv zeta. rewrite !filter_cons. simpl.
  destruct (QueueTask_IsMatch regex_match name w t) eqn:Hm.
  - destruct (Remove_name_loop regex_match name m (QueueTask_Cancel t w)) as [[n0 m0] w0] eqn:Hl.
    simplify_eq. apply IH in Hl as (-> & -> & ->).
    rewrite !(decide_True (P := true = true)), (decide_False (P := ¬ true = true)) by naive_solver.
    split_and!.
    + apply list_filter_iff. intros x. by rewrite IsMatch_Cancel.
    + simpl. rewrite (list_filter_iff
        (λ x, QueueTask_IsMatch regex_match name (QueueTask_Cancel t w) x.2 = true)
        (λ x, QueueTask_IsMatch regex_match name w x.2 = true));
        [lia|intros x; by rewrite IsMatch_Cancel].
    + unfold cancel_all. simpl. f_equal. apply list_filter_iff. intros x. by rewrite IsMatch_Cancel.
  - destruct (Remove_name_loop regex_match name m w) as [[n0 m0] w0] eqn:Hl.
    simplify_eq. apply IH in Hl as (-> & -> & ->).
    rewrite (decide_False (P := false = true)), (decide_True (P := ¬ false = true)) by done.
    done.
Qed.
End by_name_lemmas.

Lemma BaseQueue_Remove_task_map_cases t q m w r m' :
  BaseQueue_Remove_task_map t q m w = (r, m') →
  (r = FAILED ∧ m' = m) ∨
  (r = SUCC ∧ bq_isExit q = false ∧
    ∃ l1 l2, m = l1 ++ (qt_uptime (task_at w t), t) :: l2 ∧ m' = l1 ++ l2).
Proof.
  unfold BaseQueue_Remove_task_map. destruct (bq_isExit q) eqn:He; [naive_solver|].
  destruct (mm_erase_in_range _ _ m) as [m0|] eqn:Hm; [|naive_solver].
  intros [= <- <-]. right. apply mm_erase_in_range_Some in Hm as (l1 & l2 & v & -> & -> & Hv & _).
  apply bool_decide_eq_true in Hv as ->. eauto 10.
Qed.

Lemma min_begin_spec maps idxs acc :
  let r := foldl (λ acc i, match begin_time (map_at maps i) with
                  | Some k => if decide (k < acc) then k else acc
                  | None => acc
                  end) acc idxs in
  r <= acc ∧ (∀ i k, i ∈ idxs → begin_time (map_at maps i) = Some k → r <= k) ∧
  (r = acc ∨ ∃ i, i ∈ idxs ∧ begin_time (map_at maps i) = Some r).
Proof.
  revert acc. induction idxs as [|j idxs IH]; intros acc; simpl; [split_and!; [lia|set_solver|by left]|].
  set (acc' := match begin_time (map_at maps j) with
               | Some k => if decide (k < acc) then k else acc | None => acc end).
  destruct (IH acc') as (H1 & H2 & H3).
  assert (Hacc : acc' <= acc ∧ (∀ k, begin_time (map_at maps j) = Some k → acc' <= k) ∧
                 (acc' = acc ∨ begin_time (map_at maps j) = Some acc')).
  { unfold acc'. destruct (begin_time (map_at maps j)) as [k|]; [case_decide|].
    - split; [lia|]. split; [intros k' [= <-]; lia|by right].
    - split; [lia|]. split; [intros k' [= <-]; lia|by left].
    - split; [lia|]. split; [done|by left]. }
  destruct Hacc as (Ha & Hb & Hc). split_and!; [lia| |].
  - intros i k [->|Hi]%elem_of_cons Hk; [specialize (Hb k Hk); lia|eauto].
  - destruct H3 as [H3|(i & ? & ?)]; [|right; exists i; split; [by right|done]].
    rewrite H3. destruct Hc as [Hc|Hc]; [by left|right]. exists j. split; [by left|done].
Qed.

Lemma min_begin_least maps idxs :
  (∀ i k, i ∈ idxs → begin_time (map_at maps i) = Some k → min_begin maps idxs <= k) ∧
  (min_begin maps idxs = UINT64_MAX ∨
   ∃ i, i ∈ idxs ∧ begin_time (map_at maps i) = Some (min_begin maps idxs)).
Proof. apply (min_begin_spec maps idxs UINT64_MAX). Qed.
