(* ===== verification/SerialQueue.v ===== *)
(** * SerialQueue

    Models src/queue/serial_queue.{h,cpp} and, as a step relation, how the
    submitters, the executing task and the cancelling threads use one serial
    queue (src/queue/queue_handler.cpp: Submit, Dispatch, Deliver).  One step is
    one section of code under the queue's mutex. *)

From S2P Require Import Prelude Multimap Types QueueTask QueueStrategy BaseQueue.

Definition MIN_OVERLOAD_INTERVAL : Z := 16.
Definition MAX_OVERLOAD_INTERVAL : Z := 128.

Record SerialQueue := mkSerialQueue {
  sq_base : BaseQueue;
  sq_overloadThreshold : Z;   (* uint32_t *)
}.

#[export] Instance SerialQueue_eta : Eta SerialQueue := λ q,
  mkSerialQueue (sq_base q) (sq_overloadThreshold q).

Definition SerialQueue_ctor (queueId : Z) (name : option string) : SerialQueue :=
  mkSerialQueue (BaseQueue_ctor queueId name) MIN_OVERLOAD_INTERVAL.

(** The key [Push] inserts under: before the head for a head insertion into a
    map that is not empty, the due time of the task otherwise. *)
Definition serial_key (t : tid) (m : whenmap) (w : World) : Z :=
  let q := task_at w t in
  match m with
  | (k, _) :: _ =>
      if qt_insertHead q
      then Z.min (if decide (k > 0) then k - 1 else 0) (qt_uptime q)
      else qt_uptime q
  | [] => qt_uptime q
  end.

(** The two [notify_one] calls after an insertion. *)
Definition serial_push_notify (t : tid) (w : World) (b : BaseQueue) : BaseQueue :=
  match bq_whenMap b with
  | (k, t') :: _ =>
      if decide (t = t') then notify_cond b
      else if decide (0 < qt_delay (task_at w t') ∧ k < w_now w) then notify_cond b
      else b
  | [] => b
  end.

Definition serial_overload (q : SerialQueue) : SerialQueue :=
  if decide (sq_overloadThreshold q <= Z.of_nat (length (bq_whenMap (sq_base q))))
  then q <| sq_overloadThreshold ::=
             λ n, u32 (n + Z.min n MAX_OVERLOAD_INTERVAL) |>
  else q.

Definition SerialQueue_Push (t : tid) (q : SerialQueue) (w : World) : Z * SerialQueue :=
  let b := sq_base q in
  if bq_isExit b then (FAILED, q)
  else if negb (bq_isActiveState b)
  then (INACTIVE, q <| sq_base := b <| bq_isActiveState := true |> |>)
  else
    let m := mm_insert (serial_key t (bq_whenMap b) w) t (bq_whenMap b) in
    let b := serial_push_notify t w (b <| bq_whenMap := m |>) in
    (SUCC, serial_overload (q <| sq_base := b |>)).

(** One evaluation of [Pull] from the test of its wait loop: it sleeps, or
    leaves the loop and returns. *)
Definition SerialQueue_Pull (q : SerialQueue) (w : World)
    : option (PullResult * SerialQueue * World) :=
  let b := sq_base q in
  match bq_whenMap b with
  | [] => Some (PullRet None, q <| sq_base := b <| bq_isActiveState := false |> |>, w)
  | (k, _) :: _ =>
      if decide (w_now w < k ∧ bq_isExit b = false)
      then Some (PullWait (k - w_now w), q <| sq_base := b <| bq_delayStatus := true |> |>, w)
      else if bq_isExit b then Some (PullRet None, q, w)
      else
        let q := if decide (MAX_OVERLOAD_INTERVAL < sq_overloadThreshold q ∧
                            Z.of_nat (length (bq_whenMap b)) < MAX_OVERLOAD_INTERVAL)
                 then q <| sq_overloadThreshold := MAX_OVERLOAD_INTERVAL |> else q in
        '(t, m, w) ← DequeBatch (w_now w) (bq_whenMap b) w;
        Some (PullRet (Some t), q <| sq_base := b <| bq_whenMap := m |> |>, w)
  end.

(** The same after [cond_.wait_for] returns. *)
Definition SerialQueue_Pull_resume (q : SerialQueue) (w : World)
    : option (PullResult * SerialQueue * World) :=
  SerialQueue_Pull (q <| sq_base ::= λ b, b <| bq_delayStatus := false |> |>) w.

Definition SerialQueue_GetActiveStatus (q : SerialQueue) : bool := bq_isActiveState (sq_base q).

(** ** The queue in use *)

(** A thread of control between an activation of the queue and the pull that
    finds it empty. *)
Inductive Driver :=
| Activating (t : tid)                  (* Push returned INACTIVE to the submitter of t *)
| Running (cur : option tid)            (* a scheduled task: the next one of its chain *)
| Sleeping (deadline : Z) (seen : nat). (* in cond_.wait_for of Pull *)

Record Sys := mkSys {
  ss_q : SerialQueue;
  ss_w : World;
  ss_drivers : list Driver;
  ss_executed : list tid;         (* tasks run so far, in order *)
  ss_submitted : gset tid;        (* tasks handed to Submit *)
  ss_accepted : gmap tid nat;     (* the rank in which the queue accepted a task *)
  ss_taken : gmap tid (nat * Z);  (* how many were accepted, and the time, when the task left the queue to run *)
}.

#[export] Instance Sys_eta : Eta Sys := λ s,
  mkSys (ss_q s) (ss_w s) (ss_drivers s) (ss_executed s) (ss_submitted s) (ss_accepted s) (ss_taken s).

Abbreviation ss_b s := (sq_base (ss_q s)).
Abbreviation ss_map s := (bq_whenMap (sq_base (ss_q s))).

Definition accept (t : tid) (s : Sys) : Sys :=
  s <| ss_accepted := <[t := size (ss_accepted s)]> (ss_accepted s) |>.

(** The tasks [Pull] has taken out of the map, and the record of it. *)
Definition taken_out (m m' : whenmap) : list tid := filter (λ t, t ∉ m'.*2) m.*2.

Definition take (ts : list tid) (s : Sys) : Sys :=
  s <| ss_taken ::= λ tk, foldr (λ t, <[t := (size (ss_accepted s), w_now (ss_w s))]>) tk ts |>.

(** What the rest of the program may do to the tasks meanwhile: statuses and
    reference counts change, new tasks appear, time passes; the due time, the
    delay, the head flag and the chain of a submitted task stay. *)
Definition world_ext (w w' : World) : Prop :=
  w_now w <= w_now w' ∧
  ∀ t, in_store w t → in_store w' t ∧
    qt_uptime (task_at w' t) = qt_uptime (task_at w t) ∧
    qt_insertHead (task_at w' t) = qt_insertHead (task_at w t) ∧
    qt_delay (task_at w' t) = qt_delay (task_at w t) ∧
    qt_nextTask (task_at w' t) = qt_nextTask (task_at w t).

(** The driver's state after an evaluation of [Pull]. *)
Definition after_pull (r : PullResult) (q : SerialQueue) (w : World) : list Driver :=
  match r with
  | PullWait diff => [Sleeping (w_now w + diff) (bq_notified (sq_base q))]
  | PullRet (Some t) => [Running (Some t)]
  | PullRet None => []
  end.

Section system.
Context (regex_match : string → string → bool).

Inductive serial_step : Sys → Sys → Prop :=
| step_env s w' :
    world_ext (ss_w s) w' →
    serial_step s (s <| ss_w := w' |>)
| step_push s t r q' :
    t ∉ ss_submitted s → in_store (ss_w s) t → qt_nextTask (task_at (ss_w s) t) = None →
    SerialQueue_Push t (ss_q s) (ss_w s) = (r, q') →
    let s' := s <| ss_q := q' |> <| ss_submitted ::= union {[t]} |> in
    serial_step s
      (if decide (r = SUCC) then accept t s'
       else if decide (r = FAILED) then s'
       else let s'' := s' <| ss_drivers ::= λ d, d ++ [Activating t] |> in
            if decide (qt_delay (task_at (ss_w s) t) = 0) then take [t] (accept t s'') else s'')
| step_transfer s d1 d2 t :
    ss_drivers s = d1 ++ Activating t :: d2 → qt_delay (task_at (ss_w s) t) = 0 →
    serial_step s (s <| ss_drivers := d1 ++ Running (Some t) :: d2 |>)
| step_push_delayed s d1 d2 t r q' :
    ss_drivers s = d1 ++ Activating t :: d2 → qt_delay (task_at (ss_w s) t) ≠ 0 →
    SerialQueue_Push t (ss_q s) (ss_w s) = (r, q') →
    let s' := s <| ss_q := q' |> <| ss_drivers := d1 ++ Running None :: d2 |> in
    serial_step s (if decide (r = SUCC) then accept t s' else s')
| step_exec s d1 d2 t :
    ss_drivers s = d1 ++ Running (Some t) :: d2 →
    serial_step s
      (s <| ss_executed ::= λ e, e ++ [t] |>
         <| ss_drivers := d1 ++ Running (qt_nextTask (task_at (ss_w s) t)) :: d2 |>)
| step_pull s d1 d2 r q' w' :
    ss_drivers s = d1 ++ Running None :: d2 →
    SerialQueue_Pull (ss_q s) (ss_w s) = Some (r, q', w') →
    serial_step s (take (taken_out (ss_map s) (bq_whenMap (sq_base q'))) (s <| ss_q := q' |> <| ss_w := w' |>
                     <| ss_drivers := d1 ++ after_pull r q' w' ++ d2 |>))
| step_wake s d1 d2 deadline seen r q' w' :
    ss_drivers s = d1 ++ Sleeping deadline seen :: d2 →
    SerialQueue_Pull_resume (ss_q s) (ss_w s) = Some (r, q', w') →
    serial_step s (take (taken_out (ss_map s) (bq_whenMap (sq_base q'))) (s <| ss_q := q' |> <| ss_w := w' |>
                     <| ss_drivers := d1 ++ after_pull r q' w' ++ d2 |>))
| step_remove s r b' w' :
    BaseQueue_Remove (ss_b s) (ss_w s) = (r, b', w') →
    serial_step s (s <| ss_q ::= λ q, q <| sq_base := b' |> |> <| ss_w := w' |>)
| step_remove_name s name r b' w' :
    BaseQueue_Remove_name regex_match name (ss_b s) (ss_w s) = (r, b', w') →
    serial_step s (s <| ss_q ::= λ q, q <| sq_base := b' |> |> <| ss_w := w' |>)
| step_remove_task s t r b' :
    BaseQueue_Remove_task t (ss_b s) (ss_w s) = (r, b') →
    serial_step s (s <| ss_q ::= λ q, q <| sq_base := b' |> |>)
| step_stop s b' w' :
    BaseQueue_Stop (ss_b s) (ss_w s) = (b', w') →
    serial_step s (s <| ss_q ::= λ q, q <| sq_base := b' |> |> <| ss_w := w' |>).

Definition serial_init (queueId : Z) (name : option string) (w : World) : Sys :=
  mkSys (SerialQueue_ctor queueId name) w [] [] ∅ ∅ ∅.

Definition serial_reachable (queueId : Z) (name : option string) (w : World) (s : Sys) : Prop :=
  rtc serial_step (serial_init queueId name w) s.
End system.

(** ** The invariant *)

(** The tasks the driver still has to run. *)
Definition flight (s : Sys) (l : list tid) : Prop :=
  match ss_drivers s with
  | [Activating t] =>
      in_store (ss_w s) t ∧ qt_nextTask (task_at (ss_w s) t) = None ∧
      if decide (qt_delay (task_at (ss_w s) t) = 0) then l = [t]
      else l = [] ∧ ss_accepted s !! t = None ∧ t ∈ ss_submitted s
  | [Running (Some t)] => ∃ l', l = t :: l' ∧ linked (ss_w s) t l'
  | _ => l = []
  end.

(** Every task accepted and not cancelled, in the order it runs. *)
Definition run_order (s : Sys) (l : list tid) : list tid := ss_executed s ++ l ++ (ss_map s).*2.

(** [a] may run before [b]: it is due earlier, or at the same time and was accepted
    earlier; or it was inserted at the head; or [b] was accepted when [a] had left the
    queue to run. *)
Definition may_precede (w : World) (acc : gmap tid nat) (tk : gmap tid (nat * Z)) (a b : tid) : Prop :=
  ∀ na nb, acc !! a = Some na → acc !! b = Some nb →
    qt_uptime (task_at w a) < qt_uptime (task_at w b) ∨
    qt_uptime (task_at w a) = qt_uptime (task_at w b) ∧ (na < nb)%nat ∨
    qt_insertHead (task_at w a) = true ∨
    ∃ n z, tk !! a = Some (n, z) ∧ (na < n <= nb)%nat.

(** [a] has left the queue to run, no earlier than it is due. *)
Definition taken_due (w : World) (acc : gmap tid nat) (tk : gmap tid (nat * Z)) (a : tid) : Prop :=
  ∃ na n z, acc !! a = Some na ∧ tk !! a = Some (n, z) ∧ (na < n <= size acc)%nat ∧
    (qt_insertHead (task_at w a) = false → qt_delay (task_at w a) ≠ 0 → qt_uptime (task_at w a) <= z).

Record serial_inv (s : Sys) (l : list tid) : Prop := {
  inv_sorted : mm_sorted (ss_map s);
  inv_driver :
    ss_drivers s = [] ∧ bq_isActiveState (ss_b s) = false ∧ ss_map s = [] ∨
    (∃ d, ss_drivers s = [d]) ∧ bq_isActiveState (ss_b s) = true;
  inv_exit : bq_isExit (ss_b s) = true → ss_map s = [];
  inv_flight : flight s l;
  inv_nodup : NoDup (run_order s l);
  inv_stored : ∀ t, t ∈ run_order s l → in_store (ss_w s) t;
  inv_unlinked : ∀ t, t ∈ (ss_map s).*2 → qt_nextTask (task_at (ss_w s) t) = None;
  inv_keys : ∀ k t, (k, t) ∈ ss_map s →
    k <= qt_uptime (task_at (ss_w s) t) ∧
    (qt_insertHead (task_at (ss_w s) t) = false → k = qt_uptime (task_at (ss_w s) t));
  inv_accepted : ∀ t, t ∈ run_order s l → is_Some (ss_accepted s !! t);
  inv_submitted : ∀ t n, ss_accepted s !! t = Some n →
    t ∈ ss_submitted s ∧ (n < size (ss_accepted s))%nat;
  inv_fifo : StronglySorted (may_precede (ss_w s) (ss_accepted s) (ss_taken s)) (run_order s l);
  inv_taken : ∀ t, t ∈ ss_executed s ++ l → taken_due (ss_w s) (ss_accepted s) (ss_taken s) t;
  inv_waiting : ∀ t, is_Some (ss_taken s !! t) → is_Some (ss_accepted s !! t) ∧ t ∉ (ss_map s).*2;
  inv_sleep : ∀ d c, Sleeping d c ∈ ss_drivers s →
    (c < bq_notified (ss_b s))%nat ∨
    c = bq_notified (ss_b s) ∧ ∀ k, begin_time (ss_map s) = Some k → d <= k;
}.

Lemma linked_ext w w' t l :
  (∀ t', t' ∈ t :: l → qt_nextTask (task_at w' t') = qt_nextTask (task_at w t')) →
  linked w t l → linked w' t l.
Proof.
  revert t. induction l as [|t' l IH]; intros t H; simpl; [rewrite H by left; done|].
  intros [Ht Hl]. rewrite H by left. split; [done|]. apply IH; [|done].
  intros x Hx. apply H. by right.
Qed.

Lemma may_precede_ext w w' acc acc' tk tk' (l : list tid) :
  (∀ t, t ∈ l → qt_uptime (task_at w' t) = qt_uptime (task_at w t) ∧
     qt_insertHead (task_at w' t) = qt_insertHead (task_at w t) ∧ acc' !! t = acc !! t ∧
     ∀ n, tk !! t = Some n → tk' !! t = Some n) →
  StronglySorted (may_precede w acc tk) l → StronglySorted (may_precede w' acc' tk') l.
Proof.
  intros Hext Hs. induction Hs as [|a l Hs IH Ha]; [constructor|].
  constructor; [apply IH; intros t Ht; apply Hext; by right|].
  rewrite Forall_forall in Ha |- *. intros b Hb na nb.
  destruct (Hext a ltac:(left)) as (-> & -> & -> & Htk).
  destruct (Hext b ltac:(by right)) as (-> & _ & -> & _). intros H1 H2.
  destruct (Ha b Hb na nb H1 H2) as [?|[?|[?|(n & z & ? & ?)]]]; [by auto..|]. right; right; right. eauto.
Qed.

Lemma taken_due_ext w w' acc acc' tk tk' t :
  qt_uptime (task_at w' t) = qt_uptime (task_at w t) → qt_insertHead (task_at w' t) = qt_insertHead (task_at w t) →
  qt_delay (task_at w' t) = qt_delay (task_at w t) → (∀ n, acc !! t = Some n → acc' !! t = Some n) →
  (∀ n, tk !! t = Some n → tk' !! t = Some n) → (size acc <= size acc')%nat →
  taken_due w acc tk t → taken_due w' acc' tk' t.
Proof.
  intros E1 E2 E3 Ha Ht Hs (na & n & z & H1 & H2 & H3 & H4). exists na, n, z. rewrite E1, E2, E3.
  split_and!; [auto|auto|lia..|done].
Qed.

Lemma taken_out_elem t m m' : t ∈ taken_out m m' ↔ t ∈ m.*2 ∧ t ∉ m'.*2.
Proof. unfold taken_out. rewrite list_elem_of_filter. naive_solver. Qed.

Lemma take_lookup ts s t :
  ss_taken (take ts s) !! t = if decide (t ∈ ts) then Some (size (ss_accepted s), w_now (ss_w s)) else ss_taken s !! t.
Proof.
  unfold take. simpl. induction ts as [|x ts IH]; simpl; [done|].
  destruct (decide (x = t)) as [->|Hne]; [rewrite lookup_insert_eq, decide_True by left; done|].
  rewrite lookup_insert_ne, IH by done. apply decide_ext. set_solver.
Qed.

Lemma take_nothing m s : take (taken_out m m) s = s.
Proof.
  assert (taken_out m m = []) as ->; [|by destruct s].
  destruct (taken_out m m) as [|t l] eqn:E; [done|]. assert (t ∈ taken_out m m) as [??]%taken_out_elem by (rewrite E; left). done.
Qed.

(** The world may change under the invariant. *)
Lemma serial_inv_world s l w' :
  world_ext (ss_w s) w' → serial_inv s l → serial_inv (s <| ss_w := w' |>) l.
Proof.
  intros [_ Hext] [H1 H2 H3 H4 H5 H6 H7 H8 H9 H10 H11 HT HW H12].
  assert (Hmap : ∀ t, t ∈ (ss_map s).*2 → t ∈ run_order s l) by (unfold run_order; set_solver).
  split; simpl; try done.
  - unfold flight in *. simpl. destruct (ss_drivers s) as [|[t|[t|]|] []]; try done.
    + destruct H4 as (Hst & Hn & Hl). destruct (Hext t Hst) as (? & _ & _ & -> & ->). done.
    + destruct H4 as (l' & -> & Hl). exists l'. split; [done|]. eapply linked_ext; [|done].
      intros t' Ht'. apply Hext, H6. unfold run_order. set_solver.
  - intros t Ht. apply Hext, H6, Ht.
  - intros t Ht. destruct (Hext t) as (_ & _ & _ & _ & ->); [auto|auto].
  - intros k t Hk. assert (t ∈ (ss_map s).*2) by (apply list_elem_of_fmap; by exists (k, t)).
    destruct (Hext t) as (_ & -> & -> & _); [auto|auto].
  - eapply may_precede_ext; [|exact H11]. intros t Ht. destruct (Hext t) as (_ & ? & ? & _); auto.
  - intros t Ht. destruct (Hext t) as (_ & ? & ? & ? & _); [apply H6; unfold run_order; set_solver|].
    eapply taken_due_ext; [done..|by apply HT].
Qed.

(** Tasks may leave the map. *)
Lemma serial_inv_shrink s l b' :
  serial_inv s l →
  bq_whenMap b' `sublist_of` ss_map s →
  bq_isActiveState b' = bq_isActiveState (ss_b s) →
  (bq_isExit b' = true → bq_isExit (ss_b s) = true ∨ bq_whenMap b' = []) →
  (bq_notified (ss_b s) <= bq_notified b')%nat →
  serial_inv (s <| ss_q ::= λ q, q <| sq_base := b' |> |>) l.
Proof.
  intros [H1 H2 H3 H4 H5 H6 H7 H8 H9 H10 H11 HT HW H12] Hsub Hact Hexit Hnot.
  assert (Hsub2 : (bq_whenMap b').*2 `sublist_of` (ss_map s).*2) by (by apply fmap_sublist).
  assert (Hro : ss_executed s ++ l ++ (bq_whenMap b').*2 `sublist_of` run_order s l)
    by (unfold run_order; by repeat (apply sublist_app; [done|])).
  assert (Hin : ∀ t, t ∈ ss_executed s ++ l ++ (bq_whenMap b').*2 → t ∈ run_order s l)
    by (intros t; eapply sublist_subseteq; done).
  split; simpl; unfold run_order; simpl; try done.
  - by eapply mm_sorted_sublist.
  - rewrite Hact. destruct H2 as [(? & ? & Hm)|[? ?]]; [left|by right].
    rewrite Hm in Hsub. by apply sublist_nil_r in Hsub.
  - intros He. destruct (Hexit He) as [He'|?]; [|done]. rewrite (H3 He') in Hsub.
    by apply sublist_nil_r in Hsub.
  - by eapply sublist_NoDup.
  - intros t Ht. by apply H6, Hin.
  - intros t Ht. apply H7. by eapply sublist_subseteq.
  - intros k t Ht. apply H8. by eapply sublist_subseteq.
  - intros t Ht. by apply H9, Hin.
  - by eapply StronglySorted_sublist.
  - intros t Ht. destruct (HW t Ht) as [? Hn]. split; [done|]. intros Hb. apply Hn. by eapply sublist_subseteq.
  - intros d c Hd. destruct (H12 d c Hd) as [?|[-> Hk]]; [left; lia|].
    destruct (decide (bq_notified b' = bq_notified (ss_b s))) as [->|]; [right|left; lia].
    split; [done|]. intros k (t & m & Hm)%begin_time_Some.
    assert (Hkin : (k, t) ∈ ss_map s).
    { eapply sublist_subseteq; [exact Hsub|]. rewrite Hm. by left. }
    destruct (ss_map s) as [|[k0 t0] m0] eqn:Hms; [by apply elem_of_nil in Hkin|].
    specialize (Hk k0 eq_refl). pose proof (mm_sorted_head_min _ _ _ _ H1 Hkin). simpl in *. lia.
Qed.

Lemma serial_key_le t m w :
  serial_key t m w <= qt_uptime (task_at w t) ∧
  (qt_insertHead (task_at w t) = false → serial_key t m w = qt_uptime (task_at w t)).
Proof.
  unfold serial_key. destruct m as [|[k ?] m]; [done|].
  destruct (qt_insertHead (task_at w t)); [|done]. split; [lia|done].
Qed.

Lemma SerialQueue_Push_cases t q w r q' :
  SerialQueue_Push t q w = (r, q') →
  let b := sq_base q in let b' := sq_base q' in
  (r = FAILED ∧ bq_isExit b = true ∧ q' = q) ∨
  (r = INACTIVE ∧ bq_isExit b = false ∧ bq_isActiveState b = false ∧
     q' = q <| sq_base := b <| bq_isActiveState := true |> |>) ∨
  (r = SUCC ∧ bq_isExit b = false ∧ bq_isActiveState b = true ∧
     bq_isExit b' = false ∧ bq_isActiveState b' = true ∧
     bq_whenMap b' = mm_insert (serial_key t (bq_whenMap b) w) t (bq_whenMap b) ∧
     (bq_notified b' = S (bq_notified b) ∨
      bq_notified b' = bq_notified b ∧
      ∀ k', begin_time (bq_whenMap b') = Some k' → begin_time (bq_whenMap b) = Some k')).
Proof.
  unfold SerialQueue_Push. destruct (bq_isExit (sq_base q)) eqn:He; [naive_solver|].
  destruct (bq_isActiveState (sq_base q)) eqn:Ha; simpl; [|naive_solver].
  set (b := sq_base q) in *. set (k := serial_key t (bq_whenMap b) w).
  intros [= <- <-]. right; right. unfold serial_overload, serial_push_notify. simpl.
  destruct (mm_insert k t (bq_whenMap b)) as [|[k1 t1] m1] eqn:Hm; [by apply mm_insert_not_nil in Hm|].
  assert (t ≠ t1 → begin_time (bq_whenMap b) = Some k1) as Hh.
  { intros Hne. pose proof (mm_insert_head k t (bq_whenMap b)) as Hh. rewrite Hm in Hh.
    unfold begin_time. destruct (bq_whenMap b) as [|[k2 t2] m2]; simpl in *; [by simplify_eq|].
    case_decide; simplify_eq; done. }
  repeat case_decide; simpl; split_and!; try done;
    first [by left | right; split; [done|]; intros k' [= <-]; by apply Hh].
Qed.

(** What [inv_keys] says of one entry of the map. *)
Definition key_ok (w : World) (k : Z) (t : tid) : Prop :=
  k <= qt_uptime (task_at w t) ∧ (qt_insertHead (task_at w t) = false → k = qt_uptime (task_at w t)).

(** A new task, inserted by its key, keeps the order. *)
Lemma may_precede_insert w acc tk p m1 m2 k t :
  acc !! t = None → (∀ x n, acc !! x = Some n → (n < size acc)%nat) → t ∉ (p ++ m1.*2) ++ m2.*2 →
  (∀ x, x ∈ p → taken_due w acc tk x) → (∀ kx x, (kx, x) ∈ m1 ++ m2 → key_ok w kx x) → key_ok w k t →
  (∀ x, x ∈ m1 → x.1 <= k) → (∀ x, x ∈ m2 → k < x.1) →
  StronglySorted (may_precede w acc tk) ((p ++ m1.*2) ++ m2.*2) →
  StronglySorted (may_precede w (<[t := size acc]> acc) tk) ((p ++ m1.*2) ++ t :: m2.*2).
Proof.
  intros Hacc Hlt Hto Hp Hm Hk Hle Hgt Hs.
  assert (Hext : StronglySorted (may_precede w (<[t := size acc]> acc) tk) ((p ++ m1.*2) ++ m2.*2)).
  { eapply may_precede_ext; [|exact Hs]. intros x Hx. split_and!; try done.
    rewrite lookup_insert_ne; [done|]. intros ->. done. }
  apply StronglySorted_app_iff in Hext as (Hs1 & Hs2 & Hx). apply StronglySorted_app_iff. split_and!; [done| |].
  - constructor; [done|]. apply Forall_forall. intros y ([ky ty] & -> & Hy)%list_elem_of_fmap na nb Hna Hnb. simpl in *.
    destruct (qt_insertHead (task_at w t)) eqn:Hh; [by auto|left]. specialize (Hgt _ Hy).
    destruct (Hm ky ty ltac:(set_solver)) as [? _]. destruct Hk as [_ Hk]. specialize (Hk Hh). simpl in *. lia.
  - intros x y Hx1 [->|Hy]%elem_of_cons; [|by apply Hx]. intros na nb Hna Hnb.
    rewrite lookup_insert_eq in Hnb. injection Hnb as <-. rewrite lookup_insert_ne in Hna by (intros ->; apply Hto; set_solver).
    apply elem_of_app in Hx1 as [Hx1|([kx tx] & -> & Hx1)%list_elem_of_fmap]; simpl in *.
    + destruct (Hp x Hx1) as (na' & n & z & H1 & H2 & H3 & _). simplify_eq. right; right; right. eauto with lia.
    + destruct (Hm kx tx ltac:(set_solver)) as [_ Hkx]. specialize (Hle _ Hx1). specialize (Hlt _ _ Hna). destruct Hk as [Hk _].
      destruct (qt_insertHead (task_at w tx)) eqn:Hh; [by auto|]. specialize (Hkx eq_refl). simpl in *.
      destruct (decide (kx < qt_uptime (task_at w t))); [left; lia|right; left; lia].
Qed.

Lemma serial_inv_accept s l t q' X :
  serial_inv s l → ss_accepted s !! t = None → in_store (ss_w s) t →
  qt_nextTask (task_at (ss_w s) t) = None → t ∈ X → ss_submitted s ⊆ X →
  Activating t ∉ ss_drivers s →
  SerialQueue_Push t (ss_q s) (ss_w s) = (SUCC, q') →
  serial_inv (accept t (s <| ss_q := q' |> <| ss_submitted := X |>)) l.
Proof.
  intros [H1 H2 H3 H4 H5 H6 H7 H8 H9 H10 H11 HT HW H12] Hacc Hst Hnx HtX HX Hnd Hpush.
  apply SerialQueue_Push_cases in Hpush as [(? & _)|[(? & _)|(_ & He & Ha & He' & Ha' & Hm & Hn)]];
    [done|done|].
  set (k := serial_key t (ss_map s) (ss_w s)) in *.
  destruct (serial_key_le t (ss_map s) (ss_w s)) as [Hk Hk'].
  assert (Hto : t ∉ run_order s l) by (intros Ht%H9; rewrite Hacc in Ht; by destruct Ht).
  destruct (mm_insert_split k t _ H1) as (m1 & m2 & Hs & Hi & Hle & Hgt).
  set (s' := accept t (s <| ss_q := q' |> <| ss_submitted := X |>)).
  assert (Hro : run_order s' l = ((ss_executed s ++ l) ++ m1.*2) ++ t :: m2.*2).
  { unfold run_order, s'. simpl. rewrite Hm, Hi, fmap_app, <-!app_assoc. done. }
  assert (Hro0 : run_order s l = ((ss_executed s ++ l) ++ m1.*2) ++ m2.*2).
  { unfold run_order. rewrite Hs, fmap_app, <-!app_assoc. done. }
  assert (Hperm : run_order s' l ≡ₚ t :: run_order s l).
  { rewrite Hro, Hro0. by rewrite <-Permutation_middle. }
  change (ss_map s) with (bq_whenMap (ss_b s)) in Hm.
  assert (ss_w s' = ss_w s ∧ ss_drivers s' = ss_drivers s ∧ ss_q s' = q' ∧ ss_submitted s' = X ∧
          ss_accepted s' = <[t := size (ss_accepted s)]> (ss_accepted s) ∧ ss_taken s' = ss_taken s ∧
          ss_executed s' = ss_executed s)
    as (Ew & Ed & Eq & Es & Ea & Etk & Ee) by done.
  clearbody s'. split; rewrite ?Ew, ?Ed, ?Eq, ?Es, ?Ea; try done.
  - rewrite Hm. by apply mm_insert_sorted.
  - right. destruct H2 as [(_ & ? & _)|[? _]]; [congruence|done].
  - by rewrite He'.
  - unfold flight in *. rewrite Ew, Ed, Es, Ea. destruct (ss_drivers s) as [|[t0|[]|] []]; try done.
    destruct H4 as (? & ? & Hl). split_and!; [done|done|]. case_decide; [done|].
    rewrite lookup_insert_ne by set_solver. naive_solver.
  - rewrite Hperm. by constructor.
  - intros t'. rewrite Hperm. intros [->|?]%elem_of_cons; [done|by apply H6].
  - intros t'. rewrite Hm, mm_insert_perm. simpl. intros [->|?]%elem_of_cons; [done|by apply H7].
  - intros k' t'. rewrite Hm, mm_insert_elem_of. intros [[= -> ->]|?]; [done|by apply H8].
  - intros t'. rewrite Hperm, lookup_insert_is_Some'. intros [->|?]%elem_of_cons; [by left|right; auto].
  - intros t' n. rewrite map_size_insert_None by done.
    destruct (decide (t = t')) as [<-|]; [rewrite lookup_insert_eq|rewrite lookup_insert_ne by done].
    + intros [= <-]. split; [done|lia].
    + intros [? ?]%H10. split; [set_solver|lia].
  - rewrite Etk, Hro. rewrite Hro0 in Hto, H11.
    apply (may_precede_insert _ _ _ (ss_executed s ++ l) m1 m2 k); try done.
    + intros x n Hx. by apply H10 in Hx as [_ ?].
    + intros kx x Hx. apply H8. by rewrite Hs.
  - rewrite Etk, Ee. intros t' Ht'. eapply taken_due_ext; [done..| | | |by apply HT]; [|done|].
    + intros n Hn'. rewrite lookup_insert_ne; [done|]. intros ->. congruence.
    + rewrite map_size_insert_None by done. lia.
  - rewrite Etk. intros t' Ht'. destruct (HW t' Ht') as [Ha1 Ha2]. split; [apply lookup_insert_is_Some'; by right|].
    rewrite Hm, mm_insert_perm. simpl. intros [->|?]%elem_of_cons; [|done]. rewrite Hacc in Ha1. by destruct Ha1.
  - intros d c Hd. destruct (H12 d c Hd) as [?|[-> Hb]].
    + left. destruct Hn as [->|[-> _]]; lia.
    + destruct Hn as [->|[-> Hn]]; [left; lia|right]. split; [done|]. auto.
Qed.

Lemma serial_inv_single s l d1 d d2 :
  serial_inv s l → ss_drivers s = d1 ++ d :: d2 →
  d1 = [] ∧ d2 = [] ∧ ss_drivers s = [d] ∧ bq_isActiveState (ss_b s) = true.
Proof.
  intros Hinv Hd. destruct (inv_driver _ _ Hinv) as [(H & _ & _)|[[d' H] Ha]]; rewrite H in Hd.
  - by destruct d1.
  - destruct d1 as [|? []]; by simplify_eq/=.
Qed.

Lemma DequeBatch_loop_now now head node m w m' w' : DequeBatch_loop now head node m w = (m', w') → w_now w' = w_now w.
Proof.
  revert node w. induction m as [|[k t] m IH]; intros node w; simpl; [by intros [= <- <-]|].
  repeat case_decide; [by intros [= <- <-]| |by intros [= <- <-]]. intros ->%IH.
  unfold QueueTask_Dequeue, QueueTask_SetNextTask, SetStatus. by rewrite !upd_task_now.
Qed.

Lemma DequeBatch_now now m w t m' w' : DequeBatch now m w = Some (t, m', w') → w_now w' = w_now w.
Proof.
  unfold DequeBatch. destruct m as [|[k h] m]; [done|]. destruct (DequeBatch_loop _ _ _ _ _) as [m1 w1] eqn:E.
  intros [= <- <- <-]. apply DequeBatch_loop_now in E as ->. unfold QueueTask_Dequeue, SetStatus. by rewrite upd_task_now.
Qed.

(** What is taken out is due. *)
Lemma taken_due_batch s q' w1 d t0 k p :
  (∀ k t, (k, t) ∈ ss_map s → key_ok (ss_w s) k t) → (∀ t n, ss_accepted s !! t = Some n → (n < size (ss_accepted s))%nat) →
  (∀ t, t ∈ (ss_map s).*2 → is_Some (ss_accepted s !! t)) → NoDup (ss_map s).*2 →
  ss_map s = (k, t0) :: p ++ bq_whenMap (sq_base q') → k <= w_now w1 → Forall (λ x, x.1 < w_now w1) p →
  (∀ t, qt_uptime (task_at w1 t) = qt_uptime (task_at (ss_w s) t) ∧ qt_insertHead (task_at w1 t) = qt_insertHead (task_at (ss_w s) t)) →
  ∀ t, t ∈ t0 :: p.*2 → taken_due w1 (ss_accepted s)
    (ss_taken (take (taken_out (ss_map s) (bq_whenMap (sq_base q'))) (s <| ss_q := q' |> <| ss_w := w1 |> <| ss_drivers := d |>))) t.
Proof.
  intros Hk Hn Ha Hnd Hm Hk0 Hp Hf t Ht. set (m' := bq_whenMap (sq_base q')) in *.
  assert (∃ kt, (kt, t) ∈ (k, t0) :: p ∧ kt <= w_now w1) as (kt & Hin & Hkt).
  { apply elem_of_cons in Ht as [->|([kt ?] & -> & Hi)%list_elem_of_fmap]; [exists k; split; [left|done]|].
    exists kt. split; [by right|]. rewrite Forall_forall in Hp. specialize (Hp _ Hi). simpl in *. lia. }
  assert ((kt, t) ∈ ss_map s) as Hin' by (rewrite Hm; set_solver).
  assert (t ∈ (ss_map s).*2) as Hin2 by (apply list_elem_of_fmap; by exists (kt, t)).
  destruct (Ha t Hin2) as [na Hna]. exists na, (size (ss_accepted s)), (w_now w1). rewrite take_lookup, decide_True; simpl.
  - split_and!; [done|done|by eapply Hn|done|]. destruct (Hf t) as [-> ->]. intros Hh _. destruct (Hk _ _ Hin') as [_ E]. specialize (E Hh). lia.
  - apply taken_out_elem. split; [done|]. intros Hi. rewrite Hm in Hnd. change (NoDup ((t0 :: (p ++ m').*2))) in Hnd.
    rewrite fmap_app in Hnd. change (NoDup ((t0 :: p.*2) ++ m'.*2)) in Hnd. apply NoDup_app in Hnd as (_ & Hd & _). by apply (Hd t).
Qed.

(** A batch moves from the map to the driver; the order of execution is kept. *)
Lemma serial_inv_deque s d k t0 m0 q' t m w' :
  serial_inv s [] → ss_drivers s = [d] → ss_map s = (k, t0) :: m0 →
  bq_whenMap (sq_base q') = m → bq_isExit (sq_base q') = bq_isExit (ss_b s) →
  bq_isActiveState (sq_base q') = true → k <= w_now (ss_w s) →
  DequeBatch (w_now (ss_w s)) (ss_map s) (ss_w s) = Some (t, m, w') →
  ∃ l, serial_inv (take (taken_out (ss_map s) (bq_whenMap (sq_base q')))
    (s <| ss_q := q' |> <| ss_w := w' |> <| ss_drivers := [Running (Some t)] |>)) l.
Proof.
  intros [H1 H2 H3 H4 H5 H6 H7 H8 H9 H10 H11 HT HW H12] Hd Hm Hq1 Hq2 Hq3 Hdue HD.
  assert (Hsub : ∀ x, x ∈ (ss_map s).*2 → x ∈ run_order s []) by (unfold run_order; set_solver).
  assert (HND : NoDup (ss_map s).*2) by (unfold run_order in H5; by apply NoDup_app in H5 as (_ & _ & ?)).
  rewrite Hm in HND, HD, H7. destruct (DequeBatch_spec (w_now (ss_w s)) k t0 m0 (ss_w s))
    as (p & rest & w1 & HD1 & Hm0 & Hpd & _ & Hl & _ & Hnx).
  { done. }
  { apply Forall_forall. intros x Hx. apply H6, Hsub. by rewrite Hm. }
  { apply Forall_forall. intros x Hx. by apply H7. }
  rewrite HD in HD1. injection HD1 as -> -> ->. subst rest.
  pose proof (DequeBatch_frame qt_uptime _ _ _ _ _ _ (conj (λ _ _ _ _, eq_refl) (λ _ _, eq_refl)) HD) as Fu.
  pose proof (DequeBatch_frame qt_insertHead _ _ _ _ _ _ (conj (λ _ _ _ _, eq_refl) (λ _ _, eq_refl)) HD) as Fh.
  pose proof (DequeBatch_frame qt_delay _ _ _ _ _ _ (conj (λ _ _ _ _, eq_refl) (λ _ _, eq_refl)) HD) as Fd.
  set (s' := take (taken_out (ss_map s) (bq_whenMap (sq_base q'))) (s <| ss_q := q' |> <| ss_w := w1 |> <| ss_drivers := [Running (Some t0)] |>)).
  assert (Hro : run_order s' (t0 :: p.*2) = run_order s []).
  { unfold run_order, s'. simpl. rewrite Hm, Hm0. simpl. by rewrite fmap_app. }
  assert (Htk : ∀ x n, ss_taken s !! x = Some n → ss_taken s' !! x = Some n).
  { intros x n Hx. unfold s'. rewrite take_lookup, decide_False; [done|]. rewrite taken_out_elem. intros [? _]. by apply (HW x). }
  assert (HW' : ∀ x, is_Some (ss_taken s' !! x) → is_Some (ss_accepted s !! x) ∧ x ∉ (bq_whenMap (sq_base q')).*2).
  { intros x [y Hy]. unfold s' in Hy. rewrite take_lookup in Hy. case_decide as Hx; [apply taken_out_elem in Hx as [Hx ?]; split; [by apply H9, Hsub|done]|].
    destruct (HW x) as [? Hn]; [by eexists|]. split; [done|]. intros Hi. apply Hn. rewrite Hm, Hm0. simpl. rewrite fmap_app. set_solver. }
  exists (t0 :: p.*2). split; rewrite ?Hro; unfold s'; simpl; try done.
  - eapply mm_sorted_sublist; [|exact H1]. rewrite Hm, Hm0. apply sublist_cons, sublist_inserts_l. done.
  - right. eauto.
  - rewrite Hq2. intros ?%H3. rewrite Hm in *. done.
  - unfold flight. simpl. eauto.
  - intros x Hx. apply Fu. auto.
  - intros x Hx. rewrite Hnx.
    + apply H7. rewrite Hm0. set_solver.
    + intros Hin. rewrite Hm0 in HND. simpl in HND. rewrite fmap_app in HND.
      change (t0 :: p.*2 ++ (bq_whenMap (sq_base q')).*2)
        with ((t0 :: p.*2) ++ (bq_whenMap (sq_base q')).*2) in HND.
      apply NoDup_app in HND as (_ & Hdis & _). by apply (Hdis x).
  - intros kx tx Hx. destruct (Fu tx) as [-> _]. destruct (Fh tx) as [-> _]. apply H8.
    rewrite Hm, Hm0. set_solver.
  - eapply may_precede_ext; [|exact H11]. intros x Hx. split_and!; [apply Fu|apply Fh|done|exact (Htk x)].
  - intros x Hx. rewrite app_nil_r in HT. apply elem_of_app in Hx as [Hx|Hx].
    + eapply taken_due_ext; [apply Fu|apply Fh|apply Fd|done|exact (Htk x)|done|by apply HT].
    + pose proof (DequeBatch_now _ _ _ _ _ _ HD) as En.
      apply (taken_due_batch s q' w1 [Running (Some t0)] t0 k p); rewrite ?En; [exact H8|by intros ?? [_ ?]%H10|intros; by apply H9, Hsub|by rewrite Hm|by rewrite Hm, Hm0|done|
        by eapply Forall_impl; [exact Hpd|]; intros ? []|intros; split; [apply Fu|apply Fh]|done].
  - intros dd c Hin. set_solver.
Qed.

Lemma serial_inv_pull s d r q' w' :
  serial_inv s [] → ss_drivers s = [d] →
  SerialQueue_Pull (ss_q s) (ss_w s) = Some (r, q', w') →
  ∃ l, serial_inv (take (taken_out (ss_map s) (bq_whenMap (sq_base q')))
    (s <| ss_q := q' |> <| ss_w := w' |> <| ss_drivers := after_pull r q' w' |>)) l.
Proof.
  intros Hinv Hd HP. pose proof Hinv as [H1 H2 H3 H4 H5 H6 H7 H8 H9 H10 H11 HT HW H12].
  assert (Ha : bq_isActiveState (ss_b s) = true)
    by (destruct H2 as [(H & _ & _)|[_ ?]]; [congruence|done]).
  unfold SerialQueue_Pull in HP. destruct (ss_map s) as [|[k t0] m0] eqn:Hm.
  { injection HP as <- <- <-. exists []. rewrite <-Hm at 1. rewrite take_nothing. split; simpl; try done; rewrite ?Hm; try done.
    - by left.
    - intros dd c Hin. set_solver. }
  case_decide as Hc.
  { injection HP as <- <- <-. exists []. rewrite <-Hm at 1. rewrite take_nothing. split; simpl; try done; rewrite ?Hm; try done.
    - right. eauto.
    - intros dd c Hin. apply list_elem_of_singleton in Hin as [= -> ->]. right.
      split; [done|]. intros k' [= <-]. lia. }
  destruct (bq_isExit (ss_b s)) eqn:He; [by specialize (H3 eq_refl)|].
  apply bind_Some in HP as ([[t m] w1] & HD & HP). injection HP as <- <- <-.
  rewrite <-Hm in HD |- *. eapply serial_inv_deque; [exact Hinv|exact Hd|exact Hm|..|exact HD].
  - by case_decide.
  - case_decide; by rewrite He.
  - by case_decide.
  - lia.
Qed.

Lemma cancel_all_in_store m w t : in_store (cancel_all m w) t ↔ in_store w t.
Proof.
  unfold cancel_all. revert w. induction m as [|x m IH]; intros w; simpl; [done|]. rewrite IH.
  unfold QueueTask_Cancel, QueueTask_Destroy, DecDeleteRef, QueueTask_FreeMem, destroy_func,
    QueueTask_Notify, SetStatus.
  repeat case_match; rewrite ?emit_in_store, ?upd_task_in_store, ?emit_in_store, ?upd_task_in_store; done.
Qed.

Lemma cancel_all_ext m w : world_ext w (cancel_all m w).
Proof.
  split; [by rewrite cancel_all_now|]. intros t Ht. rewrite cancel_all_in_store.
  by rewrite !(cancel_all_frame) by (by repeat split).
Qed.

(** Only the drivers (and the list of executed tasks) change. *)
Lemma serial_inv_drivers s l e d l' :
  serial_inv s l → (∃ d0, ss_drivers s = [d0]) →
  (∀ dl c, d ≠ Sleeping dl c) →
  e ++ l' = ss_executed s ++ l →
  flight (s <| ss_executed := e |> <| ss_drivers := [d] |>) l' →
  serial_inv (s <| ss_executed := e |> <| ss_drivers := [d] |>) l'.
Proof.
  intros [H1 H2 H3 H4 H5 H6 H7 H8 H9 H10 H11 HT HW H12] [d0 Hd] Hns He Hf.
  assert (Hro : run_order (s <| ss_executed := e |> <| ss_drivers := [d] |>) l' = run_order s l).
  { unfold run_order. simpl. by rewrite !app_assoc, He. }
  split; rewrite ?Hro; simpl; try done.
  - right. split; [by exists d|]. destruct H2 as [(? & _)|[_ ?]]; [congruence|done].
  - by rewrite He.
  - intros dl c Hin%list_elem_of_singleton. by destruct (Hns dl c).
Qed.

(** A task without delay activates the queue and is taken at once. *)
Lemma serial_inv_activate s t :
  serial_inv s [] → ss_drivers s = [] → ss_map s = [] → bq_isExit (ss_b s) = false → ss_accepted s !! t = None → in_store (ss_w s) t →
  qt_nextTask (task_at (ss_w s) t) = None → qt_delay (task_at (ss_w s) t) = 0 →
  serial_inv (take [t] (accept t (s <| ss_q := (ss_q s) <| sq_base := (ss_b s) <| bq_isActiveState := true |> |> |>
    <| ss_submitted ::= union {[t]} |> <| ss_drivers ::= λ d, d ++ [Activating t] |>))) [t].
Proof.
  intros [H1 H2 H3 H4 H5 H6 H7 H8 H9 H10 H11 HT HW H12] Hd Hm Hex Hacc Hst Hnx Hdel.
  assert (Hto : t ∉ run_order s []) by (intros Ht%H9; rewrite Hacc in Ht; by destruct Ht).
  assert (Htk : ss_taken s !! t = None).
  { destruct (ss_taken s !! t) eqn:E; [|done]. destruct (HW t) as [[? ?] _]; [by eexists|congruence]. }
  split; unfold run_order in *; simpl; rewrite ?Hm, ?Hd in *; simpl in *; rewrite ?app_nil_r in *; try done.
  - right. eauto.
  - unfold flight. simpl. rewrite ?Hd. simpl. split_and!; [done|done|]. by rewrite decide_True.
  - apply NoDup_app. split_and!; [done| |apply NoDup_singleton]. intros x Hx Hs%list_elem_of_singleton. by subst x.
  - intros x [?|Hs%list_elem_of_singleton]%elem_of_app; [by apply H6|by subst].
  - intros x. rewrite lookup_insert_is_Some'. intros [?|Hs%list_elem_of_singleton]%elem_of_app; [right; by apply H9|left; by subst].
  - intros x n. rewrite map_size_insert_None by done.
    destruct (decide (t = x)) as [<-|]; [rewrite lookup_insert_eq|rewrite lookup_insert_ne by done].
    + intros [= <-]. split; [set_solver|lia].
    + intros [? ?]%H10. split; [set_solver|lia].
  - apply StronglySorted_app_iff. split_and!; [|repeat constructor|].
    + eapply may_precede_ext; [|exact H11]. intros x Hx. rewrite !lookup_insert_ne by (by intros ->). done.
    + intros x y Hx Hs%list_elem_of_singleton na nb Hna Hnb. subst y. destruct (HT x Hx) as (na' & n & z & E1 & E2 & E3 & _).
      rewrite lookup_insert_eq in Hnb. rewrite lookup_insert_ne in Hna by (by intros ->). simplify_eq. right; right; right.
      exists n, z. rewrite lookup_insert_ne by (by intros ->). done.
  - rewrite map_size_insert_None by done. intros x [Hx|Hs%list_elem_of_singleton]%elem_of_app.
    + eapply taken_due_ext; [done..| | | |by apply HT]; [intros n Hn; rewrite lookup_insert_ne; [done|by intros ->]..|].
      rewrite map_size_insert_None by done. lia.
    + subst x. eexists _, _, _. rewrite !lookup_insert_eq. rewrite map_size_insert_None by done. split_and!; [done|done|lia|lia|done].
  - intros x Hx. split; [|set_solver]. apply lookup_insert_is_Some' in Hx. apply lookup_insert_is_Some'.
    destruct Hx as [?|Hx]; [by left|right; by apply HW].
  - intros dl c Hin. set_solver.
Qed.

Lemma serial_push_inv s l t r q' :
  serial_inv s l → t ∉ ss_submitted s → in_store (ss_w s) t →
  qt_nextTask (task_at (ss_w s) t) = None →
  SerialQueue_Push t (ss_q s) (ss_w s) = (r, q') →
  ∃ l', serial_inv
    (let s' := s <| ss_q := q' |> <| ss_submitted ::= union {[t]} |> in
     if decide (r = SUCC) then accept t s'
     else if decide (r = FAILED) then s'
     else let s'' := s' <| ss_drivers ::= λ d, d ++ [Activating t] |> in
          if decide (qt_delay (task_at (ss_w s) t) = 0) then take [t] (accept t s'') else s'') l'.
Proof.
  intros Hinv Hsub Hst Hnx HP. pose proof Hinv as [H1 H2 H3 H4 H5 H6 H7 H8 H9 H10 H11 HT HW H12].
  assert (Hacc : ss_accepted s !! t = None).
  { destruct (ss_accepted s !! t) as [n|] eqn:Ht; [|done]. by apply H10 in Ht as [? _]. }
  assert (Hto : t ∉ run_order s l) by (intros Ht%H9; rewrite Hacc in Ht; by destruct Ht).
  destruct (SerialQueue_Push_cases _ _ _ _ _ HP)
    as [(-> & He & ->)|[(-> & He & Ha & ->)|(-> & _)]]; simpl.
  - exists l. split; simpl; try done; [|set_solver].
    unfold flight in *. simpl. destruct (ss_drivers s) as [|[t0|[]|] []]; try done.
    case_decide; [done|]. destruct H4 as (? & ? & ? & ? & ?). split_and!; try done. set_solver.
  - destruct H2 as [(Hd & _ & Hm)|[_ ?]]; [|congruence].
    assert (l = []) as -> by (unfold flight in H4; by rewrite Hd in H4).
    assert (Hro : run_order s [] = ss_executed s) by (unfold run_order; rewrite Hm; simpl; by rewrite !app_nil_r).
    case_decide as Hdel.
    + exists [t]. by apply serial_inv_activate.
    + exists []. split; unfold run_order in *; simpl; rewrite ?Hm, ?Hd in *; simpl in *; try done.
      * right. eauto.
      * unfold flight. simpl. rewrite ?Hd. simpl. split_and!; [done|done|]. rewrite decide_False by done.
        split_and!; [done|done|set_solver].
      * set_solver.
      * intros dl c Hin. set_solver.
  - exists l. eapply serial_inv_accept; try done; [set_solver|set_solver|].
    intros Hin. unfold flight in H4. destruct H2 as [(Hd & _)|[[d Hd] _]]; rewrite Hd in *; [set_solver|].
    apply list_elem_of_singleton in Hin as <-. destruct H4 as (_ & _ & H4). case_decide.
    + subst l. apply Hto. unfold run_order. set_solver.
    + naive_solver.
Qed.

Lemma serial_push_delayed_inv s l t r q' :
  serial_inv s l → ss_drivers s = [Activating t] → qt_delay (task_at (ss_w s) t) ≠ 0 →
  SerialQueue_Push t (ss_q s) (ss_w s) = (r, q') →
  let s' := s <| ss_q := q' |> <| ss_drivers := [Running None] |> in
  ∃ l', serial_inv (if decide (r = SUCC) then accept t s' else s') l'.
Proof.
  intros Hinv Hd Hdel HP. pose proof (inv_flight _ _ Hinv) as Hf. unfold flight in Hf.
  rewrite Hd, decide_False in Hf by done. destruct Hf as (Hst & Hnx & -> & Hacc & Hsub).
  assert (Hinv' : serial_inv (s <| ss_executed := ss_executed s |> <| ss_drivers := [Running None] |>) [])
    by (eapply serial_inv_drivers; [exact Hinv|by eexists|done..]).
  destruct (SerialQueue_Push_cases _ _ _ _ _ HP)
    as [(-> & He & ->)|[(-> & He & Ha & _)|(-> & _)]]; simpl.
  - exists []. exact Hinv'.
  - destruct (inv_driver _ _ Hinv) as [(? & _)|[_ ?]]; congruence.
  - exists []. apply (serial_inv_accept _ _ t q' (ss_submitted s)) in Hinv'; try done. set_solver.
Qed.

Section invariant.
Context (regex_match : string → string → bool).

Lemma serial_inv_init queueId name w : serial_inv (serial_init queueId name w) [].
Proof.
  split; try done; unfold run_order; simpl; try first [apply mm_sorted_nil|by left|set_solver|by intros t [? [=]]|by constructor].
Qed.

(** The step of a driver that evaluates [Pull]. *)
Lemma serial_pull_step_inv s l d1 d d2 r q' w' :
  serial_inv s l → ss_drivers s = d1 ++ d :: d2 → l = [] →
  SerialQueue_Pull (ss_q s) (ss_w s) = Some (r, q', w') →
  ∃ l', serial_inv (take (taken_out (ss_map s) (bq_whenMap (sq_base q'))) (s <| ss_q := q' |> <| ss_w := w' |>
                      <| ss_drivers := d1 ++ after_pull r q' w' ++ d2 |>)) l'.
Proof.
  intros Hinv Hd -> HP. destruct (serial_inv_single _ _ _ _ _ Hinv Hd) as (-> & -> & Hd' & _).
  rewrite app_nil_l, app_nil_r. by eapply serial_inv_pull.
Qed.

Lemma serial_step_inv s l s' :
  serial_inv s l → serial_step regex_match s s' → ∃ l', serial_inv s' l'.
Proof.
  intros Hinv Hstep. pose proof (inv_flight _ _ Hinv) as Hf. unfold flight in Hf.
  destruct Hstep as [s w' Hext|s t r q' Hsub Hst Hnx HP|s d1 d2 t Hd Hdel|s d1 d2 t r q' Hd Hdel HP
    |s d1 d2 t Hd|s d1 d2 r q' w' Hd HP|s d1 d2 dl seen r q' w' Hd HP|s r b' w' HR|s nm r b' w' HR
    |s t r b' HR|s b' w' HR].
  - exists l. by apply serial_inv_world.
  - by eapply serial_push_inv.
  - destruct (serial_inv_single _ _ _ _ _ Hinv Hd) as (-> & -> & Hd' & _). rewrite Hd' in Hf.
    destruct Hf as (_ & Hn & Hl). rewrite decide_True in Hl by done. exists [t].
    apply (serial_inv_drivers _ l (ss_executed s)); [done|eauto|done|by subst|].
    exists []. done.
  - destruct (serial_inv_single _ _ _ _ _ Hinv Hd) as (-> & -> & Hd' & _).
    by eapply serial_push_delayed_inv.
  - destruct (serial_inv_single _ _ _ _ _ Hinv Hd) as (-> & -> & Hd' & _). rewrite Hd' in Hf.
    destruct Hf as (l' & -> & Hl). exists l'.
    apply (serial_inv_drivers _ (t :: l') (ss_executed s ++ [t])); [done|eauto|done| |].
    { by rewrite <-app_assoc. }
    unfold flight. simpl. destruct l' as [|t' l']; simpl in Hl.
    + by rewrite Hl.
    + destruct Hl as [-> Hl]. eauto.
  - destruct (serial_inv_single _ _ _ _ _ Hinv Hd) as (_ & _ & Hd' & _). rewrite Hd' in Hf.
    by eapply serial_pull_step_inv.
  - destruct (serial_inv_single _ _ _ _ _ Hinv Hd) as (_ & _ & Hd' & _). rewrite Hd' in Hf.
    assert (Hinv' := serial_inv_shrink s l ((ss_b s) <| bq_delayStatus := false |>) Hinv).
    eapply (serial_pull_step_inv _ _ _ _ _ _ _ _ (Hinv' _ _ _ _) Hd Hf HP).
    Unshelve. all: simpl; auto.
  - unfold BaseQueue_Remove, BaseQueue_Remove_map in HR.
    destruct (bq_isExit (ss_b s)) eqn:He; injection HR as <- <- <-.
    + exists l. apply (serial_inv_shrink s l); simpl; auto.
    + exists l. apply (serial_inv_world (s <| ss_q ::= _ |>)); [apply cancel_all_ext|].
      apply serial_inv_shrink; simpl; auto using sublist_nil_l.
  - unfold BaseQueue_Remove_name, BaseQueue_Remove_name_map in HR.
    destruct (bq_isExit (ss_b s)) eqn:He.
    + injection HR as <- <- <-. exists l. apply (serial_inv_shrink s l); simpl; auto.
    + destruct (Remove_name_loop _ _ _ _) as [[n m'] w1] eqn:Hl. injection HR as <- <- <-.
      apply Remove_name_loop_spec in Hl as (-> & _ & ->). exists l.
      apply (serial_inv_world (s <| ss_q ::= _ |>)); [apply cancel_all_ext|].
      apply serial_inv_shrink; simpl; auto. apply sublist_filter.
  - unfold BaseQueue_Remove_task in HR. destruct (BaseQueue_Remove_task_map _ _ _ _) as [r0 m'] eqn:Hm.
    injection HR as <- <-. exists l.
    apply BaseQueue_Remove_task_map_cases in Hm as [(_ & ->)|(_ & _ & l1 & l2 & Hm & ->)];
      apply (serial_inv_shrink s l); simpl; auto. rewrite Hm.
    apply sublist_app; [done|]. by apply sublist_cons.
  - unfold BaseQueue_Stop, BaseQueue_Stop_map, ClearWhenMap in HR. injection HR as <- <-. exists l.
    apply (serial_inv_world (s <| ss_q ::= _ |>)); [apply cancel_all_ext|].
    apply serial_inv_shrink; simpl; auto using sublist_nil_l.
Qed.

Lemma serial_reachable_inv queueId name w s :
  serial_reachable regex_match queueId name w s → ∃ l, serial_inv s l.
Proof.
  unfold serial_reachable. intros Hr.
  apply (rtc_ind_r (λ s, ∃ l, serial_inv s l) _) in Hr; [done| |].
  - eexists. apply serial_inv_init.
  - intros s1 s2 _ Hs [l Hl]. by eapply serial_step_inv.
Qed.
End invariant.

(** ** A concrete run: two tasks submitted, run one after the other *)

Definition no_regex (_ _ : string) : bool := false.

Lemma serial_sample_run :
  ∃ s, serial_reachable no_regex 0 None sample_world s ∧
    ss_executed s = [1%positive; 2%positive] ∧ ss_drivers s = [Running None].
Proof.
  eexists. split; [|split].
  - unfold serial_reachable.
    eapply rtc_l; [eapply (step_push _ _ 1%positive); [by apply (bool_decide_unpack _)|by eexists|done|reflexivity]|].
    eapply rtc_l; [eapply (step_push _ _ 2%positive); [by apply (bool_decide_unpack _)|by eexists|done|reflexivity]|].
    eapply rtc_l; [eapply (step_transfer _ _ [] [] 1%positive); done|].
    eapply rtc_l; [eapply (step_exec _ _ [] [] 1%positive); done|].
    eapply rtc_l; [eapply (step_pull _ _ [] []); [reflexivity|vm_compute; reflexivity]|].
    eapply rtc_l; [eapply (step_exec _ _ [] [] 2%positive); done|].
    apply rtc_refl.
  - vm_compute. reflexivity.
  - vm_compute. reflexivity.
Qed.

(** Evaluates the state a run has reached. *)
Ltac eval_state :=
  match goal with |- rtc _ ?s _ => let s' := eval vm_compute in s in replace s with s' by (vm_compute; reflexivity) end.

Lemma step_time regex_match s n :
  w_now (ss_w s) <= n → serial_step regex_match s (s <| ss_w := (ss_w s) <| w_now := n |> |>).
Proof. intros Hn. apply step_env. by split. Qed.

(** A task that is accepted later and due earlier overtakes another one. *)
Definition overtaking_world : World :=
  mkWorld (<[1%positive := inhabitant]> (<[2%positive := inhabitant <| qt_uptime := 300 |> <| qt_delay := 200 |>]>
             (<[3%positive := inhabitant <| qt_uptime := 200 |> <| qt_delay := 100 |>]> ∅))) 100 0 0 [] [].

Lemma serial_sample_overtake :
  ∃ s, serial_reachable no_regex 0 None overtaking_world s ∧ ss_executed s = [1%positive; 3%positive; 2%positive] ∧
    ss_accepted s !! 3%positive = Some 2%nat ∧ ss_accepted s !! 2%positive = Some 1%nat ∧
    qt_insertHead (task_at (ss_w s) 3%positive) = false ∧ qt_delay (task_at (ss_w s) 3%positive) ≠ 0 ∧
    qt_uptime (task_at (ss_w s) 3%positive) = 200.
Proof.
  eexists. split.
  - unfold serial_reachable.
    eapply rtc_l; [eapply (step_push _ _ 1%positive); [by apply (bool_decide_unpack _)|by eexists|done|reflexivity]|]; eval_state.
    eapply rtc_l; [eapply (step_transfer _ _ [] [] 1%positive); vm_compute; reflexivity|]; eval_state.
    eapply rtc_l; [eapply (step_push _ _ 2%positive); [by apply (bool_decide_unpack _)|by eexists|done|reflexivity]|]; eval_state.
    eapply rtc_l; [eapply (step_push _ _ 3%positive); [by apply (bool_decide_unpack _)|by eexists|done|reflexivity]|]; eval_state.
    eapply rtc_l; [eapply (step_exec _ _ [] [] 1%positive); vm_compute; reflexivity|]; eval_state.
    eapply rtc_l; [apply (step_time _ _ 400); vm_compute; discriminate|]; eval_state.
    eapply rtc_l; [eapply (step_pull _ _ [] []); [reflexivity|vm_compute; reflexivity]|]; eval_state.
    eapply rtc_l; [eapply (step_exec _ _ [] [] 3%positive); vm_compute; reflexivity|]; eval_state.
    eapply rtc_l; [eapply (step_exec _ _ [] [] 2%positive); vm_compute; reflexivity|]; eval_state. apply rtc_refl.
  - split_and!; vm_compute; congruence.
Qed.

(** A delayed task put the queue to sleep. *)
Definition delayed_world : World :=
  mkWorld (<[1%positive := inhabitant <| qt_uptime := 500 |> <| qt_delay := 400 |>]> ∅) 100 0 0 [] [].

Lemma serial_sample_sleep :
  ∃ s, serial_reachable no_regex 0 None delayed_world s ∧ ss_drivers s = [Sleeping 500 1] ∧
    begin_time (ss_map s) = Some 500.
Proof.
  eexists. split; [|split].
  - unfold serial_reachable.
    eapply rtc_l; [eapply (step_push _ _ 1%positive); [by apply (bool_decide_unpack _)|by eexists|done|reflexivity]|].
    eapply rtc_l; [eapply (step_push_delayed _ _ [] [] 1%positive); [done|done|reflexivity]|].
    eapply rtc_l; [eapply (step_pull _ _ [] []); [reflexivity|vm_compute; reflexivity]|].
    apply rtc_refl.
  - vm_compute. reflexivity.
  - vm_compute. reflexivity.
Qed.

(** ** Properties *)

Section properties.
Context (regex_match : string → string → bool).

(** C5: a serial queue never has two threads of control at work: in every
    reachable state at most one activation, executing chain or sleeping pull
    exists, there is one whenever tasks are pending (no accepted task is
    stranded in an inactive queue), and an exited queue holds no task. *)
Theorem serial_single_driver queueId name w s :
  serial_reachable regex_match queueId name w s →
  (length (ss_drivers s) <= 1)%nat ∧
  (SerialQueue_GetActiveStatus (ss_q s) = true ↔ ss_drivers s ≠ []) ∧
  (ss_map s ≠ [] → ∃ d, ss_drivers s = [d]) ∧
  (bq_isExit (ss_b s) = true → ss_map s = []).
Proof.
  intros [l H]%serial_reachable_inv. unfold SerialQueue_GetActiveStatus.
  destruct (inv_driver _ _ H) as [(-> & -> & ->)|[[d ->] ->]]; simpl.
  - split_and!; [lia|done|done|done].
  - split_and!; [lia|done|by eauto|exact (inv_exit _ _ H)].
Qed.

(** C4: a serial queue runs each task at most once and in order of due time, the
    order of acceptance breaking ties.  If [a] has run before [b], then [a] is due
    earlier, or at the same time and was accepted earlier, unless [a] was inserted at
    the head, or [b] was accepted only when [a] had already left the queue to run.  A
    delayed task that was not inserted at the head does not leave the queue before it
    is due. *)
Theorem serial_fifo queueId name w s e1 a e2 b e3 na nb :
  serial_reachable regex_match queueId name w s →
  ss_executed s = e1 ++ a :: e2 ++ b :: e3 →
  ss_accepted s !! a = Some na → ss_accepted s !! b = Some nb →
  a ≠ b ∧
  (qt_uptime (task_at (ss_w s) a) < qt_uptime (task_at (ss_w s) b) ∨
   qt_uptime (task_at (ss_w s) a) = qt_uptime (task_at (ss_w s) b) ∧ (na < nb)%nat ∨
   qt_insertHead (task_at (ss_w s) a) = true ∨
   ∃ n z, ss_taken s !! a = Some (n, z) ∧ (na < n <= nb)%nat) ∧
  (∃ n z, ss_taken s !! a = Some (n, z) ∧
     (qt_insertHead (task_at (ss_w s) a) = false → qt_delay (task_at (ss_w s) a) ≠ 0 → qt_uptime (task_at (ss_w s) a) <= z)).
Proof.
  intros [l H]%serial_reachable_inv He Ha Hb.
  pose proof (inv_nodup _ _ H) as Hnd. pose proof (inv_fifo _ _ H) as Hf. pose proof (inv_taken _ _ H a) as Ht.
  unfold run_order in *. rewrite He in *.
  apply NoDup_app in Hnd as (Hnd & _ & _). apply StronglySorted_app_iff in Hf as (Hf & _ & _).
  apply StronglySorted_app_iff in Hf as (_ & Hf & _). inv Hf.
  apply NoDup_app in Hnd as (_ & _ & Hnd). apply NoDup_cons in Hnd as [Hnin _].
  split_and!; [set_solver| |].
  - rewrite Forall_forall in H3. assert (b ∈ e2 ++ b :: e3) as Hin by set_solver. by apply (H3 b Hin na nb).
  - destruct Ht as (? & n & z & _ & ? & _ & ?); [set_solver|]. by exists n, z.
Qed.

(** a sleeping pull never oversleeps: either the condition variable has been
    notified since it fell asleep, or its deadline is not after the due time of
    the earliest pending task. *)
Theorem serial_no_late_wakeup queueId name w s deadline seen :
  serial_reachable regex_match queueId name w s →
  Sleeping deadline seen ∈ ss_drivers s →
  (seen < bq_notified (ss_b s))%nat ∨
  (∀ k t, (k, t) ∈ ss_map s → deadline <= k).
Proof.
  intros [l H]%serial_reachable_inv Hd. destruct (inv_sleep _ _ H _ _ Hd) as [?|[_ Hk]]; [by left|right].
  intros k t Hin. pose proof (inv_sorted _ _ H) as Hs.
  destruct (ss_map s) as [|[k0 t0] m] eqn:Hm; [by apply elem_of_nil in Hin|].
  specialize (Hk k0 eq_refl). pose proof (mm_sorted_head_min _ _ _ _ Hs Hin). simpl in *. lia.
Qed.
End properties.

Lemma serial_single_driver_witness :
  ∃ s, ss_executed s = [1%positive; 2%positive] ∧ (length (ss_drivers s) <= 1)%nat.
Proof.
  destruct serial_sample_run as (s & Hr & He & _). exists s. split; [exact He|].
  exact (proj1 (serial_single_driver _ _ _ _ _ Hr)).
Defined.

Lemma serial_fifo_witness :
  ∃ s, serial_reachable no_regex 0 None overtaking_world s ∧ ss_executed s = [1%positive; 3%positive; 2%positive] ∧
    ss_accepted s !! 3%positive = Some 2%nat ∧ ss_accepted s !! 2%positive = Some 1%nat ∧
    3%positive ≠ 2%positive ∧ ∃ n z, ss_taken s !! 3%positive = Some (n, z) ∧ 200 <= z.
Proof.
  destruct serial_sample_overtake as (s & Hr & He & H3 & H2 & Hh & Hd & Hu). exists s.
  destruct (serial_fifo no_regex 0 None overtaking_world s [1%positive] 3%positive [] 2%positive [] 2%nat 1%nat Hr He H3 H2)
    as (Hne & _ & n & z & Ht & Hz).
  split_and!; [exact Hr|exact He|exact H3|exact H2|exact Hne|]. exists n, z. split; [exact Ht|]. rewrite <-Hu. by apply Hz.
Defined.

Lemma serial_no_late_wakeup_witness :
  ∃ s, begin_time (ss_map s) = Some 500 ∧
    ((1 < bq_notified (ss_b s))%nat ∨ ∀ k t, (k, t) ∈ ss_map s → 500 <= k).
Proof.
  destruct serial_sample_sleep as (s & Hr & Hd & Hb). exists s. split; [exact Hb|].
  apply (serial_no_late_wakeup _ _ _ _ _ 500 1 Hr). rewrite Hd. left.
Defined.
