(* ===== verification/ConcurrentQueue.v ===== *)
(** * ConcurrentQueue

    Models src/queue/concurrent_queue.{h,cpp}: one pending map per priority, at
    most [maxConcurrency_] tasks in flight, [WaitAll], and the variant bound to a
    loop.  The loop is used through the interface [LoopOps]. *)

From S2P Require Import Prelude Multimap Types QueueTask QueueStrategy BaseQueue.

(** What the queue calls on a loop (src/eu/loop.cpp). *)
Class LoopOps := {
  loop_WakeUp : World → World;
  loop_TimerStart : Z → tid → World → Z * World;  (* timeout in ms; handle, or -1 *)
}.

Record ConcurrentQueue := mkConcurrentQueue {
  cq_base : BaseQueue;
  cq_maxConcurrency : Z;
  cq_concurrency : Z;             (* atomic_int *)
  cq_loop : bool;                 (* loop_ != nullptr *)
  cq_isOnLoop : bool;
  cq_waitingAll : bool;
  cq_whenMapVec : list whenmap;   (* one per priority, ffrt_queue_priority_idle + 1 of them *)
  cq_waitingMap : whenmap;
  cq_headTaskVec : list (option tid);
  cq_notifiedAll : nat;           (* cond_.notify_all() calls *)
}.

#[export] Instance ConcurrentQueue_eta : Eta ConcurrentQueue := λ q,
  mkConcurrentQueue (cq_base q) (cq_maxConcurrency q) (cq_concurrency q) (cq_loop q)
    (cq_isOnLoop q) (cq_waitingAll q) (cq_whenMapVec q) (cq_waitingMap q) (cq_headTaskVec q)
    (cq_notifiedAll q).

Definition ConcurrentQueue_ctor (queueId : Z) (name : option string) (maxConcurrency : Z)
    : ConcurrentQueue :=
  mkConcurrentQueue (BaseQueue_ctor queueId name) maxConcurrency 0 false false false
    (replicate 4 []) [] (replicate (Z.to_nat maxConcurrency) None) 0.

Definition CreateConcurrentQueue (queueId : Z) (name : option string) (attrMaxConcurrency : Z)
    : ConcurrentQueue :=
  ConcurrentQueue_ctor queueId name
    (if decide (attrMaxConcurrency <= 0) then 1 else attrMaxConcurrency).

Definition WhenMapVecEmpty (maps : list whenmap) : bool :=
  forallb (λ i, match map_at maps i with [] => true | _ => false end) (seq 0 4).

Definition notify_all (q : ConcurrentQueue) : ConcurrentQueue := q <| cq_notifiedAll ::= S |>.

(** [whenMapVec_[prio].insert({uptime, task})] *)
Definition insert_prio (t : tid) (prio : Z) (w : World) (q : ConcurrentQueue) : ConcurrentQueue :=
  q <| cq_whenMapVec ::= alter (mm_insert (qt_uptime (task_at w t)) t) (Z.to_nat prio) |>.

Definition ConcurrentQueue_PushDelayTaskToTimer `{LoopOps} (t : tid) (w : World) : Z * World :=
  let delayMs := u64 (u64 (qt_delay (task_at w t) - 1) / 1000 + 1) in
  let timeout := if decide (delayMs > INT_MAX) then INT_MAX else delayMs in
  let '(r, w) := loop_TimerStart timeout t w in
  if decide (r < 0) then (FAILED, w) else (SUCC, w).

Definition ConcurrentQueue_PushAndCalConcurrency (t : tid) (prio : Z) (q : ConcurrentQueue)
    (w : World) : Z * ConcurrentQueue :=
  if decide (cq_concurrency q < cq_maxConcurrency q) then
    let q := q <| cq_concurrency ::= Z.add 1 |> in
    if decide (0 < qt_delay (task_at w t)) then (CONCURRENT, insert_prio t prio w q)
    else (CONCURRENT, q)
  else
    let q := insert_prio t prio w q in
    match map_at (cq_whenMapVec q) (Z.to_nat prio) with
    | (_, t') :: _ => if decide (t = t') then (SUCC, notify_all q) else (SUCC, q)
    | [] => (SUCC, q)
    end.

Definition ConcurrentQueue_Push `{LoopOps} (t : tid) (q : ConcurrentQueue) (w : World)
    : Z * ConcurrentQueue * World :=
  if bq_isExit (cq_base q) then (FAILED, q, w)
  else
    let taskPriority := qt_prio (task_at w t) in
    let '(taskPriority, w) :=
      if decide (taskPriority > ffrt_queue_priority_idle)
      then (ffrt_queue_priority_low, QueueTask_SetPriority t ffrt_queue_priority_low w)
      else (taskPriority, w) in
    if cq_waitingAll q then
      (SUCC, q <| cq_waitingMap ::= mm_insert (qt_uptime (task_at w t)) t |>, w)
    else if cq_loop q then
      if decide (qt_delay (task_at w t) = 0) then
        (SUCC, insert_prio t taskPriority w q, loop_WakeUp w)
      else let '(r, w) := ConcurrentQueue_PushDelayTaskToTimer t w in (r, q, w)
    else if cq_isOnLoop q then (FAILED, q, w)
    else let '(r, q) := ConcurrentQueue_PushAndCalConcurrency t taskPriority q w in (r, q, w).

(** [dequeFunc_] *)
Definition concurrent_deque (q : ConcurrentQueue) (w : World)
    : option (PullResult * ConcurrentQueue * World) :=
  '(t, maps, w) ← DequeSingleByPriority (w_now w) (cq_whenMapVec q) w;
  Some (PullRet (Some t), q <| cq_whenMapVec := maps |>, w).

(** [Pull] off a loop, from the test of its wait loop on the statistics just
    taken. *)
Definition concurrent_pull_loop (q : ConcurrentQueue) (w : World)
    : option (PullResult * ConcurrentQueue * World) :=
  let b := cq_base q in
  if negb (bq_isEmpty b) && bool_decide (w_now w < bq_minTime b) && negb (bq_isExit b)
  then Some (PullWait (bq_minTime b - w_now w),
             q <| cq_base ::= λ b, b <| bq_delayStatus := true |> |>, w)
  else if bq_isEmpty b then
    let oldValue := cq_concurrency q in
    let q := q <| cq_concurrency := oldValue - 1 |> in
    Some (PullRet None, if decide (oldValue = 1) then notify_all q else q, w)
  else if bq_isExit b then Some (PullRet None, q, w)
  else concurrent_deque q w.

Definition ConcurrentQueue_Pull (q : ConcurrentQueue) (w : World)
    : option (PullResult * ConcurrentQueue * World) :=
  let q := q <| cq_base ::= GetWhenMapVecStats (cq_whenMapVec q) |> in
  let b := cq_base q in
  if cq_loop q then
    if negb (bq_isEmpty b) && bool_decide (bq_minTime b <= w_now w) && negb (bq_isExit b)
    then concurrent_deque q w
    else Some (PullRet None, q, w)
  else concurrent_pull_loop q w.

(** The same after [cond_.wait_for] returns. *)
Definition ConcurrentQueue_Pull_resume (q : ConcurrentQueue) (w : World)
    : option (PullResult * ConcurrentQueue * World) :=
  let q := q <| cq_base ::= λ b, b <| bq_delayStatus := false |> |> in
  concurrent_pull_loop (q <| cq_base ::= GetWhenMapVecStats (cq_whenMapVec q) |>) w.

(** A [for] over the maps that sums the results of a removal. *)
Fixpoint remove_maps (q : BaseQueue) (maps : list whenmap) (w : World)
    : Z * BaseQueue * list whenmap * World :=
  match maps with
  | [] => (0, q, [], w)
  | m :: maps =>
      let '(r, q, m, w) := BaseQueue_Remove_map q m w in
      let '(rs, q, maps, w) := remove_maps q maps w in (r + rs, q, m :: maps, w)
  end.

Definition ConcurrentQueue_Remove (q : ConcurrentQueue) (w : World) : Z * ConcurrentQueue * World :=
  let '(n, b, maps, w) := remove_maps (cq_base q) (cq_whenMapVec q) w in
  let '(r, b, m, w) := BaseQueue_Remove_map b (cq_waitingMap q) w in
  (n + r, q <| cq_base := b |> <| cq_whenMapVec := maps |> <| cq_waitingMap := m |>, w).

Section by_name.
Context (regex_match : string → string → bool).

Fixpoint remove_name_maps (name : string) (q : BaseQueue) (maps : list whenmap) (w : World)
    : Z * list whenmap * World :=
  match maps with
  | [] => (0, [], w)
  | m :: maps =>
      let '(r, m, w) := BaseQueue_Remove_name_map regex_match name q m w in
      let '(rs, maps, w) := remove_name_maps name q maps w in (r + rs, m :: maps, w)
  end.

Definition ConcurrentQueue_Remove_name (name : string) (q : ConcurrentQueue) (w : World)
    : Z * ConcurrentQueue * World :=
  let '(n, maps, w) := remove_name_maps name (cq_base q) (cq_whenMapVec q) w in
  let '(r, m, w) := BaseQueue_Remove_name_map regex_match name (cq_base q) (cq_waitingMap q) w in
  (n + r, q <| cq_whenMapVec := maps |> <| cq_waitingMap := m |>, w).

Definition ConcurrentQueue_HasTask (name : string) (q : ConcurrentQueue) (w : World) : bool :=
  existsb (λ m, BaseQueue_HasTask_map regex_match name m w) (cq_whenMapVec q).
End by_name.

(** The first map from which the task is removed. *)
Fixpoint remove_task_maps (t : tid) (q : BaseQueue) (maps : list whenmap) (w : World)
    : option (list whenmap) :=
  match maps with
  | [] => None
  | m :: maps =>
      let '(r, m') := BaseQueue_Remove_task_map t q m w in
      if decide (r = SUCC) then Some (m' :: maps) else cons m <$> remove_task_maps t q maps w
  end.

Definition ConcurrentQueue_Remove_task (t : tid) (q : ConcurrentQueue) (w : World)
    : Z * ConcurrentQueue :=
  match remove_task_maps t (cq_base q) (cq_whenMapVec q) w with
  | Some maps => (SUCC, q <| cq_whenMapVec := maps |>)
  | None =>
      let '(r, m) := BaseQueue_Remove_task_map t (cq_base q) (cq_waitingMap q) w in
      (r, q <| cq_waitingMap := m |>)
  end.

(** [Stop(whenMap)] of this class: the tasks are notified and destroyed, their
    status is not set. *)
Definition ConcurrentQueue_Stop_map (m : whenmap) (w : World) : World :=
  foldl (λ w x, QueueTask_Destroy x.2 (QueueTask_Notify x.2 w)) w m.

Definition ConcurrentQueue_Stop (q : ConcurrentQueue) (w : World) : ConcurrentQueue * World :=
  let q := q <| cq_base ::= λ b, b <| bq_isExit := true |> |> in
  let w := foldl (λ w m, ConcurrentQueue_Stop_map m w) w (cq_whenMapVec q) in
  let w := ConcurrentQueue_Stop_map (cq_waitingMap q) w in
  let q := q <| cq_whenMapVec ::= fmap (λ _, []) |> <| cq_waitingMap := [] |> in
  (if cq_loop q then q else notify_all q, w).

(** [WaitAll] up to its wait: an immediate result, or the caller waits for
    [concurrency_ == 0]. *)
Definition ConcurrentQueue_WaitAll (q : ConcurrentQueue) : option Z * ConcurrentQueue :=
  if cq_isOnLoop q then (Some (-1), q)
  else if bq_isExit (cq_base q) then (Some (-1), q)
  else if cq_waitingAll q then (Some 1, q)
  else (None, q <| cq_waitingAll := true |>).

(** What [WaitAll] hands to the handler for each resubmitted task. *)
Inductive Transfer := TransferTask (t : tid) | TransferInitTask.

Fixpoint resubmit (m : whenmap) (q : ConcurrentQueue) (w : World)
    : ConcurrentQueue * list Transfer :=
  match m with
  | [] => (q, [])
  | (_, t) :: m =>
      let '(r, q) := ConcurrentQueue_PushAndCalConcurrency t (qt_prio (task_at w t)) q w in
      let tr := if decide (r = CONCURRENT)
                then if decide (qt_delay (task_at w t) = 0) then [TransferTask t] else [TransferInitTask]
                else [] in
      let '(q, trs) := resubmit m q w in (q, tr ++ trs)
  end.

(** [WaitAll] from the end of its wait; it returns 0. *)
Definition ConcurrentQueue_WaitAll_finish (q : ConcurrentQueue) (w : World)
    : ConcurrentQueue * list Transfer :=
  match cq_waitingMap q with
  | [] => (q <| cq_waitingAll := false |>, [])
  | m =>
      let '(q, trs) := resubmit m q w in
      (q <| cq_waitingAll := false |> <| cq_waitingMap := [] |>, trs)
  end.

Definition ConcurrentQueue_SetLoop (loopNull : bool) (q : ConcurrentQueue) : bool * ConcurrentQueue :=
  if loopNull || cq_loop q then (false, q)
  else (true, q <| cq_loop := true |> <| cq_isOnLoop := true |>).

Definition ConcurrentQueue_ClearLoop (q : ConcurrentQueue) : bool * ConcurrentQueue :=
  if cq_loop q then (true, q <| cq_loop := false |>) else (false, q).

Definition ConcurrentQueue_GetActiveStatus (q : ConcurrentQueue) : bool :=
  bool_decide (cq_concurrency q ≠ 0).

Definition ConcurrentQueue_GetMapSize (q : ConcurrentQueue) : Z :=
  foldl (λ size m, u32 (size + Z.of_nat (length m))) 0 (cq_whenMapVec q) +
  Z.of_nat (length (cq_waitingMap q)).

Section head_task.
(** [std::sort] by time: a sorted permutation, ties in no particular order. *)
Context (sort : whenmap → whenmap).

Definition ConcurrentQueue_GetHeadTask (q : ConcurrentQueue) : list (option tid) * ConcurrentQueue :=
  if WhenMapVecEmpty (cq_whenMapVec q) then ([], q)
  else
    let n := Z.to_nat (cq_maxConcurrency q) in
    let all := sort (mjoin ((λ i, take n (map_at (cq_whenMapVec q) i)) <$> seq 0 4)) in
    let v := (λ i, snd <$> all !! i) <$> seq 0 n in
    (v, q <| cq_headTaskVec := v |>).
End head_task.

(** ** The queue in use *)

(** One unit of concurrency: a scheduled task that pulls again when it is done,
    or a pull asleep. *)
Inductive CDriver := CActive | CSleep (deadline : Z) (seen : nat).

Record CSys := mkCSys {
  cs_q : ConcurrentQueue;
  cs_w : World;
  cs_drivers : list CDriver;
  cs_waiter : option nat;      (* the caller asleep in WaitAll, with the notify_all count it saw *)
}.

#[export] Instance CSys_eta : Eta CSys := λ s,
  mkCSys (cs_q s) (cs_w s) (cs_drivers s) (cs_waiter s).

Definition cworld_ext (w w' : World) : Prop :=
  ∀ t, in_store w t → in_store w' t ∧
    qt_uptime (task_at w' t) = qt_uptime (task_at w t) ∧
    qt_prio (task_at w' t) = qt_prio (task_at w t).

Definition after_cpull (r : PullResult) (q : ConcurrentQueue) (w : World) : list CDriver :=
  match r with
  | PullWait diff => [CSleep (w_now w + diff) (cq_notifiedAll q)]
  | PullRet (Some _) => [CActive]
  | PullRet None => []
  end.

Section system.
Context `{LoopOps} (regex_match : string → string → bool).

Inductive concurrent_step : CSys → CSys → Prop :=
| cstep_env s w' :
    cworld_ext (cs_w s) w' → concurrent_step s (s <| cs_w := w' |>)
| cstep_push s t r q' w' :
    in_store (cs_w s) t → 0 <= qt_prio (task_at (cs_w s) t) →
    qt_uptime (task_at (cs_w s) t) < UINT64_MAX →
    ConcurrentQueue_Push t (cs_q s) (cs_w s) = (r, q', w') →
    concurrent_step s (s <| cs_q := q' |> <| cs_w := w' |>
      <| cs_drivers ::= λ d, d ++ if decide (r = CONCURRENT) then [CActive] else [] |>)
| cstep_pull s d1 d2 r q' w' :
    cs_drivers s = d1 ++ CActive :: d2 →
    ConcurrentQueue_Pull (cs_q s) (cs_w s) = Some (r, q', w') →
    concurrent_step s (s <| cs_q := q' |> <| cs_w := w' |>
      <| cs_drivers := d1 ++ after_cpull r q' w' ++ d2 |>)
| cstep_wake s d1 d2 deadline seen r q' w' :
    cs_drivers s = d1 ++ CSleep deadline seen :: d2 →
    ConcurrentQueue_Pull_resume (cs_q s) (cs_w s) = Some (r, q', w') →
    concurrent_step s (s <| cs_q := q' |> <| cs_w := w' |>
      <| cs_drivers := d1 ++ after_cpull r q' w' ++ d2 |>)
| cstep_remove s r q' w' :
    ConcurrentQueue_Remove (cs_q s) (cs_w s) = (r, q', w') →
    concurrent_step s (s <| cs_q := q' |> <| cs_w := w' |>)
| cstep_remove_name s name r q' w' :
    ConcurrentQueue_Remove_name regex_match name (cs_q s) (cs_w s) = (r, q', w') →
    concurrent_step s (s <| cs_q := q' |> <| cs_w := w' |>)
| cstep_remove_task s t r q' :
    ConcurrentQueue_Remove_task t (cs_q s) (cs_w s) = (r, q') →
    concurrent_step s (s <| cs_q := q' |>)
| cstep_stop s q' w' :
    ConcurrentQueue_Stop (cs_q s) (cs_w s) = (q', w') →
    concurrent_step s (s <| cs_q := q' |> <| cs_w := w' |>)
| cstep_waitall_now s q' q'' trs :
    ConcurrentQueue_WaitAll (cs_q s) = (None, q') → cq_concurrency q' = 0 →
    ConcurrentQueue_WaitAll_finish q' (cs_w s) = (q'', trs) →
    concurrent_step s (s <| cs_q := q'' |> <| cs_drivers ::= λ d, d ++ ((λ _, CActive) <$> trs) |>)
| cstep_waitall s q' :
    ConcurrentQueue_WaitAll (cs_q s) = (None, q') → cq_concurrency q' ≠ 0 →
    concurrent_step s (s <| cs_q := q' |> <| cs_waiter := Some (cq_notifiedAll q') |>)
| cstep_waitall_done s seen q' trs :
    cs_waiter s = Some seen → cq_concurrency (cs_q s) = 0 →
    ConcurrentQueue_WaitAll_finish (cs_q s) (cs_w s) = (q', trs) →
    concurrent_step s (s <| cs_q := q' |> <| cs_waiter := None |>
      <| cs_drivers ::= λ d, d ++ ((λ _, CActive) <$> trs) |>)
| cstep_set_loop s loopNull r q' :
    ConcurrentQueue_SetLoop loopNull (cs_q s) = (r, q') → concurrent_step s (s <| cs_q := q' |>)
| cstep_clear_loop s r q' :
    ConcurrentQueue_ClearLoop (cs_q s) = (r, q') → concurrent_step s (s <| cs_q := q' |>)
| cstep_loop_pull s r q' w' :
    cq_loop (cs_q s) = true → ConcurrentQueue_Pull (cs_q s) (cs_w s) = Some (r, q', w') →
    concurrent_step s (s <| cs_q := q' |> <| cs_w := w' |>).

Definition concurrent_init (queueId : Z) (name : option string) (attrMax : Z) (w : World) : CSys :=
  mkCSys (CreateConcurrentQueue queueId name attrMax) w [] None.

Definition concurrent_reachable (queueId : Z) (name : option string) (attrMax : Z) (w : World)
    (s : CSys) : Prop :=
  rtc concurrent_step (concurrent_init queueId name attrMax w) s.
End system.

(** ** The invariant *)

Definition pending (q : ConcurrentQueue) (k : Z) (t : tid) : Prop :=
  ∃ i, (k, t) ∈ map_at (cq_whenMapVec q) i.

(** The driver looks at the queue no later than time [k]. *)
Definition attends (q : ConcurrentQueue) (k : Z) (d : CDriver) : Prop :=
  match d with
  | CActive => True
  | CSleep deadline seen => (seen < cq_notifiedAll q)%nat ∨ deadline <= k
  end.

Record cq_core (q : ConcurrentQueue) (ds : list CDriver) : Prop := {
  core_max : 1 <= cq_maxConcurrency q;
  core_len : length (cq_whenMapVec q) = 4%nat;
  core_conc : cq_concurrency q = Z.of_nat (length ds);
  core_le : cq_concurrency q <= cq_maxConcurrency q;
  core_sorted : ∀ i, mm_sorted (map_at (cq_whenMapVec q) i);
  core_keys : ∀ k t, pending q k t → k < UINT64_MAX;
  core_attended : ∀ k t, pending q k t → ∃ d, d ∈ ds ∧ attends q k d;
  core_seen : ∀ dl seen, CSleep dl seen ∈ ds → (seen <= cq_notifiedAll q)%nat;
}.

Lemma attends_mono q q' k k' d :
  (cq_notifiedAll q <= cq_notifiedAll q')%nat → k <= k' → attends q k d → attends q' k' d.
Proof. destruct d as [|dl seen]; simpl; [done|]. intros ? ? [?|?]; [left; lia|right; lia]. Qed.

Lemma pending_insert_prio t prio w q k t' :
  0 <= prio <= 3 → length (cq_whenMapVec q) = 4%nat →
  pending (insert_prio t prio w q) k t' ↔
    (k = qt_uptime (task_at w t) ∧ t' = t) ∨ pending q k t'.
Proof.
  intros Hp Hlen. unfold pending, insert_prio. simpl. split.
  - intros [i Hi]. rewrite map_at_alter in Hi. case_decide; [|by eauto].
    apply mm_insert_elem_of in Hi as [[= -> ->]|?]; eauto.
  - intros [[-> ->]|[i Hi]].
    + exists (Z.to_nat prio). rewrite map_at_alter, decide_True by (split; [done|lia]).
      apply mm_insert_elem_of. by left.
    + exists i. rewrite map_at_alter. case_decide; [|done]. apply mm_insert_elem_of. by right.
Qed.

Lemma insert_prio_sorted t prio w q :
  (∀ i, mm_sorted (map_at (cq_whenMapVec q) i)) →
  ∀ i, mm_sorted (map_at (cq_whenMapVec (insert_prio t prio w q)) i).
Proof. intros Hs i. simpl. rewrite map_at_alter. case_decide; [by apply mm_insert_sorted|done]. Qed.

Lemma insert_prio_length t prio w q :
  length (cq_whenMapVec (insert_prio t prio w q)) = length (cq_whenMapVec q).
Proof. apply length_alter. Qed.

(** An insertion at full concurrency: the new head of a map wakes every sleeper. *)
Lemma core_insert_full t prio w q ds q' :
  cq_core q ds → 0 <= prio <= 3 → qt_uptime (task_at w t) < UINT64_MAX → ds ≠ [] →
  q' = insert_prio t prio w q →
  cq_core (match map_at (cq_whenMapVec q') (Z.to_nat prio) with
           | (_, t') :: _ => if decide (t = t') then notify_all q' else q'
           | [] => q' end) ds.
Proof.
  intros [H1 H2 H3 H4 H5 H6 H7 H8] Hp Hup Hds Hq'.
  assert (Hpend : ∀ k t', pending q' k t' ↔ (k = qt_uptime (task_at w t) ∧ t' = t) ∨ pending q k t')
    by (intros; subst q'; by apply pending_insert_prio).
  assert (Hcore0 : ∀ n, (∀ k t', pending q' k t' → ∃ d, d ∈ ds ∧ attends (q' <| cq_notifiedAll := n |>) k d) →
                        (cq_notifiedAll q <= n)%nat → cq_core (q' <| cq_notifiedAll := n |>) ds).
  { intros n Hatt Hn. split; try done; try (by subst q').
    - subst q'. simpl. by rewrite length_alter.
    - subst q'. by apply insert_prio_sorted.
    - intros k t' [[-> ->]|Hk]%Hpend; [done|by eapply H6].
    - intros dl seen Hin. specialize (H8 _ _ Hin). simpl. lia. }
  set (n := cq_notifiedAll q).
  assert (Hn : cq_notifiedAll q' = n) by (by subst q').
  destruct (map_at (cq_whenMapVec q') (Z.to_nat prio)) as [|[k0 t0] m0] eqn:Hm.
  { exfalso. subst q'. simpl in Hm. rewrite map_at_alter, decide_True in Hm by (split; [done|lia]).
    by apply mm_insert_not_nil in Hm. }
  case_decide as Ht0.
  - assert (Heq : notify_all q' = q' <| cq_notifiedAll := S n |>) by (unfold notify_all; simpl; by rewrite Hn).
    rewrite Heq. apply Hcore0; [|lia]. intros k t' _. destruct ds as [|d ds]; [done|].
    exists d. split; [by left|]. destruct d as [|dl seen]; simpl; [done|].
    left. specialize (H8 dl seen ltac:(left)). lia.
  - assert (Heq : q' = q' <| cq_notifiedAll := n |>) by (subst q'; done).
    rewrite Heq. apply Hcore0; [|lia]. rewrite <-Heq. intros k t'.
    assert (Hhead : pending q' k0 t0) by (exists (Z.to_nat prio); rewrite Hm; by left).
    assert (Hk0 : k0 <= qt_uptime (task_at w t)).
    { pose proof (insert_prio_sorted t prio w q H5 (Z.to_nat prio)) as Hs.
      subst q'. rewrite Hm in Hs. eapply (mm_sorted_head_min _ _ _ (_, t) Hs).
      rewrite <-Hm. simpl. rewrite map_at_alter, decide_True by (split; [done|lia]).
      apply mm_insert_elem_of. by left. }
    apply Hpend in Hhead as [[_ ?]|Hhead]; [congruence|].
    intros [[-> ->]|Hk]%Hpend.
    + destruct (H7 _ _ Hhead) as (d & Hd & Ha). exists d. split; [done|].
      eapply attends_mono; [|exact Hk0|exact Ha]. rewrite Hn. done.
    + destruct (H7 _ _ Hk) as (d & Hd & Ha). exists d. split; [done|].
      eapply attends_mono; [|reflexivity|exact Ha]. rewrite Hn. done.
Qed.

Lemma core_push t prio w q ds r q' :
  cq_core q ds → 0 <= prio <= 3 → qt_uptime (task_at w t) < UINT64_MAX →
  ConcurrentQueue_PushAndCalConcurrency t prio q w = (r, q') →
  cq_core q' (ds ++ if decide (r = CONCURRENT) then [CActive] else []).
Proof.
  intros Hcore Hp Hup. pose proof Hcore as [H1 H2 H3 H4 H5 H6 H7 H8].
  unfold ConcurrentQueue_PushAndCalConcurrency.
  destruct (decide (cq_concurrency q < cq_maxConcurrency q)) as [Hlt|Hge].
  - intros Hr. assert (Hr' : r = CONCURRENT) by (case_decide; by simplify_eq).
    rewrite decide_True by done.
    assert (Hatt : ∀ k t, pending q' k t → ∃ d, d ∈ ds ++ [CActive] ∧ attends q' k d)
      by (intros; exists CActive; split; [set_solver|done]).
    assert (Hseen : ∀ dl seen, CSleep dl seen ∈ ds ++ [CActive] → (seen <= cq_notifiedAll q)%nat).
    { intros dl seen [?|Hx%list_elem_of_singleton]%elem_of_app; [by eapply H8|done]. }
    case_decide as Hd; injection Hr as <- <-; split; try done; simpl;
      rewrite ?length_alter, ?length_app; simpl; try done; try lia.
    + apply (insert_prio_sorted t prio w q H5).
    + intros k t' [[-> ->]|Hk]%(pending_insert_prio t prio w q); [done|by eapply H6|done|done].
  - intros Hr. assert (Hds : ds ≠ []) by (intros ->; simpl in *; lia).
    pose proof (core_insert_full t prio w q ds _ Hcore Hp Hup Hds eq_refl) as Hc.
    destruct (map_at (cq_whenMapVec (insert_prio t prio w q)) (Z.to_nat prio)) as [|[k0 t0] m0];
      [|case_decide]; injection Hr as <- <-; by rewrite decide_False, app_nil_r.
Qed.

(** Pushing does not touch the other fields. *)
Lemma PushAndCal_frame t prio w q r q' :
  ConcurrentQueue_PushAndCalConcurrency t prio q w = (r, q') →
  (r = CONCURRENT ∨ r = SUCC) ∧ cq_base q' = cq_base q ∧ cq_loop q' = cq_loop q ∧
  cq_isOnLoop q' = cq_isOnLoop q ∧ cq_waitingAll q' = cq_waitingAll q ∧
  cq_waitingMap q' = cq_waitingMap q.
Proof.
  unfold ConcurrentQueue_PushAndCalConcurrency.
  destruct (decide (cq_concurrency q < cq_maxConcurrency q)).
  - case_decide; intros [= <- <-]; auto 10.
  - destruct (map_at _ _) as [|[] ?]; [|case_decide]; intros [= <- <-]; simpl; auto 10.
Qed.

(** The statistics [Pull] takes are exact. *)
Lemma stats_spec q ds b :
  cq_core q ds → b = GetWhenMapVecStats (cq_whenMapVec q) (cq_base q) →
  (∀ k t, pending q k t → bq_minTime b <= k) ∧
  (bq_isEmpty b = true → ∀ k t, ¬ pending q k t) ∧
  (bq_isEmpty b = false → ∃ i, (i < 4)%nat ∧
     begin_time (map_at (cq_whenMapVec q) i) = Some (bq_minTime b)).
Proof.
  intros [H1 H2 H3 H4 H5 H6 H7 H8] ->. unfold GetWhenMapVecStats.
  destruct (min_begin_least (cq_whenMapVec q) (seq 0 (Z.to_nat (ffrt_queue_priority_idle + 1))))
    as (Hmin & Hat).
  set (r := min_begin _ _) in *. clearbody r. simpl.
  change (Z.to_nat (ffrt_queue_priority_idle + 1)) with 4%nat in *.
  assert (Hle : ∀ k t, pending q k t → r <= k).
  { intros k t [i Hi]. destruct (map_at (cq_whenMapVec q) i) as [|[k0 t0] m0] eqn:Hm;
      [by apply elem_of_nil in Hi|].
    assert (i < 4)%nat by (rewrite <-H2; apply map_at_lt; by rewrite Hm).
    pose proof (H5 i) as Hs. rewrite Hm in Hs. pose proof (mm_sorted_head_min _ _ _ _ Hs Hi).
    assert (r <= k0); [|simpl in *; lia].
    apply (Hmin i); [apply elem_of_seq; lia|by rewrite Hm]. }
  split_and!; [done| |].
  - intros He%bool_decide_eq_true k t Hk. specialize (Hle _ _ Hk). specialize (H6 _ _ Hk). lia.
  - intros He%bool_decide_eq_false. destruct Hat as [?|(i & Hi & Hb)]; [done|].
    exists i. apply elem_of_seq in Hi. split; [lia|done].
Qed.

Lemma core_driver_swap q d1 d d2 d' :
  cq_core q (d1 ++ d :: d2) →
  (∀ k t, pending q k t → attends q k d') →
  (∀ dl seen, d' = CSleep dl seen → (seen <= cq_notifiedAll q)%nat) →
  cq_core q (d1 ++ d' :: d2).
Proof.
  intros [H1 H2 H3 H4 H5 H6 H7 H8] Hatt Hseen. split; try done.
  - rewrite H3, !length_app. done.
  - intros k t Hk. exists d'. split; [set_solver|by eapply Hatt].
  - intros dl seen Hin. rewrite elem_of_app, elem_of_cons in Hin.
    destruct Hin as [?|[?|?]]; [apply (H8 dl); set_solver|by eapply Hseen|apply (H8 dl); set_solver].
Qed.

Lemma core_deque q ds w r q' w' :
  cq_core q ds → concurrent_deque q w = Some (r, q', w') →
  (∃ t, r = PullRet (Some t)) ∧ w_now w' = w_now w ∧ cq_base q' = cq_base q ∧
  (∀ k t, pending q' k t → pending q k t) ∧ cq_core q' ds.
Proof.
  intros [H1 H2 H3 H4 H5 H6 H7 H8] Hd.
  unfold concurrent_deque, DequeSingleByPriority in Hd.
  apply bind_Some in Hd as ([[t maps] w1] & Hp & [= <- <- <-]).
  apply bind_Some in Hp as ([t0 maps0] & Hp & [= <- <- <-]).
  apply pop_at_Some in Hp as (k0 & m0 & Hm & ->). set (i := priority_pick _ _) in *.
  assert (Hpend : ∀ k t, pending (q <| cq_whenMapVec := <[i:=m0]> (cq_whenMapVec q) |>) k t → pending q k t).
  { intros k t [j Hj]. simpl in Hj. rewrite map_at_insert in Hj. exists j. case_decide as Hij; [|done].
    destruct Hij as [<- _]. rewrite Hm. by right. }
  split_and!; [by eexists|done|done|done|]. split; try done; simpl.
  - by rewrite length_insert.
  - intros j. rewrite map_at_insert. case_decide as Hij; [|done]. destruct Hij as [<- _].
    specialize (H5 i). rewrite Hm in H5. by apply mm_sorted_tail in H5.
  - intros k t Hk%Hpend. by eapply H6.
  - intros k t Hk%Hpend. destruct (H7 _ _ Hk) as (d & ? & ?). exists d. done.
Qed.

Lemma core_base q ds b : cq_core q ds → cq_core (q <| cq_base := b |>) ds.
Proof. by intros [H1 H2 H3 H4 H5 H6 H7 H8]. Qed.

Lemma core_leave q d1 d d2 q' :
  cq_core q (d1 ++ d :: d2) → (∀ k t, ¬ pending q k t) →
  cq_maxConcurrency q' = cq_maxConcurrency q → cq_whenMapVec q' = cq_whenMapVec q →
  cq_concurrency q' = cq_concurrency q - 1 →
  (cq_notifiedAll q <= cq_notifiedAll q')%nat →
  cq_core q' (d1 ++ d2).
Proof.
  intros [H1 H2 H3 H4 H5 H6 H7 H8] Hemp Em Ev Ec En.
  assert (Hemp' : ∀ k t, ¬ pending q' k t) by (intros k t; unfold pending; rewrite Ev; apply Hemp).
  split; rewrite ?Em, ?Ev, ?Ec; try done.
  - rewrite H3, !length_app. simpl. lia.
  - lia.
  - intros k t Hk. by destruct (Hemp' k t).
  - intros k t Hk. by destruct (Hemp' k t).
  - intros dl seen Hin. specialize (H8 dl seen). rewrite elem_of_app in Hin.
    rewrite elem_of_app, elem_of_cons in H8. destruct Hin; [specialize (H8 ltac:(tauto))|specialize (H8 ltac:(tauto))]; lia.
Qed.

Lemma core_pull_loop q d1 d d2 w r q' w' :
  cq_core q (d1 ++ d :: d2) →
  (bq_isExit (cq_base q) = true → ∀ k t, ¬ pending q k t) →
  cq_base q = GetWhenMapVecStats (cq_whenMapVec q) (cq_base q) →
  concurrent_pull_loop q w = Some (r, q', w') →
  cq_core q' (d1 ++ after_cpull r q' w' ++ d2) ∧
  (∀ k t, pending q' k t → pending q k t) ∧ bq_isExit (cq_base q') = bq_isExit (cq_base q).
Proof.
  intros Hcore Hexit Hb HP. destruct (stats_spec _ _ _ Hcore Hb) as (Hmin & Hemp & Hnem).
  unfold concurrent_pull_loop in HP.
  destruct (bq_isEmpty (cq_base q)) eqn:He; simpl in HP.
  { injection HP as <- <- <-. split; [|by case_decide]. simpl.
    case_decide; (eapply core_leave; [exact Hcore|by apply Hemp|done..|simpl; lia]). }
  destruct (bq_isExit (cq_base q)) eqn:Hx; simpl in HP.
  { exfalso. destruct (Hnem eq_refl) as (i & _ & Hi). apply begin_time_Some in Hi as (t & m & Hm).
    apply (Hexit eq_refl (bq_minTime (cq_base q)) t). exists i. rewrite Hm. by left. }
  rewrite andb_true_r in HP. case_bool_decide as Hw.
  - injection HP as <- <- <-. split; [|done]. simpl. apply core_base.
    eapply core_driver_swap; [exact Hcore| |].
    + intros k t Hk. right. specialize (Hmin _ _ Hk). lia.
    + intros dl seen [= _ <-]. done.
  - destruct (core_deque _ _ _ _ _ _ Hcore HP) as ((t & ->) & _ & Hbase & Hp & Hc).
    split_and!; [|done|by rewrite Hbase]. simpl. eapply core_driver_swap; [exact Hc|done|done].
Qed.

(** Removals: every map loses tasks, nothing else changes. *)
Abbreviation shrinks := (Forall2 sublist).

Lemma shrinks_map_at maps' maps i :
  shrinks maps' maps → map_at maps' i `sublist_of` map_at maps i.
Proof.
  intros H. unfold map_at. destruct (maps' !! i) as [m'|] eqn:Hm.
  - destruct (Forall2_lookup_l _ _ _ _ _ H Hm) as (m & -> & Hs). done.
  - apply sublist_nil_l.
Qed.

Lemma core_shrink q ds maps' q' :
  cq_core q ds → shrinks maps' (cq_whenMapVec q) → cq_whenMapVec q' = maps' →
  cq_maxConcurrency q' = cq_maxConcurrency q → cq_concurrency q' = cq_concurrency q →
  (cq_notifiedAll q <= cq_notifiedAll q')%nat →
  cq_core q' ds ∧ (∀ k t, pending q' k t → pending q k t).
Proof.
  intros [H1 H2 H3 H4 H5 H6 H7 H8] Hs Ev Em Ec En.
  assert (Hp : ∀ k t, pending q' k t → pending q k t).
  { intros k t [i Hi]. exists i. rewrite Ev in Hi.
    eapply sublist_subseteq, Hi. by apply shrinks_map_at. }
  split; [|done]. split; rewrite ?Ev, ?Em, ?Ec; try done.
  - by rewrite (Forall2_length _ _ _ Hs).
  - intros i. eapply mm_sorted_sublist; [by apply shrinks_map_at|done].
  - intros k t Hk%Hp. by eapply H6.
  - intros k t Hk%Hp. destruct (H7 _ _ Hk) as (d & ? & ?). exists d. split; [done|].
    by eapply attends_mono.
  - intros dl seen Hin. specialize (H8 _ _ Hin). lia.
Qed.

Lemma cworld_ext_refl w : cworld_ext w w.
Proof. done. Qed.

Lemma cworld_ext_trans w1 w2 w3 : cworld_ext w1 w2 → cworld_ext w2 w3 → cworld_ext w1 w3.
Proof.
  intros H12 H23 t Ht. destruct (H12 t Ht) as (H2 & E1 & E2).
  destruct (H23 t H2) as (H3 & E3 & E4). by rewrite E3, E4.
Qed.

Lemma upd_cworld_ext t f w :
  (∀ q, qt_uptime (f q) = qt_uptime q) → (∀ q, qt_prio (f q) = qt_prio q) →
  cworld_ext w (upd_task t f w).
Proof.
  intros H1 H2 t' Ht'. rewrite upd_task_in_store. by rewrite !task_at_upd_proj by done.
Qed.

Lemma emit_cworld_ext e w : cworld_ext w (emit e w).
Proof. intros t Ht. by rewrite emit_in_store, !task_at_emit. Qed.

#[local] Hint Resolve cworld_ext_refl emit_cworld_ext : ffrt.

Lemma Notify_cworld_ext t w : cworld_ext w (QueueTask_Notify t w).
Proof.
  unfold QueueTask_Notify. case_match; [eapply cworld_ext_trans; [|apply emit_cworld_ext]|];
    by apply upd_cworld_ext.
Qed.

Lemma Destroy_cworld_ext t w : cworld_ext w (QueueTask_Destroy t w).
Proof.
  unfold QueueTask_Destroy, DecDeleteRef, QueueTask_FreeMem, destroy_func.
  eapply (cworld_ext_trans _ (if qt_hasDestroy (task_at w t) then emit (EvDestroy t) w else w));
    [case_match; auto with ffrt|].
  case_decide; [eapply cworld_ext_trans; [|apply emit_cworld_ext]|]; by apply upd_cworld_ext.
Qed.

Lemma cancel_all_cworld_ext m w : cworld_ext w (cancel_all m w).
Proof.
  unfold cancel_all. revert w. induction m as [|x m IH]; intros w; simpl; [apply cworld_ext_refl|].
  eapply cworld_ext_trans; [|apply IH]. unfold QueueTask_Cancel.
  eapply cworld_ext_trans; [|apply Destroy_cworld_ext].
  eapply cworld_ext_trans; [|apply Notify_cworld_ext]. by apply upd_cworld_ext.
Qed.

Lemma Remove_map_shrinks b m w r b' m' w' :
  BaseQueue_Remove_map b m w = (r, b', m', w') →
  m' `sublist_of` m ∧ bq_isExit b' = bq_isExit b ∧ cworld_ext w w'.
Proof.
  unfold BaseQueue_Remove_map, ClearWhenMap. destruct (bq_isExit b) eqn:He; intros [= <- <- <- <-].
  - split_and!; [done|done|apply cworld_ext_refl].
  - split_and!; [apply sublist_nil_l|done|apply cancel_all_cworld_ext].
Qed.

Lemma remove_maps_shrinks b maps w r b' maps' w' :
  remove_maps b maps w = (r, b', maps', w') →
  shrinks maps' maps ∧ bq_isExit b' = bq_isExit b ∧ cworld_ext w w'.
Proof.
  revert b w r b' maps' w'. induction maps as [|m maps IH]; intros b w r b' maps' w' H; simpl in H.
  - simplify_eq. split_and!; [constructor|done|apply cworld_ext_refl].
  - destruct (BaseQueue_Remove_map b m w) as [[[r1 b1] m1] w1] eqn:H1.
    destruct (remove_maps b1 maps w1) as [[[r2 b2] maps2] w2] eqn:H2. simplify_eq.
    apply Remove_map_shrinks in H1 as (? & E1 & X1). apply IH in H2 as (? & E2 & X2).
    split_and!; [by constructor|by rewrite E2, E1|by eapply cworld_ext_trans].
Qed.

Section by_name_lemmas.
Context (regex_match : string → string → bool).

Lemma Remove_name_map_shrinks name b m w r m' w' :
  BaseQueue_Remove_name_map regex_match name b m w = (r, m', w') →
  m' `sublist_of` m ∧ cworld_ext w w'.
Proof.
  unfold BaseQueue_Remove_name_map. destruct (bq_isExit b).
  - intros [= <- <- <-]. split; [done|apply cworld_ext_refl].
  - intros (-> & _ & ->)%Remove_name_loop_spec. split; [apply sublist_filter|apply cancel_all_cworld_ext].
Qed.

Lemma remove_name_maps_shrinks name b maps w r maps' w' :
  remove_name_maps regex_match name b maps w = (r, maps', w') →
  shrinks maps' maps ∧ cworld_ext w w'.
Proof.
  revert w r maps' w'. induction maps as [|m maps IH]; intros w r maps' w' H; simpl in H.
  - simplify_eq. split; [constructor|apply cworld_ext_refl].
  - destruct (BaseQueue_Remove_name_map regex_match name b m w) as [[r1 m1] w1] eqn:H1.
    destruct (remove_name_maps regex_match name b maps w1) as [[r2 maps2] w2] eqn:H2. simplify_eq.
    apply Remove_name_map_shrinks in H1 as (? & X1). apply IH in H2 as (? & X2).
    split; [by constructor|by eapply cworld_ext_trans].
Qed.
End by_name_lemmas.

Lemma Remove_task_map_shrinks t b m w r m' :
  BaseQueue_Remove_task_map t b m w = (r, m') → m' `sublist_of` m.
Proof.
  intros [(_ & ->)|(_ & _ & l1 & l2 & -> & ->)]%BaseQueue_Remove_task_map_cases; [done|].
  apply sublist_app; [done|]. by apply sublist_cons.
Qed.

Lemma remove_task_maps_shrinks t b maps w maps' :
  remove_task_maps t b maps w = Some maps' → shrinks maps' maps.
Proof.
  revert maps'. induction maps as [|m maps IH]; intros maps' H; simpl in H; [done|].
  destruct (BaseQueue_Remove_task_map t b m w) as [r m1] eqn:H1. case_decide.
  - simplify_eq. constructor; [by eapply Remove_task_map_shrinks|]. reflexivity.
  - apply fmap_Some in H as (maps1 & H2 & ->). constructor; [done|by apply IH].
Qed.

Record concurrent_inv (s : CSys) : Prop := {
  ci_core : cq_core (cs_q s) (cs_drivers s);
  ci_off : cq_loop (cs_q s) = false ∧ cq_isOnLoop (cs_q s) = false;
  ci_exit : bq_isExit (cq_base (cs_q s)) = true →
    (∀ k t, ¬ pending (cs_q s) k t) ∧ cq_waitingMap (cs_q s) = [];
  ci_waiting : cq_waitingAll (cs_q s) = bool_decide (is_Some (cs_waiter s));
  ci_wmap : cq_waitingMap (cs_q s) ≠ [] → cq_waitingAll (cs_q s) = true;
  ci_wtasks : ∀ k t, (k, t) ∈ cq_waitingMap (cs_q s) → in_store (cs_w s) t ∧
    0 <= qt_prio (task_at (cs_w s) t) <= 3 ∧ qt_uptime (task_at (cs_w s) t) < UINT64_MAX;
  ci_waiter : ∀ seen, cs_waiter s = Some seen →
    (seen <= cq_notifiedAll (cs_q s))%nat ∧
    (cq_concurrency (cs_q s) = 0 → (seen < cq_notifiedAll (cs_q s))%nat);
}.

Lemma concurrent_inv_world s w' :
  concurrent_inv s → cworld_ext (cs_w s) w' → concurrent_inv (s <| cs_w := w' |>).
Proof.
  intros [H1 H2 H3 H4 H5 H6 H7] Hext. split; try done. simpl. intros k t Hk.
  destruct (H6 _ _ Hk) as (Hs & Hp & Hu). destruct (Hext t Hs) as (? & -> & ->). done.
Qed.

(** With no waiting task the world is free. *)
Lemma concurrent_inv_world_empty s w' :
  concurrent_inv s → cq_waitingMap (cs_q s) = [] → concurrent_inv (s <| cs_w := w' |>).
Proof.
  intros [H1 H2 H3 H4 H5 H6 H7] Hm. split; try done. simpl. rewrite Hm. by intros k t ?%elem_of_nil.
Qed.

(** Removal of tasks from the maps and from the waiting map. *)
Lemma concurrent_inv_shrink s q' maps' :
  concurrent_inv s → shrinks maps' (cq_whenMapVec (cs_q s)) → cq_whenMapVec q' = maps' →
  cq_waitingMap q' `sublist_of` cq_waitingMap (cs_q s) →
  cq_maxConcurrency q' = cq_maxConcurrency (cs_q s) →
  cq_concurrency q' = cq_concurrency (cs_q s) →
  (cq_notifiedAll (cs_q s) <= cq_notifiedAll q')%nat →
  cq_loop q' = cq_loop (cs_q s) → cq_isOnLoop q' = cq_isOnLoop (cs_q s) →
  cq_waitingAll q' = cq_waitingAll (cs_q s) →
  (bq_isExit (cq_base q') = true → bq_isExit (cq_base (cs_q s)) = true ∨
     (∀ k t, ¬ pending q' k t) ∧ cq_waitingMap q' = []) →
  concurrent_inv (s <| cs_q := q' |>).
Proof.
  intros [H1 H2 H3 H4 H5 H6 H7] Hs Ev Hw Em Ec En El Eo Ew He.
  destruct (core_shrink _ _ _ q' H1 Hs Ev Em Ec En) as [Hcore Hp].
  split; simpl; rewrite ?El, ?Eo, ?Ew, ?Ec; try done.
  - intros [Hx|?]%He; [|done]. destruct (H3 Hx) as [Hno Hnil]. rewrite Hnil in Hw.
    split; [intros k t Hk%Hp; by destruct (Hno k t)|by apply sublist_nil_r in Hw].
  - intros Hne. apply H5. intros Hnil. rewrite Hnil in Hw. by apply sublist_nil_r in Hw.
  - intros k t Hk. apply (H6 k). by eapply sublist_subseteq.
  - intros seen [? ?]%H7. split; [lia|]. intros. assert (seen < cq_notifiedAll (cs_q s))%nat by auto. lia.
Qed.

Lemma concurrent_inv_init queueId name attrMax w :
  concurrent_inv (concurrent_init queueId name attrMax w).
Proof.
  assert (Hp : ∀ k t, ¬ pending (CreateConcurrentQueue queueId name attrMax) k t).
  { intros k t [i Hi]. unfold map_at in Hi. simpl in Hi.
    destruct i as [|[|[|[|i]]]]; simpl in Hi; set_solver. }
  split; try done; simpl.
  - split; try done; simpl.
    + case_decide; lia.
    + case_decide; lia.
    + intros i. unfold map_at. destruct i as [|[|[|[|i]]]]; apply mm_sorted_nil.
    + intros k t Hk. by destruct (Hp k t).
    + intros k t Hk. by destruct (Hp k t).
    + set_solver.
  - set_solver.
Qed.

Lemma resubmit_core m q w ds q' trs :
  cq_core q ds →
  (∀ k t, (k, t) ∈ m → 0 <= qt_prio (task_at w t) <= 3 ∧ qt_uptime (task_at w t) < UINT64_MAX) →
  resubmit m q w = (q', trs) →
  cq_core q' (ds ++ ((λ _, CActive) <$> trs)) ∧ cq_base q' = cq_base q ∧
  cq_loop q' = cq_loop q ∧ cq_isOnLoop q' = cq_isOnLoop q.
Proof.
  revert q ds q' trs. induction m as [|[k t] m IH]; intros q ds q' trs Hcore Hm Hr; simpl in Hr.
  - simplify_eq/=. by rewrite app_nil_r.
  - destruct (ConcurrentQueue_PushAndCalConcurrency t (qt_prio (task_at w t)) q w) as [r q1] eqn:HP.
    destruct (resubmit m q1 w) as [q2 trs2] eqn:HR. simplify_eq.
    destruct (Hm k t ltac:(left)) as [Hp Hu].
    pose proof (core_push _ _ _ _ _ _ _ Hcore Hp Hu HP) as Hc1.
    destruct (PushAndCal_frame _ _ _ _ _ _ HP) as (_ & E1 & E2 & E3 & _).
    destruct (IH _ _ _ _ Hc1 ltac:(intros k' t' Hin; apply (Hm k'); by right) HR) as (Hc2 & F1 & F2 & F3).
    split; [|by rewrite F1, F2, F3].
    rewrite <-app_assoc in Hc2. rewrite fmap_app.
    destruct (decide (r = CONCURRENT)); [by case_decide|done].
Qed.

Lemma concurrent_inv_waitall s q' q'' trs :
  concurrent_inv s → q' = (cs_q s) <| cq_waitingAll := true |> →
  ConcurrentQueue_WaitAll_finish q' (cs_w s) = (q'', trs) →
  concurrent_inv (s <| cs_q := q'' |> <| cs_waiter := None |>
    <| cs_drivers ::= λ d, d ++ ((λ _, CActive) <$> trs) |>).
Proof.
  intros [H1 H2 H3 H4 H5 H6 H7] Hq' Hf.
  assert (Hc : cq_core q' (cs_drivers s)) by (subst q'; by destruct H1).
  unfold ConcurrentQueue_WaitAll_finish in Hf.
  destruct (cq_waitingMap q') as [|x m] eqn:Hm.
  - injection Hf as <- <-. split; subst q'; simpl in *; rewrite ?app_nil_r; try done.
    by destruct H1.
  - destruct (resubmit (x :: m) q' (cs_w s)) as [q1 trs1] eqn:HR. injection Hf as <- <-.
    assert (Hwt : ∀ k t, (k, t) ∈ x :: m →
      0 <= qt_prio (task_at (cs_w s) t) <= 3 ∧ qt_uptime (task_at (cs_w s) t) < UINT64_MAX).
    { rewrite <-Hm. subst q'. intros k t Hin. by destruct (H6 k t Hin) as [_ ?]. }
    destruct (resubmit_core _ _ _ _ _ _ Hc Hwt HR) as (Hc1 & F1 & F2 & F3).
    split; simpl; rewrite ?F1, ?F2, ?F3; try done.
    + by destruct Hc1.
    + by subst q'.
    + intros He. exfalso. assert (Hx : bq_isExit (cq_base (cs_q s)) = true) by (by subst q').
      destruct (H3 Hx) as [_ Hnil]. subst q'. simpl in Hm. congruence.
    + by intros k t ?%elem_of_nil.
Qed.

Lemma pull_loop_frame q w r q' w' :
  concurrent_pull_loop q w = Some (r, q', w') →
  cq_loop q' = cq_loop q ∧ cq_isOnLoop q' = cq_isOnLoop q ∧
  cq_waitingAll q' = cq_waitingAll q ∧ cq_waitingMap q' = cq_waitingMap q ∧
  cworld_ext w w' ∧ (cq_notifiedAll q <= cq_notifiedAll q')%nat ∧
  (cq_concurrency q' = 0 → cq_concurrency q = 0 ∨ (cq_notifiedAll q < cq_notifiedAll q')%nat).
Proof.
  unfold concurrent_pull_loop. destruct (_ && _) eqn:Hc.
  { intros [= <- <- <-]. simpl. auto 10 with ffrt. }
  destruct (bq_isEmpty (cq_base q)).
  { destruct (decide (cq_concurrency q = 1)) as [E|E]; intros [= <- <- <-]; simpl; split_and!; try done.
    - lia.
    - intros _. right. lia.
    - lia. }
  destruct (bq_isExit (cq_base q)).
  { intros [= <- <- <-]. simpl. auto 10 with ffrt. }
  unfold concurrent_deque, DequeSingleByPriority.
  intros ([[t maps] w1] & Hp1 & [= <- <- <-])%bind_Some.
  apply bind_Some in Hp1 as ([t0 maps0] & _ & [= <- <- <-]). simpl. split_and!; try done; [|by left].
  by apply upd_cworld_ext.
Qed.

Lemma concurrent_inv_pull s d1 d d2 q0 r q' w' :
  concurrent_inv s → cs_drivers s = d1 ++ d :: d2 →
  q0 = (cs_q s) <| cq_base := cq_base q0 |> →
  bq_isExit (cq_base q0) = bq_isExit (cq_base (cs_q s)) →
  cq_base q0 = GetWhenMapVecStats (cq_whenMapVec q0) (cq_base q0) →
  concurrent_pull_loop q0 (cs_w s) = Some (r, q', w') →
  concurrent_inv (s <| cs_q := q' |> <| cs_w := w' |> <| cs_drivers := d1 ++ after_cpull r q' w' ++ d2 |>).
Proof.
  intros [H1 H2 H3 H4 H5 H6 H7] Hd Hq0 Hx Hb HP. rewrite Hd in H1.
  assert (Hc0 : cq_core q0 (d1 ++ d :: d2)) by (rewrite Hq0; by apply core_base).
  assert (Hp0 : ∀ k t, pending q0 k t ↔ pending (cs_q s) k t) by (rewrite Hq0; done).
  assert (Hex0 : bq_isExit (cq_base q0) = true → ∀ k t, ¬ pending q0 k t)
    by (rewrite Hx; intros [Hno _]%H3 k t; rewrite Hp0; apply Hno).
  destruct (core_pull_loop _ _ _ _ _ _ _ _ Hc0 Hex0 Hb HP) as (Hc & Hp & He).
  assert (Hframe : cq_loop q' = cq_loop (cs_q s) ∧ cq_isOnLoop q' = cq_isOnLoop (cs_q s) ∧
    cq_waitingAll q' = cq_waitingAll (cs_q s) ∧ cq_waitingMap q' = cq_waitingMap (cs_q s) ∧
    cworld_ext (cs_w s) w' ∧ (cq_notifiedAll (cs_q s) <= cq_notifiedAll q')%nat ∧
    (cq_concurrency q' = 0 → cq_concurrency (cs_q s) = 0 ∨ (cq_notifiedAll (cs_q s) < cq_notifiedAll q')%nat)).
  { pose proof (pull_loop_frame _ _ _ _ _ HP) as Hfr. by rewrite Hq0 in Hfr. }
  destruct Hframe as (F1 & F2 & F3 & F4 & F5 & F6 & F7).
  split; simpl; rewrite ?F1, ?F2, ?F3, ?F4; try done.
  - rewrite He, Hx. intros Hex. destruct (H3 Hex) as [Hno ?]. split; [|done].
    intros k t Hk%Hp%Hp0. by destruct (Hno k t).
  - intros k t Hk. destruct (H6 _ _ Hk) as (Hs & Hpr & Hu). destruct (F5 t Hs) as (? & -> & ->). done.
  - intros seen Hw. destruct (H7 seen Hw) as [? ?]. split; [lia|].
    intros [Hz|?]%F7; [specialize (H0 Hz)|]; lia.
Qed.

(** The priority fix-up of [Push] keeps the waiting tasks well formed. *)
Lemma SetPriority_low_wf t w t' :
  in_store w t' ∧ 0 <= qt_prio (task_at w t') <= 3 ∧ qt_uptime (task_at w t') < UINT64_MAX →
  let w' := QueueTask_SetPriority t ffrt_queue_priority_low w in
  in_store w' t' ∧ 0 <= qt_prio (task_at w' t') <= 3 ∧ qt_uptime (task_at w' t') < UINT64_MAX.
Proof.
  intros (Hs & Hp & Hu). unfold QueueTask_SetPriority. simpl.
  rewrite upd_task_in_store, task_at_upd.
  split; [done|]. case_decide; simpl; [|done]. unfold ffrt_queue_priority_low. split; [lia|done].
Qed.

Lemma Stop_frame q w q' w' :
  ConcurrentQueue_Stop q w = (q', w') →
  shrinks (cq_whenMapVec q') (cq_whenMapVec q) ∧ cq_waitingMap q' = [] ∧
  cq_maxConcurrency q' = cq_maxConcurrency q ∧ cq_concurrency q' = cq_concurrency q ∧
  (cq_notifiedAll q <= cq_notifiedAll q')%nat ∧ cq_loop q' = cq_loop q ∧
  cq_isOnLoop q' = cq_isOnLoop q ∧ cq_waitingAll q' = cq_waitingAll q ∧
  (∀ k t, ¬ pending q' k t).
Proof.
  unfold ConcurrentQueue_Stop. intros [= <- _].
  assert (Hsh : shrinks ((λ _ : whenmap, []) <$> cq_whenMapVec q) (cq_whenMapVec q)).
  { induction (cq_whenMapVec q) as [|m maps IH]; simpl; constructor; [apply sublist_nil_l|done]. }
  assert (Hno : ∀ k t, ¬ ∃ i, (k, t) ∈ map_at ((λ _ : whenmap, []) <$> cq_whenMapVec q) i).
  { intros k t [i Hi]. unfold map_at in Hi. rewrite list_lookup_fmap in Hi.
    destruct (cq_whenMapVec q !! i); by apply elem_of_nil in Hi. }
  simpl. destruct (cq_loop q) eqn:Hl; simpl; split_and!; try done; lia.
Qed.

Section invariant.
Context `{LoopOps} (regex_match : string → string → bool).

Lemma concurrent_inv_push s t r q' w' :
  concurrent_inv s →
  in_store (cs_w s) t → 0 <= qt_prio (task_at (cs_w s) t) →
  qt_uptime (task_at (cs_w s) t) < UINT64_MAX →
  ConcurrentQueue_Push t (cs_q s) (cs_w s) = (r, q', w') →
  concurrent_inv (s <| cs_q := q' |> <| cs_w := w' |>
    <| cs_drivers ::= λ d, d ++ if decide (r = CONCURRENT) then [CActive] else [] |>).
Proof.
  intros Hinv Hst Hp0 Hu0 HP. unfold ConcurrentQueue_Push in HP.
  destruct (bq_isExit (cq_base (cs_q s))) eqn:Hx.
  { injection HP as <- <- <-. destruct Hinv. split; simpl; rewrite ?app_nil_r; done. }
  set (low := decide (qt_prio (task_at (cs_w s) t) > ffrt_queue_priority_idle)) in *.
  set (w1 := if low then QueueTask_SetPriority t ffrt_queue_priority_low (cs_w s) else cs_w s).
  set (p1 := if low then ffrt_queue_priority_low else qt_prio (task_at (cs_w s) t)).
  assert (Hp1 : 0 <= p1 <= 3).
  { unfold p1. destruct low as [|Hn]; unfold ffrt_queue_priority_low, ffrt_queue_priority_idle in *; lia. }
  assert (Hwt : ∀ t', in_store (cs_w s) t' ∧ 0 <= qt_prio (task_at (cs_w s) t') <= 3 ∧
      qt_uptime (task_at (cs_w s) t') < UINT64_MAX →
      in_store w1 t' ∧ 0 <= qt_prio (task_at w1 t') <= 3 ∧ qt_uptime (task_at w1 t') < UINT64_MAX).
  { intros t' Ht'. unfold w1. destruct low; [by apply SetPriority_low_wf|done]. }
  assert (Ht1 : in_store w1 t ∧ 0 <= qt_prio (task_at w1 t) <= 3 ∧ qt_uptime (task_at w1 t) < UINT64_MAX).
  { unfold w1. destruct low as [|Hn]; [|unfold ffrt_queue_priority_idle in *; split_and!; [done|lia..|done]].
    unfold QueueTask_SetPriority. rewrite upd_task_in_store, task_at_upd, decide_True by done. simpl.
    unfold ffrt_queue_priority_low. split_and!; [done|lia..|done]. }
  replace (if low then _ else _) with (p1, w1) in HP by (unfold p1, w1; by destruct low).
  clearbody p1 w1. clear low. destruct Hinv as [H1 H2 H3 H4 H5 H6 H7].
  destruct (cq_waitingAll (cs_q s)) eqn:Hwa.
  - injection HP as <- <- <-. split; simpl; rewrite ?app_nil_r; try done.
    + by destruct H1.
    + intros Hx'. congruence.
    + by rewrite Hwa.
    + intros k t' [[= -> ->]|Hin]%mm_insert_elem_of; [done|]. by apply Hwt, (H6 k).
  - destruct H2 as [Hl Ho]. rewrite Hl, Ho in HP.
    destruct (ConcurrentQueue_PushAndCalConcurrency t p1 (cs_q s) w1) as [r1 q1] eqn:HPC.
    injection HP as <- <- <-.
    destruct (PushAndCal_frame _ _ _ _ _ _ HPC) as (_ & E1 & E2 & E3 & E4 & E5).
    assert (Hnw : cs_waiter s = None).
    { destruct (cs_waiter s); [|done]. by rewrite bool_decide_true in H4 by eauto. }
    split; simpl; rewrite ?E1, ?E2, ?E3, ?E4, ?E5, ?Hnw; try done.
    + eapply core_push; [exact H1|done| |exact HPC]. apply Ht1.
    + rewrite Hx. done.
    + by rewrite Hwa.
    + intros k t' Hin. by apply Hwt, (H6 k).
Qed.

Lemma concurrent_step_inv s s' :
  concurrent_inv s → concurrent_step regex_match s s' → cq_isOnLoop (cs_q s') = false → concurrent_inv s'.
Proof.
  intros Hinv Hstep. destruct Hstep as [s w' Hext|s t r q' w' Hst Hp Hu HP|s d1 d2 r q' w' Hd HP
    |s d1 d2 dl seen r q' w' Hd HP|s r q' w' HR|s nm r q' w' HR|s t r q' HR|s q' w' HS
    |s q' q'' trs HW Hc HF|s q' HW Hc|s seen q' trs Hw Hc HF|s ln r q' HL|s r q' HL|s r q' w' Hl HP]; try intros Hoff.
  - by apply concurrent_inv_world.
  - by eapply concurrent_inv_push.
  - unfold ConcurrentQueue_Pull in HP. destruct (ci_off _ Hinv) as [Hl _]. simpl in HP. rewrite Hl in HP. rewrite <-Hl in HP.
    eapply concurrent_inv_pull; [exact Hinv|exact Hd|..|exact HP]; reflexivity.
  - unfold ConcurrentQueue_Pull_resume in HP.
    eapply concurrent_inv_pull; [exact Hinv|exact Hd|..|exact HP]; reflexivity.
  - unfold ConcurrentQueue_Remove in HR.
    destruct (remove_maps _ _ _) as [[[n b] maps] w1] eqn:Hrm.
    destruct (BaseQueue_Remove_map b _ w1) as [[[r1 b1] m1] w2] eqn:Hr1. injection HR as <- <- <-.
    apply remove_maps_shrinks in Hrm as (Hs & E1 & X1). apply Remove_map_shrinks in Hr1 as (Hs1 & E2 & X2).
    apply (concurrent_inv_world (s <| cs_q := _ |>)); [|by eapply cworld_ext_trans].
    eapply concurrent_inv_shrink; try done. simpl. rewrite E2, E1. by left.
  - unfold ConcurrentQueue_Remove_name in HR.
    destruct (remove_name_maps _ _ _ _ _) as [[n maps] w1] eqn:Hrm.
    destruct (BaseQueue_Remove_name_map _ _ _ _ w1) as [[r1 m1] w2] eqn:Hr1. injection HR as <- <- <-.
    apply remove_name_maps_shrinks in Hrm as (Hs & X1). apply Remove_name_map_shrinks in Hr1 as (Hs1 & X2).
    apply (concurrent_inv_world (s <| cs_q := _ |>)); [|by eapply cworld_ext_trans].
    eapply concurrent_inv_shrink; try done. simpl. by left.
  - unfold ConcurrentQueue_Remove_task in HR.
    destruct (remove_task_maps _ _ _ _) as [maps|] eqn:Hrm.
    + injection HR as <- <-. apply remove_task_maps_shrinks in Hrm.
      eapply concurrent_inv_shrink; try done. simpl. by left.
    + destruct (BaseQueue_Remove_task_map _ _ _ _) as [r1 m1] eqn:Hr1. injection HR as <- <-.
      apply Remove_task_map_shrinks in Hr1. eapply (concurrent_inv_shrink _ _ (cq_whenMapVec (cs_q s))); try done.
      simpl. by left.
  - apply Stop_frame in HS as (E1 & E2 & E3 & E4 & E5 & E6 & E7 & E8 & Hp).
    apply (concurrent_inv_world_empty (s <| cs_q := q' |>)); [|done].
    eapply concurrent_inv_shrink; try done; [by rewrite E2; apply sublist_nil_l|]. right. by split.
  - unfold ConcurrentQueue_WaitAll in HW. repeat (case_match; try done). injection HW as <-.
    assert (Hnw : cs_waiter s = None).
    { pose proof (ci_waiting _ Hinv) as Hwt. destruct (cs_waiter s); [|done].
      rewrite bool_decide_true in Hwt by eauto. congruence. }
    pose proof (concurrent_inv_waitall _ _ _ _ Hinv eq_refl HF) as HI.
    by rewrite <-Hnw in HI.
  - unfold ConcurrentQueue_WaitAll in HW. repeat (case_match; try done). injection HW as <-.
    destruct Hinv as [I1 I2 I3 I4 I5 I6 I7]. split; try done.
    + by destruct I1.
    + simpl. intros seen [= <-]. done.
  - assert (Hwa : cs_q s = (cs_q s) <| cq_waitingAll := true |>).
    { pose proof (ci_waiting _ Hinv) as Hwt. rewrite Hw, bool_decide_true in Hwt by eauto.
      destruct (cs_q s). simpl in *. by subst. }
    by eapply concurrent_inv_waitall.
  - unfold ConcurrentQueue_SetLoop in HL. destruct (ln || _); injection HL as <- <-; [by destruct s|done].
  - unfold ConcurrentQueue_ClearLoop in HL. destruct (ci_off _ Hinv) as [Hl _]. rewrite Hl in HL. injection HL as <- <-. by destruct s.
  - destruct (ci_off _ Hinv) as [? _]. congruence.
Qed.

(** A queue that has been bound to a loop stays marked. *)
Lemma resubmit_on_loop m q w q' trs : resubmit m q w = (q', trs) → cq_isOnLoop q' = cq_isOnLoop q.
Proof.
  revert q q' trs. induction m as [|[k t] m IH]; intros q q' trs; simpl; [by intros [= <- <-]|].
  destruct (ConcurrentQueue_PushAndCalConcurrency _ _ _ _) as [r q1] eqn:HP. destruct (resubmit m q1 w) as [q2 t2] eqn:HR.
  intros [= <- <-]. apply IH in HR as ->. by apply PushAndCal_frame in HP as (_ & _ & _ & ? & _).
Qed.

Lemma WaitAll_finish_on_loop q w q' trs : ConcurrentQueue_WaitAll_finish q w = (q', trs) → cq_isOnLoop q' = cq_isOnLoop q.
Proof.
  unfold ConcurrentQueue_WaitAll_finish. destruct (cq_waitingMap q); [by intros [= <- <-]|].
  destruct (resubmit _ _ _) as [q1 t1] eqn:E. intros [= <- <-]. by apply resubmit_on_loop in E.
Qed.

Lemma deque_on_loop q w r q' w' : concurrent_deque q w = Some (r, q', w') → cq_isOnLoop q' = cq_isOnLoop q.
Proof. unfold concurrent_deque. by intros ([[t maps] w1] & _ & [= <- <- <-])%bind_Some. Qed.

Lemma Pull_on_loop q w r q' w' : ConcurrentQueue_Pull q w = Some (r, q', w') → cq_isOnLoop q' = cq_isOnLoop q.
Proof.
  unfold ConcurrentQueue_Pull. simpl. destruct (cq_loop q).
  - destruct (_ && _); [by intros ->%deque_on_loop|by intros [= <- <- <-]].
  - by intros (_ & -> & _)%pull_loop_frame.
Qed.

Lemma Push_on_loop t q w r q' w' : ConcurrentQueue_Push t q w = (r, q', w') → cq_isOnLoop q' = cq_isOnLoop q.
Proof.
  unfold ConcurrentQueue_Push. destruct (bq_isExit _); [by intros [= <- <- <-]|].
  destruct (if decide _ then _ else _) as [p1 w1]. destruct (cq_waitingAll q); [by intros [= <- <- <-]|]. destruct (cq_loop q).
  - case_decide; [by intros [= <- <- <-]|]. destruct (ConcurrentQueue_PushDelayTaskToTimer t w1). by intros [= <- <- <-].
  - destruct (cq_isOnLoop q) eqn:Ho; [by intros [= <- <- <-]|]. destruct (ConcurrentQueue_PushAndCalConcurrency _ _ _ _) as [r1 q1] eqn:HP.
    intros [= <- <- <-]. apply PushAndCal_frame in HP as (_ & _ & _ & ? & _). congruence.
Qed.

Lemma concurrent_step_on_loop s s' :
  concurrent_step regex_match s s' → cq_isOnLoop (cs_q s') = false → cq_isOnLoop (cs_q s) = false.
Proof.
  intros Hstep. destruct Hstep as [s w' Hext|s t r q' w' Hst Hp Hu HP|s d1 d2 r q' w' Hd HP
    |s d1 d2 dl seen r q' w' Hd HP|s r q' w' HR|s nm r q' w' HR|s t r q' HR|s q' w' HS
    |s q' q'' trs HW Hc HF|s q' HW Hc|s seen q' trs Hw Hc HF|s ln r q' HL|s r q' HL|s r q' w' Hl HP]; simpl; intros Ho.
  - done.
  - by rewrite <-(Push_on_loop _ _ _ _ _ _ HP).
  - by rewrite <-(Pull_on_loop _ _ _ _ _ HP).
  - apply pull_loop_frame in HP as (_ & E & _). simpl in E. congruence.
  - unfold ConcurrentQueue_Remove in HR. repeat case_match. by injection HR as <- <- <-.
  - unfold ConcurrentQueue_Remove_name in HR. repeat case_match. by injection HR as <- <- <-.
  - unfold ConcurrentQueue_Remove_task in HR. repeat case_match; by injection HR as <- <-.
  - apply Stop_frame in HS as (_ & _ & _ & _ & _ & _ & ? & _). congruence.
  - apply WaitAll_finish_on_loop in HF. unfold ConcurrentQueue_WaitAll in HW. repeat (case_match; try done).
  - unfold ConcurrentQueue_WaitAll in HW. repeat (case_match; try done).
  - apply WaitAll_finish_on_loop in HF. congruence.
  - unfold ConcurrentQueue_SetLoop in HL. destruct (ln || _); by injection HL as <- <-.
  - unfold ConcurrentQueue_ClearLoop in HL. destruct (cq_loop (cs_q s)); by injection HL as <- <-.
  - by rewrite <-(Pull_on_loop _ _ _ _ _ HP).
Qed.

Lemma concurrent_reachable_inv queueId name attrMax w s :
  concurrent_reachable regex_match queueId name attrMax w s → cq_isOnLoop (cs_q s) = false → concurrent_inv s.
Proof.
  unfold concurrent_reachable. apply (rtc_invariant _ (λ s, cq_isOnLoop (cs_q s) = false → concurrent_inv s)).
  - intros _. apply concurrent_inv_init.
  - intros s1 s2 Hi Hs Ho. eapply concurrent_step_inv; [|exact Hs|done]. by eapply Hi, concurrent_step_on_loop.
Qed.
End invariant.

(** A due task exists: the priority strategy finds it. *)
Lemma concurrent_deque_defined q w i k :
  (i < 4)%nat → begin_time (map_at (cq_whenMapVec q) i) = Some k → k <= w_now w →
  ∃ t j k' m w', map_at (cq_whenMapVec q) j = (k', t) :: m ∧ k' <= w_now w ∧
    concurrent_deque q w =
      Some (PullRet (Some t), q <| cq_whenMapVec := <[j := m]> (cq_whenMapVec q) |>, w').
Proof.
  intros Hi Hk Hle.
  destruct (first_idx_seq_is_Some (λ _ k, bool_decide (k <= w_now w)) (cq_whenMapVec q) 4 i k)
    as (j & Hj & _); [done|done|by rewrite bool_decide_true|].
  pose proof Hj as (_ & (k' & Hk' & Hd) & _)%first_idx_seq_Some.
  apply begin_time_Some in Hk' as (t & m & Hm). apply bool_decide_eq_true in Hd.
  exists t, j, k', m, (QueueTask_Dequeue t w). split_and!; [done|done|].
  unfold concurrent_deque, DequeSingleByPriority, priority_pick. rewrite Hj. simpl.
  assert (pop_at j (cq_whenMapVec q) = Some (t, <[j := m]> (cq_whenMapVec q))) as ->; [|done].
  apply pop_at_Some. eauto.
Qed.

Lemma concurrent_pull_loop_defined q ds w :
  cq_core q ds → (bq_isExit (cq_base q) = true → ∀ k t, ¬ pending q k t) →
  cq_base q = GetWhenMapVecStats (cq_whenMapVec q) (cq_base q) →
  ∃ r q' w', concurrent_pull_loop q w = Some (r, q', w') ∧
    (∀ t, r = PullRet (Some t) → ∃ k, pending q k t ∧ k <= w_now w) ∧
    (∀ diff, r = PullWait diff → 0 < diff).
Proof.
  intros Hcore Hexit Hb. destruct (stats_spec _ _ _ Hcore Hb) as (Hmin & Hemp & Hnem).
  unfold concurrent_pull_loop. destruct (bq_isEmpty (cq_base q)) eqn:He; simpl.
  { eexists _, _, _. split; [done|]. split; by intros ? [=]. }
  destruct (Hnem eq_refl) as (i & Hi & Hib).
  assert (bq_isExit (cq_base q) = false) as ->.
  { destruct (bq_isExit (cq_base q)) eqn:Hx; [|done]. exfalso.
    apply begin_time_Some in Hib as (t & m & Hm).
    apply (Hexit eq_refl (bq_minTime (cq_base q)) t). exists i. rewrite Hm. by left. }
  rewrite andb_true_r. case_bool_decide as Hw.
  { eexists _, _, _. split; [done|]. split; [by intros ? [=]|]. intros diff [= <-]. lia. }
  destruct (concurrent_deque_defined q w i (bq_minTime (cq_base q))) as (t & j & k' & m & w' & Hm & Hle & ->);
    [done|done|lia|].
  eexists _, _, _. split; [done|]. split; [|by intros ? [=]].
  intros t' [= <-]. exists k'. split; [|done]. exists j. rewrite Hm. by left.
Qed.

(** ** A concrete run: concurrency 1, two tasks, a WaitAll *)

#[local] Instance null_loop : LoopOps := {
  loop_WakeUp := λ w, w;
  loop_TimerStart := λ _ _ w, (-1, w);
}.

Lemma concurrent_sample_run :
  ∃ s, concurrent_reachable (λ _ _, false) 0 None 1 sample_world s ∧
    pending (cs_q s) 0 2%positive ∧ cs_drivers s = [CActive] ∧ cs_waiter s = Some 1%nat ∧ cq_isOnLoop (cs_q s) = false.
Proof.
  eexists. split; [|split; [|split; [|split]]].
  - unfold concurrent_reachable.
    eapply rtc_l; [eapply (cstep_push _ _ 1%positive); [by eexists|done|done|reflexivity]|].
    eapply rtc_l; [eapply (cstep_push _ _ 2%positive); [by eexists|done|done|reflexivity]|].
    eapply rtc_l; [eapply cstep_waitall; [reflexivity|done]|].
    apply rtc_refl.
  - exists 0%nat. by left.
  - vm_compute. reflexivity.
  - vm_compute. reflexivity.
  - vm_compute. reflexivity.
Qed.

(** ** Properties *)

Section properties.
Context `{LoopOps} (regex_match : string → string → bool).

(** C37: a concurrent queue off a loop keeps its concurrency count exact and
    bounded: [concurrency_] is the number of scheduled or pulling tasks, it
    never exceeds [maxConcurrency_], and an exited queue holds no task. *)
Theorem concurrent_bounded queueId name attrMax w s :
  concurrent_reachable regex_match queueId name attrMax w s → cq_isOnLoop (cs_q s) = false →
  cq_concurrency (cs_q s) = Z.of_nat (length (cs_drivers s)) ∧
  cq_concurrency (cs_q s) <= cq_maxConcurrency (cs_q s) ∧
  (ConcurrentQueue_GetActiveStatus (cs_q s) = true ↔ cs_drivers s ≠ []) ∧
  (bq_isExit (cq_base (cs_q s)) = true →
     (∀ k t, ¬ pending (cs_q s) k t) ∧ cq_waitingMap (cs_q s) = []).
Proof.
  intros Hr Hoff; pose proof (concurrent_reachable_inv _ _ _ _ _ _ Hr Hoff) as Hinv. destruct (ci_core _ Hinv) as [? ? Hc ? ? ? ? ?].
  split_and!; [done|done| |exact (ci_exit _ Hinv)].
  unfold ConcurrentQueue_GetActiveStatus. rewrite bool_decide_eq_true, Hc.
  destruct (cs_drivers s); simpl; split; try done; lia.
Qed.

(** C6: no pending task of a concurrent queue that has not been bound to a loop is
    forgotten: while a task due at [k] is pending, some thread of control is
    running, has been notified, or wakes up no later than [k]. *)
Theorem concurrent_pending_attended queueId name attrMax w s k t :
  concurrent_reachable regex_match queueId name attrMax w s → cq_isOnLoop (cs_q s) = false →
  pending (cs_q s) k t →
  ∃ d, d ∈ cs_drivers s ∧ attends (cs_q s) k d.
Proof.
  intros Hr Hoff; pose proof (concurrent_reachable_inv _ _ _ _ _ _ Hr Hoff) as Hinv. apply (core_attended _ _ (ci_core _ Hinv)).
Qed.

(** [WaitAll] returns only when everything submitted before it is done, and
    its caller is not left asleep: while it waits, [waitingAll_] is set, and
    once the concurrency is 0 it has been notified, no task is pending and no
    thread of control is left. *)
Theorem concurrent_waitall_drained queueId name attrMax w s seen :
  concurrent_reachable regex_match queueId name attrMax w s → cq_isOnLoop (cs_q s) = false →
  cs_waiter s = Some seen →
  cq_waitingAll (cs_q s) = true ∧
  (cq_concurrency (cs_q s) = 0 →
     (seen < cq_notifiedAll (cs_q s))%nat ∧ cs_drivers s = [] ∧ ∀ k t, ¬ pending (cs_q s) k t).
Proof.
  intros Hr Hoff; pose proof (concurrent_reachable_inv _ _ _ _ _ _ Hr Hoff) as Hinv; intros Hw. pose proof (ci_core _ Hinv) as [? ? Hc ? ? ? Hatt ?].
  split. { rewrite (ci_waiting _ Hinv), Hw. by rewrite bool_decide_true by eauto. }
  intros Hz. destruct (ci_waiter _ Hinv _ Hw) as [_ Hn]. rewrite Hz in Hc.
  assert (Hd : cs_drivers s = []) by (destruct (cs_drivers s); [done|simpl in Hc; lia]).
  split_and!; [by apply Hn|done|]. intros k t Hk. destruct (Hatt k t Hk) as (d & Hin & _).
  rewrite Hd in Hin. by apply elem_of_nil in Hin.
Qed.

(** [Pull] off a loop is always defined (no dereference of an empty map);
    it returns only a pending task that is due, and sleeps only for a positive
    time. *)
Theorem concurrent_pull_sound queueId name attrMax w s :
  concurrent_reachable regex_match queueId name attrMax w s → cq_isOnLoop (cs_q s) = false →
  ∃ r q' w', ConcurrentQueue_Pull (cs_q s) (cs_w s) = Some (r, q', w') ∧
    (∀ t, r = PullRet (Some t) → ∃ k, pending (cs_q s) k t ∧ k <= w_now (cs_w s)) ∧
    (∀ diff, r = PullWait diff → 0 < diff).
Proof.
  intros Hr Hoff; pose proof (concurrent_reachable_inv _ _ _ _ _ _ Hr Hoff) as Hinv. unfold ConcurrentQueue_Pull.
  destruct (ci_off _ Hinv) as [Hl _].
  assert (Hl' : cq_loop ((cs_q s) <| cq_base ::= GetWhenMapVecStats (cq_whenMapVec (cs_q s)) |>) = false)
    by exact Hl.
  cbv zeta. rewrite Hl'.
  destruct (concurrent_pull_loop_defined
    ((cs_q s) <| cq_base ::= GetWhenMapVecStats (cq_whenMapVec (cs_q s)) |>) (cs_drivers s) (cs_w s))
    as (r & q' & w' & HP & H1 & H2).
  - apply core_base, (ci_core _ Hinv).
  - intros Hx. exact (proj1 (ci_exit _ Hinv Hx)).
  - reflexivity.
  - exists r, q', w'. exact (conj HP (conj H1 H2)).
Qed.

(** a delayed task handed to a loop timer never fires early, and at most a
    millisecond late: the timeout is the delay rounded up to milliseconds,
    capped at [INT_MAX]. *)
Theorem delay_timer_roundup t w :
  let delay := qt_delay (task_at w t) in
  0 < delay <= UINT64_MAX →
  ∃ timeout, ConcurrentQueue_PushDelayTaskToTimer t w =
      (let '(r, w) := loop_TimerStart timeout t w in if decide (r < 0) then (FAILED, w) else (SUCC, w)) ∧
    0 < timeout <= INT_MAX ∧ timeout * 1000 < delay + 1000 ∧
    (delay <= timeout * 1000 ∨ timeout = INT_MAX).
Proof.
  intros delay Hd. unfold ConcurrentQueue_PushDelayTaskToTimer. fold delay.
  assert (Hq : 0 <= (delay - 1) / 1000 <= UINT64_MAX / 1000).
  { split; [apply Z.div_pos; lia|]. apply Z.div_le_mono; lia. }
  assert (Hdm : delay - 1 = 1000 * ((delay - 1) / 1000) + (delay - 1) `mod` 1000) by (apply Z.div_mod; lia).
  pose proof (Z.mod_pos_bound (delay - 1) 1000 ltac:(lia)) as Hm.
  assert (UINT64_MAX / 1000 < UINT64_MAX) by (vm_compute; done).
  rewrite (u64_id (delay - 1)) by (unfold is_u64; lia).
  rewrite u64_id by (unfold is_u64; lia).
  eexists. split; [reflexivity|]. assert (INT_MAX = 2147483647) by done. case_decide; lia.
Qed.
End properties.

Lemma concurrent_bounded_witness :
  ∃ s : CSys, cs_drivers s = [CActive] ∧ cq_concurrency (cs_q s) = 1.
Proof.
  destruct concurrent_sample_run as (s & Hr & _ & Hd & _ & Ho). exists s. split; [exact Hd|].
  rewrite (proj1 (concurrent_bounded _ _ _ _ _ _ Hr Ho)), Hd. reflexivity.
Defined.

Lemma concurrent_pending_attended_witness :
  ∃ s : CSys, pending (cs_q s) 0 2%positive ∧ ∃ d, d ∈ cs_drivers s ∧ attends (cs_q s) 0 d.
Proof.
  destruct concurrent_sample_run as (s & Hr & Hp & _ & _ & Ho). exists s. split; [exact Hp|].
  exact (concurrent_pending_attended _ _ _ _ _ _ _ _ Hr Ho Hp).
Defined.

Lemma concurrent_waitall_drained_witness :
  ∃ s : CSys, cs_waiter s = Some 1%nat ∧ cq_waitingAll (cs_q s) = true.
Proof.
  destruct concurrent_sample_run as (s & Hr & _ & _ & Hw & Ho). exists s. split; [exact Hw|].
  exact (proj1 (concurrent_waitall_drained _ _ _ _ _ _ _ Hr Ho Hw)).
Defined.

Lemma concurrent_pull_sound_witness :
  ∃ s : CSys, ∃ r q' w', cs_drivers s = [CActive] ∧
    ConcurrentQueue_Pull (cs_q s) (cs_w s) = Some (r, q', w').
Proof.
  destruct concurrent_sample_run as (s & Hr & _ & Hd & _ & Ho). exists s.
  destruct (concurrent_pull_sound _ _ _ _ _ _ Hr Ho) as (r & q' & w' & HP & _).
  exists r, q', w'. split; [exact Hd|exact HP].
Defined.

Lemma delay_timer_roundup_witness :
  ∃ timeout, 0 < timeout <= INT_MAX ∧ timeout * 1000 < 400 + 1000.
Proof.
  destruct (delay_timer_roundup 1%positive
    (mkWorld (<[1%positive := inhabitant <| qt_delay := 400 |>]> ∅) 100 0 0 [] []))
    as (timeout & _ & H1 & H2 & _).
  - vm_compute. split; [done|intros [=]].
  - exists timeout. split; [exact H1|exact H2].
Defined.
