(* ===== verification/AdapterQueue.v ===== *)
(** * The event handler queues

    Models src/queue/eventhandler_interactive_queue.{h,cpp} and
    src/queue/eventhandler_adapter_queue.{h,cpp}.  The event handler library is
    loaded at run time; its entry points are parameters. *)

From S2P Require Import Prelude Multimap Types QueueTask QueueStrategy BaseQueue.

(** ** EventHandlerInteractiveQueue *)

Definition Priority_IDLE : Z := 4.
Definition ConvertPriority (priority : Z) : Z := u32 (priority + 1).

(** [TaskOptions] *)
Record TaskOptions := mkTaskOptions {
  to_dfxName : string;
  to_delayTime : Z;      (* milliseconds *)
  to_priority : Z;
  to_taskId : Z;
}.

Section interactive.
(** [PostTaskByFFRT], [None] when the symbol could not be loaded, and
    [RemoveTaskForFFRT]. *)
Context (PostTask : option (tid → TaskOptions → bool)) (RemoveTask : Z → Z).

Definition interactive_options (t : tid) (w : World) : TaskOptions :=
  let q := task_at w t in
  let delayUs := i32 (qt_delay q) in
  mkTaskOptions (qt_label q) (Z.quot delayUs 1000) (ConvertPriority (qt_prio q)) (qt_gid q).

Definition EventHandlerInteractiveQueue_Push (t : tid) (w : World) : Z :=
  if decide (ConvertPriority (qt_prio (task_at w t)) > Priority_IDLE) then FAILED
  else match PostTask with
       | None => FAILED
       | Some post => if post t (interactive_options t w) then SUCC else FAILED
       end.

Definition EventHandlerInteractiveQueue_Remove (t : tid) (w : World) : Z :=
  RemoveTask (qt_gid (task_at w t)).
End interactive.

Definition EventHandlerInteractiveQueue_Stop (q : BaseQueue) : BaseQueue := q <| bq_isExit := true |>.

(** ** EventHandlerAdapterQueue *)

Definition HISTORY_TASK_NUM_POWER : Z := 32.

Record HistoryTask := mkHistoryTask {
  ht_senderKernelThreadId : Z;
  ht_taskName : string;
  ht_sendTime : Z;
  ht_handleTime : Z;
  ht_beginTime : Z;
  ht_triggerTime : Z;
  ht_completeTime : Z;
}.

#[export] Instance HistoryTask_eta : Eta HistoryTask := λ h,
  mkHistoryTask (ht_senderKernelThreadId h) (ht_taskName h) (ht_sendTime h) (ht_handleTime h)
    (ht_beginTime h) (ht_triggerTime h) (ht_completeTime h).

(** [taskName_{0}] is the string of one null character. *)
Definition HistoryTask_default : HistoryTask :=
  mkHistoryTask 0 (String Ascii.zero EmptyString) 0 0 UINT64_MAX 0 0.

Definition HistoryTask_ctor (beginTime : Z) (q : QueueTask) : HistoryTask :=
  mkHistoryTask (qt_fromTid q) (qt_label q) (u64 (qt_uptime q - qt_delay q)) (qt_uptime q)
    beginTime 0 0.

Record AdapterQueue := mkAdapterQueue {
  aq_base : BaseQueue;
  aq_currentRunningTask : HistoryTask;
  aq_historyTasks : list HistoryTask;
  aq_historyTaskIndex : Z;        (* atomic_uint8_t *)
  aq_pulledTaskCount : list Z;
  aq_whenMapVec : list whenmap;   (* 5 of them *)
}.

#[export] Instance AdapterQueue_eta : Eta AdapterQueue := λ q,
  mkAdapterQueue (aq_base q) (aq_currentRunningTask q) (aq_historyTasks q) (aq_historyTaskIndex q)
    (aq_pulledTaskCount q) (aq_whenMapVec q).

Definition AdapterQueue_ctor (queueId : Z) (name : option string) : AdapterQueue :=
  mkAdapterQueue (BaseQueue_ctor queueId name) HistoryTask_default
    (replicate (Z.to_nat HISTORY_TASK_NUM_POWER) HistoryTask_default) 0
    (replicate (Z.to_nat (ffrt_inner_queue_priority_idle + 1)) 0) (replicate 5 []).

(** The insertion of [Push]: a head insertion rebuilds the map behind the new
    task. *)
Definition adapter_insert (t : tid) (w : World) (m : whenmap) : whenmap :=
  if qt_insertHead (task_at w t) then mm_insert_range m [(0, t)]
  else mm_insert (qt_uptime (task_at w t)) t m.

Definition AdapterQueue_Push (t : tid) (q : AdapterQueue) (w : World) : Z * AdapterQueue :=
  let b := aq_base q in
  if bq_isExit b then (FAILED, q)
  else
    let taskPriority := Z.to_nat (qt_prio (task_at w t)) in
    if negb (bq_isActiveState b) then
      (INACTIVE, q <| aq_pulledTaskCount ::= alter (Z.add 1) taskPriority |>
                   <| aq_base := b <| bq_isActiveState := true |> |>)
    else
      let q := q <| aq_whenMapVec ::= alter (adapter_insert t w) taskPriority |> in
      match map_at (aq_whenMapVec q) taskPriority with
      | (_, t') :: _ => if decide (t = t') then (SUCC, q <| aq_base ::= notify_cond |>) else (SUCC, q)
      | [] => (SUCC, q)
      end.

(** One evaluation of [Pull] from its last reading of the clock. *)
Definition AdapterQueue_Pull (q : AdapterQueue) (w : World)
    : option (PullResult * AdapterQueue * World) :=
  let b := GetWhenMapVecStats (aq_whenMapVec q) (aq_base q) in
  if negb (bq_isEmpty b) && bool_decide (w_now w < bq_minTime b) && negb (bq_isExit b)
  then Some (PullWait (bq_minTime b - w_now w), q <| aq_base := b <| bq_delayStatus := true |> |>, w)
  else if bq_isEmpty b
  then Some (PullRet None, q <| aq_base := b <| bq_isActiveState := false |> |>, w)
  else if bq_isExit b then Some (PullRet None, q <| aq_base := b |>, w)
  else
    '(t, maps, pulled, w) ←
      DequeSingleAgainstStarvation (w_now w) (aq_whenMapVec q) (aq_pulledTaskCount q) w;
    Some (PullRet (Some t),
          q <| aq_base := b |> <| aq_whenMapVec := maps |> <| aq_pulledTaskCount := pulled |>, w).

Definition AdapterQueue_Pull_resume (q : AdapterQueue) (w : World)
    : option (PullResult * AdapterQueue * World) :=
  AdapterQueue_Pull (q <| aq_base ::= λ b, b <| bq_delayStatus := false |> |>) w.

(** The [for] loops over the maps. *)
Fixpoint adapter_stop_maps (q : BaseQueue) (maps : list whenmap) (w : World)
    : BaseQueue * list whenmap * World :=
  match maps with
  | [] => (q, [], w)
  | m :: maps =>
      let '(q, m, w) := BaseQueue_Stop_map q m w in
      let '(q, maps, w) := adapter_stop_maps q maps w in (q, m :: maps, w)
  end.

Definition AdapterQueue_Stop (q : AdapterQueue) (w : World) : AdapterQueue * World :=
  let '(b, maps, w) := adapter_stop_maps (aq_base q) (aq_whenMapVec q) w in
  (q <| aq_base := b |> <| aq_whenMapVec := maps |>, w).

Fixpoint adapter_remove_maps (q : BaseQueue) (maps : list whenmap) (w : World)
    : Z * BaseQueue * list whenmap * World :=
  match maps with
  | [] => (0, q, [], w)
  | m :: maps =>
      let '(r, q, m, w) := BaseQueue_Remove_map q m w in
      let '(rs, q, maps, w) := adapter_remove_maps q maps w in (r + rs, q, m :: maps, w)
  end.

Definition AdapterQueue_Remove (q : AdapterQueue) (w : World) : Z * AdapterQueue * World :=
  let '(n, b, maps, w) := adapter_remove_maps (aq_base q) (aq_whenMapVec q) w in
  (n, q <| aq_base := b |> <| aq_whenMapVec := maps |>, w).

Fixpoint adapter_remove_task_maps (t : tid) (q : BaseQueue) (maps : list whenmap) (w : World)
    : Z * list whenmap :=
  match maps with
  | [] => (0, [])
  | m :: maps =>
      let '(r, m) := BaseQueue_Remove_task_map t q m w in
      let '(rs, maps) := adapter_remove_task_maps t q maps w in (r + rs, m :: maps)
  end.

Definition AdapterQueue_Remove_task (t : tid) (q : AdapterQueue) (w : World) : Z * AdapterQueue :=
  let '(n, maps) := adapter_remove_task_maps t (aq_base q) (aq_whenMapVec q) w in
  (n, q <| aq_whenMapVec := maps |>).

Section by_name.
Context (regex_match : string → string → bool).

Fixpoint adapter_remove_name_maps (name : string) (q : BaseQueue) (maps : list whenmap) (w : World)
    : Z * list whenmap * World :=
  match maps with
  | [] => (0, [], w)
  | m :: maps =>
      let '(r, m, w) := BaseQueue_Remove_name_map regex_match name q m w in
      let '(rs, maps, w) := adapter_remove_name_maps name q maps w in (r + rs, m :: maps, w)
  end.

Definition AdapterQueue_Remove_name (name : string) (q : AdapterQueue) (w : World)
    : Z * AdapterQueue * World :=
  let '(n, maps, w) := adapter_remove_name_maps name (aq_base q) (aq_whenMapVec q) w in
  (n, q <| aq_whenMapVec := maps |>, w).

Definition AdapterQueue_HasTask (name : string) (q : AdapterQueue) (w : World) : bool :=
  existsb (λ m, BaseQueue_HasTask_map regex_match name m w) (aq_whenMapVec q).
End by_name.

Definition AdapterQueue_IsIdle (q : AdapterQueue) : bool :=
  forallb (λ i, match map_at (aq_whenMapVec q) i with [] => true | _ => false end)
    (seq 0 (Z.to_nat (ffrt_queue_priority_idle + 1))).

Definition AdapterQueue_GetDueTaskCount (q : AdapterQueue) (w : World) : Z :=
  foldl (λ n m, u64 (n + BaseQueue_GetDueTaskCount_map m w)) 0 (aq_whenMapVec q).

Definition AdapterQueue_GetMapSize (q : AdapterQueue) : Z :=
  foldl (λ size m, u32 (size + Z.of_nat (length m))) 0 (aq_whenMapVec q).

Definition AdapterQueue_DumpSize (priority : Z) (q : AdapterQueue) : Z :=
  i32 (Z.of_nat (length (map_at (aq_whenMapVec q) (Z.to_nat priority)))).

Definition AdapterQueue_SetCurrentRunningTask (t : tid) (w : World) (q : AdapterQueue) : AdapterQueue :=
  q <| aq_currentRunningTask := HistoryTask_ctor (w_now w) (task_at w t) |>.

Definition AdapterQueue_PushHistoryTask (t : tid) (triggerTime completeTime : Z) (w : World)
    (q : AdapterQueue) : AdapterQueue :=
  let qt := task_at w t in
  let h := HistoryTask_default <| ht_senderKernelThreadId := qt_fromTid qt |>
             <| ht_taskName := qt_label qt |> <| ht_sendTime := u64 (qt_uptime qt - qt_delay qt) |>
             <| ht_handleTime := qt_uptime qt |> <| ht_triggerTime := triggerTime |>
             <| ht_completeTime := completeTime |> in
  let idx := Z.land (aq_historyTaskIndex q) (HISTORY_TASK_NUM_POWER - 1) in
  q <| aq_historyTaskIndex ::= λ i, u8 (i + 1) |>
    <| aq_historyTasks ::= <[Z.to_nat idx := h]> |>.

(** ** Lemmas *)

Lemma Remove_task_map_sorted t b m w :
  bq_isExit b = false → mm_sorted m →
  ∃ m', BaseQueue_Remove_task_map t b m w =
      (if decide ((qt_uptime (task_at w t), t) ∈ m) then SUCC else FAILED, m') ∧
    (if decide ((qt_uptime (task_at w t), t) ∈ m)
     then (qt_uptime (task_at w t), t) :: m' ≡ₚ m else m' = m).
Proof.
  intros He Hs. unfold BaseQueue_Remove_task_map. rewrite He.
  destruct (mm_erase_in_range _ _ m) as [m'|] eqn:Hm.
  - apply mm_erase_in_range_Some in Hm as (l1 & l2 & v & -> & -> & Hv & _).
    apply bool_decide_eq_true in Hv as ->. exists (l1 ++ l2).
    rewrite !decide_True by set_solver. split; [done|]. apply Permutation_middle.
  - rewrite mm_erase_in_range_None in Hm by done.
    assert (Hn : (qt_uptime (task_at w t), t) ∉ m).
    { intros Hin. specialize (Hm _ Hin). by rewrite bool_decide_true in Hm. }
    exists m. by rewrite !decide_False.
Qed.

(** The maps that hold the task under its due time. *)
Definition holding (t : tid) (w : World) (maps : list whenmap) : list whenmap :=
  filter (λ m, (qt_uptime (task_at w t), t) ∈ m) maps.

Lemma adapter_remove_task_sum t b maps w n maps' :
  bq_isExit b = false → Forall mm_sorted maps →
  adapter_remove_task_maps t b maps w = (n, maps') →
  n = Z.of_nat (length maps) - Z.of_nat (length (holding t w maps)) ∧
  Forall2 (λ m m', if decide ((qt_uptime (task_at w t), t) ∈ m)
                   then (qt_uptime (task_at w t), t) :: m' ≡ₚ m else m' = m) maps maps'.
Proof.
  intros He Hs. revert n maps'. induction Hs as [|m maps Hm Hs IH]; intros n maps' H; simpl in H.
  - injection H as <- <-. by split.
  - destruct (Remove_task_map_sorted t b m w He Hm) as (m1 & E1 & P1). rewrite E1 in H.
    destruct (adapter_remove_task_maps t b maps w) as [n2 maps2] eqn:E2.
    destruct (IH _ _ eq_refl) as [-> HF]. injection H as <- <-.
    split; [|by constructor]. unfold holding. rewrite filter_cons. unfold SUCC, FAILED.
    destruct (decide _); simpl; lia.
Qed.

(** One round of the first loop keeps the earlier of two maps. *)
Lemma earliest_step maps best j :
  let b' := match begin_time (map_at maps j), begin_time (map_at maps best) with
            | None, _ => best | Some _, None => j
            | Some k, Some kb => if decide (kb > k) then j else best end in
  ∀ i k, i = best ∨ i = j → begin_time (map_at maps i) = Some k →
    ∃ k', begin_time (map_at maps b') = Some k' ∧ k' <= k.
Proof.
  intros b' i k Hi Hk. subst b'.
  destruct (begin_time (map_at maps j)) as [kj|] eqn:Hj,
    (begin_time (map_at maps best)) as [kb|] eqn:Hbest; [case_decide|..];
    destruct Hi as [->| ->]; rewrite ?Hj, ?Hbest in Hk; simplify_eq;
    eexists; (split; [first [eassumption|done]|lia]).
Qed.

Lemma earliest_idx_least maps best idxs i k :
  i ∈ best :: idxs → begin_time (map_at maps i) = Some k →
  ∃ k', begin_time (map_at maps (earliest_idx maps best idxs)) = Some k' ∧ k' <= k.
Proof.
  revert best i k. induction idxs as [|j idxs IH]; intros best i k Hi Hk; simpl.
  - apply list_elem_of_singleton in Hi as ->. exists k. split; [done|lia].
  - destruct (decide (i ∈ idxs)) as [Hin|Hnin]; [apply (IH _ i k); [by right|done]|].
    rewrite !elem_of_cons in Hi.
    destruct (earliest_step maps best j i k) as (k' & Hk' & Hle); [tauto|done|].
    edestruct (IH _ _ k' ltac:(left) Hk') as (k2 & ? & ?). exists k2. split; [done|lia].
Qed.

(** The task [DequeSingleAgainstStarvation] takes, when one of the maps it looks
    at holds a task due by now. *)
Lemma starvation_pick_defined now maps pulled i k :
  (i < 4)%nat → begin_time (map_at maps i) = Some k → k <= now →
  ∃ k' t m, map_at maps (starvation_pick now maps pulled) = (k', t) :: m ∧ k' <= now.
Proof.
  intros Hi Hk Hle. unfold starvation_pick.
  destruct (first_idx _ maps (seq 0 4)) as [j|] eqn:Hf; simpl.
  - apply first_idx_seq_Some in Hf as (_ & (k' & Hk' & Hd) & _).
    apply begin_time_Some in Hk' as (t & m & Hm). apply andb_true_iff in Hd as [_ Hd].
    apply bool_decide_eq_true in Hd. exists k', t, m. split; [done|lia].
  - destruct (earliest_idx_least maps 4 (seq 0 4) i k) as (k' & Hk' & Hle').
    + apply elem_of_cons. right. apply elem_of_seq. lia.
    + done.
    + apply begin_time_Some in Hk' as (t & m & Hm). exists k', t, m.
      split; [exact Hm|lia].
Qed.

(** The ring of finished tasks: [hs] is everything recorded so far. *)
Definition history_ring (hs : list HistoryTask) (q : AdapterQueue) : Prop :=
  length (aq_historyTasks q) = 32%nat ∧
  aq_historyTaskIndex q = Z.of_nat (length hs) `mod` 256 ∧
  ∀ i h, hs !! i = Some h → (length hs <= i + 32)%nat →
    aq_historyTasks q !! (i `mod` 32)%nat = Some h.

Definition history_record (t : tid) (triggerTime completeTime : Z) (w : World) : HistoryTask :=
  let qt := task_at w t in
  mkHistoryTask (qt_fromTid qt) (qt_label qt) (u64 (qt_uptime qt - qt_delay qt)) (qt_uptime qt)
    UINT64_MAX triggerTime completeTime.

Lemma land_31_mod x : 0 <= x → Z.land x (HISTORY_TASK_NUM_POWER - 1) = x `mod` 32.
Proof. intros. change (HISTORY_TASK_NUM_POWER - 1) with (Z.ones 5). by apply Z.land_ones. Qed.

Lemma history_ring_push hs q t tr co w :
  history_ring hs q →
  history_ring (hs ++ [history_record t tr co w]) (AdapterQueue_PushHistoryTask t tr co w q).
Proof.
  intros (Hl & Hi & Hh). unfold AdapterQueue_PushHistoryTask. rewrite Hi.
  rewrite land_31_mod by (apply Z.mod_pos_bound; lia).
  set (n := length hs) in *.
  assert (Hidx : Z.to_nat ((Z.of_nat n `mod` 256) `mod` 32) = (n `mod` 32)%nat).
  { rewrite Z.mod_mod_divide by (by exists 8).
    change 32 with (Z.of_nat 32). by rewrite <-Nat2Z.inj_mod, Nat2Z.id. }
  rewrite Hidx. split_and!; simpl.
  - by rewrite length_insert.
  - rewrite length_app, Hi. simpl. unfold u8, uw. change (2 ^ 8) with 256.
    rewrite Z.add_mod_idemp_l by lia. f_equal. lia.
  - intros i h Hih Hlen. rewrite length_app in Hlen. simpl in Hlen. fold n in Hlen.
    destruct (decide (i < n)%nat) as [Hlt|Hge].
    + rewrite lookup_app_l in Hih by done.
      rewrite list_lookup_insert_ne; [apply Hh; [done|lia]|].
      intros Hc. change (n `mod` 32 = i `mod` 32)%nat in Hc.
      pose proof (Nat.div_mod_eq n 32). pose proof (Nat.div_mod_eq i 32).
      pose proof (Nat.mod_upper_bound i 32 ltac:(lia)). lia.
    + apply lookup_app_Some in Hih as [Hih|[_ Hih]]; [apply lookup_lt_Some in Hih; lia|].
      fold n in Hih. destruct (i - n)%nat as [|] eqn:Hin; [|done]. simpl in Hih. injection Hih as <-.
      assert (i = n) as -> by lia. rewrite list_lookup_insert_eq; [done|].
      rewrite Hl. apply (Nat.mod_upper_bound n 32). lia.
Qed.

Lemma history_ring_init queueId name : history_ring [] (AdapterQueue_ctor queueId name).
Proof. split_and!; [done|done|]. intros i h Hih. by rewrite lookup_nil in Hih. Qed.

(** ** Properties *)

(** the adapter queue records the finished tasks in a ring that always
    holds the last 32 of them: after any sequence of recordings, entry [i] of
    the sequence is at slot [i mod 32] unless 32 newer ones exist. *)
Theorem adapter_history_last32 queueId name (ps : list (tid * Z * Z * World)) i t tr co w :
  ps !! i = Some (t, tr, co, w) → (length ps <= i + 32)%nat →
  aq_historyTasks (foldl (λ q p, let '(t, tr, co, w) := p in
      AdapterQueue_PushHistoryTask t tr co w q) (AdapterQueue_ctor queueId name) ps)
    !! (i `mod` 32)%nat = Some (history_record t tr co w).
Proof.
  intros Hi Hlen. set (rec := λ p : tid * Z * Z * World, let '(t, tr, co, w) := p in history_record t tr co w).
  assert (H : history_ring (rec <$> ps) (foldl (λ q p, let '(t, tr, co, w) := p in
      AdapterQueue_PushHistoryTask t tr co w q) (AdapterQueue_ctor queueId name) ps)).
  { clear. induction ps as [|[[[t tr] co] w] ps IH] using rev_ind; [apply history_ring_init|].
    rewrite foldl_app, fmap_app. by apply history_ring_push. }
  destruct H as (_ & _ & H). apply H; [|by rewrite length_fmap].
  rewrite list_lookup_fmap, Hi. done.
Qed.

Lemma adapter_history_last32_witness :
  aq_historyTasks (foldl (λ q p, let '(t, tr, co, w) := p in
      AdapterQueue_PushHistoryTask t tr co w q) (AdapterQueue_ctor 0 None)
      (replicate 40 (1%positive, 7, 9, sample_world))) !! 7%nat =
    Some (history_record 1%positive 7 9 sample_world).
Proof.
  apply (adapter_history_last32 0 None (replicate 40 (1%positive, 7, 9, sample_world)) 39).
  - vm_compute. reflexivity.
  - vm_compute. lia.
Defined.

(** [Pull] of the adapter queue is always defined, and a task it returns is
    due and is the earliest of its priority. *)
Theorem adapter_pull_sound q w :
  ∃ r q' w', AdapterQueue_Pull q w = Some (r, q', w') ∧
    (∀ t, r = PullRet (Some t) →
       ∃ i k m, map_at (aq_whenMapVec q) i = (k, t) :: m ∧ k <= w_now w ∧
         aq_whenMapVec q' = <[i := m]> (aq_whenMapVec q)).
Proof.
  unfold AdapterQueue_Pull.
  remember (GetWhenMapVecStats (aq_whenMapVec q) (aq_base q)) as b eqn:Hb. cbv zeta.
  destruct (bq_isEmpty b) eqn:He; simpl.
  { eexists _, _, _. split; [done|]. by intros t [=]. }
  case_bool_decide as Hw; simpl.
  { destruct (bq_isExit b); eexists _, _, _; (split; [done|]); by intros t [=]. }
  destruct (bq_isExit b); simpl.
  { eexists _, _, _. split; [done|]. by intros t [=]. }
  destruct (min_begin_least (aq_whenMapVec q) (seq 0 4)) as (_ & [Hmax|(i & Hi & Hk)]).
  { exfalso. rewrite Hb in He. unfold GetWhenMapVecStats in He.
    change (seq 0 (Z.to_nat (ffrt_queue_priority_idle + 1))) with (seq 0 4) in He.
    rewrite Hmax in He. done. }
  apply elem_of_seq in Hi.
  assert (Hbm : min_begin (aq_whenMapVec q) (seq 0 4) = bq_minTime b) by (by subst b).
  rewrite Hbm in Hk.
  destruct (starvation_pick_defined (w_now w) (aq_whenMapVec q) (aq_pulledTaskCount q) i (bq_minTime b))
    as (k' & t & m & Hm & Hle); [lia|done|lia|].
  unfold DequeSingleAgainstStarvation. set (j := starvation_pick _ _ _) in *.
  assert (pop_at j (aq_whenMapVec q) = Some (t, <[j := m]> (aq_whenMapVec q))) as -> by (apply pop_at_Some; eauto).
  eexists _, _, _. split; [done|]. intros t' [= <-]. eauto 10.
Qed.

Definition sample_adapter (maps : list whenmap) : AdapterQueue :=
  (AdapterQueue_ctor 0 None) <| aq_whenMapVec := maps |>
    <| aq_base ::= λ b, b <| bq_isActiveState := true |> |>.

(** idle tasks are stranded: when only the idle map of an adapter queue
    holds tasks, [Pull] takes the queue for empty and switches it to inactive
    with the tasks still pending, due or not ([GetWhenMapVecStats] stops at the
    fourth map). *)
Theorem adapter_idle_stranded m w q :
  aq_whenMapVec q = [[]; []; []; []; m] →
  ∃ q', AdapterQueue_Pull q w = Some (PullRet None, q', w) ∧
    bq_isActiveState (aq_base q') = false ∧ aq_whenMapVec q' = [[]; []; []; []; m] ∧
    AdapterQueue_IsIdle q' = true.
Proof.
  intros Hm. unfold AdapterQueue_Pull, GetWhenMapVecStats. rewrite Hm. simpl.
  eexists. split; [done|]. split_and!; [done|exact Hm|]. unfold AdapterQueue_IsIdle. simpl.
  by rewrite Hm.
Qed.

Lemma adapter_idle_stranded_witness :
  ∃ q', AdapterQueue_Pull (sample_adapter [[]; []; []; []; [(10, 1%positive)]]) sample_world =
      Some (PullRet None, q', sample_world) ∧
    aq_whenMapVec q' = [[]; []; []; []; [(10, 1%positive)]].
Proof.
  destruct (adapter_idle_stranded [(10, 1%positive)] sample_world
    (sample_adapter [[]; []; []; []; [(10, 1%positive)]])) as (q' & H1 & _ & H2 & _).
  - reflexivity.
  - exists q'. split; [exact H1|exact H2].
Defined.
