(* ===== verification/TrafficRecord.v ===== *)
(** * TrafficRecord

    Models src/queue/traffic_record.{h,cpp}: the submit and done counters of a
    queue and the periodic overload check.  The records kept for the dump
    ([trafficRecordInfo], static) are threaded through; the text of a record is
    the parameter [message]. *)

From S2P Require Import Prelude.

Definition DEFAULT_TRAFFIC_INTERVAL : Z := 6000000.
Definition REPORT_INTERVAL : Z := 60000000.
Definition TR_MIN_OVERLOAD_INTERVAL : Z := 15.
Definition TR_MAX_RECORD_LIMIT : Z := 128.

Record TrafficRecord := mkTrafficRecord {
  tr_timeInterval : Z;
  tr_lastCheckTime : Z;
  tr_lastReportTime : Z;
  tr_detectCnt : Z;        (* the counters are uint32_t *)
  tr_nextUpdateTime : Z;
  tr_submitCnt : Z;
  tr_doneCnt : Z;
  tr_doneCntOld : Z;
  tr_submitCntOld : Z;
}.

#[export] Instance TrafficRecord_eta : Eta TrafficRecord := λ r,
  mkTrafficRecord (tr_timeInterval r) (tr_lastCheckTime r) (tr_lastReportTime r) (tr_detectCnt r)
    (tr_nextUpdateTime r) (tr_submitCnt r) (tr_doneCnt r) (tr_doneCntOld r) (tr_submitCntOld r).

Definition TrafficRecord_ctor : TrafficRecord :=
  mkTrafficRecord DEFAULT_TRAFFIC_INTERVAL 0 0 0 0 0 0 0 0.

(** [trafficRecordInfo] *)
Abbreviation records := (list (Z * string)).

Definition DetectCountThreshold (r : TrafficRecord) : TrafficRecord :=
  if decide (tr_doneCnt r > 16777215) then
    let oldTemp := tr_doneCnt r in
    r <| tr_doneCnt := u32 (tr_doneCnt r - oldTemp) |>
      <| tr_submitCnt := u32 (tr_submitCnt r - oldTemp) |>
  else r.

(** The bounded append of a record. *)
Definition add_record (x : Z * string) (info : records) : records :=
  (if decide (Z.of_nat (length info) > TR_MAX_RECORD_LIMIT) then tail info else info) ++ [x].

Section traffic.
(** [GetBetaVersionFlag()], and the text of a record. *)
Context (beta : bool) (message : TrafficRecord → string).

Definition SetTimeInterval (timeInterval time : Z) (r : TrafficRecord) : TrafficRecord :=
  if beta then r <| tr_timeInterval := timeInterval |>
                 <| tr_nextUpdateTime := u64 (time + timeInterval) |>
  else r.

(** [taskCnt] and [dueCnt] are [handler->GetTaskCnt()] and
    [handler->GetQueueDueCount()]; the last component tells whether an overload
    event was reported. *)
Definition CalculateTraffic (taskCnt dueCnt time : Z) (r : TrafficRecord) (info : records)
    : TrafficRecord * records * bool :=
  let inflows := u32 (tr_submitCnt r - tr_submitCntOld r) in
  let outflows := u32 (tr_doneCnt r - tr_doneCntOld r) in
  let r := DetectCountThreshold r in
  let r := r <| tr_submitCntOld := tr_submitCnt r |> <| tr_doneCntOld := tr_doneCnt r |> in
  let reportInterval :=
    if decide (tr_lastCheckTime r ≠ 0) then u64 (time - tr_lastCheckTime r) else tr_timeInterval r in
  let r := r <| tr_lastCheckTime := time |> in
  let backlog := u32 (tr_submitCnt r - tr_doneCnt r) in
  if decide (outflows < inflows ∧
             u64 (TR_MIN_OVERLOAD_INTERVAL * (reportInterval / tr_timeInterval r)) < backlog ∧
             TR_MIN_OVERLOAD_INTERVAL < taskCnt) then
    let info := add_record (time, message r) info in
    if decide (outflows < backlog ∧ outflows < dueCnt) then
      if decide (REPORT_INTERVAL < u64 (time - tr_lastReportTime r))
      then (r <| tr_lastReportTime := time |>, info, true)
      else (r, info, false)
    else (r, info, false)
  else (r, info, false).

Definition SubmitTraffic (taskCnt dueCnt time : Z) (r : TrafficRecord) (info : records)
    : TrafficRecord * records * bool :=
  if beta then
    let r := r <| tr_submitCnt ::= λ n, u32 (n + 1) |> in
    let detect := tr_detectCnt r in
    let r := r <| tr_detectCnt := u32 (detect + 1) |> in
    if decide (detect < TR_MIN_OVERLOAD_INTERVAL) then (r, info, false)
    else
      let r := r <| tr_detectCnt := 0 |> in
      if decide (time < tr_nextUpdateTime r ∨ tr_timeInterval r = 0) then (r, info, false)
      else CalculateTraffic taskCnt dueCnt time
             (r <| tr_nextUpdateTime := u64 (time + tr_timeInterval r) |>) info
  else (r, info, false).

Definition DoneTraffic (count : Z) (r : TrafficRecord) : TrafficRecord :=
  if beta then r <| tr_doneCnt := u32 (tr_doneCnt r + u32 count) |> else r.
End traffic.

(** ** Properties *)

(** Tasks submitted and not done. *)
Definition backlog (r : TrafficRecord) : Z := u32 (tr_submitCnt r - tr_doneCnt r).

Lemma u32_sub_idemp a b c : u32 (u32 (a - c) - u32 (b - c)) = u32 (a - b).
Proof.
  unfold u32, uw. rewrite <-Zminus_mod. f_equal. lia.
Qed.

Lemma DetectCountThreshold_backlog r : backlog (DetectCountThreshold r) = backlog r.
Proof.
  unfold DetectCountThreshold, backlog. case_decide; [|done]. simpl. apply u32_sub_idemp.
Qed.

Lemma add_record_length x info :
  Z.of_nat (length info) <= TR_MAX_RECORD_LIMIT + 1 →
  Z.of_nat (length (add_record x info)) <= TR_MAX_RECORD_LIMIT + 1.
Proof.
  unfold add_record, TR_MAX_RECORD_LIMIT. intros H. rewrite length_app. simpl.
  case_decide; [|lia]. destruct info; simpl in *; lia.
Qed.

Lemma CalculateTraffic_spec message taskCnt dueCnt time r info r' info' b :
  CalculateTraffic message taskCnt dueCnt time r info = (r', info', b) →
  backlog r' = backlog r ∧
  (Z.of_nat (length info) <= TR_MAX_RECORD_LIMIT + 1 →
   Z.of_nat (length info') <= TR_MAX_RECORD_LIMIT + 1) ∧
  tr_submitCntOld r' = tr_submitCnt r' ∧ tr_doneCntOld r' = tr_doneCnt r'.
Proof.
  unfold CalculateTraffic. intros H. pose proof (DetectCountThreshold_backlog r) as Hb.
  unfold backlog in *. set (r1 := DetectCountThreshold r) in *. clearbody r1.
  repeat case_decide; injection H as <- <- <-; simpl; split_and!; try done; auto using add_record_length.
Qed.

(** the overload check keeps the books: whatever the interleaving of the
    counters' reset, one submission raises the backlog (submitted minus done,
    modulo 2^32) by exactly one, and the table of records never holds more than
    [MAX_RECORD_LIMIT] + 1 entries. *)
Theorem SubmitTraffic_backlog message taskCnt dueCnt time r info r' info' b :
  SubmitTraffic true message taskCnt dueCnt time r info = (r', info', b) →
  backlog r' = u32 (backlog r + 1) ∧
  (Z.of_nat (length info) <= TR_MAX_RECORD_LIMIT + 1 →
   Z.of_nat (length info') <= TR_MAX_RECORD_LIMIT + 1).
Proof.
  assert (Hinc : u32 (u32 (tr_submitCnt r + 1) - tr_doneCnt r) = u32 (backlog r + 1)).
  { unfold backlog, u32, uw. rewrite Zminus_mod_idemp_l, Zplus_mod_idemp_l. f_equal. lia. }
  unfold SubmitTraffic. cbv zeta. simpl tr_detectCnt. simpl tr_nextUpdateTime.
  case_decide; [intros [= <- <- <-]; split; [exact Hinc|done]|].
  case_decide; [intros [= <- <- <-]; split; [exact Hinc|done]|].
  intros (Hb & Hl & _)%CalculateTraffic_spec. split; [|exact Hl]. rewrite Hb. exact Hinc.
Qed.

Lemma SubmitTraffic_backlog_witness :
  ∃ r' info' b, SubmitTraffic true (λ _, "") 20 20 7000000
      (TrafficRecord_ctor <| tr_detectCnt := 15 |> <| tr_submitCnt := 200 |>) [] = (r', info', b) ∧
    backlog r' = 201 ∧ info' ≠ [].
Proof.
  destruct (SubmitTraffic true (λ _, "") 20 20 7000000
      (TrafficRecord_ctor <| tr_detectCnt := 15 |> <| tr_submitCnt := 200 |>) []) as [[r' info'] b] eqn:H.
  exists r', info', b. split; [reflexivity|]. split.
  - rewrite (proj1 (SubmitTraffic_backlog _ _ _ _ _ _ _ _ _ H)). reflexivity.
  - vm_compute in H. injection H as _ <- _. discriminate.
Defined.
