(* ===== verification/QueueHandler.v ===== *)
(** * QueueHandler

    Models src/queue/queue_handler.{h,cpp}: the object behind [ffrt_queue_t].
    The handler works on any queue through the interface [BaseQueueOps] (the
    virtual functions of [BaseQueue]); the delayed worker and the queue monitor
    are used through [DelayedOps] and [MonitorOps].  A blocking function is split
    at its wait: [Deliver] into its part before [Pull] and its part after. *)

From S2P Require Import Prelude Multimap Types QueueTask QueueStrategy BaseQueue.
From S2P Require Import SerialQueue ConcurrentQueue AdapterQueue TrafficRecord.

(** ** Interfaces *)

(** The virtual functions of [BaseQueue] the handler calls. *)
Class BaseQueueOps (Q : Type) := {
  q_type : Z;
  q_base : Q → BaseQueue;
  q_Push : tid → Q → World → Z * Q * World;
  q_Pull : Q → World → option (PullResult * Q * World);
  q_Remove : Q → World → Z * Q * World;
  q_Remove_name : string → Q → World → Z * Q * World;
  q_Remove_task : tid → Q → World → Z * Q;
  q_Stop : Q → World → Q * World;
  q_GetHeadTask : Q → list (option tid) * Q;
  q_GetActiveStatus : Q → bool;
  q_GetMapSize : Q → Z;
  q_GetDueTaskCount : Q → World → Z;
  q_HasTask : string → Q → World → bool;
  q_IsOnLoop : Q → bool;
  q_WaitAll : Q → option Z * Q;
  (* members of the adapter queue only, called after a test of the queue type *)
  q_SetCurrentRunningTask : tid → World → Q → Q;
  q_PushHistoryTask : tid → Z → Z → World → Q → Q;
  q_pending : Q → whenmap;       (* every pending entry, for the laws *)
}.

(** The delayed worker: timers at an absolute time in nanoseconds. *)
Class DelayedOps := {
  DelayedWakeup : Z → World → bool * World;
  DelayedRemove : Z → World → bool * World;
}.

(** The queue monitor. *)
Class MonitorOps := {
  RegisterQueue : World → World;
  DeregisterQueue : World → World;
  UpdateQueueInfo : World → World;
}.

(** What the handler relies on in [Remove(task)]: success is reported exactly
    when the task has been taken out of the queue. *)
Class RemoveTaskLaw (Q : Type) `{BaseQueueOps Q} :=
  q_Remove_task_law : ∀ t q w r q', q_Remove_task t q w = (r, q') →
    (r = SUCC ∧ ∃ k, q_pending q ≡ₚ (k, t) :: q_pending q') ∨
    (r = FAILED ∧ q_pending q' ≡ₚ q_pending q).

Section instances.
Context (regex_match : string → string → bool) (sort : whenmap → whenmap).

#[export] Instance SerialQueue_ops : BaseQueueOps SerialQueue := {
  q_type := ffrt_queue_serial;
  q_base := sq_base;
  q_Push := λ t q w, let '(r, q) := SerialQueue_Push t q w in (r, q, w);
  q_Pull := SerialQueue_Pull;
  q_Remove := λ q w, let '(r, b, w) := BaseQueue_Remove (sq_base q) w in (r, q <| sq_base := b |>, w);
  q_Remove_name := λ n q w,
    let '(r, b, w) := BaseQueue_Remove_name regex_match n (sq_base q) w in (r, q <| sq_base := b |>, w);
  q_Remove_task := λ t q w,
    let '(r, b) := BaseQueue_Remove_task t (sq_base q) w in (r, q <| sq_base := b |>);
  q_Stop := λ q w, let '(b, w) := BaseQueue_Stop (sq_base q) w in (q <| sq_base := b |>, w);
  q_GetHeadTask := λ q, let '(v, b) := BaseQueue_GetHeadTask (sq_base q) in (v, q <| sq_base := b |>);
  q_GetActiveStatus := SerialQueue_GetActiveStatus;
  q_GetMapSize := λ q, BaseQueue_GetMapSize (sq_base q);
  q_GetDueTaskCount := λ q w, BaseQueue_GetDueTaskCount (sq_base q) w;
  q_HasTask := λ n q w, BaseQueue_HasTask regex_match n (sq_base q) w;
  q_IsOnLoop := λ _, false;
  q_WaitAll := λ q, (Some (-1), q);
  q_SetCurrentRunningTask := λ _ _ q, q;
  q_PushHistoryTask := λ _ _ _ _ q, q;
  q_pending := λ q, bq_whenMap (sq_base q);
}.

#[export] Instance ConcurrentQueue_ops `{LoopOps} : BaseQueueOps ConcurrentQueue := {
  q_type := ffrt_queue_concurrent;
  q_base := cq_base;
  q_Push := ConcurrentQueue_Push;
  q_Pull := ConcurrentQueue_Pull;
  q_Remove := ConcurrentQueue_Remove;
  q_Remove_name := ConcurrentQueue_Remove_name regex_match;
  q_Remove_task := ConcurrentQueue_Remove_task;
  q_Stop := ConcurrentQueue_Stop;
  q_GetHeadTask := ConcurrentQueue_GetHeadTask sort;
  q_GetActiveStatus := ConcurrentQueue_GetActiveStatus;
  q_GetMapSize := ConcurrentQueue_GetMapSize;
  q_GetDueTaskCount := λ q w, BaseQueue_GetDueTaskCount (cq_base q) w;
  q_HasTask := ConcurrentQueue_HasTask regex_match;
  q_IsOnLoop := cq_isOnLoop;
  q_WaitAll := ConcurrentQueue_WaitAll;
  q_SetCurrentRunningTask := λ _ _ q, q;
  q_PushHistoryTask := λ _ _ _ _ q, q;
  q_pending := λ q, mjoin (cq_whenMapVec q) ++ cq_waitingMap q;
}.

#[export] Instance AdapterQueue_ops : BaseQueueOps AdapterQueue := {
  q_type := ffrt_queue_eventhandler_adapter;
  q_base := aq_base;
  q_Push := λ t q w, let '(r, q) := AdapterQueue_Push t q w in (r, q, w);
  q_Pull := AdapterQueue_Pull;
  q_Remove := AdapterQueue_Remove;
  q_Remove_name := AdapterQueue_Remove_name regex_match;
  q_Remove_task := AdapterQueue_Remove_task;
  q_Stop := AdapterQueue_Stop;
  q_GetHeadTask := λ q, let '(v, b) := BaseQueue_GetHeadTask (aq_base q) in (v, q <| aq_base := b |>);
  q_GetActiveStatus := λ q, bq_isActiveState (aq_base q);
  q_GetMapSize := AdapterQueue_GetMapSize;
  q_GetDueTaskCount := AdapterQueue_GetDueTaskCount;
  q_HasTask := AdapterQueue_HasTask regex_match;
  q_IsOnLoop := λ _, false;
  q_WaitAll := λ q, (Some (-1), q);
  q_SetCurrentRunningTask := AdapterQueue_SetCurrentRunningTask;
  q_PushHistoryTask := AdapterQueue_PushHistoryTask;
  q_pending := λ q, mjoin (aq_whenMapVec q);
}.
End instances.

(** ** State *)

Definition SCHED_TIME_ACC_ERROR_US : Z := 5000.
Definition INVALID_GID : Z := 0.
Definition ALLOW_ACC_ERROR_US : Z := 10000.
Definition TIME_POINT_MAX : Z := 2 ^ 63 - 1.

(** [steady_clock::time_point() + microseconds(us)] *)
Definition tp_of_us (us : Z) : Z := i64 (us * 1000).

Record TimeoutQueueTask := mkTimeoutQueueTask {
  tq_taskGid : Z;
  tq_timeoutCnt : Z;
  tq_taskStatus : TaskStatus;
  tq_updateTime : Z;
}.

#[export] Instance TimeoutQueueTask_eta : Eta TimeoutQueueTask := λ t,
  mkTimeoutQueueTask (tq_taskGid t) (tq_timeoutCnt t) (tq_taskStatus t) (tq_updateTime t).

#[export] Instance TimeoutQueueTask_inhabited : Inhabited TimeoutQueueTask :=
  populate (mkTimeoutQueueTask 0 0 PENDING 0).

Record queue_attr_private := mk_queue_attr {
  qa_qos : Z;
  qa_timeout : Z;
  qa_maxConcurrency : Z;
  qa_timeoutCb : option tid;
  qa_threadMode : bool;
}.

Record QueueHandler (Q : Type) := mkQueueHandler {
  qh_qos : Z;
  qh_queue : option Q;
  qh_isUsed : bool;
  qh_execTaskId : Z;
  qh_maxConcurrency : Z;
  qh_curTaskVec : list (option tid);
  qh_timeout : Z;
  qh_timeoutTaskVec : list TimeoutQueueTask;
  qh_delayedCbCnt : Z;
  qh_timeoutCb : option tid;
  qh_traffic : TrafficRecord;
  qh_nextTp : Z;
  qh_schedDeadline : gmap tid Z;
  qh_deliverCnt : Z;
  qh_threadMode : bool;
  qh_queueType : Z;
  qh_isOnLoop : bool;
}.
Arguments mkQueueHandler {Q}.
Arguments qh_qos {Q}. Arguments qh_queue {Q}. Arguments qh_isUsed {Q}. Arguments qh_execTaskId {Q}.
Arguments qh_maxConcurrency {Q}. Arguments qh_curTaskVec {Q}. Arguments qh_timeout {Q}.
Arguments qh_timeoutTaskVec {Q}. Arguments qh_delayedCbCnt {Q}. Arguments qh_timeoutCb {Q}.
Arguments qh_traffic {Q}. Arguments qh_nextTp {Q}. Arguments qh_schedDeadline {Q}.
Arguments qh_deliverCnt {Q}. Arguments qh_threadMode {Q}. Arguments qh_queueType {Q}.
Arguments qh_isOnLoop {Q}.

#[export] Instance QueueHandler_eta Q : Eta (QueueHandler Q) := λ h,
  mkQueueHandler (qh_qos h) (qh_queue h) (qh_isUsed h) (qh_execTaskId h) (qh_maxConcurrency h)
    (qh_curTaskVec h) (qh_timeout h) (qh_timeoutTaskVec h) (qh_delayedCbCnt h) (qh_timeoutCb h)
    (qh_traffic h) (qh_nextTp h) (qh_schedDeadline h) (qh_deliverCnt h) (qh_threadMode h)
    (qh_queueType h) (qh_isOnLoop h).

(** ** Operations *)

Section handler.
Context {Q : Type} `{BaseQueueOps Q} `{DelayedOps} `{MonitorOps}.
Context (regex_match : string → string → bool).
(** The beta flag and message text of the traffic record, the id of the
    submitting thread where it is recorded, and how long a task runs. *)
Context (beta : bool) (message : TrafficRecord → string) (curTid : option Z) (duration : tid → Z).
Implicit Types (h : QueueHandler Q) (t : tid) (w : World).

Definition QueueHandler_ctor (attr : option queue_attr_private) (type : Z) (q : option Q) (w : World)
    : QueueHandler Q * World :=
  let qos := match attr with
             | Some a => if decide (qa_qos a >= qos_background) then qa_qos a else qos_default
             | None => qos_default end in
  let timeout := match attr with Some a => qa_timeout a | None => 0 end in
  let timeoutCb := match attr with Some a => qa_timeoutCb a | None => None end in
  let maxConcurrency := match attr with Some a => qa_maxConcurrency a | None => 1 end in
  let threadMode := match attr with Some a => qa_threadMode a | None => false end in
  let w := match timeoutCb with
           | Some cb => if decide (0 < timeout) then IncDeleteRef cb w else w
           | None => w end in
  let n := Z.to_nat maxConcurrency in
  let h := mkQueueHandler qos q false 0 maxConcurrency (replicate n None) timeout
             (replicate n inhabitant) 0 timeoutCb
             (SetTimeInterval beta DEFAULT_TRAFFIC_INTERVAL (w_cntvct w) TrafficRecord_ctor)
             TIME_POINT_MAX ∅ 0 threadMode type false in
  match q with
  | None => (h, w)
  | Some _ => (h, RegisterQueue w)
  end.

Definition GetTaskCnt h : Z := match qh_queue h with Some q => q_GetMapSize q | None => 0 end.
Definition GetQueueDueCount h w : Z :=
  match qh_queue h with Some q => q_GetDueTaskCount q w | None => 0 end.
Definition GetExecTaskId h : Z := u32 (qh_execTaskId h).

Definition handler_submit_traffic h w : QueueHandler Q * World :=
  let '(r, info, _) := SubmitTraffic beta message (GetTaskCnt h) (GetQueueDueCount h w) (w_cntvct w)
                         (qh_traffic h) (w_trafficRecordInfo w) in
  (h <| qh_traffic := r |>, w <| w_trafficRecordInfo := info |>).

Definition handler_done_traffic (count : Z) h : QueueHandler Q :=
  h <| qh_traffic ::= DoneTraffic beta count |>.

(** *** The tasks shown as current *)

Definition SetCurTask t h w : QueueHandler Q :=
  h <| qh_curTaskVec ::= <[qt_curTaskIdx (task_at w t) := Some t]> |>.

Definition UpdateCurTask t h w : QueueHandler Q * World :=
  match list_find (λ x, x = None) (qh_curTaskVec h) with
  | Some (i, _) => (h <| qh_curTaskVec ::= <[i := Some t]> |>,
                    upd_task t (λ q, q <| qt_curTaskIdx := i |>) w)
  | None => (h, w)
  end.

(** *** Schedule deadlines *)

Definition SendSchedTimer (tp : Z) w : World := snd (DelayedWakeup tp w).

(** [unordered_map::insert] keeps an existing entry. *)
Definition insert_deadline t (d : Z) (m : gmap tid Z) : gmap tid Z :=
  match m !! t with Some _ => m | None => <[t := d]> m end.

Definition AddSchedDeadline t h w : QueueHandler Q * World :=
  if decide (qh_queueType h ≠ ffrt_queue_serial ∧ qh_queueType h ≠ ffrt_queue_concurrent) then (h, w)
  else
    let taskTimeout := u64 (qt_schedTimeout (task_at w t) + qt_uptime (task_at w t)) in
    let tp := tp_of_us taskTimeout in
    let add h := h <| qh_schedDeadline ::= insert_deadline t taskTimeout |> in
    if decide (tp < qh_nextTp h) then
      if decide (qh_nextTp h = TIME_POINT_MAX) then
        (add (h <| qh_nextTp := tp |>), SendSchedTimer tp w)
      else
        let '(removed, w) := DelayedRemove (qh_nextTp h) w in
        if (removed : bool) then (add (h <| qh_nextTp := tp |>), SendSchedTimer tp w)
        else (h, if qt_hasTimeoutCb (task_at w t) then emit (EvTimeoutCb t) w else w)
    else (add h, w).

Definition RemoveSchedDeadline t h : QueueHandler Q := h <| qh_schedDeadline ::= delete t |>.

(** The callbacks of the reported tasks, in the order of [map_to_list]. *)
Definition ReportTimeout (l : list (tid * Z)) w : World :=
  foldl (λ w x, if qt_hasTimeoutCb (task_at w x.1) then emit (EvTimeoutCb x.1) w else w) w l.

Definition CheckSchedDeadline h w : QueueHandler Q * World :=
  let threshold := u64 (w_now w + SCHED_TIME_ACC_ERROR_US) in
  let expired := filter (λ x : tid * Z, x.2 < threshold) (map_to_list (qh_schedDeadline h)) in
  let rest := filter (λ x : tid * Z, threshold <= x.2) (qh_schedDeadline h) in
  let nextDeadline := foldr Z.min UINT64_MAX (snd <$> map_to_list rest) in
  let h := h <| qh_schedDeadline := rest |> in
  let '(h, w) := if decide (rest = ∅) then (h <| qh_nextTp := TIME_POINT_MAX |>, w)
                 else let tp := tp_of_us nextDeadline in
                      (h <| qh_nextTp := tp |>, SendSchedTimer tp w) in
  (h, ReportTimeout expired w).

(** *** Watchdog of one task *)

Definition SetTimeoutMonitor t h w : QueueHandler Q * World :=
  if decide (qh_timeout h <= 0) then (h, w)
  else
    let w := IncDeleteRef t w in
    let h := h <| qh_delayedCbCnt ::= Z.add 1 |> in
    let '(ok, w) := DelayedWakeup ((w_now w + qh_timeout h) * 1000) w in
    if (ok : bool) then (h, w)
    else (h <| qh_delayedCbCnt ::= Z.pred |>, DecDeleteRef t w).

(** The callback the delayed worker runs. *)
Definition TimeoutMonitor_cb t h w : QueueHandler Q * World :=
  let w := upd_task t (λ q, q <| qt_isWeStart := true |>) w in
  let w := if qt_isFinished (task_at w t) then w
           else match qh_timeoutCb h with
                | Some cb => emit (EvWatchdogCb t) (IncDeleteRef cb w)
                | None => w end in
  (h <| qh_delayedCbCnt ::= Z.pred |>, DecDeleteRef t w).

Definition RemoveTimeoutMonitor t (tp : Z) h w : QueueHandler Q * World :=
  if decide (qh_timeout h <= 0 ∨ qt_isWeStart (task_at w t) = true) then (h, w)
  else
    let '(removed, w) := DelayedRemove tp w in
    if (removed : bool) then (h <| qh_delayedCbCnt ::= Z.pred |>, DecDeleteRef t w) else (h, w).

(** *** Transfer to the scheduler *)

Definition TransferTask t h w : QueueHandler Q * World :=
  let h := if decide (qh_queueType h = ffrt_queue_eventhandler_adapter)
           then h <| qh_queue ::= fmap (q_SetCurrentRunningTask t w) |> else h in
  (h, QueueTask_Ready t w).

(** The init task is allocated at [alloc]. *)
Definition TransferInitTask (alloc : tid) h w : QueueHandler Q * World :=
  let w := QueueTask_ctor (bq_name ∘ q_base <$> qh_queue h) None false false alloc w in
  let w := QueueTask_SetQos alloc (qh_qos h) w in
  let '(h, w) := handler_submit_traffic h w in
  TransferTask alloc h w.

(** *** Submit *)

Definition Submit (alloc : tid) t h w : QueueHandler Q * World :=
  match qh_queue h with
  | None => (h, w)
  | Some _ =>
      let w := if decide (qt_qos (task_at w t) = qos_inherit ∨ qt_qos (task_at w t) = qos_default)
               then QueueTask_SetQos t (qh_qos h) w else w in
      let w := QueueTask_Prepare t w in
      let '(h, w) := handler_submit_traffic h w in
      let w := match curTid with
               | Some c => if decide (qh_queueType h = ffrt_queue_eventhandler_adapter)
                           then upd_task t (λ q, q <| qt_fromTid := c |>) w else w
               | None => w end in
      let '(h, w) := if decide (0 < qt_schedTimeout (task_at w t)) then AddSchedDeadline t h w
                     else (h, w) in
      match qh_queue h with
      | None => (h, w)
      | Some q =>
          let '(ret, q, w) := q_Push t q w in
          let h := h <| qh_queue := Some q |> in
          if decide (ret = SUCC ∨ ret = FAILED) then (h, w)
          else
            let h := h <| qh_isUsed := true |> in
            let '(h, w) :=
              if decide (qt_delay (task_at w t) = 0) then
                let '(h, w) := UpdateCurTask t h w in TransferTask t h w
              else
                let '(h, w) :=
                  if decide (ret = INACTIVE) then
                    let '(_, q, w) := q_Push t q w in (h <| qh_queue := Some q |>, w)
                  else (h, w) in
                TransferInitTask alloc h w in
            (h, UpdateQueueInfo w)
      end
  end.

(** *** Cancellation *)

Definition Cancel_all h w : QueueHandler Q * World :=
  match qh_queue h with
  | None => (h, w)
  | Some q =>
      let '(taskVec, q) := q_GetHeadTask q in
      let h := h <| qh_curTaskVec ::= fmap (λ c, if decide (c ∈ taskVec) then None else c) |>
                 <| qh_schedDeadline := ∅ |> in
      let '(count, q, w) := q_Remove q w in
      (handler_done_traffic count (h <| qh_queue := Some q |>), w)
  end.

(** The marking loop of [Cancel(name)]; [None] is the call of [IsMatch] on a
    null pointer. *)
Definition cancel_name_cur (name : string) w (taskVec : list (option tid))
    (curTaskVec : list (option tid)) : option (list (option tid)) :=
  foldl (λ acc task, cur ← acc;
    mapM (λ c, if decide (task = c) then
                 match task with
                 | None => None
                 | Some t => Some (if QueueTask_IsMatch regex_match name w t then None else c)
                 end
               else Some c) cur) (Some curTaskVec) taskVec.

Definition Cancel_name (name : string) h w : option (Z * QueueHandler Q * World) :=
  match qh_queue h with
  | None => Some (INACTIVE, h, w)
  | Some q =>
      let '(taskVec, q) := q_GetHeadTask q in
      cur ← cancel_name_cur name w taskVec (qh_curTaskVec h);
      let h := h <| qh_curTaskVec := cur |>
                 <| qh_schedDeadline ::= filter (λ x : tid * Z,
                      QueueTask_IsMatch regex_match name w x.1 = false) |> in
      let '(ret, q, w) := q_Remove_name name q w in
      let h := h <| qh_queue := Some q |> in
      let h := if decide (ret <= 0) then h else handler_done_traffic ret h in
      Some (if decide (0 < ret) then SUCC else FAILED, h, w)
  end.

(** The first slot that shows the task is cleared. *)
Definition clear_cur t (v : list (option tid)) : list (option tid) :=
  match list_find (λ x, x = Some t) v with Some (i, _) => <[i := None]> v | None => v end.

Definition Cancel_task t h w : Z * QueueHandler Q * World :=
  match qh_queue h with
  | None => (INACTIVE, h, w)
  | Some q =>
      let h := if decide (0 < qt_schedTimeout (task_at w t)) then RemoveSchedDeadline t h else h in
      let '(ret, q) := q_Remove_task t q w in
      let h := h <| qh_queue := Some q |> in
      if decide (ret = SUCC) then
        let h := h <| qh_curTaskVec ::= clear_cur t |> in
        (ret, handler_done_traffic 1 h, QueueTask_Cancel t w)
      else (ret, h, w)
  end.

Definition CheckExecutingTask h w : bool :=
  existsb (λ c, match c with
                | Some t => bool_decide (qt_curStatus (task_at w t) = EXECUTING)
                | None => false end) (qh_curTaskVec h).

(** [CancelAndWait] up to its wait loop, and the test of the loop. *)
Definition CancelAndWait h w : QueueHandler Q * World :=
  match qh_queue h with
  | None => (h, w)
  | Some q =>
      let h := h <| qh_curTaskVec ::= fmap (λ c, match c with
                 | Some t => if decide (qt_curStatus (task_at w t) ≠ EXECUTING) then None else c
                 | None => None end) |>
                 <| qh_schedDeadline := ∅ |> in
      let '(q, w) := q_Stop q w in
      (h <| qh_queue := Some q |>, w)
  end.

Definition CancelAndWait_waiting h w : bool :=
  match qh_queue h with
  | None => false
  | Some q => CheckExecutingTask h w || q_GetActiveStatus q || bool_decide (0 < qh_deliverCnt h)
  end.

(** *** Delivery and dispatch *)

(** [Deliver] before [Pull]; [None] is a store through a null task. *)
Definition Deliver_enter h w : option (QueueHandler Q * World) :=
  let h := h <| qh_deliverCnt ::= Z.add 1 |> in
  match qh_queue h with
  | None => None
  | Some q =>
      let '(taskMap, q) := q_GetHeadTask q in
      let h := h <| qh_queue := Some q |> in
      match list_find (λ x, x ∉ qh_curTaskVec h) taskMap with
      | Some (_, Some t) => Some (UpdateCurTask t h w)
      | Some (_, None) => if decide (None ∈ qh_curTaskVec h) then None else Some (h, w)
      | None => Some (h, w)
      end
  end.

(** [Deliver] after [Pull] returned [task]. *)
Definition Deliver_leave (task : option tid) h w : QueueHandler Q * World :=
  let h := h <| qh_deliverCnt ::= Z.pred |> in
  match task with
  | Some t => TransferTask t (SetCurTask t h w) w
  | None => (h, w)
  end.

(** One round of the loop of [Dispatch], up to the choice of the next task. *)
Definition Dispatch_one (inTask t : tid) h w : QueueHandler Q * World * option tid :=
  let tp := (w_now w + qh_timeout h) * 1000 in   (* monitorWe_->tp *)
  let '(h, w) := SetTimeoutMonitor t h w in
  let h := SetCurTask t h w in
  let h := h <| qh_execTaskId := qt_gid (task_at w t) |> in
  let w := SetStatus EXECUTING t w in
  let h := if decide (0 < qt_schedTimeout (task_at w t)) then RemoveSchedDeadline t h else h in
  let triggerTime := w_now w in
  let w := emit (EvExec t) (w <| w_now ::= Z.add (duration t) |>) in
  let h := if decide (qh_queueType h = ffrt_queue_eventhandler_adapter)
           then h <| qh_queue ::= fmap (q_PushHistoryTask t triggerTime (w_now w) w) |> else h in
  let w := if decide (t = inTask) then w else SetStatus FINISH t w in
  let w := QueueTask_Finish t w in
  let '(h, w) := RemoveTimeoutMonitor t tp h w in
  let h := handler_done_traffic 1 h in
  let nextTask := qt_nextTask (task_at w t) in
  let h := h <| qh_curTaskVec ::= <[qt_curTaskIdx (task_at w t) := nextTask]> |> in
  let w := DecDeleteRef t w in
  let h := match nextTask with
           | None => if qh_isOnLoop h then h else h <| qh_execTaskId := 0 |>
           | Some _ => h end in
  (h, w, nextTask).

(** The chain of one dispatch; [None] when the fuel is too small for the chain. *)
Fixpoint Dispatch_chain (fuel : nat) (inTask t : tid) h w : option (QueueHandler Q * World) :=
  match fuel with
  | O => None
  | S fuel =>
      match Dispatch_one inTask t h w with
      | (h, w, Some next) => Dispatch_chain fuel inTask next h w
      | (h, w, None) => Some (h, w)
      end
  end.

(** [QueueTask::Execute] around [Dispatch]; the result tells whether [Deliver]
    runs next. *)
Definition QueueTask_Execute (fuel : nat) t h w : option (QueueHandler Q * World * bool) :=
  let w := IncDeleteRef t w in
  if qt_isFinished (task_at w t) then Some (h, DecDeleteRef t w, false)
  else '(h, w) ← Dispatch_chain fuel t t h w; Some (h, w, negb (qh_isOnLoop h)).

(** The end of [Dispatch] and of [Execute], after [Deliver]. *)
Definition QueueTask_Execute_end t w : World := DecDeleteRef t (SetStatus FINISH t w).

(** *** Timeout evaluation *)

Definition ControlTimeoutFreq (timeoutCnt : Z) : bool :=
  bool_decide (timeoutCnt < 10) ||
  (bool_decide (timeoutCnt < 100) && bool_decide (timeoutCnt `mod` 10 = 0)) ||
  bool_decide (timeoutCnt `mod` 100 = 0).

(** One slot: the reported gid, the candidate for the next inspection time, the
    new record of the slot, and whether a report is written. *)
Definition evaluate_slot (timeoutThreshold : Z) (delaying : bool) (taskCnt : Z) w
    (cur : option tid) (info : TimeoutQueueTask) : Z * Z * TimeoutQueueTask * bool :=
  match cur with
  | None => (INVALID_GID, UINT64_MAX, info, false)
  | Some t =>
      let q := task_at w t in
      let curTaskTime := qt_statusTime q in
      let now := w_cntvct w in
      if decide (curTaskTime = 0 ∨ delaying = true ∨
                 (qt_curStatus q = ENQUEUED ∧ now < u64 (curTaskTime + qt_delay q + ALLOW_ACC_ERROR_US)))
      then (INVALID_GID, if decide (0 < taskCnt) then now else UINT64_MAX, info, false)
      else if decide (timeoutThreshold < curTaskTime) then (INVALID_GID, curTaskTime, info, false)
      else if decide (qt_gid q = tq_taskGid info ∧ qt_curStatus q = tq_taskStatus info) then
        if decide (tq_updateTime info < timeoutThreshold) then
          let info := info <| tq_timeoutCnt ::= λ n, u64 (n + 1) |> <| tq_updateTime := now |> in
          (tq_taskGid info, tq_updateTime info, info, ControlTimeoutFreq (tq_timeoutCnt info))
        else (INVALID_GID, tq_updateTime info, info, false)
      else
        let info := mkTimeoutQueueTask (qt_gid q) 1 (qt_curStatus q) now in
        (tq_taskGid info, tq_updateTime info, info, ControlTimeoutFreq (tq_timeoutCnt info))
  end.

Definition EvaluateTaskTimeout (timeoutThreshold : Z) h w
    : list Z * Z * list bool * QueueHandler Q :=
  let delaying := match qh_queue h with Some q => bq_delayStatus (q_base q) | None => false end in
  let slots := zip_with (evaluate_slot timeoutThreshold delaying (GetTaskCnt h) w)
                 (qh_curTaskVec h) (qh_timeoutTaskVec h) in
  ((λ s, s.1.1.1) <$> slots, foldr Z.min UINT64_MAX ((λ s, s.1.1.2) <$> slots), snd <$> slots,
   h <| qh_timeoutTaskVec := (λ s, s.1.2) <$> slots |>).
End handler.

(** *** Members that look at the queue type *)

Section loop.
Implicit Types (h : QueueHandler ConcurrentQueue).

Definition QueueHandler_SetLoop (loopNull : bool) h : bool * QueueHandler ConcurrentQueue :=
  match qh_queue h with
  | None => (false, h)
  | Some q =>
      if decide (qh_queueType h = ffrt_queue_eventhandler_interactive) then (true, h)
      else if decide (qh_queueType h ≠ ffrt_queue_concurrent) then (false, h)
      else let '(ret, q) := ConcurrentQueue_SetLoop loopNull q in
           let h := h <| qh_queue := Some q |> in
           (ret, if ret then h <| qh_isOnLoop := true |> else h)
  end.

Definition QueueHandler_ClearLoop h : bool * QueueHandler ConcurrentQueue :=
  match qh_queue h with
  | None => (false, h)
  | Some q =>
      if decide (qh_queueType h ≠ ffrt_queue_concurrent) then (false, h)
      else let '(ret, q) := ConcurrentQueue_ClearLoop q in
           let h := h <| qh_queue := Some q |> in
           (ret, if ret then h <| qh_isOnLoop := false |> else h)
  end.

Definition IsValidForLoop h : bool :=
  negb (qh_isUsed h) && (bool_decide (qh_queueType h = ffrt_queue_concurrent) ||
                         bool_decide (qh_queueType h = ffrt_queue_eventhandler_interactive)).
End loop.

Definition QueueHandler_IsIdle (h : QueueHandler AdapterQueue) : bool :=
  match qh_queue h with
  | None => false
  | Some q => if decide (qh_queueType h ≠ ffrt_queue_eventhandler_adapter) then false
              else AdapterQueue_IsIdle q
  end.

Definition QueueHandler_DumpSize (priority : Z) (h : QueueHandler AdapterQueue) : Z :=
  match qh_queue h with
  | None => -1
  | Some q => if decide (qh_queueType h ≠ ffrt_queue_eventhandler_adapter) then -1
              else AdapterQueue_DumpSize priority q
  end.

(** ** Cancelling one task *)

Lemma QueueTask_Cancel_effect t w :
  in_store w t →
  let w' := QueueTask_Cancel t w in
  qt_curStatus (task_at w' t) = CANCELED ∧ qt_isFinished (task_at w' t) = true ∧
  (qt_onWait (task_at w t) = true → EvWakeWaiters t ∈ w_trace w').
Proof.
  intros Ht. unfold QueueTask_Cancel, QueueTask_Destroy.
  rewrite DecDeleteRef_task_at, !(task_at_upd_proj qt_curStatus), !(task_at_upd_proj qt_isFinished) by done.
  rewrite destroy_func_task_at, QueueTask_Notify_task_at.
  split_and!.
  - rewrite task_at_upd_proj by done. unfold SetStatus. rewrite task_at_upd, decide_True by done. done.
  - rewrite task_at_upd, decide_True; [done|]. split; [done|]. by apply upd_task_in_store.
  - intros Hw.
    assert (Hin : EvWakeWaiters t ∈ w_trace (QueueTask_Notify t (SetStatus CANCELED t w))).
    { unfold QueueTask_Notify. unfold SetStatus. rewrite !(task_at_upd_proj qt_onWait) by done.
      rewrite Hw. simpl. set_solver. }
    unfold DecDeleteRef, QueueTask_FreeMem, destroy_func.
    repeat case_match; simpl; rewrite ?elem_of_app; auto.
Qed.

Section laws.
Context (regex_match : string → string → bool) (sort : whenmap → whenmap).

#[export] Instance SerialQueue_law :
  @RemoveTaskLaw SerialQueue (SerialQueue_ops regex_match).
Proof.
  intros t q w r q' Hr. simpl in Hr. unfold BaseQueue_Remove_task in Hr.
  destruct (BaseQueue_Remove_task_map _ _ _ _) as [r0 m'] eqn:Hm. injection Hr as <- <-. simpl.
  apply BaseQueue_Remove_task_map_cases in Hm as [[-> ->]|(-> & _ & l1 & l2 & -> & ->)]; [by right|].
  left. split; [done|]. eexists. symmetry. apply Permutation_middle.
Qed.

Lemma remove_task_maps_perm t b maps w maps' :
  remove_task_maps t b maps w = Some maps' → ∃ k, mjoin maps ≡ₚ (k, t) :: mjoin maps'.
Proof.
  revert maps'. induction maps as [|m maps IH]; intros maps' H; simpl in H; [done|].
  destruct (BaseQueue_Remove_task_map t b m w) as [r m1] eqn:H1. case_decide as Hr.
  - injection H as <-.
    apply BaseQueue_Remove_task_map_cases in H1 as [[-> _]|(_ & _ & l1 & l2 & -> & ->)]; [done|].
    eexists. simpl. rewrite <-!app_assoc. symmetry. apply Permutation_middle.
  - apply fmap_Some in H as (maps1 & H2 & ->). destruct (IH _ H2) as [k Hk]. exists k. simpl.
    rewrite Hk. symmetry. apply Permutation_middle.
Qed.

#[export] Instance ConcurrentQueue_law `{LoopOps} :
  @RemoveTaskLaw ConcurrentQueue (ConcurrentQueue_ops regex_match sort).
Proof.
  intros t q w r q' Hr. simpl in Hr. unfold ConcurrentQueue_Remove_task in Hr. simpl.
  destruct (remove_task_maps t (cq_base q) (cq_whenMapVec q) w) as [maps|] eqn:Hm.
  - injection Hr as <- <-. left. split; [done|]. apply remove_task_maps_perm in Hm as [k Hk].
    exists k. simpl. by rewrite Hk.
  - destruct (BaseQueue_Remove_task_map _ _ _ _) as [r0 m'] eqn:Hm'. injection Hr as <- <-. simpl.
    apply BaseQueue_Remove_task_map_cases in Hm' as [[-> ->]|(-> & _ & l1 & l2 & -> & ->)]; [by right|].
    left. split; [done|]. eexists. rewrite !app_assoc. symmetry. apply Permutation_middle.
Qed.
End laws.

(** cancelling a task is all or nothing, on every queue that keeps the
    contract of [Remove]: on success exactly this task has left the queue, it is
    marked cancelled and finished and its waiters are woken; otherwise the
    queue's tasks and the world are unchanged. *)
Theorem Cancel_task_all_or_nothing {Q} `{RemoveTaskLaw Q} beta t (h : QueueHandler Q) q w r h' w' :
  qh_queue h = Some q → in_store w t →
  Cancel_task beta t h w = (r, h', w') →
  ∃ q', qh_queue h' = Some q' ∧
    (r = SUCC ∧ (∃ k, q_pending q ≡ₚ (k, t) :: q_pending q') ∧
       qt_curStatus (task_at w' t) = CANCELED ∧ qt_isFinished (task_at w' t) = true ∧
       (qt_onWait (task_at w t) = true → EvWakeWaiters t ∈ w_trace w') ∨
     r = FAILED ∧ q_pending q' ≡ₚ q_pending q ∧ w' = w).
Proof.
  intros Hq Ht Hc. unfold Cancel_task in Hc. rewrite Hq in Hc.
  destruct (q_Remove_task t q w) as [ret q'] eqn:Hr.
  destruct (QueueTask_Cancel_effect t w Ht) as (E1 & E2 & E3).
  destruct (q_Remove_task_law _ _ _ _ _ Hr) as [[-> Hp]|[-> Hp]]; simpl in Hc; injection Hc as <- <- <-.
  - exists q'. split; [done|]. left. by split_and!.
  - exists q'. split; [done|]. right. by split_and!.
Qed.

Definition sample_handler {Q} (q : Q) (type n : Z) : QueueHandler Q :=
  mkQueueHandler qos_default (Some q) false 0 n (replicate (Z.to_nat n) None) 0
    (replicate (Z.to_nat n) inhabitant) 0 None TrafficRecord_ctor TIME_POINT_MAX ∅ 0 false type false.

Definition sample_serial (m : whenmap) : SerialQueue :=
  (SerialQueue_ctor 0 None) <| sq_base ::= λ b, b <| bq_isActiveState := true |> <| bq_whenMap := m |> |>.

Lemma Cancel_task_all_or_nothing_witness :
  ∃ h' w', @Cancel_task _ (SerialQueue_ops no_regex) false 1%positive
      (sample_handler (sample_serial [(0, 1%positive)]) 0 1) sample_world = (SUCC, h', w') ∧
    qt_curStatus (task_at w' 1%positive) = CANCELED.
Proof.
  destruct (@Cancel_task _ (SerialQueue_ops no_regex) false 1%positive
      (sample_handler (sample_serial [(0, 1%positive)]) 0 1) sample_world) as [[r h'] w'] eqn:Hc.
  exists h', w'.
  assert (Hr : r = SUCC) by (vm_compute in Hc; by injection Hc as <- _ _).
  subst r. split; [reflexivity|].
  destruct (@Cancel_task_all_or_nothing _ _ (SerialQueue_law no_regex) false 1%positive
    (sample_handler (sample_serial [(0, 1%positive)]) 0 1) _ sample_world _ _ _
    eq_refl ltac:(eexists; reflexivity) Hc) as (q' & _ & [(_ & _ & Hs & _)|[Hf _]]).
  - exact Hs.
  - discriminate.
Defined.

(** on an adapter queue [Cancel(task)] breaks that contract: the task is
    taken out of the queue, but it is neither cancelled nor finished, its waiters
    are not woken and the result is not [SUCC]. *)
Theorem adapter_cancel_loses_task regex_match beta t (h : QueueHandler AdapterQueue) q w :
  qh_queue h = Some q → qt_schedTimeout (task_at w t) = 0 →
  bq_isExit (aq_base q) = false → Forall mm_sorted (aq_whenMapVec q) →
  length (aq_whenMapVec q) = 5%nat → length (holding t w (aq_whenMapVec q)) = 1%nat →
  ∃ h' q', @Cancel_task _ (AdapterQueue_ops regex_match) beta t h w = (4, h', w) ∧
    qh_queue h' = Some q' ∧ holding t w (aq_whenMapVec q) ≠ [] ∧
    Forall2 (λ m m', if decide ((qt_uptime (task_at w t), t) ∈ m)
                     then (qt_uptime (task_at w t), t) :: m' ≡ₚ m else m' = m)
      (aq_whenMapVec q) (aq_whenMapVec q').
Proof.
  intros Hq Hs He Hso Hl Hh. unfold Cancel_task. rewrite Hq, Hs. simpl.
  unfold AdapterQueue_Remove_task.
  destruct (adapter_remove_task_maps t (aq_base q) (aq_whenMapVec q) w) as [n maps'] eqn:Hr.
  destruct (adapter_remove_task_sum _ _ _ _ _ _ He Hso Hr) as [-> HF]. rewrite Hl, Hh.
  eexists _, (q <| aq_whenMapVec := maps' |>). split_and!; [reflexivity|done| |exact HF].
  intros E. by rewrite E in Hh.
Qed.

Lemma adapter_cancel_loses_task_witness :
  ∃ h' q', @Cancel_task _ (AdapterQueue_ops no_regex) false 1%positive
      (sample_handler (sample_adapter [[]; [(0, 1%positive)]; []; []; []]) 4 1) sample_world
      = (4, h', sample_world) ∧ qh_queue h' = Some q'.
Proof.
  destruct (adapter_cancel_loses_task no_regex false 1%positive
    (sample_handler (sample_adapter [[]; [(0, 1%positive)]; []; []; []]) 4 1) _ sample_world eq_refl)
    as (h' & q' & H1 & H2 & _).
  - reflexivity.
  - reflexivity.
  - simpl. repeat constructor.
  - reflexivity.
  - vm_compute. reflexivity.
  - exists h', q'. split; [exact H1|exact H2].
Defined.

(** ** Cancelling by name on a concurrent queue *)

Lemma mapM_None_elem {A B} (f : A → option B) l x : x ∈ l → f x = None → mapM f l = None.
Proof.
  intros Hx Hf. apply mapM_None. apply Exists_exists. eauto.
Qed.

Lemma mapM_keeps_None (f : option tid → option (option tid)) l l' :
  f None = Some None → None ∈ l → mapM f l = Some l' → None ∈ l'.
Proof.
  intros Hf Hin Hm. apply mapM_Some in Hm. apply list_elem_of_lookup in Hin as [i Hi].
  destruct (Forall2_lookup_l _ _ _ _ _ Hm Hi) as (y & Hy & Hfy). rewrite Hf in Hfy. simplify_eq.
  by eapply list_elem_of_lookup_2.
Qed.

(** A null head task meets a null slot: the name of a null task is read. *)
Lemma cancel_name_cur_null regex_match name w taskVec cur :
  None ∈ taskVec → None ∈ cur → cancel_name_cur regex_match name w taskVec cur = None.
Proof.
  unfold cancel_name_cur. revert cur.
  assert (Hnone : ∀ l, foldl (λ acc task, cur ← acc;
    mapM (λ c, if decide (task = c) then
                 match task with
                 | None => None
                 | Some t => Some (if QueueTask_IsMatch regex_match name w t then None else c)
                 end
               else Some c) cur) None l = None) by (induction l; done).
  induction taskVec as [|task taskVec IH]; intros cur Htv Hcur; [by apply elem_of_nil in Htv|].
  simpl. destruct task as [t|].
  - apply elem_of_cons in Htv as [?|Htv]; [done|].
    destruct (mapM _ cur) as [cur'|] eqn:Hm; [|apply Hnone].
    apply IH; [done|]. eapply mapM_keeps_None; [|exact Hcur|exact Hm].
    done.
  - rewrite (mapM_None_elem _ cur None); [apply Hnone|done|done].
Qed.

(** [Cancel(name)] on a concurrent queue dereferences a null task whenever
    tasks are pending, fewer than the maximal concurrency, and a slot of the
    current tasks is free: [GetHeadTask] pads its result with null pointers and
    the null slot compares equal to the padding. *)
Theorem Cancel_name_null_deref `{LoopOps} regex_match sort beta name h q w :
  (∀ m, sort m ≡ₚ m) →
  qh_queue h = Some q → length (cq_whenMapVec q) = 4%nat →
  (0 < length (mjoin (cq_whenMapVec q)))%nat →
  Z.of_nat (length (mjoin (cq_whenMapVec q))) < cq_maxConcurrency q →
  None ∈ qh_curTaskVec h →
  @Cancel_name _ (ConcurrentQueue_ops regex_match sort) regex_match beta name h w = None.
Proof.
  intros Hsort Hq Hlen Hpos Hlt Hcur. unfold Cancel_name. rewrite Hq. simpl.
  unfold ConcurrentQueue_GetHeadTask.
  destruct (cq_whenMapVec q) as [|m0 [|m1 [|m2 [|m3 []]]]] eqn:Hv; try done.
  assert (WhenMapVecEmpty [m0; m1; m2; m3] = false) as ->.
  { unfold WhenMapVecEmpty, map_at. simpl in *. destruct m0, m1, m2, m3; try done. simpl in Hpos. lia. }
  set (all := sort _).
  set (v := (λ i, snd <$> all !! i) <$> seq 0 (Z.to_nat (cq_maxConcurrency q))).
  assert (Hall : (length all <= length (mjoin [m0; m1; m2; m3]))%nat).
  { unfold all. rewrite Hsort. unfold map_at. simpl. rewrite !length_app, !length_take. simpl. lia. }
  rewrite cancel_name_cur_null; [done| |done].
  unfold v. apply list_elem_of_fmap. exists (length all). split.
  - by rewrite lookup_ge_None_2.
  - apply elem_of_seq. lia.
Qed.

(** The state reached by submitting one delayed task to a fresh queue of
    concurrency 2. *)
#[local] Instance no_loop : LoopOps := {| loop_WakeUp := λ w, w; loop_TimerStart := λ _ _ w, (-1, w) |}.
#[local] Instance no_delayed : DelayedOps := {| DelayedWakeup := λ _ w, (true, w); DelayedRemove := λ _ w, (true, w) |}.
#[local] Instance no_monitor : MonitorOps :=
  {| RegisterQueue := λ w, w; DeregisterQueue := λ w, w; UpdateQueueInfo := λ w, w |}.

Definition delayed_concurrent : QueueHandler ConcurrentQueue * World :=
  @Submit _ (ConcurrentQueue_ops no_regex (λ m, m)) _ _ false (λ _, "") None 9%positive 1%positive
    (sample_handler (CreateConcurrentQueue 0 None 2) ffrt_queue_concurrent 2) delayed_world.

Lemma Cancel_name_null_deref_witness :
  @Cancel_name _ (ConcurrentQueue_ops no_regex (λ m, m)) no_regex false "t"
    delayed_concurrent.1 delayed_concurrent.2 = None.
Proof.
  eapply (Cancel_name_null_deref no_regex (λ m, m)).
  - reflexivity.
  - vm_compute. reflexivity.
  - reflexivity.
  - vm_compute. lia.
  - vm_compute. reflexivity.
  - vm_compute. left.
Defined.

(** ** Schedule deadlines *)

(** A deadline whose time point fits the clock's 64-bit nanoseconds. *)
Definition deadline_ok (d : Z) : Prop := 0 <= d ∧ d * 1000 <= TIME_POINT_MAX.

Lemma tp_of_us_ok d : deadline_ok d → tp_of_us d = d * 1000.
Proof. unfold deadline_ok, TIME_POINT_MAX. intros. apply sw_small; lia. Qed.

(** The timer is set no later than any recorded deadline. *)
Definition deadlines_covered {Q} (h : QueueHandler Q) : Prop :=
  ∀ t d, qh_schedDeadline h !! t = Some d → deadline_ok d ∧ qh_nextTp h <= tp_of_us d.

Lemma insert_deadline_lookup t d m t' d' :
  insert_deadline t d m !! t' = Some d' → m !! t' = Some d' ∨ (t' = t ∧ d' = d).
Proof.
  unfold insert_deadline. destruct (m !! t); [by left|].
  destruct (decide (t = t')) as [<-|].
  - rewrite lookup_insert_eq. intros [= <-]. by right.
  - rewrite lookup_insert_ne by done. by left.
Qed.

Lemma foldr_min_spec (l : list Z) (z : Z) :
  (∀ x, x ∈ l → foldr Z.min z l <= x) ∧ (foldr Z.min z l = z ∨ foldr Z.min z l ∈ l).
Proof.
  induction l as [|y l [IH1 IH2]]; simpl; [split; [set_solver|by left]|]. split.
  - intros x [->|Hx]%elem_of_cons; [lia|]. specialize (IH1 x Hx). lia.
  - destruct (Z.min_spec y (foldr Z.min z l)) as [[_ ->]|[_ ->]]; [right; by left|].
    destruct IH2 as [?|?]; [by left|right; by right].
Qed.

Section deadline.
Context {Q : Type} `{DelayedOps}.
Implicit Types (h : QueueHandler Q).

Lemma AddSchedDeadline_covered t h w h' w' :
  deadlines_covered h →
  deadline_ok (qt_schedTimeout (task_at w t) + qt_uptime (task_at w t)) →
  AddSchedDeadline t h w = (h', w') → deadlines_covered h'.
Proof.
  intros Hc Hok. unfold AddSchedDeadline. case_decide; [by intros [= <- <-]|].
  rewrite u64_id by (unfold deadline_ok, TIME_POINT_MAX, is_u64, UINT64_MAX in *; lia).
  set (d := qt_schedTimeout _ + qt_uptime _) in *.
  assert (Hadd : ∀ n, n <= tp_of_us d → n <= qh_nextTp h →
    deadlines_covered (h <| qh_nextTp := n |> <| qh_schedDeadline ::= insert_deadline t d |>)).
  { intros n Hn1 Hn2 t' d' [Hd|[-> ->]]%insert_deadline_lookup; [|done].
    destruct (Hc _ _ Hd). simpl. split; [done|lia]. }
  case_decide as Hlt.
  - case_decide as Hmax; [intros [= <- <-]; apply (Hadd (tp_of_us d)); [reflexivity|lia]|].
    destruct (DelayedRemove _ _) as [[] w1]; intros [= <- <-]; [apply (Hadd (tp_of_us d)); [reflexivity|lia]|done].
  - intros [= <- <-]. apply (Hadd (qh_nextTp h)); [lia|reflexivity].
Qed.

Lemma CheckSchedDeadline_spec h w h' w' :
  deadlines_covered h → CheckSchedDeadline h w = (h', w') →
  deadlines_covered h' ∧
  qh_schedDeadline h' =
    filter (λ x : tid * Z, u64 (w_now w + SCHED_TIME_ACC_ERROR_US) <= x.2) (qh_schedDeadline h) ∧
  (qh_schedDeadline h' = ∅ → qh_nextTp h' = TIME_POINT_MAX) ∧
  (qh_schedDeadline h' ≠ ∅ → ∃ t d, qh_schedDeadline h' !! t = Some d ∧ qh_nextTp h' = tp_of_us d).
Proof.
  intros Hc. unfold CheckSchedDeadline.
  set (rest := filter _ (qh_schedDeadline h)).
  set (nd := foldr _ _ (snd <$> map_to_list rest)).
  assert (Hsub : ∀ t d, rest !! t = Some d → qh_schedDeadline h !! t = Some d)
    by (intros t d Hd; apply map_lookup_filter_Some in Hd; tauto).
  destruct (foldr_min_spec (snd <$> map_to_list rest) UINT64_MAX) as [Hmin Hat]. fold nd in Hmin, Hat.
  assert (Hle : ∀ t d, rest !! t = Some d → nd <= d).
  { intros t d Hd. apply Hmin, list_elem_of_fmap. exists (t, d).
    split; [done|by apply elem_of_map_to_list]. }
  case_decide as Hemp; intros [= <- <-]; simpl.
  - split_and!; [|done|done|done]. intros t d Hd. simpl in Hd. rewrite Hemp in Hd. by rewrite lookup_empty in Hd.
  - assert (Hex : ∃ t, rest !! t = Some nd).
    { destruct (map_choose rest Hemp) as (t0 & d0 & Hd0).
      destruct Hat as [Hmax|Hin].
      - exfalso. specialize (Hle _ _ Hd0). destruct (Hc _ _ (Hsub _ _ Hd0)) as [[_ Hd] _].
        unfold TIME_POINT_MAX, UINT64_MAX in *. lia.
      - apply list_elem_of_fmap in Hin as ([t1 d1] & -> & Hin). exists t1.
        by apply elem_of_map_to_list in Hin. }
    destruct Hex as [t1 Ht1]. destruct (Hc _ _ (Hsub _ _ Ht1)) as [Hok1 _].
    split_and!; [|done|done|by eauto]. intros t d Hd. simpl in *.
    destruct (Hc _ _ (Hsub _ _ Hd)) as [Hok _]. specialize (Hle _ _ Hd).
    rewrite !tp_of_us_ok by done. split; [done|lia].
Qed.
End deadline.

(** schedule deadlines are never missed: every operation keeps the timer at
    or before the earliest recorded deadline, and when it fires exactly the
    tasks due within the tolerance are dropped and the timer is set to the
    earliest of the others. *)
Theorem sched_deadline_timer `{DelayedOps} {Q} (h : QueueHandler Q) w t :
  deadlines_covered h →
  deadline_ok (qt_schedTimeout (task_at w t) + qt_uptime (task_at w t)) →
  deadlines_covered (AddSchedDeadline t h w).1 ∧
  deadlines_covered (RemoveSchedDeadline t h) ∧
  deadlines_covered (CheckSchedDeadline h w).1 ∧
  (∀ t' d, qh_schedDeadline (CheckSchedDeadline h w).1 !! t' = Some d ↔
     qh_schedDeadline h !! t' = Some d ∧ u64 (w_now w + SCHED_TIME_ACC_ERROR_US) <= d) ∧
  (qh_schedDeadline (CheckSchedDeadline h w).1 ≠ ∅ →
     ∃ t' d, qh_schedDeadline (CheckSchedDeadline h w).1 !! t' = Some d ∧
       qh_nextTp (CheckSchedDeadline h w).1 = tp_of_us d).
Proof.
  intros Hc Hok.
  destruct (AddSchedDeadline t h w) as [h1 w1] eqn:H1. destruct (CheckSchedDeadline h w) as [h2 w2] eqn:H2.
  simpl. destruct (CheckSchedDeadline_spec _ _ _ _ Hc H2) as (Hc2 & Hf & _ & Hn).
  split_and!; [exact (AddSchedDeadline_covered _ _ _ _ _ Hc Hok H1)| |done| |done].
  - intros t' d Hd. simpl in Hd. apply lookup_delete_Some in Hd as [_ Hd].
    exact (Hc _ _ Hd).
  - intros t' d. rewrite Hf. apply map_lookup_filter_Some.
Qed.

Lemma sched_deadline_timer_witness :
  let h := (sample_handler (sample_serial []) 0 1) <| qh_schedDeadline := {[2%positive := 700]} |>
             <| qh_nextTp := 700000 |> in
  deadlines_covered (AddSchedDeadline 1%positive h sample_world).1.
Proof.
  intros h. refine (proj1 (sched_deadline_timer h sample_world 1%positive _ _)).
  - intros t d. simpl. rewrite lookup_singleton_Some. intros [<- <-]. vm_compute. split; [split|]; discriminate.
  - vm_compute. split; discriminate.
Defined.

(** ** Dispatching a chain *)

Definition execs (tr : list Event) : list tid :=
  omap (λ e, match e with EvExec t => Some t | _ => None end) tr.
Definition frees (tr : list Event) : list tid :=
  omap (λ e, match e with EvFree t => Some t | _ => None end) tr.

Lemma execs_app a b : execs (a ++ b) = execs a ++ execs b.
Proof. apply omap_app. Qed.

Lemma frees_app a b : frees (a ++ b) = frees a ++ frees b.
Proof. apply omap_app. Qed.

(** What an operation on [t] leaves of the other tasks, and what it adds to the
    executed and freed ones. *)
Definition only_task (t : tid) (w w' : World) (ex fr : list tid) : Prop :=
  (∀ t', t' ≠ t → task_at w' t' = task_at w t') ∧
  (∀ t', in_store w' t' ↔ in_store w t') ∧
  execs (w_trace w') = execs (w_trace w) ++ ex ∧
  frees (w_trace w') = frees (w_trace w) ++ fr.

Lemma only_task_trans t w1 w2 w3 e1 e2 f1 f2 :
  only_task t w1 w2 e1 f1 → only_task t w2 w3 e2 f2 → only_task t w1 w3 (e1 ++ e2) (f1 ++ f2).
Proof.
  intros (A1 & B1 & C1 & D1) (A2 & B2 & C2 & D2). split_and!.
  - intros t' Ht'. by rewrite A2, A1.
  - intros t'. by rewrite B2, B1.
  - by rewrite C2, C1, app_assoc.
  - by rewrite D2, D1, app_assoc.
Qed.

Lemma only_task_upd t f w : only_task t w (upd_task t f w) [] [].
Proof.
  split_and!; [|intros; apply upd_task_in_store|by rewrite app_nil_r|by rewrite app_nil_r].
  intros t' Ht'. rewrite task_at_upd, decide_False; [done|naive_solver].
Qed.

Lemma only_task_emit t e w : only_task t w (emit e w) (execs [e]) (frees [e]).
Proof. split_and!; [done|done|simpl; apply execs_app|simpl; apply frees_app]. Qed.

Lemma only_task_refl t w : only_task t w w [] [].
Proof. split_and!; [done|done|by rewrite app_nil_r|by rewrite app_nil_r]. Qed.

Lemma only_task_now t f w : only_task t w (w <| w_now ::= f |>) [] [].
Proof. split_and!; [done|done|simpl; by rewrite app_nil_r|simpl; by rewrite app_nil_r]. Qed.

Lemma only_task_destroy t w : only_task t w (destroy_func t w) [] [].
Proof. unfold destroy_func. case_match; [apply (only_task_emit t (EvDestroy t))|apply only_task_refl]. Qed.

Lemma only_task_Finish t w : only_task t w (QueueTask_Finish t w) [] [].
Proof.
  unfold QueueTask_Finish, QueueTask_Notify.
  eapply (only_task_trans _ _ _ _ [] [] [] []); [apply only_task_destroy|].
  case_match; [|apply only_task_upd].
  eapply (only_task_trans _ _ _ _ [] [] [] []); [apply only_task_upd|apply (only_task_emit t (EvWakeWaiters t))].
Qed.

Lemma only_task_Dec t w :
  only_task t w (DecDeleteRef t w) [] (if decide (qt_rc (task_at w t) = 1) then [t] else []).
Proof.
  unfold DecDeleteRef, QueueTask_FreeMem. case_decide; [|apply only_task_upd].
  eapply (only_task_trans _ _ _ _ [] [] []); [apply only_task_upd|apply (only_task_emit t (EvFree t))].
Qed.

Lemma Finish_task_at_proj {A} (p : QueueTask → A) t w t' :
  (∀ q, p (q <| qt_isFinished := true |>) = p q) →
  p (task_at (QueueTask_Finish t w) t') = p (task_at w t').
Proof.
  intros Hp. unfold QueueTask_Finish. rewrite QueueTask_Notify_task_at, task_at_upd_proj by done.
  by rewrite destroy_func_task_at.
Qed.

Section dispatch.
Context {Q : Type} `{BaseQueueOps Q} `{DelayedOps} (beta : bool) (duration : tid → Z).
Implicit Types (h : QueueHandler Q).

Lemma Dispatch_one_spec inTask t h w :
  qh_timeout h = 0 →
  ∃ h' w', Dispatch_one beta duration inTask t h w = (h', w', qt_nextTask (task_at w t)) ∧
    qh_timeout h' = 0 ∧
    only_task t w w' [t] (if decide (qt_rc (task_at w t) = 1) then [t] else []) ∧
    (in_store w t → qt_isFinished (task_at w' t) = true ∧
       qt_rc (task_at w' t) = u32 (qt_rc (task_at w t) - 1)).
Proof.
  intros Ht. unfold Dispatch_one, SetTimeoutMonitor, RemoveTimeoutMonitor.
  rewrite Ht, decide_True by lia. cbv zeta.
  set (h1 := SetCurTask t h w <| qh_execTaskId := _ |>).
  set (w1 := SetStatus EXECUTING t w).
  set (h2 := if decide (0 < qt_schedTimeout (task_at w1 t)) then RemoveSchedDeadline t h1 else h1).
  set (w2 := emit (EvExec t) (w1 <| w_now ::= Z.add (duration t) |>)).
  set (h3 := if decide (qh_queueType h2 = _) then _ else h2).
  set (w3 := if decide (t = inTask) then w2 else SetStatus FINISH t w2).
  assert (Hh3 : qh_timeout h3 = 0).
  { unfold h3, h2. by repeat case_decide. }
  rewrite (decide_True (P := qh_timeout h3 <= 0 ∨ _)) by (left; lia).
  assert (O3 : only_task t w w3 [t] []).
  { apply (only_task_trans t w w1 w3 [] [t] [] []); [apply only_task_upd|].
    apply (only_task_trans t w1 w2 w3 [t] [] [] []);
      [apply (only_task_trans t _ (w1 <| w_now ::= Z.add (duration t) |>) _ [] [t] [] []);
        [apply only_task_now|apply (only_task_emit t (EvExec t))]|].
    unfold w3. case_decide; [apply only_task_refl|apply only_task_upd]. }
  assert (Hframe : ∀ (A : Type) (p : QueueTask → A),
    (∀ q s c pre, p (q <| qt_statusTime := c |> <| qt_preStatus := pre |> <| qt_curStatus := s |>) = p q) →
    (∀ q, p (q <| qt_isFinished := true |>) = p q) →
    p (task_at (QueueTask_Finish t w3) t) = p (task_at w t)).
  { intros A p H1 H2. rewrite Finish_task_at_proj by done. unfold w3.
    case_decide; [|unfold SetStatus; rewrite task_at_upd_proj by (intros; apply H1)];
      unfold w2; rewrite task_at_emit; change (task_at (w1 <| w_now ::= Z.add (duration t) |>) t) with (task_at w1 t);
      unfold w1, SetStatus; by rewrite task_at_upd_proj by (intros; apply H1). }
  rewrite (Hframe _ qt_nextTask) by done.
  eexists _, _. split; [reflexivity|]. split_and!.
  - destruct (qt_nextTask (task_at w t)); [done|]. by case_match.
  - rewrite <-(Hframe _ qt_rc) by done.
    eapply (only_task_trans _ _ _ _ [t] []  []); [|apply only_task_Dec].
    eapply (only_task_trans _ _ _ _ [t] [] [] []); [exact O3|apply only_task_Finish].
  - intros Hst. assert (Hst3 : in_store (QueueTask_Finish t w3) t) by (by apply only_task_Finish, O3).
    rewrite !DecDeleteRef_task_at. split.
    + rewrite task_at_upd_proj by done.
      unfold QueueTask_Finish. rewrite QueueTask_Notify_task_at, task_at_upd, decide_True; [done|].
      split; [done|]. apply only_task_destroy. by apply O3.
    + rewrite task_at_upd, decide_True by done. simpl. by rewrite (Hframe _ qt_rc) by done.
Qed.

Lemma Dispatch_chain_spec inTask t l h w :
  qh_timeout h = 0 → linked w t l → NoDup (t :: l) →
  ∃ h' w', Dispatch_chain beta duration (S (length l)) inTask t h w = Some (h', w') ∧
    execs (w_trace w') = execs (w_trace w) ++ t :: l ∧
    frees (w_trace w') = frees (w_trace w) ++ filter (λ x, qt_rc (task_at w x) = 1) (t :: l) ∧
    (∀ x, x ∈ t :: l → in_store w x → qt_isFinished (task_at w' x) = true ∧
       qt_rc (task_at w' x) = u32 (qt_rc (task_at w x) - 1)) ∧
    (∀ x, x ∉ t :: l → task_at w' x = task_at w x) ∧
    (∀ x, in_store w' x ↔ in_store w x).
Proof.
  revert t h w. induction l as [|t' l IH]; intros t h w Ht Hl Hnd;
    destruct (Dispatch_one_spec inTask t h w Ht) as (h1 & w1 & E1 & Ht1 & (A1 & B1 & C1 & D1) & F1).
  - simpl in Hl. cbn [Dispatch_chain length]. rewrite E1, Hl. exists h1, w1. split_and!; try done.
    + intros x ->%list_elem_of_singleton. exact F1.
    + intros x Hx. apply A1. set_solver.
  - destruct Hl as [Hn Hl]. apply NoDup_cons in Hnd as [Hnin Hnd].
    destruct (IH t' h1 w1) as (h2 & w2 & E2 & C2 & D2 & F2 & A2 & B2); [done| |done|].
    { eapply linked_ext; [|exact Hl]. intros x Hx. rewrite A1; [done|]. set_solver. }
    exists h2, w2. split_and!.
    + change (S (length (t' :: l))) with (S (S (length l))). cbn [Dispatch_chain]. rewrite E1, Hn. exact E2.
    + rewrite C2, C1, <-app_assoc. done.
    + rewrite D2, D1, <-app_assoc. f_equal. rewrite (filter_cons _ t).
      assert (Hf : filter (λ x, qt_rc (task_at w1 x) = 1) (t' :: l) =
                   filter (λ x, qt_rc (task_at w x) = 1) (t' :: l)).
      { apply list_filter_ext. intros x Hx. rewrite A1; [done|]. set_solver. }
      rewrite Hf. by case_decide.
    + intros x [->|Hx]%elem_of_cons Hst; [rewrite A2 by done; by apply F1|].
      rewrite <-(A1 x) by set_solver. apply F2; [done|by apply B1].
    + intros x Hx. apply not_elem_of_cons in Hx as [??]. rewrite A2, A1; done.
    + intros x. by rewrite B2, B1.
Qed.
End dispatch.

(** executing a queue task runs exactly the tasks of its chain, each once
    and in order, finishes every one of them, and frees every one of them
    exactly once, the executing task last, after its final status is stored. *)
Theorem QueueTask_Execute_chain {Q} `{BaseQueueOps Q} `{DelayedOps} beta duration
    (h : QueueHandler Q) w t l :
  qh_timeout h = 0 → linked w t l → NoDup (t :: l) → Forall (in_store w) (t :: l) →
  Forall (λ x, qt_rc (task_at w x) = 1) (t :: l) → qt_isFinished (task_at w t) = false →
  ∃ h' w' deliver, QueueTask_Execute beta duration (S (length l)) t h w = Some (h', w', deliver) ∧
    execs (w_trace w') = execs (w_trace w) ++ t :: l ∧
    Forall (λ x, qt_isFinished (task_at w' x) = true) (t :: l) ∧
    frees (w_trace w') = frees (w_trace w) ++ l ∧
    frees (w_trace (QueueTask_Execute_end t w')) = frees (w_trace w) ++ l ++ [t].
Proof.
  intros Ht Hl Hnd Hst Hrc Hfin. unfold QueueTask_Execute. set (w0 := IncDeleteRef t w).
  assert (Hfin0 : qt_isFinished (task_at w0 t) = false) by (unfold w0, IncDeleteRef; by rewrite task_at_upd_proj).
  rewrite Hfin0. rewrite Forall_forall in Hrc, Hst.
  assert (Hrc0 : qt_rc (task_at w0 t) = 2).
  { unfold w0, IncDeleteRef. rewrite task_at_upd, decide_True by (split; [done|apply Hst; left]). simpl.
    rewrite Hrc by left. done. }
  assert (Hoth : ∀ x, x ≠ t → task_at w0 x = task_at w x) by (apply (only_task_upd t)).
  apply NoDup_cons in Hnd as [Hnin Hnd].
  destruct (Dispatch_chain_spec beta duration t t l h w0 Ht) as (h' & w' & E & C & D & F & A & B).
  { eapply linked_ext; [|exact Hl]. intros x _. unfold w0, IncDeleteRef. by rewrite task_at_upd_proj. }
  { by constructor. }
  rewrite E. simpl. eexists h', w', _. split; [reflexivity|].
  assert (Hfr : frees (w_trace w') = frees (w_trace w) ++ l).
  { rewrite D. f_equal. rewrite filter_cons_False by (rewrite Hrc0; lia). apply filter_true_id.
    apply Forall_forall. intros x Hx. rewrite Hoth by set_solver. apply Hrc. by right. }
  split_and!; [exact C| |exact Hfr|].
  - apply Forall_forall. intros x Hx. apply F; [done|]. unfold w0, IncDeleteRef.
    rewrite upd_task_in_store. by apply Hst.
  - destruct (F t) as [_ Hrc']; [left|unfold w0, IncDeleteRef; rewrite upd_task_in_store; apply Hst; left|].
    rewrite Hrc0 in Hrc'. unfold QueueTask_Execute_end.
    destruct (only_task_Dec t (SetStatus FINISH t w')) as (_ & _ & _ & ->).
    assert (E2 : qt_rc (task_at (SetStatus FINISH t w') t) = 1)
      by (unfold SetStatus; rewrite task_at_upd_proj, Hrc'; done).
    rewrite E2, decide_True by done. change (w_trace (SetStatus FINISH t w')) with (w_trace w').
    by rewrite Hfr, app_assoc.
Qed.

Lemma QueueTask_Execute_chain_witness :
  ∃ h' w' deliver, @QueueTask_Execute _ (SerialQueue_ops no_regex) _ false (λ _, 5) 2 1%positive
      (sample_handler (sample_serial []) 0 1)
      (mkWorld (<[1%positive := inhabitant <| qt_rc := 1 |> <| qt_nextTask := Some 2%positive |>]>
         {[2%positive := inhabitant <| qt_rc := 1 |>]}) 0 0 0 [] []) = Some (h', w', deliver) ∧
    execs (w_trace w') = [1%positive; 2%positive].
Proof.
  destruct (@QueueTask_Execute_chain _ (SerialQueue_ops no_regex) _ false (λ _, 5)
    (sample_handler (sample_serial []) 0 1)
    (mkWorld (<[1%positive := inhabitant <| qt_rc := 1 |> <| qt_nextTask := Some 2%positive |>]>
         {[2%positive := inhabitant <| qt_rc := 1 |>]}) 0 0 0 [] []) 1%positive [2%positive])
    as (h' & w' & d & H1 & H2 & _).
  - reflexivity.
  - done.
  - by apply (bool_decide_unpack _).
  - rewrite !Forall_cons. split_and!; [by eexists..|done].
  - repeat constructor.
  - reflexivity.
  - exists h', w', d. split; [exact H1|exact H2].
Defined.


(** ** A queue that has been cancelled with CancelAndWait *)

Lemma submit_traffic_release {Q} `{BaseQueueOps Q} message (h : QueueHandler Q) w :
  handler_submit_traffic false message h w = (h, w).
Proof. by destruct h, w. Qed.

(** after [ffrt_queue_cancel_and_wait] the handle stays usable but its
    results mislead: [Cancel(name)] reports success although nothing is pending,
    and a submitted task is neither queued nor finished, so that waiting for its
    handle never ends. *)
Theorem serial_after_exit `{DelayedOps} `{MonitorOps} regex_match message curTid alloc name
    (h : QueueHandler SerialQueue) q w t :
  qh_queue h = Some q → qh_queueType h = ffrt_queue_serial →
  bq_isExit (sq_base q) = true → bq_whenMap (sq_base q) = [] →
  qt_schedTimeout (task_at w t) = 0 → qt_isFinished (task_at w t) = false →
  (∃ h', @Cancel_name _ (SerialQueue_ops regex_match) regex_match false name h w = Some (SUCC, h', w)) ∧
  let '(h', w') := @Submit _ (SerialQueue_ops regex_match) _ _ false message curTid alloc t h w in
  qh_queue h' = Some q ∧ qt_isFinished (task_at w' t) = false ∧ w_trace w' = w_trace w.
Proof.
  intros Hq Hty He Hm Hs Hf. split.
  { unfold Cancel_name. rewrite Hq. simpl. unfold BaseQueue_GetHeadTask. rewrite Hm. simpl.
    unfold BaseQueue_Remove_name, BaseQueue_Remove_name_map. simpl. rewrite He. by eexists. }
  unfold Submit. rewrite Hq. cbv zeta.
  set (w1 := if decide _ then QueueTask_SetQos t (qh_qos h) w else w).
  assert (E1 : qt_schedTimeout (task_at w1 t) = 0 ∧ qt_isFinished (task_at w1 t) = false ∧
               w_trace w1 = w_trace w).
  { unfold w1. case_decide; [|done]. unfold QueueTask_SetQos. by rewrite !task_at_upd_proj by done. }
  destruct E1 as (E1 & E2 & E3). clearbody w1. rewrite submit_traffic_release, Hty.
  assert (Hprep : qt_schedTimeout (task_at (QueueTask_Prepare t w1) t) = 0 ∧
                  qt_isFinished (task_at (QueueTask_Prepare t w1) t) = false).
  { unfold QueueTask_Prepare, SetStatus. by rewrite !task_at_upd_proj by done. }
  destruct Hprep as [P1 P2].
  assert (Ht2 : w_trace (QueueTask_Prepare t w1) = w_trace w) by exact E3.
  set (w2 := QueueTask_Prepare t w1) in *. clearbody w2.
  destruct curTid; simpl; rewrite P1; simpl; rewrite Hq; unfold SerialQueue_Push; rewrite He; done.
Qed.

Lemma serial_after_exit_witness :
  ∃ h', @Cancel_name _ (SerialQueue_ops no_regex) no_regex false "x"
      (sample_handler (sample_serial [] <| sq_base ::= λ b, b <| bq_isExit := true |> |>) 0 1)
      sample_world = Some (SUCC, h', sample_world).
Proof.
  refine (proj1 (serial_after_exit no_regex (λ _, "") None 9%positive "x"
    (sample_handler (sample_serial [] <| sq_base ::= λ b, b <| bq_isExit := true |> |>) 0 1)
    _ sample_world 1%positive eq_refl _ _ _ _ _)); reflexivity.
Defined.
