(* ===== verification/QueueMonitor.v ===== *)
(** * The queue monitor

    Models src/queue/queue_monitor.cpp: an alarm that looks for tasks of queues
    that run too long.  The alarm is a deadline of the delayed worker; it is
    suspended while no queue has a task, and the submission of a task resumes it.

    A monitored queue is anything with [EvaluateTaskTimeout], the class [Monitored],
    whose instance is the queue handler.  The steps of a thread are its atomic
    accesses and the sections under [infoMutex_]; what follows the exchange in
    [UpdateQueueInfo] is one step.  [DelayedWakeup] does not fail.  The clock
    [TimeStampCntvct] and the steady clock are one clock.  The text of a report is
    not modelled: a record of a timeout is its time and the task. *)

From S2P Require Import Prelude Types QueueTask QueueStrategy BaseQueue SerialQueue ConcurrentQueue QueueHandler.

Module QueueMonitor.

(** ** What a queue promises *)

(** [EvaluateTaskTimeout], given the threshold and the time: the tasks to report,
    the time from which the next inspection counts, and the queue. *)
Class Monitored (Q : Type) := evaluate : Z → Z → Q → list Z * Z * Q.

(** A queue that runs a task asks for another inspection. *)
Class MonitoredLaw (Q : Type) `{!Monitored Q} (running : Z → Q → Prop) :=
  evaluate_running : ∀ thr now q, running now q →
    let '(gids, next, _) := evaluate thr now q in gids ≠ [] ∧ 0 <= next < UINT64_MAX.

(** ** State *)

Definition US_PER_MS : Z := 1000.
Definition MONITOR_ACC_ERROR_US : Z := 10 * US_PER_MS.
Definition MIN_TIMEOUT_THRESHOLD_US : Z := 1000 * US_PER_MS.
Definition MAX_RECORD_LIMIT : Z := 64.

(** [qm_reports] are the arguments of the calls of [ReportEventTimeout]. *)
Record monitor := mk_monitor {
  qm_timeoutUs : Z;
  qm_suspendAlarm : bool;
  qm_queuesInfo : list nat;
  qm_taskTimeoutInfo : list (Z * Z);
  qm_reports : list Z;
}.

#[export] Instance monitor_eta : Eta monitor := λ m,
  mk_monitor (qm_timeoutUs m) (qm_suspendAlarm m) (qm_queuesInfo m) (qm_taskTimeoutInfo m) (qm_reports m).

(** [ffrt_task_timeout_set_threshold]: the value that is stored. *)
Definition set_threshold (threshold_ms : Z) : Z := if decide (u32 threshold_ms < 1000) then 1000 else u32 threshold_ms.

(** [ffrt_task_timeout_get_threshold() * US_PER_MS], both of 32 bits. *)
Definition threshold_us (threshold : Z) : Z := u32 (threshold * US_PER_MS).

Definition QueueMonitor_ctor (threshold : Z) : monitor :=
  let timeout := threshold_us threshold in
  mk_monitor (if decide (timeout < MIN_TIMEOUT_THRESHOLD_US) then MIN_TIMEOUT_THRESHOLD_US else timeout) true [] [] [].

Definition UpdateTimeoutUs (threshold : Z) (m : monitor) : monitor := m <| qm_timeoutUs := threshold_us threshold |>.

Definition QueueMonitor_RegisterQueue (q : nat) (m : monitor) : monitor := m <| qm_queuesInfo ::= λ l, l ++ [q] |>.

(** Erases the first that is found. *)
Fixpoint erase_first (q : nat) (l : list nat) : list nat :=
  match l with [] => [] | x :: l => if decide (x = q) then l else x :: erase_first q l end.

Definition QueueMonitor_DeregisterQueue (q : nat) (m : monitor) : monitor := m <| qm_queuesInfo ::= erase_first q |>.

(** ** [CheckTimeout] *)

Definition min_start (timeoutUs now : Z) : Z := u64 (now - u64 (timeoutUs - MONITOR_ACC_ERROR_US)).

Section check.
Context {Q : Type} `{!Monitored Q}.

(** The section under the shared lock: every registered queue is asked.  A queue
    deregisters in its destructor, so an entry without a queue does not occur. *)
Fixpoint check_queues (thr now : Z) (l : list nat) (qs : list Q) : list (list Z * Z) * list Q :=
  match l with
  | [] => ([], qs)
  | i :: l =>
      match qs !! i with
      | Some q =>
          let '(gids, next, q') := evaluate thr now q in
          let '(vec, qs') := check_queues thr now l (<[i := q']> qs) in ((gids, next) :: vec, qs')
      | None => check_queues thr now l qs
      end
  end.
End check.

(** One task of the section under the exclusive lock. *)
Definition report_one (now next : Z) (gid : Z) (m : monitor) : monitor :=
  if decide (next < UINT64_MAX ∧ gid ≠ 0)
  then let info := qm_taskTimeoutInfo m in
       m <| qm_reports ::= λ l, l ++ [gid] |>
         <| qm_taskTimeoutInfo := (if decide (MAX_RECORD_LIMIT < Z.of_nat (length info)) then tail info else info) ++ [(now, gid)] |>
  else m.

Fixpoint report_gids (now next : Z) (gids : list Z) (nextTaskStart : Z) (m : monitor) : Z * monitor :=
  match gids with
  | [] => (nextTaskStart, m)
  | gid :: gids => report_gids now next gids (if decide (next < nextTaskStart) then next else nextTaskStart) (report_one now next gid m)
  end.

Fixpoint report_all (now : Z) (vec : list (list Z * Z)) (nextTaskStart : Z) (m : monitor) : Z * monitor :=
  match vec with
  | [] => (nextTaskStart, m)
  | (gids, next) :: vec => let '(n, m) := report_gids now next gids nextTaskStart m in report_all now vec n m
  end.

(** ** The system *)

(** Where the callback of the alarm is: in [ScheduleAlarm] before the first
    section of [CheckTimeout], between the sections, after them, and after
    [UpdateTimeoutUs]. *)
Inductive phase := CIdle | CStart | CReport (now : Z) (vec : list (list Z * Z)) | CUpdate (next : Z) | CDecide (next : Z).

(** Threads in [UpdateQueueInfo]: [sy_calling] before the exchange, [sy_setting]
    after it, if it returned true. *)
Record system (Q : Type) := mk_system {
  sy_threshold : Z;
  sy_now : Z;
  sy_queues : list Q;
  sy_mon : monitor;
  sy_alarm : option Z;
  sy_phase : phase;
  sy_calling : nat;
  sy_setting : nat;
}.
Arguments mk_system {_}.
Arguments sy_threshold {_}.
Arguments sy_now {_}.
Arguments sy_queues {_}.
Arguments sy_mon {_}.
Arguments sy_alarm {_}.
Arguments sy_phase {_}.
Arguments sy_calling {_}.
Arguments sy_setting {_}.

#[export] Instance system_eta Q : Eta (system Q) := λ s,
  mk_system (sy_threshold s) (sy_now s) (sy_queues s) (sy_mon s) (sy_alarm s) (sy_phase s) (sy_calling s) (sy_setting s).

Definition system_init {Q} (threshold : Z) (qs : list Q) : system Q := mk_system threshold 0 qs (QueueMonitor_ctor threshold) None CIdle 0 0.

Section steps.
Context {Q : Type} `{!Monitored Q}.

Definition SetAlarm (steadyUs : Z) (s : system Q) : system Q := s <| sy_alarm := Some steadyUs |>.

(** The end of a [Submit] that activates its queue: [UpdateQueueInfo] is called. *)
Definition submit (i : nat) (q : Q) (s : system Q) : system Q := s <| sy_queues ::= <[i := q]> |> <| sy_calling ::= S |>.

(** [UpdateQueueInfo]: the exchange, and what follows if it returned true. *)
Definition UpdateQueueInfo_exchange (s : system Q) : system Q :=
  let s1 := s <| sy_calling ::= pred |> <| sy_mon ::= λ m, m <| qm_suspendAlarm := false |> |> in
  if qm_suspendAlarm (sy_mon s) then s1 <| sy_setting ::= S |> else s1.

Definition UpdateQueueInfo_set (s : system Q) : system Q :=
  let s := s <| sy_setting ::= pred |> <| sy_mon ::= UpdateTimeoutUs (sy_threshold s) |> in
  SetAlarm (u64 (sy_now s + qm_timeoutUs (sy_mon s))) s.

(** [ScheduleAlarm], section by section. *)
Definition CheckTimeout_eval (s : system Q) : system Q :=
  let thr := min_start (qm_timeoutUs (sy_mon s)) (sy_now s) in
  let '(vec, qs) := check_queues thr (sy_now s) (qm_queuesInfo (sy_mon s)) (sy_queues s) in
  s <| sy_queues := qs |> <| sy_phase := CReport (sy_now s) vec |>.

Definition CheckTimeout_report (now : Z) (vec : list (list Z * Z)) (s : system Q) : system Q :=
  let '(next, m) := report_all now vec UINT64_MAX (sy_mon s) in s <| sy_mon := m |> <| sy_phase := CUpdate next |>.

Definition ScheduleAlarm_update (next : Z) (s : system Q) : system Q :=
  s <| sy_mon ::= UpdateTimeoutUs (sy_threshold s) |> <| sy_phase := CDecide next |>.

Definition ScheduleAlarm_decide (next : Z) (s : system Q) : system Q :=
  let s := s <| sy_phase := CIdle |> in
  if decide (next = UINT64_MAX) then s <| sy_mon ::= λ m, m <| qm_suspendAlarm := true |> |>
  else SetAlarm (u64 (next + qm_timeoutUs (sy_mon s))) s.

Inductive system_step : system Q → system Q → Prop :=
| sy_clock s d : 0 <= d → system_step s (s <| sy_now ::= λ n, n + d |>)
| sy_set_threshold s v : system_step s (s <| sy_threshold := set_threshold v |>)
| sy_register s q : system_step s (s <| sy_mon ::= QueueMonitor_RegisterQueue q |>)
| sy_deregister s q : system_step s (s <| sy_mon ::= QueueMonitor_DeregisterQueue q |>)
| sy_work s i q : system_step s (s <| sy_queues ::= <[i := q]> |>)
| sy_submit s i q : system_step s (submit i q s)
| sy_exchange s : (0 < sy_calling s)%nat → system_step s (UpdateQueueInfo_exchange s)
| sy_set s : (0 < sy_setting s)%nat → system_step s (UpdateQueueInfo_set s)
| sy_fire s tp : sy_alarm s = Some tp → tp <= sy_now s → system_step s (s <| sy_alarm := None |> <| sy_phase := CStart |>)
| sy_eval s : sy_phase s = CStart → system_step s (CheckTimeout_eval s)
| sy_report s now vec : sy_phase s = CReport now vec → system_step s (CheckTimeout_report now vec s)
| sy_update s next : sy_phase s = CUpdate next → system_step s (ScheduleAlarm_update next s)
| sy_decide s next : sy_phase s = CDecide next → system_step s (ScheduleAlarm_decide next s).
End steps.

(** ** The handler is a monitored queue *)

#[export] Instance handler_monitored {Q} `{!BaseQueueOps Q} : Monitored (QueueHandler Q * World) := λ thr now p,
  let '(gids, next, _, h) := EvaluateTaskTimeout thr p.1 (p.2 <| w_cntvct := now |>) in (gids, next, (h, p.2)).

(** A slot of the handler has a task whose time counts, or tasks are pending. *)
Definition handler_running {Q} `{!BaseQueueOps Q} (now : Z) (p : QueueHandler Q * World) : Prop :=
  ∃ i t info, qh_curTaskVec p.1 !! i = Some (Some t) ∧ qh_timeoutTaskVec p.1 !! i = Some info ∧
    0 < qt_statusTime (task_at p.2 t) < UINT64_MAX ∧ 0 <= now < UINT64_MAX ∧ 0 <= tq_updateTime info < UINT64_MAX ∧
    (0 < GetTaskCnt p.1 ∨ qt_curStatus (task_at p.2 t) ≠ ENQUEUED ∧ match qh_queue p.1 with Some q => bq_delayStatus (q_base q) = false | None => True end) ∧
    Forall (λ info, 0 <= tq_updateTime info) (qh_timeoutTaskVec p.1) ∧ Forall (λ c, ∀ t, c = Some t → 0 <= qt_statusTime (task_at p.2 t)) (qh_curTaskVec p.1).

Lemma foldr_min_le l x : x ∈ l → foldr Z.min UINT64_MAX l <= x.
Proof. induction l as [|y l IH]; simpl; intros H; [by apply not_elem_of_nil in H|]. apply elem_of_cons in H as [->|H]; [lia|]. specialize (IH H). lia. Qed.

Lemma foldr_min_nonneg l : Forall (λ x, 0 <= x) l → 0 <= foldr Z.min UINT64_MAX l.
Proof. unfold UINT64_MAX. induction 1; simpl; lia. Qed.

(** The time a slot gives. *)
Lemma evaluate_slot_next thr delaying cnt w cur info :
  0 <= w_cntvct w → 0 <= tq_updateTime info → (∀ t, cur = Some t → 0 <= qt_statusTime (task_at w t)) →
  0 <= (evaluate_slot thr delaying cnt w cur info).1.1.2.
Proof. intros H1 H2 H3. unfold evaluate_slot, UINT64_MAX. destruct cur as [t|]; [|done]. specialize (H3 t eq_refl). repeat case_decide; simpl; try done; lia. Qed.

Lemma evaluate_slot_running thr delaying cnt w t info :
  0 <= w_cntvct w < UINT64_MAX → 0 < qt_statusTime (task_at w t) < UINT64_MAX → tq_updateTime info < UINT64_MAX →
  (0 < cnt ∨ qt_curStatus (task_at w t) ≠ ENQUEUED ∧ delaying = false) → (evaluate_slot thr delaying cnt w (Some t) info).1.1.2 < UINT64_MAX.
Proof.
  intros H1 H2 H3 H4. unfold evaluate_slot. destruct (decide (_ ∨ _)) as [Hd|Hd].
  - simpl. rewrite decide_True; [lia|]. destruct H4 as [|[H4 ->]]; [done|]. destruct Hd as [?|[?|[? _]]]; [lia|done|done].
  - repeat case_decide; simpl; lia.
Qed.

#[export] Instance handler_law {Q} `{!BaseQueueOps Q} : MonitoredLaw (QueueHandler Q * World) handler_running.
Proof.
  intros thr now [h w] (i & t & info & Hc & Ht & Hs & Hn & Hu & Hr & F1 & F2). simpl in *. unfold evaluate, handler_monitored, EvaluateTaskTimeout. simpl.
  set (delaying := match qh_queue h with Some q => _ | None => _ end). set (w' := w <| w_cntvct := now |>).
  set (slots := zip_with _ _ _). assert (slots !! i = Some (evaluate_slot thr delaying (GetTaskCnt h) w' (Some t) info)) as Hi.
  { unfold slots. by rewrite lookup_zip_with, Hc, Ht. }
  split; [|split].
  - intros E. apply (f_equal length) in E. rewrite length_fmap in E. apply lookup_lt_Some in Hi. simpl in E. lia.
  - apply foldr_min_nonneg. apply Forall_fmap, Forall_lookup. intros j x Hj. unfold slots in Hj. apply lookup_zip_with_Some in Hj as (c & b & -> & Hcj & Hbj).
    simpl. apply evaluate_slot_next; [simpl; lia|by eapply Forall_lookup in F1|by eapply Forall_lookup in F2].
  - eapply Z.le_lt_trans; [apply foldr_min_le, list_elem_of_fmap; eexists; split; [reflexivity|by eapply list_elem_of_lookup_2]|].
    simpl. apply evaluate_slot_running; [simpl; lia|done|lia|]. destruct Hr as [|[? ?]]; [by left|right]. split; [done|]. unfold delaying. by destruct (qh_queue h).
Qed.

(** ** The alarm *)

Definition tokens {Q} (s : system Q) : Z :=
  Z.b2z (qm_suspendAlarm (sy_mon s)) + (match sy_alarm s with Some _ => 1 | None => 0 end) + (match sy_phase s with CIdle => 0 | _ => 1 end) + Z.of_nat (sy_setting s).

Lemma report_all_suspend now vec n m : qm_suspendAlarm (report_all now vec n m).2 = qm_suspendAlarm m.
Proof.
  revert n m. induction vec as [|[gids next] vec IH]; intros n m; simpl; [done|].
  assert (∀ n m, qm_suspendAlarm (report_gids now next gids n m).2 = qm_suspendAlarm m) as Hg.
  { clear. induction gids as [|g gids IH]; intros n m; simpl; [done|]. rewrite IH. unfold report_one. by case_decide. }
  specialize (Hg n m). destruct (report_gids now next gids n m) as [n' m']. simpl in *. by rewrite IH.
Qed.

Lemma report_all_bound now vec n m :
  (length (qm_taskTimeoutInfo m) <= 65)%nat → (length (qm_taskTimeoutInfo (report_all now vec n m).2) <= 65)%nat.
Proof.
  revert n m. induction vec as [|[gids next] vec IH]; intros n m Hm; simpl; [done|].
  assert (∀ n m, (length (qm_taskTimeoutInfo m) <= 65)%nat → (length (qm_taskTimeoutInfo (report_gids now next gids n m).2) <= 65)%nat) as Hg.
  { clear. induction gids as [|g gids IH]; intros n m Hm; simpl; [done|]. apply IH. unfold report_one, MAX_RECORD_LIMIT. case_decide; [|done]. simpl. rewrite length_app. simpl.
    case_decide as Hc; [|lia]. destruct (qm_taskTimeoutInfo m); simpl in *; lia. }
  specialize (Hg n m Hm). destruct (report_gids now next gids n m) as [n' m']. simpl in *. by apply IH.
Qed.

Section alarm.
Context {Q : Type} `{!Monitored Q}.

Definition alarm_inv (s : system Q) : Prop := tokens s = 1 ∧ (length (qm_taskTimeoutInfo (sy_mon s)) <= 65)%nat.

Lemma alarm_step s s' : alarm_inv s → system_step s s' → alarm_inv s'.
Proof.
  unfold alarm_inv, tokens. intros [H1 H2] Hst. destruct Hst as [| | | | | |s Hc|s Hc|s tp Ha Hle|s Hp|s now vec Hp|s next Hp|s next Hp].
  1-6: split; simpl in *; done.
  - unfold UpdateQueueInfo_exchange. destruct (qm_suspendAlarm (sy_mon s)) eqn:E; simpl in *; split; try done; lia.
  - unfold UpdateQueueInfo_set, SetAlarm. simpl. split; [|done]. destruct (sy_alarm s), (sy_phase s), (qm_suspendAlarm (sy_mon s)); simpl in *; lia.
  - rewrite Ha in H1. simpl. split; [|done]. destruct (sy_phase s), (qm_suspendAlarm (sy_mon s)); simpl in *; lia.
  - rewrite Hp in H1. unfold CheckTimeout_eval. destruct (check_queues _ _ _ _) as [vec qs]. simpl. split; [lia|done].
  - rewrite Hp in H1. unfold CheckTimeout_report. pose proof (report_all_suspend now vec UINT64_MAX (sy_mon s)) as E. pose proof (report_all_bound now vec UINT64_MAX (sy_mon s) H2) as B.
    destruct (report_all _ _ _ _) as [next m]. simpl in *. rewrite E. split; [lia|done].
  - rewrite Hp in H1. unfold ScheduleAlarm_update. simpl. split; [lia|done].
  - rewrite Hp in H1. unfold ScheduleAlarm_decide, SetAlarm. case_decide; simpl; (split; [|done]); destruct (sy_alarm s), (qm_suspendAlarm (sy_mon s)); simpl in *; lia.
Qed.

(** C33: In every run exactly one of these holds at any time: the alarm of the queue
    monitor is suspended, it is set, its callback runs, or one thread is about to set
    it after it has resumed it.  So there are never two alarms, and one that is not
    suspended is set or about to be.  At most 65 timeouts are kept. *)
Theorem monitor_one_alarm threshold qs (s : system Q) :
  rtc system_step (system_init threshold qs) s →
  tokens s = 1 ∧ (qm_suspendAlarm (sy_mon s) = false → sy_phase s = CIdle → sy_setting s = 0%nat → is_Some (sy_alarm s)) ∧
  (length (qm_taskTimeoutInfo (sy_mon s)) <= 65)%nat.
Proof.
  intros Hr. assert (alarm_inv s) as [H1 H2].
  { revert Hr. apply (rtc_invariant _ alarm_inv); [split; [done|simpl; lia]|intros s1 s2; apply alarm_step]. }
  split_and!; [done| |done]. intros E1 E2 E3. unfold tokens in H1. rewrite E1, E2, E3 in H1. simpl in H1. destruct (sy_alarm s); [done|lia].
Qed.

(** What [report_all] finds is at most what each queue gives. *)
Lemma report_gids_next now next gids n m : (report_gids now next gids n m).1 = if decide (gids = []) then n else n `min` next.
Proof.
  revert n m. induction gids as [|g gids IH]; intros n m; simpl; [done|]. rewrite IH. repeat case_decide; simplify_eq; lia.
Qed.

Lemma report_all_next now vec n m gids next :
  (gids, next) ∈ vec → gids ≠ [] → (report_all now vec n m).1 <= next.
Proof.
  assert (∀ vec n m, (report_all now vec n m).1 <= n) as Hle.
  { clear. induction vec as [|[g x] vec IH]; intros n m; simpl; [lia|]. pose proof (report_gids_next now x g n m) as E. destruct (report_gids now x g n m) as [n' m']. simpl in E.
    specialize (IH n' m'). case_decide; lia. }
  revert n m. induction vec as [|[g x] vec IH]; intros n m Hin Hne; [by apply not_elem_of_nil in Hin|]. simpl.
  pose proof (report_gids_next now x g n m) as E. destruct (report_gids now x g n m) as [n' m']. simpl in E.
  apply elem_of_cons in Hin as [[= -> ->]|Hin]; [|by apply IH]. rewrite decide_False in E by done. pose proof (Hle vec n' m'). lia.
Qed.

Lemma check_queues_elem thr now l qs i q :
  i ∈ l → qs !! i = Some q → ((evaluate thr now q).1.1, (evaluate thr now q).1.2) ∈ (check_queues thr now l qs).1.
Proof.
  revert qs. induction l as [|j l IH]; intros qs Hin Hq; [by apply not_elem_of_nil in Hin|]. simpl.
  destruct (decide (i = j)) as [<-|Hne].
  - rewrite Hq. destruct (evaluate thr now q) as [[gids next] q']. destruct (check_queues thr now l _). simpl. left.
  - apply elem_of_cons in Hin as [?|Hin]; [done|]. destruct (qs !! j) as [r|]; [|by apply IH]. destruct (evaluate thr now r) as [[gids next] r'].
    specialize (IH (<[j := r']> qs) Hin ltac:(by rewrite list_lookup_insert_ne)). destruct (check_queues thr now l _). simpl. by right.
Qed.

(** A callback that finds a registered queue running a task sets the alarm again,
    whatever other threads do between its sections. *)
Theorem monitor_rearms running `{!MonitoredLaw Q running} (s : system Q) i q :
  sy_phase s = CStart → i ∈ qm_queuesInfo (sy_mon s) → sy_queues s !! i = Some q → running (sy_now s) q →
  ∃ now vec, sy_phase (CheckTimeout_eval s) = CReport now vec ∧
    ∀ s2 : system Q, ∃ next, sy_phase (CheckTimeout_report now vec s2) = CUpdate next ∧
      ∀ s3 : system Q, is_Some (sy_alarm (ScheduleAlarm_decide next s3)) ∧ qm_suspendAlarm (sy_mon (ScheduleAlarm_decide next s3)) = qm_suspendAlarm (sy_mon s3).
Proof.
  intros Hp Hin Hq Hrun. unfold CheckTimeout_eval. set (thr := min_start _ _). pose proof (check_queues_elem thr (sy_now s) _ _ i q Hin Hq) as He.
  pose proof (evaluate_running thr (sy_now s) q Hrun) as Hl. destruct (evaluate thr (sy_now s) q) as [[gids next0] q']. destruct Hl as [Hg Hb].
  destruct (check_queues _ _ _ _) as [vec qs]. simpl in *. eexists _, _. split; [done|]. intros s2. unfold CheckTimeout_report.
  pose proof (report_all_next (sy_now s) vec UINT64_MAX (sy_mon s2) gids next0 He Hg) as Hn. destruct (report_all _ _ _ _) as [next m]. simpl in *.
  exists next. split; [done|]. intros s3. unfold ScheduleAlarm_decide, SetAlarm. rewrite decide_False by lia. done.
Qed.
End alarm.

(** ** Examples *)

#[local] Instance example_ops : BaseQueueOps SerialQueue := SerialQueue_ops no_regex.

(** A serial queue with nothing to do, and one that runs a task since the time 5. *)
Definition idle_queue : QueueHandler SerialQueue * World := (sample_handler (sample_serial []) 0 1, sample_world).
Definition busy_queue : QueueHandler SerialQueue * World :=
  (sample_handler (sample_serial []) 0 1 <| qh_curTaskVec := [Some 1%positive] |>,
   upd_task 1%positive (λ t, t <| qt_statusTime := 5 |> <| qt_curStatus := EXECUTING |> <| qt_gid := 9 |>) sample_world).

Lemma busy_running now : 0 <= now < UINT64_MAX → handler_running now busy_queue.
Proof.
  intros Hn. exists 0%nat, 1%positive, inhabitant.
  split; [reflexivity|]. split; [reflexivity|]. split; [vm_compute; split; reflexivity|]. split; [exact Hn|]. split; [vm_compute; split; [discriminate|reflexivity]|].
  split; [right; split; [vm_compute; discriminate|reflexivity]|]. split.
  - constructor; [vm_compute; discriminate|constructor].
  - constructor; [intros t [= <-]; vm_compute; discriminate|constructor].
Qed.

Lemma monitor_one_alarm_witness :
  ∃ s : system (QueueHandler SerialQueue * World), rtc system_step (system_init 30000 [idle_queue]) s ∧ sy_alarm s = Some 30000000 ∧ tokens s = 1.
Proof.
  assert (∃ s : system (QueueHandler SerialQueue * World), rtc system_step (system_init 30000 [idle_queue]) s ∧ sy_alarm s = Some 30000000) as (s & Hr & Ha).
  { eexists. split; [|shelve]. eapply rtc_l; [apply (sy_register _ 0)|]. eapply rtc_l; [apply (sy_submit _ 0 busy_queue)|].
    eapply rtc_l; [apply sy_exchange; simpl; lia|]. eapply rtc_l; [apply sy_set; simpl; lia|]. apply rtc_refl. Unshelve. by vm_compute. }
  exists s. split; [done|]. split; [done|]. exact (proj1 (monitor_one_alarm 30000 [idle_queue] s Hr)).
Defined.

Definition firing : system (QueueHandler SerialQueue * World) :=
  system_init 30000 [busy_queue] <| sy_now := 40000000 |> <| sy_mon ::= QueueMonitor_RegisterQueue 0 |> <| sy_phase := CStart |>.

Lemma monitor_rearms_witness :
  ∃ now vec, sy_phase (CheckTimeout_eval firing) = CReport now vec ∧ vec = [([9], 40000000)].
Proof.
  destruct (monitor_rearms handler_running firing 0 busy_queue) as (now & vec & H1 & _); [done|by vm_compute; left|done|by apply busy_running|].
  exists now, vec. split; [exact H1|]. vm_compute in H1. by injection H1 as _ <-.
Defined.

(** C39: A task can escape the queue monitor.  When the callback of the alarm has
    found no task and a task is submitted before it suspends the alarm, the
    submission finds the alarm not suspended and leaves it alone; the queue then
    runs a task, the alarm is suspended, and nobody is on the way to resume it. *)
Theorem monitor_alarm_lost :
  ∃ s : system (QueueHandler SerialQueue * World), rtc system_step (system_init 30000 [idle_queue]) s ∧
    qm_queuesInfo (sy_mon s) = [0%nat] ∧ sy_queues s = [busy_queue] ∧ handler_running (sy_now s) busy_queue ∧
    qm_suspendAlarm (sy_mon s) = true ∧ sy_alarm s = None ∧ sy_phase s = CIdle ∧ sy_calling s = 0%nat ∧ sy_setting s = 0%nat.
Proof.
  eexists. split.
  - eapply rtc_l; [apply (sy_register _ 0)|]. eapply rtc_l; [apply (sy_submit _ 0 busy_queue)|].
    eapply rtc_l; [apply sy_exchange; simpl; lia|]. eapply rtc_l; [apply sy_set; simpl; lia|]. eapply rtc_l; [apply (sy_work _ 0 idle_queue)|].
    eapply rtc_l; [apply (sy_clock _ 30000000); lia|]. eapply rtc_l; [eapply sy_fire; [vm_compute; reflexivity|vm_compute; congruence]|].
    eapply rtc_l; [by apply sy_eval|]. eapply rtc_l; [eapply sy_report; vm_compute; reflexivity|]. eapply rtc_l; [eapply sy_update; vm_compute; reflexivity|].
    eapply rtc_l; [apply (sy_submit _ 0 busy_queue)|]. eapply rtc_l; [apply sy_exchange; vm_compute; lia|]. eapply rtc_l; [eapply sy_decide; vm_compute; reflexivity|]. apply rtc_refl.
  - split; [vm_compute; reflexivity|]. split; [vm_compute; reflexivity|]. split; [apply busy_running; vm_compute; split; [discriminate|reflexivity]|].
    split_and!; vm_compute; reflexivity.
Qed.

(** ** The threshold *)

(** For thresholds up to 4294967 ms the monitor reports tasks that have run for
    the threshold, less 10 ms; the next value that can be set, 4294968 ms, is
    multiplied in 32 bits and gives 704 us, from which the allowance of 10 ms is
    subtracted with wrap-around: tasks are reported before they have started. *)
Theorem monitor_threshold_wraps :
  (∀ v now, 1000 <= v <= 4294967 → v * 1000 <= now <= UINT64_MAX →
     set_threshold v = v ∧ threshold_us v = v * 1000 ∧ min_start (threshold_us v) now = now - v * 1000 + 10000) ∧
  set_threshold 4294968 = 4294968 ∧ threshold_us 4294968 = 704 ∧
  ∀ now, 0 <= now → now + 9296 <= UINT64_MAX → min_start (threshold_us 4294968) now = now + 9296.
Proof.
  unfold set_threshold, threshold_us, min_start, MONITOR_ACC_ERROR_US, US_PER_MS, UINT64_MAX. split_and!; [|done|done|].
  - intros v now Hv Hn. rewrite !(u32_id v) by (unfold is_u32, UINT32_MAX; lia). rewrite (u32_id (v * 1000)) by (unfold is_u32, UINT32_MAX; lia).
    rewrite decide_False by lia. rewrite (u64_id (v * 1000 - 10 * 1000)) by (unfold is_u64, UINT64_MAX; lia).
    split_and!; try done. rewrite u64_id by (unfold is_u64, UINT64_MAX; lia). lia.
  - intros now H1 H2. change (u32 (4294968 * 1000)) with 704. change (u64 (704 - 10 * 1000)) with (2 ^ 64 - 9296).
    unfold u64, uw. replace (now - (2 ^ 64 - 9296)) with (now + 9296 + (-1) * 2 ^ 64) by lia. rewrite Z.mod_add by lia. apply Z.mod_small. lia.
Qed.

End QueueMonitor.
