(* ===== verification/LinkedList.v ===== *)
(** * The intrusive doubly linked list

    Models include/util/linked_list.h (class [LinkedList]).  Nodes are embedded
    in tasks and wait entries and shared through pointers, so a list is a heap
    of nodes: an operation reads and writes the [prev] and [next] fields of the
    nodes it is given, in the order of the source, and is [None] where it would
    follow a null or dangling pointer.  [dll h l xs] says that the head [l] and
    the nodes [xs], in this order, form a well-linked circular list in [h]; the
    theorems show that the operations implement those of the sequence [xs]. *)

From S2P Require Import Prelude.

Abbreviation addr := positive.

Record LinkedList := mkLinkedList { ll_prev : option addr; ll_next : option addr }.

#[export] Instance LinkedList_eta : Eta LinkedList := λ n, mkLinkedList (ll_prev n) (ll_next n).

Abbreviation heap := (gmap addr LinkedList).

Implicit Types (h : heap) (cur node : addr).

(** ** Operations *)

(** A node constructed at the address [a]. *)
Definition LinkedList_ctor (a : addr) h : heap := <[a := mkLinkedList (Some a) (Some a)]> h.

Definition get_prev (p : option addr) h : option (option addr) := a ← p; n ← h !! a; Some (ll_prev n).
Definition get_next (p : option addr) h : option (option addr) := a ← p; n ← h !! a; Some (ll_next n).
Definition set_prev (p : option addr) (v : option addr) h : option heap :=
  a ← p; n ← h !! a; Some (<[a := n <| ll_prev := v |>]> h).
Definition set_next (p : option addr) (v : option addr) h : option heap :=
  a ← p; n ← h !! a; Some (<[a := n <| ll_next := v |>]> h).

Arguments get_prev : simpl never.
Arguments get_next : simpl never.
Arguments set_prev : simpl never.
Arguments set_next : simpl never.

Definition InsertAfter cur node h : option heap :=
  nx ← get_next (Some cur) h;
  h ← set_next (Some node) nx h;
  h ← set_prev (Some node) (Some cur) h;
  nx ← get_next (Some cur) h;
  h ← set_prev nx (Some node) h;
  set_next (Some cur) (Some node) h.

Definition InsertBefore cur node h : option heap :=
  h ← set_next (Some node) (Some cur) h;
  pv ← get_prev (Some cur) h;
  h ← set_prev (Some node) pv h;
  pv ← get_prev (Some cur) h;
  h ← set_next pv (Some node) h;
  set_prev (Some cur) (Some node) h.

Definition Delete node h : option heap :=
  pv ← get_prev (Some node) h;
  nx ← get_next (Some node) h;
  h ← set_next pv nx h;
  nx ← get_next (Some node) h;
  pv ← get_prev (Some node) h;
  h ← set_prev nx pv h;
  h ← set_next (Some node) (Some node) h;
  set_prev (Some node) (Some node) h.

Definition Empty node h : option bool := nx ← get_next (Some node) h; Some (bool_decide (nx = Some node)).

Definition Null node h : option bool :=
  pv ← get_prev (Some node) h; nx ← get_next (Some node) h;
  Some (bool_decide (pv = None ∧ nx = None)).

Definition InList node h : option bool :=
  nx ← get_next (Some node) h; Some (bool_decide (nx ≠ None ∧ nx ≠ Some node)).

Definition RemoveCur node h : option heap :=
  b ← Null node h; if (b : bool) then Some h else Delete node h.

Definition Next cur h : option (option addr) :=
  e ← Empty cur h; if (e : bool) then Some None else get_next (Some cur) h.

Definition RemoveNext cur h : option (option addr * heap) :=
  e ← Empty cur h;
  if (e : bool) then Some (None, h)
  else
    nx ← get_next (Some cur) h; n ← nx;
    h ← Delete n h;
    Some (Some n, h).

Definition RemovePrev cur h : option (option addr * heap) :=
  e ← Empty cur h;
  if (e : bool) then Some (None, h)
  else
    pv ← get_prev (Some cur) h; n ← pv;
    h ← Delete n h;
    Some (Some n, h).

Definition PushFront cur node h : option heap := InsertAfter cur node h.
Definition PushBack cur node h : option heap := InsertBefore cur node h.
Definition Front cur h : option (option addr) := Next cur h.
Definition PopFront cur h : option (option addr * heap) := RemoveNext cur h.
Definition PopBack cur h : option (option addr * heap) := RemovePrev cur h.

(** [PushBack(first, last)]: the nodes from [first] to [last] are linked already. *)
Definition PushBack_range cur (first last : addr) h : option heap :=
  h ← set_next (Some last) (Some cur) h;
  pv ← get_prev (Some cur) h;
  h ← set_prev (Some first) pv h;
  pv ← get_prev (Some cur) h;
  h ← set_next pv (Some first) h;
  set_prev (Some cur) (Some last) h.

(** ** Well-linked lists *)

Definition nxt h (a : addr) : option addr := n ← h !! a; ll_next n.
Definition prv h (a : addr) : option addr := n ← h !! a; ll_prev n.

Fixpoint chain h (c : list addr) : Prop :=
  match c with
  | a :: ((b :: _) as c') => nxt h a = Some b ∧ prv h b = Some a ∧ chain h c'
  | _ => True
  end.

Definition dll h (l : addr) (xs : list addr) : Prop :=
  NoDup (l :: xs) ∧ chain h (l :: xs ++ [l]).

(** The node [a] can be written: it is allocated. *)
Definition alloc h (a : addr) : Prop := is_Some (h !! a).

Lemma nxt_alloc h a b : nxt h a = Some b → alloc h a.
Proof. unfold nxt, alloc. destruct (h !! a); [by eexists|done]. Qed.

Lemma prv_alloc h a b : prv h a = Some b → alloc h a.
Proof. unfold prv, alloc. destruct (h !! a); [by eexists|done]. Qed.

Lemma get_next_nxt h a : alloc h a → get_next (Some a) h = Some (nxt h a).
Proof. unfold get_next, nxt. intros [n Hn]. cbn. by rewrite Hn. Qed.

Lemma get_prev_prv h a : alloc h a → get_prev (Some a) h = Some (prv h a).
Proof. unfold get_prev, prv. intros [n Hn]. cbn. by rewrite Hn. Qed.

(** A write to an allocated node succeeds and changes just that field. *)
Lemma set_next_spec h a v : alloc h a →
  ∃ h', set_next (Some a) v h = Some h' ∧ (∀ b, alloc h' b ↔ alloc h b) ∧
        (∀ b, prv h' b = prv h b) ∧ nxt h' a = v ∧ (∀ b, b ≠ a → nxt h' b = nxt h b) ∧
        (∀ b, b ≠ a → h' !! b = h !! b).
Proof.
  unfold alloc, nxt, prv, set_next, set_prev. intros [n Hn]. simpl. rewrite Hn. eexists. split; [done|].
  split_and!.
  - intros b. rewrite lookup_insert_is_Some. destruct (decide (a = b)) as [->|]; [|naive_solver].
    rewrite Hn. naive_solver.
  - intros b. destruct (decide (a = b)) as [->|]; [by rewrite lookup_insert_eq, Hn|by rewrite lookup_insert_ne].
  - by rewrite lookup_insert_eq.
  - intros b ?. by rewrite lookup_insert_ne.
  - intros b ?. by rewrite lookup_insert_ne.
Qed.

Lemma set_prev_spec h a v : alloc h a →
  ∃ h', set_prev (Some a) v h = Some h' ∧ (∀ b, alloc h' b ↔ alloc h b) ∧
        (∀ b, nxt h' b = nxt h b) ∧ prv h' a = v ∧ (∀ b, b ≠ a → prv h' b = prv h b) ∧
        (∀ b, b ≠ a → h' !! b = h !! b).
Proof.
  unfold alloc, nxt, prv, set_next, set_prev. intros [n Hn]. simpl. rewrite Hn. eexists. split; [done|].
  split_and!.
  - intros b. rewrite lookup_insert_is_Some. destruct (decide (a = b)) as [->|]; [|naive_solver].
    rewrite Hn. naive_solver.
  - intros b. destruct (decide (a = b)) as [->|]; [by rewrite lookup_insert_eq, Hn|by rewrite lookup_insert_ne].
  - by rewrite lookup_insert_eq.
  - intros b ?. by rewrite lookup_insert_ne.
  - intros b ?. by rewrite lookup_insert_ne.
Qed.

(** [field_store]: the result of a sequence of writes, read back field by field. *)
Record stored h h' (ns ps : list (addr * option addr)) : Prop := {
  st_alloc b : alloc h' b ↔ alloc h b;
  st_nxt b : nxt h' b = default (nxt h b) (list_to_map (M := gmap addr (option addr)) ns !! b);
  st_prv b : prv h' b = default (prv h b) (list_to_map (M := gmap addr (option addr)) ps !! b);
  st_frame b : b ∉ ns.*1 → b ∉ ps.*1 → h' !! b = h !! b;
}.

Lemma stored_refl h : stored h h [] [].
Proof. by split. Qed.

Lemma stored_set_next h h' ns ps a v : stored h h' ns ps → alloc h a →
  ∃ h'', set_next (Some a) v h' = Some h'' ∧ stored h h'' ((a, v) :: ns) ps.
Proof.
  intros [Ha Hn Hp Hf] Hal. destruct (set_next_spec h' a v) as (h'' & E & H1 & H2 & H3 & H4 & H5).
  { by apply Ha. }
  exists h''. split; [done|]. split.
  - intros b. rewrite H1. apply Ha.
  - intros b. simpl. destruct (decide (a = b)) as [<-|Hne].
    + by rewrite lookup_insert_eq.
    + rewrite lookup_insert_ne by done. rewrite H4 by done. apply Hn.
  - intros b. rewrite H2. apply Hp.
  - intros b [? ?]%not_elem_of_cons ?. rewrite H5 by done. by apply Hf.
Qed.

Lemma stored_set_prev h h' ns ps a v : stored h h' ns ps → alloc h a →
  ∃ h'', set_prev (Some a) v h' = Some h'' ∧ stored h h'' ns ((a, v) :: ps).
Proof.
  intros [Ha Hn Hp Hf] Hal. destruct (set_prev_spec h' a v) as (h'' & E & H1 & H2 & H3 & H4 & H5).
  { by apply Ha. }
  exists h''. split; [done|]. split.
  - intros b. rewrite H1. apply Ha.
  - intros b. rewrite H2. apply Hn.
  - intros b. simpl. destruct (decide (a = b)) as [<-|Hne].
    + by rewrite lookup_insert_eq.
    + rewrite lookup_insert_ne by done. rewrite H4 by done. apply Hp.
  - intros b ? [? ?]%not_elem_of_cons. rewrite H5 by done. by apply Hf.
Qed.

Lemma stored_get_next h h' ns ps a : stored h h' ns ps → alloc h a →
  get_next (Some a) h' = Some (nxt h' a).
Proof. intros [Ha _ _ _] ?. apply get_next_nxt. by apply Ha. Qed.

Lemma stored_get_prev h h' ns ps a : stored h h' ns ps → alloc h a →
  get_prev (Some a) h' = Some (prv h' a).
Proof. intros [Ha _ _ _] ?. apply get_prev_prv. by apply Ha. Qed.

(** ** What each operation writes *)

(** Read a field of a heap described by [stored]. *)
Ltac rd H := first [rewrite (st_nxt _ _ _ _ H)|rewrite (st_prv _ _ _ _ H)]; simpl; simplify_map_eq.

Lemma InsertBefore_stored h cur node p :
  alloc h node → cur ≠ node → prv h cur = Some p → p ≠ node → alloc h p →
  ∃ h', InsertBefore cur node h = Some h' ∧
        stored h h' [(p, Some node); (node, Some cur)] [(cur, Some node); (node, Some p)].
Proof.
  intros Hn Hne Hp Hpn Hpa. pose proof (prv_alloc _ _ _ Hp) as Hc. unfold InsertBefore.
  destruct (stored_set_next _ _ _ _ node (Some cur) (stored_refl h) Hn) as (h1 & -> & S1). simpl.
  rewrite (stored_get_prev _ _ _ _ _ S1 Hc). simpl. rd S1. rewrite Hp.
  destruct (stored_set_prev _ _ _ _ node (Some p) S1 Hn) as (h2 & -> & S2). simpl.
  rewrite (stored_get_prev _ _ _ _ _ S2 Hc). simpl. rd S2. rewrite Hp.
  destruct (stored_set_next _ _ _ _ p (Some node) S2 Hpa) as (h3 & -> & S3). simpl.
  destruct (stored_set_prev _ _ _ _ cur (Some node) S3 Hc) as (h4 & -> & S4). eauto.
Qed.

Lemma InsertAfter_stored h cur node q :
  alloc h node → cur ≠ node → nxt h cur = Some q → q ≠ node → alloc h q →
  ∃ h', InsertAfter cur node h = Some h' ∧
        stored h h' [(cur, Some node); (node, Some q)] [(q, Some node); (node, Some cur)].
Proof.
  intros Hn Hne Hq Hqn Hqa. pose proof (nxt_alloc _ _ _ Hq) as Hc. unfold InsertAfter.
  rewrite (stored_get_next _ _ _ _ _ (stored_refl h) Hc). simpl. rewrite Hq.
  destruct (stored_set_next _ _ _ _ node (Some q) (stored_refl h) Hn) as (h1 & -> & S1). simpl.
  destruct (stored_set_prev _ _ _ _ node (Some cur) S1 Hn) as (h2 & -> & S2). simpl.
  rewrite (stored_get_next _ _ _ _ _ S2 Hc). simpl. rd S2. rewrite Hq.
  destruct (stored_set_prev _ _ _ _ q (Some node) S2 Hqa) as (h3 & -> & S3). simpl.
  destruct (stored_set_next _ _ _ _ cur (Some node) S3 Hc) as (h4 & -> & S4). eauto.
Qed.

Lemma Delete_stored h node p q :
  prv h node = Some p → nxt h node = Some q → p ≠ node → q ≠ node → alloc h p → alloc h q →
  ∃ h', Delete node h = Some h' ∧
        stored h h' [(node, Some node); (p, Some q)] [(node, Some node); (q, Some p)].
Proof.
  intros Hp Hq Hpn Hqn Hpa Hqa. pose proof (prv_alloc _ _ _ Hp) as Hn. unfold Delete.
  rewrite (stored_get_prev _ _ _ _ _ (stored_refl h) Hn), Hp. simpl.
  rewrite (stored_get_next _ _ _ _ _ (stored_refl h) Hn), Hq. simpl.
  destruct (stored_set_next _ _ _ _ p (Some q) (stored_refl h) Hpa) as (h1 & -> & S1). simpl.
  rewrite (stored_get_next _ _ _ _ _ S1 Hn). simpl. rd S1. rewrite Hq.
  rewrite (stored_get_prev _ _ _ _ _ S1 Hn). simpl. rd S1. rewrite Hp.
  destruct (stored_set_prev _ _ _ _ q (Some p) S1 Hqa) as (h2 & -> & S2). simpl.
  destruct (stored_set_next _ _ _ _ node (Some node) S2 Hn) as (h3 & -> & S3). simpl.
  destruct (stored_set_prev _ _ _ _ node (Some node) S3 Hn) as (h4 & -> & S4). eauto.
Qed.

Lemma PushBack_range_stored h cur first last p :
  alloc h last → alloc h first → prv h cur = Some p → alloc h p → cur ≠ first →
  ∃ h', PushBack_range cur first last h = Some h' ∧
        stored h h' [(p, Some first); (last, Some cur)] [(cur, Some last); (first, Some p)].
Proof.
  intros Hl Hf Hp Hpa Hcf. pose proof (prv_alloc _ _ _ Hp) as Hc. unfold PushBack_range.
  destruct (stored_set_next _ _ _ _ last (Some cur) (stored_refl h) Hl) as (h1 & -> & S1). simpl.
  rewrite (stored_get_prev _ _ _ _ _ S1 Hc). simpl. rd S1. rewrite Hp.
  destruct (stored_set_prev _ _ _ _ first (Some p) S1 Hf) as (h2 & -> & S2). simpl.
  rewrite (stored_get_prev _ _ _ _ _ S2 Hc). simpl. rd S2. rewrite Hp.
  destruct (stored_set_next _ _ _ _ p (Some first) S2 Hpa) as (h3 & -> & S3). simpl.
  destruct (stored_set_prev _ _ _ _ cur (Some last) S3 Hc) as (h4 & -> & S4). eauto.
Qed.

(** ** Chains *)

Lemma chain_app h c1 a c2 : chain h (c1 ++ a :: c2) ↔ chain h (c1 ++ [a]) ∧ chain h (a :: c2).
Proof.
  induction c1 as [|x c1 IH]; [simpl; tauto|].
  destruct c1 as [|y c1]; simpl in *; [tauto|]. rewrite IH. tauto.
Qed.

Lemma chain_cons2 h a b c : chain h (a :: b :: c) ↔ nxt h a = Some b ∧ prv h b = Some a ∧ chain h (b :: c).
Proof. done. Qed.

(** Two chains joined by a link. *)
Lemma chain_join h c1 a b c2 :
  chain h (c1 ++ [a]) → chain h (b :: c2) → nxt h a = Some b → prv h b = Some a →
  chain h (c1 ++ a :: b :: c2).
Proof. intros H1 H2 Hn Hp. apply chain_app. by rewrite chain_cons2. Qed.

(** A chain does not depend on the forward link of its last node, nor on the
    backward link of its first. *)
Lemma chain_frame h h' c z :
  chain h (c ++ [z]) → (∀ a, a ∈ c → nxt h' a = nxt h a) →
  (∀ b, b ∈ tail (c ++ [z]) → prv h' b = prv h b) → chain h' (c ++ [z]).
Proof.
  induction c as [|x c IH]; [done|]. intros Hc Hn Hp. simpl in Hp.
  assert (E : ∃ y c', c ++ [z] = y :: c') by (destruct c; simpl; eauto).
  destruct E as (y & c' & E). simpl in *. rewrite E in *. simpl in *.
  destruct Hc as (H1 & H2 & H3). split_and!.
  - rewrite Hn by left. done.
  - rewrite Hp by left. done.
  - apply IH; [done| |]; intros b Hb; [apply Hn|apply Hp]; by right.
Qed.

Lemma chain_alloc h c a : chain h c → a ∈ c → (2 <= length c)%nat → alloc h a.
Proof.
  induction c as [|x [|y c] IH]; [by intros _ ?%elem_of_nil|simpl; lia|].
  intros (H1 & H2 & H3) [->|Ha]%elem_of_cons _; [by eapply nxt_alloc|].
  destruct c as [|y' c]; [|apply IH; [done|done|simpl; lia]].
  apply list_elem_of_singleton in Ha as ->. by eapply prv_alloc.
Qed.

Lemma dll_alloc h l xs a : dll h l xs → a ∈ l :: xs → alloc h a.
Proof.
  intros [_ Hc] Ha. apply (chain_alloc h (l :: xs ++ [l])); [done|set_solver|].
  simpl. rewrite length_app. simpl. lia.
Qed.

(** ** The operations on a well-linked list *)

Definition frame h h' (xs : list addr) : Prop := ∀ b, b ∉ xs → h' !! b = h !! b.

(** The last node of the circle and the rest. *)
Lemma circle_last (l : addr) xs : ∃ ys z, l :: xs = ys ++ [z] ∧ (xs = [] ∧ ys = [] ∨ ∃ ys', ys = l :: ys' ∧ xs = ys' ++ [z]).
Proof.
  destruct xs as [|x xs] using rev_ind.
  - exists [], l. split; [done|by left].
  - exists (l :: xs), x. split; [done|right; by eexists].
Qed.

Lemma tail_cons_elem {A} (l : A) xs ys z b : l :: xs = ys ++ [z] → b ∈ tail (ys ++ [z]) → b ∈ xs.
Proof. intros <-. done. Qed.

Lemma Empty_spec h l xs : dll h l xs → Empty l h = Some (bool_decide (xs = [])).
Proof.
  intros Hd. unfold Empty. rewrite get_next_nxt by (eapply dll_alloc; [done|left]). simpl. f_equal.
  destruct Hd as [Hnd Hc]. destruct xs as [|x xs]; simpl in Hc.
  - destruct Hc as [-> _]. by rewrite bool_decide_true.
  - destruct Hc as [-> _]. apply NoDup_cons_1_1 in Hnd.
    rewrite !bool_decide_false; [done|done|]. intros [= ->]. set_solver.
Qed.

Lemma Front_spec h l xs : dll h l xs → Front l h = Some (head xs).
Proof.
  intros Hd. unfold Front, Next. rewrite (Empty_spec _ _ _ Hd). simpl.
  destruct xs as [|x xs]; [done|]. rewrite bool_decide_false by done.
  rewrite get_next_nxt by (eapply dll_alloc; [done|left]). simpl. f_equal.
  by destruct Hd as [_ [-> _]].
Qed.

(** A chain survives writes to forward links of none of its nodes but the last,
    and to backward links of none but the first. *)
Lemma chain_stored h h' ns ps c z :
  chain h (c ++ [z]) → stored h h' ns ps → (∀ a, a ∈ c → a ∉ ns.*1) →
  (∀ b, b ∈ tail (c ++ [z]) → b ∉ ps.*1) → chain h' (c ++ [z]).
Proof.
  intros Hc S Hn Hp. apply (chain_frame h); [done| |]; intros a Ha.
  - rewrite (st_nxt _ _ _ _ S), not_elem_of_list_to_map_1; [done|]. by apply Hn.
  - rewrite (st_prv _ _ _ _ S), not_elem_of_list_to_map_1; [done|]. by apply Hp.
Qed.

Lemma not_elem_pair (a x y : addr) : a ≠ x → a ≠ y → a ∉ [x; y].
Proof. set_solver. Qed.

Lemma NoDup_snoc_ne {A} (c : list A) z a : NoDup (c ++ [z]) → a ∈ c → a ≠ z.
Proof. intros (_ & H & _)%NoDup_app Ha ->. eapply H; [done|set_solver]. Qed.

Lemma tail_snoc_elem {A} (c : list A) z b : b ∈ tail (c ++ [z]) → b ∈ c ++ [z].
Proof. destruct c; simpl; set_solver. Qed.

Lemma NoDup_tail_ne {A} (c : list A) f b : NoDup c → head c = Some f → b ∈ tail c → b ≠ f.
Proof. destruct c; [done|]. intros [H _]%NoDup_cons [= ->] Hb ->. done. Qed.

Lemma chain_first_alloc h c z f : chain h (c ++ [z]) → head (c ++ [z]) = Some f → alloc h z → alloc h f.
Proof.
  destruct c as [|y c]; intros Hc [= <-] Hz; [done|].
  apply (chain_alloc h ((y :: c) ++ [z])); [done|left|]. rewrite length_app. simpl. lia.
Qed.

(** Writing the four links that splice the segment [ys ++ [z]], starting at
    [first], between the last node [p] of the circle and its head [l]. *)
Lemma splice_chain h h' l xs first ys z zs p :
  NoDup (l :: xs) → l :: xs = zs ++ [p] → chain h (zs ++ [p]) →
  NoDup (ys ++ [z]) → head (ys ++ [z]) = Some first → chain h (ys ++ [z]) →
  (∀ a, a ∈ ys ++ [z] → a ∉ l :: xs) →
  stored h h' [(p, Some first); (z, Some l)] [(l, Some z); (first, Some p)] →
  chain h' (l :: (xs ++ ys ++ [z]) ++ [l]).
Proof.
  intros Hl E Hc1 Hnd Hh Hc Hdis S.
  assert (Hpin : p ∈ l :: xs) by (rewrite E; set_solver).
  assert (Hfirst : first ∈ ys ++ [z]) by (destruct ys; simpl in *; simplify_eq; set_solver).
  assert (Hz : z ∈ ys ++ [z]) by set_solver.
  assert (Hzl : ∀ a b, a ∈ l :: xs → b ∈ ys ++ [z] → a ≠ b) by (intros a b ?? ->; by eapply Hdis).
  assert (Hl1 : l ∈ l :: xs) by left.
  rewrite <-app_assoc, app_comm_cons, E, <-!app_assoc. cbn [app].
  assert (Er : ∃ rest, ys ++ z :: [l] = first :: rest) by (destruct ys; simpl in *; simplify_eq; eauto).
  destruct Er as [rest Er]. rewrite Er. apply chain_join.
  - apply (chain_stored h h' _ _ _ _ Hc1 S); intros a Ha; apply not_elem_pair; simpl.
    + apply (NoDup_snoc_ne zs); [by rewrite <-E|done].
    + apply Hzl; [rewrite E; set_solver|done].
    + apply (NoDup_tail_ne (zs ++ [p])); [by rewrite <-E|by rewrite <-E|done].
    + apply Hzl; [rewrite E; by apply tail_snoc_elem|done].
  - rewrite <-Er. apply chain_app. split.
    + apply (chain_stored h h' _ _ _ _ Hc S); intros a Ha; apply not_elem_pair; simpl.
      * symmetry. apply Hzl; [done|set_solver].
      * by eapply NoDup_snoc_ne.
      * symmetry. apply Hzl; [done|by apply tail_snoc_elem].
      * by eapply NoDup_tail_ne.
    + simpl. split_and!; [|by rd S|done].
      rewrite (st_nxt _ _ _ _ S). simpl. rewrite lookup_insert_ne by (by apply Hzl). by simplify_map_eq.
  - by rd S.
  - rewrite (st_prv _ _ _ _ S). simpl. rewrite lookup_insert_ne by (by apply Hzl). by simplify_map_eq.
Qed.

Lemma dll_last h l xs : dll h l xs →
  ∃ zs p, l :: xs = zs ++ [p] ∧ chain h (zs ++ [p]) ∧ nxt h p = Some l ∧ prv h l = Some p ∧ p ∈ l :: xs.
Proof.
  intros [Hl Hcl]. destruct (exists_last (l := l :: xs) ltac:(done)) as (zs & p & E).
  exists zs, p. rewrite app_comm_cons, E, <-app_assoc in Hcl. apply chain_app in Hcl as [Hc1 (Hp1 & Hp2 & _)].
  split_and!; [done..|]. rewrite E. set_solver.
Qed.

Lemma NoDup_splice {A} (l : A) xs ys :
  NoDup (l :: xs) → NoDup ys → (∀ a, a ∈ ys → a ∉ l :: xs) → NoDup (l :: xs ++ ys).
Proof.
  intros H1 H2 H3. rewrite app_comm_cons. apply NoDup_app. split_and!; [done| |done].
  intros a ? ?. by eapply H3.
Qed.

(** The nodes from [first] on, linked as [ys ++ [z]], go to the back of the list. *)
Lemma PushBack_range_spec h l xs first ys z :
  dll h l xs → NoDup (ys ++ [z]) → head (ys ++ [z]) = Some first → chain h (ys ++ [z]) →
  alloc h z → (∀ a, a ∈ ys ++ [z] → a ∉ l :: xs) →
  ∃ h', PushBack_range l first z h = Some h' ∧ dll h' l (xs ++ ys ++ [z]) ∧
        frame h h' (l :: xs ++ ys ++ [z]).
Proof.
  intros Hd Hnd Hh Hc Hla Hdis. pose proof Hd as [Hl _].
  destruct (dll_last _ _ _ Hd) as (zs & p & E & Hc1 & _ & Hp2 & Hpin).
  assert (Hfirst : first ∈ ys ++ [z]) by (destruct ys; simpl in *; simplify_eq; set_solver).
  destruct (PushBack_range_stored h l first z p) as (h' & -> & S); [done| |done|by eapply dll_alloc| |].
  { by apply (chain_first_alloc h ys z). } { intros ->. eapply Hdis; [done|left]. }
  exists h'. split; [done|]. split; [split|].
  - by apply NoDup_splice.
  - by eapply (splice_chain h).
  - intros b Hb. apply (st_frame _ _ _ _ S); simpl; set_solver.
Qed.

Lemma PushBack_spec h l xs node :
  dll h l xs → alloc h node → node ∉ l :: xs →
  ∃ h', PushBack l node h = Some h' ∧ dll h' l (xs ++ [node]) ∧ frame h h' (l :: xs ++ [node]).
Proof.
  intros Hd Ha Hn. unfold PushBack. pose proof Hd as [Hl _].
  destruct (dll_last _ _ _ Hd) as (zs & p & E & Hc1 & _ & Hp2 & Hpin).
  assert (Hdis : ∀ a, a ∈ [] ++ [node] → a ∉ l :: xs) by (by intros a ->%list_elem_of_singleton).
  destruct (InsertBefore_stored h l node p) as (h' & -> & S);
    [done| |done| |by eapply dll_alloc|]; [set_solver..|].
  exists h'. split; [done|]. split; [split|].
  - apply NoDup_splice; [done|apply NoDup_singleton|done].
  - eapply (splice_chain h _ _ _ _ []); try done. apply NoDup_singleton.
  - intros b Hb. apply (st_frame _ _ _ _ S); simpl; set_solver.
Qed.

Lemma dll_first h l xs : dll h l xs →
  ∃ q, nxt h l = Some q ∧ prv h q = Some l ∧ q ∈ l :: xs ∧
       ∃ r, xs ++ [l] = q :: r ∧ chain h (q :: r).
Proof.
  intros [_ Hc]. destruct xs as [|x xs]; simpl in Hc.
  - destruct Hc as (? & ? & _). exists l. split_and!; [done..|left|by eexists].
  - destruct Hc as (? & ? & ?). exists x. split_and!; [done..|set_solver|]. by eexists.
Qed.

Lemma PushFront_spec h l xs node :
  dll h l xs → alloc h node → node ∉ l :: xs →
  ∃ h', PushFront l node h = Some h' ∧ dll h' l (node :: xs) ∧ frame h h' (l :: node :: xs).
Proof.
  intros Hd Ha Hn. unfold PushFront. pose proof Hd as [Hl _].
  destruct (dll_first _ _ _ Hd) as (q & Hq1 & Hq2 & Hqin & r & Er & Hr).
  assert (l ≠ node) by set_solver. assert (q ≠ node) by set_solver.
  destruct (InsertAfter_stored h l node q) as (h' & -> & S); [done..|by eapply dll_alloc|].
  exists h'. split; [done|]. split; [split|].
  - rewrite NoDup_cons in Hl. rewrite !NoDup_cons. set_solver.
  - rewrite <-app_comm_cons, Er, !chain_cons2.
    split_and!; [by rd S..|].
    rewrite <-Er in *. apply (chain_stored h h' _ _ _ _ Hr S); intros a Ha'; apply not_elem_pair; simpl.
    + apply NoDup_cons in Hl as [? _]. set_solver.
    + set_solver.
    + rewrite Er in Ha'. simpl in Ha'. intros ->.
      assert (Hnd : NoDup (xs ++ [l])) by (rewrite Permutation_app_comm; done).
      rewrite Er in Hnd. by apply NoDup_cons in Hnd as [? _].
    + apply tail_snoc_elem in Ha'. set_solver.
  - intros b Hb. apply (st_frame _ _ _ _ S); simpl; set_solver.
Qed.

Lemma dll_split h l xs1 x xs2 : dll h l (xs1 ++ x :: xs2) →
  ∃ ys p q r, l :: xs1 = ys ++ [p] ∧ xs2 ++ [l] = q :: r ∧
    chain h (ys ++ [p]) ∧ chain h (q :: r) ∧ prv h x = Some p ∧ nxt h x = Some q.
Proof.
  intros [_ Hc]. destruct (exists_last (l := l :: xs1) ltac:(done)) as (ys & p & E).
  assert (Eq : ∃ q r, xs2 ++ [l] = q :: r) by (destruct xs2; simpl; eauto).
  destruct Eq as (q & r & Eq). exists ys, p, q, r.
  replace (l :: (xs1 ++ x :: xs2) ++ [l]) with ((l :: xs1) ++ x :: (xs2 ++ [l])) in Hc
    by (simpl; by rewrite <-app_assoc).
  rewrite E, Eq, <-app_assoc in Hc. simpl in Hc.
  apply chain_app in Hc as [Hc1 [Hn [Hp Hc2]]].
  by destruct Hc2 as (? & ? & ?).
Qed.

Lemma Delete_spec h l xs1 x xs2 :
  dll h l (xs1 ++ x :: xs2) →
  ∃ h', Delete x h = Some h' ∧ dll h' l (xs1 ++ xs2) ∧ dll h' x [] ∧ frame h h' (l :: xs1 ++ x :: xs2).
Proof.
  intros Hd. pose proof Hd as [Hl _].
  destruct (dll_split _ _ _ _ _ Hd) as (ys & p & q & r & E & Eq & Hc1 & Hc2 & Hpx & Hqx).
  assert (Hperm : l :: xs1 ++ x :: xs2 ≡ₚ x :: l :: xs1 ++ xs2) by (rewrite <-Permutation_middle; constructor).
  rewrite Hperm in Hl. apply NoDup_cons in Hl as [Hx Hl].
  assert (Hp : p ∈ l :: xs1) by (rewrite E; set_solver).
  assert (Hq : q ∈ xs2 ++ [l]) by (rewrite Eq; left).
  assert (Hpa : p ∈ l :: xs1 ++ xs2) by set_solver. assert (Hqa : q ∈ l :: xs1 ++ xs2) by set_solver.
  destruct (Delete_stored h x p q) as (h' & E' & S); [done|done|set_solver|set_solver| | |].
  { eapply dll_alloc; [done|]. set_solver. } { eapply dll_alloc; [done|]. set_solver. }
  assert (Hnd1 : NoDup (ys ++ [p])) by (rewrite <-E; by apply (NoDup_app (l :: xs1) xs2)).
  assert (Hnd2 : NoDup (xs2 ++ [l])).
  { rewrite app_comm_cons, NoDup_app in Hl. destruct Hl as (_ & Hl & ?).
    rewrite Permutation_app_comm. apply NoDup_cons. split; [apply Hl; left|done]. }
  assert (Hxp : p ≠ x) by set_solver. assert (Hxq : q ≠ x) by set_solver.
  exists h'. split; [done|]. split; [split; [done|]|split; [split; [apply NoDup_singleton|]|]].
  - rewrite <-app_assoc, Eq, app_comm_cons, E, <-app_assoc. simpl. apply chain_join; [| |by rd S|by rd S].
    + apply (chain_stored h h' _ _ _ _ Hc1 S); intros a Ha; apply not_elem_pair; simpl.
      * assert (a ∈ l :: xs1) by (rewrite E; set_solver). set_solver.
      * by apply (NoDup_snoc_ne ys).
      * apply tail_snoc_elem in Ha. rewrite <-E in Ha. set_solver.
      * assert (Ha1 : a ∈ xs1) by (rewrite <-E in Ha; done). intros ->.
        rewrite app_comm_cons, NoDup_app in Hl. destruct Hl as ([Hl1 _]%NoDup_cons & Hl & _).
        apply elem_of_app in Hq as [Hq|Hq%list_elem_of_singleton]; [|by subst]. eapply Hl; [by right|done].
    + rewrite <-Eq in *. apply (chain_stored h h' _ _ _ _ Hc2 S); intros a Ha; apply not_elem_pair; simpl.
      * set_solver.
      * intros ->. rewrite app_comm_cons, NoDup_app in Hl. destruct Hl as (_ & Hl & _). by eapply Hl.
      * apply tail_snoc_elem in Ha. set_solver.
      * rewrite Eq in Ha, Hnd2. simpl in Ha. intros ->. by apply NoDup_cons in Hnd2 as [? _].
  - simpl. split_and!; [by rd S..|done].
  - intros b Hb. apply (st_frame _ _ _ _ S); simpl; set_solver.
Qed.

Lemma PopFront_spec h l x xs :
  dll h l (x :: xs) →
  ∃ h', PopFront l h = Some (Some x, h') ∧ dll h' l xs ∧ dll h' x [] ∧ frame h h' (l :: x :: xs).
Proof.
  intros Hd. unfold PopFront, RemoveNext. rewrite (Empty_spec _ _ _ Hd), bool_decide_false by done. simpl.
  rewrite get_next_nxt by (eapply dll_alloc; [done|left]). cbn [mbind option_bind].
  pose proof Hd as [_ [-> _]]. cbn [mbind option_bind].
  destruct (Delete_spec h l [] x xs Hd) as (h' & -> & ?). by exists h'.
Qed.

Lemma PopBack_spec h l xs x :
  dll h l (xs ++ [x]) →
  ∃ h', PopBack l h = Some (Some x, h') ∧ dll h' l xs ∧ dll h' x [] ∧ frame h h' (l :: xs ++ [x]).
Proof.
  intros Hd. unfold PopBack, RemovePrev.
  rewrite (Empty_spec _ _ _ Hd), bool_decide_false by (by intros [_ ?]%app_nil). simpl.
  rewrite get_prev_prv by (eapply dll_alloc; [done|left]). cbn [mbind option_bind].
  destruct (dll_last _ _ _ Hd) as (zs & p & E & _ & _ & -> & _). cbn [mbind option_bind].
  rewrite app_comm_cons in E. apply app_inj_tail in E as [_ <-].
  destruct (Delete_spec h l xs x [] Hd) as (h' & -> & H). exists h'.
  by rewrite app_nil_r in H.
Qed.

(** ** Properties *)

(** C34: the pointer manipulations implement a sequence.  On a well-linked list of
    the nodes [xs], pushing a free node at either end, pushing a linked run of
    free nodes at the back, popping either end, deleting any node and reading
    the front all succeed, yield a well-linked list of the corresponding
    sequence, leave a removed node linked to itself and touch no node outside
    the list. *)
Theorem LinkedList_refines_sequence h l xs :
  dll h l xs →
  Empty l h = Some (bool_decide (xs = [])) ∧ Front l h = Some (head xs) ∧
  (∀ node, alloc h node → node ∉ l :: xs →
    (∃ h', PushBack l node h = Some h' ∧ dll h' l (xs ++ [node]) ∧ frame h h' (l :: xs ++ [node])) ∧
    (∃ h', PushFront l node h = Some h' ∧ dll h' l (node :: xs) ∧ frame h h' (l :: node :: xs))) ∧
  (∀ first ys z, NoDup (ys ++ [z]) → head (ys ++ [z]) = Some first → chain h (ys ++ [z]) →
    alloc h z → (∀ a, a ∈ ys ++ [z] → a ∉ l :: xs) →
    ∃ h', PushBack_range l first z h = Some h' ∧ dll h' l (xs ++ ys ++ [z]) ∧
          frame h h' (l :: xs ++ ys ++ [z])) ∧
  (xs = [] → PopFront l h = Some (None, h) ∧ PopBack l h = Some (None, h)) ∧
  (∀ x xs', xs = x :: xs' →
    ∃ h', PopFront l h = Some (Some x, h') ∧ dll h' l xs' ∧ dll h' x [] ∧ frame h h' (l :: xs)) ∧
  (∀ xs' x, xs = xs' ++ [x] →
    ∃ h', PopBack l h = Some (Some x, h') ∧ dll h' l xs' ∧ dll h' x [] ∧ frame h h' (l :: xs)) ∧
  (∀ xs1 x xs2, xs = xs1 ++ x :: xs2 →
    ∃ h', Delete x h = Some h' ∧ dll h' l (xs1 ++ xs2) ∧ dll h' x [] ∧ frame h h' (l :: xs)).
Proof.
  intros Hd. split_and!.
  - by apply Empty_spec.
  - by apply Front_spec.
  - intros node Ha Hn. split; [by apply PushBack_spec|by apply PushFront_spec].
  - intros. by apply PushBack_range_spec.
  - intros ->. unfold PopFront, PopBack, RemoveNext, RemovePrev. by rewrite (Empty_spec _ _ _ Hd).
  - intros x xs' ->. by apply PopFront_spec.
  - intros xs' x ->. by apply PopBack_spec.
  - intros xs1 x xs2 ->. by apply Delete_spec.
Qed.

(** The list [1 -> 2 -> 3 -> 1] with head 1, and a free node 4. *)
Definition sample_heap : heap :=
  <[1%positive := mkLinkedList (Some 3%positive) (Some 2%positive)]>
  (<[2%positive := mkLinkedList (Some 1%positive) (Some 3%positive)]>
  (<[3%positive := mkLinkedList (Some 2%positive) (Some 1%positive)]>
  (LinkedList_ctor 4%positive ∅))).

Lemma sample_heap_dll : dll sample_heap 1%positive [2%positive; 3%positive].
Proof. split; [by apply (bool_decide_unpack _)|by split_and!]. Qed.

Lemma LinkedList_refines_sequence_witness :
  ∃ h', PushBack 1%positive 4%positive sample_heap = Some h' ∧
        dll h' 1%positive [2%positive; 3%positive; 4%positive].
Proof.
  destruct (LinkedList_refines_sequence sample_heap 1%positive [2%positive; 3%positive] sample_heap_dll)
    as (_ & _ & H & _).
  destruct (H 4%positive) as [(h' & H1 & H2 & _) _].
  - by eexists.
  - by apply (bool_decide_unpack _).
  - by exists h'.
Defined.

(** The nodes met from [a] along [next] before the head [l]. *)
Fixpoint walk (fuel : nat) h (l : addr) (a : option addr) : option (list addr) :=
  match fuel, a with
  | S fuel, Some a =>
      if decide (a = l) then Some [] else r ← walk fuel h l (nxt h a); Some (a :: r)
  | _, _ => None
  end.

Fixpoint fwd h (c : list addr) : Prop :=
  match c with
  | a :: ((b :: _) as c') => nxt h a = Some b ∧ fwd h c'
  | _ => True
  end.

Lemma chain_fwd h c : chain h c → fwd h c.
Proof. induction c as [|a [|b c] IH]; [done..|]. intros (? & _ & ?). split; [done|by apply IH]. Qed.

(** Extending a forward path by one link, in a heap that agrees on it. *)
Lemma fwd_snoc h h' c y z :
  fwd h (c ++ [y]) → (∀ a, a ∈ c → nxt h' a = nxt h a) → nxt h' y = Some z → fwd h' (c ++ [y; z]).
Proof.
  induction c as [|x c IH]; [done|]. intros Hc Hn Hy.
  assert (IH' : fwd h (c ++ [y]) → fwd h' (c ++ [y; z])).
  { intros Hc'. apply IH; [done| |done]. intros a Ha. apply Hn. by right. }
  destruct c as [|b c]; simpl in *.
  - rewrite Hn by left. tauto.
  - rewrite Hn by left. tauto.
Qed.

Lemma walk_fwd fuel h l xs a ys :
  a :: ys = xs ++ [l] → l ∉ xs → fwd h (xs ++ [l]) → (length xs < fuel)%nat →
  walk fuel h l (Some a) = Some xs.
Proof.
  revert a xs ys. induction fuel as [|fuel IH]; intros a xs ys E Hl Hc Hlen; [lia|].
  destruct xs as [|x xs]; simplify_eq/=; [by rewrite decide_True|].
  rewrite decide_False by set_solver.
  assert (Eb : ∃ b r, xs ++ [l] = b :: r) by (destruct xs; simpl; eauto).
  destruct Eb as (b & r & Eb). rewrite Eb in Hc. destruct Hc as (-> & Hc).
  rewrite (IH b xs r); [done|done|set_solver|by rewrite Eb|lia].
Qed.

(** pushing a node that is still in the list corrupts it: the nodes behind it
    are skipped by every later traversal from the front.  A thread that returns
    from [cv.wait] in [mutexPrivate::wait], [SharedMutexPrivate::Wait] or
    [WaitQueue::ThreadWait] without having been notified is in this situation
    when it waits again, as its entry has not been popped. *)
Theorem PushBack_twice_drops_waiters h l xs1 n xs2 :
  dll h l (xs1 ++ n :: xs2) → xs2 ≠ [] →
  ∃ h', PushBack l n h = Some h' ∧
        walk (S (S (length xs1))) h' l (nxt h' l) = Some (xs1 ++ [n]).
Proof.
  intros Hd Hxs2. pose proof Hd as [Hnd Hc]. destruct (dll_last _ _ _ Hd) as (zs & p & E & _ & _ & Hp & Hpin).
  destruct (exists_last Hxs2) as (ys & p' & ->).
  replace (l :: xs1 ++ n :: ys ++ [p']) with ((l :: xs1 ++ n :: ys) ++ [p']) in E, Hnd
    by (simpl; by rewrite <-app_assoc).
  apply app_inj_tail in E as [_ ->].
  assert (Hpne : ∀ a, a ∈ l :: xs1 ++ [n] → a ≠ p).
  { intros a Ha. eapply NoDup_snoc_ne; [exact Hnd|]. set_solver. }
  destruct (InsertBefore_stored h l n p) as (h' & E' & S); [|..|done| | |].
  { eapply dll_alloc; [done|set_solver]. }
  { intros ->. apply NoDup_app in Hnd as [[Hl _]%NoDup_cons _]. set_solver. }
  { symmetry. apply Hpne. set_solver. } { by eapply dll_alloc. }
  exists h'. split; [done|].
  assert (Hnn : ∀ a, a ∈ l :: xs1 → nxt h' a = nxt h a).
  { intros a Ha. rewrite (st_nxt _ _ _ _ S). simpl.
    assert (a ≠ p) by (apply Hpne; set_solver).
    assert (a ≠ n).
    { intros ->. rewrite app_comm_cons, <-app_assoc, NoDup_app in Hnd. destruct Hnd as (_ & Hx & _).
      eapply Hx; [exact Ha|left]. }
    by simplify_map_eq. }
  assert (Hf : fwd h' ((l :: xs1) ++ [n; l])).
  { apply (fwd_snoc h); [|done|].
    - apply chain_fwd. rewrite <-app_assoc in Hc. cbn [app] in Hc.
      change (l :: xs1 ++ n :: (ys ++ [p]) ++ [l]) with ((l :: xs1) ++ n :: (ys ++ [p]) ++ [l]) in Hc.
      by apply chain_app in Hc as [? _].
    - rewrite (st_nxt _ _ _ _ S). simpl. rewrite lookup_insert_ne; [by simplify_map_eq|].
      symmetry. apply Hpne. set_solver. }
  assert (Eb : ∃ b r, xs1 ++ [n; l] = b :: r) by (destruct xs1; simpl; eauto).
  destruct Eb as (b & r & Eb). simpl in Hf. rewrite Eb in Hf. destruct Hf as [-> Hf]. rewrite <-Eb in Hf.
  eapply walk_fwd; [by rewrite <-app_assoc, <-Eb| |by rewrite <-app_assoc|rewrite length_app; simpl; lia].
  apply NoDup_app in Hnd as [[Hl _]%NoDup_cons _]. set_solver.
Qed.

Lemma PushBack_twice_drops_waiters_witness :
  ∃ h', PushBack 1%positive 2%positive sample_heap = Some h' ∧
        walk 2 h' 1%positive (nxt h' 1%positive) = Some [2%positive].
Proof.
  apply (PushBack_twice_drops_waiters sample_heap 1%positive [] 2%positive [3%positive]);
    [apply sample_heap_dll|done].
Defined.
