(* ===== verification/Scheduler.v ===== *)
(** * The ready queues and the UV tasks

    Models include/sched/task_runqueue.h ([FIFOQueue]), src/sched/stask_scheduler.h,
    include/sched/task_scheduler.h and src/sched/task_scheduler.cpp
    ([TaskScheduler], [STaskScheduler]), include/sched/scheduler.h ([Scheduler]),
    src/tm/uv_task.cpp ([UVTask]) and the executor-task interface of
    src/core/task.cpp.  The intrusive list of a ready queue is the sequence it
    represents (LinkedList.v).  Module [UV] runs the life of UV tasks as atomic
    sections, one per critical section of the scheduler mutex or of [uvMtx]. *)

From S2P Require Import Prelude Types.

(** ** [FIFOQueue] *)

Record FIFOQueue (A : Type) := mkFIFOQueue { fq_list : list A; fq_size : Z }.
Arguments mkFIFOQueue {A} _ _.
Arguments fq_list {A} _.
Arguments fq_size {A} _.

Section fifo.
Context {A : Type}.
Implicit Types (q : FIFOQueue A) (task : A).

Definition fifo_init : FIFOQueue A := mkFIFOQueue [] 0.

Definition EnQueue task q : FIFOQueue A := mkFIFOQueue (fq_list q ++ [task]) (i32 (fq_size q + 1)).

Definition EnQueueAndRetSize task q : Z * FIFOQueue A :=
  let old := fq_size q in (old, mkFIFOQueue (fq_list q ++ [task]) (i32 (old + 1))).

(** [first] to [last] is the chain of nodes [tasks]; [cnt] is what the caller says. *)
Definition EnQueueBatch (tasks : list A) (cnt : Z) q : FIFOQueue A :=
  mkFIFOQueue (fq_list q ++ tasks) (i32 (fq_size q + i32 cnt)).

Definition DeQueue q : option A * FIFOQueue A :=
  match fq_list q with
  | [] => (None, if decide (fq_size q ≠ 0) then mkFIFOQueue [] 0 else q)
  | task :: l => (Some task, mkFIFOQueue l (i32 (fq_size q - 1)))
  end.

Definition fifo_Empty q : bool := bool_decide (fq_list q = []).
Definition fifo_Size q : Z := fq_size q.

(** The size is the length of the list, which fits in an [int]. *)
Definition fifo_ok q : Prop := fq_size q = Z.of_nat (length (fq_list q)) ∧ fq_size q <= INT_MAX.

Lemma fifo_init_ok : fifo_ok fifo_init.
Proof. done. Qed.

Lemma EnQueue_ok task q : fifo_ok q → fq_size q < INT_MAX → fifo_ok (EnQueue task q).
Proof.
  unfold fifo_ok, INT_MAX. intros [Hs _] Hlt. simpl. rewrite length_app. simpl.
  rewrite i32_small; lia.
Qed.

Lemma EnQueueBatch_ok tasks q :
  fifo_ok q → fq_size q + Z.of_nat (length tasks) <= INT_MAX →
  fifo_ok (EnQueueBatch tasks (Z.of_nat (length tasks)) q).
Proof.
  unfold fifo_ok, INT_MAX. intros [Hs _] Hlt. simpl. rewrite length_app, (i32_small (Z.of_nat _)), i32_small; lia.
Qed.

Lemma DeQueue_ok q : fifo_ok q → fifo_ok (DeQueue q).2.
Proof.
  unfold fifo_ok, INT_MAX, DeQueue. destruct q as [[|x l] n]; simpl; intros [Hs Hn].
  - case_decide; simpl; lia.
  - rewrite i32_small; lia.
Qed.

Lemma EnQueueAndRetSize_EnQueue task q : EnQueueAndRetSize task q = (fq_size q, EnQueue task q).
Proof. done. Qed.

Lemma fifo_size_zero q : fifo_ok q → fifo_Size q = 0 ↔ fq_list q = [].
Proof. unfold fifo_ok, fifo_Size. intros [-> _]. destruct (fq_list q); simpl; split; try done; lia. Qed.

Lemma DeQueue_empty q : fifo_ok q → fq_list q = [] → DeQueue q = (None, q).
Proof.
  intros Hok Hl. pose proof (proj2 (fifo_size_zero q Hok) Hl) as Hz.
  unfold DeQueue, fifo_Size in *. rewrite Hl, decide_False by tauto. done.
Qed.
End fifo.

(** ** [STaskScheduler] and [Scheduler] on tasks of any kind *)

Section sched.
Context {T : Type} (qos_of : T → Z).
Implicit Types (task : T).

(** The pushed queue and whether the queue had been empty. *)
Definition STaskScheduler_PushTask task (que : FIFOQueue T) : bool * FIFOQueue T :=
  let que := EnQueue task que in
  let taskCount := fifo_Size que in
  (bool_decide (taskCount = 1), que).

Record SchedulerState := mkScheduler { taskSchedulers : Z → FIFOQueue T; sched_tearDown : bool }.

Definition Scheduler_PushTask (task : option T) (s : SchedulerState) : bool * SchedulerState :=
  match sched_tearDown s, task with
  | false, Some t =>
      let '(r, que) := STaskScheduler_PushTask t (taskSchedulers s (qos_of t)) in
      (r, mkScheduler (<[qos_of t := que]> (taskSchedulers s)) false)
  | _, _ => (false, s)
  end.

(** The part of [PopTask] under the scheduler mutex. *)
Definition Scheduler_PopTask (qos : Z) (s : SchedulerState) : option T * SchedulerState :=
  if sched_tearDown s then (None, s) else
  let '(t, que) := DeQueue (taskSchedulers s qos) in
  (t, mkScheduler (<[qos := que]> (taskSchedulers s)) false).

Definition Scheduler_GetGlobalTaskCnt (qos : Z) (s : SchedulerState) : Z := u64 (fifo_Size (taskSchedulers s qos)).
Definition Scheduler_GlobalTaskEmpty (qos : Z) (s : SchedulerState) : bool := fifo_Empty (taskSchedulers s qos).

(** Pushes at several levels, then a pop of one level: the oldest task of that
    level and no other. *)
Fixpoint Scheduler_push_all (tasks : list T) (s : SchedulerState) : SchedulerState :=
  match tasks with
  | [] => s
  | t :: ts => Scheduler_push_all ts (Scheduler_PushTask (Some t) s).2
  end.

Lemma Scheduler_push_all_list tasks s q :
  sched_tearDown s = false →
  fq_list (taskSchedulers (Scheduler_push_all tasks s) q) =
    fq_list (taskSchedulers s q) ++ filter (λ t, qos_of t = q) tasks ∧
  sched_tearDown (Scheduler_push_all tasks s) = false.
Proof.
  revert s. induction tasks as [|t ts IH]; intros s Hs; simpl; [by rewrite app_nil_r|].
  replace (Scheduler_PushTask (Some t) s).2
    with (mkScheduler (<[qos_of t := EnQueue t (taskSchedulers s (qos_of t))]> (taskSchedulers s)) false)
    by (unfold Scheduler_PushTask; by rewrite Hs).
  destruct (IH (mkScheduler (<[qos_of t := EnQueue t (taskSchedulers s (qos_of t))]> (taskSchedulers s)) false) eq_refl)
    as [H1 H2].
  split; [|done]. rewrite H1. cbn [taskSchedulers]. rewrite filter_cons, fn_insert_decide.
  destruct (decide (q = qos_of t)) as [->|Hne].
  - rewrite decide_True by done. simpl. by rewrite <-app_assoc.
  - by rewrite decide_False by done.
Qed.
End sched.

(** ** UV tasks *)

Module UV.

Definition UV_TASK_MAX_CONCURRENCY : Z := 8.

(** A request of libuv ([ffrt_executor_task_t*], 0 for [nullptr]) and the task object
    made for it. *)
Abbreviation work := N.
Abbreviation nullptr := 0%N.
Record UVTask := mkUVTask { uv_id : positive; uvWork : work }.

#[export] Instance UVTask_eq_dec : EqDecision UVTask.
Proof. solve_decision. Defined.

(** The scheduler of one level, with the tasks outside its queues listed by where
    their threads are:
    - [uv_submitting]: in [Ready] between [PushUVTaskToWaitingQueue] and [PushTask];
    - [uv_popped]: in [PopTask] between [DeQueue] and [GetUVTask];
    - [uv_dequeued]: on a worker before [CheckUVTaskConcurrency];
    - [uv_running]: on a worker in [ExecuteImpl] before the call of [func];
    - [uv_finishing] counts the workers past that call, before [PickWaitingUVTask].
    [wq_inlist] holds the works whose [wq] is linked ([InList]), [uv_alloc] the
    task objects not yet freed, [uv_func] says that [FuncManager] has a function for
    UV tasks.  The last fields count: submissions, calls of [func], successful
    cancellations and objects freed by [Execute] without a call, and the slots that
    [Execute] took and did not give back. *)
Record uv_sys := mk_uv_sys {
  uvTaskConcurrency_ : Z;
  uvTaskWaitingQueue_ : list UVTask;
  cancelSet_ : gset work;
  wq_inlist : gset work;
  uv_submitting : list UVTask;
  uv_que : FIFOQueue UVTask;
  uv_popped : list UVTask;
  uv_dequeued : list UVTask;
  uv_running : list UVTask;
  uv_finishing : Z;
  uv_alloc : gset positive;
  uv_func : bool;
  uv_submitted : work → Z;
  uv_executed : work → Z;
  uv_cancelled : work → Z;
  uv_dropped : work → Z;
  uv_leaked : Z;
}.

#[export] Instance uv_sys_eta : Eta uv_sys := λ s,
  mk_uv_sys (uvTaskConcurrency_ s) (uvTaskWaitingQueue_ s) (cancelSet_ s) (wq_inlist s) (uv_submitting s)
    (uv_que s) (uv_popped s) (uv_dequeued s) (uv_running s) (uv_finishing s) (uv_alloc s)
    (uv_func s) (uv_submitted s) (uv_executed s) (uv_cancelled s) (uv_dropped s) (uv_leaked s).

Definition uv_init (registered : bool) : uv_sys :=
  mk_uv_sys 0 [] ∅ ∅ [] fifo_init [] [] [] 0 ∅ registered (λ _, 0) (λ _, 0) (λ _, 0) (λ _, 0) 0.

(** *** Operations of the scheduler *)

(** [SetDequeued] unlinks the node of the work; a null work has none and is never in
    [wq_inlist]. *)
Definition SetDequeued (t : UVTask) (s : uv_sys) : uv_sys := s <| wq_inlist ::= λ l, l ∖ {[uvWork t]} |>.

Definition UVTask_FreeMem (t : UVTask) (s : uv_sys) : uv_sys := s <| uv_alloc ::= λ l, l ∖ {[uv_id t]} |>.

Definition PushUVTaskToWaitingQueue (t : UVTask) (s : uv_sys) : bool * uv_sys :=
  if decide (uvTaskConcurrency_ s >= UV_TASK_MAX_CONCURRENCY)
  then (true, s <| uvTaskWaitingQueue_ ::= λ q, q ++ [t] |>)
  else (false, s).

Definition CheckUVTaskConcurrency (t : UVTask) (s : uv_sys) : bool * uv_sys :=
  if decide (uvTaskConcurrency_ s >= UV_TASK_MAX_CONCURRENCY)
  then (false, s <| uvTaskWaitingQueue_ ::= λ q, t :: q |>)
  else (true, s <| uvTaskConcurrency_ ::= λ n, n + 1 |>).

Definition PickWaitingUVTask (s : uv_sys) : option UVTask * uv_sys :=
  match uvTaskWaitingQueue_ s with
  | [] => (None, if decide (uvTaskConcurrency_ s > 0) then s <| uvTaskConcurrency_ ::= λ n, n - 1 |> else s)
  | t :: q => (Some t, SetDequeued t (s <| uvTaskWaitingQueue_ := q |>))
  end.

Definition GetUVTask (t : UVTask) (s : uv_sys) : option UVTask * uv_sys :=
  if decide (uvWork t ∈ cancelSet_ s)
  then (None, UVTask_FreeMem t s <| cancelSet_ ::= λ c, c ∖ {[uvWork t]} |>)
  else (Some t, SetDequeued t s).

(** The lambda of [remove_if] on the tasks it removes, then the removal. *)
Definition cancel_waiting (w : work) (s : uv_sys) : uv_sys :=
  let s := foldl (λ s t, if decide (uvWork t = w ∧ w ∉ cancelSet_ s) then SetDequeued t s else s)
             s (uvTaskWaitingQueue_ s) in
  s <| uvTaskWaitingQueue_ ::= filter (λ t, uvWork t ≠ w) |>.

Arguments cancel_waiting : simpl never.

Definition CancelUVWork (w : work) (s : uv_sys) : bool * uv_sys :=
  if decide (w ∉ wq_inlist s) then (false, s) else
  if decide (Exists (λ t, uvWork t = w) (uvTaskWaitingQueue_ s)) then
    let s := cancel_waiting w s in
    if decide (w ∈ cancelSet_ s) then (false, s <| cancelSet_ ::= λ c, c ∖ {[w]} |>) else (true, s)
  else
    let s := s <| wq_inlist ::= λ l, l ∖ {[w]} |> in
    (bool_decide (w ∉ cancelSet_ s), s <| cancelSet_ ::= λ c, c ∪ {[w]} |>).

(** *** Life of a task, one atomic section at a time *)

(** [OnSubmitUV]: the object is allocated and links the [wq] of a work that is not
    null; [Ready] begins. *)
Definition OnSubmitUV (t : UVTask) (s : uv_sys) : uv_sys :=
  let w := uvWork t in
  let s := s <| uv_alloc ::= λ l, l ∪ {[uv_id t]} |> <| uv_submitted := <[w := uv_submitted s w + 1]> (uv_submitted s) |> in
  let s := if decide (w = nullptr) then s else s <| wq_inlist ::= λ l, l ∪ {[w]} |> in
  let '(r, s) := PushUVTaskToWaitingQueue t s in
  if r then s else s <| uv_submitting ::= λ l, t :: l |>.

(** [Ready] after the check: [PushTask]. *)
Definition UVTask_Ready_push (l1 l2 : list UVTask) (t : UVTask) (s : uv_sys) : uv_sys :=
  s <| uv_submitting := l1 ++ l2 |> <| uv_que ::= EnQueue t |>.

Definition UV_PopTask (s : uv_sys) : uv_sys :=
  let '(o, q) := DeQueue (uv_que s) in
  let s := s <| uv_que := q |> in
  match o with Some t => s <| uv_popped ::= λ l, t :: l |> | None => s end.

Definition UV_PopTask_get (l1 l2 : list UVTask) (t : UVTask) (s : uv_sys) : uv_sys :=
  let '(o, s) := GetUVTask t (s <| uv_popped := l1 ++ l2 |>) in
  match o with Some t => s <| uv_dequeued ::= λ l, t :: l |> | None => s end.

(** [DecDeleteRef] of a task that [Execute] does not run. *)
Definition drop_task (t : UVTask) (s : uv_sys) : uv_sys :=
  UVTask_FreeMem t (s <| uv_dropped := <[uvWork t := uv_dropped s (uvWork t) + 1]> (uv_dropped s) |>).

(** [Execute] up to the loop of [ExecuteImpl]. *)
Definition UVTask_Execute (l1 l2 : list UVTask) (t : UVTask) (s : uv_sys) : uv_sys :=
  let s := s <| uv_dequeued := l1 ++ l2 |> in
  if decide (uvWork t = nullptr) then drop_task t s else
  let '(r, s) := CheckUVTaskConcurrency t s in
  if negb r then s else
  if negb (uv_func s) then drop_task t (s <| uv_leaked ::= λ n, n + 1 |>) else
  s <| uv_running ::= λ l, t :: l |>.

(** One turn of the loop of [ExecuteImpl] in two sections: the call of [func]
    with [DecDeleteRef], then [PickWaitingUVTask]. *)
Definition ExecuteImpl_call (l1 l2 : list UVTask) (t : UVTask) (s : uv_sys) : uv_sys :=
  let w := uvWork t in
  UVTask_FreeMem t
    (s <| uv_running := l1 ++ l2 |> <| uv_executed := <[w := uv_executed s w + 1]> (uv_executed s) |>
       <| uv_finishing ::= λ n, n + 1 |>).

Definition ExecuteImpl_pick (s : uv_sys) : uv_sys :=
  let '(o, s) := PickWaitingUVTask (s <| uv_finishing ::= λ n, n - 1 |>) in
  match o with Some t => s <| uv_running ::= λ l, t :: l |> | None => s end.

(** [ffrt_executor_task_cancel] *)
Definition executor_task_cancel (w : work) (s : uv_sys) : uv_sys :=
  let '(r, s) := CancelUVWork w s in
  if r then s <| uv_cancelled := <[w := uv_cancelled s w + 1]> (uv_cancelled s) |> else s.

(** [ffrt_executor_task_register_func] for the type of UV tasks. *)
Definition executor_task_register_func (s : uv_sys) : uv_sys := s <| uv_func := true |>.

(** The submissions of [w] that were neither run, cancelled nor dropped. *)
Definition uv_pending (s : uv_sys) (w : work) : Z :=
  uv_submitted s w - uv_executed s w - uv_cancelled s w - uv_dropped s w.

(** [ffrt_executor_task_submit] refuses a null work, and libuv submits a work again
    only after its previous submission was run or cancelled; everything else
    interleaves freely. *)
Inductive uv_step : uv_sys → uv_sys → Prop :=
| uv_register s : uv_step s (executor_task_register_func s)
| uv_submit s t : uvWork t ≠ nullptr → uv_id t ∉ uv_alloc s → uv_pending s (uvWork t) = 0 → uv_step s (OnSubmitUV t s)
| uv_ready s l1 t l2 :
    uv_submitting s = l1 ++ t :: l2 → fq_size (uv_que s) < INT_MAX →
    uv_step s (UVTask_Ready_push l1 l2 t s)
| uv_pop s : uv_step s (UV_PopTask s)
| uv_get s l1 t l2 : uv_popped s = l1 ++ t :: l2 → uv_step s (UV_PopTask_get l1 l2 t s)
| uv_exec s l1 t l2 : uv_dequeued s = l1 ++ t :: l2 → uv_step s (UVTask_Execute l1 l2 t s)
| uv_call s l1 t l2 : uv_running s = l1 ++ t :: l2 → uv_step s (ExecuteImpl_call l1 l2 t s)
| uv_pick s : 0 < uv_finishing s → uv_step s (ExecuteImpl_pick s)
| uv_cancel s w : w ≠ nullptr → uv_step s (executor_task_cancel w s).

(** The task objects of [w] in a list. *)
Definition of_work (w : work) (l : list UVTask) : Z := zsum (λ t, bool_decide (uvWork t = w)) l.

Arguments of_work : simpl never.

Definition uv_pre (s : uv_sys) (w : work) : Z :=
  of_work w (uv_submitting s) + of_work w (fq_list (uv_que s)) + of_work w (uv_popped s).

(** All the task objects of [w], wherever they are. *)
Definition uv_objects (s : uv_sys) (w : work) : Z :=
  uv_pre s w + of_work w (uvTaskWaitingQueue_ s) + of_work w (uv_dequeued s) + of_work w (uv_running s).

(** *** Invariant *)

(** 1 for the members of a set, 0 for the others. *)
Definition mark (X : gset work) (w : work) : Z := if decide (w ∈ X) then 1 else 0.

(** Of the objects of a work, one is live when the work is pending, and one more
    is to be dropped by [GetUVTask] when the work is in [cancelSet_]; a work
    whose node is linked has no object past the queues. *)
Record uv_work_inv (s : uv_sys) (w : work) : Prop := {
  uw_pending : 0 <= uv_pending s w <= 1;
  uw_objects : uv_objects s w = uv_pending s w + mark (cancelSet_ s) w;
  uw_cancel : mark (cancelSet_ s) w <= uv_pre s w;
  uw_linked : mark (wq_inlist s) w = 1 →
    uv_pending s w = 1 ∧ of_work w (uv_dequeued s) = 0 ∧ of_work w (uv_running s) = 0;
}.

(** The concurrency counter counts workers and the slots that were not given back,
    and tasks wait only at the limit. *)
Record uv_slots_inv (s : uv_sys) : Prop := {
  us_conc : uvTaskConcurrency_ s = Z.of_nat (length (uv_running s)) + uv_finishing s + uv_leaked s;
  us_max : uvTaskConcurrency_ s <= UV_TASK_MAX_CONCURRENCY;
  us_fin : 0 <= uv_finishing s;
  us_leak : 0 <= uv_leaked s;
  us_waiting : uvTaskWaitingQueue_ s ≠ [] → uvTaskConcurrency_ s = UV_TASK_MAX_CONCURRENCY;
  us_que : fifo_ok (uv_que s);
}.

Lemma of_work_app w l1 l2 : of_work w (l1 ++ l2) = of_work w l1 + of_work w l2.
Proof. apply zsum_app. Qed.
Lemma of_work_cons w t l : of_work w (t :: l) = (if decide (uvWork t = w) then 1 else 0) + of_work w l.
Proof.
  unfold of_work. simpl. case_bool_decide; [rewrite decide_True by done|rewrite decide_False by done]; simpl; lia.
Qed.
Lemma of_work_nil w : of_work w [] = 0.
Proof. done. Qed.
Lemma of_work_nonneg w l : 0 <= of_work w l.
Proof. apply zsum_nonneg. Qed.

Lemma of_work_filter w v l :
  of_work w (filter (λ t, uvWork t ≠ v) l) = if decide (w = v) then 0 else of_work w l.
Proof.
  induction l as [|t l IH]; [by destruct (decide (w = v))|]. rewrite filter_cons, of_work_cons.
  destruct (decide (uvWork t ≠ v)); [rewrite of_work_cons, IH|rewrite IH];
    repeat case_decide; subst; try done; congruence.
Qed.

Lemma of_work_Exists w l : Exists (λ t, uvWork t = w) l ↔ 1 <= of_work w l.
Proof.
  rewrite Exists_exists. assert (1 <= of_work w l ↔ 0 < of_work w l) as -> by lia.
  unfold of_work. rewrite zsum_pos.
  split; intros (t & Ht & Hw); exists t; (split; [done|]); [by apply bool_decide_eq_true|].
  by apply bool_decide_eq_true in Hw.
Qed.

Lemma cancel_waiting_eq w s :
  cancel_waiting w s =
  (if decide (Exists (λ t, uvWork t = w) (uvTaskWaitingQueue_ s) ∧ w ∉ cancelSet_ s)
   then s <| wq_inlist ::= λ l, l ∖ {[w]} |> else s)
    <| uvTaskWaitingQueue_ := filter (λ t, uvWork t ≠ w) (uvTaskWaitingQueue_ s) |>.
Proof.
  unfold cancel_waiting.
  assert (∀ l s, foldl (λ s t, if decide (uvWork t = w ∧ w ∉ cancelSet_ s) then SetDequeued t s else s) s l =
    if decide (Exists (λ t, uvWork t = w) l ∧ w ∉ cancelSet_ s) then s <| wq_inlist ::= λ l, l ∖ {[w]} |> else s) as ->;
    [|destruct (decide _); by destruct s].
  clear s. intros l. induction l as [|t l IH]; intros s; cbn [foldl].
  - rewrite decide_False; [done|]. by intros [?%Exists_nil _].
  - rewrite IH. destruct (decide (uvWork t = w ∧ w ∉ cancelSet_ s)) as [[Ht Hc]|Ht].
    + rewrite (decide_True (P := Exists _ (t :: l) ∧ _)) by (split; [by left|done]).
      subst w. destruct s; unfold SetDequeued; simpl in *. case_decide; simpl; [|done]. f_equal. set_solver.
    + apply decide_ext. rewrite Exists_cons. tauto.
Qed.

#[local] Ltac slots := split; simpl; unfold UV_TASK_MAX_CONCURRENCY; auto.

Lemma uv_slots_step s s' : uv_slots_inv s → uv_step s s' → uv_slots_inv s'.
Proof.
  intros [Hc Hm Hf Hk Hw Hq] Hst. unfold UV_TASK_MAX_CONCURRENCY in *. destruct Hst as
    [s|s t|s l1 t l2 Hl Hlt|s|s l1 t l2 Hl|s l1 t l2 Hl|s l1 t l2 Hl|s Hp|s w _].
  - slots.
  - unfold OnSubmitUV, PushUVTaskToWaitingQueue, UV_TASK_MAX_CONCURRENCY. destruct (decide (_ = nullptr)); simpl;
      case_decide; simpl; slots; intros; lia.
  - slots. by apply EnQueue_ok.
  - unfold UV_PopTask. pose proof (DeQueue_ok _ Hq) as Hq'. destruct (DeQueue (uv_que s)) as [[t|] q]; slots.
  - unfold UV_PopTask_get, GetUVTask. simpl. case_decide; slots.
  - unfold UVTask_Execute, CheckUVTaskConcurrency, UV_TASK_MAX_CONCURRENCY. simpl. case_decide; [slots|].
    case_decide; simpl; [slots; intros; lia|]. assert (uvTaskWaitingQueue_ s = []) as Ew.
    { destruct (uvTaskWaitingQueue_ s); [done|]. specialize (Hw ltac:(done)). lia. }
    destruct (uv_func s); slots; rewrite ?Ew; try lia; done.
  - rewrite Hl, length_app in *. unfold ExecuteImpl_call. slots; rewrite ?length_app; simpl in *; lia.
  - unfold ExecuteImpl_pick, PickWaitingUVTask. simpl. destruct (uvTaskWaitingQueue_ s) as [|t q] eqn:Ew; simpl.
    + rewrite decide_True by lia. slots; rewrite ?Ew; auto; try lia. done.
    + specialize (Hw ltac:(done)). slots; lia.
  - unfold executor_task_cancel, CancelUVWork. rewrite cancel_waiting_eq.
    destruct (decide (w ∉ wq_inlist s)); [by slots|].
    destruct (decide (Exists _ _)); [|case_bool_decide; slots].
    destruct (decide (_ ∧ _)); simpl; case_decide; slots; intros Hne; apply Hw; intros E; by rewrite E in Hne.
Qed.

Lemma mark_range X w : 0 <= mark X w <= 1.
Proof. unfold mark. case_decide; lia. Qed.
Lemma mark_union X v w : mark (X ∪ {[v]}) w = if decide (v = w) then 1 else mark X w.
Proof. unfold mark. repeat case_decide; set_solver. Qed.
Lemma mark_difference X v w : mark (X ∖ {[v]}) w = if decide (v = w) then 0 else mark X w.
Proof. unfold mark. repeat case_decide; set_solver. Qed.
Lemma mark_in X w : w ∈ X ↔ mark X w = 1.
Proof. unfold mark. by case_decide. Qed.
Lemma mark_notin X w : w ∉ X ↔ mark X w = 0.
Proof. unfold mark. by case_decide. Qed.

Lemma fn_add_one (f : work → Z) v w :
  <[v := f v + 1]> f w = f w + (if decide (v = w) then 1 else 0).
Proof. rewrite fn_insert_decide. repeat case_decide; subst; try done; lia. Qed.

(** The sums and marks of a work after a step, then linear arithmetic; [E] is
    what is known of the list the step changes. *)
#[local] Ltac uv_facts :=
  repeat match goal with
  | _ : context [of_work ?w ?l] |- _ =>
      lazymatch goal with
      | _ : 0 <= of_work w l |- _ => fail
      | _ => pose proof (of_work_nonneg w l)
      end
  | _ : context [mark ?X ?w] |- _ =>
      lazymatch goal with
      | _ : 0 <= mark X w <= 1 |- _ => fail
      | _ => pose proof (mark_range X w)
      end
  end.

#[local] Ltac uvw E :=
  unfold uv_pending, uv_objects, uv_pre, SetDequeued in *; simpl in *;
  rewrite ?mark_in, ?mark_notin in *; try (rewrite E in * );
  repeat (rewrite ?of_work_app, ?of_work_cons, ?of_work_nil, ?fn_add_one, ?mark_union, ?mark_difference,
            ?of_work_filter in *; simpl in * );
  uv_facts; repeat (case_decide; subst); uv_facts; try lia.

Lemma uv_work_submit s t w :
  uvWork t ≠ nullptr → uv_work_inv s w → uv_pending s (uvWork t) = 0 → uv_work_inv (OnSubmitUV t s) w.
Proof.
  intros Hn [Hp Ho Hc Hi] H0. unfold OnSubmitUV, PushUVTaskToWaitingQueue. rewrite (decide_False (P := _ = nullptr)) by done. simpl.
  destruct (decide (uvTaskConcurrency_ s >= UV_TASK_MAX_CONCURRENCY)); split; uvw I.
Qed.

Lemma uv_work_ready s l1 t l2 w :
  uv_work_inv s w → uv_submitting s = l1 ++ t :: l2 → uv_work_inv (UVTask_Ready_push l1 l2 t s) w.
Proof. intros [Hp Ho Hc Hi] Hl. unfold UVTask_Ready_push. split; uvw Hl. Qed.

Lemma uv_work_pop s w : uv_work_inv s w → uv_work_inv (UV_PopTask s) w.
Proof.
  intros [Hp Ho Hc Hi]. unfold UV_PopTask, DeQueue.
  destruct (fq_list (uv_que s)) as [|t q] eqn:Eq; [destruct (decide _)|]; simpl; split; uvw Eq.
Qed.

Lemma uv_work_get s l1 t l2 w :
  uv_work_inv s w → uv_popped s = l1 ++ t :: l2 → uv_work_inv (UV_PopTask_get l1 l2 t s) w.
Proof.
  intros [Hp Ho Hc Hi] Hl. unfold UV_PopTask_get, GetUVTask. simpl.
  destruct (decide (uvWork t ∈ cancelSet_ s)); simpl; split; uvw Hl.
Qed.

Lemma uv_work_exec s l1 t l2 w :
  uv_work_inv s w → uv_dequeued s = l1 ++ t :: l2 → uv_work_inv (UVTask_Execute l1 l2 t s) w.
Proof.
  intros [Hp Ho Hc Hi] Hl. unfold UVTask_Execute, CheckUVTaskConcurrency, drop_task. cbv zeta.
  destruct (decide (uvWork t = nullptr)) as [_|_]; [split; uvw Hl|]. simpl.
  destruct (decide (uvTaskConcurrency_ s >= UV_TASK_MAX_CONCURRENCY)); simpl; [split; uvw Hl|].
  destruct (uv_func s); simpl; split; uvw Hl.
Qed.

Lemma uv_work_call s l1 t l2 w :
  uv_work_inv s w → uv_running s = l1 ++ t :: l2 → uv_work_inv (ExecuteImpl_call l1 l2 t s) w.
Proof. intros [Hp Ho Hc Hi] Hl. unfold ExecuteImpl_call. split; uvw Hl. Qed.

Lemma uv_work_pick s w : uv_work_inv s w → uv_work_inv (ExecuteImpl_pick s) w.
Proof.
  intros [Hp Ho Hc Hi]. unfold ExecuteImpl_pick, PickWaitingUVTask. simpl.
  destruct (uvTaskWaitingQueue_ s) as [|t q] eqn:Eq; simpl; [|split; uvw Eq].
  destruct (decide _); by split; uvw Eq.
Qed.

Lemma uv_work_cancel s v w : uv_work_inv s w → uv_work_inv s v → uv_work_inv (executor_task_cancel v s) w.
Proof.
  intros [Hp Ho Hc Hi] [_ Ho' Hc' Hi']. unfold executor_task_cancel, CancelUVWork. rewrite cancel_waiting_eq.
  destruct (decide (v ∉ wq_inlist s)); [by split|].
  destruct (decide (Exists _ _)) as [He|He].
  - destruct (decide (v ∈ cancelSet_ s)) as [Hv|Hv].
    + rewrite (decide_False (P := _ ∧ _)) by tauto. simpl. rewrite decide_True by done.
      rewrite of_work_Exists in He. split; uvw I.
    + rewrite (decide_True (P := _ ∧ _)) by done. simpl. rewrite decide_False by done.
      rewrite of_work_Exists in He. split; uvw I.
  - rewrite of_work_Exists in He. simpl. case_bool_decide; split; uvw I.
Qed.

Lemma uv_inv_reachable registered s :
  rtc uv_step (uv_init registered) s → uv_slots_inv s ∧ ∀ w, uv_work_inv s w.
Proof.
  apply (rtc_invariant _ (λ s, uv_slots_inv s ∧ ∀ w, uv_work_inv s w)).
  - split; [by split|]. by split.
  - clear s. intros s s' [Hs Hw] Hst. split; [by eapply uv_slots_step|]. intros w.
    specialize (Hw w) as Hww. destruct Hst; [by destruct Hww|..];
      eauto using uv_work_submit, uv_work_ready, uv_work_pop, uv_work_get, uv_work_exec, uv_work_call,
        uv_work_pick, uv_work_cancel.
Qed.

(** No object has a null work, and with a registered function none is dropped. *)
Record uv_kept (s : uv_sys) : Prop := {
  uk_pending : uv_pending s nullptr = 0;
  uk_cancel : mark (cancelSet_ s) nullptr = 0;
  uk_dropped : uv_func s = true ∧ uv_leaked s = 0 ∧ ∀ w, uv_dropped s w = 0;
}.

Lemma uv_kept_exec s l1 t l2 :
  uv_work_inv s nullptr → uv_kept s → uv_dequeued s = l1 ++ t :: l2 → uv_kept (UVTask_Execute l1 l2 t s).
Proof.
  intros [_ Ho _ _] [Hp Hc (Hf & Hk & Hd)] Hl. unfold UVTask_Execute, CheckUVTaskConcurrency. cbv zeta.
  rewrite decide_False; [|intros Ht; uvw Hl].
  simpl. destruct (decide (_ >= _)); simpl; [by split|]. rewrite Hf. by split.
Qed.

Lemma uv_kept_step s s' : (∀ w, uv_work_inv s w) → uv_kept s → uv_step s s' → uv_kept s'.
Proof.
  intros Hw HK Hst. pose proof (Hw nullptr) as HN. destruct Hst as
    [s|s t Hn Hi H0|s l1 t l2 Hl Hlt|s|s l1 t l2 Hl|s l1 t l2 Hl|s l1 t l2 Hl|s Hp|s w Hn];
    [| | | | |by eapply uv_kept_exec|..]; destruct HK as [HP Hc HD].
  - split; [done|done|]. by destruct HD as (_ & ?).
  - unfold OnSubmitUV, PushUVTaskToWaitingQueue. rewrite (decide_False (P := _ = nullptr)) by done. simpl.
    destruct (decide (_ >= _)); split; simpl; auto;
      unfold uv_pending; simpl; by rewrite fn_lookup_insert_ne.
  - by split.
  - unfold UV_PopTask. by destruct (DeQueue _) as [[?|] ?].
  - unfold UV_PopTask_get, GetUVTask. simpl. destruct (decide _); split; simpl; auto. rewrite mark_difference. by case_decide.
  - split; simpl; auto. destruct HN as [_ Ho _ _]. clear HD. uvw Hl.
  - unfold ExecuteImpl_pick, PickWaitingUVTask. simpl. destruct (uvTaskWaitingQueue_ s); [destruct (decide _)|]; by split.
  - unfold executor_task_cancel, CancelUVWork. rewrite cancel_waiting_eq.
    destruct (decide (w ∉ wq_inlist s)); [by split|]. destruct (decide (Exists _ _)).
    + destruct (decide (_ ∧ _)); simpl; destruct (decide (_ ∈ _)); split; simpl; auto;
        rewrite ?mark_difference; try (by case_decide); unfold uv_pending in *; simpl; by rewrite fn_lookup_insert_ne.
    + simpl. case_bool_decide; split; simpl; auto; rewrite ?mark_union, ?decide_False by done; auto;
        unfold uv_pending in *; simpl; by rewrite fn_lookup_insert_ne.
Qed.

Lemma uv_kept_reachable s : rtc uv_step (uv_init true) s → uv_kept s.
Proof.
  revert s. apply rtc_ind_r; [by split|].
  intros s1 s2 Hr1 Hst HK. eapply uv_kept_step; [|exact HK|exact Hst]. by eapply uv_inv_reachable.
Qed.

(** C28: every accepted submission of a UV work is run exactly once, cancelled exactly
    once, dropped by [Execute] exactly once, or is the one object still on its way,
    whatever the interleaving of submissions, registration, workers and
    cancellations and also when a work is submitted again while the object of a
    cancelled submission is still in the ready queue; the objects marked by
    [cancelSet_] are dropped before they run.  When a function is registered before
    the first submission nothing is dropped, so that every submission runs or is
    cancelled. *)
Theorem uv_exactly_once registered s w :
  rtc uv_step (uv_init registered) s →
  let live := uv_objects s w - mark (cancelSet_ s) w in
  uv_submitted s w = uv_executed s w + uv_cancelled s w + uv_dropped s w + live ∧ 0 <= live <= 1 ∧
  (w ∈ cancelSet_ s → 1 <= uv_pre s w) ∧ (registered = true → uv_dropped s w = 0).
Proof.
  intros Hr. destruct (uv_inv_reachable registered s Hr) as [_ Hw]. destruct (Hw w) as [Hp Ho Hc _]. unfold uv_pending in *.
  rewrite mark_in. split_and!; try lia. intros ->. by apply uv_kept_reachable.
Qed.

(** at most eight workers of a level run UV tasks; a task waits only while
    eight workers are in [ExecuteImpl], each of which takes a waiting task before
    it leaves, so no waiting task is stranded when a function is registered. *)
Theorem uv_waiting_attended s :
  rtc uv_step (uv_init true) s →
  uvTaskConcurrency_ s = Z.of_nat (length (uv_running s)) + uv_finishing s ∧
  uvTaskConcurrency_ s <= UV_TASK_MAX_CONCURRENCY ∧
  (uvTaskWaitingQueue_ s ≠ [] →
   Z.of_nat (length (uv_running s)) + uv_finishing s = UV_TASK_MAX_CONCURRENCY).
Proof.
  intros Hr. destruct (uv_inv_reachable true s Hr) as [[Hc Hm _ _ Hw _] _].
  destruct (uv_kept_reachable s Hr) as [_ _ (_ & Hk & _)]. split_and!; [lia|auto|]. intros Hne. specialize (Hw Hne). lia.
Qed.

(** A work is cancelled in the ready queue, submitted again and run while the
    cancelled object is still queued. *)
#[local] Abbreviation w1 := 7%N.
#[local] Abbreviation t1 := (mkUVTask 1 w1).
#[local] Abbreviation t2 := (mkUVTask 2 w1).
Definition uv_demo : uv_sys :=
  let s := UVTask_Ready_push [] [] t1 (OnSubmitUV t1 (uv_init true)) in
  let s := executor_task_cancel w1 s in
  let s := UVTask_Ready_push [] [] t2 (OnSubmitUV t2 s) in
  UVTask_Execute [] [] t2 (UV_PopTask_get [] [] t2 (UV_PopTask (UV_PopTask_get [] [] t1 (UV_PopTask s)))).

Lemma uv_demo_reachable : rtc uv_step (uv_init true) uv_demo.
Proof.
  unfold uv_demo. cbv zeta.
  eapply rtc_l; [by apply (uv_submit _ t1)|]. eapply rtc_l; [by apply (uv_ready _ [] t1 [])|].
  eapply rtc_l; [by apply (uv_cancel _ w1)|].
  eapply rtc_l; [by apply (uv_submit _ t2)|]. eapply rtc_l; [by apply (uv_ready _ [] t2 [])|].
  eapply rtc_l; [apply uv_pop|]. eapply rtc_l; [by apply (uv_get _ [] t1 [])|].
  eapply rtc_l; [apply uv_pop|]. eapply rtc_l; [by apply (uv_get _ [] t2 [])|].
  apply rtc_once. by apply (uv_exec _ [] t2 []).
Qed.

Lemma uv_exactly_once_witness :
  uv_submitted uv_demo w1 = 2 ∧ uv_running uv_demo = [t2] ∧ uv_dropped uv_demo w1 = 0 ∧
  uv_submitted uv_demo w1 = uv_executed uv_demo w1 + uv_cancelled uv_demo w1 + uv_objects uv_demo w1.
Proof.
  destruct (uv_exactly_once true uv_demo w1 uv_demo_reachable) as (H & _ & _ & Hd). specialize (Hd eq_refl).
  split_and!; [by vm_compute|by vm_compute|exact Hd|].
  assert (mark (cancelSet_ uv_demo) w1 = 0) as Hm by (by vm_compute). cbv zeta in H. lia.
Defined.

Lemma uv_waiting_attended_witness : uvTaskConcurrency_ uv_demo <= UV_TASK_MAX_CONCURRENCY.
Proof. apply (uv_waiting_attended uv_demo uv_demo_reachable). Defined.

(** *** Without a registered function every UV task takes a slot for good *)

(** All slots are taken and no worker is there to give one back. *)
Record uv_stuck (s : uv_sys) : Prop := {
  st_conc : uvTaskConcurrency_ s = UV_TASK_MAX_CONCURRENCY;
  st_run : uv_running s = [];
  st_fin : uv_finishing s = 0;
  st_exec w : uv_executed s w = 0;
}.

Lemma uv_stuck_step s s' : uv_stuck s → uv_step s s' → uv_stuck s'.
Proof.
  intros [Hc Hr Hf He] Hst. destruct Hst as
    [s|s t|s l1 t l2 Hl Hlt|s|s l1 t l2 Hl|s l1 t l2 Hl|s l1 t l2 Hl|s Hp|s w _].
  - by split.
  - unfold OnSubmitUV, PushUVTaskToWaitingQueue. destruct (decide (_ = nullptr)); simpl; by rewrite decide_True by (rewrite Hc; done).
  - by split.
  - unfold UV_PopTask. by destruct (DeQueue _) as [[?|] ?].
  - unfold UV_PopTask_get, GetUVTask. simpl. by destruct (decide _).
  - unfold UVTask_Execute, CheckUVTaskConcurrency. cbv zeta. destruct (decide (_ = nullptr)); [by split|].
    simpl. by rewrite decide_True by (rewrite Hc; done).
  - rewrite Hr in Hl. by apply app_cons_not_nil in Hl.
  - lia.
  - unfold executor_task_cancel, CancelUVWork. rewrite cancel_waiting_eq.
    destruct (decide (_ ∉ _)); [by split|]. destruct (decide (Exists _ _)).
    + destruct (decide (_ ∧ _)); simpl; destruct (decide (_ ∈ _)); by split.
    + simpl. by case_bool_decide.
Qed.

(** The tasks of [ids], one work each, are submitted, popped and executed one
    after the other. *)
Fixpoint uv_unregistered (ids : list positive) (s : uv_sys) : uv_sys :=
  match ids with
  | [] => s
  | i :: ids =>
      let t := mkUVTask i (N.pos i) in
      let s := UV_PopTask (UVTask_Ready_push [] [] t (OnSubmitUV t s)) in
      uv_unregistered ids (UVTask_Execute [] [] t (UV_PopTask_get [] [] t s))
  end.

(** One task through the scheduler, from submission to [Execute]. *)
#[local] Ltac uv_round i :=
  eapply rtc_l; [apply (uv_submit _ (mkUVTask i (N.pos i))); [done|apply (bool_decide_unpack _)|]; by vm_compute|];
  eapply rtc_l; [apply (uv_ready _ [] (mkUVTask i (N.pos i)) []); by vm_compute|];
  eapply rtc_l; [apply uv_pop|];
  eapply rtc_l; [apply (uv_get _ [] (mkUVTask i (N.pos i)) []); by vm_compute|];
  eapply rtc_l; [apply (uv_exec _ [] (mkUVTask i (N.pos i)) []); by vm_compute|].

(** [Execute] takes one of the eight slots of its level before it looks up the
    registered function and does not give it back when there is none.  After
    eight such tasks no UV task of this level ever runs, not even after a
    function has been registered: all later ones stay in the waiting queue. *)
Theorem uv_unregistered_stuck :
  ∃ s, rtc uv_step (uv_init false) s ∧ uv_running s = [] ∧ uv_finishing s = 0 ∧
       uvTaskConcurrency_ s = UV_TASK_MAX_CONCURRENCY ∧
       ∀ s', rtc uv_step s s' → ∀ w, uv_executed s' w = 0.
Proof.
  exists (uv_unregistered [1;2;3;4;5;6;7;8]%positive (uv_init false)).
  assert (uv_stuck (uv_unregistered [1;2;3;4;5;6;7;8]%positive (uv_init false))) as Hst by (by split).
  split_and!; [|by vm_compute..|].
  - unfold uv_unregistered. cbv zeta.
    uv_round 1%positive. uv_round 2%positive. uv_round 3%positive. uv_round 4%positive.
    uv_round 5%positive. uv_round 6%positive. uv_round 7%positive. uv_round 8%positive.
    apply rtc_refl.
  - intros s' Hr w. by apply (rtc_invariant _ _ _ _ Hst uv_stuck_step Hr).
Qed.

(** *** Cancelling a waiting task leaks it *)

(** The object leaves the waiting queue, the cancellation succeeds, and nothing
    frees it: no queue or worker holds it any more. *)
Lemma CancelUVWork_leaks s t :
  t ∈ uvTaskWaitingQueue_ s → uvWork t ∈ wq_inlist s → uvWork t ∉ cancelSet_ s → uv_id t ∈ uv_alloc s →
  fst (CancelUVWork (uvWork t) s) = true ∧
  (t ∉ uvTaskWaitingQueue_ (snd (CancelUVWork (uvWork t) s))) ∧ uv_id t ∈ uv_alloc (snd (CancelUVWork (uvWork t) s)).
Proof.
  intros Ht Hl Hc Ha. unfold CancelUVWork. rewrite decide_False by tauto.
  assert (Exists (λ x, uvWork x = uvWork t) (uvTaskWaitingQueue_ s)) as He by (apply Exists_exists; eauto).
  rewrite (decide_True (P := Exists _ _)) by exact He.
  rewrite cancel_waiting_eq, (decide_True (P := _ ∧ _)) by (split; [exact He|done]). simpl.
  rewrite decide_False by done. simpl. rewrite list_elem_of_filter. tauto.
Qed.

End UV.
