(* ===== verification/ExecuteUnit.v ===== *)
(** * The execute unit: worker groups and task notification

    Models include/eu/execute_unit.h and src/eu/execute_unit.cpp ([ExecuteUnit],
    [CPUWorkerGroup]), src/eu/sexecute_unit.{h,cpp} ([SExecuteUnit]) and the loop
    of src/eu/cpu_worker.cpp ([CPUWorker]) for one QoS level, with the ready
    queue of Scheduler.v.  Every thread that submits tasks or is a worker is a
    position of a list; its program counter says which atomic section it runs
    next.  A section is what happens under the group lock, under the scheduler
    mutex, or one atomic access.  The execute unit is alive throughout
    ([tearDown] is false). *)

From S2P Require Import Prelude Types Scheduler.

(** ** The worker group *)

Record CPUWorkerGroup := mkGroup {
  hardLimit : Z;
  maxConcurrency : Z;
  workerStackSize : Z;
  setWorkerMaxNum : bool;
  executingNum : Z;
  sleepingNum : Z;
  irqEnable : bool;
  pendingWakeCnt : Z;
  deepSleepingWorkerNum : Z;
}.

#[export] Instance CPUWorkerGroup_eta : Eta CPUWorkerGroup := λ g,
  mkGroup (hardLimit g) (maxConcurrency g) (workerStackSize g) (setWorkerMaxNum g) (executingNum g)
    (sleepingNum g) (irqEnable g) (pendingWakeCnt g) (deepSleepingWorkerNum g).

Implicit Types g : CPUWorkerGroup.

Definition WorkerCreate g : CPUWorkerGroup := g <| executingNum ::= λ n, n + 1 |>.
Definition RollBackCreate g : CPUWorkerGroup := g <| executingNum ::= λ n, n - 1 |>.
Definition IntoDeepSleep g : CPUWorkerGroup := g <| deepSleepingWorkerNum ::= λ n, n + 1 |>.

Definition irq_woken (irqWake : bool) g : CPUWorkerGroup := if irqWake then g <| irqEnable := false |> else g.

Definition OutOfDeepSleep (irqWake : bool) g : CPUWorkerGroup :=
  irq_woken irqWake g <| sleepingNum ::= λ n, n - 1 |> <| deepSleepingWorkerNum ::= λ n, n - 1 |>
    <| executingNum ::= λ n, n + 1 |>.

Definition OutOfSleep (irqWake : bool) g : CPUWorkerGroup :=
  let g := irq_woken irqWake g in
  let g := if decide (pendingWakeCnt g > 0) then g <| pendingWakeCnt ::= λ n, n - 1 |> else g in
  g <| sleepingNum ::= λ n, n - 1 |> <| executingNum ::= λ n, n + 1 |>.

Definition WorkerDestroy g : CPUWorkerGroup := g <| sleepingNum ::= λ n, n - 1 |>.

Definition TryDestroy g : bool * CPUWorkerGroup :=
  let g := g <| sleepingNum ::= λ n, n - 1 |> in (bool_decide (sleepingNum g > 0), g).

Definition RollbackDestroy (irqWake : bool) g : CPUWorkerGroup :=
  irq_woken irqWake g <| executingNum ::= λ n, n + 1 |>.

Definition IntoSleep g : CPUWorkerGroup :=
  g <| sleepingNum ::= λ n, n + 1 |> <| executingNum ::= λ n, n - 1 |>.

Definition SetWorkerMaxNum (num : Z) g : Z * CPUWorkerGroup :=
  if setWorkerMaxNum g then (-1, g)
  else (0, g <| hardLimit := u64 num |> <| setWorkerMaxNum := true |>).

(** [getpagesize] is a call of the system. *)
Definition SetWorkerStackSize (pageSize : Z) (hasThreads : bool) (stack_size : Z) g : Z * CPUWorkerGroup :=
  if hasThreads then (-1, g) else
  if decide (pageSize < 0) then (-1, g) else
  (0, g <| workerStackSize := Z.land (u64 (stack_size - 1 + pageSize)) (u64 (- pageSize)) |>).

(** [scaling]: built with FFRT_WORKERS_DYNAMIC_SCALING and [blockAwareInit];
    [nrBlocked] is the snapshot the kernel reports. *)
Definition GetRunningNum (scaling : bool) (nrBlocked : Z) g : Z :=
  let runningNum := u64 (executingNum g) in
  if scaling && bool_decide (u64 (executingNum g) >= maxConcurrency g)
             && bool_decide (u32 (executingNum g) >= nrBlocked)
  then u32 (executingNum g - nrBlocked) else runningNum.

(** ** What a notification decides *)

Inductive TaskNotifyType := TASK_PICKED | TASK_ADDED | TASK_ESCAPED | TASK_ADDED_RTQ.

#[export] Instance TaskNotifyType_eq_dec : EqDecision TaskNotifyType.
Proof. solve_decision. Defined.

Definition TIGGER_SUPPRESS_WORKER_COUNT : Z := 4.
Definition TIGGER_SUPPRESS_EXECUTION_NUM : Z := 2.
Definition MAX_ESCAPE_WORKER_NUM : Z := 1024.

(** What is left to do once the group lock is given up: nothing, [WakeupWorkers],
    [IncWorker] after [WorkerCreate], or [SubmitEscape]. *)
Inductive poke_action := PokeNothing | PokeWake | PokeCreate | PokeSubmitEscape (totalNum : Z).

Definition total_num g : Z := u64 (sleepingNum g + executingNum g).

Definition PokeImpl (scaling : bool) (nrBlocked taskCount : Z) (notifyType : TaskNotifyType) g : poke_action :=
  let runningNum := GetRunningNum scaling nrBlocked g in
  let totalNum := total_num g in
  let tiggerSuppression := bool_decide (totalNum > TIGGER_SUPPRESS_WORKER_COUNT) &&
    bool_decide (runningNum > TIGGER_SUPPRESS_EXECUTION_NUM) && bool_decide (taskCount < runningNum) in
  if negb (bool_decide (notifyType = TASK_ADDED)) && negb (bool_decide (notifyType = TASK_ESCAPED)) && tiggerSuppression
  then PokeNothing
  else if bool_decide (u32 (sleepingNum g) > 0) && bool_decide (runningNum < maxConcurrency g) then PokeWake
  else if bool_decide (runningNum < maxConcurrency g) && bool_decide (totalNum < hardLimit g) then PokeCreate
  else if bool_decide (runningNum = 0) && bool_decide (totalNum < MAX_ESCAPE_WORKER_NUM) then PokeSubmitEscape totalNum
  else PokeNothing.

(** [remainingLoadRatio <= thresholdTaskPick]; the quotient of two [int]s is at
    most 1.0 in double precision exactly when the first is at most the second. *)
Definition load_ratio_low (taskCount wakedWorkerCount maxConcurrency : Z) : bool :=
  if decide (wakedWorkerCount = 0) then bool_decide (maxConcurrency <= 1)
  else bool_decide (taskCount <= wakedWorkerCount).

Definition HandleTaskNotifyConservative (taskCount : Z) (notifyType : TaskNotifyType) g : poke_action :=
  if bool_decide (notifyType = TASK_PICKED) && load_ratio_low taskCount (executingNum g) (maxConcurrency g)
  then PokeNothing
  else if bool_decide (u32 (executingNum g) < maxConcurrency g)
  then if decide (sleepingNum g = 0) then PokeCreate else PokeWake
  else PokeNothing.

Definition HandleTaskNotifyUltraConservative (scaling : bool) (nrBlocked taskCount : Z) g : poke_action :=
  let runningNum := i32 (GetRunningNum scaling nrBlocked g) in
  if scaling && bool_decide (taskCount = runningNum) then PokeNothing
  else if decide (taskCount < runningNum) then PokeNothing
  else if decide (runningNum < i32 (maxConcurrency g))
  then if decide (sleepingNum g = 0) then PokeCreate else PokeWake
  else PokeNothing.

(** [ExecuteEscape] under the group lock. *)
Definition ExecuteEscape (scaling : bool) (nrBlocked : Z) (enableEscape : bool) g : poke_action :=
  let runningNum := GetRunningNum scaling nrBlocked g in
  let totalNum := total_num g in
  if bool_decide (sleepingNum g > 0) && bool_decide (runningNum < maxConcurrency g) then PokeWake
  else if bool_decide (runningNum = 0) && bool_decide (totalNum < MAX_ESCAPE_WORKER_NUM)
  then if enableEscape then PokeCreate else PokeNothing
  else PokeNothing.

(** The strategies of NOTIFY_FUNCTION_FACTORY. *)
Inductive strategy := NotifyDefault | NotifyConservative | NotifyUltraConservative.

#[export] Instance strategy_eq_dec : EqDecision strategy.
Proof. solve_decision. Defined.

(** The [switch] of [HandleTaskNotifyDefault] and the count read by each strategy;
    [None] when it is zero. *)
Definition notify_count (strat : strategy) (notifyType : TaskNotifyType) (que : FIFOQueue positive) : option Z :=
  let cnt := u64 (fifo_Size que) in
  match strat with
  | NotifyDefault =>
      match notifyType with
      | TASK_ADDED | TASK_PICKED | TASK_ESCAPED => if decide (cnt > 0) then Some (u32 cnt) else None
      | TASK_ADDED_RTQ => None
      end
  | _ => if decide (i32 cnt = 0) then None else Some (i32 cnt)
  end.

Definition notify_decide (strat : strategy) (scaling : bool) (nrBlocked taskCount : Z) (ty : TaskNotifyType) g : poke_action :=
  match strat with
  | NotifyDefault => PokeImpl scaling nrBlocked taskCount ty g
  | NotifyConservative => HandleTaskNotifyConservative taskCount ty g
  | NotifyUltraConservative => HandleTaskNotifyUltraConservative scaling nrBlocked taskCount g
  end.

(** [NotifyTask]: the type each entry passes on. *)
Definition NotifyTask (TYPE : TaskNotifyType) : TaskNotifyType :=
  match TYPE with
  | TASK_ADDED => TASK_ADDED | TASK_PICKED => TASK_PICKED | TASK_ESCAPED => TASK_ESCAPED
  | TASK_ADDED_RTQ => TASK_ADDED
  end.

(** ** Threads *)

(** Where a thread is inside [NotifyTask], the escape callback or [NotifyWorkers]:
    - [PkCount]: about to read the number of ready tasks;
    - [PkLock]: has read it, about to take the group lock;
    - [PkWake]: about to call [cv.notify_one];
    - [PkInc]: after [WorkerCreate], about to call [IncWorker];
    - [PkArm], [PkFlag]: in [SubmitEscape], before [DelayedWakeup] and before
      [submittedDelayedTask_] is set;
    - [PkEscCount], [PkEscLock]: in [ExecuteEscape], before the count is read
      and before the lock is taken;
    - [PkNotify n]: in [NotifyWorkers] with [n] calls of [notify_one] left. *)
Inductive poke :=
| PkCount (ty : TaskNotifyType)
| PkLock (ty : TaskNotifyType) (taskCount : Z)
| PkWake
| PkInc
| PkArm
| PkFlag
| PkEscCount
| PkEscLock
| PkNotify (n : nat).

(** What a thread does when that is done: go back to the code of the user, go on
    running a task as a worker, or end the escape callback. *)
Inductive after := Return | Run | EscapeCb.

#[export] Instance after_eq_dec : EqDecision after.
Proof. solve_decision. Defined.

(** A thread: [Outside] the execute unit, in a notification, at the end of the
    escape callback, or a worker.
    - [WPop]: at the head of [WorkerLooper];
    - [WRun]: running a task;
    - [WIdle]: [PopTask] returned null;
    - [WEval]: in [WorkerIdleAction] after [IntoSleep], before [wait_for];
    - [WWait], [WDeep]: blocked on the condition variable;
    - [WWoken], [WDeepWoken]: woken, about to evaluate the predicate;
    - [WRetired]: has left the loop. *)
Inductive thread_pc :=
| Outside
| Poking (p : poke) (k : after)
| EscStore
| WPop | WRun | WIdle | WEval | WWait | WWoken | WDeep | WDeepWoken | WRetired.

Definition resume_pc (k : after) : thread_pc :=
  match k with Return => Outside | Run => WRun | EscapeCb => EscStore end.

(** [eu_pushed] and [eu_picked] record the tasks pushed and popped; [eu_armed]
    counts the escape callbacks given to [DelayedWakeup]; [eu_excused] is set
    when a task is pushed with [notifyWorker_] false or a worker could not be
    created, and [eu_lost] counts the workers that [NotifyWorkers] counted in
    [executingNum] and could not create. *)
Record eu := mk_eu {
  eu_g : CPUWorkerGroup;
  eu_que : FIFOQueue positive;
  eu_threads : list thread_pc;
  submittedDelayedTask_ : bool;
  eu_armed : Z;
  eu_pushed : list positive;
  eu_picked : list positive;
  eu_excused : bool;
  eu_lost : Z;
}.

#[export] Instance eu_eta : Eta eu := λ s,
  mk_eu (eu_g s) (eu_que s) (eu_threads s) (submittedDelayedTask_ s) (eu_armed s) (eu_pushed s) (eu_picked s)
    (eu_excused s) (eu_lost s).

Definition set_pc (i : nat) (pc : thread_pc) (s : eu) : eu := s <| eu_threads ::= <[i := pc]> |>.

Arguments set_pc : simpl never.

(** *** Atomic sections *)

(** [Ready] of a task up to [NotifyTask]. *)
Definition eu_push (t : positive) (s : eu) : eu :=
  s <| eu_que ::= λ q, snd (STaskScheduler_PushTask t q) |> <| eu_pushed ::= λ l, l ++ [t] |>.

(** [PopTask] *)
Definition eu_pop (s : eu) : option positive * eu :=
  let '(o, q) := DeQueue (eu_que s) in
  (o, s <| eu_que := q |> <| eu_picked ::= λ l, l ++ option_list o |>).

(** The count of [HandleTaskNotify...] *)
Definition eu_count (strat : strategy) (ty : TaskNotifyType) (i : nat) (k : after) (s : eu) : eu :=
  match notify_count strat ty (eu_que s) with
  | Some n => set_pc i (Poking (PkLock ty n) k) s
  | None => set_pc i (resume_pc k) s
  end.

(** The section under the group lock, by its decision. *)
Definition eu_act (a : poke_action) (i : nat) (k : after) (s : eu) : eu :=
  match a with
  | PokeNothing => set_pc i (resume_pc k) s
  | PokeWake => set_pc i (Poking PkWake k) s
  | PokeCreate => set_pc i (Poking PkInc k) (s <| eu_g ::= WorkerCreate |>)
  | PokeSubmitEscape _ =>
      if submittedDelayedTask_ s then set_pc i (resume_pc k) s else set_pc i (Poking PkArm k) s
  end.

(** [IncWorker]; the new thread starts at the head of its loop. *)
Definition IncWorker (ok : bool) (i : nat) (k : after) (s : eu) : eu :=
  if ok then set_pc i (resume_pc k) s <| eu_threads ::= λ l, l ++ [WPop] |>
  else set_pc i (resume_pc k) (s <| eu_g ::= RollBackCreate |> <| eu_excused := true |>).

(** [DelayedWakeup] in [SubmitEscape]. *)
Definition SubmitEscape_arm (ok : bool) (i : nat) (k : after) (s : eu) : eu :=
  if ok then set_pc i (Poking PkFlag k) (s <| eu_armed ::= λ n, n + 1 |>) else set_pc i (resume_pc k) s.

Definition task_exists (s : eu) : bool := negb (bool_decide (u64 (fifo_Size (eu_que s)) = 0)).

(** [WorkerIdleAction] when the predicate of [wait_for] is evaluated; [timeout]
    says that the deadline has passed, [destr] is SUPPORT_WORKER_DESTRUCT. *)
Definition WorkerIdleAction_eval (destr timeout : bool) (i : nat) (s : eu) : eu :=
  if task_exists s then set_pc i WPop (s <| eu_g ::= OutOfSleep false |>)
  else if negb timeout then set_pc i WWait s
  else if destr then set_pc i WRetired (s <| eu_g ::= WorkerDestroy |>)
  else set_pc i WDeep (s <| eu_g ::= IntoDeepSleep |>).

(** The predicate of the second wait. *)
Definition WorkerIdleAction_deep (i : nat) (s : eu) : eu :=
  if task_exists s then set_pc i WPop (s <| eu_g ::= OutOfDeepSleep false |>) else set_pc i WDeep s.

(** [NotifyWorkers] under the group lock: the workers to wake and those created;
    [ok] gives the outcomes of the calls of [IncWorker], which are not looked at. *)
Definition NotifyWorkers_inc (number : Z) (g : CPUWorkerGroup) : nat :=
  let increasableNumber := i32 (maxConcurrency g) - (executingNum g + sleepingNum g) in
  let wakeupNumber := Z.min number (sleepingNum g) in
  Z.to_nat (Z.min (number - wakeupNumber) increasableNumber).

Fixpoint inc_workers (ok : nat → bool) (idx : nat) (s : eu) : eu :=
  match idx with
  | O => s
  | S idx =>
      let s := inc_workers ok idx s <| eu_g ::= λ g, g <| executingNum ::= λ n, n + 1 |> |> in
      if ok idx then s <| eu_threads ::= λ l, l ++ [WPop] |>
      else s <| eu_excused := true |> <| eu_lost ::= λ n, n + 1 |>
  end.

Definition NotifyWorkers (ok : nat → bool) (number : Z) (i : nat) (k : after) (s : eu) : eu :=
  let wakeupNumber := Z.min number (sleepingNum (eu_g s)) in
  inc_workers ok (NotifyWorkers_inc number (eu_g s)) (set_pc i (Poking (PkNotify (Z.to_nat wakeupNumber)) k) s).

Definition wake_pc (pc : thread_pc) : thread_pc :=
  match pc with WWait => WWoken | WDeep => WDeepWoken | _ => pc end.

Definition waiting (pc : thread_pc) : bool := match pc with WWait | WDeep => true | _ => false end.

(** [cv.notify_one]: one of the blocked workers, if there is one. *)
Inductive notify_one : list thread_pc → list thread_pc → Prop :=
| notify_some ts j pc : ts !! j = Some pc → waiting pc = true → notify_one ts (<[j := wake_pc pc]> ts)
| notify_none ts : Forall (λ pc, waiting pc = false) ts → notify_one ts ts.

(** The build and configuration: the strategy, dynamic scaling, worker
    destruction, worker escape. *)
Record eu_cfg := mk_cfg { c_strat : strategy; c_scaling : bool; c_destr : bool; c_escape : bool }.

Definition at_pc (s : eu) (i : nat) (pc : thread_pc) : Prop := eu_threads s !! i = Some pc.

(** A thread that runs user code, with what it goes back to. *)
Definition user_code (pc : thread_pc) : option after :=
  match pc with Outside => Some Return | WRun => Some Run | _ => None end.

Inductive eu_step (c : eu_cfg) : eu → eu → Prop :=
(* user code submits a task, notifies, or calls NotifyWorkers *)
| eu_submit s i pc k t :
    at_pc s i pc → user_code pc = Some k → fq_size (eu_que s) < INT_MAX →
    eu_step c s (set_pc i (Poking (PkCount (NotifyTask TASK_ADDED_RTQ)) k) (eu_push t s))
| eu_submit_silent s i pc k t :
    at_pc s i pc → user_code pc = Some k → fq_size (eu_que s) < INT_MAX →
    eu_step c s (eu_push t s <| eu_excused := true |>)
| eu_escaped s i pc k :
    at_pc s i pc → user_code pc = Some k →
    eu_step c s (set_pc i (Poking (PkCount (NotifyTask TASK_ESCAPED)) k) s)
| eu_notify_workers s i pc k ok number :
    at_pc s i pc → user_code pc = Some k → eu_step c s (NotifyWorkers ok number i k s)
(* inside a notification *)
| eu_count_step s i ty k : at_pc s i (Poking (PkCount ty) k) → eu_step c s (eu_count (c_strat c) ty i k s)
| eu_lock_step s i ty n k nrBlocked :
    at_pc s i (Poking (PkLock ty n) k) →
    eu_step c s (eu_act (notify_decide (c_strat c) (c_scaling c) nrBlocked n ty (eu_g s)) i k s)
| eu_wake_step s i k ts :
    at_pc s i (Poking PkWake k) → notify_one (<[i := resume_pc k]> (eu_threads s)) ts →
    eu_step c s (s <| eu_threads := ts |>)
| eu_inc_step s i k ok : at_pc s i (Poking PkInc k) → eu_step c s (IncWorker ok i k s)
| eu_notify_wake s i k n ts :
    at_pc s i (Poking (PkNotify (S n)) k) → notify_one (<[i := Poking (PkNotify n) k]> (eu_threads s)) ts →
    eu_step c s (s <| eu_threads := ts |>)
| eu_notify_done s i k : at_pc s i (Poking (PkNotify 0) k) → eu_step c s (set_pc i (resume_pc k) s)
(* worker escape *)
| eu_arm_step s i k ok : at_pc s i (Poking PkArm k) → eu_step c s (SubmitEscape_arm ok i k s)
| eu_flag_step s i k :
    at_pc s i (Poking PkFlag k) → eu_step c s (set_pc i (resume_pc k) (s <| submittedDelayedTask_ := true |>))
| eu_fire s i :
    at_pc s i Outside → 0 < eu_armed s →
    eu_step c s (set_pc i (Poking PkEscCount EscapeCb) (s <| eu_armed ::= λ n, n - 1 |>))
| eu_esc_count s i k :
    at_pc s i (Poking PkEscCount k) →
    eu_step c s (set_pc i (if task_exists s then Poking PkEscLock k else resume_pc k) s)
| eu_esc_lock s i k nrBlocked :
    at_pc s i (Poking PkEscLock k) →
    eu_step c s (eu_act (ExecuteEscape (c_scaling c) nrBlocked (c_escape c) (eu_g s)) i k s)
| eu_esc_store s i :
    at_pc s i EscStore → eu_step c s (set_pc i Outside (s <| submittedDelayedTask_ := false |>))
(* WorkerLooper *)
| eu_pop_task s i t s' :
    at_pc s i WPop → eu_pop s = (Some t, s') →
    eu_step c s (set_pc i (Poking (PkCount (NotifyTask TASK_PICKED)) Run) s')
| eu_pop_cancelled s i t s' : at_pc s i WPop → eu_pop s = (Some t, s') → eu_step c s (set_pc i WIdle s')
| eu_pop_none s i s' : at_pc s i WPop → eu_pop s = (None, s') → eu_step c s (set_pc i WIdle s')
| eu_run_done s i : at_pc s i WRun → eu_step c s (set_pc i WPop s)
| eu_share s i : at_pc s i WIdle → eu_step c s (set_pc i WRun s)
| eu_shared_by_other s o s' : eu_pop s = (o, s') → eu_step c s s'
(* WorkerIdleAction *)
| eu_into_sleep s i : at_pc s i WIdle → eu_step c s (set_pc i WEval (s <| eu_g ::= IntoSleep |>))
| eu_eval s i pc :
    at_pc s i pc → pc = WEval ∨ pc = WWoken → eu_step c s (WorkerIdleAction_eval (c_destr c) false i s)
| eu_timeout s i : at_pc s i WWait → eu_step c s (WorkerIdleAction_eval (c_destr c) true i s)
| eu_deep_eval s i : at_pc s i WDeepWoken → eu_step c s (WorkerIdleAction_deep i s).

(** [n] threads outside, no worker. *)
Definition eu_init (n : nat) (hl mc : Z) : eu :=
  mk_eu (mkGroup hl mc 0 false 0 0 false 0 0) fifo_init (replicate n Outside) false 0 [] [] false 0.

(** ** Invariant *)

(** What a thread contributes to the counters of the group. *)
Definition running_of (k : after) : Z := match k with Run => 1 | _ => 0 end.
Definition exec_weight (pc : thread_pc) : Z :=
  match pc with
  | Poking PkInc k => 1 + running_of k
  | Poking _ k => running_of k
  | WPop | WRun | WIdle => 1
  | _ => 0
  end.
Definition sleep_weight (pc : thread_pc) : Z :=
  match pc with WEval | WWait | WWoken | WDeep | WDeepWoken => 1 | _ => 0 end.
Definition deep_weight (pc : thread_pc) : Z := match pc with WDeep | WDeepWoken => 1 | _ => 0 end.

(** A thread that will look at the ready queue by itself. *)
Definition attends (pc : thread_pc) : bool :=
  match pc with
  | Poking (PkCount _ | PkLock _ _ | PkInc) _ => true
  | Poking _ Run => true
  | WPop | WRun | WIdle | WEval | WWoken | WDeepWoken => true
  | _ => false
  end.

Definition is_wake (pc : thread_pc) : bool := match pc with Poking PkWake _ => true | _ => false end.

(** Some thread attends to the queue, or is about to wake a blocked worker. *)
Definition attended (ts : list thread_pc) : Prop :=
  (∃ pc, pc ∈ ts ∧ attends pc = true) ∨
  ((∃ pc, pc ∈ ts ∧ is_wake pc = true) ∧ ∃ pc, pc ∈ ts ∧ waiting pc = true).

(** Only workers notify that they picked a task. *)
Definition pc_ok (pc : thread_pc) : Prop :=
  match pc with
  | Poking (PkCount ty) k => ty ≠ TASK_ADDED_RTQ ∧ (ty = TASK_PICKED → k = Run)
  | Poking (PkLock ty n) k => 0 < n ∧ (ty = TASK_PICKED → k = Run)
  | _ => True
  end.

Definition bounded_cfg (c : eu_cfg) : Prop := c_strat c = NotifyUltraConservative → c_scaling c = false.

(** The number of workers of the level, blocked ones included: without dynamic
    scaling a worker is created only when none sleeps and fewer than
    [maxConcurrency] execute. *)
Definition worker_limit (c : eu_cfg) (hl mc : Z) : Z :=
  if c_scaling c then Z.max (Z.max hl mc) MAX_ESCAPE_WORKER_NUM else mc.

Record eu_inv (c : eu_cfg) (hl mc : Z) (s : eu) : Prop := {
  ei_hl : hardLimit (eu_g s) = hl;
  ei_mc : maxConcurrency (eu_g s) = mc;
  ei_exec : executingNum (eu_g s) = wsum exec_weight (eu_threads s) + eu_lost s;
  ei_sleep : sleepingNum (eu_g s) = wsum sleep_weight (eu_threads s);
  ei_deep : deepSleepingWorkerNum (eu_g s) = wsum deep_weight (eu_threads s);
  ei_limit : bounded_cfg c → executingNum (eu_g s) + sleepingNum (eu_g s) <= worker_limit c hl mc;
  ei_que : fifo_ok (eu_que s);
  ei_fifo : eu_pushed s = eu_picked s ++ fq_list (eu_que s);
  ei_ok : Forall pc_ok (eu_threads s);
  ei_lost : 0 <= eu_lost s ∧ (eu_excused s = false → eu_lost s = 0);
  ei_att : eu_excused s = false → fq_list (eu_que s) ≠ [] → attended (eu_threads s);
}.

Lemma exec_weight_nonneg pc : 0 <= exec_weight pc.
Proof. destruct pc as [|[] []| | | | | | | | | |]; simpl; lia. Qed.
Lemma sleep_weight_nonneg pc : 0 <= sleep_weight pc.
Proof. destruct pc; simpl; lia. Qed.
Lemma exec_attends pc : 0 < exec_weight pc → attends pc = true.
Proof. destruct pc as [|[] []| | | | | | | | | |]; simpl; try done; lia. Qed.
Lemma sleep_attends_or_waits pc : 0 < sleep_weight pc → attends pc = true ∨ waiting pc = true.
Proof. destruct pc; simpl; auto; lia. Qed.

Lemma elem_of_insert_other (ts : list thread_pc) i pc pc' x :
  ts !! i = Some pc → x ∈ ts → x ≠ pc → x ∈ <[i := pc']> ts.
Proof.
  intros Hi [j Hj]%list_elem_of_lookup Hne. apply list_elem_of_lookup. exists j.
  rewrite list_lookup_insert_ne; [done|]. intros ->. congruence.
Qed.

Lemma elem_of_insert_self (ts : list thread_pc) i pc pc' : ts !! i = Some pc → pc' ∈ <[i := pc']> ts.
Proof. intros Hi%lookup_lt_Some. by apply list_elem_of_insert. Qed.

Lemma attended_app ts l : attended ts → attended (ts ++ l).
Proof. unfold attended. setoid_rewrite elem_of_app. naive_solver. Qed.

Lemma attended_by ts pc : pc ∈ ts → attends pc = true → attended ts.
Proof. intros ??. left. eauto. Qed.

(** A thread moves and either attends or takes nothing away. *)
Lemma attended_move ts i pc pc' :
  ts !! i = Some pc → attended ts →
  attends pc' = true ∨ (attends pc = false ∧ is_wake pc = false ∧ waiting pc = false) →
  attended (<[i := pc']> ts).
Proof.
  intros Hi Ha [Hp|(H1 & H2 & H3)]; [by eapply attended_by; [by eapply elem_of_insert_self|]|].
  destruct Ha as [(x & Hx & Hax)|[(x & Hx & Hax) (y & Hy & Hay)]].
  - left. exists x. split; [|done]. eapply elem_of_insert_other; [done..|]. intros ->. congruence.
  - right. split; [exists x|exists y]; (split; [|done]); (eapply elem_of_insert_other; [done..|]; intros ->; congruence).
Qed.

(** Thread [i] moves and the threads [l] are created. *)
Lemma eu_inv_move c hl mc s s' i pc pc' l :
  eu_inv c hl mc s → at_pc s i pc → eu_threads s' = <[i := pc']> (eu_threads s) ++ l →
  hardLimit (eu_g s') = hardLimit (eu_g s) → maxConcurrency (eu_g s') = maxConcurrency (eu_g s) →
  executingNum (eu_g s') = executingNum (eu_g s) - exec_weight pc + exec_weight pc' + wsum exec_weight l →
  sleepingNum (eu_g s') = sleepingNum (eu_g s) - sleep_weight pc + sleep_weight pc' + wsum sleep_weight l →
  deepSleepingWorkerNum (eu_g s') =
    deepSleepingWorkerNum (eu_g s) - deep_weight pc + deep_weight pc' + wsum deep_weight l →
  (bounded_cfg c → executingNum (eu_g s') + sleepingNum (eu_g s') <= worker_limit c hl mc) →
  fifo_ok (eu_que s') → eu_pushed s' = eu_picked s' ++ fq_list (eu_que s') →
  pc_ok pc' → Forall pc_ok l → eu_lost s' = eu_lost s → (eu_excused s' = false → eu_excused s = false) →
  (eu_excused s' = false → fq_list (eu_que s') ≠ [] → attended (<[i := pc']> (eu_threads s) ++ l)) →
  eu_inv c hl mc s'.
Proof.
  intros [H1 H2 H3 H4 H5 H6 H7 H8 H9 H10 H11] Hi Ht Hh Hm He Hs Hd Hl Hq Hf Hok Hokl Hlo Hex Ha. unfold at_pc in Hi.
  split; rewrite ?Ht, ?wsum_app, ?(wsum_insert _ _ _ _ _ Hi); try done; try lia.
  - apply Forall_app. split; [|done]. by apply Forall_insert.
  - rewrite Hlo. tauto.
Qed.

Lemma executing_attended c hl mc s :
  eu_inv c hl mc s → eu_excused s = false → 0 < executingNum (eu_g s) → ∃ pc, pc ∈ eu_threads s ∧ 0 < exec_weight pc.
Proof.
  intros HI He. rewrite (ei_exec _ _ _ _ HI). rewrite (proj2 (ei_lost _ _ _ _ HI) He), Z.add_0_r. apply wsum_pos.
Qed.

Lemma eu_counts c hl mc s : eu_inv c hl mc s → 0 <= executingNum (eu_g s) ∧ 0 <= sleepingNum (eu_g s).
Proof.
  intros HI. rewrite (ei_exec _ _ _ _ HI), (ei_sleep _ _ _ _ HI). pose proof (ei_lost _ _ _ _ HI).
  pose proof (wsum_nonneg exec_weight (eu_threads s) exec_weight_nonneg).
  pose proof (wsum_nonneg sleep_weight (eu_threads s) sleep_weight_nonneg). lia.
Qed.

(** *** The decisions *)

Section decisions.
Context (scaling : bool) (nrBlocked : Z).

Lemma GetRunningNum_idle g : executingNum g = 0 → 0 < maxConcurrency g → GetRunningNum scaling nrBlocked g = 0.
Proof.
  intros He Hm. unfold GetRunningNum. rewrite He. change (u64 0) with 0.
  rewrite (bool_decide_false (0 >= maxConcurrency g)) by lia. by rewrite andb_false_r.
Qed.

Lemma GetRunningNum_plain g : scaling = false → GetRunningNum scaling nrBlocked g = u64 (executingNum g).
Proof. intros ->. done. Qed.

Lemma total_num_id g :
  0 <= executingNum g → 0 <= sleepingNum g → executingNum g + sleepingNum g <= INT_MAX →
  total_num g = executingNum g + sleepingNum g.
Proof. intros. unfold total_num. rewrite u64_id; [lia|]. unfold is_u64, UINT64_MAX, INT_MAX in *. lia. Qed.

(** With no worker executing, a notification wakes a sleeping worker or creates
    one. *)
Lemma notify_decide_idle strat taskCount ty g :
  executingNum g = 0 → 0 <= sleepingNum g → (strat = NotifyDefault → sleepingNum g <= INT_MAX) →
  0 < hardLimit g → 0 < maxConcurrency g <= INT_MAX → 0 < taskCount → ty ≠ TASK_PICKED →
  notify_decide strat scaling nrBlocked taskCount ty g =
    if decide (sleepingNum g = 0) then PokeCreate else PokeWake.
Proof.
  intros He Hs Hsm Hh Hm Hn Hty. destruct strat; simpl.
  - specialize (Hsm eq_refl). unfold PokeImpl, total_num. rewrite (GetRunningNum_idle g), He by lia.
    rewrite (bool_decide_false (0 > TIGGER_SUPPRESS_EXECUTION_NUM)) by (unfold TIGGER_SUPPRESS_EXECUTION_NUM; lia).
    rewrite andb_false_r. simpl. rewrite andb_false_r.
    rewrite u32_id, u64_id by (unfold is_u32, is_u64, UINT32_MAX, UINT64_MAX, INT_MAX in *; lia).
    rewrite (bool_decide_true (0 < maxConcurrency g)) by lia. rewrite andb_true_r.
    case_decide; [rewrite bool_decide_false by lia|rewrite bool_decide_true by lia]; [|done]. simpl.
    by rewrite bool_decide_true by lia.
  - unfold HandleTaskNotifyConservative. rewrite (bool_decide_false (ty = TASK_PICKED)) by done. simpl.
    rewrite He. change (u32 0) with 0. by rewrite (bool_decide_true (0 < _)) by lia.
  - unfold HandleTaskNotifyUltraConservative. rewrite (GetRunningNum_idle g) by lia. change (i32 0) with 0.
    rewrite (bool_decide_false (taskCount = 0)) by lia. rewrite andb_false_r.
    rewrite (decide_False (P := taskCount < 0)) by lia.
    rewrite i32_small by (unfold INT_MAX in *; lia). by rewrite (decide_True (P := 0 < maxConcurrency g)) by lia.
Qed.

Lemma notify_decide_wake strat taskCount ty g :
  notify_decide strat scaling nrBlocked taskCount ty g = PokeWake → sleepingNum g ≠ 0.
Proof.
  destruct strat; simpl.
  - unfold PokeImpl. intros H E. rewrite E in H. change (bool_decide (u32 0 > 0)) with false in H. simpl in H. case_all.
  - unfold HandleTaskNotifyConservative. case_all.
  - unfold HandleTaskNotifyUltraConservative. case_all.
Qed.

Lemma ExecuteEscape_wake enable g : ExecuteEscape scaling nrBlocked enable g = PokeWake → sleepingNum g ≠ 0.
Proof. unfold ExecuteEscape. intros H E. rewrite E in H. change (bool_decide (0 > 0)) with false in H. simpl in H. case_all. Qed.

Lemma notify_decide_create strat taskCount ty g :
  0 <= executingNum g → 0 <= sleepingNum g → executingNum g + sleepingNum g <= INT_MAX →
  0 < maxConcurrency g <= INT_MAX → (strat = NotifyUltraConservative → scaling = false) →
  notify_decide strat scaling nrBlocked taskCount ty g = PokeCreate →
  executingNum g + sleepingNum g < if scaling then Z.max (hardLimit g) (maxConcurrency g) else maxConcurrency g.
Proof.
  intros He Hs Ht Hm Hsc. destruct strat; simpl.
  - unfold PokeImpl. rewrite total_num_id by done.
    assert (u32 (sleepingNum g) = sleepingNum g ∧ u64 (executingNum g) = executingNum g) as [Hu Hu']
      by (split; [apply u32_id|apply u64_id]; unfold is_u32, UINT32_MAX, is_u64, UINT64_MAX, INT_MAX in *; lia).
    assert (scaling = false → GetRunningNum scaling nrBlocked g = executingNum g) as Hp
      by (intros; by rewrite GetRunningNum_plain).
    rewrite Hu. case_all;
      repeat match goal with
      | H : _ && _ = true |- _ => apply andb_prop in H as [??]
      | H : _ && _ = false |- _ => apply andb_false_iff in H as [H|H]
      end; rewrite ?bool_decide_eq_true, ?bool_decide_eq_false in *; try lia.
    all: try specialize (Hp eq_refl); lia.
  - unfold HandleTaskNotifyConservative. rewrite u32_id by (unfold is_u32, UINT32_MAX, INT_MAX in *; lia). case_all.
    all: rewrite bool_decide_eq_true in *; lia.
  - unfold HandleTaskNotifyUltraConservative. rewrite GetRunningNum_plain by auto.
    unfold INT_MAX in *. rewrite u64_id by (unfold is_u64, UINT64_MAX; lia). rewrite !i32_small by lia. case_all; lia.
Qed.

Lemma ExecuteEscape_create enable g :
  0 <= executingNum g → 0 <= sleepingNum g → executingNum g + sleepingNum g <= INT_MAX → 0 < maxConcurrency g →
  ExecuteEscape scaling nrBlocked enable g = PokeCreate →
  executingNum g + sleepingNum g < if scaling then MAX_ESCAPE_WORKER_NUM else maxConcurrency g.
Proof.
  intros ????. unfold ExecuteEscape. rewrite total_num_id by done.
  assert (scaling = false → GetRunningNum scaling nrBlocked g = executingNum g) as Hp.
  { intros. rewrite GetRunningNum_plain by done. apply u64_id. unfold is_u64, UINT64_MAX, INT_MAX in *. lia. }
  case_all;
    repeat match goal with
    | H : _ && _ = true |- _ => apply andb_prop in H as [??]
    | H : _ && _ = false |- _ => apply andb_false_iff in H as [H|H]
    end; rewrite ?bool_decide_eq_true, ?bool_decide_eq_false in *; try lia.
  all: try specialize (Hp eq_refl); lia.
Qed.
End decisions.

(** *** Preservation *)

Section preservation.
Context (c : eu_cfg) (hl mc : Z) (Hhl : 0 < hl <= INT_MAX) (Hmc : 0 < mc <= INT_MAX).
Implicit Types (s : eu).

Lemma worker_limit_int : worker_limit c hl mc <= INT_MAX.
Proof using Hhl Hmc. unfold worker_limit, MAX_ESCAPE_WORKER_NUM, INT_MAX in *. destruct (c_scaling c); lia. Qed.

(** A thread moves without touching the queue. *)
Lemma eu_inv_pc s g' i pc pc' flag armed :
  eu_inv c hl mc s → at_pc s i pc →
  hardLimit g' = hardLimit (eu_g s) → maxConcurrency g' = maxConcurrency (eu_g s) →
  executingNum g' = executingNum (eu_g s) - exec_weight pc + exec_weight pc' →
  sleepingNum g' = sleepingNum (eu_g s) - sleep_weight pc + sleep_weight pc' →
  deepSleepingWorkerNum g' = deepSleepingWorkerNum (eu_g s) - deep_weight pc + deep_weight pc' →
  (bounded_cfg c → executingNum g' + sleepingNum g' <= worker_limit c hl mc) → pc_ok pc' →
  (eu_excused s = false → fq_list (eu_que s) ≠ [] → attended (eu_threads s) → attended (<[i := pc']> (eu_threads s))) →
  eu_inv c hl mc (set_pc i pc' (mk_eu g' (eu_que s) (eu_threads s) flag armed (eu_pushed s) (eu_picked s) (eu_excused s) (eu_lost s))).
Proof.
  intros HI Hi ??????? Ha. eapply (eu_inv_move _ _ _ s _ i pc pc' []); try done; simpl; try lia.
  - by rewrite app_nil_r.
  - apply HI.
  - apply HI.
  - intros ??. rewrite app_nil_r. apply Ha; [done..|]. by apply (ei_att _ _ _ _ HI).
Qed.

Lemma eu_submit_inv s i pc k t :
  eu_inv c hl mc s → at_pc s i pc → user_code pc = Some k → fq_size (eu_que s) < INT_MAX →
  eu_inv c hl mc (set_pc i (Poking (PkCount TASK_ADDED) k) (eu_push t s)).
Proof.
  intros HI Hi Hu Hlt.
  eapply (eu_inv_move _ _ _ s _ i pc (Poking (PkCount TASK_ADDED) k) []); try done; simpl.
  - by rewrite app_nil_r.
  - destruct pc; simplify_eq/=; lia.
  - destruct pc; simplify_eq/=; lia.
  - destruct pc; simplify_eq/=; lia.
  - apply HI.
  - apply EnQueue_ok; [apply HI|done].
  - rewrite (ei_fifo _ _ _ _ HI). by rewrite app_assoc.
  - intros _ _. rewrite app_nil_r. eapply attended_by; [by eapply elem_of_insert_self|done].
Qed.

Lemma eu_silent_inv s t :
  eu_inv c hl mc s → fq_size (eu_que s) < INT_MAX → eu_inv c hl mc (eu_push t s <| eu_excused := true |>).
Proof.
  intros [H1 H2 H3 H4 H5 H6 H7 H8 H9 [H10 _] H11] Hlt. split; try done; simpl.
  - by apply EnQueue_ok.
  - rewrite H8. by rewrite app_assoc.
Qed.

Lemma eu_pop_inv s o s' i pc pc' :
  eu_inv c hl mc s → at_pc s i pc → eu_pop s = (o, s') →
  exec_weight pc' = exec_weight pc → sleep_weight pc' = sleep_weight pc → deep_weight pc' = deep_weight pc →
  pc_ok pc' → attends pc' = true → eu_inv c hl mc (set_pc i pc' s').
Proof.
  intros HI Hi Hp He Hs Hd Hok Ha. unfold eu_pop in Hp.
  pose proof (DeQueue_ok _ (ei_que _ _ _ _ HI)) as Hq. pose proof (ei_fifo _ _ _ _ HI) as Hf.
  assert (eu_picked s ++ fq_list (eu_que s) = eu_picked s ++ option_list (DeQueue (eu_que s)).1 ++ fq_list (DeQueue (eu_que s)).2)
    as Hl. { unfold DeQueue. destruct (eu_que s) as [[|x l] n]; simpl; [case_decide|]; done. }
  destruct (DeQueue (eu_que s)) as [o' q]; simplify_eq/=.
  eapply (eu_inv_move _ _ _ s _ i pc pc' []); try done; simpl; try lia.
  - by rewrite app_nil_r.
  - intros Hb. apply (ei_limit _ _ _ _ HI Hb).
  - by rewrite Hf, Hl, app_assoc.
  - intros _ _. rewrite app_nil_r. eapply attended_by; [by eapply elem_of_insert_self|done].
Qed.

Lemma eu_pop_other_inv s o s' : eu_inv c hl mc s → eu_pop s = (o, s') → eu_inv c hl mc s'.
Proof.
  intros [H1 H2 H3 H4 H5 H6 H7 H8 H9 Hlo H10] Hp. unfold eu_pop in Hp. pose proof (DeQueue_ok _ H7) as Hq.
  unfold DeQueue in *. destruct (eu_que s) as [[|x l] n]; simpl in *; [case_decide|]; simplify_eq/=; split; simpl; try done.
  - by rewrite H8, !app_nil_r.
  - by rewrite H8, !app_nil_r.
  - by rewrite H8, <-app_assoc.
  - intros ? _. by apply H10.
Qed.

Lemma resume_exec k : exec_weight (resume_pc k) = running_of k.
Proof. by destruct k. Qed.
Lemma resume_sleep k : sleep_weight (resume_pc k) = 0.
Proof. by destruct k. Qed.
Lemma resume_deep k : deep_weight (resume_pc k) = 0.
Proof. by destruct k. Qed.
Lemma resume_ok k : pc_ok (resume_pc k).
Proof. by destruct k. Qed.
Lemma resume_attends k : attends (resume_pc k) = bool_decide (k = Run).
Proof. by destruct k. Qed.

(** A move in which the counters do not change. *)
Lemma eu_inv_same s i pc pc' flag armed :
  eu_inv c hl mc s → at_pc s i pc →
  exec_weight pc' = exec_weight pc → sleep_weight pc' = sleep_weight pc → deep_weight pc' = deep_weight pc →
  pc_ok pc' →
  (eu_excused s = false → fq_list (eu_que s) ≠ [] → attended (eu_threads s) → attended (<[i := pc']> (eu_threads s))) →
  eu_inv c hl mc
    (set_pc i pc' (mk_eu (eu_g s) (eu_que s) (eu_threads s) flag armed (eu_pushed s) (eu_picked s) (eu_excused s) (eu_lost s))).
Proof. intros HI Hi ?????. eapply eu_inv_pc; try done; try lia. apply HI. Qed.

Lemma fifo_count_zero s : eu_inv c hl mc s → u64 (fifo_Size (eu_que s)) = 0 → fq_list (eu_que s) = [].
Proof.
  intros HI Hz. destruct (ei_que _ _ _ _ HI) as [Hs Hm]. apply (fifo_size_zero _ (ei_que _ _ _ _ HI)).
  unfold fifo_Size in *. rewrite u64_id in Hz; [done|]. unfold is_u64, UINT64_MAX, INT_MAX in *. lia.
Qed.

Lemma notify_count_spec strat ty s :
  eu_inv c hl mc s → ty ≠ TASK_ADDED_RTQ →
  notify_count strat ty (eu_que s) = if decide (fifo_Size (eu_que s) = 0) then None else Some (fifo_Size (eu_que s)).
Proof.
  intros HI Hty. destruct (ei_que _ _ _ _ HI) as [Hs Hm]. unfold notify_count, fifo_Size, INT_MAX in *.
  rewrite u64_id by (unfold is_u64, UINT64_MAX; lia).
  rewrite u32_id by (unfold is_u32, UINT32_MAX; lia). rewrite i32_small by lia.
  destruct strat, ty; try done; repeat case_decide; try done; lia.
Qed.

Lemma eu_count_inv s i ty k :
  eu_inv c hl mc s → at_pc s i (Poking (PkCount ty) k) → eu_inv c hl mc (eu_count (c_strat c) ty i k s).
Proof.
  intros HI Hi. assert (Hok : pc_ok (Poking (PkCount ty) k)).
  { eapply Forall_lookup_1; [apply (ei_ok _ _ _ _ HI)|exact Hi]. }
  destruct Hok as [Hty Hk]. unfold eu_count. rewrite (notify_count_spec _ _ _ HI Hty).
  destruct (ei_que _ _ _ _ HI) as [Hs Hm]. unfold fifo_Size. case_decide as Hz.
  - destruct s as [g q ts fl ar pu pi ex lo]. apply (eu_inv_same _ _ _ _ _ _ HI Hi); simpl;
      rewrite ?resume_exec, ?resume_sleep, ?resume_deep; auto using resume_ok.
    intros _ Hne. simpl in *. rewrite Hz in Hs. destruct (fq_list q); simpl in *; [done|lia].
  - destruct s as [g q ts fl ar pu pi ex lo]. apply (eu_inv_same _ _ _ _ _ _ HI Hi); try done; simpl in *.
    + split; [lia|done].
    + intros _ _ _. eapply attended_by; [by eapply elem_of_insert_self|done].
Qed.

(** Before the group lock is taken in a notification or in the escape callback. *)
Definition at_lock (pc : thread_pc) : option after :=
  match pc with Poking (PkLock _ _ | PkEscLock) k => Some k | _ => None end.

Lemma executing_elsewhere s i pc pc' :
  eu_inv c hl mc s → at_pc s i pc → exec_weight pc = 0 → eu_excused s = false → 0 < executingNum (eu_g s) →
  attended (<[i := pc']> (eu_threads s)).
Proof.
  intros HI Hi H0 Hex (x & Hx & Hw)%(executing_attended c hl mc s HI); [|done].
  eapply attended_by; [eapply elem_of_insert_other; [done..|]|by apply exec_attends]. intros ->. lia.
Qed.

Lemma wake_attended s i pc k :
  eu_inv c hl mc s → at_pc s i pc → sleep_weight pc = 0 → sleepingNum (eu_g s) ≠ 0 →
  attended (<[i := Poking PkWake k]> (eu_threads s)).
Proof.
  intros HI Hi H0 Hs. pose proof (eu_counts _ _ _ _ HI) as [_ Hge]. rewrite (ei_sleep _ _ _ _ HI) in Hs, Hge.
  destruct (wsum_pos sleep_weight (eu_threads s)) as (x & Hx & Hw); [lia|].
  assert (x ∈ <[i := Poking PkWake k]> (eu_threads s)) as Hx'.
  { eapply elem_of_insert_other; [done..|]. intros ->. lia. }
  destruct (sleep_attends_or_waits x Hw) as [Ha|Hwt]; [by eapply attended_by|].
  right. split; [|by exists x]. exists (Poking PkWake k). split; [|done]. by eapply elem_of_insert_self.
Qed.

Lemma eu_act_inv s i pc k a :
  eu_inv c hl mc s → at_pc s i pc → at_lock pc = Some k →
  (a = PokeWake → sleepingNum (eu_g s) ≠ 0) →
  (a = PokeCreate → bounded_cfg c → executingNum (eu_g s) + sleepingNum (eu_g s) < worker_limit c hl mc) →
  (a ≠ PokeWake → a ≠ PokeCreate → attends pc = true → k ≠ Run → 0 < executingNum (eu_g s)) →
  eu_inv c hl mc (eu_act a i k s).
Proof.
  intros HI Hi Hl Hwake Hcreate Hnone.
  assert (exec_weight pc = running_of k ∧ sleep_weight pc = 0 ∧ deep_weight pc = 0 ∧ is_wake pc = false ∧ waiting pc = false)
    as (Hwe & Hws & Hwd & Hwk & Hwt) by (destruct pc as [|[]| | | | | | | | | |]; simplify_eq/=; done).
  assert (a ≠ PokeWake → a ≠ PokeCreate → ∀ pc', (k = Run → attends pc' = true) →
    eu_excused s = false → fq_list (eu_que s) ≠ [] → attended (eu_threads s) → attended (<[i := pc']> (eu_threads s))) as Hkeep.
  { intros Hnw Hnc pc' Hpc' Hex _ Ha. destruct (decide (k = Run)) as [Hk|Hk].
    - eapply attended_by; [by eapply elem_of_insert_self|auto].
    - destruct (attends pc) eqn:Hat; [|eapply attended_move; eauto].
      eapply executing_elsewhere; eauto. rewrite Hwe. by destruct k. }
  destruct s as [g q ts fl ar pu pi ex lo]; destruct a; simpl in *.
  - apply (eu_inv_same _ _ _ _ _ _ HI Hi); simpl; rewrite ?resume_exec, ?resume_sleep, ?resume_deep; auto using resume_ok.
    apply Hkeep; try done. intros ->. done.
  - apply (eu_inv_same _ _ _ _ _ _ HI Hi); simpl; try done. intros _ _ _. apply (wake_attended _ i pc k HI Hi Hws). by apply Hwake.
  - eapply (eu_inv_pc (mk_eu g q ts fl ar pu pi ex lo) (WorkerCreate g) _ _ _ fl ar HI Hi); simpl; try done; try lia.
    + intros Hb. specialize (Hcreate eq_refl Hb). lia.
    + intros _ _ _. eapply attended_by; [by eapply elem_of_insert_self|done].
  - destruct fl; apply (eu_inv_same _ _ _ _ _ _ HI Hi); simpl;
      rewrite ?resume_exec, ?resume_sleep, ?resume_deep; auto using resume_ok; apply Hkeep; try done; intros ->; done.
Qed.

Lemma eu_lock_inv s i ty n k nrBlocked :
  eu_inv c hl mc s → at_pc s i (Poking (PkLock ty n) k) →
  eu_inv c hl mc (eu_act (notify_decide (c_strat c) (c_scaling c) nrBlocked n ty (eu_g s)) i k s).
Proof.
  intros HI Hi. pose proof worker_limit_int as Hli. pose proof (eu_counts _ _ _ _ HI) as [He Hs].
  pose proof (ei_hl _ _ _ _ HI) as Hh. pose proof (ei_mc _ _ _ _ HI) as Hm.
  destruct (Forall_lookup_1 _ _ _ _ (ei_ok _ _ _ _ HI) Hi) as [Hn Hk].
  apply (eu_act_inv _ _ (Poking (PkLock ty n) k)); try done.
  - apply notify_decide_wake.
  - intros Hc Hb. pose proof (ei_limit _ _ _ _ HI Hb).
    apply notify_decide_create in Hc; [unfold worker_limit in *; destruct (c_scaling c); lia|lia..|apply Hb].
  - intros Hnw Hnc _ Hnr. destruct (decide (executingNum (eu_g s) = 0)) as [H0|]; [|lia].
    assert (c_strat c = NotifyDefault → sleepingNum (eu_g s) <= INT_MAX) as Hd.
    { intros Hd. pose proof (ei_limit _ _ _ _ HI ltac:(unfold bounded_cfg; congruence)). lia. }
    pose proof (notify_decide_idle (c_scaling c) nrBlocked (c_strat c) n ty (eu_g s) H0 Hs Hd ltac:(lia) ltac:(lia) Hn
      ltac:(tauto)) as Eq. rewrite Eq in Hnw, Hnc. by case_decide.
Qed.

Lemma eu_esc_lock_inv s i k nrBlocked :
  eu_inv c hl mc s → at_pc s i (Poking PkEscLock k) →
  eu_inv c hl mc (eu_act (ExecuteEscape (c_scaling c) nrBlocked (c_escape c) (eu_g s)) i k s).
Proof.
  intros HI Hi. pose proof worker_limit_int as Hli. pose proof (eu_counts _ _ _ _ HI) as [He Hs].
  apply (eu_act_inv _ _ (Poking PkEscLock k)); try done.
  - apply ExecuteEscape_wake.
  - intros Hc Hb. pose proof (ei_limit _ _ _ _ HI Hb).
    pose proof (ei_mc _ _ _ _ HI).
    apply ExecuteEscape_create in Hc; [unfold worker_limit in *; destruct (c_scaling c); lia|lia..].
  - intros _ _. simpl. by destruct k.
Qed.

Lemma notify_one_wsum (f : thread_pc → Z) ts ts' :
  (∀ pc, waiting pc = true → f (wake_pc pc) = f pc) → notify_one ts ts' → wsum f ts' = wsum f ts.
Proof.
  intros Hf. destruct 1 as [ts j pc Hj Hw|]; [|done]. rewrite (wsum_insert _ _ _ _ _ Hj), Hf by done. lia.
Qed.

Lemma notify_one_ok ts ts' : notify_one ts ts' → Forall pc_ok ts → Forall pc_ok ts'.
Proof. destruct 1 as [ts j pc Hj Hw|]; [|done]. intros. apply Forall_insert; [done|]. by destruct pc. Qed.

(** Thread [i] notifies and goes on at [pc']. *)
Lemma notify_step_inv s i pc pc' ts :
  eu_inv c hl mc s → at_pc s i pc →
  exec_weight pc' = exec_weight pc → sleep_weight pc' = sleep_weight pc → deep_weight pc' = deep_weight pc →
  pc_ok pc' → waiting pc = false → (attends pc = true → attends pc' = true) →
  notify_one (<[i := pc']> (eu_threads s)) ts → eu_inv c hl mc (s <| eu_threads := ts |>).
Proof.
  intros [H1 H2 H3 H4 H5 H6 H7 H8 H9 Hlo H10] Hi He Hs Hd Hok Hw Ha Hno.
  assert (∀ f : thread_pc → Z, f pc' = f pc → (∀ x, waiting x = true → f (wake_pc x) = f x) →
    wsum f ts = wsum f (eu_threads s)) as Hsum.
  { intros f Hf Hwk. rewrite (notify_one_wsum f _ _ Hwk Hno), (wsum_insert _ _ _ _ _ Hi). lia. }
  split; simpl; try done.
  - rewrite Hsum; [done..|]. by intros [].
  - rewrite Hsum; [done..|]. by intros [].
  - rewrite Hsum; [done..|]. by intros [].
  - eapply notify_one_ok; [done|]. by apply Forall_insert.
  - intros Hx Hq. inversion Hno as [? j x Hj Hwx|? Hnone]; subst; simplify_eq.
    { eapply attended_by; [by eapply elem_of_insert_self|]. by destruct x. }
    left. destruct (H10 Hx Hq) as [(x & Hin & Hax)|[_ (x & Hin & Hwx)]].
    + destruct (decide (attends pc' = true)) as [Hap|Hap].
      { exists pc'. split; [by eapply elem_of_insert_self|done]. }
      exists x. split; [|done]. eapply elem_of_insert_other; [done..|]. intros ->. by apply Hap, Ha.
    + exfalso. assert (x ∈ <[i := pc']> (eu_threads s)) as Hx'
        by (eapply elem_of_insert_other; [done..|]; intros ->; congruence).
      rewrite Forall_forall in Hnone. specialize (Hnone _ Hx'). simpl in Hnone. congruence.
Qed.

Lemma IncWorker_inv s i k ok :
  eu_inv c hl mc s → at_pc s i (Poking PkInc k) → eu_inv c hl mc (IncWorker ok i k s).
Proof.
  intros HI Hi. unfold IncWorker. destruct ok.
  - eapply (eu_inv_move _ _ _ s _ i _ (resume_pc k) [WPop] HI Hi); try done; simpl;
      rewrite ?resume_exec, ?resume_sleep, ?resume_deep; try lia; try apply HI; auto using resume_ok.
    + by repeat constructor.
    + intros _ _. eapply attended_by; [apply elem_of_app; right; by left|done].
  - pose proof (eu_counts _ _ _ _ HI).
    eapply (eu_inv_move _ _ _ s _ i _ (resume_pc k) [] HI Hi); try done; simpl;
      rewrite ?resume_exec, ?resume_sleep, ?resume_deep; try lia; try apply HI; auto using resume_ok.
    + by rewrite app_nil_r.
    + intros Hb. pose proof (ei_limit _ _ _ _ HI Hb). lia.
Qed.

Lemma eu_keep_inv s i pc pc' flag armed :
  eu_inv c hl mc s → at_pc s i pc →
  exec_weight pc' = exec_weight pc → sleep_weight pc' = sleep_weight pc → deep_weight pc' = deep_weight pc →
  pc_ok pc' → is_wake pc = false → waiting pc = false → (attends pc = true → attends pc' = true) →
  eu_inv c hl mc (set_pc i pc' (s <| submittedDelayedTask_ := flag |> <| eu_armed := armed |>)).
Proof.
  intros HI Hi ?????? Ha. destruct s as [g q ts fl ar pu pi ex lo].
  apply (eu_inv_same _ _ _ _ _ _ HI Hi); try done.
  intros _ _ Hat. eapply attended_move; [done..|]. destruct (attends pc); auto.
Qed.

(** Creating workers keeps the invariant while there is room. *)
Lemma inc_workers_inv ok idx s :
  eu_inv c hl mc s → (0 < Z.of_nat idx → executingNum (eu_g s) + sleepingNum (eu_g s) + Z.of_nat idx <= mc) →
  eu_inv c hl mc (inc_workers ok idx s) ∧ executingNum (eu_g (inc_workers ok idx s)) = executingNum (eu_g s) + Z.of_nat idx ∧
  sleepingNum (eu_g (inc_workers ok idx s)) = sleepingNum (eu_g s).
Proof.
  intros HI. induction idx as [|idx IH]; intros Hle; [split_and!; [done|simpl; lia|done]|].
  destruct IH as (HI' & He & Hs); [lia|]. clear HI. simpl. destruct (inc_workers ok idx s) as [g q ts fl ar pu pi ex lo].
  destruct HI' as [H1 H2 H3 H4 H5 H6 H7 H8 H9 [Hlo Hex] H10]; simpl in *.
  assert (bounded_cfg c → executingNum g + 1 + sleepingNum g <= worker_limit c hl mc) as Hlim.
  { intros _. unfold worker_limit. destruct (c_scaling c); lia. }
  destruct (ok idx); (split_and!; [split; simpl; rewrite ?wsum_app; simpl; try done; try lia|simpl; lia|done]).
  - apply Forall_app. split; [done|]. by repeat constructor.
  - intros. apply attended_app. auto.
Qed.

Lemma NotifyWorkers_inv s i pc k ok number :
  eu_inv c hl mc s → at_pc s i pc → user_code pc = Some k → eu_inv c hl mc (NotifyWorkers ok number i k s).
Proof.
  intros HI Hi Hu. unfold NotifyWorkers, NotifyWorkers_inc.
  rewrite (ei_mc _ _ _ _ HI), i32_small by (unfold INT_MAX in *; lia).
  assert (exec_weight pc = running_of k ∧ sleep_weight pc = 0 ∧ deep_weight pc = 0 ∧ is_wake pc = false ∧
    waiting pc = false ∧ (attends pc = true → k = Run)) as (Hwe & Hws & Hwd & Hwk & Hwt & Ha)
    by (destruct pc; simplify_eq/=; done).
  apply inc_workers_inv; [|simpl; lia]. set (n := Z.to_nat _).
  pose proof (eu_keep_inv s i pc (Poking (PkNotify n) k) (submittedDelayedTask_ s) (eu_armed s) HI Hi) as H.
  destruct s. apply H; try done. intros Hap. by rewrite (Ha Hap).
Qed.

(** The predicate of a wait: a worker that stays blocked has seen the queue empty. *)
Lemma eu_sleep_inv s s' i pc pc' g' :
  eu_inv c hl mc s → at_pc s i pc → sleep_weight pc = 1 →
  s' = set_pc i pc' (s <| eu_g := g' |>) →
  hardLimit g' = hardLimit (eu_g s) → maxConcurrency g' = maxConcurrency (eu_g s) →
  executingNum g' = executingNum (eu_g s) + exec_weight pc' →
  sleepingNum g' = sleepingNum (eu_g s) - 1 + sleep_weight pc' →
  deepSleepingWorkerNum g' = deepSleepingWorkerNum (eu_g s) - deep_weight pc + deep_weight pc' →
  exec_weight pc' + sleep_weight pc' <= 1 → pc_ok pc' → task_exists s = false ∨ attends pc' = true →
  eu_inv c hl mc s'.
Proof.
  intros HI Hi Hw -> ?? He Hs ? Hle Hok Ha. assert (exec_weight pc = 0) by (by destruct pc).
  destruct s as [g q ts fl ar pu pi ex lo]. eapply (eu_inv_pc (mk_eu g q ts fl ar pu pi ex lo) g' _ _ _ fl ar HI Hi);
    simpl in *; try done; try lia.
  - intros Hb. pose proof (ei_limit _ _ _ _ HI Hb). simpl in *. lia.
  - intros _ Hq _. destruct Ha as [Ha|Ha]; [|eapply attended_by; [by eapply elem_of_insert_self|done]].
    unfold task_exists in Ha. apply negb_false_iff, bool_decide_eq_true in Ha.
    by apply (fifo_count_zero _ HI) in Ha.
Qed.

Lemma OutOfSleep_fields b g :
  hardLimit (OutOfSleep b g) = hardLimit g ∧ maxConcurrency (OutOfSleep b g) = maxConcurrency g ∧
  executingNum (OutOfSleep b g) = executingNum g + 1 ∧ sleepingNum (OutOfSleep b g) = sleepingNum g - 1 ∧
  deepSleepingWorkerNum (OutOfSleep b g) = deepSleepingWorkerNum g.
Proof. unfold OutOfSleep, irq_woken. destruct b; simpl; case_decide; done. Qed.

Lemma eu_eval_inv s i pc timeout :
  eu_inv c hl mc s → at_pc s i pc → pc = WEval ∨ pc = WWait ∨ pc = WWoken →
  eu_inv c hl mc (WorkerIdleAction_eval (c_destr c) timeout i s).
Proof.
  intros HI Hi Hpc. assert (sleep_weight pc = 1 ∧ deep_weight pc = 0) as [Hw Hd] by (by destruct Hpc as [->|[-> | ->]]).
  unfold WorkerIdleAction_eval. destruct (task_exists s) eqn:Ht.
  - destruct (OutOfSleep_fields false (eu_g s)) as (? & ? & ? & ? & ?).
    eapply (eu_sleep_inv s _ i pc WPop (OutOfSleep false (eu_g s))); try done; cbn [exec_weight sleep_weight deep_weight]; auto; lia.
  - destruct timeout; simpl; [destruct (c_destr c)|].
    + eapply (eu_sleep_inv s _ i pc WRetired (WorkerDestroy (eu_g s))); try done; simpl; auto; lia.
    + eapply (eu_sleep_inv s _ i pc WDeep (IntoDeepSleep (eu_g s))); try done; simpl; auto; lia.
    + eapply (eu_sleep_inv s _ i pc WWait (eu_g s)); try done; simpl; auto; try lia.
Qed.

Lemma eu_deep_inv s i :
  eu_inv c hl mc s → at_pc s i WDeepWoken → eu_inv c hl mc (WorkerIdleAction_deep i s).
Proof.
  intros HI Hi. unfold WorkerIdleAction_deep. destruct (task_exists s) eqn:Ht.
  - eapply (eu_sleep_inv s _ i WDeepWoken WPop (OutOfDeepSleep false (eu_g s))); try done; simpl; auto; lia.
  - eapply (eu_sleep_inv s _ i WDeepWoken WDeep (eu_g s)); try done; simpl; auto; try lia.
Qed.

Lemma eu_into_sleep_inv s i :
  eu_inv c hl mc s → at_pc s i WIdle → eu_inv c hl mc (set_pc i WEval (s <| eu_g ::= IntoSleep |>)).
Proof.
  intros HI Hi. destruct s as [g q ts fl ar pu pi ex lo].
  eapply (eu_inv_pc (mk_eu g q ts fl ar pu pi ex lo) (IntoSleep g) _ _ _ fl ar HI Hi); simpl in *; try done; try lia.
  - intros Hb. pose proof (ei_limit _ _ _ _ HI Hb). simpl in *. lia.
  - intros _ _ _. eapply attended_by; [by eapply elem_of_insert_self|done].
Qed.

Lemma eu_inv_step s s' : eu_inv c hl mc s → eu_step c s s' → eu_inv c hl mc s'.
Proof.
  intros HI Hst. destruct Hst as
    [s i pc k t Hi Hu Hlt|s i pc k t Hi Hu Hlt|s i pc k Hi Hu|s i pc k ok number Hi Hu|s i ty k Hi|s i ty n k nb Hi
    |s i k ts Hi Hn|s i k ok Hi|s i k n ts Hi Hn|s i k Hi|s i k ok Hi|s i k Hi|s i Hi Har|s i k Hi|s i k nb Hi|s i Hi
    |s i t s' Hi Hp|s i t s' Hi Hp|s i s' Hi Hp|s i Hi|s i Hi|s o s' Hp|s i Hi|s i pc Hi Hpc|s i Hi|s i Hi].
  - by eapply eu_submit_inv.
  - by apply eu_silent_inv.
  - pose proof (eu_keep_inv s i pc (Poking (PkCount TASK_ESCAPED) k) (submittedDelayedTask_ s) (eu_armed s) HI Hi) as H.
    destruct s. apply H; by destruct pc; simplify_eq/=.
  - by eapply NotifyWorkers_inv.
  - by apply eu_count_inv.
  - by apply eu_lock_inv.
  - eapply (notify_step_inv s i _ (resume_pc k)); try done; by destruct k.
  - by apply IncWorker_inv.
  - by eapply (notify_step_inv s i _ (Poking (PkNotify n) k)).
  - pose proof (eu_keep_inv s i _ (resume_pc k) (submittedDelayedTask_ s) (eu_armed s) HI Hi) as H.
    destruct s. apply H; by destruct k.
  - unfold SubmitEscape_arm. destruct ok.
    + pose proof (eu_keep_inv s i _ (Poking PkFlag k) (submittedDelayedTask_ s) (eu_armed s + 1) HI Hi) as H.
      destruct s. by apply H.
    + pose proof (eu_keep_inv s i _ (resume_pc k) (submittedDelayedTask_ s) (eu_armed s) HI Hi) as H.
      destruct s. apply H; by destruct k.
  - pose proof (eu_keep_inv s i _ (resume_pc k) true (eu_armed s) HI Hi) as H. destruct s. apply H; by destruct k.
  - pose proof (eu_keep_inv s i _ (Poking PkEscCount EscapeCb) (submittedDelayedTask_ s) (eu_armed s - 1) HI Hi) as H.
    destruct s. by apply H.
  - pose proof (eu_keep_inv s i _ (if task_exists s then Poking PkEscLock k else resume_pc k)
      (submittedDelayedTask_ s) (eu_armed s) HI Hi) as H.
    destruct s. apply H; by destruct (task_exists _), k.
  - by apply eu_esc_lock_inv.
  - pose proof (eu_keep_inv s i _ Outside false (eu_armed s) HI Hi) as H. destruct s. by apply H.
  - by eapply eu_pop_inv.
  - by eapply eu_pop_inv.
  - by eapply eu_pop_inv.
  - pose proof (eu_keep_inv s i _ WPop (submittedDelayedTask_ s) (eu_armed s) HI Hi) as H. destruct s. by apply H.
  - pose proof (eu_keep_inv s i _ WRun (submittedDelayedTask_ s) (eu_armed s) HI Hi) as H. destruct s. by apply H.
  - by eapply eu_pop_other_inv.
  - by apply eu_into_sleep_inv.
  - eapply eu_eval_inv; [done..|tauto].
  - eapply eu_eval_inv; [done..|tauto].
  - by apply eu_deep_inv.
Qed.

Lemma eu_inv_init n : eu_inv c hl mc (eu_init n hl mc).
Proof using Hhl Hmc.
  assert (∀ f : thread_pc → Z, f Outside = 0 → wsum f (replicate n Outside) = 0) as H0.
  { intros f Hf. rewrite wsum_replicate, Hf. lia. }
  split; simpl; try done; rewrite ?H0; try done.
  - intros _. unfold worker_limit, MAX_ESCAPE_WORKER_NUM. destruct (c_scaling c); lia.
  - by apply Forall_replicate.
Qed.
End preservation.

Lemma eu_reachable_inv c hl mc n s :
  0 < hl <= INT_MAX → 0 < mc <= INT_MAX → rtc (eu_step c) (eu_init n hl mc) s → eu_inv c hl mc s.
Proof.
  intros Hhl Hmc. apply rtc_invariant; [by apply eu_inv_init|]. intros a b. by apply eu_inv_step.
Qed.

(** ** Theorems *)

(** C13: no ready task is overlooked.  Whatever the strategy and the interleaving
    of submissions, notifications, workers going to sleep, waking up, timing out
    or retiring: while the ready queue is not empty, some worker runs, is looking
    for a task or is about to evaluate its wake-up predicate, or a thread is about
    to decide on a wake-up, to create a worker, or to wake a worker that is
    blocked.  The exceptions are a failed creation of a worker and tasks submitted
    with notification switched off. *)
Theorem eu_tasks_attended c hl mc n s :
  0 < hl <= INT_MAX → 0 < mc <= INT_MAX → rtc (eu_step c) (eu_init n hl mc) s →
  eu_excused s = false → fq_list (eu_que s) ≠ [] → attended (eu_threads s).
Proof. intros Hhl Hmc Hr. apply (eu_reachable_inv _ _ _ _ _ Hhl Hmc Hr). Qed.

(** the counters of a worker group count its workers: [executingNum] those
    executing, being created or lost by [NotifyWorkers], [sleepingNum] those in [WorkerIdleAction],
    [deepSleepingWorkerNum] those in the second wait.  Without dynamic scaling
    there are never more than [maxConcurrency] workers, with it (in the first two
    strategies) never more than the largest of the hard limit, [maxConcurrency]
    and [MAX_ESCAPE_WORKER_NUM]; tasks are taken in the order in which they were
    pushed. *)
Theorem eu_counters c hl mc n s :
  0 < hl <= INT_MAX → 0 < mc <= INT_MAX → rtc (eu_step c) (eu_init n hl mc) s →
  executingNum (eu_g s) = wsum exec_weight (eu_threads s) + eu_lost s ∧
  sleepingNum (eu_g s) = wsum sleep_weight (eu_threads s) ∧
  deepSleepingWorkerNum (eu_g s) = wsum deep_weight (eu_threads s) ∧
  (bounded_cfg c → executingNum (eu_g s) + sleepingNum (eu_g s) <= worker_limit c hl mc) ∧
  eu_pushed s = eu_picked s ++ fq_list (eu_que s).
Proof.
  intros Hhl Hmc Hr. destruct (eu_reachable_inv _ _ _ _ _ Hhl Hmc Hr). by split_and!.
Qed.

(** A first task is pushed and the first worker created for it. *)
Definition eu_demo : eu :=
  let c := mk_cfg NotifyDefault false false false in
  let s := set_pc 0 (Poking (PkCount TASK_ADDED) Return) (eu_push 1 (eu_init 1 16 8)) in
  let s := eu_count NotifyDefault TASK_ADDED 0 Return s in
  IncWorker true 0 Return (eu_act (notify_decide NotifyDefault false 0 1 TASK_ADDED (eu_g s)) 0 Return s).

Lemma eu_demo_reachable : rtc (eu_step (mk_cfg NotifyDefault false false false)) (eu_init 1 16 8) eu_demo.
Proof.
  eapply rtc_l; [by eapply (eu_submit _ _ 0 Outside Return 1)|].
  eapply rtc_l; [by eapply (eu_count_step _ _ 0 TASK_ADDED Return)|].
  eapply rtc_l; [by eapply (eu_lock_step _ _ 0 TASK_ADDED 1 Return 0)|].
  apply rtc_once. by eapply (eu_inc_step _ _ 0 Return true).
Qed.

Lemma eu_tasks_attended_witness : fq_list (eu_que eu_demo) = [1%positive] ∧ attended (eu_threads eu_demo).
Proof.
  split; [by vm_compute|].
  apply (eu_tasks_attended _ 16 8 1 eu_demo ltac:(unfold INT_MAX; lia) ltac:(unfold INT_MAX; lia) eu_demo_reachable);
    [by vm_compute|done].
Defined.

Lemma eu_counters_witness : executingNum (eu_g eu_demo) = 1 ∧ wsum exec_weight (eu_threads eu_demo) = 1.
Proof.
  destruct (eu_counters _ 16 8 1 eu_demo ltac:(unfold INT_MAX; lia) ltac:(unfold INT_MAX; lia) eu_demo_reachable) as [H _].
  assert (executingNum (eu_g eu_demo) = 1 ∧ eu_lost eu_demo = 0) as [H1 H2] by (by vm_compute). lia.
Defined.

(** *** Limits that are not kept *)

(** [NotifyWorkers] looks at [maxConcurrency] only: after
    [SetWorkerMaxNum(qos, 1)] it still creates eight workers. *)
Theorem NotifyWorkers_ignores_hardLimit c :
  ∃ s, rtc (eu_step c) (eu_init 1 1 8) s ∧ hardLimit (eu_g s) = 1 ∧ executingNum (eu_g s) = 8.
Proof.
  exists (NotifyWorkers (λ _, true) 8 0 Return (eu_init 1 1 8)). split; [|by vm_compute].
  apply rtc_once. by eapply (eu_notify_workers _ _ 0 Outside Return (λ _, true) 8).
Qed.

(** [NotifyWorkers] counts a worker before it creates it and ignores a failure of
    [IncWorker]: the group then counts eight workers and has none, and a task that is
    submitted is not attended to. *)
Theorem NotifyWorkers_counts_lost :
  ∃ s, rtc (eu_step (mk_cfg NotifyDefault false false false)) (eu_init 1 16 8) s ∧
       executingNum (eu_g s) = 8 ∧ eu_threads s = [Outside] ∧ fq_list (eu_que s) = [1%positive].
Proof.
  eexists. split.
  - eapply rtc_l; [by eapply (eu_notify_workers _ _ 0 Outside Return (λ _, false) 8)|].
    eapply rtc_l; [by eapply (eu_notify_done _ _ 0 Return)|].
    eapply rtc_l; [by eapply (eu_submit _ _ 0 Outside Return 1)|].
    eapply rtc_l; [by eapply (eu_count_step _ _ 0 TASK_ADDED Return)|].
    eapply rtc_l; [by eapply (eu_lock_step _ _ 0 TASK_ADDED 1 Return 0)|]. apply rtc_refl.
  - by vm_compute.
Qed.

(** *** The escape flag can stay set *)

Definition escaping (pc : thread_pc) : bool :=
  match pc with Poking (PkArm | PkFlag | PkEscCount | PkEscLock) _ | EscStore => true | Poking _ EscapeCb => true | _ => false end.

(** The flag is set, no callback is armed and none is running. *)
Record escape_dead (s : eu) : Prop := {
  ed_flag : submittedDelayedTask_ s = true;
  ed_armed : eu_armed s = 0;
  ed_threads : Forall (λ pc, escaping pc = false) (eu_threads s);
}.

Lemma notify_one_escaping ts ts' :
  notify_one ts ts' → Forall (λ pc, escaping pc = false) ts → Forall (λ pc, escaping pc = false) ts'.
Proof. destruct 1 as [ts j pc Hj Hw|]; [|done]. intros. apply Forall_insert; [done|]. by destruct pc. Qed.

Lemma escape_dead_set s i pc' :
  escape_dead s → escaping pc' = false → escape_dead (set_pc i pc' s).
Proof. intros [Hf Ha Ht] Hp. split; [done..|]. by apply Forall_insert. Qed.

Lemma escape_dead_inc ok idx s : escape_dead s → escape_dead (inc_workers ok idx s).
Proof.
  intros Hd. induction idx as [|idx [Hf Ha Ht]]; [done|]. simpl. destruct (ok idx); split; try done.
  simpl. apply Forall_app. split; [done|]. by repeat constructor.
Qed.

Lemma escape_dead_at s i pc : escape_dead s → at_pc s i pc → escaping pc = false.
Proof. intros Hd Hi. by apply (Forall_lookup_1 _ _ _ _ (ed_threads _ Hd) Hi). Qed.

Lemma escape_dead_act s i k a p :
  escape_dead s → at_pc s i (Poking p k) → escape_dead (eu_act a i k s).
Proof.
  intros Hd Hi. pose proof (escape_dead_at _ _ _ Hd Hi) as Hk.
  assert (k ≠ EscapeCb) as Hne by (by intros ->; destruct p).
  destruct a; simpl; rewrite ?(ed_flag _ Hd); apply escape_dead_set; try done; try (by destruct k); by destruct Hd.
Qed.

Lemma escape_dead_step c s s' : escape_dead s → eu_step c s s' → escape_dead s'.
Proof.
  intros Hd Hst. pose proof (escape_dead_at s) as Hat. destruct Hst as
    [s i pc k t Hi Hu Hlt|s i pc k t Hi Hu Hlt|s i pc k Hi Hu|s i pc k ok number Hi Hu|s i ty k Hi|s i ty n k nb Hi
    |s i k ts Hi Hn|s i k ok Hi|s i k n ts Hi Hn|s i k Hi|s i k ok Hi|s i k Hi|s i Hi Har|s i k Hi|s i k nb Hi|s i Hi
    |s i t s' Hi Hp|s i t s' Hi Hp|s i s' Hi Hp|s i Hi|s i Hi|s o s' Hp|s i Hi|s i pc Hi Hpc|s i Hi|s i Hi];
    try (specialize (Hat _ _ Hd Hi); simpl in Hat; try done).
  - apply escape_dead_set; [by destruct Hd|by destruct pc; simplify_eq/=].
  - by destruct Hd.
  - apply escape_dead_set; [done|by destruct pc; simplify_eq/=].
  - apply escape_dead_inc, escape_dead_set; [done|by destruct pc; simplify_eq/=].
  - unfold eu_count. destruct (notify_count _ _ _); apply escape_dead_set; by destruct k.
  - by eapply escape_dead_act.
  - destruct Hd as [Hf Ha Ht]. split; [done..|]. simpl. eapply notify_one_escaping; [done|].
    apply Forall_insert; [done|by destruct k].
  - unfold IncWorker. destruct ok; [|apply escape_dead_set; [by destruct Hd|by destruct k]].
    destruct Hd as [Hf Ha Ht]. split; [done..|]. simpl. apply Forall_app. split; [|by repeat constructor].
    apply Forall_insert; [done|by destruct k].
  - destruct Hd as [Hf Ha Ht]. split; [done..|]. simpl. eapply notify_one_escaping; [done|].
    apply Forall_insert; [done|by destruct k].
  - apply escape_dead_set; by destruct k.
  - pose proof (ed_armed _ Hd). lia.
  - unfold eu_pop in Hp. destruct (DeQueue _); simplify_eq. apply escape_dead_set; [by destruct Hd|done].
  - unfold eu_pop in Hp. destruct (DeQueue _); simplify_eq. apply escape_dead_set; [by destruct Hd|done].
  - unfold eu_pop in Hp. destruct (DeQueue _); simplify_eq. apply escape_dead_set; [by destruct Hd|done].
  - by apply escape_dead_set.
  - by apply escape_dead_set.
  - unfold eu_pop in Hp. destruct (DeQueue _); simplify_eq. by destruct Hd.
  - apply escape_dead_set; [by destruct Hd|done].
  - unfold WorkerIdleAction_eval. destruct (task_exists s); apply escape_dead_set; try done; by destruct Hd.
  - unfold WorkerIdleAction_eval. destruct (task_exists s); [|destruct (c_destr c)]; simpl;
      apply escape_dead_set; try done; by destruct Hd.
  - unfold WorkerIdleAction_deep. destruct (task_exists s); apply escape_dead_set; try done; by destruct Hd.
Qed.

(** worker escape can switch itself off for good.  [SubmitEscape] sets
    [submittedDelayedTask_] after it has armed the callback; a callback that runs
    in between and finds the queue empty clears the flag first.  The flag is then
    set with no callback pending, so no later notification, on whatever schedule,
    arms an escape for this level again. *)
Theorem escape_flag_stays_set :
  ∃ s, rtc (eu_step (mk_cfg NotifyDefault true false true)) (eu_init 2 1 1) s ∧
       ∀ c s', rtc (eu_step c) s s' → submittedDelayedTask_ s' = true ∧ eu_armed s' = 0.
Proof.
  set (c := mk_cfg NotifyDefault true false true).
  eexists. split.
  - eapply rtc_l; [eapply (eu_submit c _ 0 Outside Return 1); vm_compute; reflexivity|].
    eapply rtc_l; [eapply (eu_count_step c _ 0 TASK_ADDED Return); vm_compute; reflexivity|].
    eapply rtc_l; [eapply (eu_lock_step c _ 0 TASK_ADDED 1 Return 0); vm_compute; reflexivity|].
    eapply rtc_l; [eapply (eu_inc_step c _ 0 Return true); vm_compute; reflexivity|].
    eapply rtc_l; [eapply (eu_pop_task c _ 2 1); vm_compute; reflexivity|].
    eapply rtc_l; [eapply (eu_count_step c _ 2 TASK_PICKED Run); vm_compute; reflexivity|].
    eapply rtc_l; [eapply (eu_submit c _ 0 Outside Return 2); vm_compute; reflexivity|].
    eapply rtc_l; [eapply (eu_count_step c _ 0 TASK_ADDED Return); vm_compute; reflexivity|].
    eapply rtc_l; [eapply (eu_lock_step c _ 0 TASK_ADDED 1 Return 1); vm_compute; reflexivity|].
    eapply rtc_l; [eapply (eu_arm_step c _ 0 Return true); vm_compute; reflexivity|].
    eapply rtc_l; [eapply (eu_run_done c _ 2); vm_compute; reflexivity|].
    eapply rtc_l; [eapply (eu_pop_task c _ 2 2); vm_compute; reflexivity|].
    eapply rtc_l; [eapply (eu_fire c _ 1); vm_compute; reflexivity|].
    eapply rtc_l; [eapply (eu_esc_count c _ 1 EscapeCb); vm_compute; reflexivity|].
    eapply rtc_l; [eapply (eu_esc_store c _ 1); vm_compute; reflexivity|].
    apply rtc_once. eapply (eu_flag_step c _ 0 Return). vm_compute; reflexivity.
  - intros c' s' Hr. enough (escape_dead s') as [??] by done.
    eapply (rtc_invariant _ _ _ _ _ (escape_dead_step c') Hr). Unshelve.
    split; [by vm_compute|by vm_compute|]. apply (bool_decide_unpack _). by vm_compute.
Qed.
