(* ===== verification/EuConfig.v ===== *)
(** * Configuration and statistics of the execute unit

    Models the worker-escape configuration (include/eu/execute_unit.h,
    src/eu/execute_unit.cpp: [EscapeConfig], [SetEscapeEnable], [SetEscapeDisable],
    [CalEscapeInterval]), the record of started and exited workers
    ([WorkerStatusInfo]) and the size of worker stacks. *)

From S2P Require Import Prelude Types Scheduler ExecuteUnit.

(** ** Worker escape *)

Definition ONE_STAGE_INTERVAL : Z := 10.
Definition TWO_STAGE_INTERVAL : Z := 100.
Definition THREE_STAGE_INTERVAL : Z := 1000.
Definition ONE_STAGE_WORKER_NUM : Z := 128.
Definition TWO_STAGE_WORKER_NUM : Z := 256.
Definition MAX_ESCAPE_INTERVAL_MS_COUNT : Z := 1000 * 100 * 60 * 60 * 24 * 365.

Record EscapeConfig := mkEscapeConfig {
  enableEscape_ : bool;
  oneStageIntervalMs_ : Z;
  twoStageIntervalMs_ : Z;
  threeStageIntervalMs_ : Z;
  oneStageWorkerNum_ : Z;
  twoStageWorkerNum_ : Z;
}.

Definition default_escape : EscapeConfig :=
  mkEscapeConfig false ONE_STAGE_INTERVAL TWO_STAGE_INTERVAL THREE_STAGE_INTERVAL ONE_STAGE_WORKER_NUM TWO_STAGE_WORKER_NUM.

Definition ClampValue (value maxValue : Z) : Z := if decide (value > maxValue) then maxValue else value.

Definition SetEscapeEnable (i1 i2 i3 n1 n2 : Z) (e : EscapeConfig) : Z * EscapeConfig :=
  if enableEscape_ e then (1, e) else
  if decide (i1 < oneStageIntervalMs_ e ∨ i2 < twoStageIntervalMs_ e ∨ i3 < threeStageIntervalMs_ e ∨ n1 > n2)
  then (1, e) else
  (0, mkEscapeConfig true (ClampValue i1 MAX_ESCAPE_INTERVAL_MS_COUNT) (ClampValue i2 MAX_ESCAPE_INTERVAL_MS_COUNT)
        (ClampValue i3 MAX_ESCAPE_INTERVAL_MS_COUNT) n1 n2).

Definition SetEscapeDisable (e : EscapeConfig) : EscapeConfig := default_escape.

Definition IsEscapeEnable (e : EscapeConfig) : bool := enableEscape_ e.

(** The parameters are [uint16_t]: the caller's count is truncated. *)
Definition isEscapeStageOne (totalWorkerNum : Z) (e : EscapeConfig) : bool :=
  bool_decide (u16 totalWorkerNum < oneStageWorkerNum_ e).

Definition CalEscapeInterval (totalWorkerNum : Z) (e : EscapeConfig) : Z :=
  let totalWorkerNum := u16 totalWorkerNum in
  if decide (totalWorkerNum < oneStageWorkerNum_ e) then oneStageIntervalMs_ e
  else if decide (totalWorkerNum >= oneStageWorkerNum_ e ∧ totalWorkerNum < twoStageWorkerNum_ e)
  then twoStageIntervalMs_ e else threeStageIntervalMs_ e.

(** A call of the configuration interface. *)
Inductive escape_call := CallEnable (i1 i2 i3 n1 n2 : Z) | CallDisable.

Definition escape_apply (e : EscapeConfig) (x : escape_call) : EscapeConfig :=
  match x with
  | CallEnable i1 i2 i3 n1 n2 => (SetEscapeEnable i1 i2 i3 n1 n2 e).2
  | CallDisable => SetEscapeDisable e
  end.

Record escape_ok (e : EscapeConfig) : Prop := {
  eo_one : ONE_STAGE_INTERVAL <= oneStageIntervalMs_ e <= MAX_ESCAPE_INTERVAL_MS_COUNT;
  eo_two : TWO_STAGE_INTERVAL <= twoStageIntervalMs_ e <= MAX_ESCAPE_INTERVAL_MS_COUNT;
  eo_three : THREE_STAGE_INTERVAL <= threeStageIntervalMs_ e <= MAX_ESCAPE_INTERVAL_MS_COUNT;
  eo_nums : oneStageWorkerNum_ e <= twoStageWorkerNum_ e;
  eo_off : enableEscape_ e = false → e = default_escape;
}.

Lemma ClampValue_range lo v m : lo <= v → lo <= m → lo <= ClampValue v m <= m.
Proof. unfold ClampValue. case_decide; lia. Qed.

Lemma default_escape_ok : escape_ok default_escape.
Proof.
  split; simpl; try done;
    unfold ONE_STAGE_INTERVAL, TWO_STAGE_INTERVAL, THREE_STAGE_INTERVAL, MAX_ESCAPE_INTERVAL_MS_COUNT; lia.
Qed.

Lemma escape_apply_ok e x : escape_ok e → escape_ok (escape_apply e x).
Proof.
  intros He. destruct x as [i1 i2 i3 n1 n2|]; simpl; [|apply default_escape_ok].
  unfold SetEscapeEnable. destruct (enableEscape_ e) eqn:En; [done|].
  rewrite (eo_off _ He En) in *. destruct (decide _) as [?|Hn]; [done|]. simpl in *.
  unfold ONE_STAGE_INTERVAL, TWO_STAGE_INTERVAL, THREE_STAGE_INTERVAL in *.
  split; simpl; try done; try apply ClampValue_range; try lia;
    unfold ONE_STAGE_INTERVAL, TWO_STAGE_INTERVAL, THREE_STAGE_INTERVAL, MAX_ESCAPE_INTERVAL_MS_COUNT; lia.
Qed.

(** However the interface is called, the wait before an escape lies between ten
    milliseconds and the maximum, and escape that is off has the default values. *)
Theorem escape_interval_bounds calls totalWorkerNum :
  let e := foldl escape_apply default_escape calls in
  ONE_STAGE_INTERVAL <= CalEscapeInterval totalWorkerNum e <= MAX_ESCAPE_INTERVAL_MS_COUNT ∧
  (IsEscapeEnable e = false → e = default_escape).
Proof.
  assert (∀ e, escape_ok e → escape_ok (foldl escape_apply e calls)) as Hok.
  { induction calls as [|x calls IH]; intros e He; simpl; [done|]. apply IH. by apply escape_apply_ok. }
  destruct (Hok _ default_escape_ok) as [H1 H2 H3 H4 H5]. simpl. split; [|done].
  unfold CalEscapeInterval, ONE_STAGE_INTERVAL, TWO_STAGE_INTERVAL, THREE_STAGE_INTERVAL in *.
  repeat case_decide; lia.
Qed.

(** ** Started and exited workers *)

Definition MAX_TID_SIZE : Z := 100.

Record WorkerStatusInfo := mkWorkerStatus {
  startedCnt : Z; exitedCnt : Z; startedTids : list Z; exitedTids : list Z;
}.

#[export] Instance WorkerStatusInfo_eta : Eta WorkerStatusInfo := λ w,
  mkWorkerStatus (startedCnt w) (exitedCnt w) (startedTids w) (exitedTids w).

Definition status_init : WorkerStatusInfo := mkWorkerStatus 0 0 [] [].

(** [push_back], then [pop_front] when there are more than MAX_TID_SIZE. *)
Definition push_tid (tid : Z) (tids : list Z) : list Z :=
  let tids := tids ++ [tid] in
  if decide (Z.of_nat (length tids) > MAX_TID_SIZE) then tail tids else tids.

Definition WorkerStart (tid : Z) (w : WorkerStatusInfo) : WorkerStatusInfo :=
  w <| startedCnt ::= λ n, u32 (n + 1) |> <| startedTids ::= push_tid tid |>.

Definition WorkerExit (tid : Z) (w : WorkerStatusInfo) : WorkerStatusInfo :=
  w <| exitedCnt ::= λ n, u32 (n + 1) |> <| exitedTids ::= push_tid tid |>.

Definition GetWorkerStatusInfoAndReset (w : WorkerStatusInfo) : WorkerStatusInfo * WorkerStatusInfo := (w, status_init).

(** ** Deep sleep over all levels *)

Definition IsExceedDeepSleepThreshold (groups : list CPUWorkerGroup) : bool :=
  let deep := wsum deepSleepingWorkerNum groups in
  let total := wsum (λ g, executingNum g + sleepingNum g) groups in
  bool_decide (deep * 2 > total).

(** ** Worker stacks *)

Lemma testbit_u64_high y n : 0 <= y < 2 ^ 64 → 64 <= n → Z.testbit y n = false.
Proof.
  intros Hy Hn. destruct (decide (y = 0)) as [->|]; [apply Z.bits_0|].
  apply Z.bits_above_log2; [lia|]. enough (Z.log2 y < 64) by lia. apply Z.log2_lt_pow2; lia.
Qed.

(** Masking with the negated page size clears the low bits. *)
Lemma land_page_mask y k : 0 <= k < 64 → 0 <= y < 2 ^ 64 → Z.land y (u64 (- 2 ^ k)) = 2 ^ k * (y / 2 ^ k).
Proof.
  intros Hk Hy. pose proof (Z.pow_pos_nonneg 2 k). assert (2 ^ k < 2 ^ 64) by (apply Z.pow_lt_mono_r; lia).
  assert (2 ^ k * 2 ^ (64 - k) = 2 ^ 64) by (rewrite <-Z.pow_add_r by lia; f_equal; lia).
  replace (u64 (- 2 ^ k)) with (Z.shiftl (Z.ones (64 - k)) k).
  2:{ unfold u64, uw. rewrite Z.shiftl_mul_pow2, Z.ones_equiv by lia.
      rewrite <-(Z.mod_add (- 2 ^ k) 1), Z.mod_small by lia. nia. }
  replace (2 ^ k * (y / 2 ^ k)) with (Z.shiftl (Z.shiftr y k) k)
    by (rewrite Z.shiftl_mul_pow2, Z.shiftr_div_pow2 by lia; lia).
  apply Z.bits_inj'. intros n Hn. rewrite Z.land_spec, !Z.shiftl_spec by lia.
  destruct (decide (n < k)) as [Hlt|Hge].
  - rewrite !(Z.testbit_neg_r _ (n - k)) by lia. apply andb_false_r.
  - rewrite Z.shiftr_spec by lia. replace (n - k + k) with n by lia.
    destruct (decide (n < 64)); [rewrite Z.ones_spec_low by lia; apply andb_true_r|].
    by rewrite (testbit_u64_high y n) by lia.
Qed.

(** The stack size is rounded up to the next multiple of the page size. *)
Theorem SetWorkerStackSize_rounds k stack_size g :
  0 <= k < 31 → 0 < stack_size <= 2 ^ 64 - 2 ^ k →
  ∃ n, workerStackSize (SetWorkerStackSize (2 ^ k) false stack_size g).2 = 2 ^ k * n ∧
       2 ^ k * n - 2 ^ k < stack_size <= 2 ^ k * n.
Proof.
  intros Hk Hs. pose proof (Z.pow_pos_nonneg 2 k). assert (2 ^ k < 2 ^ 64) by (apply Z.pow_lt_mono_r; lia).
  unfold SetWorkerStackSize. rewrite decide_False by lia. simpl.
  rewrite (u64_id (stack_size - 1 + 2 ^ k)) by (unfold is_u64, UINT64_MAX; lia).
  rewrite land_page_mask by lia. eexists. split; [done|].
  pose proof (Z.div_mod (stack_size - 1 + 2 ^ k) (2 ^ k)). pose proof (Z.mod_pos_bound (stack_size - 1 + 2 ^ k) (2 ^ k)). lia.
Qed.

Lemma SetWorkerStackSize_rounds_witness :
  ∃ n, workerStackSize (SetWorkerStackSize (2 ^ 12) false 5000 (mkGroup 16 8 0 false 0 0 false 0 0)).2 = 2 ^ 12 * n ∧
       2 ^ 12 * n - 2 ^ 12 < 5000 <= 2 ^ 12 * n.
Proof. apply (SetWorkerStackSize_rounds 12 5000 _); lia. Defined.
