(* ===== verification/DelayedWorker.v ===== *)
(** * The delayed worker

    Models include/sync/delayed_worker.h and src/sync/delayed_worker.cpp
    ([DelayedWorker]) with the entry points of src/sync/sync.cpp.  One thread
    serves a multimap of works keyed by their deadline and sleeps on a [timerfd]
    in between.  The step relation interleaves callers of [dispatch] and
    [remove], the sections of the thread between its critical sections, the clock
    and the timer.  The timer is the kernel's: setting it replaces the previous
    deadline and clears an expiration not yet reported, and an expiration makes
    [epoll_wait] return once. *)

From S2P Require Import Prelude Multimap.

(** A work: [we], and a number of its own that tells apart two dispatches of the
    same entry. *)
Record DelayedWork := mkDelayedWork { dwk_id : positive; dwk_we : positive }.

#[export] Instance DelayedWork_eq_dec : EqDecision DelayedWork.
Proof. solve_decision. Defined.

(** Where the thread is: not running; before the lock at the head of the loop; in
    a callback, with the lock released; in [epoll_wait]. *)
Inductive dw_pc := DwNone | DwTop | DwCallback (w : DelayedWork) | DwWait.

Record dw := mk_dw {
  dw_map : list (Z * DelayedWork);
  dw_toExit : bool;
  dw_noTaskDelayCount : Z;
  dw_exited : bool;
  dw_timer : option Z;             (* the deadline timerfd_ is armed with *)
  dw_event : bool;                 (* an expiration not yet reported by epoll_wait *)
  dw_now : Z;                      (* steady_clock *)
  dw_thread : dw_pc;
  dw_dispatched : list (Z * DelayedWork);
  dw_called : list (Z * DelayedWork * Z);   (* with the time at which the callback was started *)
  dw_removed : list (Z * DelayedWork);
}.

#[export] Instance dw_eta : Eta dw := λ s,
  mk_dw (dw_map s) (dw_toExit s) (dw_noTaskDelayCount s) (dw_exited s) (dw_timer s) (dw_event s) (dw_now s)
    (dw_thread s) (dw_dispatched s) (dw_called s) (dw_removed s).

Definition dw_init (now : Z) : dw := mk_dw [] false 0 true None false now DwNone [] [] [].

Definition FFRT_DELAY_WORKER_IDLE_TIMEOUT_SECONDS : Z := 180.
Definition NS_PER_SEC : Z := 1000 * 1000 * 1000.

(** [timerfd_settime] with an absolute deadline in nanoseconds; zero disarms. *)
Definition timerfd_settime (ns : Z) (s : dw) : dw :=
  s <| dw_timer := if decide (ns = 0) then None else Some ns |> <| dw_event := false |>.

(** The nanoseconds handed over as seconds and a rest. *)
Definition timer_ns (tp : Z) : Z := let ns := u64 tp in ns / NS_PER_SEC * NS_PER_SEC + ns `mod` NS_PER_SEC.

Definition dispatch (to : Z) (w : DelayedWork) (skipTimeCheck : bool) (s : dw) : bool * dw :=
  if dw_toExit s then (false, s) else
  if negb skipTimeCheck && bool_decide (to <= dw_now s) then (false, s) else
  let s := if dw_exited s then s <| dw_thread := DwTop |> <| dw_exited := false |> else s in
  let first := match dw_map s with [] => true | (k, _) :: _ => bool_decide (to < k) end in
  let s := s <| dw_map ::= mm_insert to w |> <| dw_dispatched ::= λ l, (to, w) :: l |> in
  (true, if first then timerfd_settime (timer_ns to) s else s).

(** The work that [mm_erase_in_range] erases is the first of the range with this
    entry. *)
Fixpoint find_in_range (to : Z) (we : positive) (m : list (Z * DelayedWork)) : option DelayedWork :=
  match m with
  | [] => None
  | (k, w) :: m =>
      if decide (k = to) then if bool_decide (dwk_we w = we) then Some w else find_in_range to we m
      else if decide (k < to) then find_in_range to we m else None
  end.

Definition remove (to : Z) (we : positive) (s : dw) : bool * dw :=
  if dw_toExit s then (false, s) else
  match mm_erase_in_range to (λ w, bool_decide (dwk_we w = we)) (dw_map s), find_in_range to we (dw_map s) with
  | Some m, Some w => (true, s <| dw_map := m |> <| dw_removed ::= λ l, (to, w) :: l |>)
  | _, _ => (false, s)
  end.

(** What [HandleWork] is about to do: run the first work, return 0, return 1. *)
Inductive handle_next := HandleCall (tp : Z) (w : DelayedWork) (rest : list (Z * DelayedWork)) | HandleArm | HandleEmpty.

Definition HandleWork_next (startTp : Z) (s : dw) : handle_next :=
  match dw_map s with
  | [] => HandleEmpty
  | (tp, w) :: rest => if bool_decide (tp <= startTp) && negb (dw_toExit s) then HandleCall tp w rest else HandleArm
  end.

(** The rest of the loop body of the thread after a turn of [HandleWork]:
    [HandleWorkImpl] up to the callback, or arming the timer and [epoll_wait].
    [preserved] is [IsDelayedWorkerPreserved]; [noWorkers] says that
    [GetWorkerNum] is zero. *)
Definition thread_continue (preserved noWorkers : bool) (startTp : Z) (s : dw) : dw :=
  match HandleWork_next startTp s with
  | HandleCall tp w rest =>
      s <| dw_map := rest |> <| dw_called ::= λ l, (tp, w, startTp) :: l |> <| dw_thread := DwCallback w |>
  | HandleArm =>
      match dw_map s with
      | (tp, _) :: _ => timerfd_settime (timer_ns tp) s <| dw_thread := DwWait |>
      | [] => s
      end
  | HandleEmpty =>
      if preserved then s <| dw_thread := DwWait |> else
      let s := s <| dw_noTaskDelayCount ::= λ n, n + 1 |> in
      if bool_decide (dw_noTaskDelayCount s > 1) && noWorkers
      then s <| dw_exited := true |> <| dw_thread := DwNone |>
      else timerfd_settime (dw_now s + FFRT_DELAY_WORKER_IDLE_TIMEOUT_SECONDS * NS_PER_SEC) s <| dw_thread := DwWait |>
  end.

Definition thread_exit (s : dw) : dw := s <| dw_exited := true |> <| dw_thread := DwNone |>.

(** The head of the loop: [toExit], then [HandleWork]. *)
Definition thread_top (preserved noWorkers : bool) (s : dw) : dw :=
  if dw_toExit s then thread_exit s else
  let s := match dw_map s with [] => s | _ => s <| dw_noTaskDelayCount := 0 |> end in
  thread_continue preserved noWorkers (dw_now s) s.

(** [HandleWorkImpl] after the callback, and the next turn of [HandleWork]. *)
Definition thread_called (preserved noWorkers : bool) (s : dw) : dw :=
  if dw_toExit s then thread_exit s else thread_continue preserved noWorkers (dw_now s) s.

Definition Terminate (s : dw) : dw := timerfd_settime (dw_now s + 1) (s <| dw_toExit := true |>).

(** Deadlines are times of the steady clock after its start. *)
Inductive dw_step (preserved : bool) : dw → dw → Prop :=
| dw_dispatch s to w skip :
    0 < to < 2 ^ 63 → (∀ x, x ∈ dw_dispatched s → dwk_id x.2 ≠ dwk_id w) →
    dw_step preserved s (dispatch to w skip s).2
| dw_remove s to we : dw_step preserved s (remove to we s).2
| dw_run_top s noWorkers : dw_thread s = DwTop → dw_step preserved s (thread_top preserved noWorkers s)
| dw_run_called s noWorkers w :
    dw_thread s = DwCallback w → dw_step preserved s (thread_called preserved noWorkers s)
| dw_epoll s timeout :
    dw_thread s = DwWait → dw_event s = true ∨ timeout = true →
    dw_step preserved s (s <| dw_event := false |> <| dw_thread := DwTop |>)
| dw_expire s t :
    dw_timer s = Some t → t <= dw_now s → dw_step preserved s (s <| dw_timer := None |> <| dw_event := true |>)
| dw_tick s d : 0 <= d → dw_now s + d < 2 ^ 63 → dw_step preserved s (s <| dw_now ::= λ n, n + d |>)
| dw_terminate s : dw_step preserved s (Terminate s).

(** ** Invariant *)

(** The thread will look at the map before the first deadline passes. *)
Definition dw_served (s : dw) : Prop :=
  match dw_map s with
  | [] => True
  | (tp, _) :: _ =>
      match dw_thread s with
      | DwNone => False
      | DwTop | DwCallback _ => True
      | DwWait => dw_event s = true ∨ ∃ t, dw_timer s = Some t ∧ t <= tp
      end
  end.

Record dw_inv (s : dw) : Prop := {
  di_sorted : mm_sorted (dw_map s);
  di_range x : x ∈ dw_map s → 0 < x.1 < 2 ^ 63;
  di_exited : dw_exited s = true ↔ dw_thread s = DwNone;
  di_served : dw_toExit s = false → dw_served s;
  di_once : dw_dispatched s ≡ₚ dw_map s ++ (fst <$> dw_called s) ++ dw_removed s;
  di_ids : NoDup ((λ x, dwk_id x.2) <$> dw_dispatched s);
  di_time x : x ∈ dw_called s → x.1.1 <= x.2 <= dw_now s;
}.

Lemma timer_ns_id tp : 0 < tp < 2 ^ 63 → timer_ns tp = tp.
Proof.
  intros Ht. unfold timer_ns. rewrite u64_id by (unfold is_u64, UINT64_MAX; lia).
  pose proof (Z.div_mod tp NS_PER_SEC ltac:(done)). lia.
Qed.

(** What an insertion does to the fields [dw_inv] speaks of, whether or not it arms
    the timer. *)
Lemma dw_inv_inserted s s' to w :
  dw_inv s → 0 < to < 2 ^ 63 → (∀ x, x ∈ dw_dispatched s → dwk_id x.2 ≠ dwk_id w) →
  dw_map s' = mm_insert to w (dw_map s) → dw_dispatched s' = (to, w) :: dw_dispatched s →
  dw_called s' = dw_called s → dw_removed s' = dw_removed s → dw_now s' = dw_now s →
  dw_exited s' = false → dw_thread s' ≠ DwNone → (dw_toExit s' = false → dw_served s') → dw_inv s'.
Proof.
  intros [Hs Hr He Hv Ho Hi Ht] Hto Hw Em Ed Ec Er En Ex Et Hsv.
  split; rewrite ?Em, ?Ed, ?Ec, ?Er, ?En, ?Ex; auto.
  - by apply mm_insert_sorted.
  - intros x [->|Hx]%mm_insert_elem_of; auto.
  - split; [done|]. by intros ?.
  - rewrite mm_insert_perm. simpl. by rewrite Ho.
  - simpl. apply NoDup_cons. split; [|done]. intros ([k x] & E & Hx)%list_elem_of_fmap. by apply (Hw _ Hx).
Qed.

Lemma dispatch_inv to w skip s :
  dw_inv s → 0 < to < 2 ^ 63 → (∀ x, x ∈ dw_dispatched s → dwk_id x.2 ≠ dwk_id w) → dw_inv (dispatch to w skip s).2.
Proof.
  intros HI Hto Hw. unfold dispatch. destruct (dw_toExit s) eqn:Hex; [done|].
  destruct (negb skip && _); [done|]. simpl.
  pose proof (di_served _ HI Hex) as Hsv. pose proof (di_exited _ HI) as Hnone. unfold dw_served in Hsv.
  destruct (dw_exited s) eqn:Hx.
  - assert (dw_thread s = DwNone) as Hn by (by apply Hnone). rewrite Hn in Hsv.
    destruct (dw_map s) as [|[k x] m] eqn:Em; [|done]. simpl in *.
    eapply dw_inv_inserted; try done; simpl; rewrite ?Em; done.
  - assert (dw_thread s ≠ DwNone) as Hn by (intros E; by apply Hnone in E).
    destruct (dw_map s) as [|[k x] m] eqn:Em; [|case_bool_decide as Hlt].
    + eapply dw_inv_inserted; try done; simpl; rewrite ?Em; try done. intros _. unfold dw_served. simpl.
      rewrite ?Em. simpl. destruct (dw_thread s); try done. right. exists to.
      rewrite timer_ns_id, decide_False by lia. done.
    + eapply dw_inv_inserted; try done; simpl; rewrite ?Em; try done. intros _. unfold dw_served. simpl.
      rewrite ?Em. simpl. rewrite decide_True by done. destruct (dw_thread s); try done. right. exists to.
      rewrite timer_ns_id, decide_False by lia. done.
    + eapply dw_inv_inserted; try done; simpl; rewrite ?Em; try done. intros _. unfold dw_served. simpl.
      rewrite ?Em. simpl. by rewrite decide_False by done.
Qed.

Lemma find_in_range_spec to we m m' :
  mm_erase_in_range to (λ w, bool_decide (dwk_we w = we)) m = Some m' →
  ∃ w, find_in_range to we m = Some w ∧ m ≡ₚ (to, w) :: m'.
Proof.
  revert m'. induction m as [|[k x] m IH]; intros m' H; simpl in *; [done|].
  repeat case_decide; simplify_eq/=.
  - by exists x.
  - apply fmap_Some in H as (m'' & H & ->). destruct (IH _ H) as (w & -> & Hp). exists w. split; [done|].
    rewrite Hp. apply Permutation_swap.
  - apply fmap_Some in H as (m'' & H & ->). destruct (IH _ H) as (w & -> & Hp). exists w. split; [done|].
    rewrite Hp. apply Permutation_swap.
Qed.

(** The first deadline does not become earlier when works leave the map. *)
Lemma dw_served_shrink s s' l1 x l2 :
  mm_sorted (dw_map s) → dw_served s → dw_map s = l1 ++ x :: l2 → dw_map s' = l1 ++ l2 →
  dw_thread s' = dw_thread s → dw_event s' = dw_event s → dw_timer s' = dw_timer s → dw_served s'.
Proof.
  intros Hs Hv Em Em' Et Ee Eti. unfold dw_served in *. rewrite Em', Et, Ee, Eti. rewrite Em in *.
  destruct l1 as [|[k y] l1]; simpl in *; [|done]. destruct x as [k x], l2 as [|[k2 y] l2]; [done|].
  destruct (dw_thread s); try done. destruct Hv as [?|(t & ? & ?)]; [by left|]. right. exists t. split; [done|].
  assert (k <= k2); [|lia]. apply (mm_sorted_head_min k x ((k2, y) :: l2) (k2, y) Hs). by right; left.
Qed.

Lemma remove_inv to we s : dw_inv s → dw_inv (remove to we s).2.
Proof.
  intros HI. unfold remove. destruct (dw_toExit s) eqn:Hex; [done|].
  destruct (mm_erase_in_range to _ (dw_map s)) as [m|] eqn:Em; [|done].
  destruct (find_in_range_spec _ _ _ _ Em) as (w & -> & Hp). simpl.
  apply mm_erase_in_range_Some in Em as (l1 & l2 & v & Em & -> & _).
  destruct HI as [Hs Hr He Hv Ho Hi Ht]. split; simpl; auto.
  - rewrite Em in Hs. eapply mm_sorted_sublist; [|done]. apply sublist_app; [done|]. by apply sublist_cons.
  - intros x Hx. apply Hr. rewrite Em. set_solver.
  - intros _. eapply (dw_served_shrink s _ l1 (to, v) l2); auto.
  - rewrite Ho, Hp. simpl. by rewrite !app_assoc, Permutation_middle.
Qed.

Lemma dw_inv_idle s s' :
  dw_inv s → dw_map s = [] → dw_map s' = [] → dw_dispatched s' = dw_dispatched s → dw_called s' = dw_called s →
  dw_removed s' = dw_removed s → dw_now s' = dw_now s → (dw_exited s' = true ↔ dw_thread s' = DwNone) → dw_inv s'.
Proof.
  intros [Hs Hr He Hv Ho Hi Ht] Em Em' Ed Ec Er En Hx.
  split; rewrite ?Em', ?Ed, ?Ec, ?Er, ?En; auto.
  - apply mm_sorted_nil.
  - by intros x ?%elem_of_nil.
  - intros _. unfold dw_served. by rewrite Em'.
  - by rewrite Ho, Em.
Qed.

Lemma thread_continue_inv preserved noWorkers s :
  dw_inv s → dw_exited s = false → dw_toExit s = false →
  dw_inv (thread_continue preserved noWorkers (dw_now s) s).
Proof.
  intros HI Hx Hex. unfold thread_continue, HandleWork_next.
  destruct (dw_map s) as [|[tp w] m] eqn:Em.
  { destruct preserved; [|destruct (bool_decide _ && noWorkers)]; apply (dw_inv_idle s); try done; simpl; by rewrite Hx. }
  destruct HI as [Hs Hr He Hv Ho Hi Ht]. rewrite Em in *.
  rewrite Hex. simpl. rewrite andb_true_r. case_bool_decide as Hle; split; simpl; auto.
  - by eapply mm_sorted_tail.
  - intros x Hin. apply Hr. by right.
  - by rewrite Hx.
  - intros _. unfold dw_served. simpl. by destruct m as [|[??]?].
  - rewrite Ho. simpl. by rewrite Permutation_middle.
  - intros x [->|Hin]%elem_of_cons; simpl; [lia|by apply Ht].
  - by rewrite ?Em.
  - rewrite ?Em. auto.
  - by rewrite Hx.
  - intros _. unfold dw_served. simpl. rewrite ?Em. right. exists tp.
    rewrite timer_ns_id, decide_False; [by split| |]; specialize (Hr (tp, w) ltac:(left)); simpl in Hr; lia.
  - by rewrite ?Em.
Qed.

Lemma dw_inv_step preserved s s' : dw_inv s → dw_step preserved s s' → dw_inv s'.
Proof.
  intros HI Hst. destruct Hst as [s to w skip Hto Hw|s to we|s nw Hp|s nw w Hp|s timeout Hp _|s t Ht Hle|s d Hd Hlt|s].
  - by apply dispatch_inv.
  - by apply remove_inv.
  - assert (dw_exited s = false) as Hx by (destruct (dw_exited s) eqn:E; [by apply (di_exited _ HI) in E; congruence|done]).
    unfold thread_top. destruct (dw_toExit s) eqn:Hex.
    { destruct HI as [Hs Hr He Hv Ho Hi Ht]. split; simpl; auto; [done|congruence]. }
    destruct (dw_map s) as [|x m] eqn:Em; [by apply thread_continue_inv|].
    apply (thread_continue_inv preserved nw (s <| dw_noTaskDelayCount := 0 |>)); [|done..].
    destruct HI as [Hs Hr He Hv Ho Hi Ht]. by split.
  - assert (dw_exited s = false) as Hx by (destruct (dw_exited s) eqn:E; [by apply (di_exited _ HI) in E; congruence|done]).
    unfold thread_called. destruct (dw_toExit s) eqn:Hex; [|by apply thread_continue_inv].
    destruct HI as [Hs Hr He Hv Ho Hi Ht]. split; simpl; auto; [done|congruence].
  - destruct HI as [Hs Hr He Hv Ho Hi Ht]. split; simpl; auto.
    + rewrite He, Hp. by split.
    + intros _. unfold dw_served. simpl. by destruct (dw_map s) as [|[??]?].
  - destruct HI as [Hs Hr He Hv Ho Hi Htm]. split; simpl; auto.
    intros Hex. specialize (Hv Hex). unfold dw_served in *. simpl. destruct (dw_map s) as [|[??]?]; [done|].
    destruct (dw_thread s); auto.
  - destruct HI as [Hs Hr He Hv Ho Hi Ht]. split; simpl; auto.
    intros x Hx. specialize (Ht x Hx). lia.
  - destruct HI as [Hs Hr He Hv Ho Hi Ht]. split; simpl; auto. done.
Qed.

Lemma dw_reachable_inv preserved now s : rtc (dw_step preserved) (dw_init now) s → dw_inv s.
Proof.
  apply rtc_invariant; [|intros a b; apply dw_inv_step].
  split; simpl; try done; try set_solver; [apply mm_sorted_nil|apply NoDup_nil_2].
Qed.

(** C29: no deadline is missed.  As long as the delayed worker is not being
    terminated and works are pending, its thread runs, and if it sleeps then the
    timer is set no later than the first deadline or has already expired, however
    [dispatch], [remove], the callbacks, the idle exit and the restart of the
    thread interleave. *)
Theorem delayed_worker_served preserved now s :
  rtc (dw_step preserved) (dw_init now) s → dw_toExit s = false → dw_served s.
Proof. intros Hr. apply (dw_reachable_inv _ _ _ Hr). Qed.

(** every dispatched work is called once, removed once, or still pending, and
    no callback starts before its deadline. *)
Theorem delayed_work_once preserved now s :
  rtc (dw_step preserved) (dw_init now) s →
  dw_dispatched s ≡ₚ dw_map s ++ (fst <$> dw_called s) ++ dw_removed s ∧
  NoDup ((λ x, dwk_id x.2) <$> dw_dispatched s) ∧
  (∀ tp w t, (tp, w, t) ∈ dw_called s → tp <= t <= dw_now s).
Proof.
  intros Hr%dw_reachable_inv. destruct Hr as [_ _ _ _ Ho Hi Ht]. split_and!; [done..|].
  intros tp w t Hin. apply (Ht _ Hin).
Qed.

(** A work is dispatched, the thread starts, sets the timer and sleeps; a work
    with an earlier deadline comes in; time passes and the first is called. *)
#[local] Abbreviation wa := (mkDelayedWork 1 1).
#[local] Abbreviation wb := (mkDelayedWork 2 2).
Definition dw_demo_wait : dw := (dispatch 50 wb true (thread_top false false (dispatch 100 wa true (dw_init 5)).2)).2.
Definition dw_demo : dw :=
  let s := dw_demo_wait <| dw_now ::= λ n, n + 50 |> in
  let s := s <| dw_timer := None |> <| dw_event := true |> in
  thread_top false false (s <| dw_event := false |> <| dw_thread := DwTop |>).

Lemma dw_demo_wait_reachable : rtc (dw_step false) (dw_init 5) dw_demo_wait.
Proof.
  eapply rtc_l; [apply (dw_dispatch _ _ 100 wa true); [lia|by intros x ?%elem_of_nil]|].
  eapply rtc_l; [by apply (dw_run_top _ _ false)|].
  apply rtc_once. apply (dw_dispatch _ _ 50 wb true); [lia|].
  intros x Hx. vm_compute in Hx. by apply list_elem_of_singleton in Hx as ->.
Qed.

Lemma dw_demo_reachable : rtc (dw_step false) (dw_init 5) dw_demo.
Proof.
  etrans; [apply dw_demo_wait_reachable|].
  eapply rtc_l; [by apply (dw_tick _ _ 50)|]. eapply rtc_l; [by apply (dw_expire _ _ 50)|].
  eapply rtc_l; [by apply (dw_epoll _ _ false); [|left]|]. apply rtc_once. by apply (dw_run_top _ _ false).
Qed.

Lemma delayed_worker_served_witness : dw_thread dw_demo_wait = DwWait ∧ dw_served dw_demo_wait.
Proof. split; [by vm_compute|]. by apply (delayed_worker_served _ _ _ dw_demo_wait_reachable). Defined.

Lemma delayed_work_once_witness :
  dw_called dw_demo = [(50, wb, 55)] ∧ dw_dispatched dw_demo ≡ₚ dw_map dw_demo ++ (fst <$> dw_called dw_demo) ++ dw_removed dw_demo.
Proof. split; [by vm_compute|]. apply (delayed_work_once _ _ _ dw_demo_reachable). Defined.

