(* ===== verification/TimerManager.v ===== *)
(** * Timers

    Models src/sync/timer_manager.{h,cpp} ([TimerManager]) and the checks of
    src/core/timer_api.cpp.  A registered timer is an entry of [timerMap_]; its
    expiration is a work of the delayed worker, which submits a task that runs
    the callback.  The step relation interleaves registrations, expirations, the
    sections of those tasks and [UnregisterTimer], one section per critical
    section of [timerMutex_].  Of the delayed worker it uses that a dispatched
    work is called at most once (DelayedWorker.v); tasks run at most once. *)

From S2P Require Import Prelude.

Definition MAX_TIMER_MS_COUNT : Z := 1000 * 100 * 60 * 60 * 24 * 365.

Inductive TimerState := NOT_EXECUTED | EXECUTING | EXECUTED.

#[export] Instance TimerState_eq_dec : EqDecision TimerState.
Proof. solve_decision. Defined.

Record TimerData := mkTimerData {
  td_cb : bool;          (* [cb] is not null *)
  td_repeat : bool;
  td_qos : Z;
  td_timeout : Z;
  td_state : TimerState;
}.

#[export] Instance TimerData_eta : Eta TimerData := λ d,
  mkTimerData (td_cb d) (td_repeat d) (td_qos d) (td_timeout d) (td_state d).

(** [tm_pending]: the works in the delayed worker; [tm_tasks]: the submitted
    tasks that have not started; [tm_running]: the tasks in a callback, by the handle
    and by the value that [tm_rehash], the number of times [timerMap_] was rehashed,
    had when they took the iterator; [tm_spinning]: the calls of [UnregisterTimer]
    in the loop.  The last three fields are for the statements: how often a callback
    was started, which timers were registered without [repeat], and whether an
    iterator was used that a rehash had invalidated. *)
Record tm := mk_tm {
  timerHandle_ : Z;
  teardown : bool;
  timerMap_ : gmap Z TimerData;
  tm_pending : list Z;
  tm_tasks : list Z;
  tm_running : list (Z * Z);
  tm_spinning : list Z;
  tm_rehash : Z;
  tm_calls : Z → Z;
  tm_once : gset Z;
  tm_stale : bool;
}.

#[export] Instance tm_eta : Eta tm := λ s,
  mk_tm (timerHandle_ s) (teardown s) (timerMap_ s) (tm_pending s) (tm_tasks s) (tm_running s) (tm_spinning s)
    (tm_rehash s) (tm_calls s) (tm_once s) (tm_stale s).

Definition tm_init : tm := mk_tm (-1) false ∅ [] [] [] [] 0 (λ _, 0) ∅ false.

(** [ok]: whether [DelayedWakeup] accepts the work. *)
Definition RegisterTimerImpl (ok : bool) (handle : Z) (s : tm) : tm :=
  if ok then s <| tm_pending ::= cons handle |> else s.

(** [rehash]: whether [emplace] rehashes. *)
Definition RegisterTimer (ok rehash : bool) (qos timeout : Z) (cb repeat : bool) (s : tm) : Z * tm :=
  if teardown s then (-1, s) else
  let timeout := if decide (timeout > MAX_TIMER_MS_COUNT) then MAX_TIMER_MS_COUNT else timeout in
  let h := timerHandle_ s + 1 in
  let s := s <| timerHandle_ := h |>
             <| timerMap_ ::= <[h := mkTimerData cb repeat qos timeout NOT_EXECUTED]> |>
             <| tm_rehash ::= λ n, if rehash then n + 1 else n |>
             <| tm_once ::= λ o, if repeat then o else o ∪ {[h]} |> in
  (h, RegisterTimerImpl ok h s).

(** [workCb]: the work is called and submits a task. *)
Definition workCb (l1 l2 : list Z) (h : Z) (s : tm) : tm :=
  let s := s <| tm_pending := l1 ++ l2 |> in
  if teardown s then s else s <| tm_tasks ::= cons h |>.

(** The end of the task: the new state, and the timer is armed again or erased. *)
Definition timer_task_end (ok : bool) (h : Z) (d : TimerData) (s : tm) : tm :=
  let s := s <| timerMap_ ::= <[h := d <| td_state := EXECUTED |>]> |> in
  if td_repeat d then RegisterTimerImpl ok h s else s <| timerMap_ ::= delete h |>.

(** The task up to the callback, or as a whole when there is none to call. *)
Definition timer_task_start (ok : bool) (l1 l2 : list Z) (h : Z) (s : tm) : tm :=
  let s := s <| tm_tasks := l1 ++ l2 |> in
  if teardown s then s else
  match timerMap_ s !! h with
  | None => s
  | Some d =>
      let d := d <| td_state := EXECUTING |> in
      let s := s <| timerMap_ ::= <[h := d]> |> in
      if td_cb d
      then s <| tm_running ::= cons (h, tm_rehash s) |> <| tm_calls := <[h := tm_calls s h + 1]> (tm_calls s) |>
      else timer_task_end ok h d s
  end.

(** The task after the callback.  It holds the data object and the iterator; [None]
    when the entry they belong to is gone, so that the iterator dangles.  By the
    standard a rehash has invalidated the iterator too; the node is then erased all
    the same. *)
Definition timer_task_called (ok : bool) (l1 l2 : list (Z * Z)) (t : Z * Z) (s : tm) : option tm :=
  let s := s <| tm_running := l1 ++ l2 |> in
  d ← timerMap_ s !! t.1;
  let s := if td_repeat d || bool_decide (t.2 = tm_rehash s) then s else s <| tm_stale := true |> in
  Some (timer_task_end ok t.1 d s).

(** [UnregisterTimer] up to the point where it returns or unlocks to spin ([None]). *)
Definition UnregisterTimer (handle : Z) (s : tm) : option Z * tm :=
  if teardown s then (Some (-1), s) else
  if decide (handle > timerHandle_ s ∨ handle <= -1) then (Some (-1), s) else
  match timerMap_ s !! handle with
  | None => (Some 0, s)
  | Some d =>
      if decide (td_state d = EXECUTING) then (None, s <| tm_spinning ::= cons handle |>)
      else (Some 0, s <| timerMap_ ::= delete handle |>)
  end.

(** A turn of its loop, after the lock was taken again. *)
Definition UnregisterTimer_turn (l1 l2 : list Z) (handle : Z) (s : tm) : option Z * tm :=
  match timerMap_ s !! handle with
  | None => (Some 0, s <| tm_spinning := l1 ++ l2 |>)
  | Some d =>
      if decide (td_state d = EXECUTING) then (None, s)
      else (Some 0, s <| tm_spinning := l1 ++ l2 |> <| timerMap_ ::= delete handle |>)
  end.

Inductive ffrt_timer_query := ffrt_timer_notfound | ffrt_timer_not_executed | ffrt_timer_executed.

(** [None]: it unlocks to spin. *)
Definition GetTimerStatus (handle : Z) (s : tm) : option ffrt_timer_query :=
  if teardown s then Some ffrt_timer_notfound else
  if decide (handle > timerHandle_ s) then Some ffrt_timer_notfound else
  match timerMap_ s !! handle with
  | None => Some ffrt_timer_executed
  | Some d =>
      match td_state d with
      | NOT_EXECUTED => Some ffrt_timer_not_executed
      | EXECUTING => None
      | EXECUTED => Some ffrt_timer_executed
      end
  end.

(** A turn of its loop. *)
Definition GetTimerStatus_turn (handle : Z) (s : tm) : option ffrt_timer_query :=
  match timerMap_ s !! handle with
  | None => Some ffrt_timer_executed
  | Some d => if decide (td_state d = EXECUTING) then None else Some ffrt_timer_executed
  end.

Definition TimerManager_dtor (s : tm) : tm := s <| teardown := true |>.

Inductive tm_step (ok : bool) : tm → tm → Prop :=
| tm_register s rehash qos timeout cb repeat :
    timerHandle_ s < INT_MAX → tm_step ok s (RegisterTimer ok rehash qos timeout cb repeat s).2
| tm_expire s l1 h l2 : tm_pending s = l1 ++ h :: l2 → tm_step ok s (workCb l1 l2 h s)
| tm_start s l1 h l2 : tm_tasks s = l1 ++ h :: l2 → tm_step ok s (timer_task_start ok l1 l2 h s)
| tm_called s l1 t l2 s' : tm_running s = l1 ++ t :: l2 → timer_task_called ok l1 l2 t s = Some s' → tm_step ok s s'
| tm_unregister s h : tm_step ok s (UnregisterTimer h s).2
| tm_spin s l1 h l2 : tm_spinning s = l1 ++ h :: l2 → tm_step ok s (UnregisterTimer_turn l1 l2 h s).2
| tm_teardown s : tm_step ok s (TimerManager_dtor s).

(** ** Invariant *)

Definition occ (h : Z) (l : list Z) : Z := zsum (λ x, bool_decide (x = h)) l.

(** The works and tasks on their way for a timer. *)
Definition coming (s : tm) (h : Z) : Z := occ h (tm_pending s) + occ h (tm_tasks s).

(** The tasks in the callback of a timer. *)
Definition running (s : tm) (h : Z) : Z := occ h (tm_running s).*1.

(** What is known of a timer: [top] is the last handle, [o] its entry, [c] and [r]
    what is coming and running, [k] the callbacks started, [once] that it was
    registered without [repeat]. *)
Record view_inv (ok td : bool) (top h : Z) (o : option TimerData) (c r k : Z) (once : bool) : Prop := {
  vi_top : -1 <= top;
  vi_nonneg : 0 <= c ∧ 0 <= r;
  vi_fresh : top < h → o = None ∧ c = 0 ∧ k = 0 ∧ once = false;
  vi_none : o = None → r = 0 ∧ c <= 1;
  vi_some d : o = Some d →
    0 <= h <= top ∧ once = negb (td_repeat d) ∧
    if decide (td_state d = EXECUTING) then r = 1 ∧ c = 0
    else r = 0 ∧ c <= 1 ∧ (ok = true → td = false → c = 1);
  vi_once : once = true → 0 <= k <= 1 ∧
    ∀ d, o = Some d → td_state d = NOT_EXECUTED ∧ k = 0 ∨ td_state d = EXECUTING;
}.

Definition timer_inv (ok : bool) (s : tm) (h : Z) : Prop :=
  view_inv ok (teardown s) (timerHandle_ s) h (timerMap_ s !! h) (coming s h) (running s h) (tm_calls s h)
    (bool_decide (h ∈ tm_once s)).

Lemma occ_app h l1 l2 : occ h (l1 ++ l2) = occ h l1 + occ h l2.
Proof. apply zsum_app. Qed.
Lemma occ_cons h x l : occ h (x :: l) = (if decide (x = h) then 1 else 0) + occ h l.
Proof. unfold occ. simpl. case_bool_decide; [rewrite decide_True by done|rewrite decide_False by done]; simpl; lia. Qed.
Lemma occ_cons_eq h l : occ h (h :: l) = 1 + occ h l.
Proof. by rewrite occ_cons, decide_True. Qed.
Lemma occ_cons_ne h x l : x ≠ h → occ h (x :: l) = occ h l.
Proof. intros. by rewrite occ_cons, decide_False. Qed.
Lemma occ_middle h x l1 l2 : occ h (l1 ++ x :: l2) = occ h (x :: l1 ++ l2).
Proof. rewrite !occ_app, !occ_cons, occ_app. lia. Qed.

Arguments occ : simpl never.

(** A step that concerns another timer. *)
Lemma timer_inv_frame ok s s' h :
  timer_inv ok s h → teardown s' = teardown s → timerHandle_ s <= timerHandle_ s' → 
  timerMap_ s' !! h = timerMap_ s !! h → coming s' h = coming s h → running s' h = running s h →
  tm_calls s' h = tm_calls s h → (h ∈ tm_once s' ↔ h ∈ tm_once s) → timer_inv ok s' h.
Proof.
  unfold timer_inv. intros HI -> Hle -> -> -> -> Ho. rewrite (bool_decide_ext _ _ Ho).
  destruct HI as [Ht Hc Hf Hn Hs H1]. split; auto; try lia.
  - intros ?. apply Hf. lia.
  - intros d Hd. destruct (Hs d Hd) as (? & ? & ?). split_and!; try done; lia.
Qed.

Lemma view_inv_eq ok td top h o c r k c' r' k' once :
  view_inv ok td top h o c r k once → c = c' → r = r' → k = k' → view_inv ok td top h o c' r' k' once.
Proof. by intros ? <- <- <-. Qed.

(** Changes of one timer, as changes of its view. *)
Section view.
Context (ok td : bool) (top h : Z).
Implicit Types (d : TimerData).

Lemma view_register cb repeat qos timeout c r k :
  -1 <= top → h = top + 1 → c = (if ok then 1 else 0) → r = 0 → k = 0 →
  view_inv ok td h h (Some (mkTimerData cb repeat qos timeout NOT_EXECUTED)) c r k (negb repeat).
Proof.
  intros Ht -> -> -> ->. split; try done; try lia; try (by destruct ok).
  - intros d [= <-]. simpl. split_and!; try done; try lia; by destruct ok.
  - intros _. split; [lia|]. intros d [= <-]. by left.
Qed.

Lemma view_start d c r k once :
  view_inv ok td top h (Some d) c r k once → 1 <= c →
  td_state d ≠ EXECUTING ∧
  view_inv ok td top h (Some (d <| td_state := EXECUTING |>)) (c - 1) (r + 1) (k + 1) once.
Proof.
  intros [Ht Hc Hf Hn Hs Ho] H1. destruct (Hs d eq_refl) as (Hh & Hon & Hst).
  destruct (decide (td_state d = EXECUTING)) as [E|E]; [lia|]. split; [done|].
  split; try done; try lia.
  - intros d' [= <-]. simpl. split_and!; try done; lia.
  - intros H. destruct (Ho H) as [Hk Hd]. destruct (Hd d eq_refl) as [[_ ->]|?]; [|done]. split; [lia|].
    intros d' [= <-]. by right.
Qed.

(** The end of a task whose callback ran. *)
Lemma view_end d c r k once :
  view_inv ok td top h (Some d) c r k once → td_state d = EXECUTING →
  if td_repeat d
  then view_inv ok td top h (Some (d <| td_state := EXECUTED |>)) (c + if ok then 1 else 0) (r - 1) k once
  else view_inv ok td top h None c (r - 1) k once.
Proof.
  intros [Ht Hc Hf Hn Hs Ho] HE. destruct (Hs d eq_refl) as (Hh & Hon & Hst). rewrite decide_True in Hst by done.
  destruct (td_repeat d) eqn:Hr; split; try done; try lia.
  - destruct ok; lia.
  - intros d' [= <-]. simpl. rewrite Hr. split_and!; try done; try lia; destruct ok; done || lia.
  - by rewrite Hon.
  - intros H. split; [by apply Ho|done].
Qed.

(** The end of a task without a callback to call: start and end in one section. *)
Lemma view_skip d c r k once :
  view_inv ok td top h (Some d) c r k once → 1 <= c →
  if td_repeat d
  then view_inv ok td top h (Some (d <| td_state := EXECUTED |>)) (c - 1 + if ok then 1 else 0) r k once
  else view_inv ok td top h None (c - 1) r k once.
Proof.
  intros [Ht Hc Hf Hn Hs Ho] H1. destruct (Hs d eq_refl) as (Hh & Hon & Hst).
  destruct (decide (td_state d = EXECUTING)) as [E|E]; [lia|].
  destruct (td_repeat d) eqn:Hr; split; try done; try lia.
  - destruct ok; lia.
  - intros d' [= <-]. simpl. rewrite Hr. split_and!; try done; try lia; destruct ok; done || lia.
  - by rewrite Hon.
  - intros H. split; [by apply Ho|done].
Qed.

Lemma view_erase d c r k once :
  view_inv ok td top h (Some d) c r k once → td_state d ≠ EXECUTING → view_inv ok td top h None c r k once.
Proof.
  intros [Ht Hc Hf Hn Hs Ho] E. destruct (Hs d eq_refl) as (Hh & Hon & Hst). rewrite decide_False in Hst by done.
  split; try done; try lia. intros H. split; [by apply Ho|done].
Qed.

Lemma view_drop o c r k once :
  view_inv ok td top h o c r k once → o = None ∨ td = true → 1 <= c → view_inv ok td top h o (c - 1) r k once.
Proof.
  intros [Ht Hc Hf Hn Hs Ho] Hor H1. split; try done; try lia.
  - intros Hno. destruct (Hn Hno). lia.
  - intros d ->. destruct (Hs d eq_refl) as (? & ? & Hst). destruct Hor as [?|Htd]; [done|].
    split_and!; [lia..|done|]. case_decide; [lia|]. split_and!; try lia. intros _. congruence.
Qed.
End view.

(** *** Preservation *)

Lemma register_inv ok rehash qos timeout cb repeat s h :
  (∀ h, timer_inv ok s h) → timer_inv ok (RegisterTimer ok rehash qos timeout cb repeat s).2 h.
Proof.
  intros HI. unfold RegisterTimer. destruct (teardown s) eqn:Ht; [apply HI|]. simpl. set (h' := timerHandle_ s + 1).
  pose proof (HI h') as [Htop Hc Hf Hn _ _]. destruct (Hf ltac:(lia)) as (Hm & Hc0 & Hk0 & Ho0). specialize (Hn Hm).
  apply bool_decide_eq_false in Ho0. destruct (decide (h = h')) as [->|Hne].
  - assert (bool_decide (h' ∈ (if repeat then tm_once s else tm_once s ∪ {[h']})) = negb repeat) as Hon.
    { destruct repeat; [by apply bool_decide_eq_false|]. apply bool_decide_eq_true. set_solver. }
    destruct ok; unfold timer_inv, RegisterTimerImpl, coming, running in *; simpl in *; rewrite lookup_insert_eq, Hon, ?occ_cons_eq.
    + apply (view_register _ _ (timerHandle_ s)); lia.
    + apply (view_register _ _ (timerHandle_ s)); lia.
  - assert (h ∈ (if repeat then tm_once s else tm_once s ∪ {[h']}) ↔ h ∈ tm_once s) as Hon.
    { destruct repeat; [done|]. rewrite elem_of_union, elem_of_singleton. tauto. }
    apply (timer_inv_frame ok s); [apply HI|..]; unfold RegisterTimerImpl; destruct ok; simpl; try done; try lia.
    + by rewrite lookup_insert_ne by done.
    + by rewrite lookup_insert_ne by done.
    + unfold coming. simpl. by rewrite occ_cons_ne.
Qed.

Lemma workCb_inv ok l1 h' l2 s h :
  (∀ h, timer_inv ok s h) → tm_pending s = l1 ++ h' :: l2 → timer_inv ok (workCb l1 l2 h' s) h.
Proof.
  intros HI Hp. specialize (HI h). unfold workCb. simpl. destruct (teardown s) eqn:Ht.
  - unfold timer_inv, coming in *. simpl. rewrite Hp, occ_middle in HI. rewrite Ht in *.
    destruct (decide (h' = h)) as [->|]; [rewrite occ_cons_eq in HI|rewrite occ_cons_ne in HI by done; by destruct s].
    replace (occ h (l1 ++ l2) + occ h (tm_tasks s)) with (1 + occ h (l1 ++ l2) + occ h (tm_tasks s) - 1) by lia.
    pose proof (zsum_nonneg (λ x, bool_decide (x = h)) (l1 ++ l2)) as [H1 _].
    pose proof (zsum_nonneg (λ x, bool_decide (x = h)) (tm_tasks s)) as [H2 _]. fold (occ h (l1 ++ l2)) (occ h (tm_tasks s)) in *.
    apply view_drop; [done|by right|lia].
  - apply (timer_inv_frame ok s); simpl; try done; try lia. unfold coming. simpl. rewrite Hp, occ_middle, !occ_cons. lia.
Qed.

Lemma occ_nonneg h l : 0 <= occ h l.
Proof. apply zsum_nonneg. Qed.

(** Another timer during the end of a task. *)
Lemma timer_task_end_frame ok h' d s h :
  h ≠ h' → timer_inv ok s h → timer_inv ok (timer_task_end ok h' d s) h.
Proof.
  intros Hne HI. unfold timer_task_end, RegisterTimerImpl. destruct (td_repeat d), ok;
    (eapply (timer_inv_frame _ s); [done|..]; simpl; try done; try lia);
    rewrite ?lookup_delete_ne, ?lookup_insert_ne by done; try done; unfold coming; simpl; by rewrite ?occ_cons_ne by done.
Qed.

(** Its own timer: the view of [s] with the task taken away is the one given. *)
Lemma timer_task_end_self ok h d s :
  (if td_repeat d
   then view_inv ok (teardown s) (timerHandle_ s) h (Some (d <| td_state := EXECUTED |>))
          (coming s h + if ok then 1 else 0) (running s h) (tm_calls s h) (bool_decide (h ∈ tm_once s))
   else view_inv ok (teardown s) (timerHandle_ s) h None (coming s h) (running s h) (tm_calls s h)
          (bool_decide (h ∈ tm_once s))) →
  timer_inv ok (timer_task_end ok h d s) h.
Proof.
  unfold timer_task_end, RegisterTimerImpl, timer_inv, coming. destruct (td_repeat d), ok; simpl;
    rewrite ?lookup_delete_eq, ?lookup_insert_eq, ?occ_cons_eq; auto.
  - intros H. by replace (1 + occ h (tm_pending s) + occ h (tm_tasks s)) with (occ h (tm_pending s) + occ h (tm_tasks s) + 1) by lia.
  - by rewrite Z.add_0_r.
Qed.

Lemma task_start_inv ok l1 h' l2 s h :
  (∀ h, timer_inv ok s h) → tm_tasks s = l1 ++ h' :: l2 → timer_inv ok (timer_task_start ok l1 l2 h' s) h.
Proof.
  intros HI Hp. unfold timer_task_start. set (s1 := s <| tm_tasks := l1 ++ l2 |>).
  assert (coming s h' = coming s1 h' + 1) as Hc'.
  { unfold coming, s1. simpl. rewrite Hp, occ_middle, occ_cons_eq. lia. }
  assert (h ≠ h' → coming s1 h = coming s h) as Hc.
  { intros. unfold coming, s1. simpl. by rewrite Hp, occ_middle, occ_cons_ne. }
  assert (0 <= coming s1 h') by (unfold coming; pose proof (occ_nonneg h' (tm_pending s1)); pose proof (occ_nonneg h' (tm_tasks s1)); lia).
  pose proof (HI h') as HI'. unfold timer_inv in HI'. rewrite Hc' in HI'.
  assert (∀ v, h ≠ h' → timerMap_ v = timerMap_ s1 ∨ (∃ d, timerMap_ v = <[h' := d]> (timerMap_ s1)) → teardown v = teardown s →
    timerHandle_ v = timerHandle_ s → coming v h = coming s1 h → running v h = running s h →
    tm_calls v h = tm_calls s h → tm_once v = tm_once s → timer_inv ok v h) as Hframe.
  { intros v Hne Hm ? Ht Hv ?? Eo. specialize (Hc Hne). eapply (timer_inv_frame _ s); try done; try lia; [|by rewrite Eo].
    destruct Hm as [->|[d ->]]; [done|]. by rewrite lookup_insert_ne. }
  change (teardown s1) with (teardown s). change (timerMap_ s1 !! h') with (timerMap_ s !! h').
  destruct (decide (h = h')) as [->|Hne].
  - destruct (teardown s) eqn:Ht.
    { unfold timer_inv. change (teardown s1) with (teardown s). rewrite Ht.
      replace (coming s1 h') with (coming s1 h' + 1 - 1) by lia. apply view_drop; [done|by right|lia]. }
    destruct (timerMap_ s !! h') as [d|] eqn:Ed.
    2:{ unfold timer_inv. change (teardown s1) with (teardown s). change (timerMap_ s1) with (timerMap_ s). rewrite Ht, Ed.
        replace (coming s1 h') with (coming s1 h' + 1 - 1) by lia. apply view_drop; [done|by left|lia]. }
    simpl. destruct (td_cb d) eqn:Ecb.
    + apply view_start in HI' as [_ HI']; [|lia]. unfold timer_inv. simpl.
      rewrite lookup_insert_eq, fn_lookup_insert, Ht. unfold coming, running in *. simpl in *.
      rewrite Ecb in HI'. eapply view_inv_eq; [exact HI'|lia| |lia]. rewrite occ_cons_eq. apply Z.add_comm.
    + apply timer_task_end_self. simpl. apply view_skip in HI'; [|lia].
      unfold coming in *. simpl in *. rewrite Ht, ?Ecb in *. destruct (td_repeat d); (eapply view_inv_eq; [exact HI'|lia|done|lia]).
  - destruct (teardown s) eqn:Ht; [apply Hframe; auto|].
    destruct (timerMap_ s !! h') as [d|] eqn:Ed; [|apply Hframe; auto].
    simpl. destruct (td_cb d).
    + apply Hframe; simpl; eauto; [unfold running; simpl; by rewrite occ_cons_ne|by rewrite fn_lookup_insert_ne].
    + apply timer_task_end_frame; [done|]. apply Hframe; simpl; eauto.
Qed.

(** The iterator of a task in a callback does not dangle. *)
Lemma running_entry ok l1 t l2 s :
  timer_inv ok s t.1 → tm_running s = l1 ++ t :: l2 → ∃ d, timerMap_ s !! t.1 = Some d ∧ td_state d = EXECUTING.
Proof.
  intros [_ _ _ Hn Hs _] Hp. pose proof (occ_nonneg t.1 (l1.*1 ++ l2.*1)).
  assert (running s t.1 = 1 + occ t.1 (l1.*1 ++ l2.*1)) as Hr by (unfold running; by rewrite Hp, fmap_app, fmap_cons, occ_middle, occ_cons_eq).
  destruct (timerMap_ s !! t.1) as [d|] eqn:Ed; [|destruct (Hn eq_refl); lia].
  exists d. split; [done|]. destruct (Hs d eq_refl) as (_ & _ & Hst). case_decide; [done|lia].
Qed.

Lemma task_called_inv ok l1 t l2 s s' h :
  (∀ h, timer_inv ok s h) → tm_running s = l1 ++ t :: l2 → timer_task_called ok l1 l2 t s = Some s' → timer_inv ok s' h.
Proof.
  intros HI Hp. destruct (running_entry ok l1 t l2 s (HI t.1) Hp) as (d & Ed & HE). unfold timer_task_called. simpl. rewrite Ed. simpl.
  set (s1 := if _ || _ then _ else _). intros [= <-]. pose proof (HI t.1) as HI'. unfold timer_inv in HI'. rewrite Ed in HI'.
  assert (∀ h, running s h = (if decide (t.1 = h) then 1 else 0) + running s1 h) as Hr.
  { intros h'. unfold running, s1. destruct (_ || _); simpl; by rewrite Hp, !fmap_app, fmap_cons, occ_middle, occ_cons. }
  assert (timerMap_ s1 = timerMap_ s ∧ teardown s1 = teardown s ∧ timerHandle_ s1 = timerHandle_ s ∧ tm_pending s1 = tm_pending s ∧
    tm_tasks s1 = tm_tasks s ∧ tm_calls s1 = tm_calls s ∧ tm_once s1 = tm_once s) as (E1 & E2 & E3 & E4 & E5 & E6 & E7)
    by (unfold s1; by destruct (_ || _)).
  rewrite Hr, decide_True in HI' by done. destruct (decide (h = t.1)) as [->|Hne].
  - apply timer_task_end_self. apply view_end in HI'; [|done]. unfold coming in *. rewrite E2, E3, E4, E5, E6, E7.
    replace (1 + running s1 t.1 - 1) with (running s1 t.1) in HI' by lia. done.
  - apply timer_task_end_frame; [done|]. eapply (timer_inv_frame _ s); unfold coming; rewrite ?E1, ?E2, ?E3, ?E4, ?E5, ?E6, ?E7; try done.
    by rewrite Hr, decide_False.
Qed.

(** An entry that is not executing is erased. *)
Lemma erase_inv ok h' d s h :
  (∀ h, timer_inv ok s h) → timerMap_ s !! h' = Some d → td_state d ≠ EXECUTING → timer_inv ok (s <| timerMap_ ::= delete h' |>) h.
Proof.
  intros HI Ed Hs. destruct (decide (h = h')) as [->|Hne].
  - specialize (HI h'). unfold timer_inv in *. simpl. rewrite lookup_delete_eq. rewrite Ed in HI. by eapply view_erase.
  - eapply (timer_inv_frame _ s); try done. simpl. by rewrite lookup_delete_ne.
Qed.

Lemma unregister_inv ok h' s h : (∀ h, timer_inv ok s h) → timer_inv ok (UnregisterTimer h' s).2 h.
Proof.
  intros HI. unfold UnregisterTimer. destruct (teardown s) eqn:Ht; [apply HI|].
  destruct (decide _); [apply HI|]. destruct (timerMap_ s !! h') as [d|] eqn:Ed; [|apply HI].
  destruct (decide (td_state d = EXECUTING)); [apply (timer_inv_frame _ s); by try apply HI|]. by eapply erase_inv.
Qed.

Lemma turn_inv ok l1 l2 h' s h : (∀ h, timer_inv ok s h) → timer_inv ok (UnregisterTimer_turn l1 l2 h' s).2 h.
Proof.
  intros HI. unfold UnregisterTimer_turn. assert (∀ h, timer_inv ok (s <| tm_spinning := l1 ++ l2 |>) h) as HI1.
  { intros h1. apply (timer_inv_frame _ s); by try apply HI. }
  destruct (timerMap_ s !! h') as [d|] eqn:Ed; [|apply HI1].
  destruct (decide (td_state d = EXECUTING)); [apply HI|]. by eapply (erase_inv ok h' d (s <| tm_spinning := l1 ++ l2 |>)).
Qed.

Lemma dtor_inv ok s h : timer_inv ok s h → timer_inv ok (TimerManager_dtor s) h.
Proof.
  unfold timer_inv. simpl. change (coming (TimerManager_dtor s) h) with (coming s h). change (running (TimerManager_dtor s) h) with (running s h).
  intros [Ht Hc Hf Hn Hs Ho]. split; auto. intros d Hd. destruct (Hs d Hd) as (? & ? & Hst). case_decide; split_and!; try done; try lia.
Qed.

Lemma tm_inv_step ok s s' : (∀ h, timer_inv ok s h) → tm_step ok s s' → ∀ h, timer_inv ok s' h.
Proof.
  intros HI Hst h. destruct Hst;
    eauto using register_inv, workCb_inv, task_start_inv, task_called_inv, unregister_inv, turn_inv, dtor_inv.
Qed.

Lemma tm_reachable_inv ok s : rtc (tm_step ok) tm_init s → ∀ h, timer_inv ok s h.
Proof.
  apply (rtc_invariant _ (λ s, ∀ h, timer_inv ok s h)); [|apply tm_inv_step].
  intros h. unfold timer_inv. simpl. rewrite lookup_empty. by split.
Qed.

(** A timer without an entry stays without one, and its callback is not started. *)
Lemma timer_gone_step ok h n a b :
  (∀ h, timer_inv ok a h) ∧ timerMap_ a !! h = None ∧ h <= timerHandle_ a ∧ tm_calls a h = n → tm_step ok a b →
  (∀ h, timer_inv ok b h) ∧ timerMap_ b !! h = None ∧ h <= timerHandle_ b ∧ tm_calls b h = n.
Proof.
  intros (HI & Hn & Hh & Hk) Hst. split; [eauto using tm_inv_step|].
  assert (∀ h' d s, h' ≠ h → timerMap_ s !! h = None → h <= timerHandle_ s → tm_calls s h = n →
    timerMap_ (timer_task_end ok h' d s) !! h = None ∧ h <= timerHandle_ (timer_task_end ok h' d s) ∧
    tm_calls (timer_task_end ok h' d s) h = n) as Hend.
  { intros h' d s Hne ???. unfold timer_task_end, RegisterTimerImpl. destruct (td_repeat d), ok; simpl;
      by rewrite ?lookup_delete_ne, ?lookup_insert_ne by done. }
  destruct Hst as [s rehash qos timeout cb repeat Hlt|s l1 h' l2 Hl|s l1 h' l2 Hl|s l1 t l2 s' Hl Hc|s h'|s l1 h' l2 Hl|s]; simpl.
  - unfold RegisterTimer, RegisterTimerImpl. destruct (teardown s), ok; simpl; try done;
      rewrite lookup_insert_ne by lia; split_and!; try done; lia.
  - unfold workCb. by destruct (teardown _).
  - unfold timer_task_start. simpl. destruct (teardown s); [done|].
    destruct (timerMap_ s !! h') as [d|] eqn:Ed; [|done]. assert (h' ≠ h) by congruence.
    destruct (td_cb d); simpl; [by rewrite lookup_insert_ne, fn_lookup_insert_ne by done|].
    apply Hend; simpl; try done. by rewrite lookup_insert_ne.
  - unfold timer_task_called in Hc. simpl in Hc. destruct (timerMap_ s !! t.1) as [d|] eqn:Ed; [|done]. simpl in Hc. injection Hc as <-.
    assert (t.1 ≠ h) by congruence. destruct (_ || _); by apply Hend.
  - unfold UnregisterTimer. repeat case_match; simpl; try done. rewrite lookup_delete_None. auto.
  - unfold UnregisterTimer_turn. repeat case_match; simpl; try done. rewrite lookup_delete_None. auto.
  - done.
Qed.

(** The handles [UnregisterTimer] waits for are valid. *)
Lemma spinning_valid ok s h : rtc (tm_step ok) tm_init s → h ∈ tm_spinning s → h <= timerHandle_ s.
Proof.
  intros Hr. revert h. apply (rtc_invariant (tm_step ok) (λ s, ∀ h, h ∈ tm_spinning s → h <= timerHandle_ s) tm_init s); [|clear s Hr|exact Hr].
  { by intros h ?%not_elem_of_nil. }
  intros a b HI Hst. destruct Hst as [s rehash qos timeout cb repeat Hlt|s l1 h' l2 Hl|s l1 h' l2 Hl|s l1 t l2 s' Hl Hc|s h'|s l1 h' l2 Hl|s]; simpl.
  - unfold RegisterTimer, RegisterTimerImpl. destruct (teardown s), ok; simpl; try done; intros h Hh; specialize (HI h Hh); lia.
  - unfold workCb. by destruct (teardown _).
  - unfold timer_task_start, timer_task_end, RegisterTimerImpl. by repeat case_match.
  - unfold timer_task_called, timer_task_end, RegisterTimerImpl in Hc. simpl in Hc.
    destruct (timerMap_ s !! t.1) as [d|]; simpl in Hc; [|done]. injection Hc as <-. by destruct (_ || _), (td_repeat d), ok.
  - unfold UnregisterTimer. repeat case_match; simpl; try done. intros h [->|?]%elem_of_cons; [lia|auto].
  - unfold UnregisterTimer_turn. rewrite Hl in HI. setoid_rewrite elem_of_app in HI. setoid_rewrite elem_of_cons in HI.
    repeat case_match; simpl; rewrite ?Hl; setoid_rewrite elem_of_app; try setoid_rewrite elem_of_cons; naive_solver.
  - done.
Qed.

(** ** Theorems *)

(** [UnregisterTimer] returns 0 at once or from its loop. *)
Definition unregistered (h : Z) (s s1 : tm) : Prop :=
  UnregisterTimer h s = (Some 0, s1) ∨ ∃ l1 l2, tm_spinning s = l1 ++ h :: l2 ∧ UnregisterTimer_turn l1 l2 h s = (Some 0, s1).

Lemma unregistered_gone ok h s s1 :
  rtc (tm_step ok) tm_init s → unregistered h s s1 →
  tm_step ok s s1 ∧ timerMap_ s1 !! h = None ∧ h <= timerHandle_ s1 ∧ tm_calls s1 h = tm_calls s h.
Proof.
  intros Hr [Hu|(l1 & l2 & Hl & Hu)].
  - split; [by pose proof (tm_unregister ok s h) as H; rewrite Hu in H|].
    unfold UnregisterTimer in Hu. repeat case_match; simplify_eq/=; rewrite ?lookup_delete_eq; split_and!; try done; lia.
  - split; [by pose proof (tm_spin ok s l1 h l2 Hl) as H; rewrite Hu in H|].
    assert (h <= timerHandle_ s) by (apply (spinning_valid ok s h Hr); rewrite Hl; set_solver).
    unfold UnregisterTimer_turn in Hu. repeat case_match; simplify_eq/=; rewrite ?lookup_delete_eq; by split_and!.
Qed.

(** C30: once [UnregisterTimer] has returned 0, at once or from its loop, the callback of the timer is not
    running and never runs again, although its work may still be in the delayed
    worker or its task already submitted; if the callback was running, the call
    has waited for it. *)
Theorem timer_stop_final ok s h s1 s2 :
  rtc (tm_step ok) tm_init s → unregistered h s s1 → rtc (tm_step ok) s1 s2 →
  running s1 h = 0 ∧ running s2 h = 0 ∧ tm_calls s2 h = tm_calls s h.
Proof.
  intros Hr Hu Hr2. destruct (unregistered_gone ok h s s1 Hr Hu) as (Hst & Hn & Hh & <-).
  pose proof (tm_reachable_inv _ _ (rtc_r _ _ _ Hr Hst)) as Hr1.
  assert ((∀ h, timer_inv ok s2 h) ∧ timerMap_ s2 !! h = None ∧ h <= timerHandle_ s2 ∧ tm_calls s2 h = tm_calls s1 h)
    as (Hr3 & Hn2 & _ & ->).
  { eapply (rtc_invariant _ (λ s, (∀ h, timer_inv ok s h) ∧ timerMap_ s !! h = None ∧ h <= timerHandle_ s ∧
      tm_calls s h = tm_calls s1 h)); [done| |exact Hr2]. apply timer_gone_step. }
  split_and!; [|by apply (Hr3 h)|done]. by apply (Hr1 h).
Qed.

(** timers are neither lost nor doubled.  While the manager is alive and the
    delayed worker accepts its works, every registered timer whose callback is
    not running has exactly one work or task on its way, one whose callback is
    running has none; and the callback of a timer registered without [repeat] is
    started at most once. *)
Theorem timer_exactly_one_pending ok s h :
  rtc (tm_step ok) tm_init s →
  (∀ d, timerMap_ s !! h = Some d →
    if decide (td_state d = EXECUTING) then running s h = 1 ∧ coming s h = 0
    else running s h = 0 ∧ (ok = true → teardown s = false → coming s h = 1)) ∧
  (h ∈ tm_once s → tm_calls s h <= 1).
Proof.
  intros Hr. destruct (tm_reachable_inv _ _ Hr h) as [_ _ _ _ Hs Ho]. split.
  - intros d Hd. destruct (Hs d Hd) as (_ & _ & Hst). by case_decide; [|destruct Hst as (? & _ & ?)].
  - intros Hin. destruct Ho as [? _]; [by apply bool_decide_eq_true|]. lia.
Qed.

(** the iterator of the task of a timer is valid after the callback, unless
    [timerMap_] was rehashed meanwhile: the entry is still there. *)
Theorem timer_called_defined ok s l1 t l2 :
  rtc (tm_step ok) tm_init s → tm_running s = l1 ++ t :: l2 → is_Some (timer_task_called ok l1 l2 t s).
Proof.
  intros Hr Hl. destruct (running_entry ok l1 t l2 s (tm_reachable_inv _ _ Hr t.1) Hl) as (d & Ed & _).
  unfold timer_task_called. simpl. rewrite Ed. simpl. done.
Qed.

(** A repeating timer is registered, expires, runs, and is stopped while its callback
    runs; the call returns after the callback, with the next work already pending. *)
Definition tm_called_state : tm :=
  timer_task_start true [] [] 0 (workCb [] [] 0 (RegisterTimer true false 2 10 true true tm_init).2).
Definition tm_waiting : tm := (UnregisterTimer 0 tm_called_state).2.
Definition tm_demo : tm := default tm_init (timer_task_called true [] [] (0, 0) tm_waiting).

Lemma tm_waiting_reachable : rtc (tm_step true) tm_init tm_waiting.
Proof.
  unfold tm_waiting, tm_called_state.
  eapply rtc_l; [by apply (tm_register _ _ false 2 10 true true)|]. eapply rtc_l; [by apply (tm_expire _ _ [] 0 [])|].
  eapply rtc_l; [by apply (tm_start _ _ [] 0 [])|]. apply rtc_once. apply tm_unregister.
Qed.

Lemma tm_demo_reachable : rtc (tm_step true) tm_init tm_demo.
Proof.
  apply (rtc_r _ _ _ tm_waiting_reachable). apply (tm_called _ _ [] (0, 0) []); [by vm_compute|]. unfold tm_demo.
  destruct (timer_called_defined true tm_waiting [] (0, 0) [] tm_waiting_reachable) as [s' ->]; by vm_compute.
Qed.

Definition tm_stopped : tm := (UnregisterTimer_turn [] [] 0 tm_demo).2.
Definition tm_late : tm := timer_task_start true [] [] 0 (workCb [] [] 0 tm_stopped).

Lemma timer_stop_final_witness : tm_pending tm_stopped = [0] ∧ tm_calls tm_late 0 = tm_calls tm_demo 0 ∧ tm_calls tm_demo 0 = 1.
Proof.
  split_and!; [by vm_compute| |by vm_compute].
  eapply (timer_stop_final true tm_demo 0 tm_stopped tm_late tm_demo_reachable).
  - right. exists [], []. by vm_compute.
  - eapply rtc_l; [by apply (tm_expire _ _ [] 0 [])|]. apply rtc_once. by apply (tm_start _ _ [] 0 []).
Defined.

Lemma timer_exactly_one_pending_witness : coming tm_demo 0 = 1.
Proof.
  destruct (timer_exactly_one_pending true tm_demo 0 tm_demo_reachable) as [H _].
  specialize (H (mkTimerData true true 2 10 EXECUTED) eq_refl). simpl in H. destruct H as [_ H]. by apply H.
Defined.

(** While the callback of a timer without [repeat] runs another timer is registered
    and the table is rehashed: the task then erases through an iterator that is no
    longer valid. *)
Theorem timer_iterator_stale : ∃ s, rtc (tm_step true) tm_init s ∧ tm_stale s = true.
Proof.
  eexists. split.
  - eapply rtc_l; [by apply (tm_register _ _ false 2 10 true false)|]. eapply rtc_l; [by apply (tm_expire _ _ [] 0 [])|].
    eapply rtc_l; [by apply (tm_start _ _ [] 0 [])|]. eapply rtc_l; [by apply (tm_register _ _ true 2 10 true false)|].
    eapply rtc_l; [eapply (tm_called _ _ [] (0, 0) []); vm_compute; reflexivity|]. apply rtc_refl.
  - by vm_compute.
Qed.

(** [GetTimerStatus] does not reject negative handles, unlike [UnregisterTimer]:
    an invalid handle is reported as executed. *)
Lemma GetTimerStatus_negative h : h < 0 →
  GetTimerStatus h tm_demo = Some ffrt_timer_executed ∧ (UnregisterTimer h tm_demo).1 = Some (-1).
Proof.
  intros Hh. unfold GetTimerStatus, UnregisterTimer.
  replace (timerHandle_ tm_demo) with 0 by (by vm_compute). replace (teardown tm_demo) with false by (by vm_compute).
  rewrite (decide_False (P := h > 0)), (decide_True (P := _ ∨ _)) by lia. split; [|done].
  replace (timerMap_ tm_demo !! h) with (@None TimerData); [done|].
  destruct (timerMap_ tm_demo !! h) as [d|] eqn:Ed; [|done].
  destruct (tm_reachable_inv _ _ tm_demo_reachable h) as [_ _ _ _ Hs _]. destruct (Hs d Ed). lia.
Qed.
