(* ===== verification/Poller.v ===== *)
(** * The pollers

    Models src/eu/base_poller.cpp and src/eu/io_poller.cpp: file descriptors are
    registered with an epoll instance whose events a poller thread hands to
    callbacks or to waiting tasks; events that no task waits for are cached and
    their descriptors masked.

    The records [PollerData], to which the epoll instance holds raw pointers, live
    in a store; an access to an address that is not in it is an access to
    freed memory, and the result is [None].  Addresses are not used twice.  What
    runs under [mapMutex_] is one step.  The epoll instance is its interest list
    with the documented failures of [epoll_ctl]; other failures are the
    argument [ok] of the operations.  [WaitFdEvent] is the form used by
    coroutines: a task is suspended before it is entered into [waitTaskMap_]. *)

From S2P Require Import Prelude.

Module Poller.

(** Pointers to tasks, null being 0, and to records. *)
Abbreviation task := Z.
Abbreviation ptr := positive.

Inductive PollerType := WAKEUP | SYNC_IO | ASYNC_CB | ASYNC_IO.

Record PollerData := mkPollerData {
  pd_mode : PollerType;
  pd_fd : Z;
  pd_task : task;
  pd_monitorEvents : Z;
}.

(** An event handed to a task. *)
Record epoll_event := mkEvent { ev_events : Z; ev_fd : Z }.

#[export] Instance epoll_event_eta : Eta epoll_event := λ e, mkEvent (ev_events e) (ev_fd e).

Record SyncData := mkSyncData { sd_maxEvents : Z; sd_timerHandle : Z }.

Definition EPOLL_EVENT_SIZE : Z := 1024.
Definition EPOLLERR : Z := 8.
Definition EPOLLHUP : Z := 16.

Inductive epoll_op := EPOLL_CTL_ADD | EPOLL_CTL_DEL | EPOLL_CTL_MOD.

#[export] Instance epoll_op_eq_dec : EqDecision epoll_op.
Proof. solve_decision. Defined.

(** A one-shot timer of [WaitFdEvent]: armed, its callback started, and its
    callback past the map and about to wake the task. *)
Inductive timer_stage := TArmed (t : task) | TFired (t : task) | TErased (t : task).

(** Where the poller thread is: not running, in [epoll_wait], processing the
    events returned and the map of [WakeSyncTask], in its timers and wake-ups, in
    [ReleaseFdWakeData], and at the end of an iteration of [Run]. *)
Inductive poll_pc :=
| PExited
| PWait
| PProc (batch : list (Z * ptr)) (sync : gmap task (list epoll_event))
| PUnreg (handles : list Z) (wake : list task)
| PWake (wake : list task)
| PRelease
| PTail (ret : Z).

(** [po_blocked] are the tasks suspended in [WaitFdEvent] of events, [po_sync]
    those suspended in [WaitFdEvent] of one descriptor with the address of
    their record and whether they block a thread, [po_return] the threads of the
    latter that were woken, [po_result] what the last wait of a task returned. *)
Record poller := mk_poller {
  po_io : bool;                               (* IsIOPoller() *)
  po_epoll : gmap Z (Z * ptr);
  po_heap : gmap ptr PollerData;
  po_next : ptr;
  po_wakeDataMap : gmap Z (list ptr);
  po_delCntMap : gmap Z Z;
  po_waitTaskMap : gmap task SyncData;
  po_cachedTaskEvents : gmap task (list epoll_event);
  po_delFdCacheMap : gmap Z task;
  po_maskWakeDataMap : gmap task (list Z);    (* the descriptors of the masked records *)
  po_exitFlag : bool;
  po_teardown : bool;
  po_fdEmpty : bool;
  po_syncFdCnt : Z;
  po_eventfd : Z;
  po_timers : gmap Z timer_stage;
  po_nextHandle : Z;
  po_pc : poll_pc;
  po_blocked : gset task;
  po_sync : gmap task (ptr * bool);
  po_return : gset task;
  po_result : gmap task (list epoll_event);
}.

#[export] Instance poller_eta : Eta poller := λ s,
  mk_poller (po_io s) (po_epoll s) (po_heap s) (po_next s) (po_wakeDataMap s) (po_delCntMap s) (po_waitTaskMap s)
    (po_cachedTaskEvents s) (po_delFdCacheMap s) (po_maskWakeDataMap s) (po_exitFlag s) (po_teardown s) (po_fdEmpty s)
    (po_syncFdCnt s) (po_eventfd s) (po_timers s) (po_nextHandle s) (po_pc s) (po_blocked s) (po_sync s) (po_return s) (po_result s).

(** *** The epoll instance *)

(** [epoll_ctl] with the new entry of the descriptor; [None] when it fails. *)
Definition epoll_ctl (ok : bool) (op : epoll_op) (fd : Z) (e : Z * ptr) (m : gmap Z (Z * ptr)) : option (gmap Z (Z * ptr)) :=
  if negb ok then None
  else match op, m !! fd with
       | EPOLL_CTL_ADD, None => Some (<[fd := e]> m)
       | EPOLL_CTL_MOD, Some _ => Some (<[fd := e]> m)
       | EPOLL_CTL_DEL, Some _ => Some (delete fd m)
       | _, _ => None
       end.

(** The interest list after a call whose failure is ignored. *)
Definition epoll_try (ok : bool) (op : epoll_op) (fd : Z) (e : Z * ptr) (s : poller) : poller :=
  match epoll_ctl ok op fd e (po_epoll s) with Some m => s <| po_epoll := m |> | None => s end.

(** The record of the eventfd, at address 1, is never freed. *)
Definition WAKE_FD : Z := -2.
Definition wakeData : ptr := 1%positive.

Definition BasePoller_ctor (io : bool) : poller :=
  mk_poller io {[WAKE_FD := (1, wakeData)]} {[wakeData := mkPollerData WAKEUP WAKE_FD 0 1]} 2%positive
    ∅ ∅ ∅ ∅ ∅ ∅ true false true 0 0 ∅ 0 PExited ∅ ∅ ∅ ∅.

Definition WakeUp (s : poller) : poller := s <| po_eventfd ::= λ n, n + 1 |>.

(** [ThreadInit]: the old thread has ended and is joined, a new one starts. *)
Definition ThreadInit (s : poller) : poller := s <| po_exitFlag := false |> <| po_pc := PWait |>.

(** The records of a descriptor; [wakeDataMap_[fd]]. *)
Definition wakes (s : poller) (fd : Z) : list ptr := default [] (po_wakeDataMap s !! fd).
Definition delCnt (s : poller) (fd : Z) : Z := default 0 (po_delCntMap s !! fd).

(** *** Masked descriptors *)

Definition ClearMaskWakeDataCache (t : task) (s : poller) : poller :=
  match po_maskWakeDataMap s !! t with
  | Some l => s <| po_delFdCacheMap ::= λ m, foldr delete m l |> <| po_maskWakeDataMap ::= delete t |>
  | None => s
  end.

Definition ClearMaskWakeDataCacheWithFd (t : task) (fd : Z) (s : poller) : poller :=
  match po_maskWakeDataMap s !! t with
  | Some l =>
      let l' := filter (λ f, f ≠ fd) l in
      s <| po_maskWakeDataMap ::= if decide (l' = []) then delete t else <[t := l']> |>
  | None => s
  end.

Definition ClearDelFdCache (fd : Z) (s : poller) : poller :=
  match po_delFdCacheMap s !! fd with
  | Some t => ClearMaskWakeDataCacheWithFd t fd s <| po_delFdCacheMap ::= delete fd |>
  | None => s
  end.

(** [emplace] keeps an entry that is there. *)
Definition CacheMaskFdAndEpollDel (ok : bool) (fd : Z) (t : task) (s : poller) : poller :=
  match po_maskWakeDataMap s !! t with
  | Some _ =>
      epoll_try ok EPOLL_CTL_DEL fd (0, wakeData) s
        <| po_delFdCacheMap ::= λ m, match m !! fd with Some _ => m | None => <[fd := t]> m end |>
  | None => s
  end.

(** *** Registration *)

(** [AddFdEvent] by a caller whose current task is [cur]; [cb] says whether there
    is a callback.  The record is built first; it is owned by the caller until
    it is moved into the map, and freed with it when the call fails. *)
Definition AddFdEvent (ok : bool) (op : epoll_op) (events fd : Z) (cb : bool) (cur : task) (s : poller) : Z * poller :=
  let p := po_next s in
  let d := mkPollerData (if cb then ASYNC_CB else ASYNC_IO) fd cur events in
  let s := s <| po_next := Pos.succ p |> in
  if po_teardown s then (-1, s)
  else
    let s := if po_io s && po_exitFlag s then ThreadInit s else s in
    match epoll_ctl ok op fd (events, p) (po_epoll s) with
    | None => (-1, s)
    | Some m =>
        let s := s <| po_epoll := m |> in
        match op with
        | EPOLL_CTL_ADD =>
            (0, s <| po_heap ::= <[p := d]> |> <| po_wakeDataMap ::= <[fd := wakes s fd ++ [p]]> |>
                  <| po_fdEmpty ::= λ e, if po_io s then e else false |>)
        | EPOLL_CTL_MOD =>
            match po_wakeDataMap s !! fd with
            | Some [q] => (0, s <| po_heap ::= λ h, <[p := d]> (delete q h) |> <| po_wakeDataMap ::= <[fd := [p]]> |>)
            | _ => (-1, s)
            end
        | EPOLL_CTL_DEL => (0, s)
        end
    end.

(** The cached events of a descriptor are dropped, and with them the entries of
    tasks that have none left. *)
Definition erase_cached (fd : Z) (m : gmap task (list epoll_event)) : gmap task (list epoll_event) :=
  omap (λ l, let l' := filter (λ e, ev_fd e ≠ fd) l in if decide (length l' = 0%nat) then None else Some l') m.

Definition DelFdEvent (ok : bool) (fd : Z) (s : poller) : Z * poller :=
  let s := ClearDelFdCache fd s in
  if decide (wakes s fd = []) then (-1, s)
  else if decide (is_Some (po_delCntMap s !! fd) ∧ Z.of_nat (length (wakes s fd)) - delCnt s fd = 0) then (-1, s)
  else match epoll_ctl ok EPOLL_CTL_DEL fd (0, wakeData) (po_epoll s) with
       | None => (-1, s)
       | Some m =>
           (0, WakeUp (s <| po_epoll := m |> <| po_cachedTaskEvents ::= erase_cached fd |>
                         <| po_delCntMap ::= <[fd := delCnt s fd + 1]> |>))
       end.

(** [ffrt_epoll_ctl]; [qos_map] says whether the map of QoS levels is registered. *)
Definition ffrt_epoll_ctl (qos_map ok : bool) (op : option epoll_op) (fd events : Z) (cb : bool) (cur : task) (s : poller) : Z * poller :=
  if negb qos_map then (-1, s)
  else match op with
       | Some EPOLL_CTL_DEL => DelFdEvent ok fd s
       | Some op => AddFdEvent ok op events fd cb cur s
       | None => (-1, s)
       end.

(** *** Cached events *)

(** The copy into the caller's array: the events of a descriptor seen before are
    merged into its entry. *)
Definition merge_event (e : epoll_event) (out : list epoll_event) : list epoll_event :=
  match list_find (λ x, ev_fd x = ev_fd e) out with
  | None => out ++ [e]
  | Some (i, x) => <[i := x <| ev_events := Z.lor (ev_events x) (ev_events e) |>]> out
  end.

(** The original events of a descriptor are restored. *)
Definition unmask_fd (ok : epoll_op → Z → bool) (fd : Z) (s : poller) : poller :=
  match last (wakes s fd) with
  | None => s
  | Some p =>
      let ev := default 0 (pd_monitorEvents <$> po_heap s !! p) in
      match po_delFdCacheMap s !! fd with
      | Some _ => epoll_try (ok EPOLL_CTL_ADD fd) EPOLL_CTL_ADD fd (ev, p) (ClearDelFdCache fd s)
      | None => epoll_try (ok EPOLL_CTL_MOD fd) EPOLL_CTL_MOD fd (ev, p) s
      end
  end.

Definition fetch_one (ok : epoll_op → Z → bool) (e : epoll_event) (r : list epoll_event * poller) : list epoll_event * poller :=
  let '(out, s) := r in
  (merge_event e out, if decide (Exists (λ x, ev_fd x = ev_fd e) out) then s else unmask_fd ok (ev_fd e) s).

Definition FetchCachedEvents (ok : epoll_op → Z → bool) (cached : list epoll_event) (s : poller) : list epoll_event * poller :=
  foldl (λ r e, fetch_one ok e r) ([], s) cached.

Definition FetchCachedEventAndDoUnmask (ok : epoll_op → Z → bool) (t : task) (s : poller) : list epoll_event * poller :=
  match po_cachedTaskEvents s !! t with
  | None | Some [] => ([], s)
  | Some l =>
      let '(out, s) := FetchCachedEvents ok l s in
      (out, ClearMaskWakeDataCache t (s <| po_cachedTaskEvents ::= delete t |>))
  end.

(** One event without a consumer. *)
Definition cache_one (ok : bool) (t : task) (e : epoll_event) (s : poller) : poller :=
  let fd := ev_fd e in
  match last (wakes s fd) with
  | None => s
  | Some p =>
      if decide (pd_task <$> po_heap s !! p = Some t) then
        if decide (is_Some (po_delCntMap s !! fd) ∧ Z.of_nat (length (wakes s fd)) = delCnt s fd) then s
        else epoll_try ok EPOLL_CTL_MOD fd (0, p)
               (s <| po_maskWakeDataMap ::= λ m, <[t := default [] (m !! t) ++ [fd]]> m |>)
               <| po_cachedTaskEvents ::= λ m, <[t := default [] (m !! t) ++ [e]]> m |>
      else s
  end.

Definition CacheEventsAndDoMask (ok : Z → bool) (t : task) (l : list epoll_event) (s : poller) : poller :=
  foldl (λ s e, cache_one (ok (ev_fd e)) t e s)
    (s <| po_cachedTaskEvents ::= λ m, <[t := default [] (m !! t)]> m |>) l.

Definition ClearCachedEvents (t : task) (s : poller) : poller :=
  match po_cachedTaskEvents s !! t with
  | Some _ => ClearMaskWakeDataCache t (s <| po_cachedTaskEvents ::= delete t |>)
  | None => s
  end.

(** *** Release of the records of deleted descriptors *)

Definition free_all (l : list ptr) (h : gmap ptr PollerData) : gmap ptr PollerData := foldr delete h l.

Definition release_fd (fd : Z) (s : poller) : poller :=
  let l := wakes s fd in
  let n := u32 (delCnt s fd) in
  let diff := u32 (Z.of_nat (length l) - n) in
  if decide (diff = 0) then
    s <| po_heap ::= free_all l |> <| po_wakeDataMap ::= delete fd |> <| po_delCntMap ::= delete fd |>
  else if decide (diff = 1) then
    let k := Z.to_nat (u32 (n - 1)) in
    s <| po_heap ::= free_all (take k l) |> <| po_wakeDataMap ::= <[fd := drop k l]> |> <| po_delCntMap ::= <[fd := 1]> |>
  else s <| po_wakeDataMap ::= <[fd := l]> |>.

Definition ReleaseFdWakeData (s : poller) : poller :=
  let s := foldr release_fd s (elements (dom (po_delCntMap s))) in
  if po_io s then s else s <| po_fdEmpty := bool_decide (po_wakeDataMap s = ∅) |>.

(** *** Waiting tasks *)

(** What [WaitFdEvent] does: it returns at once, or suspends the task. *)
Inductive wait_outcome := WaitRet (nfds : Z) | WaitBlocked.

(** [WaitFdEvent] by the task [t]; [vec] says whether the array is given. *)
Definition WaitFdEvent (ok : epoll_op → Z → bool) (vec : bool) (t : task) (maxevents timeout : Z) (s : poller)
    : wait_outcome * poller :=
  if negb vec || bool_decide (t = 0) || bool_decide (maxevents < EPOLL_EVENT_SIZE) then (WaitRet (-1), s)
  else
    let '(out, s) := FetchCachedEventAndDoUnmask ok t s in
    if decide (out ≠ []) then (WaitRet (Z.of_nat (length out)), s <| po_result ::= <[t := out]> |>)
    else match po_waitTaskMap s !! t with
         | Some _ => (WaitRet 0, s)
         | None =>
             let s := s <| po_result ::= <[t := []]> |> <| po_blocked ::= λ b, {[t]} ∪ b |> in
             if decide (-1 < timeout) then
               let h := po_nextHandle s in
               (WaitBlocked, s <| po_waitTaskMap ::= <[t := mkSyncData maxevents h]> |>
                               <| po_timers ::= <[h := TArmed t]> |> <| po_nextHandle := h + 1 |>)
             else (WaitBlocked, s <| po_waitTaskMap ::= <[t := mkSyncData maxevents (-1)]> |>)
         end.

(** [WakeTask]: waking a task that is not suspended is an error. *)
Definition WakeTask (t : task) (s : poller) : option poller :=
  if decide (t ∈ po_blocked s) then Some (s <| po_blocked ::= λ b, b ∖ {[t]} |>) else None.

(** [WaitFdEvent(fd)] of the IO poller: the record is on the stack of the task,
    which suspends its coroutine or, if [thread], blocks its thread.  The increment
    of [syncFdCnt_] under the lock and the registration that follows it are one step:
    the increment alone only keeps the poller thread from ending.  When the
    registration fails the increment is taken back. *)
Definition WaitFdEvent_sync (ok thread : bool) (fd : Z) (t : task) (s : poller) : poller :=
  if po_teardown s || bool_decide (t = 0) then s
  else
    let s := if po_exitFlag s then ThreadInit s else s in
    let p := po_next s in
    match epoll_ctl ok EPOLL_CTL_ADD fd (1, p) (po_epoll s) with
    | Some m =>
        s <| po_syncFdCnt ::= λ n, u64 (n + 1) |> <| po_epoll := m |> <| po_next := Pos.succ p |>
          <| po_heap ::= <[p := mkPollerData SYNC_IO fd t 0]> |> <| po_sync ::= <[t := (p, thread)]> |>
    | None => s <| po_next := Pos.succ p |>
    end.

(** Waking a task suspended in it ends the life of the record.  A thread that was
    blocked has the rest of the function to run. *)
Definition WakeTask_sync (t : task) (s : poller) : option poller :=
  '(p, thread) ← po_sync s !! t;
  Some (s <| po_sync ::= delete t |> <| po_heap ::= delete p |>
          <| po_return ::= if thread : bool then λ r, {[t]} ∪ r else id |>).

(** The end of [WaitFdEvent(fd)] on a thread that was blocked. *)
Definition WaitFdEvent_sync_return (t : task) (s : poller) : poller :=
  s <| po_syncFdCnt ::= λ n, u64 (n - 1) |> <| po_return ::= λ r, r ∖ {[t]} |>.

(** *** The poller thread *)

(** One event of the batch; [None] when its record has been freed. *)
Definition process_event (ok : bool) (ev : Z) (p : ptr) (rest : list (Z * ptr)) (sync : gmap task (list epoll_event)) (s : poller)
    : option poller :=
  d ← po_heap s !! p;
  let s' := s <| po_pc := PProc rest sync |> in
  match pd_mode d with
  | WAKEUP => Some (s' <| po_eventfd := 0 |>)
  | SYNC_IO =>
      match epoll_ctl ok EPOLL_CTL_DEL (pd_fd d) (0, wakeData) (po_epoll s) with
      | Some m => WakeTask_sync (pd_task d) (s' <| po_epoll := m |> <| po_syncFdCnt ::= λ n, u64 (n - 1) |>)
      | None => Some s'
      end
  | ASYNC_CB => Some s'
  | ASYNC_IO =>
      let t := pd_task d in
      if po_io s || bool_decide (t ≠ 0) then
        let s' := s <| po_pc := PProc rest (<[t := default [] (sync !! t) ++ [mkEvent ev (pd_fd d)]]> sync) |> in
        Some (if decide (Z.land ev (Z.lor EPOLLHUP EPOLLERR) ≠ 0) then CacheMaskFdAndEpollDel ok (pd_fd d) t s' else s')
      else Some s'
  end.

(** One task of [WakeSyncTask]: its events go to it if it waits, else to the cache. *)
Definition wake_sync_one (ok : Z → bool) (x : task * list epoll_event) (r : list Z * list task * poller) : list Z * list task * poller :=
  let '(hs, ts, s) := r in
  let '(t, l) := x in
  match po_waitTaskMap s !! t with
  | None => (hs, ts, CacheEventsAndDoMask ok t l s)
  | Some d =>
      (if decide (-1 < sd_timerHandle d) then sd_timerHandle d :: hs else hs, t :: ts,
       s <| po_result ::= <[t := l]> |> <| po_waitTaskMap ::= delete t |>)
  end.

(** The map part of [WakeSyncTask], with the tasks in the order of the traversal. *)
Definition WakeSyncTask (ok : Z → bool) (sync : list (task * list epoll_event)) (s : poller) : poller :=
  let '(hs, ts, s) := foldr (wake_sync_one ok) ([], [], s) sync in
  s <| po_pc := PUnreg hs ts |>.

(** [UnregisterTimer] of the timer manager returns when the callback neither runs
    nor will run. *)
Definition unregister_timer (h : Z) (s : poller) : option poller :=
  match po_timers s !! h with
  | None => Some s
  | Some (TArmed _) => Some (s <| po_timers ::= delete h |>)
  | Some _ => None
  end.

(** [WakeTimeoutTask], the callback of the timer, in its two parts. *)
Definition WakeTimeoutTask (h : Z) (t : task) (s : poller) : poller :=
  match po_waitTaskMap s !! t with
  | Some _ => s <| po_waitTaskMap ::= delete t |> <| po_timers ::= <[h := TErased t]> |>
  | None => s <| po_timers ::= delete h |>
  end.

(** The end of an iteration of [Run]; a loop polls when it likes. *)
Definition Run_tail (ret : Z) (s : poller) : poller :=
  if negb (po_io s) then s <| po_pc := PExited |>
  else if po_teardown s || bool_decide (ret = 0 ∧ po_wakeDataMap s = ∅ ∧ po_syncFdCnt s = 0)
  then s <| po_exitFlag := true |> <| po_pc := PExited |>
  else s <| po_pc := PWait |>.

(** *** Long callbacks *)

(** [timeOutReport_]: when the callback that runs started, 0 when none does, and
    the number of reports made of it. *)
Record TimeOutReport := mkTimeOutReport { tr_cbStartTime : Z; tr_reportCount : Z }.

Definition TIMEOUT_RECORD_CYCLE_LIST : list Z := [1; 3; 5; 10; 30; 60; 10 * 60; 30 * 60].

(** [MonitTimeOut] at time [now] of a clock of [freq] ticks a second; [None] when
    the list is read past its end. *)
Definition MonitTimeOut (teardown : bool) (freq now : Z) (r : TimeOutReport) : option TimeOutReport :=
  if teardown then Some r
  else if decide (tr_cbStartTime r = 0) then Some r
  else
    let diff := u64 (now - tr_cbStartTime r) / freq in
    reportTime ← TIMEOUT_RECORD_CYCLE_LIST !! Z.to_nat (tr_reportCount r);
    Some (if bool_decide (tr_reportCount r < Z.of_nat (length TIMEOUT_RECORD_CYCLE_LIST)) && bool_decide (reportTime <= diff)
          then mkTimeOutReport (tr_cbStartTime r) (u64 (tr_reportCount r + 1)) else r).

(** *** Steps *)

(** What [epoll_wait] may return: events of descriptors of the interest list, no
    descriptor twice, as many as the array holds at most. *)
Definition batch_of (s : poller) (batch : list (Z * ptr)) : Prop :=
  ∃ fds : list Z, NoDup fds ∧ Z.of_nat (length fds) <= EPOLL_EVENT_SIZE ∧
    Forall2 (λ fd b, (snd <$> po_epoll s !! fd) = Some (snd b)) fds batch.

(** A task runs when it is not suspended; a thread, when it has returned. *)
Definition runs (s : poller) (t : task) : Prop := (t ∉ po_blocked s) ∧ (po_sync s !! t = None) ∧ (t ∉ po_return s).

(** Steps without [EPOLL_CTL_MOD]. *)
Inductive poller_step : poller → poller → Prop :=
| ps_add s ok events fd cb t : poller_step s (AddFdEvent ok EPOLL_CTL_ADD events fd cb t s).2
| ps_del s ok fd : poller_step s (DelFdEvent ok fd s).2
| ps_teardown s : po_io s = true → poller_step s (WakeUp (s <| po_teardown := true |>))
| ps_loop s : po_io s = false → po_pc s = PExited → poller_step s (s <| po_pc := PWait |>)
| ps_close s fd : fd ≠ WAKE_FD → poller_step s (s <| po_epoll ::= delete fd |>)
| ps_wakeup s : poller_step s (WakeUp s)
| ps_finish s t : runs s t → poller_step s (ClearCachedEvents t s)
| ps_wait s ok vec t maxevents timeout : runs s t → poller_step s (WaitFdEvent ok vec t maxevents timeout s).2
| ps_wait_sync s ok th fd t : po_io s = true → runs s t → poller_step s (WaitFdEvent_sync ok th fd t s)
| ps_sync_return s t : t ∈ po_return s → poller_step s (WaitFdEvent_sync_return t s)
| ps_poll s batch : po_pc s = PWait → batch ≠ [] → batch_of s batch → poller_step s (s <| po_pc := PProc batch ∅ |>)
| ps_poll_none s ret : po_pc s = PWait → ret = 0 ∨ ret = -1 → poller_step s (s <| po_pc := PTail ret |>)
| ps_process s ok ev p rest sync s' :
    po_pc s = PProc ((ev, p) :: rest) sync → process_event ok ev p rest sync s = Some s' → poller_step s s'
| ps_sync s ok sync l : po_pc s = PProc [] sync → l ≡ₚ map_to_list sync → poller_step s (WakeSyncTask ok l s)
| ps_unreg s h hs ts s' : po_pc s = PUnreg (h :: hs) ts → unregister_timer h s = Some s' →
    poller_step s (s' <| po_pc := PUnreg hs ts |>)
| ps_unreg_done s ts : po_pc s = PUnreg [] ts → poller_step s (s <| po_pc := PWake ts |>)
| ps_wake s t ts s' : po_pc s = PWake (t :: ts) → WakeTask t s = Some s' → poller_step s (s' <| po_pc := PWake ts |>)
| ps_wake_done s : po_pc s = PWake [] → poller_step s (s <| po_pc := PRelease |>)
| ps_release s : po_pc s = PRelease → poller_step s (ReleaseFdWakeData s <| po_pc := PTail 1 |>)
| ps_tail s ret : po_pc s = PTail ret → poller_step s (Run_tail ret s)
| ps_fire s h t : po_timers s !! h = Some (TArmed t) → poller_step s (s <| po_timers ::= <[h := TFired t]> |>)
| ps_timeout s h t : po_timers s !! h = Some (TFired t) → poller_step s (WakeTimeoutTask h t s)
| ps_timeout_wake s h t s' : po_timers s !! h = Some (TErased t) → WakeTask t s = Some s' →
    poller_step s (s' <| po_timers ::= delete h |>).

(** *** The merge of cached events *)

(** All events cached for a descriptor. *)
Definition events_of (fd : Z) (l : list epoll_event) : Z := foldr Z.lor 0 (ev_events <$> filter (λ e, ev_fd e = fd) l).

Lemma events_of_app fd l1 l2 : events_of fd (l1 ++ l2) = Z.lor (events_of fd l1) (events_of fd l2).
Proof.
  unfold events_of. rewrite filter_app, fmap_app. induction (ev_events <$> filter (λ e, ev_fd e = fd) l1) as [|x l IH]; simpl; [done|].
  by rewrite IH, Z.lor_assoc.
Qed.

Lemma events_of_single fd e : events_of fd [e] = if decide (ev_fd e = fd) then ev_events e else 0.
Proof. unfold events_of. rewrite filter_cons. case_decide; simpl; [apply Z.lor_0_r|done]. Qed.

(** [out] is the merge of [l]. *)
Definition merged (l out : list epoll_event) : Prop :=
  NoDup (ev_fd <$> out) ∧ (∀ fd, fd ∈ ev_fd <$> l ↔ fd ∈ ev_fd <$> out) ∧ (∀ e, e ∈ out → ev_events e = events_of (ev_fd e) l).

Lemma merge_event_fds e out : (ev_fd <$> merge_event e out) = if decide (ev_fd e ∈ ev_fd <$> out) then ev_fd <$> out else (ev_fd <$> out) ++ [ev_fd e].
Proof.
  unfold merge_event. destruct (list_find _ out) as [[i x]|] eqn:E.
  - apply list_find_Some in E as (Hi & Hx & _). rewrite decide_True by (apply list_elem_of_fmap; exists x; split; [done|by apply list_elem_of_lookup_2 in Hi]).
    rewrite list_fmap_insert. simpl. apply list_insert_id. by rewrite list_lookup_fmap, Hi.
  - apply list_find_None in E. rewrite decide_False; [by rewrite fmap_app|].
    intros (x & Hx & Hin)%list_elem_of_fmap. rewrite Forall_forall in E. by apply (E x Hin).
Qed.

Lemma merge_event_ok l out e : merged l out → merged (l ++ [e]) (merge_event e out).
Proof.
  intros (Hnd & Hfd & Hev). split_and!.
  - rewrite merge_event_fds. case_decide as Hin; [done|]. apply NoDup_app. split_and!; [done| |apply NoDup_singleton].
    intros fd Hf ->%list_elem_of_singleton. done.
  - intros fd. rewrite merge_event_fds, fmap_app, elem_of_app, Hfd. simpl. rewrite list_elem_of_singleton.
    case_decide as Hin; [|by rewrite elem_of_app, list_elem_of_singleton]. split; [intros [?| ->]|]; auto.
  - unfold merge_event. destruct (list_find _ out) as [[i x]|] eqn:E; intros e' He'; rewrite events_of_app, events_of_single.
    + apply list_find_Some in E as (Hi & Hx & _).
      apply list_elem_of_lookup in He' as [k Hk]. apply list_lookup_insert_Some in Hk as [(<- & <- & _)|[Hne Hk]]; simpl.
      * rewrite (Hev x) by (by eapply list_elem_of_lookup_2). by rewrite decide_True.
      * rewrite (Hev e') by (by eapply list_elem_of_lookup_2). rewrite decide_False; [by rewrite Z.lor_0_r|].
        intros Hf. apply Hne. apply (NoDup_lookup (ev_fd <$> out) i k (ev_fd x) Hnd); rewrite list_lookup_fmap.
        -- by rewrite Hi.
        -- rewrite Hk. simpl. congruence.
    + apply list_find_None in E. rewrite Forall_forall in E. apply elem_of_app in He' as [He'| ->%list_elem_of_singleton].
      * rewrite (Hev e' He'), decide_False by (intros ?; by apply (E e' He')). by rewrite Z.lor_0_r.
      * rewrite decide_True by done. assert (events_of (ev_fd e) l = 0) as ->; [|done].
        unfold events_of. destruct (filter _ l) as [|y k] eqn:F; [done|exfalso].
        assert (y ∈ filter (λ e', ev_fd e' = ev_fd e) l) as [Hy Hin]%list_elem_of_filter by (rewrite F; left).
        assert (ev_fd y ∈ ev_fd <$> out) as (x & Hx & Hxo)%list_elem_of_fmap by (apply Hfd, list_elem_of_fmap; eauto).
        apply (E x Hxo). congruence.
Qed.

Lemma fetch_fst ok l r : (foldl (λ r e, fetch_one ok e r) r l).1 = foldl (λ out e, merge_event e out) r.1 l.
Proof. revert r. induction l as [|e l IH]; intros [out s]; simpl; [done|]. by rewrite IH. Qed.

(** The caller of [WaitFdEvent] gets each cached descriptor once, with all the
    events cached for it. *)
Lemma fetch_merged ok l s : merged l (FetchCachedEvents ok l s).1.
Proof.
  unfold FetchCachedEvents. rewrite fetch_fst. simpl. induction l as [|e l IH] using rev_ind; simpl.
  - split_and!; [constructor|done|]. by intros e ?%not_elem_of_nil.
  - rewrite foldl_app. by apply merge_event_ok.
Qed.
End Poller.
