(* ===== verification/PollerSafety.v ===== *)
(** * Safety of the pollers

    The records that the epoll instance points to are not freed before the
    poller thread is done with them, a waiting task is woken exactly once, by its
    event or by its own timeout, and the thread of the IO poller runs while it is
    needed.  Runs with [EPOLL_CTL_MOD], threads blocked on one descriptor, and
    hang-ups show where this fails. *)

From S2P Require Import Prelude Poller.
Import Poller.

Module PollerMem.

(** *** Records *)

(** What an entry of the interest list points to. *)
Definition entry_ok (s : poller) (fd : Z) (p : ptr) : Prop :=
  ∃ d, po_heap s !! p = Some d ∧ pd_fd d = fd ∧
    match pd_mode d with
    | WAKEUP | SYNC_IO => True
    | ASYNC_CB | ASYNC_IO => last (wakes s fd) = Some p ∧ delCnt s fd < Z.of_nat (length (wakes s fd))
    end.

Definition is_async (d : PollerData) : Prop := pd_mode d = ASYNC_CB ∨ pd_mode d = ASYNC_IO.

(** Not every record of the descriptor has been deleted. *)
Definition undeleted (s : poller) (fd : Z) : Prop := wakes s fd = [] ∨ delCnt s fd < Z.of_nat (length (wakes s fd)).

Definition batch_ok (s : poller) : Prop :=
  match po_pc s with
  | PProc batch _ => NoDup batch.*2 ∧ ∀ p, p ∈ batch.*2 → is_Some (po_heap s !! p)
  | _ => True
  end.

Record mem_inv (s : poller) : Prop := {
  mi_entry : ∀ fd ev p, po_epoll s !! fd = Some (ev, p) → entry_ok s fd p;
  mi_wakes : ∀ fd p, p ∈ wakes s fd → ∃ d, po_heap s !! p = Some d ∧ pd_fd d = fd ∧ is_async d;
  mi_nodup : ∀ fd, NoDup (wakes s fd);
  mi_cnt : ∀ fd, 0 <= delCnt s fd <= Z.of_nat (length (wakes s fd));
  mi_sync : ∀ t p th, po_sync s !! t = Some (p, th) → ∃ d, po_heap s !! p = Some d ∧ pd_mode d = SYNC_IO ∧ pd_task d = t;
  mi_sync_heap : ∀ p d, po_heap s !! p = Some d → pd_mode d = SYNC_IO → ∃ th, po_sync s !! pd_task d = Some (p, th);
  mi_cached : ∀ t l e, po_cachedTaskEvents s !! t = Some l → e ∈ l → undeleted s (ev_fd e);
  mi_next : ∀ p d, po_heap s !! p = Some d → (p < po_next s)%positive;
  mi_batch : batch_ok s;
  mi_pos : ∀ fd n, po_delCntMap s !! fd = Some n → 1 <= n;
}.

(** The number of records ever made bounds all counts. *)
Definition few_records (s : poller) : Prop := Z.pos (po_next s) <= 2 ^ 31.

(** A step that leaves the memory as it is and at most drops the batch. *)
Lemma mem_inv_frame s s' :
  mem_inv s → po_epoll s' = po_epoll s → po_heap s' = po_heap s → (po_next s <= po_next s')%positive →
  po_wakeDataMap s' = po_wakeDataMap s → po_delCntMap s' = po_delCntMap s → po_sync s' = po_sync s →
  po_cachedTaskEvents s' = po_cachedTaskEvents s → batch_ok s' → mem_inv s'.
Proof.
  intros [I1 I2 I3 I4 I5 I6 I7 I8 I9 Ipos] E1 E2 E3 E4 E5 E6 E7 E8.
  assert (Hw : ∀ fd, wakes s' fd = wakes s fd) by (intros; unfold wakes; by rewrite E4).
  assert (Hc : ∀ fd, delCnt s' fd = delCnt s fd) by (intros; unfold delCnt; by rewrite E5).
  assert (Hu : ∀ fd, undeleted s fd → undeleted s' fd) by (intros fd; unfold undeleted; by rewrite Hw, Hc).
  split; rewrite ?E1, ?E2, ?E5, ?E6, ?E7; try done.
  - intros fd ev p Hp. unfold entry_ok. rewrite E2, Hw, Hc. by eapply I1.
  - intros fd p. rewrite Hw. apply I2.
  - intros fd. by rewrite Hw.
  - intros fd. rewrite Hw, Hc. apply I4.
  - intros t l e Hl He. apply Hu. by eapply I7.
  - intros p d Hp. specialize (I8 p d Hp). lia.
Qed.

(** A change of the interest list and of the cache only. *)
Lemma mem_inv_epoll s s' :
  mem_inv s → po_heap s' = po_heap s → po_next s' = po_next s →
  po_wakeDataMap s' = po_wakeDataMap s → po_delCntMap s' = po_delCntMap s → po_sync s' = po_sync s → po_pc s' = po_pc s →
  (∀ fd ev p, po_epoll s' !! fd = Some (ev, p) → entry_ok s fd p) →
  (∀ t l e, po_cachedTaskEvents s' !! t = Some l → e ∈ l → undeleted s (ev_fd e)) → mem_inv s'.
Proof.
  intros [I1 I2 I3 I4 I5 I6 I7 I8 I9 Ipos] E2 E3 E4 E5 E6 E8 Hep Hca.
  assert (Hw : ∀ fd, wakes s' fd = wakes s fd) by (intros; unfold wakes; by rewrite E4).
  assert (Hc : ∀ fd, delCnt s' fd = delCnt s fd) by (intros; unfold delCnt; by rewrite E5).
  split; rewrite ?E2, ?E5, ?E6, ?E3; try done.
  - intros fd ev p Hp. unfold entry_ok. rewrite E2, Hw, Hc. by eapply Hep.
  - intros fd p. rewrite Hw. apply I2.
  - intros fd. by rewrite Hw.
  - intros fd. rewrite Hw, Hc. apply I4.
  - intros t l e Hl He. unfold undeleted. rewrite Hw, Hc. by eapply Hca.
  - unfold batch_ok. by rewrite E8, E2.
Qed.

(** What the operations on masks leave alone. *)
Record mask_only (s s' : poller) : Prop := {
  mo_epoll : po_epoll s' = po_epoll s;
  mo_heap : po_heap s' = po_heap s;
  mo_next : po_next s' = po_next s;
  mo_wake : po_wakeDataMap s' = po_wakeDataMap s;
  mo_cnt : po_delCntMap s' = po_delCntMap s;
  mo_sync : po_sync s' = po_sync s;
  mo_cached : po_cachedTaskEvents s' = po_cachedTaskEvents s;
  mo_pc : po_pc s' = po_pc s;
}.

Lemma mask_only_refl s : mask_only s s.
Proof. by split. Qed.

Lemma ClearMaskWakeDataCache_mask t s : mask_only s (ClearMaskWakeDataCache t s).
Proof. unfold ClearMaskWakeDataCache. by case_match. Qed.

Lemma ClearDelFdCache_mask fd s : mask_only s (ClearDelFdCache fd s).
Proof.
  unfold ClearDelFdCache. destruct (po_delFdCacheMap s !! fd) as [t|]; [|by split].
  unfold ClearMaskWakeDataCacheWithFd. by destruct (po_maskWakeDataMap s !! t).
Qed.

Lemma mem_inv_mask s s' : mask_only s s' → mem_inv s → mem_inv s'.
Proof.
  intros [M1 M2 M3 M4 M5 M6 M7 M8] HI. apply (mem_inv_frame s s'); try done; [rewrite M3; lia|].
  pose proof (mi_batch _ HI). unfold batch_ok in *. by rewrite M8, M2.
Qed.

Lemma epoll_ctl_Some ok op fd e m m' : epoll_ctl ok op fd e m = Some m' →
  m' = match op with EPOLL_CTL_DEL => delete fd m | _ => <[fd := e]> m end ∧
  match op with EPOLL_CTL_ADD => m !! fd = None | _ => is_Some (m !! fd) end.
Proof. unfold epoll_ctl. destruct ok; simpl; [|done]. destruct op, (m !! fd) eqn:E; intros; simplify_eq; by rewrite ?E. Qed.

(** *** Preservation *)

Lemma epoll_set_inv ok op fd e s :
  mem_inv s → op ≠ EPOLL_CTL_DEL → entry_ok s fd (snd e) → mem_inv (epoll_try ok op fd e s).
Proof.
  intros HI Hop He. unfold epoll_try. destruct (epoll_ctl ok op fd e (po_epoll s)) as [m|] eqn:E; [|done].
  apply epoll_ctl_Some in E as [-> _]. apply (mem_inv_epoll s); try done; [|apply HI].
  intros fd' ev p. simpl. destruct op; [|done|]; rewrite lookup_insert_Some; intros [[-> ->]|[_ ?]]; try done; by eapply HI.
Qed.

Lemma epoll_del_inv ok fd e s : mem_inv s → mem_inv (epoll_try ok EPOLL_CTL_DEL fd e s).
Proof.
  intros HI. unfold epoll_try. destruct (epoll_ctl ok EPOLL_CTL_DEL fd e (po_epoll s)) as [m|] eqn:E; [|done].
  apply epoll_ctl_Some in E as [-> _]. apply (mem_inv_epoll s); try done; [|apply HI].
  intros fd' ev p. simpl. rewrite lookup_delete_Some. intros [_ ?]. by eapply HI.
Qed.

(** The newest record of a descriptor that is not deleted may be registered. *)
Lemma last_entry_ok s fd p : mem_inv s → last (wakes s fd) = Some p → delCnt s fd < Z.of_nat (length (wakes s fd)) → entry_ok s fd p.
Proof.
  intros HI Hl Hc. destruct (mi_wakes _ HI fd p) as (d & Hd & Hfd & Ha); [by apply last_Some_elem_of|].
  exists d. split_and!; [done..|]. by destruct Ha as [-> | ->].
Qed.

Lemma cache_mask_inv ok fd t s : mem_inv s → mem_inv (CacheMaskFdAndEpollDel ok fd t s).
Proof.
  intros HI. unfold CacheMaskFdAndEpollDel. destruct (po_maskWakeDataMap s !! t); [|done].
  pose proof (epoll_del_inv ok fd (0, wakeData) s HI) as HI'. apply (mem_inv_mask (epoll_try ok EPOLL_CTL_DEL fd (0, wakeData) s)); [by split|done].
Qed.

Lemma cache_one_inv ok t e s : mem_inv s → mem_inv (cache_one ok t e s).
Proof.
  intros HI. unfold cache_one. destruct (last (wakes s (ev_fd e))) as [p|] eqn:Hl; [|done].
  case_decide as Ht; [|done]. case_decide as Hd; [done|].
  assert (delCnt s (ev_fd e) < Z.of_nat (length (wakes s (ev_fd e)))) as Hc.
  { pose proof (mi_cnt _ HI (ev_fd e)). unfold delCnt in *. destruct (po_delCntMap s !! ev_fd e) eqn:E; simpl in *.
    - assert (Z.of_nat (length (wakes s (ev_fd e))) ≠ z) by (intros ?; apply Hd; split; [done|lia]). lia.
    - destruct (wakes s (ev_fd e)); [done|simpl; lia]. }
  set (s1 := s <| po_maskWakeDataMap ::= _ |>). assert (mem_inv s1) as H1 by (apply (mem_inv_mask s); [by split|done]).
  assert (mem_inv (epoll_try ok EPOLL_CTL_MOD (ev_fd e) (0, p) s1)) as H2 by (apply epoll_set_inv; [done..|by apply (last_entry_ok s1)]).
  apply (mem_inv_epoll (epoll_try ok EPOLL_CTL_MOD (ev_fd e) (0, p) s1)); try done; [apply H2|].
  intros t' l e' Hl' He'.
  assert (Hu : ∀ fd, undeleted s1 fd → undeleted (epoll_try ok EPOLL_CTL_MOD (ev_fd e) (0, p) s1) fd).
  { intros fd. unfold epoll_try. by destruct (epoll_ctl _ _ _ _ _). }
  assert (Hca : po_cachedTaskEvents (epoll_try ok EPOLL_CTL_MOD (ev_fd e) (0, p) s1) = po_cachedTaskEvents s).
  { unfold epoll_try. by destruct (epoll_ctl _ _ _ _ _). }
  simpl in Hl'. rewrite Hca in Hl'. apply Hu. apply lookup_insert_Some in Hl' as [[<- <-]|[_ Hl']]; [|by eapply (mi_cached _ HI)].
  apply elem_of_app in He' as [He'| ->%list_elem_of_singleton]; [|by right].
  destruct (po_cachedTaskEvents s !! t) as [l|] eqn:El; [by eapply (mi_cached _ HI)|by apply not_elem_of_nil in He'].
Qed.

Lemma CacheEvents_inv ok t l s : mem_inv s → mem_inv (CacheEventsAndDoMask ok t l s).
Proof.
  intros HI. unfold CacheEventsAndDoMask. set (s0 := s <| po_cachedTaskEvents ::= _ |>).
  assert (mem_inv s0) as H0.
  { apply (mem_inv_epoll s); try done; [apply HI|]. intros t' l' e Hl He. simpl in Hl.
    apply lookup_insert_Some in Hl as [[<- <-]|[_ Hl]]; [|by eapply (mi_cached _ HI)].
    destruct (po_cachedTaskEvents s !! t) as [k|] eqn:El; [by eapply (mi_cached _ HI)|by apply not_elem_of_nil in He]. }
  clearbody s0. clear HI s. revert s0 H0. induction l as [|e l IH]; intros s HI; simpl; [done|]. by apply IH, cache_one_inv.
Qed.

(** What fetching changes: the interest list and the masks. *)
Record fetch_only (s s' : poller) : Prop := {
  fo_heap : po_heap s' = po_heap s;
  fo_wake : po_wakeDataMap s' = po_wakeDataMap s;
  fo_cnt : po_delCntMap s' = po_delCntMap s;
  fo_cached : po_cachedTaskEvents s' = po_cachedTaskEvents s;
  fo_next : po_next s' = po_next s;
}.

Lemma epoll_try_fetch ok op fd e s : fetch_only s (epoll_try ok op fd e s).
Proof. unfold epoll_try. by destruct (epoll_ctl _ _ _ _ _). Qed.

Lemma unmask_fetch ok fd s : fetch_only s (unmask_fd ok fd s).
Proof.
  unfold unmask_fd. destruct (last _) as [p|]; [|by split]. destruct (po_delFdCacheMap s !! fd) eqn:E; [|apply epoll_try_fetch].
  destruct (ClearDelFdCache_mask fd s) as [_ ? ? ? ? _ ? _]. set (s1 := ClearDelFdCache fd s) in *.
  match goal with |- fetch_only s (epoll_try ?o ?p ?f ?e s1) => destruct (epoll_try_fetch o p f e s1) end. split; congruence.
Qed.

Lemma unmask_inv ok fd s : mem_inv s → undeleted s fd → mem_inv (unmask_fd ok fd s).
Proof.
  intros HI Hu. unfold unmask_fd. destruct (last (wakes s fd)) as [p|] eqn:Hl; [|done].
  destruct Hu as [Hu|Hu]; [by rewrite Hu in Hl|].
  destruct (po_delFdCacheMap s !! fd) eqn:E; [|apply epoll_set_inv; [done..|by apply last_entry_ok]].
  pose proof (ClearDelFdCache_mask fd s) as HM. pose proof (mem_inv_mask _ _ HM HI) as HI'.
  apply epoll_set_inv; [done..|]. destruct HM as [_ M2 _ M4 M5 _ _ _]. apply last_entry_ok; [done|..]; unfold wakes, delCnt; by rewrite ?M4, ?M5.
Qed.

Lemma fetch_inv ok l r :
  mem_inv r.2 → (∀ e, e ∈ l → undeleted r.2 (ev_fd e)) →
  mem_inv (foldl (λ r e, fetch_one ok e r) r l).2 ∧ fetch_only r.2 (foldl (λ r e, fetch_one ok e r) r l).2.
Proof.
  revert r. induction l as [|e l IH]; intros [out s] HI Hu; simpl in *; [by split|].
  assert (mem_inv (fetch_one ok e (out, s)).2 ∧ fetch_only s (fetch_one ok e (out, s)).2) as [HI' HF].
  { simpl. case_decide; [by split|]. split; [apply unmask_inv; [done|apply Hu; left]|apply unmask_fetch]. }
  destruct (IH (fetch_one ok e (out, s)) HI') as [H1 H2].
  { intros e' He'. destruct HF as [_ F2 F3 _ _]. unfold undeleted, wakes, delCnt in *. simpl in *. rewrite F2, F3. apply Hu. by right. }
  split; [done|]. destruct HF, H2. simpl in *. split; congruence.
Qed.

Lemma cached_delete_inv t s : mem_inv s → mem_inv (s <| po_cachedTaskEvents ::= delete t |>).
Proof.
  intros HI. apply (mem_inv_epoll s); try done; [apply HI|]. intros t' l e Hl He. simpl in Hl.
  apply lookup_delete_Some in Hl as [_ Hl]. by eapply HI.
Qed.

Lemma FetchCached_inv ok t s : mem_inv s → mem_inv (FetchCachedEventAndDoUnmask ok t s).2.
Proof.
  intros HI. unfold FetchCachedEventAndDoUnmask. destruct (po_cachedTaskEvents s !! t) as [[|e l]|] eqn:El; [done| |done].
  unfold FetchCachedEvents. destruct (fetch_inv ok (e :: l) ([], s) HI) as [H1 H2].
  { intros e' He'. by eapply (mi_cached _ HI). }
  destruct (foldl _ _ _) as [out s']. simpl in *. eapply mem_inv_mask; [apply ClearMaskWakeDataCache_mask|]. by apply cached_delete_inv.
Qed.

Lemma mem_inv_pc s pc : mem_inv s → match pc with PProc _ _ => False | _ => True end → mem_inv (s <| po_pc := pc |>).
Proof. intros HI Hpc. apply (mem_inv_frame s); try done. by destruct pc. Qed.

Lemma wakes_insert s fd l m fd' : po_wakeDataMap s = <[fd := l]> m → wakes s fd' = if decide (fd' = fd) then l else default [] (m !! fd').
Proof. intros E. unfold wakes. rewrite E. case_decide as H; [by rewrite H, lookup_insert_eq|by rewrite lookup_insert_ne]. Qed.

(** A new record, registered. *)
Lemma add_inv ok events fd cb t s : mem_inv s → mem_inv (AddFdEvent ok EPOLL_CTL_ADD events fd cb t s).2.
Proof.
  intros HI. unfold AddFdEvent. set (p := po_next s). set (s1 := s <| po_next := Pos.succ p |>).
  assert (mem_inv s1) as H1 by (apply (mem_inv_frame s); try done; [simpl; lia|apply HI]).
  simpl. destruct (po_teardown s); [done|]. set (s2 := if _ && _ then _ else _).
  assert (mem_inv s2) as H2.
  { unfold s2. destruct (_ && _); [|done]. unfold ThreadInit. apply (mem_inv_pc (s1 <| po_exitFlag := false |>)); [|done].
    apply (mem_inv_frame s1); try done. apply H1. }
  assert (Hf : ∀ q d, po_heap s2 !! q = Some d → q ≠ p).
  { intros q d Hq. assert (po_heap s2 = po_heap s) as E by (unfold s2; by destruct (_ && _)). rewrite E in Hq.
    pose proof (mi_next _ HI q d Hq). unfold p. lia. }
  assert (po_next s2 = Pos.succ p) as Hn by (unfold s2; by destruct (_ && _)). clearbody s2. clear HI H1.
  destruct (epoll_ctl ok EPOLL_CTL_ADD fd (events, p) (po_epoll s2)) as [m|] eqn:E; [|done].
  apply epoll_ctl_Some in E as [-> Hnone]. set (d := mkPollerData _ _ _ _). simpl. change (wakes (s2 <| po_epoll := _ |>) fd) with (wakes s2 fd).
  destruct H2 as [I1 I2 I3 I4 I5 I6 I7 I8 I9 Ipos]. match goal with |- mem_inv ?x => set (s3 := x) end.
  assert (Hw : ∀ fd', wakes s3 fd' = if decide (fd' = fd) then wakes s2 fd ++ [p] else wakes s2 fd') by (intros; by apply wakes_insert).
  assert (Hh : ∀ q d', po_heap s2 !! q = Some d' → po_heap s3 !! q = Some d') by (intros q d' Hq; simpl; rewrite lookup_insert_ne; [done|]; intros ->; by eapply Hf).
  assert (Hp : po_heap s3 !! p = Some d) by apply lookup_insert_eq.
  split.
  - intros fd' ev q Hq. simpl in Hq. apply lookup_insert_Some in Hq as [[<- [= <- <-]]|[Hne Hq]].
    + exists d. split_and!; [done..|]. rewrite Hw, decide_True by done. change (delCnt s3 fd) with (delCnt s2 fd).
      pose proof (I4 fd). rewrite last_snoc, length_app. simpl. destruct cb; (split; [done|lia]).
    + destruct (I1 _ _ _ Hq) as (d' & ? & ? & ?). exists d'. split_and!; [by apply Hh|done|]. rewrite Hw, decide_False by done. done.
  - intros fd' q. rewrite Hw. case_decide as Hfd; [subst fd'; rewrite elem_of_app, list_elem_of_singleton; intros [Hq| ->]|intros Hq].
    + destruct (I2 _ _ Hq) as (d' & ? & ?). eauto.
    + exists d. split_and!; [done..|]. destruct cb; [by left|by right].
    + destruct (I2 _ _ Hq) as (d' & ? & ?). eauto.
  - intros fd'. rewrite Hw. case_decide; [|done]. apply NoDup_app. split_and!; [done| |apply NoDup_singleton].
    intros q Hq ->%list_elem_of_singleton. destruct (I2 _ _ Hq) as (d' & Hd' & _). by eapply Hf.
  - intros fd'. rewrite Hw. change (delCnt s3 fd') with (delCnt s2 fd'). pose proof (I4 fd').
    case_decide; [subst; rewrite length_app; simpl; lia|done].
  - intros t' q th Hq. destruct (I5 _ _ _ Hq) as (d' & ? & ?). eauto.
  - intros q d' Hq. simpl in Hq. apply lookup_insert_Some in Hq as [[<- <-]|[_ Hq]]; [by destruct cb|by apply I6].
  - intros t' l e Hl He. destruct (I7 _ _ _ Hl He) as [Hu|Hu]; unfold undeleted; rewrite Hw; change (delCnt s3 (ev_fd e)) with (delCnt s2 (ev_fd e));
      case_decide as Efd; try (by left); try (by right); right; rewrite <-Efd, length_app; simpl; pose proof (I4 (ev_fd e)); lia.
  - intros q d' Hq. simpl in Hq |- *. apply lookup_insert_Some in Hq as [[<- <-]|[_ Hq]]; [lia|]. by apply I8 in Hq.
  - unfold batch_ok in *. simpl. destruct (po_pc s2); try done. destruct I9 as [I9 I10]. split; [done|].
    intros q Hq. destruct (I10 q Hq) as [d' Hd']. exists d'. by apply Hh.
  - exact Ipos.
Qed.

Lemma erase_cached_lookup fd m t l e : erase_cached fd m !! t = Some l → e ∈ l → ev_fd e ≠ fd ∧ ∃ l', m !! t = Some l' ∧ e ∈ l'.
Proof.
  unfold erase_cached. rewrite lookup_omap. destruct (m !! t) as [l'|]; simpl; [|done]. case_decide; intros; simplify_eq.
  assert (e ∈ filter (λ e, ev_fd e ≠ fd) l') as [? ?]%list_elem_of_filter by done. eauto.
Qed.

Lemma del_inv ok fd s : mem_inv s → mem_inv (DelFdEvent ok fd s).2.
Proof.
  intros HI. unfold DelFdEvent. pose proof (mem_inv_mask _ _ (ClearDelFdCache_mask fd s) HI) as H1. set (s1 := ClearDelFdCache fd s) in *.
  clearbody s1. clear HI s. case_decide as Hw; [done|]. case_decide as Hd; [done|].
  destruct (epoll_ctl ok EPOLL_CTL_DEL fd (0, wakeData) (po_epoll s1)) as [m|] eqn:E; [|done]. apply epoll_ctl_Some in E as [-> _].
  assert (delCnt s1 fd < Z.of_nat (length (wakes s1 fd))) as Hc.
  { pose proof (mi_cnt _ H1 fd). unfold delCnt in *. destruct (po_delCntMap s1 !! fd) eqn:E; simpl in *.
    - assert (Z.of_nat (length (wakes s1 fd)) - z ≠ 0) by (intros ?; by apply Hd). lia.
    - destruct (wakes s1 fd); [done|simpl; lia]. }
  simpl. destruct H1 as [I1 I2 I3 I4 I5 I6 I7 I8 I9 Ipos]. match goal with |- mem_inv ?x => set (s2 := x) end.
  assert (Hn : ∀ fd', delCnt s2 fd' = if decide (fd' = fd) then delCnt s1 fd + 1 else delCnt s1 fd').
  { intros fd'. unfold s2, WakeUp, delCnt. simpl. case_decide as Ef; [by rewrite Ef, lookup_insert_eq|by rewrite lookup_insert_ne]. }
  split; try done.
  - intros fd' ev p Hp. simpl in Hp. apply lookup_delete_Some in Hp as [Hne Hp]. destruct (I1 _ _ _ Hp) as (d & ? & ? & ?).
    exists d. split_and!; [done..|]. rewrite Hn, decide_False by done. done.
  - intros fd'. rewrite Hn. change (wakes s2 fd') with (wakes s1 fd'). pose proof (I4 fd'). case_decide; [subst; lia|done].
  - intros t l e Hl He. destruct (erase_cached_lookup _ _ _ _ _ Hl He) as (Hne & l' & Hl' & He').
    unfold undeleted. rewrite Hn, decide_False by done. by eapply I7.
  - intros fd' n Hn'. simpl in Hn'. apply lookup_insert_Some in Hn' as [[_ <-]|[_ Hn']]; [pose proof (I4 fd); lia|by eapply Ipos].
Qed.

Lemma NoDup_pos_length (l : list positive) n : NoDup l → (∀ p, p ∈ l → (p < n)%positive) → Z.of_nat (length l) < Z.pos n.
Proof.
  intros Hnd Hlt. assert (Pos.to_nat <$> l ⊆+ seq 1 (Pos.to_nat n - 1)) as Hs.
  { apply NoDup_submseteq; [apply NoDup_fmap_2_strong; [intros; by apply Pos2Nat.inj|done]|]. intros k (p & -> & Hp)%list_elem_of_fmap. apply elem_of_seq. specialize (Hlt p Hp). lia. }
  apply submseteq_length in Hs. rewrite length_fmap, length_seq in Hs. lia.
Qed.

Lemma wakes_length s fd : mem_inv s → few_records s → Z.of_nat (length (wakes s fd)) < 2 ^ 31.
Proof.
  intros HI Hf. unfold few_records in Hf. pose proof (NoDup_pos_length (wakes s fd) (po_next s) (mi_nodup _ HI fd)) as Hl.
  assert (Z.of_nat (length (wakes s fd)) < Z.pos (po_next s)); [|lia]. apply Hl. intros p Hp.
  destruct (mi_wakes _ HI fd p Hp) as (d & Hd & _). by eapply (mi_next _ HI).
Qed.

Lemma free_all_lookup l h p : free_all l h !! p = if decide (p ∈ l) then None else h !! p.
Proof.
  induction l as [|q l IH]; simpl; [done|]. destruct (decide (p = q)) as [->|Hne].
  - rewrite lookup_delete_eq, decide_True by left. done.
  - rewrite lookup_delete_ne, IH by done. destruct (decide (p ∈ l)) as [Hin|Hin].
    + rewrite decide_True by (by right). done.
    + rewrite decide_False; [done|]. intros [?|?]%elem_of_cons; done.
Qed.

Definition no_batch (s : poller) : Prop := match po_pc s with PProc _ _ => False | _ => True end.

(** The records of [fd] are cut down to [l'], a suffix without the records freed. *)
Lemma cut_inv s s' fd l l' :
  mem_inv s → no_batch s → wakes s fd = l ++ l' → po_pc s' = po_pc s → po_next s' = po_next s → po_epoll s' = po_epoll s →
  po_sync s' = po_sync s → po_cachedTaskEvents s' = po_cachedTaskEvents s → po_heap s' = free_all l (po_heap s) →
  (∀ fd', wakes s' fd' = if decide (fd' = fd) then l' else wakes s fd') →
  (∀ fd', fd' ≠ fd → po_delCntMap s' !! fd' = po_delCntMap s !! fd') → (∀ n, po_delCntMap s' !! fd = Some n → 1 <= n) →
  0 <= delCnt s' fd <= Z.of_nat (length l') →
  (delCnt s fd < Z.of_nat (length (wakes s fd)) → l' ≠ [] ∧ delCnt s' fd < Z.of_nat (length l')) → mem_inv s'.
Proof.
  intros HI Hnb El Epc Enx Eep Esy Eca Ehp Hw Hd Hpos Hc Hlive. destruct HI as [I1 I2 I3 I4 I5 I6 I7 I8 I9 Ipos].
  assert (Hdis : ∀ q, q ∈ l → q ∈ l' → False). { pose proof (I3 fd) as Hnd. rewrite El in Hnd. apply NoDup_app in Hnd as (_ & Hnd & _). eauto. }
  assert (Hin : ∀ q, q ∈ l → ∃ d, po_heap s !! q = Some d ∧ pd_fd d = fd ∧ is_async d) by (intros q Hq; apply I2; rewrite El, elem_of_app; by left).
  assert (Hkeep : ∀ q d, po_heap s !! q = Some d → (pd_fd d = fd → is_async d → q ∈ l') → po_heap s' !! q = Some d).
  { intros q d Hq Hl'. rewrite Ehp, free_all_lookup. rewrite decide_False; [done|]. intros Hql. destruct (Hin q Hql) as (d' & ? & ? & ?).
    simplify_eq. by apply (Hdis q), Hl'. }
  assert (Hcn : ∀ fd', fd' ≠ fd → delCnt s' fd' = delCnt s fd') by (intros; unfold delCnt; by rewrite Hd).
  assert (Hback : ∀ q d, po_heap s' !! q = Some d → po_heap s !! q = Some d) by (intros q d; rewrite Ehp, free_all_lookup; by case_decide).
  split.
  - intros fd' ev p. rewrite Eep. intros Hp. destruct (I1 _ _ _ Hp) as (d & Hd' & Hfd & Hm). exists d.
    destruct (decide (fd' = fd)) as [->|Hne].
    + assert (is_async d → last l' = Some p ∧ delCnt s' fd < Z.of_nat (length l')) as Hl.
      { intros [Ha|Ha]; rewrite Ha in Hm; destruct Hm as [Hm1 Hm2]; apply Hlive in Hm2 as [Hm2 Hm3]; rewrite El, last_app in Hm1;
          destruct (last l') eqn:E; simplify_eq; [done|by apply last_None in E|done|by apply last_None in E]. }
      split_and!; [apply Hkeep; [done|]; intros _ Ha; apply last_Some_elem_of; by apply Hl|done|].
      rewrite Hw, decide_True by done. destruct (pd_mode d) eqn:Em; try done; apply Hl; [by left|by right].
    + split_and!; [apply Hkeep; [done|]; congruence|done|]. rewrite Hw, Hcn, decide_False by done. done.
  - intros fd' p. rewrite Hw. case_decide as Ef; intros Hp.
    + subst. destruct (I2 fd p) as (d & ? & ? & ?); [rewrite El, elem_of_app; by right|]. exists d. split_and!; try done. by apply Hkeep.
    + destruct (I2 _ _ Hp) as (d & ? & ? & ?). exists d. split_and!; try done. apply Hkeep; [done|congruence].
  - intros fd'. rewrite Hw. case_decide; [|done]. pose proof (I3 fd) as Hnd. rewrite El in Hnd. by apply NoDup_app in Hnd as (_ & _ & ?).
  - intros fd'. rewrite Hw. case_decide as Ef; [by subst|]. by rewrite Hcn.
  - intros t p th. rewrite Esy. intros Hp. destruct (I5 _ _ _ Hp) as (d & ? & Hm & ?). exists d. split_and!; try done.
    apply Hkeep; [done|]. intros _ [?|?]; congruence.
  - intros p d Hp%Hback. rewrite Esy. by apply I6.
  - intros t k e. rewrite Eca. intros Hk He. unfold undeleted. rewrite Hw. destruct (I7 _ _ _ Hk He) as [Hu|Hu]; case_decide as Ef.
    + rewrite Ef, El in Hu. apply app_eq_nil in Hu as [_ ->]. by left.
    + by left.
    + right. rewrite Ef in *. by apply Hlive.
    + right. by rewrite Hcn.
  - intros p d Hp%Hback. rewrite Enx. by eapply I8.
  - unfold batch_ok, no_batch in *. rewrite Epc. by destruct (po_pc s).
  - intros fd' n. destruct (decide (fd' = fd)) as [->|Hne]; [apply Hpos|]. rewrite Hd by done. apply Ipos.
Qed.

Lemma release_fd_inv fd s :
  mem_inv s → few_records s → no_batch s → is_Some (po_delCntMap s !! fd) → mem_inv (release_fd fd s).
Proof.
  intros HI Hf Hnb [n En]. pose proof (mi_cnt _ HI fd) as Hc. pose proof (wakes_length s fd HI Hf) as Hl.
  assert (delCnt s fd = n) as Ec by (unfold delCnt; by rewrite En). rewrite Ec in Hc. pose proof (mi_pos _ HI fd n En) as Hn1.
  unfold release_fd. rewrite Ec. assert (u32 n = n) as -> by (apply uw_small; lia).
  assert (u32 (Z.of_nat (length (wakes s fd)) - n) = Z.of_nat (length (wakes s fd)) - n) as -> by (apply uw_small; lia).
  assert (u32 (n - 1) = n - 1) as -> by (apply uw_small; lia).
  case_decide as H0; [|case_decide as H1].
  - eapply (cut_inv s _ fd (wakes s fd) []); try done; simpl.
    + by rewrite app_nil_r.
    + intros fd'. unfold wakes. simpl. case_decide as E; [by rewrite E, lookup_delete_eq|by rewrite lookup_delete_ne].
    + intros fd' Hne. by rewrite lookup_delete_ne.
    + intros m. by rewrite lookup_delete_eq.
    + unfold delCnt. simpl. rewrite lookup_delete_eq. simpl. lia.
    + lia.
  - set (k := Z.to_nat (n - 1)). eapply (cut_inv s _ fd (take k (wakes s fd)) (drop k (wakes s fd))); try done; simpl.
    + by rewrite take_drop.
    + intros fd'. by apply wakes_insert.
    + intros fd' Hne. by rewrite lookup_insert_ne.
    + intros m. rewrite lookup_insert_eq. intros [= <-]. lia.
    + unfold delCnt. simpl. rewrite lookup_insert_eq, length_drop. simpl. lia.
    + intros _. unfold delCnt. simpl. rewrite lookup_insert_eq. simpl. split; [|rewrite length_drop; lia].
      intros Hd%(f_equal length). rewrite length_drop in Hd. simpl in Hd. lia.
  - eapply (cut_inv s _ fd [] (wakes s fd)); try done; simpl.
    + intros fd'. by apply wakes_insert.
    + apply HI.
    + unfold delCnt. simpl. rewrite En. simpl. lia.
    + intros _. unfold delCnt. simpl. rewrite En. simpl. split; [|lia]. intros E. rewrite E in *. simpl in *. lia.
Qed.

Lemma release_fd_frame fd s :
  po_next (release_fd fd s) = po_next s ∧ po_pc (release_fd fd s) = po_pc s ∧
  ∀ fd', fd' ≠ fd → po_delCntMap (release_fd fd s) !! fd' = po_delCntMap s !! fd'.
Proof.
  unfold release_fd. case_decide; [|case_decide]; split_and!; try done; intros fd' Hne; simpl;
    by rewrite ?lookup_delete_ne, ?lookup_insert_ne by done.
Qed.

Lemma release_all_inv l s :
  mem_inv s → few_records s → no_batch s → NoDup l → (∀ fd, fd ∈ l → is_Some (po_delCntMap s !! fd)) →
  mem_inv (foldr release_fd s l) ∧ po_next (foldr release_fd s l) = po_next s ∧ po_pc (foldr release_fd s l) = po_pc s ∧
  ∀ fd, fd ∉ l → po_delCntMap (foldr release_fd s l) !! fd = po_delCntMap s !! fd.
Proof.
  intros HI Hf Hnb. induction l as [|fd l IH]; intros Hnd Hin; simpl; [done|].
  apply NoDup_cons in Hnd as [Hni Hnd]. destruct IH as (H1 & H2 & H3 & H4); [done|intros; apply Hin; by right|].
  destruct (release_fd_frame fd (foldr release_fd s l)) as (F1 & F2 & F3). split_and!; [|congruence..|].
  - apply release_fd_inv; [done|unfold few_records; by rewrite H2|unfold no_batch; by rewrite H3|]. rewrite H4 by done. apply Hin. left.
  - intros fd' [Hne Hni']%not_elem_of_cons. by rewrite F3, H4.
Qed.

Lemma Release_inv s : mem_inv s → few_records s → no_batch s → mem_inv (ReleaseFdWakeData s).
Proof.
  intros HI Hf Hnb. unfold ReleaseFdWakeData.
  destruct (release_all_inv (elements (dom (po_delCntMap s))) s HI Hf Hnb) as (H1 & _); [apply NoDup_elements| |].
  { intros fd. by rewrite elem_of_elements, elem_of_dom. }
  destruct (po_io _); [done|]. apply (mem_inv_frame (foldr release_fd s (elements (dom (po_delCntMap s))))); try done. apply H1.
Qed.

Lemma sync_wait_inv ok th fd t s : mem_inv s → po_sync s !! t = None → mem_inv (WaitFdEvent_sync ok th fd t s).
Proof.
  intros HI Hn. unfold WaitFdEvent_sync. destruct (_ || _); [done|]. set (s2 := if po_exitFlag s then _ else _).
  assert (mem_inv s2) as H2.
  { unfold s2. destruct (po_exitFlag s); [|done]. unfold ThreadInit. apply (mem_inv_pc (s <| po_exitFlag := false |>)); [|done].
    apply (mem_inv_frame s); try done. apply HI. }
  assert (po_sync s2 !! t = None) as Hn2 by (unfold s2; by destruct (po_exitFlag s)). clearbody s2. clear HI Hn.
  destruct (epoll_ctl _ _ _ _ _) as [m|] eqn:E; [|apply (mem_inv_frame s2); try done; [simpl; lia|apply H2]].
  apply epoll_ctl_Some in E as [-> Hnone]. destruct H2 as [I1 I2 I3 I4 I5 I6 I7 I8 I9 Ipos]. match goal with |- mem_inv ?x => set (s3 := x) end.
  assert (Hf : ∀ q d, po_heap s2 !! q = Some d → q ≠ po_next s2) by (intros q d Hq ->; pose proof (I8 _ _ Hq); lia).
  assert (Hh : ∀ q d, po_heap s2 !! q = Some d → po_heap s3 !! q = Some d) by (intros q d Hq; simpl; rewrite lookup_insert_ne; [done|]; intros E; by eapply Hf).
  split; try done.
  - intros fd' ev q Hq. simpl in Hq. apply lookup_insert_Some in Hq as [[<- [= <- <-]]|[_ Hq]].
    + eexists. split; [apply lookup_insert_eq|]. done.
    + destruct (I1 _ _ _ Hq) as (d & ? & ?). exists d. split; [by apply Hh|done].
  - intros fd' q Hq. destruct (I2 _ _ Hq) as (d & ? & ?). eauto.
  - intros t' q th' Hq. simpl in Hq. apply lookup_insert_Some in Hq as [[<- [= <- <-]]|[_ Hq]].
    + eexists. split; [apply lookup_insert_eq|]. done.
    + destruct (I5 _ _ _ Hq) as (d & ? & ?). eauto.
  - intros q d Hq Hm. simpl in Hq |- *. apply lookup_insert_Some in Hq as [[<- <-]|[_ Hq]]; simpl.
    + exists th. by rewrite lookup_insert_eq.
    + destruct (I6 _ _ Hq Hm) as [th' Hth]. exists th'. rewrite lookup_insert_ne; [done|]. intros E. by rewrite <-E, Hn2 in Hth.
  - intros q d Hq. simpl in Hq |- *. apply lookup_insert_Some in Hq as [[<- <-]|[_ Hq]]; [lia|]. apply I8 in Hq. lia.
  - unfold batch_ok in *. simpl. destruct (po_pc s2); try done. destruct I9 as [? I9]. split; [done|].
    intros q Hq. destruct (I9 q Hq) as [d Hd]. eauto.
Qed.

(** The record of a suspended task goes when the task is woken. *)
Lemma sync_wake_inv t p th s :
  mem_inv s → po_sync s !! t = Some (p, th) → (∀ fd ev, po_epoll s !! fd ≠ Some (ev, p)) →
  match po_pc s with PProc batch _ => p ∉ batch.*2 | _ => True end →
  ∀ s', po_epoll s' = po_epoll s → po_heap s' = delete p (po_heap s) → po_next s' = po_next s → po_wakeDataMap s' = po_wakeDataMap s →
  po_delCntMap s' = po_delCntMap s → po_sync s' = delete t (po_sync s) → po_cachedTaskEvents s' = po_cachedTaskEvents s →
  po_pc s' = po_pc s → mem_inv s'.
Proof.
  intros [I1 I2 I3 I4 I5 I6 I7 I8 I9 Ipos] Ht Hnp Hb s' E1 E2 E3 E4 E5 E6 E7 E8.
  destruct (I5 _ _ _ Ht) as (d0 & Hd0 & Hm0 & Ht0).
  assert (Hw : ∀ fd, wakes s' fd = wakes s fd) by (intros; unfold wakes; by rewrite E4).
  assert (Hc : ∀ fd, delCnt s' fd = delCnt s fd) by (intros; unfold delCnt; by rewrite E5).
  assert (Hk : ∀ q d, po_heap s !! q = Some d → q ≠ p → po_heap s' !! q = Some d) by (intros; rewrite E2; by rewrite lookup_delete_ne).
  split; rewrite ?E1, ?E3, ?E5, ?E6, ?E7; try done.
  - intros fd ev q Hq. destruct (I1 _ _ _ Hq) as (d & Hd & ? & Hm). exists d. rewrite Hw, Hc. split_and!; [|done..].
    apply Hk; [done|]. intros ->. by apply (Hnp fd ev).
  - intros fd q. rewrite Hw. intros Hq. destruct (I2 _ _ Hq) as (d & Hd & ? & Ha). exists d. split_and!; [|done..].
    apply Hk; [done|]. intros ->. destruct Ha; congruence.
  - intros fd. by rewrite Hw.
  - intros fd. rewrite Hw, Hc. apply I4.
  - intros t' q th' [Hne Hq]%lookup_delete_Some. destruct (I5 _ _ _ Hq) as (d & Hd & ? & ?). exists d. split_and!; [|done..].
    apply Hk; [done|]. intros ->. congruence.
  - intros q d Hq Hm. rewrite E2 in Hq. apply lookup_delete_Some in Hq as [Hne Hq]. destruct (I6 _ _ Hq Hm) as [th' Hth].
    exists th'. rewrite lookup_delete_ne; [done|]. intros Et. rewrite <-Et in Hth. congruence.
  - intros t' l e Hl He. unfold undeleted. rewrite Hw, Hc. by eapply I7.
  - intros q d Hq. rewrite E2 in Hq. apply lookup_delete_Some in Hq as [_ Hq]. by eapply I8.
  - unfold batch_ok in *. rewrite E8. destruct (po_pc s) as [| |batch sync| | | |]; try done. destruct I9 as [Hnd I9]. split; [done|].
    intros q Hq. destruct (I9 q Hq) as [d Hd]. exists d. apply Hk; [done|]. by intros ->.
Qed.

(** Going on to the rest of the batch. *)
Lemma mem_inv_rest s b rest sync sync' :
  mem_inv s → po_pc s = PProc (b :: rest) sync → mem_inv (s <| po_pc := PProc rest sync' |>).
Proof.
  intros HI Hpc. apply (mem_inv_frame s); try done. pose proof (mi_batch _ HI) as Hb. unfold batch_ok in *. rewrite Hpc in Hb. simpl in *.
  destruct Hb as [Hnd Hb]. apply NoDup_cons in Hnd as [_ Hnd]. split; [done|]. intros p Hp. apply Hb. by right.
Qed.

Lemma process_inv ok ev p rest sync s :
  mem_inv s → po_pc s = PProc ((ev, p) :: rest) sync → ∃ s', process_event ok ev p rest sync s = Some s' ∧ mem_inv s'.
Proof.
  intros HI Hpc. pose proof (mi_batch _ HI) as Hb. unfold batch_ok in Hb. rewrite Hpc in Hb. simpl in Hb. destruct Hb as [Hnd Hb].
  apply NoDup_cons in Hnd as [Hni _]. destruct (Hb p) as [d Hd]; [left|]. unfold process_event. rewrite Hd. simpl.
  assert (Hrest : ∀ sync', mem_inv (s <| po_pc := PProc rest sync' |>)) by (intros; by eapply mem_inv_rest).
  destruct (pd_mode d) eqn:Hm.
  - eexists. split; [done|]. apply (mem_inv_frame (s <| po_pc := PProc rest sync |>)); try done. exact (mi_batch _ (Hrest sync)).
  - destruct (epoll_ctl ok EPOLL_CTL_DEL (pd_fd d) (0, wakeData) (po_epoll s)) as [m|] eqn:E; [|eexists; split; [done|apply Hrest]].
    apply epoll_ctl_Some in E as [-> _]. destruct (mi_sync_heap _ HI p d Hd Hm) as [th Hth]. unfold WakeTask_sync. simpl. rewrite Hth. simpl.
    eexists. split; [done|]. set (s1 := s <| po_pc := PProc rest sync |> <| po_epoll := delete (pd_fd d) (po_epoll s) |>).
    assert (mem_inv s1) as H1.
    { apply (mem_inv_epoll (s <| po_pc := PProc rest sync |>)); try done; [|exact (mi_cached _ HI)].
      intros fd' ev' q Hq. simpl in Hq. apply lookup_delete_Some in Hq as [_ Hq]. by apply (mi_entry _ (Hrest sync) _ ev'). }
    apply (sync_wake_inv (pd_task d) p th s1); try done.
    intros fd' ev' Hq. simpl in Hq. apply lookup_delete_Some in Hq as [Hne Hq]. destruct (mi_entry _ HI _ _ _ Hq) as (d' & ? & ? & _). congruence.
  - eexists. split; [done|apply Hrest].
  - destruct (_ || _); [|eexists; split; [done|apply Hrest]]. eexists. split; [done|]. case_decide; [apply cache_mask_inv|]; apply Hrest.
Qed.

Lemma WakeSync_inv ok l s : mem_inv s → mem_inv (WakeSyncTask ok l s).
Proof.
  intros HI. unfold WakeSyncTask.
  assert (mem_inv (foldr (wake_sync_one ok) ([], [], s) l).2) as H.
  { induction l as [|[t evs] l IH]; simpl; [done|]. destruct (foldr _ _ l) as [[hs ts] s']. simpl in *.
    destruct (po_waitTaskMap s' !! t); [|by apply CacheEvents_inv]. apply (mem_inv_frame s'); try done. apply IH. }
  destruct (foldr _ _ l) as [[hs ts] s']. by apply mem_inv_pc.
Qed.

Lemma wait_inv ok vec t maxevents timeout s : mem_inv s → mem_inv (WaitFdEvent ok vec t maxevents timeout s).2.
Proof.
  intros HI. unfold WaitFdEvent. destruct (_ || _); [done|]. pose proof (FetchCached_inv ok t s HI) as HF.
  destruct (FetchCachedEventAndDoUnmask ok t s) as [out s']. simpl in HF. case_decide; simpl.
  - apply (mem_inv_frame s'); try done. apply HF.
  - destruct (po_waitTaskMap s' !! t); [done|]. case_decide; apply (mem_inv_frame s'); try done; apply HF.
Qed.

Lemma batch_of_ok s batch : mem_inv s → batch_of s batch → batch_ok (s <| po_pc := PProc batch ∅ |>).
Proof.
  intros HI (fds & Hnd & _ & Hf). unfold batch_ok. simpl.
  assert (Hl : ∀ k b, batch !! k = Some b → ∃ fd d, fds !! k = Some fd ∧ po_heap s !! b.2 = Some d ∧ pd_fd d = fd).
  { intros k b Hk. destruct (Forall2_lookup_r _ _ _ _ _ Hf Hk) as (fd & Hfd & Hb).
    destruct (po_epoll s !! fd) as [[ev q]|] eqn:Eq; simplify_eq/=. destruct (mi_entry _ HI _ _ _ Eq) as (d & ? & ? & _). by exists fd, d. }
  split.
  - apply NoDup_alt. intros i j q Hi Hj. apply list_lookup_fmap_Some in Hi as (b & -> & Hi). apply list_lookup_fmap_Some in Hj as (b' & E & Hj).
    destruct (Hl _ _ Hi) as (fd & d & Hfd & Hd & Ed). destruct (Hl _ _ Hj) as (fd' & d' & Hfd' & Hd' & Ed').
    rewrite <-E in Hd'. eapply (NoDup_lookup fds i j fd Hnd Hfd). congruence.
  - intros q (b & -> & [k Hk]%list_elem_of_lookup)%list_elem_of_fmap. destruct (Hl _ _ Hk) as (fd & d & _ & ? & _). eauto.
Qed.

(** Records are only ever added. *)
Lemma cache_next ok t l s : po_next (CacheEventsAndDoMask ok t l s) = po_next s.
Proof.
  unfold CacheEventsAndDoMask. set (s0 := s <| po_cachedTaskEvents ::= _ |>). change (po_next s) with (po_next s0). clearbody s0.
  revert s0. induction l as [|e l IH]; intros s0; simpl; [done|]. rewrite IH. unfold cache_one.
  destruct (last _); [|done]. case_decide; [|done]. case_decide; [done|]. simpl. unfold epoll_try. by destruct (epoll_ctl _ _ _ _ _).
Qed.

Lemma wait_next ok vec t maxevents timeout s : po_next (WaitFdEvent ok vec t maxevents timeout s).2 = po_next s.
Proof.
  unfold WaitFdEvent. destruct (_ || _); [done|]. assert (po_next (FetchCachedEventAndDoUnmask ok t s).2 = po_next s) as Hn.
  { unfold FetchCachedEventAndDoUnmask. destruct (po_cachedTaskEvents s !! t) as [[|e l]|]; [done| |done]. unfold FetchCachedEvents.
    assert (∀ k r, po_next (foldl (λ r e, fetch_one ok e r) r k).2 = po_next r.2) as Hk.
    { induction k as [|e' k IH]; intros [out s0]; simpl; [done|]. rewrite IH. simpl. case_decide; [done|]. apply unmask_fetch. }
    specialize (Hk (e :: l) ([], s)). destruct (foldl _ _ _) as [out s']. simpl in *. rewrite (mo_next _ _ (ClearMaskWakeDataCache_mask t _)). done. }
  destruct (FetchCachedEventAndDoUnmask ok t s) as [out s']. simpl in Hn. case_decide; [done|]. destruct (po_waitTaskMap s' !! t); [done|]. by case_decide.
Qed.

Lemma wake_sync_next ok l s : po_next (WakeSyncTask ok l s) = po_next s.
Proof.
  unfold WakeSyncTask. assert (po_next (foldr (wake_sync_one ok) ([], [], s) l).2 = po_next s) as H.
  { induction l as [|[t evs] l IH]; simpl; [done|]. destruct (foldr _ _ l) as [[hs ts] s']. simpl in *.
    destruct (po_waitTaskMap s' !! t); [done|]. etransitivity; [apply cache_next|done]. }
  by destruct (foldr _ _ l) as [[hs ts] s'].
Qed.

Lemma release_next s : po_next (ReleaseFdWakeData s) = po_next s.
Proof.
  unfold ReleaseFdWakeData. assert (∀ l, po_next (foldr release_fd s l) = po_next s) as H.
  { induction l as [|fd l IH]; simpl; [done|]. by rewrite (proj1 (release_fd_frame _ _)). }
  destruct (po_io _); [done|]. simpl. apply H.
Qed.

Lemma process_next ok ev p rest sync s s' : process_event ok ev p rest sync s = Some s' → po_next s' = po_next s.
Proof.
  unfold process_event. destruct (po_heap s !! p) as [d|]; simpl; [|done]. destruct (pd_mode d).
  - by intros [= <-].
  - destruct (epoll_ctl _ _ _ _ _); [|by intros [= <-]]. unfold WakeTask_sync. simpl. destruct (po_sync s !! _) as [[q th]|]; simpl; [|done]. by intros [= <-].
  - by intros [= <-].
  - destruct (_ || _); [|by intros [= <-]]. intros [= <-]. case_decide; [|done]. unfold CacheMaskFdAndEpollDel. simpl.
    destruct (po_maskWakeDataMap s !! _); [|done]. simpl. unfold epoll_try. by destruct (epoll_ctl _ _ _ _ _).
Qed.

Lemma poller_step_next s s' : poller_step s s' → (po_next s <= po_next s')%positive.
Proof.
  assert (∀ x : poller, po_next s = po_next x → (po_next s <= po_next x)%positive) as Heq by (intros; lia).
  destruct 1; try (apply Heq; done).
  - unfold AddFdEvent. simpl. destruct (po_teardown s); simpl; [lia|]. destruct (_ && _); (destruct (epoll_ctl _ _ _ _ _); simpl; lia).
  - apply Heq. unfold DelFdEvent. rewrite <-(mo_next _ _ (ClearDelFdCache_mask fd s)). case_decide; [done|]. case_decide; [done|].
    by destruct (epoll_ctl _ _ _ _ _).
  - apply Heq. unfold ClearCachedEvents. destruct (po_cachedTaskEvents s !! t); [|done]. by rewrite (mo_next _ _ (ClearMaskWakeDataCache_mask t _)).
  - apply Heq. by rewrite wait_next.
  - unfold WaitFdEvent_sync. destruct (_ || _); [lia|]. destruct (po_exitFlag s); (destruct (epoll_ctl _ _ _ _ _); simpl; lia).
  - apply Heq. symmetry. by eapply process_next.
  - apply Heq. by rewrite wake_sync_next.
  - apply Heq. unfold unregister_timer in *. by repeat case_match; simplify_eq.
  - apply Heq. unfold WakeTask in *. by case_decide; simplify_eq.
  - apply Heq. simpl. by rewrite release_next.
  - apply Heq. unfold Run_tail. by repeat case_match.
  - apply Heq. unfold WakeTimeoutTask. by case_match.
  - apply Heq. unfold WakeTask in *. by case_decide; simplify_eq.
Qed.

Lemma poller_step_mem s s' : poller_step s s' → few_records s → mem_inv s → mem_inv s'.
Proof.
  destruct 1; intros Hf HI; try (apply (mem_inv_frame s); [done..|apply HI]).
  - by apply add_inv.
  - by apply del_inv.
  - by apply mem_inv_pc.
  - apply (mem_inv_epoll s); try done; [|apply HI]. intros fd' ev p Hp. simpl in Hp. apply lookup_delete_Some in Hp as [_ Hp]. by eapply HI.
  - unfold ClearCachedEvents. destruct (po_cachedTaskEvents s !! t); [|done]. eapply mem_inv_mask; [apply ClearMaskWakeDataCache_mask|]. by apply cached_delete_inv.
  - by apply wait_inv.
  - apply sync_wait_inv; [done|]. by destruct H0 as (_ & ? & _).
  - apply (mem_inv_frame s); try done. by apply batch_of_ok.
  - by apply mem_inv_pc.
  - destruct (process_inv ok ev p rest sync s HI H) as (s'' & Hp & ?). congruence.
  - by apply WakeSync_inv.
  - apply mem_inv_pc; [|done]. unfold unregister_timer in *. repeat case_match; simplify_eq; [|done]. apply (mem_inv_frame s); [done..|apply HI].
  - by apply mem_inv_pc.
  - apply mem_inv_pc; [|done]. unfold WakeTask in *. case_decide; simplify_eq. apply (mem_inv_frame s); [done..|apply HI].
  - by apply mem_inv_pc.
  - apply mem_inv_pc; [|done]. apply Release_inv; [done..|]. unfold no_batch. by rewrite H.
  - unfold Run_tail. repeat case_match; try (by apply mem_inv_pc). apply mem_inv_pc; [|done]. apply (mem_inv_frame s); [done..|apply HI].
  - unfold WakeTimeoutTask. case_match; apply (mem_inv_frame s); try done; apply HI.
  - unfold WakeTask in *. case_decide; simplify_eq. apply (mem_inv_frame s); [done..|apply HI].
Qed.
End PollerMem.

Module PollerWake.

(** *** Wake-ups *)

(** The tasks the poller thread has taken out of the map and will wake, and the
    timers it will unregister before. *)
Definition to_wake (pc : poll_pc) : list task := match pc with PUnreg _ ts | PWake ts => ts | _ => [] end.
Definition to_unregister (pc : poll_pc) : list Z := match pc with PUnreg hs _ => hs | _ => [] end.

(** The task of a timer whose callback has not looked at the map. *)
Definition live_timer (st : timer_stage) : option task := match st with TArmed t | TFired t => Some t | TErased _ => None end.

Record wake_inv (s : poller) : Prop := {
  wi_blocked : ∀ t, t ∈ po_blocked s ↔
    is_Some (po_waitTaskMap s !! t) ∨ t ∈ to_wake (po_pc s) ∨ ∃ h, po_timers s !! h = Some (TErased t);
  wi_map : ∀ t, is_Some (po_waitTaskMap s !! t) → t ∉ to_wake (po_pc s) ∧ ∀ h, po_timers s !! h ≠ Some (TErased t);
  wi_erased : ∀ t h, t ∈ to_wake (po_pc s) → po_timers s !! h ≠ Some (TErased t);
  wi_nodup : NoDup (to_wake (po_pc s));
  wi_once : ∀ h h' t, po_timers s !! h = Some (TErased t) → po_timers s !! h' = Some (TErased t) → h = h';
  wi_timer : ∀ h st t, po_timers s !! h = Some st → live_timer st = Some t →
    sd_timerHandle <$> po_waitTaskMap s !! t = Some h ∨ h ∈ to_unregister (po_pc s) ∧ t ∈ to_wake (po_pc s);
  wi_handle : ∀ t d, po_waitTaskMap s !! t = Some d → -1 < sd_timerHandle d →
    ∃ st, po_timers s !! sd_timerHandle d = Some st ∧ live_timer st = Some t;
  wi_unreg : ∀ h t, h ∈ to_unregister (po_pc s) → po_timers s !! h ≠ Some (TErased t);
  wi_apart : ∀ h t d, h ∈ to_unregister (po_pc s) → po_waitTaskMap s !! t = Some d → sd_timerHandle d ≠ h;
  wi_range : ∀ h, is_Some (po_timers s !! h) ∨ h ∈ to_unregister (po_pc s) → 0 <= h < po_nextHandle s;
  wi_next : 0 <= po_nextHandle s;
  wi_exit : po_io s = true → po_exitFlag s = true → po_pc s = PExited;
}.

(** What the wake-ups depend on. *)
Record wake_same (s s' : poller) : Prop := {
  ws_map : po_waitTaskMap s' = po_waitTaskMap s;
  ws_timers : po_timers s' = po_timers s;
  ws_next : po_nextHandle s' = po_nextHandle s;
  ws_blocked : po_blocked s' = po_blocked s;
  ws_io : po_io s' = po_io s;
  ws_exit : po_exitFlag s' = po_exitFlag s;
  ws_pc : po_pc s' = po_pc s;
}.

#[local] Instance wake_same_preorder : PreOrder wake_same.
Proof. split; [by intros s; split|]. intros s1 s2 s3 [] []. split; congruence. Qed.

(** What else a change of the masks, the cache and the interest list leaves alone. *)
Record quiet (s s' : poller) : Prop := {
  q_wake : wake_same s s';
  q_sync : po_sync s' = po_sync s;
  q_cnt : po_syncFdCnt s' = po_syncFdCnt s;
  q_return : po_return s' = po_return s;
  q_teardown : po_teardown s' = po_teardown s;
}.

#[local] Instance quiet_preorder : PreOrder quiet.
Proof. split; [by intros s; split|]. intros s1 s2 s3 [H1 ????] [H2 ????]. split; [by transitivity s2|congruence..]. Qed.

(** A change elsewhere, or of the program counter between points where nothing
    is pending. *)
Lemma wake_inv_frame s s' :
  wake_inv s → po_waitTaskMap s' = po_waitTaskMap s → po_timers s' = po_timers s → po_nextHandle s' = po_nextHandle s →
  po_blocked s' = po_blocked s → to_wake (po_pc s') = to_wake (po_pc s) → to_unregister (po_pc s') = to_unregister (po_pc s) →
  (po_io s' = true → po_exitFlag s' = true → po_pc s' = PExited) → wake_inv s'.
Proof. intros [] E1 E2 E3 E4 E5 E6 E7. split; by rewrite ?E1, ?E2, ?E3, ?E4, ?E5, ?E6. Qed.

Lemma wake_inv_same s s' : wake_same s s' → wake_inv s → wake_inv s'.
Proof. intros [] HI. apply (wake_inv_frame s); try congruence. rewrite ws_io0, ws_exit0, ws_pc0. apply HI. Qed.

(** *** Operations that leave them alone *)

Lemma epoll_try_quiet ok op fd e s : quiet s (epoll_try ok op fd e s).
Proof. unfold epoll_try. by destruct (epoll_ctl _ _ _ _ _). Qed.

Lemma ClearMask_quiet t s : quiet s (ClearMaskWakeDataCache t s).
Proof. unfold ClearMaskWakeDataCache. by destruct (po_maskWakeDataMap s !! t). Qed.

Lemma ClearDel_quiet fd s : quiet s (ClearDelFdCache fd s).
Proof.
  unfold ClearDelFdCache. destruct (po_delFdCacheMap s !! fd) as [t|]; [|done].
  unfold ClearMaskWakeDataCacheWithFd. by destruct (po_maskWakeDataMap s !! t).
Qed.

Lemma unmask_quiet ok fd s : quiet s (unmask_fd ok fd s).
Proof.
  unfold unmask_fd. destruct (last _); [|done]. destruct (po_delFdCacheMap s !! fd); [|apply epoll_try_quiet].
  etransitivity; [apply ClearDel_quiet|apply epoll_try_quiet].
Qed.

Lemma fetch_quiet ok t s : quiet s (FetchCachedEventAndDoUnmask ok t s).2.
Proof.
  unfold FetchCachedEventAndDoUnmask. destruct (po_cachedTaskEvents s !! t) as [[|e l]|]; [done| |done]. unfold FetchCachedEvents.
  assert (∀ k r, quiet r.2 (foldl (λ r e, fetch_one ok e r) r k).2) as Hk.
  { induction k as [|e' k IH]; intros [out s0]; simpl; [done|]. etransitivity; [|apply IH]. simpl. case_decide; [done|]. apply unmask_quiet. }
  specialize (Hk (e :: l) ([], s)). destruct (foldl _ _ _) as [out s']. simpl in *. etransitivity; [exact Hk|].
  etransitivity; [|apply ClearMask_quiet]. by split.
Qed.

Lemma cache_quiet ok t l s : quiet s (CacheEventsAndDoMask ok t l s).
Proof.
  unfold CacheEventsAndDoMask. set (s0 := s <| po_cachedTaskEvents ::= _ |>). transitivity s0; [by split|]. clearbody s0.
  revert s0. induction l as [|e l IH]; intros s0; simpl; [done|]. etransitivity; [|apply IH]. unfold cache_one.
  destruct (last _); [|done]. case_decide; [|done]. case_decide; [done|]. set (s1 := s0 <| po_maskWakeDataMap ::= _ |>).
  transitivity s1; [by split|]. destruct (epoll_try_quiet (ok (ev_fd e)) EPOLL_CTL_MOD (ev_fd e) (0, p) s1) as [[] ????]. by split.
Qed.

Lemma release_quiet s : quiet s (ReleaseFdWakeData s).
Proof.
  unfold ReleaseFdWakeData. assert (∀ l, quiet s (foldr release_fd s l)) as Hl.
  { induction l as [|fd l IH]; simpl; [done|]. etransitivity; [exact IH|]. unfold release_fd. by case_decide; [|case_decide]. }
  destruct (po_io _); [done|]. etransitivity; [apply Hl|]. by split.
Qed.

Lemma del_quiet ok fd s : quiet s (DelFdEvent ok fd s).2.
Proof.
  unfold DelFdEvent. pose proof (ClearDel_quiet fd s) as H1. case_decide; [done|]. case_decide; [done|].
  destruct (epoll_ctl _ _ _ _ _); [|done]. etransitivity; [exact H1|]. by split.
Qed.

(** *** Preservation *)

Lemma block_inv s t maxev h tm nh :
  wake_inv s → t ∉ po_blocked s →
  (h = -1 ∧ tm = po_timers s ∧ nh = po_nextHandle s ∨
   h = po_nextHandle s ∧ tm = <[h := TArmed t]> (po_timers s) ∧ nh = po_nextHandle s + 1) →
  ∀ s', po_waitTaskMap s' = <[t := mkSyncData maxev h]> (po_waitTaskMap s) → po_timers s' = tm → po_nextHandle s' = nh →
  po_blocked s' = {[t]} ∪ po_blocked s → po_io s' = po_io s → po_exitFlag s' = po_exitFlag s → po_pc s' = po_pc s → wake_inv s'.
Proof.
  intros HI Hnb Hh s' E1 E2 E3 E4 E5 E6 E7. pose proof HI as [W1 W2 W3 W4 W5 W6 W7 W8 Wa W9 W10 W11].
  assert (po_waitTaskMap s !! t = None ∧ t ∉ to_wake (po_pc s) ∧ ∀ k, po_timers s !! k ≠ Some (TErased t)) as (Ht1 & Ht2 & Ht3).
  { split_and!; [apply eq_None_not_Some| |]; intros; intros ?; apply Hnb, W1; eauto. }
  assert (po_timers s !! po_nextHandle s = None) as Hfresh by (apply eq_None_not_Some; intros H; specialize (W9 _ (or_introl H)); lia).
  assert (Her : ∀ k t', po_timers s' !! k = Some (TErased t') ↔ po_timers s !! k = Some (TErased t')).
  { intros k t'. rewrite E2. destruct Hh as [(_ & -> & _)|(-> & -> & _)]; [done|]. rewrite lookup_insert_Some. split; [intros [[_ ?]|[_ ?]]; done|].
    intros Hk. right. split; [|done]. intros <-. congruence. }
  split; rewrite ?E1, ?E4, ?E5, ?E6, ?E7; try done.
  - intros t'. rewrite elem_of_union, elem_of_singleton, W1, lookup_insert_is_Some'. setoid_rewrite Her. naive_solver.
  - intros t'. rewrite lookup_insert_is_Some'. setoid_rewrite Her. intros [<-|?]; [done|by apply W2].
  - intros t' k. rewrite Her. apply W3.
  - intros k k' t'. rewrite !Her. apply W5.
  - intros k st t' Hk Hl. assert (k = h ∧ -1 < h ∧ t' = t ∨ po_timers s !! k = Some st) as [(-> & _ & ->)|Hk'].
    { rewrite E2 in Hk. destruct Hh as [(_ & -> & _)|(-> & -> & _)]; [by right|]. apply lookup_insert_Some in Hk as [[<- <-]|[_ ?]]; [|by right].
      left. simpl in Hl. split_and!; [done|lia|congruence]. }
    + left. by rewrite lookup_insert_eq.
    + destruct (W6 _ _ _ Hk' Hl) as [Hw|Hw]; [left|by right]. rewrite lookup_insert_ne; [done|]. intros <-. by rewrite Ht1 in Hw.
  - intros t' d Hd Hlt. apply lookup_insert_Some in Hd as [[<- <-]|[Hne Hd]]; simpl in *.
    + destruct Hh as [(-> & _)|(-> & -> & _)]; [lia|]. exists (TArmed t). rewrite E2. by rewrite lookup_insert_eq.
    + destruct (W7 _ _ Hd Hlt) as (st & Hst & Hl). exists st. split; [|done]. rewrite E2. destruct Hh as [(_ & -> & _)|(-> & -> & _)]; [done|].
      rewrite lookup_insert_ne; [done|]. intros Ek. congruence.
  - intros k t'. rewrite Her. apply W8.
  - intros k t' d Hk Hd. apply lookup_insert_Some in Hd as [[<- <-]|[_ Hd]]; [|by eapply Wa]. simpl. specialize (W9 k (or_intror Hk)).
    destruct Hh as [(-> & _)|(-> & _)]; lia.
  - intros k Hk. assert (k = h ∧ -1 < h ∨ is_Some (po_timers s !! k) ∨ k ∈ to_unregister (po_pc s)) as [[-> ?]|Hk'].
    { destruct Hk as [Hk|Hk]; [|by right; right]. rewrite E2 in Hk. destruct Hh as [(_ & -> & _)|(-> & -> & _)]; [by right; left|].
      apply lookup_insert_is_Some' in Hk as [<-|?]; [left; split; [done|lia]|by right; left]. }
    + rewrite E3. destruct Hh as [(-> & _)|(-> & _ & ->)]; lia.
    + specialize (W9 _ Hk'). rewrite E3. destruct Hh as [(_ & _ & ->)|(_ & _ & ->)]; lia.
  - rewrite E3. destruct Hh as [(_ & _ & ->)|(_ & _ & ->)]; lia.
Qed.

Lemma wait_wake ok vec t maxevents timeout s :
  wake_inv s → t ∉ po_blocked s → wake_inv (WaitFdEvent ok vec t maxevents timeout s).2.
Proof.
  intros HI Hnb. unfold WaitFdEvent. destruct (_ || _); [done|]. pose proof (fetch_quiet ok t s) as HS.
  destruct (FetchCachedEventAndDoUnmask ok t s) as [out s1]. simpl in HS. pose proof (wake_inv_same _ _ (q_wake _ _ HS) HI) as H1.
  rewrite <-(ws_blocked _ _ (q_wake _ _ HS)) in Hnb. case_decide; simpl; [by apply (wake_inv_same s1)|].
  destruct (po_waitTaskMap s1 !! t) eqn:Ew; [done|].
  case_decide; simpl; [eapply (block_inv s1 t maxevents (po_nextHandle s1)); try done; by right
                      |eapply (block_inv s1 t maxevents (-1)); try done; by left].
Qed.

(** A task goes from the map to the poller thread. *)
Lemma take_inv s t d hs ts :
  wake_inv (s <| po_pc := PUnreg hs ts |>) → po_waitTaskMap s !! t = Some d →
  ∀ s', po_waitTaskMap s' = delete t (po_waitTaskMap s) → po_timers s' = po_timers s → po_nextHandle s' = po_nextHandle s →
  po_blocked s' = po_blocked s → po_io s' = po_io s → po_exitFlag s' = po_exitFlag s →
  po_pc s' = PUnreg (if decide (-1 < sd_timerHandle d) then sd_timerHandle d :: hs else hs) (t :: ts) → wake_inv s'.
Proof.
  intros [W1 W2 W3 W4 W5 W6 W7 W8 Wa W9 W10 W11] Hd s' E1 E2 E3 E4 E5 E6 E7. simpl in *.
  destruct (W2 t) as [Ht1 Ht2]; [done|]. set (hs' := if decide (-1 < sd_timerHandle d) then _ else _) in *.
  assert (Hhs : ∀ h, h ∈ hs → h ∈ hs') by (intros h Hh; unfold hs'; case_decide; [by right|done]).
  split; rewrite ?E1, ?E2, ?E3, ?E4, ?E5, ?E6, ?E7; simpl; try done.
  - intros t'. rewrite W1, lookup_delete_is_Some, elem_of_cons. destruct (decide (t' = t)) as [->|]; naive_solver.
  - intros t'. rewrite lookup_delete_is_Some, not_elem_of_cons. intros [Hne Hs]. destruct (W2 t' Hs). naive_solver.
  - intros t' h [-> |Hin]%elem_of_cons; [apply Ht2|by apply W3].
  - by apply NoDup_cons.
  - intros h st t' Hh Hl. destruct (W6 _ _ _ Hh Hl) as [Hw|[Hw1 Hw2]]; [|right; split; [by apply Hhs|by right]].
    destruct (decide (t' = t)) as [->|Hne]; [right|left; by rewrite lookup_delete_ne]. rewrite Hd in Hw. simpl in Hw. simplify_eq.
    split; [|left]. unfold hs'. rewrite decide_True; [left|]. assert (is_Some (po_timers s !! sd_timerHandle d)) as Hs by done.
    specialize (W9 _ (or_introl Hs)). lia.
  - intros t' d' [Hne Hd']%lookup_delete_Some. by apply W7.
  - intros h t' Hh Hte. unfold hs' in Hh. case_decide; [|by eapply W8]. apply elem_of_cons in Hh as [->|Hh]; [|by eapply W8].
    destruct (W7 _ _ Hd ltac:(done)) as (st & Hst & Hl). rewrite Hte in Hst. simplify_eq.
  - intros h t' d' Hh [Hne Hd']%lookup_delete_Some. unfold hs' in Hh. case_decide; [|by eapply Wa]. apply elem_of_cons in Hh as [->|Hh]; [|by eapply Wa].
    intros E. destruct (W7 _ _ Hd ltac:(done)) as (st & Hst & Hl). destruct (W7 _ _ Hd' ltac:(lia)) as (st' & Hst' & Hl'). congruence.
  - intros h [Hh|Hh]; [apply W9; by left|]. unfold hs' in Hh. case_decide; [|apply W9; by right]. apply elem_of_cons in Hh as [->|Hh]; [|apply W9; by right].
    destruct (W7 _ _ Hd ltac:(done)) as (st & Hst & Hl). apply W9. left. by rewrite Hst.
  - intros Hio Hex. specialize (W11 Hio Hex). done.
Qed.

Lemma WakeSync_wake ok l s sync : wake_inv s → po_pc s = PProc [] sync → wake_inv (WakeSyncTask ok l s).
Proof.
  intros HI Hpc. unfold WakeSyncTask.
  assert (H0 : wake_inv (s <| po_pc := PUnreg [] [] |>)).
  { apply (wake_inv_frame s); try done; rewrite ?Hpc; try done. intros Hio Hex. pose proof (wi_exit _ HI Hio Hex). congruence. }
  assert (∀ hs ts s', foldr (wake_sync_one ok) ([], [], s) l = (hs, ts, s') → wake_inv (s' <| po_pc := PUnreg hs ts |>)) as H.
  { induction l as [|[t evs] l IH]; intros hs ts s'; simpl; [by intros [= <- <- <-]|].
    destruct (foldr _ _ l) as [[hs1 ts1] s1]. simpl. specialize (IH _ _ _ eq_refl).
    destruct (po_waitTaskMap s1 !! t) as [d|] eqn:Ew; intros [= <- <- <-].
    - eapply (take_inv s1 t d hs1 ts1); done.
    - destruct (q_wake _ _ (cache_quiet ok t evs s1)). eapply wake_inv_same; [|exact IH]. by split. }
  destruct (foldr _ _ l) as [[hs ts] s'] eqn:E. by apply H.
Qed.

Lemma unreg_wake h hs ts s s' :
  wake_inv s → po_pc s = PUnreg (h :: hs) ts → unregister_timer h s = Some s' → wake_inv (s' <| po_pc := PUnreg hs ts |>).
Proof.
  intros HI Hpc Hu. destruct HI as [W1 W2 W3 W4 W5 W6 W7 W8 Wa W9 W10 W11]. rewrite Hpc in *. simpl in *.
  assert (po_timers s' = delete h (po_timers s) ∧ wake_same (s <| po_timers := delete h (po_timers s) |>) s') as [Et Hs].
  { unfold unregister_timer in Hu. destruct (po_timers s !! h) as [[]|] eqn:E; try done; injection Hu as <-; [by split|].
    assert (delete h (po_timers s) = po_timers s) as Ed by (by apply delete_id). rewrite Ed. by split. }
  destruct Hs as [S1 _ S3 S4 S5 S6 S7]. simpl in *.
  assert (Hsub : ∀ k st, po_timers s' !! k = Some st → k ≠ h ∧ po_timers s !! k = Some st).
  { intros k st. rewrite Et. rewrite lookup_delete_Some. naive_solver. }
  assert (Hno : ∀ t, po_timers s !! h ≠ Some (TErased t)) by (intros t; apply W8; left).
  assert (Her : ∀ k t, po_timers s' !! k = Some (TErased t) ↔ po_timers s !! k = Some (TErased t)).
  { intros k t. rewrite Et, lookup_delete_Some. split; [by intros [_ ?]|]. intros Hk. split; [|done]. intros <-. by apply (Hno t). }
  split; simpl; rewrite ?S1, ?S3, ?S4, ?S5, ?S6; try done.
  - intros t. rewrite W1. by setoid_rewrite Her.
  - intros t Ht. setoid_rewrite Her. by apply W2.
  - intros t k. rewrite Her. apply W3.
  - intros k k' t. rewrite !Her. apply W5.
  - intros k st t [Hne Hk]%Hsub Hl. destruct (W6 _ _ _ Hk Hl) as [?|[[?|?]%elem_of_cons ?]]; [by left|done|by right].
  - intros t d Hd Hlt. destruct (W7 _ _ Hd Hlt) as (st & Hst & Hl). exists st. split; [|done]. rewrite Et, lookup_delete_ne; [done|].
    apply not_eq_sym. apply (Wa h t d); [left|done].
  - intros k t Hk. rewrite Her. apply W8. by right.
  - intros k t d Hk. apply Wa. by right.
  - intros k [[st [_ Hk]%Hsub]|Hk]; apply W9; [left; eauto|right; by right].
  - intros Hio Hex. specialize (W11 Hio Hex). done.
Qed.

Lemma wake_wake t ts s s' :
  wake_inv s → po_pc s = PWake (t :: ts) → WakeTask t s = Some s' → wake_inv (s' <| po_pc := PWake ts |>).
Proof.
  intros [W1 W2 W3 W4 W5 W6 W7 W8 Wa W9 W10 W11] Hpc Hw. rewrite Hpc in *. simpl in *. unfold WakeTask in Hw. case_decide; simplify_eq.
  apply NoDup_cons in W4 as [Hni Hnd]. split; simpl; try done.
  - intros t'. rewrite elem_of_difference, elem_of_singleton, W1, elem_of_cons. split; [naive_solver|].
    intros Hor. split; [naive_solver|]. intros ->. destruct Hor as [Hm|[Hm|[h Hm]]]; [|done|].
    + destruct (W2 t Hm) as [Hx _]. apply Hx. left.
    + by apply (W3 t h); [left|].
  - intros t' Ht'. destruct (W2 t' Ht') as [? ?]. split; [|done]. intros ?. by apply H0; right.
  - intros t' h Ht'. apply W3. by right.
  - intros h st t' Hh Hl. destruct (W6 _ _ _ Hh Hl) as [?|[?%not_elem_of_nil _]]; [by left|done].
  - intros Hio Hex. specialize (W11 Hio Hex). done.
Qed.

Lemma fire_wake h t s : wake_inv s → po_timers s !! h = Some (TArmed t) → wake_inv (s <| po_timers ::= <[h := TFired t]> |>).
Proof.
  intros [W1 W2 W3 W4 W5 W6 W7 W8 Wa W9 W10 W11] Hh. simpl.
  assert (Her : ∀ k t', <[h := TFired t]> (po_timers s) !! k = Some (TErased t') ↔ po_timers s !! k = Some (TErased t')).
  { intros k t'. rewrite lookup_insert_Some. split; [naive_solver|]. intros Hk. right. split; [|done]. intros <-. congruence. }
  split; simpl; try done.
  - intros t'. rewrite W1. by setoid_rewrite Her.
  - intros t' Ht'. setoid_rewrite Her. by apply W2.
  - intros t' k. rewrite Her. apply W3.
  - intros k k' t'. rewrite !Her. apply W5.
  - intros k st t' [[<- <-]|[Hne Hk]]%lookup_insert_Some Hl; [by apply (W6 _ (TArmed t))|by eapply W6].
  - intros t' d Hd Hlt. destruct (W7 _ _ Hd Hlt) as (st & Hst & Hl). destruct (decide (sd_timerHandle d = h)) as [E|Hne].
    + exists (TFired t). rewrite E, lookup_insert_eq. rewrite E, Hh in Hst. by simplify_eq.
    + exists st. by rewrite lookup_insert_ne.
  - intros k t' Hk. rewrite Her. by apply W8.
  - intros k [Hk|Hk]; apply W9; [|by right]. left. apply lookup_insert_is_Some' in Hk as [<-|?]; [by rewrite Hh|done].
Qed.

(** A timeout ends the wait it was armed for, and no other. *)
Lemma timeout_own h t d s :
  wake_inv s → po_timers s !! h = Some (TFired t) → po_waitTaskMap s !! t = Some d → sd_timerHandle d = h.
Proof.
  intros HI Hh Hd. destruct (wi_timer _ HI h (TFired t) t Hh eq_refl) as [Hw|[_ Hw]]; [rewrite Hd in Hw; simpl in Hw; congruence|].
  destruct (wi_map _ HI t) as [? _]; [by rewrite Hd|done].
Qed.

Lemma timeout_wake_inv h t s : wake_inv s → po_timers s !! h = Some (TFired t) → wake_inv (WakeTimeoutTask h t s).
Proof.
  intros HI Hh. pose proof HI as [W1 W2 W3 W4 W5 W6 W7 W8 Wa W9 W10 W11]. unfold WakeTimeoutTask.
  destruct (po_waitTaskMap s !! t) as [d|] eqn:Ed.
  - pose proof (timeout_own h t d s HI Hh Ed) as Hown. destruct (W2 t) as [Ht1 Ht2]; [by rewrite Ed|]. split; simpl; try done.
    + intros t'. rewrite W1, lookup_delete_is_Some. setoid_rewrite lookup_insert_Some. destruct (decide (t' = t)) as [->|Hne].
      * split; [|by left; rewrite Ed]. intros _. right. right. exists h. by left.
      * split; [|naive_solver]. intros [?|[?|[k Hk]]]; [by left|by right; left|]. right. right. exists k. right. split; [|done]. intros <-. congruence.
    + intros t' [Hne Ht']%lookup_delete_is_Some. destruct (W2 t' Ht') as [? Hx]. split; [done|]. intros k [[_ [= ->]]|[_ Hk]]%lookup_insert_Some; [done|by apply (Hx k)].
    + intros t' k Ht' [[_ [= ->]]|[_ Hk]]%lookup_insert_Some; [done|by apply (W3 t' k)].
    + intros k k' t' [[<- E]|[Hk1 Hk]]%lookup_insert_Some [[<- E']|[Hk1' Hk']]%lookup_insert_Some; [done|..|by eapply W5];
        simplify_eq; exfalso; by eapply Ht2.
    + intros k st t' [[<- <-]|[Hne Hk]]%lookup_insert_Some Hl; [done|]. destruct (W6 _ _ _ Hk Hl) as [Hw|Hw]; [|by right].
      left. destruct (decide (t' = t)) as [->|]; [|by rewrite lookup_delete_ne]. rewrite Ed in Hw. simpl in Hw. congruence.
    + intros t' d' [Hne Hd']%lookup_delete_Some Hlt. destruct (W7 _ _ Hd' Hlt) as (st & Hst & Hl). exists st. split; [|done].
      rewrite lookup_insert_ne; [done|]. intros E. rewrite <-E, Hh in Hst. by simplify_eq/=.
    + intros k t' Hk [[<- _]|[_ Hk']]%lookup_insert_Some; [by apply (Wa h t d)|by apply (W8 k t')].
    + intros k t' d' Hk [_ Hd']%lookup_delete_Some. by eapply Wa.
    + intros k [Hk|Hk]; apply W9; [|by right]. left. apply lookup_insert_is_Some' in Hk as [<-|?]; [by rewrite Hh|done].
  - assert (Her : ∀ k t', delete h (po_timers s) !! k = Some (TErased t') ↔ po_timers s !! k = Some (TErased t')).
    { intros k t'. rewrite lookup_delete_Some. split; [by intros [_ ?]|]. intros Hk. split; [|done]. intros <-. congruence. }
    split; simpl; try done.
    + intros t'. rewrite W1. by setoid_rewrite Her.
    + intros t' Ht'. setoid_rewrite Her. by apply W2.
    + intros t' k. rewrite Her. apply W3.
    + intros k k' t'. rewrite !Her. apply W5.
    + intros k st t' [_ Hk]%lookup_delete_Some. by apply W6.
    + intros t' d' Hd' Hlt. destruct (W7 _ _ Hd' Hlt) as (st & Hst & Hl). exists st. split; [|done]. rewrite lookup_delete_ne; [done|].
      intros E. rewrite <-E, Hh in Hst. simplify_eq/=.
    + intros k t' Hk. rewrite Her. by apply W8.
    + intros k [Hk|Hk]; apply W9; [|by right]. left. by apply lookup_delete_is_Some in Hk as [_ ?].
Qed.

Lemma timeout_done_inv h t s s' :
  wake_inv s → po_timers s !! h = Some (TErased t) → WakeTask t s = Some s' → wake_inv (s' <| po_timers ::= delete h |>).
Proof.
  intros [W1 W2 W3 W4 W5 W6 W7 W8 Wa W9 W10 W11] Hh Hw. unfold WakeTask in Hw. case_decide; simplify_eq. split; simpl; try done.
  - intros t'. rewrite elem_of_difference, elem_of_singleton, W1. setoid_rewrite lookup_delete_Some. split.
    + intros [[?|[?|[k Hk]]] Hne]; [by left|by right; left|]. right. right. exists k. split; [|done]. intros <-. congruence.
    + intros Hor. split; [naive_solver|]. intros ->. destruct Hor as [Hm|[Hm|(k & Hne & Hk)]].
      * destruct (W2 t Hm) as [_ Hx]. by apply (Hx h).
      * by apply (W3 t h).
      * by apply Hne, (W5 h k t).
  - intros t' Ht'. destruct (W2 t' Ht') as [? Hx]. split; [done|]. intros k [_ Hk]%lookup_delete_Some. by apply (Hx k).
  - intros t' k Ht' [_ Hk]%lookup_delete_Some. by apply (W3 t' k).
  - intros k k' t' [_ Hk]%lookup_delete_Some [_ Hk']%lookup_delete_Some. by eapply W5.
  - intros k st t' [_ Hk]%lookup_delete_Some. by apply W6.
  - intros t' d' Hd' Hlt. destruct (W7 _ _ Hd' Hlt) as (st & Hst & Hl). exists st. split; [|done]. rewrite lookup_delete_ne; [done|].
    intros E. rewrite <-E, Hh in Hst. simplify_eq/=.
  - intros k t' Hk [_ Hk']%lookup_delete_Some. by apply (W8 k t').
  - intros k [Hk|Hk]; apply W9; [|by right]. left. by apply lookup_delete_is_Some in Hk as [_ ?].
Qed.

Lemma ThreadInit_wake s : wake_inv s → po_io s = true → po_exitFlag s = true → wake_inv (ThreadInit s).
Proof. intros HI Hio Hex. apply (wake_inv_frame s); try done; by rewrite (wi_exit _ HI Hio Hex). Qed.

(** A poller thread that is running has not been told to exit. *)
Lemma goto_wake s pc : wake_inv s → po_pc s ≠ PExited → to_wake pc = to_wake (po_pc s) → to_unregister pc = to_unregister (po_pc s) →
  wake_inv (s <| po_pc := pc |>).
Proof.
  intros HI Hpc E1 E2. apply (wake_inv_frame s); try done. intros Hio Hex. destruct (Hpc (wi_exit _ HI Hio Hex)).
Qed.

Lemma process_wake ok ev p rest sync s s' :
  wake_inv s → po_pc s = PProc ((ev, p) :: rest) sync → process_event ok ev p rest sync s = Some s' → wake_inv s'.
Proof.
  intros HI Hpc Hp. assert (∀ sy, wake_inv (s <| po_pc := PProc rest sy |>)) as Hr by (intros; apply goto_wake; by rewrite ?Hpc).
  unfold process_event in Hp. destruct (po_heap s !! p) as [d|]; simpl in Hp; [|done]. destruct (pd_mode d).
  - injection Hp as <-. eapply wake_inv_same; [|exact (Hr sync)]. by split.
  - destruct (epoll_ctl _ _ _ _ _); [|injection Hp as <-; apply Hr]. unfold WakeTask_sync in Hp. simpl in Hp.
    destruct (po_sync s !! _) as [[q th]|]; simpl in Hp; [|done]. injection Hp as <-. eapply wake_inv_same; [|exact (Hr sync)]. by split.
  - injection Hp as <-. apply Hr.
  - destruct (_ || _); [|injection Hp as <-; apply Hr]. injection Hp as <-. case_decide; [|apply Hr].
    unfold CacheMaskFdAndEpollDel. simpl. destruct (po_maskWakeDataMap s !! _); [|apply Hr].
    eapply wake_inv_same; [etransitivity; [apply q_wake, epoll_try_quiet|by split]|apply Hr].
Qed.

Lemma poller_step_wake s s' : poller_step s s' → wake_inv s → wake_inv s'.
Proof.
  destruct 1; intros HI; try (apply (wake_inv_same s); [by split|done]); try (apply goto_wake; by rewrite ?H).
  - unfold AddFdEvent. set (s1 := s <| po_next := Pos.succ (po_next s) |>). assert (wake_inv s1) as H1 by (by apply (wake_inv_same s)).
    simpl. destruct (po_teardown s); [done|]. assert (wake_inv (if po_io s && po_exitFlag s then ThreadInit s1 else s1)) as H2.
    { destruct (po_io s) eqn:Eio; simpl; [|done]. destruct (po_exitFlag s) eqn:Eex; [by apply ThreadInit_wake|done]. }
    set (s2 := if _ && _ then _ else _) in *. clearbody s2. destruct (epoll_ctl _ _ _ _ _); [|done]. by apply (wake_inv_same s2).
  - eapply wake_inv_same; [apply q_wake, del_quiet|done].
  - apply (wake_inv_frame s); try done; rewrite ?H0; try done. simpl. congruence.
  - unfold ClearCachedEvents. destruct (po_cachedTaskEvents s !! t); [|done]. eapply wake_inv_same; [apply q_wake, ClearMask_quiet|]. by apply (wake_inv_same s).
  - apply wait_wake; [done|]. by destruct H.
  - unfold WaitFdEvent_sync. destruct (_ || _); [done|]. assert (wake_inv (if po_exitFlag s then ThreadInit s else s)) as H2.
    { destruct (po_exitFlag s) eqn:Eex; [by apply ThreadInit_wake|done]. }
    set (s2 := if po_exitFlag s then _ else _) in *. clearbody s2. destruct (epoll_ctl _ _ _ _ _); by apply (wake_inv_same s2).
  - by eapply process_wake.
  - by eapply WakeSync_wake.
  - by eapply unreg_wake.
  - by eapply wake_wake.
  - apply goto_wake; [eapply wake_inv_same; [apply q_wake, release_quiet|done]|..]; by rewrite (ws_pc _ _ (q_wake _ _ (release_quiet s))), H.
  - unfold Run_tail. destruct (po_io s) eqn:Eio; simpl; [|apply (wake_inv_frame s); simpl; by rewrite ?H].
    destruct (_ || _); [apply (wake_inv_frame s); simpl; by rewrite ?H|]. apply goto_wake; by rewrite ?H.
  - by apply fire_wake.
  - by apply timeout_wake_inv.
  - by eapply timeout_done_inv.
Qed.
End PollerWake.
