(* ===== verification/PollerLive.v ===== *)
(** * The poller thread is alive, and what the pollers guarantee

    The thread of the IO poller ([IOPoller::Run]) ends by itself when nothing is
    registered and is started again by the next registration.  It is shown to run
    whenever a descriptor is registered or a coroutine waits for one.  The theorems
    on the records, the wake-ups and the cached events of [PollerSafety] follow,
    and the runs in which they fail: [EPOLL_CTL_MOD], threads blocked on one
    descriptor, hang-ups. *)

From S2P Require Import Prelude Poller PollerSafety.
Import Poller PollerMem PollerWake.

Module PollerLive.

(** Steps of runs in which only coroutines wait for one descriptor. *)
Definition co_only_step (s s' : poller) : Prop := poller_step s s' ∧ map_Forall (λ _ x, x.2 = false) (po_sync s').

(** A thread that has ended was told to, or had nothing left to do. *)
Definition rightly_ended (s : poller) : Prop :=
  po_exitFlag s = true ∧ (po_teardown s = true ∨ po_wakeDataMap s = ∅ ∧ po_sync s = ∅).

Record alive_inv (s : poller) : Prop := {
  ai_co : map_Forall (λ _ x, x.2 = false) (po_sync s);
  ai_return : po_return s = ∅;
  ai_cnt : po_syncFdCnt s = u64 (Z.of_nat (size (po_sync s)));
  ai_exit : po_io s = true → po_pc s = PExited → rightly_ended s;
}.

Lemma alive_frame s s' :
  alive_inv s → po_sync s' = po_sync s → po_syncFdCnt s' = po_syncFdCnt s → po_return s' = po_return s →
  (po_io s' = true → po_pc s' = PExited → rightly_ended s') → alive_inv s'.
Proof. intros [] E1 E2 E3 H. split; rewrite ?E1, ?E2, ?E3; done. Qed.

Lemma alive_same s s' :
  alive_inv s → po_sync s' = po_sync s → po_syncFdCnt s' = po_syncFdCnt s → po_return s' = po_return s → po_io s' = po_io s →
  po_exitFlag s' = po_exitFlag s → po_pc s' = po_pc s → po_teardown s' = po_teardown s → po_wakeDataMap s' = po_wakeDataMap s →
  alive_inv s'.
Proof. intros HI E1 E2 E3 E4 E5 E6 E7 E8. apply (alive_frame s); try done. unfold rightly_ended. rewrite E1, E4, E5, E6, E7, E8. apply HI. Qed.

Lemma alive_quiet s s' :
  quiet s s' → po_wakeDataMap s' = po_wakeDataMap s ∨ po_pc s' ≠ PExited → alive_inv s → alive_inv s'.
Proof.
  intros [[] ????] Hw HI. apply (alive_frame s); try done. intros Hio Hpc. unfold rightly_ended.
  destruct Hw as [->|]; [|done]. destruct (ai_exit _ HI) as [? ?]; [congruence..|]. split; [congruence|]. by rewrite q_teardown0, q_sync0.
Qed.

Lemma fetch_wakeDataMap ok t s : po_wakeDataMap (FetchCachedEventAndDoUnmask ok t s).2 = po_wakeDataMap s.
Proof.
  unfold FetchCachedEventAndDoUnmask. destruct (po_cachedTaskEvents s !! t) as [[|e l]|]; [done| |done]. unfold FetchCachedEvents.
  assert (∀ k r, po_wakeDataMap (foldl (λ r e, fetch_one ok e r) r k).2 = po_wakeDataMap r.2) as Hk.
  { induction k as [|e' k IH]; intros [out s0]; simpl; [done|]. rewrite IH. simpl. case_decide; [done|]. apply (unmask_fetch ok). }
  specialize (Hk (e :: l) ([], s)). destruct (foldl _ _ _) as [out s']. simpl in *.
  rewrite (mo_wake _ _ (ClearMaskWakeDataCache_mask t _)). done.
Qed.

Lemma del_wakeDataMap ok fd s : po_wakeDataMap (DelFdEvent ok fd s).2 = po_wakeDataMap s.
Proof.
  pose proof (mo_wake _ _ (ClearDelFdCache_mask fd s)). unfold DelFdEvent. case_decide; [done|]. case_decide; [done|].
  by destruct (epoll_ctl _ _ _ _ _).
Qed.

Lemma wait_alive ok vec t maxevents timeout s : alive_inv s → alive_inv (WaitFdEvent ok vec t maxevents timeout s).2.
Proof.
  intros HI. unfold WaitFdEvent. destruct (_ || _); [done|].
  pose proof (fetch_quiet ok t s) as HS. pose proof (fetch_wakeDataMap ok t s) as Hw.
  destruct (FetchCachedEventAndDoUnmask ok t s) as [out s1]. simpl in *.
  assert (alive_inv s1) as H1 by (eapply alive_quiet; eauto).
  case_decide; [by apply (alive_frame s1), H1|]. destruct (po_waitTaskMap s1 !! t); [done|].
  case_decide; by apply (alive_frame s1), H1.
Qed.

Lemma WakeSync_alive ok l s sync : po_pc s = PProc [] sync → alive_inv s → alive_inv (WakeSyncTask ok l s).
Proof.
  intros Hpc HI. unfold WakeSyncTask.
  assert (∀ s', (foldr (wake_sync_one ok) ([], [], s) l).2 = s' →
    po_sync s' = po_sync s ∧ po_syncFdCnt s' = po_syncFdCnt s ∧ po_return s' = po_return s) as H.
  { induction l as [|[t evs] l IH]; simpl; [by intros ? <-|]. destruct (foldr _ _ l) as [[hs1 ts1] s1]. simpl in *.
    destruct (IH _ eq_refl) as (<- & <- & <-). destruct (po_waitTaskMap s1 !! t); intros ? <-; simpl; [done|].
    by destruct (cache_quiet ok t evs s1). }
  destruct (foldr _ _ l) as [[hs ts] s'] eqn:E. destruct (H _ eq_refl) as (? & ? & ?). by apply (alive_frame s).
Qed.

(** The waiting coroutines are counted exactly. *)
Lemma sync_size s : mem_inv s → few_records s → Z.of_nat (size (po_sync s)) < 2 ^ 31.
Proof.
  intros HI Hf. rewrite <-length_map_to_list, <-(length_fmap (λ x, x.2.1)). eapply Z.lt_le_trans; [|exact Hf]. apply NoDup_pos_length.
  - apply NoDup_fmap_2_strong; [|apply NoDup_map_to_list]. intros [t [p th]] [t' [p' th']] Ht%elem_of_map_to_list Ht'%elem_of_map_to_list E.
    simpl in E. subst p'. destruct (mi_sync _ HI _ _ _ Ht) as (d & Hd & _ & <-). destruct (mi_sync _ HI _ _ _ Ht') as (d' & Hd' & _ & <-).
    congruence.
  - intros p ([t [q th]] & -> & Ht%elem_of_map_to_list)%list_elem_of_fmap. destruct (mi_sync _ HI _ _ _ Ht) as (d & Hd & _).
    by eapply mi_next.
Qed.

Lemma sync_wait_alive ok th fd t s :
  mem_inv s → few_records s → po_io s = true → po_sync s !! t = None → alive_inv s →
  map_Forall (λ _ x, x.2 = false) (po_sync (WaitFdEvent_sync ok th fd t s)) → alive_inv (WaitFdEvent_sync ok th fd t s).
Proof.
  intros HM Hf Hio Ht HI. unfold WaitFdEvent_sync. destruct (_ || _); [done|].
  set (s2 := if po_exitFlag s then ThreadInit s else s).
  assert (alive_inv s2 ∧ po_sync s2 = po_sync s ∧ po_syncFdCnt s2 = po_syncFdCnt s ∧ po_pc s2 ≠ PExited) as (H2 & Es & Ec & Hpc).
  { unfold s2. destruct (po_exitFlag s) eqn:Eex; [split_and!; [by apply (alive_frame s)|done..]|].
    split_and!; [done..|]. intros Hpc. destruct (ai_exit _ HI Hio Hpc). congruence. }
  clearbody s2. destruct (epoll_ctl _ _ _ _ _); intros Hco; [|by apply (alive_frame s2)]. destruct H2 as [C1 C2 C3 C4]. split; simpl.
  - exact Hco.
  - done.
  - rewrite Es, Ec, (ai_cnt _ HI). rewrite map_size_insert_None by done. pose proof (sync_size s HM Hf).
    unfold u64, uw. rewrite Zplus_mod_idemp_l. f_equal. lia.
  - done.
Qed.

Lemma process_alive ok ev p rest sync s s' :
  mem_inv s → few_records s → po_pc s = PProc ((ev, p) :: rest) sync → process_event ok ev p rest sync s = Some s' →
  alive_inv s → alive_inv s'.
Proof.
  intros HM Hf Hpc Hp HI. assert (∀ sy, alive_inv (s <| po_pc := PProc rest sy |>)) as Hr by (intros; by apply (alive_frame s)).
  unfold process_event in Hp. destruct (po_heap s !! p) as [d|] eqn:Ed; simpl in Hp; [|done]. destruct (pd_mode d) eqn:Em.
  - injection Hp as <-. by apply (alive_frame s).
  - destruct (epoll_ctl _ _ _ _ _); [|injection Hp as <-; apply Hr]. unfold WakeTask_sync in Hp. simpl in Hp.
    destruct (po_sync s !! _) as [[q th]|] eqn:Es; simpl in Hp; [|done]. injection Hp as <-.
    assert (th = false) as -> by apply (ai_co _ HI _ _ Es). destruct HI as [C1 C2 C3 C4]. split; simpl; [by apply map_Forall_delete|done| |done].
    assert (size (po_sync s) ≠ 0%nat) as Hne by (intros E%map_size_empty_iff; by rewrite E, lookup_empty in Es).
    rewrite C3, map_size_delete, Es. pose proof (sync_size s HM Hf). unfold u64, uw. rewrite Zminus_mod_idemp_l. f_equal. lia.
  - injection Hp as <-. apply Hr.
  - destruct (_ || _); [|injection Hp as <-; apply Hr]. injection Hp as <-. case_decide; [|apply Hr].
    unfold CacheMaskFdAndEpollDel. simpl. destruct (po_maskWakeDataMap s !! _); [|apply Hr].
    match goal with |- context [epoll_try ?a ?b ?c ?d ?x] => destruct (epoll_try_quiet a b c d x) as [[] ????]; set (s1 := x) in * end.
    apply (alive_frame s1); [apply Hr|done..|]. simpl. by rewrite ws_pc0.
Qed.

Lemma co_only_step_alive s s' :
  co_only_step s s' → few_records s → mem_inv s → alive_inv s → alive_inv s'.
Proof.
  intros [Hstep Hco] Hf HM HI. destruct Hstep; try (by apply (alive_frame s)); try (by apply (alive_same s)).
  - unfold AddFdEvent. set (s1 := s <| po_next := Pos.succ (po_next s) |>). simpl. destruct (po_teardown s) eqn:Etd; [by apply (alive_same s)|].
    set (s2 := if _ && _ then _ else _).
    assert (alive_inv s2 ∧ (po_io s2 = true → po_pc s2 ≠ PExited)) as [H2 Hpc].
    { unfold s2. destruct (po_io s) eqn:Eio; simpl; [|split; [by apply (alive_same s)|simpl; congruence]].
      destruct (po_exitFlag s) eqn:Eex; [by split; [apply (alive_frame s)|]|]. split; [by apply (alive_same s)|].
      intros _ Hpc. destruct (ai_exit _ HI Eio Hpc). congruence. }
    clearbody s2. destruct (epoll_ctl _ _ _ _ _); [|done]. apply (alive_frame s2); [done..|]. intros Hio ?. by destruct (Hpc Hio).
  - eapply alive_quiet; [apply del_quiet|left; apply del_wakeDataMap|done].
  - apply (alive_frame s); [done..|]. intros Hio Hpc. destruct (ai_exit _ HI Hio Hpc). split; [done|by left].
  - unfold ClearCachedEvents. destruct (po_cachedTaskEvents s !! t); [|done].
    eapply alive_quiet; [apply ClearMask_quiet|left; apply mo_wake, ClearMaskWakeDataCache_mask|]. by apply (alive_same s).
  - by apply wait_alive.
  - destruct H0 as (_ & ? & _). by apply sync_wait_alive.
  - rewrite (ai_return _ HI) in H. set_solver.
  - by eapply process_alive.
  - by eapply WakeSync_alive.
  - unfold unregister_timer in H0. destruct (po_timers s !! h) as [[]|]; try done; injection H0 as <-; by apply (alive_frame s).
  - unfold WakeTask in H0. case_decide; [|done]. injection H0 as <-. by apply (alive_frame s).
  - destruct (release_quiet s) as [[] ????]. by apply (alive_frame s).
  - unfold Run_tail. destruct (po_io s) eqn:Eio; simpl; [|by apply (alive_frame s); [done..|simpl; congruence]].
    destruct (po_teardown s) eqn:Etd; simpl; [apply (alive_frame s); [done..|]; intros _ _; split; [done|by left]|].
    case_bool_decide as Hz; [|by apply (alive_frame s)]. apply (alive_frame s); [done..|]. intros _ _. split; [done|right].
    split; [apply Hz|]. destruct Hz as (_ & _ & Hz). rewrite (ai_cnt _ HI) in Hz. pose proof (sync_size s HM Hf). unfold u64 in Hz. rewrite uw_small in Hz by lia. apply map_size_empty_iff. simpl. lia.
  - unfold WakeTimeoutTask. destruct (po_waitTaskMap s !! t); by apply (alive_same s).
  - unfold WakeTask in H0. case_decide; [|done]. injection H0 as <-. by apply (alive_same s).
Qed.

(** *** Reachable states *)

Lemma ctor_mem io : mem_inv (BasePoller_ctor io).
Proof.
  assert (∀ fd, wakes (BasePoller_ctor io) fd = []) as Hw by (intros fd; unfold wakes; simpl; by rewrite lookup_empty).
  assert (∀ fd, delCnt (BasePoller_ctor io) fd = 0) as Hc by (intros fd; unfold delCnt; simpl; by rewrite lookup_empty).
  assert (∀ p d, po_heap (BasePoller_ctor io) !! p = Some d → p = wakeData ∧ d = mkPollerData WAKEUP WAKE_FD 0 1) as Hh
    by (intros p d; simpl; rewrite lookup_singleton_Some; intros [<- <-]; done).
  split.
  - intros fd ev p H. simpl in H. apply lookup_singleton_Some in H as [<- [= <- <-]]. exists (mkPollerData WAKEUP WAKE_FD 0 1). by split.
  - intros fd p. rewrite Hw. by intros ?%not_elem_of_nil.
  - intros fd. rewrite Hw. constructor.
  - intros fd. rewrite Hw, Hc. done.
  - intros t p th H. simpl in H. by rewrite lookup_empty in H.
  - intros p d Hd. apply Hh in Hd as [-> ->]. done.
  - intros t l e H. simpl in H. by rewrite lookup_empty in H.
  - intros p d Hd. apply Hh in Hd as [-> ->]. done.
  - done.
  - intros fd n H. simpl in H. by rewrite lookup_empty in H.
Qed.


Lemma ctor_alive io : alive_inv (BasePoller_ctor io).
Proof. split; [apply map_Forall_empty|done|done|]. intros _ _. split; [done|by right]. Qed.

Lemma few_records_step s s' : poller_step s s' → few_records s' → few_records s.
Proof. intros H%poller_step_next. unfold few_records. lia. Qed.



Lemma reach_alive io s : rtc co_only_step (BasePoller_ctor io) s → few_records s → mem_inv s ∧ alive_inv s.
Proof.
  apply (rtc_invariant _ (λ s, few_records s → mem_inv s ∧ alive_inv s)); [intros _; split; [apply ctor_mem|apply ctor_alive]|].
  intros a b IH Hs Hf. pose proof (few_records_step _ _ (proj1 Hs) Hf) as Ha. destruct (IH Ha).
  split; [eapply poller_step_mem; [apply Hs|done..]|by eapply co_only_step_alive].
Qed.

(** *** The runs used as examples *)

Definition ok1 (op : epoll_op) (fd : Z) : bool := true.
Definition add (fd : Z) (t : task) (s : poller) : poller := (AddFdEvent true EPOLL_CTL_ADD 1 fd false t s).2.

(** Task 7 registers descriptor 5.  In one run an event of it is fetched; in
    another the task waits for it with a timeout, and the timer fires. *)
Definition demo_batch : poller := add 5 7 (BasePoller_ctor true) <| po_pc := PProc [(1, 2%positive)] ∅ |>.

Lemma add_step fd t s : poller_step s (add fd t s).
Proof. apply ps_add. Qed.


Lemma demo_batch_reachable : rtc poller_step (BasePoller_ctor true) demo_batch.
Proof.
  eapply rtc_l; [apply (add_step 5 7)|]. eapply rtc_l; [|apply rtc_refl]. apply ps_poll; [done..|].
  exists [5]. split_and!; [apply NoDup_singleton|done|]. by repeat constructor.
Qed.


(** *** Theorems *)





Lemma process_io ok ev p rest sync s s' : process_event ok ev p rest sync s = Some s' → po_io s' = po_io s.
Proof.
  unfold process_event. destruct (po_heap s !! p) as [d|]; simpl; [|done]. destruct (pd_mode d); try (by intros [= <-]).
  - destruct (epoll_ctl _ _ _ _ _); [|by intros [= <-]]. unfold WakeTask_sync. simpl. by destruct (po_sync s !! _) as [[q th]|]; simpl; [intros [= <-]|].
  - destruct (_ || _); [|by intros [= <-]]. intros [= <-]. case_decide; [|done]. unfold CacheMaskFdAndEpollDel, epoll_try. simpl.
    destruct (po_maskWakeDataMap s !! _); [|done]. by destruct (epoll_ctl _ _ _ _ _).
Qed.

Lemma poller_step_io s s' : poller_step s s' → po_io s' = po_io s.
Proof.
  destruct 1; try done.
  - unfold AddFdEvent. simpl. destruct (po_teardown s); [done|]. destruct (po_io s && po_exitFlag s); by destruct (epoll_ctl _ _ _ _ _).
  - apply del_quiet.
  - unfold ClearCachedEvents. destruct (po_cachedTaskEvents s !! t); [|done]. by rewrite (ws_io _ _ (q_wake _ _ (ClearMask_quiet t _))).
  - unfold WaitFdEvent. destruct (_ || _); [done|]. pose proof (ws_io _ _ (q_wake _ _ (fetch_quiet ok t s))) as Hi.
    destruct (FetchCachedEventAndDoUnmask ok t s) as [out s1]. simpl in Hi. case_decide; [done|]. destruct (po_waitTaskMap s1 !! t); [done|]. by case_decide.
  - unfold WaitFdEvent_sync. destruct (_ || _); [done|]. destruct (po_exitFlag s); by destruct (epoll_ctl _ _ _ _ _).
  - by eapply process_io.
  - unfold WakeSyncTask. assert (∀ s', (foldr (wake_sync_one ok) ([], [], s) l).2 = s' → po_io s' = po_io s) as Hl.
    { clear H0. induction l as [|[t evs] l IH]; simpl; [by intros ? <-|]. destruct (foldr _ _ l) as [[hs1 ts1] s1]. simpl in *.
      rewrite <-(IH _ eq_refl). destruct (po_waitTaskMap s1 !! t); intros ? <-; simpl; [done|]. apply cache_quiet. }
    destruct (foldr _ _ l) as [[hs ts] s']. by rewrite <-(Hl _ eq_refl).
  - unfold unregister_timer in H0. destruct (po_timers s !! h) as [[]|]; try done; by injection H0 as <-.
  - unfold WakeTask in H0. case_decide; [|done]. by injection H0 as <-.
  - apply (ws_io _ _ (q_wake _ _ (release_quiet s))).
  - unfold Run_tail. destruct (po_io s) eqn:E; simpl; [|done]. by destruct (_ || _).
  - unfold WakeTimeoutTask. by destruct (po_waitTaskMap s !! t).
  - unfold WakeTask in H0. case_decide; [|done]. by injection H0 as <-.
Qed.

Lemma co_steps_io s s' : rtc co_only_step s s' → po_io s' = po_io s.
Proof. induction 1 as [|s1 s2 s3 [Hs _] _ IH]; [done|]. by rewrite IH, (poller_step_io _ _ Hs). Qed.

(** C11: In the runs in which only coroutines wait in [WaitFdEvent], no task that
    blocks its thread, and with fewer than 2^31 records made, the thread of the IO
    poller runs as long as a descriptor is registered or a
    coroutine waits for one, up to the destruction of the poller: it ends only after a
    poll without events with nothing registered, and the next registration starts it
    again; no order of the two leaves a waiting coroutine without a thread. *)
Theorem poller_thread_alive s :
  rtc co_only_step (BasePoller_ctor true) s → few_records s → po_teardown s = false →
  po_wakeDataMap s ≠ ∅ ∨ po_sync s ≠ ∅ → po_pc s ≠ PExited.
Proof.
  intros Hr Hf Htd Hne Hpc. assert (po_io s = true) as Hio by apply (co_steps_io _ _ Hr). destruct (reach_alive true s Hr Hf) as [_ HI]. destruct (ai_exit _ HI Hio Hpc) as [_ [?|[??]]]; [congruence|].
  by destruct Hne.
Qed.

(** Task 8 waits for descriptor 6; the thread starts. *)
Definition demo_sync : poller := WaitFdEvent_sync true false 6 8 (BasePoller_ctor true).

Lemma demo_sync_reachable : rtc co_only_step (BasePoller_ctor true) demo_sync.
Proof. eapply rtc_l; [split|apply rtc_refl]; [by apply ps_wait_sync; [|split_and!]|]. by apply map_Forall_singleton. Qed.

Lemma poller_thread_alive_witness : po_pc demo_sync ≠ PExited.
Proof. apply (poller_thread_alive demo_sync demo_sync_reachable); [done|done|by right]. Defined.

(** A task for which events are cached does not block: [WaitFdEvent] returns each
    descriptor once, with the union of all events cached for it, and empties the
    cache of the task.  The number returned is the number of descriptors, whatever
    [maxevents] is. *)
Theorem poller_cached_merged ok t maxevents timeout l s :
  t ≠ 0 → EPOLL_EVENT_SIZE <= maxevents → po_cachedTaskEvents s !! t = Some l → l ≠ [] →
  ∃ out s', WaitFdEvent ok true t maxevents timeout s = (WaitRet (Z.of_nat (length out)), s') ∧ merged l out ∧
    po_result s' !! t = Some out ∧ po_cachedTaskEvents s' !! t = None ∧
    po_blocked s' = po_blocked s ∧ po_waitTaskMap s' = po_waitTaskMap s.
Proof.
  intros Ht Hm Hl Hne. unfold WaitFdEvent. rewrite !bool_decide_false by lia. simpl.
  pose proof (fetch_quiet ok t s) as [[Hw _ _ Hb _ _ _] _ _ _ _]. unfold FetchCachedEventAndDoUnmask in *. rewrite Hl in *. destruct l as [|e l]; [done|].
  pose proof (fetch_merged ok (e :: l) s) as Hmg. destruct (FetchCachedEvents ok (e :: l) s) as [out s1]. simpl in *.
  rewrite decide_True.
  - eexists out, _. split_and!; [done|done|simpl; by rewrite lookup_insert_eq| |done|done]. unfold ClearMaskWakeDataCache. simpl.
    destruct (po_maskWakeDataMap s1 !! t); apply lookup_delete_eq.
  - intros ->. destruct Hmg as (_ & Hfd & _). apply (not_elem_of_nil (ev_fd e)), Hfd. left.
Qed.

Definition demo_cached : poller := BasePoller_ctor true <| po_cachedTaskEvents := {[7 := [mkEvent 1 5; mkEvent 4 5]]} |>.

Lemma poller_cached_merged_witness :
  ∃ out s', WaitFdEvent ok1 true 7 1024 (-1) demo_cached = (WaitRet (Z.of_nat (length out)), s') ∧ merged [mkEvent 1 5; mkEvent 4 5] out ∧
    po_result s' !! 7 = Some out ∧ po_cachedTaskEvents s' !! 7 = None ∧ po_blocked s' = ∅ ∧ po_waitTaskMap s' = ∅.
Proof. by apply (poller_cached_merged ok1 7 1024 (-1) [mkEvent 1 5; mkEvent 4 5] demo_cached). Defined.

(** *** Where the guarantees end *)

(** Modifying the events of a descriptor frees its record while the poller thread may
    hold an event that points to it; and when two records of the descriptor are alive,
    the call fails after it has handed the epoll instance a record that it frees. *)
Theorem poller_mod_use_after_free :
  (∃ s, rtc poller_step (BasePoller_ctor true) s ∧ po_pc s = PProc [(1, 2%positive)] ∅ ∧
     (AddFdEvent true EPOLL_CTL_MOD 4 5 false 7 s).1 = 0 ∧
     process_event true 1 2 [] ∅ (AddFdEvent true EPOLL_CTL_MOD 4 5 false 7 s).2 = None) ∧
  (∃ s, rtc poller_step (BasePoller_ctor true) s ∧
     (AddFdEvent true EPOLL_CTL_MOD 4 5 false 7 s).1 = -1 ∧
     ∃ ev p, po_epoll (AddFdEvent true EPOLL_CTL_MOD 4 5 false 7 s).2 !! 5 = Some (ev, p) ∧
       po_heap (AddFdEvent true EPOLL_CTL_MOD 4 5 false 7 s).2 !! p = None).
Proof.
  split.
  - exists demo_batch. split; [apply demo_batch_reachable|done].
  - exists (add 5 7 (DelFdEvent true 5 (add 5 7 (BasePoller_ctor true))).2). split; [|split; [done|by exists 4, 4%positive]].
    eapply rtc_l; [apply (add_step 5 7)|]. eapply rtc_l; [apply (ps_del _ true 5)|]. eapply rtc_l; [apply (add_step 5 7)|apply rtc_refl].
Qed.

(** Tasks 7 and 8 block their threads on descriptors 5 and 6, and 5 has an event. *)
Definition demo_threads : poller := WaitFdEvent_sync true true 6 8 (WaitFdEvent_sync true true 5 7 (BasePoller_ctor true)).
Definition demo_first : poller :=
  default demo_threads (process_event true 1 2 [] ∅ (demo_threads <| po_pc := PProc [(1, 2%positive)] ∅ |>)).

(** A thread blocked on one descriptor takes itself off the count of waiters after the
    poller thread has done so: with two of them, the first to return brings the
    count to 0, the poller thread ends after its next timeout, and the second is left
    with nobody to wake it. *)
Theorem poller_sync_threads_lost :
  ∃ s, rtc poller_step (BasePoller_ctor true) s ∧ po_pc s = PExited ∧ po_teardown s = false ∧
    po_sync s !! 8 = Some (3%positive, true) ∧ po_epoll s !! 6 = Some (1, 3%positive).
Proof.
  eexists. split.
  { eapply rtc_l; [apply (ps_wait_sync _ true true 5 7); [reflexivity|by split_and!]|].
  eapply rtc_l; [apply (ps_wait_sync _ true true 6 8); [reflexivity|by split_and!]|].
  eapply rtc_l; [apply (ps_poll _ [(1, 2%positive)]); [reflexivity|done|]; exists [5]; split_and!; [apply NoDup_singleton|done|by repeat constructor]|].
  run_step (ps_process _ true 1 2 [] ∅ demo_first).
  eapply rtc_l; [apply (ps_sync _ (λ _, true) ∅ []); [vm_compute; reflexivity|done]|]. run_step (ps_unreg_done _ []).
  run_step (ps_wake_done _). eapply rtc_l; [apply (ps_sync_return _ 7); refine (bool_decide_unpack _ _); vm_compute; exact I|].
  run_step (ps_release _). run_step (ps_tail _ 1). eapply rtc_l; [apply (ps_poll_none _ 0); [vm_compute; reflexivity|by left]|].
  run_step (ps_tail _ 0). apply rtc_refl. }
  split_and!; vm_compute; reflexivity.
Qed.

(** A poll that returns one event of descriptor 5, whose task 7 does not wait. *)
Ltac cached_turn ev :=
  eapply rtc_l; [apply (ps_poll _ [(ev, 2%positive)]); [vm_compute; reflexivity|done|];
                 exists [5]; split_and!; [apply NoDup_singleton|done|apply Forall2_cons; split; [vm_compute; reflexivity|constructor]]|];
  run_step (ps_process _ true ev 2 [] ∅);
  eapply rtc_l; [apply (ps_sync _ (λ _, true) {[7 := [mkEvent ev 5]]} [(7, [mkEvent ev 5])]);
                 [vm_compute; reflexivity|by rewrite map_to_list_singleton]|];
  run_step (ps_unreg_done _ []); run_step (ps_wake_done _).

(** A descriptor that hangs up while its events are cached is taken out of the epoll
    instance by the poller thread; deleting it then fails whatever epoll answers, and its
    record stays. *)
Lemma poller_hup_not_deleted :
  ∃ s, rtc poller_step (BasePoller_ctor true) s ∧ po_epoll s !! 5 = None ∧
    ∀ ok, (DelFdEvent ok 5 s).1 = -1 ∧ wakes (DelFdEvent ok 5 s).2 5 = [2%positive] ∧ po_delCntMap (DelFdEvent ok 5 s).2 !! 5 = None.
Proof.
  eexists. split.
  { eapply rtc_l; [apply (add_step 5 7)|]. cached_turn 1. run_step (ps_release _). run_step (ps_tail _ 1). cached_turn EPOLLHUP. apply rtc_refl. }
  split; [vm_compute; reflexivity|]. intros []; split_and!; vm_compute; reflexivity.
Qed.

(** A report of a long callback is made at most once for each entry of the list of
    durations; the call after the last one reads the list past its end before it
    compares the index with its size. *)
Lemma monit_timeout_overrun freq now r :
  0 <= tr_reportCount r <= 8 → tr_cbStartTime r ≠ 0 →
  (MonitTimeOut false freq now r = None ↔ tr_reportCount r = 8) ∧
  (∀ r', MonitTimeOut false freq now r = Some r' → tr_reportCount r <= tr_reportCount r' <= 8).
Proof.
  intros Hc Hs. unfold MonitTimeOut. rewrite decide_False by done.
  destruct (TIMEOUT_RECORD_CYCLE_LIST !! Z.to_nat (tr_reportCount r)) as [tm|] eqn:E; simpl.
  - apply lookup_lt_Some in E. simpl in E. split; [split; [done|lia]|]. intros r' [= <-].
    destruct (_ && _); simpl; [|lia]. unfold u64. rewrite uw_small; lia.
  - apply lookup_ge_None in E. simpl in E. split; [split; [lia|done]|done].
Qed.
End PollerLive.
