(* ===== verification/LoopPoller.v ===== *)
(** * The loop and its timers

    Models src/eu/loop_poller.cpp and src/eu/loop.cpp: the thread that runs a loop
    takes the tasks of its queue and, when there are none, polls: it executes the
    timers that are due and sleeps in [epoll_wait] up to the first one.  Other
    threads push tasks, start and stop timers and stop the loop, and wake it through an
    eventfd.  The descriptors of the loop are those of [Poller].

    Times are nanoseconds of the steady clock, which advances between any two steps;
    timeouts are milliseconds.  What runs under [timerMutex_] is one step;
    [ExecuteTimerCb] gives the mutex back around a callback, and no other thread
    enters while it holds it.  The time from the choice of the timeout to the call of
    [epoll_wait] is not counted. *)

From S2P Require Import Prelude Multimap Poller.

Module LoopPoller.

Definition MS : Z := 1000000.
Definition MAX_TIMER_MS_COUNT : Z := 1000 * 100 * 60 * 60 * 24 * 365.

Inductive EpollStatus := WAIT | WAKE | TEARDOWN.
Inductive TimerStatus := EXECUTING | EXECUTED.
Inductive PollerRet := RET_NULL | RET_EPOLL | RET_TIMER.
Inductive timer_query := ffrt_timer_notfound | ffrt_timer_not_executed | ffrt_timer_executed.

#[export] Instance EpollStatus_eq_dec : EqDecision EpollStatus.
Proof. solve_decision. Defined.
#[export] Instance TimerStatus_eq_dec : EqDecision TimerStatus.
Proof. solve_decision. Defined.

(** [td_cb] says whether there is a callback; [td_task] is null as 0. *)
Record TimerDataWithCb := mkTimerData {
  td_cb : bool;
  td_handle : Z;
  td_task : Z;
  td_repeat : bool;
  td_timeout : Z;
}.

#[export] Instance TimerData_eta : Eta TimerDataWithCb := λ d,
  mkTimerData (td_cb d) (td_handle d) (td_task d) (td_repeat d) (td_timeout d).

(** Where the thread of the loop is: at the test of [stopFlag_], before
    [PickUpTask], in a task, at the test after it, at the start of [PollOnce], in
    [epoll_wait] with the timer it waits for and the end of the wait, back from it
    (with a timeout, an error, or events), in the loop of [ExecuteTimerCb] with the
    mutex held, in a callback, in [ProcessTimerDataCb], and out of [Run]. *)
Inductive loop_pc :=
| LTop
| LPick
| LExec
| LReady
| LPoll (timeout : Z)
| LWait (handle : Z) (timeout : Z) (deadline : option Z)
| LTimedOut (handle : Z)
| LFailed
| LEvents (wake : bool)
| LUnreg (handles : list Z)
| LTimer (timer : Z)
| LCb (timer key : Z) (d : TimerDataWithCb)
| LTask (timer : Z) (d : TimerDataWithCb)
| LDone.

(** [lp_ready] is the number of tasks in the queue of the loop, [lp_stopping] the
    calls of [Stop] that have set the flag and not yet written the eventfd. *)
Record loop := mk_loop {
  lp_timerMap : list (Z * TimerDataWithCb);
  lp_executedHandle : gmap Z TimerStatus;
  lp_timerHandle : Z;
  lp_flag : EpollStatus;
  lp_timerEmpty : bool;
  lp_fdEmpty : bool;
  lp_eventfd : Z;
  lp_now : Z;
  lp_ready : nat;
  lp_stopFlag : bool;
  lp_stopping : nat;
  lp_pc : loop_pc;
}.

#[export] Instance loop_eta : Eta loop := λ s,
  mk_loop (lp_timerMap s) (lp_executedHandle s) (lp_timerHandle s) (lp_flag s) (lp_timerEmpty s) (lp_fdEmpty s) (lp_eventfd s)
    (lp_now s) (lp_ready s) (lp_stopFlag s) (lp_stopping s) (lp_pc s).

(** [Run] has begun; [Loop::Run] does nothing for the main loop. *)
Definition loop_init : loop := mk_loop [] ∅ (-1) WAKE true true 0 0 0 false 0 LTop.

Definition WakeUp (s : loop) : loop := s <| lp_eventfd ::= λ n, n + 1 |>.

Definition timer_lock_free (s : loop) : Prop := match lp_pc s with LTimer _ => False | _ => True end.

(** *** Timers *)

Definition is_first (m : list (Z * TimerDataWithCb)) (t : Z) : bool :=
  match m with [] => true | (k, _) :: _ => bool_decide (t < k) end.

Definition RegisterTimerImpl (d : TimerDataWithCb) (s : loop) : loop :=
  if decide (lp_flag s = TEARDOWN) then s
  else
    let absoluteTime := lp_now s + td_timeout d * MS in
    let wake := bool_decide (lp_timerMap s = []) || (is_first (lp_timerMap s) absoluteTime && bool_decide (lp_flag s = WAIT)) in
    let s := s <| lp_timerMap ::= mm_insert absoluteTime d |> <| lp_timerEmpty := false |> in
    if wake then WakeUp s else s.

(** [RegisterTimer] by a caller whose current task is [task]. *)
Definition RegisterTimer (timeout : Z) (cb : bool) (task : Z) (repeat : bool) (s : loop) : Z * loop :=
  if decide (lp_flag s = TEARDOWN) then (-1, s)
  else
    let timeout := if decide (MAX_TIMER_MS_COUNT < timeout) then MAX_TIMER_MS_COUNT else timeout in
    let h := lp_timerHandle s + 1 in
    (h, RegisterTimerImpl (mkTimerData cb h task repeat timeout) (s <| lp_timerHandle := h |>)).

(** The first timer with the handle, with its position. *)
Definition find_timer (h : Z) (m : list (Z * TimerDataWithCb)) : option (nat * (Z * TimerDataWithCb)) :=
  list_find (λ x, td_handle x.2 = h) m.

(** [UnregisterTimer] when it gets the mutex for the last time; [None] while it
    yields because the callback runs. *)
Definition UnregisterTimer (h : Z) (s : loop) : option (Z * loop) :=
  if decide (lp_flag s = TEARDOWN) then Some (-1, s)
  else match lp_executedHandle s !! h with
       | Some EXECUTING => None
       | Some EXECUTED => Some (0, s <| lp_executedHandle ::= delete h |>)
       | None =>
           match find_timer h (lp_timerMap s) with
           | None => Some (-1, s <| lp_timerEmpty := bool_decide (lp_timerMap s = []) |>)
           | Some (i, _) =>
               let wake := bool_decide (i = 0%nat) && bool_decide (lp_flag s = WAIT) in
               let m := delete i (lp_timerMap s) in
               let s := s <| lp_timerMap := m |> <| lp_timerEmpty := bool_decide (m = []) |> in
               Some (0, if wake then WakeUp s else s)
           end
       end.

(** [GetTimerStatus] when it first gets the mutex, and later, after it has yielded. *)
Definition GetTimerStatus (h : Z) (s : loop) : option timer_query :=
  if decide (lp_flag s = TEARDOWN) then Some ffrt_timer_notfound
  else match find_timer h (lp_timerMap s), lp_executedHandle s !! h with
       | Some _, _ => Some ffrt_timer_not_executed
       | None, Some EXECUTING => None
       | None, Some EXECUTED => Some ffrt_timer_executed
       | None, None => Some ffrt_timer_notfound
       end.

Definition GetTimerStatus_again (h : Z) (s : loop) : option timer_query :=
  if decide (lp_executedHandle s !! h = Some EXECUTING) then None else Some ffrt_timer_executed.

(** [PollerUnRegisterTimer], of the timers of tasks that got their events. *)
Definition PollerUnRegisterTimer (hs : list Z) (s : loop) : loop :=
  if decide (hs = []) then s
  else
    let m := filter (λ x, td_handle x.2 ∉ hs) (lp_timerMap s) in
    s <| lp_timerMap := m |> <| lp_timerEmpty := bool_decide (m = []) |>.

(** *** The thread of the loop *)

(** [PollOnce] up to [epoll_wait]; the difference to the first timer, cut to
    milliseconds, is stored in an [int]. *)
Definition PollOnce (timeout : Z) (s : loop) : loop :=
  match lp_timerMap s with
  | [] =>
      s <| lp_pc := LWait (-1) timeout (if decide (timeout < 0) then None else Some (lp_now s + timeout * MS)) |>
  | (first, d) :: _ =>
      let realTimeout := i32 ((first - lp_now s) `quot` MS) in
      if decide (realTimeout <= 0) then s <| lp_pc := LTimer (lp_now s) |>
      else if bool_decide (timeout ≠ -1) && bool_decide (timeout < realTimeout)
      then s <| lp_flag := WAIT |> <| lp_pc := LWait (-1) timeout (Some (lp_now s + timeout * MS)) |>
      else s <| lp_flag := WAIT |> <| lp_pc := LWait (td_handle d) timeout (Some (lp_now s + realTimeout * MS)) |>
  end.

(** [FindAndExecuteTimer] after a timeout: all timers up to the one awaited. *)
Definition FindAndExecuteTimer (h : Z) (s : loop) : loop :=
  if decide (h = -1) then s <| lp_pc := LTop |>
  else match find_timer h (lp_timerMap s) with
       | Some (_, (k, _)) => s <| lp_pc := LTimer k |>
       | None => s <| lp_pc := LTop |>
       end.

(** An iteration of [ExecuteTimerCb] up to the callback, which the mutex is given
    back for. *)
Definition ExecuteTimerCb (timer : Z) (s : loop) : loop :=
  match lp_timerMap s with
  | [] => s <| lp_pc := LTop |>
  | (k, d) :: m =>
      if decide (timer < k) then s <| lp_pc := LTop |>
      else
        let s := s <| lp_executedHandle ::= if td_cb d then <[td_handle d := EXECUTING]> else id |>
                   <| lp_timerMap := m |> <| lp_timerEmpty := bool_decide (m = []) |> in
        s <| lp_pc := if td_cb d then LCb timer k d
                      else if decide (td_task d ≠ 0) then LTask timer d else LTimer timer |>
  end.

(** The end of an iteration, with the mutex again. *)
Definition ExecuteTimerCb_after (timer : Z) (d : TimerDataWithCb) (s : loop) : loop :=
  let s := s <| lp_executedHandle ::= if td_cb d then <[td_handle d := EXECUTED]> else id |> in
  let s := if td_repeat d && bool_decide (is_Some (lp_executedHandle s !! td_handle d))
           then RegisterTimerImpl d (s <| lp_executedHandle ::= delete (td_handle d) |>) else s in
  s <| lp_pc := LTimer timer |>.

(** [ProcessWaitedFds] reads the eventfd if its event is among those returned. *)
Definition ProcessWaitedFds (wake : bool) (s : loop) : loop := s <| lp_eventfd ::= λ n, if wake then 0 else n |>.

Definition IsTimerReady (s : loop) : bool :=
  match lp_timerMap s with [] => false | (k, _) :: _ => bool_decide (k <= lp_now s) end.

Definition DeterminePollerReady (s : loop) : bool := negb (lp_fdEmpty s) || IsTimerReady s.
Definition DetermineEmptyMap (s : loop) : bool := lp_fdEmpty s && lp_timerEmpty s.

(** *** Steps *)

(** Steps of other threads, then those of the thread of the loop. *)
Inductive loop_step : loop → loop → Prop :=
| ls_time s n : lp_now s <= n → loop_step s (s <| lp_now := n |>)
| ls_push s : loop_step s (WakeUp (s <| lp_ready ::= S |>))
| ls_cancel s n : (n <= lp_ready s)%nat → loop_step s (s <| lp_ready := n |>)
| ls_fd s b : loop_step s (s <| lp_fdEmpty := b |>)
| ls_wakeup s : loop_step s (WakeUp s)
| ls_register s timeout cb task repeat :
    timer_lock_free s → 0 <= timeout → loop_step s (RegisterTimer timeout cb task repeat s).2
| ls_unregister s h r s' : timer_lock_free s → UnregisterTimer h s = Some (r, s') → loop_step s s'
| ls_stop s : loop_step s (s <| lp_stopFlag := true |> <| lp_stopping ::= S |>)
| ls_stop_wake s n : lp_stopping s = S n → loop_step s (WakeUp (s <| lp_stopping := n |>))
| ls_top s : lp_pc s = LTop → loop_step s (s <| lp_pc := if lp_stopFlag s then LDone else LPick |>)
| ls_pick s n : lp_pc s = LPick → lp_ready s = S n → loop_step s (s <| lp_ready := n |> <| lp_pc := LExec |>)
| ls_pick_none s : lp_pc s = LPick → lp_ready s = 0%nat → loop_step s (s <| lp_pc := LPoll (-1) |>)
| ls_exec s : lp_pc s = LExec → loop_step s (s <| lp_pc := LReady |>)
| ls_ready s :
    lp_pc s = LReady →
    loop_step s (s <| lp_pc := if negb (lp_stopFlag s) && DeterminePollerReady s then LPoll 0 else LTop |>)
| ls_poll s timeout : lp_pc s = LPoll timeout → loop_step s (PollOnce timeout s)
| ls_timed_out s h t d : lp_pc s = LWait h t (Some d) → d <= lp_now s → loop_step s (s <| lp_pc := LTimedOut h |>)
| ls_failed s h t d : lp_pc s = LWait h t d → loop_step s (s <| lp_pc := LFailed |>)
| ls_events s h t d wake :
    lp_pc s = LWait h t d → (wake = true → 0 < lp_eventfd s) → loop_step s (s <| lp_pc := LEvents wake |>)
| ls_timer_due s h : lp_pc s = LTimedOut h → loop_step s (FindAndExecuteTimer h (s <| lp_flag := WAKE |>))
| ls_failed_ret s : lp_pc s = LFailed → loop_step s (s <| lp_flag := WAKE |> <| lp_pc := LTop |>)
| ls_process s wake hs :
    lp_pc s = LEvents wake → loop_step s (ProcessWaitedFds wake (s <| lp_flag := WAKE |>) <| lp_pc := LUnreg hs |>)
| ls_unreg s hs : lp_pc s = LUnreg hs → loop_step s (PollerUnRegisterTimer hs s <| lp_pc := LTop |>)
| ls_timer s timer : lp_pc s = LTimer timer → loop_step s (ExecuteTimerCb timer s)
| ls_cb s timer k d : lp_pc s = LCb timer k d → loop_step s (ExecuteTimerCb_after timer d s)
| ls_task s timer d : lp_pc s = LTask timer d → loop_step s (ExecuteTimerCb_after timer d s).

(** [EpollCtl]: the descriptors of the main loop are listeners of its event
    handler, [add_listener] and [remove_listener]; those of other loops go to the poller. *)
Definition EpollCtl (interactive : bool) (add_listener : Z → Z → Z) (remove_listener : Z → Z) (ok : bool)
    (op : option Poller.epoll_op) (fd events : Z) (cb : bool) (cur : Z) (s : Poller.poller) : Z * Poller.poller :=
  match op with
  | Some Poller.EPOLL_CTL_ADD =>
      if interactive then (add_listener fd events, s) else Poller.AddFdEvent ok Poller.EPOLL_CTL_ADD events fd cb cur s
  | Some Poller.EPOLL_CTL_DEL => if interactive then (remove_listener fd, s) else Poller.DelFdEvent ok fd s
  | Some Poller.EPOLL_CTL_MOD | None => (-1, s)
  end.

(** ** Handles *)

Definition cb_of (pc : loop_pc) : option TimerDataWithCb := match pc with LCb _ _ d => Some d | _ => None end.
Definition task_of (pc : loop_pc) : option TimerDataWithCb := match pc with LTask _ d => Some d | _ => None end.

(** A timer is in the map, or its callback runs, or it was executed, and in one of
    these only; its handle was given out. *)
Record loop_inv (s : loop) : Prop := {
  li_flag : lp_flag s ≠ TEARDOWN;
  li_hdl : -1 <= lp_timerHandle s;
  li_sorted : mm_sorted (lp_timerMap s);
  li_handles : NoDup ((λ x, td_handle x.2) <$> lp_timerMap s);
  li_range : ∀ x, x ∈ lp_timerMap s → 0 <= td_handle x.2 <= lp_timerHandle s ∧ lp_executedHandle s !! td_handle x.2 = None;
  li_exec : ∀ h st, lp_executedHandle s !! h = Some st → 0 <= h <= lp_timerHandle s;
  li_executing : ∀ h, lp_executedHandle s !! h = Some EXECUTING → ∃ d, cb_of (lp_pc s) = Some d ∧ td_handle d = h;
  li_cb : ∀ d, cb_of (lp_pc s) = Some d → td_cb d = true ∧ lp_executedHandle s !! td_handle d = Some EXECUTING;
  li_task : ∀ d, task_of (lp_pc s) = Some d →
    td_cb d = false ∧ 0 <= td_handle d <= lp_timerHandle s ∧ lp_executedHandle s !! td_handle d = None ∧
    ∀ x, x ∈ lp_timerMap s → td_handle x.2 ≠ td_handle d;
  li_empty : lp_timerEmpty s = bool_decide (lp_timerMap s = []);
}.

Lemma loop_inv_frame s s' :
  loop_inv s → lp_flag s' ≠ TEARDOWN → lp_timerHandle s' = lp_timerHandle s → lp_timerMap s' = lp_timerMap s →
  lp_executedHandle s' = lp_executedHandle s → lp_timerEmpty s' = lp_timerEmpty s →
  cb_of (lp_pc s') = cb_of (lp_pc s) → task_of (lp_pc s') = task_of (lp_pc s) → loop_inv s'.
Proof. intros [] Hf E1 E2 E3 E4 E5 E6. split; rewrite ?E1, ?E2, ?E3, ?E4, ?E5, ?E6; done. Qed.

(** A timer is taken out of the map. *)
Lemma loop_inv_sub s m' :
  loop_inv s → m' `sublist_of` lp_timerMap s → loop_inv (s <| lp_timerMap := m' |> <| lp_timerEmpty := bool_decide (m' = []) |>).
Proof.
  intros [] Hs. assert (∀ x, x ∈ m' → x ∈ lp_timerMap s) as Hin by (intros x ?; by eapply elem_of_sublist).
  split; simpl; try done.
  - by eapply mm_sorted_sublist.
  - eapply sublist_NoDup; [done|by apply fmap_sublist].
  - intros x Hx. by apply li_range0, Hin.
  - intros d Hd. destruct (li_task0 d Hd) as (? & ? & ? & Hx). split_and!; [done|lia|lia|done|]. intros x ?. by apply Hx, Hin.
Qed.

(** A timer is put into it. *)
Lemma loop_inv_impl d s :
  loop_inv s → 0 <= td_handle d <= lp_timerHandle s → lp_executedHandle s !! td_handle d = None →
  (∀ x, x ∈ lp_timerMap s → td_handle x.2 ≠ td_handle d) → (∀ d', task_of (lp_pc s) = Some d' → td_handle d ≠ td_handle d') →
  loop_inv (RegisterTimerImpl d s).
Proof.
  intros HI Hr He Hm Ht. unfold RegisterTimerImpl. rewrite decide_False by apply HI. set (k := lp_now s + td_timeout d * MS).
  set (w := _ || _). clearbody w k.
  assert (loop_inv (s <| lp_timerMap ::= mm_insert k d |> <| lp_timerEmpty := false |>)) as H1.
  { destruct HI. split; simpl; try done.
    - by apply mm_insert_sorted.
    - rewrite (fmap_Permutation _ _ _ (mm_insert_perm k d (lp_timerMap s))). simpl. apply NoDup_cons. split; [|done].
      intros (x & E & Hx)%list_elem_of_fmap. by apply (Hm x Hx).
    - intros x [-> |Hx]%mm_insert_elem_of; [done|by apply li_range0].
    - intros d' Hd'. destruct (li_task0 d' Hd') as (? & ? & ? & Hx). split_and!; [done|lia|lia|done|].
      intros x [-> |?]%mm_insert_elem_of; [by apply Ht|by apply Hx].
    - rewrite bool_decide_false; [done|apply mm_insert_not_nil]. }
  destruct w; [|done]. by eapply loop_inv_frame; [exact H1|apply H1|..].
Qed.

Lemma find_timer_Some h m i x : find_timer h m = Some (i, x) → m !! i = Some x ∧ td_handle x.2 = h.
Proof. unfold find_timer. intros (? & ? & _)%list_find_Some. done. Qed.

Lemma find_timer_None h m : find_timer h m = None ↔ ∀ x, x ∈ m → td_handle x.2 ≠ h.
Proof. unfold find_timer. rewrite list_find_None, Forall_forall. done. Qed.

Lemma loop_unregister_inv h s r s' : loop_inv s → UnregisterTimer h s = Some (r, s') → loop_inv s'.
Proof.
  intros HI. unfold UnregisterTimer. rewrite decide_False by apply HI. destruct (lp_executedHandle s !! h) as [[]|] eqn:E; [done| |].
  - intros [= <- <-]. destruct HI. split; simpl; try done.
    + intros x Hx. destruct (li_range0 x Hx). split; [done|]. rewrite lookup_delete_ne; [done|]. congruence.
    + intros k st [_ Hk]%lookup_delete_Some. by eapply li_exec0.
    + intros k [_ Hk]%lookup_delete_Some. by apply li_executing0.
    + intros d Hd. destruct (li_cb0 d Hd). rewrite lookup_delete_ne; [done|]. congruence.
    + intros d Hd. destruct (li_task0 d Hd) as (? & ? & ? & ?). split_and!; try done; [lia..|]. rewrite lookup_delete_ne; [done|]. congruence.
  - destruct (find_timer h (lp_timerMap s)) as [[i x]|]; intros [= <- <-].
    + assert (loop_inv (s <| lp_timerMap := delete i (lp_timerMap s) |> <| lp_timerEmpty := bool_decide (delete i (lp_timerMap s) = []) |>)) as H1.
      { apply loop_inv_sub; [done|]. apply sublist_delete. }
      destruct (_ && _); [|done]. by eapply loop_inv_frame; [exact H1|apply H1|..].
    + apply (loop_inv_sub s (lp_timerMap s)); done.
Qed.

Lemma impl_pc d s pc : RegisterTimerImpl d s <| lp_pc := pc |> = RegisterTimerImpl d (s <| lp_pc := pc |>).
Proof. unfold RegisterTimerImpl. simpl. case_decide; [done|]. by destruct (_ || _). Qed.

Lemma after_inv timer d s :
  loop_inv s → cb_of (lp_pc s) = Some d ∨ task_of (lp_pc s) = Some d → loop_inv (ExecuteTimerCb_after timer d s).
Proof.
  intros HI Hpc. unfold ExecuteTimerCb_after.
  assert (0 <= td_handle d <= lp_timerHandle s ∧ ∀ x, x ∈ lp_timerMap s → td_handle x.2 ≠ td_handle d) as [Hr Hm].
  { destruct Hpc as [Hpc|Hpc]; [|destruct (li_task _ HI d Hpc) as (? & ? & ? & ?); by split]. destruct (li_cb _ HI d Hpc) as [_ He].
    split; [by eapply li_exec|]. intros x Hx E. destruct (li_range _ HI x Hx) as [_ Hn]. congruence. }
  set (s0 := s <| lp_executedHandle ::= if td_cb d then <[td_handle d := EXECUTED]> else id |> <| lp_pc := LTimer timer |>).
  assert (loop_inv s0) as H0.
  { pose proof HI as []. unfold s0. split; simpl; try done; destruct (td_cb d) eqn:Ecb; simpl; try done.
    - intros x Hx. rewrite lookup_insert_ne; [by apply li_range0|]. apply not_eq_sym. by apply Hm.
    - intros h st [[<- _]|[_ Hh]]%lookup_insert_Some; [done|by eapply li_exec0].
    - intros h [[_ ?]|[Hne Hh]]%lookup_insert_Some; [done|]. destruct (li_executing0 h Hh) as (d' & Hd' & <-).
      destruct Hpc as [Hpc|Hpc]; [congruence|]. by destruct (lp_pc s).
    - intros h Hh. destruct (li_executing0 h Hh) as (d' & Hd' & <-). destruct Hpc as [Hpc|Hpc]; [|by destruct (lp_pc s)].
      destruct (li_cb0 d Hpc). congruence. }
  set (b := td_repeat d && _). destruct b; [|exact H0].
  assert (loop_inv (RegisterTimerImpl d (s0 <| lp_executedHandle ::= delete (td_handle d) |>))) as H1.
  { apply loop_inv_impl; [|done|apply lookup_delete_eq|done|done]. destruct H0. split; simpl in *; try done.
    - intros x Hx. rewrite lookup_delete_ne; [by apply li_range0|]. apply not_eq_sym. by apply Hm.
    - intros h st [_ Hh]%lookup_delete_Some. by eapply li_exec0.
    - intros h [_ Hh]%lookup_delete_Some. by apply li_executing0. }
  rewrite impl_pc. exact H1.
Qed.

Lemma timer_inv timer s : loop_inv s → lp_pc s = LTimer timer → loop_inv (ExecuteTimerCb timer s).
Proof.
  intros HI Hpc. unfold ExecuteTimerCb. destruct (lp_timerMap s) as [|[k d] m] eqn:Em; [apply (loop_inv_frame s); try done; try apply HI; by rewrite Hpc|].
  case_decide; [apply (loop_inv_frame s); try done; try apply HI; by rewrite Hpc|].
  assert (loop_inv (s <| lp_timerMap := m |> <| lp_timerEmpty := bool_decide (m = []) |>)) as H1 by (apply loop_inv_sub; [done|rewrite Em; by constructor]).
  destruct (li_range _ HI (k, d)) as [Hr He]; [rewrite Em; left|]. simpl in Hr, He.
  assert (∀ x, x ∈ m → td_handle x.2 ≠ td_handle d) as Hm.
  { intros x Hx E. pose proof (li_handles _ HI) as Hnd. rewrite Em in Hnd. simpl in Hnd. apply NoDup_cons in Hnd as [Hni _]. apply Hni.
    apply list_elem_of_fmap. eauto. }
  destruct (td_cb d) eqn:Ecb.
  - destruct H1. split; simpl in *; try done.
    + intros x Hx. rewrite lookup_insert_ne; [by apply li_range0|]. apply not_eq_sym. by apply Hm.
    + intros h st [[<- _]|[_ Hh]]%lookup_insert_Some; [done|by eapply li_exec0].
    + intros h [[<- _]|[Hne Hh]]%lookup_insert_Some; [by exists d|]. destruct (li_executing0 h Hh) as (d' & Hd' & _). by rewrite Hpc in Hd'.
    + intros d' [= <-]. by rewrite lookup_insert_eq.
  - destruct H1. case_decide; split; simpl in *; try done; try (by intros h Hh; destruct (li_executing0 h Hh) as (d' & Hd' & _); rewrite Hpc in Hd').
    by intros d' [= <-].
Qed.

Lemma loop_step_inv s s' : loop_step s s' → loop_inv s → loop_inv s'.
Proof.
  destruct 1; intros HI; try (apply (loop_inv_frame s); try done; try apply HI; by rewrite ?H).
  - unfold RegisterTimer. rewrite decide_False by apply HI. simpl. set (tm := if decide _ then _ else _). clearbody tm.
    apply loop_inv_impl; simpl; try done.
    + pose proof HI as []. split; simpl; try done.
      * lia.
      * intros x Hx. destruct (li_range0 x Hx). split; [lia|done].
      * intros h st Hh. specialize (li_exec0 h st Hh). lia.
      * intros d Hd. destruct (li_task0 d Hd) as (? & ? & ? & ?). split_and!; [done|lia..|done|done].
    + pose proof (li_hdl _ HI). lia.
    + apply eq_None_not_Some. intros [st Hst]. apply (li_exec _ HI) in Hst. lia.
    + intros x Hx. destruct (li_range _ HI x Hx). lia.
    + intros d Hd. destruct (li_task _ HI d Hd) as (? & ? & _). lia.
  - by eapply loop_unregister_inv.
  - destruct (lp_stopFlag s); apply (loop_inv_frame s); try done; try apply HI; by rewrite H.
  - destruct (_ && _); apply (loop_inv_frame s); try done; try apply HI; by rewrite H.
  - unfold PollOnce. destruct (lp_timerMap s) as [|[k d] m] eqn:Em; [apply (loop_inv_frame s); try done; try apply HI; by rewrite H|].
    case_decide; [|destruct (_ && _)]; apply (loop_inv_frame s); try done; try apply HI; by rewrite H.
  - unfold FindAndExecuteTimer. simpl. case_decide; [|destruct (find_timer h (lp_timerMap s)) as [[i [k d]]|]];
      apply (loop_inv_frame s); try done; by rewrite H.
  - unfold PollerUnRegisterTimer. case_decide; [apply (loop_inv_frame s); try done; try apply HI; by rewrite H|].
    pose proof (loop_inv_sub s _ HI (sublist_filter (λ x, td_handle x.2 ∉ hs) (lp_timerMap s))) as H1.
    eapply loop_inv_frame; [exact H1|apply HI|try done..]; simpl; by rewrite H.
  - by apply timer_inv.
  - apply after_inv; [done|]. left. by rewrite H.
  - apply after_inv; [done|]. right. by rewrite H.
Qed.

Lemma loop_inv_init : loop_inv loop_init.
Proof. split; simpl; try done; [constructor|constructor|by intros x ?%not_elem_of_nil]. Qed.

Lemma reach_inv s : rtc loop_step loop_init s → loop_inv s.
Proof. apply rtc_invariant; [apply loop_inv_init|]. intros a b IH Hs. by eapply loop_step_inv. Qed.

(** ** A stopped timer *)

(** The timer will not run: it is not in the map and not on its way. *)
Definition stopped (h : Z) (s : loop) : Prop :=
  h <= lp_timerHandle s ∧ (∀ x, x ∈ lp_timerMap s → td_handle x.2 ≠ h) ∧
  ∀ d, cb_of (lp_pc s) = Some d ∨ task_of (lp_pc s) = Some d → td_handle d ≠ h.

Lemma stopped_frame h s s' :
  stopped h s → lp_timerHandle s' = lp_timerHandle s → (∀ x, x ∈ lp_timerMap s' → x ∈ lp_timerMap s) →
  cb_of (lp_pc s') = cb_of (lp_pc s) → task_of (lp_pc s') = task_of (lp_pc s) → stopped h s'.
Proof. unfold stopped. intros (H1 & H2 & H3) E1 E2 E3 E4. rewrite E1, E3, E4. split_and!; [done| |done]. intros x Hx. by apply H2, E2. Qed.

Lemma stopped_impl h d s : stopped h s → td_handle d ≠ h → stopped h (RegisterTimerImpl d s).
Proof.
  intros (H1 & H2 & H3) Hd. unfold RegisterTimerImpl. case_decide; [done|]. set (k := _ + _).
  assert (stopped h (s <| lp_timerMap ::= mm_insert k d |> <| lp_timerEmpty := false |>)) as Hi.
  { split_and!; [done| |done]. simpl. intros x [-> |Hx]%mm_insert_elem_of; [done|by apply H2]. }
  by destruct (_ || _).
Qed.

Lemma unregister_map h' s r s' :
  UnregisterTimer h' s = Some (r, s') →
  lp_timerHandle s' = lp_timerHandle s ∧ lp_pc s' = lp_pc s ∧ (∀ x, x ∈ lp_timerMap s' → x ∈ lp_timerMap s).
Proof.
  unfold UnregisterTimer. case_decide; [by intros [= <- <-]|]. destruct (lp_executedHandle s !! h') as [[]|]; [done|by intros [= <- <-]|].
  destruct (find_timer _ _) as [[i x]|]; intros [= <- <-]; [|done]. destruct (_ && _); (split_and!; [done..|]);
    intros y Hy; (eapply elem_of_sublist; [exact Hy|apply sublist_delete]).
Qed.

Lemma stopped_after h timer d s : stopped h s → td_handle d ≠ h → stopped h (ExecuteTimerCb_after timer d s).
Proof.
  intros (H1 & H2 & H3) Hd. unfold ExecuteTimerCb_after. destruct (td_repeat d && _); [|by split_and!; [..|by intros ? []]].
  rewrite impl_pc. apply stopped_impl; [|done]. by split_and!; [..|by intros ? []].
Qed.

Lemma stopped_step h s s' : loop_step s s' → loop_inv s → stopped h s → stopped h s'.
Proof.
  destruct 1; intros HI Hs; try (apply (stopped_frame h s); try done; by rewrite ?H).
  - unfold RegisterTimer. rewrite decide_False by apply HI. simpl. destruct Hs as (H1 & H2 & H3). apply stopped_impl; [|simpl; lia].
    split_and!; simpl; [lia|done|done].
  - destruct (unregister_map _ _ _ _ H0) as (? & Hpc & ?). by apply (stopped_frame h s); rewrite ?Hpc.
  - destruct (lp_stopFlag s); apply (stopped_frame h s); try done; by rewrite H.
  - destruct (_ && _); apply (stopped_frame h s); try done; by rewrite H.
  - unfold PollOnce. destruct (lp_timerMap s) as [|[k d] m] eqn:Em; [|case_decide; [|destruct (_ && _)]];
      (apply (stopped_frame h s); simpl; try done; by rewrite ?H, ?Em).
  - unfold FindAndExecuteTimer. simpl. case_decide; [|destruct (find_timer _ (lp_timerMap s)) as [[i [k d]]|]];
      apply (stopped_frame h s); try done; by rewrite H.
  - unfold PollerUnRegisterTimer. case_decide; apply (stopped_frame h s); try done; try (by rewrite ?H).
    simpl. intros x [_ ?]%list_elem_of_filter. done.
  - unfold ExecuteTimerCb. destruct (lp_timerMap s) as [|[k d] m] eqn:Em; [apply (stopped_frame h s); try done; by rewrite ?H, ?Em|].
    case_decide; [apply (stopped_frame h s); try done; by rewrite ?H|]. destruct Hs as (H1 & H2 & _). rewrite Em in H2.
    split_and!; simpl; [by destruct (td_cb d)|intros x Hx; apply H2; by right|].
    destruct (td_cb d); [|case_decide]; simpl; intros d' [E|E]; try done; injection E as <-; apply (H2 (k, d)); left.
  - apply stopped_after; [done|]. destruct Hs as (_ & _ & Hs). apply Hs. left. by rewrite H.
  - apply stopped_after; [done|]. destruct Hs as (_ & _ & Hs). apply Hs. right. by rewrite H.
Qed.

Lemma unregister_stopped h s s' : loop_inv s → UnregisterTimer h s = Some (0, s') → stopped h s'.
Proof.
  intros HI Hu. destruct (unregister_map _ _ _ _ Hu) as (E1 & E2 & _). unfold stopped. rewrite E1, E2. clear E1 E2. unfold UnregisterTimer in Hu.
  rewrite decide_False in Hu by apply HI. destruct (lp_executedHandle s !! h) as [[]|] eqn:Ee; [done| |].
  - injection Hu as <-. split_and!; [apply (li_exec _ HI) in Ee; lia| |].
    + intros x Hx E. destruct (li_range _ HI x Hx). congruence.
    + intros d [Hd|Hd] E; [destruct (li_cb _ HI d Hd)|destruct (li_task _ HI d Hd) as (? & ? & ? & ?)]; subst h; congruence.
  - destruct (find_timer h (lp_timerMap s)) as [[i x]|] eqn:Ef; [|done]. apply find_timer_Some in Ef as [Hi Hx].
    assert (x ∈ lp_timerMap s) as Hin by (by eapply list_elem_of_lookup_2). destruct (li_range _ HI x Hin). split_and!; [lia| |].
    + intros y Hy Ey. assert (y ∈ delete i (lp_timerMap s)) as Hd by (destruct (_ && _) in Hu; injection Hu as <-; exact Hy).
      clear Hu. pose proof (li_handles _ HI) as Hnd.
      rewrite (fmap_Permutation _ _ _ (delete_Permutation _ i x Hi)) in Hnd. simpl in Hnd. apply NoDup_cons in Hnd as [Hni _]. apply Hni.
      apply list_elem_of_fmap. exists y. split; [congruence|done].
    + intros d [Hd|Hd] E; [destruct (li_cb _ HI d Hd); congruence|]. destruct (li_task _ HI d Hd) as (? & ? & ? & Ht). by apply (Ht x); [|congruence].
Qed.

(** ** Sleeping and waking *)

(** The loop is told of [Stop]. *)
Definition stop_seen (s : loop) : Prop := lp_stopFlag s = true → 0 < lp_eventfd s ∨ (0 < lp_stopping s)%nat.

(** The tasks of the queue are taken before a wait without end. *)
Definition tasks_seen (s : loop) : Prop := lp_ready s = 0%nat ∨ 0 < lp_eventfd s.

Definition loop_pc_ok (s : loop) : Prop :=
  match lp_pc s with
  | LPick | LExec | LReady => stop_seen s
  | LPoll t => (t = -1 ∨ t = 0) ∧ stop_seen s ∧ (t = -1 → tasks_seen s)
  | LWait h t D =>
      stop_seen s ∧ (t = -1 → tasks_seen s) ∧ h <= lp_timerHandle s ∧
      (0 < lp_eventfd s ∨ lp_timerMap s = [] ∨ lp_flag s = WAIT ∧ ∃ d, D = Some d ∧ ∀ x, x ∈ lp_timerMap s → d <= x.1) ∧
      (h ≠ -1 → ∃ d, D = Some d ∧ ∀ x, x ∈ lp_timerMap s → td_handle x.2 = h → x.1 < d + MS)
  | LTimedOut h => h <= lp_timerHandle s ∧ (h ≠ -1 → ∀ x, x ∈ lp_timerMap s → td_handle x.2 = h → x.1 < lp_now s + MS)
  | LTimer t | LTask t _ => t < lp_now s + MS
  | LCb t k _ => k <= t < lp_now s + MS
  | _ => True
  end.

(** Timeouts fit an [int] of milliseconds, and the loop is never that far behind. *)
Definition in_range (s : loop) : Prop :=
  ∀ x, x ∈ lp_timerMap s → td_timeout x.2 < 2 ^ 31 ∧ lp_now s - x.1 <= 2 ^ 31 * MS.

Record time_inv (s : loop) : Prop := {
  ti_event : 0 <= lp_eventfd s;
  ti_key : ∀ x, x ∈ lp_timerMap s → x.1 <= lp_now s + td_timeout x.2 * MS;
  ti_range : in_range s;
  ti_pc : loop_pc_ok s;
}.

Definition short_step (s s' : loop) : Prop := loop_step s s' ∧ in_range s'.

(** What steps of other threads may do. *)
Record env_change (s s' : loop) : Prop := {
  ec_pc : lp_pc s' = lp_pc s;
  ec_flag : lp_flag s' = lp_flag s;
  ec_event : lp_eventfd s <= lp_eventfd s';
  ec_now : lp_now s <= lp_now s';
  ec_handle : lp_timerHandle s <= lp_timerHandle s';
  ec_ready : (lp_ready s' <= lp_ready s)%nat ∨ 0 < lp_eventfd s';
  ec_stop : lp_stopFlag s' = lp_stopFlag s ∧ lp_stopping s' = lp_stopping s ∨ 0 < lp_eventfd s' ∨ (0 < lp_stopping s')%nat;
  ec_map : ∀ x, x ∈ lp_timerMap s' → x ∈ lp_timerMap s ∨
    lp_timerHandle s < td_handle x.2 ∧ x.1 = lp_now s + td_timeout x.2 * MS ∧
    (0 < lp_eventfd s' ∨ (∃ y, y ∈ lp_timerMap s ∧ y.1 <= x.1) ∨ lp_flag s ≠ WAIT ∧ lp_timerMap s ≠ []);
}.

Lemma env_stop s s' : env_change s s' → stop_seen s → stop_seen s'.
Proof. intros []. unfold stop_seen. destruct ec_stop0 as [[-> ->]|?]; [|tauto]. intros H Hs. destruct (H Hs); [left; lia|by right]. Qed.

Lemma env_tasks s s' : env_change s s' → tasks_seen s → tasks_seen s'.
Proof. intros []. unfold tasks_seen. destruct ec_ready0; [|tauto]. intros [?|?]; [left|right]; lia. Qed.

Lemma env_pc_ok s s' : env_change s s' → loop_inv s → 0 <= lp_eventfd s → loop_pc_ok s → loop_pc_ok s'.
Proof.
  intros HE HI H0 Hp. pose proof (env_stop _ _ HE) as Hst. pose proof (env_tasks _ _ HE) as Htk. destruct HE. unfold loop_pc_ok in *. rewrite ec_pc0.
  destruct (lp_pc s) eqn:Epc; try tauto; try lia.
  - destruct Hp as (? & ? & Hh & Hsl & Hea). split_and!; [tauto|tauto|lia| |].
    + destruct Hsl as [?|[Hm|(Hf & d & -> & Hd)]]; [left; lia| |].
      * destruct (lp_timerMap s') as [|x m] eqn:Em; [by right; left|]. left. destruct (ec_map0 x) as [Hx|(_ & _ & [?|[(y & Hy & _)|[_ ?]]])]; [left|..]; try done.
        -- rewrite Hm in Hx. by apply not_elem_of_nil in Hx.
        -- rewrite Hm in Hy. by apply not_elem_of_nil in Hy.
      * destruct (decide (0 < lp_eventfd s')); [by left|]. right. right. split; [congruence|]. exists d. split; [done|]. intros x Hx.
        destruct (ec_map0 x Hx) as [?|(_ & _ & [?|[(y & Hy & ?)|[? _]]])]; [by apply Hd|done| |done]. specialize (Hd y Hy). lia.
    + intros Hne. destruct (Hea Hne) as (d & -> & Hd). exists d. split; [done|]. intros x Hx E.
      destruct (ec_map0 x Hx) as [?|(? & _)]; [by apply Hd|lia].
  - destruct Hp as [Hh Hea]. split; [lia|]. intros Hne x Hx E. destruct (ec_map0 x Hx) as [Hin|(? & _)]; [|lia]. specialize (Hea Hne x Hin E). lia.
Qed.

Lemma env_time s s' : env_change s s' → in_range s' → loop_inv s → time_inv s → time_inv s'.
Proof.
  intros HE Hr HI [T1 T2 T3 T4]. pose proof (env_pc_ok s s' HE HI T1 T4). destruct HE. split; [lia| |done|done].
  intros x Hx. destruct (ec_map0 x Hx) as [Hin|(_ & -> & _)]; [specialize (T2 x Hin)|]; lia.
Qed.

Lemma register_env timeout cb task repeat s :
  loop_inv s → 0 <= lp_eventfd s → env_change s (RegisterTimer timeout cb task repeat s).2.
Proof.
  intros HI H0. unfold RegisterTimer. rewrite decide_False by apply HI. simpl. set (tm := if decide _ then _ else _). clearbody tm.
  unfold RegisterTimerImpl. simpl. rewrite decide_False by apply HI. set (k := lp_now s + tm * MS). set (d := mkTimerData _ _ _ _ _).
  assert (Hx : ∀ x, x ∈ mm_insert k d (lp_timerMap s) → x ∈ lp_timerMap s ∨ x = (k, d)) by (intros x [?|?]%mm_insert_elem_of; tauto).
  destruct (_ || _) eqn:Ew; split; simpl; try lia; try tauto.
  - intros x [Hin| ->]%Hx; [by left|right]. split; [simpl; lia|]. split; [done|]. left. simpl. lia.
  - intros x [Hin| ->]%Hx; [by left|right]. split; [simpl; lia|]. split; [done|]. apply orb_false_iff in Ew as [He%bool_decide_eq_false Ew]. right.
    apply andb_false_iff in Ew as [Ew|Hf%bool_decide_eq_false]; [left|by right]. destruct (lp_timerMap s) as [|[k' d'] m] eqn:Em; [done|].
    simpl in Ew. apply bool_decide_eq_false in Ew. exists (k', d'). split; [left|simpl; lia].
Qed.

Lemma unregister_env h s r s' : UnregisterTimer h s = Some (r, s') → env_change s s'.
Proof.
  intros Hu. destruct (unregister_map _ _ _ _ Hu) as (E1 & E2 & E3). unfold UnregisterTimer in Hu. case_decide.
  { injection Hu as <- <-. split; try done; [by left|by left|by left]. }
  destruct (lp_executedHandle s !! h) as [[]|]; [done|injection Hu as <- <-; split; try done; by left|].
  destruct (find_timer h (lp_timerMap s)) as [[i x]|]; injection Hu as <- <-; [|split; try done; by left].
  destruct (_ && _); split; simpl in *; try done; try lia; try (by left); intros y Hy; left; by apply E3.
Qed.

(** The timeout chosen ends the wait within the last millisecond before the timer. *)
Lemma first_timeout s k d m :
  time_inv s → lp_timerMap s = (k, d) :: m → let r := i32 ((k - lp_now s) `quot` MS) in
  r <= 0 ∨ lp_now s + r * MS <= k < lp_now s + r * MS + MS.
Proof.
  intros [_ T2 T3 _] Em. assert ((k, d) ∈ lp_timerMap s) as Hin by (rewrite Em; left). specialize (T2 _ Hin). destruct (T3 _ Hin) as [H1 H2]. simpl in *.
  rewrite i32_small; unfold MS in *; Z.to_euclidean_division_equations; lia.
Qed.

Lemma poll_time s timeout :
  loop_inv s → time_inv s → lp_pc s = LPoll timeout → in_range (PollOnce timeout s) → time_inv (PollOnce timeout s).
Proof.
  intros HI HT Hpc Hr. pose proof (ti_pc _ HT) as Hp. unfold loop_pc_ok in Hp. rewrite Hpc in Hp. destruct Hp as (Ht & Hst & Htk).
  pose proof (li_hdl _ HI) as Hh. unfold PollOnce in *. destruct (lp_timerMap s) as [|[k d] m] eqn:Em.
  - split; [apply HT|apply HT|done|]. unfold loop_pc_ok. simpl. split_and!; [done|done|done|by right; left|done].
  - pose proof (first_timeout s k d m HT Em) as Hf. simpl in Hf. set (r := i32 _) in *. case_decide as Hr0.
    { split; [apply HT|apply HT|done|]. unfold loop_pc_ok, MS. simpl. lia. }
    destruct Hf as [?|Hf]; [lia|].
    assert (Hmin : ∀ x, x ∈ lp_timerMap s → k <= x.1) by (intros x Hx; rewrite Em in Hx; eapply mm_sorted_head_min; [rewrite <-Em; apply HI|done]).
    destruct (_ && _) eqn:Eb; (split; [apply HT|apply HT|done|]); unfold loop_pc_ok; simpl.
    + apply andb_true_iff in Eb as [Hn%bool_decide_eq_true Hlt%bool_decide_eq_true]. split_and!; [done|done|done| |done].
      right. right. split; [done|]. eexists. split; [done|]. intros x Hx. specialize (Hmin x Hx). unfold MS in *. nia.
    + destruct (li_range _ HI (k, d)) as [? _]; [rewrite Em; left|]. simpl in *. split_and!; [done|done|lia| |].
      * right. right. split; [done|]. eexists. split; [done|]. intros x Hx. specialize (Hmin x Hx). lia.
      * intros _. eexists. split; [done|]. intros x Hx E. pose proof (li_handles _ HI) as Hnd. rewrite Em in Hx, Hnd.
        apply elem_of_cons in Hx as [-> |Hx]; [simpl; lia|]. simpl in Hnd. apply NoDup_cons in Hnd as [Hni _]. destruct Hni.
        apply list_elem_of_fmap. exists x. by split.
Qed.

Lemma time_pc s s' :
  time_inv s → 0 <= lp_eventfd s' → lp_timerMap s' = lp_timerMap s → lp_now s' = lp_now s → loop_pc_ok s' → time_inv s'.
Proof. intros [T1 T2 T3 T4] E1 E2 E3 Hp. split; [done|..|done]; unfold in_range; by rewrite E2, E3. Qed.

Lemma after_time timer d s :
  loop_inv s → time_inv s → timer < lp_now s + MS → in_range (ExecuteTimerCb_after timer d s) →
  time_inv (ExecuteTimerCb_after timer d s).
Proof.
  intros HI [T1 T2 T3 T4] Ht Hr. unfold ExecuteTimerCb_after in *. destruct (td_repeat d && _); [|by split].
  unfold RegisterTimerImpl in *. simpl in *. rewrite decide_False in * by apply HI. set (k := lp_now s + td_timeout d * MS) in *.
  assert (∀ x, x ∈ mm_insert k d (lp_timerMap s) → x.1 <= lp_now s + td_timeout x.2 * MS) as Hk.
  { intros x [-> |Hx]%mm_insert_elem_of; [done|by apply T2]. }
  destruct (_ || _); split; simpl; try done. lia.
Qed.

Lemma short_step_time s s' : short_step s s' → loop_inv s → time_inv s → time_inv s'.
Proof.
  intros [Hstep Hr] HI HT. pose proof (ti_event _ HT) as He. pose proof (ti_pc _ HT) as Hp. destruct Hstep;
    try (by apply (env_time s); [split; simpl; try done; try lia; try (by left); tauto || (right; left; lia) || (right; right; lia)|..]);
    try (unfold loop_pc_ok in Hp; rewrite H in Hp).
  all: try (apply (time_pc s); [done..|]; unfold loop_pc_ok; simpl; tauto).
  - apply (env_time s); [by apply register_env|done..].
  - apply (env_time s); [by eapply unregister_env|done..].
  - destruct (lp_stopFlag s) eqn:Es; apply (time_pc s); try done. unfold loop_pc_ok, stop_seen. simpl. congruence.
  - apply (time_pc s); try done. unfold loop_pc_ok, tasks_seen. simpl. split_and!; [by left|done|by left].
  - destruct (_ && _); apply (time_pc s); try done. unfold loop_pc_ok. simpl. split_and!; [by right|done|done].
  - by apply poll_time; [..|].
  - apply (time_pc s); try done. unfold loop_pc_ok. simpl. destruct Hp as (_ & _ & ? & _ & Hea). split; [done|]. intros Hne x Hx E.
    destruct (Hea Hne) as (d' & [= <-] & Hd). specialize (Hd x Hx E). lia.
  - unfold FindAndExecuteTimer. simpl. case_decide; [by apply (time_pc s)|]. destruct (find_timer h (lp_timerMap s)) as [[i [k d]]|] eqn:Ef; [|by apply (time_pc s)].
    apply (time_pc s); try done. apply find_timer_Some in Ef as [Hi Hh]. unfold loop_pc_ok. simpl. destruct Hp as [_ Hp].
    apply (Hp ltac:(done) (k, d)); [by eapply list_elem_of_lookup_2|done].
  - unfold ProcessWaitedFds. apply (time_pc s); simpl; try done. by destruct wake.
  - unfold PollerUnRegisterTimer in *. case_decide; [by apply (time_pc s)|]. destruct HT. split; simpl; try done. intros x [_ Hx]%list_elem_of_filter. by apply ti_key0.
  - unfold ExecuteTimerCb in *. destruct (lp_timerMap s) as [|[k d] m] eqn:Em; [by apply (time_pc s)|]. case_decide; [by apply (time_pc s)|].
    destruct HT. rewrite Em in *. split; simpl; [done| |done|].
    + intros x Hx. apply ti_key0. by right.
    + unfold loop_pc_ok. simpl. destruct (td_cb d); [lia|]. by case_decide.
  - apply after_time; [done..|lia|done].
  - apply after_time; [done..|lia|done].
Qed.

Lemma reach_time s : rtc short_step loop_init s → loop_inv s ∧ time_inv s.
Proof.
  apply (rtc_invariant _ (λ s, loop_inv s ∧ time_inv s)).
  - split; [apply loop_inv_init|]. split; simpl; [done|by intros x ?%not_elem_of_nil|by intros x ?%not_elem_of_nil|done].
  - intros a b [HI HT] Hs. split; [eapply loop_step_inv; [apply Hs|done]|by eapply short_step_time].
Qed.

(** ** Theorems *)

(** One timer of 20 ms is started; the loop sleeps, and its callback runs. *)
Definition demo_sleep : loop := PollOnce (-1) ((RegisterTimer 20 true 0 true loop_init).2 <| lp_pc := LPick |> <| lp_pc := LPoll (-1) |>).
Definition demo_cb : loop :=
  ExecuteTimerCb (20 * MS) (FindAndExecuteTimer 0 (demo_sleep <| lp_now := 20 * MS |> <| lp_pc := LTimedOut 0 |> <| lp_flag := WAKE |>)).

Lemma in_range_all s : forallb (λ x, bool_decide (td_timeout x.2 < 2 ^ 31) && bool_decide (lp_now s - x.1 <= 2 ^ 31 * MS)) (lp_timerMap s) = true → in_range s.
Proof.
  intros H x Hx. rewrite forallb_forall in H. specialize (H x (proj1 (list_elem_of_In _ _) Hx)). apply andb_true_iff in H as [H1 H2].
  by apply bool_decide_eq_true in H1, H2.
Qed.

(** A step of a concrete run with timeouts in range. *)
Tactic Notation "short_run" uconstr(c) := eapply rtc_l; [split; [eapply c; vm_compute; reflexivity|apply in_range_all; vm_compute; reflexivity]|].

Lemma demo_sleep_reachable : rtc short_step loop_init demo_sleep.
Proof.
  assert (∃ s, rtc short_step loop_init s ∧ s = demo_sleep) as (s & Hr & <-); [|done]. eexists. split.
  - eapply rtc_l; [split; [by apply (ls_register _ 20 true 0 true)|by apply in_range_all]|].
    short_run ls_top. short_run ls_pick_none. short_run (ls_poll _ (-1)). apply rtc_refl.
  - vm_compute. reflexivity.
Qed.

Lemma demo_cb_reachable : rtc short_step loop_init demo_cb.
Proof.
  eapply rtc_trans; [apply demo_sleep_reachable|]. assert (∃ s, rtc short_step demo_sleep s ∧ s = demo_cb) as (s & Hr & <-); [|done]. eexists. split.
  - eapply rtc_l; [split; [by apply (ls_time _ (20 * MS))|apply in_range_all; vm_compute; reflexivity]|].
    eapply rtc_l; [split; [apply (ls_timed_out _ 0 (-1) (20 * MS)); [vm_compute; reflexivity|by vm_compute]|apply in_range_all; vm_compute; reflexivity]|].
    short_run (ls_timer_due _ 0). short_run (ls_timer _ (20 * MS)). apply rtc_refl.
  - vm_compute. reflexivity.
Qed.

Lemma short_steps s s' : rtc short_step s s' → rtc loop_step s s'.
Proof. induction 1 as [|a b c [Hs _] _ IH]; [done|]. by eapply rtc_l. Qed.

(** C12: While the eventfd of a loop is not set and its thread sleeps, there is nothing it
    should be awake for: [Stop] has not been called or is about to write the eventfd,
    a wait without end has no task in the queue, and the wait ends no later than the
    first timer is due.  This holds in every interleaving of pushes, registered and
    cancelled timers and [Stop] with the loop, for timeouts below 2^31 ms. *)
Theorem loop_sleep_attended s h t D :
  rtc short_step loop_init s → lp_pc s = LWait h t D → lp_eventfd s = 0 →
  (lp_stopFlag s = true → (0 < lp_stopping s)%nat) ∧ (t = -1 → lp_ready s = 0%nat) ∧
  (∀ x, x ∈ lp_timerMap s → ∃ d, D = Some d ∧ d <= x.1).
Proof.
  intros [HI HT]%reach_time Hpc He. pose proof (ti_pc _ HT) as Hp. unfold loop_pc_ok, stop_seen, tasks_seen in Hp. rewrite Hpc, He in Hp.
  destruct Hp as (Hst & Htk & _ & Hsl & _). split_and!.
  - intros Hs. destruct (Hst Hs); [lia|done].
  - intros Ht. destruct (Htk Ht); [done|lia].
  - intros x Hx. destruct Hsl as [?|[Hm|(_ & d & -> & Hd)]]; [lia|rewrite Hm in Hx; by apply not_elem_of_nil in Hx|eauto].
Qed.

(** The thread is woken once by the timer's registration and sleeps again. *)
Definition demo_asleep : loop :=
  PollOnce (-1) (PollerUnRegisterTimer [] (ProcessWaitedFds true (demo_sleep <| lp_pc := LEvents true |> <| lp_flag := WAKE |>) <| lp_pc := LUnreg [] |>)
    <| lp_pc := LTop |> <| lp_pc := LPick |> <| lp_pc := LPoll (-1) |>).

Lemma demo_asleep_reachable : rtc short_step loop_init demo_asleep.
Proof.
  eapply rtc_trans; [apply demo_sleep_reachable|]. assert (∃ s, rtc short_step demo_sleep s ∧ s = demo_asleep) as (s & Hr & <-); [|done].
  eexists. split.
  - eapply rtc_l; [split; [apply (ls_events _ 0 (-1) (Some (20 * MS)) true); [vm_compute; reflexivity|by vm_compute]|apply in_range_all; vm_compute; reflexivity]|].
    short_run (ls_process _ true []). short_run (ls_unreg _ []). short_run ls_top. short_run ls_pick_none. short_run (ls_poll _ (-1)). apply rtc_refl.
  - vm_compute. reflexivity.
Qed.

Lemma loop_sleep_attended_witness :
  (lp_stopFlag demo_asleep = true → (0 < lp_stopping demo_asleep)%nat) ∧ (-1 = -1 → lp_ready demo_asleep = 0%nat) ∧
  (∀ x, x ∈ lp_timerMap demo_asleep → ∃ d, Some (20 * MS) = Some d ∧ d <= x.1).
Proof.
  apply (loop_sleep_attended demo_asleep 0 (-1) (Some (20 * MS)) demo_asleep_reachable); vm_compute; reflexivity.
Defined.

(** A timer is not executed before it is due, up to the last millisecond, when all
    timeouts are below 2^31 ms. *)
Theorem loop_timer_not_early s timer k d :
  rtc short_step loop_init s → lp_pc s = LCb timer k d → k <= timer < lp_now s + MS.
Proof. intros [HI HT]%reach_time Hpc. pose proof (ti_pc _ HT) as Hp. unfold loop_pc_ok in Hp. by rewrite Hpc in Hp. Qed.

Lemma loop_timer_not_early_witness : 20 * MS <= 20 * MS < lp_now demo_cb + MS.
Proof. apply (loop_timer_not_early demo_cb (20 * MS) (20 * MS) (mkTimerData true 0 0 true 20)); [apply demo_cb_reachable|vm_compute; reflexivity]. Defined.

(** When the stop of a timer has returned 0, its callback is not running, the timer is
    gone, and the callback never runs again, whatever the loop was doing with it. *)
Theorem loop_timer_stop_final h s s1 s2 :
  rtc loop_step loop_init s → UnregisterTimer h s = Some (0, s1) → timer_lock_free s → rtc loop_step s1 s2 →
  (∀ timer k d, lp_pc s2 = LCb timer k d → td_handle d ≠ h) ∧ find_timer h (lp_timerMap s2) = None.
Proof.
  intros Hr%reach_inv Hu Hl Hr2.
  assert (loop_inv s2 ∧ stopped h s2) as [_ (_ & Hm & Hd)].
  { revert Hr2. apply (rtc_invariant _ (λ s, loop_inv s ∧ stopped h s)); [split; [by eapply loop_unregister_inv|by eapply unregister_stopped]|].
    intros a b [HI Hs] Hstep. split; [by eapply loop_step_inv|by eapply stopped_step]. }
  split; [|by apply find_timer_None]. intros timer k d Hpc. apply Hd. left. by rewrite Hpc.
Qed.

Lemma loop_timer_stop_final_witness : ∃ s1, UnregisterTimer 0 demo_sleep = Some (0, s1) ∧ find_timer 0 (lp_timerMap s1) = None.
Proof.
  destruct (UnregisterTimer 0 demo_sleep) as [[r s1]|] eqn:E; [|vm_compute in E; done].
  assert (r = 0) as -> by (vm_compute in E; congruence). exists s1. split; [done|].
  by apply (loop_timer_stop_final 0 demo_sleep s1 s1 (short_steps _ _ demo_sleep_reachable)).
Defined.

(** While the callback of a timer runs, the stop of that timer and the query of its
    status do not return: a callback that makes either call on its own timer
    keeps the loop for ever. *)
Theorem loop_timer_self_stop_hangs s timer k d :
  rtc loop_step loop_init s → lp_pc s = LCb timer k d →
  UnregisterTimer (td_handle d) s = None ∧ GetTimerStatus (td_handle d) s = None ∧ GetTimerStatus_again (td_handle d) s = None.
Proof.
  intros HI%reach_inv Hpc. destruct (li_cb _ HI d) as [_ He]; [by rewrite Hpc|].
  unfold UnregisterTimer, GetTimerStatus, GetTimerStatus_again. rewrite !decide_False by apply HI. rewrite He, decide_True by done.
  split_and!; [done| |done]. destruct (find_timer _ _) as [[i x]|] eqn:Ef; [|done]. apply find_timer_Some in Ef as [Hi E].
  destruct (li_range _ HI x) as [_ Hn]; [by eapply list_elem_of_lookup_2|]. congruence.
Qed.

Lemma loop_timer_self_stop_hangs_witness : UnregisterTimer 0 demo_cb = None.
Proof.
  apply (loop_timer_self_stop_hangs demo_cb (20 * MS) (20 * MS) (mkTimerData true 0 0 true 20) (short_steps _ _ demo_cb_reachable)).
  vm_compute. reflexivity.
Defined.

(** The time to the first timer is cut to 32 bits: a timer of 2^32 + 5 ms, some 50
    days, is executed after 5 ms, and with one of 2^31 ms as the first timer every poll
    returns at once without executing anything, so that the loop spins. *)
Theorem loop_timer_truncated :
  (∃ s timer k d, rtc loop_step loop_init s ∧ lp_pc s = LCb timer k d ∧ lp_now s = 5 * MS ∧ k = (2 ^ 32 + 5) * MS) ∧
  (∃ s, rtc loop_step loop_init s ∧ lp_pc s = LPoll (-1) ∧ ExecuteTimerCb (lp_now s) (PollOnce (-1) s) = s <| lp_pc := LTop |> ∧
     (λ x, x.1) <$> lp_timerMap s = [2 ^ 31 * MS]).
Proof.
  split.
  - eexists _, _, _, _. split.
    { eapply rtc_l; [by apply (ls_register _ (2 ^ 32 + 5) true 0 false)|]. run_step ls_top. run_step ls_pick_none. run_step (ls_poll _ (-1)).
      eapply rtc_l; [by apply (ls_time _ (5 * MS))|].
      eapply rtc_l; [apply (ls_timed_out _ 0 (-1) (5 * MS)); [vm_compute; reflexivity|by vm_compute]|].
      run_step (ls_timer_due _ 0). run_step (ls_timer _ ((2 ^ 32 + 5) * MS)). apply rtc_refl. }
    split_and!; vm_compute; reflexivity.
  - eexists. split.
    { eapply rtc_l; [by apply (ls_register _ (2 ^ 31) true 0 false)|]. run_step ls_top. run_step ls_pick_none. apply rtc_refl. }
    split_and!; vm_compute; reflexivity.
Qed.
End LoopPoller.
