(* ===== verification/CoRoutine.v ===== *)
(** * Coroutines

    Models src/eu/co_routine.cpp and include/eu/co_routine.h: a worker runs a task on
    a coroutine stack, which the task keeps while it waits and which the worker
    keeps as a cache when the task is done.  [CoStart], [CoWait] and the end of a task
    are split where the control passes between the stack of the worker and that of
    the coroutine, and where the predicate of a wait hands the task over to
    its next owner, after which any worker may resume it.

    Stacks live in a store; an operation on one that is not in it (freed), a null
    dereference, a jump into a context that is not that of the task or not that of the
    worker give [None].  The bodies of tasks are arbitrary. *)

From S2P Require Import Prelude.

Module CoRoutine.

Abbreviation task := positive.
Abbreviation worker := nat.
Abbreviation stack := positive.

Inductive CoStatus := CO_UNINITIALIZED | CO_NOT_FINISH | CO_RUNNING.

#[export] Instance CoStatus_eq_dec : EqDecision CoStatus.
Proof. solve_decision. Defined.

(** What a context holds: nothing (it is being run, or was left for good), the
    entry [CoStartEntry], or the point where a task waits. *)
Inductive CoCtx := CtxNone | CtxEntry | CtxSaved (t : task).

Record CoRoutine := mkCoRoutine {
  co_status : CoStatus;
  co_thEnv : option worker;
  co_task : option task;
  co_ctx : CoCtx;
  co_allocatedSize : Z;
  co_isTaskDone : bool;
}.

#[export] Instance CoRoutine_eta : Eta CoRoutine := λ c,
  mkCoRoutine (co_status c) (co_thEnv c) (co_task c) (co_ctx c) (co_allocatedSize c) (co_isTaskDone c).

(** [env_pending] says whether [pending] is set. *)
Record CoRoutineEnv := mkCoRoutineEnv { env_runningCo : option stack; env_pending : bool }.

#[export] Instance CoRoutineEnv_eta : Eta CoRoutineEnv := λ e, mkCoRoutineEnv (env_runningCo e) (env_pending e).

(** Who has a task: the scheduler, a worker, what it waits for, or nobody. *)
Inductive stage := TReady | TTaken | TWaiting | TDone.

Record CoTask := mkCoTask {
  tk_normal : bool;               (* ffrt_normal_task, or a queue task *)
  tk_coRoutine : option stack;
  tk_stack_size : Z;
  tk_stage : stage;
}.

#[export] Instance CoTask_eta : Eta CoTask := λ k, mkCoTask (tk_normal k) (tk_coRoutine k) (tk_stack_size k) (tk_stage k).

(** Where a worker is: without a task, in the loop of [ExecuteTask] before
    [CoStart], in the coroutine of a task, back in [CoStart], in the predicate of a wait,
    and past the hand-over in it. *)
Inductive worker_pc := WIdle | WStart (t : task) | WRun (t : task) (c : stack) | WBack (t : task) (c : stack) | WPred (t : task) (c : stack) | WLeft.

Record co_state := mk_co {
  cs_heap : gmap stack CoRoutine;
  cs_next : stack;
  cs_env : worker → CoRoutineEnv;
  cs_pc : worker → worker_pc;
  cs_task : gmap task CoTask;
}.

#[export] Instance co_state_eta : Eta co_state := λ s, mk_co (cs_heap s) (cs_next s) (cs_env s) (cs_pc s) (cs_task s).

Definition co_init : co_state := mk_co ∅ 1 (λ _, mkCoRoutineEnv None false) (λ _, WIdle) ∅.

Definition runningCo (s : co_state) (w : worker) : option stack := env_runningCo (cs_env s w).
Definition set_runningCo (w : worker) (c : option stack) (s : co_state) : co_state :=
  s <| cs_env ::= λ e, <[w := e w <| env_runningCo := c |>]> e |>.
Definition goto (w : worker) (pc : worker_pc) (s : co_state) : co_state := s <| cs_pc ::= <[w := pc]> |>.
Definition upd_co (c : stack) (f : CoRoutine → CoRoutine) (s : co_state) : option co_state :=
  o ← cs_heap s !! c; Some (s <| cs_heap ::= <[c := f o]> |>).
Definition upd_cotask (t : task) (f : CoTask → CoTask) (s : co_state) : option co_state :=
  k ← cs_task s !! t; Some (s <| cs_task ::= <[t := f k]> |>).

(** *** Stacks *)

Definition CoMemFree (c : stack) (s : co_state) : option co_state :=
  _ ← cs_heap s !! c; Some (s <| cs_heap ::= delete c |>).

(** [ok] is whether memory was found. *)
Definition AllocNewCoRoutine (ok : bool) (size : Z) (s : co_state) : option stack * co_state :=
  if ok then
    let c := cs_next s in
    (Some c, s <| cs_next := Pos.succ c |> <| cs_heap ::= <[c := mkCoRoutine CO_UNINITIALIZED None None CtxNone size false]> |>)
  else (None, s).

Definition CoStackFree (w : worker) (s : co_state) : option co_state :=
  match runningCo s w with Some c => s ← CoMemFree c s; Some (set_runningCo w None s) | None => Some s end.

Definition BindNewCoRoutione (t : task) (w : worker) (s : co_state) : option co_state :=
  c ← runningCo s w;
  s ← upd_cotask t (λ k, k <| tk_coRoutine := Some c |>) s;
  upd_co c (λ o, o <| co_task := Some t |> <| co_thEnv := Some w |>) s.

Definition CoAlloc (ok : bool) (t : task) (w : worker) (s : co_state) : option co_state :=
  k ← cs_task s !! t;
  match tk_coRoutine k, runningCo s w with
  | Some c, Some cached => s ← CoMemFree cached s; Some (set_runningCo w (Some c) s)
  | Some c, None => Some (set_runningCo w (Some c) s)
  | None, None => let '(c, s) := AllocNewCoRoutine ok (tk_stack_size k) s in Some (set_runningCo w c s)
  | None, Some cached =>
      o ← cs_heap s !! cached;
      if decide (co_allocatedSize o = tk_stack_size k) then Some s
      else
        s ← CoMemFree cached s;
        let '(c, s) := AllocNewCoRoutine ok (tk_stack_size k) s in Some (set_runningCo w c s)
  end.

(** [CoCreate] from the allocation on: a coroutine that is not initialised gets
    a context that starts at its entry. *)
Definition CoBind (t : task) (w : worker) (s : co_state) : option co_state :=
  s ← BindNewCoRoutione t w s;
  c ← runningCo s w;
  o ← cs_heap s !! c;
  if decide (co_status o = CO_UNINITIALIZED) then upd_co c (λ o, o <| co_ctx := CtxEntry |>) s else Some s.

(** The result is whether it succeeded. *)
Definition CoCreate (ok1 ok2 : bool) (t : task) (w : worker) (s : co_state) : option (bool * co_state) :=
  s ← CoAlloc ok1 t w s;
  match runningCo s w with
  | Some _ => s ← CoBind t w s; Some (true, s)
  | None =>
      s ← CoAlloc ok2 t w s;
      match runningCo s w with Some _ => s ← CoBind t w s; Some (true, s) | None => Some (false, s) end
  end.

Definition CoBboxPreCheck (t : task) (s : co_state) : option (bool * co_state) :=
  k ← cs_task s !! t;
  match tk_coRoutine k with
  | None => Some (true, s)
  | Some c =>
      o ← cs_heap s !! c;
      s ← upd_co c (λ o, o <| co_status := CO_RUNNING |>) s;
      Some (bool_decide (co_status o ≠ CO_RUNNING), s)
  end.

(** *** Switches *)

(** [CoSwitch] of the worker into the coroutine of its task. *)
Definition switch_in (w : worker) (t : task) (c : stack) (s : co_state) : option co_state :=
  o ← cs_heap s !! c;
  if decide (co_thEnv o = Some w ∧ co_task o = Some t) then
    match co_ctx o with
    | CtxNone => None
    | CtxSaved t' => if decide (t' = t) then goto w (WRun t c) <$> upd_co c (λ o, o <| co_ctx := CtxNone |>) s else None
    | CtxEntry => goto w (WRun t c) <$> upd_co c (λ o, o <| co_ctx := CtxNone |>) s
    end
  else None.

(** [CoStart] up to the switch. *)
Definition CoStart (ok1 ok2 : bool) (w : worker) (t : task) (s : co_state) : option co_state :=
  '(ok, s) ← CoBboxPreCheck t s;
  if ok : bool then
    '(ok, s) ← CoCreate ok1 ok2 t w s;
    if ok : bool then k ← cs_task s !! t; c ← tk_coRoutine k; switch_in w t c s
    else Some (goto w (WStart t) s)
  else Some (goto w WIdle s).

(** [CoWait], by the task that runs on the worker. *)
Definition CoWait (w : worker) (t : task) (s : co_state) : option co_state :=
  c ← runningCo s w;
  s ← upd_co c (λ o, o <| co_status := CO_NOT_FINISH |> <| co_ctx := CtxSaved t |>) s;
  Some (goto w (WBack t c) (s <| cs_env ::= <[w := mkCoRoutineEnv None true]> |>)).

(** The end of [CoStartEntry] after [Execute].  That of a normal task marks the
    coroutine and unbinds it.  That of a queue task has finished the task and unbinds
    the coroutine; when the task was [finished] before, it returned at once and the
    task keeps its pointer.  [CoExit] jumps to the worker the coroutine names. *)
Definition CoStartEntry_end (finished : bool) (w : worker) (t : task) (c : stack) (s : co_state) : option co_state :=
  k ← cs_task s !! t;
  s ← (if tk_normal k then
         c' ← tk_coRoutine k;
         s ← upd_co c' (λ o, o <| co_isTaskDone := true |>) s;
         upd_cotask t (λ k, k <| tk_coRoutine := None |>) s
       else if finished then upd_cotask t (λ k, k <| tk_stage := TDone |>) s
       else upd_cotask t (λ k, k <| tk_coRoutine := None |> <| tk_stage := TDone |>) s);
  s ← upd_co c (λ o, o <| co_status := CO_UNINITIALIZED |>) s;
  o ← cs_heap s !! c;
  if decide (co_thEnv o = Some w) then Some (goto w (WBack t c) s) else None.

(** [CoStart] after the switch back. *)
Definition CoStart_back (w : worker) (t : task) (c : stack) (s : co_state) : option co_state :=
  o ← cs_heap s !! c;
  if co_isTaskDone o then
    s ← upd_cotask t (λ k, k <| tk_stage := TDone |>) s;                          (* onTaskDone *)
    goto w WIdle <$> upd_co c (λ o, o <| co_isTaskDone := false |>) s
  else if env_pending (cs_env s w) then
    Some (goto w (WPred t c) (s <| cs_env ::= λ e, <[w := e w <| env_pending := false |>]> e |>))
  else Some (goto w WIdle s).

(** The predicate hands the task over. *)
Definition pred_publish (w : worker) (t : task) (s : co_state) : option co_state :=
  goto w WLeft <$> upd_cotask t (λ k, k <| tk_stage := TWaiting |>) s.

(** The predicate returned false: the task goes on at once. *)
Definition pred_false (w : worker) (t : task) (c : stack) (s : co_state) : option co_state :=
  switch_in w t c (set_runningCo w (Some c) s).

(** [CoWake]: the task goes to the scheduler, directly or through its queue. *)
Definition CoWake (t : task) (s : co_state) : option co_state := upd_cotask t (λ k, k <| tk_stage := TReady |>) s.

(** *** Steps *)

Inductive co_step : co_state → co_state → Prop :=
| cst_submit s t normal size : cs_task s !! t = None → co_step s (s <| cs_task ::= <[t := mkCoTask normal None size TReady]> |>)
| cst_free s t k : cs_task s !! t = Some k → tk_stage k = TDone → co_step s (s <| cs_task ::= delete t |>)
| cst_take s w t k :
    cs_pc s w = WIdle → cs_task s !! t = Some k → tk_stage k = TReady →
    co_step s (goto w (WStart t) (s <| cs_task ::= <[t := k <| tk_stage := TTaken |>]> |>))
| cst_start s w t ok1 ok2 s' : cs_pc s w = WStart t → CoStart ok1 ok2 w t s = Some s' → co_step s s'
| cst_wait s w t c s' : cs_pc s w = WRun t c → CoWait w t s = Some s' → co_step s s'
| cst_end s w t c finished s' : cs_pc s w = WRun t c → CoStartEntry_end finished w t c s = Some s' → co_step s s'
| cst_back s w t c s' : cs_pc s w = WBack t c → CoStart_back w t c s = Some s' → co_step s s'
| cst_publish s w t c s' : cs_pc s w = WPred t c → pred_publish w t s = Some s' → co_step s s'
| cst_false s w t c s' : cs_pc s w = WPred t c → pred_false w t c s = Some s' → co_step s s'
| cst_left s w : cs_pc s w = WLeft → co_step s (goto w WIdle s)
| cst_wake s t k s' : cs_task s !! t = Some k → tk_stage k = TWaiting → CoWake t s = Some s' → co_step s s'
| cst_exit s w s' : cs_pc s w = WIdle → CoStackFree w s = Some s' → co_step s s'.

(** ** Ownership of stacks *)

(** The coroutine of a task that is not done; a done task never uses its pointer. *)
Definition bound_to (k : CoTask) : option stack := match tk_stage k with TDone => None | _ => tk_coRoutine k end.

Lemma bound_taken k : tk_stage k = TTaken → bound_to k = tk_coRoutine k.
Proof. intros E. unfold bound_to. by rewrite E. Qed.

Lemma bound_to_co k c : bound_to k = Some c → tk_coRoutine k = Some c ∧ tk_stage k ≠ TDone.
Proof. unfold bound_to. by destruct (tk_stage k). Qed.

Lemma bound_to_live k c : tk_stage k ≠ TDone → tk_coRoutine k = Some c → bound_to k = Some c.
Proof. intros E. unfold bound_to. by destruct (tk_stage k). Qed.

Definition unbound (s : co_state) (c : stack) : Prop := ∀ t k, cs_task s !! t = Some k → bound_to k ≠ Some c.

(** The stack a worker keeps between tasks. *)
Definition cached (s : co_state) (w : worker) : Prop :=
  ∀ c, runningCo s w = Some c →
    ∃ o, cs_heap s !! c = Some o ∧ co_status o = CO_UNINITIALIZED ∧ co_isTaskDone o = false ∧ unbound s c.

(** The stack of a task that waits. *)
Definition suspended (s : co_state) (t : task) (c : stack) : Prop :=
  ∃ o, cs_heap s !! c = Some o ∧ co_status o = CO_NOT_FINISH ∧ co_ctx o = CtxSaved t ∧ co_task o = Some t ∧ co_isTaskDone o = false ∧
    ∀ w, runningCo s w ≠ Some c.

(** The task a worker has. *)
Definition co_taken (s : co_state) (t : task) (c : option stack) : Prop :=
  ∃ k, cs_task s !! t = Some k ∧ tk_stage k = TTaken ∧ tk_coRoutine k = c.

Definition worker_ok (s : co_state) (w : worker) : Prop :=
  match cs_pc s w with
  | WIdle => env_pending (cs_env s w) = false ∧ cached s w
  | WStart t => env_pending (cs_env s w) = false ∧ cached s w ∧ ∃ c, co_taken s t c ∧ ∀ c', c = Some c' → suspended s t c'
  | WRun t c =>
      env_pending (cs_env s w) = false ∧ runningCo s w = Some c ∧ co_taken s t (Some c) ∧
      ∃ o, cs_heap s !! c = Some o ∧ co_thEnv o = Some w ∧ co_task o = Some t ∧ co_isTaskDone o = false
  | WBack t c =>
      if env_pending (cs_env s w)
      then runningCo s w = None ∧ co_taken s t (Some c) ∧ suspended s t c ∧ ∃ o, cs_heap s !! c = Some o ∧ co_thEnv o = Some w
      else runningCo s w = Some c ∧ unbound s c ∧
        ∃ o, cs_heap s !! c = Some o ∧ co_status o = CO_UNINITIALIZED ∧ (co_isTaskDone o = true → co_taken s t None)
  | WPred t c =>
      env_pending (cs_env s w) = false ∧ runningCo s w = None ∧ co_taken s t (Some c) ∧ suspended s t c ∧
      ∃ o, cs_heap s !! c = Some o ∧ co_thEnv o = Some w
  | WLeft => env_pending (cs_env s w) = false ∧ runningCo s w = None
  end.

(** The worker is the one that has the task. *)
Definition owns (s : co_state) (w : worker) (t : task) : Prop :=
  match cs_pc s w with
  | WStart t' | WRun t' _ | WPred t' _ => t' = t
  | WBack t' c => t' = t ∧ (env_pending (cs_env s w) = true ∨ co_isTaskDone <$> cs_heap s !! c = Some true)
  | WIdle | WLeft => False
  end.

Record co_inv (s : co_state) : Prop := {
  ci_waiting : ∀ t k c, cs_task s !! t = Some k → bound_to k = Some c → tk_stage k ≠ TTaken → tk_stage k ≠ TDone ∧ suspended s t c;
  ci_bound : ∀ t k c, cs_task s !! t = Some k → bound_to k = Some c → ∃ o, cs_heap s !! c = Some o ∧ co_task o = Some t;
  ci_one : ∀ w w' c, runningCo s w = Some c → runningCo s w' = Some c → w = w';
  ci_worker : ∀ w, worker_ok s w;
  ci_owner : ∀ w w' t, owns s w t → owns s w' t → w = w';
  ci_fresh : ∀ c o, cs_heap s !! c = Some o → (c < cs_next s)%positive;
}.

Lemma owns_taken s w t : worker_ok s w → owns s w t → ∃ c, co_taken s t c.
Proof.
  unfold worker_ok, owns. destruct (cs_pc s w) as [|t'|t' c|t' c|t' c|]; try done.
  - intros (_ & _ & c & Hc & _) <-. eauto.
  - intros (_ & _ & Hc & _) <-. eauto.
  - intros Hw [<- Ho]. destruct (env_pending (cs_env s w)) eqn:E; [destruct Hw as (_ & Hc & _); eauto|].
    destruct Hw as (_ & _ & o & Hh & _ & Hd). destruct Ho as [|Ho]; [done|]. rewrite Hh in Ho. simpl in Ho. simplify_eq. eauto.
  - intros (_ & _ & Hc & _) <-. eauto.
Qed.

(** A stack is bound to one task. *)
Lemma bound_one s t t' k k' c :
  co_inv s → cs_task s !! t = Some k → cs_task s !! t' = Some k' → bound_to k = Some c → bound_to k' = Some c → t = t'.
Proof.
  intros HI H1 H2 E1 E2. destruct (ci_bound _ HI _ _ _ H1 E1) as (o & Ho & Ht). destruct (ci_bound _ HI _ _ _ H2 E2) as (o' & Ho' & Ht'). congruence.
Qed.

(** The stack a worker works with. *)
Definition has_stack (s : co_state) (w : worker) (c : stack) : Prop :=
  runningCo s w = Some c ∨ ∃ t, owns s w t ∧ ∃ k, cs_task s !! t = Some k ∧ bound_to k = Some c.

(** The stack a worker works with is bound to its own task, if to any. *)
Lemma holds_bound s w c t k : co_inv s → has_stack s w c → cs_task s !! t = Some k → bound_to k = Some c → owns s w t.
Proof.
  intros HI [Hr|(t' & Ho & k' & Hk' & Hc')] Hk Hc; [|assert (t = t') as -> by (by eapply bound_one); done].
  pose proof (ci_worker _ HI w) as Hw. unfold worker_ok, owns in *. destruct (cs_pc s w) as [|t'|t' c'|t' c'|t' c'|] eqn:Epc.
  - destruct Hw as [_ Hw]. destruct (Hw c Hr) as (? & _ & _ & _ & Hu). by destruct (Hu t k Hk).
  - destruct Hw as (_ & Hw & _). destruct (Hw c Hr) as (? & _ & _ & _ & Hu). by destruct (Hu t k Hk).
  - destruct Hw as (_ & Hr' & (k' & Hk' & Hs' & Hc') & _). rewrite <-bound_taken in Hc' by done. rewrite Hr in Hr'. simplify_eq. by eapply bound_one.
  - destruct (env_pending (cs_env s w)); [by destruct Hw as [? _]; congruence|]. destruct Hw as (Hr' & Hu & _). rewrite Hr in Hr'. simplify_eq.
    by destruct (Hu t k Hk).
  - by destruct Hw as (_ & ? & _); congruence.
  - by destruct Hw as (_ & ?); congruence.
Qed.

Lemma running_heap s w c : co_inv s → runningCo s w = Some c → is_Some (cs_heap s !! c).
Proof.
  intros HI Hr. pose proof (ci_worker _ HI w) as Hw. unfold worker_ok, cached in Hw. destruct (cs_pc s w) as [| | |t' c'| |].
  - destruct Hw as [_ Hw]. destruct (Hw c Hr) as (o & Ho & _). eauto.
  - destruct Hw as (_ & Hw & _). destruct (Hw c Hr) as (o & Ho & _). eauto.
  - destruct Hw as (_ & Hr3 & _ & o & Ho & _). rewrite Hr in Hr3. simplify_eq. eauto.
  - destruct (env_pending (cs_env s w)); [destruct Hw as (? & _); congruence|]. destruct Hw as (Hr3 & _ & o & Ho & _). rewrite Hr in Hr3. simplify_eq. eauto.
  - destruct Hw as (_ & ? & _). congruence.
  - destruct Hw as (_ & ?). congruence.
Qed.

Lemma holds_one s w w' c : co_inv s → has_stack s w c → has_stack s w' c → w = w'.
Proof.
  intros HI H1 H2. destruct H1 as [Hr|(t & Ho & k & Hk & Hc)].
  - destruct H2 as [Hr'|(t & Ho & k & Hk & Hc)]; [by eapply ci_one|]. apply (ci_owner _ HI w w' t); [|done]. eapply holds_bound; [done|by left|done..].
  - apply (ci_owner _ HI w w' t); [done|]. by eapply holds_bound.
Qed.

(** The stacks a worker may change in a step with the task [T], and how the rest is
    left alone. *)
Definition mine (s : co_state) (w : worker) (T : option task) (c : stack) : Prop :=
  has_stack s w c ∨ cs_heap s !! c = None ∨ ∃ t k, T = Some t ∧ cs_task s !! t = Some k ∧ bound_to k = Some c.

Record local_step (s s' : co_state) (w : worker) (T : option task) : Prop := {
  ls_other : ∀ w', w' ≠ w → cs_env s' w' = cs_env s w' ∧ cs_pc s' w' = cs_pc s w';
  ls_task : ∀ t, T ≠ Some t → cs_task s' !! t = cs_task s !! t;
  ls_heap : ∀ c, ¬ mine s w T c → cs_heap s' !! c = cs_heap s !! c;
  ls_running : ∀ c, runningCo s' w = Some c → mine s w T c;
  ls_bound : ∀ t k c, T = Some t → cs_task s' !! t = Some k → bound_to k = Some c → mine s w T c;
  ls_unowned : ∀ t w', T = Some t → owns s w' t → w' = w;
  ls_mine : ∀ t, owns s w t → T = Some t;
  ls_then : ∀ t, owns s' w t → T = Some t;
}.

(** Stacks of other tasks are not the worker's. *)
Lemma bound_not_mine s w T t k c :
  co_inv s → (∀ t, owns s w t → T = Some t) → T ≠ Some t → cs_task s !! t = Some k → bound_to k = Some c → ¬ mine s w T c.
Proof.
  intros HI HT Hne Hk Hc [Hh|[Hn|(t' & k' & HT' & Hk' & Hc')]].
  - apply Hne, HT. by eapply holds_bound.
  - destruct (ci_bound _ HI _ _ _ Hk Hc) as (o & Ho & _). congruence.
  - apply Hne. rewrite HT'. f_equal. by eapply bound_one.
Qed.

(** Nor are those of other workers. *)
Lemma held_not_mine s w T w' c :
  co_inv s → (∀ t w', T = Some t → owns s w' t → w' = w) → w' ≠ w → has_stack s w' c → is_Some (cs_heap s !! c) → ¬ mine s w T c.
Proof.
  intros HI HT Hne Hh [o Ho] [Hm|[Hm|(t & k & HT' & Hk & Hc)]]; [|congruence|]; [by apply Hne, (holds_one s w' w c)|].
  apply Hne, (HT t); [done|]. by eapply holds_bound.
Qed.

Section local.
Context (s s' : co_state) (w : worker) (T : option task).
Hypotheses (HI : co_inv s) (HL : local_step s s' w T).

Lemma unbound_local c : ¬ mine s w T c → unbound s c → unbound s' c.
Proof.
  intros Hm Hu t k Hk Hc. destruct (decide (T = Some t)) as [->|Hne]; [by apply Hm, (ls_bound _ _ _ _ HL t k)|].
  rewrite (ls_task _ _ _ _ HL t Hne) in Hk. by apply (Hu t k).
Qed.

Lemma suspended_local t c : ¬ mine s w T c → suspended s t c → suspended s' t c.
Proof.
  intros Hm (o & Ho & H1 & H2 & H3 & H4 & H5). exists o. rewrite (ls_heap _ _ _ _ HL c Hm). split_and!; try done. intros w' Hr.
  destruct (decide (w' = w)) as [->|Hne]; [by apply Hm, (ls_running _ _ _ _ HL)|]. apply (H5 w'). unfold runningCo in *.
  by destruct (ls_other _ _ _ _ HL w' Hne) as [<- _].
Qed.

Lemma cached_local w' : w' ≠ w → cached s w' → cached s' w'.
Proof.
  intros Hne Hc c Hr. assert (runningCo s w' = Some c) as Hr' by (unfold runningCo in *; by destruct (ls_other _ _ _ _ HL w' Hne) as [<- _]).
  destruct (Hc c Hr') as (o & Ho & H1 & H2 & H3). assert (¬ mine s w T c) as Hm by (apply (held_not_mine s w T w'); [done|apply HL|done|by left|by rewrite Ho]).
  exists o. rewrite (ls_heap _ _ _ _ HL c Hm). split_and!; try done. by apply unbound_local.
Qed.

Lemma taken_local w' t c : w' ≠ w → owns s w' t → co_taken s t c → co_taken s' t c.
Proof.
  intros Hne Ho (k & Hk & ?). exists k. rewrite (ls_task _ _ _ _ HL t); [done|]. intros HT. by apply Hne, (ls_unowned _ _ _ _ HL t).
Qed.

Lemma worker_local w' : w' ≠ w → worker_ok s' w'.
Proof.
  intros Hne. pose proof (ci_worker _ HI w') as Hw. pose proof (λ t c, taken_local w' t c Hne) as HT. unfold worker_ok, owns in *.
  assert (Hrun : runningCo s' w' = runningCo s w') by (unfold runningCo; by destruct (ls_other _ _ _ _ HL w' Hne) as [-> _]).
  assert (Hheap : ∀ t c, owns s w' t → co_taken s t (Some c) → is_Some (cs_heap s !! c) → ¬ mine s w T c).
  { intros t c Ho (k & Hk & Hst & Hc) Hs. rewrite <-bound_taken in Hc by done. apply (held_not_mine s w T w'); [done|apply HL|done| |done].
    right. exists t. split; [done|]. eauto. }
  assert (Hheap' : ∀ c, runningCo s w' = Some c → is_Some (cs_heap s !! c) → ¬ mine s w T c) by (intros c Hr Hs; apply (held_not_mine s w T w'); [done|apply HL|done|by left|done]).
  unfold owns in Hheap. destruct (ls_other _ _ _ _ HL w' Hne) as [-> ->]. destruct (cs_pc s w') as [|t|t c|t c|t c|] eqn:Epc.
  - destruct Hw. split; [done|]. by apply cached_local.
  - destruct Hw as (? & ? & c & Hc & Hs). split_and!; [done|by apply cached_local|]. exists c. split; [by apply HT|]. intros c' ->.
    specialize (Hs c' eq_refl). apply suspended_local; [|done]. destruct Hs as (o & Ho & _). apply (Hheap t); [done|done|by rewrite Ho].
  - destruct Hw as (? & Hr & Ht & o & Ho & ?). rewrite Hrun. split_and!; [done|done|by apply HT|]. exists o.
    rewrite (ls_heap _ _ _ _ HL c); [done|]. apply (Hheap t); [done|done|by rewrite Ho].
  - rewrite Hrun. destruct (env_pending (cs_env s w')).
    + destruct Hw as (? & Ht & Hs & o & Ho & ?). assert (¬ mine s w T c) as Hm by (apply (Hheap t); [by split; [|left]|done|by rewrite Ho]).
      split_and!; [done|apply HT; [by split; [|left]|done]|by apply suspended_local|]. exists o. by rewrite (ls_heap _ _ _ _ HL c Hm).
    + destruct Hw as (Hr & Hu & o & Ho & Hst & Hd). assert (¬ mine s w T c) as Hm by (apply Hheap'; [done|by rewrite Ho]).
      split_and!; [done|by apply unbound_local|]. exists o. rewrite (ls_heap _ _ _ _ HL c Hm). split_and!; [done..|]. intros Hdn.
      apply HT; [|by apply Hd]. split; [done|]. right. by rewrite Ho, <-Hdn.
  - destruct Hw as (? & ? & Ht & Hs & o & Ho & ?). rewrite Hrun. assert (¬ mine s w T c) as Hm by (apply (Hheap t); [done|done|by rewrite Ho]).
    split_and!; [done|done|by apply HT|by apply suspended_local|]. exists o. by rewrite (ls_heap _ _ _ _ HL c Hm).
  - rewrite Hrun. done.
Qed.

Lemma owns_local w' t : w' ≠ w → owns s' w' t → owns s w' t.
Proof.
  intros Hne. pose proof (ci_worker _ HI w') as Hw. unfold worker_ok, owns in *. destruct (ls_other _ _ _ _ HL w' Hne) as [-> ->].
  destruct (cs_pc s w') as [|t'|t' c|t' c|t' c|] eqn:Epc; try done. intros [<- Ho]. split; [done|].
  destruct (env_pending (cs_env s w')) eqn:Ep; [by left|]. destruct Ho as [|Ho]; [done|right]. destruct Hw as (Hr & _ & o & Hh & _).
  rewrite (ls_heap _ _ _ _ HL c) in Ho; [done|]. apply (held_not_mine s w T w'); [done|apply HL|done|by left|by rewrite Hh].
Qed.

Lemma local_inv :
  worker_ok s' w →
  (∀ t k c, T = Some t → cs_task s' !! t = Some k → bound_to k = Some c →
     (∃ o, cs_heap s' !! c = Some o ∧ co_task o = Some t) ∧ (tk_stage k ≠ TTaken → tk_stage k ≠ TDone ∧ suspended s' t c)) →
  (∀ c o, cs_heap s' !! c = Some o → (c < cs_next s')%positive) → co_inv s'.
Proof.
  intros Hw HT Hf. pose proof (ls_mine _ _ _ _ HL) as Hm. split; [| | | | |exact Hf].
  - intros t k c Hk Hc Hst. destruct (decide (T = Some t)) as [->|Hne]; [by apply (HT t k)|]. rewrite (ls_task _ _ _ _ HL t Hne) in Hk.
    destruct (ci_waiting _ HI t k c Hk Hc Hst) as [? Hs]. split; [done|]. apply suspended_local; [|done]. by eapply bound_not_mine.
  - intros t k c Hk Hc. destruct (decide (T = Some t)) as [->|Hne]; [by apply (HT t k)|]. rewrite (ls_task _ _ _ _ HL t Hne) in Hk.
    rewrite (ls_heap _ _ _ _ HL c); [by apply (ci_bound _ HI t k)|]. by eapply bound_not_mine.
  - assert (∀ w' c, w' ≠ w → runningCo s' w' = Some c → runningCo s' w = Some c → False) as Hx.
    { intros w' c Hne Hr' Hr. assert (runningCo s w' = Some c) as Hr2 by (unfold runningCo in *; by destruct (ls_other _ _ _ _ HL w' Hne) as [<- _]).
      by apply (held_not_mine s w T w' c); [done|apply HL|done|left|eapply running_heap|apply HL]. }
    intros w1 w2 c H1 H2. destruct (decide (w1 = w)) as [->|N1], (decide (w2 = w)) as [->|N2]; [done|by destruct (Hx w2 c)|by destruct (Hx w1 c)|].
    apply (ci_one _ HI _ _ c); unfold runningCo in *; [by destruct (ls_other _ _ _ _ HL w1 N1) as [<- _]|by destruct (ls_other _ _ _ _ HL w2 N2) as [<- _]].
  - intros w'. destruct (decide (w' = w)) as [->|Hne]; [done|by apply worker_local].
  - intros w1 w2 t H1 H2. destruct (decide (w1 = w)) as [->|N1], (decide (w2 = w)) as [->|N2]; [done|..].
    + symmetry. apply (ls_unowned _ _ _ _ HL t); [by apply (ls_then _ _ _ _ HL)|by apply owns_local].
    + apply (ls_unowned _ _ _ _ HL t); [by apply (ls_then _ _ _ _ HL)|by apply owns_local].
    + apply (ci_owner _ HI w1 w2 t); by apply owns_local.
Qed.
End local.

(** *** Preservation *)

Lemma goto_pc w pc s w' : cs_pc (goto w pc s) w' = if decide (w' = w) then pc else cs_pc s w'.
Proof. apply fn_insert_decide. Qed.

Lemma goto_env w pc s : cs_env (goto w pc s) = cs_env s.
Proof. done. Qed.

(** A step of a worker whose stack, if it has one, stays. *)
Lemma idle_local s w s' :
  co_inv s → (∀ t, ¬ owns s w t) → cs_task s' = cs_task s → (∀ t, ¬ owns s' w t) →
  (∀ w', w' ≠ w → cs_env s' w' = cs_env s w' ∧ cs_pc s' w' = cs_pc s w') →
  (∀ c, ¬ has_stack s w c → cs_heap s' !! c = cs_heap s !! c) → (∀ c, runningCo s' w = Some c → runningCo s w = Some c) →
  local_step s s' w None.
Proof.
  intros HI Ho Et Ho' Hw Hh Hr. split; try done.
  - intros t _. by rewrite Et.
  - intros c Hm. apply Hh. intros Hc. apply Hm. by left.
  - intros c Hc. left. left. by apply Hr.
  - intros t H. by destruct (Ho t).
  - intros t H. by destruct (Ho' t).
Qed.

Lemma left_inv s w : co_inv s → cs_pc s w = WLeft → co_inv (goto w WIdle s).
Proof.
  intros HI Hpc. pose proof (ci_worker _ HI w) as Hw. unfold worker_ok in Hw. rewrite Hpc in Hw. destruct Hw as [Hp Hr].
  eapply (local_inv s _ w None HI).
  - apply idle_local; [done| |done| | |done|done].
    + intros t. unfold owns. rewrite Hpc. tauto.
    + intros t. unfold owns. rewrite goto_pc, decide_True by done. tauto.
    + intros w' Hne. by rewrite goto_pc, decide_False.
  - unfold worker_ok. rewrite goto_pc, decide_True by done. split; [done|]. intros c Hc. unfold runningCo in *. simpl in Hc. congruence.
  - done.
  - apply (ci_fresh _ HI).
Qed.

Lemma exit_inv s w : co_inv s → cs_pc s w = WIdle → ∃ s', CoStackFree w s = Some s' ∧ co_inv s'.
Proof.
  intros HI Hpc. pose proof (ci_worker _ HI w) as Hw. unfold worker_ok in Hw. rewrite Hpc in Hw. destruct Hw as [Hp Hw]. unfold CoStackFree.
  destruct (runningCo s w) as [c|] eqn:Er; [|by eexists]. destruct (Hw c Er) as (o & Ho & Hst & Hd & Hu). unfold CoMemFree. rewrite Ho. simpl.
  eexists. split; [done|]. set (s' := set_runningCo w None _).
  assert (Henv : ∀ w', cs_env s' w' = if decide (w' = w) then cs_env s w <| env_runningCo := None |> else cs_env s w') by (intros; apply fn_insert_decide).
  eapply (local_inv s s' w None HI).
  - apply idle_local; [done| |done| | | |].
    + intros t. unfold owns. rewrite Hpc. tauto.
    + intros t. unfold owns, s'. simpl. rewrite Hpc. tauto.
    + intros w' Hne. rewrite Henv. by rewrite decide_False.
    + intros c' Hc'. simpl. rewrite lookup_delete_ne; [done|]. intros <-. apply Hc'. by left.
    + intros c'. unfold runningCo. by rewrite Henv, decide_True.
  - unfold worker_ok, cached, runningCo. simpl. rewrite Hpc, fn_insert_decide, decide_True by done. done.
  - done.
  - intros c' o'. simpl. intros [_ H]%lookup_delete_Some. by eapply ci_fresh.
Qed.

(** A change of a task that no worker has. *)
Lemma task_inv s t m' :
  co_inv s → (∀ t', t' ≠ t → m' !! t' = cs_task s !! t') → (∀ k, cs_task s !! t = Some k → tk_stage k ≠ TTaken) →
  (∀ k', m' !! t = Some k' → tk_stage k' ≠ TTaken ∧ tk_stage k' ≠ TDone) →
  (∀ k' c, m' !! t = Some k' → bound_to k' = Some c → ∃ k, cs_task s !! t = Some k ∧ bound_to k = Some c) →
  co_inv (s <| cs_task := m' |>).
Proof.
  intros HI Hm Hst Hst' Hb. set (s' := s <| cs_task := m' |>).
  assert (Hno : ∀ w, ¬ owns s w t) by (intros w Ho; destruct (owns_taken s w t (ci_worker _ HI w) Ho) as (c & k & Hk & Hs & _); by apply (Hst k)).
  assert (Hback : ∀ t' k' c, m' !! t' = Some k' → bound_to k' = Some c → ∃ k, cs_task s !! t' = Some k ∧ bound_to k = Some c).
  { intros t' k' c Hk Hc. destruct (decide (t' = t)) as [->|Hne]; [by eapply Hb|]. rewrite Hm in Hk by done. eauto. }
  assert (Hu : ∀ c, unbound s c → unbound s' c).
  { intros c Hu t' k' Hk Hc. destruct (Hback t' k' c Hk Hc) as (k & Hk' & Hc'). by apply (Hu t' k). }
  assert (Hca : ∀ w, cached s w → cached s' w).
  { intros w Hc c Hr. destruct (Hc c Hr) as (o & ? & ? & ? & ?). exists o. split_and!; try done. by apply Hu. }
  assert (Ht : ∀ w t' c, owns s w t' → co_taken s t' c → co_taken s' t' c).
  { intros w t' c Ho (k & Hk & ?). exists k. simpl. rewrite Hm; [done|]. intros ->. by apply (Hno w). }
  assert (Hsus : ∀ t' c, suspended s t' c → suspended s' t' c) by done.
  split; [| |apply HI| |apply HI|apply HI].
  - intros t' k' c Hk Hc Hs. destruct (Hback t' k' c Hk Hc) as (k & Hk2 & Hc2). simpl in Hk. destruct (decide (t' = t)) as [->|Hne].
    + split; [by apply Hst'|]. by apply (ci_waiting _ HI t k c), (Hst k).
    + rewrite Hm in Hk by done. by apply (ci_waiting _ HI t' k' c).
  - intros t' k' c Hk Hc. destruct (Hback t' k' c Hk Hc) as (k & Hk2 & Hc2). by apply (ci_bound _ HI t' k).
  - intros w. pose proof (ci_worker _ HI w) as Hw. pose proof (λ t' c, Ht w t' c) as Htw. unfold worker_ok, owns in *. simpl in *.
    destruct (cs_pc s w) as [|t'|t' c|t' c|t' c|].
    + destruct Hw. split; [done|by apply Hca].
    + destruct Hw as (? & ? & c & ? & ?). split_and!; [done|by apply Hca|]. exists c. split; [by apply Htw|done].
    + destruct Hw as (? & ? & ? & ?). split_and!; [done|done|by apply Htw|done].
    + destruct (env_pending (cs_env s w)).
      * destruct Hw as (? & ? & ? & ?). split_and!; [done|apply Htw; [by split; [|left]|done]|done|done].
      * destruct Hw as (? & ? & o & Ho & ? & Hd). split_and!; [done|by apply Hu|]. exists o. split_and!; [done..|]. intros Hdn. apply Htw; [|by apply Hd].
        split; [done|]. right. by rewrite Ho, <-Hdn.
    + destruct Hw as (? & ? & ? & ? & ?). split_and!; [done|done|by apply Htw|done|done].
    + done.
Qed.

Lemma submit_inv s t normal size : co_inv s → cs_task s !! t = None → co_inv (s <| cs_task ::= <[t := mkCoTask normal None size TReady]> |>).
Proof.
  intros HI Hn. apply (task_inv s t); [done|..].
  - intros t' Hne. by rewrite lookup_insert_ne.
  - congruence.
  - intros k'. rewrite lookup_insert_eq. by intros [= <-].
  - intros k' c. rewrite lookup_insert_eq. by intros [= <-].
Qed.

Lemma free_inv s t k : co_inv s → cs_task s !! t = Some k → tk_stage k = TDone → co_inv (s <| cs_task ::= delete t |>).
Proof.
  intros HI Hk Hs. apply (task_inv s t); [done|..].
  - intros t' Hne. by rewrite lookup_delete_ne.
  - intros k' Hk'. by simplify_eq; rewrite Hs.
  - intros k'. by rewrite lookup_delete_eq.
  - intros k' c. by rewrite lookup_delete_eq.
Qed.

Lemma co_wake_inv s t k : co_inv s → cs_task s !! t = Some k → tk_stage k = TWaiting → ∃ s', CoWake t s = Some s' ∧ co_inv s'.
Proof.
  intros HI Hk Hs. unfold CoWake, upd_cotask. rewrite Hk. simpl. eexists. split; [done|]. apply (task_inv s t); [done|..].
  - intros t' Hne. by rewrite lookup_insert_ne.
  - intros k' Hk'. by simplify_eq; rewrite Hs.
  - intros k'. rewrite lookup_insert_eq. by intros [= <-].
  - intros k' c. rewrite lookup_insert_eq. intros [= <-] Hc. exists k. split; [done|]. apply bound_to_live; [by rewrite Hs|done].
Qed.

Lemma co_take_inv s w t k :
  co_inv s → cs_pc s w = WIdle → cs_task s !! t = Some k → tk_stage k = TReady →
  co_inv (goto w (WStart t) (s <| cs_task ::= <[t := k <| tk_stage := TTaken |>]> |>)).
Proof.
  intros HI Hpc Hk Hs. pose proof (ci_worker _ HI w) as Hw. unfold worker_ok in Hw. rewrite Hpc in Hw. destruct Hw as [Hp Hw].
  assert (Hno : ∀ w, ¬ owns s w t) by (intros w' Ho; destruct (owns_taken s w' t (ci_worker _ HI w') Ho) as (c & k' & Hk' & Hs' & _); congruence).
  assert (HB : bound_to k = tk_coRoutine k) by (unfold bound_to; by rewrite Hs).
  assert (HB' : bound_to (k <| tk_stage := TTaken |>) = bound_to k) by (by rewrite HB).
  set (s' := goto _ _ _). assert (HL : local_step s s' w (Some t)).
  { split.
    - intros w' Hne. unfold s'. by rewrite goto_pc, decide_False.
    - intros t' Hne. unfold s'. simpl. rewrite lookup_insert_ne; [done|]. congruence.
    - done.
    - intros c Hr. left. by left.
    - intros t' k' c [= <-]. unfold s'. simpl. rewrite lookup_insert_eq. intros [= <-] Hc. apply (eq_trans (eq_sym HB')) in Hc. right. right. eauto 10.
    - intros t' w' [= <-] Ho. by destruct (Hno w').
    - intros t' Ho. unfold owns in Ho. by rewrite Hpc in Ho.
    - intros t'. unfold owns, s'. rewrite goto_pc, decide_True by done. by intros ->. }
  assert (Hu : ∀ c, unbound s c → unbound s' c).
  { intros c Hu t' k'. unfold s'. simpl. intros [[<- <-]|[_ Hk']]%lookup_insert_Some; [intros Hc; apply (eq_trans (eq_sym HB')) in Hc; by apply (Hu t k)|by apply (Hu t')]. }
  apply (local_inv s s' w (Some t) HI HL); [| |apply (ci_fresh _ HI)].
  - unfold worker_ok, s'. rewrite goto_pc, decide_True by done. split_and!; [done| |].
    + intros c Hr. destruct (Hw c Hr) as (o & ? & ? & ? & ?). exists o. split_and!; try done. by apply Hu.
    + exists (tk_coRoutine k). split; [eexists; split; [apply lookup_insert_eq|done]|]. intros c Hc. rewrite <-HB in Hc.
      by apply (ci_waiting _ HI t k c Hk Hc); rewrite Hs.
  - intros t' k' c [= <-]. unfold s'. simpl. rewrite lookup_insert_eq. intros [= <-] Hc. apply (eq_trans (eq_sym HB')) in Hc. split; [|done]. by apply (ci_bound _ HI t k c).
Qed.

Lemma owns_fun s w t t' : owns s w t → owns s w t' → t = t'.
Proof. unfold owns. destruct (cs_pc s w); try done; [by intros <-|by intros <-|by intros [<- _] [<- _]|by intros <-]. Qed.

(** A step of a worker with its task. *)
Lemma own_local s s' w t :
  co_inv s → owns s w t → (∀ w', w' ≠ w → cs_env s' w' = cs_env s w' ∧ cs_pc s' w' = cs_pc s w') →
  (∀ t', t' ≠ t → cs_task s' !! t' = cs_task s !! t') → (∀ c, ¬ mine s w (Some t) c → cs_heap s' !! c = cs_heap s !! c) →
  (∀ c, runningCo s' w = Some c → mine s w (Some t) c) →
  (∀ k c, cs_task s' !! t = Some k → bound_to k = Some c → mine s w (Some t) c) → (∀ t', owns s' w t' → t' = t) →
  local_step s s' w (Some t).
Proof.
  intros HI Ho Hw Ht Hh Hr Hb Ho'. split; try done.
  - intros t' Hne. apply Ht. congruence.
  - intros t' k c [= <-]. apply Hb.
  - intros t' w' [= <-] Hw'. by eapply ci_owner.
  - intros t' Ho2. f_equal. by eapply owns_fun.
  - intros t' Ho2. f_equal. symmetry. by apply Ho'.
Qed.

Lemma bound_mine s w t k c : cs_task s !! t = Some k → bound_to k = Some c → mine s w (Some t) c.
Proof. intros. right. right. eauto 10. Qed.

Lemma taken_mine s w t k c : cs_task s !! t = Some k → tk_stage k = TTaken → tk_coRoutine k = Some c → mine s w (Some t) c.
Proof. intros Hk Hs Hc. apply (bound_mine s w t k); [done|]. by rewrite bound_taken. Qed.

Lemma co_wait_inv s w t c : co_inv s → cs_pc s w = WRun t c → ∃ s', CoWait w t s = Some s' ∧ co_inv s'.
Proof.
  intros HI Hpc. pose proof (ci_worker _ HI w) as Hw. unfold worker_ok in Hw. rewrite Hpc in Hw.
  destruct Hw as (Hp & Hr & (k & Hk & Hst & Hc) & o & Ho & He & Ht & Hd). unfold CoWait, upd_co. rewrite Hr. simpl. rewrite Ho. simpl.
  eexists. split; [done|]. set (s' := goto _ _ _).
  assert (Henv : ∀ w', cs_env s' w' = if decide (w' = w) then mkCoRoutineEnv None true else cs_env s w') by (intros; apply fn_insert_decide).
  assert (Hpc' : ∀ w', cs_pc s' w' = if decide (w' = w) then WBack t c else cs_pc s w') by (intros; apply fn_insert_decide).
  assert (HL : local_step s s' w (Some t)).
  { apply own_local; [done|unfold owns; by rewrite Hpc|..].
    - intros w' Hne. by rewrite Henv, Hpc', !decide_False.
    - done.
    - intros c' Hm. simpl. rewrite lookup_insert_ne; [done|]. intros <-. apply Hm. by eapply taken_mine.
    - intros c'. unfold runningCo. by rewrite Henv, decide_True.
    - intros k' c' Hk' Hc'. by apply (bound_mine s w t k').
    - intros t'. unfold owns. rewrite Hpc', decide_True by done. by intros [? _]. }
  assert (Hsus : suspended s' t c).
  { eexists. split; [apply lookup_insert_eq|]. split_and!; try done. intros w' Hr'. unfold runningCo in Hr'. rewrite Henv in Hr'. case_decide as E; [done|].
    apply E. by eapply (ci_one _ HI). }
  apply (local_inv s s' w (Some t) HI HL).
  - unfold worker_ok. rewrite Hpc', Henv, !decide_True by done. simpl. split_and!.
    + unfold runningCo. by rewrite Henv, decide_True.
    + by exists k.
    + done.
    + eexists. split; [apply lookup_insert_eq|done].
  - intros t' k' c' [= <-] Hk'. simpl in Hk'. rewrite Hk in Hk'. injection Hk' as <-. intros Hc'. rewrite bound_taken, Hc in Hc' by done. injection Hc' as <-.
    split; [|by rewrite Hst]. eexists. split; [apply lookup_insert_eq|done].
  - intros c' o'. simpl. intros [[<- _]|[_ H]]%lookup_insert_Some; by eapply (ci_fresh _ HI).
Qed.

(** The end of a task in one equation. *)
Definition ended (finished : bool) (k : CoTask) : CoTask :=
  if tk_normal k then k <| tk_coRoutine := None |>
  else k <| tk_coRoutine ::= λ c, if finished then c else None |> <| tk_stage := TDone |>.

Lemma CoStartEntry_end_eq finished s w t c k o :
  cs_task s !! t = Some k → tk_coRoutine k = Some c → cs_heap s !! c = Some o → co_thEnv o = Some w → co_isTaskDone o = false →
  CoStartEntry_end finished w t c s =
    Some (goto w (WBack t c)
      (s <| cs_heap ::= <[c := o <| co_status := CO_UNINITIALIZED |> <| co_isTaskDone := tk_normal k |>]> |>
         <| cs_task ::= <[t := ended finished k]> |>)).
Proof.
  intros Hk Hc Ho He Hd. unfold CoStartEntry_end, upd_co, upd_cotask, ended. rewrite Hk. simpl. destruct (tk_normal k) eqn:En; simpl.
  - rewrite Hc. simpl. rewrite Ho. simpl. rewrite Hk. simpl. rewrite lookup_insert_eq. simpl. rewrite lookup_insert_eq. simpl.
    rewrite decide_True by done. rewrite insert_insert_eq. by destruct o, k; simpl in *; subst.
  - destruct finished; rewrite ?Hk; simpl; rewrite Ho; simpl; rewrite lookup_insert_eq; simpl; rewrite decide_True by done; by destruct o, k; simpl in *; subst.
Qed.

Lemma ended_unbound finished k : bound_to (ended finished k) = None.
Proof. unfold bound_to, ended. destruct (tk_normal k); simpl; [by destruct (tk_stage k)|done]. Qed.

Lemma end_inv finished s w t c :
  co_inv s → cs_pc s w = WRun t c → ∃ s', CoStartEntry_end finished w t c s = Some s' ∧ co_inv s'.
Proof.
  intros HI Hpc. pose proof (ci_worker _ HI w) as Hw. unfold worker_ok in Hw. rewrite Hpc in Hw.
  destruct Hw as (Hp & Hr & (k & Hk & Hst & Hc) & o & Ho & He & Ht & Hd). rewrite (CoStartEntry_end_eq finished s w t c k o) by done.
  eexists. split; [done|]. set (s' := goto _ _ _).
  assert (Hpc' : ∀ w', cs_pc s' w' = if decide (w' = w) then WBack t c else cs_pc s w') by (intros; apply fn_insert_decide).
  assert (HL : local_step s s' w (Some t)).
  { apply own_local; [done|unfold owns; by rewrite Hpc|..].
    - intros w' Hne. by rewrite Hpc', decide_False.
    - intros t' Hne. simpl. by rewrite lookup_insert_ne.
    - intros c' Hm. simpl. rewrite lookup_insert_ne; [done|]. intros <-. apply Hm. by eapply taken_mine.
    - intros c' Hr'. left. by left.
    - intros k' c'. simpl. rewrite lookup_insert_eq. intros [= <-]. by rewrite ended_unbound.
    - intros t'. unfold owns. rewrite Hpc', decide_True by done. by intros [? _]. }
  apply (local_inv s s' w (Some t) HI HL).
  - unfold worker_ok. rewrite Hpc', decide_True by done. simpl. rewrite Hp. split_and!; [done| |].
    + intros t' k'. simpl. intros [[<- <-]|[Hne Hk']]%lookup_insert_Some; [by rewrite ended_unbound|]. intros Hc'. apply Hne.
      rewrite <-bound_taken in Hc by done. by eapply (bound_one s).
    + eexists. split; [apply lookup_insert_eq|]. split; [done|]. simpl. intros Hn. eexists. split; [apply lookup_insert_eq|]. unfold ended. by rewrite Hn.
  - intros t' k' c' [= <-]. simpl. rewrite lookup_insert_eq. intros [= <-]. by rewrite ended_unbound.
  - intros c' o'. simpl. intros [[<- _]|[_ H]]%lookup_insert_Some; by eapply (ci_fresh _ HI).
Qed.

(** Back from a wait, from the end of a normal task, and from that of a queue task. *)
Lemma back_wait_inv s w t c :
  co_inv s → cs_pc s w = WBack t c → env_pending (cs_env s w) = true → ∃ s', CoStart_back w t c s = Some s' ∧ co_inv s'.
Proof.
  intros HI Hpc Hp. pose proof (ci_worker _ HI w) as Hw. unfold worker_ok in Hw. rewrite Hpc, Hp in Hw. unfold CoStart_back.
  destruct Hw as (Hr & (k & Hk & Hst & Hc) & (o & Ho & ? & ? & ? & Hd & Hnr) & o' & Ho' & He). rewrite Ho' in Ho. simplify_eq.
  rewrite Ho'. simpl. rewrite Hd, Hp. eexists. split; [done|]. set (s' := goto _ _ _).
  assert (Hpc' : ∀ w', cs_pc s' w' = if decide (w' = w) then WPred t c else cs_pc s w') by (intros; apply fn_insert_decide).
  assert (Henv : ∀ w', cs_env s' w' = if decide (w' = w) then cs_env s w <| env_pending := false |> else cs_env s w') by (intros; apply fn_insert_decide).
  assert (Hrun : ∀ w', runningCo s' w' = runningCo s w') by (intros w'; unfold runningCo; rewrite Henv; by case_decide; subst).
  assert (HL : local_step s s' w (Some t)).
  { apply own_local; [done|unfold owns; rewrite Hpc; by split; [|left]|..].
    - intros w' Hne. by rewrite Hpc', Henv, !decide_False.
    - done.
    - done.
    - intros c' Hr'. rewrite Hrun in Hr'. left. by left.
    - intros k' c' Hk' Hc'. by apply (bound_mine s w t k').
    - intros t'. unfold owns. by rewrite Hpc', decide_True by done. }
  apply (local_inv s s' w (Some t) HI HL).
  - unfold worker_ok. rewrite Hpc', Henv, !decide_True by done. rewrite Hrun. split_and!; [done|done|by exists k| |by exists o].
    exists o. split_and!; try done. intros w'. by rewrite Hrun.
  - intros t' k' c' [= <-] Hk'. simpl in Hk'. rewrite Hk in Hk'. injection Hk' as <-. intros Hc'. rewrite bound_taken, Hc in Hc' by done. injection Hc' as <-.
    split; [|by rewrite Hst]. apply (ci_bound _ HI t k c Hk). by rewrite bound_taken.
  - apply (ci_fresh _ HI).
Qed.

Lemma back_done_inv s w t c o :
  co_inv s → cs_pc s w = WBack t c → env_pending (cs_env s w) = false → cs_heap s !! c = Some o → co_isTaskDone o = true →
  ∃ s', CoStart_back w t c s = Some s' ∧ co_inv s'.
Proof.
  intros HI Hpc Hp Ho Ed. pose proof (ci_worker _ HI w) as Hw. unfold worker_ok in Hw. rewrite Hpc, Hp in Hw. unfold CoStart_back.
  destruct Hw as (Hr & Hu & o' & Ho' & Hst & Hd). rewrite Ho' in Ho. injection Ho as ->. rewrite Ho'. simpl. rewrite Ed.
  destruct (Hd Ed) as (k & Hk & Hst' & Hc). unfold upd_cotask, upd_co. rewrite Hk. simpl. rewrite Ho'. simpl.
  eexists. split; [done|]. set (s' := goto _ _ _).
  assert (Hpc' : ∀ w', cs_pc s' w' = if decide (w' = w) then WIdle else cs_pc s w') by (intros; apply fn_insert_decide).
  assert (HL : local_step s s' w (Some t)).
  { apply own_local; [done|unfold owns; rewrite Hpc; split; [done|right]; by rewrite Ho', <-Ed|..].
    - intros w' Hne. by rewrite Hpc', decide_False.
    - intros t' Hne. simpl. by rewrite lookup_insert_ne.
    - intros c' Hm. simpl. rewrite lookup_insert_ne; [done|]. intros <-. apply Hm. left. by left.
    - intros c' Hr'. left. by left.
    - intros k' c'. simpl. rewrite lookup_insert_eq. by intros [= <-].
    - intros t'. unfold owns. by rewrite Hpc', decide_True by done. }
  apply (local_inv s s' w (Some t) HI HL).
  - unfold worker_ok. rewrite Hpc', decide_True by done. split; [done|]. intros c' Hr'.
    assert (c' = c) as -> by (unfold runningCo in *; simpl in *; congruence). eexists. split; [apply lookup_insert_eq|].
    split_and!; [done|done|]. intros t' k'. simpl. intros [[<- <-]|[_ Hk']]%lookup_insert_Some; [by rewrite Hc|by apply (Hu t')].
  - intros t' k' c' [= <-]. simpl. rewrite lookup_insert_eq. by intros [= <-].
  - intros c' o''. simpl. intros [[<- _]|[_ H]]%lookup_insert_Some; by eapply (ci_fresh _ HI).
Qed.

Lemma back_inv s w t c : co_inv s → cs_pc s w = WBack t c → ∃ s', CoStart_back w t c s = Some s' ∧ co_inv s'.
Proof.
  intros HI Hpc. destruct (env_pending (cs_env s w)) eqn:Hp; [by eapply back_wait_inv|].
  pose proof (ci_worker _ HI w) as Hw. unfold worker_ok in Hw. rewrite Hpc, Hp in Hw. destruct Hw as (Hr & Hu & o & Ho & Hst & Hd).
  destruct (co_isTaskDone o) eqn:Ed; [by eapply back_done_inv|]. unfold CoStart_back. rewrite Ho. simpl. rewrite Ed, Hp.
  eexists. split; [done|]. apply (local_inv s _ w None HI).
  - apply idle_local; [done| |done| | |done|done].
    + intros t'. unfold owns. rewrite Hpc, Hp, Ho. simpl. rewrite Ed. naive_solver.
    + intros t'. unfold owns. rewrite goto_pc, decide_True by done. tauto.
    + intros w' Hne. by rewrite goto_pc, decide_False.
  - unfold worker_ok. rewrite goto_pc, decide_True by done. split; [done|]. intros c' Hr'.
    assert (c' = c) as -> by (unfold runningCo in *; simpl in *; congruence). by exists o.
  - done.
  - apply (ci_fresh _ HI).
Qed.

Lemma publish_inv s w t c : co_inv s → cs_pc s w = WPred t c → ∃ s', pred_publish w t s = Some s' ∧ co_inv s'.
Proof.
  intros HI Hpc. pose proof (ci_worker _ HI w) as Hw. unfold worker_ok in Hw. rewrite Hpc in Hw.
  destruct Hw as (Hp & Hr & (k & Hk & Hst & Hc) & Hsus & _). unfold pred_publish, upd_cotask. rewrite Hk. simpl.
  eexists. split; [done|]. set (s' := goto _ _ _).
  assert (Hpc' : ∀ w', cs_pc s' w' = if decide (w' = w) then WLeft else cs_pc s w') by (intros; apply fn_insert_decide).
  assert (HL : local_step s s' w (Some t)).
  { apply own_local; [done|unfold owns; by rewrite Hpc|..].
    - intros w' Hne. by rewrite Hpc', decide_False.
    - intros t' Hne. simpl. by rewrite lookup_insert_ne.
    - done.
    - intros c' Hr'. left. by left.
    - intros k' c'. simpl. rewrite lookup_insert_eq. intros [= <-] Hc'. by apply (taken_mine s w t k).
    - intros t'. unfold owns. by rewrite Hpc', decide_True by done. }
  apply (local_inv s s' w (Some t) HI HL).
  - unfold worker_ok. by rewrite Hpc', decide_True by done.
  - intros t' k' c' [= <-]. simpl. rewrite lookup_insert_eq. intros [= <-] Hc'. change (tk_coRoutine k = Some c') in Hc'.
    split; [apply (ci_bound _ HI t k c' Hk); by rewrite bound_taken|]. intros _. split; [done|]. rewrite Hc in Hc'. by injection Hc' as <-.
  - apply (ci_fresh _ HI).
Qed.

(** The worker enters the coroutine of its task. *)
Lemma enter_inv s s' w t c o' k' :
  co_inv s → owns s w t → mine s w (Some t) c →
  (∀ w', w' ≠ w → cs_env s' w' = cs_env s w' ∧ cs_pc s' w' = cs_pc s w') →
  cs_pc s' w = WRun t c → cs_env s' w = mkCoRoutineEnv (Some c) false →
  cs_task s' = <[t := k']> (cs_task s) → tk_stage k' = TTaken → tk_coRoutine k' = Some c →
  (∀ c', c' ≠ c → ¬ mine s w (Some t) c' → cs_heap s' !! c' = cs_heap s !! c') →
  cs_heap s' !! c = Some o' → co_thEnv o' = Some w → co_task o' = Some t → co_isTaskDone o' = false →
  (∀ c' o, cs_heap s' !! c' = Some o → (c' < cs_next s')%positive) → co_inv s'.
Proof.
  intros HI Hown Hm Hw' Hpc Henv Et Hst Hc Hh Ho He Ht Hd Hf.
  assert (HL : local_step s s' w (Some t)).
  { apply own_local; try done.
    - intros t' Hne. by rewrite Et, lookup_insert_ne.
    - intros c' Hm'. apply Hh; [|done]. by intros ->.
    - intros c'. unfold runningCo. rewrite Henv. by intros [= <-].
    - intros k c'. rewrite Et, lookup_insert_eq. intros [= <-]. rewrite bound_taken, Hc by done. by intros [= <-].
    - intros t'. unfold owns. by rewrite Hpc. }
  apply (local_inv s s' w (Some t) HI HL); [| |done].
  - unfold worker_ok, runningCo. rewrite Hpc, Henv. split_and!; [done|done| |by exists o']. exists k'. by rewrite Et, lookup_insert_eq.
  - intros t' k c' [= <-]. rewrite Et, lookup_insert_eq. intros [= <-]. rewrite bound_taken, Hc by done. intros [= <-]. split; [by exists o'|]. by rewrite Hst.
Qed.

Lemma false_inv s w t c : co_inv s → cs_pc s w = WPred t c → ∃ s', pred_false w t c s = Some s' ∧ co_inv s' ∧ cs_pc s' w = WRun t c.
Proof.
  intros HI Hpc. pose proof (ci_worker _ HI w) as Hw. unfold worker_ok in Hw. rewrite Hpc in Hw.
  destruct Hw as (Hp & Hr & (k & Hk & Hst & Hc) & (o & Ho & ? & Hctx & Ht & Hd & _) & o' & Ho' & He). rewrite Ho' in Ho. injection Ho as ->.
  unfold pred_false, switch_in, upd_co. simpl. rewrite Ho'. simpl. rewrite decide_True, Hctx, decide_True by done. simpl.
  eexists. split; [done|]. split; [|by rewrite goto_pc, decide_True]. eapply (enter_inv s _ w t c (o <| co_ctx := CtxNone |>) k HI); try done.
  - unfold owns. by rewrite Hpc.
  - by eapply taken_mine.
  - intros w' Hne. rewrite goto_pc, decide_False by done. split; [|done]. simpl. by rewrite fn_insert_decide, decide_False.
  - by rewrite goto_pc, decide_True.
  - simpl. rewrite fn_insert_decide, decide_True by done. destruct (cs_env s w). simpl in *. congruence.
  - simpl. by rewrite insert_id.
  - intros c' Hne _. simpl. by rewrite lookup_insert_ne.
  - simpl. apply lookup_insert_eq.
  - intros c' o'. simpl. intros [[<- _]|[_ H']]%lookup_insert_Some; by eapply (ci_fresh _ HI).
Qed.

(** The state in which the coroutine [c] runs. *)
Definition run_state (w : worker) (t : task) (c : stack) (k : CoTask) (o : CoRoutine) (s : co_state) : co_state :=
  goto w (WRun t c)
    (s <| cs_task ::= <[t := k <| tk_coRoutine := Some c |>]> |>
       <| cs_heap ::= <[c := o <| co_task := Some t |> <| co_thEnv := Some w |> <| co_ctx := CtxNone |>]> |>).

(** Binding and the switch in one equation. *)
Lemma bind_run s w t c k o :
  runningCo s w = Some c → cs_task s !! t = Some k → cs_heap s !! c = Some o →
  co_status o = CO_UNINITIALIZED ∨ co_status o ≠ CO_UNINITIALIZED ∧ co_ctx o = CtxSaved t →
  ∃ s1, CoBind t w s = Some s1 ∧ (k ← cs_task s1 !! t; c ← tk_coRoutine k; switch_in w t c s1) = Some (run_state w t c k o s).
Proof.
  intros Hr Hk Ho Hs. unfold CoBind, BindNewCoRoutione, upd_cotask, upd_co, switch_in, run_state. rewrite Hr. simpl. rewrite Hk. simpl. rewrite Ho. simpl.
  unfold runningCo in *. simpl. rewrite Hr. simpl. rewrite lookup_insert_eq. simpl. destruct Hs as [Hs|[Hs Hctx]].
  - rewrite decide_True by done. simpl. eexists. split; [done|]. simpl. rewrite lookup_insert_eq. simpl. rewrite lookup_insert_eq. simpl.
    rewrite decide_True by done. simpl. unfold upd_co. simpl. rewrite lookup_insert_eq. simpl. by rewrite !insert_insert_eq.
  - rewrite decide_False by done. eexists. split; [done|]. simpl. rewrite lookup_insert_eq. simpl. rewrite lookup_insert_eq. simpl.
    rewrite decide_True by done. simpl. rewrite Hctx, decide_True by done. unfold upd_co. simpl. rewrite lookup_insert_eq. simpl. by rewrite !insert_insert_eq.
Qed.

Lemma set_runningCo_eq w c s w' : runningCo (set_runningCo w c s) w' = if decide (w' = w) then c else runningCo s w'.
Proof. unfold runningCo, set_runningCo. simpl. rewrite fn_insert_decide. by case_decide. Qed.

(** The stack a worker keeps is freed when its next task has one. *)
Definition free_cached (w : worker) (s : co_state) : gmap stack CoRoutine :=
  match runningCo s w with Some c => delete c (cs_heap s) | None => cs_heap s end.

Lemma free_cached_lookup w s c o : free_cached w s !! c = Some o → cs_heap s !! c = Some o.
Proof. unfold free_cached. destruct (runningCo s w); [|done]. by intros [_ ?]%lookup_delete_Some. Qed.

Lemma alloc_bound s w t k c ok :
  cs_task s !! t = Some k → tk_coRoutine k = Some c → (∀ c', runningCo s w = Some c' → is_Some (cs_heap s !! c')) →
  CoAlloc ok t w s = Some (set_runningCo w (Some c) (s <| cs_heap := free_cached w s |>)).
Proof.
  intros Hk Hc Hca. unfold CoAlloc, free_cached. rewrite Hk. simpl. rewrite Hc. destruct (runningCo s w) as [c'|].
  - destruct (Hca c' eq_refl) as [o Ho]. unfold CoMemFree. by rewrite Ho.
  - by destruct s.
Qed.

(** A task that waited goes on, on its own stack; the stack the worker kept is freed. *)
Lemma resume_eq s w t k c o ok1 ok2 :
  cs_task s !! t = Some k → tk_coRoutine k = Some c → cs_heap s !! c = Some o → co_status o = CO_NOT_FINISH → co_ctx o = CtxSaved t →
  (∀ c', runningCo s w = Some c' → c' ≠ c ∧ is_Some (cs_heap s !! c')) →
  let o1 := o <| co_status := CO_RUNNING |> in let s0 := s <| cs_heap ::= <[c := o1]> |> in
  CoStart ok1 ok2 w t s = Some (run_state w t c k o1 (set_runningCo w (Some c) (s0 <| cs_heap := free_cached w s0 |>))).
Proof.
  intros Hk Hc Ho Hs Hctx Hca o1 s0. assert (CoBboxPreCheck t s = Some (true, s0)) as Hpre.
  { unfold CoBboxPreCheck, upd_co. rewrite Hk. simpl. rewrite Hc. simpl. rewrite Ho. simpl. by rewrite bool_decide_true by (by rewrite Hs). }
  assert (Hh : cs_heap s0 !! c = Some o1) by apply lookup_insert_eq.
  assert (Hca' : ∀ c', runningCo s0 w = Some c' → c' ≠ c ∧ is_Some (cs_heap s0 !! c')).
  { intros c' Hr. destruct (Hca c' Hr) as [Hne ?]. split; [done|]. simpl. by rewrite lookup_insert_ne. }
  assert (Hk0 : cs_task s0 !! t = Some k) by done. clearbody s0. unfold CoStart. rewrite Hpre. simpl. unfold CoCreate.
  rewrite (alloc_bound s0 w t k c) by (done || (intros c' Hr; by apply Hca')). set (s1 := set_runningCo w (Some c) _).
  assert (runningCo s1 w = Some c) as Hr by (unfold s1; by rewrite set_runningCo_eq, decide_True).
  assert (cs_heap s1 !! c = Some o1) as Hh1.
  { simpl. unfold free_cached. destruct (runningCo s0 w) as [c'|]; [|done]. destruct (Hca' c' eq_refl). by rewrite lookup_delete_ne. }
  destruct (bind_run s1 w t c k o1) as (s2 & H1 & H2); [done..|by right|]. simpl. rewrite Hr, H1. simpl. etransitivity; [exact H2|done].
Qed.

Lemma resume_inv s w t k c ok1 ok2 :
  co_inv s → cs_pc s w = WStart t → cs_task s !! t = Some k → tk_coRoutine k = Some c →
  ∃ s', CoStart ok1 ok2 w t s = Some s' ∧ co_inv s' ∧ cs_pc s' w = WRun t c.
Proof.
  intros HI Hpc Hk Hc. pose proof (ci_worker _ HI w) as Hw. unfold worker_ok in Hw. rewrite Hpc in Hw.
  destruct Hw as (Hp & Hca & c0 & (k' & Hk' & Hst & Hc0) & Hsus). rewrite Hk in Hk'. injection Hk' as <-. rewrite Hc in Hc0. subst c0.
  destruct (Hsus c eq_refl) as (o & Ho & Hs & Hctx & Ht & Hd & Hnr).
  assert (∀ c', runningCo s w = Some c' → c' ≠ c ∧ is_Some (cs_heap s !! c')) as Hrn.
  { intros c' Hr. split; [intros ->; by apply (Hnr w)|by eapply running_heap]. }
  rewrite (resume_eq s w t k c o) by done.
  eexists. split; [done|]. split; [|unfold run_state; by rewrite goto_pc, decide_True].
  assert (Hheap : ∀ c', c' ≠ c → ¬ mine s w (Some t) c' → free_cached w (s <| cs_heap ::= <[c := o <| co_status := CO_RUNNING |>]> |>) !! c' = cs_heap s !! c').
  { intros c' Hne Hm. unfold free_cached. change (runningCo (s <| cs_heap ::= _ |>) w) with (runningCo s w). simpl.
    destruct (runningCo s w) as [c1|] eqn:Er; [rewrite lookup_delete_ne by (intros ->; apply Hm; left; by left)|]; by rewrite lookup_insert_ne. }
  eapply (enter_inv s _ w t c _ (k <| tk_coRoutine := Some c |>) HI).
  - unfold owns. by rewrite Hpc.
  - by eapply taken_mine.
  - intros w' Hne. unfold run_state. rewrite goto_pc, decide_False by done. split; [|done]. simpl. by rewrite fn_insert_decide, decide_False.
  - unfold run_state. by rewrite goto_pc, decide_True.
  - simpl. rewrite fn_insert_decide, decide_True by done. destruct (cs_env s w). simpl in *. congruence.
  - done.
  - done.
  - done.
  - intros c' Hne Hm. simpl. rewrite lookup_insert_ne by done. by apply Hheap.
  - simpl. apply lookup_insert_eq.
  - done.
  - done.
  - done.
  - intros c' o'. simpl. intros [[<- _]|[Hne H']]%lookup_insert_Some; [by eapply (ci_fresh _ HI)|].
    apply free_cached_lookup in H'. simpl in H'. rewrite lookup_insert_ne in H' by done. by eapply (ci_fresh _ HI).
Qed.

(** A worker before [CoStart] of a task without a stack may change the one it keeps. *)
Lemma start_alloc_inv s s1 w t k :
  co_inv s → cs_pc s w = WStart t → cs_task s !! t = Some k → tk_coRoutine k = None →
  cs_pc s1 = cs_pc s → cs_task s1 = cs_task s → (∀ w', w' ≠ w → cs_env s1 w' = cs_env s w') →
  env_pending (cs_env s1 w) = env_pending (cs_env s w) → (∀ c, ¬ mine s w (Some t) c → cs_heap s1 !! c = cs_heap s !! c) →
  (∀ c, runningCo s1 w = Some c → mine s w (Some t) c ∧ unbound s c ∧
     ∃ o, cs_heap s1 !! c = Some o ∧ co_status o = CO_UNINITIALIZED ∧ co_isTaskDone o = false) →
  (∀ c o, cs_heap s1 !! c = Some o → (c < cs_next s1)%positive) → co_inv s1.
Proof.
  intros HI Hpc Hk Hc Epc Et Henv Hp Hh Hr Hf. pose proof (ci_worker _ HI w) as Hw. unfold worker_ok in Hw. rewrite Hpc in Hw.
  destruct Hw as (Hp0 & _ & c0 & (k' & Hk' & Hst & Hc0) & _).
  assert (HL : local_step s s1 w (Some t)).
  { apply own_local; [done|unfold owns; by rewrite Hpc|..].
    - intros w' Hne. by rewrite Epc, Henv.
    - intros t' _. by rewrite Et.
    - done.
    - intros c Hrc. by destruct (Hr c Hrc).
    - intros k2 c. rewrite Et, Hk. intros [= <-] [Hc' _]%bound_to_co. congruence.
    - intros t'. unfold owns. by rewrite Epc, Hpc. }
  apply (local_inv s s1 w (Some t) HI HL); [| |done].
  - unfold worker_ok. rewrite Epc, Hpc, Hp. split_and!; [done| |].
    + intros c Hrc. destruct (Hr c Hrc) as (_ & Hu & o & ? & ? & ?). exists o. split_and!; try done. intros t' k2. rewrite Et. apply Hu.
    + exists None. split; [|done]. exists k. rewrite Et. split_and!; [done| |done]. congruence.
  - intros t' k2 c [= <-]. rewrite Et, Hk. intros [= <-] [Hc' _]%bound_to_co. congruence.
Qed.

Lemma fresh_unbound s c : co_inv s → cs_heap s !! c = None → unbound s c.
Proof. intros HI Hn t k Hk Hc. destruct (ci_bound _ HI t k c Hk Hc) as (o & Ho & _). congruence. Qed.

Lemma next_fresh s : co_inv s → cs_heap s !! cs_next s = None.
Proof. intros HI. apply eq_None_not_Some. intros [o Ho]. apply (ci_fresh _ HI) in Ho. lia. Qed.

(** A new stack, or none, after the stack kept has been freed. *)
Lemma alloc_new_inv s w t k ok :
  co_inv s → cs_pc s w = WStart t → cs_task s !! t = Some k → tk_coRoutine k = None →
  co_inv (let '(c, s) := AllocNewCoRoutine ok (tk_stack_size k) (s <| cs_heap := free_cached w s |>) in set_runningCo w c s).
Proof.
  intros HI Hpc Hk Hc. pose proof (next_fresh s HI) as Hn.
  assert (Hheap : ∀ c, ¬ mine s w (Some t) c → free_cached w s !! c = cs_heap s !! c).
  { intros c Hm. unfold free_cached. destruct (runningCo s w) as [c1|] eqn:Er; [|done]. rewrite lookup_delete_ne; [done|]. intros ->. apply Hm. left. by left. }
  assert (Henv : ∀ c w', w' ≠ w → cs_env (set_runningCo w c s) w' = cs_env s w').
  { intros c w' Hne. simpl. by rewrite fn_insert_decide, decide_False. }
  assert (Hpen : ∀ c, env_pending (cs_env (set_runningCo w c s) w) = env_pending (cs_env s w)).
  { intros c. simpl. by rewrite fn_insert_decide, decide_True. }
  destruct ok; simpl; eapply (start_alloc_inv s _ w t k HI); try done.
  - intros w' Hne. by apply (Henv (Some (cs_next s))).
  - by apply (Hpen (Some (cs_next s))).
  - intros c Hm. simpl. rewrite lookup_insert_ne; [by apply Hheap|]. intros <-. apply Hm. right. by left.
  - intros c. rewrite set_runningCo_eq, decide_True by done. intros [= <-]. split_and!; [right; by left|by apply fresh_unbound|].
    eexists. split; [apply lookup_insert_eq|done].
  - simpl. intros c o [[<- _]|[_ Ho]]%lookup_insert_Some; [lia|]. apply free_cached_lookup in Ho. apply (ci_fresh _ HI) in Ho. lia.
  - intros w' Hne. by apply (Henv None).
  - by apply (Hpen None).
  - intros c. by rewrite set_runningCo_eq, decide_True.
  - simpl. intros c o Ho%free_cached_lookup. by eapply (ci_fresh _ HI).
Qed.

Lemma alloc_none_inv s w t k ok :
  co_inv s → cs_pc s w = WStart t → cs_task s !! t = Some k → tk_coRoutine k = None →
  ∃ s1, CoAlloc ok t w s = Some s1 ∧ co_inv s1 ∧ cs_pc s1 = cs_pc s ∧ cs_task s1 = cs_task s ∧ (runningCo s1 w = None → ok = false).
Proof.
  intros HI Hpc Hk Hc. pose proof (alloc_new_inv s w t k ok HI Hpc Hk Hc) as Hnew. unfold CoAlloc, free_cached in *. rewrite Hk. simpl. rewrite Hc.
  assert (∀ s1 c, runningCo (set_runningCo w (Some c) s1) w = None → ok = false) as Hsome by (intros s1 c; by rewrite set_runningCo_eq, decide_True).
  destruct (runningCo s w) as [c|] eqn:Er.
  - destruct (running_heap s w c HI Er) as [o Ho]. rewrite Ho. simpl. case_decide; [eexists; split_and!; [done..|by rewrite Er]|]. unfold CoMemFree. rewrite Ho. simpl.
    destruct ok; (eexists; split; [done|]; split_and!; [exact Hnew|done|done|]); [apply Hsome|done].
  - destruct ok; (eexists; split; [done|]; split_and!; [destruct s; exact Hnew|done|done|]); [apply Hsome|done].
Qed.

(** A new task starts on the stack the worker keeps. *)
Lemma start_inv s w t k c :
  co_inv s → cs_pc s w = WStart t → cs_task s !! t = Some k → tk_coRoutine k = None → runningCo s w = Some c →
  ∃ s1 s', CoBind t w s = Some s1 ∧ (k ← cs_task s1 !! t; c ← tk_coRoutine k; switch_in w t c s1) = Some s' ∧
    co_inv s' ∧ cs_pc s' w = WRun t c.
Proof.
  intros HI Hpc Hk Hc Hr. pose proof (ci_worker _ HI w) as Hw. unfold worker_ok in Hw. rewrite Hpc in Hw.
  destruct Hw as (Hp & Hca & c0 & (k' & Hk' & Hst & _) & _). rewrite Hk in Hk'. injection Hk' as <-. destruct (Hca c Hr) as (o & Ho & Hs & Hd & Hu).
  destruct (bind_run s w t c k o) as (s1 & H1 & H2); [done..|by left|]. exists s1, (run_state w t c k o s). split_and!; [done|done| |unfold run_state; by rewrite goto_pc, decide_True].
  eapply (enter_inv s _ w t c _ (k <| tk_coRoutine := Some c |>) HI).
  - unfold owns. by rewrite Hpc.
  - left. by left.
  - intros w' Hne. unfold run_state. by rewrite goto_pc, decide_False.
  - unfold run_state. by rewrite goto_pc, decide_True.
  - unfold runningCo in Hr. simpl. destruct (cs_env s w). simpl in *. congruence.
  - done.
  - done.
  - done.
  - intros c' Hne Hm. simpl. by rewrite lookup_insert_ne.
  - simpl. apply lookup_insert_eq.
  - done.
  - done.
  - done.
  - intros c' o'. simpl. intros [[<- _]|[_ H']]%lookup_insert_Some; by eapply (ci_fresh _ HI).
Qed.

Lemma co_inv_same_pc s w pc : co_inv s → cs_pc s w = pc → co_inv (goto w pc s).
Proof.
  intros HI Hpc. assert (∀ w', cs_pc (goto w pc s) w' = cs_pc s w') as E by (intros w'; rewrite goto_pc; by case_decide; subst).
  split; try apply HI.
  - intros w'. pose proof (ci_worker _ HI w') as Hw. unfold worker_ok in *. by rewrite E.
  - intros w1 w2 t. unfold owns. rewrite !E. apply (ci_owner _ HI w1 w2 t).
Qed.

(** [CoStart] enters the coroutine, unless no stack can be allocated. *)
Lemma CoStart_inv s w t ok1 ok2 :
  co_inv s → cs_pc s w = WStart t →
  ∃ s', CoStart ok1 ok2 w t s = Some s' ∧ co_inv s' ∧ ((∃ c, cs_pc s' w = WRun t c) ∨ cs_pc s' w = WStart t ∧ ok1 = false ∧ ok2 = false).
Proof.
  intros HI Hpc. pose proof (ci_worker _ HI w) as Hw. unfold worker_ok in Hw. rewrite Hpc in Hw. destruct Hw as (_ & _ & c0 & (k & Hk & _ & _) & _).
  destruct (tk_coRoutine k) as [c|] eqn:Hc; [destruct (resume_inv s w t k c ok1 ok2) as (s' & ? & ? & ?); eauto 10|].
  unfold CoStart, CoBboxPreCheck. rewrite Hk. simpl. rewrite Hc. simpl. unfold CoCreate.
  destruct (alloc_none_inv s w t k ok1 HI Hpc Hk Hc) as (s1 & -> & HI1 & Epc1 & Et1 & Hok1). simpl.
  assert (Hrun : ∀ s1 c, co_inv s1 → cs_pc s1 = cs_pc s → cs_task s1 = cs_task s → runningCo s1 w = Some c →
    ∃ s', ((s2 ← CoBind t w s1; Some (true, s2)) ≫= λ '(ok, s), if ok : bool then k ← cs_task s !! t; c ← tk_coRoutine k; switch_in w t c s
             else Some (goto w (WStart t) s)) = Some s' ∧ co_inv s' ∧ ((∃ c, cs_pc s' w = WRun t c) ∨ cs_pc s' w = WStart t ∧ ok1 = false ∧ ok2 = false)).
  { intros s2 c HI2 Epc Et Hr. destruct (start_inv s2 w t k c) as (s3 & s' & H1 & H2 & ? & ?); [done|by rewrite Epc|by rewrite Et|done|done|].
    exists s'. rewrite H1. simpl. eauto. }
  destruct (runningCo s1 w) as [c|] eqn:Er; [by apply (Hrun s1 c)|].
  assert (cs_task s1 !! t = Some k) as Hk1 by (by rewrite Et1). assert (cs_pc s1 w = WStart t) as Hpc1 by (by rewrite Epc1).
  destruct (alloc_none_inv s1 w t k ok2 HI1 Hpc1 Hk1 Hc) as (s2 & -> & HI2 & Epc2 & Et2 & Hok2). simpl.
  destruct (runningCo s2 w) as [c|] eqn:Er2; [apply (Hrun s2 c); congruence || done|]. eexists. split; [done|].
  split; [apply co_inv_same_pc; [done|by rewrite Epc2]|]. right. rewrite goto_pc, decide_True by done. auto.
Qed.

Lemma co_step_inv s s' : co_step s s' → co_inv s → co_inv s'.
Proof.
  destruct 1 as [|s t k Hk Hs|s w t k Hpc Hk Hs|s w t ok1 ok2 s' Hpc H|s w t c s' Hpc H|s w t c b s' Hpc H|s w t c s' Hpc H|s w t c s' Hpc H|s w t c s' Hpc H|s w Hpc|s t k s' Hk Hs H|s w s' Hpc H]; intros HI.
  - by apply submit_inv.
  - by eapply free_inv.
  - by apply co_take_inv.
  - destruct (CoStart_inv s w t ok1 ok2 HI Hpc) as (? & ? & ? & _). congruence.
  - destruct (co_wait_inv s w t c HI Hpc) as (? & ? & ?). congruence.
  - destruct (end_inv b s w t c HI Hpc) as (? & ? & ?). congruence.
  - destruct (back_inv s w t c HI Hpc) as (? & ? & ?). congruence.
  - destruct (publish_inv s w t c HI Hpc) as (? & ? & ?). congruence.
  - destruct (false_inv s w t c HI Hpc) as (? & ? & ? & _). congruence.
  - by apply left_inv.
  - destruct (co_wake_inv s t k HI Hk Hs) as (? & ? & ?). congruence.
  - destruct (exit_inv s w HI Hpc) as (? & ? & ?). congruence.
Qed.

Lemma co_inv_init : co_inv co_init.
Proof.
  split; simpl; try done.
Qed.

Lemma co_reach s : rtc co_step co_init s → co_inv s.
Proof. apply rtc_invariant; [apply co_inv_init|]. intros a b IH Hs. by eapply co_step_inv. Qed.

(** ** Theorems *)

(** A task waits on worker 0; a second task uses worker 0 meanwhile; the first goes on
    on worker 1. *)
Lemma demo_reachable :
  ∃ s1 s2, rtc co_step co_init s1 ∧ rtc co_step s1 s2 ∧ cs_pc s1 1%nat = WStart 1 ∧ (∃ k, cs_task s1 !! 1%positive = Some k ∧ tk_coRoutine k = Some 1%positive) ∧
    cs_pc s2 0%nat = WRun 2 2 ∧ cs_pc s2 1%nat = WRun 1 1.
Proof.
  eexists _, _. split_and!.
  - eapply rtc_l; [by apply (cst_submit _ 1 true 4096)|]. eapply rtc_l; [by eapply (cst_take _ 0 1)|]. run_step (cst_start _ 0 1 true true).
    run_step (cst_wait _ 0 1 1). run_step (cst_back _ 0 1 1). run_step (cst_publish _ 0 1 1).
    eapply rtc_l; [eapply (cst_wake _ 1); vm_compute; reflexivity|]. eapply rtc_l; [by apply (cst_submit _ 2 false 4096)|].
    eapply rtc_l; [eapply (cst_take _ 1 1); vm_compute; reflexivity|]. apply rtc_refl.
  - run_step (cst_start _ 1 1 true true). run_step (cst_left _ 0). eapply rtc_l; [eapply (cst_take _ 0 2); vm_compute; reflexivity|].
    run_step (cst_start _ 0 2 true true). apply rtc_refl.
  - vm_compute. reflexivity.
  - eexists. split; vm_compute; reflexivity.
  - vm_compute. reflexivity.
  - vm_compute. reflexivity.
Qed.

(** C7: In every run of any number of workers and tasks no operation touches a freed
    stack, follows a null pointer or jumps into a context that is not its own: starting,
    waiting, finishing, coming back, handing over and freeing the kept stack
    always succeed; a task is started exactly where [CoStart] says, a task that
    waited on the stack it waited on, whatever worker resumes it. *)
Theorem co_never_faults s w :
  rtc co_step co_init s →
  (∀ t ok1 ok2, cs_pc s w = WStart t →
     ∃ s', CoStart ok1 ok2 w t s = Some s' ∧ ((∃ c, cs_pc s' w = WRun t c) ∨ cs_pc s' w = WStart t ∧ ok1 = false ∧ ok2 = false) ∧
       ∀ k c, cs_task s !! t = Some k → tk_coRoutine k = Some c → cs_pc s' w = WRun t c) ∧
  (∀ t c, cs_pc s w = WRun t c → is_Some (CoWait w t s) ∧ ∀ finished, is_Some (CoStartEntry_end finished w t c s)) ∧
  (∀ t c, cs_pc s w = WBack t c → is_Some (CoStart_back w t c s)) ∧
  (∀ t c, cs_pc s w = WPred t c → is_Some (pred_publish w t s) ∧ ∃ s', pred_false w t c s = Some s' ∧ cs_pc s' w = WRun t c) ∧
  (cs_pc s w = WIdle → is_Some (CoStackFree w s)).
Proof.
  intros HI%co_reach. split_and!.
  - intros t ok1 ok2 Hpc. destruct (CoStart_inv s w t ok1 ok2 HI Hpc) as (s' & H & _ & Hs'). exists s'. split_and!; [done|done|].
    intros k c Hk Hc. destruct (resume_inv s w t k c ok1 ok2 HI Hpc Hk Hc) as (? & ? & _ & ?). congruence.
  - intros t c Hpc. destruct (co_wait_inv s w t c HI Hpc) as (? & -> & _). split; [done|]. intros b. by destruct (end_inv b s w t c HI Hpc) as (? & -> & _).
  - intros t c Hpc. by destruct (back_inv s w t c HI Hpc) as (? & -> & _).
  - intros t c Hpc. destruct (publish_inv s w t c HI Hpc) as (? & -> & _). destruct (false_inv s w t c HI Hpc) as (s' & ? & _ & ?). eauto.
  - intros Hpc. by destruct (exit_inv s w HI Hpc) as (? & -> & _).
Qed.

Lemma co_never_faults_witness : ∃ s s', rtc co_step co_init s ∧ CoStart true true 1 1 s = Some s' ∧ cs_pc s' 1%nat = WRun 1 1.
Proof.
  destruct demo_reachable as (s1 & _ & Hr & _ & Hpc & (k & Hk & Hc) & _). exists s1.
  destruct (co_never_faults s1 1 Hr) as [Hs _]. destruct (Hs 1%positive true true Hpc) as (s' & ? & _ & Hown). exists s'. eauto.
Defined.

(** C8: A stack belongs to one task and one worker at a time.  Two workers never run the
    same task or the same stack; a running stack names the worker it runs on, to which
    it will jump back; the stack of a task that waits or is ready is alive, holds the
    point where that task waits, and is kept by no worker. *)
Theorem co_stack_exclusive s :
  rtc co_step co_init s →
  (∀ w w' t t' c c', cs_pc s w = WRun t c → cs_pc s w' = WRun t' c' → w ≠ w' → t ≠ t' ∧ c ≠ c') ∧
  (∀ w t c, cs_pc s w = WRun t c → ∃ o, cs_heap s !! c = Some o ∧ co_thEnv o = Some w ∧ co_task o = Some t) ∧
  (∀ t k c, cs_task s !! t = Some k → tk_coRoutine k = Some c → tk_stage k = TReady ∨ tk_stage k = TWaiting →
     ∃ o, cs_heap s !! c = Some o ∧ co_ctx o = CtxSaved t ∧ ∀ w, runningCo s w ≠ Some c ∧ ∀ t', cs_pc s w ≠ WRun t' c).
Proof.
  intros HI%co_reach.
  assert (Hrun : ∀ w t c, cs_pc s w = WRun t c → owns s w t ∧ runningCo s w = Some c ∧ ∃ o, cs_heap s !! c = Some o ∧ co_thEnv o = Some w ∧ co_task o = Some t).
  { intros w t c Hpc. pose proof (ci_worker _ HI w) as Hw. unfold worker_ok, owns in *. rewrite Hpc in *.
    destruct Hw as (_ & ? & _ & o & ? & ? & ? & _). split_and!; [done|done|eauto]. }
  split_and!.
  - intros w w' t t' c c' H1 H2 Hne. destruct (Hrun _ _ _ H1) as (Ho & Hr & _). destruct (Hrun _ _ _ H2) as (Ho' & Hr' & _).
    split; intros ->; apply Hne; [by eapply (ci_owner _ HI)|by eapply (ci_one _ HI)].
  - intros w t c Hpc. by apply Hrun.
  - intros t k c Hk Hc Hs. apply bound_to_live in Hc; [|by destruct Hs as [-> | ->]]. destruct (ci_waiting _ HI t k c Hk Hc) as [_ (o & Ho & _ & Hctx & _ & _ & Hn)]; [by destruct Hs as [-> | ->]|].
    exists o. split_and!; [done..|]. intros w. split; [apply Hn|]. intros t' Hpc. apply (Hn w). by destruct (Hrun _ _ _ Hpc) as (_ & ? & _).
Qed.

Lemma co_stack_exclusive_witness : ∃ s, cs_pc s 0%nat = WRun 2 2 ∧ cs_pc s 1%nat = WRun 1 1 ∧ 2%positive ≠ 1%positive.
Proof.
  destruct demo_reachable as (s1 & s2 & Hr1 & Hr2 & _ & _ & H0 & H1). exists s2. split_and!; [done..|].
  by apply (co_stack_exclusive s2 (rtc_trans _ _ _ Hr1 Hr2)) with (w := 0%nat) (w' := 1%nat) (t := 2%positive) (t' := 1%positive).
Defined.
End CoRoutine.

(** ** Thread-specific data of tasks

    With [FFRT_TASK_LOCAL_ENABLE] a task has an array of thread-specific data of its
    own, which replaces that of the worker while the task runs.  Two keys, the
    execution context and the environment of the coroutines, stay those of the
    worker. *)
Module Tsd.

(** Arrays by address, null being 0, and the array each thread uses; a slot that was
    never written is null. *)
Record tsd_state := mk_tsd {
  ts_mem : gmap Z (gmap Z Z);
  ts_cur : gmap nat Z;
}.

#[export] Instance tsd_state_eta : Eta tsd_state := λ s, mk_tsd (ts_mem s) (ts_cur s).

Record TaskLocalAttr := mkTaskLocalAttr {
  tl_taskLocal : bool;
  tl_tsd : Z;
  tl_threadTsd : Z;
  tl_runningTid : option nat;   (* of the task *)
}.

#[export] Instance TaskLocalAttr_eta : Eta TaskLocalAttr := λ a,
  mkTaskLocalAttr (tl_taskLocal a) (tl_tsd a) (tl_threadTsd a) (tl_runningTid a).

Definition tsd_slot (p key : Z) (s : tsd_state) : Z := default 0 (default ∅ (ts_mem s !! p) !! key).
Definition set_tsd_slot (p key v : Z) (s : tsd_state) : tsd_state := s <| ts_mem ::= λ m, <[p := <[key := v]> (default ∅ (m !! p))]> m |>.
Definition pthread_gettsd (th : nat) (s : tsd_state) : Z := default 0 (ts_cur s !! th).
Definition pthread_settsd (th : nat) (p : Z) (s : tsd_state) : tsd_state := s <| ts_cur ::= <[th := p]> |>.

Section switch.
(** [g_executeCtxTlsKey] and [g_coThreadTlsKey]. *)
Context (g_executeCtxTlsKey g_coThreadTlsKey : Z).

Definition updKeyMap : list Z := [g_executeCtxTlsKey; g_coThreadTlsKey].

Definition IsTaskLocalEnable (normal : bool) (a : option TaskLocalAttr) : bool :=
  normal && match a with Some a => tl_taskLocal a && negb (bool_decide (tl_tsd a = 0)) | None => false end.

(** [None] is an abort. *)
Definition InitWorkerTsdValueToTask (th : nat) (taskTsd : Z) (s : tsd_state) : option tsd_state :=
  foldl (λ r key, s ← r;
      if decide (key <= 0) then None
      else let addr := tsd_slot (pthread_gettsd th s) key s in Some (if decide (addr ≠ 0) then set_tsd_slot taskTsd key addr s else s))
    (Some s) updKeyMap.

Definition SwitchTsdAddrToTask (th : nat) (a : TaskLocalAttr) (s : tsd_state) : TaskLocalAttr * tsd_state :=
  (a <| tl_threadTsd := pthread_gettsd th s |>, pthread_settsd th (tl_tsd a) s).

Definition SwitchTsdToTask (th : nat) (a : TaskLocalAttr) (s : tsd_state) : option (TaskLocalAttr * tsd_state) :=
  if negb (IsTaskLocalEnable true (Some a)) then Some (a, s)
  else
    s ← InitWorkerTsdValueToTask th (tl_tsd a) s;
    let '(a, s) := SwitchTsdAddrToTask th a s in Some (a <| tl_runningTid := Some th |>, s).

Definition SwitchTsdAddrToThread (th : nat) (a : TaskLocalAttr) (s : tsd_state) : bool * TaskLocalAttr * tsd_state :=
  if decide (tl_threadTsd a = 0) then (false, a, s)
  else (true, a <| tl_threadTsd := 0 |>, pthread_settsd th (tl_threadTsd a) s).

Definition UpdateWorkerTsdValueToThread (th : nat) (taskTsd : Z) (s : tsd_state) : option tsd_state :=
  foldl (λ r key, s ← r;
      if decide (key <= 0) then None
      else
        let threadTsd := pthread_gettsd th s in
        let threadVal := tsd_slot threadTsd key s in
        let taskVal := tsd_slot taskTsd key s in
        if decide (threadVal = 0 ∧ taskVal ≠ 0) then Some (set_tsd_slot taskTsd key 0 (set_tsd_slot threadTsd key taskVal s))
        else if decide (threadVal ≠ 0 ∧ taskVal ≠ 0 ∧ threadVal ≠ taskVal) then None
        else if decide (threadVal ≠ 0 ∧ taskVal = 0) then None
        else Some (set_tsd_slot taskTsd key 0 s))
    (Some s) updKeyMap.

Definition SwitchTsdToThread (th : nat) (a : TaskLocalAttr) (s : tsd_state) : option (TaskLocalAttr * tsd_state) :=
  if negb (IsTaskLocalEnable true (Some a)) then Some (a, s)
  else
    let '(ok, a, s) := SwitchTsdAddrToThread th a s in
    if ok : bool then s ← UpdateWorkerTsdValueToThread th (tl_tsd a) s; Some (a <| tl_runningTid := None |>, s)
    else Some (a, s).
End switch.

Lemma slot_set p key v s p' key' : tsd_slot p' key' (set_tsd_slot p key v s) = if decide (p' = p ∧ key' = key) then v else tsd_slot p' key' s.
Proof.
  unfold tsd_slot, set_tsd_slot. simpl. destruct (decide (p' = p)) as [->|Hp].
  - rewrite lookup_insert_eq. simpl. destruct (decide (key' = key)) as [->|Hk].
    + rewrite lookup_insert_eq. by rewrite decide_True.
    + rewrite lookup_insert_ne by done. by rewrite decide_False by naive_solver.
  - rewrite lookup_insert_ne by done. by rewrite decide_False by naive_solver.
Qed.

Lemma gettsd_set_slot p key v s th : pthread_gettsd th (set_tsd_slot p key v s) = pthread_gettsd th s.
Proof. done. Qed.

Lemma gettsd_settsd th p s : pthread_gettsd th (pthread_settsd th p s) = p.
Proof. unfold pthread_gettsd, pthread_settsd. simpl. by rewrite lookup_insert_eq. Qed.

Section round_trip.
Context (k1 k2 : Z) (Hk1 : 0 < k1) (Hk2 : 0 < k2) (Hk : k1 ≠ k2).
Context (th : nat) (a : TaskLocalAttr) (Hen : IsTaskLocalEnable true (Some a) = true).
Let q := tl_tsd a.

Definition worker_key (key : Z) : Prop := key = k1 ∨ key = k2.

(** The worker's two values appear in the task's array. *)
Lemma switch_in_ok s p :
  pthread_gettsd th s = p → p ≠ q → (∀ key, worker_key key → tsd_slot q key s = 0) →
  ∃ s1, SwitchTsdToTask k1 k2 th a s = Some (a <| tl_threadTsd := p |> <| tl_runningTid := Some th |>, s1) ∧ pthread_gettsd th s1 = q ∧
    (∀ key, worker_key key → tsd_slot q key s1 = tsd_slot p key s) ∧
    (∀ p' key, p' ≠ q ∨ ¬ worker_key key → tsd_slot p' key s1 = tsd_slot p' key s).
Proof.
  intros Hp Hne H0. unfold SwitchTsdToTask. rewrite Hen. simpl. unfold InitWorkerTsdValueToTask.
  cbn [foldl updKeyMap mbind option_bind]. rewrite decide_False by lia. cbn [mbind option_bind]. rewrite decide_False by lia. cbn [mbind option_bind]. rewrite Hp.
  assert (H1 : tsd_slot q k1 s = 0) by (apply H0; by left). assert (H2 : tsd_slot q k2 s = 0) by (apply H0; by right). fold q.
  set (sa := if decide (tsd_slot p k1 s ≠ 0) then set_tsd_slot q k1 (tsd_slot p k1 s) s else s).
  assert (Ha : ∀ p' key, tsd_slot p' key sa = if decide (p' = q ∧ key = k1) then tsd_slot p k1 s else tsd_slot p' key s).
  { intros p' key. unfold sa. case_decide as Hv; [apply slot_set|]. case_decide as Hx; [|done]. destruct Hx as [-> ->]. rewrite H1. destruct (decide (tsd_slot p k1 s = 0)); [done|by destruct Hv]. }
  assert (Hga : pthread_gettsd th sa = p) by (unfold sa; by case_decide). rewrite Hga.
  set (sb := if decide (tsd_slot p k2 sa ≠ 0) then set_tsd_slot q k2 (tsd_slot p k2 sa) sa else sa).
  assert (Hb : ∀ p' key, tsd_slot p' key sb = if decide (p' = q ∧ key = k2) then tsd_slot p k2 s else tsd_slot p' key sa).
  { assert (tsd_slot p k2 sa = tsd_slot p k2 s) as E by (rewrite Ha, decide_False; [done|intros [_ ?]; congruence]). intros p' key. unfold sb. rewrite E. case_decide as Hv; [apply slot_set|].
    case_decide as Hx; [|done]. destruct Hx as [-> ->]. rewrite Ha, decide_False by (intros [_ ?]; congruence). rewrite H2. destruct (decide (tsd_slot p k2 s = 0)); [done|by destruct Hv]. }
  assert (Hgb : pthread_gettsd th sb = p) by (unfold sb; by case_decide). rewrite Hgb.
  eexists. split; [done|]. split; [apply gettsd_settsd|]. clearbody sa sb. split.
  - intros key [-> | ->]; change (tsd_slot q ?x (pthread_settsd th q sb)) with (tsd_slot q x sb); rewrite Hb, Ha; [|by rewrite decide_True].
    rewrite decide_False by naive_solver. by rewrite decide_True.
  - intros p' key Hor. change (tsd_slot p' key (pthread_settsd th q sb)) with (tsd_slot p' key sb). unfold worker_key in Hor. rewrite Hb, Ha, !decide_False; [done|naive_solver..].
Qed.

(** They are taken out of it, and what the task's run created of them goes to the worker. *)
Lemma switch_out_ok s p tid :
  p ≠ 0 → p ≠ q → (∀ key, worker_key key → tsd_slot p key s ≠ 0 → tsd_slot q key s = tsd_slot p key s) →
  ∃ s1, SwitchTsdToThread k1 k2 th (a <| tl_threadTsd := p |> <| tl_runningTid := tid |>) s = Some (a <| tl_threadTsd := 0 |> <| tl_runningTid := None |>, s1) ∧
    pthread_gettsd th s1 = p ∧ (∀ key, worker_key key → tsd_slot p key s1 = tsd_slot q key s ∧ tsd_slot q key s1 = 0) ∧
    (∀ p' key, p' ≠ q ∧ p' ≠ p ∨ ¬ worker_key key → tsd_slot p' key s1 = tsd_slot p' key s).
Proof.
  intros Hp0 Hne Hv. unfold SwitchTsdToThread. change (IsTaskLocalEnable true _) with (IsTaskLocalEnable true (Some a)). rewrite Hen. simpl.
  unfold SwitchTsdAddrToThread. simpl. rewrite decide_False by done. unfold UpdateWorkerTsdValueToThread. simpl. fold q.
  assert (Hone : ∀ key s, 0 < key → pthread_gettsd th s = p → (tsd_slot p key s ≠ 0 → tsd_slot q key s = tsd_slot p key s) →
    ∃ s1, (if decide (key <= 0) then None
           else if decide (tsd_slot (pthread_gettsd th s) key s = 0 ∧ tsd_slot q key s ≠ 0)
                then Some (set_tsd_slot q key 0 (set_tsd_slot (pthread_gettsd th s) key (tsd_slot q key s) s))
                else if decide (tsd_slot (pthread_gettsd th s) key s ≠ 0 ∧ tsd_slot q key s ≠ 0 ∧ tsd_slot (pthread_gettsd th s) key s ≠ tsd_slot q key s) then None
                else if decide (tsd_slot (pthread_gettsd th s) key s ≠ 0 ∧ tsd_slot q key s = 0) then None
                else Some (set_tsd_slot q key 0 s)) = Some s1 ∧ pthread_gettsd th s1 = p ∧
      ∀ p' key', tsd_slot p' key' s1 = if decide (p' = q ∧ key' = key) then 0 else if decide (p' = p ∧ key' = key) then tsd_slot q key s else tsd_slot p' key' s).
  { clear s Hv. intros key s Hkey Hg Hv. rewrite decide_False by lia. rewrite Hg. case_decide as C1.
    - eexists. split; [done|]. split; [done|]. intros p' key'. by rewrite !slot_set.
    - rewrite decide_False by (intros (? & ? & ?); specialize (Hv ltac:(done)); congruence). rewrite decide_False by (intros [? ?]; specialize (Hv ltac:(done)); congruence).
      eexists. split; [done|]. split; [done|]. intros p' key'. rewrite slot_set. case_decide; [done|]. case_decide as C; [|done]. destruct C as [-> ->].
      destruct (decide (tsd_slot p key s = 0)) as [E|E]; [|symmetry; by apply Hv]. rewrite E. destruct (decide (tsd_slot q key s = 0)); [done|]. by destruct C1. }
  destruct (Hone k1 (pthread_settsd th p s)) as (sa & -> & Hga & Ha); [done|apply gettsd_settsd|apply Hv; by left|]. simpl.
  destruct (Hone k2 sa) as (sb & -> & Hgb & Hb); [done|done|rewrite !Ha, !decide_False by naive_solver; apply Hv; by right|]. simpl.
  eexists. split; [done|]. split; [done|].
  change (∀ p' key', tsd_slot p' key' sa = if decide (p' = q ∧ key' = k1) then 0 else if decide (p' = p ∧ key' = k1) then tsd_slot q k1 s else tsd_slot p' key' s) in Ha.
  split.
  - intros key [-> | ->]; rewrite !Hb, !Ha; repeat case_decide; intuition congruence.
  - intros p' key Hor. unfold worker_key in Hor. rewrite !Hb, !Ha, !decide_False; [done|naive_solver..].
Qed.
End round_trip.

(** A task with data of its own takes a turn on a worker: it finds its array in place
    of the worker's, with the worker's two keys in it; after the turn the worker has its
    array back with every tsd_slot as it was, apart from values of the two keys that were
    created during the turn, and the task's array keeps the task's values and
    nothing of the worker.  No turn of a task that leaves the two keys
    alone aborts. *)
Theorem tsd_turn k1 k2 th a p s :
  0 < k1 → 0 < k2 → k1 ≠ k2 → IsTaskLocalEnable true (Some a) = true → pthread_gettsd th s = p → p ≠ 0 → p ≠ tl_tsd a →
  (∀ key, key = k1 ∨ key = k2 → tsd_slot (tl_tsd a) key s = 0) →
  ∃ a1 s1, SwitchTsdToTask k1 k2 th a s = Some (a1, s1) ∧ pthread_gettsd th s1 = tl_tsd a ∧
    (∀ key, tsd_slot (tl_tsd a) key s1 = if decide (key = k1 ∨ key = k2) then tsd_slot p key s else tsd_slot (tl_tsd a) key s) ∧
    ∀ s2, (∀ key, tsd_slot p key s2 = tsd_slot p key s1) →
      (∀ key, key = k1 ∨ key = k2 → tsd_slot p key s ≠ 0 → tsd_slot (tl_tsd a) key s2 = tsd_slot (tl_tsd a) key s1) →
      ∃ a3 s3, SwitchTsdToThread k1 k2 th a1 s2 = Some (a3, s3) ∧ pthread_gettsd th s3 = p ∧ tl_threadTsd a3 = 0 ∧
        (∀ key, tsd_slot p key s3 = if decide (key = k1 ∨ key = k2) then tsd_slot (tl_tsd a) key s2 else tsd_slot p key s) ∧
        (∀ key, tsd_slot (tl_tsd a) key s3 = if decide (key = k1 ∨ key = k2) then 0 else tsd_slot (tl_tsd a) key s2).
Proof.
  intros H1 H2 H12 Hen Hp Hp0 Hpq H0. destruct (switch_in_ok k1 k2 H1 H2 H12 th a Hen s p Hp Hpq H0) as (s1 & E1 & Hg1 & Hin & Hout).
  eexists _, s1. split_and!; [exact E1|done| |].
  - intros key. case_decide; [by apply Hin|]. apply Hout. by right.
  - intros s2 Hps Hqs. destruct (switch_out_ok k1 k2 H1 H2 H12 th a Hen s2 p (Some th) Hp0 Hpq) as (s3 & E3 & Hg3 & Hw & Hr).
    { intros key Hkey Hne. rewrite Hps, Hout in Hne by (by left). rewrite Hps, Hqs, Hin by done. rewrite Hout by (by left). done. }
    eexists _, s3. split_and!; [exact E3|done|done| |].
    + intros key. case_decide; [by apply Hw|]. rewrite Hr by (by right). rewrite Hps. apply Hout. by right.
    + intros key. case_decide; [by apply Hw|]. apply Hr. by right.
Qed.

(** Worker 0 with the array at 100; the task's array at 200. *)
Definition demo_tsd : tsd_state := mk_tsd {[100 := {[3 := 33; 4 := 44]}]} {[0%nat := 100]}.

Lemma tsd_turn_witness : ∃ a1 s1, SwitchTsdToTask 3 4 0 (mkTaskLocalAttr true 200 0 None) demo_tsd = Some (a1, s1) ∧ pthread_gettsd 0 s1 = 200.
Proof.
  destruct (tsd_turn 3 4 0 (mkTaskLocalAttr true 200 0 None) 100 demo_tsd) as (a1 & s1 & H1 & H2 & _); [done..|].
  exists a1, s1. by split.
Defined.
End Tsd.
