(* ===== verification/GraphCheck.v ===== *)
(** * Cycle detection for the mutex deadlock check

    Models src/util/graph_check.{h,cpp} ([GraphCheckCyclic]) and the class
    [MutexGraph] of src/sync/mutex_private.h.  The map of vertices is the list of
    its entries in key order; the map of vertex states is a function, since
    [operator[]] creates a missing state with both flags false.  The depth-first
    search is [None] where the source would dereference the end iterator, or
    when the fuel, one more than the number of vertices, runs out. *)

From S2P Require Import Prelude.

(** ** The graph *)

Abbreviation graph := (list (Z * list Z)).

Implicit Types (g : graph) (u v w : Z).

(** [vetexes.find(v)] *)
Fixpoint find_vertex v g : option (list Z) :=
  match g with
  | [] => None
  | (k, adj) :: g => if decide (k = v) then Some adj else find_vertex v g
  end.

(** [vetexes[label] = {}] of a new label, in key order. *)
Fixpoint insert_vertex v g : graph :=
  match g with
  | [] => [(v, [])]
  | (k, adj) :: g' => if decide (v < k) then (v, []) :: g else (k, adj) :: insert_vertex v g'
  end.

Fixpoint update_vertex v (f : list Z → list Z) g : graph :=
  match g with
  | [] => []
  | (k, adj) :: g => if decide (k = v) then (k, f adj) :: g else (k, adj) :: update_vertex v f g
  end.

Definition AddVetexByLabel label g : graph :=
  match find_vertex label g with None => insert_vertex label g | Some _ => g end.

Definition EdgeNum g : Z := u32 (foldl (λ n t, u32 (n + Z.of_nat (length (snd t)))) 0 g).
Definition VertexNum g : Z := u32 (Z.of_nat (length g)).

Definition AddEdgeByLabel startLabel endLabel g : graph := update_vertex startLabel (λ adj, adj ++ [endLabel]) g.
Definition RemoveEdgeByLabel endLabel g : graph := update_vertex endLabel (λ _, []) g.

Record VertexStatus := mkVertexStatus { visited : bool; recStack : bool }.

Abbreviation status := (Z → VertexStatus).

Definition set_recStack v (b : bool) (st : status) : status := <[v := mkVertexStatus (visited (st v)) b]> st.
Definition enter_vertex v (st : status) : status := <[v := mkVertexStatus true true]> st.

(** The loop over the neighbours of [v]; [dfs] is the recursive call. *)
Fixpoint dfs_loop (dfs : Z → status → option (bool * status)) v (adj : list Z) (st : status) : option (bool * status) :=
  match adj with
  | [] => Some (false, set_recStack v false st)
  | i :: adj =>
      if visited (st i) then
        if recStack (st i) then Some (true, st) else dfs_loop dfs v adj st
      else
        match dfs i st with
        | None => None
        | Some (true, st) => Some (true, st)
        | Some (false, st) => if recStack (st i) then Some (true, st) else dfs_loop dfs v adj st
        end
  end.

Fixpoint IsCyclicDfs (fuel : nat) g v (st : status) : option (bool * status) :=
  match fuel with
  | O => None
  | S fuel =>
      if visited (st v) then Some (false, set_recStack v false st)
      else
        match find_vertex v g with
        | None => None
        | Some adj => dfs_loop (IsCyclicDfs fuel g) v adj (enter_vertex v st)
        end
  end.

(** The second loop of [IsCyclic]. *)
Fixpoint cyclic_loop (fuel : nat) g (vs : list Z) (st : status) : option bool :=
  match vs with
  | [] => Some false
  | v :: vs =>
      if visited (st v) then cyclic_loop fuel g vs st
      else
        match IsCyclicDfs fuel g v st with
        | None => None
        | Some (true, _) => Some true
        | Some (false, st) => cyclic_loop fuel g vs st
        end
  end.

Definition unvisited : status := λ _, mkVertexStatus false false.

Definition IsCyclic g : option bool := cyclic_loop (S (length g)) g (fst <$> g) unvisited.

(** ** Specification *)

Definition edge g u v : Prop := ∃ adj, find_vertex u g = Some adj ∧ v ∈ adj.

Definition has_cycle g : Prop := ∃ v, tc (edge g) v v.

(** Every edge ends in a vertex. *)
Definition graph_ok g : Prop := ∀ u v, edge g u v → is_Some (find_vertex v g).

Definition black (st : status) v : Prop := visited (st v) = true ∧ recStack (st v) = false.

(** Vertices on the stack are visited; finished vertices lead only to finished
    ones, and none of them lies on a cycle. *)
Record dfs_inv g (st : status) : Prop := {
  dv_stack v : recStack (st v) = true → visited (st v) = true;
  dv_closed u v : black st u → edge g u v → black st v;
  dv_acyclic v : black st v → ¬ tc (edge g) v v;
}.

Lemma black_reach g st u v : dfs_inv g st → black st u → rtc (edge g) u v → black st v.
Proof. intros HI Hb. induction 1; eauto using dv_closed. Qed.

(** The fuel a search needs. *)
Definition unvisited_count g (st : status) : nat := length (filter (λ v, visited (st v) = false) (fst <$> g)).

Definition st_le (st st' : status) : Prop := ∀ v, visited (st v) = true → visited (st' v) = true.

Lemma unvisited_count_le g st st' : st_le st st' → (unvisited_count g st' <= unvisited_count g st)%nat.
Proof.
  intros Hle. unfold unvisited_count. induction (fst <$> g) as [|v l IH]; [done|].
  rewrite !filter_cons. repeat case_decide; simpl; try lia. destruct (visited (st v)) eqn:E; [|done].
  apply Hle in E. congruence.
Qed.

Lemma unvisited_count_lt g st st' v adj :
  st_le st st' → find_vertex v g = Some adj → visited (st v) = false → visited (st' v) = true →
  (unvisited_count g st' < unvisited_count g st)%nat.
Proof.
  intros Hle Hf Hv Hv'. induction g as [|[k a] g IH]; [done|]. cbn [find_vertex] in Hf. unfold unvisited_count in *.
  rewrite fmap_cons, !filter_cons. cbn [fst]. case_decide as Hk.
  - subst. rewrite (decide_False (P := visited (st' v) = false)) by congruence. rewrite decide_True by done.
    simpl. pose proof (unvisited_count_le g st st' Hle). unfold unvisited_count in *. lia.
  - specialize (IH Hf). repeat case_decide; simpl; try lia. destruct (visited (st k)) eqn:E; [|done].
    apply Hle in E. congruence.
Qed.

(** ** Correctness of the search *)

Section search.
Context (g : graph) (Hok : graph_ok g).

(** What a search of [v] started in [st] gives. *)
Definition dfs_result v (st : status) (r : option (bool * status)) : Prop :=
  ∃ b st', r = Some (b, st') ∧
    if b then has_cycle g
    else dfs_inv g st' ∧ st_le st st' ∧ visited (st' v) = true ∧ ∀ u, recStack (st' u) = recStack (st u).

(** What is known when a search of [v] starts: every vertex on the stack leads to it. *)
Record dfs_pre v (st : status) : Prop := {
  dp_vertex : is_Some (find_vertex v g);
  dp_inv : dfs_inv g st;
  dp_new : visited (st v) = false;
  dp_stack u : recStack (st u) = true → tc (edge g) u v;
}.

(** The vertex [v] is finished once all its neighbours are. *)
Lemma dfs_finish v adj st :
  find_vertex v g = Some adj → dfs_inv g st → visited (st v) = true → recStack (st v) = true →
  (∀ u, u ∈ adj → black st u) → dfs_inv g (set_recStack v false st).
Proof.
  intros Hf HI Hv Hs Hadj.
  assert (∀ u, black (set_recStack v false st) u ↔ u = v ∨ black st u) as Hb.
  { intros u. unfold black, set_recStack. rewrite !fn_insert_decide. case_decide as Hu; simpl; [|tauto]. subst u. tauto. }
  assert (∀ u w, u = v ∨ black st u → edge g u w → black st w) as Hcl.
  { intros u w [->|Hu] He; [|by eapply dv_closed]. destruct He as (a & Ha & Hin). rewrite Hf in Ha. injection Ha as <-. auto. }
  split.
  - intros u. unfold set_recStack. rewrite !fn_insert_decide. case_decide as Hu; [done|]. apply (dv_stack _ _ HI).
  - intros u w Hu He. apply Hb. right. eapply Hcl; [by apply Hb|done].
  - intros u [->|Hu]%Hb; [|by apply (dv_acyclic _ _ HI)].
    intros Hc. assert (∃ w, edge g v w ∧ rtc (edge g) w v) as (w & He & Hr)
      by (inversion Hc; subst; eauto using tc_rtc).
    assert (black st v) as [_ Hns] by (eapply black_reach; [done| |exact Hr]; by eapply Hcl; [left|]). congruence.
Qed.

Lemma dfs_loop_spec (dfs : Z → status → option (bool * status)) v adj0 n :
  find_vertex v g = Some adj0 →
  (∀ i st, dfs_pre i st → (unvisited_count g st < n)%nat → dfs_result i st (dfs i st)) →
  ∀ adj st, (unvisited_count g st < n)%nat → dfs_inv g st → visited (st v) = true → recStack (st v) = true →
    (∀ u, recStack (st u) = true → rtc (edge g) u v) →
    (∀ u, u ∈ adj → u ∈ adj0) → (∀ u, u ∈ adj0 → u ∈ adj ∨ black st u) →
    ∃ b st', dfs_loop dfs v adj st = Some (b, st') ∧
      if b then has_cycle g
      else dfs_inv g st' ∧ st_le st st' ∧ recStack (st' v) = false ∧ ∀ u, u ≠ v → recStack (st' u) = recStack (st u).
Proof using Hok.
  intros Hf Hdfs adj. induction adj as [|i adj IH]; intros st Hn HI Hv Hs Hstk Hsub Hdone; simpl.
  { eexists _, _. split; [done|]. split_and!.
    - eapply dfs_finish; try done. intros u Hu. destruct (Hdone u Hu) as [?%elem_of_nil|?]; done.
    - intros u Hu. unfold set_recStack. rewrite fn_insert_decide. by case_decide; subst.
    - unfold set_recStack. by rewrite fn_lookup_insert.
    - intros u Hu. unfold set_recStack. by rewrite fn_lookup_insert_ne. }
  assert (edge g v i) as He by (exists adj0; split; [done|apply Hsub; left]).
  destruct (visited (st i)) eqn:Hvi.
  - destruct (recStack (st i)) eqn:Hri.
    + eexists _, _. split; [done|]. exists i. eapply tc_rtc_l; [by apply Hstk|by apply tc_once].
    + apply IH; try done; [intros u ?; apply Hsub; by right|].
      intros u Hu. destruct (Hdone u Hu) as [[->|?]%elem_of_cons|?]; auto. right. by split.
  - destruct (Hdfs i st) as (b & st' & -> & Hb); [split; try done; [by eapply Hok|]|done|].
    { intros u Hu. eapply tc_rtc_l; [by apply Hstk|by apply tc_once]. }
    destruct b; [eauto|]. destruct Hb as (HI' & Hle & Hvi' & Hrec).
    assert (recStack (st i) = false) as Hri.
    { destruct (recStack (st i)) eqn:E; [|done]. apply (dv_stack _ _ HI) in E. congruence. }
    rewrite Hrec, Hri.
    destruct (IH st') as (b & st2 & -> & Hb2); rewrite ?Hrec; try done.
    + pose proof (unvisited_count_le g _ _ Hle). lia.
    + by apply Hle.
    + intros u. rewrite Hrec. apply Hstk.
    + intros u ?. apply Hsub. by right.
    + intros u Hu. destruct (Hdone u Hu) as [[->|?]%elem_of_cons|[H1 H2]]; auto.
      * right. split; [done|]. by rewrite Hrec.
      * right. split; [by apply Hle|]. by rewrite Hrec.
    + eexists _, _. split; [done|]. destruct b; [done|]. destruct Hb2 as (? & Hle2 & ? & Hr2). split_and!; try done.
      * intros u ?. by apply Hle2, Hle.
      * intros u ?. by rewrite Hr2, Hrec.
Qed.

Lemma IsCyclicDfs_spec fuel v st :
  dfs_pre v st → (unvisited_count g st < fuel)%nat → dfs_result v st (IsCyclicDfs fuel g v st).
Proof using Hok.
  revert v st. induction fuel as [|fuel IH]; intros v st Hpre Hn; [lia|]. simpl.
  destruct Hpre as [[adj Hf] HI Hnew Hstk]. rewrite Hnew, Hf.
  assert (st_le st (enter_vertex v st)) as Hle.
  { intros u Hu. unfold enter_vertex. rewrite fn_insert_decide. by case_decide. }
  assert (visited (enter_vertex v st v) = true ∧ recStack (enter_vertex v st v) = true) as [Hve Hre]
    by (unfold enter_vertex; by rewrite fn_lookup_insert).
  assert (∀ u, u ≠ v → enter_vertex v st u = st u) as Hne by (intros; unfold enter_vertex; by rewrite fn_lookup_insert_ne).
  assert (recStack (st v) = false) as Hrv.
  { destruct (recStack (st v)) eqn:E; [|done]. apply (dv_stack _ _ HI) in E. congruence. }
  assert (∀ u, black (enter_vertex v st) u ↔ black st u) as Hb.
  { intros u. unfold black. destruct (decide (u = v)) as [->|Hu]; [|by rewrite Hne by done].
    rewrite Hre, Hnew. naive_solver. }
  assert (dfs_inv g (enter_vertex v st)) as HI'.
  { split.
    - intros u. destruct (decide (u = v)) as [->|Hu]; [done|]. rewrite Hne by done. apply (dv_stack _ _ HI).
    - intros u w. rewrite !Hb. apply (dv_closed _ _ HI).
    - intros u. rewrite Hb. apply (dv_acyclic _ _ HI). }
  destruct (dfs_loop_spec (IsCyclicDfs fuel g) v adj fuel Hf IH adj (enter_vertex v st)) as (b & st' & -> & Hres); auto.
  - pose proof (unvisited_count_lt g st (enter_vertex v st) v adj Hle Hf Hnew Hve). lia.
  - intros u Hu. destruct (decide (u = v)) as [->|Hne']; [done|]. rewrite Hne in Hu by done. by apply tc_rtc, Hstk.
  - exists b, st'. split; [done|]. destruct b; [done|]. destruct Hres as (HI2 & Hle2 & Hrs & Hrec). split_and!; try done.
    + intros u ?. by apply Hle2, Hle.
    + by apply Hle2.
    + intros u. destruct (decide (u = v)) as [->|Hu]; [congruence|]. by rewrite Hrec, Hne.
Qed.

Lemma cyclic_loop_spec fuel vs st :
  (∀ v, v ∈ vs → is_Some (find_vertex v g)) → (length g < fuel)%nat → dfs_inv g st → (∀ u, recStack (st u) = false) →
  ∃ b, cyclic_loop fuel g vs st = Some b ∧
    if b then has_cycle g else ∃ st', dfs_inv g st' ∧ st_le st st' ∧ (∀ u, recStack (st' u) = false) ∧ ∀ v, v ∈ vs → visited (st' v) = true.
Proof using Hok.
  intros Hvs Hfuel. revert st. induction vs as [|v vs IH]; intros st HI Hrec; simpl.
  { exists false. split; [done|]. exists st. split_and!; [done|by intros ?|done|by intros v ?%elem_of_nil]. }
  assert (∀ w, w ∈ vs → is_Some (find_vertex w g)) as Hvs' by (intros; apply Hvs; by right).
  destruct (visited (st v)) eqn:Hv.
  - destruct (IH Hvs' st HI Hrec) as (b & -> & Hb). exists b. split; [done|]. destruct b; [done|].
    destruct Hb as (st' & ? & Hle & ? & Hall). exists st'. split_and!; try done.
    intros w [->|?]%elem_of_cons; auto.
  - destruct (IsCyclicDfs_spec fuel v st) as (b & st' & -> & Hb).
    + split; try done; [apply Hvs; left|]. intros u Hu. by rewrite Hrec in Hu.
    + unfold unvisited_count. pose proof (length_filter (λ v, visited (st v) = false) (fst <$> g)). rewrite length_fmap in *. lia.
    + destruct b; [by exists true|]. destruct Hb as (HI' & Hle & Hvv & Hrec').
      destruct (IH Hvs' st' HI') as (b & -> & Hb); [intros u; by rewrite Hrec'|]. exists b. split; [done|].
      destruct b; [done|]. destruct Hb as (st2 & ? & Hle2 & ? & Hall). exists st2. split_and!; try done.
      * intros u ?. by apply Hle2, Hle.
      * intros w [->|?]%elem_of_cons; auto.
Qed.
End search.

Lemma find_vertex_elem g v adj : find_vertex v g = Some adj → v ∈ fst <$> g.
Proof.
  induction g as [|[k a] g IH]; simpl; [done|]. case_decide; [intros _; subst; by left|]. intros. right. auto.
Qed.

Lemma elem_find_vertex g v : v ∈ fst <$> g → is_Some (find_vertex v g).
Proof.
  induction g as [|[k a] g IH]; simpl; [by intros ?%elem_of_nil|].
  intros [->|Hin]%elem_of_cons; case_decide; eauto. done.
Qed.

Lemma IsCyclic_correct g : graph_ok g → ∃ b, IsCyclic g = Some b ∧ (b = true ↔ has_cycle g).
Proof.
  intros Hok. unfold IsCyclic.
  destruct (cyclic_loop_spec g Hok (S (length g)) (fst <$> g) unvisited) as (b & -> & Hb).
  - intros v. apply elem_find_vertex.
  - lia.
  - split; [done| |]; intros u; unfold black; simpl; intros; by destruct_and?.
  - done.
  - exists b. split; [done|]. destruct b; [done|]. split; [done|]. intros [v Hc]. exfalso.
    destruct Hb as (st & HI & _ & Hrec & Hall).
    assert (black st v) as Hbl; [|by eapply (dv_acyclic _ _ HI)].
    split; [|done]. apply Hall. inversion Hc as [? ? (a & Ha & _)|? ? ? (a & Ha & _)]; subst; by eapply find_vertex_elem.
Qed.

(** C35: [IsCyclic] terminates and decides whether the graph has a cycle, provided
    every edge ends in a vertex. *)
Theorem IsCyclic_iff_cycle g : graph_ok g → ∃ b, IsCyclic g = Some b ∧ (b = true ↔ has_cycle g).
Proof. apply IsCyclic_correct. Qed.

Lemma IsCyclic_iff_cycle_witness : ∃ b, IsCyclic [(1, [2]); (2, [1])] = Some b ∧ (b = true ↔ has_cycle [(1, [2]); (2, [1])]).
Proof.
  apply (IsCyclic_iff_cycle [(1, [2]); (2, [1])]). intros u v (adj & Hf & Hin). simpl in Hf.
  repeat case_decide; simplify_eq; apply list_elem_of_singleton in Hin as ->; eauto.
Defined.

(** ** [MutexGraph] *)

(** The first component says that a possible deadlock is reported. *)
Definition AddNode (task ownerTask : Z) (edge : bool) g : option (bool * graph) :=
  let g := AddVetexByLabel task g in
  if edge then
    let g := AddEdgeByLabel ownerTask task g in
    b ← IsCyclic g; Some (b, g)
  else Some (false, g).

Definition RemoveNode (task : Z) g : graph := RemoveEdgeByLabel task g.

Lemma find_insert_vertex v w g :
  find_vertex v g = None → find_vertex w (insert_vertex v g) = if decide (w = v) then Some [] else find_vertex w g.
Proof.
  induction g as [|[k a] g IH]; simpl; intros Hn.
  - repeat case_decide; congruence.
  - destruct (decide (k = v)) as [|Hk]; [done|]. destruct (decide (v < k)); simpl.
    + repeat case_decide; congruence.
    + rewrite IH by done. repeat case_decide; congruence.
Qed.

Lemma find_update_vertex v f w g :
  find_vertex w (update_vertex v f g) = if decide (w = v) then f <$> find_vertex v g else find_vertex w g.
Proof.
  induction g as [|[k a] g IH]; simpl; [by case_decide|].
  destruct (decide (k = v)) as [->|Hk]; simpl.
  - repeat case_decide; congruence.
  - rewrite IH. repeat case_decide; congruence.
Qed.

Lemma find_AddVetex v w g :
  find_vertex w (AddVetexByLabel v g) =
    if decide (w = v) then Some (default [] (find_vertex v g)) else find_vertex w g.
Proof.
  unfold AddVetexByLabel. destruct (find_vertex v g) as [a|] eqn:Ef; [case_decide; by subst|]. by rewrite find_insert_vertex.
Qed.

Lemma AddVetex_ok v g : graph_ok g → graph_ok (AddVetexByLabel v g).
Proof.
  intros Hok u w (adj & Ha & Hin). rewrite find_AddVetex in Ha |- *. destruct (decide (w = v)); [eauto|].
  case_decide; simplify_eq.
  - destruct (find_vertex v g) eqn:Ef; simpl in *; [|by apply elem_of_nil in Hin]. eapply Hok. by eexists.
  - eapply Hok. by eexists.
Qed.

Lemma AddEdge_ok u v g : graph_ok g → is_Some (find_vertex v g) → graph_ok (AddEdgeByLabel u v g).
Proof.
  intros Hok Hv x y (adj & Ha & Hin). unfold AddEdgeByLabel in *. rewrite find_update_vertex in *.
  assert (is_Some (find_vertex y g)) as Hy.
  { case_decide as Hx; [|eapply Hok; by eexists]. subst. apply fmap_Some in Ha as (a & Ha & ->).
    apply elem_of_app in Hin as [?| ->%list_elem_of_singleton]; [eapply Hok; by eexists|done]. }
  destruct (decide (y = u)); [subst; destruct Hy as [? ->]; simpl; eauto|done].
Qed.

Lemma RemoveEdge_ok v g : graph_ok g → graph_ok (RemoveEdgeByLabel v g).
Proof.
  intros Hok x y (adj & Ha & Hin). unfold RemoveEdgeByLabel in *. rewrite find_update_vertex in *.
  assert (is_Some (find_vertex y g)) as Hy.
  { case_decide as Hx; [|eapply Hok; by eexists]. apply fmap_Some in Ha as (a & Ha & ->). by apply elem_of_nil in Hin. }
  destruct (decide (y = v)); [subst; destruct Hy as [? ->]; simpl; eauto|done].
Qed.

(** A lock or an unlock, as the mutex reports it. *)
Inductive graph_call := CallAdd (task ownerTask : Z) (edge : bool) | CallRemove (task : Z).

Definition graph_apply (x : graph_call) g : option (bool * graph) :=
  match x with
  | CallAdd task owner e => AddNode task owner e g
  | CallRemove task => Some (false, RemoveNode task g)
  end.

Fixpoint graph_run (xs : list graph_call) g : option (list bool * graph) :=
  match xs with
  | [] => Some ([], g)
  | x :: xs => r ← graph_apply x g; rs ← graph_run xs (snd r); Some (fst r :: fst rs, snd rs)
  end.

Lemma graph_apply_ok x g : graph_ok g →
  ∃ b g', graph_apply x g = Some (b, g') ∧ graph_ok g' ∧
    (b = true ↔ ∃ t o, x = CallAdd t o true ∧ has_cycle g').
Proof.
  intros Hok. destruct x as [t o e|t]; simpl.
  - unfold AddNode. destruct e; simpl.
    + assert (graph_ok (AddEdgeByLabel o t (AddVetexByLabel t g))) as Hok'.
      { apply AddEdge_ok; [by apply AddVetex_ok|]. rewrite find_AddVetex, decide_True by done. eauto. }
      destruct (IsCyclic_correct _ Hok') as (b & Hb & Hiff). rewrite Hb. simpl.
      eexists _, _. split_and!; try done. rewrite Hiff. split; [eauto|]. by intros (? & ? & _ & ?).
    + eexists _, _. split_and!; try done; [by apply AddVetex_ok|]. split; [done|]. by intros (? & ? & ? & _).
  - eexists _, _. split_and!; try done; [by apply RemoveEdge_ok|]. split; [done|]. by intros (? & ? & ? & _).
Qed.

(** the deadlock check never leaves the map of vertices: however locks and
    unlocks are reported, every search runs to its end, and a lock is reported as a
    possible deadlock exactly when the graph then has a cycle. *)
Theorem mutex_graph_reports xs x :
  ∃ bs g b g', graph_run xs [] = Some (bs, g) ∧ graph_apply x g = Some (b, g') ∧
    (b = true ↔ ∃ task owner, x = CallAdd task owner true ∧ has_cycle g').
Proof.
  assert (∀ g, graph_ok g → ∃ bs g', graph_run xs g = Some (bs, g') ∧ graph_ok g') as H.
  { induction xs as [|y xs IH]; intros g Hg; simpl; [by eexists _, _|].
    destruct (graph_apply_ok y g Hg) as (b & g' & -> & Hg' & _). simpl.
    destruct (IH g' Hg') as (bs & g2 & -> & Hg2). simpl. by eexists _, _. }
  destruct (H []) as (bs & g & -> & Hg); [by intros u v (adj & Ha & _)|].
  destruct (graph_apply_ok x g Hg) as (b & g' & Hx & _ & Hb). by exists bs, g, b, g'.
Qed.

(** *** A deadlock that is not reported *)

(** The owners of the mutexes, the mutex each blocked task waits for, the graph
    and whether a deadlock has been reported. *)
Record dl := mk_dl { dl_owner : gmap positive Z; dl_waits : gmap Z positive; dl_graph : graph; dl_reported : bool }.

Definition dl_init : dl := mk_dl ∅ ∅ [] false.

(** [lock] of the checking build: the graph first, then the mutex, which is taken
    when it is free and waited for otherwise. *)
Definition dl_lock (task : Z) (m : positive) (s : dl) : option dl :=
  match dl_owner s !! m with
  | Some owner =>
      r ← AddNode task owner true (dl_graph s);
      Some (mk_dl (dl_owner s) (<[task := m]> (dl_waits s)) (snd r) (dl_reported s || fst r))
  | None =>
      r ← AddNode task 0 false (dl_graph s);
      Some (mk_dl (<[m := task]> (dl_owner s)) (dl_waits s) (snd r) (dl_reported s || fst r))
  end.

(** [unlock] of a mutex nobody waits for. *)
Definition dl_unlock (m : positive) (s : dl) : option dl :=
  owner ← dl_owner s !! m;
  Some (mk_dl (delete m (dl_owner s)) (dl_waits s) (RemoveNode owner (dl_graph s)) (dl_reported s)).

(** [t] waits for a mutex that [u] owns. *)
Definition waits_for (s : dl) (t u : Z) : Prop := ∃ m, dl_waits s !! t = Some m ∧ dl_owner s !! m = Some u.

(** unlocking any mutex forgets all tasks that wait for the unlocking task,
    also those that wait for another mutex it still owns.  Task 1 owns mutexes 1
    and 2, task 2 owns 3 and blocks on 1; task 1 unlocks 2 and then blocks on 3: the
    two tasks wait for each other and no deadlock is reported. *)
Theorem mutex_graph_misses_deadlock :
  ∃ s, (s1 ← dl_lock 1 1 dl_init; s2 ← dl_lock 1 2 s1; s3 ← dl_lock 2 3 s2; s4 ← dl_lock 2 1 s3;
        s5 ← dl_unlock 2 s4; dl_lock 1 3 s5) = Some s ∧
       waits_for s 1 2 ∧ waits_for s 2 1 ∧ dl_reported s = false.
Proof. eexists. split; [vm_compute; reflexivity|]. split_and!; [by exists 3%positive|by exists 1%positive|done]. Qed.
