(* ===== verification/SpmcQueue.v ===== *)
(** * The single-producer multi-consumer queue

    Models src/util/spmc_queue.{h,cpp} ([SpmcQueue]): a ring of [capacity_] slots
    with the free-running counters [head_] and [tail_].  One producer and any
    number of consumers run [PushTail], [PopHead] and [GetLength] one atomic
    access at a time.  The counters have 64 bits; a run in which fewer than 2^64
    elements are pushed does not wrap them. *)

From S2P Require Import Prelude.

Abbreviation elem := positive.

(** The producer: between calls; in [PushTail] after the two loads; after the slot
    was written. *)
Inductive prod_pc := PIdle | PLoaded (head tail : Z) (o : elem) | PWritten (tail : Z) (o : elem).

(** A consumer: between calls; in [PopHead] after the load of [head_], of [tail_],
    after the slot was read; in [GetLength] after the load of [tail_]. *)
Inductive cons_pc := CIdle | CHead (h : Z) | CTail (h t : Z) | CRead (h : Z) (res : elem) | CLen (t : Z).

(** [q_buf] maps a slot to its contents (0 stands for what [malloc] left there);
    [q_items] are the elements pushed so far, [q_popped] those returned by
    [PopHead], both in order. *)
Record spmc := mk_spmc {
  q_capacity : Z;
  q_buf : Z → elem;
  q_head : Z;
  q_tail : Z;
  q_prod : prod_pc;
  q_cons : list cons_pc;
  q_items : list elem;
  q_popped : list elem;
  q_lengths : list Z;
}.

#[export] Instance spmc_eta : Eta spmc := λ s,
  mk_spmc (q_capacity s) (q_buf s) (q_head s) (q_tail s) (q_prod s) (q_cons s) (q_items s) (q_popped s) (q_lengths s).

(** [Init]; [buf] is what the memory contains. *)
Definition spmc_Init (capacity : Z) (ok : bool) : Z := if decide (capacity = 0) then -1 else if ok then 0 else -1.

Definition spmc_init (capacity : Z) (n : nat) (buf : Z → elem) : spmc :=
  mk_spmc capacity buf 0 0 PIdle (replicate n CIdle) [] [] [].

(** [PushTail]: the loads and the test. *)
Definition PushTail_load (o : elem) (s : spmc) : spmc :=
  let head := q_head s in
  let tail := q_tail s in
  if decide (u64 (tail - head) < q_capacity s) then s <| q_prod := PLoaded head tail o |> else s.

Definition PushTail_write (tail : Z) (o : elem) (s : spmc) : spmc :=
  s <| q_buf := <[tail `mod` q_capacity s := o]> (q_buf s) |> <| q_prod := PWritten tail o |>.

Definition PushTail_store (tail : Z) (o : elem) (s : spmc) : spmc :=
  s <| q_tail := u64 (tail + 1) |> <| q_items ::= λ l, l ++ [o] |> <| q_prod := PIdle |>.

Definition set_cons (i : nat) (pc : cons_pc) (s : spmc) : spmc := s <| q_cons ::= <[i := pc]> |>.

(** [PopHead] after the load of [tail_]: null when the queue is empty. *)
Definition PopHead_test (i : nat) (h t : Z) (s : spmc) : spmc := set_cons i (if decide (t = h) then CIdle else CTail h t) s.

Definition PopHead_read (i : nat) (h : Z) (s : spmc) : spmc := set_cons i (CRead h (q_buf s (h `mod` q_capacity s))) s.

(** [compare_exchange_weak]: [spurious] lets it fail although the values agree. *)
Definition PopHead_cas (i : nat) (spurious : bool) (h : Z) (res : elem) (s : spmc) : spmc :=
  if decide (q_head s = h ∧ spurious = false)
  then set_cons i CIdle (s <| q_head := u64 (h + 1) |> <| q_popped ::= λ l, l ++ [res] |>)
  else set_cons i (CHead (q_head s)) s.

Definition GetLength_sub (i : nat) (t : Z) (s : spmc) : spmc :=
  set_cons i CIdle (s <| q_lengths ::= λ l, l ++ [u64 (t - q_head s)] |>).

Inductive spmc_step : spmc → spmc → Prop :=
| spmc_push s o : q_prod s = PIdle → q_tail s + 1 < 2 ^ 64 → spmc_step s (PushTail_load o s)
| spmc_write s h t o : q_prod s = PLoaded h t o → spmc_step s (PushTail_write t o s)
| spmc_store s t o : q_prod s = PWritten t o → spmc_step s (PushTail_store t o s)
| spmc_head s i : q_cons s !! i = Some CIdle → spmc_step s (set_cons i (CHead (q_head s)) s)
| spmc_tail s i h : q_cons s !! i = Some (CHead h) → spmc_step s (PopHead_test i h (q_tail s) s)
| spmc_read s i h t : q_cons s !! i = Some (CTail h t) → spmc_step s (PopHead_read i h s)
| spmc_cas s i h res spurious : q_cons s !! i = Some (CRead h res) → spmc_step s (PopHead_cas i spurious h res s)
| spmc_len s i : q_cons s !! i = Some CIdle → spmc_step s (set_cons i (CLen (q_tail s)) s)
| spmc_len_sub s i t : q_cons s !! i = Some (CLen t) → spmc_step s (GetLength_sub i t s).

(** ** Invariant *)

Definition cons_ok (s : spmc) (pc : cons_pc) : Prop :=
  match pc with
  | CIdle | CLen _ => True
  | CHead h => 0 <= h <= q_head s
  | CTail h t => 0 <= h <= q_head s ∧ h < q_tail s
  | CRead h res => 0 <= h <= q_head s ∧ h < q_tail s ∧ (q_head s = h → q_items s !! Z.to_nat h = Some res)
  end.

Record spmc_inv (cap : Z) (s : spmc) : Prop := {
  qi_cap : q_capacity s = cap;
  qi_range : 0 <= q_head s <= q_tail s ∧ q_tail s < 2 ^ 64 ∧ q_tail s - q_head s <= cap;
  qi_items : q_tail s = Z.of_nat (length (q_items s));
  qi_buf k : q_head s <= k < q_tail s → q_items s !! Z.to_nat k = Some (q_buf s (k `mod` cap));
  qi_popped : q_popped s = take (Z.to_nat (q_head s)) (q_items s);
  qi_prod : match q_prod s with
            | PIdle => True
            | PLoaded h t _ => t = q_tail s ∧ t + 1 < 2 ^ 64 ∧ t - q_head s < cap
            | PWritten t o => t = q_tail s ∧ t + 1 < 2 ^ 64 ∧ t - q_head s < cap ∧ q_buf s (t `mod` cap) = o
            end;
  qi_cons : Forall (cons_ok s) (q_cons s);
}.

Lemma slots_distinct cap k t : 0 < cap → k < t < k + cap → k `mod` cap ≠ t `mod` cap.
Proof.
  intros Hc Hk E. pose proof (Z.div_mod k cap ltac:(lia)). pose proof (Z.div_mod t cap ltac:(lia)).
  assert (cap * (t / cap - k / cap) = t - k) by nia. assert (0 < t / cap - k / cap < 1) by nia. lia.
Qed.

(** A change of one consumer, with what it says holding. *)
Lemma set_cons_inv cap s i pc : spmc_inv cap s → cons_ok s pc → spmc_inv cap (set_cons i pc s).
Proof. intros [H1 H2 H3 H4 H5 H6 H7] Hpc. split; simpl; try done. by apply Forall_insert. Qed.

(** What the consumers know survives a step that keeps the head and the elements
    below the tail. *)
Lemma cons_ok_mono s s' pc :
  cons_ok s pc → q_head s <= q_head s' → q_tail s <= q_tail s' →
  (∀ k, 0 <= k < q_tail s → q_items s' !! Z.to_nat k = q_items s !! Z.to_nat k) →
  (∀ h, 0 <= h <= q_head s → q_head s' = h → q_head s = h) → cons_ok s' pc.
Proof.
  intros Hpc Hh Ht Hi Hq. destruct pc as [|h|h t|h res|t]; simpl in *; try done; try lia.
  destruct Hpc as (Hr & Hlt & Hres). split_and!; try lia. intros E. rewrite Hi by lia. apply Hres. apply Hq; [lia|done].
Qed.

Lemma spmc_inv_step cap s s' : 0 < cap → spmc_inv cap s → spmc_step s s' → spmc_inv cap s'.
Proof.
  intros Hcap HI Hst. destruct Hst as [s o Hp Ht|s h t o Hp|s t o Hp|s i Hi|s i h Hi|s i h t Hi|s i h res sp Hi|s i Hi|s i t Hi];
    pose proof HI as [H1 H2 H3 H4 H5 H6 H7]; try (rewrite Hp in H6).
  - unfold PushTail_load. rewrite u64_id by (unfold is_u64, UINT64_MAX; lia). case_decide; [|done]. split; simpl; try done.
    split_and!; lia.
  - destruct H6 as (-> & Hlt & Hd). split; simpl; try done.
    + intros k Hk. rewrite fn_insert_decide, decide_False; [auto|]. rewrite H1. apply slots_distinct; lia.
    + rewrite H1. split_and!; try done. by rewrite fn_lookup_insert.
  - destruct H6 as (-> & Hlt & Hd & Hb). rewrite <-H1 in *. split; simpl; rewrite ?u64_id by (unfold is_u64, UINT64_MAX; lia); try done.
    + lia.
    + rewrite length_app. simpl. lia.
    + intros k Hk. destruct (decide (k = q_tail s)) as [->|Hne].
      * rewrite lookup_app_r, Hb by lia. by replace (Z.to_nat (q_tail s) - length (q_items s))%nat with O by lia.
      * rewrite lookup_app_l by lia. apply H4. lia.
    + rewrite take_app_le by lia. done.
    + eapply Forall_impl; [exact H7|]. intros pc Hpc. eapply cons_ok_mono; [done|..]; simpl; try lia;
        rewrite ?u64_id by (unfold is_u64, UINT64_MAX; lia); try lia.
      intros k Hk. by rewrite lookup_app_l by lia.
  - apply set_cons_inv; [done|]. simpl. lia.
  - unfold PopHead_test. apply set_cons_inv; [done|]. pose proof (Forall_lookup_1 _ _ _ _ H7 Hi) as Hok. simpl in Hok.
    case_decide; simpl; lia.
  - unfold PopHead_read. apply set_cons_inv; [done|]. pose proof (Forall_lookup_1 _ _ _ _ H7 Hi) as Hok. simpl in *.
    split_and!; try lia. intros E. rewrite H1. apply H4. lia.
  - pose proof (Forall_lookup_1 _ _ _ _ H7 Hi) as (Hr & Hlt & Hres). unfold PopHead_cas.
    destruct (decide (q_head s = h ∧ sp = false)) as [[E _]|_]; [|apply set_cons_inv; [done|simpl; lia]].
    specialize (Hres E). subst h. apply set_cons_inv; [|done].
    split; simpl; rewrite ?u64_id by (unfold is_u64, UINT64_MAX; lia); try done; try lia.
    + intros k Hk. apply H4. lia.
    + rewrite H5. replace (Z.to_nat (q_head s + 1)) with (S (Z.to_nat (q_head s))) by lia. by rewrite (take_S_r _ _ res).
    + destruct (q_prod s); try done; split_and!; try lia; apply H6.
    + eapply Forall_impl; [exact H7|]. intros pc Hpc. eapply cons_ok_mono; [done|..]; simpl; try lia;
        rewrite ?u64_id by (unfold is_u64, UINT64_MAX; lia); try lia. done.
  - by apply set_cons_inv.
  - unfold GetLength_sub. apply set_cons_inv; [by split|done].
Qed.

Lemma spmc_reachable_inv cap n buf s : 0 < cap → rtc spmc_step (spmc_init cap n buf) s → spmc_inv cap s.
Proof.
  intros Hcap. apply rtc_invariant; [|intros a b; by apply spmc_inv_step].
  split; simpl; try done; try lia. by apply Forall_replicate.
Qed.

(** the queue is a bounded FIFO for one producer and any number of consumers:
    in every interleaving the elements returned by [PopHead] so far are a prefix of
    the elements pushed, in order and without repetition, the rest is in the ring,
    and there are never more than [capacity_] of them. *)
Theorem spmc_fifo cap n buf s :
  0 < cap → rtc spmc_step (spmc_init cap n buf) s →
  q_popped s = take (Z.to_nat (q_head s)) (q_items s) ∧
  (∀ k, q_head s <= k < q_tail s → q_items s !! Z.to_nat k = Some (q_buf s (k `mod` cap))) ∧
  q_tail s = Z.of_nat (length (q_items s)) ∧ 0 <= q_tail s - q_head s <= cap.
Proof. intros Hcap [H1 H2 H3 H4 H5 H6 H7]%spmc_reachable_inv; [|done]. split_and!; try done; lia. Qed.

(** A run: two elements pushed, one popped by the second of two consumers after
    the first lost the race for it. *)
Definition spmc_demo : spmc :=
  let push o s := PushTail_store (q_tail s) o (PushTail_write (q_tail s) o (PushTail_load o s)) in
  let s := push 12%positive (push 11%positive (spmc_init 2 2 (λ _, 1%positive))) in
  let s := set_cons 0 (CHead (q_head s)) s in
  let s := set_cons 1 (CHead (q_head s)) s in
  let s := PopHead_test 0 0 (q_tail s) s in
  let s := PopHead_test 1 0 (q_tail s) s in
  let s := PopHead_read 0 0 s in
  let s := PopHead_read 1 0 s in
  PopHead_cas 0 false 0 11 (PopHead_cas 1 false 0 11 s).

Lemma spmc_demo_reachable : rtc spmc_step (spmc_init 2 2 (λ _, 1%positive)) spmc_demo.
Proof.
  eapply rtc_l; [by apply (spmc_push _ 11)|]. eapply rtc_l; [by apply (spmc_write _ 0 0 11)|].
  eapply rtc_l; [by apply (spmc_store _ 0 11)|]. eapply rtc_l; [by apply (spmc_push _ 12)|].
  eapply rtc_l; [by apply (spmc_write _ 0 1 12)|]. eapply rtc_l; [by apply (spmc_store _ 1 12)|].
  eapply rtc_l; [by apply (spmc_head _ 0)|]. eapply rtc_l; [by apply (spmc_head _ 1)|].
  eapply rtc_l; [by apply (spmc_tail _ 0 0)|]. eapply rtc_l; [by apply (spmc_tail _ 1 0)|].
  eapply rtc_l; [by apply (spmc_read _ 0 0 2)|]. eapply rtc_l; [by apply (spmc_read _ 1 0 2)|].
  eapply rtc_l; [by apply (spmc_cas _ 1 0 11 false)|]. apply rtc_once. by apply (spmc_cas _ 0 0 11 false).
Qed.

Lemma spmc_fifo_witness :
  q_popped spmc_demo = [11%positive] ∧ q_popped spmc_demo = take (Z.to_nat (q_head spmc_demo)) (q_items spmc_demo).
Proof. split; [by vm_compute|]. apply (spmc_fifo 2 2 _ spmc_demo ltac:(lia) spmc_demo_reachable). Defined.

(** [GetLength] reads the two counters one after the other: when the queue is
    popped twice and pushed once in between, the difference wraps around and the
    length of a queue of capacity 2 is 2^64 - 1. *)
Theorem GetLength_wraps : ∃ s, rtc spmc_step (spmc_init 2 2 (λ _, 1%positive)) s ∧ q_lengths s = [2 ^ 64 - 1].
Proof.
  eexists. split.
  - eapply rtc_l; [by apply (spmc_push _ 11)|]. eapply rtc_l; [by apply (spmc_write _ 0 0 11)|].
    eapply rtc_l; [by apply (spmc_store _ 0 11)|]. eapply rtc_l; [by apply (spmc_len _ 0)|].
    eapply rtc_l; [by apply (spmc_head _ 1)|]. eapply rtc_l; [by apply (spmc_tail _ 1 0)|].
    eapply rtc_l; [by apply (spmc_read _ 1 0 1)|]. eapply rtc_l; [by apply (spmc_cas _ 1 0 11 false)|].
    eapply rtc_l; [by apply (spmc_push _ 12)|]. eapply rtc_l; [by apply (spmc_write _ 1 1 12)|].
    eapply rtc_l; [by apply (spmc_store _ 1 12)|].
    eapply rtc_l; [by apply (spmc_head _ 1)|]. eapply rtc_l; [by apply (spmc_tail _ 1 1)|].
    eapply rtc_l; [by apply (spmc_read _ 1 1 2)|]. eapply rtc_l; [by apply (spmc_cas _ 1 1 12 false)|].
    apply rtc_once. by apply (spmc_len_sub _ 0 1).
  - by vm_compute.
Qed.

(** ** Moving elements between queues

    [PopHeadToAnotherQueue] without interference: the operations of one thread on
    two rings. *)

Record ring := mk_ring { r_capacity : Z; r_buf : Z → elem; r_head : Z; r_tail : Z }.

#[export] Instance ring_eta : Eta ring := λ r, mk_ring (r_capacity r) (r_buf r) (r_head r) (r_tail r).

Definition GetLength (r : ring) : Z := u64 (r_tail r - r_head r).
Definition GetCapacity (r : ring) : Z := r_capacity r.

Definition PopHead (r : ring) : option elem * ring :=
  if decide (r_tail r = r_head r) then (None, r)
  else (Some (r_buf r (r_head r `mod` r_capacity r)), r <| r_head := u64 (r_head r + 1) |>).

Definition PushTail (o : elem) (r : ring) : Z * ring :=
  if decide (u64 (r_tail r - r_head r) < r_capacity r)
  then (0, r <| r_buf := <[r_tail r `mod` r_capacity r := o]> (r_buf r) |> <| r_tail := u64 (r_tail r + 1) |>)
  else (-1, r).

(** The loop, with the elements handed to [func]; [n] turns are left. *)
Fixpoint move_loop (n : nat) (src dst : ring) (pushCount : Z) (lost : list elem) : Z * ring * ring * list elem :=
  match n with
  | O => (pushCount, src, dst, lost)
  | S n =>
      if decide (GetLength dst < GetCapacity dst ∧ r_head src ≠ r_tail src) then
        match PopHead src with
        | (None, src) => (pushCount, src, dst, lost)
        | (Some e, src) =>
            let '(ret, dst) := PushTail e dst in
            if decide (ret = 0) then move_loop n src dst (pushCount + 1) lost
            else (pushCount, src, dst, lost ++ [e])
        end
      else (pushCount, src, dst, lost)
  end.

Definition PopHeadToAnotherQueue (src dst : ring) (elementNum : Z) : Z * ring * ring * list elem :=
  move_loop (Z.to_nat elementNum) src dst 0 [].

(** A ring that holds the elements [l]. *)
Record ring_repr (r : ring) (l : list elem) : Prop := {
  rr_cap : 0 < r_capacity r;
  rr_head : 0 <= r_head r;
  rr_tail : r_tail r = r_head r + Z.of_nat (length l);
  rr_len : Z.of_nat (length l) <= r_capacity r;
  rr_buf i o : l !! i = Some o → r_buf r ((r_head r + Z.of_nat i) `mod` r_capacity r) = o;
}.

Lemma PopHead_repr r o l : ring_repr r (o :: l) → r_tail r < 2 ^ 64 →
  PopHead r = (Some o, r <| r_head := r_head r + 1 |>) ∧ ring_repr (r <| r_head := r_head r + 1 |>) l.
Proof.
  intros [H1 H2 H3 H4 H5] Hb. simpl in *. unfold PopHead. rewrite decide_False by lia.
  pose proof (H5 0%nat o eq_refl) as Ho. rewrite Z.add_0_r in Ho. rewrite Ho.
  rewrite u64_id by (unfold is_u64, UINT64_MAX; lia). split; [done|]. split; simpl; try lia.
  intros i x Hx. replace (r_head r + 1 + Z.of_nat i) with (r_head r + Z.of_nat (S i)) by lia. by apply H5.
Qed.

Lemma PushTail_repr r o l : ring_repr r l → Z.of_nat (length l) < r_capacity r → r_tail r + 1 < 2 ^ 64 →
  ∃ r', PushTail o r = (0, r') ∧ ring_repr r' (l ++ [o]) ∧ r_capacity r' = r_capacity r ∧ r_tail r' = r_tail r + 1.
Proof.
  intros [H1 H2 H3 H4 H5] Hl Hb. unfold PushTail. rewrite u64_id by (unfold is_u64, UINT64_MAX; lia).
  rewrite decide_True by lia. rewrite u64_id by (unfold is_u64, UINT64_MAX; lia). eexists. split_and!; try done.
  split; simpl; rewrite ?length_app; simpl; try lia.
  intros i x Hx. destruct (decide (i < length l)%nat) as [Hi|Hi].
  - rewrite lookup_app_l in Hx by done. rewrite fn_lookup_insert_ne; [by apply H5|]. rewrite H3.
    apply not_eq_sym, slots_distinct; lia.
  - pose proof (lookup_lt_Some _ _ _ Hx) as Hlt. rewrite length_app in Hlt. simpl in Hlt.
    assert (i = length l) as -> by lia. rewrite lookup_app_r, Nat.sub_diag in Hx by lia. simplify_eq/=.
    by rewrite H3, fn_lookup_insert.
Qed.

Lemma move_loop_spec n src dst l1 l2 cnt lost :
  ring_repr src l1 → ring_repr dst l2 → r_tail src < 2 ^ 64 → r_tail dst + Z.of_nat n < 2 ^ 64 →
  ∃ m src' dst', move_loop n src dst cnt lost = (cnt + Z.of_nat m, src', dst', lost) ∧
    m = Nat.min (Nat.min n (length l1)) (Z.to_nat (r_capacity dst) - length l2) ∧
    ring_repr src' (drop m l1) ∧ ring_repr dst' (l2 ++ take m l1).
Proof.
  revert src dst l1 l2 cnt. induction n as [|n IH]; intros src dst l1 l2 cnt Hs Hd Hbs Hbd; simpl.
  { exists O, src, dst. rewrite Z.add_0_r. split_and!; try done. simpl. by rewrite app_nil_r. }
  pose proof Hd as [D1 D2 D3 D4 D5]. pose proof Hs as [S1 S2 S3 S4 S5].
  unfold GetLength, GetCapacity. rewrite u64_id by (unfold is_u64, UINT64_MAX; lia).
  destruct l1 as [|o l1].
  { exists O, src, dst. simpl in *. rewrite decide_False by lia. rewrite Z.add_0_r, app_nil_r. split_and!; try done; lia. }
  destruct (decide (length l2 < Z.to_nat (r_capacity dst))%nat) as [Hlt|Hge].
  - cbn [length] in *. rewrite decide_True by lia. destruct (PopHead_repr src o l1 Hs Hbs) as [-> Hs'].
    destruct (PushTail_repr dst o l2 Hd) as (dst' & -> & Hd' & Hc & Ht); [lia..|].
    rewrite decide_True by done.
    destruct (IH _ _ _ _ (cnt + 1) Hs' Hd') as (m & s2 & d2 & -> & Hm & Hs2 & Hd2); [simpl; lia..|].
    exists (S m), s2, d2. split_and!; [by replace (cnt + 1 + Z.of_nat m) with (cnt + Z.of_nat (S m)) by lia| |done|].
    + rewrite Hm, Hc, length_app. cbn [length]. lia.
    + simpl. by rewrite <-app_assoc in Hd2.
  - rewrite decide_False by lia. exists O, src, dst. rewrite Z.add_0_r. split_and!; try done; [lia|].
    simpl. by rewrite app_nil_r.
Qed.

(** As many elements as asked for, as there are and as fit go from the head of one
    queue to the tail of the other, in order; none is handed back. *)
Theorem PopHeadToAnotherQueue_moves src dst l1 l2 elementNum :
  ring_repr src l1 → ring_repr dst l2 → 0 <= elementNum < 2 ^ 32 → r_tail src < 2 ^ 64 → r_tail dst < 2 ^ 64 - 2 ^ 32 →
  ∃ m src' dst', PopHeadToAnotherQueue src dst elementNum = (Z.of_nat m, src', dst', []) ∧
    m = Nat.min (Nat.min (Z.to_nat elementNum) (length l1)) (Z.to_nat (r_capacity dst) - length l2) ∧
    ring_repr src' (drop m l1) ∧ ring_repr dst' (l2 ++ take m l1).
Proof. intros. apply move_loop_spec; try done. lia. Qed.
