(* ===== verification/LfQueue.v ===== *)
(** * The lock-free queues

    Models the queues of interfaces/kits/cpp/pattern/job_utils.h: [mpmc_queue]
    for any number of producers and consumers, [spsc_queue] for one of each, and
    the size computation [align2n].  Every access to an atomic is a step of its
    own and may be followed by steps of any other thread.  The indices have 64
    bits; they are unbounded here, so that the statements are about runs of fewer
    than 2^64 operations. *)

From S2P Require Import Prelude.

(** ** Rounding up to a power of two *)

(** The loop [while (x >>= 1) i <<= 1]. *)
Fixpoint align2n_loop (fuel : nat) (x i : Z) : Z :=
  match fuel with
  | O => i
  | S fuel => let x := Z.shiftr x 1 in if decide (x = 0) then i else align2n_loop fuel x (u64 (Z.shiftl i 1))
  end.

(** A word has 64 bits, so that 64 rounds always empty it. *)
Definition align2n (x : Z) : Z :=
  let i := align2n_loop 64 x 1 in if decide (i < x) then u64 (Z.shiftl i 1) else i.

Lemma u64_shiftl_pow2 k : 0 <= k < 63 → u64 (Z.shiftl (2 ^ k) 1) = 2 ^ (k + 1).
Proof.
  intros Hk. rewrite Z.shiftl_mul_pow2 by lia. rewrite <-Z.pow_add_r by lia. apply u64_id. unfold is_u64, UINT64_MAX.
  pose proof (Z.pow_pos_nonneg 2 (k + 1)). assert (2 ^ (k + 1) <= 2 ^ 63) by (apply Z.pow_le_mono_r; lia). lia.
Qed.

Lemma align2n_loop_spec fuel x k :
  1 <= x < 2 ^ Z.of_nat fuel → 0 <= k → k + Z.log2 x <= 63 → align2n_loop fuel x (2 ^ k) = 2 ^ (k + Z.log2 x).
Proof.
  revert x k. induction fuel as [|fuel IH]; intros x k Hx Hk Hl; [simpl in Hx; lia|]. cbn [align2n_loop].
  rewrite Z.shiftr_div_pow2, Z.pow_1_r by lia.
  pose proof (Z.div_mod x 2 ltac:(lia)) as Hd. pose proof (Z.mod_pos_bound x 2 ltac:(lia)) as Hm.
  destruct (decide (x / 2 = 0)) as [E|E].
  - assert (x = 1) as -> by lia. simpl. by rewrite Z.add_0_r.
  - pose proof (Z.log2_shiftr x 1 ltac:(lia)) as Hs. rewrite Z.shiftr_div_pow2, Z.pow_1_r in Hs by lia.
    assert (1 <= Z.log2 x) by (apply (Z.log2_le_pow2 x 1); lia).
    rewrite u64_shiftl_pow2 by lia. rewrite IH; [f_equal; lia| |lia|lia].
    rewrite Nat2Z.inj_succ, Z.pow_succ_r in Hx by lia. lia.
Qed.

(** [align2n x] is the least power of two that is at least [x]. *)
Lemma align2n_spec x :
  1 <= x <= 2 ^ 63 → ∃ n, 0 <= n <= 63 ∧ align2n x = 2 ^ n ∧ x <= 2 ^ n ∧ (0 < n → 2 ^ (n - 1) < x).
Proof.
  intros Hx. unfold align2n.
  assert (Z.log2 x <= 63) by (rewrite <-(Z.log2_pow2 63) by lia; apply Z.log2_le_mono; lia).
  pose proof (Z.log2_spec x ltac:(lia)) as [H1 H2]. pose proof (Z.log2_nonneg x).
  pose proof (align2n_loop_spec 64 x 0 ltac:(simpl; lia) ltac:(lia) ltac:(lia)) as Hl.
  rewrite Z.pow_0_r, Z.add_0_l in Hl. rewrite Hl. destruct (decide (2 ^ Z.log2 x < x)) as [E|E].
  - assert (Z.log2 x < 63) by (destruct (decide (Z.log2 x = 63)) as [E'|]; [rewrite E' in E; lia|lia]).
    rewrite u64_shiftl_pow2 by lia. exists (Z.log2 x + 1). rewrite Z.add_simpl_r. split_and!; [lia..|done|lia|intros _; exact E].
  - exists (Z.log2 x). split_and!; [lia..|done|lia|]; intros Hp.
    assert (2 ^ (Z.log2 x - 1) < 2 ^ Z.log2 x) by (apply Z.pow_lt_mono_r; lia). lia.
Qed.

(** ** What the queues promise

    A first-in first-out list whose elements carry a flag that says whether the
    producer has published them.  Only a published head can be taken. *)

Abbreviation fq A := (list (A * bool)).

Inductive fq_label (A : Type) := LPush (d : A) | LPop (d : A) | LTau.
Arguments LPush {A} _.
Arguments LPop {A} _.
Arguments LTau {A}.

Inductive fq_step {A : Type} : fq_label A → fq A → fq A → Prop :=
| fq_push q d b : fq_step (LPush d) q (q ++ [(d, b)])
| fq_pop q d : fq_step (LPop d) ((d, true) :: q) q
| fq_publish q n d : q !! n = Some (d, false) → fq_step LTau q (<[n := (d, true)]> q)
| fq_tau q : fq_step LTau q q.

(** A run of the list with its labels, and the elements that were taken. *)
Inductive fq_run {A : Type} : list (fq_label A) → fq A → fq A → Prop :=
| fq_run_nil q : fq_run [] q q
| fq_run_snoc tr q q' l q'' : fq_run tr q q' → fq_step l q' q'' → fq_run (tr ++ [l]) q q''.

Definition pops {A : Type} (tr : list (fq_label A)) : list A := omap (λ l, match l with LPop d => Some d | _ => None end) tr.

(** ** The queue for many producers and consumers *)

Module Mpmc.

Abbreviation elem := positive.

Record Item := mkItem { it_data : elem; iwrite_exp : Z; iread_exp : Z }.

#[export] Instance Item_eta : Eta Item := λ i, mkItem (it_data i) (iwrite_exp i) (iread_exp i).

(** Where a thread is: in [try_push] with the data and the index it loaded, in
    [try_pop] with the index it loaded, or outside.
    - [PushTest], [PopTest]: about to test the slot;
    - [PushCas], [PopCas]: about to exchange the index;
    - [PushWrite], [PopTake]: owns the slot, about to access its data;
    - [PushPublish], [PopRelease]: about to hand the slot on. *)
Inductive mpmc_pc :=
| MIdle
| PushTest (d : elem) (iwrite : Z) | PushCas (d : elem) (iwrite : Z) | PushWrite (d : elem) (iwrite : Z) | PushPublish (iwrite : Z)
| PopTest (iread : Z) | PopCas (iread : Z) | PopTake (iread : Z) | PopRelease (iread : Z) (v : elem).

(** [mq_log] records the elements in the order of the write indices they were
    given, [mq_popped] the elements returned with their read indices. *)
Record mpmc := mk_mpmc {
  mq_capacity : Z;
  mq_q : Z → Item;
  mq_iwrite : Z;
  mq_iread : Z;
  mq_threads : list mpmc_pc;
  mq_log : list elem;
  mq_popped : list (Z * elem);
}.

#[export] Instance mpmc_eta : Eta mpmc := λ s,
  mk_mpmc (mq_capacity s) (mq_q s) (mq_iwrite s) (mq_iread s) (mq_threads s) (mq_log s) (mq_popped s).

(** The constructor for [n] threads; the data of the slots is left as it is. *)
Definition mpmc_queue_ctor (cap : Z) (n : nat) (data : Z → elem) : mpmc :=
  mk_mpmc (align2n cap) (λ i, mkItem (data i) i (-1)) 0 0 (replicate n MIdle) [] [].

(** [&q[k & mask]] *)
Definition slot (capacity k : Z) : Z := Z.land k (capacity - 1).

Definition item (s : mpmc) (k : Z) : Item := mq_q s (slot (mq_capacity s) k).

Definition set_item (k : Z) (f : Item → Item) (s : mpmc) : mpmc :=
  s <| mq_q ::= <[slot (mq_capacity s) k := f (item s k)]> |>.

Definition set_thread (i : nat) (pc : mpmc_pc) (s : mpmc) : mpmc := s <| mq_threads ::= <[i := pc]> |>.

Definition mpmc_size (s : mpmc) : Z := u64 (mq_iwrite s - mq_iread s).

(** *** [try_push] *)

Definition try_push_load (i : nat) (d : elem) (s : mpmc) : mpmc := set_thread i (PushTest d (mq_iwrite s)) s.

Definition try_push_test (i : nat) (d : elem) (iwrite : Z) (s : mpmc) : mpmc :=
  set_thread i (if decide (iwrite_exp (item s iwrite) = iwrite) then PushCas d iwrite else MIdle) s.

(** [compare_exchange_weak] may fail although the values are equal. *)
Definition try_push_cas (i : nat) (spurious : bool) (d : elem) (iwrite : Z) (s : mpmc) : mpmc :=
  if negb spurious && bool_decide (mq_iwrite s = iwrite)
  then set_thread i (PushWrite d iwrite) (s <| mq_iwrite := iwrite + 1 |> <| mq_log ::= λ l, l ++ [d] |>)
  else set_thread i (PushTest d (mq_iwrite s)) s.

Definition try_push_write (i : nat) (d : elem) (iwrite : Z) (s : mpmc) : mpmc :=
  set_thread i (PushPublish iwrite) (set_item iwrite (λ x, x <| it_data := d |>) s).

Definition try_push_publish (i : nat) (iwrite : Z) (s : mpmc) : mpmc :=
  set_thread i MIdle (set_item iwrite (λ x, x <| iread_exp := iwrite |>) s).

(** *** [try_pop] *)

Definition try_pop_load (i : nat) (s : mpmc) : mpmc := set_thread i (PopTest (mq_iread s)) s.

Definition try_pop_test (i : nat) (iread : Z) (s : mpmc) : mpmc :=
  set_thread i (if decide (iread_exp (item s iread) = iread) then PopCas iread else MIdle) s.

Definition try_pop_cas (i : nat) (spurious : bool) (iread : Z) (s : mpmc) : mpmc :=
  if negb spurious && bool_decide (mq_iread s = iread)
  then set_thread i (PopTake iread) (s <| mq_iread := iread + 1 |>)
  else set_thread i (PopTest (mq_iread s)) s.

Definition try_pop_take (i : nat) (iread : Z) (s : mpmc) : mpmc := set_thread i (PopRelease iread (it_data (item s iread))) s.

Definition try_pop_release (i : nat) (iread : Z) (v : elem) (s : mpmc) : mpmc :=
  set_thread i MIdle (set_item iread (λ x, x <| iwrite_exp := iread + mq_capacity s |>) s
    <| mq_popped ::= λ l, (iread, v) :: l |>).

Definition mpmc_at (s : mpmc) (i : nat) (pc : mpmc_pc) : Prop := mq_threads s !! i = Some pc.

Inductive mpmc_step : mpmc → mpmc → Prop :=
| push_load s i d : mpmc_at s i MIdle → mpmc_step s (try_push_load i d s)
| push_test s i d k : mpmc_at s i (PushTest d k) → mpmc_step s (try_push_test i d k s)
| push_cas s i d k b : mpmc_at s i (PushCas d k) → mpmc_step s (try_push_cas i b d k s)
| push_write s i d k : mpmc_at s i (PushWrite d k) → mpmc_step s (try_push_write i d k s)
| push_publish s i k : mpmc_at s i (PushPublish k) → mpmc_step s (try_push_publish i k s)
| pop_load s i : mpmc_at s i MIdle → mpmc_step s (try_pop_load i s)
| pop_test s i k : mpmc_at s i (PopTest k) → mpmc_step s (try_pop_test i k s)
| pop_cas s i k b : mpmc_at s i (PopCas k) → mpmc_step s (try_pop_cas i b k s)
| pop_take s i k : mpmc_at s i (PopTake k) → mpmc_step s (try_pop_take i k s)
| pop_release s i k v : mpmc_at s i (PopRelease k v) → mpmc_step s (try_pop_release i k v s).

(** *** Slots *)

Section slots.
Context (C : Z) (HC : ∃ n, 0 <= n ∧ C = 2 ^ n).

Lemma C_pos : 0 < C.
Proof using HC. destruct HC as (n & ? & ->). by apply Z.pow_pos_nonneg. Qed.

Lemma slot_mod k : slot C k = k mod C.
Proof using HC. destruct HC as (n & Hn & ->). unfold slot. rewrite <-Z.land_ones, Z.ones_equiv by done. f_equal. Qed.

Lemma slot_range k : 0 <= slot C k < C.
Proof using HC. rewrite slot_mod. apply Z.mod_pos_bound, C_pos. Qed.

Lemma slot_add k : slot C (k + C) = slot C k.
Proof using HC. rewrite !slot_mod. rewrite <-(Z.mul_1_l C) at 1. pose proof C_pos. by rewrite Z.mod_add by lia. Qed.

Lemma slot_small j : 0 <= j < C → slot C j = j.
Proof using HC. intros. rewrite slot_mod. by apply Z.mod_small. Qed.

(** Two tickets of one slot are a whole round apart. *)
Lemma slot_apart a b : slot C a = slot C b → a < b → a + C <= b.
Proof using HC.
  rewrite !slot_mod. intros E Hlt. pose proof C_pos. pose proof (Z.div_mod a C ltac:(lia)). pose proof (Z.div_mod b C ltac:(lia)).
  rewrite E in *. assert (a / C < b / C) by nia. nia.
Qed.
End slots.

(** *** Invariant *)

(** The index whose slot a thread owns for writing, or for reading. *)
Definition prod_of (pc : mpmc_pc) : option Z := match pc with PushWrite _ k | PushPublish k => Some k | _ => None end.
Definition cons_of (pc : mpmc_pc) : option Z := match pc with PopTake k | PopRelease k _ => Some k | _ => None end.

Definition log_at (s : mpmc) (k : Z) : option elem := mq_log s !! Z.to_nat k.

(** A slot belongs to one index, [iwrite_exp], which is free, being written,
    written ([iread_exp] equals it), or being read. *)
Record slot_ok (C : Z) (s : mpmc) (j : Z) : Prop := {
  so_nonneg : 0 <= iwrite_exp (mq_q s j);
  so_slot : slot C (iwrite_exp (mq_q s j)) = j;
  so_behind : mq_iwrite s <= iwrite_exp (mq_q s j) + C;
  so_ahead : iwrite_exp (mq_q s j) < C ∨ iwrite_exp (mq_q s j) - C < mq_iread s;
  so_read : iread_exp (mq_q s j) = iwrite_exp (mq_q s j) ∧ iwrite_exp (mq_q s j) < mq_iwrite s ∧
              log_at s (iwrite_exp (mq_q s j)) = Some (it_data (mq_q s j)) ∨
            iread_exp (mq_q s j) = (if decide (iwrite_exp (mq_q s j) < C) then -1 else iwrite_exp (mq_q s j) - C);
}.

Definition pc_ok (C : Z) (s : mpmc) (pc : mpmc_pc) : Prop :=
  match pc with
  | MIdle => True
  | PushTest _ k => 0 <= k <= mq_iwrite s
  | PushCas _ k => 0 <= k <= mq_iwrite s ∧ (mq_iwrite s = k → iwrite_exp (mq_q s (slot C k)) = k)
  | PushWrite d k => 0 <= k < mq_iwrite s ∧ mq_iread s <= k ∧ iwrite_exp (mq_q s (slot C k)) = k ∧ iread_exp (mq_q s (slot C k)) ≠ k ∧
                     log_at s k = Some d
  | PushPublish k => 0 <= k < mq_iwrite s ∧ mq_iread s <= k ∧ iwrite_exp (mq_q s (slot C k)) = k ∧ iread_exp (mq_q s (slot C k)) ≠ k ∧
                     log_at s k = Some (it_data (mq_q s (slot C k)))
  | PopTest k => 0 <= k <= mq_iread s
  | PopCas k => 0 <= k <= mq_iread s ∧ (mq_iread s = k → iread_exp (mq_q s (slot C k)) = k)
  | PopTake k => 0 <= k < mq_iread s ∧ iwrite_exp (mq_q s (slot C k)) = k ∧ iread_exp (mq_q s (slot C k)) = k
  | PopRelease k v => 0 <= k < mq_iread s ∧ iwrite_exp (mq_q s (slot C k)) = k ∧ iread_exp (mq_q s (slot C k)) = k ∧
                      log_at s k = Some v
  end.

(** Some thread satisfies [P]. *)
Definition holds (s : mpmc) (P : mpmc_pc → Prop) : Prop := ∃ i pc, mq_threads s !! i = Some pc ∧ P pc.

Record mpmc_inv (C : Z) (s : mpmc) : Prop := {
  mi_cap : mq_capacity s = C;
  mi_idx : 0 <= mq_iread s <= mq_iwrite s;
  mi_len : Z.of_nat (length (mq_log s)) = mq_iwrite s;
  mi_slot : ∀ j, 0 <= j < C → slot_ok C s j;
  mi_pc : ∀ i pc, mq_threads s !! i = Some pc → pc_ok C s pc;
  mi_prod : ∀ i i' pc pc' k, mq_threads s !! i = Some pc → mq_threads s !! i' = Some pc' →
    prod_of pc = Some k → prod_of pc' = Some k → i = i';
  mi_cons : ∀ i i' pc pc' k, mq_threads s !! i = Some pc → mq_threads s !! i' = Some pc' →
    cons_of pc = Some k → cons_of pc' = Some k → i = i';
  mi_writing : ∀ j, 0 <= j < C → iwrite_exp (mq_q s j) < mq_iwrite s → iread_exp (mq_q s j) ≠ iwrite_exp (mq_q s j) →
    holds s (λ pc, prod_of pc = Some (iwrite_exp (mq_q s j)));
  mi_reading : ∀ j, 0 <= j < C → iread_exp (mq_q s j) = iwrite_exp (mq_q s j) → iwrite_exp (mq_q s j) < mq_iread s →
    holds s (λ pc, cons_of pc = Some (iwrite_exp (mq_q s j)));
  mi_taken : ∀ k, 0 <= k < mq_iread s → k ∈ (mq_popped s).*1 ∨ holds s (λ pc, cons_of pc = Some k);
  mi_popped : ∀ k v, (k, v) ∈ mq_popped s → 0 <= k < mq_iread s ∧ k < iwrite_exp (mq_q s (slot C k)) ∧ log_at s k = Some v;
  mi_nodup : NoDup (mq_popped s).*1;
}.

(** *** Preservation *)

Section preservation.
Context (C : Z) (HC : ∃ n, 0 <= n ∧ C = 2 ^ n).

Lemma holds_set_thread s i pc pc' P :
  mq_threads s !! i = Some pc → (P pc → P pc') → holds s P → holds (set_thread i pc' s) P.
Proof.
  intros Hi Himp (i' & q & Hq & HP). unfold holds, set_thread. simpl. destruct (decide (i' = i)) as [-> |Hne].
  - exists i, pc'. rewrite list_lookup_insert_eq by (by eapply lookup_lt_Some). simplify_eq. auto.
  - exists i', q. rewrite list_lookup_insert_ne by done. auto.
Qed.

Lemma set_thread_lookup s i pc i' q :
  mq_threads (set_thread i pc s) !! i' = Some q → (i' = i ∧ q = pc) ∨ (i' ≠ i ∧ mq_threads s !! i' = Some q).
Proof. unfold set_thread. simpl. rewrite list_lookup_insert_Some. intros [(-> & -> & _)|[??]]; auto. Qed.

(** A step that only moves a thread. *)
Lemma move_inv s i pc pc' :
  mpmc_inv C s → mq_threads s !! i = Some pc → pc_ok C s pc' →
  prod_of pc' = prod_of pc → cons_of pc' = cons_of pc → mpmc_inv C (set_thread i pc' s).
Proof.
  intros HI Hi Hok Hp Hc. destruct HI as [I1 I2 I3 I4 I5 I6 I7 I8 I9 I10 I11 I12].
  assert (Hl : ∀ i' q, mq_threads (set_thread i pc' s) !! i' = Some q →
    ∃ q0, mq_threads s !! i' = Some q0 ∧ prod_of q = prod_of q0 ∧ cons_of q = cons_of q0 ∧ pc_ok C s q).
  { intros i' q [[-> ->]|[Hne Hq]]%set_thread_lookup; [by exists pc|]. exists q. split_and!; try done. by eapply I5. }
  split; try done.
  - intros j Hj. destruct (I4 j Hj). by split.
  - intros i' q (q0 & _ & _ & _ & Hq)%Hl. by destruct q.
  - intros a b q q' k (q0 & E0 & -> & _)%Hl (q1 & E1 & -> & _)%Hl. by apply I6.
  - intros a b q q' k (q0 & E0 & _ & -> & _)%Hl (q1 & E1 & _ & -> & _)%Hl. by apply I7.
  - intros j Hj H1 H2. eapply holds_set_thread; [done| |by apply I8]. by rewrite Hp.
  - intros j Hj H1 H2. eapply holds_set_thread; [done| |by apply I9]. by rewrite Hc.
  - intros k Hk. destruct (I10 k Hk) as [?|Hh]; [by left|right]. eapply holds_set_thread; [done| |exact Hh]. by rewrite Hc.
Qed.

Lemma push_cas_inv s i d k :
  mpmc_inv C s → mq_threads s !! i = Some (PushCas d k) → mq_iwrite s = k →
  mpmc_inv C (set_thread i (PushWrite d k) (s <| mq_iwrite := k + 1 |> <| mq_log ::= λ l, l ++ [d] |>)).
Proof using HC.
  intros HI Hi Hk. destruct HI as [I1 I2 I3 I4 I5 I6 I7 I8 I9 I10 I11 I12].
  destruct (I5 _ _ Hi) as [Hk0 Hw]. specialize (Hw Hk). pose proof (slot_range C HC k) as Hsl. pose proof (C_pos C HC) as Hpos.
  set (s1 := s <| mq_iwrite := k + 1 |> <| mq_log ::= λ l, l ++ [d] |>).
  assert (Hlog : ∀ x, 0 <= x < mq_iwrite s → log_at (set_thread i (PushWrite d k) s1) x = log_at s x).
  { intros x Hx. unfold log_at, set_thread, s1. simpl. by rewrite lookup_app_l by lia. }
  assert (Hown : log_at (set_thread i (PushWrite d k) s1) k = Some d).
  { unfold log_at, set_thread, s1. simpl. rewrite lookup_app_r by lia. replace (Z.to_nat k - length (mq_log s))%nat with 0%nat by lia. done. }
  assert (HR : iread_exp (mq_q s (slot C k)) ≠ k).
  { destruct (I4 _ Hsl) as [_ _ _ _ [(_ & ? & _)| ->]]; [lia|]. rewrite Hw. case_decide; lia. }
  split; try done; simpl.
  - lia.
  - rewrite length_app. simpl. lia.
  - intros j Hj. destruct (I4 j Hj) as [S1 S2 S3 S4 S5]. split; try done; simpl.
    + destruct (decide (iwrite_exp (mq_q s j) + C = k)) as [E|]; [|lia]. exfalso.
      assert (slot C k = j) as <- by (rewrite <-E, (slot_add C HC); exact S2). lia.
    + destruct S5 as [(E1 & E2 & E3)|E]; [left|by right]. split_and!; [done|lia|]. by rewrite <-E3; apply Hlog.
  - intros i' q [[-> ->]|[Hne Hq]]%set_thread_lookup; [by simpl; split_and!; [lia..| | |]|].
    pose proof (I5 _ _ Hq) as Hok. destruct q; cbn [pc_ok] in *; try done; destruct_and?; rewrite ?Hlog by lia; cbn; split_and?; first [assumption|lia|intros; lia].
  - intros a b q q' x [[-> ->]|[Hna Ha]]%set_thread_lookup [[-> ->]|[Hnb Hb]]%set_thread_lookup Hx Hy; try done.
    + simpl in Hx. simplify_eq. pose proof (I5 _ _ Hb) as Hok. destruct q'; simplify_eq/=; lia.
    + simpl in Hy. simplify_eq. pose proof (I5 _ _ Ha) as Hok. destruct q; simplify_eq/=; lia.
    + by apply (I6 a b q q' x).
  - intros a b q q' x [[-> ->]|[Hna Ha]]%set_thread_lookup [[-> ->]|[Hnb Hb]]%set_thread_lookup Hx Hy; try done.
    by apply (I7 a b q q' x).
  - intros j Hj Hlt Hne. destruct (decide (iwrite_exp (mq_q s j) = k)) as [E|E].
    + rewrite E. exists i, (PushWrite d k). simpl. by rewrite list_lookup_insert_eq by (by eapply lookup_lt_Some).
    + eapply (holds_set_thread s1); [exact Hi|done|]. apply (I8 j Hj); [lia|done].
  - intros j Hj H1 H2. eapply (holds_set_thread s1); [exact Hi|done|by apply (I9 j)].
  - intros x Hx. destruct (I10 x Hx) as [?|Hh]; [by left|right]. by eapply (holds_set_thread s1); [exact Hi|done|].
  - intros x v Hin. destruct (I11 x v Hin) as (? & ? & ?). split_and!; [lia..|]. by rewrite Hlog by lia.
Qed.

Lemma pop_cas_inv s i k :
  mpmc_inv C s → mq_threads s !! i = Some (PopCas k) → mq_iread s = k →
  mpmc_inv C (set_thread i (PopTake k) (s <| mq_iread := k + 1 |>)).
Proof using HC.
  intros HI Hi Hk. destruct HI as [I1 I2 I3 I4 I5 I6 I7 I8 I9 I10 I11 I12].
  destruct (I5 _ _ Hi) as [Hk0 Hr]. specialize (Hr Hk). pose proof (slot_range C HC k) as Hsl. pose proof (C_pos C HC) as Hpos.
  set (s1 := s <| mq_iread := k + 1 |>).
  assert (iwrite_exp (mq_q s (slot C k)) = k ∧ k < mq_iwrite s) as [HW Hlt].
  { destruct (I4 _ Hsl) as [S1 S2 S3 S4 [(? & ? & _)|E]]; [lia|]. rewrite Hr in E. case_decide; lia. }
  split; try done; simpl.
  - lia.
  - intros j Hj. destruct (I4 j Hj) as [S1 S2 S3 S4 S5]. split; try done; simpl. lia.
  - intros i' q [[-> ->]|[Hne Hq]]%set_thread_lookup; [by simpl; split_and!; [lia..| |]|].
    pose proof (I5 _ _ Hq) as Hok. destruct q as [| | | d' x|x| | | |]; simpl in *; try done; destruct_and?;
      try (assert (x ≠ k) by (intros ->; lia)); split_and?; first [assumption|lia|intros; lia].
  - intros a b q q' x [[-> ->]|[Hna Ha]]%set_thread_lookup [[-> ->]|[Hnb Hb]]%set_thread_lookup Hx Hy; try done.
    by apply (I6 a b q q' x).
  - intros a b q q' x [[-> ->]|[Hna Ha]]%set_thread_lookup [[-> ->]|[Hnb Hb]]%set_thread_lookup Hx Hy; try done.
    + simpl in Hx. simplify_eq. pose proof (I5 _ _ Hb) as Hok. destruct q'; simplify_eq/=; lia.
    + simpl in Hy. simplify_eq. pose proof (I5 _ _ Ha) as Hok. destruct q; simplify_eq/=; lia.
    + by apply (I7 a b q q' x).
  - intros j Hj H1 H2. eapply (holds_set_thread s1); [exact Hi|done|by apply (I8 j)].
  - intros j Hj H1 H2. destruct (decide (iwrite_exp (mq_q s j) = k)) as [E|E].
    + rewrite E. exists i, (PopTake k). simpl. by rewrite list_lookup_insert_eq by (by eapply lookup_lt_Some).
    + eapply (holds_set_thread s1); [exact Hi|done|]. apply (I9 j Hj); [done|lia].
  - intros x Hx. destruct (decide (x = k)) as [-> |E].
    + right. exists i, (PopTake k). simpl. by rewrite list_lookup_insert_eq by (by eapply lookup_lt_Some).
    + destruct (I10 x ltac:(lia)) as [?|Hh]; [by left|right]. by eapply (holds_set_thread s1); [exact Hi|done|].
  - intros x v Hin. destruct (I11 x v Hin) as (? & ? & ?). split_and!; [lia..|done].
Qed.

(** *** Steps that change a slot *)

Lemma set_item_q s k f j :
  mq_capacity s = C → mq_q (set_item k f s) j = if decide (j = slot C k) then f (mq_q s (slot C k)) else mq_q s j.
Proof. intros Hcap. unfold set_item, item. simpl. rewrite Hcap. apply fn_insert_decide. Qed.

Lemma push_write_inv s i d k :
  mpmc_inv C s → mq_threads s !! i = Some (PushWrite d k) → mpmc_inv C (try_push_write i d k s).
Proof using HC.
  intros HI Hi. destruct HI as [I1 I2 I3 I4 I5 I6 I7 I8 I9 I10 I11 I12]. destruct (I5 _ _ Hi) as (Hk & Hrk & HW & HR & Hd).
  unfold try_push_write. set (s1 := set_item k _ s).
  assert (Hq : ∀ j, iwrite_exp (mq_q s1 j) = iwrite_exp (mq_q s j) ∧ iread_exp (mq_q s1 j) = iread_exp (mq_q s j) ∧
    it_data (mq_q s1 j) = if decide (j = slot C k) then d else it_data (mq_q s j)).
  { intros j. unfold s1. rewrite set_item_q by done. destruct (decide (j = slot C k)) as [-> |]; done. }
  apply (move_inv s1 i (PushWrite d k)); try done.
  2:{ cbn [pc_ok]. destruct (Hq (slot C k)) as (-> & -> & ->). by rewrite decide_True by done. }
  split; try done.
  - intros j Hj. destruct (I4 j Hj) as [S1 S2 S3 S4 S5], (Hq j) as (E1 & E2 & E3). split; rewrite ?E1, ?E2, ?E3; try done.
    destruct S5 as [(A & B & D)|E]; [|by right]. left. split_and!; [done..|]. destruct (decide (j = slot C k)) as [-> |]; [congruence|done].
  - intros i' q Hi'. pose proof (I5 _ _ Hi') as Hok. destruct q as [| | | |x| | | |]; cbn [pc_ok] in *; try done;
      destruct (Hq (slot C x)) as (E1 & E2 & E3) || destruct (Hq (slot C iwrite)) as (E1 & E2 & _) || destruct (Hq (slot C iread)) as (E1 & E2 & _);
      rewrite ?E1, ?E2; try done. rewrite E3. destruct (decide (slot C x = slot C k)) as [E|]; [|done].
    destruct Hok as (A1 & A2 & A3 & A4 & A5). assert (x = k) as -> by congruence. exact (conj A1 (conj A2 (conj A3 (conj A4 Hd)))).
  - intros j Hj. destruct (Hq j) as (-> & -> & _). exact (I8 j Hj).
  - intros j Hj. destruct (Hq j) as (-> & -> & _). exact (I9 j Hj).
  - intros x v Hin. destruct (Hq (slot C x)) as (-> & _). by apply I11.
Qed.

Lemma push_publish_inv s i k :
  mpmc_inv C s → mq_threads s !! i = Some (PushPublish k) → mpmc_inv C (try_push_publish i k s).
Proof using HC.
  intros HI Hi. destruct HI as [I1 I2 I3 I4 I5 I6 I7 I8 I9 I10 I11 I12].
  destruct (I5 _ _ Hi) as (Hk & Hrk & HW & HR & Hd). pose proof (slot_range C HC k) as Hsl. pose proof (C_pos C HC) as Hpos.
  unfold try_push_publish. set (s1 := set_item k _ s).
  assert (Hq : ∀ j, iwrite_exp (mq_q s1 j) = iwrite_exp (mq_q s j) ∧ it_data (mq_q s1 j) = it_data (mq_q s j) ∧
    iread_exp (mq_q s1 j) = if decide (j = slot C k) then k else iread_exp (mq_q s j)).
  { intros j. unfold s1. rewrite set_item_q by done. destruct (decide (j = slot C k)) as [-> |]; done. }
  assert (Hmove : ∀ P : mpmc_pc → Prop, ¬ P (PushPublish k) → holds s P → holds (set_thread i MIdle s1) P).
  { intros P HP Hh. by eapply (holds_set_thread s1); [exact Hi| |exact Hh]. }
  split; try done.
  - intros j Hj. destruct (I4 j Hj) as [S1 S2 S3 S4 S5], (Hq j) as (E1 & E2 & E3).
    split; change (mq_q (set_thread i MIdle s1)) with (mq_q s1); rewrite ?E1, ?E2, ?E3; try done.
    destruct (decide (j = slot C k)) as [-> |]; [left|done]. rewrite HW. split_and!; [done|apply Hk|exact Hd].
  - intros i' q [[-> ->]|[Hne Hi']]%set_thread_lookup; [done|]. pose proof (I5 _ _ Hi') as Hok.
    destruct q as [|d x|d x|d x|x|x|x|x|x v]; cbn [pc_ok] in *; try done; destruct (Hq (slot C x)) as (E1 & E2 & E3);
      change (mq_q (set_thread i MIdle s1)) with (mq_q s1); rewrite ?E1, ?E2, ?E3; try done;
      destruct (decide (slot C x = slot C k)) as [E|]; try done.
    + exfalso. assert (x = k) as -> by (rewrite E in Hok; destruct Hok as (_ & _ & ? & _); congruence).
      destruct (Hne (I6 _ _ _ _ k Hi' Hi eq_refl eq_refl)).
    + exfalso. assert (x = k) as -> by (rewrite E in Hok; destruct Hok as (_ & _ & ? & _); congruence).
      destruct (Hne (I6 _ _ _ _ k Hi' Hi eq_refl eq_refl)).
    + destruct Hok as [Hx Hr]. split; [done|]. intros Hix. exfalso. change (mq_iread s = x) in Hix. specialize (Hr Hix). rewrite E in Hr.
      destruct (I4 _ Hsl) as [S1 S2 S3 S4 [(? & _)|Er]]; [congruence|]. rewrite HW in *. case_decide; lia.
    + exfalso. rewrite E in Hok. destruct Hok as (_ & ? & ?). congruence.
    + exfalso. rewrite E in Hok. destruct Hok as (_ & ? & ? & _). congruence.
  - intros a b q q' x [[-> ->]|[Hna Ha]]%set_thread_lookup [[-> ->]|[Hnb Hb]]%set_thread_lookup; try done. by apply I6.
  - intros a b q q' x [[-> ->]|[Hna Ha]]%set_thread_lookup [[-> ->]|[Hnb Hb]]%set_thread_lookup; try done. by apply I7.
  - intros j Hj. change (mq_q (set_thread i MIdle s1)) with (mq_q s1). destruct (Hq j) as (-> & _ & ->).
    destruct (decide (j = slot C k)) as [-> |Hne]; [rewrite HW; done|]. intros H1 H2. apply Hmove; [|by apply (I8 j)].
    simpl. intros [= ->]. apply Hne. symmetry. apply (I4 j Hj).
  - intros j Hj. change (mq_q (set_thread i MIdle s1)) with (mq_q s1). destruct (Hq j) as (-> & _ & ->).
    destruct (decide (j = slot C k)) as [-> |Hne]; [rewrite HW; simpl; lia|]. intros H1 H2. apply Hmove; [done|by apply (I9 j)].
  - intros x Hx. destruct (I10 x Hx) as [?|Hh]; [by left|right]. by apply Hmove.
  - intros x v Hin. change (mq_q (set_thread i MIdle s1)) with (mq_q s1). destruct (Hq (slot C x)) as (-> & _). by apply I11.
Qed.

Lemma pop_release_inv s i k v :
  mpmc_inv C s → mq_threads s !! i = Some (PopRelease k v) → mpmc_inv C (try_pop_release i k v s).
Proof using HC.
  intros HI Hi. destruct HI as [I1 I2 I3 I4 I5 I6 I7 I8 I9 I10 I11 I12].
  destruct (I5 _ _ Hi) as (Hk & HW & HR & Hd). pose proof (slot_range C HC k) as Hsl. pose proof (C_pos C HC) as Hpos.
  unfold try_pop_release. rewrite I1. set (s1 := set_item k _ s <| mq_popped ::= _ |>).
  assert (Hq : ∀ j, iread_exp (mq_q s1 j) = iread_exp (mq_q s j) ∧ it_data (mq_q s1 j) = it_data (mq_q s j) ∧
    iwrite_exp (mq_q s1 j) = if decide (j = slot C k) then k + C else iwrite_exp (mq_q s j)).
  { intros j. change (mq_q s1 j) with (mq_q (set_item k (λ x, x <| iwrite_exp := k + C |>) s) j).
    rewrite set_item_q by done. destruct (decide (j = slot C k)) as [-> |]; done. }
  assert (Hmove : ∀ P : mpmc_pc → Prop, ¬ P (PopRelease k v) → holds s P → holds (set_thread i MIdle s1) P).
  { intros P HP Hh. by eapply (holds_set_thread s1); [exact Hi| |exact Hh]. }
  split; try done.
  - intros j Hj. destruct (I4 j Hj) as [S1 S2 S3 S4 S5], (Hq j) as (E1 & E2 & E3).
    split; change (mq_q (set_thread i MIdle s1)) with (mq_q s1); rewrite ?E1, ?E2, ?E3; destruct (decide (j = slot C k)) as [-> |]; try done.
    + lia.
    + by apply slot_add.
    + simpl. lia.
    + simpl. lia.
    + right. rewrite HR, decide_False by lia. lia.
  - intros i' q [[-> ->]|[Hne Hi']]%set_thread_lookup; [done|]. pose proof (I5 _ _ Hi') as Hok.
    destruct q as [|d x|d x|d x|x|x|x|x|x v']; cbn [pc_ok] in *; try done; destruct (Hq (slot C x)) as (E1 & E2 & E3);
      change (mq_q (set_thread i MIdle s1)) with (mq_q s1); rewrite ?E1, ?E2, ?E3; try done;
      destruct (decide (slot C x = slot C k)) as [E|]; try done.
    + destruct Hok as [Hx Hw]. split; [done|]. intros Hix. change (mq_iwrite s = x) in Hix. specialize (Hw Hix). rewrite E, HW in Hw. lia.
    + exfalso. rewrite E in Hok. destruct Hok as (_ & _ & ? & ? & _). congruence.
    + exfalso. rewrite E in Hok. destruct Hok as (_ & _ & ? & ? & _). congruence.
    + exfalso. assert (x = k) as -> by (rewrite E in Hok; destruct Hok as (_ & ? & _); congruence).
      destruct (Hne (I7 _ _ _ _ k Hi' Hi eq_refl eq_refl)).
    + exfalso. assert (x = k) as -> by (rewrite E in Hok; destruct Hok as (_ & ? & _); congruence).
      destruct (Hne (I7 _ _ _ _ k Hi' Hi eq_refl eq_refl)).
  - intros a b q q' x [[-> ->]|[Hna Ha]]%set_thread_lookup [[-> ->]|[Hnb Hb]]%set_thread_lookup; try done. by apply I6.
  - intros a b q q' x [[-> ->]|[Hna Ha]]%set_thread_lookup [[-> ->]|[Hnb Hb]]%set_thread_lookup; try done. by apply I7.
  - intros j Hj. change (mq_q (set_thread i MIdle s1)) with (mq_q s1). destruct (Hq j) as (-> & _ & ->).
    destruct (decide (j = slot C k)) as [-> |Hne].
    + destruct (I4 _ Hsl) as [_ _ S3 _ _]. simpl. lia.
    + intros H1 H2. apply Hmove; [done|by apply (I8 j)].
  - intros j Hj. change (mq_q (set_thread i MIdle s1)) with (mq_q s1). destruct (Hq j) as (-> & _ & ->).
    destruct (decide (j = slot C k)) as [-> |Hne]; [lia|]. intros H1 H2. apply Hmove; [|by apply (I9 j)].
    simpl. intros [= ->]. apply Hne. symmetry. apply (I4 j Hj).
  - intros x Hx. simpl. destruct (decide (x = k)) as [-> |Hne]; [left; by left|].
    destruct (I10 x Hx) as [?|Hh]; [left; by right|right]. apply Hmove; [|done]. simpl. congruence.
  - intros x v' Hin. change (mq_q (set_thread i MIdle s1)) with (mq_q s1). destruct (Hq (slot C x)) as (_ & _ & ->).
    change (mq_iread (set_thread i MIdle s1)) with (mq_iread s).
    apply elem_of_cons in Hin as [[= -> ->]|Hin]; [rewrite decide_True by done; split_and!; [lia..|done]|].
    destruct (I11 x v' Hin) as (? & ? & ?). split_and!; [lia..| |done]. destruct (decide (slot C x = slot C k)) as [E|]; [|done].
    rewrite E in *. lia.
  - simpl. apply NoDup_cons. split; [|done]. intros ([x v'] & -> & Hin)%list_elem_of_fmap. simpl in *.
    destruct (I11 x v' Hin) as (_ & ? & _). lia.
Qed.

Lemma mpmc_step_inv s s' : mpmc_inv C s → mpmc_step s s' → mpmc_inv C s'.
Proof using HC.
  intros HI Hst. pose proof HI as [I1 I2 I3 I4 I5 _ _ _ _ _ _ _].
  destruct Hst as [s i d Hi|s i d k Hi|s i d k b Hi|s i d k Hi|s i k Hi|s i Hi|s i k Hi|s i k b Hi|s i k Hi|s i k v Hi];
    unfold mpmc_at in Hi.
  - eapply move_inv; [done..| |done|done]. simpl. lia.
  - unfold try_push_test, item. rewrite I1. destruct (decide _); eapply move_inv; try done. pose proof (I5 _ _ Hi). by split.
  - unfold try_push_cas. destruct (negb b && _) eqn:E.
    + apply andb_prop in E as [_ E]. apply bool_decide_eq_true in E. by apply push_cas_inv.
    + eapply move_inv; try done. simpl. lia.
  - by apply push_write_inv.
  - by apply push_publish_inv.
  - eapply move_inv; [done..| |done|done]. simpl. lia.
  - unfold try_pop_test, item. rewrite I1. destruct (decide _); eapply move_inv; try done. pose proof (I5 _ _ Hi). by split.
  - unfold try_pop_cas. destruct (negb b && _) eqn:E.
    + apply andb_prop in E as [_ E]. apply bool_decide_eq_true in E. by apply pop_cas_inv.
    + eapply move_inv; try done. simpl. lia.
  - unfold try_pop_take, item. rewrite I1. eapply move_inv; try done. destruct (I5 _ _ Hi) as (? & HW & HR). simpl. split_and!; [lia..|done|done|].
    destruct (I4 _ (slot_range C HC k)) as [_ _ _ _ [(_ & _ & Hl)|E]]; [by rewrite HW in Hl|]. rewrite HW, HR in E. pose proof (C_pos C HC). case_decide; lia.
  - by apply pop_release_inv.
Qed.

(** *** What the invariant says of the two ends *)

Lemma head_slot s : mpmc_inv C s → iwrite_exp (mq_q s (slot C (mq_iread s))) <= mq_iread s.
Proof using HC.
  intros HI. destruct (mi_slot _ _ HI _ (slot_range C HC (mq_iread s))) as [S1 S2 S3 S4 _].
  pose proof (C_pos C HC). pose proof (mi_idx _ _ HI).
  destruct (decide (iwrite_exp (mq_q s (slot C (mq_iread s))) <= mq_iread s)) as [|Hgt]; [done|].
  pose proof (slot_apart C HC (mq_iread s) _ (eq_sym S2) ltac:(lia)). lia.
Qed.

Lemma mpmc_length s : mpmc_inv C s → mq_iwrite s - mq_iread s <= C.
Proof using HC.
  intros HI. pose proof (head_slot s HI). destruct (mi_slot _ _ HI _ (slot_range C HC (mq_iread s))) as [_ _ ? _ _]. lia.
Qed.

(** No thread is between taking an index and handing on its slot. *)
Definition quiescent (s : mpmc) : Prop := ¬ holds s (λ pc, is_Some (prod_of pc) ∨ is_Some (cons_of pc)).

Lemma quiescent_push s :
  mpmc_inv C s → quiescent s → iwrite_exp (mq_q s (slot C (mq_iwrite s))) = mq_iwrite s ↔ mq_iwrite s - mq_iread s < C.
Proof using HC.
  intros HI Hq. pose proof (slot_range C HC (mq_iwrite s)) as Hsl. pose proof (C_pos C HC). pose proof (mi_idx _ _ HI).
  destruct (mi_slot _ _ HI _ Hsl) as [S1 S2 S3 S4 _]. split; [lia|]. intros Hlt.
  set (W := iwrite_exp (mq_q s (slot C (mq_iwrite s)))) in *.
  destruct (decide (W = mq_iwrite s)) as [|Hne]; [done|]. exfalso. destruct (decide (W < mq_iwrite s)) as [Hl|Hg].
  - pose proof (slot_apart C HC _ _ S2 Hl). apply Hq.
    destruct (decide (iread_exp (mq_q s (slot C (mq_iwrite s))) = W)) as [E|E].
    + destruct (mi_reading _ _ HI _ Hsl E ltac:(fold W; lia)) as (i & pc & Hi & Hc). exists i, pc. eauto.
    + destruct (mi_writing _ _ HI _ Hsl Hl E) as (i & pc & Hi & Hc). exists i, pc. eauto.
  - pose proof (slot_apart C HC _ W (eq_sym S2) ltac:(lia)). lia.
Qed.

Lemma quiescent_pop s :
  mpmc_inv C s → quiescent s → iread_exp (mq_q s (slot C (mq_iread s))) = mq_iread s ↔ mq_iread s < mq_iwrite s.
Proof using HC.
  intros HI Hq. pose proof (slot_range C HC (mq_iread s)) as Hsl. pose proof (C_pos C HC). pose proof (mi_idx _ _ HI).
  pose proof (head_slot s HI) as Hh. destruct (mi_slot _ _ HI _ Hsl) as [S1 S2 S3 S4 S5].
  set (W := iwrite_exp (mq_q s (slot C (mq_iread s)))) in *. split.
  - intros E. rewrite E in S5. destruct S5 as [(? & ? & _)|E']; [lia|]. case_decide; lia.
  - intros Hlt. destruct (decide (W = mq_iread s)) as [EW|Hne].
    + destruct (decide (iread_exp (mq_q s (slot C (mq_iread s))) = W)) as [E|E]; [lia|]. exfalso. apply Hq.
      destruct (mi_writing _ _ HI _ Hsl ltac:(fold W; lia) E) as (i & pc & Hi & Hc). exists i, pc. eauto.
    + pose proof (slot_apart C HC W (mq_iread s) S2 ltac:(lia)). lia.
Qed.
End preservation.

Lemma align2n_pow2 cap : 1 <= cap <= 2 ^ 63 → ∃ n, 0 <= n ∧ align2n cap = 2 ^ n.
Proof. intros (n & ? & ? & _)%align2n_spec. exists n. split; [lia|done]. Qed.

(** *** Refinement *)

(** The element at an index: the one its producer is about to store, or else the one
    in the slot. *)
Definition writes (k : Z) (pc : mpmc_pc) : option elem :=
  match pc with PushWrite d k' => if decide (k' = k) then Some d else None | _ => None end.

Definition value_at (s : mpmc) (k : Z) : elem := default (it_data (item s k)) (head (omap (writes k) (mq_threads s))).

(** The elements between the two indices, with their publication. *)
Definition mpmc_abs (s : mpmc) : fq elem :=
  (λ k, (value_at s k, bool_decide (iread_exp (item s k) = k))) <$> seqZ (mq_iread s) (mq_iwrite s - mq_iread s).

(** What a step does to the queue: the element an index was just given to, the
    element at the read index just passed, or nothing. *)
Definition mpmc_label (s s' : mpmc) : fq_label elem :=
  if decide (mq_iwrite s' = mq_iwrite s) then
    if decide (mq_iread s' = mq_iread s) then LTau else LPop (value_at s (mq_iread s))
  else LPush (value_at s' (mq_iwrite s)).

(** A run with the labels of its steps. *)
Inductive mpmc_run (s0 : mpmc) : list (fq_label elem) → mpmc → Prop :=
| mpmc_run_nil : mpmc_run s0 [] s0
| mpmc_run_snoc tr s s' : mpmc_run s0 tr s → mpmc_step s s' → mpmc_run s0 (tr ++ [mpmc_label s s']) s'.

(** The same by the order in which indices were given. *)
Definition log_abs (s : mpmc) : fq elem :=
  (λ k, (default 1%positive (log_at s k), bool_decide (iread_exp (item s k) = k))) <$> seqZ (mq_iread s) (mq_iwrite s - mq_iread s).

Definition log_label (s s' : mpmc) : fq_label elem :=
  if decide (mq_iwrite s' = mq_iwrite s) then
    if decide (mq_iread s' = mq_iread s) then LTau else LPop (default 1%positive (log_at s (mq_iread s)))
  else LPush (default 1%positive (log_at s' (mq_iwrite s))).

Lemma log_abs_ext s s' :
  mq_iread s' = mq_iread s → mq_iwrite s' = mq_iwrite s → mq_log s' = mq_log s →
  (∀ k, iread_exp (item s' k) = iread_exp (item s k)) → log_abs s' = log_abs s.
Proof. intros E1 E2 E3 E4. unfold log_abs. rewrite E1, E2. apply list_fmap_ext. intros n k _. unfold log_at. by rewrite E3, E4. Qed.

Lemma tau_refines s s' :
  mq_iread s' = mq_iread s → mq_iwrite s' = mq_iwrite s → fq_step LTau (log_abs s) (log_abs s') →
  fq_step (log_label s s') (log_abs s) (log_abs s').
Proof. intros E1 E2 H. unfold log_label. by rewrite (decide_True _ _ E2), (decide_True _ _ E1). Qed.

Lemma ext_refines s s' :
  mq_iread s' = mq_iread s → mq_iwrite s' = mq_iwrite s → mq_log s' = mq_log s →
  (∀ k, iread_exp (item s' k) = iread_exp (item s k)) → fq_step (log_label s s') (log_abs s) (log_abs s').
Proof. intros E1 E2 E3 E4. apply tau_refines; [done..|]. rewrite (log_abs_ext s s'); [constructor|done..]. Qed.

Lemma item_set_thread i pc s k : item (set_thread i pc s) k = item s k.
Proof. done. Qed.

Lemma set_item_iread_exp s i f k : (∀ x, iread_exp (f x) = iread_exp x) → iread_exp (item (set_item i f s) k) = iread_exp (item s k).
Proof. intros Hf. unfold item, set_item. simpl. rewrite fn_insert_decide. case_decide as E; [|done]. rewrite Hf. by rewrite E. Qed.

Lemma mpmc_reachable_inv cap n data s :
  1 <= cap <= 2 ^ 63 → rtc mpmc_step (mpmc_queue_ctor cap n data) s → mpmc_inv (align2n cap) s.
Proof.
  intros Hcap. pose proof (align2n_pow2 cap Hcap) as HC.
  apply rtc_invariant; [|intros a b; by apply mpmc_step_inv].
  assert (Hr : ∀ i pc, replicate n MIdle !! i = Some pc → pc = MIdle) by (intros i pc [-> _]%lookup_replicate; done).
  split; simpl; try done; try lia.
  - intros j Hj. split; simpl; try lia; [by apply slot_small|]. right. by rewrite decide_True by lia.
  - intros i pc ->%Hr. done.
  - by intros i i' pc pc' k ->%Hr.
  - by intros i i' pc pc' k ->%Hr.
  - by intros k v ?%not_elem_of_nil.
  - apply NoDup_nil_2.
Qed.

Section refinement.
Context (C : Z) (HC : ∃ n, 0 <= n ∧ C = 2 ^ n) (s : mpmc) (HI : mpmc_inv C s).

Lemma push_cas_refines i d k b :
  mpmc_at s i (PushCas d k) → fq_step (log_label s (try_push_cas i b d k s)) (log_abs s) (log_abs (try_push_cas i b d k s)).
Proof using HC HI.
  intros Hi. destruct HI as [I1 I2 I3 I4 I5 _ _ _ _ _ _ _]. unfold try_push_cas. case_match eqn:Hb; [|by apply ext_refines].
  apply andb_prop in Hb as [_ Hk%bool_decide_eq_true]. destruct (I5 _ _ Hi) as [_ Hw]. specialize (Hw Hk).
  assert (HR : iread_exp (item s k) ≠ k).
  { unfold item. rewrite I1. destruct (I4 _ (slot_range C HC k)) as [_ _ _ _ [(_ & ? & _)| ->]]; [lia|].
    pose proof (C_pos C HC). rewrite Hw. case_decide; lia. }
  unfold log_label. simpl. rewrite decide_False by lia.
  assert (Hlog : ∀ x, 0 <= x < mq_iwrite s → (mq_log s ++ [d]) !! Z.to_nat x = log_at s x) by (intros; apply lookup_app_l; lia).
  assert (Hown : (mq_log s ++ [d]) !! Z.to_nat (mq_iwrite s) = Some d) by (apply list_lookup_middle; lia).
  unfold log_at at 1. simpl. rewrite Hown. simpl.
  unfold log_abs at 2. simpl. replace (k + 1 - mq_iread s) with (mq_iwrite s - mq_iread s + 1) by lia.
  rewrite seqZ_app, fmap_app by lia. change (seqZ ?m 1) with [m]. simpl. replace (mq_iread s + (mq_iwrite s - mq_iread s)) with (mq_iwrite s) by lia.
  unfold log_at at 2. simpl. rewrite Hown. simpl. erewrite (list_fmap_ext _ _ (seqZ _ _)); [apply fq_push|].
  intros n x (-> & Hn)%lookup_seqZ. unfold log_at at 1. simpl. rewrite Hlog by lia. done.
Qed.

Lemma push_publish_refines i k :
  mpmc_at s i (PushPublish k) → fq_step (log_label s (try_push_publish i k s)) (log_abs s) (log_abs (try_push_publish i k s)).
Proof using HC HI.
  intros Hi. destruct (mi_pc _ _ HI _ _ Hi) as (Hk & Hr & _ & Hne & Hl). pose proof (mi_cap _ _ HI) as Hcap.
  pose proof (mpmc_length C HC s HI) as Hlen.
  apply tau_refines; [done..|].
  assert (log_abs (try_push_publish i k s) =
    <[Z.to_nat (k - mq_iread s) := (it_data (mq_q s (slot C k)), true)]> (log_abs s)) as ->.
  { apply list_eq. intros n. unfold log_abs at 1. rewrite list_lookup_fmap. simpl.
    destruct (decide (n = Z.to_nat (k - mq_iread s))) as [->|Hn].
    - rewrite list_lookup_insert_eq by (unfold log_abs; rewrite length_fmap, length_seqZ; lia).
      rewrite lookup_seqZ_lt by lia. simpl. replace (mq_iread s + Z.of_nat (Z.to_nat (k - mq_iread s))) with k by lia.
      change (log_at (try_push_publish i k s) k) with (log_at s k). rewrite Hl. simpl. do 2 f_equal.
      apply bool_decide_eq_true. unfold item, try_push_publish. simpl. by rewrite fn_insert_decide, decide_True by done.
    - rewrite list_lookup_insert_ne by done. unfold log_abs. rewrite list_lookup_fmap.
      destruct (seqZ _ _ !! n) as [x|] eqn:Hx; [|done]. apply lookup_seqZ in Hx as [-> Hx]. simpl. do 3 f_equal.
      unfold item, try_push_publish. simpl. rewrite fn_insert_decide, Hcap.
      rewrite decide_False; [done|]. intros E. destruct (Z.lt_trichotomy k (mq_iread s + Z.of_nat n)) as [?|[?|?]]; [|lia|].
      + pose proof (slot_apart C HC _ _ (eq_sym E)). lia.
      + pose proof (slot_apart C HC _ _ E). lia. }
  apply fq_publish. unfold log_abs. rewrite list_lookup_fmap, lookup_seqZ_lt by lia. simpl.
  replace (mq_iread s + Z.of_nat (Z.to_nat (k - mq_iread s))) with k by lia. rewrite Hl. simpl. do 2 f_equal.
  apply bool_decide_eq_false. unfold item. by rewrite Hcap.
Qed.

Lemma pop_cas_refines i k b :
  mpmc_at s i (PopCas k) → fq_step (log_label s (try_pop_cas i b k s)) (log_abs s) (log_abs (try_pop_cas i b k s)).
Proof using HC HI.
  intros Hi. unfold try_pop_cas. case_match eqn:Hb; [|by apply ext_refines].
  apply andb_prop in Hb as [_ Hk%bool_decide_eq_true]. destruct (mi_pc _ _ HI _ _ Hi) as [_ Hw]. specialize (Hw Hk).
  pose proof (mi_cap _ _ HI) as Hcap. pose proof (mi_idx _ _ HI).
  assert (mq_iread s < mq_iwrite s) as Hlt.
  { destruct (mi_slot _ _ HI _ (slot_range C HC k)) as [_ Hs _ Ha [(E & ? & _)|E]]; [lia|].
    rewrite Hw in E. case_decide; lia. }
  unfold log_label. simpl. rewrite decide_True by done. rewrite decide_False by lia.
  unfold log_abs at 1. replace (mq_iwrite s - mq_iread s) with (Z.succ (mq_iwrite s - (mq_iread s + 1))) by lia.
  rewrite seqZ_cons by lia. simpl. rewrite bool_decide_eq_true_2 by (unfold item; rewrite Hcap; subst k; done).
  unfold log_abs. simpl. rewrite <-Hk, Z.pred_succ, Z.add_1_r. apply fq_pop.
Qed.
End refinement.

Lemma log_refines cap n data s s' :
  1 <= cap <= 2 ^ 63 → rtc mpmc_step (mpmc_queue_ctor cap n data) s → mpmc_step s s' →
  fq_step (log_label s s') (log_abs s) (log_abs s').
Proof.
  intros Hcap Hr Hst. pose proof (align2n_pow2 cap Hcap) as HC.
  pose proof (mpmc_reachable_inv cap n data s Hcap Hr) as HI.
  destruct Hst; try (by apply ext_refines); eauto using push_cas_refines, push_publish_refines, pop_cas_refines.
  - apply ext_refines; [done..|]. intros k'. apply (set_item_iread_exp s k). done.
  - apply ext_refines; [done..|]. intros k'. apply (set_item_iread_exp s k). done.
Qed.

(** The slots and the producers hold what the indices were given to. *)
Section values.
Context (C : Z) (HC : ∃ n, 0 <= n ∧ C = 2 ^ n) (s : mpmc) (HI : mpmc_inv C s).

Lemma window_slot k : mq_iread s <= k < mq_iwrite s → iwrite_exp (mq_q s (slot C k)) = k.
Proof using HC HI.
  intros Hk. pose proof (mi_idx _ _ HI). destruct (mi_slot _ _ HI _ (slot_range C HC k)) as [S1 S2 S3 S4 _].
  destruct (Z.lt_trichotomy (iwrite_exp (mq_q s (slot C k))) k) as [Hl|[?|Hg]]; [|done|].
  - pose proof (slot_apart C HC _ _ S2 Hl). lia.
  - pose proof (slot_apart C HC _ _ (eq_sym S2) Hg). lia.
Qed.

Lemma writer_head k : head (omap (writes k) (mq_threads s)) = None ∨
  ∃ i d, mq_threads s !! i = Some (PushWrite d k) ∧ head (omap (writes k) (mq_threads s)) = Some d.
Proof using.
  destruct (omap (writes k) (mq_threads s)) as [|d l] eqn:E; [by left|right].
  assert (d ∈ omap (writes k) (mq_threads s)) as (pc & [i Hi]%list_elem_of_lookup & Hw)%list_elem_of_omap by (rewrite E; left).
  destruct pc; simplify_eq/=. case_decide; simplify_eq. by exists i, d.
Qed.

Lemma value_log k : mq_iread s <= k < mq_iwrite s → log_at s k = Some (value_at s k).
Proof using HC HI.
  intros Hk. pose proof (window_slot k Hk) as HW. unfold value_at, item. rewrite (mi_cap _ _ HI).
  destruct (writer_head k) as [E|(i & d & Hi & ->)]; [|by destruct (mi_pc _ _ HI _ _ Hi) as (_ & _ & _ & _ & ?)].
  rewrite E. simpl. destruct (decide (iread_exp (mq_q s (slot C k)) = k)) as [HR|HR].
  - destruct (mi_slot _ _ HI _ (slot_range C HC k)) as [_ _ _ _ [(_ & _ & Hl)|E']]; [by rewrite HW in Hl|].
    pose proof (C_pos C HC). pose proof (mi_idx _ _ HI). rewrite HW in E'. case_decide; lia.
  - destruct (mi_writing _ _ HI _ (slot_range C HC k)) as (i & pc & Hi & Hp); [rewrite HW; lia|by rewrite HW|]. rewrite HW in Hp.
    destruct pc as [| | |d x|x| | | |]; simplify_eq/=; [|by destruct (mi_pc _ _ HI _ _ Hi) as (_ & _ & _ & _ & ?)].
    assert (d ∈ omap (writes k) (mq_threads s)) as Hin.
    { apply list_elem_of_omap. exists (PushWrite d k). split; [by eapply list_elem_of_lookup_2|]. simpl. by rewrite decide_True. }
    destruct (omap _ _); [by apply not_elem_of_nil in Hin|done].
Qed.

Lemma abs_log : mpmc_abs s = log_abs s.
Proof using HC HI.
  unfold mpmc_abs, log_abs. apply list_fmap_ext. intros n k [-> Hk]%lookup_seqZ. by rewrite value_log by lia.
Qed.
End values.

(** An index moves by one, and only one of them. *)
Lemma step_indices s s' : mpmc_step s s' →
  (mq_iwrite s' = mq_iwrite s ∧ mq_iread s' = mq_iread s ∧ mq_log s' = mq_log s) ∨
  (mq_iwrite s' = mq_iwrite s + 1 ∧ mq_iread s' = mq_iread s ∧ ∃ d, mq_log s' = mq_log s ++ [d]) ∨
  (mq_iwrite s' = mq_iwrite s ∧ mq_iread s' = mq_iread s + 1 ∧ mq_log s' = mq_log s).
Proof.
  intros Hst. destruct Hst as [s i d Hi|s i d k Hi|s i d k b Hi|s i d k Hi|s i k Hi|s i Hi|s i k Hi|s i k b Hi|s i k Hi|s i k v Hi]; try (by left).
  - unfold try_push_cas. case_match eqn:Hb; [right; left|by left]. apply andb_prop in Hb as [_ <-%bool_decide_eq_true]. simpl. split_and!; eauto.
  - unfold try_pop_cas. case_match eqn:Hb; [right; right|by left]. by apply andb_prop in Hb as [_ <-%bool_decide_eq_true].
Qed.

Section runs.
Context (cap : Z) (n : nat) (data : Z → elem) (Hcap : 1 <= cap <= 2 ^ 63).

Lemma mpmc_run_rtc tr s : mpmc_run (mpmc_queue_ctor cap n data) tr s → rtc mpmc_step (mpmc_queue_ctor cap n data) s.
Proof using. induction 1; [apply rtc_refl|by eapply rtc_r]. Qed.

Lemma rtc_mpmc_run s : rtc mpmc_step (mpmc_queue_ctor cap n data) s → ∃ tr, mpmc_run (mpmc_queue_ctor cap n data) tr s.
Proof using.
  revert s. apply rtc_ind_r; [eexists; apply mpmc_run_nil|]. intros s s' _ Hst (tr & IH). eexists. by eapply mpmc_run_snoc.
Qed.

Lemma label_log s s' :
  rtc mpmc_step (mpmc_queue_ctor cap n data) s → mpmc_step s s' → mpmc_label s s' = log_label s s'.
Proof using Hcap.
  intros Hr Hst. pose proof (align2n_pow2 cap Hcap) as HC. pose proof (mpmc_reachable_inv cap n data s Hcap Hr) as HI.
  pose proof (mpmc_reachable_inv cap n data s' Hcap (rtc_r _ _ _ Hr Hst)) as HI'.
  pose proof (mi_idx _ _ HI). pose proof (mi_idx _ _ HI'). unfold mpmc_label, log_label.
  destruct (step_indices s s' Hst) as [(-> & -> & _)|[(E1 & E2 & _)|(E1 & E2 & _)]].
  - by rewrite !decide_True.
  - rewrite !(decide_False (P := mq_iwrite s' = mq_iwrite s)) by lia. by rewrite (value_log _ HC s' HI') by lia.
  - rewrite !(decide_True (P := mq_iwrite s' = mq_iwrite s)) by done. rewrite !decide_False by lia. by rewrite (value_log _ HC s HI) by lia.
Qed.

(** The elements taken are the first ones that were given an index. *)
Lemma run_pops tr s :
  mpmc_run (mpmc_queue_ctor cap n data) tr s → pops tr = take (Z.to_nat (mq_iread s)) (mq_log s).
Proof using Hcap.
  induction 1 as [|tr s s' Hr IH Hst]; [done|]. unfold pops in *. rewrite omap_app, IH. apply mpmc_run_rtc in Hr.
  pose proof (mpmc_reachable_inv cap n data s Hcap Hr) as HI. pose proof (mpmc_reachable_inv cap n data s' Hcap (rtc_r _ _ _ Hr Hst)) as HI'.
  pose proof (mi_idx _ _ HI). pose proof (mi_len _ _ HI). pose proof (mi_idx _ _ HI'). rewrite (label_log s s' Hr Hst). unfold log_label.
  destruct (step_indices s s' Hst) as [(E1 & E2 & ->)|[(E1 & E2 & d & ->)|(E1 & E2 & ->)]].
  - rewrite E2. rewrite !decide_True by done. simpl. by rewrite app_nil_r.
  - rewrite decide_False by lia. rewrite E2. simpl. rewrite app_nil_r. by rewrite take_app_le by lia.
  - rewrite decide_True, decide_False by lia. simpl. rewrite E2. replace (Z.to_nat (mq_iread s + 1)) with (S (Z.to_nat (mq_iread s))) by lia.
    destruct (log_at s (mq_iread s)) as [d|] eqn:El; [by apply take_S_r in El as ->|]. apply lookup_ge_None in El. lia.
Qed.
End runs.

(** C23: [mpmc_queue] implements the flagged list, whose elements are those in the
    slots or in the hands of their producers: taking a write index appends the
    element that is pushed, unpublished; publishing sets its flag; taking a read index
    removes the head, which is published; and no other access of any thread changes
    the list.  What [try_pop] returns for an index is the element removed with it. *)
Theorem mpmc_refines cap n data tr s :
  1 <= cap <= 2 ^ 63 → mpmc_run (mpmc_queue_ctor cap n data) tr s →
  fq_run tr [] (mpmc_abs s) ∧ ∀ k v, (k, v) ∈ mq_popped s → pops tr !! Z.to_nat k = Some v.
Proof.
  intros Hcap Hr. pose proof (align2n_pow2 cap Hcap) as HC. split.
  - induction Hr as [|tr s s' Hr IH Hst]; [apply fq_run_nil|]. eapply fq_run_snoc; [exact IH|]. apply mpmc_run_rtc in Hr.
    rewrite (label_log cap n data Hcap s s' Hr Hst).
    rewrite (abs_log _ HC s (mpmc_reachable_inv cap n data s Hcap Hr)), (abs_log _ HC s' (mpmc_reachable_inv cap n data s' Hcap (rtc_r _ _ _ Hr Hst))).
    by eapply log_refines.
  - intros k v Hin. rewrite (run_pops cap n data Hcap tr s Hr). apply mpmc_run_rtc in Hr.
    destruct (mi_popped _ _ (mpmc_reachable_inv cap n data s Hcap Hr) k v Hin) as (? & _ & ?). by rewrite lookup_take_lt by lia.
Qed.

(** the queue is a bounded FIFO for any number of producers and consumers.  In
    every interleaving each index is given to one element and returned at most
    once, with exactly that element; every index given to a consumer has been
    returned or is being read; there are never more elements than slots.  When no
    thread is inside the queue [try_push] succeeds exactly if it is not full, and
    [try_pop] exactly if it is not empty. *)
Theorem mpmc_fifo cap n data s :
  1 <= cap <= 2 ^ 63 → rtc mpmc_step (mpmc_queue_ctor cap n data) s →
  (∀ k v, (k, v) ∈ mq_popped s → 0 <= k < mq_iread s ∧ log_at s k = Some v) ∧ NoDup (mq_popped s).*1 ∧
  (∀ k, 0 <= k < mq_iread s → k ∈ (mq_popped s).*1 ∨ holds s (λ pc, cons_of pc = Some k)) ∧
  Z.of_nat (length (mq_log s)) = mq_iwrite s ∧ 0 <= mq_iwrite s - mq_iread s <= mq_capacity s ∧ cap <= mq_capacity s ∧
  (quiescent s → (iwrite_exp (item s (mq_iwrite s)) = mq_iwrite s ↔ mq_iwrite s - mq_iread s < mq_capacity s) ∧
                 (iread_exp (item s (mq_iread s)) = mq_iread s ↔ mq_iread s < mq_iwrite s)).
Proof.
  intros Hcap Hr. pose proof (mpmc_reachable_inv cap n data s Hcap Hr) as HI. pose proof (align2n_pow2 cap Hcap) as HC.
  pose proof (mpmc_length _ HC s HI) as Hl. pose proof (mi_idx _ _ HI). unfold item. rewrite (mi_cap _ _ HI).
  destruct (align2n_spec cap Hcap) as (e & _ & He & Hge & _).
  split; [|split; [apply HI|split; [apply HI|split; [apply HI|split; [lia|split; [lia|]]]]]].
  - intros k v Hin. destruct (mi_popped _ _ HI k v Hin) as (? & _ & ?). by split.
  - intros Hq. split; [by apply quiescent_push|by apply quiescent_pop].
Qed.

(** Two producers and a consumer on a queue of two slots: the second producer
    publishes first, and the consumer takes both elements in index order. *)
Definition mpmc_demo : mpmc :=
  let s := mpmc_queue_ctor 2 3 (λ _, 1%positive) in
  let s := try_push_cas 0 false 11 0 (try_push_test 0 11 0 (try_push_load 0 11 s)) in
  let s := try_push_cas 1 false 12 1 (try_push_test 1 12 1 (try_push_load 1 12 s)) in
  let s := try_push_publish 1 1 (try_push_write 1 12 1 s) in
  let s := try_push_publish 0 0 (try_push_write 0 11 0 s) in
  let s := try_pop_take 2 0 (try_pop_cas 2 false 0 (try_pop_test 2 0 (try_pop_load 2 s))) in
  let s := try_pop_release 2 0 11 s in
  let s := try_pop_take 2 1 (try_pop_cas 2 false 1 (try_pop_test 2 1 (try_pop_load 2 s))) in
  try_pop_release 2 1 12 s.

Lemma mpmc_demo_reachable : rtc mpmc_step (mpmc_queue_ctor 2 3 (λ _, 1%positive)) mpmc_demo.
Proof.
  run_step (push_load _ 0 11). run_step (push_test _ 0 11 0). run_step (push_cas _ 0 11 0 false).
  run_step (push_load _ 1 12). run_step (push_test _ 1 12 1). run_step (push_cas _ 1 12 1 false).
  run_step (push_write _ 1 12 1). run_step (push_publish _ 1 1). run_step (push_write _ 0 11 0). run_step (push_publish _ 0 0).
  run_step (pop_load _ 2). run_step (pop_test _ 2 0). run_step (pop_cas _ 2 0 false). run_step (pop_take _ 2 0).
  run_step (pop_release _ 2 0 11).
  run_step (pop_load _ 2). run_step (pop_test _ 2 1). run_step (pop_cas _ 2 1 false). run_step (pop_take _ 2 1).
  run_step (pop_release _ 2 1 12). apply rtc_refl.
Qed.

Lemma mpmc_fifo_witness :
  mq_popped mpmc_demo = [(1, 12%positive); (0, 11%positive)] ∧ mq_log mpmc_demo = [11%positive; 12%positive] ∧
  NoDup (mq_popped mpmc_demo).*1.
Proof.
  destruct (mpmc_fifo 2 3 (λ _, 1%positive) mpmc_demo ltac:(lia) mpmc_demo_reachable) as (_ & Hnd & _).
  split_and!; [reflexivity|reflexivity|exact Hnd].
Defined.

Lemma mpmc_demo_run : ∃ tr, mpmc_run (mpmc_queue_ctor 2 3 (λ _, 1%positive)) tr mpmc_demo ∧ pops tr = [11%positive; 12%positive].
Proof.
  destruct (rtc_mpmc_run 2 3 (λ _, 1%positive) _ mpmc_demo_reachable) as (tr & Hr). exists tr. split; [done|].
  rewrite (run_pops 2 3 (λ _, 1%positive) ltac:(lia) tr _ Hr). reflexivity.
Qed.

Lemma mpmc_refines_witness :
  ∃ tr, pops tr = [11%positive; 12%positive] ∧ fq_run tr [] (mpmc_abs mpmc_demo) ∧ mq_popped mpmc_demo = [(1, 12%positive); (0, 11%positive)] ∧
    pops tr !! Z.to_nat 1 = Some 12%positive.
Proof.
  destruct mpmc_demo_run as (tr & Hr & Hp). exists tr. destruct (mpmc_refines 2 3 (λ _, 1%positive) tr mpmc_demo ltac:(lia) Hr) as [H1 H2].
  split; [exact Hp|]. split; [exact H1|]. split; [reflexivity|]. apply H2. vm_compute. left.
Defined.

(** [try_push] can fail on an empty queue: a producer loads the index, another
    one pushes with it, the element is popped, and the slot the first one tests has
    moved on to the next round. *)
Lemma try_push_fails_empty :
  ∃ s, rtc mpmc_step (mpmc_queue_ctor 4 3 (λ _, 1%positive)) s ∧ mq_threads s !! 0%nat = Some (PushTest 11 0) ∧
    mpmc_size s = 0 ∧ mq_threads (try_push_test 0 11 0 s) !! 0%nat = Some MIdle.
Proof.
  eexists. split.
  - run_step (push_load _ 0 11). run_step (push_load _ 1 12). run_step (push_test _ 1 12 0). run_step (push_cas _ 1 12 0 false).
    run_step (push_write _ 1 12 0). run_step (push_publish _ 1 0). run_step (pop_load _ 2). run_step (pop_test _ 2 0).
    run_step (pop_cas _ 2 0 false). run_step (pop_take _ 2 0). run_step (pop_release _ 2 0 12). apply rtc_refl.
  - vm_compute. done.
Qed.
End Mpmc.

(** ** The queue for one producer and one consumer *)

Module Spsc.

Abbreviation elem := positive.
#[local] Abbreviation slot := Mpmc.slot.

Record spsc_item := mk_spsc_item { it_data : elem; it_valid : bool }.

#[export] Instance spsc_item_eta : Eta spsc_item := λ i, mk_spsc_item (it_data i) (it_valid i).

(** The producer: outside, about to write the data, about to set [valid]. *)
Inductive prod_pc := PIdle | PWrite (d : elem) | PValid (d : elem).

(** The consumer: outside, about to take the data, about to clear [valid], about
    to advance [iread_]. *)
Inductive cons_pc := CIdle | CTake | CClear (v : elem) | CAdvance (v : elem).

(** [sq_log] and [sq_popped] record the elements pushed and popped, in order. *)
Record spsc := mk_spsc {
  sq_capacity : Z;
  sq_q : Z → spsc_item;
  sq_iwrite : Z;
  sq_iread : Z;
  sq_cached_write : Z;
  sq_prod : prod_pc;
  sq_cons : cons_pc;
  sq_log : list elem;
  sq_popped : list elem;
}.

#[export] Instance spsc_eta : Eta spsc := λ s,
  mk_spsc (sq_capacity s) (sq_q s) (sq_iwrite s) (sq_iread s) (sq_cached_write s) (sq_prod s) (sq_cons s) (sq_log s) (sq_popped s).

Definition spsc_queue_ctor (cap : Z) (data : Z → elem) : spsc :=
  mk_spsc (align2n cap) (λ i, mk_spsc_item (data i) false) 0 0 (align2n cap - 1) PIdle CIdle [] [].

Definition upd_slot (k : Z) (f : spsc_item → spsc_item) (s : spsc) : spsc :=
  s <| sq_q ::= <[slot (sq_capacity s) k := f (sq_q s (slot (sq_capacity s) k))]> |>.

(** [try_push] up to the reservation: the producer reads [iread_] only when it
    has used up what it knows to be free. *)
Definition try_push_check (d : elem) (s : spsc) : spsc :=
  let c := if decide (sq_cached_write s = 0) then u64 (sq_iread s + sq_capacity s - 1 - sq_iwrite s) else sq_cached_write s in
  s <| sq_cached_write := c |> <| sq_prod := if decide (c = 0) then PIdle else PWrite d |>.

Definition try_push_store (d : elem) (s : spsc) : spsc :=
  upd_slot (sq_iwrite s) (λ x, x <| it_data := d |>) s <| sq_prod := PValid d |>.

Definition try_push_valid (d : elem) (s : spsc) : spsc :=
  upd_slot (sq_iwrite s) (λ x, x <| it_valid := true |>) s <| sq_iwrite ::= λ n, n + 1 |>
    <| sq_cached_write ::= λ n, n - 1 |> <| sq_prod := PIdle |> <| sq_log ::= λ l, l ++ [d] |>.

Definition try_pop_check (s : spsc) : spsc :=
  s <| sq_cons := if it_valid (sq_q s (slot (sq_capacity s) (sq_iread s))) then CTake else CIdle |>.

Definition try_pop_move (s : spsc) : spsc := s <| sq_cons := CClear (it_data (sq_q s (slot (sq_capacity s) (sq_iread s)))) |>.

Definition try_pop_clear (v : elem) (s : spsc) : spsc :=
  upd_slot (sq_iread s) (λ x, x <| it_valid := false |>) s <| sq_cons := CAdvance v |>.

Definition try_pop_advance (v : elem) (s : spsc) : spsc :=
  s <| sq_iread ::= λ n, n + 1 |> <| sq_cons := CIdle |> <| sq_popped ::= λ l, l ++ [v] |>.

Inductive spsc_step : spsc → spsc → Prop :=
| sp_check s d : sq_prod s = PIdle → spsc_step s (try_push_check d s)
| sp_write s d : sq_prod s = PWrite d → spsc_step s (try_push_store d s)
| sp_valid s d : sq_prod s = PValid d → spsc_step s (try_push_valid d s)
| sc_check s : sq_cons s = CIdle → spsc_step s (try_pop_check s)
| sc_take s : sq_cons s = CTake → spsc_step s (try_pop_move s)
| sc_clear s v : sq_cons s = CClear v → spsc_step s (try_pop_clear v s)
| sc_advance s v : sq_cons s = CAdvance v → spsc_step s (try_pop_advance v s).

(** *** Invariant *)

(** The first index whose slot is still valid. *)
Definition first_valid (s : spsc) : Z := sq_iread s + match sq_cons s with CAdvance _ => 1 | _ => 0 end.

Record spsc_inv (C : Z) (s : spsc) : Prop := {
  si_cap : sq_capacity s = C;
  si_idx : 0 <= sq_iread s ∧ first_valid s <= sq_iwrite s;
  si_free : 0 <= sq_cached_write s <= sq_iread s + C - 1 - sq_iwrite s;
  si_len : Z.of_nat (length (sq_log s)) = sq_iwrite s;
  si_popped : sq_popped s = take (Z.to_nat (sq_iread s)) (sq_log s);
  si_full : ∀ k, first_valid s <= k < sq_iwrite s →
    it_valid (sq_q s (slot C k)) = true ∧ sq_log s !! Z.to_nat k = Some (it_data (sq_q s (slot C k)));
  si_empty : ∀ k, sq_iwrite s <= k < first_valid s + C → it_valid (sq_q s (slot C k)) = false;
  si_prod : match sq_prod s with
            | PIdle => True
            | PWrite _ => 0 < sq_cached_write s
            | PValid d => 0 < sq_cached_write s ∧ it_data (sq_q s (slot C (sq_iwrite s))) = d
            end;
  si_cons : match sq_cons s with
            | CIdle => True
            | CTake => sq_iread s < sq_iwrite s
            | CClear v | CAdvance v => sq_iread s < sq_iwrite s ∧ sq_log s !! Z.to_nat (sq_iread s) = Some v
            end;
}.

Section preservation.
Context (C : Z) (HC : ∃ n, 0 <= n ∧ C = 2 ^ n).

Lemma upd_slot_q s k f j :
  sq_capacity s = C → sq_q (upd_slot k f s) j = if decide (j = slot C k) then f (sq_q s (slot C k)) else sq_q s j.
Proof. intros Hcap. unfold upd_slot. simpl. rewrite Hcap. apply fn_insert_decide. Qed.

Lemma slot_ne a b : a < b < a + C → slot C a ≠ slot C b.
Proof using HC. intros Hab E. pose proof (Mpmc.slot_apart C HC a b E). lia. Qed.

Lemma first_valid_range s : sq_iread s <= first_valid s <= sq_iread s + 1.
Proof using Type. unfold first_valid. destruct (sq_cons s); lia. Qed.

Lemma spsc_ctor_inv cap data : C = align2n cap → spsc_inv C (spsc_queue_ctor cap data).
Proof using HC.
  intros ->. pose proof (Mpmc.C_pos _ HC). split; simpl; unfold first_valid; simpl; try done; try lia.
Qed.

Lemma push_check_inv d s : sq_prod s = PIdle → C <= 2 ^ 63 → spsc_inv C s → spsc_inv C (try_push_check d s).
Proof using HC.
  intros Hp Hmax HI. destruct (si_idx _ _ HI) as [H0 H1], (si_free _ _ HI) as [F0 F1].
  assert (0 <= sq_iread s + C - 1 - sq_iwrite s < 2 ^ 64) by (unfold first_valid in H1; destruct (sq_cons s); lia).
  assert (u64 (sq_iread s + sq_capacity s - 1 - sq_iwrite s) = sq_iread s + C - 1 - sq_iwrite s) as Hu.
  { rewrite (si_cap _ _ HI). apply uw_small. lia. }
  unfold try_push_check. rewrite Hu.
  destruct HI; split; simpl; try done; destruct (decide (sq_cached_write s = 0)); try lia; case_decide; simpl; try done; lia.
Qed.

Lemma push_store_inv d s : sq_prod s = PWrite d → spsc_inv C s → spsc_inv C (try_push_store d s).
Proof using HC.
  intros Hp HI. pose proof (si_cap _ _ HI) as Hcap. pose proof (si_prod _ _ HI) as Hf. rewrite Hp in Hf.
  destruct (si_free _ _ HI) as [_ F1]. pose proof (si_idx _ _ HI) as Hidx.
  pose proof (first_valid_range s).
  split; try apply HI.
  - intros k Hk. change (first_valid (try_push_store d s)) with (first_valid s) in Hk.
    change (sq_iwrite (try_push_store d s)) with (sq_iwrite s) in Hk.
    unfold try_push_store. simpl. rewrite Hcap, fn_insert_decide.
    rewrite (decide_False _ _ (slot_ne k (sq_iwrite s) ltac:(lia))). by apply (si_full _ _ HI).
  - intros k Hk. change (first_valid (try_push_store d s)) with (first_valid s) in Hk.
    change (sq_iwrite (try_push_store d s)) with (sq_iwrite s) in Hk.
    unfold try_push_store. simpl. rewrite Hcap, fn_insert_decide.
    destruct (decide (slot C k = slot C (sq_iwrite s))) as [E|E]; simpl; [rewrite <-E|]; by apply (si_empty _ _ HI).
  - simpl. split; [done|]. rewrite Hcap, fn_insert_decide, decide_True by done. done.
Qed.

Lemma push_valid_inv d s : sq_prod s = PValid d → spsc_inv C s → spsc_inv C (try_push_valid d s).
Proof using HC.
  intros Hp HI. pose proof (si_cap _ _ HI) as Hcap. pose proof (si_prod _ _ HI) as Hf. rewrite Hp in Hf.
  destruct Hf as [Hf Hd], (si_free _ _ HI) as [_ F1]. pose proof (si_idx _ _ HI) as Hidx.
  pose proof (first_valid_range s). pose proof (si_len _ _ HI) as Hlen.
  assert (first_valid (try_push_valid d s) = first_valid s) as Hfv by done.
  split; rewrite ?Hfv; simpl; try done; try lia.
  - rewrite length_app. simpl. lia.
  - rewrite take_app_le by lia. apply HI.
  - intros k Hk. rewrite Hcap, fn_insert_decide. destruct (decide (k = sq_iwrite s)) as [->|Hne].
    + rewrite decide_True by done. simpl. rewrite Hd. split; [done|].
      rewrite lookup_app_r by lia. replace (Z.to_nat (sq_iwrite s) - length (sq_log s))%nat with 0%nat by lia. done.
    + rewrite (decide_False _ _ (slot_ne k (sq_iwrite s) ltac:(lia))).
      rewrite lookup_app_l by lia. apply (si_full _ _ HI). lia.
  - intros k Hk. rewrite Hcap, fn_insert_decide.
    rewrite (decide_False _ _ (not_eq_sym (slot_ne (sq_iwrite s) k ltac:(lia)))). apply (si_empty _ _ HI). lia.
  - pose proof (si_cons _ _ HI) as Hc. destruct (sq_cons s); try done; try lia;
      destruct Hc; (split; [lia|]); by apply lookup_app_l_Some.
Qed.

Lemma pop_check_inv s : sq_cons s = CIdle → spsc_inv C s → spsc_inv C (try_pop_check s).
Proof using HC.
  intros Hp HI. pose proof (si_cap _ _ HI) as Hcap. pose proof (si_idx _ _ HI) as Hidx. pose proof (Mpmc.C_pos _ HC).
  assert (first_valid s = sq_iread s) as Hf by (unfold first_valid; rewrite Hp; lia).
  assert (first_valid (try_pop_check s) = first_valid s) as Hf'.
  { rewrite Hf. unfold first_valid, try_pop_check. simpl. destruct (it_valid _); lia. }
  split; rewrite ?Hf'; simpl; try apply HI.
  rewrite Hcap. destruct (it_valid _) eqn:E; [|done].
  destruct (decide (sq_iread s < sq_iwrite s)); [done|].
  rewrite (si_empty _ _ HI) in E by lia. done.
Qed.

Lemma pop_move_inv s : sq_cons s = CTake → spsc_inv C s → spsc_inv C (try_pop_move s).
Proof using HC.
  intros Hp HI. pose proof (si_cap _ _ HI) as Hcap. pose proof (si_cons _ _ HI) as Hc. rewrite Hp in Hc.
  assert (first_valid s = sq_iread s) as Hf by (unfold first_valid; rewrite Hp; lia).
  assert (first_valid (try_pop_move s) = first_valid s) as Hf' by (rewrite Hf; apply Z.add_0_r).
  split; rewrite ?Hf'; simpl; try apply HI.
  split; [done|]. rewrite Hcap. apply (si_full _ _ HI). lia.
Qed.

Lemma pop_clear_inv v s : sq_cons s = CClear v → spsc_inv C s → spsc_inv C (try_pop_clear v s).
Proof using HC.
  intros Hp HI. pose proof (si_cap _ _ HI) as Hcap. pose proof (si_cons _ _ HI) as Hc. rewrite Hp in Hc.
  pose proof (si_idx _ _ HI) as Hidx. pose proof (si_free _ _ HI) as Hfree. destruct Hc as [Hc Hl].
  assert (first_valid s = sq_iread s) as Hf by (unfold first_valid; rewrite Hp; lia).
  assert (first_valid (try_pop_clear v s) = sq_iread s + 1) as Hf' by done.
  split; rewrite ?Hf'; simpl; try apply HI; try done; try lia.
  - intros k Hk. rewrite Hcap, fn_insert_decide.
    rewrite (decide_False _ _ (not_eq_sym (slot_ne (sq_iread s) k ltac:(lia)))). apply (si_full _ _ HI). lia.
  - intros k Hk. rewrite Hcap, fn_insert_decide.
    destruct (decide (slot C k = slot C (sq_iread s))) as [E|E]; simpl; [done|].
    apply (si_empty _ _ HI). rewrite Hf. destruct (decide (k = sq_iread s + C)) as [->|]; [|lia].
    exfalso. apply E. apply Mpmc.slot_add; done.
  - pose proof (si_prod _ _ HI) as Hpr. destruct (sq_prod s); try done.
    rewrite Hcap, fn_insert_decide. destruct Hpr as [Hpr Hd]. split; [done|].
    rewrite (decide_False _ _ (not_eq_sym (slot_ne (sq_iread s) (sq_iwrite s) ltac:(lia)))). done.
Qed.

Lemma pop_advance_inv v s : sq_cons s = CAdvance v → spsc_inv C s → spsc_inv C (try_pop_advance v s).
Proof using HC.
  intros Hp HI. pose proof (si_cons _ _ HI) as Hc. rewrite Hp in Hc. destruct Hc as [Hc Hl].
  pose proof (si_idx _ _ HI) as Hidx. pose proof (si_free _ _ HI) as Hfree.
  assert (first_valid s = sq_iread s + 1) as Hf by (unfold first_valid; rewrite Hp; lia).
  assert (first_valid (try_pop_advance v s) = first_valid s) as Hf' by (rewrite Hf; apply Z.add_0_r).
  split; rewrite ?Hf'; simpl; try apply HI; try done; try lia.
  replace (Z.to_nat (sq_iread s + 1)) with (S (Z.to_nat (sq_iread s))) by lia.
  rewrite (take_S_r _ _ _ Hl), (si_popped _ _ HI). done.
Qed.

Lemma spsc_step_inv s s' : C <= 2 ^ 63 → spsc_step s s' → spsc_inv C s → spsc_inv C s'.
Proof using HC.
  intros Hmax Hst. destruct Hst;
    eauto using push_check_inv, push_store_inv, push_valid_inv, pop_check_inv, pop_move_inv, pop_clear_inv, pop_advance_inv.
Qed.

Lemma try_push_check_idle d s :
  C <= 2 ^ 63 → spsc_inv C s → sq_prod (try_push_check d s) = PIdle ↔ sq_iwrite s - sq_iread s = C - 1.
Proof using HC.
  intros Hmax HI. destruct (si_idx _ _ HI) as [H0 H1], (si_free _ _ HI) as [F0 F1]. pose proof (first_valid_range s).
  unfold try_push_check. simpl. rewrite (si_cap _ _ HI).
  assert (u64 (sq_iread s + C - 1 - sq_iwrite s) = sq_iread s + C - 1 - sq_iwrite s) as -> by (apply uw_small; lia).
  destruct (decide (sq_cached_write s = 0)); case_decide; (split; [try done; lia|try done; lia]).
Qed.

Lemma try_pop_check_idle s :
  spsc_inv C s → sq_cons s = CIdle → sq_cons (try_pop_check s) = CIdle ↔ sq_iread s = sq_iwrite s.
Proof using HC.
  intros HI Hc. pose proof (Mpmc.C_pos _ HC). pose proof (si_idx _ _ HI) as Hidx.
  assert (first_valid s = sq_iread s) as Hf by (unfold first_valid; rewrite Hc; lia).
  unfold try_pop_check. simpl. rewrite (si_cap _ _ HI).
  destruct (decide (sq_iread s = sq_iwrite s)) as [E|E].
  - rewrite (si_empty _ _ HI) by lia. done.
  - destruct (si_full _ _ HI (sq_iread s)) as [-> _]; [lia|]. done.
Qed.
End preservation.

Lemma align2n_max cap : 1 <= cap <= 2 ^ 63 → align2n cap <= 2 ^ 63.
Proof. intros (e & He & -> & _)%align2n_spec. apply Z.pow_le_mono_r; lia. Qed.

Lemma spsc_reachable_inv cap data s :
  1 <= cap <= 2 ^ 63 → rtc spsc_step (spsc_queue_ctor cap data) s → spsc_inv (align2n cap) s.
Proof.
  intros Hcap Hr. pose proof (Mpmc.align2n_pow2 cap Hcap) as HC.
  apply (rtc_invariant spsc_step (spsc_inv (align2n cap)) (spsc_queue_ctor cap data)); [by apply spsc_ctor_inv| |exact Hr].
  intros a b Ha Hab. by apply (spsc_step_inv _ HC a b (align2n_max cap Hcap)).
Qed.

(** [spsc_queue] is an exact bounded FIFO: under every interleaving of the
    producer's and the consumer's accesses, the popped elements are the pushed
    ones in their order, [capacity - 1] elements at most are inside, a push
    fails exactly when that many are, and a pop exactly when none is. *)
Theorem spsc_fifo cap data s :
  1 <= cap <= 2 ^ 63 → rtc spsc_step (spsc_queue_ctor cap data) s →
  sq_popped s = take (Z.to_nat (sq_iread s)) (sq_log s) ∧ Z.of_nat (length (sq_log s)) = sq_iwrite s ∧
  0 <= sq_iread s ∧ 0 <= sq_iwrite s - sq_iread s <= align2n cap - 1 ∧
  (∀ d, sq_prod (try_push_check d s) = PIdle ↔ sq_iwrite s - sq_iread s = align2n cap - 1) ∧
  (sq_cons s = CIdle → sq_cons (try_pop_check s) = CIdle ↔ sq_iread s = sq_iwrite s).
Proof.
  intros Hcap Hr. pose proof (spsc_reachable_inv cap data s Hcap Hr) as HI. pose proof (Mpmc.align2n_pow2 cap Hcap) as HC.
  pose proof (align2n_max cap Hcap). pose proof (si_idx _ _ HI). pose proof (si_free _ _ HI). pose proof (first_valid_range s).
  split; [apply HI|split; [apply HI|split; [lia|split; [lia|split]]]].
  - intros d. by apply (try_push_check_idle _ HC).
  - by apply (try_pop_check_idle _ HC).
Qed.

(** *** Refinement *)

(** The consumer takes an element when it finds it valid. *)
Definition taken (s : spsc) : Z := sq_iread s + match sq_cons s with CIdle => 0 | _ => 1 end.

Definition spsc_abs (s : spsc) : fq positive := (λ d, (d, true)) <$> drop (Z.to_nat (taken s)) (sq_log s).

Definition spsc_label (s s' : spsc) : fq_label positive :=
  if decide (sq_iwrite s' = sq_iwrite s) then
    if decide (taken s' = taken s) then LTau else LPop (default 1%positive (sq_log s !! Z.to_nat (taken s)))
  else LPush (default 1%positive (sq_log s' !! Z.to_nat (sq_iwrite s))).

Lemma taken_range C s : spsc_inv C s → 0 <= taken s <= sq_iwrite s.
Proof.
  intros HI. pose proof (si_idx _ _ HI) as Hi. pose proof (si_cons _ _ HI) as Hc. pose proof (first_valid_range s).
  unfold taken. destruct (sq_cons s); lia.
Qed.

Lemma spsc_tau_refines s s' :
  sq_iwrite s' = sq_iwrite s → taken s' = taken s → sq_log s' = sq_log s → fq_step (spsc_label s s') (spsc_abs s) (spsc_abs s').
Proof.
  intros E1 E2 E3. unfold spsc_label. rewrite (decide_True _ _ E1), (decide_True _ _ E2).
  unfold spsc_abs. rewrite E2, E3. constructor.
Qed.

Lemma push_valid_refines C d s :
  spsc_inv C s → fq_step (spsc_label s (try_push_valid d s)) (spsc_abs s) (spsc_abs (try_push_valid d s)).
Proof.
  intros HI. pose proof (taken_range C s HI). pose proof (si_len _ _ HI). pose proof (si_idx _ _ HI).
  unfold spsc_label. simpl. rewrite decide_False by lia.
  rewrite (list_lookup_middle _ [] d) by lia. unfold spsc_abs. change (taken (try_push_valid d s)) with (taken s). simpl.
  rewrite drop_app_le by lia. rewrite fmap_app. apply fq_push.
Qed.

Lemma pop_check_refines C s :
  (∃ n, 0 <= n ∧ C = 2 ^ n) → spsc_inv C s → sq_cons s = CIdle →
  fq_step (spsc_label s (try_pop_check s)) (spsc_abs s) (spsc_abs (try_pop_check s)).
Proof.
  intros HC HI Hc. pose proof (try_pop_check_idle C HC s HI Hc) as Hiff. pose proof (si_idx _ _ HI) as Hidx.
  pose proof (si_len _ _ HI) as Hlen. pose proof (first_valid_range s).
  assert (taken s = sq_iread s) as Ht by (unfold taken; rewrite Hc; lia).
  destruct (sq_cons (try_pop_check s)) eqn:E; [apply spsc_tau_refines; try done; unfold taken; rewrite E, Hc; done|..].
  2, 3: unfold try_pop_check in E; simpl in E; destruct (it_valid _) in E; done.
  assert (taken (try_pop_check s) = sq_iread s + 1) as Ht' by (unfold taken; rewrite E; done).
  assert (sq_iread s ≠ sq_iwrite s) by (intros E'; apply Hiff in E'; done).
  destruct (lookup_lt_is_Some_2 (sq_log s) (Z.to_nat (sq_iread s))) as [d Hd]; [lia|].
  unfold spsc_label. simpl. rewrite decide_True by done. rewrite decide_False by lia. rewrite Ht, Hd.
  unfold spsc_abs. rewrite Ht, Ht'. simpl. replace (Z.to_nat (sq_iread s + 1)) with (S (Z.to_nat (sq_iread s))) by lia.
  rewrite (drop_S _ _ _ Hd). apply fq_pop.
Qed.

(** [spsc_queue] implements the same flagged list, its elements being
    published as they are pushed. *)
Theorem spsc_refines cap data s s' :
  1 <= cap <= 2 ^ 63 → rtc spsc_step (spsc_queue_ctor cap data) s → spsc_step s s' →
  spsc_abs (spsc_queue_ctor cap data) = [] ∧ fq_step (spsc_label s s') (spsc_abs s) (spsc_abs s').
Proof.
  intros Hcap Hr Hst. split; [done|]. pose proof (Mpmc.align2n_pow2 cap Hcap) as HC.
  pose proof (spsc_reachable_inv cap data s Hcap Hr) as HI.
  destruct Hst as [s d Hp|s d Hp|s d Hp|s Hc|s Hc|s v Hc|s v Hc]; try (by apply spsc_tau_refines).
  - by eapply push_valid_refines.
  - by eapply pop_check_refines.
  - apply spsc_tau_refines; try done. unfold taken. by rewrite Hc.
  - apply spsc_tau_refines; try done. unfold taken. by rewrite Hc.
  - apply spsc_tau_refines; try done. unfold taken. simpl. rewrite Hc. lia.
Qed.

Definition spsc_demo : spsc :=
  try_pop_advance 7 (try_pop_clear 7 (try_pop_move (try_push_valid 8 (try_push_store 8 (try_push_check 8
    (try_pop_check (try_push_valid 7 (try_push_store 7 (try_push_check 7 (spsc_queue_ctor 3 (λ _, 1%positive))))))))))).

Lemma spsc_demo_reachable : rtc spsc_step (spsc_queue_ctor 3 (λ _, 1%positive)) spsc_demo.
Proof.
  run_step (sp_check _ 7). run_step (sp_write _ 7). run_step (sp_valid _ 7). run_step sc_check. run_step (sp_check _ 8).
  run_step (sp_write _ 8). run_step (sp_valid _ 8). run_step sc_take. run_step (sc_clear _ 7). run_step (sc_advance _ 7).
  apply rtc_refl.
Qed.

Lemma spsc_fifo_witness :
  sq_log spsc_demo = [7%positive; 8%positive] ∧ sq_popped spsc_demo = take (Z.to_nat (sq_iread spsc_demo)) (sq_log spsc_demo).
Proof. split; [reflexivity|]. apply (spsc_fifo 3 (λ _, 1%positive) spsc_demo); [lia|exact spsc_demo_reachable]. Defined.

Lemma spsc_refines_witness :
  fq_step (spsc_label spsc_demo (try_pop_check spsc_demo)) (spsc_abs spsc_demo) (spsc_abs (try_pop_check spsc_demo)).
Proof.
  apply (spsc_refines 3 (λ _, 1%positive) spsc_demo); [lia|exact spsc_demo_reachable|].
  apply sc_check. reflexivity.
Defined.

(** One slot is kept free, so a queue of capacity one accepts nothing. *)
Lemma spsc_capacity_one data s :
  rtc spsc_step (spsc_queue_ctor 1 data) s → sq_log s = [] ∧ ∀ d, sq_prod (try_push_check d s) = PIdle.
Proof.
  assert (∃ n, 0 <= n ∧ 1 = 2 ^ n) as HC by (exists 0; split; [lia|done]). intros Hr.
  assert (spsc_inv 1 s ∧ sq_log s = []) as [HI Hl].
  { apply (rtc_invariant spsc_step (λ s, spsc_inv 1 s ∧ sq_log s = []) (spsc_queue_ctor 1 data)); [| |exact Hr].
    - split; [by apply spsc_ctor_inv|done].
    - intros a b [Ha Hla] Hab. split; [by apply (spsc_step_inv 1 HC a b)|].
      destruct Hab as [| |a d Hp| | | |]; try done.
      pose proof (si_prod _ _ Ha) as Hpr. rewrite Hp in Hpr.
      pose proof (si_free _ _ Ha). pose proof (si_idx _ _ Ha). pose proof (first_valid_range a).
      destruct Hpr. lia. }
  split; [done|]. intros d. apply (try_push_check_idle 1 HC d s); [lia|done|].
  pose proof (si_free _ _ HI). pose proof (si_idx _ _ HI). pose proof (first_valid_range s). lia.
Qed.
End Spsc.
