(* ===== verification/JobRing.v ===== *)
(** * The job ring

    Models [job_ring] of interfaces/kits/cpp/pattern/job_ring.h: a queue of jobs
    that a worker task, or a thread in [wait], drains under a token.

    Every access to [token], [num], [waiter] or the queue is a step of its own,
    and so are a job's run and the futex calls, so that the accesses of any
    number of threads interleave.  The queue is the flagged list of [LfQueue],
    which both of its implementations refine: an element may be appended and
    published later ([mpmc_queue]) or at once ([spsc_queue]).  A push may fail
    at any time.  [num] has its 64 bits.  Accesses are sequentially consistent. *)

From S2P Require Import Prelude LfQueue.

Module Ring.

Abbreviation job := positive.

Record job_ring_attr := mk_attr { ra_qos : Z; ra_threshold : Z; ra_busy_us : Z }.

(** Who drains the queue: the worker task of [flush] or a thread in [wait]. *)
Inductive drainer := Worker | Helper.

(** Where [flush] returns to: the end of [submit] or of a call of [flush], or [wait]. *)
Inductive flush_ret := RetCall | RetWait.

(** Where a thread is.
    - [SPush], [SPublish], [SAdd], [STok]: [submit] ([retry]) or [try_submit],
      about to push, to publish the element pushed as number [k], to add to
      [num], to load [token];
    - [FCas], [FInc], [FSpawn]: [flush], about to take the token, to take a
      reference, to submit the worker task;
    - [KStart] to [KDone]: the worker task;
    - [Drain], [Run], [Sub]: [drain] after [n] jobs, a job running, about to
      subtract the count from [num];
    - [WTest], [HCas] to [HNotify], [WBusy] to [WNotify]: [wait] on entry, in
      the helping loop, and in the waiting loops. *)
Inductive ring_pc :=
| Idle
| SPush (retry : bool) (j : job) | SPublish (k : nat) (j : job) | SAdd (j : job) | STok
| FCas (r : flush_ret) | FInc (r : flush_ret) | FSpawn (r : flush_ret)
| KStart | KWake | KNotify | KBusy | KBusy2 | KExit | KCheck | KRetake | KDec | KDone
| Drain (w : drainer) (n : nat) | Run (w : drainer) (n : nat) (j : job) | Sub (w : drainer) (n : nat)
| WTest (help : bool) | HCas | HRel | HCheck | HWake | HNotify
| WBusy | WLoop | WSet | WCheck | WFutex | WSleep | WXchg | WNotify.

(** The ring and the threads using it.  [jr_log] records the jobs pushed,
    [jr_started] the jobs taken out and [jr_done] the jobs run, each in order;
    [jr_added] and [jr_subbed] what was added to and subtracted from [num]. *)
Record job_ring := mk_ring {
  jr_attr : job_ring_attr;
  jr_token : Z;
  jr_num : Z;
  jr_task_num : Z;
  jr_q : fq job;
  jr_waiter : Z;
  jr_ref : Z;
  jr_threads : list ring_pc;
  jr_log : list job;
  jr_started : list job;
  jr_done : list job;
  jr_added : Z;
  jr_subbed : Z;
}.

#[export] Instance job_ring_eta : Eta job_ring := λ s,
  mk_ring (jr_attr s) (jr_token s) (jr_num s) (jr_task_num s) (jr_q s) (jr_waiter s) (jr_ref s) (jr_threads s)
    (jr_log s) (jr_started s) (jr_done s) (jr_added s) (jr_subbed s).

(** [make], with [n] threads that hold the pointer. *)
Definition job_ring_make (attr : job_ring_attr) (n : nat) : job_ring :=
  mk_ring attr 0 0 0 [] 0 1 (replicate n Idle) [] [] [] 0 0.

Definition go (i : nat) (pc : ring_pc) (s : job_ring) : job_ring := s <| jr_threads ::= <[i := pc]> |>.

Definition all_done (s : job_ring) : bool := bool_decide (jr_num s = 0).

(** *** [submit] and [try_submit] *)

(** A successful [try_push]; [b] says whether the element is published at once. *)
Definition submit_push (i : nat) (b : bool) (j : job) (s : job_ring) : job_ring :=
  go i (if b then SAdd j else SPublish (length (jr_log s)) j) (s <| jr_q ::= λ q, q ++ [(j, b)] |> <| jr_log ::= λ l, l ++ [j] |>).

(** A failed one: [submit] sleeps and tries again. *)
Definition submit_push_fail (i : nat) (retry : bool) (j : job) (s : job_ring) : job_ring :=
  go i (if retry then SPush true j else Idle) s.

Definition submit_publish (i k : nat) (j : job) (s : job_ring) : job_ring :=
  go i (SAdd j) (s <| jr_q ::= <[(k - length (jr_started s))%nat := (j, true)]> |>).

Definition submit_add (i : nat) (s : job_ring) : job_ring :=
  go i (if decide (ra_threshold (jr_attr s) <= jr_num s) then STok else Idle)
    (s <| jr_num := u64 (jr_num s + 1) |> <| jr_added ::= λ n, n + 1 |>).

Definition submit_token (i : nat) (s : job_ring) : job_ring :=
  go i (if decide (jr_token s = 0) then FCas RetCall else Idle) s.

(** *** [flush] *)

Definition flush_after (r : flush_ret) : ring_pc := match r with RetCall => Idle | RetWait => WBusy end.

Definition flush_cas (i : nat) (r : flush_ret) (s : job_ring) : job_ring :=
  if decide (jr_token s = 0) then go i (FInc r) (s <| jr_token := 1 |>) else go i (flush_after r) s.

Definition flush_inc_ref (i : nat) (r : flush_ret) (s : job_ring) : job_ring := go i (FSpawn r) (s <| jr_ref ::= λ n, n + 1 |>).

Definition flush_submit (i : nat) (r : flush_ret) (s : job_ring) : job_ring :=
  go i (flush_after r) s <| jr_threads ::= λ l, l ++ [KStart] |>.

(** *** [drain] *)

(** One [try_pop(run_one)]: the job is taken out and run before the next. *)
Definition drain_pop (i : nat) (w : drainer) (n : nat) (s : job_ring) : job_ring :=
  match jr_q s with
  | (j, true) :: q => go i (Run w n j) (s <| jr_q := q |> <| jr_started ::= λ l, l ++ [j] |>)
  | _ => go i (Sub w n) s
  end.

Definition run_one (i : nat) (w : drainer) (n : nat) (j : job) (s : job_ring) : job_ring :=
  go i (Drain w (S n)) (s <| jr_done ::= λ l, l ++ [j] |>).

(** [num.fetch_sub] with the count, in the worker and in [wait]. *)
Definition drain_sub (i : nat) (w : drainer) (n : nat) (s : job_ring) : job_ring :=
  let s' := s <| jr_num := u64 (jr_num s - Z.of_nat n) |> <| jr_subbed ::= λ m, m + Z.of_nat n |> in
  match w with
  | Worker => go i (if decide (jr_num s = Z.of_nat n) then KWake else Drain Worker 0) s'
  | Helper => go i HRel s'
  end.

(** *** The worker task of [flush] *)

Definition worker_start (i : nat) (s : job_ring) : job_ring := go i (Drain Worker 0) (s <| jr_task_num ::= λ n, u64 (n + 1) |>).

(** [if (waiter.exchange(0) == 1)] *)
Definition ring_waiter_exchange (i : nat) (then_ else_ : ring_pc) (s : job_ring) : job_ring :=
  go i (if decide (jr_waiter s = 1) then then_ else else_) (s <| jr_waiter := 0 |>).

Definition ring_wake (pc : ring_pc) : ring_pc := match pc with WSleep => WXchg | _ => pc end.

Definition ring_notify_all (i : nat) (next : ring_pc) (s : job_ring) : job_ring := go i next (s <| jr_threads ::= fmap ring_wake |>).

(** The stall loop; [expired] says whether the time is over. *)
Definition worker_busy (i : nat) (expired : bool) (s : job_ring) : job_ring :=
  if decide (0 < ra_busy_us (jr_attr s))
  then go i (if all_done s && negb expired then KBusy else KBusy2) s
  else go i KExit s.

Definition worker_busy_done (i : nat) (s : job_ring) : job_ring := go i (if all_done s then KExit else Drain Worker 0) s.

Definition worker_exit (i : nat) (s : job_ring) : job_ring :=
  if decide (jr_token s = 1) then go i KCheck (s <| jr_token := 0 |>) else go i (Drain Worker 0) s.

Definition worker_check (i : nat) (s : job_ring) : job_ring := go i (if all_done s then KDec else KRetake) s.

Definition worker_retake (i : nat) (s : job_ring) : job_ring :=
  if decide (jr_token s = 0) then go i (Drain Worker 0) (s <| jr_token := 1 |>) else go i KDec s.

Definition worker_dec_ref (i : nat) (s : job_ring) : job_ring := go i KDone (s <| jr_ref ::= λ n, n - 1 |>).

(** *** [wait] *)

Definition ring_wait_test (i : nat) (help : bool) (s : job_ring) : job_ring :=
  go i (if all_done s then Idle else if help then HCas else FCas RetWait) s.

Definition help_cas (i : nat) (s : job_ring) : job_ring :=
  if decide (jr_token s = 0) then go i (Drain Helper 0) (s <| jr_token := 1 |>) else go i WBusy s.

Definition help_release (i : nat) (s : job_ring) : job_ring :=
  if decide (jr_token s = 1) then go i HCheck (s <| jr_token := 0 |>) else go i HCas s.

Definition help_check (i : nat) (s : job_ring) : job_ring := go i (if all_done s then HWake else HCas) s.

(** The busy loop; [expired] also when there is none ([BusyWaitUS] is 0). *)
Definition ring_wait_busy (i : nat) (expired : bool) (s : job_ring) : job_ring :=
  go i (if expired then WLoop else if all_done s then Idle else WBusy) s.

Definition ring_wait_loop (i : nat) (s : job_ring) : job_ring := go i (if all_done s then Idle else WSet) s.

Definition ring_wait_set (i : nat) (s : job_ring) : job_ring := go i WCheck (s <| jr_waiter := 1 |>).

Definition ring_wait_check (i : nat) (s : job_ring) : job_ring := go i (if all_done s then WXchg else WFutex) s.

(** [waiter.wait(1)]: the futex call sleeps only if the value is still 1. *)
Definition ring_wait_futex (i : nat) (s : job_ring) : job_ring := go i (if decide (jr_waiter s = 1) then WSleep else WXchg) s.

(** *** Steps *)

Definition at_pc (s : job_ring) (i : nat) (pc : ring_pc) : Prop := jr_threads s !! i = Some pc.

(** A thread that is outside may call any operation. *)
Inductive ring_call : ring_pc → Prop :=
| call_submit j : ring_call (SPush true j)
| call_try_submit j : ring_call (SPush false j)
| call_flush : ring_call (FCas RetCall)
| call_wait help : ring_call (WTest help).

Inductive ring_step : job_ring → job_ring → Prop :=
| rs_call s i pc : at_pc s i Idle → ring_call pc → ring_step s (go i pc s)
| rs_push s i r j b : at_pc s i (SPush r j) → ring_step s (submit_push i b j s)
| rs_push_fail s i r j : at_pc s i (SPush r j) → ring_step s (submit_push_fail i r j s)
| rs_publish s i k j : at_pc s i (SPublish k j) → ring_step s (submit_publish i k j s)
| rs_add s i j : at_pc s i (SAdd j) → ring_step s (submit_add i s)
| rs_tok s i : at_pc s i STok → ring_step s (submit_token i s)
| rs_fcas s i r : at_pc s i (FCas r) → ring_step s (flush_cas i r s)
| rs_finc s i r : at_pc s i (FInc r) → ring_step s (flush_inc_ref i r s)
| rs_fspawn s i r : at_pc s i (FSpawn r) → ring_step s (flush_submit i r s)
| rs_start s i : at_pc s i KStart → ring_step s (worker_start i s)
| rs_drain s i w n : at_pc s i (Drain w n) → ring_step s (drain_pop i w n s)
| rs_run s i w n j : at_pc s i (Run w n j) → ring_step s (run_one i w n j s)
| rs_sub s i w n : at_pc s i (Sub w n) → ring_step s (drain_sub i w n s)
| rs_kwake s i : at_pc s i KWake → ring_step s (ring_waiter_exchange i KNotify KBusy s)
| rs_knotify s i : at_pc s i KNotify → ring_step s (ring_notify_all i KBusy s)
| rs_kbusy s i e : at_pc s i KBusy → ring_step s (worker_busy i e s)
| rs_kbusy2 s i : at_pc s i KBusy2 → ring_step s (worker_busy_done i s)
| rs_kexit s i : at_pc s i KExit → ring_step s (worker_exit i s)
| rs_kcheck s i : at_pc s i KCheck → ring_step s (worker_check i s)
| rs_kretake s i : at_pc s i KRetake → ring_step s (worker_retake i s)
| rs_kdec s i : at_pc s i KDec → ring_step s (worker_dec_ref i s)
| rs_wtest s i h : at_pc s i (WTest h) → ring_step s (ring_wait_test i h s)
| rs_hcas s i : at_pc s i HCas → ring_step s (help_cas i s)
| rs_hrel s i : at_pc s i HRel → ring_step s (help_release i s)
| rs_hcheck s i : at_pc s i HCheck → ring_step s (help_check i s)
| rs_hwake s i : at_pc s i HWake → ring_step s (ring_waiter_exchange i HNotify Idle s)
| rs_hnotify s i : at_pc s i HNotify → ring_step s (ring_notify_all i Idle s)
| rs_wbusy s i e : at_pc s i WBusy → ring_step s (ring_wait_busy i e s)
| rs_wloop s i : at_pc s i WLoop → ring_step s (ring_wait_loop i s)
| rs_wset s i : at_pc s i WSet → ring_step s (ring_wait_set i s)
| rs_wcheck s i : at_pc s i WCheck → ring_step s (ring_wait_check i s)
| rs_wfutex s i : at_pc s i WFutex → ring_step s (ring_wait_futex i s)
| rs_wspurious s i : at_pc s i WSleep → ring_step s (go i WXchg s)
| rs_wxchg s i : at_pc s i WXchg → ring_step s (ring_waiter_exchange i WNotify WLoop s)
| rs_wnotify s i : at_pc s i WNotify → ring_step s (ring_notify_all i WLoop s).

(** *** Weights of the program counters *)

(** Holds the token. *)
Definition w_holder (pc : ring_pc) : Z :=
  match pc with
  | FInc _ | FSpawn _ | KStart | Drain _ _ | Run _ _ _ | Sub _ _ | KWake | KNotify | KBusy | KBusy2 | KExit | HRel => 1
  | _ => 0
  end.

(** Has pushed a job that [num] does not count yet. *)
Definition w_inflight (pc : ring_pc) : Z := match pc with SPublish _ _ | SAdd _ => 1 | _ => 0 end.

(** Has taken out jobs that [num] still counts. *)
Definition w_unsub (pc : ring_pc) : Z :=
  match pc with Drain _ n | Sub _ n => Z.of_nat n | Run _ n _ => Z.of_nat n + 1 | _ => 0 end.

Definition w_run (pc : ring_pc) : Z := match pc with Run _ _ _ => 1 | _ => 0 end.

(** Owns the reference of a worker task. *)
Definition w_ref (pc : ring_pc) : Z :=
  match pc with
  | FSpawn _ | KStart | Drain Worker _ | Run Worker _ _ | Sub Worker _ | KWake | KNotify | KBusy | KBusy2 | KExit
  | KCheck | KRetake | KDec => 1
  | _ => 0
  end.

Definition w_sleep (pc : ring_pc) : Z := match pc with WSleep => 1 | _ => 0 end.

Definition w_notify (pc : ring_pc) : Z := match pc with KNotify | HNotify | WNotify => 1 | _ => 0 end.

(** Will see to it that the jobs counted in [num] are drained. *)
Definition w_att (pc : ring_pc) : Z :=
  match pc with
  | STok | FCas _ | HCas | HCheck | KCheck | KRetake | SPublish _ _ | SAdd _ => 1
  | _ => w_holder pc
  end.

(** The worker between finding [num] to be zero and releasing the token. *)
Definition w_post (pc : ring_pc) : Z := match pc with KWake | KNotify | KBusy | KBusy2 | KExit => 1 | _ => 0 end.

(** Will exchange [waiter] if [num] stays zero. *)
Definition w_k1 (pc : ring_pc) : Z :=
  match pc with
  | FInc _ | FSpawn _ | KStart | Drain _ _ | Run _ _ _ | Sub _ _ | KWake | HRel | HCheck | HWake | WCheck | WXchg => 1
  | _ => 0
  end.

(** Will start a worker unless the token is held. *)
Definition w_k2 (pc : ring_pc) : Z := match pc with STok | FCas _ => 1 | _ => 0 end.

(** *** The invariant *)

Record ring_inv (s : job_ring) : Prop := {
  ri_token : jr_token s = wsum w_holder (jr_threads s) ∧ jr_token s <= 1;
  ri_num : jr_num s = u64 (jr_added s - jr_subbed s);
  ri_added : Z.of_nat (length (jr_log s)) = jr_added s + wsum w_inflight (jr_threads s);
  ri_subbed : Z.of_nat (length (jr_log s)) = Z.of_nat (length (jr_q s)) + wsum w_unsub (jr_threads s) + jr_subbed s;
  ri_pos : 0 <= jr_added s ∧ 0 <= jr_subbed s;
  ri_ref : jr_ref s = 1 + wsum w_ref (jr_threads s);
  ri_waiter : jr_waiter s = 0 ∨ jr_waiter s = 1;
  ri_sleep : 0 < wsum w_sleep (jr_threads s) → jr_waiter s = 1 ∨ 0 < wsum w_notify (jr_threads s);
}.

(** What a thread's move does to a sum. *)
Lemma wsum_go w i pc pc' s : at_pc s i pc → wsum w (jr_threads (go i pc' s)) = wsum w (jr_threads s) - w pc + w pc'.
Proof. apply wsum_insert. Qed.

Lemma wsum_wake w l : (∀ pc, w (ring_wake pc) = w pc) → wsum w (ring_wake <$> l) = wsum w l.
Proof. intros Hw. rewrite wsum_fmap. by apply wsum_ext. Qed.

Lemma wake_lookup s i pc : at_pc s i pc → ring_wake pc = pc → (ring_wake <$> jr_threads s) !! i = Some pc.
Proof. intros Hi Hw. rewrite list_lookup_fmap. unfold at_pc in Hi. rewrite Hi. simpl. by rewrite Hw. Qed.

Lemma wsum_sleep_wake l : wsum w_sleep (ring_wake <$> l) = 0.
Proof. apply wsum_zero. intros pc (pc' & -> & _)%list_elem_of_fmap. by destruct pc'. Qed.

(** Unfolds the operations and splits their conditions. *)
Create HintDb ring.
#[local] Hint Unfold submit_push submit_push_fail submit_publish submit_add submit_token flush_cas flush_inc_ref flush_submit
  drain_pop run_one drain_sub worker_start ring_waiter_exchange worker_busy worker_busy_done worker_exit worker_check worker_retake
  worker_dec_ref ring_wait_test help_cas help_release help_check ring_wait_busy ring_wait_loop ring_wait_set ring_wait_check ring_wait_futex all_done flush_after : ring.

Ltac ring_cases :=
  autounfold with ring;
  repeat match goal with
  | |- context [decide ?P] => destruct (decide P)
  | |- context [bool_decide ?P] => destruct (bool_decide_reflect P)
  | |- context [if ?b then _ else _] => is_var b; destruct b
  | |- context [negb ?b] => is_var b; destruct b
  | |- context [match ?x with _ => _ end] => is_var x; destruct x
  end; simpl.

(** Replaces the sums after a move by the sums before it. *)
Ltac by_weights Hi := simpl; rewrite ?wsum_app, ?length_app, ?length_insert, ?(wsum_insert _ _ _ _ _ Hi); simpl; try done; try lia.

Lemma w_holder_nonneg x : 0 <= w_holder x.
Proof. destruct x; simpl; lia. Qed.

Lemma w_notify_nonneg x : 0 <= w_notify x.
Proof. destruct x; simpl; lia. Qed.

Lemma notify_inv i pc next s :
  ring_inv s → at_pc s i pc → ring_wake pc = pc → w_notify pc = 1 → w_sleep pc = 0 →
  w_holder next = w_holder pc → w_inflight next = w_inflight pc → w_unsub next = w_unsub pc →
  w_ref next = w_ref pc → w_sleep next = 0 → ring_inv (ring_notify_all i next s).
Proof.
  intros [I1 I2 I3 I4 I5 I6 I7 I8] Hi Hw En Es E1 E2 E3 E4 E5.
  pose proof (wake_lookup s i pc Hi Hw) as Hi'.
  assert (∀ w, (∀ x, w (ring_wake x) = w x) → w next = w pc → wsum w (<[i := next]> (ring_wake <$> jr_threads s)) = wsum w (jr_threads s)) as Hs.
  { intros w Hw' E. rewrite (wsum_insert _ _ _ _ _ Hi'), wsum_wake by done. lia. }
  assert (wsum w_sleep (<[i := next]> (ring_wake <$> jr_threads s)) = 0) as Hz.
  { rewrite (wsum_insert _ _ _ _ _ Hi'), wsum_sleep_wake. lia. }
  split; simpl; rewrite ?Hz, ?(Hs w_holder), ?(Hs w_inflight), ?(Hs w_unsub), ?(Hs w_ref) by (done || by intros []); try done; lia.
Qed.

Lemma drain_pop_inv i w n s : ring_inv s → at_pc s i (Drain w n) → ring_inv (drain_pop i w n s).
Proof.
  intros [I1 I2 I3 I4 I5 I6 I7 I8] Hi. unfold drain_pop.
  destruct (jr_q s) as [|[j []] q] eqn:Eq; simpl in I4; destruct w; split; by_weights Hi; by rewrite ?Eq; simpl; lia.
Qed.

Lemma ring_step_inv s s' : ring_step s s' → ring_inv s → ring_inv s'.
Proof.
  intros Hst HI. pose proof HI as [I1 I2 I3 I4 I5 I6 I7 I8].
  destruct Hst as [s i pc Hi Hc|s i r j b Hi|s i r j Hi|s i k j Hi|s i j Hi|s i Hi|s i r Hi|s i r Hi|s i r Hi|s i Hi|s i w n Hi|s i w n j Hi
    |s i w n Hi|s i Hi|s i Hi|s i e Hi|s i Hi|s i Hi|s i Hi|s i Hi|s i Hi|s i h Hi|s i Hi|s i Hi|s i Hi|s i Hi|s i Hi|s i e Hi|s i Hi|s i Hi
    |s i Hi|s i Hi|s i Hi|s i Hi|s i Hi].
  all: try (by eapply notify_inv); try (by apply drain_pop_inv).
  all: pose proof (wsum_elem w_holder _ i _ w_holder_nonneg Hi) as Hh; simpl in Hh; pose proof (wsum_nonneg w_notify (jr_threads s) w_notify_nonneg).
  all: try (destruct Hc); ring_cases.
  all: split; by_weights Hi.
  all: rewrite I2, ?u64_add_l, ?u64_sub_l; f_equal; lia.
Qed.

(** *** The order of the jobs *)

Record order_inv (s : job_ring) : Prop := {
  oi_log : jr_log s = jr_started s ++ (jr_q s).*1;
  oi_run : ∀ i w n j, at_pc s i (Run w n j) → jr_started s = jr_done s ++ [j];
  oi_idle : wsum w_run (jr_threads s) = 0 → jr_started s = jr_done s;
  oi_publish : ∀ i k j, at_pc s i (SPublish k j) →
    (length (jr_started s) <= k)%nat ∧ jr_q s !! (k - length (jr_started s))%nat = Some (j, false);
  oi_unique : ∀ i i' k j j', at_pc s i (SPublish k j) → at_pc s i' (SPublish k j') → i = i';
}.

(** The program counters the order of the jobs depends on. *)
Definition orderly (pc : ring_pc) : bool := match pc with Run _ _ _ | SPublish _ _ => false | _ => true end.

Lemma at_go s i pc i' q : at_pc (go i pc s) i' q → i' = i ∧ q = pc ∨ i' ≠ i ∧ at_pc s i' q.
Proof. unfold at_pc, go. simpl. rewrite list_lookup_insert_Some. intros [(-> & -> & _)|[??]]; auto. Qed.

(** Threads that are not running or publishing may appear, move and vanish. *)
Lemma order_inv_frame s s' :
  jr_log s' = jr_log s → jr_started s' = jr_started s → jr_done s' = jr_done s → jr_q s' = jr_q s →
  (∀ i pc, at_pc s' i pc → orderly pc = true ∨ at_pc s i pc) → wsum w_run (jr_threads s') = wsum w_run (jr_threads s) →
  order_inv s → order_inv s'.
Proof.
  intros E1 E2 E3 E4 Hat E5 [O1 O2 O3 O4 O5]. split; rewrite ?E1, ?E2, ?E3, ?E4, ?E5; try done.
  - intros i w n j [Hd|Hi]%Hat; [done|eauto].
  - intros i k j [Hd|Hi]%Hat; [done|eauto].
  - intros i i' k j j' [Hd|Hi]%Hat [Hd'|Hi']%Hat; [done..|eauto].
Qed.

Lemma order_inv_go s s' i pc pc' :
  order_inv s → at_pc s i pc → jr_threads s' = jr_threads (go i pc' s) → orderly pc' = true → w_run pc = 0 →
  jr_log s' = jr_log s → jr_started s' = jr_started s → jr_done s' = jr_done s → jr_q s' = jr_q s → order_inv s'.
Proof.
  intros HO Hi Et Ho Hr E1 E2 E3 E4. eapply order_inv_frame; [done..| | |exact HO].
  - intros i' q Hq. unfold at_pc in Hq. rewrite Et in Hq. apply at_go in Hq as [[-> ->]|[_ ?]]; auto.
  - rewrite Et. simpl. rewrite (wsum_insert _ _ _ _ _ Hi), Hr. destruct pc'; simpl in *; lia || done.
Qed.

Section order.
Context (s : job_ring) (HI : ring_inv s) (HO : order_inv s).

Lemma push_order i r j b : at_pc s i (SPush r j) → order_inv (submit_push i b j s).
Proof using HO.
  intros Hi. destruct HO as [O1 O2 O3 O4 O5]. unfold submit_push.
  assert (length (jr_log s) = length (jr_started s) + length (jr_q s))%nat as Hl by (rewrite O1, length_app, length_fmap; done).
  assert (Hb : ∀ i' k j', at_pc s i' (SPublish k j') → (k < length (jr_log s))%nat).
  { intros i' k j' Hk. destruct (O4 _ _ _ Hk) as [? Hq%lookup_lt_Some]. lia. }
  split; simpl.
  - by rewrite fmap_app, O1, (assoc_L (++)).
  - intros i' w n j' [[-> E]|[_ Hq]]%at_go; [by destruct b|eauto].
  - rewrite (wsum_insert _ _ _ _ _ Hi). simpl. intros E. apply O3. destruct b; simpl in E; lia.
  - intros i' k j' [[-> E]|[_ Hq]]%at_go.
    + destruct b; simplify_eq. split; [lia|]. apply list_lookup_middle. lia.
    + destruct (O4 _ _ _ Hq). split; [done|]. by apply lookup_app_l_Some.
  - intros i1 i2 k j1 j2 [[-> E]|[? Hq]]%at_go [[-> E']|[? Hq']]%at_go; [done|..|eauto];
      destruct b; simplify_eq.
    + apply Hb in Hq'. lia.
    + apply Hb in Hq. lia.
Qed.

Lemma publish_order i k j : at_pc s i (SPublish k j) → order_inv (submit_publish i k j s).
Proof using HO.
  intros Hi. destruct HO as [O1 O2 O3 O4 O5]. destruct (O4 _ _ _ Hi) as [Hk Hq]. unfold submit_publish. split; simpl.
  - rewrite list_fmap_insert. rewrite list_insert_id; [done|]. rewrite list_lookup_fmap, Hq. done.
  - intros i' w n j' [[-> E]|[_ ?]]%at_go; [done|eauto].
  - rewrite (wsum_insert _ _ _ _ _ Hi). simpl. intros E. apply O3. lia.
  - intros i' k' j' [[-> E]|[Hne Hi']]%at_go; [done|]. destruct (O4 _ _ _ Hi') as [Hk' Hq']. split; [done|].
    rewrite list_lookup_insert_ne; [done|]. intros E. apply Hne. replace k' with k in Hi' by lia. eauto.
  - intros i1 i2 k' j1 j2 [[-> E]|[? ?]]%at_go [[-> E']|[? ?]]%at_go; [done..|eauto].
Qed.

Lemma no_other_run i pc : at_pc s i pc → w_holder pc = 1 → w_run pc = 0 → wsum w_run (jr_threads s) = 0.
Proof using HI.
  intros Hi Hh Hr. destruct (ri_token _ HI) as [Ht Ht'].
  assert (∀ y, w_run y <= w_holder y) as Hle by (intros []; simpl; lia).
  pose proof (wsum_le_at w_run w_holder _ _ _ Hle Hi).
  pose proof (wsum_nonneg w_run (jr_threads s) ltac:(intros []; simpl; lia)). lia.
Qed.

Lemma drain_order i w n : at_pc s i (Drain w n) → order_inv (drain_pop i w n s).
Proof using HI HO.
  intros Hi. unfold drain_pop. pose proof (no_other_run _ _ Hi eq_refl eq_refl) as Hn.
  destruct (jr_q s) as [|[j []] q] eqn:Eq; [by eapply order_inv_go| |by eapply order_inv_go].
  destruct HO as [O1 O2 O3 O4 O5]. rewrite Eq in *. split; simpl.
  - rewrite O1. simpl. by rewrite <-(assoc_L (++)).
  - intros i' w' n' j' [[-> [= -> -> ->]]|[_ Hr]]%at_go; [by rewrite O3|].
    pose proof (wsum_elem w_run _ i' _ ltac:(intros []; simpl; lia) Hr). simpl in *. lia.
  - rewrite (wsum_insert _ _ _ _ _ Hi). simpl. lia.
  - intros i' k j' [[-> E]|[_ Hp]]%at_go; [done|]. destruct (O4 _ _ _ Hp) as [Hk Hq]. rewrite length_app. simpl.
    destruct (k - length (jr_started s))%nat as [|m] eqn:Em; [done|]. split; [lia|].
    replace (k - (length (jr_started s) + 1))%nat with m by lia. done.
  - intros i1 i2 k' j1 j2 [[-> E]|[? ?]]%at_go [[-> E']|[? ?]]%at_go; [done..|eauto].
Qed.

Lemma run_one_order i w n j : at_pc s i (Run w n j) → order_inv (run_one i w n j s).
Proof using HI HO.
  intros Hi. destruct HO as [O1 O2 O3 O4 O5]. unfold run_one. split; simpl; try done.
  - intros i' w' n' j' [[-> E]|[Hne Hr]]%at_go; [done|]. exfalso. destruct (ri_token _ HI) as [Ht Ht'].
    assert (Hi2 : jr_threads (go i Idle s) !! i' = Some (Run w' n' j')) by (unfold go; simpl; by rewrite list_lookup_insert_ne).
    pose proof (wsum_elem w_holder _ i' _ w_holder_nonneg Hi2) as Hw. rewrite (wsum_go _ _ _ _ _ Hi) in Hw. simpl in Hw. lia.
  - intros _. eauto.
  - intros i' k' j' [[-> E]|[_ ?]]%at_go; [done|eauto].
  - intros i1 i2 k' j1 j2 [[-> E]|[? ?]]%at_go [[-> E']|[? ?]]%at_go; [done..|eauto].
Qed.
End order.

Lemma notify_order i pc next s : at_pc s i pc → w_run pc = 0 → w_run next = 0 → orderly next = true → ring_wake pc = pc → order_inv s → order_inv (ring_notify_all i next s).
Proof.
  intros Hi Hr Hn Ho Hw. pose proof (wake_lookup s i pc Hi Hw) as Hi'.
  apply order_inv_frame; try done.
  - intros i' q [[-> ->]|[_ Hq]]%at_go; [by left|]. unfold at_pc in Hq. simpl in Hq. rewrite list_lookup_fmap in Hq.
    destruct (jr_threads s !! i') as [q'|] eqn:E; simplify_eq/=. destruct q'; simpl; auto.
  - simpl. rewrite (wsum_insert _ _ _ _ _ Hi'), wsum_wake by (by intros []). lia.
Qed.

Lemma spawn_order i r s : at_pc s i (FSpawn r) → order_inv s → order_inv (flush_submit i r s).
Proof.
  intros Hi. apply order_inv_frame; try done.
  - intros i' q Hq. unfold at_pc in Hq. simpl in Hq. apply lookup_app_Some in Hq as [Hq|[_ Hq]].
    + apply (at_go s) in Hq as [[-> ->]|[_ ?]]; [left; by destruct r|by right].
    + apply list_lookup_singleton_Some in Hq as [_ <-]. by left.
  - simpl. rewrite wsum_app, (wsum_insert _ _ _ _ _ Hi). destruct r; simpl; lia.
Qed.

Lemma ring_step_order s s' : ring_step s s' → ring_inv s → order_inv s → order_inv s'.
Proof.
  intros Hst HI HO.
  destruct Hst; eauto using push_order, publish_order, drain_order, run_one_order, spawn_order;
    try (by eapply notify_order);
    try (match goal with Hc : ring_call _ |- _ => destruct Hc end); ring_cases; by eapply order_inv_go.
Qed.

(** *** Progress without a threshold *)

(** Whoever finds jobs or sleepers sees to them:
    - while [num] is not zero some thread will drain the queue or make another do it;
    - the worker leaves its loop only with [num] not below zero;
    - while [num] is zero and [waiter] set, some thread will exchange [waiter],
      or start a worker that will. *)
Record live_inv (s : job_ring) : Prop := {
  li_att : jr_added s ≠ jr_subbed s → 0 < wsum w_att (jr_threads s);
  li_post : 0 < wsum w_post (jr_threads s) → jr_subbed s <= jr_added s;
  li_wake : jr_waiter s = 1 → jr_added s = jr_subbed s →
    0 < wsum w_k1 (jr_threads s) ∨ 0 < wsum w_k2 (jr_threads s) ∧ wsum w_post (jr_threads s) = 0;
}.

(** Fewer than 2^63 jobs were pushed. *)
Definition few_jobs (s : job_ring) : Prop := Z.of_nat (length (jr_log s)) < 2 ^ 63.

Ltac weight := intros []; simpl; try lia; repeat case_match; simpl; lia.

Lemma num_exact s n : ring_inv s → few_jobs s → 0 <= n < 2 ^ 63 → jr_num s = n ↔ jr_added s - jr_subbed s = n.
Proof.
  intros [I1 I2 I3 I4 I5 I6 I7 I8] Hf Hn. unfold few_jobs in Hf.
  pose proof (wsum_nonneg w_inflight (jr_threads s) ltac:(weight)).
  pose proof (wsum_nonneg w_unsub (jr_threads s) ltac:(weight)).
  rewrite I2. unfold u64, uw. split; [|intros ->; apply Z.mod_small; lia].
  pose proof (Z.div_mod (jr_added s - jr_subbed s) (2 ^ 64) ltac:(lia)).
  pose proof (Z.mod_pos_bound (jr_added s - jr_subbed s) (2 ^ 64) ltac:(lia)). nia.
Qed.

Lemma num_zero s : ring_inv s → few_jobs s → jr_num s = 0 ↔ jr_added s = jr_subbed s.
Proof. intros HI Hf. rewrite (num_exact s 0 HI Hf) by lia. lia. Qed.

Lemma drained_small s i w n : ring_inv s → few_jobs s → at_pc s i (Sub w n) → Z.of_nat n < 2 ^ 63.
Proof.
  intros HI Hf Hi. pose proof (wsum_elem w_unsub _ i _ ltac:(weight) Hi). pose proof (ri_subbed _ HI). pose proof (ri_pos _ HI).
  unfold few_jobs in Hf. simpl in *. lia.
Qed.

Lemma holder_split l : wsum w_holder l <= wsum w_k1 l + wsum w_post l.
Proof. induction l as [|pc l IH]; simpl; [lia|]. destruct pc; simpl; lia. Qed.

(** The sums that the progress argument relates. *)
Lemma weights s :
  ring_inv s →
  wsum w_holder (jr_threads s) <= wsum w_att (jr_threads s) ∧
  jr_token s <= wsum w_k1 (jr_threads s) + wsum w_post (jr_threads s) ∧
  0 <= wsum w_post (jr_threads s) <= jr_token s ∧ 0 <= wsum w_k1 (jr_threads s) ∧ 0 <= wsum w_k2 (jr_threads s).
Proof.
  intros [[-> _] _]. split_and!; try (apply wsum_nonneg; weight); try (apply wsum_le; weight).
  apply holder_split.
Qed.

Lemma holder_att x : w_holder x <= w_att x.
Proof. destruct x; simpl; lia. Qed.

Lemma post_excl s i pc : ring_inv s → at_pc s i pc → w_holder pc = 1 → w_post pc = 0 → wsum w_post (jr_threads s) = 0.
Proof.
  intros HI Hi Hh Hp. destruct (ri_token _ HI) as [Ht Ht'].
  pose proof (wsum_le_at w_post w_holder _ _ _ ltac:(weight) Hi). pose proof (weights s HI). lia.
Qed.

Lemma notify_live i pc next s :
  at_pc s i pc → ring_wake pc = pc → w_att next = w_att pc → w_post next = w_post pc → w_k1 pc = 0 → w_k1 next = 0 → w_k2 next = w_k2 pc →
  live_inv s → live_inv (ring_notify_all i next s).
Proof.
  intros Hi Hw E1 E2 E3 E3' E4 [L1 L2 L3].
  pose proof (wake_lookup s i pc Hi Hw) as Hi'.
  assert (wsum w_k1 (jr_threads s) <= wsum w_k1 (ring_wake <$> jr_threads s)) by (rewrite wsum_fmap; apply wsum_le; intros []; simpl; lia).
  split; simpl; rewrite !(wsum_insert _ _ _ _ _ Hi'), ?(wsum_wake w_att), ?(wsum_wake w_post), ?(wsum_wake w_k2) by (by intros []); lia.
Qed.

Lemma ring_step_live s s' :
  ring_step s s' → ra_threshold (jr_attr s) = 0 → ring_inv s → few_jobs s → live_inv s → live_inv s'.
Proof.
  intros Hst Hth HI Hf HL. pose proof (num_zero s HI Hf) as Hz. pose proof (weights s HI) as Hw.
  pose proof HI as [I1 I2 _ _ _ _ _ _]. pose proof HL as [L1 L2 L3].
  assert (0 <= jr_num s) by (rewrite I2; apply uw_range; lia).
  destruct Hst as [s i pc Hi Hc|s i r j b Hi|s i r j Hi|s i k j Hi|s i j Hi|s i Hi|s i r Hi|s i r Hi|s i r Hi|s i Hi|s i w n Hi|s i w n j Hi
    |s i w n Hi|s i Hi|s i Hi|s i e Hi|s i Hi|s i Hi|s i Hi|s i Hi|s i Hi|s i h Hi|s i Hi|s i Hi|s i Hi|s i Hi|s i Hi|s i e Hi|s i Hi|s i Hi
    |s i Hi|s i Hi|s i Hi|s i Hi|s i Hi].
  all: try (by eapply notify_live).
  all: try pose proof (num_exact s (Z.of_nat n) HI Hf (conj (Nat2Z.is_nonneg n) (drained_small _ _ _ _ HI Hf Hi))) as Hn.
  all: pose proof (wsum_elem w_holder _ i _ w_holder_nonneg Hi) as Hh; simpl in Hh.
  all: pose proof (wsum_le_at w_holder w_att _ _ _ holder_att Hi) as Ha; simpl in Ha.
  all: try pose proof (post_excl s i _ HI Hi eq_refl eq_refl).
  all: try (destruct Hc); ring_cases; try match goal with |- context [match jr_q ?x with _ => _ end] => destruct (jr_q x) as [|[? []] ?] end.
  all: split; by_weights Hi.
Qed.

(** A run of the ring keeps the attributes, and its jobs only grow in number. *)
Lemma ring_step_mono s s' : ring_step s s' → jr_attr s' = jr_attr s ∧ (length (jr_log s) <= length (jr_log s'))%nat.
Proof.
  destruct 1; ring_cases; try match goal with |- context [match jr_q ?x with _ => _ end] => destruct (jr_q x) as [|[? []] ?] end;
    simpl; rewrite ?length_app; split; done || lia.
Qed.

Definition ring_ok (attr : job_ring_attr) (s : job_ring) : Prop :=
  jr_attr s = attr ∧ ring_inv s ∧ order_inv s ∧ (ra_threshold attr = 0 → few_jobs s → live_inv s).

Lemma ring_make_ok attr n : ring_ok attr (job_ring_make attr n).
Proof.
  split_and!; [done|..]; split; simpl; rewrite ?wsum_replicate; simpl; try done; try lia.
  - intros i w k j [E _]%lookup_replicate. done.
  - intros i k j [E _]%lookup_replicate. done.
  - intros i i' k j j' [E _]%lookup_replicate. done.
Qed.

Lemma ring_reachable attr n s : rtc ring_step (job_ring_make attr n) s → ring_ok attr s.
Proof.
  apply rtc_invariant; [apply ring_make_ok|]. intros a b (Ha & HI & HO & HL) Hab. destruct (ring_step_mono _ _ Hab) as [E Hm].
  split_and!; [congruence|by eapply ring_step_inv|by eapply ring_step_order|]. intros Hth Hf.
  assert (few_jobs a) by (unfold few_jobs in *; lia). eapply ring_step_live; eauto. by rewrite Ha.
Qed.

(** *** Theorems *)

(** C22: The jobs of a ring run once each, one at a time and in the order in
    which they were pushed: under every interleaving at most one thread holds
    the token, the jobs run so far are a prefix of the jobs pushed, and what
    follows it is the job running, if any, and then the queue. *)
Theorem ring_runs_in_order attr n s :
  rtc ring_step (job_ring_make attr n) s →
  (jr_token s = 0 ∨ jr_token s = 1) ∧ jr_token s = wsum w_holder (jr_threads s) ∧
  (∀ i w m j, at_pc s i (Run w m j) → jr_log s = jr_done s ++ [j] ++ (jr_q s).*1) ∧
  (wsum w_run (jr_threads s) = 0 → jr_log s = jr_done s ++ (jr_q s).*1).
Proof.
  intros (_ & HI & HO & _)%ring_reachable. destruct (ri_token _ HI) as [Ht Ht'].
  pose proof (wsum_nonneg w_holder (jr_threads s) w_holder_nonneg). split_and!; [lia|done|..].
  - intros i w m j Hi. rewrite (oi_log _ HO), (oi_run _ HO _ _ _ _ Hi). by rewrite <-(assoc_L (++)).
  - intros Hr. by rewrite (oi_log _ HO), (oi_idle _ HO Hr).
Qed.

(** What a return of [wait] means.  A thread that reads [num] as zero
    knows that no more jobs are pending than there are calls of [submit] that
    have pushed and not yet counted their job; when there is no such call, every
    job pushed so far has been run. *)
Theorem ring_wait_sound attr n s :
  rtc ring_step (job_ring_make attr n) s → few_jobs s → jr_num s = 0 →
  Z.of_nat (length (jr_q s)) + wsum w_unsub (jr_threads s) = wsum w_inflight (jr_threads s) ∧
  (wsum w_inflight (jr_threads s) = 0 → jr_q s = [] ∧ jr_done s = jr_log s).
Proof.
  intros (_ & HI & HO & _)%ring_reachable Hf Hz. apply (num_zero s HI Hf) in Hz.
  pose proof (ri_added _ HI). pose proof (ri_subbed _ HI). pose proof (wsum_nonneg w_unsub (jr_threads s) ltac:(weight)).
  pose proof (wsum_le w_run w_unsub (jr_threads s) ltac:(weight)). pose proof (wsum_nonneg w_run (jr_threads s) ltac:(weight)).
  split; [lia|]. intros Hn. assert (jr_q s = []) as Hq by (apply length_zero_iff_nil; lia). split; [done|].
  rewrite (oi_log _ HO), Hq, (oi_idle _ HO) by lia. by rewrite app_nil_r.
Qed.

(** Outside every call, at the end of a worker, or asleep in [wait]. *)
Definition parked (pc : ring_pc) : bool := match pc with Idle | KDone | WSleep => true | _ => false end.

(** C21: A ring without a threshold never gets stuck: when no thread has anything
    left to do, all jobs have been run, nobody is asleep in [wait], the token is
    free and the workers have given back their references. *)
Theorem ring_never_stuck attr n s :
  ra_threshold attr = 0 → rtc ring_step (job_ring_make attr n) s → few_jobs s →
  (∀ i pc, at_pc s i pc → parked pc = true) →
  jr_q s = [] ∧ jr_done s = jr_log s ∧ jr_num s = 0 ∧ jr_token s = 0 ∧ jr_ref s = 1 ∧ ∀ i, ¬ at_pc s i WSleep.
Proof.
  intros Hth (_ & HI & HO & HL)%ring_reachable Hf Hp. specialize (HL Hth Hf).
  assert (Hz : ∀ w, w Idle = 0 → w KDone = 0 → w WSleep = 0 → wsum w (jr_threads s) = 0).
  { intros w ???. apply wsum_zero. intros pc [i Hi]%list_elem_of_lookup. specialize (Hp i pc Hi). by destruct pc. }
  pose proof (li_att _ HL) as La. rewrite Hz in La by done. assert (jr_added s = jr_subbed s) as E by lia.
  pose proof (ri_added _ HI) as Ia. pose proof (ri_subbed _ HI) as Is. rewrite Hz in Ia, Is by done.
  assert (jr_q s = []) as Hq by (apply length_zero_iff_nil; lia).
  split_and!; [done|..].
  - rewrite (oi_log _ HO), Hq, (oi_idle _ HO) by (by apply Hz). by rewrite app_nil_r.
  - by apply num_zero.
  - destruct (ri_token _ HI) as [-> _]. by apply Hz.
  - rewrite (ri_ref _ HI), Hz by done. lia.
  - intros i Hi. pose proof (wsum_elem w_sleep _ i _ ltac:(weight) Hi) as Hs. simpl in Hs.
    destruct (ri_sleep _ HI ltac:(lia)) as [Hw|Hn]; [|rewrite Hz in Hn by done; lia].
    destruct (li_wake _ HL Hw E) as [Hk|[Hk _]]; rewrite Hz in Hk by done; lia.
Qed.

(** *** Runs *)

Definition no_threshold : job_ring_attr := mk_attr 3 0 0.

Definition run (attr : job_ring_attr) (n : nat) (ops : list (job_ring → job_ring)) : job_ring :=
  foldl (λ s f, f s) (job_ring_make attr n) ops.

(** [flush] by thread [i], which starts a worker. *)
Definition run_flush (i : nat) : list (job_ring → job_ring) := [flush_cas i RetCall; flush_inc_ref i RetCall; flush_submit i RetCall].

(** A job submitted, run by a worker, and waited for. *)
Definition ring_demo : job_ring := run no_threshold 1
  ([go 0 (SPush true 1); submit_push 0 false 1; submit_publish 0 0 1; submit_add 0; submit_token 0] ++ run_flush 0 ++
   [worker_start 1; drain_pop 1 Worker 0; run_one 1 Worker 0 1; drain_pop 1 Worker 1; drain_sub 1 Worker 1;
    ring_waiter_exchange 1 KNotify KBusy; worker_busy 1 true; worker_exit 1; worker_check 1; worker_dec_ref 1]).

Lemma ring_demo_reachable : rtc ring_step (job_ring_make no_threshold 1) ring_demo.
Proof.
  run_step (λ s H, rs_call s 0 _ H (call_submit 1)). run_step (rs_push _ 0 true 1 false). run_step (rs_publish _ 0 0 1).
  run_step (rs_add _ 0 1). run_step (rs_tok _ 0). run_step (rs_fcas _ 0 RetCall). run_step (rs_finc _ 0 RetCall). run_step (rs_fspawn _ 0 RetCall).
  run_step (rs_start _ 1). run_step (rs_drain _ 1 Worker 0). run_step (rs_run _ 1 Worker 0 1). run_step (rs_drain _ 1 Worker 1).
  run_step (rs_sub _ 1 Worker 1). run_step (rs_kwake _ 1). run_step (rs_kbusy _ 1 true). run_step (rs_kexit _ 1).
  run_step (rs_kcheck _ 1). run_step (rs_kdec _ 1). apply rtc_refl.
Qed.

Lemma ring_runs_in_order_witness : jr_log ring_demo = jr_done ring_demo ++ (jr_q ring_demo).*1.
Proof. apply (ring_runs_in_order no_threshold 1 ring_demo ring_demo_reachable). reflexivity. Defined.

Lemma ring_wait_sound_witness : jr_done ring_demo = [1%positive] ∧ jr_done ring_demo = jr_log ring_demo.
Proof.
  split; [reflexivity|]. apply (ring_wait_sound no_threshold 1 ring_demo ring_demo_reachable); [vm_compute; reflexivity|reflexivity..].
Defined.

Lemma ring_never_stuck_witness : jr_threads ring_demo = [Idle; KDone] ∧ jr_ref ring_demo = 1.
Proof.
  split; [reflexivity|]. apply (ring_never_stuck no_threshold 1 ring_demo eq_refl ring_demo_reachable); [vm_compute; reflexivity|].
  intros [|[|i]] pc Hi; vm_compute in Hi; simplify_eq; done.
Defined.

(** Thread 1 has pushed job 2 and not counted it; the worker takes it out; thread
    0 submits job 1 and calls [wait]. *)
Definition early_demo : job_ring := run no_threshold 2
  ([go 1 (SPush true 2); submit_push 1 false 2; submit_publish 1 0 2; go 0 (FCas RetCall)] ++ run_flush 0 ++
   [worker_start 2; drain_pop 2 Worker 0; run_one 2 Worker 0 2; drain_pop 2 Worker 1;
    go 0 (SPush true 1); submit_push 0 false 1; submit_publish 0 1 1; submit_add 0; submit_token 0; drain_sub 2 Worker 1; go 0 (WTest true)]).

Lemma early_demo_reachable : rtc ring_step (job_ring_make no_threshold 2) early_demo.
Proof.
  run_step (λ s H, rs_call s 1 _ H (call_submit 2)). run_step (rs_push _ 1 true 2 false). run_step (rs_publish _ 1 0 2).
  run_step (λ s H, rs_call s 0 _ H call_flush).
  run_step (rs_fcas _ 0 RetCall). run_step (rs_finc _ 0 RetCall). run_step (rs_fspawn _ 0 RetCall).
  run_step (rs_start _ 2). run_step (rs_drain _ 2 Worker 0). run_step (rs_run _ 2 Worker 0 2). run_step (rs_drain _ 2 Worker 1).
  run_step (λ s H, rs_call s 0 _ H (call_submit 1)). run_step (rs_push _ 0 true 1 false). run_step (rs_publish _ 0 1 1).
  run_step (rs_add _ 0 1). run_step (rs_tok _ 0). run_step (rs_sub _ 2 Worker 1). run_step (λ s H, rs_call s 0 _ H (call_wait true)). apply rtc_refl.
Qed.

(** With two producers [wait] can return before a job its own caller has
    submitted is run: the job of another call, already run and not yet counted,
    is subtracted from [num] in its place. *)
Theorem ring_wait_early :
  ∃ s, rtc ring_step (job_ring_make no_threshold 2) s ∧ at_pc s 0 (WTest true) ∧ at_pc (ring_wait_test 0 true s) 0 Idle ∧
    at_pc s 1 (SAdd 2) ∧ jr_log s = [2%positive; 1%positive] ∧ jr_done s = [2%positive] ∧ jr_q s = [(1%positive, true)].
Proof. exists early_demo. split; [exact early_demo_reachable|]. vm_compute. split_and!; reflexivity. Qed.

Definition threshold_one : job_ring_attr := mk_attr 3 1 0.

(** Jobs 1 and 2 start a worker, for which thread 1 waits asleep; after the worker
    has woken it and ended, job 3 is submitted, below the threshold. *)
Definition stuck_demo : job_ring := run threshold_one 2
  ([go 0 (SPush true 1); submit_push 0 true 1; submit_add 0; go 0 (SPush true 2); submit_push 0 true 2; submit_add 0; submit_token 0] ++
   run_flush 0 ++
   [go 1 (WTest true); ring_wait_test 1 true; help_cas 1; ring_wait_busy 1 true; ring_wait_loop 1; ring_wait_set 1; ring_wait_check 1; ring_wait_futex 1;
    worker_start 2; drain_pop 2 Worker 0; run_one 2 Worker 0 1; drain_pop 2 Worker 1; run_one 2 Worker 1 2; drain_pop 2 Worker 2;
    drain_sub 2 Worker 2; ring_waiter_exchange 2 KNotify KBusy; ring_notify_all 2 KBusy; worker_busy 2 true; worker_exit 2; worker_check 2;
    worker_dec_ref 2; go 0 (SPush true 3); submit_push 0 true 3; submit_add 0;
    ring_waiter_exchange 1 WNotify WLoop; ring_wait_loop 1; ring_wait_set 1; ring_wait_check 1; ring_wait_futex 1]).

Lemma stuck_demo_reachable : rtc ring_step (job_ring_make threshold_one 2) stuck_demo.
Proof.
  run_step (λ s H, rs_call s 0 _ H (call_submit 1)). run_step (rs_push _ 0 true 1 true). run_step (rs_add _ 0 1).
  run_step (λ s H, rs_call s 0 _ H (call_submit 2)). run_step (rs_push _ 0 true 2 true). run_step (rs_add _ 0 2). run_step (rs_tok _ 0).
  run_step (rs_fcas _ 0 RetCall). run_step (rs_finc _ 0 RetCall). run_step (rs_fspawn _ 0 RetCall).
  run_step (λ s H, rs_call s 1 _ H (call_wait true)). run_step (rs_wtest _ 1 true). run_step (rs_hcas _ 1). run_step (rs_wbusy _ 1 true).
  run_step (rs_wloop _ 1). run_step (rs_wset _ 1). run_step (rs_wcheck _ 1). run_step (rs_wfutex _ 1).
  run_step (rs_start _ 2). run_step (rs_drain _ 2 Worker 0). run_step (rs_run _ 2 Worker 0 1). run_step (rs_drain _ 2 Worker 1).
  run_step (rs_run _ 2 Worker 1 2). run_step (rs_drain _ 2 Worker 2). run_step (rs_sub _ 2 Worker 2). run_step (rs_kwake _ 2).
  run_step (rs_knotify _ 2). run_step (rs_kbusy _ 2 true). run_step (rs_kexit _ 2). run_step (rs_kcheck _ 2). run_step (rs_kdec _ 2).
  run_step (λ s H, rs_call s 0 _ H (call_submit 3)). run_step (rs_push _ 0 true 3 true). run_step (rs_add _ 0 3).
  run_step (rs_wxchg _ 1). run_step (rs_wloop _ 1). run_step (rs_wset _ 1). run_step (rs_wcheck _ 1). run_step (rs_wfutex _ 1).
  apply rtc_refl.
Qed.

(** With a threshold the ring can get stuck: no thread has anything left to
    do, one is asleep in [wait], and a job is queued with the token free. *)
Theorem ring_threshold_stuck :
  ∃ s, rtc ring_step (job_ring_make threshold_one 2) s ∧ jr_threads s = [Idle; WSleep; KDone] ∧
    jr_q s = [(3%positive, true)] ∧ jr_token s = 0.
Proof. exists stuck_demo. split; [exact stuck_demo_reachable|]. vm_compute. split_and!; reflexivity. Qed.
End Ring.
