(* ===== verification/JobPromise.v ===== *)
(** * Job promises

    Models [job_promise_obj] of interfaces/kits/cpp/pattern/job_utils.h: a job
    that one of the threads asking for its result, or the thread that was given
    it, runs once, while the others wait for the result.

    Every access to [stat] or [waiter], the call of the job and the futex calls
    are steps of their own.  The job is a parameter: a call may return any value.
    Accesses are sequentially consistent. *)

From S2P Require Import Prelude.

Module Promise.

Abbreviation value := positive.

(** The values of [stat]. *)
Abbreviation pending := 0.
Abbreviation executing := 1.
Abbreviation ready := 2.

(** Which operation runs the job: [try_execute], or [wait] within [get]. *)
Inductive caller := ByTry | ByGet.

(** The template parameters [TryRun] and [BusyWaitUS > 0], and whether [get] was
    given a callback. *)
Record get_opts := mk_opts { o_try_run : bool; o_on_wait : bool; o_busy : bool }.

(** Where a thread is.
    - [XAcquire], [GReady], [GAcquire]: about to acquire the job in
      [try_execute]; in [get], about to test the state; in [wait], about to
      acquire the job;
    - [PCall], [RelTest], [RelStore], [RelXchg], [RelNotify]: owns the job, about
      to call it, and in [release];
    - [GHook], [GHookEnd], [GBusy], [GLoop] to [GNotify]: in the loops of [wait];
    - [GRead]: about to return the result. *)
Inductive promise_pc :=
| PIdle
| XAcquire | GReady (o : get_opts) | GAcquire (o : get_opts)
| PCall (c : caller) | RelTest (c : caller) | RelStore (c : caller) | RelXchg (c : caller) | RelNotify (c : caller)
| GHook (o : get_opts) | GHookEnd (o : get_opts) | GBusy | GLoop | GSet | GCheck | GFutex | GSleep | GXchg | GNotify
| GRead.

(** The promise and the threads using it.  [jp_calls] counts the calls of the
    job, [jp_results] records what [get] returned. *)
Record promise := mk_promise {
  jp_stat : Z;
  jp_blob : option value;
  jp_waiter : Z;
  jp_aborted : bool;
  jp_threads : list promise_pc;
  jp_calls : Z;
  jp_results : list (option value);
}.

#[export] Instance promise_eta : Eta promise := λ s,
  mk_promise (jp_stat s) (jp_blob s) (jp_waiter s) (jp_aborted s) (jp_threads s) (jp_calls s) (jp_results s).

Definition job_promise_obj_ctor (n : nat) : promise := mk_promise pending None 0 false (replicate n PIdle) 0 [].

Definition go (i : nat) (pc : promise_pc) (s : promise) : promise := s <| jp_threads ::= <[i := pc]> |>.

Definition is_ready (s : promise) : bool := bool_decide (jp_stat s = ready).

(** [try_acquire]: to [won] when the job was pending, else to [lost]. *)
Definition try_acquire (i : nat) (won lost : promise_pc) (s : promise) : promise :=
  if decide (jp_stat s = pending) then go i won (s <| jp_stat := executing |>) else go i lost s.

(** [call]: the job returns [v], which is stored. *)
Definition call (i : nat) (c : caller) (v : value) (s : promise) : promise :=
  go i (RelTest c) (s <| jp_blob := Some v |> <| jp_calls ::= λ n, n + 1 |>).

(** *** [release] *)

Definition release_test (i : nat) (c : caller) (s : promise) : promise :=
  if decide (jp_stat s = executing) then go i (RelStore c) s else s <| jp_aborted := true |>.

Definition release_store (i : nat) (c : caller) (s : promise) : promise := go i (RelXchg c) (s <| jp_stat := ready |>).

(** [if (waiter.exchange(0) == 1)] *)
Definition promise_waiter_exchange (i : nat) (then_ else_ : promise_pc) (s : promise) : promise :=
  go i (if decide (jp_waiter s = 1) then then_ else else_) (s <| jp_waiter := 0 |>).

Definition promise_wake (pc : promise_pc) : promise_pc := match pc with GSleep => GXchg | _ => pc end.

Definition promise_notify_all (i : nat) (next : promise_pc) (s : promise) : promise := go i next (s <| jp_threads ::= fmap promise_wake |>).

Definition after_release (c : caller) : promise_pc := match c with ByTry => PIdle | ByGet => GRead end.

(** *** [get] and [wait] *)

Definition get_busy (o : get_opts) : promise_pc := if o_busy o then GBusy else GLoop.

Definition get_wait (o : get_opts) : promise_pc := if o_on_wait o then GHook o else get_busy o.

Definition get_ready (i : nat) (o : get_opts) (s : promise) : promise :=
  go i (if is_ready s then GRead else if o_try_run o then GAcquire o else get_wait o) s.

(** [while (!is_ready() && on_wait())]; [more] is what the callback returns. *)
Definition wait_hook (i : nat) (o : get_opts) (more : bool) (s : promise) : promise :=
  go i (if negb (is_ready s) && more then GHook o else GHookEnd o) s.

Definition wait_hook_end (i : nat) (o : get_opts) (s : promise) : promise := go i (if is_ready s then GRead else get_busy o) s.

(** [expired] says whether the time is over. *)
Definition promise_wait_busy (i : nat) (expired : bool) (s : promise) : promise :=
  go i (if is_ready s then GRead else if expired then GLoop else GBusy) s.

Definition promise_wait_loop (i : nat) (s : promise) : promise := go i (if is_ready s then GRead else GSet) s.

Definition promise_wait_set (i : nat) (s : promise) : promise := go i GCheck (s <| jp_waiter := 1 |>).

Definition promise_wait_check (i : nat) (s : promise) : promise := go i (if is_ready s then GXchg else GFutex) s.

Definition promise_wait_futex (i : nat) (s : promise) : promise := go i (if decide (jp_waiter s = 1) then GSleep else GXchg) s.

(** The value in [blob] is returned. *)
Definition get_return (i : nat) (s : promise) : promise := go i PIdle (s <| jp_results ::= λ l, l ++ [jp_blob s] |>).

(** The destructor destroys the result only when it is ready. *)
Definition destroys_result (s : promise) : bool := is_ready s.

(** *** Steps *)

Definition at_pc (s : promise) (i : nat) (pc : promise_pc) : Prop := jp_threads s !! i = Some pc.

Inductive promise_step : promise → promise → Prop :=
| ps_try s i : at_pc s i PIdle → promise_step s (go i XAcquire s)
| ps_get s i o : at_pc s i PIdle → promise_step s (go i (GReady o) s)
| ps_xacquire s i : at_pc s i XAcquire → promise_step s (try_acquire i (PCall ByTry) PIdle s)
| ps_ready s i o : at_pc s i (GReady o) → promise_step s (get_ready i o s)
| ps_gacquire s i o : at_pc s i (GAcquire o) → promise_step s (try_acquire i (PCall ByGet) (get_wait o) s)
| ps_call s i c v : at_pc s i (PCall c) → promise_step s (call i c v s)
| ps_reltest s i c : at_pc s i (RelTest c) → promise_step s (release_test i c s)
| ps_relstore s i c : at_pc s i (RelStore c) → promise_step s (release_store i c s)
| ps_relxchg s i c : at_pc s i (RelXchg c) → promise_step s (promise_waiter_exchange i (RelNotify c) (after_release c) s)
| ps_relnotify s i c : at_pc s i (RelNotify c) → promise_step s (promise_notify_all i (after_release c) s)
| ps_hook s i o b : at_pc s i (GHook o) → promise_step s (wait_hook i o b s)
| ps_hook_end s i o : at_pc s i (GHookEnd o) → promise_step s (wait_hook_end i o s)
| ps_busy s i e : at_pc s i GBusy → promise_step s (promise_wait_busy i e s)
| ps_loop s i : at_pc s i GLoop → promise_step s (promise_wait_loop i s)
| ps_set s i : at_pc s i GSet → promise_step s (promise_wait_set i s)
| ps_check s i : at_pc s i GCheck → promise_step s (promise_wait_check i s)
| ps_futex s i : at_pc s i GFutex → promise_step s (promise_wait_futex i s)
| ps_spurious s i : at_pc s i GSleep → promise_step s (go i GXchg s)
| ps_xchg s i : at_pc s i GXchg → promise_step s (promise_waiter_exchange i GNotify GLoop s)
| ps_notify s i : at_pc s i GNotify → promise_step s (promise_notify_all i GLoop s)
| ps_read s i : at_pc s i GRead → promise_step s (get_return i s).

(** *** Weights of the program counters *)

(** Owns the job and has not called it; owns it and has; knows it is ready. *)
Definition w_call (pc : promise_pc) : Z := match pc with PCall _ => 1 | _ => 0 end.
Definition w_called (pc : promise_pc) : Z := match pc with RelTest _ | RelStore _ => 1 | _ => 0 end.
Definition w_done (pc : promise_pc) : Z := match pc with RelXchg _ | RelNotify _ | GRead => 1 | _ => 0 end.

Definition w_sleep (pc : promise_pc) : Z := match pc with GSleep => 1 | _ => 0 end.
Definition w_notify (pc : promise_pc) : Z := match pc with RelNotify _ | GNotify => 1 | _ => 0 end.

(** Will exchange [waiter] once the job is ready. *)
Definition w_xchg (pc : promise_pc) : Z := match pc with RelXchg _ | GCheck | GXchg => 1 | _ => 0 end.

(** *** Invariant *)

Record promise_inv (s : promise) : Prop := {
  pi_range : pending <= jp_stat s <= ready;
  pi_stat : wsum w_call (jp_threads s) + wsum w_called (jp_threads s) = Z.b2z (jp_stat s =? executing);
  pi_calls : jp_calls s = wsum w_called (jp_threads s) + Z.b2z (jp_stat s =? ready);
  pi_blob : jp_blob s = None ↔ jp_calls s = 0;
  pi_done : 0 < wsum w_done (jp_threads s) → jp_stat s = ready;
  pi_results : ∀ r, r ∈ jp_results s → jp_stat s = ready ∧ r = jp_blob s;
  pi_abort : jp_aborted s = false;
  pi_sleep : 0 < wsum w_sleep (jp_threads s) → jp_waiter s = 1 ∨ 0 < wsum w_notify (jp_threads s);
  pi_wake : jp_waiter s = 1 → jp_stat s = ready → 0 < wsum w_xchg (jp_threads s);
}.

Ltac weight := intros []; simpl; lia.

Create HintDb promise.
#[local] Hint Unfold try_acquire call release_test release_store promise_waiter_exchange get_ready wait_hook wait_hook_end promise_wait_busy
  promise_wait_loop promise_wait_set promise_wait_check promise_wait_futex get_return is_ready get_wait get_busy after_release : promise.

Ltac promise_cases :=
  autounfold with promise;
  repeat match goal with
  | |- context [decide ?P] => destruct (decide P)
  | |- context [bool_decide ?P] => destruct (bool_decide_reflect P)
  | |- context [o_busy ?o] => destruct (o_busy o)
  | |- context [o_on_wait ?o] => destruct (o_on_wait o)
  | |- context [o_try_run ?o] => destruct (o_try_run o)
  | |- context [if ?b then _ else _] => is_var b; destruct b
  | |- context [match ?x with _ => _ end] => is_var x; destruct x
  end; simpl.

Lemma notify_promise_inv i pc next s :
  promise_inv s → at_pc s i pc → promise_wake pc = pc → w_call next = w_call pc → w_called next = w_called pc → w_xchg next = w_xchg pc →
  w_done next <= w_done pc → w_sleep pc = 0 → w_sleep next = 0 → promise_inv (promise_notify_all i next s).
Proof.
  intros [I0 I1 I2 I3 I4 I5 I6 I7 I8] Hi Hw E1 E2 E3 E4 E5 E6.
  assert (Hi' : (promise_wake <$> jp_threads s) !! i = Some pc) by (rewrite list_lookup_fmap; unfold at_pc in Hi; rewrite Hi; simpl; by rewrite Hw).
  assert (wsum w_sleep (promise_wake <$> jp_threads s) = 0) as Hs by (apply wsum_zero; intros q (q' & -> & _)%list_elem_of_fmap; by destruct q').
  assert (wsum w_xchg (jp_threads s) <= wsum w_xchg (promise_wake <$> jp_threads s)) as Hx by (rewrite wsum_fmap; apply wsum_le; weight).
  assert (∀ w, (∀ x, w (promise_wake x) = w x) → wsum w (promise_wake <$> jp_threads s) = wsum w (jp_threads s)) as Hk.
  { intros w Hw'. rewrite wsum_fmap. by apply wsum_ext. }
  split; simpl; try done; rewrite !(wsum_insert _ _ _ _ _ Hi'), ?Hs, ?(Hk w_call), ?(Hk w_called), ?(Hk w_done) by (by intros []).
  - lia.
  - lia.
  - lia.
  - lia.
  - intros Hwt Hst. specialize (I8 Hwt Hst). lia.
Qed.

Lemma promise_step_inv s s' : promise_step s s' → promise_inv s → promise_inv s'.
Proof.
  intros Hst HI. pose proof HI as [I0 I1 I2 I3 I4 I5 I6 I7 I8].
  pose proof (wsum_nonneg w_call (jp_threads s) ltac:(weight)). pose proof (wsum_nonneg w_called (jp_threads s) ltac:(weight)).
  pose proof (wsum_nonneg w_notify (jp_threads s) ltac:(weight)).
  destruct Hst as [s i Hi|s i o Hi|s i Hi|s i o Hi|s i o Hi|s i c v Hi|s i c Hi|s i c Hi|s i c Hi|s i c Hi|s i o b Hi|s i o Hi|s i e Hi
    |s i Hi|s i Hi|s i Hi|s i Hi|s i Hi|s i Hi|s i Hi|s i Hi].
  all: try (eapply notify_promise_inv; [exact HI|exact Hi|try destruct c; simpl; done || lia..]).
  all: pose proof (wsum_elem w_call _ i _ ltac:(weight) Hi) as Hc; pose proof (wsum_elem w_called _ i _ ltac:(weight) Hi) as Hd;
       pose proof (wsum_elem w_done _ i _ ltac:(weight) Hi) as He; simpl in Hc, Hd, He.
  all: pose proof (wsum_elem w_xchg _ i _ ltac:(weight) Hi) as Hx; simpl in Hx.
  all: promise_cases; try (destruct b); simpl.
  all: split; simpl; rewrite ?(wsum_insert _ _ _ _ _ Hi); simpl; try done; try lia.
  all: destruct (Z.eqb_spec (jp_stat s) executing), (Z.eqb_spec (jp_stat s) ready); simpl in *; try lia.
  all: try (split; [done|lia]).
  all: intros r Hr; rewrite ?elem_of_app, ?list_elem_of_singleton in Hr.
  all: try (destruct (I5 r Hr); lia); try (destruct (I5 r Hr); done).
  destruct Hr as [Hr| ->]; [by apply I5|]. split; [lia|done].
Qed.

Lemma promise_reachable n s : rtc promise_step (job_promise_obj_ctor n) s → promise_inv s.
Proof.
  apply rtc_invariant; [|by eauto using promise_step_inv].
  split; simpl; rewrite ?wsum_replicate; simpl; try done; try lia. by intros r ?%not_elem_of_nil.
Qed.

(** *** Theorems *)

(** C25: A promise's job is called at most once, whoever tries to run it; the
    check of [release] never aborts; and every [get] returns the value of that
    one call. *)
Theorem promise_runs_once n s :
  rtc promise_step (job_promise_obj_ctor n) s →
  jp_calls s <= 1 ∧ jp_aborted s = false ∧
  ∀ r, r ∈ jp_results s → ∃ v, r = Some v ∧ jp_blob s = Some v ∧ jp_calls s = 1.
Proof.
  intros [I0 I1 I2 I3 I4 I5 I6 I7 I8]%promise_reachable.
  pose proof (wsum_nonneg w_call (jp_threads s) ltac:(weight)). pose proof (wsum_nonneg w_called (jp_threads s) ltac:(weight)).
  assert (jp_calls s <= 1) by (destruct (Z.eqb_spec (jp_stat s) executing), (Z.eqb_spec (jp_stat s) ready); simpl in *; lia).
  split_and!; [done..|]. intros r [Hs ->]%I5. rewrite Hs in I2. simpl in I2.
  destruct (jp_blob s) as [v|]; [exists v; split_and!; [done..|lia]|]. assert (jp_calls s = 0) by (by apply I3). lia.
Qed.

(** Outside every call, or asleep in [wait]. *)
Definition parked (pc : promise_pc) : bool := match pc with PIdle | GSleep => true | _ => false end.

(** C24: No thread is left asleep: when no thread has anything left to do, the job
    has never been acquired, or it has been run, nobody is asleep, and the
    destructor destroys the result that was stored. *)
Theorem promise_never_stuck n s :
  rtc promise_step (job_promise_obj_ctor n) s → (∀ i pc, at_pc s i pc → parked pc = true) →
  (jp_stat s = pending ∧ jp_blob s = None ∧ destroys_result s = false) ∨
  (jp_stat s = ready ∧ jp_blob s ≠ None ∧ destroys_result s = true ∧ ∀ i, ¬ at_pc s i GSleep).
Proof.
  intros [I0 I1 I2 I3 I4 I5 I6 I7 I8]%promise_reachable Hp.
  assert (Hz : ∀ w, w PIdle = 0 → w GSleep = 0 → wsum w (jp_threads s) = 0).
  { intros w ??. apply wsum_zero. intros pc [i Hi]%list_elem_of_lookup. specialize (Hp i pc Hi). by destruct pc. }
  rewrite !Hz in I1 by done. rewrite Hz in I2 by done.
  destruct (Z.eqb_spec (jp_stat s) executing) as [|Hx], (Z.eqb_spec (jp_stat s) ready) as [E|Hr]; simpl in *; try lia.
  - right. split_and!; [done|rewrite I3; lia|by apply bool_decide_eq_true|]. intros i Hi.
    pose proof (wsum_elem w_sleep _ i _ ltac:(weight) Hi) as Hs. simpl in Hs.
    destruct (I7 ltac:(lia)) as [Hw|Hn]; [|rewrite Hz in Hn by done; lia].
    specialize (I8 Hw E). rewrite Hz in I8 by done. lia.
  - left. split_and!; [lia|apply I3; lia|by apply bool_decide_eq_false].
Qed.

(** *** A run *)

Definition asleep_opts : get_opts := mk_opts false false false.

(** Thread 0 falls asleep in [get]; thread 1 runs the job and wakes it. *)
Definition promise_demo : promise :=
  foldl (λ s f, f s) (job_promise_obj_ctor 2)
   [go 0 (GReady asleep_opts); get_ready 0 asleep_opts; promise_wait_loop 0; promise_wait_set 0; promise_wait_check 0; promise_wait_futex 0;
    go 1 XAcquire; try_acquire 1 (PCall ByTry) PIdle; call 1 ByTry 9; release_test 1 ByTry; release_store 1 ByTry;
    promise_waiter_exchange 1 (RelNotify ByTry) PIdle; promise_notify_all 1 PIdle;
    promise_waiter_exchange 0 GNotify GLoop; promise_wait_loop 0; get_return 0].

Lemma promise_demo_reachable : rtc promise_step (job_promise_obj_ctor 2) promise_demo.
Proof.
  run_step (ps_get _ 0 asleep_opts). run_step (ps_ready _ 0 asleep_opts). run_step (ps_loop _ 0). run_step (ps_set _ 0).
  run_step (ps_check _ 0). run_step (ps_futex _ 0). run_step (ps_try _ 1). run_step (ps_xacquire _ 1). run_step (ps_call _ 1 ByTry 9).
  run_step (ps_reltest _ 1 ByTry). run_step (ps_relstore _ 1 ByTry). run_step (ps_relxchg _ 1 ByTry). run_step (ps_relnotify _ 1 ByTry).
  run_step (ps_xchg _ 0). run_step (ps_loop _ 0). run_step (ps_read _ 0). apply rtc_refl.
Qed.

Lemma promise_runs_once_witness : jp_results promise_demo = [Some 9%positive] ∧ jp_calls promise_demo <= 1.
Proof. split; [reflexivity|]. apply (promise_runs_once 2 promise_demo promise_demo_reachable). Defined.

Lemma promise_never_stuck_witness :
  (jp_stat promise_demo = pending ∧ jp_blob promise_demo = None ∧ destroys_result promise_demo = false) ∨
  (jp_stat promise_demo = ready ∧ jp_blob promise_demo ≠ None ∧ destroys_result promise_demo = true ∧ ∀ i, ¬ at_pc promise_demo i GSleep).
Proof.
  apply (promise_never_stuck 2 promise_demo promise_demo_reachable).
  intros [|[|i]] pc Hi; vm_compute in Hi; simplify_eq; done.
Defined.
End Promise.
