(* ===== verification/JobPartner.v ===== *)
(** * The job partner

    Models [job_partner] and [job_partner_attr] of
    interfaces/kits/cpp/pattern/job_partner.h with what they use of job_utils.h:
    [runnable_queue], [fiber] and [atomic_wait].  Jobs are pushed to the partner
    queue, which worker tasks of the runtime, threads in [wait] and submitters
    that find the queue full drain; the number of workers follows the length of
    the queue.  A suspendable job is a fiber, which may hand a function over to
    the master thread and is resumed, maybe on another thread, when that is done.

    A thread has a stack of frames, each of them a place in the code where the
    next access happens.  Every access to [partner_num], [job_num], [master_wait]
    or a queue is a step of its own, [size] being two accesses; the attributes
    are read in the step that uses them.  User code is a frame that may call any
    operation any number of times.  A fiber is switched out by moving the frames
    above the one that started it into the fiber.

    The queues are the flagged lists of [LfQueue], whose indices are unbounded.
    [try_push] may fail at any time, and so may [try_pop], since a thread that
    loaded the read index before other threads went through a whole round of the
    queue returns false.  Every partner task is a thread of its own, so that user
    code does not yield the task it runs in.  All fibers of a thread belong to
    one partner.  Accesses are sequentially consistent. *)

From S2P Require Import Prelude LfQueue.

Module Partner.

(** A pointer to a job: the number of the job in the order of submission. *)
Abbreviation job := nat.

(** ** Attributes *)

Record job_partner_attr := mk_attr {
  pa_qos : Z;
  pa_max_parallelism : Z;
  pa_ratio : Z;
  pa_threshold : Z;
  pa_busy_us : Z;
}.

#[export] Instance job_partner_attr_eta : Eta job_partner_attr := λ a,
  mk_attr (pa_qos a) (pa_max_parallelism a) (pa_ratio a) (pa_threshold a) (pa_busy_us a).

Definition job_partner_attr_ctor : job_partner_attr := mk_attr 3 2 20 0 100.

(** The setters. *)
Inductive attr_store := StoreQos (v : Z) | StoreMax (v : Z) | StoreRatio (v : Z) | StoreThreshold (v : Z) | StoreBusy (v : Z).

Definition attr_set (w : attr_store) (a : job_partner_attr) : job_partner_attr :=
  match w with
  | StoreQos v => a <| pa_qos := i32 v |>
  | StoreMax v => a <| pa_max_parallelism := u64 v |>
  | StoreRatio v => a <| pa_ratio := u64 v |>
  | StoreThreshold v => a <| pa_threshold := u64 v |>
  | StoreBusy v => a <| pa_busy_us := u64 v |>
  end.

(** The stores of [operator=], each of them atomic. *)
Definition attr_assign (b : job_partner_attr) : list attr_store :=
  [StoreQos (pa_qos b); StoreMax (pa_max_parallelism b); StoreRatio (pa_ratio b); StoreThreshold (pa_threshold b);
   StoreBusy (pa_busy_us b)].

(** ** Frames *)

(** [HelpPartner], whether [BusyWaitUS] is positive, and [is_master]. *)
Record wait_opts := mk_opts { o_help : bool; o_busy : bool; o_master : bool }.

(** What follows a push to the partner queue: [trigger_partner<Boost>] in
    [submit], nothing in [master_run_func]. *)
Inductive after_push := ThenTrigger (boost : bool) | ThenReturn.

(** Who called [try_run]: the worker loop, [wait] on either queue, a push to a
    full queue, [try_steal_one_job] on either queue. *)
Inductive try_ret :=
| RWorker | RHelp (o : wait_opts) | RMaster (o : wait_opts) (idx : Z) | RPush (a : after_push) (j : job)
| RSteal | RStealMaster.

(** Who called [try_add_partner]: [trigger_partner], or a worker about to exit. *)
Inductive add_ret := RTrigger | RRetake.

(** Where [wait] asks [has_job]: in the busy loop, or before it sleeps. *)
Inductive has_site := HBusy | HCheck.

(** Who called [size]. *)
Inductive size_site :=
| SAdd (boost : bool) (th wn : Z) (r : add_ret) | SStall | SStallEnd | SExit
| SHasM (h : has_site) (o : wait_opts) | SHasP (h : has_site) (o : wait_opts).

(** User code: a job's function, the function given to the master, one that is
    run at once, or the callback of a suspendable job. *)
Inductive body := BPlain (j : job) | BFuture (j : job) | BFiber (f : job) | BMaster (f : job) | BInline (allow : bool) | BCallback (f : job).

(** - [Submit] to [Publish]: in [submit], about to add to [job_num], to push, to
      publish what was pushed;
    - [AddLoad] to [AddSpawn]: in [try_add_partner] and [add_partner];
    - [SizeHead], [SizeTail]: in [size], about to load the read and the write index;
    - [Worker] to [WDec]: the worker task;
    - [Try], [RunJob], [RunMaster], [Body]: in [try_run], in the function of a
      job of the partner or the master queue, in user code;
    - [DoneSub], [NXchg], [NNotify], [Delete]: in [done_one] and [notify_master],
      and after them;
    - [ToMaster]: in [submit_to_master];
    - [FStart], [FIn]: in [start], before the switch and while the fiber is in;
      [FFinal]: at the end of the fiber; [FOut] to [FRet]: in [start] after the
      switch, [MPush] to [MNotify] being [submit_to_master_suspend_func];
      [FDestroy], [FCallback]: after the end of the job;
    - [WaitTest] to [WaitNotify]: in [wait];
    - [Assign]: storing attributes. *)
Inductive frame :=
| Submit (boost : bool) (j : job) | Push (a : after_push) (j : job) | Publish (a : after_push) (j : job)
| AddLoad (boost ignore : bool) (r : add_ret) | AddCas (boost : bool) (th wn : Z) (r : add_ret) | AddInc | AddSpawn
| SizeHead (k : size_site) | SizeTail (k : size_site) (head : Z)
| Worker | WSub | WStallCas | WSub2 | WDec
| Try (r : try_ret) | RunJob (j : job) | RunMaster (f : job) | Body (b : body)
| DoneSub (j : job) | NXchg | NNotify | Delete (j : job)
| ToMaster (allow : bool)
| FStart (f : job) | FIn (f : job) (saved : option job) | FFinal (f : job) | FOut (f : job) (saved : option job)
| MPush (f : job) (saved : option job) (done : bool) | MPublish (f : job) (saved : option job) (done : bool)
| MXchg (f : job) (saved : option job) (done : bool) | MNotify (f : job) (saved : option job) (done : bool)
| FRet (f : job) (saved : option job) (done : bool) | FDestroy (f : job) | FCallback (f : job)
| WaitTest (help busy : bool) | WaitLoop (o : wait_opts) | WaitDone (o : wait_opts)
| HasJob (h : has_site) (o : wait_opts) | HasDone (h : has_site) (o : wait_opts) (has : bool)
| WaitSet (o : wait_opts) | WaitCheck (o : wait_opts) | WaitFutex (o : wait_opts) | WaitSleep (o : wait_opts)
| WaitXchg (o : wait_opts) | WaitNotify (o : wait_opts)
| Assign (l : list attr_store).

(** ** State *)

Inductive kind := Plain | Future | Fiber (on_done : bool).

(** How far a job is: not counted in [job_num] yet, counted, subtracted again. *)
Inductive stage := New | Counted | Finished.

#[export] Instance stage_eq_dec : EqDecision stage.
Proof. solve_decision. Defined.

#[export] Instance kind_eq_dec : EqDecision kind.
Proof. solve_decision. Defined.

(** A job: [jb_cont] is the context saved in the fiber, [jb_final] says whether
    its [id_] is 0.  [jb_stage] and [jb_runs], the number of times the job's
    function returned, are for the statements only. *)
Record job_obj := mk_job { jb_kind : kind; jb_cont : option (list frame); jb_final : bool; jb_stage : stage; jb_runs : Z }.

#[export] Instance job_obj_eta : Eta job_obj := λ r, mk_job (jb_kind r) (jb_cont r) (jb_final r) (jb_stage r) (jb_runs r).

(** A thread: its stack, the topmost frame first, and its [fiber::env].  Only
    clients call operations from outside. *)
Record thread := mk_thread { th_id : Z; th_client : bool; th_cur : option job; th_cond : bool; th_stack : list frame }.

#[export] Instance thread_eta : Eta thread := λ t, mk_thread (th_id t) (th_client t) (th_cur t) (th_cond t) (th_stack t).

(** A queue and its read index; the write index is the sum. *)
Record rqueue := mk_queue { rq_q : fq job; rq_iread : Z }.

#[export] Instance rqueue_eta : Eta rqueue := λ q, mk_queue (rq_q q) (rq_iread q).

Definition rq_iwrite (q : rqueue) : Z := rq_iread q + Z.of_nat (length (rq_q q)).

(** [pt_fault] records a switch the code must not make; [pt_peak] is the greatest
    [max_parallelism] there has been. *)
Record partner := mk_partner {
  pt_attr : job_partner_attr;
  pt_token : Z;
  pt_partner_num : Z;
  pt_job_num : Z;
  pt_pq : rqueue;
  pt_mq : rqueue;
  pt_master_wait : Z;
  pt_ref : Z;
  pt_threads : list thread;
  pt_jobs : list job_obj;
  pt_fault : bool;
  pt_peak : Z;
}.

#[export] Instance partner_eta : Eta partner := λ s,
  mk_partner (pt_attr s) (pt_token s) (pt_partner_num s) (pt_job_num s) (pt_pq s) (pt_mq s) (pt_master_wait s) (pt_ref s)
    (pt_threads s) (pt_jobs s) (pt_fault s) (pt_peak s).

Definition client (id : Z) : thread := mk_thread id true None false [].

(** New queues. *)
Definition reset_queue (s : partner) : partner := s <| pt_pq := mk_queue [] 0 |> <| pt_mq := mk_queue [] 0 |>.

(** [make], for the master [token], with client threads [ids]. *)
Definition job_partner_ctor (a : job_partner_attr) (token : Z) (ids : list Z) : partner :=
  reset_queue (mk_partner a token 0 0 (mk_queue [] 0) (mk_queue [] 0) 0 1 (client <$> ids) [] false (pa_max_parallelism a)).

(** Replaces the top frame of a thread, or puts frames on top of its stack. *)
Definition go (i : nat) (fs : list frame) (s : partner) : partner :=
  s <| pt_threads ::= alter (λ t, t <| th_stack ::= λ st, fs ++ tail st |>) i |>.

Definition enter (i : nat) (fs : list frame) (s : partner) : partner :=
  s <| pt_threads ::= alter (λ t, t <| th_stack ::= λ st, fs ++ st |>) i |>.

Definition set_job (j : job) (g : job_obj → job_obj) (s : partner) : partner := s <| pt_jobs ::= alter g j |>.

Definition all_done (s : partner) : bool := bool_decide (pt_job_num s = 0).

(** What is decided without an access of its own differs from call to call:
    [ch_ok] says whether [try_push], [try_pop], [compare_exchange_weak] or
    [try_acquire] succeeds if it can, [ch_now] whether a push is published at once
    or the busy time is over, [ch_tid] on which thread a task runs. *)
Record choice := mk_choice { ch_ok : bool; ch_now : bool; ch_tid : Z }.

(** ** The queues *)

Definition queue_push (j : job) (b : bool) (q : rqueue) : rqueue := q <| rq_q ::= λ l, l ++ [(j, b)] |>.

Definition queue_publish (j : job) (q : rqueue) : rqueue := q <| rq_q ::= fmap (λ e, if decide (e.1 = j) then (j, true) else e) |>.

(** [try_pop]: only a published head can be taken. *)
Definition queue_pop (ok : bool) (q : rqueue) : option (job * rqueue) :=
  match rq_q q with
  | (j, true) :: l => if ok then Some (j, mk_queue l (rq_iread q + 1)) else None
  | _ => None
  end.

(** ** [submit] *)

Definition after_push_frames (a : after_push) : list frame :=
  match a with ThenTrigger boost => [AddLoad boost false RTrigger] | ThenReturn => [] end.

Definition submit_add (i : nat) (boost : bool) (j : job) (s : partner) : partner :=
  go i [Push (ThenTrigger boost) j]
    (set_job j (λ r, r <| jb_stage := Counted |>) (s <| pt_job_num := u64 (pt_job_num s + 1) |>)).

(** [push<1>]: when [try_push] fails a job of the queue is run. *)
Definition push_try (i : nat) (a : after_push) (j : job) (ch : choice) (s : partner) : partner :=
  if ch_ok ch
  then go i (if ch_now ch then after_push_frames a else [Publish a j]) (s <| pt_pq ::= queue_push j (ch_now ch) |>)
  else go i [Try (RPush a j)] s.

Definition push_publish (i : nat) (a : after_push) (j : job) (s : partner) : partner :=
  go i (after_push_frames a) (s <| pt_pq ::= queue_publish j |>).

(** ** [try_add_partner] and [add_partner] *)

Definition add_return (r : add_ret) (b : bool) : list frame :=
  match r, b with
  | RTrigger, true => [AddInc]
  | RTrigger, false => []
  | RRetake, true => [Worker]
  | RRetake, false => [WDec]
  end.

(** The part of the condition before [size] is called. *)
Definition add_test (boost : bool) (th wn : Z) (r : add_ret) (s : partner) : list frame :=
  if (if boost then bool_decide (wn < pa_max_parallelism (pt_attr s)) else bool_decide (wn = 0))
  then [SizeHead (SAdd boost th wn r)] else add_return r false.

Definition add_load (i : nat) (boost ignore : bool) (r : add_ret) (s : partner) : partner :=
  go i (add_test boost (if ignore then 0 else pa_threshold (pt_attr s)) (pt_partner_num s) r s) s.

(** The rest of it, for a queue of length [v]. *)
Definition add_wanted (boost : bool) (th wn v : Z) (a : job_partner_attr) : bool :=
  if boost then bool_decide (u64 (u64 (wn * pa_ratio a) + th) < v) else bool_decide (th < v).

Definition add_size (boost : bool) (th wn : Z) (r : add_ret) (v : Z) (s : partner) : list frame :=
  if add_wanted boost th wn v (pt_attr s) then [AddCas boost th wn r] else add_return r false.

Definition add_cas (i : nat) (boost : bool) (th wn : Z) (r : add_ret) (ch : choice) (s : partner) : partner :=
  if ch_ok ch && bool_decide (pt_partner_num s = wn)
  then go i (add_return r true) (s <| pt_partner_num := u64 (wn + 1) |>)
  else go i (add_test boost th (pt_partner_num s) r s) s.

Definition add_inc_ref (i : nat) (s : partner) : partner := go i [AddSpawn] (s <| pt_ref ::= λ n, n + 1 |>).

Definition add_spawn (i : nat) (ch : choice) (s : partner) : partner :=
  go i [] s <| pt_threads ::= λ l, l ++ [mk_thread (ch_tid ch) false None false [Worker]] |>.

(** ** The worker task *)

Definition worker_loop (i : nat) (s : partner) : partner := go i [AddLoad true false RTrigger; Try RWorker] s.

Definition worker_sub (i : nat) (s : partner) : partner :=
  let partner_n := u64 (pt_partner_num s - 1) in
  go i (if bool_decide (partner_n = 0) && bool_decide (0 < pa_busy_us (pt_attr s)) then [WStallCas] else [SizeHead SExit])
    (s <| pt_partner_num := partner_n |>).

Definition worker_stall_cas (i : nat) (s : partner) : partner :=
  if decide (pt_partner_num s = 0) then go i [SizeHead SStall] (s <| pt_partner_num := 1 |>) else go i [SizeHead SExit] s.

Definition worker_sub2 (i : nat) (s : partner) : partner :=
  go i [SizeHead SExit] (s <| pt_partner_num := u64 (pt_partner_num s - 1) |>).

Definition worker_dec_ref (i : nat) (s : partner) : partner := go i [] (s <| pt_ref ::= λ n, n - 1 |>).

(** ** [size] *)

(** The queue that is asked. *)
Definition site_queue (k : size_site) (s : partner) : rqueue := match k with SHasM _ _ => pt_mq s | _ => pt_pq s end.

Definition size_head (i : nat) (k : size_site) (s : partner) : partner := go i [SizeTail k (rq_iread (site_queue k s))] s.

(** What the caller does with the value. *)
Definition size_return (k : size_site) (v : Z) (ch : choice) (s : partner) : list frame :=
  match k with
  | SAdd boost th wn r => add_size boost th wn r v s
  | SStall => if bool_decide (v = 0) && negb (ch_now ch) then [SizeHead SStall] else [SizeHead SStallEnd]
  | SStallEnd => if decide (0 < v) then [Worker] else [WSub2]
  | SExit => if decide (0 < v) then [AddLoad true false RRetake] else [WDec]
  | SHasM h o => if decide (0 < v) then [HasDone h o true] else if o_help o then [SizeHead (SHasP h o)] else [HasDone h o false]
  | SHasP h o => [HasDone h o (bool_decide (0 < v))]
  end.

Definition size_tail (i : nat) (k : size_site) (head : Z) (ch : choice) (s : partner) : partner :=
  go i (size_return k (rq_iwrite (site_queue k s) - head) ch s) s.

(** ** [try_run] *)

Definition wait_help (o : wait_opts) : frame := if o_help o then Try (RHelp o) else WaitDone o.

Definition try_return (r : try_ret) (b : bool) : list frame :=
  match r with
  | RWorker => if b then [Try RWorker] else [WSub]
  | RHelp o => if b then [WaitLoop o] else [WaitDone o]
  | RMaster o idx =>
      if b then (if decide (Z.land (idx + 1) 15 = 0) then [AddLoad true false RTrigger] else []) ++ [Try (RMaster o (idx + 1))]
      else [AddLoad true false RTrigger; wait_help o]
  | RPush a j => [Push a j]
  | RSteal | RStealMaster => []
  end.

Definition try_run (i : nat) (r : try_ret) (ch : choice) (s : partner) : partner :=
  match r with
  | RMaster _ _ | RStealMaster =>
      match queue_pop (ch_ok ch) (pt_mq s) with
      | Some (f, q) => go i (RunMaster f :: try_return r true) (s <| pt_mq := q |>)
      | None => go i (try_return r false) s
      end
  | _ =>
      match queue_pop (ch_ok ch) (pt_pq s) with
      | Some (j, q) => go i (RunJob j :: try_return r true) (s <| pt_pq := q |>)
      | None => go i (try_return r false) s
      end
  end.

(** [non_suspendable_job_func], [non_suspendable_future_job_func] and
    [suspendable_job_func]; [try_execute] runs the function only if no other
    thread has. *)
Definition run_job (i : nat) (j : job) (ch : choice) (s : partner) : partner :=
  match pt_jobs s !! j with
  | Some r =>
      match jb_kind r with
      | Plain => go i [Body (BPlain j)] s
      | Future => go i (if ch_ok ch then [Body (BFuture j)] else [DoneSub j; Delete j]) s
      | Fiber _ => go i [FStart j] s
      end
  | None => s <| pt_fault := true |>
  end.

(** The end of user code. *)
Definition body_end (i : nat) (b : body) (s : partner) : partner :=
  match b with
  | BPlain j | BFuture j => go i [DoneSub j; Delete j] (set_job j (λ r, r <| jb_runs ::= λ n, n + 1 |>) s)
  | BFiber f => go i [FFinal f] (set_job f (λ r, r <| jb_runs ::= λ n, n + 1 |>) s)
  | BMaster f => go i [Push ThenReturn f] s
  | BInline _ | BCallback _ => go i [] s
  end.

Definition done_one (i : nat) (j : job) (s : partner) : partner :=
  let concurrency := u64 (pt_job_num s - 1) in
  go i (if decide (concurrency = 0) then [NXchg] else [])
    (set_job j (λ r, r <| jb_stage := Finished |>) (s <| pt_job_num := concurrency |>)).

(** ** [notify_master] *)

(** [if (master_wait.exchange(0) == 1)] *)
Definition master_wait_exchange (i : nat) (then_ else_ : list frame) (s : partner) : partner :=
  go i (if decide (pt_master_wait s = 1) then then_ else else_) (s <| pt_master_wait := 0 |>).

Definition wake_frame (x : frame) : frame := match x with WaitSleep o => WaitXchg o | _ => x end.

Definition wake_thread (t : thread) : thread := t <| th_stack ::= fmap wake_frame |>.

Definition partner_notify_all (i : nat) (next : list frame) (s : partner) : partner :=
  go i next (s <| pt_threads ::= fmap wake_thread |>).

(** ** Fibers *)

(** The frames above the topmost fiber that is in, that fiber, and the rest. *)
Fixpoint split_in (st : list frame) : option (list frame * (job * option job) * list frame) :=
  match st with
  | [] => None
  | FIn f saved :: k => Some ([], (f, saved), k)
  | x :: st => '(seg, m, k) ← split_in st; Some (x :: seg, m, k)
  end.

Definition set_thread (i : nat) (g : thread → thread) (s : partner) : partner := s <| pt_threads ::= alter g i |>.

(** [start] up to the switch: the saved context goes on top of the stack. *)
Definition fiber_start (i : nat) (f : job) (s : partner) : partner :=
  match pt_jobs s !! f ≫= jb_cont with
  | Some c =>
      set_job f (λ r, r <| jb_cont := None |>)
        (set_thread i (λ t, mk_thread (th_id t) (th_client t) (Some f) false (c ++ FIn f (th_cur t) :: tail (th_stack t))) s)
  | None => s <| pt_fault := true |>
  end.

(** [suspend] of the fiber [j] that is [cur]: the switch to [j->link] saves the
    frames of the fiber in it; those of a fiber that ended are lost. *)
Definition fiber_suspend (i : nat) (is_final : bool) (s : partner) : partner :=
  match pt_threads s !! i with
  | Some t =>
      match th_cur t, split_in (tail (th_stack t)) with
      | Some j, Some (seg, (f, saved), k) =>
          if decide (f = j)
          then set_job j (λ r, if is_final then r <| jb_final := true |> <| jb_cont := None |> else r <| jb_cont := Some seg |>)
                 (set_thread i (λ t, mk_thread (th_id t) (th_client t) (th_cur t) (negb is_final || th_cond t) (FOut j saved :: k)) s)
          else s <| pt_fault := true |>
      | _, _ => s <| pt_fault := true |>
      end
  | None => s
  end.

(** [submit_to_master]: at once when no fiber is in, or on the master thread if
    the caller allows it; else the fiber is suspended. *)
Definition submit_to_master (i : nat) (allow : bool) (s : partner) : partner :=
  match pt_threads s !! i with
  | Some t =>
      if bool_decide (th_cur t = None) || (allow && bool_decide (pt_token s = th_id t))
      then go i [Body (BInline allow)] s
      else fiber_suspend i false s
  | None => s
  end.

(** [start] after the switch, up to the call of the condition. *)
Definition fiber_out (i : nat) (f : job) (saved : option job) (s : partner) : partner :=
  let done := default false (jb_final <$> pt_jobs s !! f) in
  go i (if default false (th_cond <$> pt_threads s !! i) then [MPush f saved done] else [FRet f saved done]) s.

(** [submit_to_master_suspend_func]: [push<0>] sleeps and tries again. *)
Definition master_push (i : nat) (f : job) (saved : option job) (done : bool) (ch : choice) (s : partner) : partner :=
  if ch_ok ch
  then go i (if ch_now ch then [MXchg f saved done] else [MPublish f saved done]) (s <| pt_mq ::= queue_push f (ch_now ch) |>)
  else s.

Definition master_publish (i : nat) (f : job) (saved : option job) (done : bool) (s : partner) : partner :=
  go i [MXchg f saved done] (s <| pt_mq ::= queue_publish f |>).

(** The end of [start], and [suspendable_job_func] after it. *)
Definition fiber_return (i : nat) (f : job) (saved : option job) (done : bool) (s : partner) : partner :=
  set_thread i (λ t, mk_thread (th_id t) (th_client t) saved false ((if done then [DoneSub f; FDestroy f] else []) ++ tail (th_stack t))) s.

Definition on_done (i : nat) (f : job) (s : partner) : partner :=
  go i (match jb_kind <$> pt_jobs s !! f with Some (Fiber true) => [Body (BCallback f)] | _ => [] end) s.

(** ** [wait] *)

Definition this_thread_is_master (i : nat) (s : partner) : bool :=
  match pt_threads s !! i with Some t => bool_decide (th_id t = pt_token s) | None => false end.

Definition wait_test (i : nat) (help busy : bool) (s : partner) : partner :=
  go i (if all_done s then [] else [WaitLoop (mk_opts help busy (this_thread_is_master i s))]) s.

Definition wait_loop (i : nat) (o : wait_opts) (s : partner) : partner :=
  go i (if o_master o then [Try (RMaster o 0)] else [AddLoad true false RTrigger; wait_help o]) s.

Definition wait_done (i : nat) (o : wait_opts) (s : partner) : partner :=
  go i (if all_done s then [] else if o_busy o then [HasJob HBusy o] else [WaitSet o]) s.

Definition has_job (i : nat) (h : has_site) (o : wait_opts) (s : partner) : partner :=
  go i (if o_master o then [SizeHead (SHasM h o)] else if o_help o then [SizeHead (SHasP h o)] else [HasDone h o false]) s.

Definition has_done (i : nat) (h : has_site) (o : wait_opts) (has : bool) (ch : choice) (s : partner) : partner :=
  match h with
  | HBusy => go i (if has || ch_now ch then [WaitSet o] else [HasJob HBusy o]) s
  | HCheck => go i (if has then [WaitXchg o] else [WaitFutex o]) s
  end.

Definition wait_set (i : nat) (o : wait_opts) (s : partner) : partner := go i [WaitCheck o] (s <| pt_master_wait := 1 |>).

Definition wait_check (i : nat) (o : wait_opts) (s : partner) : partner :=
  go i (if all_done s then [WaitXchg o] else [HasJob HCheck o]) s.

(** [master_wait.wait(1)]: the futex call sleeps only if the value is still 1. *)
Definition wait_futex (i : nat) (o : wait_opts) (s : partner) : partner :=
  go i (if decide (pt_master_wait s = 1) then [WaitSleep o] else [WaitXchg o]) s.

Definition attr_stores (i : nat) (l : list attr_store) (s : partner) : partner :=
  match l with
  | [] => go i [] s
  | w :: l => go i [Assign l] (s <| pt_attr ::= attr_set w |> <| pt_peak ::= λ n, n `max` pa_max_parallelism (attr_set w (pt_attr s)) |>)
  end.

(** ** Steps *)

(** One step of thread [i], whose top frame is [x].  A thread asleep in the futex
    call may wake up without being woken. *)
Definition exec (i : nat) (x : frame) (ch : choice) (s : partner) : partner :=
  match x with
  | Submit boost j => submit_add i boost j s
  | Push a j => push_try i a j ch s
  | Publish a j => push_publish i a j s
  | AddLoad boost ignore r => add_load i boost ignore r s
  | AddCas boost th wn r => add_cas i boost th wn r ch s
  | AddInc => add_inc_ref i s
  | AddSpawn => add_spawn i ch s
  | SizeHead k => size_head i k s
  | SizeTail k head => size_tail i k head ch s
  | Worker => worker_loop i s
  | WSub => worker_sub i s
  | WStallCas => worker_stall_cas i s
  | WSub2 => worker_sub2 i s
  | WDec => worker_dec_ref i s
  | Try r => try_run i r ch s
  | RunJob j => run_job i j ch s
  | RunMaster f => go i [Body (BMaster f)] s
  | Body b => body_end i b s
  | DoneSub j => done_one i j s
  | NXchg => master_wait_exchange i [NNotify] [] s
  | NNotify => partner_notify_all i [] s
  | Delete _ => go i [] s
  | ToMaster allow => submit_to_master i allow s
  | FStart f => fiber_start i f s
  | FIn _ _ => s
  | FFinal _ => fiber_suspend i true s
  | FOut f saved => fiber_out i f saved s
  | MPush f saved done => master_push i f saved done ch s
  | MPublish f saved done => master_publish i f saved done s
  | MXchg f saved done => master_wait_exchange i [MNotify f saved done] [FRet f saved done] s
  | MNotify f saved done => partner_notify_all i [FRet f saved done] s
  | FRet f saved done => fiber_return i f saved done s
  | FDestroy f => go i [FCallback f] s
  | FCallback f => on_done i f s
  | WaitTest help busy => wait_test i help busy s
  | WaitLoop o => wait_loop i o s
  | WaitDone o => wait_done i o s
  | HasJob h o => has_job i h o s
  | HasDone h o has => has_done i h o has ch s
  | WaitSet o => wait_set i o s
  | WaitCheck o => wait_check i o s
  | WaitFutex o => wait_futex i o s
  | WaitSleep o => go i [WaitXchg o] s
  | WaitXchg o => master_wait_exchange i [WaitNotify o] [WaitLoop o] s
  | WaitNotify o => partner_notify_all i [WaitLoop o] s
  | Assign l => attr_stores i l s
  end.

(** What a client, or user code, may call. *)
Inductive call :=
| CSubmit (boost : bool) (k : kind) | CToMaster (allow : bool) | CWait (help busy : bool) | CFlush | CSteal | CStealMaster
| CAssign (l : list attr_store).

(** The function of a suspendable job is the first thing its context runs. *)
Definition new_job (k : kind) (j : job) : job_obj :=
  mk_job k (match k with Fiber _ => Some [Body (BFiber j)] | _ => None end) false New 0.

Definition do_call (i : nat) (c : call) (s : partner) : partner :=
  match c with
  | CSubmit boost k =>
      let j := length (pt_jobs s) in enter i [Submit boost j] (s <| pt_jobs ::= λ l, l ++ [new_job k j] |>)
  | CToMaster allow => enter i [ToMaster allow] s
  | CWait help busy => enter i [WaitTest help busy] s
  | CFlush => enter i [AddLoad true true RTrigger] s
  | CSteal => enter i [Try RSteal] s
  | CStealMaster => enter i [Try RStealMaster] s
  | CAssign l => enter i [Assign l] s
  end.

(** A client outside, or user code anywhere. *)
Definition may_call (t : thread) : bool :=
  match th_stack t with [] => th_client t | Body _ :: _ => true | _ => false end.

(** The steps when the threads make only the calls [U]. *)
Inductive partner_step (U : thread → call → Prop) : partner → partner → Prop :=
| ps_call s i t c : pt_threads s !! i = Some t → may_call t = true → U t c → partner_step U s (do_call i c s)
| ps_exec s i t x st ch : pt_threads s !! i = Some t → th_stack t = x :: st → partner_step U s (exec i x ch s).

End Partner.
