(* ===== verification/PartnerSafety.v ===== *)
(** * Safety of the job partner

    For [JobPartner]: every job is in one place, a thread's stack or a queue, and
    its function runs once; a fiber is resumed only while it is switched out, by
    one thread at a time, and the thread's [cur] is the fiber whose stack it is
    on.  The invariants are sums of weights over the frames of all stacks and of
    all saved contexts. *)

From S2P Require Import Prelude LfQueue JobPartner.

Module PartnerSafety.
Import Partner.

(** ** Sums over all frames *)

Definition thread_sum (w : frame → Z) (t : thread) : Z := wsum w (th_stack t).
Definition cont_sum (w : frame → Z) (r : job_obj) : Z := wsum w (default [] (jb_cont r)).

(** Over the stacks and the saved contexts. *)
Definition frame_sum (w : frame → Z) (s : partner) : Z := wsum (thread_sum w) (pt_threads s) + wsum (cont_sum w) (pt_jobs s).

#[global] Arguments go : simpl never.
#[global] Arguments enter : simpl never.
#[global] Arguments set_job : simpl never.
#[global] Arguments set_thread : simpl never.

Lemma frame_sum_ext w s s' : pt_threads s' = pt_threads s → pt_jobs s' = pt_jobs s → frame_sum w s' = frame_sum w s.
Proof. unfold frame_sum. by intros -> ->. Qed.

Lemma frame_sum_add w w' s : frame_sum (λ x, w x + w' x) s = frame_sum w s + frame_sum w' s.
Proof.
  assert (Ha : ∀ {A} (f g : A → Z) l, wsum (λ x, f x + g x) l = wsum f l + wsum g l).
  { intros A f g l. induction l as [|x l IH]; simpl; [done|]. rewrite IH. lia. }
  unfold frame_sum. rewrite (wsum_ext _ (λ t, thread_sum w t + thread_sum w' t)) by (intros t; apply Ha).
  rewrite (wsum_ext (cont_sum _) (λ r, cont_sum w r + cont_sum w' r)) by (intros r; apply Ha). rewrite !Ha. lia.
Qed.

Lemma frame_sum_go w i fs s t x st :
  pt_threads s !! i = Some t → th_stack t = x :: st → frame_sum w (go i fs s) = frame_sum w s - w x + wsum w fs.
Proof.
  intros Ht Hst. unfold frame_sum, go. simpl. rewrite (wsum_alter _ _ _ _ _ Ht). unfold thread_sum. simpl. rewrite Hst. simpl.
  rewrite wsum_app. lia.
Qed.

Lemma frame_sum_enter w i fs s t :
  pt_threads s !! i = Some t → frame_sum w (enter i fs s) = frame_sum w s + wsum w fs.
Proof. intros Ht. unfold frame_sum, enter. simpl. rewrite (wsum_alter _ _ _ _ _ Ht). unfold thread_sum. simpl. rewrite wsum_app. lia. Qed.

Lemma frame_sum_set_job w j g s : (∀ r, jb_cont (g r) = jb_cont r) → frame_sum w (set_job j g s) = frame_sum w s.
Proof. intros Hg. unfold frame_sum, set_job. simpl. rewrite wsum_alter_same; [done|]. intros r. unfold cont_sum. by rewrite Hg. Qed.

Lemma frame_sum_set_thread w i g s : (∀ t, th_stack (g t) = th_stack t) → frame_sum w (set_thread i g s) = frame_sum w s.
Proof. intros Hg. unfold frame_sum, set_thread. simpl. rewrite wsum_alter_same; [done|]. intros t. unfold thread_sum. by rewrite Hg. Qed.

(** Fibers move frames between a stack and a saved context. *)
Lemma split_in_app st seg f saved k :
  split_in st = Some (seg, (f, saved), k) → st = seg ++ FIn f saved :: k.
Proof.
  revert seg. induction st as [|x st IH]; intros seg H; [done|].
  destruct x; simpl in H; try (destruct (split_in st) as [[[seg' m] k']|] eqn:E; simpl in H; [|done]; simplify_eq; simpl; f_equal; by apply IH).
  by simplify_eq.
Qed.

Lemma frame_sum_start w i f s t st c r :
  pt_threads s !! i = Some t → th_stack t = FStart f :: st → pt_jobs s !! f = Some r → jb_cont r = Some c →
  frame_sum w (fiber_start i f s) = frame_sum w s - w (FStart f) + w (FIn f (th_cur t)).
Proof.
  intros Ht Hst Hr Hc. unfold fiber_start. rewrite Hr. simpl. rewrite Hc.
  unfold frame_sum, set_job, set_thread. simpl. rewrite (wsum_alter _ _ _ _ _ Hr), (wsum_alter _ _ _ _ _ Ht).
  unfold thread_sum, cont_sum. simpl. rewrite Hst, Hc. simpl. rewrite !wsum_app. simpl. lia.
Qed.

Lemma frame_sum_suspend w i final s t x seg f saved k r :
  pt_threads s !! i = Some t → th_stack t = x :: seg ++ FIn f saved :: k → split_in (seg ++ FIn f saved :: k) = Some (seg, (f, saved), k) →
  th_cur t = Some f → pt_jobs s !! f = Some r → jb_cont r = None → (final = true → seg = []) →
  frame_sum w (fiber_suspend i final s) = frame_sum w s - w x - w (FIn f saved) + w (FOut f saved).
Proof.
  intros Ht Hst Hsp Hcur Hr Hc Hfin. unfold fiber_suspend. rewrite Ht, Hcur, Hst. cbn [tail]. rewrite Hsp, decide_True by done.
  unfold frame_sum, set_job, set_thread. simpl. rewrite (wsum_alter _ _ _ _ _ Hr), (wsum_alter _ _ _ _ _ Ht).
  unfold thread_sum, cont_sum. simpl. rewrite Hst, Hc. simpl. rewrite !wsum_app. simpl.
  destruct final; [rewrite (Hfin eq_refl); simpl; lia|simpl; lia].
Qed.

(** ** The shape of the stacks *)

(** A fiber that is in, or was until the switch, with the fiber it interrupted. *)
Definition marker (x : frame) : option (job * option job) :=
  match x with
  | FIn f sv | FOut f sv | MPush f sv _ | MPublish f sv _ | MXchg f sv _ | MNotify f sv _ | FRet f sv _ => Some (f, sv)
  | _ => None
  end.

(** In [start] after the switch. *)
Definition is_ret (x : frame) : bool :=
  match x with
  | FOut _ _ | MPush _ _ _ | MPublish _ _ _ | MXchg _ _ _ | MNotify _ _ _ | FRet _ _ _ => true
  | _ => false
  end.

(** The fiber a stack runs in; [base] for a stack that is part of a fiber's. *)
Fixpoint stack_cur (base : option job) (st : list frame) : option job :=
  match st with
  | [] => base
  | x :: st => match marker x with Some (f, _) => Some f | None => stack_cur base st end
  end.

(** What a frame requires of the frames below it. *)
Definition frame_here (base : option job) (x : frame) (st : list frame) : Prop :=
  match x with
  | FIn _ sv | FOut _ sv | FRet _ sv _ => sv = stack_cur base st
  | MPush _ sv d | MPublish _ sv d | MXchg _ sv d | MNotify _ sv d => sv = stack_cur base st ∧ d = false
  | Body (BFiber f) | FFinal f => match st with [] => base = Some f | FIn g _ :: _ => g = f | _ => False end
  | Body (BInline false) => stack_cur base st = None
  | _ => True
  end.

Fixpoint stack_ok (base : option job) (st : list frame) : Prop :=
  match st with [] => True | x :: st => frame_here base x st ∧ stack_ok base st end.

(** [cond] is set only between a suspension and the end of [start]. *)
Definition cond_ok (fin : job → bool) (t : thread) : Prop :=
  match th_stack t with
  | FOut f _ :: _ => th_cond t = negb (fin f)
  | x :: _ => is_ret x = true ∨ th_cond t = false
  | [] => th_cond t = false
  end.

Record thread_ok (fin : job → bool) (t : thread) : Prop := {
  to_cur : th_cur t = stack_cur None (th_stack t);
  to_stack : stack_ok None (th_stack t);
  to_ret : Forall (λ x, is_ret x = false) (tail (th_stack t));
  to_cond : cond_ok fin t;
}.

(** Frames that may be anywhere. *)
Definition simple (x : frame) : bool :=
  match x with
  | Body (BFiber _) | FFinal _ | Body (BInline false) => false
  | _ => match marker x with Some _ => false | None => true end
  end.

Lemma simple_marker x : simple x = true → marker x = None.
Proof. by destruct x as [| | | | | | | | | | | | | | | | |[]| | | | | | | | | | | | | | | | | | | | | | | | | | | |]. Qed.

Lemma simple_here base x st : simple x = true → frame_here base x st.
Proof. by destruct x as [| | | | | | | | | | | | | | | | |[| | | |[]|]| | | | | | | | | | | | | | | | | | | | | | | | | | | |]. Qed.

Lemma simple_cur base fs st : forallb simple fs = true → stack_cur base (fs ++ st) = stack_cur base st.
Proof. induction fs as [|x fs IH]; simpl; [done|]. intros [Hx Hf]%andb_prop. by rewrite (simple_marker _ Hx), IH. Qed.

Lemma simple_ok base fs st : forallb simple fs = true → stack_ok base st → stack_ok base (fs ++ st).
Proof. intros Hf Hs. induction fs as [|x fs IH]; simpl in *; [done|]. apply andb_prop in Hf as [Hx Hf]. split; [by apply simple_here|auto]. Qed.

Lemma marker_none_ret x : marker x = None → is_ret x = false.
Proof. by destruct x. Qed.

Lemma simple_nonret fs : forallb simple fs = true → Forall (λ x, is_ret x = false) fs.
Proof.
  induction fs as [|x fs IH]; simpl; [constructor|]. intros [Hx Hf]%andb_prop. constructor; [|auto]. by apply marker_none_ret, simple_marker.
Qed.

Lemma nonret_cond fin t : Forall (λ x, is_ret x = false) (th_stack t) → th_cond t = false → cond_ok fin t.
Proof. unfold cond_ok. intros Hf Hc. destruct (th_stack t) as [|x st]; [done|]. inversion Hf as [|? ? Hx]; subst. destruct x; auto. done. Qed.

Lemma cond_nonret fin t x st : cond_ok fin t → th_stack t = x :: st → is_ret x = false → th_cond t = false.
Proof. unfold cond_ok. intros H Hst Hx. rewrite Hst in H. destruct x; (by destruct H as [?|?]; [congruence|]) || done. Qed.

(** A move that stays outside the fibers' ends. *)
Lemma thread_ok_go fin t x st fs :
  thread_ok fin t → th_stack t = x :: st → marker x = None → forallb simple fs = true →
  thread_ok fin (t <| th_stack ::= λ st, fs ++ tail st |>).
Proof.
  intros [T1 T2 T3 T4] Hst Hm Hf. rewrite Hst in T1, T2, T3. simpl in T1, T3. rewrite Hm in T1. destruct T2 as [_ T2].
  assert (Forall (λ x, is_ret x = false) (fs ++ st)) as Hr by (apply Forall_app; split; [by apply simple_nonret|done]).
  split; simpl; rewrite ?Hst; simpl.
  - by rewrite simple_cur.
  - by apply simple_ok.
  - by apply Forall_tail.
  - apply nonret_cond; simpl; [done|]. eapply cond_nonret; [exact T4|done|]. by apply marker_none_ret.
Qed.

Lemma thread_ok_enter fin t fs :
  thread_ok fin t → may_call t = true → forallb simple fs = true → thread_ok fin (t <| th_stack ::= λ st, fs ++ st |>).
Proof.
  intros [T1 T2 T3 T4] Hm Hf.
  assert (Forall (λ x, is_ret x = false) (th_stack t) ∧ th_cond t = false) as [Ht Hc].
  { unfold may_call in Hm. unfold cond_ok in T4. destruct (th_stack t) as [|x st]; [done|]. destruct x; try done. simpl in T3.
    split; [by constructor|]. by destruct T4. }
  assert (Forall (λ x, is_ret x = false) (fs ++ th_stack t)) as Hr by (apply Forall_app; split; [by apply simple_nonret|done]).
  split; simpl.
  - by rewrite simple_cur.
  - by apply simple_ok.
  - by apply Forall_tail.
  - by apply nonret_cond.
Qed.

(** ** Where a job is *)

Definition eqj (j j' : job) : Z := if decide (j = j') then 1 else 0.

(** Not counted in [job_num] yet. *)
Definition w_new (j : job) (x : frame) : Z := match x with Submit _ j' => eqj j j' | _ => 0 end.

(** Counted and in the hands of a thread, rather than in a queue. *)
Definition w_loc (j : job) (x : frame) : Z :=
  match x with
  | Push _ j' | Try (RPush _ j') | RunJob j' | RunMaster j' | Body (BPlain j') | Body (BFuture j') | Body (BMaster j')
  | DoneSub j' | FStart j' | FIn j' _ | FOut j' _ | MPush j' _ _ | FRet j' _ true => eqj j j'
  | _ => 0
  end.

(** On its way to the call of its function, or in it. *)
Definition w_todo (j : job) (x : frame) : Z :=
  match x with
  | Submit _ j' | Push _ j' | Try (RPush _ j') | RunJob j' | Body (BPlain j') | Body (BFuture j') => eqj j j'
  | _ => 0
  end.

(** A fiber in; its function not over; over, but not switched out; switched out
    for the last time. *)
Definition w_in (j : job) (x : frame) : Z := match x with FIn j' _ => eqj j j' | _ => 0 end.
Definition w_body (j : job) (x : frame) : Z := match x with Body (BFiber j') => eqj j j' | _ => 0 end.
Definition w_final (j : job) (x : frame) : Z := match x with FFinal j' => eqj j j' | _ => 0 end.
Definition w_out (j : job) (x : frame) : Z := match x with FOut j' _ | FRet j' _ true | DoneSub j' => eqj j j' | _ => 0 end.
Definition w_over (j : job) (x : frame) : Z := match x with FRet j' _ true | DoneSub j' => eqj j j' | _ => 0 end.

Definition queue_count (j : job) (q : rqueue) : Z := wsum (λ e, eqj j e.1) (rq_q q).

Definition b2z_of (P : Prop) `{!Decision P} : Z := if decide P then 1 else 0.

(** What is true of a job, given the sums [F] over the frames and how often it is
    in the queues. *)
Definition fiber_ok (F : (frame → Z) → Z) (j : job) (r : job_obj) : Prop :=
  b2z_of (jb_cont r = None) = F (w_in j) + Z.b2z (jb_final r) ∧
  Z.b2z (jb_final r) <= b2z_of (jb_stage r = Finished) + F (w_out j) ∧
  b2z_of (jb_stage r = Finished) <= Z.b2z (jb_final r) ∧ F (w_over j) <= Z.b2z (jb_final r) ∧
  F (w_body j) + F (w_final j) + Z.b2z (jb_final r) = 1 ∧ jb_runs r + F (w_body j) = 1.

Definition job_ok (F : (frame → Z) → Z) (qp qm : Z) (j : job) (r : job_obj) : Prop :=
  F (w_new j) = b2z_of (jb_stage r = New) ∧
  F (w_loc j) + qp + qm = b2z_of (jb_stage r = Counted) ∧
  match jb_kind r with
  | Plain => jb_cont r = None ∧ F (w_todo j) + qp + jb_runs r = 1
  | Future => jb_cont r = None ∧ 0 <= jb_runs r ∧ F (w_todo j) + qp + jb_runs r <= 1
  | Fiber _ => fiber_ok F j r
  end.

(** ** Which jobs a frame may be about *)

Definition is_fiber (k : option kind) : bool := match k with Some (Fiber _) => true | _ => false end.

Definition push_ok (K : job → option kind) (a : after_push) (j : job) : bool :=
  match a with ThenTrigger _ => bool_decide (is_Some (K j)) | ThenReturn => is_fiber (K j) end.

Definition frame_ok (K : job → option kind) (x : frame) : bool :=
  match x with
  | Submit _ j | RunJob j | DoneSub j | Delete j => bool_decide (is_Some (K j))
  | Push a j | Publish a j | Try (RPush a j) => push_ok K a j
  | Body (BPlain j) => bool_decide (K j = Some Plain)
  | Body (BFuture j) => bool_decide (K j = Some Future)
  | Body (BFiber f) | Body (BMaster f) | RunMaster f | FStart f | FIn f _ | FFinal f | FOut f _ | MPush f _ _ | MPublish f _ _ | MXchg f _ _
  | MNotify f _ _ | FRet f _ _ | FDestroy f | FCallback f => is_fiber (K f)
  | _ => true
  end.

Definition w_bad (K : job → option kind) (x : frame) : Z := Z.b2z (negb (frame_ok K x)).

Definition kind_of (s : partner) (j : job) : option kind := jb_kind <$> pt_jobs s !! j.
Definition final_of (s : partner) (j : job) : bool := default false (jb_final <$> pt_jobs s !! j).

Record partner_inv (s : partner) : Prop := {
  pi_fault : pt_fault s = false;
  pi_threads : ∀ i t, pt_threads s !! i = Some t → thread_ok (final_of s) t;
  pi_conts : ∀ f r c, pt_jobs s !! f = Some r → jb_cont r = Some c → stack_ok (Some f) c ∧ Forall (λ x, marker x = None) c;
  pi_kind : frame_sum (w_bad (kind_of s)) s = 0;
  pi_pq : Forall (λ e, is_Some (kind_of s e.1)) (rq_q (pt_pq s));
  pi_mq : Forall (λ e, is_fiber (kind_of s e.1) = true) (rq_q (pt_mq s));
  pi_jobs : ∀ j r, pt_jobs s !! j = Some r →
    job_ok (λ w, frame_sum w s) (queue_count j (pt_pq s)) (queue_count j (pt_mq s)) j r;
}.

Lemma eqj_nonneg j j' : 0 <= eqj j j'.
Proof. unfold eqj. case_decide; lia. Qed.

Lemma w_bad_nonneg K x : 0 <= w_bad K x.
Proof. unfold w_bad. destruct (frame_ok K x); simpl; lia. Qed.

Ltac weight_nonneg := intros x; destruct x as [| | | | | | | | | | | | | |[]| | |[]| | | | | | | | | | | | | |?? []| | | | | | | | | | | | | |]; simpl; try done; apply eqj_nonneg.

Lemma w_new_nonneg j x : 0 <= w_new j x.
Proof. revert x. weight_nonneg. Qed.
Lemma w_loc_nonneg j x : 0 <= w_loc j x.
Proof. revert x. weight_nonneg. Qed.
Lemma w_todo_nonneg j x : 0 <= w_todo j x.
Proof. revert x. weight_nonneg. Qed.
Lemma w_in_nonneg j x : 0 <= w_in j x.
Proof. revert x. weight_nonneg. Qed.
Lemma w_body_nonneg j x : 0 <= w_body j x.
Proof. revert x. weight_nonneg. Qed.
Lemma w_final_nonneg j x : 0 <= w_final j x.
Proof. revert x. weight_nonneg. Qed.
Lemma w_out_nonneg j x : 0 <= w_out j x.
Proof. revert x. weight_nonneg. Qed.
Lemma w_over_nonneg j x : 0 <= w_over j x.
Proof. revert x. weight_nonneg. Qed.

#[export] Hint Resolve eqj_nonneg w_bad_nonneg w_new_nonneg w_loc_nonneg w_todo_nonneg w_in_nonneg w_body_nonneg w_final_nonneg w_out_nonneg
  w_over_nonneg : core.

Lemma frame_sum_nonneg w s : (∀ x, 0 <= w x) → 0 <= frame_sum w s.
Proof. intros Hw. apply Z.add_nonneg_nonneg; apply wsum_nonneg; intros ?; by apply wsum_nonneg. Qed.

(** A frame's weight is part of the sum. *)
Lemma frame_sum_elem w s i t x :
  (∀ x, 0 <= w x) → pt_threads s !! i = Some t → x ∈ th_stack t → w x <= frame_sum w s.
Proof.
  intros Hw Ht [n Hn]%list_elem_of_lookup. pose proof (wsum_elem w _ n x Hw Hn).
  pose proof (wsum_elem (thread_sum w) _ i t (λ t, wsum_nonneg w _ Hw) Ht) as H1. unfold thread_sum in H1 at 1.
  pose proof (wsum_nonneg (cont_sum w) (pt_jobs s) (λ r, wsum_nonneg w _ Hw)). unfold frame_sum. lia.
Qed.

(** ** Steps outside the fibers' ends *)

(** The job objects agree on what concerns fibers. *)
Definition same_fiber (r r' : job_obj) : Prop := jb_kind r' = jb_kind r ∧ jb_cont r' = jb_cont r ∧ jb_final r' = jb_final r.

Definition same_fibers (s s' : partner) : Prop := ∀ j, option_Forall2 same_fiber (pt_jobs s !! j) (pt_jobs s' !! j).

Lemma same_fibers_refl s s' : pt_jobs s' = pt_jobs s → same_fibers s s'.
Proof. intros E j. rewrite E. destruct (pt_jobs s !! j); by constructor. Qed.

Lemma same_fibers_set s s' j g : pt_jobs s' = alter g j (pt_jobs s) → (∀ r, same_fiber r (g r)) → same_fibers s s'.
Proof.
  intros E Hg j'. rewrite E. destruct (decide (j' = j)) as [->|Hne].
  - rewrite list_lookup_alter_eq. destruct (pt_jobs s !! j); by constructor.
  - rewrite list_lookup_alter_ne by done. destruct (pt_jobs s !! j'); by constructor.
Qed.

Lemma same_fibers_kind s s' j : same_fibers s s' → kind_of s' j = kind_of s j.
Proof. intros H. unfold kind_of. destruct (H j) as [r r' (E & _)|]; simpl; congruence. Qed.

Lemma same_fibers_final s s' j : same_fibers s s' → final_of s' j = final_of s j.
Proof. intros H. unfold final_of. destruct (H j) as [r r' (_ & _ & E)|]; simpl; congruence. Qed.

Lemma same_fibers_sum w s s' : same_fibers s s' → pt_threads s' = pt_threads s → frame_sum w s' = frame_sum w s.
Proof.
  intros H E. unfold frame_sum. rewrite E. f_equal.
  assert (jb_cont <$> pt_jobs s' = jb_cont <$> pt_jobs s) as Hc.
  { apply list_eq. intros j. rewrite !list_lookup_fmap. destruct (H j) as [r r' (_ & E' & _)|]; simpl; congruence. }
  change (cont_sum w) with (λ r, wsum w (default [] (jb_cont r))).
  rewrite <-!(wsum_fmap (λ c, wsum w (default [] c)) jb_cont). by rewrite Hc.
Qed.

Lemma frame_ok_ext K K' x : (∀ j, K' j = K j) → frame_ok K' x = frame_ok K x.
Proof.
  intros H. destruct x as [|[]?|[]?| | | | | | | | | | | |[| | |[]?| |]| | |[]| | | | | | | | | | | | | | | | | | | | | | | | | | | |];
    simpl; by rewrite ?H.
Qed.

Lemma frame_sum_w_ext w w' s : (∀ x, w x = w' x) → frame_sum w s = frame_sum w' s.
Proof. intros H. unfold frame_sum. f_equal; apply wsum_ext; intros ?; by apply wsum_ext. Qed.

Lemma w_bad_ok K fs : forallb (frame_ok K) fs = true → wsum (w_bad K) fs = 0.
Proof.
  intros H. apply wsum_zero. intros x Hx. rewrite forallb_forall in H. unfold w_bad. rewrite H; [done|]. by apply list_elem_of_In.
Qed.

Section step.
Context (s : partner) (HI : partner_inv s) (i : nat) (t : thread) (x : frame) (st : list frame).
Context (Ht : pt_threads s !! i = Some t) (Hst : th_stack t = x :: st).

Lemma top_sum w : (∀ y, 0 <= w y) → w x <= frame_sum w s.
Proof using Ht Hst. intros Hw. eapply frame_sum_elem; [done|exact Ht|]. rewrite Hst. left. Qed.

Lemma top_frame_ok : frame_ok (kind_of s) x = true.
Proof using HI Ht Hst.
  pose proof (top_sum (w_bad (kind_of s)) (w_bad_nonneg _)) as H. rewrite (pi_kind _ HI) in H. unfold w_bad in H.
  destruct (frame_ok (kind_of s) x); [done|simpl in H; lia].
Qed.

Lemma top_thread_ok : thread_ok (final_of s) t.
Proof using HI Ht. by apply (pi_threads _ HI i). Qed.

Lemma thread_ok_ext fin fin' u : (∀ j, fin' j = fin j) → thread_ok fin u → thread_ok fin' u.
Proof.
  intros H [T1 T2 T3 T4]. split; try done. unfold cond_ok in *. destruct (th_stack u) as [|y k]; [done|]. destruct y; try done. by rewrite H.
Qed.

(** The thread becomes [g t], with the frames [fs] in place of [x]. *)
Lemma partner_move_inv s' g fs :
  pt_threads s' = alter g i (pt_threads s) → th_stack (g t) = fs ++ st → thread_ok (final_of s) (g t) →
  same_fibers s s' → pt_fault s' = pt_fault s → forallb (frame_ok (kind_of s)) fs = true →
  Forall (λ e, is_Some (kind_of s e.1)) (rq_q (pt_pq s')) → Forall (λ e, is_fiber (kind_of s e.1) = true) (rq_q (pt_mq s')) →
  (∀ j r r', pt_jobs s !! j = Some r → pt_jobs s' !! j = Some r' → same_fiber r r' →
     job_ok (λ w, frame_sum w s) (queue_count j (pt_pq s)) (queue_count j (pt_mq s)) j r →
     job_ok (λ w, frame_sum w s - w x + wsum w fs) (queue_count j (pt_pq s')) (queue_count j (pt_mq s')) j r') →
  partner_inv s'.
Proof using HI Ht Hst.
  intros E1 Eg Hok Hsf E2 Hk Hp Hq Hj. destruct HI as [I1 I2 I3 I4 I5 I6 I7].
  assert (Hs : ∀ w, frame_sum w s' = frame_sum w s - w x + wsum w fs).
  { intros w. rewrite <-(same_fibers_sum w s (s' <| pt_threads := pt_threads s |>)) by done. unfold frame_sum. simpl.
    rewrite E1, (wsum_alter _ _ _ _ _ Ht). unfold thread_sum at 2 3. rewrite Eg, Hst, wsum_app. simpl. lia. }
  assert (Hkk : ∀ j, kind_of s' j = kind_of s j) by (intros j; apply (same_fibers_kind s s' j Hsf)).
  assert (Hff : ∀ j, final_of s' j = final_of s j) by (intros j; apply (same_fibers_final s s' j Hsf)).
  split.
  - exact (eq_trans E2 I1).
  - intros i' t'. rewrite E1. destruct (decide (i' = i)) as [->|Hne].
    + rewrite list_lookup_alter_eq, Ht. intros [= <-]. by eapply thread_ok_ext.
    + rewrite list_lookup_alter_ne by done. intros Ht'. eapply thread_ok_ext; [exact Hff|]. by eapply I2.
  - intros f r c Hr Hc. specialize (Hsf f). rewrite Hr in Hsf. inversion Hsf as [r0 ? (_ & Ec & _) Er|]; subst.
    apply (I3 f r0); [done|congruence].
  - rewrite Hs. rewrite !(frame_sum_w_ext _ (w_bad (kind_of s))) by (intros y; unfold w_bad; by rewrite (frame_ok_ext _ _ y Hkk)).
    rewrite (wsum_ext _ (w_bad (kind_of s)) fs) by (intros y; unfold w_bad; by rewrite (frame_ok_ext _ _ y Hkk)).
    rewrite I4, w_bad_ok by done. unfold w_bad. rewrite (frame_ok_ext _ _ x Hkk), top_frame_ok. done.
  - eapply Forall_impl; [exact Hp|]. intros e He. by rewrite Hkk.
  - eapply Forall_impl; [exact Hq|]. intros e He. by rewrite Hkk.
  - intros j r1 Hr. pose proof (Hsf j) as Hsj. rewrite Hr in Hsj. inversion Hsj as [r ? Hsame Er|]; subst.
    specialize (Hj j r r1 (eq_sym Er) Hr Hsame (I7 j r (eq_sym Er))). unfold job_ok, fiber_ok in *. by rewrite !Hs.
Qed.

(** A move that stays outside the fibers' ends; other things change as in [s1]. *)
Lemma partner_local_inv s1 fs :
  marker x = None → forallb simple fs = true → pt_threads s1 = pt_threads s → same_fibers s s1 → pt_fault s1 = pt_fault s →
  forallb (frame_ok (kind_of s)) fs = true →
  Forall (λ e, is_Some (kind_of s e.1)) (rq_q (pt_pq s1)) → Forall (λ e, is_fiber (kind_of s e.1) = true) (rq_q (pt_mq s1)) →
  (∀ j r r1, pt_jobs s !! j = Some r → pt_jobs s1 !! j = Some r1 → same_fiber r r1 →
     job_ok (λ w, frame_sum w s) (queue_count j (pt_pq s)) (queue_count j (pt_mq s)) j r →
     job_ok (λ w, frame_sum w s - w x + wsum w fs) (queue_count j (pt_pq s1)) (queue_count j (pt_mq s1)) j r1) →
  partner_inv (go i fs s1).
Proof using HI Ht Hst.
  intros Hm Hf E1 Hsf E2 Hk Hp Hq Hj. eapply (partner_move_inv (go i fs s1)); [| | |exact Hsf|done..].
  - unfold go. simpl. by rewrite E1.
  - simpl. by rewrite Hst.
  - eapply thread_ok_go; [by apply top_thread_ok|exact Hst|done|done].
Qed.
End step.

(** Frames that do not hold a job. *)
Definition quiet (x : frame) : bool :=
  match x with
  | AddLoad _ _ _ | AddCas _ _ _ _ | AddInc | AddSpawn | SizeHead _ | SizeTail _ _ | Worker | WSub | WStallCas | WSub2 | WDec
  | NXchg | NNotify | ToMaster _ | WaitTest _ _ | WaitLoop _ | WaitDone _ | HasJob _ _ | HasDone _ _ _ | WaitSet _ | WaitCheck _
  | WaitFutex _ | WaitSleep _ | WaitXchg _ | WaitNotify _ | Assign _ => true
  | Try (RPush _ _) => false
  | Try _ | Body (BInline true) => true
  | _ => false
  end.

(** Nor do those that have let it go. *)
Definition idle_frame (x : frame) : bool :=
  quiet x || match x with Delete _ | FDestroy _ | FCallback _ | Body (BCallback _) | Body (BInline _) | Publish _ _ => true | _ => false end.

Lemma idle_weights j x :
  idle_frame x = true →
  w_new j x = 0 ∧ w_loc j x = 0 ∧ w_todo j x = 0 ∧ w_in j x = 0 ∧ w_body j x = 0 ∧ w_final j x = 0 ∧ w_out j x = 0 ∧ w_over j x = 0.
Proof. destruct x as [| | | | | | | | | | | | | |[]| | |[]| | | | | | | | | | | | | |?? []| | | | | | | | | | | | | |]; done. Qed.

Lemma wsum_idle (w : frame → Z) fs : (∀ x, idle_frame x = true → w x = 0) → forallb idle_frame fs = true → wsum w fs = 0.
Proof. intros Hw H. apply wsum_zero. intros x Hx. rewrite forallb_forall in H. apply Hw, H. by apply list_elem_of_In. Qed.

Lemma job_ok_ext F F' qp qm qp' qm' j r :
  (∀ w, w ∈ [w_new j; w_loc j; w_todo j; w_in j; w_body j; w_final j; w_out j; w_over j] → F' w = F w) → qp' = qp → qm' = qm →
  job_ok F qp qm j r → job_ok F' qp' qm' j r.
Proof. intros H -> ->. unfold job_ok, fiber_ok. by rewrite !H by set_solver. Qed.

Lemma quiet_frame_ok K x : quiet x = true → frame_ok K x = true.
Proof. by destruct x as [| | | | | | | | | | | | | |[]| | |[]| | | | | | | | | | | | | |?? []| | | | | | | | | | | | | |]. Qed.

Lemma quiet_simple x : quiet x = true → simple x = true.
Proof. destruct x as [| | | | | | | | | | | | | |[]| | |[| | | |[]|]| | | | | | | | | | | | | |?? []| | | | | | | | | | | | | |]; done. Qed.

Lemma forallb_imp {A} (p q : A → bool) l : (∀ x, p x = true → q x = true) → forallb p l = true → forallb q l = true.
Proof. intros H. rewrite !forallb_forall. eauto. Qed.

Section step.
Context (s : partner) (HI : partner_inv s) (i : nat) (t : thread) (x : frame) (st : list frame).
Context (Ht : pt_threads s !! i = Some t) (Hst : th_stack t = x :: st).

(** A move between frames that hold no job. *)
Lemma idle_inv s1 fs :
  idle_frame x = true → forallb idle_frame fs = true → forallb simple fs = true → pt_threads s1 = pt_threads s → pt_jobs s1 = pt_jobs s →
  pt_fault s1 = pt_fault s → forallb (frame_ok (kind_of s)) fs = true →
  Forall (λ e, is_Some (kind_of s e.1)) (rq_q (pt_pq s1)) → Forall (λ e, is_fiber (kind_of s e.1) = true) (rq_q (pt_mq s1)) →
  (∀ j, queue_count j (pt_pq s1) = queue_count j (pt_pq s) ∧ queue_count j (pt_mq s1) = queue_count j (pt_mq s)) →
  partner_inv (go i fs s1).
Proof using HI Ht Hst.
  intros Hx Hf Hsi E1 E2 E3 Hk Hp Hm Hq. eapply partner_local_inv; [done|exact Ht|exact Hst| |done|done|by apply same_fibers_refl|done..|].
  - by destruct x.
  - intros j r r1 Hr Hr1 _ HJ. rewrite E2, Hr in Hr1. simplify_eq. destruct (Hq j) as [Q1 Q2].
    eapply job_ok_ext; [|exact Q1|exact Q2|exact HJ]. intros w Hw. destruct (idle_weights j x Hx) as (?&?&?&?&?&?&?&?).
    repeat (apply elem_of_cons in Hw as [->|Hw]; [rewrite (wsum_idle _ fs) by (first [exact Hf|intros y Hy; apply (idle_weights j y Hy)]); lia|]).
    by apply not_elem_of_nil in Hw.
Qed.

Lemma quiet_inv s1 fs :
  quiet x = true → forallb quiet fs = true → pt_threads s1 = pt_threads s → pt_jobs s1 = pt_jobs s → pt_fault s1 = pt_fault s →
  pt_pq s1 = pt_pq s → pt_mq s1 = pt_mq s → partner_inv (go i fs s1).
Proof using HI Ht Hst.
  intros Hx Hf E1 E2 E3 E4 E5. apply idle_inv; try done; rewrite ?E4, ?E5; try apply HI; try done.
  - unfold idle_frame. by rewrite Hx.
  - eapply forallb_imp; [|exact Hf]. intros y Hy. unfold idle_frame. by rewrite Hy.
  - eapply forallb_imp; [|exact Hf]. apply quiet_simple.
  - eapply forallb_imp; [|exact Hf]. apply quiet_frame_ok.
Qed.
End step.

(** ** The operations keep the invariant *)

Create HintDb partner.
#[local] Hint Unfold add_load add_cas add_inc_ref worker_loop worker_sub worker_stall_cas worker_sub2 worker_dec_ref size_head size_tail size_return
  add_size master_wait_exchange wait_test wait_loop wait_done has_job has_done wait_set wait_check wait_futex attr_stores add_test add_return
  wait_help : partner.

(** Splits the conditions of an operation. *)
Ltac partner_cases :=
  autounfold with partner;
  repeat match goal with
  | |- context [decide ?P] => destruct (decide P)
  | |- context [bool_decide ?P] => destruct (bool_decide_reflect P)
  | |- context [if ?b then _ else _] => destruct b eqn:?
  | |- context [match ?x with _ => _ end] => is_var x; destruct x
  end.

Section ops.
Context (s : partner) (HI : partner_inv s) (i : nat) (t : thread) (st : list frame) (Ht : pt_threads s !! i = Some t).

(** Frames whose step touches neither jobs nor the queues. *)
Definition plain_move (x : frame) : bool :=
  match x with
  | AddLoad _ _ _ | AddCas _ _ _ _ | AddInc | SizeHead _ | SizeTail _ _ | Worker | WSub | WStallCas | WSub2 | WDec
  | NXchg | WaitTest _ _ | WaitLoop _ | WaitDone _ | HasJob _ _ | HasDone _ _ _ | WaitSet _ | WaitCheck _
  | WaitFutex _ | WaitSleep _ | WaitXchg _ | Assign _ => true
  | _ => false
  end.

Lemma plain_move_inv x ch : th_stack t = x :: st → plain_move x = true → partner_inv (exec i x ch s).
Proof using HI Ht.
  intros Hst Hx. destruct x; try done; cbn [exec]; partner_cases; (eapply quiet_inv; [exact HI|exact Ht|exact Hst|done..]).
Qed.
End ops.

Lemma eqj_refl j : eqj j j = 1.
Proof. unfold eqj. by rewrite decide_True. Qed.

Lemma eqj_ne j j' : j ≠ j' → eqj j j' = 0.
Proof. intros. unfold eqj. by rewrite decide_False. Qed.

(** Solves the equations of a job by cases on its state. *)
Ltac job_arith HJ :=
  let r := lazymatch type of HJ with job_ok _ _ _ _ ?r => r end in
  unfold job_ok, fiber_ok, b2z_of in *; simpl in *; rewrite ?eqj_refl in *;
  repeat match goal with H : ?a ≠ ?b |- _ => progress rewrite ?(eqj_ne a b H) in * end;
  destruct (jb_stage r) eqn:?, (jb_kind r) eqn:?, (jb_final r) eqn:?, (jb_cont r) eqn:?; simpl in *;
  repeat match goal with H : _ ∧ _ |- _ => destruct H end; split_and?; try done; try lia.

(** Splits the jobs into the one that was changed, [j0], and the others. *)
Ltac job_split j0 Hr Hr1 :=
  simpl in Hr1;
  match type of Hr with
  | _ !! ?j = Some ?r =>
      destruct (decide (j = j0)) as [->|?];
      [rewrite list_lookup_alter_eq, Hr in Hr1; simpl in Hr1; simplify_eq|
       rewrite list_lookup_alter_ne, Hr in Hr1 by done; simplify_eq]
  end.

Lemma queue_count_push j j0 b q : queue_count j (queue_push j0 b q) = queue_count j q + eqj j j0.
Proof. unfold queue_count, queue_push. simpl. rewrite wsum_app. simpl. lia. Qed.

Lemma queue_count_publish j j0 q : queue_count j (queue_publish j0 q) = queue_count j q.
Proof. unfold queue_count, queue_publish. simpl. rewrite wsum_fmap. apply wsum_ext. intros [j' b]. simpl. by case_decide; subst. Qed.

Lemma queue_pop_spec ok q j0 q' : queue_pop ok q = Some (j0, q') → rq_q q = (j0, true) :: rq_q q' ∧ rq_iread q' = rq_iread q + 1.
Proof. unfold queue_pop. destruct (rq_q q) as [|[j []] l]; [done| |done]. destruct ok; [|done]. intros [= <- <-]. done. Qed.

Lemma queue_count_pop j ok q j0 q' : queue_pop ok q = Some (j0, q') → queue_count j q = queue_count j q' + eqj j j0.
Proof. intros [E _]%queue_pop_spec. unfold queue_count. rewrite E. simpl. lia. Qed.

Lemma queue_count_nonneg j q : 0 <= queue_count j q.
Proof. apply wsum_nonneg. intros e. apply eqj_nonneg. Qed.

Lemma Forall_publish (P : job → Prop) j0 q : P j0 → Forall (λ e, P e.1) (rq_q q) → Forall (λ e, P e.1) (rq_q (queue_publish j0 q)).
Proof. intros Hp H. unfold queue_publish. simpl. apply Forall_fmap. eapply Forall_impl; [exact H|]. intros [j b] ?. simpl in *. by case_decide. Qed.

Section ops.
Context (s : partner) (HI : partner_inv s) (i : nat) (t : thread) (st : list frame) (Ht : pt_threads s !! i = Some t).

Lemma submit_add_inv boost j0 ch : th_stack t = Submit boost j0 :: st → partner_inv (exec i (Submit boost j0) ch s).
Proof using HI Ht.
  intros Hst. cbn [exec]. unfold submit_add. pose proof (top_frame_ok s HI i t _ st Ht Hst) as Hk. simpl in Hk.
  eapply partner_local_inv; [exact HI|exact Ht|exact Hst|done..| | | | | |].
  - by eapply (same_fibers_set _ _ j0).
  - done.
  - simpl. by rewrite Hk.
  - apply HI.
  - apply HI.
  - intros j r r1 Hr Hr1 _ HJ. pose proof (top_sum s i t _ st Ht Hst (w_new j) (w_new_nonneg j)) as Hn. simpl in Hn.
    job_split j0 Hr Hr1; job_arith HJ.
Qed.

Lemma push_ok_some K a j : push_ok K a j = true → is_Some (K j).
Proof. destruct a; simpl; [apply bool_decide_eq_true|]. by destruct (K j). Qed.

Lemma after_push_quiet a : forallb quiet (after_push_frames a) = true.
Proof. by destruct a. Qed.

Lemma push_try_inv a j0 ch : th_stack t = Push a j0 :: st → partner_inv (exec i (Push a j0) ch s).
Proof using HI Ht.
  intros Hst. cbn [exec]. unfold push_try. pose proof (top_frame_ok s HI i t _ st Ht Hst) as Hk. simpl in Hk. pose proof (push_ok_some _ _ _ Hk).
  destruct (ch_ok ch).
  - eapply partner_local_inv; [exact HI|exact Ht|exact Hst|done|..].
    + destruct (ch_now ch); [by destruct a|done].
    + done.
    + by apply same_fibers_refl.
    + done.
    + destruct (ch_now ch); [by destruct a|]. simpl. by rewrite Hk.
    + simpl. apply Forall_app. split; [apply HI|]. by constructor.
    + apply HI.
    + intros j r r1 Hr Hr1 _ HJ. simpl in Hr1. rewrite Hr in Hr1. simplify_eq. cbn [pt_pq pt_mq set_field partner_eta]. simpl.
      rewrite queue_count_push. destruct (ch_now ch), a; job_arith HJ.
  - eapply partner_local_inv; [exact HI|exact Ht|exact Hst|done|done|done|by apply same_fibers_refl|done| |apply HI..|].
    + simpl. by rewrite Hk.
    + intros j r r1 Hr Hr1 _ HJ. simpl in Hr1. rewrite Hr in Hr1. simplify_eq. job_arith HJ.
Qed.

Lemma partner_push_publish_inv a j0 ch : th_stack t = Publish a j0 :: st → partner_inv (exec i (Publish a j0) ch s).
Proof using HI Ht.
  intros Hst. cbn [exec]. unfold push_publish. pose proof (top_frame_ok s HI i t _ st Ht Hst) as Hk. simpl in Hk. pose proof (push_ok_some _ _ _ Hk).
  eapply idle_inv; [exact HI|exact Ht|exact Hst|done|by destruct a|by destruct a|done|done|done|by destruct a| |apply HI|].
  - simpl. apply (Forall_publish (λ j, is_Some (kind_of s j))); [done|apply HI].
  - intros j. simpl. by rewrite queue_count_publish.
Qed.

(** What follows [try_run] in its caller. *)
Lemma try_return_simple r b : forallb simple (try_return r b) = true.
Proof. destruct r as [|o|o idx|a j| |]; try destruct b; try done; simpl; unfold wait_help; [case_decide|destruct (o_help o)]; done. Qed.

Lemma try_return_ok K r b : frame_ok K (Try r) = true → forallb (frame_ok K) (try_return r b) = true.
Proof.
  intros Hk. destruct r as [|o|o idx|a j| |]; try destruct b; try done; simpl in *; unfold wait_help; rewrite ?Hk; try done;
    [case_decide|destruct (o_help o)]; done.
Qed.

Definition try_weight (w : frame → Z) (r : try_ret) : Z := match r with RPush a j => w (Push a j) | _ => 0 end.

Lemma wsum_try_return (w : frame → Z) r b : (∀ x, quiet x = true → w x = 0) → wsum w (try_return r b) = try_weight w r.
Proof.
  intros Hw. destruct r as [|o|o idx|a j| |]; try destruct b; simpl; unfold wait_help; rewrite ?Hw by done; try done; try lia.
  - case_decide; simpl; rewrite ?Hw by done; done.
  - destruct (o_help o); rewrite Hw by done; done.
Qed.

Lemma quiet_weights j x :
  quiet x = true →
  w_new j x = 0 ∧ w_loc j x = 0 ∧ w_todo j x = 0 ∧ w_in j x = 0 ∧ w_body j x = 0 ∧ w_final j x = 0 ∧ w_out j x = 0 ∧ w_over j x = 0.
Proof. intros Hq. apply idle_weights. unfold idle_frame. by rewrite Hq. Qed.

(** A move from [try_run] to what follows it, on top of it the job [y]. *)
Lemma try_sums j r b ys :
  ∀ w, w ∈ [w_new j; w_loc j; w_todo j; w_in j; w_body j; w_final j; w_out j; w_over j] →
  frame_sum w s - w (Try r) + wsum w (ys ++ try_return r b) = frame_sum w s + wsum w ys.
Proof.
  intros w Hw. rewrite wsum_app, wsum_try_return.
  - repeat (apply elem_of_cons in Hw as [->|Hw]; [destruct r; simpl; lia|]). by apply not_elem_of_nil in Hw.
  - intros y Hy. pose proof (quiet_weights j y Hy) as (?&?&?&?&?&?&?&?).
    repeat (apply elem_of_cons in Hw as [->|Hw]; [done|]). by apply not_elem_of_nil in Hw.
Qed.

Lemma try_fail_inv r : th_stack t = Try r :: st → partner_inv (go i (try_return r false) s).
Proof using HI Ht.
  intros Hst. pose proof (top_frame_ok s HI i t _ st Ht Hst) as Hk.
  eapply partner_local_inv; [exact HI|exact Ht|exact Hst|done|apply try_return_simple|done|by apply same_fibers_refl|done| |apply HI..|].
  - by apply try_return_ok.
  - intros j r0 r1 Hr Hr1 _ HJ. rewrite Hr in Hr1. simplify_eq. eapply job_ok_ext; [|done|done|exact HJ].
    intros w Hw. pose proof (try_sums j r false [] w Hw) as Hs. unfold wsum in *. cbn in Hs |- *. lia.
Qed.

Lemma try_pop_inv r ok j0 q :
  th_stack t = Try r :: st → queue_pop ok (pt_pq s) = Some (j0, q) →
  partner_inv (go i (RunJob j0 :: try_return r true) (s <| pt_pq := q |>)).
Proof using HI Ht.
  intros Hst Hq. pose proof (top_frame_ok s HI i t _ st Ht Hst) as Hk. pose proof (queue_pop_spec _ _ _ _ Hq) as [Eq _].
  pose proof (pi_pq _ HI) as Hp. rewrite Eq in Hp. apply Forall_cons in Hp as [Hj0 Hp].
  eapply partner_local_inv; [exact HI|exact Ht|exact Hst|done|apply try_return_simple|done|by apply same_fibers_refl|done| |exact Hp|apply HI|].
  - simpl. rewrite bool_decide_eq_true_2 by done. by apply try_return_ok.
  - intros j r0 r1 Hr Hr1 _ HJ. simpl in Hr1. rewrite Hr in Hr1. simplify_eq.
    cut (job_ok (λ w, frame_sum w s + w (RunJob j0)) (queue_count j q) (queue_count j (pt_mq s)) j r1).
    + apply job_ok_ext; [|done|done]. intros w Hw. pose proof (try_sums j r true [RunJob j0] w Hw) as Hs. unfold wsum in *. cbn in Hs |- *. lia.
    + pose proof (queue_count_pop j _ _ _ _ Hq). job_arith HJ.
Qed.

Lemma try_pop_master_inv r ok f q :
  th_stack t = Try r :: st → queue_pop ok (pt_mq s) = Some (f, q) →
  partner_inv (go i (RunMaster f :: try_return r true) (s <| pt_mq := q |>)).
Proof using HI Ht.
  intros Hst Hq. pose proof (top_frame_ok s HI i t _ st Ht Hst) as Hk. pose proof (queue_pop_spec _ _ _ _ Hq) as [Eq _].
  pose proof (pi_mq _ HI) as Hp. rewrite Eq in Hp. apply Forall_cons in Hp as [Hj0 Hp].
  eapply partner_local_inv; [exact HI|exact Ht|exact Hst|done|apply try_return_simple|done|by apply same_fibers_refl|done| |apply HI|exact Hp|].
  - simpl in *. rewrite Hj0. by apply try_return_ok.
  - intros j r0 r1 Hr Hr1 _ HJ. simpl in Hr1. rewrite Hr in Hr1. simplify_eq.
    cut (job_ok (λ w, frame_sum w s + w (RunMaster f)) (queue_count j (pt_pq s)) (queue_count j q) j r1).
    + apply job_ok_ext; [|done|done]. intros w Hw. pose proof (try_sums j r true [RunMaster f] w Hw) as Hs. unfold wsum in *. cbn in Hs |- *. lia.
    + pose proof (queue_count_pop j _ _ _ _ Hq). job_arith HJ.
Qed.

Lemma try_run_inv r ch : th_stack t = Try r :: st → partner_inv (exec i (Try r) ch s).
Proof using HI Ht.
  intros Hst. cbn [exec]. unfold try_run.
  destruct r; (destruct (queue_pop _ _) as [[j' q]|] eqn:E; [|by apply try_fail_inv]); eauto using try_pop_inv, try_pop_master_inv.
Qed.

Lemma kind_some j k : kind_of s j = Some k → ∃ r, pt_jobs s !! j = Some r ∧ jb_kind r = k.
Proof. unfold kind_of. destruct (pt_jobs s !! j) as [r|]; simpl; [|done]. intros [= <-]. by exists r. Qed.

Lemma run_job_inv j0 ch : th_stack t = RunJob j0 :: st → partner_inv (exec i (RunJob j0) ch s).
Proof using HI Ht.
  intros Hst. cbn [exec]. unfold run_job. pose proof (top_frame_ok s HI i t _ st Ht Hst) as Hk. simpl in Hk.
  apply bool_decide_eq_true in Hk as [k Hk]. destruct (kind_some _ _ Hk) as (r0 & Hr0 & Hkr). rewrite Hr0.
  destruct (jb_kind r0) eqn:Ek; [|destruct (ch_ok ch)|];
    (eapply partner_local_inv; [exact HI|exact Ht|exact Hst|done|done|done|by apply same_fibers_refl|done| |apply HI..|];
     [simpl; by rewrite Hk, <-?Hkr|intros j r r1 Hr Hr1 _ HJ; rewrite Hr in Hr1; simplify_eq]).
  all: destruct (decide (j = j0)) as [->|?]; [rewrite Hr0 in Hr; simplify_eq|]; job_arith HJ.
Qed.

Lemma run_master_inv f ch : th_stack t = RunMaster f :: st → partner_inv (exec i (RunMaster f) ch s).
Proof using HI Ht.
  intros Hst. cbn [exec]. pose proof (top_frame_ok s HI i t _ st Ht Hst) as Hk. simpl in Hk.
  eapply partner_local_inv; [exact HI|exact Ht|exact Hst|done|done|done|by apply same_fibers_refl|done| |apply HI..|].
  - simpl. by rewrite Hk.
  - intros j r r1 Hr Hr1 _ HJ. rewrite Hr in Hr1. simplify_eq. job_arith HJ.
Qed.

Lemma done_one_inv j0 ch : th_stack t = DoneSub j0 :: st → partner_inv (exec i (DoneSub j0) ch s).
Proof using HI Ht.
  intros Hst. cbn [exec]. unfold done_one. eapply partner_local_inv; [exact HI|exact Ht|exact Hst|done| |done| |done| |apply HI..|].
  - by case_decide.
  - by eapply (same_fibers_set _ _ j0).
  - by case_decide.
  - intros j r r1 Hr Hr1 _ HJ. pose proof (top_sum s i t _ st Ht Hst (w_loc j) (w_loc_nonneg j)) as Hn.
    pose proof (top_sum s i t _ st Ht Hst (w_over j) (w_over_nonneg j)) as Ho.
    pose proof (queue_count_nonneg j (pt_pq s)). pose proof (queue_count_nonneg j (pt_mq s)).
    simpl in Hn, Ho. job_split j0 Hr Hr1; case_decide; job_arith HJ.
Qed.

(** The end of a job's function, or of one given to the master. *)
Lemma body_end_inv b ch : th_stack t = Body b :: st → (∀ f, b ≠ BFiber f) → partner_inv (exec i (Body b) ch s).
Proof using HI Ht.
  intros Hst Hb. cbn [exec]. pose proof (top_frame_ok s HI i t _ st Ht Hst) as Hk.
  destruct b as [j0|j0|f|f|allow|f]; simpl in *; [| |by destruct (Hb f)| | |].
  1,2: apply bool_decide_eq_true in Hk; destruct (kind_some _ _ Hk) as (r0 & Hr0 & Hkr);
    (eapply partner_local_inv; [exact HI|exact Ht|exact Hst|done|done|done|by eapply (same_fibers_set _ _ j0)|done|
      simpl; by rewrite Hk|apply HI|apply HI|]); intros j r r1 Hr Hr1 _ HJ; job_split j0 Hr Hr1; job_arith HJ.
  - eapply partner_local_inv; [exact HI|exact Ht|exact Hst|done|done|done|by apply same_fibers_refl|done| |apply HI..|].
    + simpl. by rewrite Hk.
    + intros j r r1 Hr Hr1 _ HJ. rewrite Hr in Hr1. simplify_eq.
      destruct (decide (j = f)) as [->|?]; [unfold kind_of in Hk; rewrite Hr in Hk; simpl in Hk|]; job_arith HJ.
  - eapply idle_inv; [exact HI|exact Ht|exact Hst|by destruct allow|done..|apply HI|apply HI|done].
  - eapply idle_inv; [exact HI|exact Ht|exact Hst|done..|apply HI|apply HI|done].
Qed.

(** What is left to do when the job is over. *)
Lemma after_done_inv x ch :
  th_stack t = x :: st → match x with Delete _ | FDestroy _ | FCallback _ => True | _ => False end → partner_inv (exec i x ch s).
Proof using HI Ht.
  intros Hst Hx. pose proof (top_frame_ok s HI i t _ st Ht Hst) as Hk. destruct x; try done; cbn [exec]; unfold on_done;
    (eapply idle_inv; [exact HI|exact Ht|exact Hst|done|..]); try done; try apply HI; simpl in *; try (by rewrite Hk).
  all: unfold kind_of in *; destruct (jb_kind <$> pt_jobs s !! f) as [[| |[]]|] eqn:E; simpl; rewrite ?E; done.
Qed.
End ops.

(** ** Calls, new threads and wake-ups *)

Lemma frame_ok_mono K K' x : (∀ j k, K j = Some k → K' j = Some k) → frame_ok K x = true → frame_ok K' x = true.
Proof.
  intros H.
  assert (H1 : ∀ j, bool_decide (is_Some (K j)) = true → bool_decide (is_Some (K' j)) = true).
  { intros j. rewrite !bool_decide_eq_true. intros [k Hk]. rewrite (H j k Hk). eauto. }
  assert (H2 : ∀ j, is_fiber (K j) = true → is_fiber (K' j) = true).
  { intros j. destruct (K j) as [k|] eqn:E; [|done]. by rewrite (H j k E). }
  assert (H3 : ∀ j k, bool_decide (K j = Some k) = true → bool_decide (K' j = Some k) = true).
  { intros j k. rewrite !bool_decide_eq_true. apply H. }
  destruct x as [|[]?|[]?| | | | | | | | | | | |[| | |[]?| |]| | |[]| | | | | | | | | | | | | | | | | | | | | | | | | | | |];
    simpl; eauto.
Qed.

Lemma w_bad_mono K K' x : (∀ j k, K j = Some k → K' j = Some k) → w_bad K' x <= w_bad K x.
Proof.
  intros H. unfold w_bad. destruct (frame_ok K x) eqn:E; [by rewrite (frame_ok_mono _ _ _ H E)|]. by destruct (frame_ok K' x).
Qed.

(** Jobs that do not exist yet are nowhere. *)
Lemma absent_sum (w : frame → Z) s j :
  partner_inv s → pt_jobs s !! j = None → (∀ x, 0 <= w x) → (∀ x, frame_ok (kind_of s) x = true → w x = 0) → frame_sum w s = 0.
Proof.
  intros HI Hj Hw Hz. pose proof (frame_sum_nonneg w s Hw). pose proof (pi_kind _ HI) as Hk. unfold frame_sum in *.
  assert (∀ l, wsum (w_bad (kind_of s)) l = 0 → wsum w l = 0) as Hl.
  { intros l Hb. apply wsum_zero. intros x [n Hn]%list_elem_of_lookup. apply Hz.
    pose proof (wsum_elem (w_bad (kind_of s)) l n x ltac:(auto) Hn) as Hle. rewrite Hb in Hle. unfold w_bad in Hle.
    destruct (frame_ok (kind_of s) x); [done|simpl in Hle; lia]. }
  pose proof (wsum_nonneg (thread_sum (w_bad (kind_of s))) (pt_threads s) ltac:(intros ?; by apply wsum_nonneg)).
  pose proof (wsum_nonneg (cont_sum (w_bad (kind_of s))) (pt_jobs s) ltac:(intros ?; by apply wsum_nonneg)).
  rewrite (wsum_zero (thread_sum w)), (wsum_zero (cont_sum w)); [done|..].
  - intros r [n Hn]%list_elem_of_lookup. apply Hl. pose proof (wsum_elem (cont_sum (w_bad (kind_of s))) _ n r ltac:(intros ?; by apply wsum_nonneg) Hn).
    unfold cont_sum in *. pose proof (wsum_nonneg (w_bad (kind_of s)) (default [] (jb_cont r)) ltac:(auto)). lia.
  - intros u [n Hn]%list_elem_of_lookup. apply Hl. pose proof (wsum_elem (thread_sum (w_bad (kind_of s))) _ n u ltac:(intros ?; by apply wsum_nonneg) Hn).
    unfold thread_sum in *. pose proof (wsum_nonneg (w_bad (kind_of s)) (th_stack u) ltac:(auto)). lia.
Qed.

(** A thread puts quiet frames on its stack. *)
Lemma partner_enter_inv s i t fs :
  partner_inv s → pt_threads s !! i = Some t → may_call t = true → forallb quiet fs = true → partner_inv (enter i fs s).
Proof.
  intros HI Ht Hm Hq. pose proof HI as [I1 I2 I3 I4 I5 I6 I7].
  assert (Hs : ∀ w, (∀ x, quiet x = true → w x = 0) → frame_sum w (enter i fs s) = frame_sum w s).
  { intros w Hw. rewrite (frame_sum_enter w i fs s t Ht), (wsum_zero w fs); [lia|]. intros x Hx. apply Hw.
    rewrite forallb_forall in Hq. apply Hq. by apply list_elem_of_In. }
  split; try done.
  - intros i' t'. unfold enter. simpl. destruct (decide (i' = i)) as [->|Hne].
    + rewrite list_lookup_alter_eq, Ht. intros [= <-]. apply thread_ok_enter; [by eapply I2|done|]. eapply forallb_imp; [apply quiet_simple|done].
    + rewrite list_lookup_alter_ne by done. apply I2.
  - rewrite Hs; [done|]. intros x Hx. unfold w_bad. change (kind_of (enter i fs s)) with (kind_of s). by rewrite quiet_frame_ok.
  - intros j r Hr. eapply job_ok_ext; [|done|done|by apply I7]. intros w Hw. apply Hs. intros x Hx.
    pose proof (quiet_weights j x Hx) as (?&?&?&?&?&?&?&?). repeat (apply elem_of_cons in Hw as [->|Hw]; [done|]). by apply not_elem_of_nil in Hw.
Qed.

Lemma eqj_absent (K : job → option kind) j j' : K j = None → bool_decide (is_Some (K j')) = true → eqj j j' = 0.
Proof. intros H Hb. apply eqj_ne. intros ->. rewrite H in Hb. apply bool_decide_eq_true in Hb. by apply is_Some_None in Hb. Qed.

Lemma eqj_absent_fiber (K : job → option kind) j j' : K j = None → is_fiber (K j') = true → eqj j j' = 0.
Proof. intros H Hb. apply eqj_ne. intros ->. by rewrite H in Hb. Qed.

Lemma eqj_absent_kind (K : job → option kind) j j' k : K j = None → bool_decide (K j' = Some k) = true → eqj j j' = 0.
Proof. intros H Hb. apply eqj_ne. intros ->. apply bool_decide_eq_true in Hb. congruence. Qed.

Lemma absent_weights K j x :
  K j = None → frame_ok K x = true →
  w_new j x = 0 ∧ w_loc j x = 0 ∧ w_todo j x = 0 ∧ w_in j x = 0 ∧ w_body j x = 0 ∧ w_final j x = 0 ∧ w_out j x = 0 ∧ w_over j x = 0.
Proof.
  intros HK Hx.
  destruct x as [|[]?|[]?| | | | | | | | | | | |[| | |[]?| |]| | |[]| | | | | | | | | | | | | |?? []| | | | | | | | | | | | | |]; simpl in *;
    split_and!; eauto using eqj_absent, eqj_absent_fiber, eqj_absent_kind.
Qed.

Lemma new_cont_ok K k j : K j = Some k → cont_sum (w_bad K) (new_job k j) = 0.
Proof. intros H. unfold cont_sum, new_job, w_bad. destruct k; simpl; [done..|]. by rewrite H. Qed.

Section new_job.
Context (s : partner) (HI : partner_inv s) (i : nat) (t : thread) (boost : bool) (k : kind).
Context (Ht : pt_threads s !! i = Some t) (Hm : may_call t = true).

Let j0 : job := length (pt_jobs s).
Let s1 : partner := s <| pt_jobs ::= λ l, l ++ [new_job k j0] |>.
Let s' : partner := enter i [Submit boost j0] s1.

Lemma new_job_sum w : frame_sum w s' = frame_sum w s + w (Submit boost j0) + cont_sum w (new_job k j0).
Proof using Ht.
  unfold s'. rewrite (frame_sum_enter w i _ s1 t Ht). unfold frame_sum. simpl. rewrite wsum_app. simpl. lia.
Qed.

Lemma new_job_absent : pt_jobs s !! j0 = None.
Proof. by apply lookup_ge_None. Qed.

Lemma new_job_kind j k' : kind_of s j = Some k' → kind_of s' j = Some k'.
Proof.
  unfold kind_of, s', enter. simpl. destruct (pt_jobs s !! j) as [r|] eqn:E; [|done]. by rewrite (lookup_app_l_Some _ _ _ _ E).
Qed.

Lemma new_job_kind_new : kind_of s' j0 = Some k.
Proof. unfold kind_of, s', enter, j0. simpl. rewrite lookup_app_r, Nat.sub_diag by done. done. Qed.

Lemma new_job_final j : final_of s' j = final_of s j.
Proof.
  unfold final_of, s', enter. simpl. destruct (decide (j < j0)%nat) as [Hlt|Hge].
  - by rewrite lookup_app_l.
  - rewrite lookup_app_r by (unfold j0 in *; lia). rewrite (lookup_ge_None_2 (pt_jobs s)) by (unfold j0 in *; lia).
    by destruct (j - length (pt_jobs s))%nat as [|[]].
Qed.

(** The sums over the frames for a job that did not exist. *)
Lemma new_job_zero w :
  w ∈ [w_new j0; w_loc j0; w_todo j0; w_in j0; w_body j0; w_final j0; w_out j0; w_over j0] → frame_sum w s = 0.
Proof using HI.
  intros Hw. assert (kind_of s j0 = None) as HK by (unfold kind_of; by rewrite new_job_absent).
  apply (absent_sum w s j0 HI new_job_absent).
  - intros x. repeat (apply elem_of_cons in Hw as [->|Hw]; [auto|]). by apply not_elem_of_nil in Hw.
  - intros x Hx. pose proof (absent_weights _ j0 x HK Hx) as (?&?&?&?&?&?&?&?).
    repeat (apply elem_of_cons in Hw as [->|Hw]; [done|]). by apply not_elem_of_nil in Hw.
Qed.

Lemma new_job_queues : queue_count j0 (pt_pq s) = 0 ∧ queue_count j0 (pt_mq s) = 0.
Proof using HI.
  assert (kind_of s j0 = None) as HK by (unfold kind_of; by rewrite new_job_absent).
  split; apply wsum_zero; intros e He.
  - pose proof (proj1 (Forall_forall _ _) (pi_pq _ HI) e He) as Hk. apply (eqj_absent _ _ _ HK). by apply bool_decide_eq_true.
  - pose proof (proj1 (Forall_forall _ _) (pi_mq _ HI) e He) as Hk. by apply (eqj_absent_fiber _ _ _ HK).
Qed.

Lemma new_job_inv : partner_inv s'.
Proof using HI Ht Hm.
  pose proof HI as [I1 I2 I3 I4 I5 I6 I7]. split; [done|..].
  - intros i' t'. unfold s', enter. simpl. destruct (decide (i' = i)) as [->|Hne].
    + rewrite list_lookup_alter_eq, Ht. intros [= <-]. eapply thread_ok_ext; [exact new_job_final|]. apply (thread_ok_enter _ t [_]); [by eapply I2|done|done].
    + rewrite list_lookup_alter_ne by done. intros Ht'. eapply thread_ok_ext; [exact new_job_final|by eapply I2].
  - intros f r c Hr Hc. unfold s', enter in Hr. simpl in Hr. apply lookup_app_Some in Hr as [Hr|[Hge Hr]]; [by eapply I3|].
    apply list_lookup_singleton_Some in Hr as [Hf <-]. assert (f = j0) as -> by (unfold j0; lia).
    destruct k; simpl in Hc; simplify_eq. simpl. by repeat constructor.
  - rewrite new_job_sum. unfold w_bad at 2. simpl. rewrite new_job_kind_new, bool_decide_eq_true_2 by eauto. simpl.
    assert (frame_sum (w_bad (kind_of s')) s <= frame_sum (w_bad (kind_of s)) s) as Hle.
    { unfold frame_sum. apply Z.add_le_mono; apply wsum_le; intros y; apply wsum_le; intros x; apply w_bad_mono, new_job_kind. }
    pose proof (frame_sum_nonneg (w_bad (kind_of s')) s ltac:(auto)). rewrite (new_cont_ok _ _ _ new_job_kind_new). lia.
  - eapply Forall_impl; [exact I5|]. intros e [k' He]. rewrite (new_job_kind _ _ He). eauto.
  - eapply Forall_impl; [exact I6|]. intros e. cbv beta. destruct (kind_of s e.1) as [k'|] eqn:E; [|done]. by rewrite (new_job_kind _ _ E).
  - intros j r Hr. unfold s', enter in Hr. simpl in Hr. apply lookup_app_Some in Hr as [Hr|[Hge Hr]].
    + assert (j ≠ j0) as Hne by (apply lookup_lt_Some in Hr; unfold j0; lia). specialize (I7 j r Hr).
      eapply job_ok_ext; [|done|done|exact I7]. intros w Hw. cbv beta. rewrite new_job_sum.
      repeat (apply elem_of_cons in Hw as [->|Hw]; [unfold cont_sum, new_job; destruct k; simpl; rewrite ?(eqj_ne j j0 Hne); lia|]).
      by apply not_elem_of_nil in Hw.
    + apply list_lookup_singleton_Some in Hr as [Hj <-]. assert (j = j0) as -> by (unfold j0; lia).
      pose proof new_job_queues as [Q1 Q2]. change (pt_pq s') with (pt_pq s). change (pt_mq s') with (pt_mq s). rewrite Q1, Q2.
      pose proof new_job_zero as Hz. unfold job_ok, fiber_ok. rewrite !new_job_sum, !Hz by set_solver.
      unfold b2z_of, cont_sum, new_job. destruct k; simpl; rewrite ?eqj_refl; split_and!; done.
Qed.
End new_job.

(** A worker task. *)
Lemma spawn_inv s id :
  partner_inv s → partner_inv (s <| pt_threads ::= λ l, l ++ [mk_thread id false None false [Worker]] |>).
Proof.
  intros HI. pose proof HI as [I1 I2 I3 I4 I5 I6 I7]. set (s' := s <| pt_threads ::= _ |>).
  assert (Hs : ∀ w, w Worker = 0 → frame_sum w s' = frame_sum w s).
  { intros w Hw. unfold frame_sum, s'. simpl. rewrite wsum_app. unfold thread_sum at 2. simpl. lia. }
  split; try done.
  - intros i t. unfold s'. simpl. intros [Ht|[_ Ht]]%lookup_app_Some; [by eapply I2|].
    apply list_lookup_singleton_Some in Ht as [_ <-]. split; simpl; try done. by right.
  - by rewrite Hs.
  - intros j r Hr. eapply job_ok_ext; [|done|done|by apply I7]. intros w Hw. apply Hs.
    repeat (apply elem_of_cons in Hw as [->|Hw]; [done|]). by apply not_elem_of_nil in Hw.
Qed.

Lemma wake_marker x : marker (wake_frame x) = marker x.
Proof. by destruct x. Qed.

Lemma wake_cur base k : stack_cur base (wake_frame <$> k) = stack_cur base k.
Proof. induction k as [|x k IH]; csimpl; [done|]. by rewrite wake_marker, IH. Qed.

Lemma wake_here base x k : frame_here base x k → frame_here base (wake_frame x) (wake_frame <$> k).
Proof.
  destruct x as [| | | | | | | | | | | | | | | | |[| | | |[]|]| | | | | | | | | | | | | | | | | | | | | | | | | | | |]; simpl; rewrite ?wake_cur; try done;
    destruct k as [|y k]; csimpl; [done| |done|]; by destruct y.
Qed.

Lemma wake_stack_ok base k : stack_ok base k → stack_ok base (wake_frame <$> k).
Proof. induction k as [|x k IH]; csimpl; [done|]. intros [? ?]. split; [by apply wake_here|auto]. Qed.

Lemma wake_thread_ok fin t : thread_ok fin t → thread_ok fin (wake_thread t).
Proof.
  intros [T1 T2 T3 T4]. split; unfold wake_thread; simpl.
  - by rewrite wake_cur.
  - by apply wake_stack_ok.
  - destruct (th_stack t) as [|x k]; csimpl; [done|]. simpl in T3. apply Forall_fmap. eapply Forall_impl; [exact T3|]. intros y. by destruct y.
  - unfold cond_ok in *. simpl. destruct (th_stack t) as [|x k]; csimpl; [done|]. destruct x; simpl in *; try done.
Qed.

Lemma frame_sum_wake w s :
  (∀ x, w (wake_frame x) = w x) → frame_sum w (s <| pt_threads ::= fmap wake_thread |>) = frame_sum w s.
Proof.
  intros Hw. unfold frame_sum. simpl. rewrite wsum_fmap. f_equal. apply wsum_ext. intros t. unfold thread_sum, wake_thread. simpl.
  rewrite wsum_fmap. by apply wsum_ext.
Qed.

Lemma wake_inv s : partner_inv s → partner_inv (s <| pt_threads ::= fmap wake_thread |>).
Proof.
  intros HI. pose proof HI as [I1 I2 I3 I4 I5 I6 I7]. split; try done.
  - intros i t'. simpl. rewrite list_lookup_fmap. destruct (pt_threads s !! i) as [t|] eqn:Ht; simpl; [|done]. intros [= <-].
    apply wake_thread_ok. by eapply I2.
  - rewrite frame_sum_wake; [done|]. by intros [].
  - intros j r Hr. eapply job_ok_ext; [|done|done|by apply I7]. intros w Hw. apply frame_sum_wake. intros x.
    repeat (apply elem_of_cons in Hw as [->|Hw]; [by destruct x|]). by apply not_elem_of_nil in Hw.
Qed.

Section fibers.
Context (s : partner) (HI : partner_inv s) (i : nat) (t : thread) (st : list frame) (Ht : pt_threads s !! i = Some t).

(** Waking the sleepers, and then moving on to quiet frames. *)
Lemma partner_notify_inv x fs : th_stack t = x :: st → quiet x = true → wake_frame x = x → forallb quiet fs = true → partner_inv (partner_notify_all i fs s).
Proof using HI Ht.
  intros Hst Hx Hwk Hf. unfold partner_notify_all.
  assert (pt_threads (s <| pt_threads ::= fmap wake_thread |>) !! i = Some (wake_thread t)) as Ht' by (simpl; by rewrite list_lookup_fmap, Ht).
  eapply quiet_inv; [by apply wake_inv|exact Ht'| |exact Hx|exact Hf|done..]. unfold wake_thread. simpl. rewrite Hst. csimpl. by rewrite Hwk.
Qed.

Lemma add_spawn_inv ch : th_stack t = AddSpawn :: st → partner_inv (exec i AddSpawn ch s).
Proof using HI Ht.
  intros Hst. cbn [exec]. unfold add_spawn. apply spawn_inv. eapply quiet_inv; [exact HI|exact Ht|exact Hst|done..].
Qed.

(** From one frame of [start] after the switch to the next. *)
Lemma ret_thread_ok fin x y :
  thread_ok fin t → th_stack t = x :: st → is_ret x = true → is_ret y = true → marker y = marker x → frame_here None y st →
  match y with FOut _ _ => False | _ => True end → thread_ok fin (t <| th_stack ::= λ st, [y] ++ tail st |>).
Proof.
  intros [T1 T2 T3 T4] Hst Hx Hy Hm Hh Hf. rewrite Hst in T1, T2, T3. destruct T2 as [_ T2]. split; simpl; rewrite ?Hst; simpl.
  - by rewrite Hm.
  - done.
  - done.
  - unfold cond_ok. simpl. destruct y; try done; by left.
Qed.

(** Of two weights the sum of the smaller stays below by what it lacks at the top. *)
Lemma frame_sum_le_top w w' x :
  th_stack t = x :: st → (∀ y, w y <= w' y) → frame_sum w s + (w' x - w x) <= frame_sum w' s.
Proof using Ht.
  intros Hst Hle. unfold frame_sum.
  assert (wsum (cont_sum w) (pt_jobs s) <= wsum (cont_sum w') (pt_jobs s)) by (apply wsum_le; intros r; by apply wsum_le).
  pose proof (wsum_le_at (thread_sum w) (thread_sum w') (pt_threads s) i t ltac:(intros u; by apply wsum_le) Ht) as H1.
  unfold thread_sum in H1 at 2 3. rewrite Hst in H1. simpl in H1. pose proof (wsum_le w w' st Hle). lia.
Qed.

Lemma w_over_loc j x : w_over j x <= w_loc j x.
Proof. destruct x as [| | | | | | | | | | | | | |[]| | |[]| | | | | | | | | | | | | |?? []| | | | | | | | | | | | | |]; simpl; auto; lia. Qed.
Lemma w_out_loc j x : w_out j x <= w_loc j x.
Proof. destruct x as [| | | | | | | | | | | | | |[]| | |[]| | | | | | | | | | | | | |?? []| | | | | | | | | | | | | |]; simpl; auto; lia. Qed.
Lemma w_in_loc j x : w_in j x <= w_loc j x.
Proof. destruct x as [| | | | | | | | | | | | | |[]| | |[]| | | | | | | | | | | | | |?? []| | | | | | | | | | | | | |]; simpl; auto; lia. Qed.

Lemma job_stage j r : pt_jobs s !! j = Some r → 1 <= frame_sum (w_loc j) s → frame_sum (w_loc j) s = 1 ∧ jb_stage r = Counted.
Proof using HI.
  intros Hr Hl. destruct (pi_jobs _ HI j r Hr) as (_ & J2 & _). pose proof (queue_count_nonneg j (pt_pq s)). pose proof (queue_count_nonneg j (pt_mq s)).
  unfold b2z_of in J2. case_decide; [|lia]. split; [lia|done].
Qed.

Lemma fiber_kind f : is_fiber (kind_of s f) = true → ∃ r d, pt_jobs s !! f = Some r ∧ jb_kind r = Fiber d.
Proof. unfold kind_of. destruct (pt_jobs s !! f) as [r|]; [|done]. simpl. destruct (jb_kind r) as [| |d] eqn:E; [done..|]. eauto. Qed.

Lemma fiber_facts f r d : pt_jobs s !! f = Some r → jb_kind r = Fiber d → fiber_ok (λ w, frame_sum w s) f r.
Proof using HI. intros Hr Hk. destruct (pi_jobs _ HI f r Hr) as (_ & _ & J3). by rewrite Hk in J3. Qed.

Lemma fiber_out_inv f sv ch : th_stack t = FOut f sv :: st → partner_inv (exec i (FOut f sv) ch s).
Proof using HI Ht.
  intros Hst. cbn [exec]. unfold fiber_out. rewrite Ht. simpl. pose proof (top_frame_ok s HI i t _ st Ht Hst) as Hk. simpl in Hk.
  destruct (fiber_kind f Hk) as (r0 & d0 & Hr0 & Hk0). rewrite Hr0. simpl. pose proof (pi_threads _ HI i t Ht) as Hok.
  pose proof (to_cond _ _ Hok) as Hc. unfold cond_ok in Hc. rewrite Hst in Hc. unfold final_of in Hc. rewrite Hr0 in Hc. simpl in Hc.
  pose proof (to_stack _ _ Hok) as Hh. rewrite Hst in Hh. destruct Hh as [Hh _]. simpl in Hh.
  pose proof (top_sum s i t _ st Ht Hst (w_loc f) (w_loc_nonneg f)) as Hl. simpl in Hl. rewrite eqj_refl in Hl.
  pose proof (frame_sum_le_top (w_over f) (w_loc f) _ Hst (w_over_loc f)) as Ho. simpl in Ho. rewrite eqj_refl in Ho.
  pose proof (top_sum s i t _ st Ht Hst (w_out f) (w_out_nonneg f)) as Hu. simpl in Hu. rewrite eqj_refl in Hu.
  destruct (job_stage f r0 Hr0 Hl) as [Hl1 Hs0].
  eapply (partner_move_inv s HI i t _ st Ht Hst _ (λ t, t <| th_stack ::= λ st, _ ++ tail st |>)); [reflexivity|simpl; by rewrite Hst| |by apply same_fibers_refl|done| |apply HI..|].
  - rewrite Hc. destruct (jb_final r0); (eapply ret_thread_ok; [exact Hok|exact Hst|done..]).
  - rewrite Hc. destruct (jb_final r0); simpl; by rewrite Hk.
  - intros j r r' Hr Hr' _ HJ. simpl in Hr'. rewrite Hr in Hr'. simplify_eq. rewrite Hc. destruct (decide (j = f)) as [->|Hne].
    + rewrite Hr0 in Hr. simplify_eq. destruct (jb_final r') eqn:Ef; simpl; unfold job_ok, fiber_ok, b2z_of in *; rewrite Hs0, Hk0, Ef in *; simpl in *;
        rewrite ?eqj_refl; destruct_and!; split_and!; lia || done.
    + destruct (jb_final r0); job_arith HJ.
Qed.

(** The frames [MPush] to [FRet] of [start]. *)
Lemma ret_move_inv x y s1 :
  th_stack t = x :: st → is_ret x = true → is_ret y = true → marker y = marker x → frame_here None y st →
  match y with FOut _ _ => False | _ => True end → pt_threads s1 = pt_threads s → pt_jobs s1 = pt_jobs s → pt_fault s1 = pt_fault s →
  pt_pq s1 = pt_pq s → Forall (λ e, is_fiber (kind_of s e.1) = true) (rq_q (pt_mq s1)) →
  (∀ j, w_loc j y + queue_count j (pt_mq s1) = w_loc j x + queue_count j (pt_mq s) ∧ w_over j y = w_over j x ∧ w_out j y = w_out j x) →
  partner_inv (go i [y] s1).
Proof using HI Ht.
  intros Hst Hx Hy Hm Hh Hno E1 E2 E3 E4 Hq Hw. pose proof (top_frame_ok s HI i t _ st Ht Hst) as Hk.
  eapply (partner_move_inv s HI i t x st Ht Hst (go i [y] s1) (λ t, t <| th_stack ::= λ st, [y] ++ tail st |>) [y]).
  - unfold go. simpl. by rewrite E1.
  - simpl. by rewrite Hst.
  - eapply ret_thread_ok; [by eapply pi_threads|exact Hst|done..].
  - by apply same_fibers_refl.
  - done.
  - simpl. destruct x, y; simpl in *; simplify_eq; by rewrite Hk.
  - change (pt_pq (go i [y] s1)) with (pt_pq s1). rewrite E4. apply HI.
  - exact Hq.
  - intros j r r' Hr Hr' _ HJ. change (pt_jobs (go i [y] s1)) with (pt_jobs s1) in Hr'. rewrite E2, Hr in Hr'. simplify_eq.
    change (pt_pq (go i [y] s1)) with (pt_pq s1). change (pt_mq (go i [y] s1)) with (pt_mq s1). rewrite E4.
    destruct (Hw j) as (H1 & H2 & H3). unfold job_ok, fiber_ok in *.
    assert (∀ v, is_ret v = true → w_new j v = 0 ∧ w_todo j v = 0 ∧ w_in j v = 0 ∧ w_body j v = 0 ∧ w_final j v = 0) as Hz by (by intros []).
    destruct (Hz x Hx) as (?&?&?&?&?), (Hz y Hy) as (?&?&?&?&?). cbn [wsum foldr]. destruct (jb_kind r'); destruct_and!; split_and!; lia || done.
Qed.

Lemma ret_here x : th_stack t = x :: st → frame_here None x st.
Proof using HI Ht. intros Hst. pose proof (to_stack _ _ (pi_threads _ HI i t Ht)) as Hh. rewrite Hst in Hh. apply Hh. Qed.

Lemma master_push_inv f sv d ch : th_stack t = MPush f sv d :: st → partner_inv (exec i (MPush f sv d) ch s).
Proof using HI Ht.
  intros Hst. cbn [exec]. unfold master_push. pose proof (ret_here _ Hst) as [Hh ->].
  pose proof (top_frame_ok s HI i t _ st Ht Hst) as Hk. simpl in Hk.
  assert (Forall (λ e, is_fiber (kind_of s e.1) = true) (rq_q (pt_mq s) ++ [(f, ch_now ch)])) by (apply Forall_app; split; [apply HI|by constructor]).
  destruct (ch_ok ch); [|done].
  destruct (ch_now ch) eqn:En; (eapply ret_move_inv; [exact Hst|done..|]); intros j; simpl; rewrite queue_count_push; lia.
Qed.

Lemma master_publish_inv f sv d ch : th_stack t = MPublish f sv d :: st → partner_inv (exec i (MPublish f sv d) ch s).
Proof using HI Ht.
  intros Hst. cbn [exec]. unfold master_publish. pose proof (ret_here _ Hst) as [Hh ->].
  pose proof (top_frame_ok s HI i t _ st Ht Hst) as Hk. simpl in Hk.
  eapply ret_move_inv; [exact Hst|done..| |].
  - simpl. apply (Forall_publish (λ j, is_fiber (kind_of s j) = true)); [done|apply HI].
  - intros j. simpl. by rewrite queue_count_publish.
Qed.

Lemma master_xchg_inv f sv d ch : th_stack t = MXchg f sv d :: st → partner_inv (exec i (MXchg f sv d) ch s).
Proof using HI Ht.
  intros Hst. cbn [exec]. unfold master_wait_exchange. pose proof (ret_here _ Hst) as [Hh ->].
  destruct (decide _); (eapply ret_move_inv; [exact Hst|done..|apply HI|done]).
Qed.
End fibers.

Lemma master_notify_inv s i t st f sv d ch :
  partner_inv s → pt_threads s !! i = Some t → th_stack t = MNotify f sv d :: st → partner_inv (exec i (MNotify f sv d) ch s).
Proof.
  intros HI Ht Hst. cbn [exec]. unfold partner_notify_all. pose proof (ret_here s HI i t st Ht _ Hst) as [Hh ->].
  assert (pt_threads (s <| pt_threads ::= fmap wake_thread |>) !! i = Some (wake_thread t)) as Ht' by (simpl; by rewrite list_lookup_fmap, Ht).
  pose proof (wake_inv s HI) as HI'. eapply (ret_move_inv _ HI' i _ (wake_frame <$> st) Ht' (MNotify f sv false)); try done.
  - unfold wake_thread. simpl. by rewrite Hst.
  - simpl. by rewrite wake_cur.
  - apply HI.
Qed.

(** ** Switching in and out *)

Section switch.
Context (s : partner) (HI : partner_inv s) (i : nat) (t : thread) (st : list frame) (Ht : pt_threads s !! i = Some t).

Lemma fiber_return_inv f sv d ch : th_stack t = FRet f sv d :: st → partner_inv (exec i (FRet f sv d) ch s).
Proof using HI Ht.
  intros Hst. cbn [exec]. unfold fiber_return. pose proof (ret_here s HI i t st Ht _ Hst) as Hh. simpl in Hh.
  pose proof (top_frame_ok s HI i t _ st Ht Hst) as Hk. simpl in Hk. destruct (fiber_kind s f Hk) as (r0 & d0 & Hr0 & Hk0).
  pose proof (pi_threads _ HI i t Ht) as [_ T2 T3 _]. rewrite Hst in T2, T3. destruct T2 as [_ T2]. simpl in T3.
  eapply (partner_move_inv s HI i t _ st Ht Hst _ _ (if d then [DoneSub f; FDestroy f] else [])); [reflexivity|simpl; by rewrite Hst| | |done| |apply HI..|].
  - split; simpl; rewrite ?Hst; simpl.
    + destruct d; exact Hh.
    + by destruct d.
    + destruct d; simpl; [by constructor|by apply Forall_tail].
    + apply nonret_cond; simpl; [|done]. destruct d; simpl; [by repeat constructor|done].
  - by apply same_fibers_refl.
  - destruct d; simpl; [|done]. unfold kind_of in *. rewrite Hr0 in *. simpl in *. by rewrite Hk.
  - intros j r r' Hr Hr' _ HJ. simpl in Hr'. change (pt_jobs s !! j = Some r') in Hr'. rewrite Hr in Hr'. simplify_eq.
    eapply job_ok_ext; [|done|done|exact HJ]. intros w Hw.
    repeat (apply elem_of_cons in Hw as [->|Hw]; [destruct d; simpl; lia|]). by apply not_elem_of_nil in Hw.
Qed.

Lemma same_here_ok fin x y :
  thread_ok fin t → th_stack t = x :: st → marker x = None → marker y = None → frame_here None y st →
  thread_ok fin (t <| th_stack ::= λ st, [y] ++ tail st |>).
Proof.
  intros [T1 T2 T3 T4] Hst Hx Hy Hh. rewrite Hst in T1, T2, T3. simpl in T1. rewrite Hx in T1. destruct T2 as [_ T2].
  split; simpl; rewrite ?Hst; simpl.
  - by rewrite Hy.
  - done.
  - done.
  - apply nonret_cond; simpl; [constructor; [by apply marker_none_ret|done]|]. eapply cond_nonret; [exact T4|exact Hst|by apply marker_none_ret].
Qed.

(** The end of a suspendable job's function. *)
Lemma body_fiber_inv f ch : th_stack t = Body (BFiber f) :: st → partner_inv (exec i (Body (BFiber f)) ch s).
Proof using HI Ht.
  intros Hst. cbn [exec body_end]. pose proof (ret_here s HI i t st Ht _ Hst) as Hh.
  pose proof (top_frame_ok s HI i t _ st Ht Hst) as Hk. simpl in Hk. destruct (fiber_kind s f Hk) as (r0 & d0 & Hr0 & Hk0).
  eapply (partner_move_inv s HI i t _ st Ht Hst _ (λ t, t <| th_stack ::= λ st, [FFinal f] ++ tail st |>) [FFinal f]);
    [reflexivity|simpl; by rewrite Hst| |by eapply (same_fibers_set _ _ f)|done| |apply HI..|].
  - eapply same_here_ok; [by eapply pi_threads|exact Hst|done..].
  - simpl. by rewrite Hk.
  - intros j r r' Hr Hr' _ HJ. unfold go, set_job in Hr'. job_split f Hr Hr'; job_arith HJ.
Qed.

(** A function given to the master that is run at once. *)
Lemma inline_inv allow : th_stack t = ToMaster allow :: st → (allow = false → th_cur t = None) → partner_inv (go i [Body (BInline allow)] s).
Proof using HI Ht.
  intros Hst Ha. pose proof (pi_threads _ HI i t Ht) as Hok.
  eapply (partner_move_inv s HI i t _ st Ht Hst _ (λ t, t <| th_stack ::= λ st, [Body (BInline allow)] ++ tail st |>) [Body (BInline allow)]);
    [reflexivity|simpl; by rewrite Hst| |by apply same_fibers_refl|done|done|apply HI..|].
  - eapply same_here_ok; [exact Hok|exact Hst|done..|]. destruct allow; simpl; [done|].
    pose proof (to_cur _ _ Hok) as Hc. rewrite Hst in Hc. simpl in Hc. rewrite <-Hc. by apply Ha.
  - intros j r r' Hr Hr' _ HJ. change (pt_jobs s !! j = Some r') in Hr'. rewrite Hr in Hr'. simplify_eq.
    eapply job_ok_ext; [|done|done|exact HJ]. intros w Hw.
    repeat (apply elem_of_cons in Hw as [->|Hw]; [simpl; lia|]). by apply not_elem_of_nil in Hw.
Qed.

(** One thread and one fiber change together; [d] is what this does to the sums. *)
Lemma fiber_step_inv s' g gj f (d : (frame → Z) → Z) :
  pt_threads s' = alter g i (pt_threads s) → pt_jobs s' = alter gj f (pt_jobs s) →
  (∀ r, jb_kind (gj r) = jb_kind r) → pt_fault s' = false → pt_pq s' = pt_pq s → pt_mq s' = pt_mq s →
  (∀ w, frame_sum w s' = frame_sum w s + d w) → d (w_bad (kind_of s)) = 0 →
  thread_ok (final_of s') (g t) →
  (∀ i' t', i' ≠ i → pt_threads s !! i' = Some t' → thread_ok (final_of s) t' → thread_ok (final_of s') t') →
  (∀ r c, pt_jobs s !! f = Some r → jb_cont (gj r) = Some c → stack_ok (Some f) c ∧ Forall (λ x, marker x = None) c) →
  (∀ j w, j ≠ f → w ∈ [w_new j; w_loc j; w_todo j; w_in j; w_body j; w_final j; w_out j; w_over j] → d w = 0) →
  (∀ r, pt_jobs s !! f = Some r → job_ok (λ w, frame_sum w s) (queue_count f (pt_pq s)) (queue_count f (pt_mq s)) f r →
     job_ok (λ w, frame_sum w s + d w) (queue_count f (pt_pq s)) (queue_count f (pt_mq s)) f (gj r)) →
  partner_inv s'.
Proof using HI Ht.
  intros E1 E2 Hgk Ef Ep Em Hs Hd Hok Hoth Hc Hdj HJ. pose proof HI as [I1 I2 I3 I4 I5 I6 I7].
  assert (Hkk : ∀ j, kind_of s' j = kind_of s j).
  { intros j. unfold kind_of. rewrite E2. destruct (decide (j = f)) as [->|]; [rewrite list_lookup_alter_eq|by rewrite list_lookup_alter_ne].
    destruct (pt_jobs s !! f); simpl; [by rewrite Hgk|done]. }
  split; [done|..].
  - intros i' t'. rewrite E1. destruct (decide (i' = i)) as [->|Hne].
    + rewrite list_lookup_alter_eq, Ht. by intros [= <-].
    + rewrite list_lookup_alter_ne by done. intros Ht'. eapply Hoth; [done..|by eapply I2].
  - intros j r c. rewrite E2. destruct (decide (j = f)) as [->|Hne].
    + rewrite list_lookup_alter_eq. destruct (pt_jobs s !! f) as [r0|] eqn:Er; [|done]. intros [= <-]. by apply Hc.
    + rewrite list_lookup_alter_ne by done. apply I3.
  - rewrite (frame_sum_w_ext _ (w_bad (kind_of s))) by (intros y; unfold w_bad; by rewrite (frame_ok_ext _ _ y Hkk)).
    rewrite Hs, I4, Hd. done.
  - rewrite Ep. eapply Forall_impl; [exact I5|]. intros e He. by rewrite Hkk.
  - rewrite Em. eapply Forall_impl; [exact I6|]. intros e He. by rewrite Hkk.
  - intros j r. rewrite E2, Ep, Em. destruct (decide (j = f)) as [->|Hne].
    + rewrite list_lookup_alter_eq. destruct (pt_jobs s !! f) as [r0|] eqn:Er; [|done]. intros [= <-].
      eapply job_ok_ext; [|done|done|apply HJ; [done|by apply I7]]. intros w _. apply Hs.
    + rewrite list_lookup_alter_ne by done. intros Hr. eapply job_ok_ext; [|done|done|by apply I7]. intros w Hw. cbv beta.
      rewrite Hs, (Hdj j w Hne Hw). lia.
Qed.

(** Frames saved in a fiber, back on a stack. *)
Lemma stack_ok_in f sv c k :
  stack_ok (Some f) c → Forall (λ x, marker x = None) c → stack_ok None k → sv = stack_cur None k → stack_ok None (c ++ FIn f sv :: k).
Proof.
  intros Hc Hm Hk Hs. induction c as [|x c IH]; simpl; [done|]. destruct Hc as [Hx Hc]. inversion Hm as [|? ? Hmx Hmc]; subst.
  split; [|by apply IH].
  assert (stack_cur None (c ++ FIn f (stack_cur None k) :: k) = Some f) as Hcur.
  { clear -Hmc. induction Hmc as [|y c Hy _ IH]; simpl; [done|]. by rewrite Hy. }
  assert (stack_cur (Some f) c = Some f) as Hcur'.
  { clear -Hmc. induction Hmc as [|y c Hy _ IH]; simpl; [done|]. by rewrite Hy. }
  destruct x as [| | | | | | | | | | | | | | | | |[| | | |[]|]| | | | | | | | | | | | | | | | | | | | | | | | | | | |]; simpl in *; try done; try congruence.
  - destruct c as [|y c]; simpl; [by simplify_eq|]. by destruct y.
  - destruct c as [|y c]; simpl; [by simplify_eq|]. by destruct y.
Qed.

Lemma cur_in f sv c k : Forall (λ x, marker x = None) c → stack_cur None (c ++ FIn f sv :: k) = Some f.
Proof. induction 1 as [|y c Hy _ IH]; simpl; [done|]. by rewrite Hy. Qed.

Lemma final_of_set s' f gj j :
  pt_jobs s' = alter gj f (pt_jobs s) → (∀ r, jb_final (gj r) = jb_final r) → final_of s' j = final_of s j.
Proof.
  intros E Hg. unfold final_of. rewrite E. destruct (decide (j = f)) as [->|]; [rewrite list_lookup_alter_eq|by rewrite list_lookup_alter_ne].
  destruct (pt_jobs s !! f); simpl; [by rewrite Hg|done].
Qed.

(** A fiber about to be started is switched out. *)
Lemma start_cont f :
  th_stack t = FStart f :: st → ∃ r c d, pt_jobs s !! f = Some r ∧ jb_kind r = Fiber d ∧ jb_cont r = Some c ∧ jb_final r = false.
Proof using HI Ht.
  intros Hst. pose proof (top_frame_ok s HI i t _ st Ht Hst) as Hk. simpl in Hk. destruct (fiber_kind s f Hk) as (r & d & Hr & Hkr).
  pose proof (top_sum s i t _ st Ht Hst (w_loc f) (w_loc_nonneg f)) as Hl. simpl in Hl. rewrite eqj_refl in Hl.
  destruct (job_stage s HI f r Hr Hl) as [Hl1 Hs].
  pose proof (frame_sum_le_top s i t st Ht (w_in f) (w_loc f) _ Hst (w_in_loc f)) as Hi. simpl in Hi. rewrite eqj_refl in Hi.
  pose proof (frame_sum_le_top s i t st Ht (w_out f) (w_loc f) _ Hst (w_out_loc f)) as Ho. simpl in Ho. rewrite eqj_refl in Ho.
  destruct (fiber_facts s HI f r d Hr Hkr) as (F1 & F2 & _). unfold b2z_of in *. rewrite Hs in F2. simpl in F2.
  pose proof (frame_sum_nonneg (w_in f) s (w_in_nonneg f)). destruct (jb_final r) eqn:Ef; simpl in *; [lia|].
  destruct (jb_cont r) as [c|] eqn:Ec; simpl in F1; [|lia]. by exists r, c, d.
Qed.

Lemma fiber_start_inv f ch : th_stack t = FStart f :: st → partner_inv (exec i (FStart f) ch s).
Proof using HI Ht.
  intros Hst. destruct (start_cont f Hst) as (r0 & c & d & Hr0 & Hk0 & Hc0 & Hf0). cbn [exec].
  pose proof (pi_threads _ HI i t Ht) as Hok. pose proof Hok as [T1 T2 T3 T4]. rewrite Hst in T1, T2, T3. simpl in T1. destruct T2 as [_ T2].
  destruct (pi_conts _ HI f r0 c Hr0 Hc0) as [Hcok Hcm]. pose proof (top_frame_ok s HI i t _ st Ht Hst) as Hk. simpl in Hk.
  eapply (fiber_step_inv _ _ _ _ (λ w, w (FIn f (th_cur t)) - w (FStart f))).
  - unfold fiber_start. rewrite Hr0. simpl. rewrite Hc0. reflexivity.
  - unfold fiber_start. rewrite Hr0. simpl. rewrite Hc0. reflexivity.
  - done.
  - unfold fiber_start. rewrite Hr0. simpl. rewrite Hc0. apply HI.
  - unfold fiber_start. rewrite Hr0. simpl. by rewrite Hc0.
  - unfold fiber_start. rewrite Hr0. simpl. by rewrite Hc0.
  - intros w. rewrite (frame_sum_start w i f s t st c r0 Ht Hst Hr0 Hc0). lia.
  - unfold w_bad. simpl. by rewrite Hk.
  - assert (Forall (λ x, is_ret x = false) (c ++ FIn f (th_cur t) :: st)) as Hnr.
    { apply Forall_app. split; [eapply Forall_impl; [exact Hcm|]; apply marker_none_ret|]. by constructor. }
    split; cbn [th_stack th_cur]; rewrite ?Hst; cbn [tail].
    + by rewrite cur_in.
    + by apply stack_ok_in.
    + by apply Forall_tail.
    + apply nonret_cond; simpl; [done|done].
  - intros i' t' _ _ Ht'. eapply thread_ok_ext; [|exact Ht']. intros j. eapply final_of_set.
    + unfold fiber_start. rewrite Hr0. simpl. rewrite Hc0. reflexivity.
    + done.
  - done.
  - intros j w Hne Hw. repeat (apply elem_of_cons in Hw as [->|Hw]; [simpl; rewrite ?(eqj_ne j f Hne); lia|]). by apply not_elem_of_nil in Hw.
  - intros r Hr HJ. rewrite Hr0 in Hr. simplify_eq. unfold job_ok, fiber_ok, b2z_of in *. simpl. rewrite Hk0, Hc0, Hf0 in *. simpl in *.
    rewrite ?eqj_refl. destruct_and!. split_and!; lia.
Qed.

(** The stack of a thread in a fiber splits at that fiber. *)
Lemma split_in_cur k f :
  stack_cur None k = Some f → Forall (λ x, is_ret x = false) k →
  ∃ seg sv k', split_in k = Some (seg, (f, sv), k') ∧ Forall (λ x, marker x = None) seg.
Proof.
  induction k as [|x k IH]; simpl; [done|]. intros Hc Hr. inversion Hr as [|? ? Hx Hk]; subst.
  destruct (marker x) as [[g sv]|] eqn:Em.
  - destruct x; simplify_eq/=. by exists [], sv, k.
  - destruct (IH Hc Hk) as (seg & sv & k' & E & Hm). exists (x :: seg), sv, k'. split; [|by constructor].
    destruct x; simplify_eq/=; by rewrite E.
Qed.

Lemma stack_ok_app base k1 k2 : stack_ok base (k1 ++ k2) → stack_ok base k2.
Proof. induction k1 as [|x k1 IH]; simpl; [done|]. intros [_ ?]. auto. Qed.

Lemma stack_ok_seg f sv seg k :
  stack_ok None (seg ++ FIn f sv :: k) → Forall (λ x, marker x = None) seg → stack_ok (Some f) seg.
Proof.
  intros H Hm. induction seg as [|x seg IH]; simpl in *; [done|]. destruct H as [Hx H]. inversion Hm as [|? ? Hmx Hms]; subst.
  split; [|by apply IH]. pose proof (cur_in f sv seg k Hms) as Hcur.
  assert (stack_cur (Some f) seg = Some f) as Hcur'.
  { clear -Hms. induction Hms as [|y seg Hy _ IH]; simpl; [done|]. by rewrite Hy. }
  destruct x as [| | | | | | | | | | | | | | | | |[| | | |[]|]| | | | | | | | | | | | | | | | | | | | | | | | | | | |]; simpl in *; try done; try congruence.
  - destruct seg as [|y seg]; simpl in *; [by rewrite Hx|]. by destruct y.
  - destruct seg as [|y seg]; simpl in *; [by rewrite Hx|]. by destruct y.
Qed.

(** The fiber that is in. *)
Lemma suspend_in x f sv seg k :
  th_stack t = x :: st → split_in st = Some (seg, (f, sv), k) →
  ∃ r d, pt_jobs s !! f = Some r ∧ jb_kind r = Fiber d ∧ jb_cont r = None ∧ jb_final r = false ∧ jb_stage r = Counted ∧
  frame_sum (w_loc f) s = 1 ∧ frame_sum (w_in f) s = 1 ∧ frame_sum (w_out f) s = 0 ∧ frame_sum (w_over f) s = 0.
Proof using HI Ht.
  intros Hst Hsp. pose proof (split_in_app _ _ _ _ _ Hsp) as Es. assert (Hin : FIn f sv ∈ th_stack t) by (rewrite Hst, Es; set_solver).
  assert (frame_ok (kind_of s) (FIn f sv) = true) as Hk.
  { pose proof (frame_sum_elem (w_bad (kind_of s)) s i t _ ltac:(auto) Ht Hin) as Hb. rewrite (pi_kind _ HI) in Hb. unfold w_bad in Hb.
    destruct (frame_ok _ _); [done|simpl in Hb; lia]. }
  destruct (fiber_kind s f Hk) as (r & d & Hr & Hkr). exists r, d.
  pose proof (frame_sum_elem (w_loc f) s i t _ ltac:(auto) Ht Hin) as Hl. simpl in Hl. rewrite eqj_refl in Hl.
  pose proof (frame_sum_elem (w_in f) s i t _ ltac:(auto) Ht Hin) as Hi. simpl in Hi. rewrite eqj_refl in Hi.
  destruct (job_stage s HI f r Hr Hl) as [Hl1 Hs]. destruct (fiber_facts s HI f r d Hr Hkr) as (F1 & _ & F3 & F4 & _).
  pose proof (frame_sum_nonneg (w_out f) s ltac:(auto)). pose proof (frame_sum_nonneg (w_over f) s ltac:(auto)).
  assert (frame_sum (λ y, w_in f y + w_out f y) s <= frame_sum (w_loc f) s) as Hle.
  { unfold frame_sum. apply Z.add_le_mono; apply wsum_le; intros ?; apply wsum_le; intros y;
      destruct y as [| | | | | | | | | | | | | |[]| | |[]| | | | | | | | | | | | | |?? []| | | | | | | | | | | | | |]; simpl; pose proof (eqj_nonneg f); try lia; auto. }
  assert (frame_sum (λ y, w_in f y + w_out f y) s = frame_sum (w_in f) s + frame_sum (w_out f) s) as Hadd.
  { apply frame_sum_add. }
  unfold b2z_of in *. destruct (decide (jb_cont r = None)) as [Ec|], (jb_final r) eqn:Ef; simpl in *; [lia| |lia..]. split_and!; try done; lia.
Qed.

(** [suspend] in a fiber [f], at the end of it if [is_final]. *)
Section suspend.
Context (x : frame) (is_final : bool) (f : job) (sv : option job) (seg k : list frame).
Context (Hst : th_stack t = x :: st) (Hx : marker x = None) (Hq : ∀ j, w_new j x = 0 ∧ w_loc j x = 0 ∧ w_todo j x = 0 ∧ w_in j x = 0 ∧
  w_body j x = 0 ∧ w_final j x = (if is_final then eqj j f else 0) ∧ w_out j x = 0 ∧ w_over j x = 0).
Context (Hcur : th_cur t = Some f) (Hsp : split_in st = Some (seg, (f, sv), k)) (Hm : Forall (λ x, marker x = None) seg).
Context (Hfin : is_final = true → seg = []).

Lemma suspend_split : st = seg ++ FIn f sv :: k.
Proof using Hsp. by apply split_in_app. Qed.

Lemma suspend_inv : partner_inv (fiber_suspend i is_final s).
Proof using All.
  destruct (suspend_in x f sv seg k Hst Hsp) as (r0 & d & Hr0 & Hk0 & Hc0 & Hf0 & Hs0 & L1 & L2 & L3 & L4). pose proof suspend_split as Es.
  pose proof (pi_threads _ HI i t Ht) as Hok. pose proof Hok as [T1 T2 T3 T4]. rewrite Hst, Es in T2. destruct T2 as [_ T2].
  rewrite Hst, Es in T3. cbn [tail] in T3. apply Forall_app in T3 as [_ T3]. pose proof (stack_ok_app _ _ _ T2) as T2'. simpl in T2'. destruct T2' as [Hsv T2'].
  assert (E : fiber_suspend i is_final s = set_job f (λ r, if is_final then r <| jb_final := true |> <| jb_cont := None |> else r <| jb_cont := Some seg |>)
    (set_thread i (λ t, mk_thread (th_id t) (th_client t) (th_cur t) (negb is_final || th_cond t) (FOut f sv :: k)) s)).
  { unfold fiber_suspend. rewrite Ht, Hcur, Hst. cbn [tail]. by rewrite Hsp, decide_True. }
  assert (Hcond : th_cond t = false) by (eapply cond_nonret; [exact T4|exact Hst|by apply marker_none_ret]).
  assert (Hfo : ∀ j, final_of (fiber_suspend i is_final s) j = if decide (j = f) then is_final else final_of s j).
  { intros j. rewrite E. unfold final_of, set_job. simpl. case_decide as Hj; [subst; rewrite list_lookup_alter_eq, Hr0|by rewrite list_lookup_alter_ne].
    simpl. by destruct is_final. }
  eapply (fiber_step_inv _ _ _ f (λ w, w (FOut f sv) - w (FIn f sv) - w x)); [rewrite E; reflexivity|rewrite E; reflexivity|by destruct is_final
    |rewrite E; apply HI|by rewrite E|by rewrite E|..].
  - intros w. rewrite (frame_sum_suspend w i is_final s t x seg f sv k r0); try done; [lia|by rewrite Hst, Es|by rewrite <-Es].
  - pose proof (top_frame_ok s HI i t x st Ht Hst) as Hkx. unfold w_bad. rewrite Hkx. simpl. lia.
  - split; simpl.
    + exact Hcur.
    + done.
    + by inversion T3.
    + unfold cond_ok. simpl. rewrite Hfo, decide_True, Hcond by done. by destruct is_final.
  - intros i' t' Hne Ht' [U1 U2 U3 U4]. split; try done. unfold cond_ok in *. destruct (th_stack t') as [|y k'] eqn:Ek; [done|].
    destruct y as [| | | | | | | | | | | | | | | | | | | | | | | | | |g sv'| | | | | | | | | | | | | | | | | | |]; try done.
    rewrite Hfo. rewrite decide_False; [done|]. intros ->.
    pose proof (frame_sum_elem (w_out f) s i' t' (FOut f sv') ltac:(auto) Ht' ltac:(rewrite Ek; left)) as Ho. simpl in Ho. rewrite eqj_refl in Ho. lia.
  - intros r c _ Hc. destruct is_final; [done|]. simplify_eq/=. split; [by eapply stack_ok_seg|done].
  - intros j w Hne Hw. destruct (Hq j) as (?&?&?&?&?&Hfj&?&?). rewrite (eqj_ne j f Hne) in Hfj.
    assert (w_final j x = 0) by (by destruct is_final).
    repeat (apply elem_of_cons in Hw as [->|Hw]; [simpl; rewrite ?(eqj_ne j f Hne); lia|]). by apply not_elem_of_nil in Hw.
  - intros r Hr HJ. rewrite Hr0 in Hr. simplify_eq. destruct (Hq f) as (?&?&?&?&?&Hff&?&?). rewrite eqj_refl in Hff.
    unfold job_ok, fiber_ok, b2z_of in *. destruct is_final; simpl; rewrite Hk0, Hs0, Hf0, Hc0 in *; simpl in *; rewrite ?eqj_refl; destruct_and!; split_and!; lia.
Qed.
End suspend.
End switch.

(** ** The invariant holds in every state *)

Lemma to_master_inv s i t st allow ch :
  partner_inv s → pt_threads s !! i = Some t → th_stack t = ToMaster allow :: st → partner_inv (exec i (ToMaster allow) ch s).
Proof.
  intros HI Ht Hst. cbn [exec]. unfold submit_to_master. rewrite Ht. pose proof (pi_threads _ HI i t Ht) as Hok.
  destruct (th_cur t) as [f|] eqn:Hc; simpl; [|by eapply inline_inv].
  destruct (allow && _) eqn:Ha; [apply andb_prop in Ha as [-> _]; by eapply inline_inv|].
  pose proof (to_cur _ _ Hok) as Hcur. rewrite Hst, Hc in Hcur. simpl in Hcur.
  pose proof (to_ret _ _ Hok) as Hr. rewrite Hst in Hr. simpl in Hr.
  destruct (split_in_cur st f (eq_sym Hcur) Hr) as (seg & sv & k & Hsp & Hm).
  by eapply (suspend_inv s HI i t st Ht (ToMaster allow) false f sv seg k).
Qed.

Lemma final_inv s i t st f ch :
  partner_inv s → pt_threads s !! i = Some t → th_stack t = FFinal f :: st → partner_inv (exec i (FFinal f) ch s).
Proof.
  intros HI Ht Hst. cbn [exec]. pose proof (pi_threads _ HI i t Ht) as Hok. pose proof (ret_here s HI i t st Ht _ Hst) as Hh. simpl in Hh.
  destruct st as [|[| | | | | | | | | | | | | | | | | | | | | | | |g sv| | | | | | | | | | | | | | | | | | | | |] k]; try done. subst g.
  pose proof (to_cur _ _ Hok) as Hcur. rewrite Hst in Hcur. simpl in Hcur.
  by eapply (suspend_inv s HI i t (FIn f sv :: k) Ht (FFinal f) true f sv [] k).
Qed.

Lemma exec_inv s i t x st ch :
  partner_inv s → pt_threads s !! i = Some t → th_stack t = x :: st → partner_inv (exec i x ch s).
Proof.
  intros HI Ht Hst. destruct (plain_move x) eqn:Hp; [by eapply plain_move_inv|].
  destruct x as [| | | | | | | | | | | | | | | | |b| | | | | | | | | | | | | | | | | | | | | | | | | | | |]; try done;
    eauto using submit_add_inv, push_try_inv, partner_push_publish_inv, add_spawn_inv, try_run_inv, run_job_inv, run_master_inv, done_one_inv,
      to_master_inv, fiber_start_inv, final_inv, fiber_out_inv, master_push_inv, master_publish_inv, master_xchg_inv, master_notify_inv, fiber_return_inv.
  - destruct b; try (by eapply body_end_inv). by eapply body_fiber_inv.
  - by eapply partner_notify_inv.
  - by eapply after_done_inv.
  - by eapply after_done_inv.
  - by eapply after_done_inv.
  - by eapply partner_notify_inv.
Qed.

Lemma call_inv s i t c : partner_inv s → pt_threads s !! i = Some t → may_call t = true → partner_inv (do_call i c s).
Proof. intros HI Ht Hm. destruct c; cbn [do_call]; try (by eapply partner_enter_inv). by eapply new_job_inv. Qed.

Lemma step_inv U s s' : partner_inv s → partner_step U s s' → partner_inv s'.
Proof. intros HI Hs. inversion Hs as [? i t c Ht Hm|? i t x st ch Ht Hst]; subst; eauto using call_inv, exec_inv. Qed.

Lemma ctor_inv a token ids : partner_inv (job_partner_ctor a token ids).
Proof.
  assert (Hs : ∀ w, frame_sum w (job_partner_ctor a token ids) = 0).
  { intros w. unfold frame_sum. simpl. rewrite wsum_fmap, wsum_zero; done. }
  split; simpl; rewrite ?Hs; try done.
  intros i t. rewrite list_lookup_fmap. destruct (ids !! i); [|done]. intros [= <-]. by split.
Qed.

Lemma partner_reachable U a token ids s : rtc (partner_step U) (job_partner_ctor a token ids) s → partner_inv s.
Proof. apply rtc_invariant; [apply ctor_inv|]. intros ??. apply step_inv. Qed.

End PartnerSafety.
