(* ===== verification/PartnerLive.v ===== *)
(** * Counting and waiting in the job partner

    For [JobPartner]: fibers are switched safely; [job_num] counts the jobs that are
    submitted and not over, so that [wait] returns only when all are; [partner_num]
    counts the workers and stays below the bound.  Runs are evaluated by [run]. *)

From S2P Require Import Prelude LfQueue JobPartner PartnerSafety.

Module PartnerLive.
Import Partner PartnerSafety.

(** ** What a step does to a sum *)

Lemma start_sum w s i t st f ch :
  partner_inv s → pt_threads s !! i = Some t → th_stack t = FStart f :: st →
  ∃ sv, frame_sum w (exec i (FStart f) ch s) = frame_sum w s - w (FStart f) + w (FIn f sv).
Proof.
  intros HI Ht Hst. destruct (start_cont s HI i t st Ht f Hst) as (r & c & d & Hr & _ & Hc & _).
  eexists. by eapply frame_sum_start.
Qed.

Lemma suspend_sum w s i t st x f sv seg k is_final :
  partner_inv s → pt_threads s !! i = Some t → th_stack t = x :: st → th_cur t = Some f → split_in st = Some (seg, (f, sv), k) →
  (is_final = true → seg = []) →
  frame_sum w (fiber_suspend i is_final s) = frame_sum w s - w x - w (FIn f sv) + w (FOut f sv).
Proof.
  intros HI Ht Hst Hc Hsp Hf. pose proof (split_in_app _ _ _ _ _ Hsp) as Es.
  destruct (suspend_in s HI i t st Ht x f sv seg k Hst Hsp) as (r & d & Hr & _ & Hcr & _).
  eapply frame_sum_suspend; try done; [by rewrite Hst, Es|by rewrite <-Es].
Qed.

(** Frames of switches, and user code. *)
Definition switchy (x : frame) : bool :=
  match x with FStart _ | FIn _ _ | FFinal _ | FOut _ _ | ToMaster _ | Body _ => true | _ => false end.

(** What does not change when a fiber is switched. *)
Record switched (s s' : partner) : Prop := {
  sw_attr : pt_attr s' = pt_attr s;
  sw_token : pt_token s' = pt_token s;
  sw_partner_num : pt_partner_num s' = pt_partner_num s;
  sw_job_num : pt_job_num s' = pt_job_num s;
  sw_pq : pt_pq s' = pt_pq s;
  sw_mq : pt_mq s' = pt_mq s;
  sw_master_wait : pt_master_wait s' = pt_master_wait s;
  sw_ref : pt_ref s' = pt_ref s;
  sw_peak : pt_peak s' = pt_peak s;
  sw_stage : jb_stage <$> pt_jobs s' = jb_stage <$> pt_jobs s;
}.

Lemma stage_alter g j (l : list job_obj) : (∀ r, jb_stage (g r) = jb_stage r) → jb_stage <$> alter g j l = jb_stage <$> l.
Proof.
  intros Hg. apply list_eq. intros n. rewrite !list_lookup_fmap. destruct (decide (n = j)) as [->|]; [|by rewrite list_lookup_alter_ne].
  rewrite list_lookup_alter_eq. destruct (l !! j); simpl; [by rewrite Hg|done].
Qed.

Lemma suspend_switched s i is_final : switched s (fiber_suspend i is_final s).
Proof.
  unfold fiber_suspend. destruct (pt_threads s !! i) as [t|]; [|by split]. destruct (th_cur t) as [j|]; [|by split].
  destruct (split_in _) as [[[seg [f sv]] k]|]; [|by split]. case_decide; [|by split].
  split; try done. simpl. apply stage_alter. by destruct is_final.
Qed.

Lemma switch_step w s i t x st ch :
  partner_inv s → pt_threads s !! i = Some t → th_stack t = x :: st →
  match x with FStart _ | FFinal _ | ToMaster _ => True | _ => False end → (∀ y, switchy y = true → w y = 0) →
  switched s (exec i x ch s) ∧ frame_sum w (exec i x ch s) = frame_sum w s.
Proof.
  intros HI Ht Hst Hx Hw. pose proof (pi_threads _ HI i t Ht) as Hok. pose proof (to_cur _ _ Hok) as Hcur. rewrite Hst in Hcur.
  pose proof (to_ret _ _ Hok) as Hr. rewrite Hst in Hr. simpl in Hr.
  destruct x as [| | | | | | | | | | | | | | | | | | | | | |allow|f| |f| | | | | | | | | | | | | | | | | | | |]; try done; simpl in Hcur.
  - cbn [exec]. unfold submit_to_master. rewrite Ht. case_match.
    + split; [by split|]. rewrite (frame_sum_go w i _ s t _ st Ht Hst). simpl. rewrite !Hw by done. lia.
    + split; [apply suspend_switched|]. destruct (th_cur t) as [f|] eqn:Hc; [|done].
      destruct (split_in_cur st f (eq_sym Hcur) Hr) as (seg & sv & k & Hsp & _).
      rewrite (suspend_sum w s i t st _ f sv seg k false HI Ht Hst Hc Hsp) by done. rewrite !Hw by done. lia.
  - destruct (start_cont s HI i t st Ht f Hst) as (r & c & d & Hr0 & _ & Hc & _). split.
    + cbn [exec]. unfold fiber_start. rewrite Hr0. simpl. rewrite Hc. split; try done. simpl. by apply stage_alter.
    + destruct (start_sum w s i t st f ch HI Ht Hst) as [sv ->]. rewrite !Hw by done. lia.
  - cbn [exec]. split; [apply suspend_switched|]. pose proof (ret_here s HI i t st Ht _ Hst) as Hh. simpl in Hh.
    destruct st as [|[| | | | | | | | | | | | | | | | | | | | | | | |g sv| | | | | | | | | | | | | | | | | | | | |] k]; try done. subst g. simpl in Hcur.
    rewrite (suspend_sum w s i t (FIn f sv :: k) _ f sv [] k true HI Ht Hst) by done. rewrite !Hw by done. lia.
Qed.

Lemma frame_sum_ret w s i t st f sv d :
  pt_threads s !! i = Some t → th_stack t = FRet f sv d :: st →
  frame_sum w (fiber_return i f sv d s) = frame_sum w s - w (FRet f sv d) + wsum w (if d then [DoneSub f; FDestroy f] else []).
Proof.
  intros Ht Hst. unfold fiber_return, frame_sum, set_thread. simpl. rewrite (wsum_alter _ _ _ _ _ Ht). unfold thread_sum. simpl.
  rewrite Hst. simpl. rewrite wsum_app. lia.
Qed.

Lemma frame_sum_spawn w s i t st ch :
  pt_threads s !! i = Some t → th_stack t = AddSpawn :: st → frame_sum w (add_spawn i ch s) = frame_sum w s - w AddSpawn + w Worker.
Proof.
  intros Ht Hst. unfold add_spawn. transitivity (frame_sum w (go i [] s) + w Worker).
  - unfold frame_sum. simpl. rewrite wsum_app. unfold thread_sum at 2. simpl. lia.
  - rewrite (frame_sum_go w i [] s t _ st Ht Hst). simpl. lia.
Qed.

(** Replaces the sums after a step by the sums before it. *)
Ltac sums s Ht Hst :=
  repeat match goal with
  | |- context [?p (go ?i ?fs ?S)] => change (p (go i fs S)) with (p S)
  | |- context [pt_jobs (set_job ?j ?g ?S)] => change (pt_jobs (set_job j g S)) with (alter g j (pt_jobs S))
  | |- context [?p (set_job ?j ?g ?S)] => change (p (set_job j g S)) with (p S)
  end; simpl;
  repeat match goal with
  | |- context [frame_sum ?w (go ?i ?fs ?S)] => rewrite (frame_sum_go w i fs S _ _ _ Ht Hst)
  | |- context [frame_sum ?w (set_job ?j ?g ?S)] => rewrite (frame_sum_set_job w j g S) by done
  | |- context [frame_sum ?w ?S] => lazymatch S with s => fail | _ => change (frame_sum w S) with (frame_sum w s) end
  end.


(** ** The counters *)

Definition counted (r : job_obj) : Z := b2z_of (jb_stage r = Counted).

(** Counted in [partner_num]. *)
Definition w_count (x : frame) : Z :=
  match x with
  | AddInc | AddSpawn | Worker | Try RWorker | WSub | WSub2 | SizeHead SStall | SizeTail SStall _ | SizeHead SStallEnd | SizeTail SStallEnd _ => 1
  | _ => 0
  end.

(** Holds a reference for a worker. *)
Definition w_ref (x : frame) : Z :=
  match x with
  | AddSpawn | Worker | Try RWorker | WSub | WStallCas | WSub2 | SizeHead SStall | SizeTail SStall _ | SizeHead SStallEnd | SizeTail SStallEnd _
  | SizeHead SExit | SizeTail SExit _ | AddLoad _ _ RRetake | SizeHead (SAdd _ _ _ RRetake) | SizeTail (SAdd _ _ _ RRetake) _
  | AddCas _ _ _ RRetake | WDec => 1
  | _ => 0
  end.

(** Would exceed the bound [m] if it added a worker. *)
Definition w_excess (m : Z) (x : frame) : Z :=
  match x with
  | SizeHead (SAdd _ _ wn _) | SizeTail (SAdd _ _ wn _) _ | AddCas _ _ wn _ => if decide (0 <= wn < m) then 0 else 1
  | _ => 0
  end.

Definition partner_bound (s : partner) : Z := 1 `max` pt_peak s.

Record counts_inv (s : partner) : Prop := {
  ct_job : pt_job_num s = u64 (wsum counted (pt_jobs s));
  ct_num : pt_partner_num s = frame_sum w_count s;
  ct_bound : pt_partner_num s <= partner_bound s;
  ct_wn : frame_sum (w_excess (partner_bound s)) s = 0;
  ct_max : 0 <= pa_max_parallelism (pt_attr s) <= pt_peak s ∧ pt_peak s <= UINT64_MAX;
  ct_ref : pt_ref s = 1 + frame_sum w_ref s;
}.

Lemma w_count_nonneg x : 0 <= w_count x.
Proof. destruct x as [| | | | | | |[]|[]| | | | | |[]| | | | | | | | | | | | | | | | | | | | | | | | | | | | | | |]; simpl; lia. Qed.

Lemma w_excess_nonneg m x : 0 <= w_excess m x.
Proof.
  destruct x as [| | | | | | |[]|[]| | | | | |[]| | | | | | | | | | | | | | | | | | | | | | | | | | | | | | |]; simpl; try lia; case_decide; lia.
Qed.

Lemma u64_bound z : 0 <= u64 z <= UINT64_MAX.
Proof. unfold u64, UINT64_MAX. pose proof (uw_range 64 z). lia. Qed.

Lemma u64_fix z : 0 <= z <= UINT64_MAX → u64 z = z.
Proof. intros H. apply u64_id. exact H. Qed.

Lemma counted_set j g l r : l !! j = Some r → wsum counted (alter g j l) = wsum counted l - counted r + counted (g r).
Proof. apply wsum_alter. Qed.

Lemma wsum_switched s s' : jb_stage <$> pt_jobs s' = jb_stage <$> pt_jobs s → wsum counted (pt_jobs s') = wsum counted (pt_jobs s).
Proof.
  intros E. assert (∀ l, wsum counted l = wsum (λ st, b2z_of (st = Counted)) (jb_stage <$> l)) as Hl by (intros l; by rewrite wsum_fmap).
  by rewrite !Hl, E.
Qed.

Lemma switched_counts s s' :
  switched s s' → (∀ w, (∀ y, switchy y = true → w y = 0) → frame_sum w s' = frame_sum w s) → counts_inv s → counts_inv s'.
Proof.
  intros [E1 E2 E3 E4 E5 E6 E7 E8 E9 E10] Hs [C1 C2 C3 C4 C5 C6]. unfold partner_bound in *.
  split; unfold partner_bound; rewrite ?E1, ?E3, ?E4, ?E8, ?E9, ?Hs; try done; try (by intros []).
  by rewrite (wsum_switched s s' E10).
Qed.

Create HintDb counts.
#[export] Hint Unfold push_try push_publish try_run try_return run_job body_end after_push_frames add_load add_cas add_inc_ref worker_loop worker_sub worker_stall_cas worker_sub2 worker_dec_ref size_head size_tail size_return
  add_size master_wait_exchange wait_test wait_loop wait_done has_job has_done wait_set wait_check wait_futex add_test add_return
  wait_help fiber_out master_push master_publish fiber_return on_done : counts.

Ltac counts_cases :=
  autounfold with counts;
  repeat match goal with
  | |- context [if ?b then _ else _] => destruct b eqn:?
  | |- context [match ?x with _ => _ end] => destruct x eqn:?
  end.

Section counts.
Context (s : partner) (HI : partner_inv s) (HC : counts_inv s) (i : nat) (t : thread) (st : list frame) (Ht : pt_threads s !! i = Some t).

(** Solves what is left about the number of workers. *)
Ltac counts_arith :=
  unfold partner_bound in *;
  repeat match goal with
  | H : (if ?b then bool_decide _ else bool_decide _) = true |- _ => destruct b; apply bool_decide_eq_true in H
  | H : _ && bool_decide _ = true |- _ => apply andb_prop in H as [_ H]; apply bool_decide_eq_true in H
  | H : context [decide (?P)] |- _ => destruct (decide P); try lia
  | |- context [decide (?P)] => destruct (decide P); try lia
  end; rewrite ?u64_fix by (unfold UINT64_MAX; lia); try lia.

Lemma counts_plain x ch :
  th_stack t = x :: st → plain_move x = true → match x with Assign _ => False | _ => True end → counts_inv (exec i x ch s).
Proof using HC Ht.
  intros Hst Hx Hna. pose proof HC as [C1 C2 C3 C4 C5 C6].
  pose proof (top_sum s i t x st Ht Hst w_count w_count_nonneg) as Hc. pose proof (top_sum s i t x st Ht Hst _ (w_excess_nonneg (partner_bound s))) as He.
  pose proof (frame_sum_nonneg w_count s w_count_nonneg) as Hn. unfold UINT64_MAX in *.
  destruct x; try done; cbn [exec]; counts_cases.
  all: split; unfold partner_bound; sums s Ht Hst; fold (partner_bound s); simpl in *; try done; try lia.
  all: counts_arith.
Qed.

Lemma excess_mono m m' : m <= m' → frame_sum (w_excess m') s <= frame_sum (w_excess m) s.
Proof.
  intros Hm. unfold frame_sum. apply Z.add_le_mono; apply wsum_le; intros ?; apply wsum_le; intros y.
  all: destruct y as [| | | | | | |[]|[]| | | | | |[]| | | | | | | | | | | | | | | | | | | | | | | | | | | | | | |]; simpl; try lia; repeat case_decide; lia.
Qed.

Lemma counts_assign l ch : th_stack t = Assign l :: st → counts_inv (exec i (Assign l) ch s).
Proof using HC Ht.
  intros Hst. pose proof HC as [C1 C2 C3 C4 C5 C6]. cbn [exec]. unfold attr_stores. destruct l as [|w l].
  - split; unfold partner_bound; sums s Ht Hst; fold (partner_bound s); simpl in *; try done; try lia.
  - set (m := pa_max_parallelism (attr_set w (pt_attr s))).
    assert (0 <= m <= UINT64_MAX) as Hm.
    { unfold m, UINT64_MAX in *. destruct w; simpl; try lia. apply (u64_bound v). }
    pose proof (excess_mono (partner_bound s) (1 `max` (pt_peak s `max` m)) ltac:(unfold partner_bound; lia)) as He.
    pose proof (frame_sum_nonneg _ s (w_excess_nonneg (1 `max` (pt_peak s `max` m)))) as Hn.
    unfold partner_bound in *. split; unfold partner_bound; sums s Ht Hst; fold m; simpl in *; try done; try lia.
Qed.

Lemma stage_new boost j : th_stack t = Submit boost j :: st → ∃ r, pt_jobs s !! j = Some r ∧ jb_stage r = New.
Proof using HI Ht.
  intros Hst. pose proof (top_frame_ok s HI i t _ st Ht Hst) as Hk. simpl in Hk. apply bool_decide_eq_true in Hk as [k Hk].
  destruct (kind_some _ _ _ Hk) as (r & Hr & _). exists r. split; [done|]. destruct (pi_jobs _ HI j r Hr) as (J1 & _).
  pose proof (top_sum s i t _ st Ht Hst (w_new j) (w_new_nonneg j)) as Hn. simpl in Hn. rewrite eqj_refl in Hn.
  unfold b2z_of in J1. destruct (decide _); [done|lia].
Qed.

Lemma stage_counted j : th_stack t = DoneSub j :: st → ∃ r, pt_jobs s !! j = Some r ∧ jb_stage r = Counted.
Proof using HI Ht.
  intros Hst. pose proof (top_frame_ok s HI i t _ st Ht Hst) as Hk. simpl in Hk. apply bool_decide_eq_true in Hk as [k Hk].
  destruct (kind_some _ _ _ Hk) as (r & Hr & _). exists r. split; [done|].
  pose proof (top_sum s i t _ st Ht Hst (w_loc j) (w_loc_nonneg j)) as Hn. simpl in Hn. rewrite eqj_refl in Hn. by apply (job_stage s HI j).
Qed.

Lemma counts_submit boost j ch : th_stack t = Submit boost j :: st → counts_inv (exec i (Submit boost j) ch s).
Proof using HC HI Ht.
  intros Hst. pose proof HC as [C1 C2 C3 C4 C5 C6]. destruct (stage_new boost j Hst) as (r & Hr & Es). cbn [exec]. unfold submit_add.
  split; unfold partner_bound; sums s Ht Hst; fold (partner_bound s); simpl in *; try done; try lia.
  rewrite (counted_set _ _ _ _ Hr), C1, u64_add_l. unfold counted at 3 4, b2z_of. simpl. rewrite Es. simpl. f_equal. lia.
Qed.

Lemma counts_done j ch : th_stack t = DoneSub j :: st → counts_inv (exec i (DoneSub j) ch s).
Proof using HC HI Ht.
  intros Hst. pose proof HC as [C1 C2 C3 C4 C5 C6]. destruct (stage_counted j Hst) as (r & Hr & Es). cbn [exec]. unfold done_one.
  destruct (decide _); split; unfold partner_bound; sums s Ht Hst; fold (partner_bound s); simpl in *; try done; try lia.
  all: rewrite (counted_set _ _ _ _ Hr), C1, u64_sub_l; unfold counted at 3 4, b2z_of; simpl; rewrite Es; simpl; f_equal; lia.
Qed.

Lemma counts_jobs x ch :
  th_stack t = x :: st → match x with Push _ _ | Publish _ _ | Try _ | RunJob _ | RunMaster _ | Body _ | Delete _
    | FDestroy _ | FCallback _ | FOut _ _ | MPush _ _ _ | MPublish _ _ _ | MXchg _ _ _ => True | _ => False end → counts_inv (exec i x ch s).
Proof using HC HI Ht.
  intros Hst Hx. pose proof HC as [C1 C2 C3 C4 C5 C6]. pose proof (top_frame_ok s HI i t x st Ht Hst) as Hk.
  destruct x; try done; cbn [exec]; counts_cases.
  all: split; unfold partner_bound; sums s Ht Hst; fold (partner_bound s); simpl in *; try done; try lia.
  all: try (unfold counted; rewrite wsum_alter_same; done).
Qed.

Lemma counts_ret f sv d ch : th_stack t = FRet f sv d :: st → counts_inv (exec i (FRet f sv d) ch s).
Proof using HC HI Ht.
  intros Hst. pose proof HC as [C1 C2 C3 C4 C5 C6]. cbn [exec]. pose proof (λ w, frame_sum_ret w s i t st f sv d Ht Hst) as Hs.
  unfold fiber_return in *. destruct d; split; unfold partner_bound; rewrite ?Hs; simpl; fold (partner_bound s); try done; try lia.
Qed.
End counts.

Lemma counts_wake s : counts_inv s → counts_inv (s <| pt_threads ::= fmap wake_thread |>).
Proof.
  intros [C1 C2 C3 C4 C5 C6]. split; unfold partner_bound; try done; rewrite frame_sum_wake; try done; by intros [].
Qed.

Lemma counts_go s i t x st fs :
  counts_inv s → pt_threads s !! i = Some t → th_stack t = x :: st →
  (∀ w, w = w_count ∨ w = w_ref ∨ w = w_excess (partner_bound s) → wsum w fs = w x) → counts_inv (go i fs s).
Proof.
  intros [C1 C2 C3 C4 C5 C6] Ht Hst Hw. split; unfold partner_bound; sums s Ht Hst; fold (partner_bound s); rewrite ?Hw by auto; try done; lia.
Qed.

Lemma counts_notify s i t x st fs :
  counts_inv s → pt_threads s !! i = Some t → th_stack t = x :: st → wake_frame x = x →
  (∀ w, w = w_count ∨ w = w_ref ∨ w = w_excess (partner_bound s) → wsum w fs = w x) → counts_inv (partner_notify_all i fs s).
Proof.
  intros HC Ht Hst Hwk Hw. unfold partner_notify_all.
  assert (pt_threads (s <| pt_threads ::= fmap wake_thread |>) !! i = Some (wake_thread t)) as Ht' by (simpl; by rewrite list_lookup_fmap, Ht).
  eapply counts_go; [by apply counts_wake|exact Ht'| |exact Hw]. unfold wake_thread. simpl. rewrite Hst. csimpl. by rewrite Hwk.
Qed.

Lemma counts_spawn s i t st ch :
  counts_inv s → pt_threads s !! i = Some t → th_stack t = AddSpawn :: st → counts_inv (exec i AddSpawn ch s).
Proof.
  intros [C1 C2 C3 C4 C5 C6] Ht Hst. cbn [exec].
  pose proof (λ w, frame_sum_spawn w s i t st ch Ht Hst) as Hs.
  split; unfold partner_bound; rewrite ?Hs; try done; simpl; fold (partner_bound s); try done; lia.
Qed.

Lemma counts_exec s i t x st ch :
  partner_inv s → counts_inv s → pt_threads s !! i = Some t → th_stack t = x :: st → counts_inv (exec i x ch s).
Proof.
  intros HI HC Ht Hst. destruct (plain_move x) eqn:Hp.
  { destruct x; try (by eapply counts_plain). by eapply counts_assign. }
  assert (∀ w, w = w_count ∨ w = w_ref ∨ w = w_excess (partner_bound s) → ∀ y, switchy y = true → w y = 0) as Hsw by (by intros w [->|[->| ->]] []).
  destruct x; try done; try (by eapply counts_jobs); eauto using counts_submit, counts_done, counts_ret, counts_spawn.
  all: try (eapply counts_notify; [done..|]; by intros w [->|[->| ->]]).
  all: eapply switched_counts; [|intros w Hw; eapply switch_step; by eauto|done]; eapply (switch_step (λ _, 0)); eauto.
Qed.

Lemma counts_enter s i t fs :
  counts_inv s → pt_threads s !! i = Some t → (∀ w, w = w_count ∨ w = w_ref ∨ w = w_excess (partner_bound s) → wsum w fs = 0) →
  counts_inv (enter i fs s).
Proof.
  intros [C1 C2 C3 C4 C5 C6] Ht Hw. split; unfold partner_bound; rewrite ?(frame_sum_enter _ i fs s t Ht); try done; simpl; fold (partner_bound s);
    rewrite Hw by auto; try done; lia.
Qed.

Lemma counts_call s i t c : partner_inv s → counts_inv s → pt_threads s !! i = Some t → counts_inv (do_call i c s).
Proof.
  intros HI HC Ht. destruct c as [boost k| | | | | |]; cbn [do_call]; try (eapply counts_enter; [done..|]; by intros w [->|[->| ->]]).
  pose proof HC as [C1 C2 C3 C4 C5 C6].
  split; unfold partner_bound; rewrite ?(new_job_sum s i t boost k Ht); try done; simpl; fold (partner_bound s);
    try (unfold cont_sum, new_job; destruct k; simpl; done || lia).
  rewrite wsum_app. unfold new_job, counted at 2. simpl. by rewrite Z.add_0_r, C1.
Qed.

Lemma counts_reachable U a token ids s :
  0 <= pa_max_parallelism a <= UINT64_MAX → rtc (partner_step U) (job_partner_ctor a token ids) s → partner_inv s ∧ counts_inv s.
Proof.
  intros Ha. apply (rtc_invariant _ (λ s, partner_inv s ∧ counts_inv s)).
  - split; [apply ctor_inv|].
    assert (Hs : ∀ w, frame_sum w (job_partner_ctor a token ids) = 0) by (intros w; unfold frame_sum; simpl; rewrite wsum_fmap, wsum_zero; done).
    split; rewrite ?Hs; try done; simpl; try lia. unfold partner_bound. simpl. lia.
  - intros s1 s2 [HI HC] Hst. split; [by eapply step_inv|]. inversion Hst; subst; eauto using counts_exec, counts_call.
Qed.


(** ** Runs *)

(** Schedules that are evaluated; what they reach is reachable. *)

(** A call of thread [i], or [n] steps of it with the same choice. *)
Inductive event := ECall (i : nat) (c : call) | EExec (i n : nat) (ch : choice).

Definition yes : choice := mk_choice true true 7.

Fixpoint exec_many (i n : nat) (ch : choice) (s : partner) : option partner :=
  match n with
  | O => Some s
  | S n => t ← pt_threads s !! i; match th_stack t with x :: _ => exec_many i n ch (exec i x ch s) | [] => None end
  end.

Definition run_event (U : thread → call → bool) (e : event) (s : partner) : option partner :=
  match e with
  | ECall i c => t ← pt_threads s !! i; if may_call t && U t c then Some (do_call i c s) else None
  | EExec i n ch => exec_many i n ch s
  end.

Fixpoint run (U : thread → call → bool) (l : list event) (s : partner) : option partner :=
  match l with [] => Some s | e :: l => s' ← run_event U e s; run U l s' end.

Lemma exec_many_rtc U i n ch s s' : exec_many i n ch s = Some s' → rtc (partner_step U) s s'.
Proof.
  revert s. induction n as [|n IH]; intros s; simpl; [by intros [= ->]|]. destruct (pt_threads s !! i) as [t|] eqn:Ht; simpl; [|done].
  destruct (th_stack t) as [|x st] eqn:Hst; [done|]. intros H. eapply rtc_l; [|by apply IH]. by eapply ps_exec.
Qed.

Lemma run_rtc Ub (U : thread → call → Prop) l s s' : (∀ t c, Ub t c = true → U t c) → run Ub l s = Some s' → rtc (partner_step U) s s'.
Proof.
  intros HU. revert s. induction l as [|e l IH]; intros s; simpl; [by intros [= ->]|]. destruct (run_event Ub e s) as [s1|] eqn:He; simpl; [|done].
  intros H. transitivity s1; [|auto]. destruct e as [i c|i n ch]; simpl in He; [|by eapply exec_many_rtc].
  destruct (pt_threads s !! i) as [t|] eqn:Ht; simpl in He; [|done]. destruct (may_call t && Ub t c) eqn:Hm; [|done].
  injection He as <-. apply andb_prop in Hm as [Hm Hu]. apply rtc_once. eapply ps_call; eauto.
Qed.

Definition anything (_ : thread) (_ : call) : bool := true.

(** Two clients, of which the first is the master; the last worker does not stay. *)
Definition example_attr : job_partner_attr := mk_attr 3 2 20 0 0.
Definition example : partner := job_partner_ctor example_attr 1 [1; 2].

(** The master submits a suspendable job, which a worker runs until it has been
    handed to the master, and is done. *)
Definition suspend_run : list event :=
  [ECall 0 (CSubmit true (Fiber true)); EExec 0 8 yes; EExec 2 7 yes; ECall 2 (CToMaster false); EExec 2 10 yes].

(** The master waits: it runs what it was handed, and the rest of the job. *)
Definition wait_run : list event := suspend_run ++ [ECall 0 (CWait true false); EExec 0 22 yes].

Definition complete_run : list event := wait_run ++ [EExec 3 9 yes; EExec 0 10 yes].

Lemma anything_rtc l s s' : run anything l s = Some s' → rtc (partner_step (λ _ _, True)) s s'.
Proof. by apply run_rtc. Qed.


(** ** Theorems *)

(** Two elements of a list. *)
Lemma wsum_two {A} (f : A → Z) l i i' x y :
  (∀ z, 0 <= f z) → i ≠ i' → l !! i = Some x → l !! i' = Some y → f x + f y <= wsum f l.
Proof.
  intros Hf. revert i i'. induction l as [|z l IH]; intros [|i] [|i'] Hne Hx Hy; simplify_eq/=.
  - pose proof (wsum_elem f l i' y Hf Hy). lia.
  - pose proof (wsum_elem f l i x Hf Hx). lia.
  - pose proof (IH i i' ltac:(lia) Hx Hy). pose proof (Hf z). lia.
Qed.

Lemma frame_sum_two w s i i' t t' x y :
  (∀ z, 0 <= w z) → i ≠ i' → pt_threads s !! i = Some t → pt_threads s !! i' = Some t' → x ∈ th_stack t → y ∈ th_stack t' →
  w x + w y <= frame_sum w s.
Proof.
  intros Hw Hne Ht Ht' [n Hn]%list_elem_of_lookup [m Hm]%list_elem_of_lookup.
  pose proof (wsum_elem w _ n x Hw Hn). pose proof (wsum_elem w _ m y Hw Hm).
  pose proof (wsum_two (thread_sum w) _ i i' t t' ltac:(intros ?; by apply wsum_nonneg) Hne Ht Ht') as H2.
  pose proof (wsum_nonneg (cont_sum w) (pt_jobs s) ltac:(intros ?; by apply wsum_nonneg)). unfold thread_sum in *. unfold frame_sum, thread_sum. lia.
Qed.

(** Below a function that was run at once there is no fiber. *)
Lemma stack_cur_none st : stack_cur None st = None → ∀ f sv, FIn f sv ∉ st.
Proof.
  induction st as [|x st IH]; simpl; intros Hc f sv Hin; [by apply not_elem_of_nil in Hin|].
  destruct (marker x) as [[g ?]|] eqn:E; [done|]. apply elem_of_cons in Hin as [<-|Hin]; [done|]. by apply (IH Hc f sv).
Qed.

Lemma stack_ok_drop st n : stack_ok None st → stack_ok None (drop n st).
Proof. revert n. induction st as [|x st IH]; intros [|n] H; simpl in *; [done..|]. destruct H. auto. Qed.

(** C15: Fibers are switched safely however jobs are nested, suspended and resumed
    on other threads: the code never starts a fiber that is not switched out or
    is over, never suspends a fiber that is not the one the thread's [cur] names,
    [cur] always names the fiber whose stack the thread is on, no fiber is on
    two threads, and a function that [submit_to_master] may not run on the
    caller's stack is run at once only on a stack that is no fiber's. *)
Theorem partner_fibers_safe U a token ids s :
  rtc (partner_step U) (job_partner_ctor a token ids) s →
  pt_fault s = false ∧
  (∀ i t, pt_threads s !! i = Some t → th_cur t = stack_cur None (th_stack t)) ∧
  (∀ i t n, pt_threads s !! i = Some t → th_stack t !! n = Some (Body (BInline false)) → ∀ f sv, FIn f sv ∉ drop (S n) (th_stack t)) ∧
  (∀ i i' t t' f sv sv', pt_threads s !! i = Some t → pt_threads s !! i' = Some t' →
     FIn f sv ∈ th_stack t → FIn f sv' ∈ th_stack t' → i = i').
Proof.
  intros HI%partner_reachable. split_and!; [apply HI|..].
  - intros i t Ht. apply (pi_threads _ HI i t Ht).
  - intros i t n Ht Hn. apply stack_cur_none. pose proof (stack_ok_drop _ n (to_stack _ _ (pi_threads _ HI i t Ht))) as Hs.
    rewrite (drop_S _ _ _ Hn) in Hs. apply Hs.
  - intros i i' t t' f sv sv' Ht Ht' Hin Hin'. destruct (decide (i = i')) as [|Hne]; [done|]. exfalso.
    pose proof (frame_sum_two (w_loc f) s i i' t t' _ _ (w_loc_nonneg f) Hne Ht Ht' Hin Hin') as Hs. simpl in Hs. rewrite eqj_refl in Hs.
    destruct (pt_jobs s !! f) as [r|] eqn:Er; [pose proof (job_stage s HI f r Er ltac:(lia)); lia|].
    pose proof (absent_sum (w_loc f) s f HI Er (w_loc_nonneg f)) as Hz. rewrite Hz in Hs; [lia|]. intros x Hx.
    apply (absent_weights (kind_of s) f x); [unfold kind_of; by rewrite Er|done].
Qed.

Lemma counted_none l : wsum counted l = 0 → ∀ j r, l !! j = Some r → jb_stage r ≠ Counted.
Proof.
  intros Hz j r Hr Hs. pose proof (wsum_elem counted l j r ltac:(intros y; unfold counted, b2z_of; case_decide; lia) Hr) as Hle.
  unfold counted at 1, b2z_of in Hle. rewrite decide_True in Hle by done. lia.
Qed.

(** What is true of a job that is over. *)
Lemma finished_runs s j r :
  partner_inv s → pt_jobs s !! j = Some r → jb_stage r = Finished → 0 <= jb_runs r <= 1 ∧ (jb_kind r ≠ Future → jb_runs r = 1).
Proof.
  intros HI Hr Hs. destruct (pi_jobs _ HI j r Hr) as (J1 & J2 & J3). rewrite Hs in J1, J2. unfold b2z_of in J1, J2. simpl in J1, J2.
  pose proof (frame_sum_nonneg (w_new j) s ltac:(auto)). pose proof (frame_sum_nonneg (w_loc j) s ltac:(auto)). pose proof (frame_sum_nonneg (w_todo j) s ltac:(auto)).
  pose proof (queue_count_nonneg j (pt_pq s)). pose proof (queue_count_nonneg j (pt_mq s)).
  assert (frame_sum (w_todo j) s <= frame_sum (λ x, w_new j x + w_loc j x) s) as Hle.
  { unfold frame_sum. apply Z.add_le_mono; apply wsum_le; intros ?; apply wsum_le; intros y.
    all: destruct y as [| | | | | | | | | | | | | |[]| | |[]| | | | | | | | | | | | | |?? []| | | | | | | | | | | | | |]; simpl; rewrite ?Z.add_0_l, ?Z.add_0_r;
      first [done|apply eqj_nonneg]. }
  rewrite frame_sum_add in Hle. destruct (jb_kind r) as [| |d] eqn:Ek.
  - destruct J3 as [_ J3]. split; [lia|]. intros _. lia.
  - destruct J3 as (_ & ? & J3). split; [lia|done].
  - destruct J3 as (_ & _ & F3 & _ & F5 & F6). unfold b2z_of in F3. rewrite decide_True in F3 by done.
    pose proof (frame_sum_nonneg (w_body j) s ltac:(auto)). pose proof (frame_sum_nonneg (w_final j) s ltac:(auto)).
    destruct (jb_final r); simpl in *; [|lia]. split; [lia|]. intros _. lia.
Qed.

Lemma partner_fibers_safe_witness :
  ∃ s, run anything wait_run example = Some s ∧ th_stack <$> pt_threads s = [[FDestroy 0; WaitLoop (mk_opts true false true)]; []; []; [Worker]] ∧
    pt_fault s = false.
Proof.
  eexists. split_and!; [vm_compute; reflexivity..|]. eapply (partner_fibers_safe _ example_attr 1 [1; 2]), anything_rtc with (l := wait_run).
  vm_compute. reflexivity.
Defined.

(** C16: When [wait] finds [all_done], every job that was counted on submission is
    over: the function of a plain or a suspendable job has been run once, that
    of a future at most once by the partner.  This is for fewer than 2^64 jobs,
    in any interleaving of submitters, workers, waiters and nested jobs. *)
Theorem partner_wait_sound U a token ids s :
  0 <= pa_max_parallelism a <= UINT64_MAX → rtc (partner_step U) (job_partner_ctor a token ids) s →
  Z.of_nat (length (pt_jobs s)) <= UINT64_MAX → all_done s = true →
  ∀ j r, pt_jobs s !! j = Some r → jb_stage r ≠ New →
    jb_stage r = Finished ∧ 0 <= jb_runs r <= 1 ∧ (jb_kind r ≠ Future → jb_runs r = 1).
Proof.
  intros Ha Hr Hlen Hd j r Hj Hn. destruct (counts_reachable U a token ids s Ha Hr) as [HI HC].
  apply bool_decide_eq_true in Hd. rewrite (ct_job _ HC) in Hd.
  assert (0 <= wsum counted (pt_jobs s) <= Z.of_nat (length (pt_jobs s))) as Hb.
  { clear. induction (pt_jobs s) as [|x l IH]; simpl; [lia|]. unfold counted at 1 3, b2z_of. case_decide; lia. }
  rewrite u64_fix in Hd by lia. pose proof (counted_none _ Hd j r Hj).
  assert (jb_stage r = Finished) as Hs by (by destruct (jb_stage r)). split; [done|]. by eapply finished_runs.
Qed.

Lemma partner_wait_sound_witness :
  ∃ s r, run anything complete_run example = Some s ∧ pt_jobs s !! 0%nat = Some r ∧ jb_stage r = Finished ∧ jb_runs r = 1.
Proof.
  eexists _, _. split_and!; [vm_compute; reflexivity..| |].
  - eapply (partner_wait_sound (λ _ _, True) example_attr 1 [1; 2] _ ltac:(done)) with (j := 0%nat); [eapply anything_rtc with (l := complete_run); vm_compute; reflexivity|by vm_compute..].
  - by vm_compute.
Defined.

(** C17: The number of workers is exactly [partner_num], and never exceeds the
    greatest [max_parallelism] there has been, or 1; the partner holds a reference
    for each of them, so that it is not deleted under a worker. *)
Theorem partner_bounded U a token ids s :
  0 <= pa_max_parallelism a <= UINT64_MAX → rtc (partner_step U) (job_partner_ctor a token ids) s →
  pt_partner_num s = frame_sum w_count s ∧ 0 <= pt_partner_num s <= 1 `max` pt_peak s ∧
  pt_ref s = 1 + frame_sum w_ref s ∧ 1 <= pt_ref s.
Proof.
  intros Ha Hr. destruct (counts_reachable U a token ids s Ha Hr) as [_ [C1 C2 C3 C4 C5 C6]].
  pose proof (frame_sum_nonneg w_count s w_count_nonneg). unfold partner_bound in C3.
  assert (0 <= frame_sum w_ref s).
  { apply frame_sum_nonneg. intros x. destruct x as [| | |? ? []|? ? ? []| | |[? ? ? []| | | | |]|[? ? ? []| | | | |]| | | | | |[]| | | | | | | | | | | | | | | | | | | | | | | | | | | | | | |]; simpl; lia. }
  split_and!; lia.
Qed.

Lemma partner_bounded_witness : ∃ s, run anything wait_run example = Some s ∧ pt_partner_num s = 1 ∧ frame_sum w_count s = 1 ∧ 1 <= pt_ref s.
Proof.
  eexists. split_and!; [vm_compute; reflexivity..|]. eapply (partner_bounded (λ _ _, True) example_attr 1 [1; 2]); [done|].
  eapply anything_rtc with (l := wait_run). vm_compute. reflexivity.
Defined.

End PartnerLive.
