(* ===== verification/PartnerProgress.v ===== *)
(** * Progress of the job partner

    For [JobPartner]: when the partner is used as it is meant to, no job is left
    behind.  The partner queue is never left without a thread that sees to it,
    and the master is never left asleep in [wait].  Runs of the model show what
    happens when it is used otherwise. *)

From S2P Require Import Prelude LfQueue JobPartner PartnerSafety PartnerLive.

Module PartnerProgress.
Import Partner PartnerSafety PartnerLive.

(** ** How the partner is used *)

Definition harmless (w : attr_store) : bool :=
  match w with StoreThreshold v => bool_decide (u64 v = 0) | StoreMax v => bool_decide (0 < u64 v) | _ => true end.

(** Only the master waits, and not from within a job; nobody runs the master's
    jobs in its place; the threshold stays 0 and the bound positive. *)
Definition as_meant (token : Z) (t : thread) (c : call) : Prop :=
  match c with
  | CWait _ _ => th_stack t = [] ∧ th_id t = token
  | CStealMaster => False
  | CAssign l => forallb harmless l = true
  | _ => True
  end.

(** ** The shape of the stacks *)

Definition master_base (st : list frame) : bool :=
  match st with [Try (RMaster _ _)] | [AddLoad true false RTrigger; Try (RMaster _ _)] => true | _ => false end.

Definition is_nil (st : list frame) : bool := match st with [] => true | _ => false end.

(** Frames that a fiber may be suspended above. *)
Definition plain (x : frame) : bool :=
  match x with Body (BMaster _) => false | Body _ | Push (ThenTrigger _) _ | Delete _ | FDestroy _ => true | _ => false end.

(** The frames below the top: those of jobs, then what the thread is there for. *)
Fixpoint below_ok (st : list frame) : bool :=
  match st with
  | [] => true
  | x :: st =>
      match x with
      | FIn _ _ => below_ok st
      | Body (BMaster _) | Push ThenReturn _ | AddLoad true false RTrigger => master_base st
      | Try RWorker | WaitLoop _ | Try (RHelp _) | WaitDone _ | Try (RMaster _ _) => is_nil st
      | _ => plain x && below_ok st
      end
  end.

Definition top_ok (x : frame) (st : list frame) : bool :=
  match x with
  | RunMaster _ | Body (BMaster _) | Push ThenReturn _ | Publish ThenReturn _ | Try (RPush ThenReturn _) => master_base st
  | Worker | WSub | WStallCas | WSub2 | WDec | Try RWorker | AddLoad _ _ RRetake | AddCas _ _ _ RRetake
  | SizeHead (SAdd _ _ _ RRetake) | SizeTail (SAdd _ _ _ RRetake) _ => is_nil st
  | SizeHead (SAdd _ _ _ RTrigger) | SizeTail (SAdd _ _ _ RTrigger) _ => true
  | SizeHead _ | SizeTail _ _ | WaitTest _ _ | WaitLoop _ | WaitDone _ | HasJob _ _ | HasDone _ _ _ | WaitSet _ | WaitCheck _
  | WaitFutex _ | WaitSleep _ | WaitXchg _ | WaitNotify _ | Try (RHelp _) | Try (RMaster _ _) => is_nil st
  | Try RStealMaster => false
  | Assign l => forallb harmless l
  | _ => true
  end.

Definition stack_shape (st : list frame) : bool := match st with [] => true | x :: st => top_ok x st && below_ok st end.

(** The master waits as the master. *)
Definition wait_ok (master : bool) (x : frame) : bool :=
  match x with
  | WaitTest _ _ => master
  | WaitLoop o | WaitDone o | HasJob _ o | HasDone _ o _ | WaitSet o | WaitCheck o | WaitFutex o | WaitSleep o | WaitXchg o | WaitNotify o
  | Try (RHelp o) | Try (RMaster o _) | SizeHead (SHasM _ o) | SizeTail (SHasM _ o) _ | SizeHead (SHasP _ o) | SizeTail (SHasP _ o) _ =>
      master && o_master o
  | _ => true
  end.

(** ** Weights *)

(** Tests a threshold that is not 0. *)
Definition w_th (x : frame) : Z :=
  match x with
  | SizeHead (SAdd _ th _ _) | SizeTail (SAdd _ th _ _) _ | AddCas _ th _ _ => if decide (th = 0) then 0 else 1
  | _ => 0
  end.

(** Has loaded a read index that has not been reached. *)
Definition w_head (rp rm : Z) (x : frame) : Z :=
  match x with
  | SizeTail (SHasM _ _) head => if decide (head <= rm) then 0 else 1
  | SizeTail _ head => if decide (head <= rp) then 0 else 1
  | _ => 0
  end.

(** Will find out whether the partner queue needs a worker. *)
Definition w_att (x : frame) : Z :=
  match x with
  | Publish (ThenTrigger _) _ | AddLoad _ _ _ | WStallCas | SizeHead SExit | SizeTail SExit _ | Try (RMaster _ _) => 1
  | SizeHead (SAdd _ _ wn _) | SizeTail (SAdd _ _ wn _) _ | AddCas _ _ wn _ => if decide (wn = 0) then 1 else 0
  | _ => 0
  end.

Definition w_sleep (x : frame) : Z := match x with WaitSleep _ => 1 | _ => 0 end.
Definition w_notify (x : frame) : Z := match x with NNotify | MNotify _ _ _ | WaitNotify _ => 1 | _ => 0 end.

(** Will exchange [master_wait] if all jobs are over, or if the master queue has
    a job. *)
Definition w_xdone (x : frame) : Z := match x with NXchg | MXchg _ _ _ | WaitXchg _ | WaitCheck _ => 1 | _ => 0 end.
Definition w_xmaster (x : frame) : Z :=
  match x with
  | NXchg | MXchg _ _ _ | MPublish _ _ _ | WaitXchg _ | WaitCheck _ | HasJob HCheck _ | SizeHead (SHasM HCheck _) | SizeTail (SHasM HCheck _) _
  | HasDone HCheck _ true => 1
  | _ => 0
  end.

(** Has not been pushed for the first time. *)
Definition w_pre (j : job) (x : frame) : Z :=
  match x with Submit _ j' | Push (ThenTrigger _) j' | Try (RPush (ThenTrigger _) j') => eqj j j' | _ => 0 end.

(** ** Invariant *)

Record progress_inv (token : Z) (s : partner) : Prop := {
  pg_token : pt_token s = token;
  pg_attr : pa_threshold (pt_attr s) = 0 ∧ 0 < pa_max_parallelism (pt_attr s);
  pg_th : frame_sum w_th s = 0;
  pg_head : frame_sum (w_head (rq_iread (pt_pq s)) (rq_iread (pt_mq s))) s = 0;
  pg_stack : ∀ i t, pt_threads s !! i = Some t →
    stack_shape (th_stack t) = true ∧ forallb (wait_ok (bool_decide (th_id t = token))) (th_stack t) = true;
  pg_cont : ∀ j r c, pt_jobs s !! j = Some r → jb_cont r = Some c → forallb plain c = true;
  pg_att : rq_q (pt_pq s) ≠ [] → 0 < frame_sum w_count s + frame_sum w_att s;
  pg_sleep : 0 < frame_sum w_sleep s → pt_master_wait s = 1 ∨ 0 < frame_sum w_notify s;
  pg_done : pt_master_wait s = 1 → wsum counted (pt_jobs s) = 0 → 0 < frame_sum w_xdone s;
  pg_mq : pt_master_wait s = 1 → rq_q (pt_mq s) ≠ [] → 0 < frame_sum w_xmaster s;
  pg_pre : ∀ j r, pt_jobs s !! j = Some r → is_fiber (Some (jb_kind r)) = true → 0 < frame_sum (w_pre j) s → jb_cont r = Some [Body (BFiber j)];
}.

Lemma w_att_nonneg x : 0 <= w_att x.
Proof.
  destruct x as [|[]?|[]?| | | | |[]|[]| | | | | |[]| | | | | | | | | | | | | | | | | | | | | | | | | | | | | | |]; simpl; try lia; case_decide; lia.
Qed.

(** ** The stacks keep their shape *)

Lemma below_shape st : below_ok st = true → stack_shape st = true.
Proof.
  destruct st as [|x st]; simpl; [done|]. intros H. apply andb_true_iff.
  destruct x as [|[]?|[]?|[] [] []| | | |[]|[]| | | | | |[| | |[]?| |]| | |[]| | | | | | | | | | | | | | | | | | | | | | | | | | | |]; simpl in *; try done; split; try done;
    destruct st as [|y [|z st]]; try done; by destruct y as [|[]?|[]?|[] [] []| | | |[]|[]| | | | | |[| | |[]?| |]| | |[]| | | | | | | | | | | | | | | | | | | | | | | | | | | |];
    try done; destruct z as [|[]?|[]?|[] [] []| | | |[]|[]| | | | | |[| | |[]?| |]| | |[]| | | | | | | | | | | | | | | | | | | | | | | | | | | |].
Qed.

Lemma plain_top x st : plain x = true → top_ok x st = true.
Proof. by destruct x as [|[]?| | | | | | | | | | | | | | | |[]| | | | | | | | | | | | | | | | | | | | | | | | | | | |]. Qed.

Lemma plain_below x st : plain x = true → below_ok (x :: st) = below_ok st.
Proof. intros H. destruct x as [|[]?| | | | | | | | | | | | | | | |[]| | | | | | | | | | | | | | | | | | | | | | | | | | | |]; done. Qed.

Lemma plains_below c f sv k : forallb plain c = true → below_ok (c ++ FIn f sv :: k) = below_ok k.
Proof. induction c as [|x c IH]; simpl forallb; [done|]. intros [Hx Hc]%andb_prop. rewrite <-app_comm_cons, plain_below by done. auto. Qed.

Lemma plains_shape c f sv k : forallb plain c = true → below_ok k = true → stack_shape (c ++ FIn f sv :: k) = true.
Proof.
  intros Hc Hk. destruct c as [|x c]; simpl; [done|]. simpl in Hc. apply andb_prop in Hc as [Hx Hc].
  by rewrite plain_top, plains_below, Hk by done.
Qed.

Lemma master_base_in st f sv k : master_base (st ++ FIn f sv :: k) = false.
Proof.
  destruct st as [|x [|y [|z st]]]; simpl; try done; destruct x as [|[]?|[]?|[] [] []| | | |[]|[]| | | | | |[| | |[]?| |]| | |[]| | | | | | | | | | | | | | | | | | | | | | | | | | | |]; try done.
  all: by destruct y as [|[]?|[]?|[] [] []| | | |[]|[]| | | | | |[| | |[]?| |]| | |[]| | | | | | | | | | | | | | | | | | | | | | | | | | | |].
Qed.

Lemma is_nil_in st f sv k : is_nil (st ++ FIn f sv :: k) = false.
Proof. by destruct st. Qed.

(** What a fiber is suspended with is plain. *)
Lemma below_seg seg f sv k :
  below_ok (seg ++ FIn f sv :: k) = true → Forall (λ x, marker x = None) seg → forallb plain seg = true ∧ below_ok k = true.
Proof.
  intros H Hm. induction seg as [|x seg IH]; [done|]. inversion Hm as [|? ? Hx Hs]; subst. rewrite <-app_comm_cons in H.
  assert (plain x = true ∧ below_ok (seg ++ FIn f sv :: k) = true) as [Hp Hb].
  { cbn [below_ok] in H. rewrite master_base_in, is_nil_in in H. by destruct x as [|[]?|[]?|[] [] []| | | |[]|[]| | | | | |[| | |[]?| |]| | |[]| | | | | | | | | | | | | | | | | | | | | | | | | | | |];
      try done; apply andb_prop in H. }
  destruct (IH Hb Hs) as [IH1 IH2]. simpl. by rewrite Hp.
Qed.

Lemma wake_plain x : plain x = true → wake_frame x = x.
Proof. by destruct x. Qed.

Lemma wake_below st : below_ok st = true → wake_frame <$> st = st.
Proof.
  induction st as [|x st IH]; [done|]. intros H. csimpl. assert (wake_frame x = x) as -> by (by destruct x). f_equal.
  destruct x as [|[]?|[]?|[] [] []| | | |[]|[]| | | | | |[| | |[]?| |]| | |[]| | | | | | | | | | | | | | | | | | | | | | | | | | | |]; simpl in H; try done; try (by apply IH);
    destruct st as [|y [|z [|? st]]]; try done; destruct y as [|[]?|[]?|[] [] []| | | |[]|[]| | | | | |[| | |[]?| |]| | |[]| | | | | | | | | | | | | | | | | | | | | | | | | | | |]; try done;
    by destruct z as [|[]?|[]?|[] [] []| | | |[]|[]| | | | | |[| | |[]?| |]| | |[]| | | | | | | | | | | | | | | | | | | | | | | | | | | |].
Qed.

Lemma wake_shape st : stack_shape st = true → stack_shape (wake_frame <$> st) = true.
Proof.
  destruct st as [|x st]; [done|]. intros Hs. pose proof Hs as [Ht Hbl]%andb_prop. rewrite fmap_cons, (wake_below st Hbl). simpl stack_shape.
  rewrite Hbl, andb_true_r. by destruct x.
Qed.

Definition shape_of (token : Z) (s : partner) : Prop := ∀ i t, pt_threads s !! i = Some t →
  stack_shape (th_stack t) = true ∧ forallb (wait_ok (bool_decide (th_id t = token))) (th_stack t) = true.

Section shape.
Context (token : Z) (s : partner) (HS : shape_of token s) (i : nat) (t : thread) (x : frame) (st : list frame).
Context (Ht : pt_threads s !! i = Some t) (Hst : th_stack t = x :: st).

Lemma shape_alter s' g :
  pt_threads s' = alter g i (pt_threads s) → th_id (g t) = th_id t → stack_shape (th_stack (g t)) = true →
  forallb (wait_ok (bool_decide (th_id t = token))) (th_stack (g t)) = true → shape_of token s'.
Proof using HS Ht.
  intros E Hid Hs Hw i' t'. rewrite E. destruct (decide (i' = i)) as [->|Hne].
  - rewrite list_lookup_alter_eq, Ht. intros [= <-]. rewrite Hid. done.
  - rewrite list_lookup_alter_ne by done. apply HS.
Qed.

Lemma top_shape : top_ok x st = true ∧ below_ok st = true ∧ wait_ok (bool_decide (th_id t = token)) x = true ∧
  forallb (wait_ok (bool_decide (th_id t = token))) st = true.
Proof using HS Ht Hst.
  destruct (HS i t Ht) as [H1 H2]. rewrite Hst in H1, H2. simpl in H1, H2. apply andb_prop in H1 as [? ?], H2 as [? ?]. done.
Qed.

Lemma shape_go s1 fs :
  pt_threads s1 = pt_threads s → stack_shape (fs ++ st) = true → forallb (wait_ok (bool_decide (th_id t = token))) fs = true →
  shape_of token (go i fs s1).
Proof using HS Ht Hst.
  intros E Hs Hw. destruct top_shape as (_ & _ & _ & Hr). eapply shape_alter; [unfold go; simpl; by rewrite E|done|simpl; by rewrite Hst|].
  simpl. rewrite Hst, forallb_app, Hw. done.
Qed.
End shape.

Section shape_exec.
Context (token : Z) (s : partner) (HI : partner_inv s) (HP : progress_inv token s) (i : nat) (t : thread) (st : list frame).
Context (Ht : pt_threads s !! i = Some t).

(** Steps that replace the top frame. *)
Lemma shape_local x ch :
  th_stack t = x :: st → match x with FStart _ | FIn _ _ | FFinal _ | ToMaster _ | FRet _ _ _ | NNotify | MNotify _ _ _ | WaitNotify _ | AddSpawn => False | _ => True end →
  shape_of token (exec i x ch s).
Proof using HP Ht.
  intros Hst Hx. destruct (top_shape token s (pg_stack _ _ HP) i t x st Ht Hst) as (Htop & Hbl & Hwx & Hws). pose proof (below_shape st Hbl) as Hsh.
  assert (pt_token s = token) as Etok by apply HP.
  destruct x; try done; cbn [exec]; simpl in Htop, Hwx.
  all: try (destruct st; [|done]).
  all: counts_cases; unfold submit_add, done_one, attr_stores, this_thread_is_master in *; rewrite ?Ht, ?Etok; try case_match.
  all: try exact (pg_stack _ _ HP).
  all: try (eapply (shape_go token s (pg_stack _ _ HP) i t _ _ Ht Hst); [done|simpl; rewrite ?Hbl, ?andb_true_r; try done|simpl in *; rewrite ?andb_true_r; try done]).
  all: try (by destruct st). all: try (by apply andb_prop in Htop as [_ ?]). all: try (by rewrite Hwx).
  all: destruct (bool_decide (th_id t = token)), (o_master o); simpl in *; congruence.
Qed.

Lemma plain_wait_ok m c : forallb plain c = true → forallb (wait_ok m) c = true.
Proof. apply forallb_imp. intros x. by destruct x. Qed.

Lemma shape_suspend x is_final f sv seg k :
  th_stack t = x :: st → th_cur t = Some f → split_in st = Some (seg, (f, sv), k) → Forall (λ x, marker x = None) seg →
  shape_of token (fiber_suspend i is_final s) ∧
  (∀ j r c, pt_jobs (fiber_suspend i is_final s) !! j = Some r → jb_cont r = Some c → forallb plain c = true).
Proof using HP Ht.
  intros Hst Hcur Hsp Hm. destruct (top_shape token s (pg_stack _ _ HP) i t x st Ht Hst) as (_ & Hbl & _ & Hws).
  pose proof (split_in_app _ _ _ _ _ Hsp) as Es. rewrite Es in Hbl, Hws. destruct (below_seg _ _ _ _ Hbl Hm) as [Hpl Hbk].
  rewrite forallb_app in Hws. apply andb_prop in Hws as [_ Hws]. simpl in Hws.
  unfold fiber_suspend. rewrite Ht, Hcur, Hst. cbn [tail]. rewrite Hsp, decide_True by done. split.
  - eapply (shape_alter token s (pg_stack _ _ HP) i t Ht); [reflexivity|done|simpl; by rewrite Hbk|done].
  - intros j r c. simpl. destruct (decide (j = f)) as [->|Hne]; [|rewrite list_lookup_alter_ne by done; apply HP].
    rewrite list_lookup_alter_eq. destruct (pt_jobs s !! f); simpl; [|done]. intros [= <-]. destruct is_final; simpl; [done|]. by intros [= <-].
Qed.

(** Steps between stacks and fibers. *)
Lemma shape_switch x ch :
  th_stack t = x :: st → match x with FStart _ | FFinal _ | ToMaster _ => True | _ => False end →
  shape_of token (exec i x ch s) ∧ (∀ j r c, pt_jobs (exec i x ch s) !! j = Some r → jb_cont r = Some c → forallb plain c = true).
Proof using HI HP Ht.
  intros Hst Hx. destruct (top_shape token s (pg_stack _ _ HP) i t x st Ht Hst) as (_ & Hbl & _ & Hws).
  pose proof (pi_threads _ HI i t Ht) as Hok. pose proof (to_cur _ _ Hok) as Hcur. rewrite Hst in Hcur.
  pose proof (to_ret _ _ Hok) as Hr. rewrite Hst in Hr. simpl in Hr.
  destruct x as [| | | | | | | | | | | | | | | | | | | | | |allow|f| |f| | | | | | | | | | | | | | | | | | | |]; try done; simpl in Hcur.
  - cbn [exec]. unfold submit_to_master. rewrite Ht. case_match.
    + split; [|apply HP]. eapply (shape_go token s (pg_stack _ _ HP) i t _ _ Ht Hst); [done|simpl; by rewrite Hbl|done].
    + destruct (th_cur t) as [f|] eqn:Hc; [|done].
      destruct (split_in_cur st f (eq_sym Hcur) Hr) as (seg & sv & k & Hsp & Hm). by eapply shape_suspend.
  - destruct (start_cont s HI i t st Ht f Hst) as (r & c & d & Hr0 & _ & Hc & _). cbn [exec]. unfold fiber_start. rewrite Hr0. simpl. rewrite Hc.
    pose proof (pg_cont _ _ HP f r c Hr0 Hc) as Hpl. split.
    + eapply (shape_alter token s (pg_stack _ _ HP) i t Ht); [reflexivity|done|simpl; rewrite Hst; by apply plains_shape|].
      simpl. rewrite Hst, forallb_app. simpl. rewrite Hws, andb_true_r. by apply plain_wait_ok.
    + intros j r' c'. simpl. destruct (decide (j = f)) as [->|Hne]; [rewrite list_lookup_alter_eq, Hr0; by intros [= <-]|].
      rewrite list_lookup_alter_ne by done. apply HP.
  - cbn [exec]. pose proof (ret_here s HI i t st Ht _ Hst) as Hh. simpl in Hh.
    assert (∃ sv k, st = FIn f sv :: k) as (sv & k & Es).
    { clear -Hh. destruct st as [|[| | | | | | | | | | | | | | | | | | | | | | | |g sv| | | | | | | | | | | | | | | | | | | | |] k]; try done. subst g. eauto. }
    rewrite Es in Hcur. simpl in Hcur. eapply (shape_suspend _ true f sv [] k); [exact Hst|done|by rewrite Es|done].
Qed.
End shape_exec.

(** ** The sums *)

(** The part of the invariant that is about sums. *)
Record sums_inv (s : partner) : Prop := {
  sm_attr : pa_threshold (pt_attr s) = 0 ∧ 0 < pa_max_parallelism (pt_attr s);
  sm_th : frame_sum w_th s = 0;
  sm_head : frame_sum (w_head (rq_iread (pt_pq s)) (rq_iread (pt_mq s))) s = 0;
  sm_att : rq_q (pt_pq s) ≠ [] → 0 < frame_sum w_count s + frame_sum w_att s;
  sm_sleep : 0 < frame_sum w_sleep s → pt_master_wait s = 1 ∨ 0 < frame_sum w_notify s;
  sm_done : pt_master_wait s = 1 → wsum counted (pt_jobs s) = 0 → 0 < frame_sum w_xdone s;
  sm_mq : pt_master_wait s = 1 → rq_q (pt_mq s) ≠ [] → 0 < frame_sum w_xmaster s;
}.

Lemma progress_sums token s : progress_inv token s → sums_inv s.
Proof. intros []. by split. Qed.

Ltac frame_cases x :=
  destruct x as [| | | | | | |[]|[]| | | | | |[]| | |[]| | | | | | | | | | | | | | | | | | | |[]|[] ? []| | | | | | |].

Lemma w_th_nonneg x : 0 <= w_th x.
Proof. frame_cases x; simpl; try lia; case_decide; lia. Qed.
Lemma w_head_nonneg rp rm x : 0 <= w_head rp rm x.
Proof. frame_cases x; simpl; try lia; case_decide; lia. Qed.
Lemma w_sleep_nonneg x : 0 <= w_sleep x.
Proof. frame_cases x; simpl; lia. Qed.
Lemma partner_w_notify_nonneg x : 0 <= w_notify x.
Proof. frame_cases x; simpl; lia. Qed.
Lemma w_xdone_nonneg x : 0 <= w_xdone x.
Proof. frame_cases x; simpl; lia. Qed.
Lemma w_xmaster_nonneg x : 0 <= w_xmaster x.
Proof. destruct x as [| | | | | | |[| | | |[]|]|[| | | |[]|]| | | | | |[]| | |[]| | | | | | | | | | | | | | | | | | | |[]|[] ? []| | | | | | |]; simpl; lia. Qed.

Lemma w_head_mono rp rm rp' rm' s : rp <= rp' → rm <= rm' → frame_sum (w_head rp' rm') s <= frame_sum (w_head rp rm) s.
Proof.
  intros H1 H2. unfold frame_sum. apply Z.add_le_mono; apply wsum_le; intros l; apply wsum_le; intros x; frame_cases x; simpl; try lia;
    repeat case_decide; lia.
Qed.

Lemma counted_nonneg r : 0 <= counted r.
Proof. unfold counted, b2z_of. case_decide; lia. Qed.

(** The test of [try_add_partner] without workers. *)
Lemma add_wanted_zero boost a v : add_wanted boost 0 0 v a = bool_decide (0 < v).
Proof. unfold add_wanted. rewrite Z.mul_0_l. by destruct boost. Qed.

Lemma iwrite_pos q : rq_q q ≠ [] → 0 < rq_iwrite q - rq_iread q.
Proof. unfold rq_iwrite. destruct (rq_q q); simpl; [done|lia]. Qed.

(** Decides what is left about the sums. *)
Ltac sums_arith :=
  intros; unfold all_done, site_queue in *;
  repeat match goal with
  | H : ?P, F : ?P → _ |- _ => specialize (F H)
  | H : has_site |- _ => destruct H
  | H : add_wanted ?b ?th ?wn _ _ = false |- _ => is_var th; replace th with 0 in * by lia; replace wn with 0 in * by lia; rewrite add_wanted_zero in H
  | H : _ ∧ _ |- _ => destruct H
  | H : (_ && _) = true |- _ => apply andb_prop in H as [? H]
  | H : context [decide (?P)] |- _ => destruct (decide P); try lia
  | |- context [decide (?P)] => destruct (decide P); try lia
  | H : bool_decide _ = true |- _ => apply bool_decide_eq_true in H
  | H : bool_decide _ = false |- _ => apply bool_decide_eq_false in H
  | H : (if ?b then bool_decide _ else bool_decide _) = _ |- _ => destruct b
  | |- context [bool_decide ?P] => destruct (bool_decide P) eqn:?
  end; simpl in *; try done; try lia.

Section sums_exec.
Context (token : Z) (s : partner) (HI : partner_inv s) (HC : counts_inv s) (HP : progress_inv token s).
Context (i : nat) (t : thread) (st : list frame) (Ht : pt_threads s !! i = Some t).

Lemma master_base_att x : th_stack t = x :: st → master_base st = true → 1 <= frame_sum w_att s.
Proof using Ht.
  intros Hst Hm. assert (∃ o n, Try (RMaster o n) ∈ st) as (o & n & Hin).
  { clear -Hm. destruct st as [|[| | |[] [] []| | | | | | | | | | |[]| | | | | | | | | | | | | | | | | | | | | | | | | | | | | | |] [|[| | | | | | | | | | | | | |[]| | | | | | | | | | | | | | | | | | | | | | | | | | | | | | |] [|]]]; simpl in *; try done;
      eexists _, _; rewrite ?elem_of_cons; eauto. }
  apply (frame_sum_elem w_att s i t (Try (RMaster o n)) w_att_nonneg Ht). rewrite Hst. by right.
Qed.

Lemma sums_plain x ch :
  th_stack t = x :: st → plain_move x = true → match x with Assign _ => False | _ => True end → sums_inv (exec i x ch s).
Proof using HC HP Ht.
  intros Hst Hx Hna. destruct (progress_sums _ _ HP) as [S1 S2 S3 S4 S5 S6 S7]. pose proof HC as [C1 C2 _ _ _ _].
  destruct (top_shape token s (pg_stack _ _ HP) i t x st Ht Hst) as (_ & _ & Hwx & _).
  pose proof (iwrite_pos (pt_pq s)) as Hq. pose proof (iwrite_pos (pt_mq s)) as Hm.
  pose proof (top_sum s i t x st Ht Hst w_count w_count_nonneg). pose proof (top_sum s i t x st Ht Hst w_att w_att_nonneg).
  pose proof (top_sum s i t x st Ht Hst w_th w_th_nonneg). pose proof (top_sum s i t x st Ht Hst _ (w_head_nonneg (rq_iread (pt_pq s)) (rq_iread (pt_mq s)))).
  pose proof (frame_sum_nonneg w_count s w_count_nonneg). pose proof (frame_sum_nonneg w_att s w_att_nonneg).
  pose proof (frame_sum_nonneg w_notify s partner_w_notify_nonneg). pose proof (frame_sum_nonneg w_xdone s w_xdone_nonneg). pose proof (frame_sum_nonneg w_xmaster s w_xmaster_nonneg).
  destruct x; try done; cbn [exec]; counts_cases; split; sums s Ht Hst; simpl in *; try done; try lia.
  all: sums_arith.
  all: try (destruct k; simpl in *; lia). all: try congruence.
  match goal with H : wsum counted _ = 0 |- _ => by rewrite H in C1 end.
Qed.

Lemma sums_jobs x ch :
  th_stack t = x :: st → match x with Push _ _ | Publish _ _ | RunJob _ | RunMaster _ | Body _ | Delete _
    | FDestroy _ | FCallback _ | FOut _ _ | MPush _ _ _ | MPublish _ _ _ | MXchg _ _ _ => True | _ => False end → sums_inv (exec i x ch s).
Proof using HI HC HP Ht.
  intros Hst Hx. destruct (progress_sums _ _ HP) as [S1 S2 S3 S4 S5 S6 S7].
  destruct (top_shape token s (pg_stack _ _ HP) i t x st Ht Hst) as (Htop & _ & _ & _). pose proof (master_base_att x Hst) as Hb.
  pose proof (top_sum s i t x st Ht Hst w_att w_att_nonneg). pose proof (top_sum s i t x st Ht Hst w_xmaster w_xmaster_nonneg).
  pose proof (frame_sum_nonneg w_count s w_count_nonneg). pose proof (frame_sum_nonneg w_att s w_att_nonneg).
  pose proof (frame_sum_nonneg w_notify s partner_w_notify_nonneg). pose proof (frame_sum_nonneg w_xdone s w_xdone_nonneg). pose proof (frame_sum_nonneg w_xmaster s w_xmaster_nonneg).
  destruct x; try done; cbn [exec]; counts_cases; split; sums s Ht Hst; simpl in *; try done; try lia.
  all: sums_arith. all: try (destruct a; sums_arith).
  all: unfold counted in *; match goal with H : wsum _ (alter _ _ _) = 0 |- _ => rewrite wsum_alter_same in H by done end; sums_arith.
Qed.

Lemma queue_pop_read ok q j q' : queue_pop ok q = Some (j, q') → rq_iread q' = rq_iread q + 1 ∧ rq_q q ≠ [].
Proof. unfold queue_pop. destruct (rq_q q) as [|[? []] ?]; [done| |done]. destruct ok; [|done]. by intros [= <- <-]. Qed.

Lemma sums_try r ch : th_stack t = Try r :: st → sums_inv (exec i (Try r) ch s).
Proof using HI HC HP Ht.
  intros Hst. destruct (progress_sums _ _ HP) as [S1 S2 S3 S4 S5 S6 S7].
  destruct (top_shape token s (pg_stack _ _ HP) i t _ st Ht Hst) as (Htop & _ & _ & _).
  pose proof (frame_sum_nonneg w_count s w_count_nonneg). pose proof (frame_sum_nonneg w_att s w_att_nonneg).
  pose proof (frame_sum_nonneg _ s (w_head_nonneg (rq_iread (pt_pq s) + 1) (rq_iread (pt_mq s)))).
  pose proof (frame_sum_nonneg _ s (w_head_nonneg (rq_iread (pt_pq s)) (rq_iread (pt_mq s) + 1))).
  pose proof (w_head_mono (rq_iread (pt_pq s)) (rq_iread (pt_mq s)) (rq_iread (pt_pq s) + 1) (rq_iread (pt_mq s)) s).
  pose proof (w_head_mono (rq_iread (pt_pq s)) (rq_iread (pt_mq s)) (rq_iread (pt_pq s)) (rq_iread (pt_mq s) + 1) s).
  cbn [exec]. unfold try_run. counts_cases; split; sums s Ht Hst; simpl in *; try done; try lia.
  all: try match goal with H : queue_pop _ _ = Some _ |- _ => simplify_eq; apply queue_pop_read in H as [Hr ?]; rewrite ?Hr end; sums_arith.
Qed.
Lemma sums_submit boost j ch : th_stack t = Submit boost j :: st → sums_inv (exec i (Submit boost j) ch s).
Proof using HI HC HP Ht.
  intros Hst. destruct (progress_sums _ _ HP) as [S1 S2 S3 S4 S5 S6 S7]. destruct (stage_new s HI i t st Ht boost j Hst) as (r & Hr & Es).
  pose proof (wsum_nonneg counted (pt_jobs s) counted_nonneg).
  cbn [exec]. unfold submit_add. split; sums s Ht Hst; simpl in *; try done; sums_arith.
  match goal with H : wsum counted (alter _ _ _) = 0 |- _ => rewrite (counted_set _ _ _ _ Hr) in H; unfold counted at 2 3, b2z_of in H; simpl in H; rewrite Es in H; simpl in H end.
  lia.
Qed.

(** The last job exchanges [master_wait]. *)
Lemma sums_done j ch : th_stack t = DoneSub j :: st → sums_inv (exec i (DoneSub j) ch s).
Proof using HI HC HP Ht.
  intros Hst. destruct (progress_sums _ _ HP) as [S1 S2 S3 S4 S5 S6 S7]. destruct (stage_counted s HI i t st Ht j Hst) as (r & Hr & Es).
  pose proof (frame_sum_nonneg w_xdone s w_xdone_nonneg). pose proof (frame_sum_nonneg w_xmaster s w_xmaster_nonneg).
  cbn [exec]. unfold done_one. destruct (decide _) as [|Hn]; split; sums s Ht Hst; simpl in *; try done; sums_arith.
  destruct Hn. rewrite (ct_job _ HC), u64_sub_l.
  match goal with H : wsum counted (alter _ _ _) = 0 |- _ => rewrite (counted_set _ _ _ _ Hr) in H; unfold counted at 2 3, b2z_of in H; simpl in H; rewrite Es in H; simpl in H end.
  by replace (wsum counted (pt_jobs s) - 1) with 0 by lia.
Qed.

Lemma sums_assign l ch : th_stack t = Assign l :: st → sums_inv (exec i (Assign l) ch s).
Proof using HP Ht.
  intros Hst. destruct (progress_sums _ _ HP) as [S1 S2 S3 S4 S5 S6 S7]. destruct (top_shape token s (pg_stack _ _ HP) i t _ st Ht Hst) as (Htop & _ & _ & _).
  cbn [exec]. unfold attr_stores. destruct l as [|w l]; split; sums s Ht Hst; simpl in *; try done; sums_arith.
  destruct w; simpl in *; sums_arith.
Qed.

Lemma sums_ret f sv d ch : th_stack t = FRet f sv d :: st → sums_inv (exec i (FRet f sv d) ch s).
Proof using HP Ht.
  intros Hst. destruct (progress_sums _ _ HP) as [S1 S2 S3 S4 S5 S6 S7]. cbn [exec]. pose proof (λ w, frame_sum_ret w s i t st f sv d Ht Hst) as Hs.
  unfold fiber_return in *. destruct d; split; rewrite ?Hs; simpl; try done; sums_arith.
Qed.

Lemma sums_spawn ch : th_stack t = AddSpawn :: st → sums_inv (exec i AddSpawn ch s).
Proof using HP Ht.
  intros Hst. destruct (progress_sums _ _ HP) as [S1 S2 S3 S4 S5 S6 S7]. cbn [exec]. pose proof (λ w, frame_sum_spawn w s i t st ch Ht Hst) as Hs.
  split; rewrite ?Hs; simpl; try done; sums_arith.
Qed.

Lemma sums_switch x ch :
  th_stack t = x :: st → match x with FStart _ | FFinal _ | ToMaster _ => True | _ => False end → sums_inv (exec i x ch s).
Proof using HI HP Ht.
  intros Hst Hx. destruct (progress_sums _ _ HP) as [S1 S2 S3 S4 S5 S6 S7].
  assert (∀ w, (∀ y, switchy y = true → w y = 0) → frame_sum w (exec i x ch s) = frame_sum w s) as Hs
    by (intros w Hw; by eapply switch_step).
  destruct (switch_step (λ _, 0) s i t x st ch HI Ht Hst Hx ltac:(done)) as [[E1 E2 E3 E4 E5 E6 E7 E8 E9 E10] _].
  split; rewrite ?E1, ?E5, ?E6, ?E7, ?Hs; try done; try (by intros []). by rewrite (wsum_switched _ _ E10).
Qed.
End sums_exec.

(** ** Waking, and new threads *)

Abbreviation woken s := (s <| pt_threads ::= fmap wake_thread |>).

Lemma partner_wake_lookup s i t : pt_threads s !! i = Some t → pt_threads (woken s) !! i = Some (wake_thread t).
Proof. intros Ht. simpl. by rewrite list_lookup_fmap, Ht. Qed.

Lemma woken_shape token s : shape_of token s → shape_of token (woken s).
Proof.
  intros HS i t'. simpl. rewrite list_lookup_fmap. destruct (pt_threads s !! i) as [t|] eqn:Ht; [|done]. intros [= <-].
  destruct (HS i t Ht) as [H1 H2]. split; [by apply wake_shape|]. unfold wake_thread. simpl.
  revert H2. generalize (th_stack t). clear. intros st. induction st as [|x st IH]; [done|]. csimpl. intros [Hx Hs]%andb_prop. rewrite (IH Hs), andb_true_r.
  by destruct x.
Qed.

Lemma notify_shape token s i t x st fs :
  shape_of token s → pt_threads s !! i = Some t → th_stack t = x :: st → stack_shape (fs ++ st) = true →
  forallb (wait_ok (bool_decide (th_id t = token))) fs = true → shape_of token (partner_notify_all i fs s).
Proof.
  intros HS Ht Hst Hs Hw. pose proof (woken_shape _ _ HS) as HW. destruct (top_shape token s HS i t x st Ht Hst) as (_ & Hbl & _).
  apply (shape_go token (woken s) HW i (wake_thread t) (wake_frame x) st (partner_wake_lookup s i t Ht)); try done.
  unfold wake_thread. simpl. rewrite Hst. csimpl. by rewrite wake_below.
Qed.

Lemma woken_sleep token s : progress_inv token s → frame_sum w_sleep (woken s) = 0.
Proof.
  intros HP. unfold frame_sum. simpl. rewrite wsum_fmap, !wsum_zero; [done|..].
  - intros r [j Hr]%list_elem_of_lookup. unfold cont_sum. destruct (jb_cont r) as [c|] eqn:Hc; simpl; [|done].
    pose proof (pg_cont _ _ HP j r c Hr Hc) as Hp. apply wsum_zero. intros x Hx. rewrite forallb_forall in Hp.
    apply list_elem_of_In, Hp in Hx. by destruct x.
  - intros t _. unfold thread_sum, wake_thread. simpl. rewrite wsum_fmap. apply wsum_zero. intros x _. by destruct x.
Qed.

Lemma woken_le w s : (∀ x, w x <= w (wake_frame x)) → frame_sum w s <= frame_sum w (woken s).
Proof.
  intros Hw. unfold frame_sum. simpl. rewrite wsum_fmap. apply Z.add_le_mono_r, wsum_le. intros t. unfold thread_sum, wake_thread. simpl.
  rewrite wsum_fmap. by apply wsum_le.
Qed.

Lemma sums_notify token s i t x st fs :
  progress_inv token s → pt_threads s !! i = Some t → th_stack t = x :: st →
  (x, fs) ∈ [(NNotify, [])] ∨ (∃ f sv d, (x, fs) = (MNotify f sv d, [FRet f sv d])) ∨ (∃ o, (x, fs) = (WaitNotify o, [WaitLoop o])) →
  sums_inv (partner_notify_all i fs s).
Proof.
  intros HP Ht Hst Hx. destruct (progress_sums _ _ HP) as [S1 S2 S3 S4 S5 S6 S7]. pose proof (woken_sleep token s HP) as Hsl.
  pose proof (woken_le w_xdone s ltac:(by intros [])) as Hd. pose proof (woken_le w_xmaster s ltac:(by intros [])) as Hm.
  assert (th_stack (wake_thread t) = wake_frame x :: (wake_frame <$> st)) as Hst' by (unfold wake_thread; simpl; by rewrite Hst).
  pose proof (λ w, frame_sum_go w i fs (woken s) _ _ _ (partner_wake_lookup s i t Ht) Hst') as Hg.
  unfold partner_notify_all. split; rewrite ?Hg, ?Hsl; rewrite ?frame_sum_wake by (by intros []); try done.
  all: destruct Hx as [[= -> ->]%list_elem_of_singleton|[(f & sv & d & [= -> ->])|(o & [= -> ->])]]; simpl; try done; try lia; sums_arith.
Qed.

Lemma spawn_shape token s i t st ch :
  shape_of token s → pt_threads s !! i = Some t → th_stack t = AddSpawn :: st → shape_of token (exec i AddSpawn ch s).
Proof.
  intros HS Ht Hst. destruct (top_shape token s HS i t _ st Ht Hst) as (_ & Hbl & _).
  pose proof (shape_go token s HS i t _ st Ht Hst s [] eq_refl (below_shape st Hbl) eq_refl) as Hg.
  intros n t'. cbn [exec]. unfold add_spawn. simpl. intros [H|[_ H]]%lookup_app_Some; [by apply (Hg n)|].
  apply list_lookup_singleton_Some in H as [_ <-]. done.
Qed.

Lemma ret_shape token s i t st f sv d ch :
  shape_of token s → pt_threads s !! i = Some t → th_stack t = FRet f sv d :: st → shape_of token (exec i (FRet f sv d) ch s).
Proof.
  intros HS Ht Hst. destruct (top_shape token s HS i t _ st Ht Hst) as (_ & Hbl & _ & Hw). pose proof (below_shape st Hbl).
  cbn [exec]. unfold fiber_return, set_thread. eapply (shape_alter token s HS i t Ht); [reflexivity|done|..]; simpl; rewrite Hst; by destruct d.
Qed.

(** ** Fibers that have not been pushed *)

(** Steps that switch no fiber leave the fibers alone. *)
Definition keeps_fibers (s s' : partner) : Prop := ∀ j r', pt_jobs s' !! j = Some r' →
  ∃ r, pt_jobs s !! j = Some r ∧ jb_kind r' = jb_kind r ∧ jb_cont r' = jb_cont r.

Lemma keeps_same s s' : pt_jobs s' = pt_jobs s → keeps_fibers s s'.
Proof. intros E j r'. rewrite E. eauto. Qed.

Lemma keeps_alter s s' g j0 :
  pt_jobs s' = alter g j0 (pt_jobs s) → (∀ r, jb_kind (g r) = jb_kind r ∧ jb_cont (g r) = jb_cont r) → keeps_fibers s s'.
Proof.
  intros E Hg j r'. rewrite E. destruct (decide (j = j0)) as [->|Hne]; [|rewrite list_lookup_alter_ne by done; eauto].
  rewrite list_lookup_alter_eq. destruct (pt_jobs s !! j0) as [r|]; simpl; [|done]. intros [= <-]. destruct (Hg r). eauto.
Qed.

Definition switches (x : frame) : bool := match x with FStart _ | FIn _ _ | FFinal _ | ToMaster _ => true | _ => false end.

Lemma local_keeps i x ch s : switches x = false → keeps_fibers s (exec i x ch s).
Proof.
  intros Hx. destruct x; try done; cbn [exec]; counts_cases; unfold submit_add, done_one, attr_stores, partner_notify_all;
    try case_match; try (by apply keeps_same); by eapply keeps_alter.
Qed.

Lemma w_pre_le n x : w_pre n x <= w_new n x + w_loc n x.
Proof.
  pose proof (eqj_nonneg n) as Hn. frame_cases x; simpl; try lia.
  all: try destruct a; try destruct done; try match goal with |- context [eqj _ ?k] => specialize (Hn k) end; lia.
Qed.

Lemma w_pre_nonneg n x : 0 <= w_pre n x.
Proof. destruct x; simpl; repeat case_match; try lia; apply eqj_nonneg. Qed.

Lemma pre_absent s j : partner_inv s → pt_jobs s !! j = None → frame_sum (w_pre j) s = 0.
Proof.
  intros HI Hj. apply (absent_sum (w_pre j) s j HI Hj (w_pre_nonneg j)). intros x Hx.
  destruct (absent_weights (kind_of s) j x ltac:(unfold kind_of; by rewrite Hj) Hx) as (H1 & H2 & _).
  pose proof (w_pre_le j x). pose proof (w_pre_nonneg j x). lia.
Qed.

Section pre_exec.
Context (s : partner) (HI : partner_inv s) (i : nat) (t : thread) (st : list frame) (Ht : pt_threads s !! i = Some t).

Lemma notify_sum w x fs :
  th_stack t = x :: st → (∀ y, w (wake_frame y) = w y) → frame_sum w (partner_notify_all i fs s) = frame_sum w s - w x + wsum w fs.
Proof using Ht.
  intros Hst Hw. assert (th_stack (wake_thread t) = wake_frame x :: (wake_frame <$> st)) as Hst' by (unfold wake_thread; simpl; by rewrite Hst).
  unfold partner_notify_all. rewrite (frame_sum_go w i fs (woken s) _ _ _ (partner_wake_lookup s i t Ht) Hst'), frame_sum_wake by done. by rewrite Hw.
Qed.

Lemma pre_local j x ch : th_stack t = x :: st → switches x = false → frame_sum (w_pre j) (exec i x ch s) <= frame_sum (w_pre j) s.
Proof using Ht.
  intros Hst Hx. destruct x; try done.
  all: try (cbn [exec]; rewrite (frame_sum_ret _ s i t st _ _ _ Ht Hst); simpl; destruct done; simpl; lia).
  all: try (cbn [exec]; rewrite (frame_sum_spawn _ s i t st _ Ht Hst); simpl; lia).
  all: cbn [exec]; counts_cases; unfold submit_add, done_one, attr_stores; try case_match; try lia; sums s Ht Hst; simpl in *; try lia.
  all: try (rewrite (notify_sum _ _ _ Hst) by (by intros []); simpl; lia).
  all: try destruct a; pose proof (eqj_nonneg j j0); lia.
Qed.

(** A job that a thread has elsewhere is not waiting for its first push. *)
Lemma pre_located j r x :
  pt_jobs s !! j = Some r → x ∈ th_stack t → w_loc j x = 1 → w_pre j x = 0 → frame_sum (w_pre j) s <= 0.
Proof using HI Ht.
  intros Hr Hin Hl Hp. destruct (pi_jobs _ HI j r Hr) as (J1 & J2 & _).
  pose proof (queue_count_nonneg j (pt_pq s)). pose proof (queue_count_nonneg j (pt_mq s)).
  set (w := λ y, w_new j y + w_loc j y - w_pre j y).
  pose proof (frame_sum_elem w s i t x ltac:(intros y; unfold w; pose proof (w_pre_le j y); lia) Ht Hin) as Hw.
  assert (frame_sum w s + frame_sum (w_pre j) s = frame_sum (w_new j) s + frame_sum (w_loc j) s) as E.
  { rewrite <-!frame_sum_add. unfold frame_sum. f_equal; apply wsum_ext; intros ?; apply wsum_ext; intros y; unfold w; lia. }
  unfold w in Hw at 1. pose proof (w_new_nonneg j x). unfold b2z_of in *. destruct (jb_stage r); simpl in *; lia.
Qed.

(** A switch changes the context of one fiber, which a thread has. *)
Lemma pre_switch x ch :
  th_stack t = x :: st → match x with FStart _ | FFinal _ | ToMaster _ => True | _ => False end →
  ∃ f, (∀ r, pt_jobs s !! f = Some r → frame_sum (w_pre f) s <= 0) ∧ (∀ j, j ≠ f → pt_jobs (exec i x ch s) !! j = pt_jobs s !! j) ∨
    pt_jobs (exec i x ch s) = pt_jobs s.
Proof using HI Ht.
  intros Hst Hx. pose proof (pi_threads _ HI i t Ht) as Hok. pose proof (to_cur _ _ Hok) as Hcur. rewrite Hst in Hcur.
  pose proof (to_ret _ _ Hok) as Hr. rewrite Hst in Hr. simpl in Hr.
  assert (∀ is_final f, th_cur t = Some f → stack_cur None st = Some f → (∀ r, pt_jobs s !! f = Some r → frame_sum (w_pre f) s <= 0) ∧
    (∀ j, j ≠ f → pt_jobs (fiber_suspend i is_final s) !! j = pt_jobs s !! j)) as Hsus.
  { intros is_final f Hc Hsc. destruct (split_in_cur st f Hsc Hr) as (seg & sv & k & Hsp & _). pose proof (split_in_app _ _ _ _ _ Hsp) as Es. split.
    - intros r Hf. apply (pre_located f r (FIn f sv) Hf); [rewrite Hst, Es; set_solver|simpl; apply eqj_refl|done].
    - intros j Hj. unfold fiber_suspend. rewrite Ht, Hc, Hst. cbn [tail]. rewrite Hsp, decide_True by done. simpl. by rewrite list_lookup_alter_ne. }
  destruct x as [| | | | | | | | | | | | | | | | | | | | | |allow|f| |f| | | | | | | | | | | | | | | | | | | |]; try done; simpl in Hcur; cbn [exec].
  - unfold submit_to_master. rewrite Ht. case_match; [exists O; by right|]. destruct (th_cur t) as [f|] eqn:Hc; [|done]. exists f. left. by apply Hsus.
  - exists f. left. split.
    + intros r Hf. apply (pre_located f r (FStart f) Hf); [rewrite Hst; set_solver|simpl; apply eqj_refl|done].
    + intros j Hj. unfold fiber_start. destruct (_ ≫= _); [|done]. simpl. by rewrite list_lookup_alter_ne.
  - pose proof (ret_here s HI i t st Ht _ Hst) as Hh. simpl in Hh. exists f. left. apply Hsus; rewrite ?Hcur; clear -Hh.
    all: destruct st as [|[| | | | | | | | | | | | | | | | | | | | | | | |g sv| | | | | | | | | | | | | | | | | | | | |] k]; try done; by subst g.
Qed.
End pre_exec.

(** ** Every step keeps the invariant *)

Lemma progress_make token s s' :
  progress_inv token s → pt_token s' = pt_token s → sums_inv s' → shape_of token s' → keeps_fibers s s' →
  (∀ j, frame_sum (w_pre j) s' <= frame_sum (w_pre j) s) → progress_inv token s'.
Proof.
  intros HP Et [S1 S2 S3 S4 S5 S6 S7] Hs Hk Hp. split; try done.
  - rewrite Et. apply HP.
  - intros j r' c Hr Hc. destruct (Hk j r' Hr) as (r & Hr0 & _ & E). apply (pg_cont _ _ HP j r c Hr0). by rewrite <-E.
  - intros j r' Hr Hf Hw. destruct (Hk j r' Hr) as (r & Hr0 & Ek & ->). apply (pg_pre _ _ HP j r Hr0); [by rewrite <-Ek|].
    specialize (Hp j). lia.
Qed.

Lemma exec_token i x ch s : pt_token (exec i x ch s) = pt_token s.
Proof.
  destruct x; cbn [exec]; counts_cases; unfold submit_add, done_one, attr_stores, submit_to_master, fiber_start, fiber_suspend, add_spawn;
    repeat case_match; done.
Qed.

Section progress_exec.
Context (token : Z) (s : partner) (HI : partner_inv s) (HC : counts_inv s) (HP : progress_inv token s).
Context (i : nat) (t : thread) (st : list frame) (Ht : pt_threads s !! i = Some t).

Lemma sums_local x ch : th_stack t = x :: st → switches x = false → sums_inv (exec i x ch s).
Proof using HC HI HP Ht.
  intros Hst Hx. destruct (plain_move x) eqn:Hp.
  { destruct x; try (by eapply sums_plain). by eapply sums_assign. }
  destruct x; try done; try (by eapply sums_jobs); eauto using sums_submit, sums_done, sums_ret, sums_spawn, sums_try.
  all: cbn [exec]; eapply sums_notify; [done..|]; rewrite list_elem_of_singleton; eauto 8.
Qed.

Lemma shape_all x ch : th_stack t = x :: st → switches x = false → shape_of token (exec i x ch s).
Proof using HP Ht.
  intros Hst Hx. pose proof (pg_stack _ _ HP) as HS. destruct (top_shape token s HS i t x st Ht Hst) as (Htop & Hbl & Hw & _).
  pose proof (below_shape _ Hbl).
  destruct x; try done; try (by eapply shape_local); eauto using spawn_shape, ret_shape; cbn [exec]; eapply notify_shape; try done; simpl in *; by rewrite ?Htop, ?Hbl, ?Hw.
Qed.

Lemma progress_exec x ch : th_stack t = x :: st → progress_inv token (exec i x ch s).
Proof using HC HI HP Ht.
  intros Hst. pose proof (exec_token i x ch s) as Et. destruct (switches x) eqn:Hx.
  - assert ((∃ f sv, x = FIn f sv) ∨ match x with FStart _ | FFinal _ | ToMaster _ => True | _ => False end) as [(f & sv & ->)|Hsw]
      by (destruct x; try done; eauto). { done. }
    destruct (shape_switch token s HI HP i t st Ht x ch Hst Hsw) as [Hs Hc].
    destruct (sums_switch token s HI HP i t st Ht x ch Hst Hsw) as [S1 S2 S3 S4 S5 S6 S7]. split; try done; [by rewrite Et; apply HP|].
    intros j r Hr Hf Hw. rewrite (proj2 (switch_step (w_pre j) s i t x st ch HI Ht Hst Hsw ltac:(by intros []))) in Hw.
    destruct (pre_switch s HI i t st Ht x ch Hst Hsw) as [f [[Hp Hj]|E]]; [|rewrite E in Hr; by apply (pg_pre _ _ HP j r)].
    destruct (decide (j = f)) as [->|Hne]; [|rewrite (Hj j Hne) in Hr; by apply (pg_pre _ _ HP j r)].
    destruct (pt_jobs s !! f) as [r0|] eqn:Hr0; [specialize (Hp r0 eq_refl); lia|].
    rewrite (pre_absent s f HI Hr0) in Hw. lia.
  - apply (progress_make token s); try done; [by apply sums_local|by apply shape_all|by apply local_keeps|]. intros j. by eapply pre_local.
Qed.
End progress_exec.

(** What a thread may call is put on top of a stack of jobs. *)
Lemma call_below t : may_call t = true → stack_shape (th_stack t) = true → below_ok (th_stack t) = true.
Proof.
  unfold may_call. destruct (th_stack t) as [|[| | | | | | | | | | | | | | | | |b| | | | | | | | | | | | | | | | | | | | | | | | | | | |] st]; simpl; try done.
  intros _ [H1 H2]%andb_prop. by destruct b.
Qed.

Lemma shape_call token s i t c :
  shape_of token s → pt_threads s !! i = Some t → may_call t = true → as_meant token t c → shape_of token (do_call i c s).
Proof.
  intros HS Ht Hm Hu. destruct (HS i t Ht) as [H1 H2]. pose proof (call_below t Hm H1) as Hb.
  assert (∀ x s', pt_threads s' = pt_threads s → top_ok x (th_stack t) = true → wait_ok (bool_decide (th_id t = token)) x = true → shape_of token (enter i [x] s')) as He.
  { intros x s' E Hx Hw. eapply (shape_alter token s HS i t Ht); [unfold enter; simpl; by rewrite E|done|simpl; by rewrite Hx|simpl; by rewrite Hw]. }
  destruct c; cbn [do_call]; apply He; try done. all: simpl in *; destruct Hu as [E1 E2]; first [by rewrite E1|by apply bool_decide_eq_true].
Qed.

Lemma progress_call token s i t c :
  partner_inv s → progress_inv token s → pt_threads s !! i = Some t → may_call t = true → as_meant token t c → progress_inv token (do_call i c s).
Proof.
  intros HI HP Ht Hm Hu. pose proof (shape_call token s i t c (pg_stack _ _ HP) Ht Hm Hu) as Hs.
  destruct (progress_sums _ _ HP) as [S1 S2 S3 S4 S5 S6 S7].
  destruct c as [boost k| | | | | |]; cbn [do_call] in *; try done.
  2-6: match goal with |- progress_inv _ (enter _ ?fs _) => pose proof (λ w, frame_sum_enter w i fs s t Ht) as Hg end;
    eapply progress_make; [exact HP|done| |exact Hs|by apply keeps_same|intros j; rewrite Hg; simpl; lia];
    split; rewrite ?Hg; simpl; rewrite ?Z.add_0_r; try done; sums_arith.
  pose proof (λ w, new_job_sum s i t boost k Ht w) as Hg.
  assert (∀ w, (∀ y, switchy y = true → w y = 0) → cont_sum w (new_job k (length (pt_jobs s))) = 0) as Hk
    by (intros w Hw; unfold cont_sum; destruct k; simpl; rewrite ?Hw by done; done).
  split; rewrite ?Hg, ?Hk by (by intros []); simpl; rewrite ?Z.add_0_r; try done; [apply HP|..].
  - intros j r c [H|[_ H]]%lookup_app_Some; [by apply (pg_cont _ _ HP j r c)|]. apply list_lookup_singleton_Some in H as [_ <-].
    destruct k; simpl; try done. by intros [= <-].
  - intros Hw Hz. apply S6; [done|]. rewrite wsum_app in Hz. simpl in Hz. pose proof (counted_nonneg (new_job k (length (pt_jobs s)))).
    pose proof (wsum_nonneg counted (pt_jobs s) counted_nonneg). lia.
  - intros j r Hr Hf. assert (0 < frame_sum (w_pre j) (do_call i (CSubmit boost k) s) → jb_cont r = Some [Body (BFiber j)]); [|done].
    cbn [do_call]. rewrite Hg, Hk by (by intros []). apply lookup_app_Some in Hr as [Hr|[Hl Hr]].
    + pose proof (lookup_lt_Some _ _ _ Hr) as Hj. simpl. unfold eqj. rewrite decide_False by lia. intros Hw. apply (pg_pre _ _ HP j r); [done..|lia].
    + apply list_lookup_singleton_Some in Hr as [Hj <-]. intros _. simpl in Hf. destruct k; try done. simpl. by replace j with (length (pt_jobs s)) by lia.
Qed.

Lemma progress_reachable a token ids s :
  pa_threshold a = 0 → 0 < pa_max_parallelism a <= UINT64_MAX → rtc (partner_step (as_meant token)) (job_partner_ctor a token ids) s →
  partner_inv s ∧ counts_inv s ∧ progress_inv token s.
Proof.
  intros Hth Hmax. apply (rtc_invariant _ (λ s, partner_inv s ∧ counts_inv s ∧ progress_inv token s)).
  - destruct (counts_reachable (as_meant token) a token ids _ ltac:(lia) (rtc_refl _ _)) as [HI HC]. split_and!; [done..|].
    assert (Hs : ∀ w, frame_sum w (job_partner_ctor a token ids) = 0) by (intros w; unfold frame_sum; simpl; rewrite wsum_fmap, wsum_zero; done).
    split; rewrite ?Hs; try done; [simpl; lia|]. intros i t. simpl. rewrite list_lookup_fmap. destruct (ids !! i); [|done]. by intros [= <-].
  - intros s1 s2 (HI & HC & HP) Hst. split; [by eapply step_inv|]. inversion Hst; subst.
    + split; [by eapply counts_call|by eapply progress_call].
    + split; [by eapply counts_exec|by eapply progress_exec].
Qed.

(** ** Nobody is left behind *)

(** Nothing can be done but to call an operation, or to wake up by chance. *)
Definition at_rest (t : thread) : bool := match th_stack t with [] | [WaitSleep _] => true | _ => false end.

Definition asleep (t : thread) : bool := match th_stack t with [WaitSleep _] => true | _ => false end.

Section at_rest.
Context (token : Z) (s : partner) (HI : partner_inv s) (HC : counts_inv s) (HP : progress_inv token s).
Context (Hrest : ∀ i t, pt_threads s !! i = Some t → at_rest t = true).

Lemma rest_sum w : (∀ o, w (WaitSleep o) = 0) → frame_sum w s = wsum (cont_sum w) (pt_jobs s).
Proof using Hrest.
  intros Hw. unfold frame_sum. rewrite wsum_zero; [done|]. intros t [i Ht]%list_elem_of_lookup. apply Hrest in Ht. unfold thread_sum.
  unfold at_rest in Ht. destruct (th_stack t) as [|[] []]; try done. simpl. by rewrite Hw.
Qed.

Lemma rest_zero w : (∀ o, w (WaitSleep o) = 0) → (∀ x, plain x = true → w x = 0) → frame_sum w s = 0.
Proof using HP Hrest.
  intros Hw Hp. rewrite rest_sum by done. apply wsum_zero. intros r [j Hr]%list_elem_of_lookup. unfold cont_sum.
  destruct (jb_cont r) as [c|] eqn:Hc; [|done]. pose proof (pg_cont _ _ HP j r c Hr Hc) as Hpl. rewrite forallb_forall in Hpl.
  apply wsum_zero. intros x Hx. apply Hp, Hpl. by apply list_elem_of_In.
Qed.

Lemma cont_elem w g r c x : (∀ y, 0 <= w y) → pt_jobs s !! g = Some r → jb_cont r = Some c → x ∈ c → w x <= frame_sum w s.
Proof using.
  intros Hw Hr Hc [n Hn]%list_elem_of_lookup. pose proof (wsum_elem w c n x Hw Hn).
  pose proof (wsum_elem (cont_sum w) _ g r (λ r, wsum_nonneg w _ Hw) Hr) as H1. unfold cont_sum in H1 at 1. rewrite Hc in H1. simpl in H1.
  pose proof (wsum_nonneg (thread_sum w) (pt_threads s) (λ t, wsum_nonneg w _ Hw)). unfold frame_sum. lia.
Qed.

(** A job that is not over and in no queue is held by a suspended fiber. *)
Lemma rest_held j r :
  rq_q (pt_pq s) = [] → rq_q (pt_mq s) = [] → pt_jobs s !! j = Some r → jb_stage r ≠ Finished →
  ∃ f rf c x, pt_jobs s !! f = Some rf ∧ jb_cont rf = Some c ∧ x ∈ c ∧ 0 < w_loc j x ∧ plain x = true.
Proof using HI HP Hrest.
  intros Hp Hm Hr Hn. destruct (pi_jobs _ HI j r Hr) as (J1 & J2 & _). unfold queue_count in J2. rewrite Hp, Hm in J2.
  rewrite rest_zero in J1 by (done || by intros []). rewrite rest_sum in J2 by done.
  assert (0 < wsum (cont_sum (w_loc j)) (pt_jobs s)) as Hs.
  { unfold b2z_of in *. destruct (jb_stage r); simpl in *; [lia| |done]. lia. }
  apply wsum_pos in Hs as (rf & [f Hf]%list_elem_of_lookup & Hs). unfold cont_sum in Hs.
  destruct (jb_cont rf) as [c|] eqn:Hc; simpl in Hs; [|lia]. apply wsum_pos in Hs as (x & Hx & Hl).
  exists f, rf, c, x. split_and!; try done. pose proof (pg_cont _ _ HP f rf c Hf Hc) as Hpl. rewrite forallb_forall in Hpl. by apply Hpl, list_elem_of_In.
Qed.

Lemma rest_finished :
  rq_q (pt_pq s) = [] → rq_q (pt_mq s) = [] → ∀ j r, pt_jobs s !! j = Some r → jb_stage r = Finished.
Proof using HI HP Hrest.
  intros Hp Hm j r Hr. destruct (decide (jb_stage r = Finished)) as [|Hn]; [done|exfalso].
  destruct (rest_held j r Hp Hm Hr Hn) as (f & rf & c & x & Hf & Hc & Hx & Hl & _).
  destruct (pi_jobs _ HI f rf Hf) as (_ & _ & J3). destruct (jb_kind rf) as [| |d] eqn:Hk; [by destruct J3; congruence..|].
  assert (jb_stage rf ≠ Finished) as Hnf.
  { destruct J3 as (F1 & _ & F3 & _). unfold b2z_of in *. rewrite Hc in F1. simpl in F1. pose proof (frame_sum_nonneg (w_in f) s ltac:(auto)).
    intros E. rewrite E in F3. simpl in F3. destruct (jb_final rf); simpl in *; lia. }
  destruct (rest_held f rf Hp Hm Hf Hnf) as (g & rg & c' & y & Hg & Hc' & Hy & Hly & Hpl).
  pose proof (cont_elem _ g rg c' y (w_bad_nonneg (kind_of s)) Hg Hc' Hy) as Hok. rewrite (pi_kind _ HI) in Hok.
  pose proof (cont_elem _ g rg c' y (w_pre_nonneg f) Hg Hc' Hy) as Hpre. assert (kind_of s f = Some (Fiber d)) as Hkf by (unfold kind_of; rewrite Hf; simpl; by rewrite Hk).
  assert (0 < w_pre f y) as Hy0.
  { assert (frame_ok (kind_of s) y = true) as Hoy by (unfold w_bad in Hok; by destruct (frame_ok _ y)). clear -Hoy Hly Hpl Hkf.
    destruct y as [|[]?| | | | | | | | | | | | | | | |[]| | | | | | | | | | | | | | | | | | | | | | | | | | | |]; simpl in *; try done.
    all: unfold eqj in Hly; case_decide; [subst|done]; apply bool_decide_eq_true in Hoy; congruence. }
  pose proof (pg_pre _ _ HP f rf Hf ltac:(by rewrite Hk) ltac:(lia)) as E. rewrite Hc in E. simplify_eq. apply list_elem_of_singleton in Hx as ->. done.
Qed.
End at_rest.

(** C14: Used as it is meant to be, with only the master waiting and a threshold of
    0, the partner forgets nobody.  When no thread has anything left to do but to
    sleep or to make new calls, the partner queue is empty, nobody is asleep in
    [wait], and every job is over unless a suspended one is in the master queue
    until the master calls [wait].  So no wake-up is lost between the counters,
    the queues and the futex. *)
Theorem partner_never_stuck a token ids s :
  pa_threshold a = 0 → 0 < pa_max_parallelism a <= UINT64_MAX → rtc (partner_step (as_meant token)) (job_partner_ctor a token ids) s →
  (∀ i t, pt_threads s !! i = Some t → at_rest t = true) →
  rq_q (pt_pq s) = [] ∧ (∀ i t, pt_threads s !! i = Some t → asleep t = false) ∧
  (rq_q (pt_mq s) = [] → ∀ j r, pt_jobs s !! j = Some r → jb_stage r = Finished).
Proof.
  intros Hth Hmax Hr Hrest. destruct (progress_reachable a token ids s Hth Hmax Hr) as (HI & HC & HP).
  assert (∀ w, (∀ o, w (WaitSleep o) = 0) → (∀ x, plain x = true → w x = 0) → frame_sum w s = 0) as Hz by (intros; by eapply rest_zero).
  assert (rq_q (pt_pq s) = []) as Hp.
  { destruct (rq_q (pt_pq s)) eqn:E; [done|]. pose proof (pg_att _ _ HP) as Ha. rewrite E in Ha. specialize (Ha ltac:(done)).
    rewrite !Hz in Ha by (done || by intros []). lia. }
  pose proof (rest_finished token s HI HP Hrest Hp) as Hfin. split_and!; [done| |done].
  intros i t Ht. destruct (asleep t) eqn:Has; [exfalso|done].
  assert (0 < frame_sum w_sleep s) as Hs.
  { unfold asleep in Has. destruct (th_stack t) as [|x st] eqn:Hst; [done|]. pose proof (top_sum s i t x st Ht Hst w_sleep w_sleep_nonneg).
    destruct x; try done. simpl in *. lia. }
  apply (pg_sleep _ _ HP) in Hs as [Hw|Hs]; [|rewrite Hz in Hs by (done || by intros []); lia].
  destruct (decide (rq_q (pt_mq s) = [])) as [Hm|Hm]; [|pose proof (pg_mq _ _ HP Hw Hm) as Hx; rewrite Hz in Hx by (done || by intros []); lia].
  pose proof (pg_done _ _ HP Hw) as Hx. rewrite Hz in Hx by (done || by intros []). rewrite wsum_zero in Hx; [specialize (Hx eq_refl); lia|].
  intros r [j Hj]%list_elem_of_lookup. unfold counted, b2z_of. by rewrite (Hfin Hm j r Hj).
Qed.

Definition meant (token : Z) (t : thread) (c : call) : bool :=
  match c with
  | CWait _ _ => is_nil (th_stack t) && bool_decide (th_id t = token)
  | CStealMaster => false
  | CAssign l => forallb harmless l
  | _ => true
  end.

Lemma meant_as_meant token t c : meant token t c = true → as_meant token t c.
Proof.
  destruct c; simpl; try done. intros [H1 H2]%andb_prop. apply bool_decide_eq_true in H2. split; [|done]. by destruct (th_stack t).
Qed.

Lemma partner_never_stuck_witness :
  ∃ s, run (meant 1) complete_run example = Some s ∧ asleep <$> pt_threads s = [false; false; false; false] ∧
    rq_q (pt_pq s) = [] ∧ jb_stage <$> pt_jobs s = [Finished].
Proof.
  eexists. split_and!; [vm_compute; reflexivity..| |by vm_compute].
  eapply (partner_never_stuck example_attr 1 [1; 2]); [done|done|eapply run_rtc with (l := complete_run); [apply meant_as_meant|vm_compute; reflexivity]|].
  intros [|[|[|[|i]]]] t Ht; vm_compute in Ht; by simplify_eq.
Defined.

(** ** Used otherwise *)

(** The calls of clients that wait from any thread, and that do nothing else out
    of the ordinary. *)
Definition any_waiter (_ : thread) (c : call) : bool := match c with CStealMaster | CAssign _ => false | _ => true end.

Definition second_waiter_run : list event :=
  [ECall 0 (CSubmit true (Fiber true)); EExec 0 8 yes; EExec 2 7 yes; ECall 0 (CWait true false); EExec 0 16 yes; ECall 1 (CWait true false);
   EExec 1 7 yes; ECall 2 (CToMaster false); EExec 2 11 yes; EExec 1 1 yes; EExec 0 1 yes; EExec 1 6 yes].

(** C38: A second thread in [wait] can put the master to sleep for good.  The master
    is about to call the futex when a job is handed to it; the notification
    clears [master_wait] and finds nobody asleep; the second thread, on its own
    way to sleep, sets [master_wait] again, so that the master does go to sleep
    with a job in its queue, and the second thread too, which does not look at
    that queue.  There is no worker left, and nothing will wake them. *)
Theorem partner_second_waiter_stuck :
  ∃ s, rtc (partner_step (λ t c, any_waiter t c = true)) example s ∧
    forallb at_rest (pt_threads s) = true ∧ asleep <$> pt_threads s = [true; true; false] ∧
    pt_partner_num s = 0 ∧ rq_q (pt_mq s) = [(0%nat, true)] ∧ jb_stage <$> pt_jobs s = [Counted].
Proof.
  eexists. split; [|split_and!]; [eapply (run_rtc any_waiter) with (l := second_waiter_run); [done|]|..]; vm_compute; reflexivity.
Qed.

(** With a threshold, [wait<false>] sleeps for good on as many jobs as the
    threshold allows: no worker is started for them, and the waiting thread does
    not run them. *)
Theorem partner_threshold_stuck :
  ∃ s, rtc (partner_step (λ t c, any_waiter t c = true)) (job_partner_ctor (example_attr <| pa_threshold := 1 |>) 1 [1]) s ∧
    asleep <$> pt_threads s = [true] ∧ pt_partner_num s = 0 ∧ rq_q (pt_pq s) = [(0%nat, true)] ∧ jb_stage <$> pt_jobs s = [Counted].
Proof.
  eexists. split; [|split_and!]; [eapply (run_rtc any_waiter) with (l := [ECall 0 (CSubmit true Plain); EExec 0 5 yes; ECall 0 (CWait false false); EExec 0 14 yes]); [done|]|..];
    vm_compute; reflexivity.
Qed.

(** After [try_steal_one_job<false>] the job that was resumed is in the partner
    queue, and no worker is started for it. *)
Theorem partner_steal_strands :
  ∃ s, rtc (partner_step (λ _ _, True)) example s ∧
    forallb at_rest (pt_threads s) = true ∧ pt_partner_num s = 0 ∧ rq_q (pt_pq s) = [(0%nat, true)] ∧ jb_stage <$> pt_jobs s = [Counted].
Proof.
  eexists. split; [|split_and!]; [eapply anything_rtc with (l := suspend_run ++ [ECall 0 CStealMaster; EExec 0 4 yes])|..]; vm_compute; reflexivity.
Qed.

(** [wait] may return before a suspendable job's callback is called, and before
    its fiber is destroyed: [done_one] comes first. *)
Theorem partner_wait_before_callback :
  ∃ s, rtc (partner_step (λ _ _, True)) example s ∧ all_done s = true ∧
    th_stack <$> pt_threads s = [[]; []; [FDestroy 0; Try RWorker]] ∧ jb_kind <$> pt_jobs s = [Fiber true].
Proof.
  eexists. split; [|split_and!];
    [eapply anything_rtc with (l := [ECall 0 (CSubmit true (Fiber true)); EExec 0 8 yes; EExec 2 13 yes; ECall 0 (CWait true false); EExec 0 1 yes])|..];
    vm_compute; reflexivity.
Qed.

End PartnerProgress.
