(* ===== verification/FiberContext.v ===== *)
(** * Contexts and fibers

    Models src/src/eu/co2_context.c and co2_context.h, the switch between stacks
    below the coroutines and the fibers of the job partner, and [fiber::init] of
    interfaces/kits/cpp/pattern/job_utils.h.  The assembly of the four
    architectures is executed by a machine of registers and words of memory.
    What the C code relies on is the class [ArchOk], of which [aarch64], [arm],
    [x86_64] and [riscv] with the soft or the double ABI are instances; the
    theorems about switches are proved for all of them.  With the single ABI of
    RISC-V the save writes past the context ([riscv_single_overruns]).  For RISC-V
    [c/type_def.h] has no size of [ffrt_fiber_t]; the model takes [FFRT_REG_NR].
    The control registers of floating point are registers of the machine; no
    architecture saves them.

    Memory is read and written in aligned words.  Of the instructions only the
    effect on registers, memory and the program counter is modelled; [stp], [stmia]
    and the like are sequences of single accesses, a double register of [__arm__]
    is a pair of single ones.  [ret] and [jmp] end a run, since what follows is
    the code of the caller. *)

From S2P Require Import Prelude.

Module FiberContext.

(** ** The machine *)

(** Registers, and memory, with one of them changed. *)
Definition upd {R} `{!EqDecision R} (k : R) (v : Z) (g : R → Z) : R → Z := λ r, if decide (r = k) then v else g r.
Definition mset (k v : Z) (h : Z → Z) : Z → Z := λ a, if decide (a = k) then v else h a.

Lemma mset_eq k v h a : a = k → mset k v h a = v.
Proof. intros ->. unfold mset. by rewrite decide_True. Qed.

Lemma mset_ne k a v h : a ≠ k → mset k v h a = h a.
Proof. intros H. unfold mset. by rewrite decide_False. Qed.

Record machine (R : Type) := mk_machine { m_reg : R → Z; m_mem : Z → Z; m_pc : Z }.
Arguments mk_machine {_} _ _ _.
Arguments m_reg {_} _ _.
Arguments m_mem {_} _ _.
Arguments m_pc {_} _.

(** Store and load of a word, moves, addition of a constant, the address [o] bytes
    after the entry of the code, and jumps to a register or to a word of memory. *)
Inductive instr (R : Type) :=
| St (r b : R) (o : Z) | Ld (r b : R) (o : Z) | Mov (d s : R) | MovI (d : R) (v : Z) | Add (d s : R) (v : Z) | Link (d : R) (o : Z) | JmpR (r : R) | JmpM (b : R) (o : Z).
Arguments St {_} _ _ _.
Arguments Ld {_} _ _ _.
Arguments Mov {_} _ _.
Arguments MovI {_} _ _.
Arguments Add {_} _ _ _.
Arguments Link {_} _ _.
Arguments JmpR {_} _.
Arguments JmpM {_} _ _.

(** One instruction, with addresses of [bits] bits. *)
Definition step {R} `{!EqDecision R} (bits : Z) (i : instr R) (m : machine R) : machine R :=
  let (g, h, pc) := m in
  match i with
  | St r b o => mk_machine g (mset (uw bits (g b + o)) (g r) h) pc
  | Ld r b o => mk_machine (upd r (h (uw bits (g b + o))) g) h pc
  | Mov d s => mk_machine (upd d (g s) g) h pc
  | MovI d v => mk_machine (upd d v g) h pc
  | Add d s v => mk_machine (upd d (uw bits (g s + v)) g) h pc
  | Link d o => mk_machine (upd d (uw bits (pc + o)) g) h pc
  | JmpR r => mk_machine g h (g r)
  | JmpM b o => mk_machine g h (h (uw bits (g b + o)))
  end.

Fixpoint run_code {R} `{!EqDecision R} (bits : Z) (l : list (instr R)) (m : machine R) : machine R :=
  match l with [] => m | i :: l => run_code bits l (step bits i m) end.

(** ** The interface of an architecture *)

(** [ctx_slots] are the integer and floating-point registers a function has to
    preserve, other than the stack pointer, with their places in [ffrt_fiber_t];
    [ctl_regs] are the control registers of floating point; [ret_pc] and [ret_sp] are where a call returns to and the
    stack pointer after it; [entry_pop] is what [context_entry] takes from the
    stack. *)
Class Arch := {
  reg : Type;
  reg_dec :: EqDecision reg;
  word : Z;
  storage_size : Z;
  REG_LR : Z;
  REG_SP : Z;
  arg0 : reg;
  ret0 : reg;
  sp : reg;
  ctx_slots : list (reg * Z);
  ctl_regs : list reg;
  ret_pc : machine reg → Z;
  ret_sp : machine reg → Z;
  entry_pop : Z;
  context_entry : list (instr reg);
  co2_save_context : list (instr reg);
  co2_restore_context : list (instr reg);
}.

Section arch.
Context `{Arch}.

Definition bits : Z := 8 * word.
Definition ctx_size : Z := word * storage_size.

(** A context inside the address space; an address outside it. *)
Definition fits (c : Z) : Prop := 0 <= c ∧ c + ctx_size <= 2 ^ bits.
Definition outside (c a : Z) : Prop := a < c ∨ c + ctx_size <= a.
Definition apart (c c' : Z) : Prop := c + ctx_size <= c' ∨ c' + ctx_size <= c.

(** The stack of the caller is not the context, and does not wrap around. *)
Definition stack_apart (c : Z) (m : machine reg) : Prop := 0 <= m_reg m sp < 2 ^ bits - word ∧ outside c (m_reg m sp).

(** The words of a context hold what the registers of [m] are after the call. *)
Definition saved (c : Z) (m : machine reg) (h : Z → Z) : Prop :=
  h (c + word * REG_LR) = ret_pc m ∧ h (c + word * REG_SP) = ret_sp m ∧ ∀ r o, (r, o) ∈ ctx_slots → h (c + o) = m_reg m r.

(** The machine [m] runs at what the context holds. *)
Definition restored (c : Z) (h : Z → Z) (m : machine reg) : Prop :=
  m_pc m = h (c + word * REG_LR) ∧ m_reg m sp = h (c + word * REG_SP) ∧ m_reg m ret0 = 1 ∧
  ∀ r o, (r, o) ∈ ctx_slots → m_reg m r = h (c + o).

Definition set_arg (v : Z) (m : machine reg) : machine reg := mk_machine (upd arg0 v (m_reg m)) (m_mem m) (m_pc m).
End arch.

(** What the C code relies on. *)
Class ArchOk `{Arch} := {
  arch_layout : 0 < word ∧ 0 <= REG_LR < storage_size ∧ 0 <= REG_SP < storage_size ∧ REG_LR ≠ REG_SP ∧
    arg0 ≠ sp ∧ (∀ r o, (r, o) ∈ ctx_slots → r ≠ arg0 ∧ 0 <= o ∧ o + word <= ctx_size) ∧ arg0 ∉ ctl_regs;
  ret_set_arg : ∀ v m, ret_pc (set_arg v m) = ret_pc m ∧ ret_sp (set_arg v m) = ret_sp m;
  save_spec : ∀ m, fits (m_reg m arg0) → stack_apart (m_reg m arg0) m →
    let c := m_reg m arg0 in let m' := run_code bits co2_save_context m in
    m_pc m' = ret_pc m ∧ m_reg m' ret0 = 0 ∧ m_reg m' sp = ret_sp m ∧ (∀ r o, (r, o) ∈ ctx_slots → m_reg m' r = m_reg m r) ∧
    (∀ r, r ∈ ctl_regs → m_reg m' r = m_reg m r) ∧ (∀ a, outside c a → m_mem m' a = m_mem m a) ∧ saved c m (m_mem m');
  restore_spec : ∀ m, fits (m_reg m arg0) →
    let m' := run_code bits co2_restore_context m in
    restored (m_reg m arg0) (m_mem m) m' ∧ (∀ r, r ∈ ctl_regs → m_reg m' r = m_reg m r) ∧ m_mem m' = m_mem m;
  entry_spec : ∀ m, 0 <= m_reg m sp → m_reg m sp + 2 * word < 2 ^ bits →
    let m' := run_code bits context_entry m in
    m_pc m' = m_mem m (m_reg m sp + word) ∧ m_reg m' arg0 = m_mem m (m_reg m sp) ∧ m_reg m' sp = m_reg m sp + entry_pop ∧ m_mem m' = m_mem m;
}.

(** ** The architectures *)

(** Pairs of registers, and lists of them, at successive words. *)
Definition stp {R} (r r' b : R) (o : Z) : list (instr R) := [St r b o; St r' b (o + 8)].
Definition ldp {R} (r r' b : R) (o : Z) : list (instr R) := [Ld r b o; Ld r' b (o + 8)].
Fixpoint stmia {R} (b : R) (l : list R) : list (instr R) := match l with [] => [] | r :: l => St r b 0 :: Add b b 4 :: stmia b l end.
Fixpoint ldmia {R} (b : R) (l : list R) : list (instr R) := match l with [] => [] | r :: l => Ld r b 0 :: Add b b 4 :: ldmia b l end.

(** [__aarch64__]: [X 30] is [lr]. *)
Inductive a64_reg := X (n : nat) | D (n : nat) | XSP | FPCR.

#[export] Instance a64_reg_eq_dec : EqDecision a64_reg.
Proof. solve_decision. Defined.

Definition a64_entry : list (instr a64_reg) := [Ld (X 0) XSP 0; Ld (X 1) XSP 8; Add XSP XSP 16; MovI (X 30) 0; JmpR (X 1)].

Definition a64_save : list (instr a64_reg) :=
  stp (X 19) (X 20) (X 0) 0 ++ stp (X 21) (X 22) (X 0) 16 ++ stp (X 23) (X 24) (X 0) 32 ++ stp (X 25) (X 26) (X 0) 48 ++
  stp (X 27) (X 28) (X 0) 64 ++ stp (X 29) (X 30) (X 0) 80 ++ [Mov (X 2) XSP; St (X 2) (X 0) 104] ++
  stp (D 8) (D 9) (X 0) 112 ++ stp (D 10) (D 11) (X 0) 128 ++ stp (D 12) (D 13) (X 0) 144 ++ stp (D 14) (D 15) (X 0) 160 ++
  [MovI (X 0) 0; JmpR (X 30)].

Definition a64_restore : list (instr a64_reg) :=
  ldp (X 19) (X 20) (X 0) 0 ++ ldp (X 21) (X 22) (X 0) 16 ++ ldp (X 23) (X 24) (X 0) 32 ++ ldp (X 25) (X 26) (X 0) 48 ++
  ldp (X 27) (X 28) (X 0) 64 ++ ldp (X 29) (X 30) (X 0) 80 ++ [Ld (X 2) (X 0) 104; Mov XSP (X 2)] ++
  ldp (D 8) (D 9) (X 0) 112 ++ ldp (D 10) (D 11) (X 0) 128 ++ ldp (D 12) (D 13) (X 0) 144 ++ ldp (D 14) (D 15) (X 0) 160 ++
  [MovI (X 0) 1; JmpR (X 30)].

Definition aarch64 : Arch := {|
  reg := a64_reg; word := 8; storage_size := 22; REG_LR := 11; REG_SP := 13; arg0 := X 0; ret0 := X 0; sp := XSP;
  ctx_slots := [(X 19, 0); (X 20, 8); (X 21, 16); (X 22, 24); (X 23, 32); (X 24, 40); (X 25, 48); (X 26, 56); (X 27, 64); (X 28, 72); (X 29, 80);
    (D 8, 112); (D 9, 120); (D 10, 128); (D 11, 136); (D 12, 144); (D 13, 152); (D 14, 160); (D 15, 168)];
  ctl_regs := [FPCR];
  ret_pc := λ m, m_reg m (X 30); ret_sp := λ m, m_reg m XSP; entry_pop := 16;
  context_entry := a64_entry; co2_save_context := a64_save; co2_restore_context := a64_restore;
|}.

(** [__arm__]: [v1-v6] are [r4] to [r9], [sl] and [fp] are [r10] and [r11], [ip]
    is [r12], [a4] is [r3]; [d8-d15] are [s16] to [s31]. *)
Inductive a32_reg := Rn (n : nat) | Sn (n : nat) | RSP | RLR | FPSCR.

#[export] Instance a32_reg_eq_dec : EqDecision a32_reg.
Proof. solve_decision. Defined.

Definition a32_entry : list (instr a32_reg) := [Ld (Rn 0) RSP 0; Ld (Rn 1) RSP 4; Add RSP RSP 8; MovI RLR 0; JmpR (Rn 1)].

Definition a32_saved : list a32_reg := Rn <$> seq 4 8.
Definition a32_vsaved : list a32_reg := Sn <$> seq 16 16.

Definition a32_save : list (instr a32_reg) :=
  [Mov (Rn 12) (Rn 0); St RSP (Rn 12) 0; Add (Rn 12) (Rn 12) 4; St RLR (Rn 12) 0; Add (Rn 12) (Rn 12) 4] ++
  stmia (Rn 12) a32_saved ++ stmia (Rn 12) a32_vsaved ++ [MovI (Rn 0) 0; JmpR RLR].

Definition a32_restore : list (instr a32_reg) :=
  [Mov (Rn 12) (Rn 0); Ld (Rn 3) (Rn 12) 0; Add (Rn 12) (Rn 12) 4; Ld (Rn 4) (Rn 12) 0; Add (Rn 12) (Rn 12) 4; Mov RSP (Rn 3); Mov RLR (Rn 4)] ++
  ldmia (Rn 12) a32_saved ++ ldmia (Rn 12) a32_vsaved ++ [MovI (Rn 0) 1; JmpR RLR].

Definition arm : Arch := {|
  reg := a32_reg; word := 4; storage_size := 64; REG_LR := 1; REG_SP := 0; arg0 := Rn 0; ret0 := Rn 0; sp := RSP;
  ctx_slots := imap (λ n r, (r, 8 + 4 * Z.of_nat n)) (a32_saved ++ a32_vsaved);
  ctl_regs := [FPSCR];
  ret_pc := λ m, m_reg m RLR; ret_sp := λ m, m_reg m RSP; entry_pop := 8;
  context_entry := a32_entry; co2_save_context := a32_save; co2_restore_context := a32_restore;
|}.

(** [__x86_64__]: the return address is on the stack. *)
Inductive x64_reg := RAX | RBX | RBP | RDI | RDX | RSPx | R12 | R13 | R14 | R15 | MXCSR | FPUCW.

#[export] Instance x64_reg_eq_dec : EqDecision x64_reg.
Proof. solve_decision. Defined.

Definition x64_entry : list (instr x64_reg) := [Ld RDI RSPx 0; Add RSPx RSPx 8; JmpM RSPx 0].

Definition x64_save : list (instr x64_reg) :=
  [St RBX RDI 0; St RBP RDI 8; St R12 RDI 16; St R13 RDI 24; St R14 RDI 32; St R15 RDI 40; Add RDX RSPx 8; St RDX RDI 48; Ld RDX RSPx 0;
   St RDX RDI 56; MovI RAX 0; Add RSPx RSPx 8; JmpM RSPx (-8)].

Definition x64_restore : list (instr x64_reg) :=
  [MovI RAX 0; Add RAX RAX 1; Ld RBX RDI 0; Ld RBP RDI 8; Ld R12 RDI 16; Ld R13 RDI 24; Ld R14 RDI 32; Ld R15 RDI 40; Ld RDX RDI 48; Mov RSPx RDX;
   JmpM RDI 56].

Definition x86_64 : Arch := {|
  reg := x64_reg; word := 8; storage_size := 8; REG_LR := 7; REG_SP := 6; arg0 := RDI; ret0 := RAX; sp := RSPx;
  ctx_slots := [(RBX, 0); (RBP, 8); (R12, 16); (R13, 24); (R14, 32); (R15, 40)];
  ctl_regs := [MXCSR; FPUCW];
  ret_pc := λ m, m_mem m (m_reg m RSPx); ret_sp := λ m, m_reg m RSPx + 8; entry_pop := 8;
  context_entry := x64_entry; co2_save_context := x64_save; co2_restore_context := x64_restore;
|}.

(** [__riscv] with 64 bits, by its ABI for floating point; [Sx n] is [sn], [Fs n] is
    [fsn].  [jalr_end] is the address after [jalr] from the start of
    [context_entry], which depends on the encoding. *)
Inductive rv_reg := RA | SPr | A0 | A1 | Sx (n : nat) | Fs (n : nat) | FCSR.

#[export] Instance rv_reg_eq_dec : EqDecision rv_reg.
Proof. solve_decision. Defined.

Inductive rv_float_abi := FloatSoft | FloatSingle | FloatDouble.

(** [FFRT_REG_NR], and the registers of floating point that are saved. *)
Definition rv_storage (f : rv_float_abi) : Z := match f with FloatDouble => 26 | _ => 14 end.
Definition rv_fs (f : rv_float_abi) : list rv_reg := match f with FloatSoft => [] | _ => Fs <$> seq 0 12 end.

Definition rv_slots (f : rv_float_abi) : list (rv_reg * Z) :=
  imap (λ n r, (r, 8 + 8 * Z.of_nat n)) (Sx <$> seq 0 12) ++ imap (λ n r, (r, 112 + 8 * Z.of_nat n)) (rv_fs f).

Definition rv_entry (jalr_end : Z) : list (instr rv_reg) := [Ld A0 SPr 0; Ld A1 SPr 8; Link RA jalr_end; JmpR A1].

Definition rv_save (f : rv_float_abi) : list (instr rv_reg) :=
  [St RA A0 0] ++ imap (λ n r, St r A0 (8 + 8 * Z.of_nat n)) (Sx <$> seq 0 12) ++ [St SPr A0 104] ++
  imap (λ n r, St r A0 (112 + 8 * Z.of_nat n)) (rv_fs f) ++ [MovI A0 0; JmpR RA].

Definition rv_restore (f : rv_float_abi) : list (instr rv_reg) :=
  [Ld RA A0 0] ++ imap (λ n r, Ld r A0 (8 + 8 * Z.of_nat n)) (Sx <$> seq 0 12) ++ [Ld SPr A0 104] ++
  imap (λ n r, Ld r A0 (112 + 8 * Z.of_nat n)) (rv_fs f) ++ [MovI A0 1; JmpR RA].

Definition riscv (f : rv_float_abi) (jalr_end : Z) : Arch := {|
  reg := rv_reg; word := 8; storage_size := rv_storage f; REG_LR := 0; REG_SP := 13; arg0 := A0; ret0 := A0; sp := SPr;
  ctx_slots := rv_slots f; ctl_regs := [FCSR];
  ret_pc := λ m, m_reg m RA; ret_sp := λ m, m_reg m SPr; entry_pop := 0;
  context_entry := rv_entry jalr_end; co2_save_context := rv_save f; co2_restore_context := rv_restore f;
|}.

(** ** The architectures keep their promises *)

Ltac slot_cases H := repeat (apply elem_of_cons in H as [[= -> ->]|H]); [..|by apply not_elem_of_nil in H].
Ltac reg_cases H := repeat (apply elem_of_cons in H as [->|H]); [..|by apply not_elem_of_nil in H].

(** Evaluates a program on registers and memory that are not known, and reads
    the memory it leaves. *)
Ltac machine_run := cbv -[uw mset Z.add Z.mul Z.le Z.lt Z.sub Z.pow Z.opp not].
Ltac no_wrap := repeat match goal with |- context [uw ?b ?x] => lazymatch x with context [uw] => fail | _ => rewrite (uw_small b x) by lia end end.
Ltac mem_at := no_wrap; repeat first [rewrite mset_eq by lia | rewrite mset_ne by lia]; f_equal; lia.
Ltac machine_case := try done; try (intros r o Hin; slot_cases Hin; try done); try (intros r Hin; reg_cases Hin; done); try (intros a Ha; unfold outside, ctx_size in Ha; simpl in Ha); machine_run; mem_at.

(** The three specifications, for a machine that is given by its parts. *)
Ltac arch_layout_tac := split_and!; try done; [intros r o Hin; slot_cases Hin; done|intros Hin; by repeat (apply elem_of_cons in Hin as [Hin|Hin]; [done|]); apply not_elem_of_nil in Hin].
Ltac save_tac :=
  intros [g h pc] [H1 H2] [[H3 H4] H5]; unfold outside, ctx_size, bits in *; simpl in H1, H2, H3, H4, H5; unfold saved; split_and!; machine_case.
Ltac restore_tac := intros [g h pc] [H1 H2]; unfold ctx_size, bits in *; simpl in H1, H2; unfold restored; split_and!; machine_case.
Ltac entry_tac := intros [g h pc] H1 H2; unfold bits in *; simpl in H1, H2; split_and!; machine_case.

#[export] Instance aarch64_ok : @ArchOk aarch64.
Proof. split; [arch_layout_tac|done|save_tac|restore_tac|entry_tac]. Qed.

#[export] Instance x86_64_ok : @ArchOk x86_64.
Proof. split; [arch_layout_tac|done|save_tac|restore_tac|entry_tac]. Qed.

#[export] Instance arm_ok : @ArchOk arm.
Proof. split; [arch_layout_tac|done|save_tac|restore_tac|entry_tac]. Qed.

#[export] Instance riscv_soft_ok jalr_end : @ArchOk (riscv FloatSoft jalr_end).
Proof. split; [arch_layout_tac|done|save_tac|restore_tac|entry_tac]. Qed.

#[export] Instance riscv_double_ok jalr_end : @ArchOk (riscv FloatDouble jalr_end).
Proof. split; [arch_layout_tac|done|save_tac|restore_tac|entry_tac]. Qed.

(** With the single ABI [co2_save_context] writes a register past the end of the
    context. *)
Theorem riscv_single_overruns jalr_end (m : machine rv_reg) :
  @fits (riscv FloatSingle jalr_end) (m_reg m A0) → m_reg m A0 + 208 <= 2 ^ 64 →
  let end_ := m_reg m A0 + @ctx_size (riscv FloatSingle jalr_end) in
  m_mem (run_code 64 (rv_save FloatSingle) m) end_ = m_reg m (Fs 0).
Proof. destruct m as [g h pc]. intros [H1 _] H2. simpl in H1, H2. machine_run. mem_at. Qed.

(** ** Switches *)

Section switches.
Context `{Arch}.

(** The call of [co2_save_context] returns 0; the one that is resumed later is
    the same call, which then returns 1. *)
Definition co2_switch_context (from to : Z) (m : machine reg) : machine reg :=
  let m1 := run_code bits co2_save_context (set_arg from m) in
  if decide (m_reg m1 ret0 = 0) then run_code bits co2_restore_context (set_arg to m1) else m1.

Definition EINVAL : Z := 22.

(** [ffrt_fiber_init]: the result, and the memory.  [entry] is the address of
    [context_entry]. *)
Definition ffrt_fiber_init (entry fiber func arg stack stack_size : Z) (h : Z → Z) : Z * (Z → Z) :=
  if decide (stack_size < 4 * word) then (EINVAL, h)
  else
    let top := uw bits (uw bits (stack + stack_size) - 2 * word) in
    let stack_top := top - top `mod` (2 * word) in
    (0, mset (uw bits (stack_top + word)) func (mset stack_top arg
          (mset (uw bits (fiber + word * REG_SP)) stack_top (mset (uw bits (fiber + word * REG_LR)) entry h)))).

(** Compiler's layout of [fiber]: offset and size of [fn], [id_] and [local_], and
    the size of it all; [fb] is at its start. *)
Record fiber_layout := mk_layout { fl_fn : Z; fl_fn_size : Z; fl_id : Z; fl_local : Z; fl_local_size : Z; fl_size : Z }.

Definition layout_ok (L : fiber_layout) : Prop :=
  2 * ctx_size <= fl_fn L ∧ 0 < fl_fn_size L ∧ fl_fn L + fl_fn_size L <= fl_id L ∧ fl_id L + 8 <= fl_local L ∧ 0 < fl_local_size L ∧
  fl_local L + fl_local_size L <= fl_size L ∧ fl_size L + 4 * word <= 2 ^ bits.

(** [fiber::init]: the fiber or [nullptr], and the bytes written, as ranges. *)
Definition fiber_init (L : fiber_layout) (stack stack_size : Z) : option Z * list (Z * Z) :=
  let base := uw bits (stack + fl_size L) in
  let size := uw bits (stack_size - fl_size L) in
  if decide (size < 4 * word) then (None, [])
  else
    let top := uw bits (uw bits (base + size) - 2 * word) in
    let stack_top := top - top `mod` (2 * word) in
    (Some stack, [(stack + word * REG_LR, word); (stack + word * REG_SP, word); (stack_top, word); (uw bits (stack_top + word), word);
      (stack + fl_fn L, fl_fn_size L); (stack + fl_local L, fl_local_size L); (stack + fl_id L, 8)]).

(** [submit] of a suspendable job, up to the submission itself. *)
Definition submit_init (L : fiber_layout) (stack stack_size : Z) : Z := match fst (fiber_init L stack stack_size) with Some _ => 0 | None => 1 end.
End switches.

Section switch_facts.
Context `{ArchOk}.

Lemma word_pos : 0 < word.
Proof. apply arch_layout. Qed.

Lemma slot_bounds k : 0 <= k < storage_size → 0 <= word * k ∧ word * k + word <= ctx_size.
Proof. pose proof word_pos. unfold ctx_size. nia. Qed.

Lemma lr_sp_bounds : 0 <= word * REG_LR ∧ word * REG_LR + word <= ctx_size ∧ 0 <= word * REG_SP ∧ word * REG_SP + word <= ctx_size ∧ word * REG_LR ≠ word * REG_SP.
Proof. destruct arch_layout as (Hw & L1 & L2 & L3 & _). destruct (slot_bounds _ L1), (slot_bounds _ L2). split_and!; try done. nia. Qed.

Lemma set_arg_get v m : m_reg (set_arg v m) arg0 = v.
Proof. unfold set_arg, upd. simpl. by rewrite decide_True. Qed.

Lemma set_arg_sp v m : m_reg (set_arg v m) sp = m_reg m sp.
Proof. unfold set_arg, upd. simpl. rewrite decide_False; [done|]. intros E. by destruct arch_layout as (_ & _ & _ & _ & ? & _ & _). Qed.

Lemma set_arg_slot v m r o : (r, o) ∈ ctx_slots → m_reg (set_arg v m) r = m_reg m r.
Proof. intros Hin. destruct arch_layout as (_ & _ & _ & _ & _ & Hl & _). destruct (Hl r o Hin) as [Hr _]. unfold set_arg, upd. simpl. by rewrite decide_False. Qed.

Lemma set_arg_ctl v m r : r ∈ ctl_regs → m_reg (set_arg v m) r = m_reg m r.
Proof. intros Hin. destruct arch_layout as (_ & _ & _ & _ & _ & _ & Hc). unfold set_arg, upd. simpl. rewrite decide_False; [done|]. by intros ->. Qed.

Lemma saved_set_arg c v m h : saved c (set_arg v m) h → saved c m h.
Proof.
  intros (H1 & H2 & H3). destruct (ret_set_arg v m) as [E1 E2]. split_and!; [congruence..|]. intros r o Hin. rewrite (H3 r o Hin). by eapply set_arg_slot.
Qed.

(** A switch saves the caller in [from] and runs what [to] holds. *)
Lemma switch_spec from to m :
  fits from → fits to → stack_apart from m → apart from to →
  let m' := co2_switch_context from to m in
  saved from m (m_mem m') ∧ restored to (m_mem m) m' ∧ (∀ r, r ∈ ctl_regs → m_reg m' r = m_reg m r) ∧
  ∀ a, outside from a → m_mem m' a = m_mem m a.
Proof.
  intros Hf Ht Hs Ha m'. destruct arch_layout as (Hw & L1 & L2 & _ & _ & Hl & _).
  pose proof (save_spec (set_arg from m)) as Hsv. rewrite set_arg_get in Hsv. specialize (Hsv Hf).
  destruct Hsv as (_ & S2 & _ & _ & S4 & S5 & S6). { unfold stack_apart. by rewrite set_arg_sp. }
  unfold m', co2_switch_context. rewrite decide_True by done. set (m1 := run_code bits co2_save_context (set_arg from m)) in *.
  destruct (restore_spec (set_arg to m1)) as (R1 & R3 & R2); [by rewrite set_arg_get|]. rewrite set_arg_get in R1. simpl in R1, R2. rewrite R2.
  split_and!; [by eapply saved_set_arg| |intros r Hr; by rewrite R3, set_arg_ctl, S4, set_arg_ctl|done].
  assert (∀ o, 0 <= o → o + word <= ctx_size → m_mem m1 (to + o) = m_mem m (to + o)) as Ho.
  { intros o H1 H2. rewrite S5; [done|]. unfold outside, apart in *. lia. }
  destruct R1 as (Q1 & Q2 & Q3 & Q4). destruct lr_sp_bounds as (B1 & B2 & B3 & B4 & _). split_and!; [rewrite Q1; by apply Ho|rewrite Q2; by apply Ho|done|].
  intros r o Hin. destruct (Hl r o Hin) as (_ & ? & ?). rewrite (Q4 r o Hin). by apply Ho.
Qed.

(** C18: A switch comes back.  A thread of control that switches away from [from]
    is resumed by any later switch to [from], as long as nobody has written to
    the context meanwhile, wherever that switch is made: it runs on at the
    return of its [co2_save_context], which now returns 1, on its own stack,
    with the integer and floating-point registers a function has to preserve as
    they were.  The control registers of floating point are not its own: they are
    as the code left them that made the switch. *)
Theorem switch_comes_back from to other m m2 :
  fits from → fits to → stack_apart from m → apart from to → fits other → stack_apart other m2 → apart other from →
  (∀ o, 0 <= o < ctx_size → m_mem m2 (from + o) = m_mem (co2_switch_context from to m) (from + o)) →
  let m3 := co2_switch_context other from m2 in
  m_pc m3 = ret_pc m ∧ m_reg m3 sp = ret_sp m ∧ m_reg m3 ret0 = 1 ∧ (∀ r o, (r, o) ∈ ctx_slots → m_reg m3 r = m_reg m r) ∧
  ∀ r, r ∈ ctl_regs → m_reg m3 r = m_reg m2 r.
Proof.
  intros Hf Ht Hs Ha Ho Hs2 Ha2 Hk m3. destruct arch_layout as (Hw & L1 & L2 & _ & _ & Hl & _).
  destruct (switch_spec from to m Hf Ht Hs Ha) as ((V1 & V2 & V3) & _ & _).
  destruct (switch_spec other from m2 Ho Hf Hs2 Ha2) as (_ & (Q1 & Q2 & Q3 & Q4) & Q5 & _). fold m3 in Q1, Q2, Q3, Q4.
  destruct lr_sp_bounds as (B1 & B2 & B3 & B4 & _). split_and!; [rewrite Q1, Hk by lia; done|rewrite Q2, Hk by lia; done|done| |done].
  intros r o Hin. destruct (Hl r o Hin) as (_ & ? & ?). rewrite (Q4 r o Hin), Hk by lia. by apply V3.
Qed.

(** The top of a new stack. *)
Lemma stack_top_bounds stack size :
  0 <= stack → stack + size < 2 ^ bits → 4 * word <= size → let top := uw bits (uw bits (stack + size) - 2 * word) in
  let t := top - top `mod` (2 * word) in stack <= t ∧ t + 2 * word <= stack + size ∧ t `mod` (2 * word) = 0.
Proof.
  intros H1 H2 H3. pose proof word_pos. cbn zeta. rewrite (uw_small bits (stack + size)) by lia. rewrite uw_small by lia.
  assert (0 < 2 * word) as Hp by lia. pose proof (Z.mod_pos_bound (stack + size - 2 * word) (2 * word) Hp). split_and!; [lia..|].
  rewrite Zminus_mod_idemp_r, Z.sub_diag. apply Z.mod_0_l. lia.
Qed.

(** C19: A new fiber starts in its function.  When [ffrt_fiber_init] accepts the
    stack, the first switch to the fiber, followed by [context_entry], calls the
    function with its argument, on a stack pointer inside the given stack that is
    a multiple of two words plus what [context_entry] takes; a stack it accepts
    has at least four words. *)
Theorem fiber_starts entry fiber func arg stack size from m h :
  fits fiber → 0 <= stack → stack + size < 2 ^ bits → fiber + ctx_size <= stack ∨ stack + size <= fiber →
  fits from → stack_apart from m → apart from fiber → stack + size <= from ∨ from + ctx_size <= stack →
  ffrt_fiber_init entry fiber func arg stack size (m_mem m) = (0, h) →
  let m1 := co2_switch_context from fiber (mk_machine (m_reg m) h (m_pc m)) in
  let m2 := run_code bits context_entry m1 in
  4 * word <= size ∧ m_pc m1 = entry ∧ m_pc m2 = func ∧ m_reg m2 arg0 = arg ∧
  stack <= m_reg m1 sp ∧ m_reg m1 sp + 2 * word <= stack + size ∧ m_reg m1 sp `mod` (2 * word) = 0 ∧ m_reg m2 sp = m_reg m1 sp + entry_pop.
Proof.
  intros Hf Hs0 Hs1 Hap Hfr Hs Ha Hst Hi m1 m2. destruct lr_sp_bounds as (B1 & B2 & B3 & B4 & B5). pose proof word_pos. unfold ffrt_fiber_init in Hi.
  destruct (decide _) as [|Hsz]; [done|]. destruct (stack_top_bounds stack size Hs0 Hs1 ltac:(lia)) as (T1 & T2 & T3). revert T1 T2 T3 Hi. cbn zeta.
  set (t := _ - _ `mod` _). intros T1 T2 T3 [= Eh]. pose proof Hf as [F1 F2].
  rewrite (uw_small bits (t + word)), (uw_small bits (fiber + word * REG_SP)), (uw_small bits (fiber + word * REG_LR)) in Eh by lia.
  destruct (switch_spec from fiber (mk_machine (m_reg m) h (m_pc m)) Hfr Hf Hs Ha) as (_ & (Q1 & Q2 & _) & _ & Q5). fold m1 in Q1, Q2, Q5. simpl in Q1, Q2, Q5.
  assert (m_pc m1 = entry) as E1. { rewrite Q1, <-Eh. rewrite !mset_ne by lia. by apply mset_eq. }
  assert (m_reg m1 sp = t) as E2. { rewrite Q2, <-Eh. rewrite 2!mset_ne by lia. by apply mset_eq. }
  destruct (entry_spec m1) as (N1 & N2 & N3 & _); [lia..|]. fold m2 in N1, N2, N3. rewrite E2 in *.
  assert (outside from t ∧ outside from (t + word)) as [O1 O2] by (unfold outside; lia).
  split_and!; try done; [lia| |].
  - rewrite N1, Q5, <-Eh by done. by apply mset_eq.
  - rewrite N2, Q5, <-Eh by done. rewrite mset_ne by lia. by apply mset_eq.
Qed.

(** On a stack that holds the fiber, [fiber::init] fails exactly when fewer than
    four words are left, and then writes nothing; otherwise the fiber is at the
    start of the stack and everything written is inside the stack. *)
Theorem fiber_init_bounds L stack stack_size :
  layout_ok L → 0 <= stack → stack + stack_size < 2 ^ bits → fl_size L <= stack_size →
  match fiber_init L stack stack_size with
  | (None, w) => w = [] ∧ stack_size < fl_size L + 4 * word
  | (Some c, w) => c = stack ∧ fl_size L + 4 * word <= stack_size ∧ Forall (λ e, stack <= e.1 ∧ e.1 + e.2 <= stack + stack_size) w
  end.
Proof.
  intros (K1 & K2 & K3 & K4 & K5 & K6 & K7) Hs Hb Hsz. destruct lr_sp_bounds as (B1 & B2 & B3 & B4 & B5). pose proof word_pos as Hw.
  unfold fiber_init. rewrite (uw_small bits (stack + fl_size L)), (uw_small bits (stack_size - fl_size L)) by lia.
  destruct (decide _) as [|Hd]; [split; [done|lia]|].
  destruct (stack_top_bounds (stack + fl_size L) (stack_size - fl_size L)) as (T1 & T2 & T3); [lia..|]. revert T1 T2 T3. cbn zeta.
  set (t := _ - _ `mod` _). intros T1 T2 T3. rewrite (uw_small bits (t + word)) by lia. split_and!; [done|lia|].
  repeat constructor; simpl; lia.
Qed.

(** C40: On a stack smaller than the fiber the subtraction in [fiber::init] wraps
    around: it succeeds, and so does [submit], after writing past the end of the
    stack. *)
Theorem fiber_init_overruns L stack stack_size :
  layout_ok L → 0 <= stack → stack + fl_size L < 2 ^ bits → 0 <= stack_size < fl_local L + fl_local_size L →
  fst (fiber_init L stack stack_size) = Some stack ∧ submit_init L stack stack_size = 0 ∧
  ∃ e, e ∈ snd (fiber_init L stack stack_size) ∧ stack + stack_size < e.1 + e.2.
Proof.
  intros (K1 & K2 & K3 & K4 & K5 & K6 & K7) Hs Hb Hsz. pose proof word_pos as Hw. unfold submit_init, fiber_init.
  destruct (decide (stack_size = fl_size L)) as [|Hne]; [lia|].
  assert (uw bits (stack_size - fl_size L) = stack_size - fl_size L + 2 ^ bits) as ->.
  { unfold uw. rewrite <-(Z.mod_small (stack_size - fl_size L + 2 ^ bits) (2 ^ bits)) by lia. by rewrite Zplus_mod, Z_mod_same_full, Z.add_0_r, Zmod_mod. }
  rewrite decide_False by lia. split_and!; [done..|]. exists (stack + fl_local L, fl_local_size L). simpl. split; [set_solver|lia].
Qed.
End switch_facts.

(** ** Examples *)

Definition example_machine : machine x64_reg :=
  mk_machine (λ r, match r with RBX => 3 | RBP => 5 | R12 => 7 | RSPx => 8000 | _ => 0 end) (λ a, if decide (a = 8000) then 4711 else 0) 0.

Ltac x64_numbers := change (@ctx_size x86_64) with 64; change (@bits x86_64) with 64; change (@word x86_64) with 8; change (@sp x86_64) with RSPx.

Lemma switch_comes_back_witness :
  let m2 := @co2_switch_context x86_64 65536 131072 example_machine in let m3 := @co2_switch_context x86_64 196608 65536 m2 in
  m_pc m3 = 4711 ∧ m_reg m3 RSPx = 8008 ∧ m_reg m3 RAX = 1 ∧ m_reg m3 R12 = 7 ∧ m_reg m3 MXCSR = m_reg m2 MXCSR ∧ m_pc m2 = 0.
Proof.
  intros m2 m3. assert (m_reg m2 RSPx = 0) as E by (by vm_compute). destruct (@switch_comes_back x86_64 _ 65536 131072 196608 example_machine m2) as (H1 & H2 & H3 & H4 & H5).
  1-7: unfold fits, stack_apart, apart, outside; x64_numbers; rewrite ?E; try (cbn [m_reg example_machine]; lia).
  { intros o _. reflexivity. }
  split_and!; [exact H1|exact H2|exact H3|exact (H4 R12 16 ltac:(do 2 right; left))|exact (H5 MXCSR ltac:(left))|by vm_compute].
Defined.

Lemma fiber_starts_witness :
  let init := @ffrt_fiber_init x86_64 77 65536 88 99 131072 4096 (m_mem example_machine) in
  let m2 := run_code 64 x64_entry (@co2_switch_context x86_64 262144 65536 (mk_machine (m_reg example_machine) (snd init) 0)) in
  fst init = 0 ∧ m_pc m2 = 88 ∧ m_reg m2 RDI = 99 ∧ m_reg m2 RSPx = 135160.
Proof.
  intros init m2. destruct (@fiber_starts x86_64 _ 77 65536 88 99 131072 4096 262144 example_machine (snd init)) as (H1 & H2 & H3 & H4 & _).
  1-8: unfold fits, stack_apart, apart, outside; x64_numbers; cbn [m_reg example_machine]; lia.
  { reflexivity. }
  split_and!; [reflexivity|exact H3|exact H4|by vm_compute].
Defined.

(** The fiber of the job partner on [__aarch64__]. *)
Definition partner_fiber : fiber_layout := mk_layout 352 32 384 392 24 416.

Lemma fiber_init_bounds_witness :
  @layout_ok aarch64 partner_fiber ∧ fst (@fiber_init aarch64 partner_fiber 4096 1024) = Some 4096 ∧
  Forall (λ e, 4096 <= e.1 ∧ e.1 + e.2 <= 4096 + 1024) (snd (@fiber_init aarch64 partner_fiber 4096 1024)).
Proof.
  assert (@layout_ok aarch64 partner_fiber) as HL by (unfold layout_ok, ctx_size, bits; simpl; lia). split_and!; [done|by vm_compute|].
  pose proof (@fiber_init_bounds aarch64 _ partner_fiber 4096 1024 HL ltac:(lia) ltac:(unfold bits; simpl; lia) ltac:(simpl; lia)) as Hb.
  change (fiber_init partner_fiber 4096 1024) with (Some 4096, snd (@fiber_init aarch64 partner_fiber 4096 1024)) in Hb. apply Hb.
Defined.

Lemma fiber_init_overruns_witness :
  fst (@fiber_init aarch64 partner_fiber 4096 400) = Some 4096 ∧ @submit_init aarch64 partner_fiber 4096 400 = 0.
Proof.
  assert (@layout_ok aarch64 partner_fiber) as HL by (unfold layout_ok, ctx_size, bits; simpl; lia).
  destruct (@fiber_init_overruns aarch64 _ partner_fiber 4096 400 HL ltac:(lia) ltac:(unfold bits; simpl; lia) ltac:(simpl; lia)) as (H1 & H2 & _).
  by split.
Defined.

End FiberContext.
