(* ===== verification/RefObj.v ===== *)
(** * Reference-counted objects

    Models [ref_obj] and its smart pointer [ref_obj::ptr] of
    interfaces/kits/cpp/pattern/job_utils.h, which own the job partners, the job
    rings and the job promises.

    A thread executes the accesses of an operation one by one: the plain
    assignments of pointers happen when it starts, the atomic accesses to the
    count and the deletion are steps of their own, interleaved with those of
    other threads.  As in any C++ program, a pointer is not written while another
    thread copies from it, and not touched while another thread assigns to it;
    [p_writing] and [p_readers] are there to say so.  References that are not held
    by a [ptr], such as the one a worker task holds, are counted by [ob_raw], and
    [rs_incs] counts the calls of [inc_ref]. *)

From S2P Require Import Prelude.

Module RefObj.

(** ** State *)

(** An object: [ref], the references outside pointers, and whether it has not been
    deleted. *)
Record obj := mk_obj { ob_ref : Z; ob_raw : Z; ob_alive : bool }.

#[export] Instance obj_eta : Eta obj := λ o, mk_obj (ob_ref o) (ob_raw o) (ob_alive o).

(** A pointer, and the operations that are under way on it. *)
Record ptr := mk_ptr { p_obj : option nat; p_writing : bool; p_readers : Z }.

#[export] Instance ptr_eta : Eta ptr := λ p, mk_ptr (p_obj p) (p_writing p) (p_readers p).

(** What is left of an operation: [inc_ref] of a copy from [h] to [d], [inc_ref]
    from outside through [h], the [fetch_sub] of [dec_ref], the deletion, and the
    [p = nullptr] at the end of [reset]. *)
Inductive action := IncRef (d h o : nat) | IncRaw (h o : nat) | DecRef (o : nat) | DeleteObj (o : nat) | SetNull (d : nat).

(** [rs_fault] records an access to an object that has been deleted. *)
Record refs := mk_refs { rs_objs : list obj; rs_ptrs : list ptr; rs_threads : list (list action); rs_fault : bool; rs_incs : Z }.

#[export] Instance refs_eta : Eta refs := λ s, mk_refs (rs_objs s) (rs_ptrs s) (rs_threads s) (rs_fault s) (rs_incs s).

(** [n] null pointers and [k] threads. *)
Definition refs_init (n k : nat) : refs := mk_refs [] (replicate n (mk_ptr None false 0)) (replicate k []) false 0.

Definition act (i : nat) (l : list action) (s : refs) : refs := s <| rs_threads ::= <[i := l]> |>.
Definition upd_ptr (d : nat) (g : ptr → ptr) (s : refs) : refs := s <| rs_ptrs ::= alter g d |>.
Definition upd_obj (o : nat) (g : obj → obj) (s : refs) : refs := s <| rs_objs ::= alter g o |>.

Definition ptr_get (d : nat) (s : refs) : option nat := rs_ptrs s !! d ≫= p_obj.

(** [if (op) op->dec_ref()] *)
Definition drop_old (op : option nat) : list action := match op with Some o => [DecRef o] | None => [] end.

(** ** Operations *)

Inductive operation :=
| Make (d : nat) | Adopt (d o : nat) | Copy (d h : nat) | Move (d h : nat) | Reset (d : nat) | Retain (h : nat) | Release (o : nat).

(** [make]: a new object, with the reference of the pointer that is returned. *)
Definition make (d : nat) (s : refs) : refs :=
  upd_ptr d (λ p, p <| p_obj := Some (length (rs_objs s)) |>) (s <| rs_objs ::= λ l, l ++ [mk_obj 1 0 true] |>).

(** The constructor from a raw pointer takes over a reference. *)
Definition adopt (d o : nat) (s : refs) : refs :=
  upd_ptr d (λ p, p <| p_obj := Some o |>) (upd_obj o (λ x, x <| ob_raw ::= λ n, n - 1 |>) s).

(** Assignment of a [ptr const&]; the copy constructor is the same on a null
    pointer. *)
Definition copy_assign (i d h : nat) (s : refs) : refs :=
  if decide (d = h) then s
  else
    let op := ptr_get d s in
    match ptr_get h s with
    | Some o =>
        act i (IncRef d h o :: drop_old op)
          (upd_ptr h (λ p, p <| p_readers ::= λ n, n + 1 |>) (upd_ptr d (λ p, p <| p_obj := Some o |> <| p_writing := true |>) s))
    | None => act i (drop_old op) (upd_ptr d (λ p, p <| p_obj := None |>) s)
    end.

(** Assignment of a [ptr&&], and the move constructor. *)
Definition move_assign (i d h : nat) (s : refs) : refs :=
  if decide (d = h) then s
  else
    act i (drop_old (ptr_get d s))
      (upd_ptr h (λ p, p <| p_obj := None |>) (upd_ptr d (λ p, p <| p_obj := ptr_get h s |>) s)).

(** [reset], and the destructor: the reference is dropped, and the object perhaps
    deleted, before the pointer is cleared. *)
Definition ptr_reset (i d : nat) (s : refs) : refs :=
  match ptr_get d s with
  | Some o => act i [DecRef o; SetNull d] (upd_ptr d (λ p, p <| p_writing := true |>) s)
  | None => s
  end.

(** [p->inc_ref()] for a reference outside pointers, and its end. *)
Definition retain (i h : nat) (s : refs) : refs :=
  match ptr_get h s with Some o => act i [IncRaw h o] (upd_ptr h (λ p, p <| p_readers ::= λ n, n + 1 |>) s) | None => s end.

Definition release (i o : nat) (s : refs) : refs := act i [DecRef o] (upd_obj o (λ x, x <| ob_raw ::= λ n, n - 1 |>) s).

Definition start_op (i : nat) (c : operation) (s : refs) : refs :=
  match c with
  | Make d => make d s
  | Adopt d o => adopt d o s
  | Copy d h => copy_assign i d h s
  | Move d h => move_assign i d h s
  | Reset d => ptr_reset i d s
  | Retain h => retain i h s
  | Release o => release i o s
  end.

Definition alive (s : refs) (o : nat) : bool := default false (ob_alive <$> rs_objs s !! o).

(** [inc_ref] for the two callers, [dec_ref] up to the deletion, and the
    deletion; [l] is what the thread does next. *)
Definition inc_ref (i d h o : nat) (l : list action) (s : refs) : refs :=
  act i l (upd_ptr h (λ p, p <| p_readers ::= λ n, n - 1 |>) (upd_ptr d (λ p, p <| p_writing := false |>)
    (upd_obj o (λ x, x <| ob_ref ::= λ n, u64 (n + 1) |>) (s <| rs_incs ::= Z.succ |>)))).

Definition inc_raw (i h o : nat) (l : list action) (s : refs) : refs :=
  act i l (upd_ptr h (λ p, p <| p_readers ::= λ n, n - 1 |>)
    (upd_obj o (λ x, x <| ob_ref ::= λ n, u64 (n + 1) |> <| ob_raw ::= λ n, n + 1 |>) (s <| rs_incs ::= Z.succ |>))).

Definition dec_ref (i o : nat) (l : list action) (s : refs) : refs :=
  act i (if decide (ob_ref <$> rs_objs s !! o = Some 1) then DeleteObj o :: l else l) (upd_obj o (λ x, x <| ob_ref ::= λ n, u64 (n - 1) |>) s).

Definition delete_obj (i o : nat) (l : list action) (s : refs) : refs := act i l (upd_obj o (λ x, x <| ob_alive := false |>) s).

Definition set_null (i d : nat) (l : list action) (s : refs) : refs :=
  act i l (upd_ptr d (λ p, p <| p_obj := None |> <| p_writing := false |>) s).

(** The object an action accesses. *)
Definition target (a : action) : option nat :=
  match a with IncRef _ _ o | IncRaw _ o | DecRef o | DeleteObj o => Some o | SetNull _ => None end.

Definition do_action (i : nat) (a : action) (l : list action) (s : refs) : refs :=
  if match target a with Some o => alive s o | None => true end
  then match a with
       | IncRef d h o => inc_ref i d h o l s
       | IncRaw h o => inc_raw i h o l s
       | DecRef o => dec_ref i o l s
       | DeleteObj o => delete_obj i o l s
       | SetNull d => set_null i d l s
       end
  else s <| rs_fault := true |>.

(** ** Steps *)

Definition readable (s : refs) (h : nat) : Prop := ∃ p, rs_ptrs s !! h = Some p ∧ p_writing p = false.
Definition writable (s : refs) (d : nat) : Prop := ∃ p, rs_ptrs s !! d = Some p ∧ p_writing p = false ∧ p_readers p = 0.
Definition has_raw (s : refs) (o : nat) : Prop := ∃ x, rs_objs s !! o = Some x ∧ 0 < ob_raw x.

(** A constructor is for a pointer that is null; a reference is given up only by
    who has it. *)
Definition may_start (s : refs) (c : operation) : Prop :=
  match c with
  | Make d => writable s d ∧ ptr_get d s = None
  | Adopt d o => writable s d ∧ ptr_get d s = None ∧ has_raw s o
  | Copy d h => writable s d ∧ readable s h
  | Move d h => writable s d ∧ writable s h
  | Reset d => writable s d
  | Retain h => readable s h
  | Release o => has_raw s o
  end.

Inductive refs_step : refs → refs → Prop :=
| rs_start s i c : rs_threads s !! i = Some [] → may_start s c → refs_step s (start_op i c s)
| rs_act s i a l : rs_threads s !! i = Some (a :: l) → refs_step s (do_action i a l s).

(** ** Invariant *)

Definition b2z_if (P : Prop) `{!Decision P} : Z := if decide P then 1 else 0.

(** The sum of a weight over all that is left to do. *)
Definition pend (w : action → Z) (s : refs) : Z := wsum (wsum w) (rs_threads s).

Definition w_writes (d : nat) (a : action) : Z := match a with IncRef d' _ _ | SetNull d' => b2z_if (d' = d) | _ => 0 end.
Definition w_reads (d : nat) (a : action) : Z := match a with IncRef _ h _ | IncRaw h _ => b2z_if (h = d) | _ => 0 end.
Definition w_dec (o : nat) (a : action) : Z := match a with DecRef o' => b2z_if (o' = o) | _ => 0 end.
Definition w_del (o : nat) (a : action) : Z := match a with DeleteObj o' => b2z_if (o' = o) | _ => 0 end.

(** Pointers to [o] that are counted in its [ref]. *)
Definition holds (o : nat) (p : ptr) : Z := b2z_if (p_obj p = Some o ∧ p_writing p = false).
Definition holders (o : nat) (s : refs) : Z := wsum (holds o) (rs_ptrs s).

(** What an action may rely on. *)
Definition act_ok (s : refs) (a : action) : Prop :=
  match a with
  | IncRef d h o => (∃ p, rs_ptrs s !! d = Some p ∧ p_obj p = Some o) ∧ ∃ p, rs_ptrs s !! h = Some p ∧ p_obj p = Some o
  | IncRaw h o => ∃ p, rs_ptrs s !! h = Some p ∧ p_obj p = Some o
  | DecRef o | DeleteObj o => (o < length (rs_objs s))%nat
  | SetNull d => is_Some (rs_ptrs s !! d)
  end.

Definition obj_ok (s : refs) (o : nat) (x : obj) : Prop :=
  0 <= ob_raw x ∧ ob_ref x = holders o s + ob_raw x + pend (w_dec o) s ∧
  pend (w_del o) s = b2z_if (ob_alive x = true ∧ ob_ref x = 0) ∧ (ob_alive x = false → ob_ref x = 0) ∧
  ob_ref x <= 1 + rs_incs s.

Definition ptr_ok (s : refs) (d : nat) (p : ptr) : Prop :=
  pend (w_writes d) s = Z.b2z (p_writing p) ∧ pend (w_reads d) s = p_readers p ∧ (p_writing p = true → p_readers p = 0) ∧
  ∀ o, p_obj p = Some o → (o < length (rs_objs s))%nat.

Record refs_inv (s : refs) : Prop := {
  ri_fault : rs_fault s = false;
  ri_incs : 0 <= rs_incs s;
  ri_obj : ∀ o x, rs_objs s !! o = Some x → obj_ok s o x;
  ri_ptr : ∀ d p, rs_ptrs s !! d = Some p → ptr_ok s d p;
  ri_act : ∀ i l a, rs_threads s !! i = Some l → a ∈ l → act_ok s a;
}.

Lemma b2z_if_nonneg P `{!Decision P} : 0 <= b2z_if P.
Proof. unfold b2z_if. case_decide; lia. Qed.

Lemma weights_nonneg d a : 0 <= w_writes d a ∧ 0 <= w_reads d a ∧ 0 <= w_dec d a ∧ 0 <= w_del d a.
Proof. destruct a; simpl; split_and!; try done; apply b2z_if_nonneg. Qed.

Lemma pend_nonneg w s : (∀ a, 0 <= w a) → 0 <= pend w s.
Proof. intros Hw. apply wsum_nonneg. intros l. by apply wsum_nonneg. Qed.

Lemma pend_elem w s i l a : (∀ a, 0 <= w a) → rs_threads s !! i = Some l → a ∈ l → w a <= pend w s.
Proof.
  intros Hw Hi [n Hn]%list_elem_of_lookup. pose proof (wsum_elem w l n a Hw Hn).
  pose proof (wsum_elem (wsum w) _ i l (λ l, wsum_nonneg w l Hw) Hi). unfold pend. lia.
Qed.

Lemma holders_nonneg o s : 0 <= holders o s.
Proof. apply wsum_nonneg. intros p. apply b2z_if_nonneg. Qed.

Lemma holders_elem o s d p : rs_ptrs s !! d = Some p → p_obj p = Some o → p_writing p = false → 1 <= holders o s.
Proof.
  intros Hd Ho Hw. pose proof (wsum_elem (holds o) _ d p (λ p, b2z_if_nonneg _) Hd) as H. unfold holds at 1 in H. unfold b2z_if in H. by rewrite decide_True in H by done.
Qed.

Section inv.
Context (s : refs) (HI : refs_inv s).

(** A pointer that is read is not being written. *)
Lemma reader_clean i l a d p :
  rs_threads s !! i = Some l → a ∈ l → w_reads d a = 1 → rs_ptrs s !! d = Some p → p_writing p = false.
Proof using HI.
  intros Hi Ha Hr Hp. destruct (ri_ptr _ HI d p Hp) as (_ & H2 & H3 & _). destruct (p_writing p) eqn:E; [|done].
  pose proof (pend_elem (w_reads d) s i l a (λ a, proj1 (proj2 (weights_nonneg d a))) Hi Ha). specialize (H3 eq_refl). lia.
Qed.

(** Nothing is left to do on an object that has been deleted. *)
Lemma action_alive i l a o : rs_threads s !! i = Some l → a ∈ l → target a = Some o → alive s o = true.
Proof using HI.
  intros Hi Ha Et. pose proof (ri_act _ HI i l a Hi Ha) as Hok.
  assert (∃ x, rs_objs s !! o = Some x) as [x Hx].
  { apply lookup_lt_is_Some. destruct a as [d h o'|h o'|o'|o'|d]; simplify_eq/=; [destruct Hok as [_ (p & Hp & Ho)]|destruct Hok as (p & Hp & Ho)|done..].
    all: by apply (ri_ptr _ HI h p Hp). }
  unfold alive. rewrite Hx. simpl. destruct (ob_alive x) eqn:E; [done|exfalso]. destruct (ri_obj _ HI _ x Hx) as (J1 & J2 & J3 & J4 & J5).
  specialize (J4 E). pose proof (holders_nonneg o s) as Hh.
  pose proof (pend_elem (w_dec o) s i l a (λ b, proj1 (proj2 (proj2 (weights_nonneg _ b)))) Hi Ha) as Hd.
  pose proof (pend_elem (w_del o) s i l a (λ b, proj2 (proj2 (proj2 (weights_nonneg _ b)))) Hi Ha) as He.
  pose proof (pend_nonneg (w_dec o) s (λ b, proj1 (proj2 (proj2 (weights_nonneg _ b))))).
  unfold b2z_if in J3. rewrite E, decide_False in J3 by (by intros [? ?]).
  assert (∀ h p, w_reads h a = 1 → rs_ptrs s !! h = Some p → p_obj p = Some o → False) as Hr.
  { intros h p Hw Hp Ho. pose proof (holders_elem _ _ _ _ Hp Ho (reader_clean i l a h p Hi Ha Hw Hp)). lia. }
  destruct a as [d h o'|h o'|o'|o'|d]; simplify_eq/=; unfold b2z_if in *; rewrite ?decide_True in * by done.
  - destruct Hok as [_ (p & Hp & Ho)]. eapply (Hr h p); [by rewrite decide_True|done..].
  - destruct Hok as (p & Hp & Ho). eapply (Hr h p); [by rewrite decide_True|done..].
  - lia.
  - lia.
Qed.
End inv.

(** ** Steps keep the invariant *)

Lemma alter_cases {A} (g : A → A) (o o' : nat) (l : list A) x' : alter g o l !! o' = Some x' → ∃ x, l !! o' = Some x ∧ x' = if decide (o' = o) then g x else x.
Proof.
  intros H. case_decide as E; [subst; rewrite list_lookup_alter_eq in H|rewrite list_lookup_alter_ne in H by done; eauto].
  destruct (l !! o) as [x|]; simplify_eq/=. eauto.
Qed.

Lemma pend_act w i l0 l s : rs_threads s !! i = Some l0 → pend w (act i l s) = pend w s - wsum w l0 + wsum w l.
Proof. intros Hi. unfold pend, act. simpl. by rewrite (wsum_insert (wsum w) _ _ _ _ Hi). Qed.

Lemma holders_ptr o d g s p : rs_ptrs s !! d = Some p → holders o (upd_ptr d g s) = holders o s - holds o p + holds o (g p).
Proof. intros Hd. unfold holders, upd_ptr. simpl. by rewrite (wsum_alter (holds o) _ _ _ _ Hd). Qed.

Lemma b2z_if_true (P : Prop) `{!Decision P} : P → b2z_if P = 1.
Proof. intros H. unfold b2z_if. by rewrite decide_True. Qed.

Lemma b2z_if_false (P : Prop) `{!Decision P} : ¬ P → b2z_if P = 0.
Proof. intros H. unfold b2z_if. by rewrite decide_False. Qed.

(** An action still has what it relies on. *)
Lemma act_ok_keep s s' a :
  (∀ d p, rs_ptrs s !! d = Some p → w_reads d a = 1 ∨ w_writes d a = 1 → ∃ p', rs_ptrs s' !! d = Some p' ∧ p_obj p' = p_obj p) →
  (length (rs_objs s) <= length (rs_objs s'))%nat → act_ok s a → act_ok s' a.
Proof.
  intros Hp Hl. destruct a as [d h o|h o|o|o|d]; simpl in *; [intros [(p & H1 & E1) (q & H2 & E2)]|intros (p & H1 & E1)|lia..|intros [p H1]].
  - destruct (Hp d p H1 ltac:(right; by apply b2z_if_true)) as (p' & ? & ?), (Hp h q H2 ltac:(left; by apply b2z_if_true)) as (q' & ? & ?).
    split; eexists; (split; [done|congruence]).
  - destruct (Hp h p H1 ltac:(left; by apply b2z_if_true)) as (p' & ? & ?). eexists. split; [done|congruence].
  - destruct (Hp d p H1 ltac:(right; by apply b2z_if_true)) as (p' & ? & ?). by eexists.
Qed.

Section step.
Context (s : refs) (HI : refs_inv s) (i : nat) (l0 : list action) (Hi : rs_threads s !! i = Some l0).

(** The actions of the new state: those of thread [i] are given, the others are old. *)
Lemma actions_ok s' l :
  rs_threads s' = <[i := l]> (rs_threads s) → (length (rs_objs s) <= length (rs_objs s'))%nat →
  (∀ j k a d p, rs_threads s !! j = Some k → a ∈ k → (j = i → a ∈ l) → rs_ptrs s !! d = Some p → w_reads d a = 1 ∨ w_writes d a = 1 →
     ∃ p', rs_ptrs s' !! d = Some p' ∧ p_obj p' = p_obj p) →
  (∀ a, a ∈ l → a ∈ l0 ∨ act_ok s' a) → ∀ j k a, rs_threads s' !! j = Some k → a ∈ k → act_ok s' a.
Proof using HI Hi.
  intros E Hl Hp Hn j k a Hj Ha. rewrite E in Hj. destruct (decide (j = i)) as [->|Hne].
  - rewrite list_lookup_insert_eq in Hj by (by eapply lookup_lt_Some). simplify_eq. destruct (Hn a Ha) as [H0|H0]; [|done].
    eapply act_ok_keep; [|done|by eapply ri_act]. intros d p Hd Hw. by eapply (Hp i).
  - rewrite list_lookup_insert_ne in Hj by done. eapply act_ok_keep; [|done|by eapply ri_act]. intros d p Hd Hw. by eapply (Hp j).
Qed.

(** A pointer that may be written is used by no action. *)
Lemma writable_unused d j k a : writable s d → rs_threads s !! j = Some k → a ∈ k → w_reads d a = 0 ∧ w_writes d a = 0.
Proof using HI.
  intros (p & Hp & Hw & Hr) Hj Ha. destruct (ri_ptr _ HI d p Hp) as (P1 & P2 & _). rewrite Hw in P1. rewrite Hr in P2. simpl in P1.
  pose proof (weights_nonneg d a) as (? & ? & _).
  pose proof (pend_elem (w_reads d) s j k a (λ a, proj1 (proj2 (weights_nonneg d a))) Hj Ha).
  pose proof (pend_elem (w_writes d) s j k a (λ a, proj1 (weights_nonneg d a)) Hj Ha). lia.
Qed.
End step.

(** Closes what is left about sums and the parts of objects and pointers. *)
Ltac refs_arith :=
  simpl in *; unfold b2z_if, holds in *; simpl in *;
  repeat match goal with
  | H : context [ob_alive ?x = _] |- _ => destruct (ob_alive x)
  | |- context [decide ?P] => destruct (decide P)
  | H : context [decide ?P] |- _ => destruct (decide P)
  | H : _ ∧ _ |- _ => destruct H
  end; simplify_eq/=; try done; try lia; try congruence; intuition (try congruence; try lia).

(** The sums of a state in which thread [i] has moved on. *)
Lemma pend_step w i l0 l1 s s' : rs_threads s !! i = Some l0 → rs_threads s' = <[i := l1]> (rs_threads s) → pend w s' = pend w s - wsum w l0 + wsum w l1.
Proof. intros Hi E. unfold pend. rewrite E. by rewrite (wsum_insert (wsum w) _ _ _ _ Hi). Qed.

Lemma w_dec_nonneg o a : 0 <= w_dec o a.
Proof. apply weights_nonneg. Qed.

(** The counter is far from its end. *)
Definition few_incs (s : refs) : Prop := rs_incs s < 2 ^ 63.

Lemma ref_u64 n incs : 0 <= n <= 2 + incs → incs < 2 ^ 63 → u64 n = n.
Proof. intros. apply u64_id. unfold is_u64, UINT64_MAX. lia. Qed.

Section actions.
Context (s : refs) (HI : refs_inv s) (Hfew : few_incs s) (i : nat) (l : list action).

Lemma dec_inv o : rs_threads s !! i = Some (DecRef o :: l) → refs_inv (do_action i (DecRef o) l s).
Proof using HI Hfew.
  intros Hi. unfold do_action. simpl. rewrite (action_alive s HI i _ (DecRef o) o Hi ltac:(left) eq_refl). unfold dec_ref.
  pose proof (pend_elem (w_dec o) s i _ (DecRef o) (w_dec_nonneg o) Hi ltac:(set_solver)) as Hd. simpl in Hd. rewrite b2z_if_true in Hd by done.
  destruct (lookup_lt_is_Some_2 _ _ (ri_act _ HI i _ _ Hi ltac:(left))) as [x0 Hx0]. rewrite Hx0.
  set (l1 := if decide _ then _ else _). set (s' := act i l1 _).
  pose proof (λ w, pend_step w i _ l1 s s' Hi eq_refl) as Hp. simpl in Hp.
  assert (∀ w, w (DecRef o) = 0 → w (DeleteObj o) = 0 → pend w s' = pend w s) as Hsame by (intros w H1 H2; rewrite Hp; unfold l1; case_decide; simpl; lia).
  assert (pend (w_dec o) s' = pend (w_dec o) s - 1) as Hdec by (rewrite Hp; unfold l1; simpl; rewrite b2z_if_true by done; case_decide; simpl; lia).
  assert (pend (w_del o) s' = pend (w_del o) s + b2z_if (ob_ref x0 = 1)) as Hdel.
  { rewrite Hp. unfold l1. simpl. unfold b2z_if. destruct (decide (ob_ref x0 = 1)) as [E|E]; [rewrite decide_True by congruence|rewrite decide_False by congruence]; simpl; rewrite ?b2z_if_true by done; lia. }
  split; [apply HI|apply HI|..].
  - intros o' x' H. apply alter_cases in H as (x & Hx & ->). destruct (ri_obj _ HI o' x Hx) as (J1 & J2 & J3 & J4 & J5).
    pose proof (holders_nonneg o' s). unfold obj_ok. change (holders o' s') with (holders o' s).
    pose proof (pend_nonneg (w_dec o') s (w_dec_nonneg o')). change (rs_incs s') with (rs_incs s).
    destruct (decide (o' = o)) as [->|Hne]; [simplify_eq; rewrite Hdec, Hdel; simpl; rewrite (ref_u64 (ob_ref x0 - 1) (rs_incs s)) by (unfold few_incs in Hfew; lia); refs_arith|rewrite !Hsame by (simpl; by rewrite ?b2z_if_false); done].
  - intros d p H. destruct (ri_ptr _ HI d p H) as (P1 & P2 & P3 & P4). unfold ptr_ok. rewrite !Hsame by done. simpl. by rewrite length_alter.
  - apply (actions_ok s HI i _ Hi s' l1); [done|simpl; by rewrite length_alter|eauto|]. intros a Ha. unfold l1 in Ha. destruct (decide _); [|set_solver].
    apply elem_of_cons in Ha as [->|Ha]; [right|set_solver]. simpl. rewrite length_alter. by apply (ri_act _ HI i _ (DecRef o) Hi); set_solver.
Qed.

Lemma delete_inv o : rs_threads s !! i = Some (DeleteObj o :: l) → refs_inv (do_action i (DeleteObj o) l s).
Proof using HI Hfew.
  intros Hi. unfold do_action. simpl. rewrite (action_alive s HI i _ (DeleteObj o) o Hi ltac:(left) eq_refl). unfold delete_obj. set (s' := act i l _).
  pose proof (pend_elem (w_del o) s i _ (DeleteObj o) (λ b, proj2 (proj2 (proj2 (weights_nonneg _ b)))) Hi ltac:(set_solver)) as Hd.
  simpl in Hd. rewrite b2z_if_true in Hd by done. pose proof (λ w, pend_step w i _ l s s' Hi eq_refl) as Hp. split; [apply HI|apply HI|..].
  - intros o' x' H. apply alter_cases in H as (x & Hx & ->). destruct (ri_obj _ HI o' x Hx) as (J1 & J2 & J3 & J4 & J5).
    unfold obj_ok. rewrite !Hp. change (holders o' s') with (holders o' s). destruct (decide (o' = o)) as [->|Hne]; refs_arith.
  - intros d p H. destruct (ri_ptr _ HI d p H) as (P1 & P2 & P3 & P4). unfold ptr_ok. rewrite !Hp. simpl. rewrite length_alter. split_and!; try done; lia.
  - apply (actions_ok s HI i _ Hi s' l); [done|simpl; by rewrite length_alter|eauto|set_solver].
Qed.

Lemma null_inv d : rs_threads s !! i = Some (SetNull d :: l) → refs_inv (do_action i (SetNull d) l s).
Proof using HI Hfew.
  intros Hi. unfold do_action. simpl. unfold set_null. set (s' := act i l _). destruct (ri_act _ HI i _ _ Hi ltac:(left)) as [p Hp0].
  pose proof (λ w, pend_step w i _ l s s' Hi eq_refl) as Hp.
  assert (p_writing p = true) as Hpw.
  { destruct (ri_ptr _ HI d p Hp0) as (P1 & _). pose proof (pend_elem (w_writes d) s i _ _ (λ a, proj1 (weights_nonneg d a)) Hi ltac:(left)) as H.
    simpl in H. rewrite b2z_if_true in H by done. destruct (p_writing p); [done|simpl in *; lia]. }
  assert (∀ o, holders o s' = holders o s) as Hh.
  { intros o. change (holders o s') with (holders o (upd_ptr d (λ p, p <| p_obj := None |> <| p_writing := false |>) s)).
    rewrite (holders_ptr _ _ _ _ _ Hp0). unfold holds. simpl. rewrite Hpw, !b2z_if_false by (by intros [? ?]). lia. }
  split; [apply HI|apply HI|..].
  - intros o x Hx. destruct (ri_obj _ HI o x Hx) as (J1 & J2 & J3 & J4 & J5). unfold obj_ok. rewrite !Hp, Hh. simpl. split_and!; [done|lia|lia|done|done].
  - intros e q H. apply alter_cases in H as (q0 & Hq & ->). change (rs_ptrs s !! e = Some q0) in Hq. destruct (ri_ptr _ HI e q0 Hq) as (P1 & P2 & P3 & P4).
    unfold ptr_ok. rewrite !Hp. simpl. destruct (decide (e = d)) as [->|Hne]; simpl.
    + assert (q0 = p) as -> by congruence. rewrite Hpw in P1. rewrite b2z_if_true by done. simpl in *. split_and!; [lia|lia|done|done].
    + rewrite b2z_if_false by done. split_and!; [lia|lia|done|done].
  - apply (actions_ok s HI i _ Hi s' l); [done|done| |set_solver]. intros j k a e q Hj Ha Hl He Hu. simpl.
    destruct (decide (e = d)) as [->|Hne]; [exfalso|rewrite list_lookup_alter_ne by done; eauto].
    destruct (ri_ptr _ HI d p Hp0) as (P1 & P2 & P3 & _). rewrite Hpw in P1. specialize (P3 Hpw). rewrite P3 in P2. simpl in P1.
    pose proof (weights_nonneg d a) as (W1 & W2 & _).
    pose proof (pend_elem (w_reads d) s j k a (λ a, proj1 (proj2 (weights_nonneg d a))) Hj Ha) as R. destruct Hu as [Hu|Hu]; [lia|].
    destruct (decide (j = i)) as [->|Hji].
    + assert (a ∈ l) as Hal by auto. assert (wsum (w_writes d) l = 0) as Hz.
      { pose proof (wsum_elem (wsum (w_writes d)) _ i _ (λ l, wsum_nonneg _ l (λ a, proj1 (weights_nonneg d a))) Hi) as Hs. simpl in Hs. rewrite b2z_if_true in Hs by done.
        pose proof (wsum_nonneg (w_writes d) l (λ a, proj1 (weights_nonneg d a))). unfold pend in P1. lia. }
      apply list_elem_of_lookup in Hal as [n Hn]. pose proof (wsum_elem (w_writes d) l n a (λ a, proj1 (weights_nonneg d a)) Hn). lia.
    + pose proof (pend_elem (w_writes d) (act i l s) j k a (λ a, proj1 (weights_nonneg d a)) ltac:(simpl; by rewrite list_lookup_insert_ne) Ha) as Hs.
      rewrite (pend_act (w_writes d) i _ l s Hi) in Hs. simpl in Hs. rewrite b2z_if_true in Hs by done.
      assert (pend (w_writes d) s - (1 + wsum (w_writes d) l) + wsum (w_writes d) l = 0) by lia. lia.
Qed.

Lemma inc_raw_inv h o : rs_threads s !! i = Some (IncRaw h o :: l) → refs_inv (do_action i (IncRaw h o) l s).
Proof using HI Hfew.
  intros Hi. pose proof (action_alive s HI i _ _ o Hi ltac:(left) eq_refl) as Hal. unfold do_action. simpl. rewrite Hal. unfold inc_raw. set (s' := act i l _).
  destruct (ri_act _ HI i _ _ Hi ltac:(left)) as (p & Hp0 & Hpo). pose proof (reader_clean s HI i _ _ h p Hi ltac:(left) ltac:(simpl; by apply b2z_if_true) Hp0) as Hw.
  pose proof (λ w, pend_step w i _ l s s' Hi eq_refl) as Hp.
  assert (∀ o', holders o' s' = holders o' s) as Hh.
  { intros o'. change (holders o' s') with (holders o' (upd_ptr h (λ p, p <| p_readers ::= λ n, n - 1 |>) s)). rewrite (holders_ptr _ _ _ _ _ Hp0). unfold holds. simpl. lia. }
  assert (1 <= holders o s) as H1 by (by eapply holders_elem). split; [apply HI|simpl; pose proof (ri_incs _ HI); lia|..].
  - intros o' x' H. apply alter_cases in H as (x & Hx & ->). destruct (ri_obj _ HI o' x Hx) as (J1 & J2 & J3 & J4 & J5). pose proof (pend_nonneg (w_dec o') s (w_dec_nonneg o')).
    unfold obj_ok. rewrite !Hp, Hh. change (rs_incs s') with (Z.succ (rs_incs s)).
    pose proof (holders_nonneg o' s). pose proof (ri_incs _ HI). assert (u64 (ob_ref x + 1) = ob_ref x + 1) as Eu by (apply (ref_u64 _ (rs_incs s)); [lia|done]). destruct (decide (o' = o)) as [->|Hne]; simpl; rewrite ?Eu; refs_arith.
  - intros d q H. apply alter_cases in H as (q0 & Hq & ->). destruct (ri_ptr _ HI d q0 Hq) as (P1 & P2 & P3 & P4). unfold ptr_ok. rewrite !Hp. simpl. rewrite length_alter.
    destruct (decide (d = h)) as [->|Hne]; simplify_eq; refs_arith.
  - apply (actions_ok s HI i _ Hi s' l); [done|simpl; by rewrite length_alter| |set_solver]. intros j k a d q _ _ _ Hd _. simpl.
    destruct (decide (d = h)) as [->|Hne]; [rewrite list_lookup_alter_eq, Hd; simpl; eauto|rewrite list_lookup_alter_ne by done; eauto].
Qed.
End actions.

(** A pointer of a state in which two are changed. *)
Lemma alter2_cases {A} (g g' : A → A) (d h e : nat) (l : list A) q :
  d ≠ h → alter g' h (alter g d l) !! e = Some q →
  ∃ q0, l !! e = Some q0 ∧ q = if decide (e = d) then g q0 else if decide (e = h) then g' q0 else q0.
Proof.
  intros Hne H. apply alter_cases in H as (q1 & H & ->). apply alter_cases in H as (q0 & H & ->). exists q0. split; [done|].
  destruct (decide (e = h)), (decide (e = d)); congruence.
Qed.

Lemma holders_ptr2 o d h g g' s p q : d ≠ h → rs_ptrs s !! d = Some p → rs_ptrs s !! h = Some q →
  holders o (upd_ptr h g' (upd_ptr d g s)) = holders o s - holds o p + holds o (g p) - holds o q + holds o (g' q).
Proof.
  intros Hne Hd Hh. rewrite (holders_ptr o h g' _ q) by (simpl; by rewrite list_lookup_alter_ne). by rewrite (holders_ptr o d g s p).
Qed.

Section inc.
Context (s : refs) (HI : refs_inv s) (Hfew : few_incs s) (i : nat) (l : list action).

Lemma inc_inv d h o : rs_threads s !! i = Some (IncRef d h o :: l) → refs_inv (do_action i (IncRef d h o) l s).
Proof using HI Hfew.
  intros Hi. pose proof (action_alive s HI i _ _ o Hi ltac:(left) eq_refl) as Hal. unfold do_action. simpl. rewrite Hal. unfold inc_ref. set (s' := act i l _).
  destruct (ri_act _ HI i _ _ Hi ltac:(left)) as [(p & Hp0 & Hpo) (q & Hq0 & Hqo)].
  pose proof (reader_clean s HI i _ _ h q Hi ltac:(left) ltac:(simpl; by apply b2z_if_true) Hq0) as Hw.
  pose proof (λ w, pend_step w i _ l s s' Hi eq_refl) as Hp.
  assert (p_writing p = true) as Hpw.
  { destruct (ri_ptr _ HI d p Hp0) as (P1 & _). pose proof (pend_elem (w_writes d) s i _ _ (λ a, proj1 (weights_nonneg d a)) Hi ltac:(left)) as H.
    simpl in H. rewrite b2z_if_true in H by done. destruct (p_writing p); [done|simpl in *; lia]. }
  assert (d ≠ h) as Hne by (intros ->; congruence).
  assert (∀ o', holders o' s' = holders o' s + b2z_if (o' = o)) as Hh.
  { intros o'. change (holders o' s') with (holders o' (upd_ptr h (λ p, p <| p_readers ::= λ n, n - 1 |>) (upd_ptr d (λ p, p <| p_writing := false |>) s))).
    rewrite (holders_ptr2 _ _ _ _ _ _ _ _ Hne Hp0 Hq0). unfold holds. simpl. rewrite Hpw, Hpo, Hqo, Hw. refs_arith. }
  assert (1 <= holders o s) as H1 by (by eapply holders_elem). split; [apply HI|simpl; pose proof (ri_incs _ HI); lia|..].
  - intros o' x' H. apply alter_cases in H as (x & Hx & ->). destruct (ri_obj _ HI o' x Hx) as (J1 & J2 & J3 & J4 & J5). pose proof (pend_nonneg (w_dec o') s (w_dec_nonneg o')).
    unfold obj_ok. rewrite !Hp, Hh. change (rs_incs s') with (Z.succ (rs_incs s)).
    pose proof (holders_nonneg o' s). pose proof (ri_incs _ HI). assert (u64 (ob_ref x + 1) = ob_ref x + 1) as Eu by (apply (ref_u64 _ (rs_incs s)); [lia|done]). destruct (decide (o' = o)) as [->|Hno]; simpl; rewrite ?Eu; refs_arith.
  - intros e r H. apply alter2_cases in H as (r0 & Hr & ->); [|done]. change (rs_ptrs s !! e = Some r0) in Hr. destruct (ri_ptr _ HI e r0 Hr) as (P1 & P2 & P3 & P4). unfold ptr_ok. rewrite !Hp. simpl. rewrite length_alter.
    destruct (decide (e = d)) as [->|Hed]; [assert (r0 = p) as -> by congruence; rewrite Hpw in P1; refs_arith|]. destruct (decide (e = h)) as [->|Heh]; simplify_eq; refs_arith.
  - apply (actions_ok s HI i _ Hi s' l); [done|simpl; by rewrite length_alter| |set_solver]. intros j k a e r _ _ _ He _. simpl.
    destruct (decide (e = h)) as [->|Hn1]; [rewrite list_lookup_alter_eq|rewrite list_lookup_alter_ne by done];
    [rewrite list_lookup_alter_ne, He by done; simpl; eauto|].
    destruct (decide (e = d)) as [->|Hn2]; [rewrite list_lookup_alter_eq, He; simpl; eauto|rewrite list_lookup_alter_ne by done; eauto].
Qed.
End inc.

(** ** Operations keep the invariant *)

Lemma w_dec_drop o op : wsum (w_dec o) (drop_old op) = b2z_if (op = Some o).
Proof. destruct op as [o'|]; simpl; [|done]. rewrite Z.add_0_r. unfold b2z_if. repeat case_decide; congruence. Qed.

Lemma w_other_drop w op : (∀ o, w (DecRef o) = 0) → wsum w (drop_old op) = 0.
Proof. intros Hw. destruct op; simpl; rewrite ?Hw; done. Qed.

Lemma ptr_get_lookup d s p : rs_ptrs s !! d = Some p → ptr_get d s = p_obj p.
Proof. intros H. unfold ptr_get. by rewrite H. Qed.

Section operations.
Context (s : refs) (HI : refs_inv s) (i : nat) (Hi : rs_threads s !! i = Some []).

Lemma holds_clean o p : p_writing p = false → holds o p = b2z_if (p_obj p = Some o).
Proof using. intros Hw. unfold holds, b2z_if. repeat case_decide; intuition congruence. Qed.

(** Actions when the pointers that change are used by none. *)
Lemma op_actions s' l :
  rs_threads s' = <[i := l]> (rs_threads s) → (length (rs_objs s) <= length (rs_objs s'))%nat →
  (∀ d p, rs_ptrs s !! d = Some p → writable s d ∨ ∃ p', rs_ptrs s' !! d = Some p' ∧ p_obj p' = p_obj p) →
  (∀ a, a ∈ l → act_ok s' a) → ∀ j k a, rs_threads s' !! j = Some k → a ∈ k → act_ok s' a.
Proof using HI Hi.
  intros E Hl Hp Hn. apply (actions_ok s HI i _ Hi s' l); [done..| |auto]. intros j k a d p Hj Ha _ Hd Hw.
  destruct (Hp d p Hd) as [Hwr|?]; [|done]. destruct (writable_unused s HI d j k a Hwr Hj Ha). lia.
Qed.

Lemma drop_ok s' d p : rs_ptrs s !! d = Some p → (length (rs_objs s) <= length (rs_objs s'))%nat → ∀ a, a ∈ drop_old (p_obj p) → act_ok s' a.
Proof using HI.
  intros Hd Hl a Ha. destruct (p_obj p) as [o|] eqn:E; simpl in Ha; [|by apply not_elem_of_nil in Ha]. apply list_elem_of_singleton in Ha as ->.
  simpl. destruct (ri_ptr _ HI d p Hd) as (_ & _ & _ & P4). pose proof (P4 o E). lia.
Qed.

(** A null pointer is assigned. *)
Lemma assign_null_inv d :
  writable s d → refs_inv (act i (drop_old (ptr_get d s)) (upd_ptr d (λ p, p <| p_obj := None |>) s)).
Proof using HI Hi.
  intros Hwr. pose proof Hwr as (p & Hp0 & Hw & Hr). rewrite (ptr_get_lookup _ _ _ Hp0). set (s' := act i _ _).
  pose proof (λ w, pend_step w i _ (drop_old (p_obj p)) s s' Hi eq_refl) as Hp. simpl in Hp.
  assert (∀ o, holders o s' = holders o s - b2z_if (p_obj p = Some o)) as Hh.
  { intros o. change (holders o s') with (holders o (upd_ptr d (λ p, p <| p_obj := None |>) s)). rewrite (holders_ptr _ _ _ _ _ Hp0), holds_clean by done.
    rewrite (holds_clean o) by done. simpl. rewrite (b2z_if_false (None = Some o)) by done. lia. }
  split; [apply HI|apply HI|..].
  - intros o x Hx. destruct (ri_obj _ HI o x Hx) as (J1 & J2 & J3 & J4 & J5). unfold obj_ok. rewrite !Hp, Hh, w_dec_drop, (w_other_drop (w_del o)) by done.
    split_and!; [done|lia|lia|done|done].
  - intros e q H. apply alter_cases in H as (q0 & Hq & ->). change (rs_ptrs s !! e = Some q0) in Hq. destruct (ri_ptr _ HI e q0 Hq) as (P1 & P2 & P3 & P4).
    unfold ptr_ok. rewrite !Hp, !w_other_drop by done. destruct (decide (e = d)) as [->|Hne]; simpl; split_and!; try done; lia.
  - apply (op_actions s' (drop_old (p_obj p))); [done..| |by eapply drop_ok]. intros e q He. destruct (decide (e = d)) as [->|Hne]; [by left|right].
    simpl. rewrite list_lookup_alter_ne by done. eauto.
Qed.

Lemma reset_inv d : writable s d → refs_inv (ptr_reset i d s).
Proof using HI Hi.
  intros Hwr. pose proof Hwr as (p & Hp0 & Hw & Hr). unfold ptr_reset. rewrite (ptr_get_lookup _ _ _ Hp0).
  destruct (p_obj p) as [o|] eqn:Eo; [|done]. set (l := [DecRef o; SetNull d]). set (s' := act i l _).
  pose proof (λ w, pend_step w i _ l s s' Hi eq_refl) as Hp. simpl in Hp.
  assert (∀ o', holders o' s' = holders o' s - b2z_if (o = o')) as Hh.
  { intros o'. change (holders o' s') with (holders o' (upd_ptr d (λ p, p <| p_writing := true |>) s)). rewrite (holders_ptr _ _ _ _ _ Hp0), holds_clean by done.
    unfold holds. simpl. rewrite Eo, (b2z_if_false (Some o = Some o' ∧ true = false)) by (by intros [_ ?]). unfold b2z_if. repeat case_decide; congruence || lia. }
  split; [apply HI|apply HI|..].
  - intros o' x Hx. destruct (ri_obj _ HI o' x Hx) as (J1 & J2 & J3 & J4 & J5). unfold obj_ok. rewrite !Hp, Hh. simpl. split_and!; [done|lia|lia|done|done].
  - intros e q H. apply alter_cases in H as (q0 & Hq & ->). change (rs_ptrs s !! e = Some q0) in Hq. destruct (ri_ptr _ HI e q0 Hq) as (P1 & P2 & P3 & P4).
    unfold ptr_ok. rewrite !Hp. simpl. destruct (decide (e = d)) as [->|Hne]; simpl.
    + assert (q0 = p) as -> by congruence. rewrite Hw in P1. rewrite b2z_if_true by done. simpl in *. split_and!; [lia|lia|done|done].
    + rewrite b2z_if_false by done. split_and!; [lia|lia|done|done].
  - apply (op_actions s' l); [done..| |].
    + intros e q He. destruct (decide (e = d)) as [->|Hne]; [by left|right]. simpl. rewrite list_lookup_alter_ne by done. eauto.
    + intros a [->|Hx%list_elem_of_singleton]%elem_of_cons; [|subst a]; simpl; [|by rewrite list_lookup_alter_eq, Hp0; eexists].
      destruct (ri_ptr _ HI d p Hp0) as (_ & _ & _ & P4). by apply P4.
Qed.

(** Two pointers of which the changed ones are used by no action. *)
Lemma alter2_keep (g g' : ptr → ptr) d h e q :
  d ≠ h → writable s d → (writable s h ∨ ∀ x, p_obj (g' x) = p_obj x) → rs_ptrs s !! e = Some q →
  writable s e ∨ ∃ q', alter g' h (alter g d (rs_ptrs s)) !! e = Some q' ∧ p_obj q' = p_obj q.
Proof using.
  intros Hne Hd Hh He. destruct (decide (e = d)) as [->|Hed]; [by left|]. destruct (decide (e = h)) as [->|Heh].
  - destruct Hh as [|Hh]; [by left|right]. rewrite list_lookup_alter_eq, list_lookup_alter_ne, He by done. simpl. eauto.
  - right. rewrite !list_lookup_alter_ne by done. eauto.
Qed.

Lemma ref_move_inv d h : writable s d → writable s h → refs_inv (move_assign i d h s).
Proof using HI Hi.
  intros Hwd Hwh. unfold move_assign. destruct (decide (d = h)) as [|Hne]; [done|]. pose proof Hwd as (p & Hp0 & Hw & Hr). pose proof Hwh as (q & Hq0 & Hqw & Hqr).
  rewrite (ptr_get_lookup _ _ _ Hp0), (ptr_get_lookup _ _ _ Hq0). set (s' := act i _ _).
  pose proof (λ w, pend_step w i _ (drop_old (p_obj p)) s s' Hi eq_refl) as Hp. simpl in Hp.
  assert (∀ o, holders o s' = holders o s - b2z_if (p_obj p = Some o)) as Hh.
  { intros o. change (holders o s') with (holders o (upd_ptr h (λ p, p <| p_obj := None |>) (upd_ptr d (λ x, x <| p_obj := p_obj q |>) s))).
    rewrite (holders_ptr2 _ _ _ _ _ _ _ _ Hne Hp0 Hq0), !holds_clean by done. simpl. rewrite (b2z_if_false (None = Some o)) by done. lia. }
  split; [apply HI|apply HI|..].
  - intros o x Hx. destruct (ri_obj _ HI o x Hx) as (J1 & J2 & J3 & J4 & J5). unfold obj_ok. rewrite !Hp, Hh, w_dec_drop, (w_other_drop (w_del o)) by done.
    split_and!; [done|lia|lia|done|done].
  - intros e r H. apply alter2_cases in H as (r0 & Hr0 & ->); [|done]. change (rs_ptrs s !! e = Some r0) in Hr0. destruct (ri_ptr _ HI e r0 Hr0) as (P1 & P2 & P3 & P4).
    unfold ptr_ok. rewrite !Hp, !w_other_drop by done. pose proof (ri_ptr _ HI h q Hq0) as (_ & _ & _ & Q4).
    destruct (decide (e = d)) as [->|Hed]; [|destruct (decide (e = h)) as [->|Heh]]; simpl; split_and!; try done; lia.
  - apply (op_actions s' (drop_old (p_obj p))); [done..| |by eapply drop_ok]. intros e r He. apply alter2_keep; auto.
Qed.

Lemma copy_inv d h : writable s d → readable s h → refs_inv (copy_assign i d h s).
Proof using HI Hi.
  intros Hwd (q & Hq0 & Hqw). unfold copy_assign. destruct (decide (d = h)) as [|Hne]; [done|]. pose proof Hwd as (p & Hp0 & Hw & Hr).
  rewrite (ptr_get_lookup _ _ _ Hq0). destruct (p_obj q) as [o|] eqn:Eq; [|by apply assign_null_inv]. rewrite (ptr_get_lookup _ _ _ Hp0). set (l := IncRef d h o :: _). set (s' := act i l _).
  pose proof (λ w, pend_step w i _ l s s' Hi eq_refl) as Hp. simpl in Hp.
  assert (∀ o', holders o' s' = holders o' s - b2z_if (p_obj p = Some o')) as Hh.
  { intros o'. change (holders o' s') with (holders o' (upd_ptr h (λ p, p <| p_readers ::= λ n, n + 1 |>) (upd_ptr d (λ p, p <| p_obj := Some o |> <| p_writing := true |>) s))).
    rewrite (holders_ptr2 _ _ _ _ _ _ _ _ Hne Hp0 Hq0), !(holds_clean o') by done. unfold holds. simpl. rewrite (b2z_if_false (Some o = Some o' ∧ true = false)) by (by intros [_ ?]). lia. }
  split; [apply HI|apply HI|..].
  - intros o' x Hx. destruct (ri_obj _ HI o' x Hx) as (J1 & J2 & J3 & J4 & J5). unfold obj_ok. rewrite !Hp, Hh, w_dec_drop, (w_other_drop (w_del o')) by done. simpl.
    split_and!; [done|lia|lia|done|done].
  - intros e r H. apply alter2_cases in H as (r0 & Hr0 & ->); [|done]. change (rs_ptrs s !! e = Some r0) in Hr0. destruct (ri_ptr _ HI e r0 Hr0) as (P1 & P2 & P3 & P4).
    unfold ptr_ok. rewrite !Hp, !w_other_drop by done. pose proof (ri_ptr _ HI h q Hq0) as (_ & _ & _ & Q4). specialize (Q4 o Eq). simpl.
    destruct (decide (e = d)) as [->|Hed].
    { assert (r0 = p) as -> by congruence. rewrite Hw in P1. rewrite Hr in P2. rewrite b2z_if_true, b2z_if_false by done. simpl in *.
      split_and!; [lia|lia|done|]. by intros ? [= <-]. }
    rewrite (b2z_if_false (d = e)) by done. destruct (decide (e = h)) as [->|Heh]; simpl.
    + assert (r0 = q) as -> by congruence. rewrite b2z_if_true by done. split_and!; [lia..|congruence|done].
    + rewrite b2z_if_false by done. split_and!; [lia..|done|done].
  - apply (op_actions s' l); [done..| |].
    + intros e r He. apply alter2_keep; auto.
    + intros a [->|Ha]%elem_of_cons; [|by eapply drop_ok]. simpl. split.
      * rewrite list_lookup_alter_ne, list_lookup_alter_eq, Hp0 by done. simpl. eauto.
      * rewrite list_lookup_alter_eq, list_lookup_alter_ne, Hq0 by done. simpl. eauto.
Qed.

Lemma retain_inv h : readable s h → refs_inv (retain i h s).
Proof using HI Hi.
  intros (q & Hq0 & Hqw). unfold retain. rewrite (ptr_get_lookup _ _ _ Hq0). destruct (p_obj q) as [o|] eqn:Eq; [|done]. set (s' := act i _ _).
  pose proof (λ w, pend_step w i _ [IncRaw h o] s s' Hi eq_refl) as Hp. simpl in Hp.
  assert (∀ o', holders o' s' = holders o' s) as Hh.
  { intros o'. change (holders o' s') with (holders o' (upd_ptr h (λ p, p <| p_readers ::= λ n, n + 1 |>) s)). rewrite (holders_ptr _ _ _ _ _ Hq0). unfold holds. simpl. lia. }
  split; [apply HI|apply HI|..].
  - intros o' x Hx. destruct (ri_obj _ HI o' x Hx) as (J1 & J2 & J3 & J4 & J5). unfold obj_ok. rewrite !Hp, Hh. simpl. split_and!; [done|lia|lia|done|done].
  - intros e r H. apply alter_cases in H as (r0 & Hr0 & ->). change (rs_ptrs s !! e = Some r0) in Hr0. destruct (ri_ptr _ HI e r0 Hr0) as (P1 & P2 & P3 & P4).
    unfold ptr_ok. rewrite !Hp. simpl. destruct (decide (e = h)) as [->|Heh]; simpl.
    + assert (r0 = q) as -> by congruence. rewrite b2z_if_true by done. split_and!; [lia..|congruence|done].
    + rewrite b2z_if_false by done. split_and!; [lia..|done|done].
  - assert (∀ e r, rs_ptrs s !! e = Some r → ∃ r', rs_ptrs s' !! e = Some r' ∧ p_obj r' = p_obj r) as Hk.
    { intros e r He. simpl. destruct (decide (e = h)) as [->|Hn]; [rewrite list_lookup_alter_eq, He; simpl; eauto|rewrite list_lookup_alter_ne by done; eauto]. }
    apply (op_actions s' [IncRaw h o]); [done..|eauto|]. intros a ->%list_elem_of_singleton. simpl. destruct (Hk h q Hq0) as (r' & ? & ?). exists r'. split; [done|congruence].
Qed.

Lemma release_inv o : has_raw s o → refs_inv (release i o s).
Proof using HI Hi.
  intros (x0 & Hx0 & Hraw). unfold release. set (s' := act i _ _). pose proof (λ w, pend_step w i _ [DecRef o] s s' Hi eq_refl) as Hp. simpl in Hp. split; [apply HI|apply HI|..].
  - intros o' x' H. apply alter_cases in H as (x & Hx & ->). change (rs_objs s !! o' = Some x) in Hx. destruct (ri_obj _ HI o' x Hx) as (J1 & J2 & J3 & J4 & J5).
    unfold obj_ok. rewrite !Hp. change (holders o' s') with (holders o' s). simpl. destruct (decide (o' = o)) as [->|Hne]; simpl.
    + assert (x = x0) as -> by congruence. rewrite b2z_if_true by done. split_and!; try done; lia.
    + rewrite b2z_if_false by done. split_and!; try done; lia.
  - intros e r H. destruct (ri_ptr _ HI e r H) as (P1 & P2 & P3 & P4). unfold ptr_ok. rewrite !Hp. simpl. rewrite length_alter. split_and!; [lia..|done|done].
  - apply (op_actions s' [DecRef o]); [done|simpl; by rewrite length_alter|eauto|]. intros a ->%list_elem_of_singleton. simpl. rewrite length_alter. by eapply lookup_lt_Some.
Qed.
End operations.

Section constructors.
Context (s : refs) (HI : refs_inv s).

Lemma act_target i l a o : rs_threads s !! i = Some l → a ∈ l → target a = Some o → (o < length (rs_objs s))%nat.
Proof using HI.
  intros Hi Ha Et. pose proof (action_alive s HI i l a o Hi Ha Et) as Hal. unfold alive in Hal.
  destruct (rs_objs s !! o) as [x|] eqn:E; [by eapply lookup_lt_Some|done].
Qed.

(** An object that does not exist is not referred to. *)
Lemma fresh_zero o : (length (rs_objs s) <= o)%nat → holders o s = 0 ∧ pend (w_dec o) s = 0 ∧ pend (w_del o) s = 0.
Proof using HI.
  intros Ho. split_and!; apply wsum_zero.
  - intros p [d Hd]%list_elem_of_lookup. apply b2z_if_false. intros [E _]. destruct (ri_ptr _ HI d p Hd) as (_ & _ & _ & P4). pose proof (P4 o E). lia.
  - intros l [i Hi]%list_elem_of_lookup. apply wsum_zero. intros a Ha. pose proof (λ o, act_target i l a o Hi Ha) as Ht. destruct a; simpl in *; try done. apply b2z_if_false. specialize (Ht _ eq_refl). lia.
  - intros l [i Hi]%list_elem_of_lookup. apply wsum_zero. intros a Ha. pose proof (λ o, act_target i l a o Hi Ha) as Ht. destruct a; simpl in *; try done. apply b2z_if_false. specialize (Ht _ eq_refl). lia.
Qed.

(** A null pointer is given an object, and nothing else happens to pointers. *)
Lemma set_fresh d v objs p :
  rs_ptrs s !! d = Some p → p_obj p = None → p_writing p = false → p_readers p = 0 → (v < length objs)%nat → (length (rs_objs s) <= length objs)%nat →
  let s' := mk_refs objs (alter (λ p, p <| p_obj := Some v |>) d (rs_ptrs s)) (rs_threads s) (rs_fault s) (rs_incs s) in
  (∀ o, holders o s' = holders o s + b2z_if (v = o)) ∧ (∀ e q, rs_ptrs s' !! e = Some q → ptr_ok s' e q) ∧
  (∀ i l a, rs_threads s' !! i = Some l → a ∈ l → act_ok s' a).
Proof using HI.
  intros Hp0 Hn Hw Hr Hv Hl s'. split_and!.
  - intros o. change (holders o s') with (holders o (upd_ptr d (λ p, p <| p_obj := Some v |>) s)). rewrite (holders_ptr _ _ _ _ _ Hp0), !holds_clean by done.
    rewrite Hn. simpl. rewrite (b2z_if_false (None = Some o)) by done. unfold b2z_if. repeat case_decide; simplify_eq; lia.
  - intros e q H. apply alter_cases in H as (q0 & Hq & ->). destruct (ri_ptr _ HI e q0 Hq) as (P1 & P2 & P3 & P4). unfold ptr_ok.
    change (pend (w_writes e) s') with (pend (w_writes e) s). change (pend (w_reads e) s') with (pend (w_reads e) s). simpl.
    destruct (decide (e = d)) as [->|Hne]; simpl; split_and!; try done; [by intros ? [= <-]|]. intros o Ho. specialize (P4 o Ho). lia.
  - intros i l a Hi Ha. eapply (act_ok_keep s); [|done|by eapply ri_act]. intros e q He Hu. simpl. destruct (decide (e = d)) as [->|Hne]; [|rewrite list_lookup_alter_ne by done; eauto].
    assert (writable s d) as Hwr by (by exists p). destruct (writable_unused s HI d i l a Hwr Hi Ha). lia.
Qed.

Lemma make_inv d : writable s d → ptr_get d s = None → refs_inv (make d s).
Proof using HI.
  intros (p & Hp0 & Hw & Hr) Hn. rewrite (ptr_get_lookup _ _ _ Hp0) in Hn. unfold make, upd_ptr. simpl.
  destruct (set_fresh d (length (rs_objs s)) (rs_objs s ++ [mk_obj 1 0 true]) p Hp0 Hn Hw Hr) as (Hh & Hq & Ha); [rewrite length_app; simpl; lia..|].
  split; [apply HI|apply HI| |exact Hq|exact Ha]. intros o x Hx. simpl in Hx. unfold obj_ok. rewrite Hh.
  change (pend ?w (mk_refs _ _ (rs_threads s) _ _)) with (pend w s).
  apply lookup_app_Some in Hx as [Hx|[Hl Hx]].
  - destruct (ri_obj _ HI o x Hx) as (J1 & J2 & J3 & J4 & J5). pose proof (lookup_lt_Some _ _ _ Hx). rewrite b2z_if_false by lia. simpl. split_and!; try done; lia.
  - apply list_lookup_singleton_Some in Hx as [Ho <-]. assert (o = length (rs_objs s)) as -> by lia. destruct (fresh_zero (length (rs_objs s)) ltac:(lia)) as (Z1 & Z2 & Z3).
    rewrite b2z_if_true by done. simpl. rewrite Z1, Z2, Z3, b2z_if_false by (intros [_ ?]; lia). pose proof (ri_incs _ HI). split_and!; try done; lia.
Qed.

Lemma adopt_inv d o : writable s d → ptr_get d s = None → has_raw s o → refs_inv (adopt d o s).
Proof using HI.
  intros (p & Hp0 & Hw & Hr) Hn (x0 & Hx0 & Hraw). rewrite (ptr_get_lookup _ _ _ Hp0) in Hn. unfold adopt, upd_ptr, upd_obj. simpl.
  destruct (set_fresh d o (alter (λ x, x <| ob_raw ::= λ n, n - 1 |>) o (rs_objs s)) p Hp0 Hn Hw Hr) as (Hh & Hq & Ha);
    [rewrite length_alter; by eapply lookup_lt_Some|by rewrite length_alter|].
  split; [apply HI|apply HI| |exact Hq|exact Ha]. intros o' x' Hx. simpl in Hx. unfold obj_ok. rewrite Hh.
  change (pend ?w (mk_refs _ _ (rs_threads s) _ _)) with (pend w s). apply alter_cases in Hx as (x & Hx & ->). destruct (ri_obj _ HI o' x Hx) as (J1 & J2 & J3 & J4 & J5).
  destruct (decide (o' = o)) as [->|Hne]; simpl.
  - assert (x = x0) as -> by congruence. rewrite b2z_if_true by done. split_and!; try done; lia.
  - rewrite b2z_if_false by done. split_and!; try done; lia.
Qed.
End constructors.

Lemma refs_step_incs s s' : refs_step s s' → rs_incs s <= rs_incs s'.
Proof.
  intros Hst. destruct Hst as [s i c Hi Hc|s i a l Hi].
  - destruct c; simpl; unfold make, adopt, copy_assign, move_assign, ptr_reset, retain, release; repeat (case_match || case_decide); simpl; lia.
  - unfold do_action. case_match; [|simpl; lia]. destruct a; simpl; lia.
Qed.

Lemma refs_step_inv s s' : refs_inv s → few_incs s → refs_step s s' → refs_inv s'.
Proof.
  intros HI Hfew Hst. destruct Hst as [s i c Hi Hc|s i a l Hi].
  - destruct c; simpl in *; [apply make_inv|apply adopt_inv|apply copy_inv|apply ref_move_inv|apply reset_inv|apply retain_inv|apply release_inv]; intuition.
  - destruct a; eauto using inc_inv, inc_raw_inv, dec_inv, delete_inv, null_inv.
Qed.

Lemma refs_reachable n k s : rtc refs_step (refs_init n k) s → few_incs s → refs_inv s.
Proof.
  apply (rtc_invariant _ (λ s, few_incs s → refs_inv s)).
  2: { intros s1 s2 IH Hst Hf. pose proof (refs_step_incs _ _ Hst). assert (few_incs s1) by (unfold few_incs in *; lia). eapply refs_step_inv; eauto. }
  intros _.
  assert (∀ w, pend w (refs_init n k) = 0) as Hp.
  { intros w. apply wsum_zero. intros l Hl. apply elem_of_replicate in Hl as [-> _]. done. }
  split; [done|done|done|..]; simpl.
  - intros d p [-> _]%lookup_replicate. unfold ptr_ok. rewrite !Hp. done.
  - intros i l a [-> _]%lookup_replicate Ha. by apply not_elem_of_nil in Ha.
Qed.

Lemma wsum_ext_in {A} (f g : A → Z) l : (∀ x, x ∈ l → f x = g x) → wsum f l = wsum g l.
Proof. induction l as [|x l IH]; simpl; intros H; [done|]. rewrite IH, H; [done|left|]. intros y Hy. apply H. by right. Qed.

(** C20: Reference counting is exact under every interleaving of copies, moves,
    assignments and resets of pointers and of [inc_ref] and [dec_ref] from outside,
    with fewer than 2^63 calls of [inc_ref].  No operation touches an object that has
    been deleted, which includes deleting it twice; an object that has been deleted
    has no reference outside and is in no pointer, but for pointers in the middle of
    [reset], which clears them after it has deleted the object; and when no operation
    is under way [ref] is the number of its references, and an object without
    references has been deleted. *)
Theorem ref_counting_exact n k s :
  rtc refs_step (refs_init n k) s → few_incs s →
  rs_fault s = false ∧
  (∀ o x, rs_objs s !! o = Some x → ob_alive x = false → ob_raw x = 0 ∧
     ∀ d p, rs_ptrs s !! d = Some p → p_obj p = Some o → ∃ i l, rs_threads s !! i = Some l ∧ SetNull d ∈ l) ∧
  ((∀ i l, rs_threads s !! i = Some l → l = []) → ∀ o x, rs_objs s !! o = Some x →
     ob_ref x = wsum (λ p, b2z_if (p_obj p = Some o)) (rs_ptrs s) + ob_raw x ∧ (ob_alive x = true ↔ 0 < ob_ref x)).
Proof.
  intros Hr Hfew. pose proof (refs_reachable _ _ _ Hr Hfew) as HI. split_and!; [apply HI|..].
  - intros o x Hx Hal. destruct (ri_obj _ HI o x Hx) as (J1 & J2 & J3 & J4 & J5). specialize (J4 Hal). pose proof (holders_nonneg o s).
    pose proof (pend_nonneg (w_dec o) s (w_dec_nonneg o)). split; [lia|]. intros d p Hd Ho.
    destruct (p_writing p) eqn:Hw; [|pose proof (holders_elem o s d p Hd Ho Hw); lia].
    destruct (ri_ptr _ HI d p Hd) as (P1 & _). rewrite Hw in P1. assert (0 < pend (w_writes d) s) as Hpos by (rewrite P1; done).
    apply wsum_pos in Hpos as (l & [i Hi]%list_elem_of_lookup & (a & Ha & Hpos)%wsum_pos). pose proof (λ o, action_alive s HI i l a o Hi Ha) as Hta.
    pose proof (ri_act _ HI i l a Hi Ha) as Hok. destruct a as [d' h o'|h o'|o'|o'|d']; simpl in *; [|lia..|]; unfold b2z_if in Hpos; (case_decide as E; [subst d'|done]); [|by eauto].
    destruct Hok as [(p' & Hp' & Ho') _]. assert (o' = o) as -> by congruence. specialize (Hta o eq_refl). unfold alive in Hta. rewrite Hx in Hta. simpl in Hta. congruence.
  - intros Hidle o x Hx. destruct (ri_obj _ HI o x Hx) as (J1 & J2 & J3 & J4 & J5).
    assert (∀ w, pend w s = 0) as Hz by (intros w; apply wsum_zero; intros l [i Hi]%list_elem_of_lookup; by rewrite (Hidle i l Hi)). rewrite Hz in J2, J3.
    assert (holders o s = wsum (λ p, b2z_if (p_obj p = Some o)) (rs_ptrs s)) as <-.
    { apply wsum_ext_in. intros p [d Hd]%list_elem_of_lookup. apply holds_clean. destruct (ri_ptr _ HI d p Hd) as (P1 & _). rewrite Hz in P1. by destruct (p_writing p). }
    pose proof (holders_nonneg o s). unfold b2z_if in J3. split; [lia|]. destruct (ob_alive x); split; intros Hc; [|done|done|specialize (J4 eq_refl); lia].
    destruct (decide (true = true ∧ ob_ref x = 0)) as [|Hn]; [lia|]. destruct (decide (ob_ref x = 0)); [by destruct Hn|lia].
Qed.

Ltac op_step c := eapply rtc_l; [apply (rs_start _ 0 c); [vm_compute; reflexivity|vm_compute; eauto 10]|].
Ltac act_step := eapply rtc_l; [eapply (rs_act _ 0); vm_compute; reflexivity|].

(** Pointer 0 is made and copied to 1, a reference is taken from outside, 0 is
    overwritten by a move of 1, the outside reference is dropped, and 0 is reset: the
    object is deleted while 0 still points to it. *)
Lemma ref_counting_exact_witness :
  ∃ s, rtc refs_step (refs_init 2 1) s ∧ rs_objs s = [mk_obj 0 0 false] ∧ rs_ptrs s = [mk_ptr (Some 0%nat) true 0; mk_ptr None false 0] ∧ rs_fault s = false.
Proof.
  assert (∃ s, rtc refs_step (refs_init 2 1) s ∧ rs_objs s = [mk_obj 0 0 false] ∧ rs_ptrs s = [mk_ptr (Some 0%nat) true 0; mk_ptr None false 0] ∧ few_incs s) as (s & Hr & Ho & Hp & Hf).
  { eexists. split; [|shelve].
    op_step (Make 0). op_step (Copy 1 0). act_step. op_step (Retain 1). act_step. op_step (Move 0 1). act_step. op_step (Release 0). act_step. op_step (Reset 0).
    act_step. act_step. apply rtc_refl. Unshelve. split_and!; vm_compute; reflexivity. }
  exists s. split_and!; [exact Hr|exact Ho|exact Hp|]. exact (proj1 (ref_counting_exact 2 1 s Hr Hf)).
Defined.

End RefObj.
