(* ===== verification/Slab.v ===== *)
(** * The allocators

    Models include/util/slab.h: [SimpleAllocator] (tasks, queue entries, timers)
    and [QSimpleAllocator] (coroutine stacks).  Memory is a set of addresses; the
    C library and the kernel enter as the address [calloc] or [mmap] returns, of
    which the theorems assume what these calls promise: the range is disjoint from
    every range still in use.  A vector is a list whose head is its back. *)

From S2P Require Import Prelude.

(** Two ranges of [n] bytes do not overlap. *)
Definition apart (n x y : Z) : Prop := x + n <= y ∨ y + n <= x.

(** The addresses of a list are pairwise apart. *)
Definition all_apart (n : Z) (l : list Z) : Prop := ∀ i j x y, l !! i = Some x → l !! j = Some y → i ≠ j → apart n x y.

Lemma apart_sym n x y : apart n x y → apart n y x.
Proof. unfold apart. lia. Qed.

Lemma all_apart_cons n x l : all_apart n (x :: l) ↔ (∀ y, y ∈ l → apart n x y) ∧ all_apart n l.
Proof.
  split.
  - intros H. split.
    + intros y [j Hj]%list_elem_of_lookup. by apply (H 0%nat (S j)).
    + intros i j a b Hi Hj Hne. apply (H (S i) (S j)); [done..|lia].
  - intros [Hx Hl] [|i] [|j] a b Hi Hj Hne; simpl in *; simplify_eq; try done.
    + apply Hx. by eapply list_elem_of_lookup_2.
    + apply apart_sym, Hx. by eapply list_elem_of_lookup_2.
    + eapply (Hl i j); [done..|lia].
Qed.

Lemma all_apart_Permutation n l l' : l ≡ₚ l' → all_apart n l → all_apart n l'.
Proof.
  induction 1 as [|x l l' Hp IH|x y l|l l' l'' _ IH1 _ IH2]; auto.
  - rewrite !all_apart_cons. intros [Hx Hl]. split; [|auto]. intros y. rewrite <-Hp. auto.
  - rewrite !all_apart_cons. setoid_rewrite elem_of_cons. intros (Hy & Hx & Hl). split_and!; auto.
    intros z [->|?]; auto using apart_sym.
Qed.

Lemma all_apart_app n l1 l2 :
  all_apart n l1 → all_apart n l2 → (∀ x y, x ∈ l1 → y ∈ l2 → apart n x y) → all_apart n (l1 ++ l2).
Proof.
  induction l1 as [|x l1 IH]; simpl; [auto|]. rewrite !all_apart_cons. intros [Hx H1] H2 H12. split.
  - intros y [?|?]%elem_of_app; auto. apply H12; [by left|done].
  - apply IH; auto. intros a b ??. apply H12; [by right|done].
Qed.

Lemma all_apart_NoDup n l : 0 < n → all_apart n l → NoDup l.
Proof.
  intros Hn. induction l as [|x l IH]; [by constructor|]. rewrite all_apart_cons. intros [Hx Hl]. constructor; [|auto].
  intros Hin. specialize (Hx x Hin). unfold apart in Hx. lia.
Qed.

(** The loop [for (i = 0; i + TSize <= MmapSz; i += TSize)], last block first. *)
Fixpoint push_blocks (fuel : nat) (TSize MmapSz p i : Z) (cache : list Z) : list Z :=
  match fuel with
  | O => cache
  | S fuel =>
      if decide (i + TSize <= MmapSz) then push_blocks fuel TSize MmapSz p (i + TSize) ((p + i) :: cache) else cache
  end.

(** The addresses the loop pushes, first block first. *)
Definition blocks (TSize MmapSz p : Z) : list Z := (λ k, p + k * TSize) <$> seqZ 0 (MmapSz / TSize).

Lemma push_blocks_spec TSize MmapSz p n cache i :
  0 < TSize → 0 <= i → MmapSz - i < Z.of_nat n * TSize →
  push_blocks n TSize MmapSz p i cache ≡ₚ cache ++ ((λ k, p + i + k * TSize) <$> seqZ 0 ((MmapSz - i) / TSize)).
Proof.
  intros HT. revert i cache. induction n as [|n IH]; intros i cache Hi Hn; rewrite ?Nat2Z.inj_succ, ?Z.mul_succ_l in Hn; simpl.
  - rewrite seqZ_nil; [by rewrite app_nil_r|]. assert ((MmapSz - i) / TSize < 1); [apply Z.div_lt_upper_bound; lia|lia].
  - case_decide as Hle.
    + rewrite IH by lia. assert ((MmapSz - i) / TSize = (MmapSz - (i + TSize)) / TSize + 1) as ->.
      { replace (MmapSz - i) with (MmapSz - (i + TSize) + 1 * TSize) by lia. by rewrite Z.div_add by lia. }
      assert (0 <= (MmapSz - (i + TSize)) / TSize) by (apply Z.div_pos; lia).
      rewrite (seqZ_cons 0 ((MmapSz - (i + TSize)) / TSize + 1)) by lia. rewrite fmap_cons. simpl.
      replace (p + i + 0 * TSize) with (p + i) by lia. rewrite <-Permutation_middle. constructor.
      apply Permutation_app_head.
      replace (Z.pred ((MmapSz - (i + TSize)) / TSize + 1)) with ((MmapSz - (i + TSize)) / TSize) by lia.
      change (Z.succ 0) with (1 + 0). rewrite <-(fmap_add_seqZ 1 0), <-list_fmap_compose. apply Permutation_refl', list_fmap_ext. intros k x _. simpl. lia.
    + rewrite seqZ_nil; [by rewrite app_nil_r|]. assert ((MmapSz - i) / TSize < 1); [apply Z.div_lt_upper_bound; lia|lia].
Qed.

Lemma push_blocks_blocks TSize MmapSz p cache :
  0 < TSize → 0 <= MmapSz → push_blocks (S (Z.to_nat MmapSz)) TSize MmapSz p 0 cache ≡ₚ cache ++ blocks TSize MmapSz p.
Proof.
  intros HT HM. rewrite push_blocks_spec by nia. rewrite Z.sub_0_r.
  apply Permutation_app_head, Permutation_refl', list_fmap_ext. intros k x _. lia.
Qed.

Lemma elem_of_blocks TSize MmapSz p x :
  0 < TSize → x ∈ blocks TSize MmapSz p ↔ ∃ k, x = p + k * TSize ∧ 0 <= k < MmapSz / TSize.
Proof.
  intros HT. unfold blocks. rewrite list_elem_of_fmap. setoid_rewrite elem_of_seqZ.
  split; intros (k & ? & ?); exists k; split; try done; lia.
Qed.

Lemma blocks_inside TSize MmapSz p x : 0 < TSize → x ∈ blocks TSize MmapSz p → p <= x ∧ x + TSize <= p + MmapSz.
Proof.
  intros HT (k & -> & Hk)%elem_of_blocks; [|done].
  pose proof (Z.mul_div_le MmapSz TSize HT). split; nia.
Qed.

Lemma blocks_apart TSize MmapSz p : 0 < TSize → all_apart TSize (blocks TSize MmapSz p).
Proof.
  intros HT i j x y Hi Hj Hne. unfold blocks in *. rewrite list_lookup_fmap in *.
  apply fmap_Some in Hi as (a & Ha & ->). apply fmap_Some in Hj as (b & Hb & ->).
  apply lookup_seqZ in Ha as [-> ?], Hb as [-> ?]. unfold apart. destruct (decide (i < j)%nat); nia.
Qed.

Lemma blocks_length TSize MmapSz p : 0 < TSize <= MmapSz → Z.of_nat (length (blocks TSize MmapSz p)) = MmapSz / TSize.
Proof. intros. unfold blocks. rewrite length_fmap, length_seqZ. assert (0 <= MmapSz / TSize) by (apply Z.div_pos; lia). lia. Qed.

(** ** [SimpleAllocator] *)

Record SimpleAllocator := mkSlab {
  primaryCache : list Z;
  secondaryCache : gset Z;
  basePtr : option Z;
  count : Z;
  sl_live : list Z;         (* the blocks handed out and not freed *)
}.

#[export] Instance SimpleAllocator_eta : Eta SimpleAllocator := λ s,
  mkSlab (primaryCache s) (secondaryCache s) (basePtr s) (count s) (sl_live s).

Definition slab_init : SimpleAllocator := mkSlab [] ∅ None 0 [].

Section slab.
Context (TSize MmapSz : Z).
Implicit Types (s : SimpleAllocator) (t p : Z).

Definition in_base t s : bool :=
  match basePtr s with
  | Some p => bool_decide (p <= t) && bool_decide (t < p + MmapSz)
  | None => false
  end.

(** [init]; [p] is what [calloc] returns. *)
Definition slab_init_cache p s : SimpleAllocator :=
  s <| count := MmapSz / TSize |> <| primaryCache ::= push_blocks (S (Z.to_nat MmapSz)) TSize MmapSz p 0 |>
    <| basePtr := Some p |>.

(** [Alloc]; [c] is what [calloc] returns if it is called.  [None] where the source
    takes the back of an empty vector. *)
Definition slab_Alloc c s : option (Z * SimpleAllocator) :=
  match (if decide (count s = 0) then basePtr s else None) with
  | Some _ => Some (c, s <| secondaryCache ::= λ l, l ∪ {[c]} |> <| sl_live ::= cons c |>)
  | None =>
      let s := if decide (count s = 0) then slab_init_cache c s else s in
      match primaryCache s with
      | [] => None
      | t :: l => Some (t, s <| primaryCache := l |> <| count ::= λ n, n - 1 |> <| sl_live ::= cons t |>)
      end
  end.

Fixpoint remove_first t (l : list Z) : list Z :=
  match l with [] => [] | x :: l => if decide (x = t) then l else x :: remove_first t l end.

Definition slab_free t s : SimpleAllocator :=
  let s := s <| sl_live ::= remove_first t |> in
  if in_base t s then s <| primaryCache ::= cons t |> <| count ::= λ n, n + 1 |>
  else s <| secondaryCache ::= λ l, l ∖ {[t]} |>.

Definition getUnfreed s : list Z :=
  (match basePtr s with
   | Some p => filter (λ x, x ∉ primaryCache s) (blocks TSize MmapSz p)
   | None => []
   end) ++ elements (secondaryCache s).

Definition getUnfreedSize s : Z :=
  (match basePtr s with Some _ => MmapSz / TSize - Z.of_nat (length (primaryCache s)) | None => 0 end) +
  Z.of_nat (size (secondaryCache s)).

Definition BeenFreed t s : bool :=
  if in_base t s then bool_decide (t ∈ primaryCache s) else bool_decide (t ∉ secondaryCache s).

(** The range [c, c + n) is disjoint from what is in use: the blocks handed out and
    the base range. *)
Definition fresh_range c n s : Prop :=
  (∀ t, t ∈ sl_live s → c + n <= t ∨ t + TSize <= c) ∧
  (∀ p, basePtr s = Some p → c + n <= p ∨ p + MmapSz <= c).

Inductive slab_step : SimpleAllocator → SimpleAllocator → Prop :=
| slab_alloc s c t s' :
    fresh_range c (if decide (basePtr s = None) then MmapSz else TSize) s → slab_Alloc c s = Some (t, s') → slab_step s s'
| slab_release s t : t ∈ sl_live s → slab_step s (slab_free t s).

Record slab_inv s : Prop := {
  sv_count : count s = Z.of_nat (length (primaryCache s));
  sv_none : basePtr s = None → primaryCache s = [] ∧ sl_live s = [];
  sv_base p : basePtr s = Some p → primaryCache s ++ filter (λ t, in_base t s = true) (sl_live s) ≡ₚ blocks TSize MmapSz p;
  sv_second : elements (secondaryCache s) ≡ₚ filter (λ t, ¬ in_base t s = true) (sl_live s);
  sv_outside t p : basePtr s = Some p → t ∈ sl_live s → in_base t s = false → t + TSize <= p ∨ p + MmapSz <= t;
  sv_apart : all_apart TSize (sl_live s);
}.

Context (HT : 0 < TSize <= MmapSz).

Lemma remove_first_perm t l : t ∈ l → l ≡ₚ t :: remove_first t l.
Proof.
  induction l as [|x l IH]; [by intros ?%elem_of_nil|]. simpl. intros [->|Hin]%elem_of_cons; case_decide; subst; try done.
  rewrite (IH Hin) at 1. apply Permutation_swap.
Qed.

Lemma block_in_base p t s : basePtr s = Some p → t ∈ blocks TSize MmapSz p → in_base t s = true.
Proof using HT.
  intros Hp Ht. apply blocks_inside in Ht; [|lia]. unfold in_base. rewrite Hp. rewrite !bool_decide_true by lia. done.
Qed.

Lemma slab_init_inv c s : slab_inv s → basePtr s = None → slab_inv (slab_init_cache c s).
Proof using HT.
  intros [H1 H2 H3 H4 H5 H6] Hb. destruct (H2 Hb) as [Hp Hl].
  assert (primaryCache (slab_init_cache c s) ≡ₚ blocks TSize MmapSz c) as Hperm.
  { unfold slab_init_cache. simpl. rewrite Hp. apply (push_blocks_blocks TSize MmapSz c []); lia. }
  split.
  - rewrite Hperm, blocks_length by lia. done.
  - done.
  - intros p [= <-]. simpl in *. rewrite Hl, filter_nil, app_nil_r. done.
  - simpl. rewrite Hl in *. rewrite filter_nil in *. done.
  - intros t p _. simpl. rewrite Hl. by intros ?%elem_of_nil.
  - simpl. rewrite Hl. by intros i j x y ?.
Qed.

Lemma slab_pop_inv s t l :
  slab_inv s → primaryCache s = t :: l →
  (∀ y, y ∈ sl_live s → apart TSize t y) ∧
  slab_inv (s <| primaryCache := l |> <| count ::= λ n, n - 1 |> <| sl_live ::= cons t |>).
Proof using HT.
  intros [H1 H2 H3 H4 H5 H6] Hp.
  destruct (basePtr s) as [p|] eqn:Hb; [|by destruct (H2 eq_refl); congruence].
  specialize (H3 p eq_refl). rewrite Hp in *.
  assert (t ∈ blocks TSize MmapSz p) as Ht by (rewrite <-H3; by left).
  pose proof (block_in_base p t s Hb Ht) as Hin.
  assert (∀ y, y ∈ sl_live s → apart TSize t y) as Hap.
  { intros y Hy. destruct (in_base y s) eqn:Ey.
    - pose proof (all_apart_Permutation _ _ _ (symmetry H3) (blocks_apart TSize MmapSz p ltac:(lia))) as Ha.
      apply all_apart_cons in Ha as [Ha _]. apply Ha. apply elem_of_app. right. by apply list_elem_of_filter.
    - apply blocks_inside in Ht; [|lia]. specialize (H5 y p eq_refl Hy Ey). unfold apart. lia. }
  split; [done|]. split; simpl.
  - simpl in H1. lia.
  - congruence.
  - intros p' Hp'. rewrite Hb in Hp'. injection Hp' as <-. rewrite filter_cons_True by done.
    rewrite <-H3. by rewrite <-Permutation_middle.
  - rewrite filter_cons_False; [done|]. by intros Hn; apply Hn.
  - intros x p' Hp' [->|Hx]%elem_of_cons Hxb; [by unfold in_base in *; simpl in *; congruence|]. apply (H5 x p'); [congruence|done..].
  - by apply all_apart_cons.
Qed.

Lemma slab_Alloc_inv c s t s' :
  slab_inv s → fresh_range c (if decide (basePtr s = None) then MmapSz else TSize) s → slab_Alloc c s = Some (t, s') →
  slab_inv s' ∧ sl_live s' = t :: sl_live s ∧ ∀ y, y ∈ sl_live s → apart TSize t y.
Proof using HT.
  intros HI [Hf Hfb] Ha. unfold slab_Alloc in Ha. pose proof HI as [H1 H2 H3 H4 H5 H6].
  destruct (decide (count s = 0)) as [H0|H0].
  - destruct (basePtr s) as [p|] eqn:Hb.
    + simplify_eq. rewrite decide_False in * by done. specialize (Hfb p eq_refl).
      assert (in_base t s = false) as Hin.
      { unfold in_base. rewrite Hb. destruct (bool_decide_reflect (p <= t)); [|done].
        rewrite bool_decide_false by lia. done. }
      assert (∀ y, y ∈ sl_live s → apart TSize t y) as Hap by (intros y Hy; unfold apart; specialize (Hf y Hy); lia).
      assert (t ∉ secondaryCache s) as Hnin.
      { intros Hin'. apply elem_of_elements in Hin'. rewrite H4 in Hin'. apply list_elem_of_filter in Hin' as [_ Hl].
        specialize (Hap t Hl). unfold apart in Hap. lia. }
      split_and!; [|done|done]. split; simpl; auto.
      * congruence.
      * intros p' Hp'. rewrite filter_cons_False; [apply H3; congruence|]. change (¬ in_base t s = true). by rewrite Hin.
      * rewrite filter_cons_True by (change (¬ in_base t s = true); by rewrite Hin). etrans; [|apply Permutation_skip, H4].
        rewrite (union_comm_L _ {[t]}). by apply elements_union_singleton.
      * intros x p' Hp' [->|Hx]%elem_of_cons Hxb; [|apply (H5 x p'); [congruence|done..]].
        rewrite Hb in Hp'. injection Hp' as <-. lia.
      * by apply all_apart_cons.
    + pose proof (slab_init_inv c s HI Hb) as HI'.
      destruct (primaryCache (slab_init_cache c s)) as [|x l] eqn:Ep; [done|]. simplify_eq.
      destruct (slab_pop_inv _ _ _ HI' Ep) as [Hap Hinv]. by split_and!.
  - destruct (primaryCache s) as [|x l] eqn:Ep; [done|]. simplify_eq.
    destruct (slab_pop_inv _ _ _ HI Ep) as [Hap Hinv]. by split_and!.
Qed.

Lemma slab_free_inv t s : slab_inv s → t ∈ sl_live s → slab_inv (slab_free t s).
Proof using HT.
  intros [H1 H2 H3 H4 H5 H6] Ht. pose proof (remove_first_perm t _ Ht) as Hp.
  assert (∀ x, x ∈ remove_first t (sl_live s) → x ∈ sl_live s) as Hsub by (intros x Hx; rewrite Hp; by right).
  assert (all_apart TSize (remove_first t (sl_live s))) as Hap.
  { apply (all_apart_Permutation _ _ _ Hp) in H6. by apply all_apart_cons in H6 as [_ ?]. }
  assert (∀ (P : Z → Prop) `{∀ x, Decision (P x)}, P t → filter P (sl_live s) ≡ₚ t :: filter P (remove_first t (sl_live s))) as Hin.
  { intros P ? HP. rewrite Hp at 1. by rewrite filter_cons_True. }
  assert (∀ (P : Z → Prop) `{∀ x, Decision (P x)}, ¬ P t → filter P (sl_live s) ≡ₚ filter P (remove_first t (sl_live s))) as Hout.
  { intros P ? HP. rewrite Hp at 1. by rewrite filter_cons_False. }
  assert (basePtr s ≠ None) as Hbn by (intros E; destruct (H2 E) as [_ E']; rewrite E' in Ht; by apply elem_of_nil in Ht).
  unfold slab_free. change (in_base t (s <| sl_live ::= remove_first t |>)) with (in_base t s).
  destruct (in_base t s) eqn:Eb; split; simpl; auto; try done.
  - lia.
  - intros p Hpb. etrans; [|apply (H3 p Hpb)]. rewrite (Hin (λ x, in_base x s = true)) by done. apply Permutation_middle.
  - etrans; [apply H4|]. apply (Hout (λ x, ¬ in_base x s = true)). simpl. rewrite Eb. tauto.
  - intros p Hpb. etrans; [|apply (H3 p Hpb)]. apply Permutation_app_head. symmetry.
    apply (Hout (λ x, in_base x s = true)). by rewrite Eb.
  - apply (Permutation_cons_inv (a := t)). etrans; [|apply (Hin (λ x, ¬ in_base x s = true)); by rewrite Eb].
    rewrite <-H4. rewrite <-elements_union_singleton by set_solver. apply Permutation_refl'. f_equal.
    assert (t ∈ secondaryCache s); [|rewrite <-union_difference_singleton_L; done].
    apply elem_of_elements. rewrite H4. apply list_elem_of_filter. by rewrite Eb.
Qed.

Lemma getUnfreedSize_live s : slab_inv s → getUnfreedSize s = Z.of_nat (length (sl_live s)).
Proof using HT.
  intros [H1 H2 H3 H4 H5 H6]. unfold getUnfreedSize.
  pose proof (Permutation_length (Permutation_filter_split (λ t, in_base t s = true) (sl_live s))) as Hlen.
  rewrite length_app in Hlen. pose proof (Permutation_length H4) as H4l.
  change (length (elements (secondaryCache s))) with (size (secondaryCache s)) in H4l.
  destruct (basePtr s) as [p|] eqn:Hb.
  - specialize (H3 p eq_refl). apply Permutation_length in H3. rewrite length_app in H3.
    pose proof (blocks_length TSize MmapSz p HT). lia.
  - destruct (H2 eq_refl) as [_ Hl]. rewrite Hl in *. simpl in *. lia.
Qed.

(** [HasBeenFreed] of a block of the allocator. *)
Lemma BeenFreed_correct t s :
  slab_inv s → (∀ p, basePtr s = Some p → in_base t s = true → t ∈ blocks TSize MmapSz p) →
  BeenFreed t s = true ↔ t ∉ sl_live s.
Proof using HT.
  intros HI Hblk. pose proof HI as [H1 H2 H3 H4 H5 H6]. unfold BeenFreed. destruct (in_base t s) eqn:Eb.
  - destruct (basePtr s) as [p|] eqn:Hb; [|by unfold in_base in Eb; rewrite Hb in Eb].
    specialize (Hblk p eq_refl eq_refl). specialize (H3 p eq_refl). rewrite bool_decide_eq_true.
    assert (NoDup (primaryCache s ++ filter (λ t, in_base t s = true) (sl_live s))) as Hnd.
    { rewrite H3. eapply all_apart_NoDup; [|apply blocks_apart; lia]. lia. }
    apply NoDup_app in Hnd as (_ & Hdis & _). rewrite <-H3, elem_of_app, list_elem_of_filter in Hblk.
    split; [|tauto]. intros Hin Hl. apply (Hdis t Hin). by apply list_elem_of_filter.
  - rewrite bool_decide_eq_true. rewrite <-elem_of_elements, H4, list_elem_of_filter, Eb. naive_solver.
Qed.

Lemma slab_reachable_inv s : rtc slab_step slab_init s → slab_inv s.
Proof using HT.
  apply rtc_invariant.
  - by split.
  - intros a b HI Hst. destruct Hst as [s0 c t s' Hf Ha|s0 t Ht]; [|by apply slab_free_inv].
    by eapply slab_Alloc_inv.
Qed.
End slab.

(** C36: the allocator never hands out memory that is in use.  In every sequence of
    allocations and frees the blocks in use do not overlap, a block returned by
    [Alloc] is apart from all of them, and the books are right: [getUnfreedSize]
    counts the blocks in use and [count] those in the cache. *)
Theorem slab_no_overlap TSize MmapSz s c t s' :
  0 < TSize <= MmapSz → rtc (slab_step TSize MmapSz) slab_init s →
  fresh_range TSize MmapSz c (if decide (basePtr s = None) then MmapSz else TSize) s →
  slab_Alloc TSize MmapSz c s = Some (t, s') →
  all_apart TSize (sl_live s) ∧ (∀ y, y ∈ sl_live s → apart TSize t y) ∧ sl_live s' = t :: sl_live s ∧
  getUnfreedSize TSize MmapSz s = Z.of_nat (length (sl_live s)) ∧ count s = Z.of_nat (length (primaryCache s)).
Proof.
  intros HT Hr Hf Ha. pose proof (slab_reachable_inv TSize MmapSz HT s Hr) as HI.
  destruct (slab_Alloc_inv TSize MmapSz HT c s t s' HI Hf Ha) as (_ & Hl & Hap).
  split_and!; [apply HI|done|done| |apply HI]. apply (getUnfreedSize_live TSize MmapSz HT s HI).
Qed.

(** Two blocks of 8 bytes fit the base range of 16; a third comes from [calloc]. *)
Definition slab_demo2 : SimpleAllocator := mkSlab [] ∅ (Some 100) 0 [100; 108].

Lemma slab_demo2_reachable : rtc (slab_step 8 16) slab_init slab_demo2.
Proof.
  eapply rtc_l; [eapply (slab_alloc 8 16 _ 100); [|by vm_compute]|].
  { split; [by intros t ?%elem_of_nil|done]. }
  apply rtc_once. eapply (slab_alloc 8 16 _ 1000); [|by vm_compute]. split.
  - intros t Ht. vm_compute in Ht. apply list_elem_of_singleton in Ht as ->. by right.
  - intros p Hp. vm_compute in Hp. injection Hp as <-. by right.
Qed.

Lemma slab_no_overlap_witness :
  apart 8 500 100 ∧ getUnfreedSize 8 16 slab_demo2 = 2.
Proof.
  destruct (slab_no_overlap 8 16 slab_demo2 500 500 (mkSlab [] {[500]} (Some 100) 0 [500; 100; 108])) as (_ & H & _ & Hs & _).
  - lia.
  - apply slab_demo2_reachable.
  - split; [|intros p Hp; vm_compute in Hp; injection Hp as <-; by right].
    intros t Ht. vm_compute in Ht. apply elem_of_cons in Ht as [-> | ->%list_elem_of_singleton]; by right.
  - by vm_compute.
  - split; [apply H; left|by rewrite Hs].
Defined.

(** ** [QSimpleAllocator] *)

Record QSimpleAllocator := mkQSlab {
  curAllocated : Z;
  maxAllocated : Z;
  cache : list Z;
  ql_live : list Z;
}.

#[export] Instance QSimpleAllocator_eta : Eta QSimpleAllocator := λ s,
  mkQSlab (curAllocated s) (maxAllocated s) (cache s) (ql_live s).

Definition qslab_init : QSimpleAllocator := mkQSlab 0 0 [] [].

Section qslab.
Context (TSize MmapSz : Z) (HT : 0 < TSize <= MmapSz).
Implicit Types (s : QSimpleAllocator).

(** The size of an object, aligned to pages of [p_size] bytes. *)
Definition qslab_TSize (size p_size : Z) : Z := Z.land (u64 (size - 1 + p_size)) (u64 (- p_size)).

(** [mmap] returns an address, or fails. *)
Definition expand (m : option Z) s : bool * QSimpleAllocator :=
  match m with
  | None => (false, s)
  | Some p => (true, s <| cache ::= push_blocks (S (Z.to_nat MmapSz)) TSize MmapSz p 0 |>)
  end.

Definition qslab_Alloc (m : option Z) s : option Z * QSimpleAllocator :=
  let '(ok, s) := match cache s with [] => expand m s | _ => (true, s) end in
  if ok then
    match cache s with
    | [] => (None, s)
    | p :: l =>
        let cur := curAllocated s + 1 in
        (Some p, mkQSlab cur (Z.max cur (maxAllocated s)) l (p :: ql_live s))
    end
  else (None, s).

Definition qslab_free p s : QSimpleAllocator :=
  s <| curAllocated ::= λ n, n - 1 |> <| cache ::= cons p |> <| ql_live ::= remove_first p |>.

(** The loop of [release]: cached stacks are unmapped from the back. *)
Fixpoint release_loop (reservedCnt : Z) (l : list Z) : list Z :=
  match l with
  | [] => []
  | p :: l' => if decide (Z.of_nat (length l) > reservedCnt) then release_loop reservedCnt l' else l
  end.

Definition release s : QSimpleAllocator :=
  let reservedCnt := maxAllocated s - curAllocated s + 1 in
  s <| maxAllocated := curAllocated s |> <| cache ::= release_loop reservedCnt |>.

(** [mmap] returns a range disjoint from the stacks still mapped. *)
Definition fresh_map (m : option Z) s : Prop :=
  ∀ p x, m = Some p → x ∈ cache s ++ ql_live s → p + MmapSz <= x ∨ x + TSize <= p.

Inductive qslab_step : QSimpleAllocator → QSimpleAllocator → Prop :=
| qslab_alloc s m : fresh_map m s → qslab_step s (qslab_Alloc m s).2
| qslab_give s p : p ∈ ql_live s → qslab_step s (qslab_free p s)
| qslab_trim s : qslab_step s (release s).

Record qslab_inv s : Prop := {
  qv_cur : curAllocated s = Z.of_nat (length (ql_live s));
  qv_max : curAllocated s <= maxAllocated s;
  qv_apart : all_apart TSize (cache s ++ ql_live s);
}.

Lemma release_loop_suffix n l : ∃ l1, l = l1 ++ release_loop n l.
Proof.
  induction l as [|x l IH]; [by exists []|]. cbn [release_loop]. case_decide; [|by exists []].
  destruct IH as [l1 E]. exists (x :: l1). simpl. by rewrite <-E.
Qed.

Lemma release_loop_length n l : 0 <= n → Z.of_nat (length (release_loop n l)) = Z.min n (Z.of_nat (length l)).
Proof.
  intros Hn. induction l as [|x l IH]; [simpl; lia|]. cbn [release_loop]. case_decide as Hl; cbn [length] in *; [rewrite IH|]; lia.
Qed.

Lemma all_apart_app_r n l1 l2 : all_apart n (l1 ++ l2) → all_apart n l2.
Proof. induction l1 as [|x l1 IH]; [done|]. simpl. rewrite all_apart_cons. tauto. Qed.

Lemma expand_inv m s : qslab_inv s → fresh_map m s → cache s = [] → qslab_inv (expand m s).2.
Proof using HT.
  intros [H1 H2 H3] Hf Hc. destruct m as [p|]; [|done]. split; simpl; auto. rewrite Hc in *.
  eapply all_apart_Permutation; [apply Permutation_app_tail; symmetry; apply push_blocks_blocks; lia|]. simpl.
  apply all_apart_app; [apply blocks_apart; lia|done|].
  intros x y Hx Hy. apply blocks_inside in Hx; [|lia]. unfold apart. specialize (Hf p y eq_refl).
  destruct Hf as [?|?]; [rewrite Hc; done|lia|lia].
Qed.

Lemma qslab_take_inv s p l :
  qslab_inv s → cache s = p :: l →
  qslab_inv (mkQSlab (curAllocated s + 1) (Z.max (curAllocated s + 1) (maxAllocated s)) l (p :: ql_live s)).
Proof.
  intros [H1 H2 H3] Hc. split; simpl; try lia. rewrite Hc in H3.
  eapply all_apart_Permutation; [|exact H3]. simpl. apply Permutation_middle.
Qed.

Lemma qslab_step_inv s s' : qslab_inv s → qslab_step s s' → qslab_inv s'.
Proof using HT.
  intros HI Hst. destruct Hst as [s m Hf|s p Hp|s].
  - unfold qslab_Alloc. destruct (cache s) as [|x l] eqn:Ec.
    + pose proof (expand_inv m s HI Hf Ec) as HI'. destruct (expand m s) as [[] s1]; [|done]. simpl in *.
      destruct (cache s1) as [|x l] eqn:Ec1; [done|]. by apply qslab_take_inv.
    + rewrite Ec. by apply qslab_take_inv.
  - destruct HI as [H1 H2 H3]. pose proof (remove_first_perm p _ Hp) as Hperm. split; simpl.
    + apply Permutation_length in Hperm. simpl in Hperm. lia.
    + lia.
    + eapply all_apart_Permutation; [|exact H3]. etrans; [apply Permutation_app_head, Hperm|]. symmetry. apply Permutation_middle.
  - destruct HI as [H1 H2 H3]. split; simpl; [done|lia|].
    destruct (release_loop_suffix (maxAllocated s - curAllocated s + 1) (cache s)) as [l1 E].
    rewrite E, <-app_assoc in H3. by eapply all_apart_app_r.
Qed.

(** Coroutine stacks in use never overlap each other or a cached one, and
    [release] keeps at least one cached stack and as many as the high-water mark
    since the last release asks for. *)
Theorem qslab_stacks_apart s :
  rtc qslab_step qslab_init s →
  all_apart TSize (cache s ++ ql_live s) ∧ curAllocated s = Z.of_nat (length (ql_live s)) ∧
  Z.of_nat (length (cache (release s))) =
    Z.min (maxAllocated s - curAllocated s + 1) (Z.of_nat (length (cache s))).
Proof using HT.
  intros Hr. assert (qslab_inv s) as [H1 H2 H3].
  { eapply rtc_invariant; [|intros a b; apply qslab_step_inv|exact Hr]. by split. }
  split_and!; [done..|]. simpl. apply release_loop_length. lia.
Qed.
End qslab.
