(* ===== verification/Api.v ===== *)
(** * Attributes of tasks and queues

    Models the attribute objects (include/core/task_attr_private.h,
    src/queue/queue_attr_private.h) with the C functions that set and read them
    (src/core/task.cpp, src/queue/queue_api.cpp), the reference counts of the
    timeout callbacks they hold, and the way [submit_apply] splits its
    iterations. *)

From S2P Require Import Prelude Multimap Types QueueTask QueueStrategy BaseQueue.
From S2P Require Import SerialQueue ConcurrentQueue AdapterQueue TrafficRecord QueueHandler.

Definition MAX_DELAY_US_COUNT : Z := 1000000 * 100 * 60 * 60 * 24 * 365.
Definition MAX_TIMEOUT_US_COUNT : Z := 1000000 * 100 * 60 * 60 * 24 * 365.
Definition MIN_TIMEOUT_US_COUNT : Z := 100 * 1000.
Definition ONE_THOUSAND : Z := 1000.

(** A timeout callback, by the storage of the task object that holds it. *)
Abbreviation callback := tid.

(** ** Reference counts of callbacks *)

(** The storage of the callbacks: a count, zero while the storage is allocated
    and no object was built in it.  Freed storage has no entry; an access to it
    is [None]. *)
Abbreviation cb_heap := (gmap callback Z).

(** [new (task) CPUEUTask]: the count starts at one. *)
Definition cb_new (f : callback) (h : cb_heap) : option cb_heap := _ ← h !! f; Some (<[f := 1]> h).

(** [IncDeleteRef]. *)
Definition cb_inc (f : callback) (h : cb_heap) : option cb_heap := n ← h !! f; Some (<[f := n + 1]> h).

(** [DecDeleteRef]: the last reference frees the object. *)
Definition cb_dec (f : callback) (h : cb_heap) : option cb_heap :=
  n ← h !! f; Some (if decide (n = 1) then delete f h else <[f := n - 1]> h).

(** ** Task attributes *)

(** The attribute object with the callbacks: those of the tasks that were
    built with the attribute and still exist are listed one by one. *)
Record attr_world := mkAttrWorld { aw_attr : task_attr_private; aw_heap : cb_heap; aw_tasks : list callback }.

Section task_attr.
Context (STACK_SIZE : Z) (GetFuncQosMap : option (Z → Z)).
Implicit Types (a : task_attr_private).

Definition task_attr_private_ctor : task_attr_private :=
  mkTaskAttr qos_default "" 0 0 true false ffrt_queue_priority_low false false None STACK_SIZE false.

Definition ffrt_task_attr_set_name (name : option string) a : task_attr_private :=
  match name with Some n => a <| ta_name := n |> | None => a end.
Definition ffrt_task_attr_get_name a : string := ta_name a.

Definition ffrt_task_attr_set_qos (qos : Z) a : task_attr_private :=
  match GetFuncQosMap with Some f => a <| ta_qos := f qos |> | None => a end.
Definition ffrt_task_attr_get_qos a : Z := ta_qos a.

Definition ffrt_task_attr_set_delay (delay_us : Z) a : task_attr_private :=
  let delay_us := if decide (delay_us > MAX_DELAY_US_COUNT) then MAX_DELAY_US_COUNT else delay_us in
  a <| ta_delay := delay_us |>.
Definition ffrt_task_attr_get_delay a : Z := ta_delay a.

Definition ffrt_task_attr_set_timeout (timeout_us : Z) a : task_attr_private :=
  if decide (timeout_us < MIN_TIMEOUT_US_COUNT) then a <| ta_timeout := MIN_TIMEOUT_US_COUNT |> else
  let timeout_us := if decide (timeout_us > MAX_TIMEOUT_US_COUNT) then MAX_TIMEOUT_US_COUNT else timeout_us in
  a <| ta_timeout := timeout_us |>.
Definition ffrt_task_attr_get_timeout a : Z := ta_timeout a.

Definition ffrt_task_attr_set_notify_worker (notify : bool) a : task_attr_private := a <| ta_notifyWorker := notify |>.

Definition ffrt_task_attr_set_queue_priority (priority : Z) a : task_attr_private :=
  if decide (priority < ffrt_queue_priority_immediate ∨ priority > ffrt_queue_priority_idle + 1) then a
  else a <| ta_prio := priority |>.
Definition ffrt_task_attr_get_queue_priority a : Z := ta_prio a.

Definition ffrt_task_attr_set_stack_size (size : Z) a : task_attr_private := a <| ta_stackSize := size |>.
Definition ffrt_task_attr_get_stack_size a : Z := ta_stackSize a.

Definition ResetTaskTimeoutCb a (h : cb_heap) : option (task_attr_private * cb_heap) :=
  match ta_timeoutCb a with
  | None => Some (a, h)
  | Some f => h ← cb_dec f h; Some (a <| ta_timeoutCb := None |>, h)
  end.

Definition ffrt_task_attr_set_timeout_callback (f : option callback) a (h : cb_heap) : option (task_attr_private * cb_heap) :=
  match f with
  | None => Some (a, h)
  | Some f => '(a, h) ← ResetTaskTimeoutCb a h; h ← cb_new f h; Some (a <| ta_timeoutCb := Some f |>, h)
  end.
Definition ffrt_task_attr_get_timeout_callback a : option callback := ta_timeoutCb a.

Definition ffrt_task_attr_set_local (b : bool) a : task_attr_private := a <| ta_taskLocal := b |>.
Definition ffrt_task_attr_get_local a : bool := ta_taskLocal a.
Definition ffrt_task_attr_set_group a : task_attr_private := a <| ta_groupRoot := true |>.
Definition ffrt_task_attr_get_group a : bool := ta_groupRoot a.

Definition ffrt_task_attr_destroy a (h : cb_heap) : option (task_attr_private * cb_heap) := ResetTaskTimeoutCb a h.

(** A task built with the attribute takes a reference on its callback, and
    gives it back when it is destroyed. *)
Definition CPUEUTask_ctor_cb a (h : cb_heap) (ts : list callback) : option (cb_heap * list callback) :=
  match ta_timeoutCb a with None => Some (h, ts) | Some f => h ← cb_inc f h; Some (h, f :: ts) end.

Definition CPUEUTask_dtor_cb (k : nat) (h : cb_heap) (ts : list callback) : option (cb_heap * list callback) :=
  match ts !! k with None => Some (h, ts) | Some f => h ← cb_dec f h; Some (h, delete k ts) end.

(** A call on the attribute, or the construction or destruction of a task. *)
Inductive attr_call :=
| SetName (name : option string) | SetQos (qos : Z) | SetDelay (us : Z) | SetTimeout (us : Z)
| SetNotifyWorker (b : bool) | SetPriority (p : Z) | SetStackSize (n : Z) | SetTimeoutCb (f : option callback)
| SetLocal (b : bool) | SetGroup | NewTask | FreeTask (k : nat).

Definition attr_apply (c : attr_call) (w : attr_world) : option attr_world :=
  let '(mkAttrWorld a h ts) := w in
  match c with
  | SetName n => Some (mkAttrWorld (ffrt_task_attr_set_name n a) h ts)
  | SetQos q => Some (mkAttrWorld (ffrt_task_attr_set_qos q a) h ts)
  | SetDelay d => Some (mkAttrWorld (ffrt_task_attr_set_delay d a) h ts)
  | SetTimeout t => Some (mkAttrWorld (ffrt_task_attr_set_timeout t a) h ts)
  | SetNotifyWorker b => Some (mkAttrWorld (ffrt_task_attr_set_notify_worker b a) h ts)
  | SetPriority p => Some (mkAttrWorld (ffrt_task_attr_set_queue_priority p a) h ts)
  | SetStackSize n => Some (mkAttrWorld (ffrt_task_attr_set_stack_size n a) h ts)
  | SetTimeoutCb f => '(a, h) ← ffrt_task_attr_set_timeout_callback f a h; Some (mkAttrWorld a h ts)
  | SetLocal b => Some (mkAttrWorld (ffrt_task_attr_set_local b a) h ts)
  | SetGroup => Some (mkAttrWorld (ffrt_task_attr_set_group a) h ts)
  | NewTask => '(h, ts) ← CPUEUTask_ctor_cb a h ts; Some (mkAttrWorld a h ts)
  | FreeTask k => '(h, ts) ← CPUEUTask_dtor_cb k h ts; Some (mkAttrWorld a h ts)
  end.

Fixpoint attr_run (cs : list attr_call) (w : attr_world) : option attr_world :=
  match cs with [] => Some w | c :: cs => w ← attr_apply c w; attr_run cs w end.

(** *** What a call means for each attribute: [None] when it leaves it alone. *)

Definition val_name (c : attr_call) : option string := match c with SetName n => n | _ => None end.
Definition val_qos (c : attr_call) : option Z := match c with SetQos q => f ← GetFuncQosMap; Some (f q) | _ => None end.
Definition val_delay (c : attr_call) : option Z := match c with SetDelay d => Some (Z.min d MAX_DELAY_US_COUNT) | _ => None end.
Definition val_timeout (c : attr_call) : option Z :=
  match c with SetTimeout t => Some (Z.max MIN_TIMEOUT_US_COUNT (Z.min t MAX_TIMEOUT_US_COUNT)) | _ => None end.
Definition val_notify (c : attr_call) : option bool := match c with SetNotifyWorker b => Some b | _ => None end.
Definition val_prio (c : attr_call) : option Z :=
  match c with SetPriority p => if decide (0 <= p <= 4) then Some p else None | _ => None end.
Definition val_stack (c : attr_call) : option Z := match c with SetStackSize n => Some n | _ => None end.
Definition val_cb (c : attr_call) : option callback := match c with SetTimeoutCb f => f | _ => None end.
Definition val_local (c : attr_call) : option bool := match c with SetLocal b => Some b | _ => None end.
Definition val_group (c : attr_call) : option bool := match c with SetGroup => Some true | _ => None end.

(** The value of the last call that concerns an attribute. *)
Definition last_value {V} (val : attr_call → option V) (cs : list attr_call) (v : V) : V := default v (last (omap val cs)).

(** The references to a callback. *)
Definition cb_owners (w : attr_world) (f : callback) : Z :=
  (if decide (ta_timeoutCb (aw_attr w) = Some f) then 1 else 0) + Z.of_nat (length (filter (f =.) (aw_tasks w))).

(** Every callback that was set so far is counted exactly, and freed when
    nothing refers to it; the others are as they were. *)
Definition cb_counted (h0 : cb_heap) (U : list callback) (own : callback → Z) (h : cb_heap) : Prop :=
  ∀ f, h !! f = if decide (f ∈ U) then (if decide (own f = 0) then None else Some (own f)) else h0 !! f.

Definition world_counted (h0 : cb_heap) (U : list callback) (w : attr_world) : Prop :=
  (∀ f, cb_owners w f ≠ 0 → f ∈ U) ∧ cb_counted h0 U (cb_owners w) (aw_heap w).

(** *** Counting lemmas *)

Lemma cb_dec_counted h0 U own own' h f :
  cb_counted h0 U own h → f ∈ U → 0 < own f → (∀ g, own' g = own g - (if decide (g = f) then 1 else 0)) →
  ∃ h', cb_dec f h = Some h' ∧ cb_counted h0 U own' h'.
Proof.
  intros Hc Hu Hp Ho. unfold cb_dec. pose proof (Hc f) as Hf. rewrite !decide_True in Hf by done.
  rewrite decide_False in Hf by lia. rewrite Hf. simpl. eexists. split; [done|]. intros g. pose proof (Ho g) as Hg.
  destruct (decide (g = f)) as [-> |Hne].
  - rewrite (decide_True _ _ Hu). repeat destruct (decide (_ = _)); try lia.
    + by rewrite lookup_delete_eq.
    + rewrite lookup_insert_eq. f_equal. lia.
  - rewrite Z.sub_0_r in Hg. rewrite Hg. destruct (decide (own f = 1)); [rewrite lookup_delete_ne by done|rewrite lookup_insert_ne by done]; apply Hc.
Qed.

Lemma cb_inc_counted h0 U own own' h f :
  cb_counted h0 U own h → f ∈ U → 0 < own f → (∀ g, own' g = own g + (if decide (g = f) then 1 else 0)) →
  ∃ h', cb_inc f h = Some h' ∧ cb_counted h0 U own' h'.
Proof.
  intros Hc Hu Hp Ho. unfold cb_inc. pose proof (Hc f) as Hf. rewrite !decide_True in Hf by done.
  rewrite decide_False in Hf by lia. rewrite Hf. simpl. eexists. split; [done|]. intros g. pose proof (Ho g) as Hg.
  destruct (decide (g = f)) as [-> |Hne].
  - rewrite (decide_True _ _ Hu), decide_False by lia. rewrite lookup_insert_eq. f_equal. lia.
  - rewrite Z.add_0_r in Hg. rewrite Hg, lookup_insert_ne by done. apply Hc.
Qed.

Lemma cb_new_counted h0 U own own' h f :
  cb_counted h0 U own h → f ∉ U → own f = 0 → h0 !! f = Some 0 → (∀ g, own' g = own g + (if decide (g = f) then 1 else 0)) →
  ∃ h', cb_new f h = Some h' ∧ cb_counted h0 (f :: U) own' h'.
Proof.
  intros Hc Hu Hp Hraw Ho. unfold cb_new. pose proof (Hc f) as Hf. rewrite decide_False, Hraw in Hf by done.
  rewrite Hf. simpl. eexists. split; [done|]. intros g. pose proof (Ho g) as Hg.
  destruct (decide (g = f)) as [-> |Hne].
  - rewrite decide_True by set_solver. rewrite decide_False by lia. rewrite lookup_insert_eq. f_equal. lia.
  - rewrite Z.add_0_r in Hg. rewrite Hg, lookup_insert_ne by done. rewrite (Hc g).
    destruct (decide (g ∈ U)), (decide (g ∈ f :: U)); [done|set_solver..|done].
Qed.

Lemma length_filter_cons (f g : callback) ts :
  Z.of_nat (length (filter (f =.) (g :: ts))) = (if decide (f = g) then 1 else 0) + Z.of_nat (length (filter (f =.) ts)).
Proof. rewrite filter_cons. destruct (decide (f = g)); simpl; lia. Qed.

Lemma length_filter_delete (f g : callback) ts k :
  ts !! k = Some g →
  Z.of_nat (length (filter (f =.) (delete k ts))) = Z.of_nat (length (filter (f =.) ts)) - (if decide (f = g) then 1 else 0).
Proof.
  intros Hk. assert (E : filter (f =.) ts ≡ₚ filter (f =.) (g :: delete k ts)) by (by rewrite <-delete_Permutation).
  apply Permutation_length in E. pose proof (length_filter_cons f g (delete k ts)). lia.
Qed.

Lemma cb_owners_elem w f : f ∈ aw_tasks w → 0 < cb_owners w f.
Proof.
  intros Hf. unfold cb_owners. assert (0 < length (filter (f =.) (aw_tasks w)))%nat; [|destruct (decide _); lia].
  assert (Hin : f ∈ filter (f =.) (aw_tasks w)) by (by apply list_elem_of_filter). destruct (filter _ _); [set_solver|simpl; lia].
Qed.

Lemma world_counted_same h0 U w w' :
  world_counted h0 U w → ta_timeoutCb (aw_attr w') = ta_timeoutCb (aw_attr w) → aw_heap w' = aw_heap w →
  aw_tasks w' = aw_tasks w → world_counted h0 U w'.
Proof.
  intros [Hu Hc] Ha Hh Ht. assert (Ho : ∀ f, cb_owners w' f = cb_owners w f) by (intros f; unfold cb_owners; by rewrite Ha, Ht).
  split; [intros f Hf; apply Hu; by rewrite <-Ho|]. intros f. rewrite Ho, Hh. apply Hc.
Qed.

Lemma ResetTaskTimeoutCb_counted h0 U a h ts :
  world_counted h0 U (mkAttrWorld a h ts) →
  ∃ h', ResetTaskTimeoutCb a h = Some (a <| ta_timeoutCb := None |>, h') ∧
    world_counted h0 U (mkAttrWorld (a <| ta_timeoutCb := None |>) h' ts).
Proof.
  intros [Hu Hc]. unfold ResetTaskTimeoutCb. destruct (ta_timeoutCb a) as [f|] eqn:Hf.
  - assert (Hp : 0 < cb_owners (mkAttrWorld a h ts) f) by (unfold cb_owners; simpl; rewrite decide_True by done; lia).
    assert (Ho : ∀ g, cb_owners (mkAttrWorld (a <| ta_timeoutCb := None |>) h ts) g
                      = cb_owners (mkAttrWorld a h ts) g - (if decide (g = f) then 1 else 0)).
    { intros g. unfold cb_owners. simpl. rewrite Hf. repeat destruct (decide _); try lia; congruence. }
    destruct (cb_dec_counted h0 U _ _ h f Hc (Hu f ltac:(lia)) Hp Ho) as (h' & -> & Hc'). exists h'. split; [done|].
    split; [|apply Hc']. intros g Hg. destruct (decide (g = f)) as [-> |]; [apply Hu; lia|]. apply Hu.
    change (cb_owners (mkAttrWorld (a <| ta_timeoutCb := None |>) h ts) g ≠ 0) in Hg. rewrite Ho in Hg.
    destruct (decide (g = f)); [done|lia].
  - exists h. split; [by destruct a; simplify_eq/=|]. by apply (world_counted_same _ _ (mkAttrWorld a h ts)); [|symmetry| |].
Qed.

(** A callback that is set must be allocated storage that was not set before. *)
Definition call_fresh (h0 : cb_heap) (U : list callback) (c : attr_call) : Prop :=
  match val_cb c with Some f => (f ∉ U) ∧ h0 !! f = Some 0 | None => True end.

Lemma set_timeout_callback_counted h0 U a h ts f :
  world_counted h0 U (mkAttrWorld a h ts) → f ∉ U → h0 !! f = Some 0 →
  ∃ a' h', ffrt_task_attr_set_timeout_callback (Some f) a h = Some (a', h') ∧ world_counted h0 (f :: U) (mkAttrWorld a' h' ts).
Proof.
  intros Hw Hf Hraw. unfold ffrt_task_attr_set_timeout_callback.
  destruct (ResetTaskTimeoutCb_counted _ _ _ _ _ Hw) as (h1 & -> & [Hu Hc]). simpl.
  set (w := mkAttrWorld (a <| ta_timeoutCb := None |>) h1 ts) in *.
  assert (H0 : cb_owners w f = 0) by (destruct (decide (cb_owners w f = 0)) as [|H]; [done|by apply Hu in H]).
  assert (Ho : ∀ g, cb_owners (mkAttrWorld (a <| ta_timeoutCb := Some f |>) h1 ts) g
                    = cb_owners w g + (if decide (g = f) then 1 else 0)).
  { intros g. unfold cb_owners. simpl. repeat destruct (decide _); try lia; congruence. }
  destruct (cb_new_counted h0 U _ _ h1 f Hc Hf H0 Hraw Ho) as (h2 & -> & Hc2). simpl. eexists _, h2. split; [done|].
  split; [|apply Hc2]. intros g Hg. destruct (decide (g = f)) as [-> |Hne]; [set_solver|]. apply elem_of_cons. right.
  apply Hu. change (cb_owners (mkAttrWorld (a <| ta_timeoutCb := Some f |>) h1 ts) g ≠ 0) in Hg. rewrite Ho in Hg.
  destruct (decide (g = f)); [done|lia].
Qed.

Lemma CPUEUTask_ctor_counted h0 U a h ts :
  world_counted h0 U (mkAttrWorld a h ts) →
  ∃ h' ts', CPUEUTask_ctor_cb a h ts = Some (h', ts') ∧ world_counted h0 U (mkAttrWorld a h' ts').
Proof.
  intros [Hu Hc]. unfold CPUEUTask_ctor_cb. destruct (ta_timeoutCb a) as [f|] eqn:Hf; [|by exists h, ts].
  set (w := mkAttrWorld a h ts) in *.
  assert (Hp : 0 < cb_owners w f) by (unfold cb_owners; simpl; rewrite decide_True by done; lia).
  assert (Ho : ∀ g, cb_owners (mkAttrWorld a h (f :: ts)) g = cb_owners w g + (if decide (g = f) then 1 else 0)).
  { intros g. unfold cb_owners. cbn [aw_attr aw_tasks w]. rewrite length_filter_cons. lia. }
  destruct (cb_inc_counted h0 U _ _ h f Hc (Hu f ltac:(lia)) Hp Ho) as (h' & -> & Hc'). exists h', (f :: ts). split; [done|].
  split; [|apply Hc']. intros g Hg. destruct (decide (g = f)) as [-> |]; [apply Hu; lia|]. apply Hu.
  change (cb_owners (mkAttrWorld a h (f :: ts)) g ≠ 0) in Hg. rewrite Ho in Hg. destruct (decide (g = f)); [done|lia].
Qed.

Lemma CPUEUTask_dtor_counted h0 U a h ts k :
  world_counted h0 U (mkAttrWorld a h ts) →
  ∃ h' ts', CPUEUTask_dtor_cb k h ts = Some (h', ts') ∧ world_counted h0 U (mkAttrWorld a h' ts').
Proof.
  intros [Hu Hc]. unfold CPUEUTask_dtor_cb. destruct (ts !! k) as [f|] eqn:Hf; [|by exists h, ts].
  set (w := mkAttrWorld a h ts) in *.
  assert (Hp : 0 < cb_owners w f) by (apply cb_owners_elem; by apply list_elem_of_lookup_2 with k).
  assert (Ho : ∀ g, cb_owners (mkAttrWorld a h (delete k ts)) g = cb_owners w g - (if decide (g = f) then 1 else 0)).
  { intros g. unfold cb_owners. cbn [aw_attr aw_tasks w]. rewrite (length_filter_delete g f ts k Hf). lia. }
  destruct (cb_dec_counted h0 U _ _ h f Hc (Hu f ltac:(lia)) Hp Ho) as (h' & -> & Hc'). exists h', (delete k ts).
  split; [done|]. split; [|apply Hc']. intros g Hg. destruct (decide (g = f)) as [-> |]; [apply Hu; lia|]. apply Hu.
  change (cb_owners (mkAttrWorld a h (delete k ts)) g ≠ 0) in Hg. rewrite Ho in Hg. destruct (decide (g = f)); [done|lia].
Qed.

Lemma attr_apply_counted h0 U c w :
  world_counted h0 U w → call_fresh h0 U c →
  ∃ w', attr_apply c w = Some w' ∧ world_counted h0 (option_list (val_cb c) ++ U) w'.
Proof.
  intros Hw Hf. destruct w as [a h ts]. destruct c as [n|q|d|t|b|p|n|f|b| | |k]; cbn [attr_apply val_cb option_list app] in *;
    try (eexists; split; [done|]; apply (world_counted_same _ _ _ _ Hw); [|done..]).
  - by destruct n.
  - unfold ffrt_task_attr_set_qos. by destruct GetFuncQosMap.
  - done.
  - unfold ffrt_task_attr_set_timeout. by case_decide.
  - done.
  - unfold ffrt_task_attr_set_queue_priority. by case_decide.
  - done.
  - destruct f as [f|]; [|by eexists]. destruct Hf as [Hf Hraw].
    destruct (set_timeout_callback_counted _ _ _ _ _ f Hw Hf Hraw) as (a' & h' & -> & Hw'). by eexists.
  - done.
  - done.
  - destruct (CPUEUTask_ctor_counted _ _ _ _ _ Hw) as (h' & ts' & -> & Hw'). by eexists.
  - destruct (CPUEUTask_dtor_counted _ _ _ _ _ k Hw) as (h' & ts' & -> & Hw'). by eexists.
Qed.

Lemma attr_run_counted h0 U cs w :
  world_counted h0 U w → NoDup (omap val_cb cs) → (∀ f, f ∈ omap val_cb cs → (f ∉ U) ∧ h0 !! f = Some 0) →
  ∃ w', attr_run cs w = Some w' ∧ ∃ U', (∀ f, f ∈ U' ↔ f ∈ U ∨ f ∈ omap val_cb cs) ∧ world_counted h0 U' w'.
Proof.
  revert U w. induction cs as [|c cs IH]; intros U w Hw Hnd Hf; [exists w; split; [done|]; exists U; set_solver|].
  cbn [attr_run]. cbn [omap list_omap] in Hnd, Hf. destruct (attr_apply_counted h0 U c w Hw) as (w1 & -> & Hw1).
  { unfold call_fresh. destruct (val_cb c); [apply Hf; set_solver|done]. }
  simpl. destruct (IH _ w1 Hw1) as (w' & -> & U' & HU & Hw').
  - destruct (val_cb c); [by apply NoDup_cons in Hnd as []|done].
  - intros f Hin. destruct (val_cb c) as [g|]; [|by apply Hf]. apply NoDup_cons in Hnd as [Hg _]. simpl.
    destruct (Hf f) as [Hu Hr]; [set_solver|]. split; [|done]. apply not_elem_of_cons. split; [|done]. by intros ->.
  - exists w'. split; [done|]. exists U'. split; [|done]. intros f. rewrite HU. destruct (val_cb c); set_solver.
Qed.

Lemma last_value_cons {V} (val : attr_call → option V) c cs v :
  last_value val (c :: cs) v = last_value val cs (default v (val c)).
Proof.
  unfold last_value. cbn [omap list_omap]. destruct (val c) as [x|]; cbn [default]; [|done].
  rewrite last_cons. by destruct (last _).
Qed.

(** One call, for all attributes at once. *)
Lemma attr_apply_values c w y :
  attr_apply c w = Some y →
  ta_name (aw_attr y) = default (ta_name (aw_attr w)) (val_name c) ∧
  ta_qos (aw_attr y) = default (ta_qos (aw_attr w)) (val_qos c) ∧
  ta_delay (aw_attr y) = default (ta_delay (aw_attr w)) (val_delay c) ∧
  ta_timeout (aw_attr y) = default (ta_timeout (aw_attr w)) (val_timeout c) ∧
  ta_notifyWorker (aw_attr y) = default (ta_notifyWorker (aw_attr w)) (val_notify c) ∧
  ta_prio (aw_attr y) = default (ta_prio (aw_attr w)) (val_prio c) ∧
  ta_stackSize (aw_attr y) = default (ta_stackSize (aw_attr w)) (val_stack c) ∧
  ta_timeoutCb (aw_attr y) = default (ta_timeoutCb (aw_attr w)) (Some <$> val_cb c) ∧
  ta_taskLocal (aw_attr y) = default (ta_taskLocal (aw_attr w)) (val_local c) ∧
  ta_groupRoot (aw_attr y) = default (ta_groupRoot (aw_attr w)) (val_group c).
Proof.
  destruct w as [a h ts], c as [n|q|d|t|b|p|n|f|b| | |k]; simpl; intros E; simplify_eq/=; try done.
  - by destruct n.
  - unfold ffrt_task_attr_set_qos. by destruct GetFuncQosMap.
  - split_and!; try done. case_decide; lia.
  - unfold ffrt_task_attr_set_timeout, MIN_TIMEOUT_US_COUNT, MAX_TIMEOUT_US_COUNT.
    repeat case_decide; simpl; split_and!; try done; lia.
  - unfold ffrt_task_attr_set_queue_priority, ffrt_queue_priority_immediate, ffrt_queue_priority_idle.
    repeat case_decide; simpl; split_and!; try done; lia.
  - destruct f as [f|]; simplify_eq/=; [|done]. apply bind_Some in E as ([a1 h1] & Ha & E). simplify_eq/=.
    apply bind_Some in Ha as ([a2 h2] & Ha & E). apply bind_Some in E as (h3 & _ & E). simplify_eq/=.
    unfold ResetTaskTimeoutCb in Ha. destruct (ta_timeoutCb a); simplify_eq/=; [|done].
    apply bind_Some in Ha as (h4 & _ & E). by simplify_eq/=.
  - apply bind_Some in E as ([h1 ts1] & _ & E). by simplify_eq/=.
  - apply bind_Some in E as ([h1 ts1] & _ & E). by simplify_eq/=.
Qed.

(** All attributes of a run. *)
Lemma attr_run_values cs w y :
  attr_run cs w = Some y →
  ta_name (aw_attr y) = last_value val_name cs (ta_name (aw_attr w)) ∧
  ta_qos (aw_attr y) = last_value val_qos cs (ta_qos (aw_attr w)) ∧
  ta_delay (aw_attr y) = last_value val_delay cs (ta_delay (aw_attr w)) ∧
  ta_timeout (aw_attr y) = last_value val_timeout cs (ta_timeout (aw_attr w)) ∧
  ta_notifyWorker (aw_attr y) = last_value val_notify cs (ta_notifyWorker (aw_attr w)) ∧
  ta_prio (aw_attr y) = last_value val_prio cs (ta_prio (aw_attr w)) ∧
  ta_stackSize (aw_attr y) = last_value val_stack cs (ta_stackSize (aw_attr w)) ∧
  ta_timeoutCb (aw_attr y) = last_value (fmap Some ∘ val_cb) cs (ta_timeoutCb (aw_attr w)) ∧
  ta_taskLocal (aw_attr y) = last_value val_local cs (ta_taskLocal (aw_attr w)) ∧
  ta_groupRoot (aw_attr y) = last_value val_group cs (ta_groupRoot (aw_attr w)).
Proof.
  revert w. induction cs as [|c cs IH]; intros w Hr; simpl in Hr; [simplify_eq; done|].
  apply bind_Some in Hr as (w1 & Hw & Hr). rewrite !last_value_cons.
  destruct (IH w1 Hr) as (-> & -> & -> & -> & -> & -> & -> & -> & -> & ->).
  by destruct (attr_apply_values c w w1 Hw) as (-> & -> & -> & -> & -> & -> & -> & -> & -> & ->).
Qed.

(** the attributes of a task read back what was set.  After any sequence of
    calls on a fresh attribute object, mixed with the construction and the
    destruction of tasks that use it, each getter returns the value of the last
    call that concerned it, brought into its range ([delay] and [timeout]) or
    skipped when it was invalid (a null name, a priority out of range, an
    unregistered QoS map).  As long as no callback is set twice, no access goes
    to freed storage, the count of every callback is the number of its users (the
    attribute and the tasks), and a callback without users has been freed. *)
Theorem task_attr_last_set cs h0 :
  NoDup (omap val_cb cs) → (∀ f, f ∈ omap val_cb cs → h0 !! f = Some 0) →
  ∃ w, attr_run cs (mkAttrWorld task_attr_private_ctor h0 []) = Some w ∧
    ffrt_task_attr_get_name (aw_attr w) = last_value val_name cs "" ∧
    ffrt_task_attr_get_qos (aw_attr w) = last_value val_qos cs qos_default ∧
    ffrt_task_attr_get_delay (aw_attr w) = last_value val_delay cs 0 ∧
    ffrt_task_attr_get_timeout (aw_attr w) = last_value val_timeout cs 0 ∧
    ta_notifyWorker (aw_attr w) = last_value val_notify cs true ∧
    ffrt_task_attr_get_queue_priority (aw_attr w) = last_value val_prio cs ffrt_queue_priority_low ∧
    ffrt_task_attr_get_stack_size (aw_attr w) = last_value val_stack cs STACK_SIZE ∧
    ffrt_task_attr_get_timeout_callback (aw_attr w) = last_value (fmap Some ∘ val_cb) cs None ∧
    ffrt_task_attr_get_local (aw_attr w) = last_value val_local cs false ∧
    ffrt_task_attr_get_group (aw_attr w) = last_value val_group cs false ∧
    ∃ h', ffrt_task_attr_destroy (aw_attr w) (aw_heap w) = Some (aw_attr w <| ta_timeoutCb := None |>, h') ∧
      ∀ f, f ∈ omap val_cb cs →
        aw_heap w !! f = (if decide (cb_owners w f = 0) then None else Some (cb_owners w f)) ∧
        h' !! f = (let n := Z.of_nat (length (filter (f =.) (aw_tasks w))) in if decide (n = 0) then None else Some n).
Proof.
  intros Hnd Hraw. destruct (attr_run_counted h0 [] cs (mkAttrWorld task_attr_private_ctor h0 [])) as (w & Hr & U & HU & Hw).
  { split; [done|]. intros f. by rewrite decide_False by set_solver. }
  { done. }
  { intros f Hf. split; [set_solver|by apply Hraw]. }
  exists w. split; [done|]. destruct (attr_run_values cs _ _ Hr) as (H1 & H2 & H3 & H4 & H5 & H6 & H7 & H8 & H9 & H10).
  do 10 (split; [done|]). destruct w as [a h ts]. destruct (ResetTaskTimeoutCb_counted _ _ _ _ _ Hw) as (h' & Hd & [_ Hc']).
  exists h'. split; [done|]. intros f Hf. assert (Hu : f ∈ U) by (apply HU; by right). destruct Hw as [_ Hc].
  pose proof (Hc f) as E. pose proof (Hc' f) as E'. rewrite (decide_True _ _ Hu) in E. rewrite (decide_True _ _ Hu) in E'. split; [exact E|exact E'].
Qed.
End task_attr.

Definition demo_qos (q : Z) : Z := q.

Lemma task_attr_last_set_witness :
  ∃ w, attr_run (Some demo_qos) [SetName (Some "a"); SetTimeout 5; SetTimeoutCb (Some 1%positive); NewTask; SetPriority 9; SetTimeoutCb (Some 2%positive)]
         (mkAttrWorld (task_attr_private_ctor 1048576) {[1%positive := 0; 2%positive := 0]} []) = Some w ∧
    ffrt_task_attr_get_name (aw_attr w) = "a" ∧ ffrt_task_attr_get_timeout (aw_attr w) = 100000 ∧
    ffrt_task_attr_get_queue_priority (aw_attr w) = 2 ∧ aw_heap w = {[1%positive := 1; 2%positive := 1]}.
Proof.
  destruct (task_attr_last_set 1048576 (Some demo_qos)
    [SetName (Some "a"); SetTimeout 5; SetTimeoutCb (Some 1%positive); NewTask; SetPriority 9; SetTimeoutCb (Some 2%positive)]
    {[1%positive := 0; 2%positive := 0]}) as (w & Hw & Hn & _ & _ & Ht & _ & Hp & _).
  - simpl. repeat constructor; set_solver.
  - intros f Hf. vm_compute in Hf. repeat (apply elem_of_cons in Hf as [-> |Hf]; [reflexivity|]). by apply elem_of_nil in Hf.
  - exists w. split; [done|]. split; [done|]. split; [done|]. split; [done|]. vm_compute in Hw. by simplify_eq.
Defined.

(** Setting the callback that is already set frees its storage and then builds
    an object in it. *)
Lemma timeout_callback_set_twice STACK_SIZE qosMap f h0 :
  h0 !! f = Some 0 →
  attr_run qosMap [SetTimeoutCb (Some f); SetTimeoutCb (Some f)] (mkAttrWorld (task_attr_private_ctor STACK_SIZE) h0 []) = None.
Proof.
  intros Hf. unfold attr_run, attr_apply, ffrt_task_attr_set_timeout_callback, ResetTaskTimeoutCb, cb_dec, cb_new.
  simpl. rewrite Hf. simpl. rewrite lookup_insert_eq. simpl. by rewrite lookup_delete_eq.
Qed.

(** ** Queue attributes *)

#[export] Instance queue_attr_private_eta : Eta queue_attr_private := λ a,
  mk_queue_attr (qa_qos a) (qa_timeout a) (qa_maxConcurrency a) (qa_timeoutCb a) (qa_threadMode a).

Section queue_attr.
Context (GetFuncQosMap : option (Z → Z)).
Implicit Types (a : queue_attr_private).

(** [ffrt_queue_attr_init]. *)
Definition queue_attr_private_ctor : queue_attr_private := mk_queue_attr qos_default 0 1 None false.

Definition ResetTimeoutCb a (h : cb_heap) : option (queue_attr_private * cb_heap) :=
  match qa_timeoutCb a with
  | None => Some (a, h)
  | Some f => h ← cb_dec f h; Some (a <| qa_timeoutCb := None |>, h)
  end.

Definition ffrt_queue_attr_destroy a (h : cb_heap) : option (queue_attr_private * cb_heap) := ResetTimeoutCb a h.

Definition ffrt_queue_attr_set_qos (qos : Z) a : queue_attr_private :=
  match GetFuncQosMap with Some f => a <| qa_qos := f qos |> | None => a end.
Definition ffrt_queue_attr_get_qos a : Z := qa_qos a.

Definition ffrt_queue_attr_set_timeout (timeout_us : Z) a : queue_attr_private :=
  if decide (timeout_us < ONE_THOUSAND) then a <| qa_timeout := ONE_THOUSAND |> else
  let timeout_us := if decide (timeout_us > MAX_TIMEOUT_US_COUNT) then MAX_TIMEOUT_US_COUNT else timeout_us in
  a <| qa_timeout := timeout_us |>.
Definition ffrt_queue_attr_get_timeout a : Z := qa_timeout a.

Definition ffrt_queue_attr_set_callback (f : option callback) a (h : cb_heap) : option (queue_attr_private * cb_heap) :=
  match f with
  | None => Some (a, h)
  | Some f => '(a, h) ← ResetTimeoutCb a h; h ← cb_new f h; Some (a <| qa_timeoutCb := Some f |>, h)
  end.
Definition ffrt_queue_attr_get_callback a : option callback := qa_timeoutCb a.

Definition ffrt_queue_attr_set_max_concurrency (max_concurrency : Z) a : queue_attr_private :=
  if decide (max_concurrency <= 0) then a else a <| qa_maxConcurrency := max_concurrency |>.
Definition ffrt_queue_attr_get_max_concurrency a : Z := qa_maxConcurrency a.

Definition ffrt_queue_attr_set_thread_mode (mode : bool) a : queue_attr_private := a <| qa_threadMode := mode |>.
Definition ffrt_queue_attr_get_thread_mode a : bool := qa_threadMode a.

Inductive queue_attr_call :=
| QSetQos (qos : Z) | QSetTimeout (us : Z) | QSetCallback (f : option callback) | QSetMaxConcurrency (n : Z)
| QSetThreadMode (b : bool).

Definition queue_attr_apply (c : queue_attr_call) (x : queue_attr_private * cb_heap) : option (queue_attr_private * cb_heap) :=
  let '(a, h) := x in
  match c with
  | QSetQos q => Some (ffrt_queue_attr_set_qos q a, h)
  | QSetTimeout t => Some (ffrt_queue_attr_set_timeout t a, h)
  | QSetCallback f => ffrt_queue_attr_set_callback f a h
  | QSetMaxConcurrency n => Some (ffrt_queue_attr_set_max_concurrency n a, h)
  | QSetThreadMode b => Some (ffrt_queue_attr_set_thread_mode b a, h)
  end.

Fixpoint queue_attr_run (cs : list queue_attr_call) (x : queue_attr_private * cb_heap) : option (queue_attr_private * cb_heap) :=
  match cs with [] => Some x | c :: cs => x ← queue_attr_apply c x; queue_attr_run cs x end.

(** The ranges of the attributes, given the range of the QoS map. *)
Definition queue_attr_ok (qos_ok : Z → Prop) a : Prop :=
  qos_ok (qa_qos a) ∧ 1 <= qa_maxConcurrency a ∧
  (qa_timeout a = 0 ∨ ONE_THOUSAND <= qa_timeout a <= MAX_TIMEOUT_US_COUNT).

Lemma queue_attr_apply_ok (qos_ok : Z → Prop) c x x' :
  (∀ f q, GetFuncQosMap = Some f → qos_ok (f q)) →
  queue_attr_apply c x = Some x' → queue_attr_ok qos_ok (fst x) → queue_attr_ok qos_ok (fst x').
Proof.
  intros Hq E (Hqos & Hm & Ht). destruct x as [a h], c as [q|t|f|n|b]; cbn [queue_attr_apply fst] in *; simplify_eq.
  - unfold ffrt_queue_attr_set_qos. destruct GetFuncQosMap eqn:Hg; [|done]. split_and!; [by apply Hq|done..].
  - unfold ffrt_queue_attr_set_timeout, queue_attr_ok in *. repeat case_decide; simpl; split_and!; try done; right;
      unfold ONE_THOUSAND, MAX_TIMEOUT_US_COUNT in *; lia.
  - destruct f as [f|]; simplify_eq/=; [|done]. apply bind_Some in E as ([a1 h1] & Ha & E).
    apply bind_Some in E as (h2 & _ & E). simplify_eq/=. unfold ResetTimeoutCb in Ha.
    destruct (qa_timeoutCb a); simplify_eq/=; [|done]. apply bind_Some in Ha as (h3 & _ & E). by simplify_eq/=.
  - unfold ffrt_queue_attr_set_max_concurrency. case_decide; [done|]. split_and!; simpl; [done|lia|done].
  - done.
Qed.

(** The attributes a queue is built with are in range, whatever calls were
    made on them: a positive concurrency and a timeout of zero (none) or at least
    a millisecond. *)
Lemma queue_attr_ranges (qos_ok : Z → Prop) cs h x :
  (∀ f q, GetFuncQosMap = Some f → qos_ok (f q)) → qos_ok qos_default →
  queue_attr_run cs (queue_attr_private_ctor, h) = Some x → queue_attr_ok qos_ok (fst x).
Proof.
  intros Hq Hd. assert (H0 : queue_attr_ok qos_ok (fst (queue_attr_private_ctor, h))) by (split_and!; simpl; [done|lia|by left]).
  revert H0. generalize (queue_attr_private_ctor, h). induction cs as [|c cs IH]; intros y Hy Hr; simpl in Hr; [by simplify_eq|].
  apply bind_Some in Hr as (z & Hz & Hr). apply (IH z); [|done]. by eapply queue_attr_apply_ok.
Qed.
End queue_attr.

(** ** Creation of a queue *)

Section create.
Context {Q : Type} `{BaseQueueOps Q} `{MonitorOps} (beta : bool).

(** [mk] builds the queue object of a kind. *)
Definition ffrt_queue_create (attr : option queue_attr_private) (type : Z) (mk : QueueKind → Q) (w : World)
    : option (QueueHandler Q) * World :=
  if decide (type = ffrt_queue_max ∨ type < ffrt_queue_serial ∨ type >= ffrt_queue_inner_max) then (None, w) else
  let '(h, w) := QueueHandler_ctor beta attr type (mk <$> CreateQueue type) w in (Some h, w).

(** The handler is usable: it has a queue, its QoS indexes the per-QoS arrays,
    and its vectors have an entry for each of its [maxConcurrency] tasks. *)
Definition handler_wf (type : Z) (h : QueueHandler Q) : Prop :=
  is_Some (qh_queue h) ∧ qh_queueType h = type ∧ qos_index (qh_qos h) ∧ 1 <= qh_maxConcurrency h ∧
  Z.of_nat (length (qh_curTaskVec h)) = qh_maxConcurrency h ∧ Z.of_nat (length (qh_timeoutTaskVec h)) = qh_maxConcurrency h ∧
  (qh_timeout h = 0 ∨ ONE_THOUSAND <= qh_timeout h <= MAX_TIMEOUT_US_COUNT).

Lemma CreateQueue_valid type :
  ¬ (type = ffrt_queue_max ∨ type < ffrt_queue_serial ∨ type >= ffrt_queue_inner_max) → is_Some (CreateQueue type).
Proof.
  unfold ffrt_queue_max, ffrt_queue_serial, ffrt_queue_inner_max. intros Ht.
  assert (type = 0 ∨ type = 1 ∨ type = 3 ∨ type = 4) as [-> |[-> |[-> | ->]]] by lia; by eexists.
Qed.

(** a created queue is well formed.  Whatever calls were made on its
    attributes, and whether or not a QoS map is registered, [ffrt_queue_create]
    rejects exactly the invalid types and otherwise returns a handler that has a
    queue object, a QoS that indexes the per-QoS arrays, a positive concurrency
    with vectors of that length, and a timeout that is zero or in range. *)
Theorem queue_create_well_formed cs h0 a h type mk w (qosMap : option (Z → Z)) :
  (qosMap = None ∨ qosMap = Some QoSMap) →
  queue_attr_run qosMap cs (queue_attr_private_ctor, h0) = Some (a, h) →
  match fst (ffrt_queue_create (Some a) type mk w) with
  | Some qh => (type = 0 ∨ type = 1 ∨ type = 3 ∨ type = 4) ∧ handler_wf type qh
  | None => type < 0 ∨ type = 2 ∨ type > 4
  end.
Proof.
  intros Hmap Hr.
  assert (Ha : queue_attr_ok (λ q, q = qos_inherit ∨ qos_index q) (fst (a, h))).
  { eapply (queue_attr_ranges qosMap); [| |exact Hr].
    - intros f q ->. destruct Hmap; simplify_eq. apply QoSMap_range.
    - right. unfold qos_index, QoS_Min, QoS_Max, qos_background, qos_max, qos_user_interactive, qos_default. lia. }
  destruct Ha as (Hq & Hm & Ht). simpl in Hq, Hm, Ht. unfold ffrt_queue_create.
  destruct (decide _) as [Hd|Hd]; simpl.
  { unfold ffrt_queue_max, ffrt_queue_serial, ffrt_queue_inner_max in Hd. lia. }
  destruct (CreateQueue_valid type Hd) as [k Hk]. rewrite Hk. unfold QueueHandler_ctor. simpl. split.
  { unfold ffrt_queue_max, ffrt_queue_serial, ffrt_queue_inner_max in Hd. lia. }
  unfold handler_wf. simpl. rewrite !length_replicate. split_and!; try done; try lia.
  destruct (decide (qa_qos a >= qos_background)) as [Hb|Hb].
  - destruct Hq as [Hq|Hq]; [rewrite Hq in Hb; unfold qos_inherit, qos_background in Hb; lia|done].
  - unfold qos_index, QoS_Min, QoS_Max, qos_background, qos_max, qos_user_interactive, qos_default. lia.
Qed.
End create.

Definition demo_monitor : MonitorOps := {| RegisterQueue := id; DeregisterQueue := id; UpdateQueueInfo := id |}.

Definition demo_create (type : Z) : option (QueueHandler SerialQueue) :=
  match queue_attr_run (Some QoSMap) [QSetQos 9; QSetMaxConcurrency 4; QSetMaxConcurrency 0; QSetTimeout 5] (queue_attr_private_ctor, ∅) with
  | Some (a, _) => fst (@ffrt_queue_create _ demo_monitor false (Some a) type (λ _, SerialQueue_ctor 0 None) sample_world)
  | None => None
  end.

Lemma queue_create_well_formed_witness :
  (∃ qh, demo_create 1 = Some qh ∧ qh_maxConcurrency qh = 4 ∧ qh_timeout qh = 1000 ∧ handler_wf 1 qh) ∧ demo_create 2 = None.
Proof.
  split; [|reflexivity].
  destruct (queue_attr_run (Some QoSMap) [QSetQos 9; QSetMaxConcurrency 4; QSetMaxConcurrency 0; QSetTimeout 5]
    (queue_attr_private_ctor, ∅)) as [[a h]|] eqn:E; [|vm_compute in E; discriminate].
  pose proof (@queue_create_well_formed _ demo_monitor false _ _ a h 1 (λ _, SerialQueue_ctor 0 None) sample_world _
    (or_intror eq_refl) E) as H.
  destruct (demo_create 1) as [qh|] eqn:Hd; [|vm_compute in Hd; discriminate]. exists qh. split; [reflexivity|].
  unfold demo_create in Hd. rewrite E in Hd. rewrite Hd in H. split_and!; [| |apply H];
    vm_compute in E; injection E as <- _; vm_compute in Hd; by injection Hd as <-.
Defined.

(** ** Splitting the iterations of submit_apply *)

Definition UINT16_MAX : Z := 65535.

Definition repeatCnt (iterations concur i : Z) : Z :=
  let roughCnt := iterations / concur in
  let splitCnt := concur - iterations mod concur in
  roughCnt + (if decide (i >= splitCnt) then 1 else 0).

(** One round of the loop: the task it submits, if any. *)
Definition apply_task (iterations concur i : Z) : option (Z * bool) :=
  let n := repeatCnt iterations concur i in
  if decide (n = 0) then None else Some (n, bool_decide (i = concur - 1)).

(** The tasks [submit_apply] submits: how often each calls the function, and
    whether it has a handle.  [None] when the input is rejected. *)
Definition submit_apply (iterations concur : Z) : option (list (Z * bool)) :=
  if decide (iterations = 0) then None else
  if decide (iterations > UINT16_MAX) then None else
  Some (omap (apply_task iterations concur) (seqZ 0 concur)).

Section split.
Context (iterations concur : Z) (Hi : 0 < iterations) (Hc : 0 < concur).

#[local] Abbreviation entry := (apply_task iterations concur).
#[local] Abbreviation q := (iterations / concur).
#[local] Abbreviation r := (iterations mod concur).

Lemma iterations_split : iterations = concur * q + r ∧ 0 <= q ∧ 0 <= r < concur.
Proof using Hi Hc. pose proof (Z.div_mod iterations concur). pose proof (Z.mod_pos_bound iterations concur Hc). split; [lia|]. split; [apply Z.div_pos; lia|lia]. Qed.

Lemma omap_seqZ_S {A} (f : Z → option A) (n : nat) :
  omap f (seqZ 0 (Z.of_nat (S n))) = omap f (seqZ 0 (Z.of_nat n)) ++ option_list (f (Z.of_nat n)).
Proof. rewrite seqZ_S, omap_app. simpl. rewrite Z.add_0_l. by destruct (f (Z.of_nat n)). Qed.

Lemma entry_facts (n : nat) :
  let v := repeatCnt iterations concur (Z.of_nat n) in
  0 <= v → let e := option_list (entry (Z.of_nat n)) in
  wsum fst e = v ∧ Z.of_nat (length e) = (if decide (v = 0) then 0 else 1) ∧
  Forall (λ x : Z * bool, x.1 = v ∧ 1 <= v) e ∧ (Z.of_nat n < concur - 1 → Forall (λ x : Z * bool, x.2 = false) e).
Proof.
  unfold apply_task. cbv beta zeta. generalize (repeatCnt iterations concur (Z.of_nat n)). intros v Hv. destruct (decide (v = 0)) as [Hz|Hz].
  - split; [symmetry; exact Hz|]. split; [done|]. split; [constructor|]. intros _. constructor.
  - cbn. split_and!; [lia|done|repeat constructor; simpl; lia|]. intros Hn. repeat constructor. simpl.
    rewrite bool_decide_eq_false_2 by lia. done.
Qed.

Lemma submit_prefix (n : nat) :
  Z.of_nat n <= concur →
  let l := omap entry (seqZ 0 (Z.of_nat n)) in
  let m := Z.max 0 (Z.of_nat n - (concur - r)) in
  wsum fst l = q * Z.of_nat n + m ∧
  Z.of_nat (length l) = (if decide (q = 0) then m else Z.of_nat n) ∧
  Forall (λ x : Z * bool, q <= x.1 <= q + 1 ∧ 1 <= x.1) l ∧
  (Z.of_nat n < concur → Forall (λ x : Z * bool, x.2 = false) l).
Proof using Hi Hc.
  pose proof iterations_split as (_ & Hq & Hr). induction n as [|n IH]; intros Hn l m.
  { unfold l, m. change (seqZ 0 (Z.of_nat 0)) with (@nil Z). cbn [omap list_omap wsum foldr length]. split_and!; [lia|case_decide; lia|done|done]. }
  destruct IH as (Hs & Hl & Hv & Hf); [lia|]. unfold l, m. clear l m. rewrite omap_seqZ_S, wsum_app, length_app.
  set (v := repeatCnt iterations concur (Z.of_nat n)).
  assert (Hvq : v = q + (if decide (Z.of_nat n >= concur - r) then 1 else 0)) by done.
  destruct (entry_facts n) as (E1 & E2 & E3 & E4); [fold v; rewrite Hvq; case_decide; lia|]. fold v in E1, E2, E3.
  split; [rewrite Hs, E1, Hvq, Nat2Z.inj_succ, Z.mul_succ_r; destruct (decide (Z.of_nat n >= _)); lia|]. split; [|split].
  - rewrite Nat2Z.inj_add, Hl, E2, Hvq. destruct (decide (q = 0)), (decide (Z.of_nat n >= _)), (decide (q + _ = 0)); lia.
  - apply Forall_app. split; [done|]. eapply Forall_impl; [exact E3|]. intros x [-> ?]. rewrite Hvq in *. destruct (decide (Z.of_nat n >= _)); lia.
  - intros Hlt. apply Forall_app. split; [apply Hf; lia|apply E4; lia].
Qed.
End split.

(** [submit_apply] calls the function exactly [iterations] times.  The
    repeat counts of the tasks it submits add up to [iterations] and differ by at
    most one, it submits as many tasks as there are iterations, but no more than
    the concurrency of the queue, and exactly the last one, on which the caller
    waits, has a handle. *)
Theorem submit_apply_exact iterations concur :
  0 < iterations <= UINT16_MAX → 1 <= concur →
  ∃ l n, submit_apply iterations concur = Some (l ++ [(n, true)]) ∧
    wsum fst l + n = iterations ∧ Z.of_nat (length l) + 1 = Z.min iterations concur ∧
    Forall (λ x : Z * bool, x.2 = false) l ∧
    Forall (λ x, iterations / concur <= x <= iterations / concur + 1 ∧ 1 <= x) (l.*1 ++ [n]).
Proof.
  intros [Hi Hm] Hc. unfold submit_apply. rewrite decide_False, decide_False by lia.
  destruct (iterations_split iterations concur) as (Hs & Hq & Hr); [lia..|].
  replace (seqZ 0 concur) with (seqZ 0 (Z.of_nat (S (Z.to_nat (concur - 1))))) by (f_equal; lia). rewrite omap_seqZ_S.
  set (n := Z.to_nat (concur - 1)). assert (Hn : Z.of_nat n = concur - 1) by lia.
  destruct (submit_prefix iterations concur ltac:(lia) ltac:(lia) n ltac:(lia)) as (Hz & Hl & Hv & Hf).
  assert (Hz0 : iterations / concur = 0 → iterations mod concur = iterations) by (intros E; rewrite E in Hs; lia).
  assert (Hp' : repeatCnt iterations concur (Z.of_nat n) = iterations / concur + (if decide (Z.of_nat n >= concur - iterations mod concur) then 1 else 0)) by done.
  assert (Hp : 1 <= repeatCnt iterations concur (Z.of_nat n)) by (rewrite Hp'; destruct (decide (Z.of_nat n >= _)); lia).
  eexists _, (repeatCnt iterations concur (Z.of_nat n)). split; [|split; [|split; [|split]]].
  - unfold apply_task at 2. rewrite decide_False, bool_decide_eq_true_2 by lia. done.
  - rewrite Hz, Hp', Hn, Z.mul_sub_distr_l, Z.mul_1_r. rewrite (Z.mul_comm concur) in Hs. destruct (decide (concur - 1 >= _)); lia.
  - rewrite Hl. destruct (decide (iterations / concur = 0)); [lia|]. nia.
  - apply Hf. lia.
  - apply Forall_app. split; [by apply Forall_fmap|]. repeat constructor; rewrite ?Hp' in *; destruct (decide (_ >= _)); lia.
Qed.

Lemma submit_apply_exact_witness :
  submit_apply 7 3 = Some [(2, false); (2, false); (3, true)] ∧
  ∃ l n, submit_apply 7 3 = Some (l ++ [(n, true)]) ∧ wsum fst l + n = 7 ∧ Z.of_nat (length l) + 1 = 3.
Proof.
  split; [reflexivity|]. destruct (submit_apply_exact 7 3) as (l & n & H1 & H2 & H3 & _); [unfold UINT16_MAX; lia|lia|].
  exists l, n. split_and!; [exact H1|exact H2|exact H3].
Defined.
