(* ===== verification/Mutex.v ===== *)
(** * Mutexes

    Models src/sync/mutex.cpp and src/sync/mutex_private.h: [mutexPrivate], the
    three-valued lock word with a wait list behind a short lock, and
    [RecursiveMutexPrivate] on top of it.  Each access to the lock word and each
    acquisition of [wlock] is one atomic action; between them any other thread
    may run, so that every interleaving of the source is an execution of
    [mutex_step].  A waiter is pushed and falls asleep in one action: both the
    thread (which holds [wn.wl] from before [wlock] is released until [cv.wait]
    releases it) and the coroutine (which is switched out before the list is
    touched) can be notified from the moment they are in the list.  [cv.wait] may
    return without a notification where the parameter [spurious] of [mutex_step]
    allows it.  The wait list is the intrusive list of LinkedList.v: its head is a
    member of the mutex, the nodes are in the entries of the threads. *)

From S2P Require Import Prelude Types LinkedList.

(** ** State *)

Abbreviation thread := positive.

Definition UNLOCK : Z := 0.
Definition LOCK : Z := 1.
Definition WAIT : Z := 2.

Record mutexPrivate := mk_mutexPrivate {
  m_l : Z;                   (* std::atomic<int> l *)
  m_wlock : option thread;   (* the holder of wlock *)
  m_heap : heap;             (* the nodes of list and of the wait entries *)
}.

#[export] Instance mutexPrivate_eta : Eta mutexPrivate := λ m,
  mk_mutexPrivate (m_l m) (m_wlock m) (m_heap m).

(** The addresses of [list] and of the node in the entry of a thread. *)
Definition list_node : addr := 1%positive.
Definition wn_node (i : thread) : addr := Pos.succ i.

(** [ExecuteCtx::Cur()] constructs the entry of a thread when it is first used. *)
Definition ExecuteCtx_Cur (i : thread) (h : heap) : heap :=
  match h !! wn_node i with Some _ => h | None => LinkedList_ctor (wn_node i) h end.

Definition mutexPrivate_ctor : mutexPrivate := mk_mutexPrivate UNLOCK None (LinkedList_ctor list_node ∅).

(** Where a thread is in [lock], [wait], [unlock] or [wake]. *)
Inductive mutex_pc :=
| Idle          (* outside the mutex *)
| AtLoad        (* lock: l.load() == WAIT? *)
| AtExchange    (* lock: the loop condition l.exchange(WAIT) *)
| AtWaitLock    (* wait: wlock.lock() *)
| AtWaitCheck   (* wait: l.load() != WAIT? *)
| AtWaitPush    (* wait: list.PushBack *)
| Sleeping      (* wait: cv.wait or switched out *)
| Holding       (* lock returned *)
| AtWakeLock    (* wake: wlock.lock() *)
| AtWakePop     (* wake: list.PopFront *).

#[export] Instance mutex_pc_eq_dec : EqDecision mutex_pc.
Proof. solve_decision. Defined.
#[export] Instance mutex_pc_inhabited : Inhabited mutex_pc := populate Idle.

(** ** Operations *)

Implicit Types (m : mutexPrivate) (i j : thread).

Definition mutex_try_lock m : bool * mutexPrivate :=
  if decide (m_l m = UNLOCK) then (true, m <| m_l := LOCK |>) else (false, m).

(** [lock] up to its first decision. *)
Definition mutex_lock m : mutexPrivate * mutex_pc :=
  if decide (m_l m = UNLOCK) then (m <| m_l := LOCK |>, Holding) else (m, AtLoad).

(** [lock_slow], the tail of [lock]: a load, then exchanges until the lock was free. *)
Definition lock_slow_load m : mutex_pc :=
  if decide (m_l m = WAIT) then AtWaitLock else AtExchange.

Definition lock_slow_exchange m : mutexPrivate * mutex_pc :=
  let old := m_l m in
  let m := m <| m_l := WAIT |> in
  if decide (old = UNLOCK) then (m, Holding) else (m, AtWaitLock).

(** [wait] *)
Definition wlock_lock i m : option mutexPrivate :=
  match m_wlock m with None => Some (m <| m_wlock := Some i |>) | Some _ => None end.

Definition wait_check m : mutexPrivate * mutex_pc :=
  if decide (m_l m ≠ WAIT) then (m <| m_wlock := None |>, AtExchange) else (m, AtWaitPush).

Definition wait_push i m : option (mutexPrivate * mutex_pc) :=
  h ← PushBack list_node (wn_node i) (ExecuteCtx_Cur i (m_heap m));
  Some (m <| m_heap := h |> <| m_wlock := None |>, Sleeping).

Definition mutex_unlock m : mutexPrivate * mutex_pc :=
  let old := m_l m in
  (m <| m_l := UNLOCK |>, if decide (old = WAIT) then AtWakeLock else Idle).

(** [wake] under [wlock]: the waiter it notifies, if any. *)
Definition wake_pop m : option (mutexPrivate * option thread) :=
  match Empty list_node (m_heap m) with
  | Some true => Some (m <| m_wlock := None |>, None)
  | Some false =>
      '(we, h) ← PopFront list_node (m_heap m);
      Some (m <| m_heap := h |> <| m_wlock := None |>, option_map Pos.pred we)
  | None => None
  end.

(** The next atomic action of a thread inside an operation: the mutex and the
    thread's new position, and the waiter it wakes; [None] when it cannot run, or
    would follow a null or dangling pointer. *)
Definition thread_step i m (p : mutex_pc) : option (mutexPrivate * mutex_pc * option thread) :=
  match p with
  | Idle | Sleeping | Holding => None
  | AtLoad => Some (m, lock_slow_load m, None)
  | AtExchange => let '(m, p) := lock_slow_exchange m in Some (m, p, None)
  | AtWaitLock => m ← wlock_lock i m; Some (m, AtWaitCheck, None)
  | AtWaitCheck => let '(m, p) := wait_check m in Some (m, p, None)
  | AtWaitPush => '(m, p) ← wait_push i m; Some (m, p, None)
  | AtWakeLock => m ← wlock_lock i m; Some (m, AtWakePop, None)
  | AtWakePop => '(m, w) ← wake_pop m; Some (m, Idle, w)
  end.

(** ** Interleavings *)

Record mutex_sys := mk_mutex_sys { ms_m : mutexPrivate; ms_pcs : gmap thread mutex_pc }.

Definition mutex_init : mutex_sys := mk_mutex_sys mutexPrivate_ctor ∅.

Definition pc_of (s : mutex_sys) i : mutex_pc := ms_pcs s !!! i.

(** A woken waiter goes back to the loop condition of [lock]; the notification of a
    thread that does not sleep has no effect. *)
Definition wake_pc (w : option thread) (ps : gmap thread mutex_pc) : gmap thread mutex_pc :=
  match w with Some j => if decide (ps !!! j = Sleeping) then <[j := AtExchange]> ps else ps | None => ps end.

Inductive lock_event := Acquire (i : thread) | Release (i : thread).

Definition acquire_event i (p : mutex_pc) : list lock_event :=
  if decide (p = Holding) then [Acquire i] else [].

(** [spurious]: whether [cv.wait] may return without a notification. *)
Inductive mutex_step (spurious : bool) : mutex_sys → list lock_event → mutex_sys → Prop :=
| step_try_lock m ps i m' b :
    ps !!! i = Idle → mutex_try_lock m = (b, m') →
    mutex_step spurious (mk_mutex_sys m ps) (if b then [Acquire i] else [])
      (mk_mutex_sys m' (<[i := if (b : bool) then Holding else Idle]> ps))
| step_lock m ps i m' p :
    ps !!! i = Idle → mutex_lock m = (m', p) →
    mutex_step spurious (mk_mutex_sys m ps) (acquire_event i p) (mk_mutex_sys m' (<[i := p]> ps))
| step_lock_wait m ps i :
    ps !!! i = Idle →
    mutex_step spurious (mk_mutex_sys m ps) [] (mk_mutex_sys m (<[i := AtLoad]> ps))
| step_unlock m ps i m' p :
    ps !!! i = Holding → mutex_unlock m = (m', p) →
    mutex_step spurious (mk_mutex_sys m ps) [Release i] (mk_mutex_sys m' (<[i := p]> ps))
| step_inside m ps i m' p w :
    thread_step i m (ps !!! i) = Some (m', p, w) →
    mutex_step spurious (mk_mutex_sys m ps) (acquire_event i p) (mk_mutex_sys m' (wake_pc w (<[i := p]> ps)))
| step_spurious m ps i :
    spurious = true → ps !!! i = Sleeping →
    mutex_step spurious (mk_mutex_sys m ps) [] (mk_mutex_sys m (<[i := AtExchange]> ps)).

Inductive mutex_exec (spurious : bool) : mutex_sys → list lock_event → mutex_sys → Prop :=
| exec_nil s : mutex_exec spurious s [] s
| exec_snoc s tr s' ev s'' :
    mutex_exec spurious s tr s' → mutex_step spurious s' ev s'' → mutex_exec spurious s (tr ++ ev) s''.

(** The specification: a lock is free or held by one thread, which releases it. *)
Fixpoint lock_run (a : option thread) (tr : list lock_event) : option (option thread) :=
  match tr with
  | [] => Some a
  | Acquire i :: tr => match a with None => lock_run (Some i) tr | Some _ => None end
  | Release i :: tr => if decide (a = Some i) then lock_run None tr else None
  end.

(** ** Invariant *)

(** Positions inside the critical section of [wlock]. *)
Definition in_wlock (p : mutex_pc) : bool :=
  match p with AtWaitCheck | AtWaitPush | AtWakePop => true | _ => false end.

(** Positions from which a thread is bound to wake a waiter or to mark the lock
    word as contended. *)
Definition attending (p : mutex_pc) : bool :=
  match p with AtExchange | AtWakeLock | AtWakePop => true | _ => false end.

(** The lock word and [wlock]: [a] is the thread that holds the mutex. *)
Record lock_inv (s : mutex_sys) (a : option thread) : Prop := {
  mi_hold i : pc_of s i = Holding ↔ a = Some i;
  mi_free : m_l (ms_m s) = UNLOCK ↔ a = None;
  mi_wlock i : in_wlock (pc_of s i) = true ↔ m_wlock (ms_m s) = Some i;
}.

(** The wait list: [xs] are the threads in it. *)
Record wait_inv (s : mutex_sys) (xs : list thread) : Prop := {
  mi_dll : dll (m_heap (ms_m s)) list_node (wn_node <$> xs);
  mi_list i : i ∈ xs ↔ pc_of s i = Sleeping;
  mi_attended i : pc_of s i = Sleeping ∨ pc_of s i = AtWaitPush →
    m_l (ms_m s) = WAIT ∨ ∃ j, attending (pc_of s j) = true;
}.

Lemma lock_inv_init : lock_inv mutex_init None.
Proof. split; unfold pc_of; simpl; naive_solver. Qed.

Lemma wait_inv_init : wait_inv mutex_init [].
Proof.
  split; unfold pc_of; simpl; [|set_solver|naive_solver]. split; [apply NoDup_singleton|].
  unfold nxt, prv, LinkedList_ctor. simpl. by simplify_map_eq.
Qed.

(** Position of a thread after one thread moved. *)
Lemma pc_insert (ps : gmap thread mutex_pc) i p k :
  <[i := p]> ps !!! k = if decide (k = i) then p else ps !!! k.
Proof.
  case_decide; subst; [by rewrite lookup_total_insert_eq|by rewrite lookup_total_insert_ne].
Qed.

(** One thread moves: what it has to establish for itself and keep for the others. *)
Lemma lock_inv_move m ps i m' p a a' :
  lock_inv (mk_mutex_sys m ps) a →
  (p = Holding ↔ a' = Some i) → (∀ k, k ≠ i → a' = Some k ↔ a = Some k) →
  (m_l m' = UNLOCK ↔ a' = None) →
  (in_wlock p = true ↔ m_wlock m' = Some i) → (∀ k, k ≠ i → m_wlock m' = Some k ↔ m_wlock m = Some k) →
  lock_inv (mk_mutex_sys m' (<[i := p]> ps)) a'.
Proof.
  intros [Hh Hf Hw] Hh1 Hh2 Hf' Hw1 Hw2. unfold pc_of in *; simpl in *. split; unfold pc_of; simpl; [|done|].
  - intros k. rewrite pc_insert. case_decide; [by subst|]. rewrite Hh2 by done. apply Hh.
  - intros k. rewrite pc_insert. case_decide; [by subst|]. rewrite Hw2 by done. apply Hw.
Qed.

(** Why a sleeper is still attended after thread [i] moved to [p]. *)
Definition attended_after m (ps : gmap thread mutex_pc) i m' (p : mutex_pc) : Prop :=
  m_l m' = WAIT ∨ attending p = true ∨ (∃ j, i ≠ j ∧ attending (ps !!! j) = true) ∨
  (m_l m ≠ WAIT ∧ attending (ps !!! i) = false ∧
   (p = Sleeping ∨ p = AtWaitPush → ps !!! i = Sleeping ∨ ps !!! i = AtWaitPush)) ∨
  (∀ k, ¬ (<[i := p]> ps !!! k = Sleeping ∨ <[i := p]> ps !!! k = AtWaitPush)).

Lemma wait_inv_move m ps i m' p xs xs' :
  wait_inv (mk_mutex_sys m ps) xs →
  dll (m_heap m') list_node (wn_node <$> xs') →
  (i ∈ xs' ↔ p = Sleeping) → (∀ k, k ≠ i → k ∈ xs' ↔ k ∈ xs) →
  attended_after m ps i m' p →
  wait_inv (mk_mutex_sys m' (<[i := p]> ps)) xs'.
Proof.
  intros [Hd Hl Ha] Hd' Hl1 Hl2 Hatt. unfold pc_of in *; simpl in *. split; unfold pc_of; simpl; [done|..].
  - intros k. rewrite pc_insert. case_decide; [by subst|]. rewrite Hl2 by done. apply Hl.
  - intros k. rewrite pc_insert. intros Hk. destruct Hatt as [?|[Hp|[(j & Hj & Hp)|[(H1 & H2 & H3)|H1]]]].
    + by left.
    + right. exists i. by rewrite lookup_total_insert_eq.
    + right. exists j. by rewrite lookup_total_insert_ne.
    + destruct (Ha (if decide (k = i) then i else k)) as [HW|[j Hj]]; [case_decide; tauto|done|].
      right. exists j. rewrite lookup_total_insert_ne; [done|]. intros <-. congruence.
    + destruct (H1 k). by rewrite pc_insert.
Qed.

(** A move of a thread that does not sleep and does not go to sleep. *)
Lemma wait_inv_pass m ps i m' p xs :
  wait_inv (mk_mutex_sys m ps) xs → m_heap m' = m_heap m →
  ps !!! i ≠ Sleeping → p ≠ Sleeping → attended_after m ps i m' p →
  wait_inv (mk_mutex_sys m' (<[i := p]> ps)) xs.
Proof.
  intros Hinv Hh Hi Hp Hatt. eapply wait_inv_move; [exact Hinv|rewrite Hh; apply (mi_dll _ _ Hinv)| |done|exact Hatt].
  pose proof (mi_list _ _ Hinv i) as Hl. unfold pc_of in Hl. simpl in Hl. tauto.
Qed.

(** Nothing has happened that concerns the sleepers. *)
Lemma attended_keep m ps i m' p :
  m_l m' = m_l m → attending (ps !!! i) = false → (p ≠ Sleeping ∧ p ≠ AtWaitPush) → attended_after m ps i m' p.
Proof.
  intros E Hi [H1 H2]. unfold attended_after. destruct (decide (m_l m = WAIT)) as [HW|HW]; [left; congruence|].
  do 3 right; left. split_and!; [done|done|by intros [|]].
Qed.

(** The parts of the invariant that concern the moving thread [i]. *)
Ltac lock_of i Hinv Hi :=
  let Hh := fresh "Hh" in let Hf := fresh "Hf" in let Hw := fresh "Hw" in
  pose proof Hinv as [Hh Hf Hw]; unfold pc_of in *; simpl in *;
  specialize (Hh i); specialize (Hw i); rewrite Hi in *; simpl in *.

Ltac move_lock := eapply lock_inv_move; simpl; [done|naive_solver..].

(** ** The lock *)

Lemma lock_inv_wake m ps w a :
  lock_inv (mk_mutex_sys m ps) a → lock_inv (mk_mutex_sys m (wake_pc w ps)) a.
Proof.
  intros Hinv. destruct w as [j|]; simpl; [|done]. case_decide as Hj; [|done]. lock_of j Hinv Hj. move_lock.
Qed.

(** The thread that holds [wlock]. *)
Lemma wlock_lock_Some i m m' : wlock_lock i m = Some m' → m_wlock m = None ∧ m' = m <| m_wlock := Some i |>.
Proof. unfold wlock_lock. destruct (m_wlock m); naive_solver. Qed.

Lemma wait_push_Some i m m' p :
  wait_push i m = Some (m', p) → m_l m' = m_l m ∧ m_wlock m' = None ∧ p = Sleeping ∧
  PushBack list_node (wn_node i) (ExecuteCtx_Cur i (m_heap m)) = Some (m_heap m').
Proof. unfold wait_push. intros (h & E & [= <- <-])%bind_Some. done. Qed.

Lemma wake_pop_Some m m' w : wake_pop m = Some (m', w) → m_l m' = m_l m ∧ m_wlock m' = None.
Proof.
  unfold wake_pop. destruct (Empty _ _) as [[]|]; [by intros [= <- <-]| |done].
  by intros ([we h] & _ & [= <- <-])%bind_Some.
Qed.

Lemma lock_inv_inside m ps i m' p w a :
  lock_inv (mk_mutex_sys m ps) a → thread_step i m (ps !!! i) = Some (m', p, w) →
  ∃ a', lock_inv (mk_mutex_sys m' (<[i := p]> ps)) a' ∧ lock_run a (acquire_event i p) = Some a'.
Proof.
  intros Hinv E. destruct (ps !!! i) eqn:Hi; simpl in E; simplify_eq; lock_of i Hinv Hi.
  - exists a. unfold lock_slow_load, acquire_event. case_decide as HW; (split; [|done]); move_lock.
  - unfold lock_slow_exchange in E. case_decide as HU; simplify_eq; unfold acquire_event; simpl.
    + assert (a = None) as -> by tauto. exists (Some i). split; [|done]. move_lock.
    + exists a. split; [|done]. move_lock.
  - apply bind_Some in E as (m1 & [Hw1 ->]%wlock_lock_Some & [= <- <- <-]). exists a. split; [|done]. move_lock.
  - exists a. unfold wait_check in E. case_decide as HW; simplify_eq; (split; [|done]); simpl; move_lock.
  - apply bind_Some in E as ([m1 p1] & (E1 & E2 & -> & _)%wait_push_Some & [= <- <- <-]).
    exists a. split; [|done]. eapply lock_inv_move; [exact Hinv|..]; simpl; rewrite ?E1, ?E2; naive_solver.
  - apply bind_Some in E as (m1 & [Hw1 ->]%wlock_lock_Some & [= <- <- <-]). exists a. split; [|done]. move_lock.
  - apply bind_Some in E as ([m1 w1] & (E1 & E2)%wake_pop_Some & [= <- <- <-]).
    exists a. split; [|done]. eapply lock_inv_move; [exact Hinv|..]; simpl; rewrite ?E1, ?E2; naive_solver.
Qed.

Lemma lock_inv_step sp s ev s' a :
  lock_inv s a → mutex_step sp s ev s' → ∃ a', lock_inv s' a' ∧ lock_run a ev = Some a'.
Proof.
  intros Hinv Hstep. destruct Hstep as [m ps i m' b Hi E|m ps i m' p Hi E|m ps i Hi|m ps i m' p Hi E|m ps i m' p w E|m ps i Hsp Hi].
  - lock_of i Hinv Hi. unfold mutex_try_lock in E. case_decide as Hu; simplify_eq; simpl.
    + assert (a = None) as -> by tauto. exists (Some i). split; [|done]. move_lock.
    + exists a. split; [|done]. move_lock.
  - lock_of i Hinv Hi. unfold mutex_lock in E. unfold acquire_event. case_decide as Hu; simplify_eq; simpl.
    + assert (a = None) as -> by tauto. exists (Some i). split; [|done]. move_lock.
    + exists a. split; [|done]. move_lock.
  - lock_of i Hinv Hi. exists a. split; [|done]. move_lock.
  - lock_of i Hinv Hi. unfold mutex_unlock in E. simplify_eq. assert (a = Some i) as -> by tauto.
    exists None. split; [|simpl; by rewrite decide_True]. case_decide; move_lock.
  - destruct (lock_inv_inside _ _ _ _ _ _ _ Hinv E) as (a' & H1 & H2). exists a'. split; [by apply lock_inv_wake|done].
  - lock_of i Hinv Hi. exists a. split; [|done]. move_lock.
Qed.

Lemma lock_run_app a tr1 tr2 : lock_run a (tr1 ++ tr2) = lock_run a tr1 ≫= λ a', lock_run a' tr2.
Proof.
  revert a. induction tr1 as [|[i|i] tr1 IH]; intros a; simpl; [done| |].
  - destruct a; [done|apply IH].
  - case_decide; [apply IH|done].
Qed.

Lemma lock_inv_exec sp tr s :
  mutex_exec sp mutex_init tr s → ∃ a, lock_inv s a ∧ lock_run None tr = Some a.
Proof.
  intros H. remember mutex_init as s0 eqn:E0. induction H as [|s tr s' ev s'' _ IH Hstep]; subst.
  - exists None. split; [apply lock_inv_init|done].
  - destruct IH as (a & Hinv & Hrun); [done|].
    destruct (lock_inv_step _ _ _ _ _ Hinv Hstep) as (a' & Hinv' & Hrun').
    exists a'. split; [done|]. by rewrite lock_run_app, Hrun.
Qed.

(** ** The sleepers *)

Lemma wlock_exclusive m ps a i k :
  lock_inv (mk_mutex_sys m ps) a → in_wlock (ps !!! i) = true → in_wlock (ps !!! k) = true → k = i.
Proof. intros [_ _ Hw] Hi Hk. apply Hw in Hi, Hk. simpl in *. congruence. Qed.

#[local] Instance wn_node_inj : Inj (=) (=) wn_node.
Proof. intros x y. apply Pos.succ_inj. Qed.

Lemma wn_node_elem i (xs : list thread) : wn_node i ∈ wn_node <$> xs ↔ i ∈ xs.
Proof. apply list_elem_of_fmap_inj, _. Qed.

Lemma wn_node_ne i : wn_node i ≠ list_node.
Proof. unfold wn_node, list_node. apply Pos.succ_not_1. Qed.

(** The entry of a thread is there, and the list is as it was. *)
Lemma ExecuteCtx_Cur_spec i h l xs : dll h l xs → dll (ExecuteCtx_Cur i h) l xs ∧ alloc (ExecuteCtx_Cur i h) (wn_node i).
Proof.
  intros Hd. unfold ExecuteCtx_Cur, alloc. destruct (h !! wn_node i) as [n|] eqn:E; [split; [done|by rewrite E]|].
  unfold LinkedList_ctor. rewrite lookup_insert_eq. split; [|by eexists]. destruct Hd as [Hn Hc]. split; [done|].
  assert (∀ a, a ∈ l :: xs → a ≠ wn_node i) as Hne.
  { intros a Ha ->. destruct (dll_alloc h l xs _ (conj Hn Hc) Ha) as [? ?]. congruence. }
  apply (chain_frame h _ (l :: xs)); [done| |]; intros a Ha; unfold nxt, prv; rewrite lookup_insert_ne; try done.
  - intros <-. by apply (Hne _ Ha).
  - simpl in Ha. intros <-. apply (Hne (wn_node i)); [|done]. set_solver.
Qed.

Lemma wait_inv_push m ps i m' p xs a :
  lock_inv (mk_mutex_sys m ps) a → wait_inv (mk_mutex_sys m ps) xs → ps !!! i = AtWaitPush →
  wait_push i m = Some (m', p) → wait_inv (mk_mutex_sys m' (<[i := p]> ps)) (xs ++ [i]).
Proof.
  intros Hlk Hinv Hi (E1 & _ & -> & HP)%wait_push_Some.
  assert (i ∉ xs) as Hni. { intros Hx%(mi_list _ _ Hinv). unfold pc_of in Hx. simpl in Hx. congruence. }
  destruct (ExecuteCtx_Cur_spec i _ _ _ (mi_dll _ _ Hinv)) as [Hd Ha].
  destruct (PushBack_spec _ _ _ _ Hd Ha) as (h' & HP' & Hd' & _).
  { intros [?|Hx]%elem_of_cons; [by apply (wn_node_ne i)|by apply Hni, wn_node_elem]. }
  simpl in *. rewrite HP in HP'. injection HP' as <-.
  eapply wait_inv_move; [exact Hinv|by rewrite fmap_app|set_solver|set_solver|].
  destruct (mi_attended _ _ Hinv i) as [HW|(j & Hj)]; [by right|left; simpl in *; congruence|].
  do 2 right; left. exists j. split; [|done]. intros <-. unfold pc_of in Hj. simpl in Hj. by rewrite Hi in Hj.
Qed.

Lemma wait_inv_pop m ps i m' w xs a :
  lock_inv (mk_mutex_sys m ps) a → wait_inv (mk_mutex_sys m ps) xs → ps !!! i = AtWakePop →
  wake_pop m = Some (m', w) → ∃ xs', wait_inv (mk_mutex_sys m' (wake_pc w (<[i := Idle]> ps))) xs'.
Proof.
  intros Hlk Hinv Hi HP. unfold wake_pop in HP. pose proof (mi_dll _ _ Hinv) as Hd. simpl in Hd.
  rewrite (Empty_spec _ _ _ Hd) in HP. simpl in HP. destruct xs as [|j xs]; simpl in HP.
  - injection HP as <- <-. exists []. simpl. eapply wait_inv_pass; [exact Hinv|done|by rewrite Hi|done|].
    do 4 right. intros k. rewrite pc_insert. case_decide; [naive_solver|]. intros [Hk|Hk].
    + assert (k ∈ @nil thread) as []%elem_of_nil by (by apply (mi_list _ _ Hinv)).
    + assert (k = i); [|done]. eapply wlock_exclusive; [exact Hlk|by rewrite Hi|by rewrite Hk].
  - rewrite fmap_cons in Hd. destruct (PopFront_spec _ _ _ _ Hd) as (h' & EP & Hd' & _). rewrite EP in HP. simpl in HP. injection HP as <- <-.
    unfold wn_node. rewrite Pos.pred_succ. exists xs.
    assert (Hj : ps !!! j = Sleeping) by (by apply (mi_list _ _ Hinv); left).
    assert (Hne : i ≠ j) by (intros ->; congruence).
    assert (j ∉ xs) as Hjx. { rewrite <-wn_node_elem. destruct Hd as [Hn _]. by apply NoDup_cons in Hn as [_ [? _]%NoDup_cons]. }
    simpl. rewrite decide_True by (by rewrite lookup_total_insert_ne). rewrite insert_insert_ne by done.
    assert (Hinv1 : wait_inv (mk_mutex_sys (m <| m_heap := h' |>) (<[j := AtExchange]> ps)) xs).
    { eapply wait_inv_move; [exact Hinv|done|naive_solver|set_solver|by right; left]. }
    eapply wait_inv_pass; [exact Hinv1|done|by rewrite lookup_total_insert_ne, Hi|done|].
    do 2 right; left. exists j. by rewrite lookup_total_insert_eq.
Qed.

Lemma wait_inv_inside m ps i m' p w a xs :
  lock_inv (mk_mutex_sys m ps) a → wait_inv (mk_mutex_sys m ps) xs → thread_step i m (ps !!! i) = Some (m', p, w) →
  ∃ xs', wait_inv (mk_mutex_sys m' (wake_pc w (<[i := p]> ps))) xs'.
Proof.
  intros Hlk Hinv E. destruct (ps !!! i) eqn:Hi; simpl in E; simplify_eq.
  - exists xs. unfold lock_slow_load. simpl. case_decide as HW; (eapply wait_inv_pass; [exact Hinv|done|by rewrite Hi|done|]); [by left|by right; left].
  - exists xs. unfold lock_slow_exchange in E. case_decide as HU; simplify_eq; simpl;
      (eapply wait_inv_pass; [exact Hinv|done|by rewrite Hi|done|by left]).
  - apply bind_Some in E as (m1 & [Hw1 ->]%wlock_lock_Some & [= <- <- <-]). exists xs. simpl.
    eapply wait_inv_pass; [exact Hinv|done|by rewrite Hi|done|]. apply attended_keep; [done|by rewrite Hi|done].
  - exists xs. unfold wait_check in E. case_decide as HW; simplify_eq; simpl;
      (eapply wait_inv_pass; [exact Hinv|done|by rewrite Hi|done|]); [by right; left|by left].
  - apply bind_Some in E as ([m1 p1] & HP & [= <- <- <-]). exists (xs ++ [i]). by eapply wait_inv_push.
  - apply bind_Some in E as (m1 & [Hw1 ->]%wlock_lock_Some & [= <- <- <-]). exists xs. simpl.
    eapply wait_inv_pass; [exact Hinv|done|by rewrite Hi|done|by right; left].
  - apply bind_Some in E as ([m1 w1] & HP & [= <- <- <-]). by eapply wait_inv_pop.
Qed.

Lemma wait_inv_step s ev s' a xs :
  lock_inv s a → wait_inv s xs → mutex_step false s ev s' → ∃ xs', wait_inv s' xs'.
Proof.
  intros Hlk Hinv Hstep. destruct Hstep as [m ps i m' b Hi E|m ps i m' p Hi E|m ps i Hi|m ps i m' p Hi E|m ps i m' p w E|m ps i Hsp Hi]; [..|done].
  - exists xs. unfold mutex_try_lock in E. case_decide as Hu; simplify_eq;
      (eapply wait_inv_pass; [exact Hinv|done|by rewrite Hi|done|]).
    + do 3 right; left. rewrite Hi, Hu. split_and!; [done..|by intros [|]].
    + apply attended_keep; [done|by rewrite Hi|done].
  - exists xs. unfold mutex_lock in E. case_decide as Hu; simplify_eq;
      (eapply wait_inv_pass; [exact Hinv|done|by rewrite Hi|done|]).
    + do 3 right; left. rewrite Hi, Hu. split_and!; [done..|by intros [|]].
    + apply attended_keep; [done|by rewrite Hi|done].
  - exists xs. eapply wait_inv_pass; [exact Hinv|done|by rewrite Hi|done|]. apply attended_keep; [done|by rewrite Hi|done].
  - exists xs. unfold mutex_unlock in E. simplify_eq. case_decide as HW;
      (eapply wait_inv_pass; [exact Hinv|done|by rewrite Hi|done|]); [by right; left|].
    do 3 right; left. rewrite Hi. split_and!; [done..|by intros [|]].
  - by eapply wait_inv_inside.
Qed.

Lemma wait_inv_exec tr s : mutex_exec false mutex_init tr s → ∃ xs, wait_inv s xs.
Proof.
  intros H. remember mutex_init as s0 eqn:E0. induction H as [|s tr s' ev s'' Hex IH Hstep]; subst; [exists []; apply wait_inv_init|].
  destruct IH as (xs & Hinv); [done|]. destruct (lock_inv_exec _ _ _ Hex) as (a & Hlk & _). by eapply wait_inv_step.
Qed.

(** ** Properties of mutexPrivate *)

(** C26: the mutex refines a lock.  The acquisitions and releases of any
    interleaving of any number of threads in [try_lock], [lock], [lock_slow] and
    [unlock], with or without spurious wake-ups, form a trace of a lock that one
    thread holds at a time, and a thread has returned from [lock] exactly when it is
    the holder: mutual exclusion, with the lock word 0 just when the lock is free. *)
Theorem mutex_refines_lock spurious tr s :
  mutex_exec spurious mutex_init tr s →
  ∃ a, lock_run None tr = Some a ∧ (∀ i, pc_of s i = Holding ↔ a = Some i) ∧
       (m_l (ms_m s) = UNLOCK ↔ a = None).
Proof.
  intros (a & Hinv & Hrun)%lock_inv_exec. exists a. split_and!; [done|apply Hinv|apply Hinv].
Qed.

(** The thread that sleeps is not forgotten: a holder that will wake, or a thread
    that can move. *)
Definition attended_by (s : mutex_sys) j : Prop :=
  pc_of s j = Holding ∧ snd (mutex_unlock (ms_m s)) = AtWakeLock ∨
  attending (pc_of s j) = true.

(** Some thread inside an operation can take its next action. *)
Definition can_move (s : mutex_sys) : Prop :=
  ∃ k, is_Some (thread_step k (ms_m s) (pc_of s k)).

(** The list can be written under [wlock]. *)
Lemma in_wlock_moves s xs k :
  wait_inv s xs → in_wlock (pc_of s k) = true → is_Some (thread_step k (ms_m s) (pc_of s k)).
Proof.
  intros Hinv Hk. pose proof (mi_dll _ _ Hinv) as Hd. destruct (pc_of s k) eqn:Hp; try done; simpl.
  - destruct (wait_check _). by eexists.
  - destruct (ExecuteCtx_Cur_spec k _ _ _ Hd) as [Hd' Ha]. destruct (PushBack_spec _ _ _ _ Hd' Ha) as (h' & E & _).
    { intros [?|Hx]%elem_of_cons; [by apply (wn_node_ne k)|]. apply wn_node_elem, (mi_list _ _ Hinv) in Hx. congruence. }
    unfold wait_push. rewrite E. by eexists.
  - unfold wake_pop. rewrite (Empty_spec _ _ _ Hd). destruct xs as [|j xs]; simpl; [by eexists|].
    rewrite fmap_cons in Hd. destruct (PopFront_spec _ _ _ _ Hd) as (h' & -> & _). by eexists.
Qed.

Lemma attending_can_move s a xs j :
  lock_inv s a → wait_inv s xs → attending (pc_of s j) = true → can_move s.
Proof.
  intros Hlk Hinv Hj. destruct (pc_of s j) eqn:Hp; try done.
  - exists j. rewrite Hp. simpl. destruct (lock_slow_exchange _). by eexists.
  - destruct (m_wlock (ms_m s)) as [k|] eqn:Hw.
    + exists k. eapply in_wlock_moves; [exact Hinv|]. by apply (mi_wlock _ _ Hlk).
    + exists j. rewrite Hp. simpl. unfold wlock_lock. rewrite Hw. by eexists.
  - exists j. eapply in_wlock_moves; [exact Hinv|]. by rewrite Hp.
Qed.

(** C27: no wakeup is lost as long as [cv.wait] returns only when it is notified.
    Whenever a thread sleeps, its node is in the wait list, which is well linked, and
    some other thread holds the mutex and its [unlock] will see the lock word [WAIT]
    and call [wake], or some other thread is on its way to wake a waiter or to mark
    the word again, and in that case a thread can take its next step. *)
Theorem mutex_no_lost_wakeup tr s i :
  mutex_exec false mutex_init tr s → pc_of s i = Sleeping →
  (∃ xs, dll (m_heap (ms_m s)) list_node (wn_node <$> xs) ∧ i ∈ xs) ∧
  ∃ j, i ≠ j ∧ attended_by s j ∧ (attending (pc_of s j) = true → can_move s).
Proof.
  intros Hex Hi. destruct (lock_inv_exec _ _ _ Hex) as (a & Hlk & _). destruct (wait_inv_exec _ _ Hex) as (xs & Hinv).
  split; [exists xs; split; [apply Hinv|by apply (mi_list _ _ Hinv)]|].
  destruct (mi_attended _ _ Hinv i) as [HW|(j & Hj)]; [by left| |].
  - destruct a as [j|] eqn:Ha.
    2:{ exfalso. pose proof (mi_free _ _ Hlk) as [_ Hf]. rewrite Hf in HW by done. done. }
    assert (Hj : pc_of s j = Holding) by (by apply (mi_hold _ _ Hlk)).
    exists j. split_and!; [intros ->; congruence| |by rewrite Hj].
    left. split; [done|]. unfold mutex_unlock. simpl. by rewrite decide_True.
  - exists j. split_and!; [intros ->; by rewrite Hi in Hj|by right|].
    intros _. by eapply attending_can_move.
Qed.

(** ** Running a given interleaving *)

Inductive mutex_action :=
| DoTryLock (i : thread) | DoLock (i : thread) | DoUnlock (i : thread) | DoStep (i : thread) | DoSpurious (i : thread).

Definition mutex_act (spurious : bool) (a : mutex_action) (s : mutex_sys) : option (list lock_event * mutex_sys) :=
  let m := ms_m s in let ps := ms_pcs s in
  match a with
  | DoTryLock i =>
      guard (ps !!! i = Idle);;
      let '(b, m') := mutex_try_lock m in
      Some (if b then [Acquire i] else [], mk_mutex_sys m' (<[i := if (b : bool) then Holding else Idle]> ps))
  | DoLock i =>
      guard (ps !!! i = Idle);;
      let '(m', p) := mutex_lock m in Some (acquire_event i p, mk_mutex_sys m' (<[i := p]> ps))
  | DoUnlock i =>
      guard (ps !!! i = Holding);;
      let '(m', p) := mutex_unlock m in Some ([Release i], mk_mutex_sys m' (<[i := p]> ps))
  | DoStep i =>
      '(m', p, w) ← thread_step i m (ps !!! i);
      Some (acquire_event i p, mk_mutex_sys m' (wake_pc w (<[i := p]> ps)))
  | DoSpurious i =>
      guard (spurious = true ∧ ps !!! i = Sleeping);; Some ([], mk_mutex_sys m (<[i := AtExchange]> ps))
  end.

Fixpoint mutex_script (spurious : bool) (l : list mutex_action) (tr : list lock_event) (s : mutex_sys)
    : option (list lock_event * mutex_sys) :=
  match l with
  | [] => Some (tr, s)
  | a :: l => '(ev, s) ← mutex_act spurious a s; mutex_script spurious l (tr ++ ev) s
  end.

Lemma mutex_act_step sp a s ev s' : mutex_act sp a s = Some (ev, s') → mutex_step sp s ev s'.
Proof.
  destruct s as [m ps]. destruct a as [i|i|i|i|i]; simpl.
  - case_guard; [|done]. simpl. destruct (mutex_try_lock m) as [b m'] eqn:E. intros [= <- <-]. by constructor.
  - case_guard; [|done]. simpl. destruct (mutex_lock m) as [m' p] eqn:E. intros [= <- <-]. by constructor.
  - case_guard; [|done]. simpl. intros [= <- <-]. by constructor.
  - destruct (thread_step i m (ps !!! i)) as [[[m' p] w]|] eqn:E; [|done]. intros [= <- <-]. by constructor.
  - case_guard as Hg; [|done]. simpl. intros [= <- <-]. destruct Hg. by constructor.
Qed.

Lemma mutex_script_exec sp l tr s0 s tr' s' :
  mutex_exec sp s0 tr s → mutex_script sp l tr s = Some (tr', s') → mutex_exec sp s0 tr' s'.
Proof.
  revert tr s. induction l as [|a l IH]; simpl; intros tr s Hex E; [by simplify_eq|].
  destruct (mutex_act sp a s) as [[ev s1]|] eqn:Ea; [|done]. simpl in E.
  eapply IH; [|exact E]. econstructor; [exact Hex|by eapply mutex_act_step].
Qed.

(** Thread 1 holds the mutex, thread 2 runs into [wait]. *)
Definition contended_script : list mutex_action :=
  [DoLock 1%positive; DoLock 2%positive; DoStep 2%positive; DoStep 2%positive; DoStep 2%positive;
   DoStep 2%positive; DoStep 2%positive].

(** Then thread 3; thread 2 wakes spuriously and goes to sleep again; 1 and 2 have their turns. *)
Definition spurious_script : list mutex_action :=
  contended_script ++ DoLock 3%positive :: replicate 4 (DoStep 3%positive) ++
  DoSpurious 2%positive :: replicate 4 (DoStep 2%positive) ++
  [DoUnlock 1%positive; DoStep 1%positive; DoStep 1%positive; DoStep 2%positive; DoUnlock 2%positive; DoStep 2%positive; DoStep 2%positive].

Definition after_script (spurious : bool) (l : list mutex_action) : mutex_sys :=
  from_option snd mutex_init (mutex_script spurious l [] mutex_init).

(** A spurious wake-up can strand a waiter for good.  The thread that wakes is
    still in the list and is pushed a second time, which cuts off the waiters behind
    it: in the end nobody holds the mutex, every other thread is outside it, and one
    waiter sleeps. *)
Theorem mutex_spurious_strands :
  ∃ tr s, mutex_exec true mutex_init tr s ∧ m_l (ms_m s) = UNLOCK ∧
    pc_of s 3%positive = Sleeping ∧ ∀ j, j ≠ 3%positive → pc_of s j = Idle.
Proof.
  exists [Acquire 1%positive; Release 1%positive; Acquire 2%positive; Release 2%positive], (after_script true spurious_script).
  split_and!; [|by vm_compute..|].
  - eapply (mutex_script_exec true spurious_script); [constructor|vm_compute; reflexivity].
  - intros j Hj. unfold pc_of.
    assert (ms_pcs (after_script true spurious_script) = {[1%positive := Idle; 2%positive := Idle; 3%positive := Sleeping]}) as -> by (by vm_compute).
    destruct (decide (j = 1%positive)) as [->|]; [done|]. destruct (decide (j = 2%positive)) as [->|]; [done|].
    unfold lookup_total, map_lookup_total. by rewrite !lookup_insert_ne, lookup_singleton_ne by done.
Qed.

Lemma mutex_refines_lock_witness :
  let s := after_script false [DoLock 1%positive; DoUnlock 1%positive] in
  ∃ a, lock_run None [Acquire 1%positive; Release 1%positive] = Some a ∧
       (∀ i, pc_of s i = Holding ↔ a = Some i) ∧ (m_l (ms_m s) = UNLOCK ↔ a = None).
Proof.
  apply (mutex_refines_lock false).
  eapply (mutex_script_exec false [DoLock 1%positive; DoUnlock 1%positive]); [constructor|reflexivity].
Defined.

Lemma mutex_no_lost_wakeup_witness :
  let s := after_script false contended_script in
  (∃ xs, dll (m_heap (ms_m s)) list_node (wn_node <$> xs) ∧ 2%positive ∈ xs) ∧
  ∃ j, 2%positive ≠ j ∧ attended_by s j ∧ (attending (pc_of s j) = true → can_move s).
Proof.
  apply (mutex_no_lost_wakeup [Acquire 1%positive]); [|reflexivity].
  eapply (mutex_script_exec false contended_script); [constructor|reflexivity].
Defined.

(** ** RecursiveMutexPrivate

    [fMutex] protects [taskLockNums], so each block under it is one action; the
    mutex [mt] is used through the lock interface that [mutexPrivate] has been
    shown to implement: acquired only when free, released by its holder. *)

Module Recursive.

(** The key under which a caller owns the mutex: its thread id, or the task id
    with the top bit set when a task runs on a coroutine. *)
Definition owner_id (useCoroutine : bool) (taskGid : option Z) (tid : Z) : Z :=
  match taskGid with
  | Some gid => if useCoroutine then Z.lor gid 0x8000000000000000 else tid
  | None => tid
  end.

Record RecursiveMutexPrivate := mk_Recursive { rm_owner : Z; rm_count : Z }.

Definition RecursiveMutexPrivate_ctor : RecursiveMutexPrivate := mk_Recursive UINT64_MAX 0.

Inductive try_result := TryMt | TryOk | TryFail.

Implicit Types (r : RecursiveMutexPrivate) (me : Z).

(** [lock] up to [mt.lock()], which follows when the result is [true]. *)
Definition rm_lock me r : RecursiveMutexPrivate * bool :=
  if decide (rm_owner r ≠ me) then (r, true)
  else (mk_Recursive (rm_owner r) (u32 (rm_count r + 1)), false).

(** [lock] and [try_lock] after [mt] has been acquired. *)
Definition rm_acquired me : RecursiveMutexPrivate := mk_Recursive me 1.

(** [try_lock] up to [mt.try_lock()], which follows on [TryMt]. *)
Definition rm_try_lock me r : RecursiveMutexPrivate * try_result :=
  if decide (rm_owner r = UINT64_MAX) then (r, TryMt)
  else if decide (rm_owner r = me) then (mk_Recursive (rm_owner r) (u32 (rm_count r + 1)), TryOk)
  else (r, TryFail).

(** [unlock]; [mt.unlock()] follows when the result is [true]. *)
Definition rm_unlock me r : RecursiveMutexPrivate * bool :=
  if decide (rm_owner r ≠ me) then (r, false)
  else if decide (rm_count r = 1) then (RecursiveMutexPrivate_ctor, true)
  else (mk_Recursive (rm_owner r) (u32 (rm_count r - 1)), false).

Inductive rpc := RIdle | RWantMt | RTryMt | RGotMt | RRelease.

(** The mutex, the holder of [mt], the position of each thread and, for the
    specification, how many times each thread has locked without unlocking. *)
Record rsys := mk_rsys { rs_r : RecursiveMutexPrivate; rs_mt : option thread;
                         rs_pc : thread → rpc; rs_depth : thread → Z }.

Definition rsys_init : rsys := mk_rsys RecursiveMutexPrivate_ctor None (λ _, RIdle) (λ _, 0).

Section interleavings.
(** The keys of the callers. *)
Context (id : thread → Z).

Inductive rstep : rsys → rsys → Prop :=
| rs_lock_need r mt pc d i r' :
    pc i = RIdle → rm_lock (id i) r = (r', true) →
    rstep (mk_rsys r mt pc d) (mk_rsys r' mt (<[i := RWantMt]> pc) d)
| rs_lock_again r mt pc d i r' :
    pc i = RIdle → d i < UINT32_MAX → rm_lock (id i) r = (r', false) →
    rstep (mk_rsys r mt pc d) (mk_rsys r' mt pc (<[i := d i + 1]> d))
| rs_mt_lock r pc d i :
    pc i = RWantMt →
    rstep (mk_rsys r None pc d) (mk_rsys r (Some i) (<[i := RGotMt]> pc) d)
| rs_got r mt pc d i :
    pc i = RGotMt →
    rstep (mk_rsys r mt pc d) (mk_rsys (rm_acquired (id i)) mt (<[i := RIdle]> pc) (<[i := d i + 1]> d))
| rs_try_mt r mt pc d i r' :
    pc i = RIdle → rm_try_lock (id i) r = (r', TryMt) →
    rstep (mk_rsys r mt pc d) (mk_rsys r' mt (<[i := RTryMt]> pc) d)
| rs_try_again r mt pc d i r' :
    pc i = RIdle → d i < UINT32_MAX → rm_try_lock (id i) r = (r', TryOk) →
    rstep (mk_rsys r mt pc d) (mk_rsys r' mt pc (<[i := d i + 1]> d))
| rs_try_fail r mt pc d i r' :
    pc i = RIdle → rm_try_lock (id i) r = (r', TryFail) →
    rstep (mk_rsys r mt pc d) (mk_rsys r' mt pc d)
| rs_mt_try_ok r pc d i :
    pc i = RTryMt →
    rstep (mk_rsys r None pc d) (mk_rsys r (Some i) (<[i := RGotMt]> pc) d)
| rs_mt_try_busy r j pc d i :
    pc i = RTryMt →
    rstep (mk_rsys r (Some j) pc d) (mk_rsys r (Some j) (<[i := RIdle]> pc) d)
| rs_unlock r mt pc d i r' rel :
    pc i = RIdle → rm_unlock (id i) r = (r', rel) →
    rstep (mk_rsys r mt pc d)
      (mk_rsys r' mt (if (rel : bool) then <[i := RRelease]> pc else pc)
         (if decide (rm_owner r = id i) then <[i := d i - 1]> d else d))
| rs_mt_unlock r mt pc d i :
    pc i = RRelease →
    rstep (mk_rsys r mt pc d) (mk_rsys r None (<[i := RIdle]> pc) d).

(** Different callers have different keys, none of them the free mark. *)
Context (id_inj : ∀ i j, id i = id j → i = j) (id_valid : ∀ i, id i ≠ UINT64_MAX).

Record rinv (s : rsys) : Prop := {
  ri_mt i : rs_mt s = Some i ↔ rs_pc s i = RGotMt ∨ rs_pc s i = RRelease ∨ 0 < rs_depth s i;
  ri_owner i : rm_owner (rs_r s) = id i ↔ 0 < rs_depth s i;
  ri_count i : 0 < rs_depth s i → rm_count (rs_r s) = rs_depth s i ∧ rs_pc s i = RIdle;
  ri_free : rm_owner (rs_r s) = UINT64_MAX ∨ ∃ i, rm_owner (rs_r s) = id i;
  ri_range i : 0 <= rs_depth s i <= UINT32_MAX;
}.

Lemma rinv_init : rinv rsys_init.
Proof.
  split; simpl; [naive_solver lia| |lia|by left|unfold UINT32_MAX; lia].
  intros i. pose proof (id_valid i). unfold RecursiveMutexPrivate_ctor. simpl. split; [congruence|lia].
Qed.

(** Thread [i] moves between two positions without touching the mutex. *)
Lemma rinv_move r mt pc d i p :
  rinv (mk_rsys r mt pc d) → rm_owner r ≠ id i →
  (p = RGotMt ∨ p = RRelease ↔ pc i = RGotMt ∨ pc i = RRelease) →
  rinv (mk_rsys r mt (<[i := p]> pc) d).
Proof.
  intros [Hmt Ho Hc Hf Hr] Hi Hp. simpl in *. split; simpl; [..|done|done].
  - intros k. rewrite fn_insert_decide. case_decide; subst; [|apply Hmt]. rewrite Hmt. tauto.
  - apply Ho.
  - intros k Hk. rewrite fn_insert_decide. case_decide; subst; [|by apply Hc]. by apply Ho in Hk.
Qed.

(** The owner's count goes up or down but stays positive. *)
Lemma rinv_count r mt pc d i n :
  rinv (mk_rsys r mt pc d) → rm_owner r = id i → 0 < n <= UINT32_MAX →
  rinv (mk_rsys (mk_Recursive (rm_owner r) n) mt pc (<[i := n]> d)).
Proof.
  intros [Hmt Ho Hc Hf Hr] Hi Hn. simpl in *.
  assert (Hdi : 0 < d i) by (by apply Ho).
  split; simpl; [..|done|]; intros k; rewrite fn_insert_decide; case_decide; subst; try apply Hmt; try apply Ho; try apply Hr.
  - rewrite Hmt. split; intros; do 2 right; lia.
  - split; [lia|done].
  - intros _. split; [done|]. by apply Hc.
  - intros Hk. apply Ho in Hk. by destruct H; apply id_inj; congruence.
  - lia.
Qed.

Lemma rinv_mt_lock r pc d i :
  rinv (mk_rsys r None pc d) → rinv (mk_rsys r (Some i) (<[i := RGotMt]> pc) d).
Proof.
  intros [Hmt Ho Hc Hf Hr]. simpl in *.
  assert (Hnone : ∀ k, ¬ (pc k = RGotMt ∨ pc k = RRelease ∨ 0 < d k)) by (intros k; rewrite <-Hmt; done).
  split; simpl; [|done| |done|done]; intros k; rewrite fn_insert_decide; case_decide as Hk; subst.
  - naive_solver.
  - split; [congruence|intros Hx; by destruct (Hnone k)].
  - intros Hx. destruct (Hnone i). tauto.
  - apply Hc.
Qed.

Lemma rinv_got r mt pc d i :
  rinv (mk_rsys r mt pc d) → pc i = RGotMt →
  rinv (mk_rsys (rm_acquired (id i)) mt (<[i := RIdle]> pc) (<[i := d i + 1]> d)).
Proof.
  intros [Hmt Ho Hc Hf Hr] Hi. simpl in *.
  assert (mt = Some i) as -> by (apply Hmt; tauto).
  assert (Hd : d i = 0).
  { destruct (decide (0 < d i)) as [Hx|]; [|specialize (Hr i); lia]. apply Hc in Hx as [_ Hx]. congruence. }
  assert (Hoth : ∀ k, k ≠ i → ¬ (pc k = RGotMt ∨ pc k = RRelease ∨ 0 < d k)).
  { intros k Hk Hx. apply Hmt in Hx. congruence. }
  rewrite Hd. split; simpl; try (intros k; rewrite ?fn_insert_decide; case_decide as Hk; subst).
  - split; [intros _; do 2 right; lia|done].
  - split; [congruence|]. intros Hx. by destruct (Hoth k).
  - split; [lia|done].
  - split; [by intros ?%id_inj|]. intros Hx. destruct (Hoth k); tauto.
  - intros _. split; [lia|done].
  - intros Hx. destruct (Hoth k); tauto.
  - right. by exists i.
  - unfold UINT32_MAX. lia.
  - apply Hr.
Qed.

(** The last [unlock] of the owner gives the ownership up before it unlocks [mt]. *)
Lemma rinv_last_unlock r mt pc d i :
  rinv (mk_rsys r mt pc d) → rm_owner r = id i → rm_count r = 1 →
  rinv (mk_rsys RecursiveMutexPrivate_ctor mt (<[i := RRelease]> pc) (<[i := d i - 1]> d)).
Proof.
  intros [Hmt Ho Hc Hf Hr] Hi Hone. simpl in *.
  assert (Hdi : 0 < d i) by (by apply Ho). destruct (Hc i Hdi) as [Hcnt Hpi].
  assert (mt = Some i) as -> by (apply Hmt; tauto).
  assert (Hoth : ∀ k, k ≠ i → ¬ (pc k = RGotMt ∨ pc k = RRelease ∨ 0 < d k)).
  { intros k Hk Hx. apply Hmt in Hx. congruence. }
  assert (d i - 1 = 0) as -> by lia.
  split; simpl; try (intros k; rewrite ?fn_insert_decide; case_decide as Hk; subst).
  - split; [intros _; tauto|done].
  - split; [congruence|]. intros Hx. by destruct (Hoth k).
  - pose proof (id_valid i). split; [congruence|lia].
  - pose proof (id_valid k). split; [congruence|]. intros Hx. destruct (Hoth k); tauto.
  - lia.
  - intros Hx. destruct (Hoth k); tauto.
  - by left.
  - unfold UINT32_MAX. lia.
  - apply Hr.
Qed.

Lemma rinv_mt_unlock r mt pc d i :
  rinv (mk_rsys r mt pc d) → pc i = RRelease → rinv (mk_rsys r None (<[i := RIdle]> pc) d).
Proof.
  intros [Hmt Ho Hc Hf Hr] Hi. simpl in *.
  assert (mt = Some i) as -> by (apply Hmt; tauto).
  assert (Hoth : ∀ k, k ≠ i → ¬ (pc k = RGotMt ∨ pc k = RRelease ∨ 0 < d k)).
  { intros k Hk Hx. apply Hmt in Hx. congruence. }
  assert (Hd : ¬ 0 < d i) by (intros [_ Hx]%Hc; congruence).
  split; simpl; [|done| |done|done]; intros k; rewrite fn_insert_decide; case_decide as Hk; subst.
  - naive_solver.
  - split; [done|]. intros Hx. by destruct (Hoth k).
  - done.
  - apply Hc.
Qed.

Lemma rinv_step s s' : rinv s → rstep s s' → rinv s'.
Proof.
  intros Hinv Hstep. destruct Hstep as
    [r mt pc d i r' Hi E|r mt pc d i r' Hi Hd E|r pc d i Hi|r mt pc d i Hi|r mt pc d i r' Hi E
    |r mt pc d i r' Hi Hd E|r mt pc d i r' Hi E|r pc d i Hi|r j pc d i Hi|r mt pc d i r' rel Hi E
    |r mt pc d i Hi]; unfold rm_lock, rm_try_lock, rm_unlock in *; pose proof Hinv as [Hmt Ho Hc Hf Hr]; simpl in *.
  - case_decide; simplify_eq. apply rinv_move; [done|done|rewrite Hi; naive_solver].
  - case_decide as He; simplify_eq.
    assert (0 < d i) as Hp by (by apply Ho). destruct (Hc i Hp) as [-> _].
    rewrite u32_id by (unfold is_u32; lia). apply rinv_count; [done|done|lia].
  - by apply rinv_mt_lock.
  - by eapply rinv_got.
  - repeat case_decide; simplify_eq. apply rinv_move; [done| |rewrite Hi; naive_solver].
    intros He. apply (id_valid i). congruence.
  - repeat case_decide; simplify_eq.
    assert (0 < d i) as Hp by (by apply Ho). destruct (Hc i Hp) as [-> _].
    rewrite u32_id by (unfold is_u32; lia). apply rinv_count; [done|done|lia].
  - by repeat case_decide; simplify_eq.
  - by apply rinv_mt_lock.
  - apply rinv_move; [done| |rewrite Hi; naive_solver]. rewrite Ho. intros [_ Hx]%Hc. congruence.
  - destruct (decide (rm_owner r = id i)) as [He|He].
    2:{ rewrite decide_True in E by done. by simplify_eq. }
    rewrite decide_False in E by tauto. case_decide as H1; simplify_eq.
    + by eapply rinv_last_unlock.
    + assert (0 < d i) as Hp by (by apply Ho). destruct (Hc i Hp) as [Hcnt _]. specialize (Hr i).
      rewrite Hcnt in *. rewrite u32_id by (unfold is_u32; lia). apply rinv_count; [done|done|lia].
  - by eapply rinv_mt_unlock.
Qed.

Lemma rinv_reachable s : rtc rstep rsys_init s → rinv s.
Proof.
  intros H. assert (Hg : ∀ x y, rtc rstep x y → rinv x → rinv y); [|by apply (Hg _ _ H), rinv_init].
  induction 1; [done|]. eauto using rinv_step.
Qed.

(** the recursive mutex is exclusive and counts its nesting.  In every
    interleaving at most one caller has it locked; that caller holds [mt], is
    the recorded owner, and the recorded count is the number of its locks not
    yet undone; when nobody has it locked and nobody is between taking or
    releasing [mt], [mt] is free. *)
Theorem recursive_mutex_exclusive s :
  rtc rstep rsys_init s →
  (∀ i j, 0 < rs_depth s i → 0 < rs_depth s j → i = j) ∧
  (∀ i, 0 < rs_depth s i →
     rs_mt s = Some i ∧ rs_r s = mk_Recursive (id i) (rs_depth s i)) ∧
  ((∀ i, rs_depth s i = 0 ∧ rs_pc s i = RIdle) → rs_mt s = None).
Proof.
  intros [Hmt Ho Hc Hf Hr]%rinv_reachable. split_and!.
  - intros i j Hi Hj. apply id_inj. apply Ho in Hi, Hj. congruence.
  - intros i Hi. split; [apply Hmt; tauto|]. destruct (Hc i Hi) as [Hcnt _]. apply Ho in Hi.
    destruct (rs_r s). simpl in *. congruence.
  - intros Hall. destruct (rs_mt s) as [i|] eqn:E; [|done]. exfalso.
    pose proof (proj1 (Hmt i) eq_refl) as Hx. destruct (Hall i) as [Hd Hp]. rewrite Hp in Hx. naive_solver lia.
Qed.

End interleavings.
Definition sample_id (i : thread) : Z := 2 * Zpos i.

(** A thread locks twice. *)
Definition twice_locked : rsys :=
  let d := <[1%positive := 0 + 1]> (λ _, 0) in
  mk_rsys (mk_Recursive (sample_id 1%positive) (u32 (1 + 1))) (Some 1%positive)
    (<[1%positive := RIdle]> (<[1%positive := RGotMt]> (<[1%positive := RWantMt]> (λ _, RIdle))))
    (<[1%positive := d 1%positive + 1]> d).

Lemma recursive_mutex_exclusive_witness :
  rs_mt twice_locked = Some 1%positive ∧
  rs_r twice_locked = mk_Recursive (sample_id 1%positive) (rs_depth twice_locked 1%positive).
Proof.
  refine (proj1 (proj2 (recursive_mutex_exclusive sample_id _ _ twice_locked _)) 1%positive _).
  - unfold sample_id. lia.
  - intros i. unfold sample_id, UINT64_MAX. lia.
  - eapply rtc_l; [by apply (rs_lock_need _ _ _ _ _ 1%positive)|].
    eapply rtc_l; [by apply (rs_mt_lock _ _ _ _ 1%positive)|].
    eapply rtc_l; [by apply (rs_got _ _ _ _ _ 1%positive)|].
    apply rtc_once. unfold twice_locked. by apply rs_lock_again.
  - reflexivity.
Defined.

End Recursive.

(** ** The C interface

    A pointer argument is an option; an attribute is its [storage]. *)

Definition ffrt_success : Z := 0.
Definition ffrt_error_busy : Z := 16.
Definition ffrt_error_inval : Z := 22.
Definition ffrt_error_timedout : Z := 110.

Definition ffrt_mutex_normal : Z := 0.
Definition ffrt_mutex_recursive : Z := 2.
Definition ffrt_mutex_default : Z := ffrt_mutex_normal.

Definition ffrt_mutexattr_init (attr : option Z) : Z * option Z :=
  match attr with
  | None => (ffrt_error_inval, None)
  | Some _ => (ffrt_success, Some ffrt_mutex_default)
  end.

Definition ffrt_mutexattr_settype (attr : option Z) (type : Z) : Z * option Z :=
  match attr with
  | None => (ffrt_error_inval, None)
  | Some storage =>
      if decide (type ≠ ffrt_mutex_normal ∧ type ≠ ffrt_mutex_recursive ∧ type ≠ ffrt_mutex_default)
      then (ffrt_error_inval, Some storage)
      else (ffrt_success, Some type)
  end.

(** [typeNull]: the result pointer is null; otherwise the value stored to it. *)
Definition ffrt_mutexattr_gettype (attr : option Z) (typeNull : bool) : Z * option Z :=
  match attr, typeNull with
  | Some storage, false => (ffrt_success, Some (i32 storage))
  | _, _ => (ffrt_error_inval, None)
  end.

Definition ffrt_mutexattr_destroy (attr : option Z) : Z :=
  match attr with None => ffrt_error_inval | Some _ => ffrt_success end.

(** The object constructed in the storage of an [ffrt_mutex_t]. *)
Inductive mutex_object :=
| ObjMutex (m : mutexPrivate)
| ObjRecursive (r : Recursive.RecursiveMutexPrivate) (mt : mutexPrivate).

Definition ffrt_mutex_init (mutexNull : bool) (attr : option Z) : Z * option mutex_object :=
  if mutexNull then (ffrt_error_inval, None)
  else if decide (attr = None ∨ attr = Some ffrt_mutex_normal) then
    (ffrt_success, Some (ObjMutex mutexPrivate_ctor))
  else if decide (attr = Some ffrt_mutex_recursive) then
    (ffrt_success, Some (ObjRecursive Recursive.RecursiveMutexPrivate_ctor mutexPrivate_ctor))
  else (ffrt_error_inval, None).

(** [ffrt_mutex_trylock] on a plain mutex. *)
Definition ffrt_mutex_trylock (mutex : option mutexPrivate) : Z * option mutexPrivate :=
  match mutex with
  | None => (ffrt_error_inval, None)
  | Some m => let '(b, m) := mutex_try_lock m in
              (if b then ffrt_success else ffrt_error_busy, Some m)
  end.

(** An attribute that [settype] accepted reads back and is accepted by [init]. *)
Lemma mutexattr_roundtrip s0 type attr :
  ffrt_mutexattr_settype (Some s0) type = (ffrt_success, attr) →
  ffrt_mutexattr_gettype attr false = (ffrt_success, Some type) ∧
  fst (ffrt_mutex_init false attr) = ffrt_success.
Proof.
  unfold ffrt_mutexattr_settype, ffrt_mutexattr_gettype, ffrt_mutex_init. intros H.
  case_decide as Ht; [discriminate|]. injection H as <-.
  assert (type = ffrt_mutex_normal ∨ type = ffrt_mutex_recursive) as [->| ->]; [|done..].
  unfold ffrt_mutex_default in Ht. destruct (decide (type = ffrt_mutex_normal)); [by left|].
  destruct (decide (type = ffrt_mutex_recursive)); [by right|]. by destruct Ht.
Qed.
