(* ===== verification/SharedMutex.v ===== *)
(** * The shared (reader-writer) mutex

    Models src/sync/shared_mutex.cpp and shared_mutex_private.h.  Everything
    happens under [mut], which [Wait] releases while the caller sleeps; so an
    operation is a sequence of atomic sections that end where the caller goes to
    sleep or returns.  [sm_step] interleaves the sections of any number of
    threads.  [cv.wait] is assumed to return only when notified. *)

From S2P Require Import Prelude LinkedList Mutex.

(** ** State *)

Inductive SharedMutexWaitType := NORMAL | READ | WRITE.

#[export] Instance SharedMutexWaitType_eq_dec : EqDecision SharedMutexWaitType.
Proof. solve_decision. Defined.

Definition writeEntered : Z := 2 ^ 31.
Definition readersMax : Z := 2 ^ 31 - 1.

Abbreviation waiters := (list (thread * SharedMutexWaitType)).

Record SharedMutexPrivate := mk_SharedMutex {
  sm_state : Z;          (* unsigned *)
  sm_wList1 : waiters;
  sm_wList2 : waiters;
}.

#[export] Instance SharedMutexPrivate_eta : Eta SharedMutexPrivate := λ s,
  mk_SharedMutex (sm_state s) (sm_wList1 s) (sm_wList2 s).

Definition SharedMutexPrivate_ctor : SharedMutexPrivate := mk_SharedMutex 0 [] [].

(** Where a thread is; a sleeping or woken thread carries the type it waits with,
    [NORMAL] being the second wait of a writer. *)
Inductive sm_pc :=
| SIdle | SWait (t : SharedMutexWaitType) | SWoken (t : SharedMutexWaitType) | SHoldW | SHoldR.

#[export] Instance sm_pc_eq_dec : EqDecision sm_pc.
Proof. solve_decision. Defined.

(** ** Operations *)

Implicit Types (s : SharedMutexPrivate) (i j k : thread) (l : waiters).

(** [Lock] from its second loop. *)
Definition Lock_readers i s : SharedMutexPrivate * sm_pc :=
  if decide (Z.land (sm_state s) readersMax ≠ 0)
  then (s <| sm_wList2 ::= λ l, l ++ [(i, NORMAL)] |>, SWait NORMAL)
  else (s, SHoldW).

Definition Lock i s : SharedMutexPrivate * sm_pc :=
  if decide (Z.land (sm_state s) writeEntered ≠ 0)
  then (s <| sm_wList1 ::= λ l, l ++ [(i, WRITE)] |>, SWait WRITE)
  else Lock_readers i (s <| sm_state ::= λ v, Z.lor v writeEntered |>).

Definition TryLock s : bool * SharedMutexPrivate :=
  if decide (sm_state s = 0) then (true, s <| sm_state := writeEntered |>) else (false, s).

Definition LockShared i s : SharedMutexPrivate * sm_pc :=
  if decide (sm_state s >= readersMax)
  then (s <| sm_wList1 ::= λ l, l ++ [(i, READ)] |>, SWait READ)
  else (s <| sm_state ::= λ v, u32 (v + 1) |>, SHoldR).

Definition TryLockShared s : bool * SharedMutexPrivate :=
  if decide (sm_state s < readersMax) then (true, s <| sm_state ::= λ v, u32 (v + 1) |>) else (false, s).

(** The waiters that are notified and those that stay. *)
Definition NotifyOne l : waiters * waiters :=
  match l with [] => ([], []) | x :: l => ([x], l) end.

Fixpoint NotifyAll l : waiters * waiters :=
  match l with
  | [] => ([], [])
  | (j, READ) :: l' =>
      match l' with
      | (_, WRITE) :: _ => ([(j, READ)], l')
      | _ => let '(w, r) := NotifyAll l' in ((j, READ) :: w, r)
      end
  | (j, WRITE) :: l' => ([(j, WRITE)], l')
  | (j, NORMAL) :: l' => let '(w, r) := NotifyAll l' in ((j, NORMAL) :: w, r)
  end.

Definition notify_list1 (f : waiters → waiters * waiters) s : SharedMutexPrivate * waiters :=
  let '(w, r) := f (sm_wList1 s) in (s <| sm_wList1 := r |>, w).
Definition notify_list2 (f : waiters → waiters * waiters) s : SharedMutexPrivate * waiters :=
  let '(w, r) := f (sm_wList2 s) in (s <| sm_wList2 := r |>, w).

Definition Unlock s : SharedMutexPrivate * waiters :=
  if decide (sm_state s = writeEntered) then notify_list1 NotifyAll (s <| sm_state := 0 |>)
  else if decide (sm_state s > 0) then
    let s := s <| sm_state ::= λ v, u32 (v - 1) |> in
    if decide (Z.land (sm_state s) writeEntered ≠ 0) then
      if decide (sm_state s = writeEntered) then notify_list2 NotifyOne s else (s, [])
    else if decide (sm_state s = readersMax - 1) then notify_list1 NotifyOne s
    else if decide (sm_wList1 s ≠ []) then notify_list1 NotifyAll s
    else (s, [])
  else (s, []).

(** ** Interleavings *)

Record sm_sys := mk_sm_sys { ss_m : SharedMutexPrivate; ss_pc : thread → sm_pc }.

Definition sm_init : sm_sys := mk_sm_sys SharedMutexPrivate_ctor (λ _, SIdle).

Definition wake_all (w : waiters) (pc : thread → sm_pc) : thread → sm_pc := λ k,
  match pc k with
  | SWait t => if decide (k ∈ w.*1) then SWoken t else SWait t
  | p => p
  end.

(** The section a woken thread runs next: the loop it slept in. *)
Definition resume i (t : SharedMutexWaitType) s : SharedMutexPrivate * sm_pc :=
  match t with WRITE => Lock i s | READ => LockShared i s | NORMAL => Lock_readers i s end.

Inductive sm_step : sm_sys → sm_sys → Prop :=
| sm_lock m pc i m' p :
    pc i = SIdle → Lock i m = (m', p) → sm_step (mk_sm_sys m pc) (mk_sm_sys m' (<[i := p]> pc))
| sm_trylock m pc i m' b :
    pc i = SIdle → TryLock m = (b, m') →
    sm_step (mk_sm_sys m pc) (mk_sm_sys m' (<[i := if (b : bool) then SHoldW else SIdle]> pc))
| sm_lock_shared m pc i m' p :
    pc i = SIdle → LockShared i m = (m', p) → sm_step (mk_sm_sys m pc) (mk_sm_sys m' (<[i := p]> pc))
| sm_trylock_shared m pc i m' b :
    pc i = SIdle → TryLockShared m = (b, m') →
    sm_step (mk_sm_sys m pc) (mk_sm_sys m' (<[i := if (b : bool) then SHoldR else SIdle]> pc))
| sm_resume m pc i t m' p :
    pc i = SWoken t → resume i t m = (m', p) → sm_step (mk_sm_sys m pc) (mk_sm_sys m' (<[i := p]> pc))
| sm_unlock m pc i m' w :
    pc i = SHoldW ∨ pc i = SHoldR → Unlock m = (m', w) →
    sm_step (mk_sm_sys m pc) (mk_sm_sys m' (wake_all w (<[i := SIdle]> pc))).

(** ** The bits of the state *)

Lemma land_pow2 x (k : Z) : 0 <= k → Z.land x (2 ^ k) = if Z.testbit x k then 2 ^ k else 0.
Proof.
  intros Hk. apply Z.bits_inj'. intros n Hn. rewrite Z.land_spec, Z.pow2_bits_eqb by done.
  destruct (Z.eqb_spec k n) as [->|Hne].
  - rewrite andb_true_r. destruct (Z.testbit x n); [by rewrite Z.pow2_bits_true|by rewrite Z.bits_0].
  - rewrite andb_false_r. destruct (Z.testbit x k); [by rewrite Z.pow2_bits_false|by rewrite Z.bits_0].
Qed.

(** A state with [n] readers, with and without a writer. *)
Lemma readers_bits n : 0 <= n <= readersMax →
  Z.land n writeEntered = 0 ∧ Z.land n readersMax = n ∧ Z.lor n writeEntered = writeEntered + n.
Proof.
  unfold readersMax, writeEntered. intros Hn.
  assert (Hb : Z.testbit n 31 = false) by (apply Z.testbit_false; [lia|]; by rewrite Z.div_small by lia).
  assert (Hl : Z.land n (2 ^ 31) = 0) by (by rewrite land_pow2, Hb by lia).
  split; [done|]. split.
  - replace (2 ^ 31 - 1) with (Z.ones 31) by done. rewrite Z.land_ones by lia. apply Z.mod_small. lia.
  - rewrite <-Z.lxor_lor, <-Z.add_nocarry_lxor by done. lia.
Qed.

Lemma writer_bits n : 0 <= n <= readersMax →
  Z.land (writeEntered + n) writeEntered ≠ 0 ∧ Z.land (writeEntered + n) readersMax = n.
Proof.
  unfold readersMax, writeEntered. intros Hn. split.
  - rewrite land_pow2 by lia.
    assert (Z.testbit (2 ^ 31 + n) 31 = true) as ->; [|lia]. apply Z.testbit_true; [lia|].
    rewrite <-(Z.mul_1_l (2 ^ 31)) at 1. rewrite Z.div_add_l, Z.div_small by lia. done.
  - replace (2 ^ 31 - 1) with (Z.ones 31) by done. rewrite Z.land_ones by lia.
    rewrite <-(Z.mul_1_l (2 ^ 31)) at 1. rewrite Z.add_comm, Z.mod_add by lia. apply Z.mod_small. lia.
Qed.

(** ** Invariant *)

(** [X] are the threads that hold the mutex shared, [w] the writer that has
    entered: it holds the mutex or waits for the readers to leave. *)
Record sm_core (s : sm_sys) (X : gset thread) (w : option thread) : Prop := {
  sc_state : sm_state (ss_m s) = (if w is Some _ then writeEntered else 0) + Z.of_nat (size X);
  sc_max : Z.of_nat (size X) <= readersMax;
  sc_readers i : ss_pc s i = SHoldR ↔ i ∈ X;
  sc_writer i : ss_pc s i = SHoldW ∨ ss_pc s i = SWait NORMAL ∨ ss_pc s i = SWoken NORMAL ↔ w = Some i;
  sc_excl i : ss_pc s i = SHoldW ∨ ss_pc s i = SWoken NORMAL → X = ∅;
  sc_list1 i t : (i, t) ∈ sm_wList1 (ss_m s) ↔ t ≠ NORMAL ∧ ss_pc s i = SWait t;
  sc_list2 i t : (i, t) ∈ sm_wList2 (ss_m s) ↔ t = NORMAL ∧ ss_pc s i = SWait NORMAL;
  sc_nodup1 : NoDup (sm_wList1 (ss_m s)).*1;
  sc_nodup2 : NoDup (sm_wList2 (ss_m s)).*1;
}.

(** Nobody sleeps unless somebody is bound to wake him. *)
Record sm_attended (s : sm_sys) (X : gset thread) : Prop := {
  sa_list1 : sm_wList1 (ss_m s) ≠ [] →
    sm_state (ss_m s) ≠ 0 ∨ ∃ j t, t ≠ NORMAL ∧ ss_pc s j = SWoken t;
  sa_list2 : sm_wList2 (ss_m s) ≠ [] → X ≠ ∅;
}.

Lemma sm_core_init : sm_core sm_init ∅ None.
Proof.
  split; simpl; [done|done|..].
  - intros i. set_solver.
  - intros i. split; [by intros [|[|]]|done].
  - done.
  - intros i t. rewrite elem_of_nil. naive_solver.
  - intros i t. rewrite elem_of_nil. naive_solver.
  - constructor.
  - constructor.
Qed.

(** Thread [i], which is in no list, moves to [p]. *)
Lemma sm_core_move m pc i m' p X w X' w' :
  sm_core (mk_sm_sys m pc) X w → (∀ t, pc i ≠ SWait t) →
  sm_state m' = (if w' is Some _ then writeEntered else 0) + Z.of_nat (size X') →
  Z.of_nat (size X') <= readersMax →
  (p = SHoldR ↔ i ∈ X') → (∀ k, k ≠ i → k ∈ X' ↔ k ∈ X) →
  (p = SHoldW ∨ p = SWait NORMAL ∨ p = SWoken NORMAL ↔ w' = Some i) →
  (∀ k, k ≠ i → w' = Some k ↔ w = Some k) →
  (p = SHoldW ∨ p = SWoken NORMAL → X' = ∅) → (X = ∅ → is_Some w → X' = ∅) →
  (sm_wList1 m' = sm_wList1 m ++ match p with SWait READ => [(i, READ)] | SWait WRITE => [(i, WRITE)] | _ => [] end) →
  (sm_wList2 m' = sm_wList2 m ++ match p with SWait NORMAL => [(i, NORMAL)] | _ => [] end) →
  sm_core (mk_sm_sys m' (<[i := p]> pc)) X' w'.
Proof.
  intros [Hs Hm Hr Hw He H1 H2 Hn1 Hn2] Hi Hs' Hm' Hr1 Hr2 Hw1 Hw2 He1 He2 Hl1 Hl2. simpl in *.
  assert (Hni1 : i ∉ (sm_wList1 m).*1).
  { intros ((? & t) & -> & [_ Ht]%H1)%list_elem_of_fmap. by apply (Hi t). }
  assert (Hni2 : i ∉ (sm_wList2 m).*1).
  { intros ((? & t) & -> & [_ Ht]%H2)%list_elem_of_fmap. by apply (Hi NORMAL). }
  split; simpl; [done|done|..].
  - intros k. rewrite fn_insert_decide. case_decide; subst; [done|]. rewrite Hr2 by done. apply Hr.
  - intros k. rewrite fn_insert_decide. case_decide; subst; [done|]. rewrite Hw2 by done. apply Hw.
  - intros k. rewrite fn_insert_decide. case_decide; subst; [done|]. intros Hk. apply He2; [by eapply He|].
    exists k. apply Hw. tauto.
  - intros k t. rewrite Hl1, elem_of_app, fn_insert_decide, H1. case_decide as Hk; subst.
    + pose proof (Hi t). destruct p as [|[]|[]| |]; simpl; rewrite ?list_elem_of_singleton, ?elem_of_nil; naive_solver.
    + destruct p as [|[]|[]| |]; simpl; rewrite ?list_elem_of_singleton, ?elem_of_nil; naive_solver.
  - intros k t. rewrite Hl2, elem_of_app, fn_insert_decide, H2. case_decide as Hk; subst.
    + destruct p as [|[]|[]| |]; simpl; rewrite ?list_elem_of_singleton, ?elem_of_nil; naive_solver.
    + destruct p as [|[]|[]| |]; simpl; rewrite ?list_elem_of_singleton, ?elem_of_nil; naive_solver.
  - rewrite Hl1, fmap_app. apply NoDup_app. split_and!; [done| |].
    + intros k Hk. destruct p as [|[]|[]| |]; simpl; rewrite ?list_elem_of_singleton, ?elem_of_nil; naive_solver.
    + destruct p as [|[]|[]| |]; simpl; auto using NoDup_nil_2, NoDup_singleton.
  - rewrite Hl2, fmap_app. apply NoDup_app. split_and!; [done| |].
    + intros k Hk. destruct p as [|[]|[]| |]; simpl; rewrite ?list_elem_of_singleton, ?elem_of_nil; naive_solver.
    + destruct p as [|[]|[]| |]; simpl; auto using NoDup_nil_2, NoDup_singleton.
Qed.

Lemma wake_all_hold w pc k : wake_all w pc k = SHoldR ↔ pc k = SHoldR.
Proof. unfold wake_all. destruct (pc k); [done| |done..]. by case_decide. Qed.

Lemma wake_all_writer w pc k :
  (wake_all w pc k = SHoldW ∨ wake_all w pc k = SWait NORMAL ∨ wake_all w pc k = SWoken NORMAL) ↔
  (pc k = SHoldW ∨ pc k = SWait NORMAL ∨ pc k = SWoken NORMAL).
Proof. unfold wake_all. destruct (pc k); [done| |done..]. case_decide; naive_solver. Qed.

Lemma wake_all_wait w pc k t : wake_all w pc k = SWait t ↔ pc k = SWait t ∧ k ∉ w.*1.
Proof. unfold wake_all. destruct (pc k); try naive_solver. case_decide; naive_solver. Qed.

Lemma wake_all_woken w pc k t : wake_all w pc k = SWoken t → pc k = SWoken t ∨ pc k = SWait t ∧ k ∈ w.*1.
Proof. unfold wake_all. destruct (pc k); try naive_solver. case_decide; naive_solver. Qed.

(** The part of a list behind a notified prefix. *)
Lemma rest_elem (l wk r : waiters) i t :
  l = wk ++ r → NoDup l.*1 → (i, t) ∈ r ↔ (i, t) ∈ l ∧ i ∉ wk.*1.
Proof.
  intros -> Hnd. rewrite fmap_app in Hnd. apply NoDup_app in Hnd as (_ & Hd & _). split.
  - intros Hr. split; [set_solver|]. intros Hi. apply (Hd i Hi).
    apply list_elem_of_fmap. by exists (i, t).
  - intros [[Hw|?]%elem_of_app Hn]; [|done]. destruct Hn. apply list_elem_of_fmap. by exists (i, t).
Qed.

Lemma sm_core_wake1 m pc X w wk r :
  sm_core (mk_sm_sys m pc) X w → sm_wList1 m = wk ++ r →
  sm_core (mk_sm_sys (m <| sm_wList1 := r |>) (wake_all wk pc)) X w.
Proof.
  intros [Hs Hm Hr Hw He H1 H2 Hn1 Hn2] E. simpl in *.
  assert (Hin : ∀ k, k ∈ wk.*1 → ∃ t, t ≠ NORMAL ∧ pc k = SWait t).
  { intros k ((? & t) & -> & Ht)%list_elem_of_fmap. exists t. apply H1. rewrite E. set_solver. }
  split; simpl; [done|done|..|done].
  - intros i. rewrite wake_all_hold. apply Hr.
  - intros i. rewrite wake_all_writer. apply Hw.
  - intros i [Hi|Hi]; apply (He i).
    + left. unfold wake_all in Hi. destruct (pc i); try done. by case_decide.
    + apply wake_all_woken in Hi as [?|[Hi (t & Ht & Ht')%Hin]]; [by right|congruence].
  - intros i t. rewrite (rest_elem (sm_wList1 m) wk r), H1, wake_all_wait by done. tauto.
  - intros i t. rewrite H2, wake_all_wait. split; [|tauto]. intros [-> Hi]. split_and!; [done..|].
    intros (t & Ht & Ht')%Hin. congruence.
  - rewrite E, fmap_app in Hn1. by apply NoDup_app in Hn1 as (_ & _ & ?).
Qed.

(** The only thread that can wait in the second list is the entered writer. *)
Lemma sm_core_wake2 m pc w wk r :
  sm_core (mk_sm_sys m pc) ∅ w → sm_wList2 m = wk ++ r →
  sm_core (mk_sm_sys (m <| sm_wList2 := r |>) (wake_all wk pc)) ∅ w.
Proof.
  intros [Hs Hm Hr Hw He H1 H2 Hn1 Hn2] E. simpl in *.
  assert (Hin : ∀ k, k ∈ wk.*1 → pc k = SWait NORMAL).
  { intros k ((? & t) & -> & Ht)%list_elem_of_fmap. eapply H2. rewrite E. apply elem_of_app. by left. }
  split; simpl; [done|done|..].
  - intros i. rewrite wake_all_hold. apply Hr.
  - intros i. rewrite wake_all_writer. apply Hw.
  - done.
  - intros i t. rewrite H1, wake_all_wait. split; [|tauto]. intros [? Hi]. split_and!; [done..|].
    intros Ht%Hin. congruence.
  - intros i t. rewrite (rest_elem (sm_wList2 m) wk r), H2, wake_all_wait by done. tauto.
  - done.
  - rewrite E, fmap_app in Hn2. by apply NoDup_app in Hn2 as (_ & _ & ?).
Qed.

Lemma NotifyAll_spec l w r : NotifyAll l = (w, r) → l = w ++ r ∧ (l ≠ [] → w ≠ []).
Proof.
  revert w r. induction l as [|[j t] l IH]; intros w r E; simpl in E; [by simplify_eq|].
  assert (Hrec : ∀ x, (let '(w, r) := NotifyAll l in (x :: w, r)) = (w, r) → x :: l = w ++ r ∧ (x :: l ≠ [] → w ≠ [])).
  { intros x Ex. destruct (NotifyAll l) as [w0 r0]. injection Ex as <- <-.
    destruct (IH _ _ eq_refl) as [-> _]. done. }
  destruct t; [by apply Hrec| |by simplify_eq].
  destruct l as [|[k []] l']; try by apply Hrec. by simplify_eq.
Qed.

Lemma NotifyOne_spec l w r : NotifyOne l = (w, r) → l = w ++ r ∧ (l ≠ [] → w ≠ []).
Proof. destruct l; intros [= <- <-]; done. Qed.

(** Whoever is notified in the first list is woken. *)
Lemma notified_woken m pc X w wk r :
  sm_core (mk_sm_sys m pc) X w → sm_wList1 m = wk ++ r → wk ≠ [] →
  ∃ j t, t ≠ NORMAL ∧ wake_all wk pc j = SWoken t.
Proof.
  intros [_ _ _ _ _ H1 _ _ _] E Hne. simpl in *. destruct wk as [|[j t] wk]; [done|].
  destruct (H1 j t) as [[Ht Hj] _]; [rewrite E; left|]. exists j, t. split; [done|].
  unfold wake_all. rewrite Hj, decide_True; [done|]. simpl. left.
Qed.

Definition sm_inv (s : sm_sys) : Prop := ∃ X w, sm_core s X w ∧ sm_attended s X.

(** A thread that does not hold the mutex, has not entered and does not sleep. *)
Definition outside (p : sm_pc) : Prop := p = SIdle ∨ p = SWoken READ ∨ p = SWoken WRITE.

Lemma outside_facts m pc X w i :
  sm_core (mk_sm_sys m pc) X w → outside (pc i) →
  (∀ t, pc i ≠ SWait t) ∧ (i ∉ X) ∧ w ≠ Some i.
Proof.
  intros [_ _ Hr Hw _ _ _ _ _] Hi. simpl in *. split_and!.
  - intros t Ht. destruct Hi as [Hi|[Hi|Hi]]; congruence.
  - intros HX%Hr. destruct Hi as [Hi|[Hi|Hi]]; congruence.
  - intros HX%Hw. destruct Hi as [Hi|[Hi|Hi]], HX as [HX|[HX|HX]]; congruence.
Qed.

(** The state word with its two readings. *)
Lemma state_cases m pc X w :
  sm_core (mk_sm_sys m pc) X w →
  w = None ∧ sm_state m = Z.of_nat (size X) ∧ Z.land (sm_state m) writeEntered = 0 ∧ sm_state m <= readersMax ∨
  is_Some w ∧ sm_state m = writeEntered + Z.of_nat (size X) ∧ Z.land (sm_state m) writeEntered ≠ 0 ∧
  sm_state m > readersMax.
Proof.
  intros [Hs Hm _ _ _ _ _ _ _]. simpl in *. rewrite Hs.
  assert (Hsz : 0 <= Z.of_nat (size X) <= readersMax) by (split; [lia|exact Hm]). destruct w.
  - right. pose proof (writer_bits _ Hsz) as [? _].
    split_and!; [by eexists|done|done|]. unfold writeEntered, readersMax. lia.
  - left. rewrite Z.add_0_l. pose proof (readers_bits _ Hsz) as [? _].
    split_and!; [done..|lia].
Qed.

Lemma size_eq_0 (X : gset thread) : Z.of_nat (size X) = 0 ↔ X = ∅.
Proof. split; [intros H; apply leibniz_equiv, size_empty_iff; lia|by intros ->]. Qed.

(** The side conditions of [sm_core_move]. *)
Ltac sm_side :=
  simpl; first
    [ done | lia | by rewrite app_nil_r
    | split; solve [congruence | tauto | by intros [|[|]]; congruence]
    | intros; split; congruence
    | intros [|]; congruence | by intros _ [? ?] ].

Lemma sm_inv_Lock m pc X w i m' p :
  sm_core (mk_sm_sys m pc) X w → sm_attended (mk_sm_sys m pc) X → outside (pc i) →
  Lock i m = (m', p) → sm_inv (mk_sm_sys m' (<[i := p]> pc)).
Proof.
  intros Hc [Ha1 Ha2] Hi E. destruct (outside_facts _ _ _ _ _ Hc Hi) as (Hnw & HX & Hw).
  assert (Hsz : 0 <= Z.of_nat (size X) <= readersMax) by (split; [lia|apply (sc_max _ _ _ Hc)]).
  unfold Lock, Lock_readers in E. simpl in *.
  destruct (state_cases _ _ _ _ Hc) as [(-> & Hs & Hb & _)|([j ->] & Hs & Hb & _)].
  - rewrite decide_False in E by tauto. simpl in E.
    destruct (readers_bits _ Hsz) as (_ & _ & Hor).
    rewrite Hs, Hor in E. destruct (writer_bits _ Hsz) as [_ Hand].
    rewrite Hand in E. exists X, (Some i).
    case_decide as Hn; injection E as <- <-.
    + rewrite size_eq_0 in Hn. split; [|by split; simpl; [left; unfold writeEntered; lia|done]].
      eapply sm_core_move; [done|sm_side..].
    + apply size_eq_0 in Hn. subst X. split; [|split; simpl; [left; unfold writeEntered; lia|done]].
      eapply sm_core_move; [done|sm_side..].
  - rewrite decide_True in E by done. injection E as <- <-. exists X, (Some j).
    split; [|split; simpl; [left; rewrite Hs; unfold writeEntered; lia|done]].
    eapply sm_core_move; [done|sm_side..].
Qed.

Lemma sm_inv_enter_reader m pc X i :
  sm_core (mk_sm_sys m pc) X None → sm_attended (mk_sm_sys m pc) X → outside (pc i) →
  sm_state m < readersMax →
  sm_inv (mk_sm_sys (m <| sm_state ::= λ v, u32 (v + 1) |>) (<[i := SHoldR]> pc)).
Proof.
  intros Hc [Ha1 Ha2] Hi Hlt. destruct (outside_facts _ _ _ _ _ Hc Hi) as (Hnw & HX & Hw).
  pose proof (sc_state _ _ _ Hc) as Hs. simpl in *.
  assert (Hsz : Z.of_nat (size ({[i]} ∪ X)) = Z.of_nat (size X) + 1).
  { rewrite size_union by set_solver. rewrite size_singleton. lia. }
  assert (Hu : u32 (sm_state m + 1) = Z.of_nat (size X) + 1).
  { rewrite Hs, Z.add_0_l. apply u32_id. unfold is_u32, UINT32_MAX, readersMax in *. lia. }
  exists ({[i]} ∪ X), None. split.
  - eapply sm_core_move; [done|try sm_side..].
    + split; [intros _; apply elem_of_union_l, elem_of_singleton_2|]; done.
    + intros k Hk. rewrite elem_of_union, elem_of_singleton. tauto.
  - split; simpl; [left; rewrite Hu; lia|set_solver].
Qed.

Lemma sm_inv_LockShared m pc X w i m' p :
  sm_core (mk_sm_sys m pc) X w → sm_attended (mk_sm_sys m pc) X → outside (pc i) →
  LockShared i m = (m', p) → sm_inv (mk_sm_sys m' (<[i := p]> pc)).
Proof.
  intros Hc Ha Hi E. destruct (outside_facts _ _ _ _ _ Hc Hi) as (Hnw & HX & Hw).
  unfold LockShared in E. case_decide as Hge; injection E as <- <-.
  - pose proof Ha as [Ha1 Ha2]. exists X, w. pose proof (sc_state _ _ _ Hc). pose proof (sc_max _ _ _ Hc).
    split; [|split; simpl; [left; unfold readersMax in *; lia|done]].
    eapply sm_core_move; [done|sm_side..].
  - destruct (state_cases _ _ _ _ Hc) as [(-> & _)|(_ & _ & _ & ?)]; [|lia].
    eapply sm_inv_enter_reader; [done..|lia].
Qed.

(** A woken writer of the second list finds the readers gone. *)
Lemma sm_inv_Lock_readers m pc X w i m' p :
  sm_core (mk_sm_sys m pc) X w → sm_attended (mk_sm_sys m pc) X → pc i = SWoken NORMAL →
  Lock_readers i m = (m', p) → sm_inv (mk_sm_sys m' (<[i := p]> pc)).
Proof.
  intros Hc [Ha1 Ha2] Hi E.
  assert (w = Some i) as -> by (apply (sc_writer _ _ _ Hc); simpl; tauto).
  assert (X = ∅) as -> by (apply (sc_excl _ _ _ Hc i); simpl; tauto).
  pose proof (sc_state _ _ _ Hc) as Hs. rewrite size_empty, Z.add_0_r in Hs. simpl in *.
  unfold Lock_readers in E. rewrite Hs in E.
  destruct (writer_bits 0) as [_ Hand]; [unfold readersMax; lia|]. rewrite Z.add_0_r in Hand.
  rewrite decide_False in E by (rewrite Hand; tauto).
  injection E as <- <-. exists ∅, (Some i). split.
  - eapply sm_core_move; [done|try sm_side..].
    intros t. by rewrite Hi.
  - split; simpl; [|done]. left. rewrite Hs. unfold writeEntered. lia.
Qed.

Lemma sm_inv_TryLock m pc X w i m' b :
  sm_core (mk_sm_sys m pc) X w → sm_attended (mk_sm_sys m pc) X → pc i = SIdle →
  TryLock m = (b, m') → sm_inv (mk_sm_sys m' (<[i := if b then SHoldW else SIdle]> pc)).
Proof.
  intros Hc [Ha1 Ha2] Hi E. destruct (outside_facts _ _ _ _ i Hc ltac:(by left)) as (Hnw & HX & Hw).
  unfold TryLock in E. simpl in *. case_decide as Hz; injection E as <- <-.
  - destruct (state_cases _ _ _ _ Hc) as [(-> & Hs & _)|(_ & _ & _ & Hgt)]; [|unfold readersMax in *; lia].
    rewrite Hs in Hz. apply size_eq_0 in Hz as ->. exists ∅, (Some i). split.
    + eapply sm_core_move; [done|sm_side..].
    + split; simpl; [|done]. left. unfold writeEntered. lia.
  - exists X, w. pose proof (sc_state _ _ _ Hc). pose proof (sc_max _ _ _ Hc). split.
    + eapply sm_core_move; [done|sm_side..].
    + by split; simpl; [left|].
Qed.

Lemma sm_inv_TryLockShared m pc X w i m' b :
  sm_core (mk_sm_sys m pc) X w → sm_attended (mk_sm_sys m pc) X → pc i = SIdle →
  TryLockShared m = (b, m') → sm_inv (mk_sm_sys m' (<[i := if b then SHoldR else SIdle]> pc)).
Proof.
  intros Hc Ha Hi E. destruct (outside_facts _ _ _ _ i Hc ltac:(by left)) as (Hnw & HX & Hw).
  unfold TryLockShared in E. case_decide as Hz; injection E as <- <-.
  - destruct (state_cases _ _ _ _ Hc) as [(-> & Hs & _)|(_ & _ & _ & Hgt)]; [|lia].
    eapply sm_inv_enter_reader; [done|done|by left|done].
  - pose proof Ha as [Ha1 Ha2]. exists X, w. pose proof (sc_state _ _ _ Hc). pose proof (sc_max _ _ _ Hc). split.
    + eapply sm_core_move; [done|sm_side..].
    + split; simpl; [left; unfold readersMax in *; lia|done].
Qed.

(** ** Unlock *)

(** The writer leaves. *)
Lemma sm_core_leave_writer m pc X w i :
  sm_core (mk_sm_sys m pc) X w → pc i = SHoldW →
  X = ∅ ∧ sm_state m = writeEntered ∧
  sm_core (mk_sm_sys (m <| sm_state := 0 |>) (<[i := SIdle]> pc)) ∅ None.
Proof.
  intros Hc Hi.
  assert (w = Some i) as -> by (apply (sc_writer _ _ _ Hc); simpl; tauto).
  assert (X = ∅) as -> by (apply (sc_excl _ _ _ Hc i); simpl; tauto).
  pose proof (sc_state _ _ _ Hc) as Hs. rewrite size_empty, Z.add_0_r in Hs.
  split_and!; [done|done|]. eapply sm_core_move; [done|try sm_side..].
  intros t. by rewrite Hi.
Qed.

(** A reader leaves. *)
Lemma sm_core_leave_reader m pc X w i :
  sm_core (mk_sm_sys m pc) X w → pc i = SHoldR →
  sm_state m ≠ writeEntered ∧ sm_state m > 0 ∧
  sm_core (mk_sm_sys (m <| sm_state ::= λ v, u32 (v - 1) |>) (<[i := SIdle]> pc)) (X ∖ {[i]}) w.
Proof.
  intros Hc Hi. assert (HX : i ∈ X) by (by apply (sc_readers _ _ _ Hc)).
  pose proof (sc_state _ _ _ Hc) as Hs. pose proof (sc_max _ _ _ Hc) as Hm. simpl in *.
  assert (Hw : w ≠ Some i) by (intros [|[|]]%(sc_writer _ _ _ Hc); simpl in *; congruence).
  assert (Hsz : Z.of_nat (size X) = Z.of_nat (size (X ∖ {[i]})) + 1).
  { rewrite (union_difference_singleton_L i X HX) at 1. rewrite size_union, size_singleton by set_solver. lia. }
  assert (Hu : u32 (sm_state m - 1) = (if w is Some _ then writeEntered else 0) + Z.of_nat (size (X ∖ {[i]}))).
  { rewrite Hs, Hsz. rewrite u32_id; [lia|].
    unfold is_u32, UINT32_MAX, readersMax, writeEntered in *. destruct w; lia. }
  split_and!.
  - rewrite Hs. unfold writeEntered, readersMax in *. destruct w; lia.
  - rewrite Hs. unfold writeEntered. destruct w; lia.
  - eapply sm_core_move; [done|try sm_side..].
    + intros t. by rewrite Hi.
    + split; [done|]. intros [_ Hn]%elem_of_difference. set_solver.
    + intros k Hk. rewrite elem_of_difference, elem_of_singleton. tauto.
    + intros ->. by apply elem_of_empty in HX.
Qed.

(** Notifying a prefix of the first list. *)
Lemma sm_inv_notify1 m pc X w f m' wk :
  sm_core (mk_sm_sys m pc) X w → (∀ l w r, f l = (w, r) → l = w ++ r ∧ (l ≠ [] → w ≠ [])) →
  (sm_wList2 m ≠ [] → X ≠ ∅) → notify_list1 f m = (m', wk) → sm_inv (mk_sm_sys m' (wake_all wk pc)).
Proof.
  intros Hc Hf H2 E. unfold notify_list1 in E. destruct (f (sm_wList1 m)) as [wk' r] eqn:Ef.
  injection E as <- <-. destruct (Hf _ _ _ Ef) as [El Hne]. exists X, w. split; [by apply sm_core_wake1|].
  split; simpl; [|done]. intros Hr. right. eapply notified_woken; [done|done|]. apply Hne. rewrite El.
  by intros [_ ?]%app_nil.
Qed.

(** Only the entered writer waits in the second list. *)
Lemma list2_writer m pc X w i t : sm_core (mk_sm_sys m pc) X w → (i, t) ∈ sm_wList2 m → w = Some i.
Proof. intros Hc [-> Hi]%(sc_list2 _ _ _ Hc). apply (sc_writer _ _ _ Hc). tauto. Qed.

Lemma list2_none m pc X : sm_core (mk_sm_sys m pc) X None → sm_wList2 m = [].
Proof.
  intros Hc. destruct (sm_wList2 m) as [|[i t] l] eqn:E; [done|].
  assert (None = Some i); [|done]. eapply list2_writer; [done|]. rewrite E. left.
Qed.

Lemma sm_inv_notify2 m pc j m' wk :
  sm_core (mk_sm_sys m pc) ∅ (Some j) → notify_list2 NotifyOne m = (m', wk) →
  sm_inv (mk_sm_sys m' (wake_all wk pc)).
Proof.
  intros Hc E. unfold notify_list2 in E. destruct (NotifyOne (sm_wList2 m)) as [wk' r] eqn:Ef.
  injection E as <- <-. destruct (NotifyOne_spec _ _ _ Ef) as [El _]. exists ∅, (Some j).
  split; [by apply sm_core_wake2|]. pose proof (sc_state _ _ _ Hc) as Hs. split; simpl in *.
  - intros _. left. rewrite Hs. unfold writeEntered. lia.
  - intros Hr. destruct r as [|[k t] r]; [done|]. destruct (sm_wList2 m) as [|[k' t'] l'] eqn:E2.
    { by destruct wk'. }
    injection Ef as <- ->.
    assert (Some j = Some k') by (eapply list2_writer; [done|rewrite E2; left]).
    assert (Some j = Some k) by (eapply list2_writer; [done|rewrite E2; right; left]).
    pose proof (sc_nodup2 _ _ _ Hc) as Hnd. simpl in Hnd. rewrite E2 in Hnd. simpl in Hnd.
    apply NoDup_cons in Hnd as [Hnd _]. destruct Hnd. simplify_eq. left.
Qed.

Lemma sm_inv_Unlock m pc X w i m' wk :
  sm_core (mk_sm_sys m pc) X w → sm_attended (mk_sm_sys m pc) X → pc i = SHoldW ∨ pc i = SHoldR →
  Unlock m = (m', wk) → sm_inv (mk_sm_sys m' (wake_all wk (<[i := SIdle]> pc))).
Proof.
  intros Hc [Ha1 Ha2] [Hi|Hi] E; unfold Unlock in E; simpl in *.
  - destruct (sm_core_leave_writer _ _ _ _ _ Hc Hi) as (-> & Hs & Hc'). rewrite decide_True in E by done.
    eapply sm_inv_notify1; [exact Hc'|apply NotifyAll_spec| |exact E]. done.
  - destruct (sm_core_leave_reader _ _ _ _ _ Hc Hi) as (Hs1 & Hs2 & Hc').
    rewrite decide_False, decide_True in E by done.
    destruct (state_cases _ _ _ _ Hc') as [(-> & Hs & Hb & _)|([j ->] & Hs & Hb & _)]; simpl in Hs, Hb.
    + pose proof (list2_none _ _ _ Hc') as Hl2. simpl in Hl2.
      rewrite (decide_False (P := Z.land _ _ ≠ 0)) in E by tauto.
      case_decide as Hmax; [|case_decide as Hl1].
      * eapply sm_inv_notify1; [exact Hc'|apply NotifyOne_spec|by simpl; rewrite Hl2|exact E].
      * eapply sm_inv_notify1; [exact Hc'|apply NotifyAll_spec|by simpl; rewrite Hl2|exact E].
      * simplify_eq. exists (X ∖ {[i]}), None. split; [exact (sm_core_wake1 _ _ _ _ [] _ Hc' eq_refl)|].
        split; simpl; [done|by rewrite Hl2].
    + rewrite decide_True in E by done. case_decide as Hwe.
      * rewrite Hs in Hwe. assert (Hsz : Z.of_nat (size (X ∖ {[i]})) = 0) by lia.
        apply size_eq_0 in Hsz. rewrite Hsz in *. by eapply sm_inv_notify2.
      * injection E as <- <-. exists (X ∖ {[i]}), (Some j). split; [exact (sm_core_wake1 _ _ _ _ [] _ Hc' eq_refl)|].
        split; simpl; [left; rewrite Hs; unfold writeEntered; lia|].
        intros _ Hsz. rewrite Hs, Hsz, size_empty in Hwe. lia.
Qed.

Lemma sm_inv_step (s s' : sm_sys) : sm_inv s → sm_step s s' → sm_inv s'.
Proof.
  intros (X & w & Hc & Ha) Hstep. destruct Hstep as
    [m pc i m' p Hi E|m pc i m' b Hi E|m pc i m' p Hi E|m pc i m' b Hi E|m pc i t m' p Hi E|m pc i m' wk Hi E].
  - eapply sm_inv_Lock; [done|done|by left|done].
  - by eapply sm_inv_TryLock.
  - eapply sm_inv_LockShared; [done|done|by left|done].
  - by eapply sm_inv_TryLockShared.
  - destruct t; simpl in E; [by eapply sm_inv_Lock_readers| |].
    + eapply sm_inv_LockShared; [done|done|rewrite Hi; right; by left|done].
    + eapply sm_inv_Lock; [done|done|rewrite Hi; right; by right|done].
  - by eapply sm_inv_Unlock.
Qed.

Lemma sm_inv_reachable (s : sm_sys) : rtc sm_step sm_init s → sm_inv s.
Proof.
  intros H. apply (rtc_ind_r sm_inv _) in H; [done| |].
  - exists ∅, None. split; [apply sm_core_init|]. by split.
  - intros y z _ Hyz Hy. by eapply sm_inv_step.
Qed.

(** ** Properties *)

(** C31: readers share, a writer excludes.  In every interleaving a thread that
    holds the mutex exclusively is alone, and the state word counts: its top bit
    says that a writer has entered, its low bits are the number of threads that
    hold the mutex shared, which never overflow into the top bit. *)
Theorem shared_mutex_exclusion (s : sm_sys) :
  rtc sm_step sm_init s →
  (∀ i j, ss_pc s i = SHoldW → ss_pc s j = SHoldW ∨ ss_pc s j = SHoldR → i = j) ∧
  ∃ X : gset thread, (∀ i, i ∈ X ↔ ss_pc s i = SHoldR) ∧ Z.of_nat (size X) <= readersMax ∧
    (sm_state (ss_m s) = Z.of_nat (size X) ∨
     sm_state (ss_m s) = writeEntered + Z.of_nat (size X) ∧
     ∃ i, ss_pc s i = SHoldW ∨ ss_pc s i = SWait NORMAL ∨ ss_pc s i = SWoken NORMAL).
Proof.
  intros (X & w & Hc & _)%sm_inv_reachable. split.
  - intros i j Hi [Hj|Hj].
    + assert (w = Some i) by (apply (sc_writer _ _ _ Hc); tauto).
      assert (w = Some j) by (apply (sc_writer _ _ _ Hc); tauto). congruence.
    + apply (sc_readers _ _ _ Hc) in Hj. rewrite (sc_excl _ _ _ Hc i) in Hj by tauto.
      by apply elem_of_empty in Hj.
  - exists X. split_and!; [intros i; by rewrite (sc_readers _ _ _ Hc)|apply Hc|].
    pose proof (sc_state _ _ _ Hc) as Hs. destruct w as [i|].
    + right. split; [done|]. exists i. by apply (sc_writer _ _ _ Hc).
    + left. by rewrite Hs.
Qed.

(** no wakeup is lost.  When no thread holds the mutex and no thread has been
    notified without having run since, nobody sleeps. *)
Theorem shared_mutex_no_lost_wakeup (s : sm_sys) :
  rtc sm_step sm_init s →
  (∀ j, ss_pc s j ≠ SHoldW ∧ ss_pc s j ≠ SHoldR ∧ ∀ t, ss_pc s j ≠ SWoken t) →
  ∀ i t, ss_pc s i ≠ SWait t.
Proof.
  intros (X & w & Hc & Ha)%sm_inv_reachable Hq.
  assert (X = ∅) as ->.
  { apply set_eq. intros k. split; [|by intros ?%elem_of_empty].
    intros Hk%(sc_readers _ _ _ Hc). by destruct (Hq k) as (_ & ? & _). }
  assert (Hl2 : sm_wList2 (ss_m s) = []).
  { destruct (decide (sm_wList2 (ss_m s) = [])) as [|Hne]; [done|]. by apply (sa_list2 _ _ Ha) in Hne. }
  assert (Hnw : ∀ k, ss_pc s k ≠ SWait NORMAL).
  { intros k Hk. assert (Hin : (k, NORMAL) ∈ sm_wList2 (ss_m s)) by (by apply (sc_list2 _ _ _ Hc)).
    rewrite Hl2 in Hin. by apply elem_of_nil in Hin. }
  assert (w = None) as ->.
  { destruct w as [k|]; [|done]. exfalso.
    pose proof (proj2 (sc_writer _ _ _ Hc k) eq_refl) as [Hk|[Hk|Hk]].
    - by destruct (Hq k). - by apply (Hnw k). - destruct (Hq k) as (_ & _ & Hn). by apply (Hn NORMAL). }
  intros i t Hi. destruct (decide (t = NORMAL)) as [->|Ht]; [by apply (Hnw i)|].
  assert (Hin : (i, t) ∈ sm_wList1 (ss_m s)) by (by apply (sc_list1 _ _ _ Hc)).
  destruct (sa_list1 _ _ Ha) as [Hs|(j & t' & _ & Hj)].
  - intros E. rewrite E in Hin. by apply elem_of_nil in Hin.
  - rewrite (sc_state _ _ _ Hc), size_empty in Hs. lia.
  - destruct (Hq j) as (_ & _ & Hn). by apply (Hn t').
Qed.

(** Thread 1 takes the mutex, thread 2 sleeps on it, thread 1 leaves, thread 2
    enters and leaves. *)
Definition handed_over : list sm_sys :=
  let p1 : thread → sm_pc := <[1%positive := SHoldW]> (λ _, SIdle) in
  let p2 := <[2%positive := SWait READ]> p1 in
  let p3 := wake_all [(2%positive, READ)] (<[1%positive := SIdle]> p2) in
  let p4 := <[2%positive := SHoldR]> p3 in
  let p5 := wake_all [] (<[2%positive := SIdle]> p4) in
  [mk_sm_sys (mk_SharedMutex writeEntered [] []) p1;
   mk_sm_sys (mk_SharedMutex writeEntered [(2%positive, READ)] []) p2;
   mk_sm_sys (mk_SharedMutex 0 [] []) p3;
   mk_sm_sys (mk_SharedMutex 1 [] []) p4;
   mk_sm_sys (mk_SharedMutex 0 [] []) p5].

Lemma handed_over_reachable n (s : sm_sys) :
  handed_over !! n = Some s → rtc sm_step sm_init s.
Proof.
  assert (H1 : sm_step sm_init (nth 0 handed_over sm_init))
    by (eapply (sm_trylock _ _ 1%positive _ true); reflexivity).
  assert (H2 : sm_step (nth 0 handed_over sm_init) (nth 1 handed_over sm_init))
    by (eapply (sm_lock_shared _ _ 2%positive); reflexivity).
  assert (H3 : sm_step (nth 1 handed_over sm_init) (nth 2 handed_over sm_init))
    by (eapply (sm_unlock _ _ 1%positive); [by left|reflexivity]).
  assert (H4 : sm_step (nth 2 handed_over sm_init) (nth 3 handed_over sm_init))
    by (eapply (sm_resume _ _ 2%positive READ); reflexivity).
  assert (H5 : sm_step (nth 3 handed_over sm_init) (nth 4 handed_over sm_init))
    by (eapply (sm_unlock _ _ 2%positive); [by right|reflexivity]).
  destruct n as [|[|[|[|[|]]]]]; intros [= <-]; eauto 7 using rtc_l, rtc_refl.
Qed.

Lemma shared_mutex_exclusion_witness :
  let s := nth 3 handed_over sm_init in
  ∃ X : gset thread, (∀ i, i ∈ X ↔ ss_pc s i = SHoldR) ∧ Z.of_nat (size X) <= readersMax ∧
    (sm_state (ss_m s) = Z.of_nat (size X) ∨
     sm_state (ss_m s) = writeEntered + Z.of_nat (size X) ∧
     ∃ i, ss_pc s i = SHoldW ∨ ss_pc s i = SWait NORMAL ∨ ss_pc s i = SWoken NORMAL).
Proof.
  apply (proj2 (shared_mutex_exclusion (nth 3 handed_over sm_init) (handed_over_reachable 3 _ eq_refl))).
Defined.

Lemma shared_mutex_no_lost_wakeup_witness :
  ss_pc (nth 4 handed_over sm_init) 2%positive ≠ SWait READ.
Proof.
  apply shared_mutex_no_lost_wakeup; [by apply (handed_over_reachable 4)|].
  intros j. simpl. unfold wake_all. rewrite !fn_insert_decide.
  repeat (case_decide; simpl); split_and!; done.
Defined.

(** ** The C interface *)

Definition ffrt_rwlock_init (rwlockNull attrNull : bool) : Z * option SharedMutexPrivate :=
  if rwlockNull then (ffrt_error_inval, None)
  else if negb attrNull then (ffrt_error_inval, None)
  else (ffrt_success, Some SharedMutexPrivate_ctor).

Definition ffrt_rwlock_trywrlock (rwlock : option SharedMutexPrivate) : Z * option SharedMutexPrivate :=
  match rwlock with
  | None => (ffrt_error_inval, None)
  | Some s => let '(b, s) := TryLock s in (if b then ffrt_success else ffrt_error_busy, Some s)
  end.

Definition ffrt_rwlock_tryrdlock (rwlock : option SharedMutexPrivate) : Z * option SharedMutexPrivate :=
  match rwlock with
  | None => (ffrt_error_inval, None)
  | Some s => let '(b, s) := TryLockShared s in (if b then ffrt_success else ffrt_error_busy, Some s)
  end.
