(* ===== verification/WaitQueue.v ===== *)
(** * Condition variables

    Models src/sync/wait_queue.{h,cpp} and the C interface of
    src/sync/condition_variable.cpp.  A waiter is a thread, which sleeps on the
    condition variable of its own entry, or a coroutine, which is switched out
    and resumed with [CoWake]; the two kinds are modelled in a module each, with
    one atomic section per critical section of [wqlock].  The mutex of the
    caller is used through the lock interface that Mutex.v implements: acquired
    only when free, released by its holder.  The queue is the sequence that its
    [prev]/[next] links represent. *)

From S2P Require Import Prelude LinkedList Mutex.

(** ** Queue operations *)

Section queue.
Context {E : Type} `{EqDecision E}.

Definition wq_push_back (we : E) (q : list E) : list E := q ++ [we].
Definition wq_pop_front (q : list E) : option (E * list E) :=
  match q with [] => None | we :: q => Some (we, q) end.
Definition wq_remove (we : E) (q : list E) : list E := filter (λ x, x ≠ we) q.
Definition wq_empty (q : list E) : bool := bool_decide (q = []).

Lemma elem_wq_remove (we x : E) q : x ∈ wq_remove we q ↔ x ∈ q ∧ x ≠ we.
Proof. unfold wq_remove. rewrite list_elem_of_filter. tauto. Qed.

Lemma NoDup_wq_remove (we : E) q : NoDup q → NoDup (wq_remove we q).
Proof. apply NoDup_filter. Qed.
End queue.

(** ** Threads *)

Module ThreadWaiters.

(** Where a caller is: without the mutex, with it, in [ThreadWait] or
    [ThreadWaitUntil] between [push_back] and [cv.wait] (still with the mutex),
    asleep, or back from [cv.wait] and about to take the mutex.  The flag says
    that the wait has a deadline. *)
Inductive cv_pc := COut | CHold | CQueued (timed : bool) | CAsleep (timed : bool) | CWoken.

Record cv_sys := mk_cv_sys {
  cv_queue : list thread;      (* whead *)
  cv_lk : option thread;       (* the holder of the caller's mutex *)
  cv_pcs : thread → cv_pc;
}.

Definition cv_init : cv_sys := mk_cv_sys [] None (λ _, COut).

(** The first block of [ThreadWait] and [ThreadWaitUntil]. *)
Definition ThreadWait_push (timed : bool) (i : thread) (s : cv_sys) : cv_sys :=
  mk_cv_sys (wq_push_back i (cv_queue s)) (cv_lk s) (<[i := CQueued timed]> (cv_pcs s)).

(** The second block: [wn->wl] is held from before [lk->unlock()] until
    [cv.wait] sleeps, so a notifier cannot come in between. *)
Definition ThreadWait_block (timed : bool) (i : thread) (s : cv_sys) : cv_sys :=
  mk_cv_sys (cv_queue s) None (<[i := CAsleep timed]> (cv_pcs s)).

(** [ThreadWaitUntil] after [cv.wait_until] timed out. *)
Definition ThreadWaitUntil_timeout (i : thread) (s : cv_sys) : cv_sys :=
  mk_cv_sys (wq_remove i (cv_queue s)) (cv_lk s) (<[i := CWoken]> (cv_pcs s)).

(** One iteration of [Notify]: [notify_one] reaches a thread only when it sleeps. *)
Definition Notify_iter (s : cv_sys) : cv_sys :=
  match wq_pop_front (cv_queue s) with
  | None => s
  | Some (j, q) =>
      mk_cv_sys q (cv_lk s)
        (match cv_pcs s j with CAsleep _ => <[j := CWoken]> (cv_pcs s) | _ => cv_pcs s end)
  end.

(** [underLock]: notifiers hold the mutex of the waiters. *)
Inductive cv_step (underLock : bool) : cv_sys → cv_sys → Prop :=
| cv_lock q pc i :
    pc i = COut ∨ pc i = CWoken →
    cv_step underLock (mk_cv_sys q None pc) (mk_cv_sys q (Some i) (<[i := CHold]> pc))
| cv_unlock q lk pc i :
    pc i = CHold → cv_step underLock (mk_cv_sys q lk pc) (mk_cv_sys q None (<[i := COut]> pc))
| cv_push s i timed : cv_pcs s i = CHold → cv_step underLock s (ThreadWait_push timed i s)
| cv_block s i timed : cv_pcs s i = CQueued timed → cv_step underLock s (ThreadWait_block timed i s)
| cv_timeout s i : cv_pcs s i = CAsleep true → cv_step underLock s (ThreadWaitUntil_timeout i s)
| cv_notify s i :
    (if underLock then cv_pcs s i = CHold else cv_pcs s i = COut ∨ cv_pcs s i = CHold) →
    cv_step underLock s (Notify_iter s).

(** *** A notification can be lost for good *)

(** A thread that sleeps without a deadline and is not in the queue. *)
Definition stranded (i : thread) (s : cv_sys) : Prop := cv_pcs s i = CAsleep false ∧ i ∉ cv_queue s.

Lemma stranded_step b i s s' : stranded i s → cv_step b s s' → stranded i s'.
Proof.
  unfold stranded. intros [Hp Hq] Hstep. destruct Hstep as [q pc k Hk|q lk pc k Hk|s k t Hk|s k t Hk|s k Hk|s k Hk];
    simpl in *; rewrite ?fn_insert_decide.
  - case_decide; [subst; destruct Hk; congruence|done].
  - case_decide; [congruence|done].
  - case_decide; [congruence|]. split; [done|]. unfold wq_push_back. set_solver.
  - case_decide; [congruence|done].
  - case_decide; [congruence|]. split; [done|]. rewrite elem_wq_remove. tauto.
  - unfold Notify_iter. destruct (cv_queue s) as [|j q] eqn:Eq; [by simpl; rewrite Eq|]. simpl.
    apply not_elem_of_cons in Hq as [Hne Hq]. split; [|done].
    destruct (cv_pcs s j); try done. by rewrite fn_insert_decide, decide_False.
Qed.

(** a notification issued without holding the mutex can be lost for good.
    [ThreadWait] enters the queue before it takes [wn->wl]; a notifier that runs
    in between pops the entry and signals a condition variable nobody waits on
    yet.  The waiter then sleeps outside the queue, and no later [NotifyOne] or
    [NotifyAll], by whomever, wakes it. *)
Theorem cond_notify_lost_forever :
  ∃ s, rtc (cv_step false) cv_init s ∧ stranded 1%positive s ∧
       ∀ b s', rtc (cv_step b) s s' → cv_pcs s' 1%positive = CAsleep false.
Proof.
  pose (s1 := mk_cv_sys [] (Some 1%positive) (<[1%positive := CHold]> (λ _, COut))).
  pose (s2 := ThreadWait_push false 1%positive s1).
  pose (s3 := Notify_iter s2).
  pose (s4 := ThreadWait_block false 1%positive s3).
  exists s4. assert (Hst : stranded 1%positive s4) by (split; [done|by intros ?%elem_of_nil]).
  split_and!; [|done|].
  - eapply rtc_l; [by apply (cv_lock _ _ _ 1%positive); left|].
    eapply rtc_l; [by apply (cv_push _ _ 1%positive false)|].
    eapply rtc_l; [by apply (cv_notify _ _ 2%positive); left|].
    apply rtc_once. by apply (cv_block _ _ 1%positive false).
  - intros b s' Hr. enough (Hs' : stranded 1%positive s') by apply Hs'.
    induction Hr as [|x y z Hxy _ IH]; [done|]. apply IH. by eapply stranded_step.
Qed.

(** *** Notifying under the mutex is safe *)

Record cv_inv (s : cv_sys) : Prop := {
  ci_queue i : i ∈ cv_queue s ↔ ∃ b, cv_pcs s i = CQueued b ∨ cv_pcs s i = CAsleep b;
  ci_nodup : NoDup (cv_queue s);
  ci_lk i : cv_lk s = Some i ↔ cv_pcs s i = CHold ∨ ∃ b, cv_pcs s i = CQueued b;
}.

(** One thread moves; what it establishes for itself and keeps for the others. *)
Lemma cv_inv_move q lk pc i q' lk' p :
  cv_inv (mk_cv_sys q lk pc) → NoDup q' →
  (i ∈ q' ↔ ∃ b, p = CQueued b ∨ p = CAsleep b) → (∀ k, k ≠ i → k ∈ q' ↔ k ∈ q) →
  (lk' = Some i ↔ p = CHold ∨ ∃ b, p = CQueued b) → (∀ k, k ≠ i → lk' = Some k ↔ lk = Some k) →
  cv_inv (mk_cv_sys q' lk' (<[i := p]> pc)).
Proof.
  intros [Hq Hn Hl] Hn' Hq1 Hq2 Hl1 Hl2. simpl in *. split; simpl; [|done|].
  - intros k. rewrite fn_insert_decide. case_decide; subst; [done|]. by rewrite Hq2.
  - intros k. rewrite fn_insert_decide. case_decide; subst; [done|]. by rewrite Hl2.
Qed.

Lemma cv_inv_init : cv_inv cv_init.
Proof.
  split; simpl; [|constructor|].
  - intros i. rewrite elem_of_nil. split; [done|by intros (b & [|])].
  - intros i. split; [done|by intros [|[b ?]]].
Qed.

Lemma holds_lk s i : cv_inv s → cv_pcs s i = CHold ∨ (∃ b, cv_pcs s i = CQueued b) → cv_lk s = Some i.
Proof. intros Hinv ?. by apply (ci_lk _ Hinv). Qed.

(** A notifier that holds the mutex only meets threads that sleep. *)
Lemma cv_inv_notify s i : cv_inv s → cv_pcs s i = CHold → cv_inv (Notify_iter s).
Proof.
  intros Hinv Hi. pose proof (holds_lk _ _ Hinv (or_introl Hi)) as Hlk.
  destruct s as [q lk pc]. unfold Notify_iter. simpl in *. destruct q as [|j q]; [done|]. simpl.
  pose proof (ci_nodup _ Hinv) as Hnd. simpl in Hnd. apply NoDup_cons in Hnd as [Hj Hnd].
  destruct (proj1 (ci_queue _ Hinv j)) as (b & [Hb|Hb]); [left| |]; simpl in Hb.
  - assert (lk = Some j) by (apply (holds_lk _ _ Hinv); simpl; eauto).
    assert (i = j) by congruence. congruence.
  - rewrite Hb. assert (Hij : i ≠ j) by congruence.
    apply (cv_inv_move (j :: q) lk pc); [done|done|..].
    + split; [done|by intros (? & [|])].
    + intros k Hk. rewrite elem_of_cons. naive_solver.
    + rewrite Hlk. split; [congruence|by intros [|[? ?]]].
    + done.
Qed.

Lemma cv_inv_step s s' : cv_inv s → cv_step true s s' → cv_inv s'.
Proof.
  intros Hinv Hstep. destruct Hstep as [q pc i Hi|q lk pc i Hi|s i b Hi|s i b Hi|s i Hi|s i Hi].
  - pose proof Hinv as [Hq Hn Hl]. apply (cv_inv_move q None pc); simpl in *; [done|done| | | |].
    + rewrite Hq. split; [intros (b & [|]); destruct Hi; congruence|by intros (b & [|])].
    + done.
    + split; [by left|done].
    + intros k Hk. split; congruence.
  - pose proof (holds_lk _ _ Hinv (or_introl Hi)) as Hlk. pose proof Hinv as [Hq Hn Hl].
    apply (cv_inv_move q lk pc); simpl in *; [done|done| |done| |].
    + rewrite Hq, Hi. split; by intros (b & [|]).
    + split; [done|by intros [|[b ?]]].
    + intros k Hk. split; congruence.
  - pose proof (holds_lk _ _ Hinv (or_introl Hi)) as Hlk. pose proof Hinv as [Hq Hn Hl].
    assert (Hni : i ∉ cv_queue s) by (rewrite Hq, Hi; by intros (? & [|])).
    destruct s as [q lk pc]. apply (cv_inv_move q lk pc); simpl in *; unfold wq_push_back; [done| | | | |done].
    + apply NoDup_app. split_and!; [done| |apply NoDup_singleton]. set_solver.
    + split; [eauto|set_solver].
    + intros k Hk. set_solver.
    + rewrite Hlk. split; [eauto|done].
  - assert (Hlk : cv_lk s = Some i) by (apply (holds_lk _ _ Hinv); eauto).
    pose proof Hinv as [Hq Hn Hl]. destruct s as [q lk pc].
    apply (cv_inv_move q lk pc); simpl in *; [done|done| |done| |].
    + rewrite Hq, Hi. split; eauto.
    + split; [done|by intros [|[? ?]]].
    + intros k Hk. split; congruence.
  - pose proof Hinv as [Hq Hn Hl]. destruct s as [q lk pc].
    apply (cv_inv_move q lk pc); simpl in *; [done|by apply NoDup_wq_remove| | | |done].
    + rewrite elem_wq_remove. split; [tauto|by intros (? & [|])].
    + intros k Hk. rewrite elem_wq_remove. tauto.
    + rewrite Hl, Hi. split; by intros [|[? ?]].
  - by eapply cv_inv_notify.
Qed.

(** a notification issued while holding the mutex is never lost.  Then the
    queue holds exactly the threads that are asleep or about to sleep, so that a
    thread which sleeps is found by the next notifications, and once the queue
    has been drained nobody sleeps. *)
Theorem cond_notify_under_lock s :
  rtc (cv_step true) cv_init s →
  (∀ i, i ∈ cv_queue s ↔ ∃ b, cv_pcs s i = CQueued b ∨ cv_pcs s i = CAsleep b) ∧
  (∀ i j, cv_pcs s i = CHold ∨ (∃ b, cv_pcs s i = CQueued b) →
          cv_pcs s j = CHold ∨ (∃ b, cv_pcs s j = CQueued b) → i = j) ∧
  (cv_queue s = [] → ∀ i b, cv_pcs s i ≠ CAsleep b).
Proof.
  intros Hr. apply (rtc_ind_r cv_inv _) in Hr; [|apply cv_inv_init|eauto using cv_inv_step].
  split_and!; [apply Hr| |].
  - intros i j Hi%holds_lk Hj%holds_lk; [congruence|done|done].
  - intros Hq i b Hi. assert (Hin : i ∈ cv_queue s) by (apply (ci_queue _ Hr); eauto).
    rewrite Hq in Hin. by apply elem_of_nil in Hin.
Qed.

Definition sleeper : cv_sys :=
  ThreadWait_block false 1%positive (ThreadWait_push false 1%positive
    (mk_cv_sys [] (Some 1%positive) (<[1%positive := CHold]> (λ _, COut)))).

Lemma cond_notify_under_lock_witness :
  cv_pcs sleeper 1%positive = CAsleep false ∧ 1%positive ∈ cv_queue sleeper.
Proof.
  split; [reflexivity|]. apply (cond_notify_under_lock sleeper); [|exists false; by right].
  eapply rtc_l; [by apply (cv_lock _ _ _ 1%positive); left|].
  eapply rtc_l; [by apply (cv_push _ _ 1%positive false)|].
  apply rtc_once. by apply (cv_block _ _ 1%positive false).
Defined.

End ThreadWaiters.

(** ** Coroutines *)

Module CoWaiters.

Inductive WaitEntryStatus := INIT | NOTIFYING | TIMEOUT_DONE.
Inductive CoWakeType := TIMEOUT_WAKE | NO_TIMEOUT_WAKE.

#[export] Instance WaitEntryStatus_eq_dec : EqDecision WaitEntryStatus.
Proof. solve_decision. Defined.

Record WaitUntilEntry := mk_WaitUntilEntry { e_status : WaitEntryStatus; e_hasWaitTime : bool }.

(** An entry is named after the wait it is allocated for. *)
Abbreviation eid := positive.

Record wq_sys := mk_wq_sys {
  q_queue : list eid;
  q_heap : gmap eid WaitUntilEntry;       (* the entries not deleted *)
  q_timer : gset eid;                     (* registered with the delayed worker *)
  q_firing : gset eid;                    (* taken by the delayed worker, callback not done *)
  q_spin : gset eid;                      (* notifiers spinning in WeNotifyProc *)
  q_wakes : list (eid * CoWakeType);      (* coroutines resumed, and why *)
}.

#[export] Instance wq_sys_eta : Eta wq_sys := λ s,
  mk_wq_sys (q_queue s) (q_heap s) (q_timer s) (q_firing s) (q_spin s) (q_wakes s).

Definition wq_init : wq_sys := mk_wq_sys [] ∅ ∅ ∅ ∅ [].

Definition co_wake (e : eid) (t : CoWakeType) (s : wq_sys) : wq_sys := s <| q_wakes ::= λ l, l ++ [(e, t)] |>.
Definition set_entry (e : eid) (st : WaitEntryStatus) (s : wq_sys) : wq_sys :=
  s <| q_heap ::= alter (λ en, mk_WaitUntilEntry st (e_hasWaitTime en)) e |>.
Definition delete_entry (e : eid) (s : wq_sys) : wq_sys := s <| q_heap ::= delete e |>.

(** Both return [None] where the code would read a deleted entry. *)
Definition WeTimeoutProc (e : eid) (s : wq_sys) : option (bool * wq_sys) :=
  en ← q_heap s !! e;
  if decide (e_status en = INIT)
  then Some (true, delete_entry e (s <| q_queue ::= wq_remove e |>))
  else Some (false, set_entry e TIMEOUT_DONE s).

(** [SuspendAndWait]: allocation and the function passed to [CoWait]. *)
Definition SuspendAndWait (e : eid) (s : wq_sys) : wq_sys :=
  s <| q_heap ::= <[e := mk_WaitUntilEntry INIT false]> |> <| q_queue ::= wq_push_back e |>.

(** [SuspendAndWaitUntil]; [inTime] is the result of [DelayedWakeup], which
    refuses a time that has passed: then the coroutine goes on at once. *)
Definition SuspendAndWaitUntil (e : eid) (inTime : bool) (s : wq_sys) : option wq_sys :=
  let s := s <| q_heap ::= <[e := mk_WaitUntilEntry INIT true]> |> <| q_queue ::= wq_push_back e |> in
  if inTime then Some (s <| q_timer ::= λ X, {[e]} ∪ X |>)
  else
    '(toWake, s) ← WeTimeoutProc e s;
    Some (if (toWake : bool) then co_wake e TIMEOUT_WAKE s else s).

(** The callback of the timer. *)
Definition timeout_cb (e : eid) (s : wq_sys) : option wq_sys :=
  _ ← q_heap s !! e;
  '(toWake, s) ← WeTimeoutProc e s;
  let s := s <| q_firing ::= λ X, X ∖ {[e]} |> in
  Some (if (toWake : bool) then co_wake e TIMEOUT_WAKE s else s).

(** [WeNotifyProc] up to the spin loop, and the [CoWake] that follows it when it
    does not spin; [DelayedRemove] succeeds when the timer is still registered. *)
Definition WeNotifyProc (e : eid) (s : wq_sys) : option wq_sys :=
  en ← q_heap s !! e;
  if negb (e_hasWaitTime en) then Some (co_wake e NO_TIMEOUT_WAKE s)
  else if decide (e ∈ q_timer s) then
    Some (co_wake e NO_TIMEOUT_WAKE (delete_entry e (s <| q_timer ::= λ X, X ∖ {[e]} |>)))
  else Some (set_entry e NOTIFYING s <| q_spin ::= λ X, {[e]} ∪ X |>).

(** One evaluation of the spin condition, with what follows when it is false. *)
Definition WeNotifyProc_spin (e : eid) (s : wq_sys) : option wq_sys :=
  en ← q_heap s !! e;
  if decide (e_status en = TIMEOUT_DONE)
  then Some (co_wake e NO_TIMEOUT_WAKE (delete_entry e s) <| q_spin ::= λ X, X ∖ {[e]} |>)
  else Some s.

(** One iteration of [Notify]. *)
Definition Notify_co (s : wq_sys) : option wq_sys :=
  match wq_pop_front (q_queue s) with
  | None => Some s
  | Some (e, q) => WeNotifyProc e (s <| q_queue := q |>)
  end.

(** After an untimed wait the coroutine deletes its entry. *)
Definition SuspendAndWait_resumed (e : eid) (s : wq_sys) : wq_sys := delete_entry e s.

(** An identifier no wait has used. *)
Definition unused (e : eid) (s : wq_sys) : Prop :=
  q_heap s !! e = None ∧
  ¬ (e ∈ q_queue s ∨ e ∈ q_timer s ∨ e ∈ q_firing s ∨ e ∈ q_spin s ∨ e ∈ (q_wakes s).*1).

Inductive wq_step : wq_sys → wq_sys → Prop :=
| wq_wait s e : unused e s → wq_step s (SuspendAndWait e s)
| wq_wait_until s e b s' : unused e s → SuspendAndWaitUntil e b s = Some s' → wq_step s s'
| wq_timer s e :
    e ∈ q_timer s →
    wq_step s (s <| q_timer ::= λ X, X ∖ {[e]} |> <| q_firing ::= λ X, {[e]} ∪ X |>)
| wq_timeout s e s' : e ∈ q_firing s → timeout_cb e s = Some s' → wq_step s s'
| wq_notify s s' : Notify_co s = Some s' → wq_step s s'
| wq_spin s e s' : e ∈ q_spin s → WeNotifyProc_spin e s = Some s' → wq_step s s'
| wq_resumed s e en :
    q_heap s !! e = Some en → e_hasWaitTime en = false → e ∈ (q_wakes s).*1 →
    wq_step s (SuspendAndWait_resumed e s).

(** *** What is known of one wait *)

Record wview := mk_wview { v_inq : bool; v_ent : option WaitUntilEntry;
  v_timer : bool; v_firing : bool; v_spin : bool; v_wakes : list CoWakeType }.

#[export] Instance wview_eta : Eta wview := λ v,
  mk_wview (v_inq v) (v_ent v) (v_timer v) (v_firing v) (v_spin v) (v_wakes v).

Definition wakes_of (e : eid) (l : list (eid * CoWakeType)) : list CoWakeType :=
  (filter (λ x, x.1 = e) l).*2.

Definition view (s : wq_sys) (e : eid) : wview :=
  mk_wview (bool_decide (e ∈ q_queue s)) (q_heap s !! e) (bool_decide (e ∈ q_timer s))
    (bool_decide (e ∈ q_firing s)) (bool_decide (e ∈ q_spin s)) (wakes_of e (q_wakes s)).

(** The life of a wait: not begun; queued, with a timer that is registered or
    firing if it has a deadline; popped by a notifier that waits for the callback;
    over, resumed exactly once. *)
Inductive phase : wview → Prop :=
| ph_unused : phase (mk_wview false None false false false [])
| ph_queued : phase (mk_wview true (Some (mk_WaitUntilEntry INIT false)) false false false [])
| ph_registered : phase (mk_wview true (Some (mk_WaitUntilEntry INIT true)) true false false [])
| ph_firing : phase (mk_wview true (Some (mk_WaitUntilEntry INIT true)) false true false [])
| ph_spin_firing : phase (mk_wview false (Some (mk_WaitUntilEntry NOTIFYING true)) false true true [])
| ph_spin_done : phase (mk_wview false (Some (mk_WaitUntilEntry TIMEOUT_DONE true)) false false true [])
| ph_over t : phase (mk_wview false None false false false [t])
| ph_over_entry st : phase (mk_wview false (Some (mk_WaitUntilEntry st false)) false false false [NO_TIMEOUT_WAKE]).

Definition wq_inv (s : wq_sys) : Prop := NoDup (q_queue s) ∧ ∀ e, phase (view s e).

(** How the primitive updates act on the view of a wait [k]. *)
Definition on_entry (e k : eid) (f : wview → wview) (v : wview) : wview := if decide (k = e) then f v else v.

Lemma view_push e s k :
  view (s <| q_queue ::= wq_push_back e |>) k = on_entry e k (λ v, v <| v_inq := true |>) (view s k).
Proof.
  unfold view, on_entry, wq_push_back. simpl. case_decide; simpl; f_equal; subst.
  - apply bool_decide_true. set_solver.
  - apply bool_decide_ext. set_solver.
Qed.

Lemma view_remove e s k :
  view (s <| q_queue ::= wq_remove e |>) k = on_entry e k (λ v, v <| v_inq := false |>) (view s k).
Proof.
  unfold view, on_entry. simpl. case_decide; simpl; f_equal; subst.
  - apply bool_decide_false. rewrite elem_wq_remove. tauto.
  - apply bool_decide_ext. rewrite elem_wq_remove. tauto.
Qed.

Lemma view_pop e q s k :
  q_queue s = e :: q → NoDup (q_queue s) →
  view (s <| q_queue := q |>) k = on_entry e k (λ v, v <| v_inq := false |>) (view s k).
Proof.
  intros E Hnd. rewrite E in Hnd. apply NoDup_cons in Hnd as [He _].
  unfold view, on_entry. simpl. rewrite E. case_decide; simpl; f_equal; subst.
  - by apply bool_decide_false.
  - apply bool_decide_ext. set_solver.
Qed.

Lemma view_insert e en s k :
  view (s <| q_heap ::= <[e := en]> |>) k = on_entry e k (λ v, v <| v_ent := Some en |>) (view s k).
Proof.
  unfold view, on_entry. simpl. case_decide; simpl; f_equal; subst; [by rewrite lookup_insert_eq|].
  by rewrite lookup_insert_ne.
Qed.

Lemma view_delete e s k : view (delete_entry e s) k = on_entry e k (λ v, v <| v_ent := None |>) (view s k).
Proof.
  unfold view, on_entry, delete_entry. simpl. case_decide; simpl; f_equal; subst; [by rewrite lookup_delete_eq|].
  by rewrite lookup_delete_ne.
Qed.

Lemma view_set e st s k :
  view (set_entry e st s) k =
    on_entry e k (λ v, v <| v_ent ::= fmap (λ en, mk_WaitUntilEntry st (e_hasWaitTime en)) |>) (view s k).
Proof.
  unfold view, on_entry, set_entry. simpl. case_decide; simpl; f_equal; subst; [by rewrite lookup_alter_eq|].
  by rewrite lookup_alter_ne.
Qed.

Lemma decide_add (e k : eid) (X : gset eid) :
  bool_decide (k ∈ {[e]} ∪ X) = if decide (k = e) then true else bool_decide (k ∈ X).
Proof. case_decide; [apply bool_decide_true|apply bool_decide_ext]; set_solver. Qed.

Lemma decide_sub (e k : eid) (X : gset eid) :
  bool_decide (k ∈ X ∖ {[e]}) = if decide (k = e) then false else bool_decide (k ∈ X).
Proof. case_decide; [apply bool_decide_false|apply bool_decide_ext]; set_solver. Qed.

Lemma view_timer_add e s k :
  view (s <| q_timer ::= λ X, {[e]} ∪ X |>) k = on_entry e k (λ v, v <| v_timer := true |>) (view s k).
Proof. unfold view, on_entry. simpl. rewrite decide_add. by case_decide. Qed.

Lemma view_timer_sub e s k :
  view (s <| q_timer ::= λ X, X ∖ {[e]} |>) k = on_entry e k (λ v, v <| v_timer := false |>) (view s k).
Proof. unfold view, on_entry. simpl. rewrite decide_sub. by case_decide. Qed.

Lemma view_firing_add e s k :
  view (s <| q_firing ::= λ X, {[e]} ∪ X |>) k = on_entry e k (λ v, v <| v_firing := true |>) (view s k).
Proof. unfold view, on_entry. simpl. rewrite decide_add. by case_decide. Qed.

Lemma view_firing_sub e s k :
  view (s <| q_firing ::= λ X, X ∖ {[e]} |>) k = on_entry e k (λ v, v <| v_firing := false |>) (view s k).
Proof. unfold view, on_entry. simpl. rewrite decide_sub. by case_decide. Qed.

Lemma view_spin_add e s k :
  view (s <| q_spin ::= λ X, {[e]} ∪ X |>) k = on_entry e k (λ v, v <| v_spin := true |>) (view s k).
Proof. unfold view, on_entry. simpl. rewrite decide_add. by case_decide. Qed.

Lemma view_spin_sub e s k :
  view (s <| q_spin ::= λ X, X ∖ {[e]} |>) k = on_entry e k (λ v, v <| v_spin := false |>) (view s k).
Proof. unfold view, on_entry. simpl. rewrite decide_sub. by case_decide. Qed.

Lemma view_wake e t s k :
  view (co_wake e t s) k = on_entry e k (λ v, v <| v_wakes ::= λ l, l ++ [t] |>) (view s k).
Proof.
  unfold view, on_entry, co_wake, wakes_of. simpl. rewrite filter_app, fmap_app. case_decide; simpl; f_equal; subst.
  - by rewrite filter_cons_True.
  - rewrite filter_cons_False by (simpl; congruence). by rewrite filter_nil, app_nil_r.
Qed.

(** A change of one wait. *)
Lemma wq_inv_change s s' e f :
  wq_inv s → NoDup (q_queue s') → (∀ k, view s' k = on_entry e k f (view s k)) →
  phase (f (view s e)) → wq_inv s'.
Proof.
  intros [_ Hph] Hnd Hv He. split; [done|]. intros k. rewrite Hv. unfold on_entry.
  case_decide; [by subst|apply Hph].
Qed.

Lemma on_entry_comp e k f g v : on_entry e k f (on_entry e k g v) = on_entry e k (λ v, f (g v)) v.
Proof. unfold on_entry. by case_decide. Qed.

Lemma view_unused e s : unused e s → view s e = mk_wview false None false false false [].
Proof.
  intros [Hh Hn]. unfold view. rewrite Hh, !bool_decide_false by tauto. f_equal. unfold wakes_of.
  destruct (filter _ (q_wakes s)) as [|[k t] l] eqn:E; [done|]. destruct Hn. do 4 right.
  assert (Hin : (k, t) ∈ filter (λ x : eid * CoWakeType, x.1 = e) (q_wakes s)) by (rewrite E; left).
  apply list_elem_of_filter in Hin as [<- Hin]. apply list_elem_of_fmap. by exists (k, t).
Qed.

Ltac view_change :=
  let k := fresh "k" in
  intros k;
  repeat first [rewrite view_wake|rewrite view_delete|rewrite view_set|rewrite view_timer_add
    |rewrite view_timer_sub|rewrite view_firing_add|rewrite view_firing_sub|rewrite view_spin_add
    |rewrite view_spin_sub|rewrite view_push|rewrite view_remove|rewrite view_insert];
  rewrite ?on_entry_comp;
  reflexivity.

Lemma WeTimeoutProc_eq e s en :
  q_heap s !! e = Some en →
  WeTimeoutProc e s =
    if decide (e_status en = INIT) then Some (true, delete_entry e (s <| q_queue ::= wq_remove e |>))
    else Some (false, set_entry e TIMEOUT_DONE s).
Proof. intros He. unfold WeTimeoutProc. by rewrite He. Qed.

Lemma wq_inv_wait s e : wq_inv s → unused e s → wq_inv (SuspendAndWait e s).
Proof.
  intros Hinv Hu. pose proof (view_unused _ _ Hu) as Hv. unfold SuspendAndWait.
  eapply (wq_inv_change _ _ e); [done| |view_change|].
  - simpl. unfold wq_push_back. apply NoDup_app. split_and!; [apply Hinv| |apply NoDup_singleton].
    destruct Hu as [_ Hu]. set_solver.
  - rewrite Hv. constructor.
Qed.

Lemma wq_inv_wait_until s e b s' :
  wq_inv s → unused e s → SuspendAndWaitUntil e b s = Some s' → wq_inv s'.
Proof.
  intros Hinv Hu E. pose proof (view_unused _ _ Hu) as Hv. unfold SuspendAndWaitUntil in E.
  assert (Hnd : NoDup (wq_push_back e (q_queue s))).
  { unfold wq_push_back. apply NoDup_app. split_and!; [apply Hinv| |apply NoDup_singleton].
    destruct Hu as [_ Hu]. set_solver. }
  destruct b.
  - apply (inj Some) in E as <-. eapply (wq_inv_change _ _ e); [done|done|view_change|]. rewrite Hv. constructor.
  - erewrite WeTimeoutProc_eq in E by apply lookup_insert_eq. cbn [decide mbind option_bind] in E.
    apply (inj Some) in E as <-.
    eapply (wq_inv_change _ _ e); [done|by apply NoDup_wq_remove|view_change|]. rewrite Hv. constructor.
Qed.

(** The fields behind a view. *)
Lemma view_ent s e v : view s e = v → q_heap s !! e = v_ent v.
Proof. by intros <-. Qed.

Lemma view_in_timer s e v : view s e = v → e ∈ q_timer s ↔ v_timer v = true.
Proof. intros <-. simpl. by rewrite bool_decide_eq_true. Qed.

Lemma view_in_firing s e v : view s e = v → e ∈ q_firing s ↔ v_firing v = true.
Proof. intros <-. simpl. by rewrite bool_decide_eq_true. Qed.

Lemma view_in_spin s e v : view s e = v → e ∈ q_spin s ↔ v_spin v = true.
Proof. intros <-. simpl. by rewrite bool_decide_eq_true. Qed.

Lemma view_in_queue s e v : view s e = v → e ∈ q_queue s ↔ v_inq v = true.
Proof. intros <-. simpl. by rewrite bool_decide_eq_true. Qed.

(** Case analysis on the phase of wait [e]. *)
Ltac phase_of e Hinv Hv :=
  let v := fresh "v" in
  match type of Hinv with
  | wq_inv ?s => pose proof (proj2 Hinv e) as Hv; remember (view s e) as v eqn:Hview in Hv; symmetry in Hview;
      destruct Hv; rename Hview into Hv
  end.

Lemma wq_inv_timer s e :
  wq_inv s → e ∈ q_timer s →
  wq_inv (s <| q_timer ::= λ X, X ∖ {[e]} |> <| q_firing ::= λ X, {[e]} ∪ X |>).
Proof.
  intros Hinv Ht. phase_of e Hinv Hv; apply (view_in_timer _ _ _ Hv) in Ht; try done.
  eapply (wq_inv_change _ _ e); [done|apply Hinv|view_change|]. rewrite Hv. constructor.
Qed.

Lemma wq_inv_timeout s e :
  wq_inv s → e ∈ q_firing s → ∃ s', timeout_cb e s = Some s' ∧ wq_inv s'.
Proof.
  intros Hinv Ht. phase_of e Hinv Hv; apply (view_in_firing _ _ _ Hv) in Ht; try done;
    unfold timeout_cb; rewrite (WeTimeoutProc_eq _ _ _ (view_ent _ _ _ Hv)), (view_ent _ _ _ Hv);
    eexists; (split; [reflexivity|]).
  - eapply (wq_inv_change _ _ e); [done|apply NoDup_wq_remove, Hinv|view_change|]. rewrite Hv. constructor.
  - eapply (wq_inv_change _ _ e); [done|apply Hinv|view_change|]. rewrite Hv. constructor.
Qed.

Lemma wq_inv_spin s e :
  wq_inv s → e ∈ q_spin s → ∃ s', WeNotifyProc_spin e s = Some s' ∧ wq_inv s'.
Proof.
  intros Hinv Ht. phase_of e Hinv Hv; apply (view_in_spin _ _ _ Hv) in Ht; try done;
    unfold WeNotifyProc_spin; rewrite (view_ent _ _ _ Hv); eexists; (split; [reflexivity|]).
  - done.
  - eapply (wq_inv_change _ _ e); [done|apply Hinv|view_change|]. rewrite Hv. constructor.
Qed.

Lemma wq_inv_notify s : wq_inv s → ∃ s', Notify_co s = Some s' ∧ wq_inv s'.
Proof.
  intros Hinv. unfold Notify_co. destruct (q_queue s) as [|e q] eqn:Eq; cbn [wq_pop_front]; [by eexists|].
  assert (Hq : e ∈ q_queue s) by (rewrite Eq; left).
  pose proof (proj1 Hinv) as Hnd. assert (Hnd' : NoDup q) by (rewrite Eq in Hnd; by apply NoDup_cons in Hnd as [_ ?]).
  assert (Hpop : ∀ k, view (s <| q_queue := q |>) k = on_entry e k (λ v, v <| v_inq := false |>) (view s k))
    by (intros; by apply view_pop).
  phase_of e Hinv Hv; apply (view_in_queue _ _ _ Hv) in Hq; try done;
    unfold WeNotifyProc; change (q_heap (s <| q_queue := q |>)) with (q_heap s);
    change (q_timer (s <| q_queue := q |>)) with (q_timer s);
    rewrite (view_ent _ _ _ Hv); cbn [v_ent mbind option_bind e_hasWaitTime negb].
  - eexists. split; [done|]. eapply (wq_inv_change _ _ e); [done|done| |].
    + intros k. rewrite view_wake, Hpop, on_entry_comp. reflexivity.
    + rewrite Hv. constructor.
  - rewrite decide_True by (by apply (view_in_timer _ _ _ Hv)). eexists. split; [done|].
    eapply (wq_inv_change _ _ e); [done|done| |].
    + intros k. rewrite view_wake, view_delete, view_timer_sub, Hpop, !on_entry_comp. reflexivity.
    + rewrite Hv. constructor.
  - rewrite decide_False by (by rewrite (view_in_timer _ _ _ Hv)). eexists. split; [done|].
    eapply (wq_inv_change _ _ e); [done|done| |].
    + intros k. rewrite view_spin_add, view_set, Hpop, !on_entry_comp. reflexivity.
    + rewrite Hv. constructor.
Qed.

Lemma wq_inv_resumed s e en :
  wq_inv s → q_heap s !! e = Some en → e_hasWaitTime en = false → e ∈ (q_wakes s).*1 →
  wq_inv (SuspendAndWait_resumed e s).
Proof.
  intros Hinv He Hen ((k & t) & -> & Hw)%list_elem_of_fmap. simpl in *.
  assert (Hwk : wakes_of k (q_wakes s) ≠ []).
  { unfold wakes_of. intros E%fmap_nil_inv.
    assert (Hin : (k, t) ∈ filter (λ x : eid * CoWakeType, x.1 = k) (q_wakes s)) by (by apply list_elem_of_filter).
    rewrite E in Hin. by apply elem_of_nil in Hin. }
  phase_of k Hinv Hv; pose proof (f_equal v_wakes Hv) as Hw'; pose proof (view_ent _ _ _ Hv) as He'; simpl in *; try congruence.
  eapply (wq_inv_change _ _ k); [done|apply Hinv|unfold SuspendAndWait_resumed; view_change|]. rewrite Hv. constructor.
Qed.

Lemma wq_inv_step s s' : wq_inv s → wq_step s s' → wq_inv s'.
Proof.
  intros Hinv Hstep. destruct Hstep as [s e Hu|s e b s' Hu E|s e Ht|s e s' Hf E|s s' E|s e s' Hs E|s e en He Hen Hw].
  - by apply wq_inv_wait.
  - by eapply wq_inv_wait_until.
  - by apply wq_inv_timer.
  - destruct (wq_inv_timeout _ _ Hinv Hf) as (? & ? & ?). congruence.
  - destruct (wq_inv_notify _ Hinv) as (? & ? & ?). congruence.
  - destruct (wq_inv_spin _ _ Hinv Hs) as (? & ? & ?). congruence.
  - by eapply wq_inv_resumed.
Qed.

Lemma wq_inv_init : wq_inv wq_init.
Proof. split; [constructor|]. intros e. constructor. Qed.

Lemma wq_inv_reachable s : rtc wq_step wq_init s → wq_inv s.
Proof. intros Hr. apply (rtc_ind_r wq_inv _) in Hr; [done|apply wq_inv_init|eauto using wq_inv_step]. Qed.

Lemma unused_view s e : view s e = mk_wview false None false false false [] → unused e s.
Proof.
  intros Hv. split; [by apply (view_ent _ _ _ Hv)|].
  rewrite (view_in_queue _ _ _ Hv), (view_in_timer _ _ _ Hv), (view_in_firing _ _ _ Hv), (view_in_spin _ _ _ Hv).
  simpl. intros [|[|[|[|Hw]]]]; try done. apply (f_equal v_wakes) in Hv. simpl in Hv.
  apply list_elem_of_fmap in Hw as ((k & t) & -> & Hw). apply fmap_nil_inv in Hv. simpl in Hv.
  assert (Hin : (k, t) ∈ filter (λ x : eid * CoWakeType, x.1 = k) (q_wakes s)) by (by apply list_elem_of_filter).
  rewrite Hv in Hin. by apply elem_of_nil in Hin.
Qed.

(** A wait nobody has resumed yet is still taken care of: it is in the queue, with
    its timer registered or firing if it has a deadline; or a notifier has taken
    it and either the callback is still to run or the notifier's next look
    resumes it. *)
Definition looked_after (e : eid) (s : wq_sys) : Prop :=
  (e ∈ q_queue s ∧ ∃ en, q_heap s !! e = Some en ∧ e_status en = INIT ∧
     (e_hasWaitTime en = true → e ∈ q_timer s ∨ e ∈ q_firing s)) ∨
  (e ∈ q_spin s ∧
     (e ∈ q_firing s ∨
      ∃ s', WeNotifyProc_spin e s = Some s' ∧ wakes_of e (q_wakes s') = [NO_TIMEOUT_WAKE])).

Lemma pending_looked_after s e :
  wq_inv s → wakes_of e (q_wakes s) = [] → unused e s ∨ looked_after e s.
Proof.
  intros Hinv Hw. unfold looked_after.
  phase_of e Hinv Hv; pose proof (f_equal v_wakes Hv) as Hw'; simpl in Hw'; try congruence.
  - left. by apply unused_view.
  - right. left. rewrite (view_in_queue _ _ _ Hv), (view_ent _ _ _ Hv). simpl. split; [done|]. by eexists.
  - right. left. rewrite (view_in_queue _ _ _ Hv), (view_ent _ _ _ Hv). split; [done|].
    eexists. split_and!; [done|done|]. intros _. left. by rewrite (view_in_timer _ _ _ Hv).
  - right. left. rewrite (view_in_queue _ _ _ Hv), (view_ent _ _ _ Hv). split; [done|].
    eexists. split_and!; [done|done|]. intros _. right. by rewrite (view_in_firing _ _ _ Hv).
  - right. right. rewrite (view_in_spin _ _ _ Hv), (view_in_firing _ _ _ Hv). split; [done|by left].
  - right. right. rewrite (view_in_spin _ _ _ Hv). split; [done|]. right.
    unfold WeNotifyProc_spin. rewrite (view_ent _ _ _ Hv). eexists. split; [reflexivity|].
    unfold wakes_of. simpl. rewrite filter_app, fmap_app, filter_cons_True by done.
    change ((filter (λ x : eid * CoWakeType, x.1 = e) (q_wakes s)).*2) with (wakes_of e (q_wakes s)).
    by rewrite Hw.
Qed.

(** C32: a coroutine that waits with or without a deadline is resumed exactly once.
    Whatever the interleaving of notifiers and of the timer callbacks, no wait is
    resumed twice, no deleted entry is read or written, a wait not yet resumed
    can still be resumed, and a wait that is over has left the queue, the timers
    and the notifiers. *)
Theorem timed_wait_resumed_once s :
  rtc wq_step wq_init s →
  (∀ e, (length (wakes_of e (q_wakes s)) <= 1)%nat) ∧
  is_Some (Notify_co s) ∧
  (∀ e, (e ∈ q_firing s → is_Some (timeout_cb e s)) ∧ (e ∈ q_spin s → is_Some (WeNotifyProc_spin e s))) ∧
  (∀ e, wakes_of e (q_wakes s) = [] → unused e s ∨ looked_after e s) ∧
  (∀ e, wakes_of e (q_wakes s) ≠ [] →
     ¬ (e ∈ q_queue s ∨ e ∈ q_timer s ∨ e ∈ q_firing s ∨ e ∈ q_spin s)).
Proof.
  intros Hinv%wq_inv_reachable. split_and!.
  - intros e. phase_of e Hinv Hv; apply (f_equal v_wakes) in Hv; simpl in Hv; rewrite Hv; simpl; lia.
  - destruct (wq_inv_notify _ Hinv) as (? & ? & _). by eexists.
  - intros e. split; intros He.
    + destruct (wq_inv_timeout _ _ Hinv He) as (? & ? & _). by eexists.
    + destruct (wq_inv_spin _ _ Hinv He) as (? & ? & _). by eexists.
  - intros e. by apply pending_looked_after.
  - intros e Hw. phase_of e Hinv Hv; pose proof (f_equal v_wakes Hv) as Hw'; simpl in Hw'; try congruence;
      rewrite (view_in_queue _ _ _ Hv), (view_in_timer _ _ _ Hv), (view_in_firing _ _ _ Hv), (view_in_spin _ _ _ Hv);
      by intros [|[|[|]]].
Qed.

(** A timed wait whose timer fires while a notifier has popped it. *)
Definition raced : wq_sys :=
  mk_wq_sys [] {[1%positive := mk_WaitUntilEntry NOTIFYING true]} (({[1%positive]} ∪ ∅) ∖ {[1%positive]})
    ({[1%positive]} ∪ ∅) ({[1%positive]} ∪ ∅) [].

Lemma timed_wait_resumed_once_witness :
  is_Some (Notify_co raced) ∧ (length (wakes_of 1%positive (q_wakes raced)) <= 1)%nat.
Proof.
  assert (Hr : rtc wq_step wq_init raced).
  { eapply rtc_l; [apply (wq_wait_until _ 1%positive true)|].
    - split; [done|]. simpl. set_solver.
    - reflexivity.
    - eapply rtc_l; [apply (wq_timer _ 1%positive); simpl; set_solver|].
      apply rtc_once. by apply wq_notify. }
  destruct (timed_wait_resumed_once raced Hr) as (H1 & H2 & _). split; [exact H2|apply H1].
Defined.
End CoWaiters.

(** ** The C interface *)

(** [ffrt_cond_timedwait]: the null checks and the time point in nanoseconds. *)
Definition ffrt_cond_timedwait_args (condNull mutexNull : bool) (time_point : option (Z * Z)) : Z + Z :=
  if condNull then inl ffrt_error_inval
  else if mutexNull then inl ffrt_error_inval
  else match time_point with
       | None => inl ffrt_error_inval
       | Some (tv_sec, tv_nsec) => inr (i64 (tv_sec * 1000000000 + tv_nsec))
       end.

Definition ffrt_cond_init (condNull : bool) : Z * option CoWaiters.wq_sys :=
  if condNull then (ffrt_error_inval, None) else (ffrt_success, Some CoWaiters.wq_init).
