(* ===== verification/Dependence.v ===== *)
(** * The dependence manager

    Models src/dm/sdependence_manager.cpp, src/dm/dependence_manager.cpp and
    include/dm/dependence_manager.h, src/core/version_ctx.{h,cpp},
    src/core/entity.{h,cpp} and src/tm/scpu_task.{h,cpp}: data dependences
    between tasks, by versions of the data.  Versions and tasks are objects that
    point at each other, so they live in stores indexed by address; an operation
    is a state transformer that fails where the code would follow a null pointer
    or a pointer to freed memory.  Addresses of versions are never reused, which
    makes every use after free visible.  Each public operation runs under
    [criticalMutex_] and is one atomic step. *)

From S2P Require Import Prelude Types.

(** ** State *)

Inductive DataStatus := DIDLE | DREADY | DCONSUMED | DMERGED.
#[export] Instance DataStatus_eq_dec : EqDecision DataStatus.
Proof. solve_decision. Defined.

Inductive NestType := NDEFAULT | PARENTOUT | PARENTIN.
#[export] Instance NestType_eq_dec : EqDecision NestType.
Proof. solve_decision. Defined.

Abbreviation vid := positive.     (* the address of a version *)
Abbreviation taskid := positive.  (* the address of a task *)
Abbreviation signature := Z.      (* the address of the data *)

Record VersionCtx := mkVersionCtx {
  v_signature : signature;
  v_next : option vid;
  v_last : option vid;
  v_consumers : gset taskid;
  v_myProducer : option taskid;
  v_nextProducer : option taskid;
  v_status : DataStatus;
  v_dataWaitTaskByThis : list taskid;
}.

#[export] Instance VersionCtx_eta : Eta VersionCtx := λ v,
  mkVersionCtx (v_signature v) (v_next v) (v_last v) (v_consumers v) (v_myProducer v)
    (v_nextProducer v) (v_status v) (v_dataWaitTaskByThis v).

Definition VersionCtx_ctor (sig : signature) (next last : option vid) : VersionCtx :=
  mkVersionCtx sig next last ∅ None None DIDLE [].

Record SCPUEUTask := mkSCPUEUTask {
  t_parent : option taskid;          (* null for a root task *)
  t_ins : gset vid;
  t_outs : gset vid;
  t_dependenceStatus : Dependence;
  t_dataRefCnt : Z;                  (* the union of submitDep and waitDep, uint64_t *)
  t_childRefCnt : Z;                 (* uint64_t *)
  t_rc : Z;                          (* uint32_t *)
  t_curStatus : TaskStatus;
  t_blockType : BlockType;
  t_threadExit : bool;               (* RootTask::thread_exit *)
  t_inHandles : list taskid;
}.

#[export] Instance SCPUEUTask_eta : Eta SCPUEUTask := λ t,
  mkSCPUEUTask (t_parent t) (t_ins t) (t_outs t) (t_dependenceStatus t) (t_dataRefCnt t)
    (t_childRefCnt t) (t_rc t) (t_curStatus t) (t_blockType t) (t_threadExit t) (t_inHandles t).

Definition SCPUEUTask_ctor (parent : option taskid) : SCPUEUTask :=
  mkSCPUEUTask parent ∅ ∅ DEPENDENCE_INIT 0 0 1 PENDING BLOCK_COROUTINE false [].

Inductive dm_event :=
| DmReady (t : taskid)       (* Ready(): handed to the scheduler *)
| DmNotify (t : taskid)      (* waitCond_.notify_all() *)
| DmFree (t : taskid)        (* FreeMem() *).

#[export] Instance dm_event_eq_dec : EqDecision dm_event.
Proof. solve_decision. Defined.

Record dm := mk_dm {
  dm_versions : gmap vid VersionCtx;     (* allocated versions *)
  dm_tasks : gmap taskid SCPUEUTask;     (* allocated tasks *)
  dm_vaMap : gmap signature vid;         (* Entity::vaMap *)
  dm_trashcan : list vid;                (* Entity::versionTrashcan *)
  dm_fresh : vid;                        (* the next address the allocator returns *)
  dm_events : list dm_event;
}.

#[export] Instance dm_eta : Eta dm := λ s,
  mk_dm (dm_versions s) (dm_tasks s) (dm_vaMap s) (dm_trashcan s) (dm_fresh s) (dm_events s).

(** ** State transformers that may fail *)

Definition DM (A : Type) : Type := dm → option (A * dm).

#[export] Instance DM_ret : MRet DM := λ A a s, Some (a, s).
#[export] Instance DM_bind : MBind DM := λ A B f m s,
  match m s with Some (a, s') => f a s' | None => None end.

Definition DM_get : DM dm := λ s, Some (s, s).
Definition DM_put (f : dm → dm) : DM unit := λ s, Some (tt, f s).
Definition deref {A} (p : option A) : DM A := λ s, match p with Some a => Some (a, s) | None => None end.

Definition get_version (v : vid) : DM VersionCtx := s ← DM_get; deref (dm_versions s !! v).
Definition get_task (t : taskid) : DM SCPUEUTask := s ← DM_get; deref (dm_tasks s !! t).
Definition mod_version (v : vid) (f : VersionCtx → VersionCtx) : DM unit :=
  _ ← get_version v; DM_put (λ s, s <| dm_versions ::= alter f v |>).
Definition mod_task (t : taskid) (f : SCPUEUTask → SCPUEUTask) : DM unit :=
  _ ← get_task t; DM_put (λ s, s <| dm_tasks ::= alter f t |>).
Definition dm_emit (e : dm_event) : DM unit := DM_put (λ s, s <| dm_events ::= λ l, l ++ [e] |>).

Fixpoint iter {A} (f : A → DM unit) (l : list A) : DM unit :=
  match l with [] => mret tt | a :: l => _ ← f a; iter f l end.

Definition DM_when (b : bool) (m : DM unit) : DM unit := if b then m else mret tt.

Section dependence.
(** The order in which an [unordered_set] is traversed. *)
Context (order : gset positive → list positive).

(** ** Tasks *)

Definition task_SetStatus (st : TaskStatus) (t : taskid) : DM unit := mod_task t (λ x, x <| t_curStatus := st |>).

Definition task_Ready (t : taskid) : DM unit := _ ← task_SetStatus READY t; dm_emit (DmReady t).

Definition task_FreeMem (t : taskid) : DM unit :=
  _ ← DM_put (λ s, s <| dm_tasks ::= delete t |>); dm_emit (DmFree t).

Definition task_IncDeleteRef (t : taskid) : DM unit := mod_task t (λ x, x <| t_rc ::= λ n, u32 (n + 1) |>).
Definition task_DecDeleteRef (t : taskid) : DM unit :=
  x ← get_task t;
  _ ← mod_task t (λ x, x <| t_rc ::= λ n, u32 (n - 1) |>);
  DM_when (bool_decide (t_rc x = 1)) (task_FreeMem t).

Definition IncDepRef (t : taskid) : DM unit := mod_task t (λ x, x <| t_dataRefCnt ::= λ n, u64 (n + 1) |>).
Definition DecDepRef (t : taskid) : DM unit :=
  _ ← mod_task t (λ x, x <| t_dataRefCnt ::= λ n, u64 (n - 1) |>);
  x ← get_task t;
  DM_when (bool_decide (t_dataRefCnt x = 0)) (task_Ready t).

Definition IncWaitDataRef (t : taskid) : DM unit := mod_task t (λ x, x <| t_dataRefCnt ::= λ n, u64 (n + 1) |>).

(** [GetBlockType]: a root task always blocks its thread. *)
Definition task_GetBlockType (x : SCPUEUTask) : BlockType :=
  match t_parent x with None => BLOCK_THREAD | Some _ => t_blockType x end.

(** Waking a task that waits for data or for its children. *)
Definition wake_waiting (t : taskid) (x : SCPUEUTask) : DM unit :=
  if decide (task_GetBlockType x = BLOCK_THREAD) then dm_emit (DmNotify t) else task_Ready t.

Definition DecWaitDataRef (t : taskid) : DM unit :=
  _ ← mod_task t (λ x, x <| t_dataRefCnt ::= λ n, u64 (n - 1) |>);
  x ← get_task t;
  if decide (t_dataRefCnt x ≠ 0) then mret tt
  else if decide (t_dependenceStatus x ≠ DATA_DEPENDENCE) then mret tt
  else
    _ ← mod_task t (λ x, x <| t_dependenceStatus := DEPENDENCE_INIT |>);
    wake_waiting t x.

Definition IncChildRef (t : taskid) : DM unit :=
  x ← get_task t; p ← deref (t_parent x);
  mod_task p (λ x, x <| t_childRefCnt ::= λ n, u64 (n + 1) |>).

Definition DecChildRef (t : taskid) : DM unit :=
  x ← get_task t; p ← deref (t_parent x);
  _ ← mod_task p (λ x, x <| t_childRefCnt ::= λ n, u64 (n - 1) |>);
  y ← get_task p;
  if decide (t_childRefCnt y ≠ 0) then mret tt
  else if decide (t_parent y = None ∧ t_threadExit y = true) then
    DM_put (λ s, s <| dm_tasks ::= delete p |>)
  else if decide (t_parent y ≠ None ∧ t_curStatus y = WAIT_RELEASING) then task_DecDeleteRef p
  else if decide (t_dependenceStatus y ≠ CALL_DEPENDENCE) then mret tt
  else
    _ ← mod_task p (λ x, x <| t_dependenceStatus := DEPENDENCE_INIT |>);
    wake_waiting p y.

Definition task_Finish (t : taskid) : DM unit :=
  x ← get_task t;
  if decide (t_childRefCnt x = 0) then task_DecDeleteRef t else task_SetStatus WAIT_RELEASING t.

Definition MultiDependenceAdd (t : taskid) (depType : Dependence) : DM unit :=
  mod_task t (λ x, x <| t_dependenceStatus := depType |>).

(** ** Versions *)

Definition BuildConsumeRelationship (version : vid) (consumer : taskid) : DM unit :=
  v ← get_version version;
  _ ← DM_when (bool_decide (v_status v = DIDLE)) (IncDepRef consumer);
  _ ← mod_version version (λ v, v <| v_consumers ::= λ X, {[consumer]} ∪ X |>);
  DM_when (bool_decide (v_status v = DCONSUMED)) (mod_version version (λ v, v <| v_status := DREADY |>)).

Definition BuildProducerProducerRelationship (preVersion : vid) (nextProducer : taskid) : DM unit :=
  v ← get_version preVersion;
  DM_when (bool_decide (v_status v ≠ DCONSUMED))
    (_ ← mod_version preVersion (λ v, v <| v_nextProducer := Some nextProducer |>);
     IncDepRef nextProducer).

Definition new_version (v : VersionCtx) : DM vid :=
  s ← DM_get;
  _ ← DM_put (λ s, s <| dm_versions ::= <[dm_fresh s := v]> |> <| dm_fresh ::= Pos.succ |>);
  mret (dm_fresh s).

Definition CreateChildVersion (this : vid) (dataStatus : DataStatus) : DM unit :=
  v ← get_version this;
  let prev := v_last v in
  c ← new_version (VersionCtx_ctor (v_signature v) (Some this) prev);
  _ ← mod_version this (λ v, v <| v_last := Some c |>);
  _ ← mod_version c (λ v, v <| v_status := dataStatus |>);
  match prev with
  | Some p => mod_version p (λ v, v <| v_next := Some c |>)
  | None => mret tt
  end.

Definition AddConsumer (this : vid) (consumer : taskid) (nestType : NestType) : DM unit :=
  beConsumeVersion ←
    (if decide (nestType = PARENTOUT ∨ nestType = NDEFAULT) then
       v ← get_version this;
       _ ← DM_when (bool_decide (v_last v = None)) (CreateChildVersion this DREADY);
       v ← get_version this;
       deref (v_last v)
     else mret this);
  _ ← BuildConsumeRelationship beConsumeVersion consumer;
  mod_task consumer (λ x, x <| t_ins ::= λ X, {[beConsumeVersion]} ∪ X |>).

Definition AddProducer (this : vid) (producer : taskid) : DM unit :=
  v ← get_version this;
  _ ← (match v_last v with
       | Some preVersion => BuildProducerProducerRelationship preVersion producer
       | None => mret tt
       end);
  _ ← CreateChildVersion this DIDLE;
  v ← get_version this;
  c ← deref (v_last v);
  _ ← mod_task producer (λ x, x <| t_outs ::= λ X, {[c]} ∪ X |>);
  mod_version c (λ v, v <| v_myProducer := Some producer |>).

Definition AddDataWaitTaskByThis (this : vid) (dataWaitTask : taskid) : DM unit :=
  v ← get_version this;
  match v_last v with
  | None => mret tt
  | Some l =>
      lv ← get_version l;
      DM_when (bool_decide (v_status lv = DIDLE))
        (_ ← mod_version l (λ v, v <| v_dataWaitTaskByThis ::= λ w, w ++ [dataWaitTask] |>);
         IncWaitDataRef dataWaitTask)
  end.

Definition NotifyDataWaitTask (this : vid) : DM unit :=
  v ← get_version this;
  _ ← iter DecWaitDataRef (v_dataWaitTaskByThis v);
  mod_version this (λ v, v <| v_dataWaitTaskByThis := [] |>).

Definition NotifyConsumers (this : vid) : DM unit :=
  v ← get_version this; iter DecDepRef (order (v_consumers v)).

Definition NotifyNextProducer (this : vid) : DM unit :=
  v ← get_version this;
  match v_nextProducer v with
  | Some p => _ ← DecDepRef p; mod_version this (λ v, v <| v_nextProducer := None |>)
  | None => mret tt
  end.

Definition trash_push (v : vid) : DM unit := DM_put (λ s, s <| dm_trashcan ::= λ l, l ++ [v] |>).

Definition MergeConsumerInDep (this v : vid) : DM unit :=
  x ← get_version v;
  iter (λ c, mod_task c (λ t, t <| t_ins ::= λ X, ({[this]} ∪ X) ∖ {[v]} |>)) (order (v_consumers x)).

Definition MergeProducerOutDep (this v : vid) : DM unit :=
  x ← get_version v; p ← deref (v_myProducer x);
  mod_task p (λ t, t <| t_outs ::= λ X, ({[this]} ∪ X) ∖ {[v]} |>).

Definition MergeChildVersion (this : vid) : DM unit :=
  v ← get_version this;
  versionToMerge ← deref (v_last v);
  x ← get_version versionToMerge;
  let st := v_status x in
  _ ← mod_version this (λ v, v <| v_status := st |>);
  _ ← DM_when (bool_decide (st = DREADY)) (_ ← NotifyConsumers this; NotifyDataWaitTask this);
  _ ← MergeConsumerInDep this versionToMerge;
  _ ← DM_when (bool_decide (st = DIDLE))
        (_ ← mod_version this (λ v, v <| v_consumers ::= λ X, X ∪ v_consumers x |>);
         _ ← MergeProducerOutDep this versionToMerge;
         mod_version this (λ v, v <| v_myProducer := v_myProducer x |>));
  trash_push versionToMerge.

(** Everyone who read the version is done with it. *)
Definition become_consumed (this : vid) : DM unit :=
  _ ← mod_version this (λ v, v <| v_status := DCONSUMED |>);
  _ ← NotifyNextProducer this;
  trash_push this.

Definition onProduced (this : vid) : DM unit :=
  v ← get_version this;
  lastConsumed ← (match v_last v with
                  | None => mret true
                  | Some l => lv ← get_version l; mret (bool_decide (v_status lv = DCONSUMED))
                  end);
  if (lastConsumed : bool) then
    _ ← (if decide (v_consumers v = ∅) then become_consumed this
         else
           _ ← mod_version this (λ v, v <| v_status := DREADY |>);
           NotifyConsumers this);
    NotifyDataWaitTask this
  else MergeChildVersion this.

Definition onConsumed (this : vid) (consumer : taskid) : DM unit :=
  _ ← mod_version this (λ v, v <| v_consumers ::= λ X, X ∖ {[consumer]} |>);
  v ← get_version this;
  if decide (v_consumers v = ∅) then become_consumed this else mret tt.

(** ** The entity *)

Definition VA2Ctx (p : signature) : DM vid :=
  s ← DM_get;
  match dm_vaMap s !! p with
  | Some v => mret v
  | None =>
      version ← new_version (VersionCtx_ctor p None None);
      _ ← DM_put (λ s, s <| dm_vaMap ::= <[p := version]> |>);
      mret version
  end.

Definition free_version (v : vid) : DM unit :=
  _ ← get_version v; DM_put (λ s, s <| dm_versions ::= delete v |>).

Definition recycle_one (cur : vid) : DM unit :=
  c ← get_version cur;
  next ← deref (v_next c);
  _ ← mod_version next (λ v, v <| v_last := v_last c |>);
  _ ← (match v_last c with
       | Some l => mod_version l (λ v, v <| v_next := Some next |>)
       | None => mret tt
       end);
  _ ← free_version cur;
  n ← get_version next;
  DM_when (bool_decide (v_next n = None))
    (_ ← DM_put (λ s, s <| dm_vaMap ::= delete (v_signature n) |>);
     free_version next).

Definition RecycleVersion : DM unit :=
  s ← DM_get;
  _ ← iter recycle_one (dm_trashcan s);
  DM_put (λ s, s <| dm_trashcan := [] |>).

(** ** The dependence manager *)

(** A dependence: an address, which is a task handle when [dep_task] holds. *)
Record ffrt_dependence := mk_dep { dep_ptr : signature; dep_task : bool }.

Definition handle_sig (t : taskid) : signature := Zpos t.
Definition handle_of (p : signature) : option taskid := match p with Zpos t => Some t | _ => None end.

Definition CheckOutsHandle (outs : option (list ffrt_dependence)) : bool :=
  match outs with None => true | Some l => forallb (λ d, negb (dep_task d)) l end.

Fixpoint OutsDedup (outsNoDup : list signature) (outs : list ffrt_dependence) : list signature :=
  match outs with
  | [] => outsNoDup
  | d :: outs => OutsDedup (if decide (dep_ptr d ∈ outsNoDup) then outsNoDup else outsNoDup ++ [dep_ptr d]) outs
  end.

(** The handles among the inputs and the input signatures that are not outputs. *)
Fixpoint InsDedup (outsNoDup : list signature) (ins : list ffrt_dependence) : list taskid * list signature :=
  match ins with
  | [] => ([], [])
  | d :: ins =>
      let '(hs, l) := InsDedup outsNoDup ins in
      if decide (dep_ptr d ∈ outsNoDup) then (hs, l)
      else (match handle_of (dep_ptr d), dep_task d with Some h, true => h :: hs | _, _ => hs end, dep_ptr d :: l)
  end.

Definition RemoveRepeatedDeps (ins outs : option (list ffrt_dependence))
    : list taskid * list signature * list signature :=
  let outsNoDup := match outs with Some l => OutsDedup [] l | None => [] end in
  let '(hs, insNoDup) := match ins with Some l => InsDedup outsNoDup l | None => ([], []) end in
  (hs, insNoDup, outsNoDup).

(** The first version of a set that has the signature. *)
Fixpoint find_signature (sig : signature) (l : list vid) : DM (option vid) :=
  match l with
  | [] => mret None
  | v :: l => x ← get_version v; if decide (v_signature x = sig) then mret (Some v) else find_signature sig l
  end.

Definition map_in (parent : taskid) (sig : signature) : DM (vid * NestType) :=
  p ← get_task parent;
  o ← find_signature sig (order (t_outs p));
  match o with
  | Some v => mret (v, PARENTOUT)
  | None =>
      i ← find_signature sig (order (t_ins p));
      match i with
      | Some v => mret (v, PARENTIN)
      | None => v ← VA2Ctx sig; mret (v, NDEFAULT)
      end
  end.

Definition map_out (parent : taskid) (sig : signature) : DM (vid * NestType) :=
  p ← get_task parent;
  o ← find_signature sig (order (t_outs p));
  match o with
  | Some v => mret (v, PARENTOUT)
  | None => v ← VA2Ctx sig; mret (v, NDEFAULT)
  end.

Fixpoint map_all {A B} (f : A → DM B) (l : list A) : DM (list B) :=
  match l with [] => mret [] | x :: l => y ← f x; r ← map_all f l; mret (y :: r) end.

Definition MapSignature2Deps (parent : taskid) (inDeps outDeps : list signature)
    : DM (list (vid * NestType) * list (vid * NestType)) :=
  i ← map_all (map_in parent) inDeps;
  o ← map_all (map_out parent) outDeps;
  mret (i, o).

(** [onSubmit] for a task constructed at the address [task]. *)
Definition onSubmit (has_handle : bool) (task parent : taskid) (ins outs : option (list ffrt_dependence)) : DM unit :=
  if negb (CheckOutsHandle outs) then mret tt
  else
    _ ← DM_put (λ s, s <| dm_tasks ::= <[task := SCPUEUTask_ctor (Some parent)]> |>);
    _ ← task_SetStatus SUBMITTED task;
    let '(inHandles, insNoDup, outsNoDup) := RemoveRepeatedDeps ins outs in
    _ ← iter task_IncDeleteRef inHandles;
    _ ← mod_task task (λ x, x <| t_inHandles := inHandles |>);
    _ ← DM_when has_handle (task_IncDeleteRef task);
    let outsNoDup := if has_handle then outsNoDup ++ [handle_sig task] else outsNoDup in
    _ ← IncChildRef task;
    if decide (insNoDup = [] ∧ outsNoDup = []) then task_Ready task
    else
      '(inDatas, outDatas) ← MapSignature2Deps parent insNoDup outsNoDup;
      _ ← iter (λ '(v, ty), AddConsumer v task ty) inDatas;
      _ ← iter (λ '(v, _), AddProducer v task) outDatas;
      x ← get_task task;
      if decide (t_dataRefCnt x ≠ 0) then mret tt else task_Ready task.

(** The critical section of [onWait(deps)]: the version to wait for is the one of
    the task's own output, or else the one of the data. *)
Definition wait_version (task : taskid) (d : signature) : DM (option vid) :=
  s ← DM_get;
  match dm_vaMap s !! d with
  | None => mret None
  | Some r =>
      x ← get_task task;
      o ← find_signature d (order (t_outs x));
      mret (Some (default r o))
  end.

Definition onWait_deps (task : taskid) (deps : list signature) : DM unit :=
  _ ← mod_task task (λ x, x <| t_dataRefCnt := 0 |>);
  waitDatas ← map_all (wait_version task) deps;
  iter (λ v, AddDataWaitTaskByThis v task) (omap id waitDatas).

(** [onWait()] of a task that runs as a coroutine: it is suspended unless it has no
    unfinished child. *)
Definition childDepFun (task : taskid) : DM bool :=
  x ← get_task task;
  if decide (t_childRefCnt x = 0) then mret false
  else _ ← MultiDependenceAdd task CALL_DEPENDENCE; mret true.

(** [onWait(deps)] likewise. *)
Definition pendDataDepFun (task : taskid) (deps : list signature) : DM bool :=
  _ ← onWait_deps task deps;
  x ← get_task task;
  if decide (t_dataRefCnt x = 0) then mret false
  else _ ← MultiDependenceAdd task DATA_DEPENDENCE; mret true.

Definition onTaskDone (task : taskid) : DM unit :=
  x ← get_task task;
  _ ← (if decide (t_ins x = ∅ ∧ t_outs x = ∅) then mret tt
       else
         _ ← iter onProduced (order (t_outs x));
         y ← get_task task;
         _ ← iter (λ v, onConsumed v task) (order (t_ins y));
         _ ← iter task_DecDeleteRef (t_inHandles y);
         RecycleVersion);
  _ ← DecChildRef task;
  task_Finish task.
End dependence.
