(* ===== verification/DependenceFlat.v ===== *)
(** * Data dependences between sibling tasks

    The dependence manager of Dependence.v, used by tasks of one parent that has
    no dependences itself.  The specification is the list [J] of the submitted
    and not yet finished jobs in submission order: a job may run as soon as no
    earlier unfinished job conflicts with it (writes what it reads or writes, or
    reads what it writes).  DependenceRefine.v proves
    that the versions, the counters and the notifications compute exactly this;
    this file has the jobs, the chains of versions and their invariant. *)

From S2P Require Import Prelude Types Dependence.

(** ** Jobs and chains *)

Record job := mk_job { j_id : taskid; j_ins : list signature; j_outs : list signature }.

Definition job_ok (j : job) : Prop :=
  NoDup (j_ins j) ∧ NoDup (j_outs j) ∧ (∀ x, x ∈ j_ins j → x ∉ j_outs j) ∧
  Z.of_nat (length (j_ins j)) + Z.of_nat (length (j_outs j)) < 2 ^ 64.

(** The state of a version: not produced, with its unfinished producer; produced;
    consumed and about to be recycled. *)
Inductive gstate := GIdle (p : taskid) | GReady | GConsumed.

#[export] Instance gstate_eq_dec : EqDecision gstate.
Proof. solve_decision. Defined.

Record grp := mk_grp { g_vid : vid; g_st : gstate; g_cons : gset taskid }.

#[export] Instance grp_eta : Eta grp := λ g, mk_grp (g_vid g) (g_st g) (g_cons g).

Definition g_prod (g : grp) : option taskid := match g_st g with GIdle p => Some p | _ => None end.
Definition g_status (g : grp) : DataStatus :=
  match g_st g with GIdle _ => DIDLE | GReady => DREADY | GConsumed => DCONSUMED end.

(** [t] reads a version of the chain that is not produced. *)
Definition in_blocked (t : taskid) (gs : list grp) : bool :=
  existsb (λ g, bool_decide (t ∈ g_cons g) && bool_decide (g_prod g ≠ None)) gs.

(** [t] produces a version whose predecessor is not consumed. *)
Fixpoint out_blocked (t : taskid) (gs : list grp) : bool :=
  match gs with
  | g :: ((g' :: _) as r) =>
      (bool_decide (g_prod g' = Some t) && bool_decide (g_st g ≠ GConsumed)) || out_blocked t r
  | _ => false
  end.

Definition dep_of (G : signature → list grp) (j : job) : Z :=
  zsum (λ x, in_blocked (j_id j) (G x)) (j_ins j) + zsum (λ x, out_blocked (j_id j) (G x)) (j_outs j).

(** ** Versions in memory *)

Section versions.
Implicit Types (V : gmap vid VersionCtx) (x : signature) (r : vid) (gs : list grp).

(** The producer to notify when [g] is consumed. *)
Definition next_prod (g : grp) (gs : list grp) : option taskid :=
  match g_st g, gs with GConsumed, _ => None | _, g' :: _ => g_prod g' | _, [] => None end.

Definition next_vid r gs : vid := match gs with g :: _ => g_vid g | [] => r end.

(** The version [g] with its links, followed by [gs]; [my] is the producer field,
    which is not reset when the producer is done. *)
Definition ver x r (prev : option vid) (g : grp) gs (my : option taskid) : VersionCtx :=
  mkVersionCtx x (Some (next_vid r gs)) prev (g_cons g) my (next_prod g gs) (g_status g) [].

Definition g_my (g : grp) (my : option taskid) : Prop := ∀ p, g_prod g = Some p → my = Some p.

(** The versions [gs] in memory, to be followed by [tl]. *)
Fixpoint chain_rep V x r (prev : option vid) gs tl : Prop :=
  match gs with
  | [] => True
  | g :: gs' => (∃ my, V !! g_vid g = Some (ver x r prev g (gs' ++ tl) my) ∧ g_my g my) ∧
                chain_rep V x r (Some (g_vid g)) gs' tl
  end.

Definition root_version x gs : VersionCtx := mkVersionCtx x None (g_vid <$> last gs) ∅ None None DIDLE [].

Definition sig_rep V (va : gmap signature vid) x (ro : option vid) gs : Prop :=
  va !! x = ro ∧ NoDup (g_vid <$> gs) ∧
  match ro with
  | None => gs = []
  | Some r => V !! r = Some (root_version x gs) ∧ chain_rep V x r None gs []
  end.

Lemma chain_rep_frame V V' x r prev gs tl :
  (∀ g, g ∈ gs → V' !! g_vid g = V !! g_vid g) → chain_rep V x r prev gs tl → chain_rep V' x r prev gs tl.
Proof.
  revert prev. induction gs as [|g gs IH]; intros prev Hv; simpl; [done|].
  intros [(my & H1 & H2) H3]. split.
  - exists my. rewrite Hv by left. done.
  - apply IH; [|done]. intros g' ?. apply Hv. by right.
Qed.

Lemma chain_rep_lookup V x r prev gs tl g :
  chain_rep V x r prev gs tl → g ∈ gs →
  ∃ y, V !! g_vid g = Some y ∧ v_signature y = x ∧ v_next y ≠ None.
Proof.
  revert prev. induction gs as [|g0 gs IH]; intros prev; simpl; [by intros _ ?%elem_of_nil|].
  intros [(my & H1 & _) H3] [->|Hg]%elem_of_cons; [by eexists|by eapply IH].
Qed.

(** Only the address and the producer of the next version matter to a version. *)
Definition same_head r (tl tl' : list grp) : Prop :=
  next_vid r tl = next_vid r tl' ∧ (head tl ≫= g_prod) = (head tl' ≫= g_prod).

Lemma ver_same_head x r prev g tl tl' my : same_head r tl tl' → ver x r prev g tl my = ver x r prev g tl' my.
Proof.
  intros [Hv Hp]. unfold ver, next_prod. rewrite Hv. f_equal.
  destruct (g_st g), tl, tl'; simpl in *; done.
Qed.

Lemma chain_rep_tl V x r prev gs tl tl' :
  same_head r tl tl' → chain_rep V x r prev gs tl → chain_rep V x r prev gs tl'.
Proof.
  intros Hh. revert prev. induction gs as [|g gs IH]; intros prev; simpl; [done|].
  intros [(my & H1 & H2) H3]. split; [|by apply IH]. exists my. split; [|done].
  rewrite H1. f_equal. apply ver_same_head. destruct gs; [done|]. by split.
Qed.

Definition last_vid (prev : option vid) gs : option vid :=
  match last gs with Some g => Some (g_vid g) | None => prev end.

Lemma last_vid_cons prev g gs : last_vid prev (g :: gs) = last_vid (Some (g_vid g)) gs.
Proof.
  unfold last_vid. destruct gs as [|g' gs]; [done|]. rewrite last_cons_cons.
  destruct (last (g' :: gs)) eqn:E; [done|]. by apply last_None in E.
Qed.

Lemma chain_rep_app V x r prev gs1 gs2 tl :
  chain_rep V x r prev (gs1 ++ gs2) tl ↔
  chain_rep V x r prev gs1 (gs2 ++ tl) ∧ chain_rep V x r (last_vid prev gs1) gs2 tl.
Proof.
  revert prev. induction gs1 as [|g gs1 IH]; intros prev; simpl; [tauto|].
  rewrite IH, last_vid_cons, <-app_assoc. tauto.
Qed.

(** Every address of a signature's versions. *)
Definition in_sig (ro : option vid) gs (v : vid) : Prop := ro = Some v ∨ ∃ g, g ∈ gs ∧ g_vid g = v.

Lemma in_sig_vids ro gs v : in_sig ro gs v ↔ ro = Some v ∨ v ∈ g_vid <$> gs.
Proof. unfold in_sig. rewrite list_elem_of_fmap. firstorder. Qed.

#[export] Instance in_sig_dec ro gs v : Decision (in_sig ro gs v).
Proof. refine (cast_if (decide (ro = Some v ∨ v ∈ g_vid <$> gs))); abstract (by rewrite in_sig_vids). Defined.

Lemma sig_rep_lookup V va x ro gs v :
  sig_rep V va x ro gs → in_sig ro gs v → ∃ y, V !! v = Some y ∧ v_signature y = x.
Proof.
  intros (_ & _ & H) [->|(g & Hg & <-)]; [destruct H as [-> _]; by eexists|].
  destruct ro as [r|]; [|subst; by apply elem_of_nil in Hg]. destruct H as [_ Hc].
  destruct (chain_rep_lookup _ _ _ _ _ _ _ Hc Hg) as (y & ? & ? & _). by eexists.
Qed.

Lemma sig_rep_frame V V' va va' x ro gs :
  (∀ v, in_sig ro gs v → V' !! v = V !! v) → va' !! x = va !! x →
  sig_rep V va x ro gs → sig_rep V' va' x ro gs.
Proof.
  intros HV Hva (H1 & H2 & H3). split_and!; [by rewrite Hva|done|]. destruct ro as [r|]; [|done].
  destruct H3 as [Hr Hc]. split; [rewrite HV by (by left); done|].
  eapply chain_rep_frame; [|done]. intros g Hg. apply HV. right. by exists g.
Qed.

(** Addresses of different signatures differ, and the root is none of the others. *)
Lemma sig_rep_disjoint V va x y rx ry gx gy v :
  sig_rep V va x rx gx → sig_rep V va y ry gy → in_sig rx gx v → in_sig ry gy v → x = y.
Proof.
  intros Hx Hy Hvx Hvy. destruct (sig_rep_lookup _ _ _ _ _ _ Hx Hvx) as (a & Ha & <-).
  destruct (sig_rep_lookup _ _ _ _ _ _ Hy Hvy) as (b & Hb & <-). congruence.
Qed.

Lemma sig_rep_root_ne V va x r gs g : sig_rep V va x (Some r) gs → g ∈ gs → g_vid g ≠ r.
Proof.
  intros (_ & _ & Hr & Hc) Hg <-. destruct (chain_rep_lookup _ _ _ _ _ _ _ Hc Hg) as (y & Hy & _ & Hn).
  rewrite Hr in Hy. injection Hy as <-. by apply Hn.
Qed.

Lemma last_vid_snoc prev gs g : last_vid prev (gs ++ [g]) = Some (g_vid g).
Proof. unfold last_vid. by rewrite last_snoc. Qed.

Lemma sig_rep_last V va x r gs g :
  sig_rep V va x (Some r) (gs ++ [g]) →
  V !! r = Some (root_version x (gs ++ [g])) ∧
  ∃ my, V !! g_vid g = Some (ver x r (last_vid None gs) g [] my) ∧ g_my g my.
Proof.
  intros (_ & _ & Hr & Hc). split; [done|]. apply chain_rep_app in Hc as [_ [(my & H1 & H2) _]].
  exists my. done.
Qed.

Lemma last_ids_ne V va x r gs g :
  sig_rep V va x (Some r) (gs ++ [g]) → r ≠ g_vid g ∧ (∀ g', g' ∈ gs → g_vid g' ≠ g_vid g) ∧ (∀ g', g' ∈ gs → g_vid g' ≠ r).
Proof.
  intros Hs. split_and!.
  - symmetry. eapply sig_rep_root_ne; [done|]. apply elem_of_app. right. left.
  - destruct Hs as (_ & Hnd & _). rewrite fmap_app in Hnd. apply NoDup_app in Hnd as (_ & Hnd & _).
    intros g' Hg' E. eapply (Hnd (g_vid g')); [by apply list_elem_of_fmap_2|]. rewrite E. left.
  - intros g' Hg'. eapply sig_rep_root_ne; [done|]. apply elem_of_app. by left.
Qed.

Lemma fmap_vid_snoc gs g : g_vid <$> (gs ++ [g]) = (g_vid <$> gs) ++ [g_vid g].
Proof. by rewrite fmap_app. Qed.

(** The consumers of the latest version change. *)
Lemma sig_rep_set_cons V va x r gs g y X :
  sig_rep V va x (Some r) (gs ++ [g]) → V !! g_vid g = Some y →
  sig_rep (<[g_vid g := y <| v_consumers := X |>]> V) va x (Some r) (gs ++ [g <| g_cons := X |>]).
Proof.
  intros Hs Hy. destruct (last_ids_ne _ _ _ _ _ _ Hs) as (Hr & Hg & _).
  destruct (sig_rep_last _ _ _ _ _ _ Hs) as (Hroot & my & Hv & Hmy). rewrite Hy in Hv. injection Hv as ->.
  destruct Hs as (Hva & Hnd & _ & Hc). split_and!; [done| | |].
  - rewrite fmap_vid_snoc in *. done.
  - rewrite lookup_insert_ne by done. rewrite Hroot. unfold root_version. by rewrite !last_snoc.
  - apply chain_rep_app in Hc as [Hc1 Hc2]. apply chain_rep_app. split.
    + apply (chain_rep_tl _ _ _ _ _ [g]); [done|]. eapply chain_rep_frame; [|exact Hc1].
      intros g' Hg'. rewrite lookup_insert_ne; [done|]. symmetry. by apply Hg.
    + split; [|done]. exists my. split; [|done]. simpl. by rewrite lookup_insert_eq.
Qed.

(** A new latest version behind [g]. *)
Lemma sig_rep_append V va x r gs g y c p :
  sig_rep V va x (Some r) (gs ++ [g]) → V !! g_vid g = Some y → V !! c = None → g_st g ≠ GConsumed →
  sig_rep (<[c := VersionCtx_ctor x (Some r) (Some (g_vid g)) <| v_myProducer := Some p |>]>
             (<[g_vid g := y <| v_nextProducer := Some p |> <| v_next := Some c |>]>
                (<[r := root_version x (gs ++ [g]) <| v_last := Some c |>]> V)))
    va x (Some r) ((gs ++ [g]) ++ [mk_grp c (GIdle p) ∅]).
Proof.
  intros Hs Hy Hc0 Hst. destruct (last_ids_ne _ _ _ _ _ _ Hs) as (Hr & Hg & Hgr).
  destruct (sig_rep_last _ _ _ _ _ _ Hs) as (Hroot & my & Hv & Hmy). rewrite Hy in Hv. injection Hv as ->.
  assert (Hcr : c ≠ r) by congruence. assert (Hcg : c ≠ g_vid g) by congruence.
  assert (Hcg' : ∀ g', g' ∈ gs → g_vid g' ≠ c).
  { intros g' Hg' E. destruct (sig_rep_lookup _ _ _ _ _ (g_vid g') Hs) as (? & ? & _); [|congruence].
    right. exists g'. split; [apply elem_of_app; by left|done]. }
  destruct Hs as (Hva & Hnd & _ & Hc). split_and!; [done| | |].
  - rewrite fmap_vid_snoc. apply NoDup_app. split_and!; [done| |apply NoDup_singleton].
    intros a (g' & Ea & Hg')%list_elem_of_fmap Ec%list_elem_of_singleton. simpl in Ec.
    apply elem_of_app in Hg' as [Hg'|Hg'%list_elem_of_singleton]; [apply (Hcg' g' Hg')|]; congruence.
  - rewrite !lookup_insert_ne by done. rewrite lookup_insert_eq. unfold root_version. by rewrite !last_snoc.
  - rewrite <-app_assoc. apply chain_rep_app in Hc as [Hc1 _]. apply chain_rep_app. split.
    + apply (chain_rep_tl _ _ _ _ _ [g]); [done|]. eapply chain_rep_frame; [|exact Hc1].
      intros g' Hg'. rewrite !lookup_insert_ne; [done|..]; symmetry; auto.
    + split; [|split; [|done]].
      * exists my. split; [|done]. rewrite lookup_insert_ne, lookup_insert_eq by done.
        unfold ver, next_prod. destruct (g_st g); done.
      * exists (Some p). split; [by rewrite lookup_insert_eq|]. by intros p' [= ->].
Qed.

(** The first version of data without versions. *)
Lemma sig_rep_first V va x r c st X my :
  sig_rep V va x (Some r) [] → V !! c = None → st ≠ GConsumed → (∀ p, st = GIdle p → my = Some p) →
  sig_rep (<[c := mkVersionCtx x (Some r) None X my None (g_status (mk_grp c st X)) []]>
             (<[r := root_version x [] <| v_last := Some c |>]> V))
    va x (Some r) [mk_grp c st X].
Proof.
  intros (Hva & _ & Hr & _) Hc Hst Hmy. assert (Hcr : c ≠ r) by congruence. split_and!; [done| | |].
  - apply NoDup_singleton.
  - rewrite lookup_insert_ne, lookup_insert_eq by done. done.
  - split; [|done]. exists my. split; [|].
    + simpl. rewrite lookup_insert_eq. unfold ver, next_prod. simpl. by destruct st.
    + intros p. unfold g_prod. simpl. destruct st; [|done..]. intros [= ->]. by apply Hmy.
Qed.
End versions.

(** ** What the operations do to the stores *)

Section operations.
Context (order : gset positive → list positive).
Implicit Types (V : gmap vid VersionCtx) (Tm : gmap taskid SCPUEUTask) (va : gmap signature vid)
  (tr : list vid) (fr : vid) (ev : list dm_event).

Definition inc_dep (b : bool) (T : SCPUEUTask) : SCPUEUTask :=
  if b then T <| t_dataRefCnt ::= λ n, u64 (n + 1) |> else T.

Lemma alter_some {A} (f : A → A) (m : gmap positive A) k a : m !! k = Some a → alter f k m = <[k := f a]> m.
Proof.
  intros Hk. apply map_eq. intros i. destruct (decide (k = i)) as [<-|].
  - by rewrite lookup_alter_eq, lookup_insert_eq, Hk.
  - by rewrite lookup_alter_ne, lookup_insert_ne.
Qed.

(** Running one step. *)
Lemma bind_eq {A B} (m : DM A) (f : A → DM B) s a s' : m s = Some (a, s') → (m ≫= f) s = f a s'.
Proof. unfold mbind, DM_bind. by intros ->. Qed.

Lemma bind_Some_inv {B} (m : DM unit) (f : unit → DM B) s b s' :
  (m ≫= f) s = Some (b, s') → ∃ s1, m s = Some (tt, s1) ∧ f tt s1 = Some (b, s').
Proof. unfold mbind, DM_bind. destruct (m s) as [[[] s1]|]; [eauto|done]. Qed.

Lemma get_version_eq V Tm va tr fr ev v y :
  V !! v = Some y → get_version v (mk_dm V Tm va tr fr ev) = Some (y, mk_dm V Tm va tr fr ev).
Proof. unfold get_version, DM_get, deref, mbind, DM_bind. simpl. by intros ->. Qed.

Lemma get_task_eq V Tm va tr fr ev t T :
  Tm !! t = Some T → get_task t (mk_dm V Tm va tr fr ev) = Some (T, mk_dm V Tm va tr fr ev).
Proof. unfold get_task, DM_get, deref, mbind, DM_bind. simpl. by intros ->. Qed.

Lemma mod_version_eq V Tm va tr fr ev v f y :
  V !! v = Some y → mod_version v f (mk_dm V Tm va tr fr ev) = Some (tt, mk_dm (<[v := f y]> V) Tm va tr fr ev).
Proof.
  intros Hv. unfold mod_version. erewrite bind_eq by (by apply get_version_eq).
  unfold DM_put. simpl. by rewrite (alter_some _ _ _ _ Hv).
Qed.

Lemma mod_task_eq V Tm va tr fr ev t f T :
  Tm !! t = Some T → mod_task t f (mk_dm V Tm va tr fr ev) = Some (tt, mk_dm V (<[t := f T]> Tm) va tr fr ev).
Proof.
  intros Ht. unfold mod_task. erewrite bind_eq by (by apply get_task_eq).
  unfold DM_put. simpl. by rewrite (alter_some _ _ _ _ Ht).
Qed.

Lemma deref_eq {A} (p : option A) a s : p = Some a → deref p s = Some (a, s).
Proof. by intros ->. Qed.

Lemma ret_eq {A} (a : A) s : (mret a : DM A) s = Some (a, s).
Proof. done. Qed.

Lemma when_false b m s : b = false → DM_when b m s = Some (tt, s).
Proof. by intros ->. Qed.

Lemma when_true b m s : b = true → DM_when b m s = m s.
Proof. by intros ->. Qed.

(** [AddConsumer] when the data has a latest version [l] that is not consumed. *)
Lemma AddConsumer_old V Tm va tr fr ev r t l rv lv T :
  V !! r = Some rv → v_last rv = Some l → V !! l = Some lv → v_status lv ≠ DCONSUMED → Tm !! t = Some T →
  AddConsumer r t NDEFAULT (mk_dm V Tm va tr fr ev) =
    Some (tt, mk_dm (<[l := lv <| v_consumers ::= λ X, {[t]} ∪ X |>]> V)
                (<[t := inc_dep (bool_decide (v_status lv = DIDLE)) T <| t_ins ::= λ X, {[l]} ∪ X |>]> Tm)
                va tr fr ev).
Proof.
  intros Hr Hl Hlv Hst HT. unfold AddConsumer. rewrite decide_True by (by right).
  erewrite (bind_eq (mbind _ _)); cycle 1.
  { erewrite bind_eq by (by apply get_version_eq). rewrite Hl.
    erewrite bind_eq by (by apply when_false). erewrite bind_eq by (by apply get_version_eq). by apply deref_eq. }
  erewrite (bind_eq (BuildConsumeRelationship _ _)); cycle 1.
  { unfold BuildConsumeRelationship. erewrite bind_eq by (by apply get_version_eq).
    erewrite bind_eq; cycle 1.
    { instantiate (1 := mk_dm V (<[t := inc_dep (bool_decide (v_status lv = DIDLE)) T]> Tm) va tr fr ev).
      instantiate (1 := tt). destruct (bool_decide _); [by apply mod_task_eq|].
      simpl. by rewrite insert_id. }
    erewrite bind_eq by (by apply mod_version_eq).
    by apply when_false, bool_decide_false. }
  erewrite mod_task_eq by apply lookup_insert_eq. by rewrite insert_insert_eq.
Qed.

(** A new child version of [this]. *)
Lemma CreateChildVersion_eq V Tm va tr fr ev this st y :
  V !! this = Some y → V !! fr = None → 
  CreateChildVersion this st (mk_dm V Tm va tr fr ev) =
    let c := VersionCtx_ctor (v_signature y) (Some this) (v_last y) <| v_status := st |> in
    let V' := <[fr := c]> (<[this := y <| v_last := Some fr |>]> V) in
    match v_last y with
    | None => Some (tt, mk_dm V' Tm va tr (Pos.succ fr) ev)
    | Some p => mod_version p (λ v, v <| v_next := Some fr |>) (mk_dm V' Tm va tr (Pos.succ fr) ev)
    end.
Proof.
  intros Hy Hfr. assert (Hne : this ≠ fr) by congruence. unfold CreateChildVersion.
  erewrite bind_eq by (by apply get_version_eq). erewrite (bind_eq (new_version _)) by reflexivity. simpl.
  erewrite bind_eq by (apply mod_version_eq; by rewrite lookup_insert_ne).
  erewrite bind_eq by (apply mod_version_eq; by rewrite lookup_insert_ne, lookup_insert_eq).
  rewrite (insert_insert_ne _ this fr) by done. rewrite insert_insert_eq. by destruct (v_last y).
Qed.

(** [AddConsumer] when the data has no version. *)
Lemma AddConsumer_new V Tm va tr fr ev r t rv T :
  V !! r = Some rv → v_last rv = None → V !! fr = None → Tm !! t = Some T →
  AddConsumer r t NDEFAULT (mk_dm V Tm va tr fr ev) =
    Some (tt, mk_dm (<[fr := VersionCtx_ctor (v_signature rv) (Some r) None <| v_status := DREADY |>
                               <| v_consumers := {[t]} |>]>
                       (<[r := rv <| v_last := Some fr |>]> V))
                (<[t := T <| t_ins ::= λ X, {[fr]} ∪ X |>]> Tm) va tr (Pos.succ fr) ev).
Proof.
  intros Hr Hl Hfr HT. assert (Hne : r ≠ fr) by congruence.
  unfold AddConsumer. rewrite decide_True by (by right).
  erewrite (bind_eq (mbind _ _)); cycle 1.
  { erewrite bind_eq by (by apply get_version_eq). rewrite Hl.
    erewrite bind_eq; cycle 1.
    { rewrite when_true by done. rewrite (CreateChildVersion_eq _ _ _ _ _ _ _ _ _ Hr Hfr), Hl. reflexivity. }
    erewrite bind_eq by (apply get_version_eq; rewrite lookup_insert_ne by done; apply lookup_insert_eq).
    by apply deref_eq. }
  erewrite (bind_eq (BuildConsumeRelationship _ _)); cycle 1.
  { unfold BuildConsumeRelationship. erewrite bind_eq by (apply get_version_eq, lookup_insert_eq).
    erewrite bind_eq by (by apply when_false). erewrite bind_eq by (apply mod_version_eq, lookup_insert_eq).
    by apply when_false. }
  erewrite mod_task_eq by done. rewrite insert_insert_eq. simpl. by rewrite union_empty_r_L.
Qed.

(** The end of [AddProducer]: the new version [c] is the latest one of [this]. *)
Lemma AddProducer_new V Tm va tr fr ev r t rv T :
  V !! r = Some rv → v_last rv = None → V !! fr = None → Tm !! t = Some T →
  AddProducer r t (mk_dm V Tm va tr fr ev) =
    Some (tt, mk_dm (<[fr := VersionCtx_ctor (v_signature rv) (Some r) None <| v_myProducer := Some t |>]>
                       (<[r := rv <| v_last := Some fr |>]> V))
                (<[t := T <| t_outs ::= λ X, {[fr]} ∪ X |>]> Tm) va tr (Pos.succ fr) ev).
Proof.
  intros Hr Hl Hfr HT. assert (Hne : r ≠ fr) by congruence. unfold AddProducer.
  erewrite bind_eq by (by apply get_version_eq). rewrite Hl. erewrite bind_eq by apply ret_eq.
  erewrite bind_eq; cycle 1.
  { rewrite (CreateChildVersion_eq _ _ _ _ _ _ _ _ _ Hr Hfr), Hl. reflexivity. }
  erewrite bind_eq by (apply get_version_eq; rewrite lookup_insert_ne by done; apply lookup_insert_eq).
  erewrite bind_eq by (by apply deref_eq). erewrite bind_eq by (by apply mod_task_eq).
  erewrite mod_version_eq by apply lookup_insert_eq. by rewrite insert_insert_eq.
Qed.

Lemma AddProducer_old V Tm va tr fr ev r t l rv lv T :
  V !! r = Some rv → v_last rv = Some l → V !! l = Some lv → v_status lv ≠ DCONSUMED → r ≠ l →
  V !! fr = None → Tm !! t = Some T →
  AddProducer r t (mk_dm V Tm va tr fr ev) =
    Some (tt, mk_dm (<[fr := VersionCtx_ctor (v_signature rv) (Some r) (Some l) <| v_myProducer := Some t |>]>
                       (<[l := lv <| v_nextProducer := Some t |> <| v_next := Some fr |>]>
                          (<[r := rv <| v_last := Some fr |>]> V)))
                (<[t := inc_dep true T <| t_outs ::= λ X, {[fr]} ∪ X |>]> Tm) va tr (Pos.succ fr) ev).
Proof.
  intros Hr Hl Hlv Hst Hrl Hfr HT. assert (Hne : r ≠ fr) by congruence. assert (Hlf : l ≠ fr) by congruence.
  unfold AddProducer. erewrite bind_eq by (by apply get_version_eq). rewrite Hl.
  erewrite bind_eq; cycle 1.
  { unfold BuildProducerProducerRelationship. erewrite bind_eq by (by apply get_version_eq).
    rewrite when_true by (by apply bool_decide_true).
    erewrite bind_eq by (by apply mod_version_eq). by apply mod_task_eq. }
  erewrite bind_eq; cycle 1.
  { rewrite (CreateChildVersion_eq _ _ _ _ _ _ r DIDLE rv); [|by rewrite lookup_insert_ne..].
    rewrite Hl. cbv zeta.
    apply mod_version_eq. rewrite !lookup_insert_ne by done. apply lookup_insert_eq. }
  erewrite bind_eq by (apply get_version_eq; rewrite !lookup_insert_ne by done; apply lookup_insert_eq).
  erewrite bind_eq by (by apply deref_eq). erewrite bind_eq by (apply mod_task_eq, lookup_insert_eq).
  erewrite mod_version_eq by (rewrite lookup_insert_ne by done; apply lookup_insert_eq).
  rewrite insert_insert_eq. do 3 f_equal.
  apply map_eq. intros k. destruct (decide (k = fr)) as [->|]; [by simplify_map_eq|].
  destruct (decide (k = l)) as [->|]; [by simplify_map_eq|].
  destruct (decide (k = r)) as [->|]; by simplify_map_eq.
Qed.

(** ** Notifications *)

Definition dec_dep (T : SCPUEUTask) : SCPUEUTask :=
  let T := T <| t_dataRefCnt ::= λ n, u64 (n - 1) |> in
  if decide (t_dataRefCnt T = 0) then T <| t_curStatus := READY |> else T.

Definition ready_count ev (t : taskid) : nat := length (filter (λ e, e = DmReady t) ev).

Lemma ready_count_app ev ev' t : ready_count (ev ++ ev') t = (ready_count ev t + ready_count ev' t)%nat.
Proof. unfold ready_count. by rewrite filter_app, length_app. Qed.

Lemma ready_count_ready t t' : ready_count [DmReady t] t' = if decide (t = t') then 1%nat else 0%nat.
Proof.
  unfold ready_count. rewrite filter_cons, filter_nil. repeat case_decide; simplify_eq; done.
Qed.

Lemma DecDepRef_eq V Tm va tr fr ev t T :
  Tm !! t = Some T →
  DecDepRef t (mk_dm V Tm va tr fr ev) =
    Some (tt, mk_dm V (<[t := dec_dep T]> Tm) va tr fr
                (ev ++ if decide (t_dataRefCnt (dec_dep T) = 0) then [DmReady t] else [])).
Proof.
  intros HT. unfold DecDepRef. erewrite bind_eq by (by apply mod_task_eq).
  erewrite bind_eq by (apply get_task_eq, lookup_insert_eq). unfold dec_dep. simpl.
  destruct (decide (u64 (t_dataRefCnt T - 1) = 0)) as [E|E]; simpl.
  - rewrite when_true by (by apply bool_decide_true). rewrite decide_True by done.
    unfold task_Ready, task_SetStatus. erewrite bind_eq by (apply mod_task_eq, lookup_insert_eq).
    rewrite insert_insert_eq. done.
  - rewrite when_false by (by apply bool_decide_false). rewrite decide_False by done. by rewrite app_nil_r.
Qed.

(** The tasks [l] have been notified once each. *)
Definition notified Tm Tm' ev ev' (l : list taskid) : Prop :=
  (∀ t, Tm' !! t = if decide (t ∈ l) then dec_dep <$> Tm !! t else Tm !! t) ∧
  (∀ t T, Tm !! t = Some T →
     ready_count ev' t = (ready_count ev t + if decide (t ∈ l ∧ t_dataRefCnt (dec_dep T) = 0%Z) then 1 else 0)%nat) ∧
  (∀ t, t ∉ l → ready_count ev' t = ready_count ev t).

Lemma iter_DecDepRef V Tm va tr fr ev l :
  NoDup l → (∀ t, t ∈ l → is_Some (Tm !! t)) →
  ∃ Tm' ev', iter DecDepRef l (mk_dm V Tm va tr fr ev) = Some (tt, mk_dm V Tm' va tr fr ev') ∧
    notified Tm Tm' ev ev' l.
Proof.
  revert Tm ev. induction l as [|a l IH]; intros Tm ev Hnd Hall.
  - exists Tm, ev. split; [done|]. split_and!; [done| |done]. intros t T _. rewrite decide_False; [lia|].
    by intros [?%elem_of_nil _].
  - apply NoDup_cons in Hnd as [Ha Hnd]. destruct (Hall a) as [T HT]; [left|].
    simpl. erewrite bind_eq by (by apply DecDepRef_eq).
    destruct (IH (<[a := dec_dep T]> Tm)
      (ev ++ if decide (t_dataRefCnt (dec_dep T) = 0) then [DmReady a] else [])) as (Tm' & ev' & E & H1 & H2 & H3); [done| |].
    { intros t Ht. rewrite lookup_insert_ne by (by intros ->). apply Hall. by right. }
    exists Tm', ev'. split; [done|]. split_and!.
    + intros t. rewrite H1. destruct (decide (t = a)) as [->|Hne].
      * rewrite decide_False by done. rewrite decide_True by left. by rewrite lookup_insert_eq, HT.
      * rewrite lookup_insert_ne by done. destruct (decide (t ∈ l)).
        -- by rewrite decide_True by (by right).
        -- rewrite decide_False; [done|]. by intros [?|?]%elem_of_cons.
    + intros t T' HT'. destruct (decide (t = a)) as [->|Hne].
      * simplify_eq. rewrite (H2 a (dec_dep T)) by apply lookup_insert_eq.
        rewrite (decide_False (P := a ∈ l ∧ _)) by tauto. rewrite ready_count_app.
        destruct (decide (t_dataRefCnt (dec_dep T) = 0)) as [E0|E0].
        -- rewrite ready_count_ready, !decide_True by (done || (split; [left|done])). lia.
        -- rewrite decide_False by tauto. unfold ready_count at 2. simpl. lia.
      * rewrite (H2 t T') by (by rewrite lookup_insert_ne). rewrite ready_count_app.
        assert (ready_count (if decide (t_dataRefCnt (dec_dep T) = 0) then [DmReady a] else []) t = 0%nat) as ->.
        { case_decide; [|done]. rewrite ready_count_ready. by rewrite decide_False. }
        rewrite Nat.add_0_r. f_equal. apply decide_ext. rewrite elem_of_cons. naive_solver.
    + intros t [Ht1 Ht2]%not_elem_of_cons. rewrite H3, ready_count_app by done. case_decide; [|by apply Nat.add_0_r].
      rewrite ready_count_ready, decide_False by done. lia.
Qed.

Lemma become_consumed_spec V Tm va tr fr ev v y :
  V !! v = Some y → (∀ p, v_nextProducer y = Some p → is_Some (Tm !! p)) →
  ∃ Tm' ev', become_consumed v (mk_dm V Tm va tr fr ev) =
      Some (tt, mk_dm (<[v := y <| v_status := DCONSUMED |> <| v_nextProducer := None |>]> V) Tm' va (tr ++ [v]) fr ev') ∧
    notified Tm Tm' ev ev' (option_list (v_nextProducer y)).
Proof.
  intros Hv Hp. unfold become_consumed. erewrite bind_eq by (by apply mod_version_eq).
  unfold NotifyNextProducer.
  destruct (iter_DecDepRef (<[v := y <| v_status := DCONSUMED |>]> V) Tm va tr fr ev (option_list (v_nextProducer y)))
    as (Tm' & ev' & E & Hn).
  { destruct (v_nextProducer y); [apply NoDup_singleton|constructor]. }
  { intros t Ht. apply Hp. destruct (v_nextProducer y); simpl in Ht; set_solver. }
  exists Tm', ev'. split; [|done].
  destruct (v_nextProducer y) as [p|] eqn:Hnp; cbn [option_list iter] in E.
  - apply bind_Some_inv in E as (s1 & E1 & E2). injection E2 as ->.
    erewrite (bind_eq (mbind _ _)); cycle 1.
    { erewrite bind_eq by (apply get_version_eq, lookup_insert_eq).
      change (v_nextProducer (y <| v_status := DCONSUMED |>)) with (v_nextProducer y). rewrite Hnp.
      rewrite (bind_eq _ _ _ _ _ E1). apply mod_version_eq, lookup_insert_eq. }
    unfold trash_push, DM_put. simpl. by rewrite insert_insert_eq.
  - injection E as <- <-. erewrite (bind_eq (mbind _ _)); cycle 1.
    { erewrite bind_eq by (apply get_version_eq, lookup_insert_eq). simpl. rewrite Hnp. apply ret_eq. }
    done.
Qed.

Context (order_perm : ∀ X, order X ≡ₚ elements X).

Lemma order_NoDup X : NoDup (order X).
Proof. rewrite order_perm. apply NoDup_elements. Qed.

Lemma elem_of_order t X : t ∈ order X ↔ t ∈ X.
Proof. rewrite order_perm. apply elem_of_elements. Qed.

(** The oldest version of its data is produced. *)
Lemma onProduced_spec V Tm va tr fr ev v y :
  V !! v = Some y → v_last y = None → v_dataWaitTaskByThis y = [] →
  (∀ p, v_nextProducer y = Some p → is_Some (Tm !! p)) → (∀ t, t ∈ v_consumers y → is_Some (Tm !! t)) →
  ∃ Tm' ev', onProduced order v (mk_dm V Tm va tr fr ev) =
      Some (tt, mk_dm (<[v := if decide (v_consumers y = ∅)
                              then y <| v_status := DCONSUMED |> <| v_nextProducer := None |>
                              else y <| v_status := DREADY |>]> V)
                  Tm' va (if decide (v_consumers y = ∅) then tr ++ [v] else tr) fr ev') ∧
    notified Tm Tm' ev ev'
      (if decide (v_consumers y = ∅) then option_list (v_nextProducer y) else order (v_consumers y)).
Proof.
  intros Hv Hl Hw Hp Hc. unfold onProduced. erewrite bind_eq by (by apply get_version_eq). rewrite Hl.
  erewrite bind_eq by apply ret_eq. destruct (decide (v_consumers y = ∅)) as [HX|HX].
  - destruct (become_consumed_spec V Tm va tr fr ev v y Hv Hp) as (Tm' & ev' & E & Hn).
    exists Tm', ev'. split; [|done]. rewrite (bind_eq _ _ _ _ _ E). unfold NotifyDataWaitTask.
    erewrite bind_eq by (apply get_version_eq, lookup_insert_eq). simpl. rewrite Hw.
    erewrite bind_eq by apply ret_eq. erewrite mod_version_eq by apply lookup_insert_eq.
    by rewrite insert_insert_eq.
  - destruct (iter_DecDepRef (<[v := y <| v_status := DREADY |>]> V) Tm va tr fr ev (order (v_consumers y)))
      as (Tm' & ev' & E & Hn).
    { apply order_NoDup. } { intros t. rewrite elem_of_order. apply Hc. }
    exists Tm', ev'. split; [|done]. erewrite (bind_eq (mbind _ _)); cycle 1.
    { erewrite bind_eq by (by apply mod_version_eq). unfold NotifyConsumers.
      erewrite bind_eq by (apply get_version_eq, lookup_insert_eq). exact E. }
    unfold NotifyDataWaitTask. erewrite bind_eq by (apply get_version_eq, lookup_insert_eq). simpl. rewrite Hw.
    erewrite bind_eq by apply ret_eq. erewrite mod_version_eq by apply lookup_insert_eq.
    by rewrite insert_insert_eq.
Qed.

Lemma notified_nil Tm ev : notified Tm Tm ev ev [].
Proof.
  split_and!; [done| |done]. intros t T _. rewrite decide_False; [lia|]. by intros [?%elem_of_nil _].
Qed.

Lemma onConsumed_spec V Tm va tr fr ev v y t :
  V !! v = Some y → (∀ p, v_nextProducer y = Some p → is_Some (Tm !! p)) →
  ∃ Tm' ev', onConsumed v t (mk_dm V Tm va tr fr ev) =
      Some (tt, mk_dm (<[v := let y' := y <| v_consumers ::= λ X, X ∖ {[t]} |> in
                              if decide (v_consumers y ∖ {[t]} = ∅)
                              then y' <| v_status := DCONSUMED |> <| v_nextProducer := None |> else y']> V)
                  Tm' va (if decide (v_consumers y ∖ {[t]} = ∅) then tr ++ [v] else tr) fr ev') ∧
    notified Tm Tm' ev ev' (if decide (v_consumers y ∖ {[t]} = ∅) then option_list (v_nextProducer y) else []).
Proof.
  intros Hv Hp. unfold onConsumed. erewrite bind_eq by (by apply mod_version_eq).
  erewrite bind_eq by (apply get_version_eq, lookup_insert_eq). simpl.
  destruct (decide (v_consumers y ∖ {[t]} = ∅)) as [HX|HX].
  - destruct (become_consumed_spec (<[v := y <| v_consumers ::= λ X, X ∖ {[t]} |>]> V) Tm va tr fr ev v
      (y <| v_consumers ::= λ X, X ∖ {[t]} |>)) as (Tm' & ev' & E & Hn); [apply lookup_insert_eq|done|].
    exists Tm', ev'. split; [|done]. simpl in E. rewrite E. by rewrite insert_insert_eq.
  - exists Tm, ev. split; [done|apply notified_nil].
Qed.

Lemma recycle_one_eq V Tm va tr fr ev v y n ny :
  V !! v = Some y → v_next y = Some n → v_last y = None → V !! n = Some ny → v ≠ n →
  recycle_one v (mk_dm V Tm va tr fr ev) =
    Some (tt, if decide (v_next ny = None)
              then mk_dm (delete n (delete v V)) Tm (delete (v_signature ny) va) tr fr ev
              else mk_dm (<[n := ny <| v_last := None |>]> (delete v V)) Tm va tr fr ev).
Proof.
  intros Hv Hn Hl Hny Hne. unfold recycle_one. erewrite bind_eq by (by apply get_version_eq).
  erewrite bind_eq by (by apply deref_eq). erewrite bind_eq by (by apply mod_version_eq). rewrite Hl.
  erewrite bind_eq by apply ret_eq. unfold free_version.
  erewrite (bind_eq (mbind _ _)); cycle 1.
  { erewrite bind_eq by (apply get_version_eq; by rewrite lookup_insert_ne). reflexivity. }
  simpl. rewrite delete_insert_ne by done.
  erewrite bind_eq by (apply get_version_eq, lookup_insert_eq). simpl. destruct (decide (v_next ny = None)) as [E|E].
  - rewrite when_true by (by apply bool_decide_true). erewrite bind_eq by reflexivity. simpl.
    erewrite bind_eq by (apply get_version_eq, lookup_insert_eq). unfold DM_put. simpl.
    by rewrite delete_insert_eq.
  - by rewrite when_false by (by apply bool_decide_false).
Qed.
End operations.

(** ** Chains and what they say of a task *)

Section chains.
Implicit Types (gs : list grp) (g : grp) (t p : taskid) (v : vid) (G : signature → list grp).

Record chain_wf gs : Prop := {
  cw_tail g : g ∈ tail gs → g_prod g ≠ None;
  cw_cons i k g g' t : gs !! i = Some g → gs !! k = Some g' → t ∈ g_cons g → t ∈ g_cons g' → i = k;
  cw_prod i k g g' t : gs !! i = Some g → gs !! k = Some g' → g_prod g = Some t → g_prod g' = Some t → i = k;
}.

Definition no_consumed gs : Prop := ∀ g, g ∈ gs → g_st g ≠ GConsumed.

Definition sreads gs t v : Prop := ∃ g, g ∈ gs ∧ g_vid g = v ∧ t ∈ g_cons g.
Definition swrites gs t v : Prop := ∃ g, g ∈ gs ∧ g_vid g = v ∧ g_prod g = Some t.
Definition reads G t v : Prop := ∃ x, sreads (G x) t v.
Definition writes G t v : Prop := ∃ x, swrites (G x) t v.

Lemma reads_change G x gs' t v (P : Prop) :
  (sreads gs' t v ↔ sreads (G x) t v ∨ P) → reads (<[x := gs']> G) t v ↔ reads G t v ∨ P.
Proof.
  intros H. unfold reads. split.
  - intros [y Hy]. rewrite fn_insert_decide in Hy. case_decide; [subst|by left; exists y].
    apply H in Hy as [?|?]; [left; by exists x|by right].
  - intros [[y Hy]|HP].
    + destruct (decide (y = x)) as [->|Hne].
      * exists x. rewrite fn_lookup_insert. apply H. by left.
      * exists y. by rewrite fn_lookup_insert_ne.
    + exists x. rewrite fn_lookup_insert. apply H. by right.
Qed.

Lemma writes_change G x gs' t v (P : Prop) :
  (swrites gs' t v ↔ swrites (G x) t v ∨ P) → writes (<[x := gs']> G) t v ↔ writes G t v ∨ P.
Proof.
  intros H. unfold writes. split.
  - intros [y Hy]. rewrite fn_insert_decide in Hy. case_decide; [subst|by left; exists y].
    apply H in Hy as [?|?]; [left; by exists x|by right].
  - intros [[y Hy]|HP].
    + destruct (decide (y = x)) as [->|Hne].
      * exists x. rewrite fn_lookup_insert. apply H. by left.
      * exists y. by rewrite fn_lookup_insert_ne.
    + exists x. rewrite fn_lookup_insert. apply H. by right.
Qed.

Lemma in_blocked_spec t gs : in_blocked t gs = true ↔ ∃ g, g ∈ gs ∧ t ∈ g_cons g ∧ g_prod g ≠ None.
Proof.
  unfold in_blocked. rewrite existsb_exists. split.
  - intros (g & Hg%list_elem_of_In & [H1%bool_decide_eq_true H2%bool_decide_eq_true]%andb_prop). eauto.
  - intros (g & Hg & H1 & H2). exists g. split; [by apply list_elem_of_In|].
    by rewrite !bool_decide_true.
Qed.

Lemma in_blocked_none t gs : (∀ g, g ∈ gs → t ∉ g_cons g) → in_blocked t gs = false.
Proof.
  intros H. apply not_true_is_false. intros (g & Hg & Ht & _)%in_blocked_spec. by eapply H.
Qed.

Lemma out_blocked_spec t gs :
  out_blocked t gs = true ↔
  ∃ i g g', gs !! i = Some g ∧ gs !! S i = Some g' ∧ g_prod g' = Some t ∧ g_st g ≠ GConsumed.
Proof.
  induction gs as [|g gs IH]; [split; [done|by intros (i & ? & ? & [=] & _)]|].
  destruct gs as [|g' gs].
  - split; [done|]. intros ([|i] & ? & ? & ? & H & _); simpl in *; congruence.
  - change (out_blocked t (g :: g' :: gs)) with
      ((bool_decide (g_prod g' = Some t) && bool_decide (g_st g ≠ GConsumed)) || out_blocked t (g' :: gs)).
    rewrite orb_true_iff, IH, andb_true_iff, !bool_decide_eq_true. split.
    + intros [[H1 H2]|(i & a & b & H)]; [exists 0%nat, g, g'; by split_and!|]. by exists (S i), a, b.
    + intros ([|i] & a & b & H1 & H2 & H3 & H4); simpl in *; [left; by simplify_eq|]. right. by exists i, a, b.
Qed.

Lemma out_blocked_none t gs : (∀ g, g ∈ tail gs → g_prod g ≠ Some t) → out_blocked t gs = false.
Proof.
  intros H. apply not_true_is_false. intros (i & g & g' & _ & Hg' & Hp & _)%out_blocked_spec.
  apply (H g'); [|done]. destruct gs as [|g0 gs]; [done|]. simpl in Hg'. by eapply list_elem_of_lookup_2.
Qed.

Lemma out_blocked_cons2 t g g' gs :
  out_blocked t (g :: g' :: gs) =
    (bool_decide (g_prod g' = Some t) && bool_decide (g_st g ≠ GConsumed)) || out_blocked t (g' :: gs).
Proof. done. Qed.

(** Only the states of the versions matter to a producer. *)
Lemma out_blocked_st t gs gs' : g_st <$> gs = g_st <$> gs' → out_blocked t gs = out_blocked t gs'.
Proof.
  revert gs'. induction gs as [|g gs IH]; intros [|g' gs'] E; [done..|]. simpl in E. injection E as E1 E2.
  specialize (IH gs' E2). destruct gs as [|a gs], gs' as [|b gs']; [done..|].
  injection E2 as E2 E3. rewrite !out_blocked_cons2, IH. unfold g_prod. by rewrite E1, E2.
Qed.

Lemma in_blocked_app t gs gs' : in_blocked t (gs ++ gs') = in_blocked t gs || in_blocked t gs'.
Proof. unfold in_blocked. apply existsb_app. Qed.

Lemma in_blocked_cons t g gs :
  in_blocked t (g :: gs) = (bool_decide (t ∈ g_cons g) && bool_decide (g_prod g ≠ None)) || in_blocked t gs.
Proof. done. Qed.

Lemma out_blocked_snoc t gs g n :
  out_blocked t ((gs ++ [g]) ++ [n]) =
    out_blocked t (gs ++ [g]) || (bool_decide (g_prod n = Some t) && bool_decide (g_st g ≠ GConsumed)).
Proof.
  induction gs as [|a gs IH]; [simpl; by rewrite orb_false_r|].
  destruct gs as [|b gs]; cbn [app] in *.
  - rewrite !out_blocked_cons2. simpl. by rewrite !orb_false_r.
  - rewrite !out_blocked_cons2, IH. by rewrite orb_assoc.
Qed.

(** A group whose members change, with its address and state kept. *)
Lemma chain_wf_cons gs g X :
  chain_wf (gs ++ [g]) → (∀ g' t, g' ∈ gs → t ∈ g_cons g' → t ∈ X → t ∈ g_cons g) →
  chain_wf (gs ++ [g <| g_cons := X |>]).
Proof.
  intros [H1 H2 H3] HX.
  assert (Hlk : ∀ i a, (gs ++ [g <| g_cons := X |>]) !! i = Some a →
    ∃ b, (gs ++ [g]) !! i = Some b ∧ g_st a = g_st b ∧
         (a = b ∧ a ∈ gs ∧ i < length gs ∨ b = g ∧ i = length gs ∧ g_cons a = X)%nat).
  { intros i a [Ha|[Hge Ha]]%lookup_app_Some.
    - exists a. pose proof (lookup_lt_Some _ _ _ Ha). rewrite lookup_app_l by done.
      split_and!; [done..|left]. split_and!; [done| |done]. by eapply list_elem_of_lookup_2.
    - apply list_lookup_singleton_Some in Ha as [Hi <-]. exists g. rewrite lookup_app_r by done.
      rewrite Hi. split_and!; [done..|right]. split_and!; [done|lia|done]. }
  split.
  - intros a Ha. assert (Hb : ∃ b, b ∈ tail (gs ++ [g]) ∧ g_st a = g_st b).
    { destruct gs as [|g0 gs]; simpl in *; [by apply elem_of_nil in Ha|].
      apply elem_of_app in Ha as [Ha|Ha%list_elem_of_singleton].
      - exists a. split; [|done]. apply elem_of_app. by left.
      - subst a. exists g. split; [|done]. apply elem_of_app. right. left. }
    destruct Hb as (b & Hb & E). unfold g_prod. rewrite E. by apply H1.
  - intros i k a a' t Ha Ha' Ht Ht'.
    destruct (Hlk _ _ Ha) as (b & Hb & _ & Hca), (Hlk _ _ Ha') as (b' & Hb' & _ & Hca').
    destruct Hca as [(-> & Hin & _)|(-> & -> & HXa)], Hca' as [(-> & Hin' & _)|(-> & -> & HXa')].
    + by eapply H2.
    + rewrite HXa' in Ht'. eapply (H2 i _ b g); [done|done|done|by eapply HX].
    + rewrite HXa in Ht. symmetry. eapply (H2 k _ b' g); [done|done|done|by eapply HX].
    + done.
  - intros i k a a' t Ha Ha' Ht Ht'.
    destruct (Hlk _ _ Ha) as (b & Hb & Eb & _), (Hlk _ _ Ha') as (b' & Hb' & Eb' & _).
    eapply (H3 i k b b' t); [done|done| |]; unfold g_prod; [by rewrite <-Eb|by rewrite <-Eb'].
Qed.

(** The effect of a change at one signature on a job's count. *)
Lemma snoc_elem {A} (l : list A) a b : b ∈ l ++ [a] ↔ b ∈ l ∨ b = a.
Proof. rewrite elem_of_app, list_elem_of_singleton. done. Qed.

(** *** A reader joins a version *)

Definition join_cons t g : grp := g <| g_cons := {[t]} ∪ g_cons g |>.

Lemma in_blocked_join_cons p gs g t :
  (∀ g', g' ∈ gs ++ [g] → p ∉ g_cons g') →
  in_blocked t (gs ++ [join_cons p g]) =
    in_blocked t (gs ++ [g]) || (bool_decide (t = p) && bool_decide (g_prod g ≠ None)).
Proof.
  intros Hnew. rewrite !in_blocked_app, !in_blocked_cons. simpl. change (g_prod (join_cons p g)) with (g_prod g).
  rewrite !orb_false_r. destruct (decide (t = p)) as [->|Hne].
  - rewrite (bool_decide_true (_ = _)), (bool_decide_true (_ ∈ _ ∪ _)) by set_solver.
    rewrite (bool_decide_false (_ ∈ _)) by (apply Hnew, snoc_elem; by right). simpl. by rewrite orb_false_r.
  - rewrite (bool_decide_false (t = _)) by done. rewrite orb_false_r.
    by rewrite (bool_decide_ext (t ∈ {[p]} ∪ g_cons g) (t ∈ g_cons g)) by set_solver.
Qed.

Lemma out_blocked_join_cons p gs g t : out_blocked t (gs ++ [join_cons p g]) = out_blocked t (gs ++ [g]).
Proof. apply out_blocked_st. by rewrite !fmap_app. Qed.

Lemma reads_join_cons p gs g t v :
  sreads (gs ++ [join_cons p g]) t v ↔ sreads (gs ++ [g]) t v ∨ (t = p ∧ v = g_vid g).
Proof.
  unfold sreads. setoid_rewrite snoc_elem. split.
  - intros (g' & [Hg'| ->] & <- & Ht); [left; exists g'; by eauto|]. simpl in *.
    apply elem_of_union in Ht as [Ht%elem_of_singleton|Ht]; [subst; by right|]. left. exists g. by eauto.
  - intros [(g' & [Hg'| ->] & <- & Ht)|[-> ->]]; [exists g'; by eauto|..]; (eexists; split; [by right|]);
      simpl; (split; [done|set_solver]).
Qed.

Lemma writes_join_cons p gs g t v : swrites (gs ++ [join_cons p g]) t v ↔ swrites (gs ++ [g]) t v.
Proof.
  unfold swrites. setoid_rewrite snoc_elem. split.
  - intros (g' & [Hg'| ->] & <- & Ht); [exists g'; by eauto|]. exists g. by eauto.
  - intros (g' & [Hg'| ->] & <- & Ht); [exists g'; by eauto|]. eexists. split; [by right|done].
Qed.

Definition first_grp (c : vid) p : grp := mk_grp c GReady {[p]}.

Lemma in_blocked_first c p t : in_blocked t [first_grp c p] = false.
Proof. rewrite in_blocked_cons. simpl. by rewrite andb_false_r. Qed.

Lemma reads_first c p t v : sreads [first_grp c p] t v ↔ t = p ∧ v = c.
Proof.
  unfold sreads. setoid_rewrite list_elem_of_singleton. split.
  - intros (g & -> & <- & Ht). simpl in *. by apply elem_of_singleton in Ht.
  - intros [-> ->]. eexists. split_and!; [done..|]. simpl. set_solver.
Qed.

Lemma writes_first c p t v : swrites [first_grp c p] t v ↔ False.
Proof. split; [|done]. intros (g & ->%list_elem_of_singleton & _ & [=]). Qed.

Lemma sreads_nil t v : sreads [] t v ↔ False.
Proof. split; [|done]. by intros (g & ?%elem_of_nil & _). Qed.

Lemma swrites_nil t v : swrites [] t v ↔ False.
Proof. split; [|done]. by intros (g & ?%elem_of_nil & _). Qed.

Lemma chain_wf_nil : chain_wf [].
Proof. split; [by intros g ?%elem_of_nil|intros [|?] ? ? ? ? [=]..]. Qed.

Lemma chain_wf_first c p : chain_wf [first_grp c p].
Proof.
  split; [by intros g ?%elem_of_nil|..];
    by intros i k g g' t [-> <-]%list_lookup_singleton_Some [-> <-]%list_lookup_singleton_Some.
Qed.

(** *** A new version joins a chain *)

Definition new_grp (c : vid) p : grp := mk_grp c (GIdle p) ∅.

Lemma in_blocked_new gs c p t : in_blocked t (gs ++ [new_grp c p]) = in_blocked t gs.
Proof.
  rewrite in_blocked_app, in_blocked_cons. simpl. rewrite bool_decide_false by set_solver. by rewrite !orb_false_r.
Qed.

Lemma out_blocked_new gs c p t :
  no_consumed gs →
  out_blocked t (gs ++ [new_grp c p]) = out_blocked t gs || (bool_decide (t = p) && bool_decide (gs ≠ [])).
Proof.
  intros Hnc. destruct gs as [|g gs _] using rev_ind; [simpl; by rewrite andb_false_r|].
  rewrite out_blocked_snoc. f_equal. f_equal; apply bool_decide_ext.
  - unfold g_prod. simpl. split; [by intros [=]|by intros ->].
  - split; [by intros _ [_ [=]]%app_nil|]. intros _. apply Hnc, snoc_elem. by right.
Qed.

Lemma reads_new gs c p t v : sreads (gs ++ [new_grp c p]) t v ↔ sreads gs t v.
Proof.
  unfold sreads. setoid_rewrite snoc_elem. split.
  - intros (g' & [Hg'| ->] & <- & Ht); [exists g'; by eauto|]. simpl in Ht. set_solver.
  - intros (g' & Hg' & <- & Ht). exists g'. by eauto.
Qed.

Lemma writes_new gs c p t v : swrites (gs ++ [new_grp c p]) t v ↔ swrites gs t v ∨ (t = p ∧ v = c).
Proof.
  unfold swrites. setoid_rewrite snoc_elem. split.
  - intros (g' & [Hg'| ->] & <- & Ht); [left; exists g'; by eauto|]. right. by injection Ht as ->.
  - intros [(g' & Hg' & <- & Ht)|[-> ->]]; [exists g'; by eauto|]. eexists. split; [by right|done].
Qed.

Lemma chain_wf_new gs c p : chain_wf gs → (∀ g, g ∈ gs → g_prod g ≠ Some p) → chain_wf (gs ++ [new_grp c p]).
Proof.
  intros [Ht Hc Hp] Hnew.
  assert (Hlk : ∀ i a, (gs ++ [new_grp c p]) !! i = Some a → gs !! i = Some a ∨ (i = length gs ∧ a = new_grp c p)).
  { intros i a [Ha|[Hge Ha]]%lookup_app_Some; [by left|]. right. apply list_lookup_singleton_Some in Ha as [? <-].
    split; [lia|done]. }
  split.
  - intros g Hg. destruct gs as [|g0 gs]; [by apply elem_of_nil in Hg|]. simpl in Hg.
    apply snoc_elem in Hg as [Hg| ->]; [by apply Ht|done].
  - intros i k g g' t [Hi|[-> ->]]%Hlk [Hk|[-> ->]]%Hlk Hg Hg'; [by eapply Hc|set_solver..].
  - intros i k g g' t [Hi|[-> ->]]%Hlk [Hk|[-> ->]]%Hlk Hg Hg'; [by eapply Hp|..|done].
    + injection Hg' as ->. apply list_elem_of_lookup_2 in Hi. by destruct (Hnew g).
    + injection Hg as ->. apply list_elem_of_lookup_2 in Hk. by destruct (Hnew g').
Qed.

Lemma dep_of_change G x gs' j :
  job_ok j →
  dep_of (<[x := gs']> G) j = dep_of G j
    + (if decide (x ∈ j_ins j) then Z.b2z (in_blocked (j_id j) gs') - Z.b2z (in_blocked (j_id j) (G x)) else 0)
    + (if decide (x ∈ j_outs j) then Z.b2z (out_blocked (j_id j) gs') - Z.b2z (out_blocked (j_id j) (G x)) else 0).
Proof.
  intros (Hi & Ho & _ & _). unfold dep_of.
  rewrite (zsum_change (λ y, in_blocked (j_id j) (G y)) (λ y, in_blocked (j_id j) (<[x := gs']> G y)) _ x Hi).
  2:{ intros y Hy. by rewrite fn_lookup_insert_ne. }
  rewrite (zsum_change (λ y, out_blocked (j_id j) (G y)) (λ y, out_blocked (j_id j) (<[x := gs']> G y)) _ x Ho).
  2:{ intros y Hy. by rewrite fn_lookup_insert_ne. }
  rewrite fn_lookup_insert. lia.
Qed.

Lemma dep_of_range G j : job_ok j → 0 <= dep_of G j < 2 ^ 64.
Proof.
  intros (_ & _ & _ & Hlen). unfold dep_of.
  pose proof (zsum_nonneg (λ x, in_blocked (j_id j) (G x)) (j_ins j)).
  pose proof (zsum_nonneg (λ x, out_blocked (j_id j) (G x)) (j_outs j)). lia.
Qed.
End chains.
