(* ===== verification/DependenceSpec.v ===== *)
(** * The dependence manager implements its specification

    The representation relation between the stores of Dependence.v and the chain
    of versions of each data, that [onSubmit] and [onTaskDone] keep it, and the
    theorems about sibling tasks. *)

From S2P Require Import Prelude Types Dependence DependenceFlat.

Section spec.
(** The parent of the tasks, a root task without dependences. *)
Context (rt : taskid).

Implicit Types (V : gmap vid VersionCtx) (Tm : gmap taskid SCPUEUTask) (va : gmap signature vid)
  (tr : list vid) (fr : vid) (ev : list dm_event).
Implicit Types (J Jr : list job) (E : list taskid) (G : signature → list grp) (R : signature → option vid)
  (j : job) (x y : signature) (t : taskid).

(** ** The representation relation *)

Definition root_rep Tm : Prop :=
  ∃ T, Tm !! rt = Some T ∧ t_parent T = None ∧ t_outs T = ∅ ∧ t_ins T = ∅ ∧ t_threadExit T = false.

Record task_ok G j (T : SCPUEUTask) : Prop := {
  to_parent : t_parent T = Some rt;
  to_handles : t_inHandles T = [];
  to_child : t_childRefCnt T = 0;
  to_dep : t_dataRefCnt T = dep_of G j;
  to_ins v : v ∈ t_ins T ↔ reads G (j_id j) v;
  to_outs v : v ∈ t_outs T ↔ writes G (j_id j) v;
}.

(** [J] are the unfinished jobs, [Jr] those of them whose hand-over to the scheduler
    is accounted for, [E] tasks that are neither (the one being finished). *)
Record flat V Tm va fr ev J Jr E G R : Prop := {
  fl_root : root_rep Tm;
  fl_sig x : sig_rep V va x (R x) (G x);
  fl_fresh v : is_Some (V !! v) → (v < fr)%positive;
  fl_nodup : NoDup (rt :: (j_id <$> J));
  fl_ok j : j ∈ J → job_ok j;
  fl_task j : j ∈ J → ∃ T, Tm !! j_id j = Some T ∧ task_ok G j T;
  fl_sub j : j ∈ Jr → j ∈ J;
  fl_ready j : j ∈ Jr → ready_count ev (j_id j) = if decide (dep_of G j = 0) then 1%nat else 0%nat;
  fl_cons x g t : g ∈ G x → t ∈ g_cons g → t ∈ E ∨ ∃ j, j ∈ J ∧ j_id j = t ∧ x ∈ j_ins j;
  fl_prod x g t : g ∈ G x → g_prod g = Some t → t ∈ E ∨ ∃ j, j ∈ J ∧ j_id j = t ∧ x ∈ j_outs j;
  fl_wf x : chain_wf (G x);
  fl_dom v : is_Some (V !! v) → ∃ x, in_sig (R x) (G x) v;
}.

Lemma jobs_inj J j j' : NoDup (rt :: (j_id <$> J)) → j ∈ J → j' ∈ J → j_id j = j_id j' → j = j'.
Proof.
  intros [_ Hnd]%NoDup_cons Hj Hj' E. apply list_elem_of_lookup in Hj as [a Ha].
  apply list_elem_of_lookup in Hj' as [b Hb].
  assert (a = b); [|congruence]. eapply NoDup_lookup; [exact Hnd| |]; rewrite list_lookup_fmap.
  - by rewrite Ha.
  - by rewrite Hb, E.
Qed.

Lemma job_not_root J j : NoDup (rt :: (j_id <$> J)) → j ∈ J → j_id j ≠ rt.
Proof. intros [Hrt _]%NoDup_cons Hj E. apply Hrt. rewrite <-E. by apply list_elem_of_fmap_2. Qed.

(** The other signatures do not notice a change to the versions of [x]. *)
Lemma sig_rep_other V V' va va' x rx gx y ry gy :
  sig_rep V va x rx gx → sig_rep V va y ry gy → y ≠ x →
  (∀ v, ¬ in_sig rx gx v → is_Some (V !! v) → V' !! v = V !! v) → va' !! y = va !! y →
  sig_rep V' va' y ry gy.
Proof.
  intros Hx Hy Hne HV Hva. eapply sig_rep_frame; [|exact Hva|exact Hy].
  intros v Hv. apply HV.
  - intros Hvx. destruct Hne. by eapply sig_rep_disjoint.
  - destruct (sig_rep_lookup _ _ _ _ _ _ Hy Hv) as (? & ? & _). by eexists.
Qed.

(** Changing the count and the sets of one task. *)
Lemma tasks_insert Tm J j T T' (P Q : job → SCPUEUTask → Prop) :
  NoDup (rt :: (j_id <$> J)) → j ∈ J → Tm !! j_id j = Some T →
  (∀ j', j' ∈ J → ∃ T, Tm !! j_id j' = Some T ∧ P j' T) →
  (∀ j' T, j' ∈ J → j' ≠ j → P j' T → Q j' T) → (P j T → Q j T') →
  ∀ j', j' ∈ J → ∃ T, <[j_id j := T']> Tm !! j_id j' = Some T ∧ Q j' T.
Proof.
  intros Hnd Hj HT HP Hother Hself j' Hj'. destruct (HP j' Hj') as (T1 & HT1 & HP1).
  destruct (decide (j_id j' = j_id j)) as [E|Hne].
  - apply (jobs_inj J) in E; [|done..]. subst j'. simplify_eq. exists T'.
    rewrite lookup_insert_eq. split; [done|by apply Hself].
  - exists T1. rewrite lookup_insert_ne by done. split; [done|]. apply Hother; [done|congruence|done].
Qed.

Lemma root_rep_insert Tm t T : t ≠ rt → root_rep Tm → root_rep (<[t := T]> Tm).
Proof. intros Hne (T0 & H & ?). exists T0. by rewrite lookup_insert_ne. Qed.

(** The versions of one signature change, and the counts with them. *)
Lemma flat_change V Tm va fr ev J Jr E G R x V' Tm' va' fr' ev' gs' R' :
  flat V Tm va fr ev J Jr E G R →
  sig_rep V' va' x (R' x) gs' → (∀ y, y ≠ x → R' y = R y) →
  (∀ v, ¬ in_sig (R x) (G x) v → is_Some (V !! v) → V' !! v = V !! v) →
  (∀ y, y ≠ x → va' !! y = va !! y) → (∀ v, is_Some (V' !! v) → (v < fr')%positive) →
  root_rep Tm' →
  (∀ j, j ∈ J → ∃ T, Tm' !! j_id j = Some T ∧ task_ok (<[x := gs']> G) j T) →
  (∀ j, j ∈ Jr → ready_count ev' (j_id j) = if decide (dep_of (<[x := gs']> G) j = 0) then 1%nat else 0%nat) →
  (∀ g t, g ∈ gs' → t ∈ g_cons g → t ∈ E ∨ ∃ j, j ∈ J ∧ j_id j = t ∧ x ∈ j_ins j) →
  (∀ g t, g ∈ gs' → g_prod g = Some t → t ∈ E ∨ ∃ j, j ∈ J ∧ j_id j = t ∧ x ∈ j_outs j) →
  chain_wf gs' →
  (∀ v, is_Some (V' !! v) → in_sig (R' x) gs' v ∨ (is_Some (V !! v) ∧ ¬ in_sig (R x) (G x) v)) →
  flat V' Tm' va' fr' ev' J Jr E (<[x := gs']> G) R'.
Proof.
  intros Hfl Hsig HR HV Hva Hfr Hroot Htask Hready Hcons Hprod Hwf Hdom. split; try done.
  - intros y. rewrite fn_insert_decide. case_decide as Hy; [by subst|]. rewrite HR by done.
    eapply sig_rep_other; [apply (fl_sig _ _ _ _ _ _ _ _ _ _ Hfl x)|apply (fl_sig _ _ _ _ _ _ _ _ _ _ Hfl y)|done|done|by apply Hva].
  - apply Hfl.
  - apply Hfl.
  - apply Hfl.
  - intros y g t. rewrite fn_insert_decide. case_decide; [subst; apply Hcons|by apply Hfl].
  - intros y g t. rewrite fn_insert_decide. case_decide; [subst; apply Hprod|by apply Hfl].
  - intros y. rewrite fn_insert_decide. case_decide; [done|apply Hfl].
  - intros v [Hv|[Hv Hn]]%Hdom; [exists x; by rewrite fn_lookup_insert|].
    destruct (fl_dom _ _ _ _ _ _ _ _ _ _ Hfl v Hv) as [y Hy]. exists y.
    destruct (decide (y = x)) as [->|Hne]; [done|]. rewrite HR, fn_lookup_insert_ne by done. done.
Qed.

(** *** A job joins the chain of one of its data *)

(** What a step of [j] at the data [x] does to its task: [b] more dependences, the
    version [v] among its inputs or its outputs. *)
Record joined (T T' : SCPUEUTask) (b : bool) (Pi Po : vid → Prop) : Prop := {
  jn_parent : t_parent T' = t_parent T;
  jn_handles : t_inHandles T' = t_inHandles T;
  jn_child : t_childRefCnt T' = t_childRefCnt T;
  jn_dep : t_dataRefCnt T' = u64 (t_dataRefCnt T + Z.b2z b);
  jn_ins v : v ∈ t_ins T' ↔ v ∈ t_ins T ∨ Pi v;
  jn_outs v : v ∈ t_outs T' ↔ v ∈ t_outs T ∨ Po v;
}.

Lemma joined_in T b l b' :
  is_u64 (t_dataRefCnt T) → b = b' →
  joined T (inc_dep b T <| t_ins ::= λ X, {[l]} ∪ X |>) b' (λ v, v = l) (λ _, False).
Proof. intros Hu <-. split; destruct b; simpl; try done; try set_solver. rewrite Z.add_0_r. by rewrite u64_id. Qed.

Lemma joined_out T b l b' :
  is_u64 (t_dataRefCnt T) → b = b' →
  joined T (inc_dep b T <| t_outs ::= λ X, {[l]} ∪ X |>) b' (λ _, False) (λ v, v = l).
Proof. intros Hu <-. split; destruct b; simpl; try done; try set_solver. rewrite Z.add_0_r. by rewrite u64_id. Qed.

Section join.
Context V Tm va fr ev J Jr G R (Hfl : flat V Tm va fr ev J Jr [] G R).
Context (j : job) (Hj : j ∈ J) (Hjr : j ∉ Jr) (x : signature) (r : vid) (HR : R x = Some r).

Lemma other_id_ne j' : j' ∈ J → j' ≠ j → j_id j' ≠ j_id j.
Proof. intros Hj' Hne E. apply Hne. eapply jobs_inj; [apply Hfl|done..]. Qed.

(** The chain seen by the other jobs. *)
Record same_for_others (gs' : list grp) : Prop := {
  so_in t : t ≠ j_id j → in_blocked t gs' = in_blocked t (G x);
  so_out t : t ≠ j_id j → out_blocked t gs' = out_blocked t (G x);
  so_reads t v : t ≠ j_id j → sreads gs' t v ↔ sreads (G x) t v;
  so_writes t v : t ≠ j_id j → swrites gs' t v ↔ swrites (G x) t v;
}.

Lemma dep_of_other gs' j' :
  j' ∈ J → same_for_others gs' → j' ≠ j → dep_of (<[x := gs']> G) j' = dep_of G j'.
Proof.
  intros Hj' Hs Hne. rewrite dep_of_change by (by apply Hfl).
  rewrite (so_in _ Hs), (so_out _ Hs) by (by apply other_id_ne). repeat case_decide; lia.
Qed.

Lemma flat_join V' fr' T T' gs' b Pi Po :
  Tm !! j_id j = Some T → joined T T' b Pi Po →
  sig_rep V' va x (Some r) gs' →
  (∀ v, ¬ in_sig (Some r) (G x) v → is_Some (V !! v) → V' !! v = V !! v) →
  (∀ v, is_Some (V' !! v) → is_Some (V !! v) ∨ v ∈ g_vid <$> gs') → (∀ v, v ∈ g_vid <$> G x → v ∈ g_vid <$> gs') →
  (∀ v, is_Some (V' !! v) → (v < fr')%positive) → same_for_others gs' →
  dep_of (<[x := gs']> G) j = dep_of G j + Z.b2z b →
  (∀ v, sreads gs' (j_id j) v ↔ sreads (G x) (j_id j) v ∨ Pi v) →
  (∀ v, swrites gs' (j_id j) v ↔ swrites (G x) (j_id j) v ∨ Po v) →
  (∀ v, Pi v → x ∈ j_ins j) → (∀ v, Po v → x ∈ j_outs j) → chain_wf gs' →
  flat V' (<[j_id j := T']> Tm) va fr' ev J Jr [] (<[x := gs']> G) R.
Proof.
  intros HT Hjn Hsig HV Hdom Hincl Hfr Hso Hdep Hri Hro Hci Hco Hwf.
  assert (Hnd : NoDup (rt :: (j_id <$> J))) by apply Hfl.
  apply (flat_change _ _ _ _ _ _ _ _ _ _ _ _ _ _ _ _ _ _ Hfl); try done.
  - by rewrite HR.
  - by rewrite HR.
  - apply root_rep_insert; [by eapply job_not_root|apply Hfl].
  - apply (tasks_insert _ _ _ _ _ (task_ok G) (task_ok (<[x := gs']> G)) Hnd Hj HT).
    + apply Hfl.
    + intros j' T1 Hj' Hne []. split; [done..| | |].
      * by rewrite dep_of_other.
      * intros v. rewrite to_ins0. rewrite (reads_change G x gs' _ v False); [tauto|].
        rewrite (so_reads _ Hso) by (by apply other_id_ne). tauto.
      * intros v. rewrite to_outs0. rewrite (writes_change G x gs' _ v False); [tauto|].
        rewrite (so_writes _ Hso) by (by apply other_id_ne). tauto.
    + intros []. destruct Hjn. split; [congruence..| | |].
      * rewrite Hdep, jn_dep0, to_dep0. apply u64_id.
        rewrite <-Hdep. assert (job_ok j) by (by apply Hfl).
        pose proof (dep_of_range (<[x := gs']> G) j ltac:(done)). unfold is_u64, UINT64_MAX. lia.
      * intros v. by rewrite jn_ins0, to_ins0, (reads_change G x gs' _ v (Pi v)).
      * intros v. by rewrite jn_outs0, to_outs0, (writes_change G x gs' _ v (Po v)).
  - intros j' Hj'. assert (j' ∈ J) by (by apply Hfl). rewrite dep_of_other; [by apply Hfl|done..|congruence].
  - intros g t Hg Ht. destruct (decide (t = j_id j)) as [->|Hne].
    + assert (sreads (G x) (j_id j) (g_vid g) ∨ Pi (g_vid g)) as [(g0 & Hg0 & _ & Ht0)|HP].
      { apply Hri. by exists g. }
      * by eapply Hfl.
      * right. exists j. split_and!; [done..|by eapply Hci].
    + assert (sreads (G x) t (g_vid g)) as (g0 & Hg0 & _ & Ht0); [|by eapply Hfl].
      apply (so_reads _ Hso); [done|]. by exists g.
  - intros g t Hg Ht. destruct (decide (t = j_id j)) as [->|Hne].
    + assert (swrites (G x) (j_id j) (g_vid g) ∨ Po (g_vid g)) as [(g0 & Hg0 & _ & Ht0)|HP].
      { apply Hro. by exists g. }
      * by eapply Hfl.
      * right. exists j. split_and!; [done..|by eapply Hco].
    + assert (swrites (G x) t (g_vid g)) as (g0 & Hg0 & _ & Ht0); [|by eapply Hfl].
      apply (so_writes _ Hso); [done|]. by exists g.
  - intros v Hv. destruct (decide (in_sig (Some r) gs' v)) as [?|Hn]; [left; by rewrite HR|]. right.
    rewrite HR. rewrite in_sig_vids in *. split; [|by intros [?|?%Hincl]; auto].
    destruct (Hdom v Hv); [done|]. by destruct Hn; right.
Qed.

Context (tr : list vid).
Implicit Types (T : SCPUEUTask).

Lemma fresh_None V0 f0 : (∀ v, is_Some (V0 !! v) → (v < f0)%positive) → V0 !! f0 = None.
Proof.
  intros H. destruct (V0 !! f0) as [y|] eqn:E; [|done]. assert (f0 < f0)%positive by (apply H; by rewrite E). lia.
Qed.

Lemma fresh_insert V0 f0 k (w : VersionCtx) :
  (∀ v, is_Some (V0 !! v) → (v < f0)%positive) → (k < f0)%positive → ∀ v, is_Some (<[k := w]> V0 !! v) → (v < f0)%positive.
Proof.
  intros H Hk v. destruct (decide (v = k)) as [->|Hne]; [done|]. rewrite lookup_insert_ne by done. apply H.
Qed.

Lemma fresh_mono V0 f0 : (∀ v, is_Some (V0 !! v) → (v < f0)%positive) →
  ∀ v, is_Some (V0 !! v) → (v < Pos.succ f0)%positive.
Proof. intros H v Hv%H. lia. Qed.

Lemma dep_u64 T : task_ok G j T → is_u64 (t_dataRefCnt T).
Proof.
  intros Hok. rewrite (to_dep _ _ _ Hok). assert (job_ok j) by (by apply Hfl).
  pose proof (dep_of_range G j ltac:(done)). unfold is_u64, UINT64_MAX. lia.
Qed.

(** A reader of the latest version, which is not consumed. *)
Lemma AddConsumer_flat_old gs g :
  x ∈ j_ins j → G x = gs ++ [g] → g_st g ≠ GConsumed → (∀ g', g' ∈ G x → j_id j ∉ g_cons g') →
  ∃ V' Tm', AddConsumer r (j_id j) NDEFAULT (mk_dm V Tm va tr fr ev) = Some (tt, mk_dm V' Tm' va tr fr ev) ∧
    flat V' Tm' va fr ev J Jr [] (<[x := gs ++ [join_cons (j_id j) g]]> G) R.
Proof.
  intros Hx HG Hst Hnew. destruct (fl_task _ _ _ _ _ _ _ _ _ _ Hfl j Hj) as (T & HT & Hok).
  pose proof (fl_sig _ _ _ _ _ _ _ _ _ _ Hfl x) as Hsig. rewrite HR, HG in Hsig.
  destruct (sig_rep_last _ _ _ _ _ _ Hsig) as (Hr & my & Hg & Hmy).
  pose proof (reads_join_cons (j_id j) gs g) as Hreads. pose proof (writes_join_cons (j_id j) gs g) as Hwrites.
  pose proof (in_blocked_join_cons (j_id j) gs g) as Hin. pose proof (out_blocked_join_cons (j_id j) gs g) as Hout.
  rewrite <-HG in Hreads, Hwrites, Hin, Hout. assert (Hin' := λ t, Hin t Hnew). clear Hin.
  eexists _, _. split.
  { eapply AddConsumer_old; [exact Hr|by simpl; rewrite last_snoc|exact Hg| |exact HT].
    unfold ver, g_status. simpl. by destruct (g_st g). }
  eapply (flat_join _ _ T _ _ (bool_decide (g_prod g ≠ None)) (λ v, v = g_vid g) (λ _, False)).
  - done.
  - apply joined_in; [by eapply dep_u64|]. unfold ver, g_status, g_prod. simpl. by destruct (g_st g).
  - by apply sig_rep_set_cons.
  - intros v Hv Hsome. rewrite lookup_insert_ne; [done|]. intros <-. apply Hv. right. exists g. split; [|done].
    rewrite HG. apply snoc_elem. by right.
  - intros v [<-|[_ ?]]%lookup_insert_is_Some; [left; by rewrite Hg|by left].
  - intros v. by rewrite HG, !fmap_vid_snoc.
  - apply fresh_insert; [apply Hfl|]. eapply fl_fresh; [done|]. by rewrite Hg.
  - split; intros; rewrite ?Hin', ?Hout, ?Hreads, ?Hwrites; [|done|naive_solver|naive_solver].
    rewrite (bool_decide_false (_ = _)) by done. by rewrite orb_false_r.
  - rewrite dep_of_change by (by apply Hfl). rewrite Hin', Hout.
    rewrite (in_blocked_none _ (G x)) by done. rewrite (bool_decide_true (_ = _)) by done.
    rewrite decide_True by done. simpl. case_decide; lia.
  - intros v. rewrite Hreads. naive_solver.
  - intros v. rewrite Hwrites. naive_solver.
  - done.
  - done.
  - apply chain_wf_cons; [rewrite <-HG; apply Hfl|]. intros g' t Hg' Ht [->%elem_of_singleton|?]%elem_of_union; [|done].
    destruct (Hnew g'); [|done]. rewrite HG. apply snoc_elem. by left.
Qed.

(** A reader of data without versions. *)
Lemma AddConsumer_flat_new :
  x ∈ j_ins j → G x = [] →
  ∃ V' Tm', AddConsumer r (j_id j) NDEFAULT (mk_dm V Tm va tr fr ev) = Some (tt, mk_dm V' Tm' va tr (Pos.succ fr) ev) ∧
    flat V' Tm' va (Pos.succ fr) ev J Jr [] (<[x := [first_grp fr (j_id j)]]> G) R.
Proof.
  intros Hx HG. destruct (fl_task _ _ _ _ _ _ _ _ _ _ Hfl j Hj) as (T & HT & Hok).
  pose proof (fl_sig _ _ _ _ _ _ _ _ _ _ Hfl x) as Hsig. rewrite HR, HG in Hsig.
  assert (Hr : V !! r = Some (root_version x [])) by apply Hsig.
  assert (Hfr : V !! fr = None) by apply fresh_None, Hfl.
  assert (Hlt : (r < fr)%positive) by (apply Hfl; by rewrite Hr).
  eexists _, _. split; [by eapply AddConsumer_new|].
  eapply (flat_join _ _ T _ _ false (λ v, v = fr) (λ _, False)).
  - done.
  - apply (joined_in T false); [by eapply dep_u64|done].
  - by apply (sig_rep_first _ _ _ _ _ GReady {[j_id j]} None).
  - intros v Hv Hsome. rewrite !lookup_insert_ne; [done|intros <-; apply Hv; by left|].
    intros <-. by rewrite Hfr in Hsome; destruct Hsome.
  - intros v [<-|[_ [<-|[_ ?]]%lookup_insert_is_Some]]%lookup_insert_is_Some; [right; left|left; by rewrite Hr|by left].
  - intros v. rewrite HG. by intros ?%elem_of_nil.
  - apply fresh_insert; [|lia]. apply fresh_insert; [|lia]. apply fresh_mono, Hfl.
  - split; intros; rewrite ?HG, ?in_blocked_first, ?reads_first, ?sreads_nil, ?writes_first, ?swrites_nil; naive_solver.
  - rewrite dep_of_change by (by apply Hfl). rewrite in_blocked_first, HG. simpl. repeat case_decide; lia.
  - intros v. rewrite reads_first, HG, sreads_nil. naive_solver.
  - intros v. rewrite writes_first, HG, swrites_nil. tauto.
  - done.
  - done.
  - apply chain_wf_first.
Qed.

Lemma flat_new_version V' T T' :
  x ∈ j_outs j → no_consumed (G x) → (∀ g', g' ∈ G x → g_prod g' ≠ Some (j_id j)) → Tm !! j_id j = Some T →
  joined T T' (bool_decide (G x ≠ [])) (λ _, False) (λ v, v = fr) →
  sig_rep V' va x (Some r) (G x ++ [new_grp fr (j_id j)]) →
  (∀ v, ¬ in_sig (Some r) (G x) v → v ≠ fr → V' !! v = V !! v) →
  flat V' (<[j_id j := T']> Tm) va (Pos.succ fr) ev J Jr [] (<[x := G x ++ [new_grp fr (j_id j)]]> G) R.
Proof.
  intros Hx Hnc Hnew HT Hjn Hsig HV.
  assert (Hin := λ t, in_blocked_new (G x) fr (j_id j) t).
  assert (Hout := λ t, out_blocked_new (G x) fr (j_id j) t Hnc).
  pose proof (fl_sig _ _ _ _ _ _ _ _ _ _ Hfl x) as Hold. rewrite HR in Hold.
  assert (Hdom : ∀ v, is_Some (V' !! v) → is_Some (V !! v) ∨ v = fr).
  { intros v Hv. destruct (decide (v = fr)) as [->|Hne]; [by right|]. left.
    destruct (decide (in_sig (Some r) (G x) v)) as [Hs|Hs].
    - destruct (sig_rep_lookup _ _ _ _ _ _ Hold Hs) as (? & -> & _). done.
    - by rewrite <-HV. }
  eapply (flat_join _ _ T _ _ _ _ _ HT Hjn Hsig).
  - intros v Hv Hs. apply HV; [done|]. intros ->. rewrite fresh_None in Hs by apply Hfl. by destruct Hs.
  - intros v [?| ->]%Hdom; [by left|]. right. rewrite fmap_vid_snoc. apply snoc_elem. by right.
  - intros v Hv. rewrite fmap_vid_snoc. apply snoc_elem. by left.
  - intros v [?%Hfl| ->]%Hdom; lia.
  - split; intros; rewrite ?Hin, ?Hout, ?reads_new, ?writes_new; [done| |done|naive_solver].
    rewrite (bool_decide_false (_ = _)) by done. by rewrite orb_false_r.
  - rewrite dep_of_change by (by apply Hfl). rewrite Hin, Hout, (out_blocked_none _ (G x)).
    2:{ intros g Hg. apply Hnew. destruct (G x); [by apply elem_of_nil in Hg|by right]. }
    rewrite (bool_decide_true (_ = _)) by done. rewrite (decide_True (P := x ∈ j_outs j)) by done. simpl.
    case_decide; lia.
  - intros v. rewrite reads_new. tauto.
  - intros v. rewrite writes_new. naive_solver.
  - done.
  - done.
  - apply chain_wf_new; [apply Hfl|done].
Qed.

(** A writer. *)
Lemma AddProducer_flat :
  x ∈ j_outs j → no_consumed (G x) → (∀ g', g' ∈ G x → g_prod g' ≠ Some (j_id j)) →
  ∃ V' Tm', AddProducer r (j_id j) (mk_dm V Tm va tr fr ev) = Some (tt, mk_dm V' Tm' va tr (Pos.succ fr) ev) ∧
    flat V' Tm' va (Pos.succ fr) ev J Jr [] (<[x := G x ++ [new_grp fr (j_id j)]]> G) R.
Proof.
  intros Hx Hnc Hnew. destruct (fl_task _ _ _ _ _ _ _ _ _ _ Hfl j Hj) as (T & HT & Hok).
  pose proof (fl_sig _ _ _ _ _ _ _ _ _ _ Hfl x) as Hsig. rewrite HR in Hsig.
  assert (Hr : V !! r = Some (root_version x (G x))) by apply Hsig.
  assert (Hfr : V !! fr = None) by apply fresh_None, Hfl.
  assert (Hlt : (r < fr)%positive) by (apply Hfl; by rewrite Hr).
  assert (Hsuf := λ V' T', flat_new_version V' T T' Hx Hnc Hnew HT).
  destruct (G x) as [|g gs _] eqn:HG using rev_ind.
  - eexists _, _. split; [by eapply AddProducer_new|]. apply Hsuf.
    + apply (joined_out T false); [by eapply dep_u64|done].
    + by apply (sig_rep_first _ _ _ _ _ (GIdle (j_id j)) ∅ (Some (j_id j))); [..|intros ? [= ->]].
    + intros v Hv Hne. rewrite !lookup_insert_ne; [done|intros <-; apply Hv; by left|done].
  - destruct (sig_rep_last _ _ _ _ _ _ Hsig) as (_ & my & Hg & Hmy).
    eexists _, _. split.
    { eapply AddProducer_old; [exact Hr|by simpl; rewrite last_snoc|exact Hg|..|exact Hfr|exact HT].
      - unfold ver, g_status. simpl. destruct (g_st g) eqn:E; try done. by destruct (Hnc g); [apply snoc_elem; right|].
      - by destruct (last_ids_ne _ _ _ _ _ _ Hsig). }
    apply Hsuf.
    + apply (joined_out T true); [by eapply dep_u64|]. rewrite bool_decide_true; [done|]. by intros [_ [=]]%app_nil.
    + by apply sig_rep_append; [..|apply Hnc, snoc_elem; right].
    + intros v Hv Hne. rewrite !lookup_insert_ne; [done|..|done].
      * intros <-. apply Hv. by left.
      * intros <-. apply Hv. right. exists g. split; [apply snoc_elem; by right|done].
Qed.
End join.
End spec.
