(* ===== verification/DependenceChain.v ===== *)
(** * The versions of one data as a function of its pending accesses

    What the dependence manager keeps for one data is determined by the list of
    the pending accesses to it in submission order: a write opens a version, a
    read joins the last one.  This file defines that chain, which accesses it
    holds back, and how it changes when an access ends. *)

From S2P Require Import Prelude Types Dependence DependenceFlat.

Inductive access := Rd (t : taskid) | Wr (t : taskid).
Definition a_task (a : access) : taskid := match a with Rd t | Wr t => t end.

Definition schain := list (gstate * gset taskid).

Definition erase (gs : list grp) : schain := (λ g, (g_st g, g_cons g)) <$> gs.

Implicit Types (c : schain) (a : access) (l : list access) (t p : taskid) (J : list job) (j : job).

Fixpoint s_read t c : schain :=
  match c with
  | [] => [(GReady, {[t]})]
  | [(st, X)] => [(st, {[t]} ∪ X)]
  | e :: c => e :: s_read t c
  end.

Definition s_write t c : schain := c ++ [(GIdle t, ∅)].

Definition s_apply c a : schain := match a with Rd t => s_read t c | Wr t => s_write t c end.
Definition s_chain l : schain := foldl s_apply [] l.

(** The pending accesses to [x]. *)
Definition acc_of (x : signature) j : list access :=
  if decide (x ∈ j_outs j) then [Wr (j_id j)] else if decide (x ∈ j_ins j) then [Rd (j_id j)] else [].
Definition accs (x : signature) J : list access := J ≫= acc_of x.

Definition s_idle (st : gstate) : bool := match st with GIdle _ => true | _ => false end.

Definition s_in_blocked t c : bool := existsb (λ '(st, X), bool_decide (t ∈ X) && s_idle st) c.
Fixpoint s_out_blocked t c : bool :=
  match c with
  | (st, _) :: (((st', _) :: _) as r) =>
      (bool_decide (st' = GIdle t) && bool_decide (st ≠ GConsumed)) || s_out_blocked t r
  | _ => false
  end.

Lemma in_blocked_erase t gs : in_blocked t gs = s_in_blocked t (erase gs).
Proof.
  induction gs as [|g gs IH]; [done|]. simpl. rewrite <-IH. f_equal. f_equal.
  unfold g_prod. by destruct (g_st g).
Qed.

Lemma out_blocked_erase t gs : out_blocked t gs = s_out_blocked t (erase gs).
Proof.
  induction gs as [|g [|g' gs] IH]; [done..|]. rewrite out_blocked_cons2, IH. simpl. f_equal. f_equal.
  apply bool_decide_ext. unfold g_prod. destruct (g_st g'); naive_solver.
Qed.

Lemma erase_app gs gs' : erase (gs ++ gs') = erase gs ++ erase gs'.
Proof. apply fmap_app. Qed.

Lemma s_chain_snoc l a : s_chain (l ++ [a]) = s_apply (s_chain l) a.
Proof. unfold s_chain. by rewrite foldl_app. Qed.

Lemma s_read_cons t e e' c : s_read t (e :: e' :: c) = e :: s_read t (e' :: c).
Proof. by destruct e. Qed.

Lemma s_read_snoc t c st X : s_read t (c ++ [(st, X)]) = c ++ [(st, {[t]} ∪ X)].
Proof.
  induction c as [|e [|e' c] IH]; [done|by destruct e|]. cbn [app] in *. by rewrite s_read_cons, IH.
Qed.

Lemma s_read_nil t c : s_read t c ≠ [].
Proof. destruct c as [|[st X] [|e c]]; done. Qed.

(** ** Shape *)

Lemma s_chain_nil l : s_chain l = [] ↔ l = [].
Proof.
  split; [|by intros ->]. destruct l as [|a l _] using rev_ind; [done|]. rewrite s_chain_snoc.
  destruct a; simpl; [by intros ?%s_read_nil|by intros [_ [=]]%app_nil].
Qed.

(** No version is consumed, only the oldest may be produced, and it is read. *)
Definition s_first (c : schain) : Prop :=
  match c with
  | [] => True
  | (st, X) :: c => st ≠ GConsumed ∧ (st = GReady → X ≠ ∅) ∧ ∀ e, e ∈ c → s_idle e.1 = true
  end.

Lemma s_chain_first l : s_first (s_chain l).
Proof.
  induction l as [|a l IH] using rev_ind; [done|]. rewrite s_chain_snoc.
  destruct a as [t|t]; simpl.
  - destruct (s_chain l) as [|[st X] c _] using rev_ind.
    + simpl. split_and!; [done|set_solver|]. by intros e ?%elem_of_nil.
    + rewrite s_read_snoc. destruct c as [|[st0 X0] c]; simpl in *.
      * destruct IH as (? & ? & ?). split_and!; [done|set_solver|done].
      * destruct IH as (? & ? & Hall). split_and!; [done..|]. intros e [He| ->]%snoc_elem.
        -- apply Hall, snoc_elem. by left.
        -- apply (Hall (st, X)), snoc_elem. by right.
  - unfold s_write. destruct (s_chain l) as [|[st X] c]; simpl in *.
    + split_and!; [done..|]. by intros e ?%elem_of_nil.
    + destruct IH as (? & ? & Hall). split_and!; [done..|]. intros e [He| ->]%snoc_elem; [by apply Hall|done].
Qed.

(** The last version is not produced exactly when a write is pending. *)
Definition last_idle c : bool := match last c with Some (st, _) => s_idle st | None => false end.

Lemma last_idle_chain l : last_idle (s_chain l) = true ↔ ∃ p, Wr p ∈ l.
Proof.
  induction l as [|a l IH] using rev_ind; [split; [done|by intros [p ?%elem_of_nil]]|].
  rewrite s_chain_snoc. setoid_rewrite snoc_elem. destruct a as [t|t]; simpl.
  - assert (last_idle (s_read t (s_chain l)) = last_idle (s_chain l)) as ->.
    { destruct (s_chain l) as [|[st X] c _] using rev_ind; [done|]. rewrite s_read_snoc. unfold last_idle.
      by rewrite !last_snoc. }
    rewrite IH. naive_solver.
  - unfold s_write, last_idle. rewrite last_snoc. split; [|done]. intros _. exists t. by right.
Qed.

(** ** Which accesses wait *)

Lemma s_in_blocked_app t c c' : s_in_blocked t (c ++ c') = s_in_blocked t c || s_in_blocked t c'.
Proof. apply existsb_app. Qed.

Lemma s_in_blocked_read t p c :
  s_in_blocked t (s_read p c) = s_in_blocked t c || (bool_decide (t = p) && last_idle c).
Proof.
  destruct c as [|[st X] c _] using rev_ind.
  - simpl. by rewrite !andb_false_r.
  - rewrite s_read_snoc, !s_in_blocked_app. unfold last_idle. rewrite last_snoc. simpl. rewrite !orb_false_r.
    rewrite <-orb_assoc. f_equal. destruct (s_idle st); [|by rewrite !andb_false_r]. rewrite !andb_true_r.
    destruct (decide (t = p)) as [->|Hne].
    + rewrite (bool_decide_true (p = p)), bool_decide_true by set_solver. by rewrite orb_true_r.
    + rewrite (bool_decide_false (t = p)) by done. rewrite orb_false_r. apply bool_decide_ext. set_solver.
Qed.

Lemma s_in_blocked_write t p c : s_in_blocked t (s_write p c) = s_in_blocked t c.
Proof.
  unfold s_write. rewrite s_in_blocked_app. simpl. rewrite bool_decide_false by set_solver. by rewrite orb_false_r.
Qed.

Lemma s_out_blocked_cons2 t st X st' X' c :
  s_out_blocked t ((st, X) :: (st', X') :: c) =
    (bool_decide (st' = GIdle t) && bool_decide (st ≠ GConsumed)) || s_out_blocked t ((st', X') :: c).
Proof. done. Qed.

Lemma s_out_blocked_st t c c' : c.*1 = c'.*1 → s_out_blocked t c = s_out_blocked t c'.
Proof.
  revert c'. induction c as [|[st X] c IH]; intros [|[st' X'] c'] E; [done..|]. injection E as <- E.
  specialize (IH c' E). destruct c as [|[a Xa] c], c' as [|[b Xb] c']; [done..|]. injection E as <- E.
  by rewrite !s_out_blocked_cons2, IH.
Qed.

Lemma s_out_blocked_snoc t c st X p :
  s_out_blocked t ((c ++ [(st, X)]) ++ [(GIdle p, ∅)]) =
    s_out_blocked t (c ++ [(st, X)]) || (bool_decide (t = p) && bool_decide (st ≠ GConsumed)).
Proof.
  assert (bool_decide (GIdle p = GIdle t) = bool_decide (t = p)) as Hb by (apply bool_decide_ext; naive_solver).
  induction c as [|[a Xa] [|[b Xb] c] IH]; cbn [app] in *; rewrite ?s_out_blocked_cons2, ?Hb in *.
  - simpl. by rewrite orb_false_r.
  - simpl. by rewrite !orb_false_r.
  - by rewrite IH, orb_assoc.
Qed.

Lemma s_out_blocked_read t p c : s_out_blocked t (s_read p c) = s_out_blocked t c.
Proof.
  destruct c as [|[st X] c _] using rev_ind; [done|]. rewrite s_read_snoc. apply s_out_blocked_st.
  by rewrite !fmap_app.
Qed.

Lemma s_out_blocked_write t p l :
  s_out_blocked t (s_write p (s_chain l)) = s_out_blocked t (s_chain l) || (bool_decide (t = p) && bool_decide (l ≠ [])).
Proof.
  pose proof (s_chain_first l) as Hf. pose proof (s_chain_nil l) as Hn.
  destruct (s_chain l) as [|[st X] c _] using rev_ind.
  - rewrite (bool_decide_false (l ≠ [])) by naive_solver. simpl. by rewrite andb_false_r.
  - unfold s_write. rewrite s_out_blocked_snoc. rewrite (bool_decide_true (l ≠ [])).
    2:{ intros E. apply Hn in E. by apply app_nil in E as [_ [=]]. }
    rewrite (bool_decide_true (st ≠ _)); [done|]. intros ->. destruct c as [|[st0 X0] c]; simpl in Hf.
    + by destruct Hf.
    + destruct Hf as (_ & _ & Hall). specialize (Hall (GConsumed, X)). simpl in Hall.
      discriminate Hall. apply snoc_elem. by right.
Qed.

(** A read waits for the writes before it, a write for every access before it. *)
Lemma in_blocked_before t l :
  s_in_blocked t (s_chain l) = true ↔ ∃ l1 l2 p, l = l1 ++ Rd t :: l2 ∧ Wr p ∈ l1.
Proof.
  induction l as [|a l IH] using rev_ind.
  { split; [done|]. intros (l1 & l2 & p & E & _). by destruct l1. }
  rewrite s_chain_snoc. assert (Hold : (∃ l1 l2 p, l = l1 ++ Rd t :: l2 ∧ Wr p ∈ l1) →
    ∃ l1 l2 p, l ++ [a] = l1 ++ Rd t :: l2 ∧ Wr p ∈ l1).
  { intros (l1 & l2 & p & -> & Hp). exists l1, (l2 ++ [a]), p. by rewrite <-app_assoc. }
  assert (Hinv : (∃ l1 l2 p, l ++ [a] = l1 ++ Rd t :: l2 ∧ Wr p ∈ l1) →
    (∃ l1 l2 p, l = l1 ++ Rd t :: l2 ∧ Wr p ∈ l1) ∨ (a = Rd t ∧ ∃ p, Wr p ∈ l)).
  { intros (l1 & l2 & p & E & Hp). destruct l2 as [|b l2 _] using rev_ind.
    - apply app_inj_tail in E as [-> ->]. right. eauto.
    - rewrite app_comm_cons, app_assoc in E. apply app_inj_tail in E as [-> ->]. left. eauto 6. }
  destruct a as [q|q]; simpl.
  - rewrite s_in_blocked_read, orb_true_iff, andb_true_iff, bool_decide_eq_true, last_idle_chain, IH.
    split; [|intros [?|[[= ->] ?]]%Hinv; [by left|by right]].
    intros [?|[-> [p Hp]]]; [by apply Hold|]. exists l, [], p. done.
  - rewrite s_in_blocked_write, IH. split; [done|]. intros [?|[[=] _]]%Hinv. done.
Qed.

Lemma out_blocked_before t l :
  s_out_blocked t (s_chain l) = true ↔ ∃ l1 l2, l = l1 ++ Wr t :: l2 ∧ l1 ≠ [].
Proof.
  induction l as [|a l IH] using rev_ind.
  { split; [done|]. intros (l1 & l2 & E & _). by destruct l1. }
  rewrite s_chain_snoc. assert (Hold : (∃ l1 l2, l = l1 ++ Wr t :: l2 ∧ l1 ≠ []) →
    ∃ l1 l2, l ++ [a] = l1 ++ Wr t :: l2 ∧ l1 ≠ []).
  { intros (l1 & l2 & -> & Hp). exists l1, (l2 ++ [a]). by rewrite <-app_assoc. }
  assert (Hinv : (∃ l1 l2, l ++ [a] = l1 ++ Wr t :: l2 ∧ l1 ≠ []) →
    (∃ l1 l2, l = l1 ++ Wr t :: l2 ∧ l1 ≠ []) ∨ (a = Wr t ∧ l ≠ [])).
  { intros (l1 & l2 & E & Hp). destruct l2 as [|b l2 _] using rev_ind.
    - apply app_inj_tail in E as [-> ->]. right. eauto.
    - rewrite app_comm_cons, app_assoc in E. apply app_inj_tail in E as [-> ->]. left. eauto 6. }
  destruct a as [q|q]; simpl.
  - rewrite s_out_blocked_read, IH. split; [done|]. intros [?|[[=] _]]%Hinv. done.
  - rewrite s_out_blocked_write, orb_true_iff, andb_true_iff, !bool_decide_eq_true, IH.
    split; [|intros [?|[[= ->] ?]]%Hinv; [by left|by right]].
    intros [?|[-> Hl]]; [by apply Hold|]. exists l, []. done.
Qed.

(** ** The end of an access *)

(** The oldest version is produced; without readers it goes away. *)
Definition s_produced c : schain :=
  match c with
  | (_, X) :: c => if decide (X = ∅) then c else (GReady, X) :: c
  | [] => []
  end.

(** A reader of the oldest version is done. *)
Definition s_consumed t c : schain :=
  match c with
  | (st, X) :: c => if decide (X ∖ {[t]} = ∅) then c else (st, X ∖ {[t]}) :: c
  | [] => []
  end.

Lemma s_produced_apply st X c a :
  s_produced (s_apply ((st, X) :: c) a) = s_apply (s_produced ((st, X) :: c)) a.
Proof.
  destruct a as [p|p]; simpl; [|by case_decide].
  destruct c as [|e c]; simpl; [|by case_decide; [|destruct e]].
  rewrite decide_False by set_solver. case_decide as H; [|done]. subst. simpl. by rewrite (right_id_L ∅ (∪)).
Qed.

Lemma s_consumed_apply t X c a :
  a_task a ≠ t →
  s_consumed t (s_apply ((GReady, X) :: c) a) = s_apply (s_consumed t ((GReady, X) :: c)) a.
Proof.
  destruct a as [p|p]; simpl; intros Hne; [|by case_decide].
  destruct c as [|e c]; simpl; [|by case_decide; [|destruct e]].
  assert (({[p]} ∪ X) ∖ {[t]} = {[p]} ∪ (X ∖ {[t]})) as -> by set_solver.
  rewrite decide_False by set_solver. case_decide as H; [|done]. rewrite H. simpl. by rewrite (right_id_L ∅ (∪)).
Qed.

Lemma s_apply_head st X c a : ∃ X' c', s_apply ((st, X) :: c) a = (st, X') :: c'.
Proof. destruct a; simpl; [destruct c|]; eauto. Qed.

Lemma s_chain_produced t l : s_chain l = s_produced (s_chain (Wr t :: l)).
Proof.
  unfold s_chain. change (foldl s_apply [] (Wr t :: l)) with (foldl s_apply [(GIdle t, ∅)] l).
  change (@nil (gstate * gset taskid)) with (s_produced [(GIdle t, ∅)]) at 1.
  generalize (GIdle t) (∅ : gset taskid) (@nil (gstate * gset taskid)).
  induction l as [|a l IH]; intros st X c; [done|]. cbn [foldl].
  rewrite <-s_produced_apply. destruct (s_apply_head st X c a) as (X' & c' & ->). apply IH.
Qed.

Lemma foldl_consumed t l X c :
  (∀ a, a ∈ l → a_task a ≠ t) →
  foldl s_apply (s_consumed t ((GReady, X) :: c)) l = s_consumed t (foldl s_apply ((GReady, X) :: c) l).
Proof.
  revert X c. induction l as [|a l IH]; intros X c Hl; [done|]. cbn [foldl].
  rewrite <-s_consumed_apply by (apply Hl; left). destruct (s_apply_head GReady X c a) as (X' & c' & ->).
  apply IH. intros a' ?. apply Hl. by right.
Qed.

(** Reads alone make one version. *)
Lemma s_chain_reads l : (∀ p, Wr p ∉ l) → l ≠ [] → ∃ X, s_chain l = [(GReady, X)] ∧ ∀ t, t ∈ X ↔ Rd t ∈ l.
Proof.
  induction l as [|a l IH] using rev_ind; [done|]. intros Hw _. rewrite s_chain_snoc.
  destruct a as [t|t]; [|destruct (Hw t); apply snoc_elem; by right]. destruct (decide (l = [])) as [->|Hl].
  - simpl. eexists. split; [done|]. set_solver.
  - destruct IH as (X & -> & HX); [|done|].
    + intros p Hp. apply (Hw p), snoc_elem. by left.
    + simpl. eexists. split; [done|]. intros t'. rewrite snoc_elem, <-HX. set_solver.
Qed.

Lemma s_chain_consumed t l1 l2 :
  (∀ p, Wr p ∉ l1) → (∀ a, a ∈ l1 ++ l2 → a_task a ≠ t) →
  s_chain (l1 ++ l2) = s_consumed t (s_chain (l1 ++ Rd t :: l2)).
Proof.
  intros Hw Hne. unfold s_chain. rewrite !foldl_app. cbn [foldl].
  change (foldl s_apply [] l1) with (s_chain l1).
  destruct (decide (l1 = [])) as [->|Hl1].
  - simpl. rewrite <-foldl_consumed by (intros; by apply Hne). f_equal. simpl. by rewrite decide_True by set_solver.
  - destruct (s_chain_reads l1) as (X & E & HX); [done..|]. rewrite E. simpl.
    rewrite <-foldl_consumed by (intros a Ha; apply Hne, elem_of_app; by right). f_equal. simpl.
    assert (Ht : t ∉ X). { rewrite HX. intros Ht. apply (Hne (Rd t)); [apply elem_of_app; by left|done]. }
    assert (({[t]} ∪ X) ∖ {[t]} = X) as -> by set_solver.
    rewrite decide_False; [done|]. pose proof (s_chain_first l1) as Hf. rewrite E in Hf. by apply Hf.
Qed.

(** ** Jobs *)

(** The jobs access a common data, and one of them writes it. *)
Definition conflict (j' j : job) : bool :=
  existsb (λ x, bool_decide (x ∈ j_ins j) || bool_decide (x ∈ j_outs j)) (j_outs j') ||
  existsb (λ x, bool_decide (x ∈ j_outs j)) (j_ins j').

Lemma conflict_false j' j :
  conflict j' j = false ↔
  (∀ x, x ∈ j_ins j → x ∉ j_outs j') ∧ (∀ x, x ∈ j_outs j → (x ∉ j_outs j') ∧ x ∉ j_ins j').
Proof.
  unfold conflict. rewrite orb_false_iff, <-!not_true_iff_false, !existsb_exists.
  setoid_rewrite orb_true_iff. setoid_rewrite bool_decide_eq_true. setoid_rewrite <-list_elem_of_In. firstorder.
Qed.

Lemma accs_app x J J' : accs x (J ++ J') = accs x J ++ accs x J'.
Proof. apply bind_app. Qed.

Lemma accs_snoc x J j : accs x (J ++ [j]) = accs x J ++ acc_of x j.
Proof. rewrite accs_app. f_equal. unfold accs. simpl. by rewrite app_nil_r. Qed.

Lemma accs_cons x j J : accs x (j :: J) = acc_of x j ++ accs x J.
Proof. done. Qed.

Lemma elem_of_accs x J a :
  a ∈ accs x J ↔ ∃ j, j ∈ J ∧ (a = Wr (j_id j) ∧ x ∈ j_outs j ∨ a = Rd (j_id j) ∧ x ∈ j_ins j ∧ x ∉ j_outs j).
Proof.
  unfold accs. rewrite list_elem_of_bind. split; intros (j & H1 & H2); exists j.
  - split; [done|]. unfold acc_of in H1. repeat case_decide; [left|right|by apply elem_of_nil in H1];
      by apply list_elem_of_singleton in H1 as ->.
  - split; [|done]. unfold acc_of. destruct H2 as [[-> ?]|(-> & ? & ?)]; repeat case_decide; try done; left.
Qed.

Lemma accs_not_in x J t : t ∉ j_id <$> J → ∀ a, a ∈ accs x J → a_task a ≠ t.
Proof.
  intros Ht a (j & Hj & H)%elem_of_accs <-. apply Ht, list_elem_of_fmap. exists j. split; [|done].
  by destruct H as [[-> _]|[-> _]].
Qed.

Lemma split_unique {A} (a : A) (l1 l2 m1 m2 : list A) : l1 ++ a :: l2 = m1 ++ a :: m2 → a ∉ m1 → a ∉ m2 → l1 = m1.
Proof.
  revert m1. induction l1 as [|b l1 IH]; intros [|b' m1] E H1 H2; simplify_eq/=.
  - done.
  - destruct H1. left.
  - destruct H2. apply elem_of_app. right. left.
  - f_equal. eapply IH; [done| |done]. intros ?. apply H1. by right.
Qed.

Section placed.
Context (J1 J2 : list job) (j : job) (Hnd : NoDup (j_id <$> (J1 ++ j :: J2))) (Hok : job_ok j).

Lemma placed_notin : (j_id j ∉ j_id <$> J1) ∧ j_id j ∉ j_id <$> J2.
Proof.
  rewrite fmap_app, fmap_cons in Hnd. apply NoDup_app in Hnd as (_ & H & [H2 _]%NoDup_cons).
  split; [|done]. intros H1. destruct (H _ H1). left.
Qed.

Lemma placed_split x a : a_task a = j_id j → ∀ l1 l2, l1 ++ a :: l2 = accs x J1 ++ a :: accs x J2 → l1 = accs x J1.
Proof.
  destruct placed_notin as [H1 H2].
  intros Ha l1 l2 E. eapply split_unique; [exact E|..]; intros Hin.
  - by apply (accs_not_in x J1 _ H1 a).
  - by apply (accs_not_in x J2 _ H2 a).
Qed.

Lemma acc_of_out x : x ∈ j_outs j → acc_of x j = [Wr (j_id j)].
Proof. intros Hx. unfold acc_of. by rewrite decide_True. Qed.

Lemma acc_of_in x : x ∈ j_ins j → acc_of x j = [Rd (j_id j)].
Proof.
  intros Hx. unfold acc_of. rewrite decide_False by (by apply Hok). by rewrite decide_True.
Qed.

Lemma in_blocked_placed x :
  x ∈ j_ins j →
  s_in_blocked (j_id j) (s_chain (accs x (J1 ++ j :: J2))) = false ↔ ∀ j', j' ∈ J1 → x ∉ j_outs j'.
Proof.
  intros Hx. rewrite accs_app, accs_cons, acc_of_in, <-not_true_iff_false, in_blocked_before by done. simpl. split.
  - intros Hn j' Hj' Hx'. apply Hn. exists (accs x J1), (accs x J2), (j_id j'). split; [done|].
    apply elem_of_accs. eauto.
  - intros Hall (l1 & l2 & p & E & Hp). symmetry in E. apply placed_split in E as ->; [|done].
    apply elem_of_accs in Hp as (j' & Hj' & [[_ Hx']|[[=] _]]). by eapply Hall.
Qed.

Lemma out_blocked_placed x :
  x ∈ j_outs j →
  s_out_blocked (j_id j) (s_chain (accs x (J1 ++ j :: J2))) = false ↔
  ∀ j', j' ∈ J1 → (x ∉ j_outs j') ∧ x ∉ j_ins j'.
Proof.
  intros Hx. rewrite accs_app, accs_cons, acc_of_out, <-not_true_iff_false, out_blocked_before by done. simpl.
  assert (Hnil : accs x J1 = [] ↔ ∀ j', j' ∈ J1 → (x ∉ j_outs j') ∧ x ∉ j_ins j').
  { split.
    - intros E j' Hj'. assert (Ha : ∀ a, a ∉ accs x J1) by (rewrite E; by intros a ?%elem_of_nil).
      split; intros Hx'; [apply (Ha (Wr (j_id j'))), elem_of_accs; by eauto|].
      destruct (decide (x ∈ j_outs j')); [apply (Ha (Wr (j_id j')))|apply (Ha (Rd (j_id j')))];
        apply elem_of_accs; eauto 6.
    - intros Hall. apply elem_of_nil_inv. intros a (j' & Hj' & H)%elem_of_accs. destruct (Hall _ Hj'). naive_solver. }
  rewrite <-Hnil. split.
  - intros Hn. destruct (decide (accs x J1 = [])); [done|]. destruct Hn. by eexists _, _.
  - intros Hl (l1 & l2 & E & Hp). symmetry in E. apply placed_split in E as ->; done.
Qed.

(** A job waits for nothing exactly when it conflicts with no earlier one. *)
Lemma dep_of_conflict G :
  (∀ x, erase (G x) = s_chain (accs x (J1 ++ j :: J2))) →
  dep_of G j = 0 ↔ ∀ j', j' ∈ J1 → conflict j' j = false.
Proof.
  intros HG. unfold dep_of.
  pose proof (zsum_nonneg (λ x, in_blocked (j_id j) (G x)) (j_ins j)).
  pose proof (zsum_nonneg (λ x, out_blocked (j_id j) (G x)) (j_outs j)).
  trans (zsum (λ x, in_blocked (j_id j) (G x)) (j_ins j) = 0 ∧ zsum (λ x, out_blocked (j_id j) (G x)) (j_outs j) = 0);
    [lia|].
  rewrite !zsum_zero. setoid_rewrite in_blocked_erase. setoid_rewrite out_blocked_erase. setoid_rewrite HG.
  setoid_rewrite conflict_false. split.
  - intros [Hi Ho] j' Hj'. split; intros x Hx.
    + by apply (in_blocked_placed x Hx); [apply Hi|].
    + destruct (out_blocked_placed x Hx) as [Hp _]. apply Hp; [by apply Ho|done].
  - intros Hc. split; intros x Hx.
    + apply in_blocked_placed; [done|]. intros j' Hj'. by apply (proj1 (Hc j' Hj')).
    + apply out_blocked_placed; [done|]. intros j' Hj'. by apply (proj2 (Hc j' Hj')).
Qed.

(** What becomes of the versions of [x] when the job is done. *)
Definition s_done (x : signature) c : schain :=
  if decide (x ∈ j_outs j) then s_produced c else if decide (x ∈ j_ins j) then s_consumed (j_id j) c else c.

Lemma s_chain_done x :
  (∀ j', j' ∈ J1 → conflict j' j = false) →
  s_chain (accs x (J1 ++ J2)) = s_done x (s_chain (accs x (J1 ++ j :: J2))).
Proof.
  intros Hc. setoid_rewrite conflict_false in Hc. rewrite !accs_app, accs_cons. unfold s_done.
  destruct placed_notin as [N1 N2]. case_decide as Ho; [|case_decide as Hi].
  - rewrite acc_of_out by done. assert (accs x J1 = []) as ->.
    { apply elem_of_nil_inv. intros a (j' & Hj' & H)%elem_of_accs. destruct (Hc j' Hj') as [_ Hx].
      destruct (Hx x Ho). naive_solver. }
    apply s_chain_produced.
  - rewrite acc_of_in by done. apply s_chain_consumed.
    + intros p (j' & Hj' & [[_ Hx]|[[=] _]])%elem_of_accs. by apply (proj1 (Hc j' Hj') x).
    + intros a [Ha|Ha]%elem_of_app; [by apply (accs_not_in x J1)|by apply (accs_not_in x J2)].
  - unfold acc_of. by rewrite !decide_False.
Qed.
End placed.
