(* ===== verification/DependenceOps.v ===== *)
(** * Submitting and finishing sibling tasks

    [onSubmit] and [onTaskDone] on states that represent chains of versions. *)

From S2P Require Import Prelude Types Dependence DependenceFlat DependenceSpec DependenceChain.

Section ops.
Context (order : gset positive → list positive).
Context (order_perm : ∀ X, order X ≡ₚ elements X).
Context (rt : taskid).

Implicit Types (V : gmap vid VersionCtx) (Tm : gmap taskid SCPUEUTask) (va : gmap signature vid)
  (tr : list vid) (fr : vid) (ev : list dm_event).
Implicit Types (J Jr : list job) (E : list taskid) (G : signature → list grp) (R : signature → option vid)
  (j : job) (x y : signature) (t : taskid).

#[local] Abbreviation flat := (flat rt).

Lemma order_empty : order ∅ = [].
Proof. apply Permutation_nil. rewrite order_perm. by rewrite elements_empty. Qed.

(** ** The versions of the accessed data *)

Lemma VA2Ctx_flat V Tm va tr fr ev J Jr G R x :
  flat V Tm va fr ev J Jr [] G R →
  ∃ V' va' fr' R' r, VA2Ctx x (mk_dm V Tm va tr fr ev) = Some (r, mk_dm V' Tm va' tr fr' ev) ∧
    flat V' Tm va' fr' ev J Jr [] G R' ∧ R' x = Some r ∧ (∀ y, y ≠ x → R' y = R y) ∧ (∀ r', R x = Some r' → r = r').
Proof.
  intros Hfl. pose proof (fl_sig _ _ _ _ _ _ _ _ _ _ _ Hfl x) as (Hva & Hnd & Hsig).
  unfold VA2Ctx. erewrite bind_eq by done. cbn [dm_vaMap]. destruct (R x) as [r|] eqn:HR.
  - rewrite Hva. exists V, va, fr, R, r. split_and!; [done..|]. by intros r' [= ->].
  - rewrite Hva. assert (Hfr : V !! fr = None) by apply fresh_None, Hfl.
    exists (<[fr := VersionCtx_ctor x None None]> V), (<[x := fr]> va), (Pos.succ fr), (<[x := Some fr]> R), fr.
    split; [done|]. rewrite fn_lookup_insert. split; [|split_and!; [done| |done]].
    2:{ intros y Hy. by rewrite fn_lookup_insert_ne. }
    destruct Hfl. split; try done.
    + intros y. rewrite fn_insert_decide. case_decide as Hy.
      * subst y. rewrite Hsig. split_and!; [by rewrite lookup_insert_eq|constructor|by rewrite lookup_insert_eq|done].
      * eapply sig_rep_frame; [|by rewrite lookup_insert_ne|apply fl_sig].
        intros v Hv. rewrite lookup_insert_ne; [done|]. intros <-.
        destruct (sig_rep_lookup _ _ _ _ _ _ (fl_sig y) Hv) as (? & ? & _). congruence.
    + apply fresh_insert; [by apply fresh_mono|lia].
    + intros v [<-|[_ Hv]]%lookup_insert_is_Some; [exists x; left; by rewrite fn_lookup_insert|].
      destruct (fl_dom v Hv) as [y Hy]. exists y. rewrite fn_insert_decide. case_decide as Hyx; [|done]. subst y.
      rewrite HR, Hsig in Hy. destruct Hy as [[=]|(g & ?%elem_of_nil & _)]; done.
Qed.

Lemma map_in_root V Tm va tr fr ev x :
  root_rep rt Tm →
  map_in order rt x (mk_dm V Tm va tr fr ev) = (v ← VA2Ctx x; mret (v, NDEFAULT)) (mk_dm V Tm va tr fr ev).
Proof.
  intros (T & HT & _ & Ho & Hi & _). unfold map_in. erewrite bind_eq by (by apply get_task_eq).
  rewrite Ho, Hi, order_empty. done.
Qed.

Lemma map_out_root V Tm va tr fr ev x :
  root_rep rt Tm →
  map_out order rt x (mk_dm V Tm va tr fr ev) = (v ← VA2Ctx x; mret (v, NDEFAULT)) (mk_dm V Tm va tr fr ev).
Proof.
  intros (T & HT & _ & Ho & _). unfold map_out. erewrite bind_eq by (by apply get_task_eq).
  rewrite Ho, order_empty. done.
Qed.

Definition mapped R (l : list signature) (rs : list (vid * NestType)) : Prop :=
  Forall2 (λ x p, p.2 = NDEFAULT ∧ R x = Some p.1) l rs.

Lemma mapped_mono R R' l rs : (∀ y r, R y = Some r → R' y = Some r) → mapped R l rs → mapped R' l rs.
Proof. intros Hm H. eapply Forall2_impl; [exact H|]. intros x p [? ?]. auto. Qed.

Lemma map_all_flat (f : signature → DM (vid * NestType)) V Tm va tr fr ev J Jr G R l :
  (∀ V va fr x, f x (mk_dm V Tm va tr fr ev) = (v ← VA2Ctx x; mret (v, NDEFAULT)) (mk_dm V Tm va tr fr ev)) →
  flat V Tm va fr ev J Jr [] G R →
  ∃ V' va' fr' R' rs, map_all f l (mk_dm V Tm va tr fr ev) = Some (rs, mk_dm V' Tm va' tr fr' ev) ∧
    flat V' Tm va' fr' ev J Jr [] G R' ∧ mapped R' l rs ∧
    (∀ y r, R y = Some r → R' y = Some r) ∧ (∀ y, y ∉ l → R' y = R y).
Proof.
  intros Hf. revert V va fr R. induction l as [|x l IH]; intros V va fr R Hfl.
  { exists V, va, fr, R, []. split_and!; [done..|constructor|done|done]. }
  destruct (VA2Ctx_flat V Tm va tr fr ev J Jr G R x Hfl) as (V1 & va1 & fr1 & R1 & r & E1 & Hfl1 & Hr & Hne & Hold).
  destruct (IH V1 va1 fr1 R1 Hfl1) as (V2 & va2 & fr2 & R2 & rs & E2 & Hfl2 & Hrs & Hm & Hout).
  exists V2, va2, fr2, R2, ((r, NDEFAULT) :: rs). split_and!; [|done|..].
  - cbn [map_all]. erewrite bind_eq; [|rewrite Hf; erewrite bind_eq by exact E1; apply ret_eq].
    by erewrite bind_eq by exact E2.
  - constructor; [|done]. split; [done|]. by apply Hm.
  - intros y r' Hy. apply Hm. destruct (decide (y = x)) as [->|Hyx]; [|by rewrite Hne].
    by rewrite Hr, (Hold r').
  - intros y [Hy1 Hy2]%not_elem_of_cons. by rewrite Hout, Hne.
Qed.

(** ** Joining the chains *)

(** The chains after the job [j] joined those of the data [l]. *)
Definition joined_all (f : schain → schain) (l : list signature) G G' : Prop :=
  ∀ x, if decide (x ∈ l) then erase (G' x) = f (erase (G x)) else G' x = G x.

Lemma joined_all_cons f x l G gs' G' :
  x ∉ l → erase gs' = f (erase (G x)) → joined_all f l (<[x := gs']> G) G' → joined_all f (x :: l) G G'.
Proof.
  intros Hx Hgs H y. specialize (H y). rewrite fn_insert_decide in H.
  destruct (decide (y = x)) as [->|Hne].
  - rewrite decide_True by left. rewrite decide_False in H by done. by rewrite H.
  - destruct (decide (y ∈ l)); [rewrite decide_True by (by right)|rewrite decide_False by set_solver]; done.
Qed.

Lemma iter_AddConsumer_flat l rs V Tm va tr fr ev J Jr G R j :
  flat V Tm va fr ev J Jr [] G R → j ∈ J → j ∉ Jr → NoDup l → (∀ x, x ∈ l → x ∈ j_ins j) → mapped R l rs →
  (∀ x, x ∈ l → no_consumed (G x) ∧ ∀ g, g ∈ G x → j_id j ∉ g_cons g) →
  ∃ V' Tm' fr' G', iter (λ '(v, ty), AddConsumer v (j_id j) ty) rs (mk_dm V Tm va tr fr ev) =
      Some (tt, mk_dm V' Tm' va tr fr' ev) ∧
    flat V' Tm' va fr' ev J Jr [] G' R ∧ joined_all (s_read (j_id j)) l G G'.
Proof.
  intros Hfl Hj Hjr Hnd Hl Hm. revert V Tm fr G Hfl.
  induction Hm as [|x [r ty] l rs [Hty Hr] Hm IH]; intros V Tm fr G Hfl Hnew.
  { exists V, Tm, fr, G. split_and!; [done..|]. intros x. by rewrite decide_False by apply not_elem_of_nil. }
  simpl in Hty, Hr. subst ty. apply NoDup_cons in Hnd as [Hx Hnd]. destruct (Hnew x) as [Hnc Hnx]; [left|].
  assert (Hin : x ∈ j_ins j) by (apply Hl; left).
  assert (∃ V1 Tm1 fr1 gs', AddConsumer r (j_id j) NDEFAULT (mk_dm V Tm va tr fr ev) =
      Some (tt, mk_dm V1 Tm1 va tr fr1 ev) ∧ flat V1 Tm1 va fr1 ev J Jr [] (<[x := gs']> G) R ∧
      erase gs' = s_read (j_id j) (erase (G x))) as (V1 & Tm1 & fr1 & gs' & E1 & Hfl1 & Hgs).
  { destruct (G x) as [|g gs _] eqn:HG using rev_ind.
    - destruct (AddConsumer_flat_new rt _ _ _ _ _ _ _ _ _ Hfl j Hj Hjr x r Hr tr Hin HG) as (V1 & Tm1 & E1 & Hfl1).
      by exists V1, Tm1, (Pos.succ fr), [first_grp fr (j_id j)].
    - destruct (AddConsumer_flat_old rt _ _ _ _ _ _ _ _ _ Hfl j Hj Hjr x r Hr tr gs g Hin HG)
        as (V1 & Tm1 & E1 & Hfl1); [apply Hnc, snoc_elem; by right|by rewrite HG|].
      exists V1, Tm1, fr, (gs ++ [join_cons (j_id j) g]). split_and!; [done..|].
      rewrite !erase_app. simpl. by rewrite s_read_snoc. }
  destruct (IH Hnd) with (V := V1) (Tm := Tm1) (fr := fr1) (G := <[x := gs']> G)
    as (V2 & Tm2 & fr2 & G2 & E2 & Hfl2 & Hall); [intros; apply Hl; by right|done| |].
  { intros y Hy. rewrite fn_lookup_insert_ne by set_solver. apply Hnew. by right. }
  exists V2, Tm2, fr2, G2. split_and!; [|done|by eapply joined_all_cons].
  cbn [iter]. by erewrite bind_eq by exact E1.
Qed.

Lemma iter_AddProducer_flat l rs V Tm va tr fr ev J Jr G R j :
  flat V Tm va fr ev J Jr [] G R → j ∈ J → j ∉ Jr → NoDup l → (∀ x, x ∈ l → x ∈ j_outs j) → mapped R l rs →
  (∀ x, x ∈ l → no_consumed (G x) ∧ ∀ g, g ∈ G x → g_prod g ≠ Some (j_id j)) →
  ∃ V' Tm' fr' G', iter (λ '(v, _), AddProducer v (j_id j)) rs (mk_dm V Tm va tr fr ev) =
      Some (tt, mk_dm V' Tm' va tr fr' ev) ∧
    flat V' Tm' va fr' ev J Jr [] G' R ∧ joined_all (s_write (j_id j)) l G G'.
Proof.
  intros Hfl Hj Hjr Hnd Hl Hm. revert V Tm fr G Hfl.
  induction Hm as [|x [r ty] l rs [Hty Hr] Hm IH]; intros V Tm fr G Hfl Hnew.
  { exists V, Tm, fr, G. split_and!; [done..|]. intros x. by rewrite decide_False by apply not_elem_of_nil. }
  simpl in Hr. apply NoDup_cons in Hnd as [Hx Hnd]. destruct (Hnew x) as [Hnc Hnx]; [left|].
  assert (Hin : x ∈ j_outs j) by (apply Hl; left).
  destruct (AddProducer_flat rt _ _ _ _ _ _ _ _ _ Hfl j Hj Hjr x r Hr tr Hin Hnc Hnx) as (V1 & Tm1 & E1 & Hfl1).
  destruct (IH Hnd) with (V := V1) (Tm := Tm1) (fr := Pos.succ fr) (G := <[x := G x ++ [new_grp fr (j_id j)]]> G)
    as (V2 & Tm2 & fr2 & G2 & E2 & Hfl2 & Hall); [intros; apply Hl; by right|done| |].
  { intros y Hy. rewrite fn_lookup_insert_ne by set_solver. apply Hnew. by right. }
  exists V2, Tm2, fr2, G2. split_and!; [|done|].
  - cbn [iter]. by erewrite bind_eq by exact E1.
  - eapply joined_all_cons; [done| |exact Hall]. by rewrite erase_app.
Qed.

(** ** Submitting *)

(** What [J] leaves in memory between two calls: the chains are those of the
    pending accesses, and only accessed data has versions. *)
Definition live J G R : Prop := ∀ x, erase (G x) = s_chain (accs x J) ∧ (G x = [] → R x = None).

Definition settled (s : dm) J : Prop :=
  ∃ V Tm va fr ev G R, s = mk_dm V Tm va [] fr ev ∧ flat V Tm va fr ev J J [] G R ∧ live J G R.

Lemma flat_not_in V Tm va fr ev J Jr G R t :
  flat V Tm va fr ev J Jr [] G R → t ∉ j_id <$> J →
  (∀ x g, g ∈ G x → t ∉ g_cons g) ∧ (∀ x g, g ∈ G x → g_prod g ≠ Some t).
Proof.
  intros Hfl Ht. split; intros x g Hg H.
  - destruct (fl_cons _ _ _ _ _ _ _ _ _ _ _ Hfl x g t Hg H) as [?%elem_of_nil|(j & Hj & <- & _)]; [done|].
    by apply Ht, list_elem_of_fmap_2.
  - destruct (fl_prod _ _ _ _ _ _ _ _ _ _ _ Hfl x g t Hg H) as [?%elem_of_nil|(j & Hj & <- & _)]; [done|].
    by apply Ht, list_elem_of_fmap_2.
Qed.

Lemma tail_elem {A} (a : A) l : a ∈ tail l → a ∈ l.
Proof. destruct l; [done|]. by right. Qed.

(** A task without dependences yet. *)
Lemma flat_new_job V Tm Tm' va fr ev J G R j T :
  flat V Tm va fr ev J J [] G R → j_id j ∉ j_id <$> J → j_id j ≠ rt → job_ok j →
  root_rep rt Tm' → (∀ j', j' ∈ J → Tm' !! j_id j' = Tm !! j_id j') → Tm' !! j_id j = Some T →
  t_parent T = Some rt → t_inHandles T = [] → t_childRefCnt T = 0 → t_dataRefCnt T = 0 → t_ins T = ∅ → t_outs T = ∅ →
  flat V Tm' va fr ev (J ++ [j]) J [] G R.
Proof.
  intros Hfl Hnew Hrt Hok Hroot Hold HT Hp Hh Hc Hd Hi Ho.
  destruct (flat_not_in _ _ _ _ _ _ _ _ _ _ Hfl Hnew) as [Nc Np]. destruct Hfl. split; try done.
  - rewrite fmap_app. change (NoDup ((rt :: (j_id <$> J)) ++ [j_id j])). apply NoDup_app.
    split_and!; [done| |apply NoDup_singleton].
    intros a Ha ->%list_elem_of_singleton. apply elem_of_cons in Ha as [?|?]; done.
  - intros j' [?| ->]%snoc_elem; [by apply fl_ok|done].
  - intros j' [Hj'| ->]%snoc_elem; [rewrite Hold by done; by apply fl_task|]. exists T. split; [done|].
    split; [done..| | |].
    + rewrite Hd. symmetry. unfold dep_of.
      rewrite (proj2 (zsum_zero _ (j_ins j))), (proj2 (zsum_zero _ (j_outs j))); [done|..]; intros x _.
      * apply out_blocked_none. intros g ?%tail_elem. by eapply Np.
      * apply in_blocked_none. by apply Nc.
    + intros v. rewrite Hi. split; [set_solver|]. intros (x & g & Hg & _ & Ht). by destruct (Nc x g).
    + intros v. rewrite Ho. split; [set_solver|]. intros (x & g & Hg & _ & Ht). by destruct (Np x g).
  - intros j' ?. apply elem_of_app. by left.
  - intros x g t Hg Ht. right. destruct (fl_cons x g t Hg Ht) as [?%elem_of_nil|(j' & ? & ? & ?)]; [done|].
    exists j'. split_and!; [apply elem_of_app; by left|done..].
  - intros x g t Hg Ht. right. destruct (fl_prod x g t Hg Ht) as [?%elem_of_nil|(j' & ? & ? & ?)]; [done|].
    exists j'. split_and!; [apply elem_of_app; by left|done..].
Qed.

Lemma task_ok_status G j T st : task_ok rt G j T → task_ok rt G j (T <| t_curStatus := st |>).
Proof. by intros []. Qed.

(** The end of [onSubmit]: the task is handed over now, or when its count drops to 0. *)
Definition submit_end (t : taskid) : DM unit :=
  x ← get_task t; if decide (t_dataRefCnt x ≠ 0) then mret tt else task_Ready t.

Lemma submit_end_flat V Tm va tr fr ev J G R j :
  flat V Tm va fr ev (J ++ [j]) J [] G R → ready_count ev (j_id j) = 0%nat →
  ∃ Tm' ev', submit_end (j_id j) (mk_dm V Tm va tr fr ev) = Some (tt, mk_dm V Tm' va tr fr ev') ∧
    flat V Tm' va fr ev' (J ++ [j]) (J ++ [j]) [] G R ∧
    (∀ t, t ≠ j_id j → ready_count ev' t = ready_count ev t).
Proof.
  intros Hfl Hz. assert (Hj : j ∈ J ++ [j]) by (apply snoc_elem; by right).
  destruct (fl_task _ _ _ _ _ _ _ _ _ _ _ Hfl j Hj) as (T & HT & Hok).
  unfold submit_end. erewrite bind_eq by (by apply get_task_eq). rewrite (to_dep _ _ _ _ Hok).
  pose proof (fl_nodup _ _ _ _ _ _ _ _ _ _ _ Hfl) as Hnd.
  assert (Hne : ∀ j', j' ∈ J → j_id j' ≠ j_id j).
  { intros j' Hj' E. rewrite fmap_app in Hnd. apply NoDup_cons in Hnd as [_ (_ & Hd & _)%NoDup_app].
    apply (Hd (j_id j')); [by apply list_elem_of_fmap_2|]. rewrite E. left. }
  case_decide as Hd.
  - exists Tm, ev. split_and!; [done| |done]. destruct Hfl. split; try done.
    intros j' [Hj'| ->]%snoc_elem; [by apply fl_ready|]. by rewrite Hz, decide_False.
  - exists (<[j_id j := T <| t_curStatus := READY |>]> Tm), (ev ++ [DmReady (j_id j)]).
    split_and!.
    + unfold task_Ready, task_SetStatus. by erewrite bind_eq by (by apply mod_task_eq).
    + destruct Hfl. split; try done.
      * apply root_rep_insert; [by eapply job_not_root|done].
      * eapply tasks_insert; [done..| |]; [by intros j' T' _ _|]. apply task_ok_status.
      * intros j' [Hj'| ->]%snoc_elem; rewrite ready_count_app, ready_count_ready.
        -- rewrite decide_False by (intros E; by eapply Hne). rewrite fl_ready by done. lia.
        -- by rewrite Hz, !decide_True.
    + intros t Ht. rewrite ready_count_app, ready_count_ready, decide_False by done. lia.
Qed.

(** The first steps: the task is constructed and counted by its parent. *)
Definition submit_begin (has_handle : bool) (t : taskid) : DM unit :=
  _ ← DM_put (λ s, s <| dm_tasks ::= <[t := SCPUEUTask_ctor (Some rt)]> |>);
  _ ← task_SetStatus SUBMITTED t;
  _ ← mod_task t (λ T, T <| t_inHandles := [] |>);
  _ ← DM_when has_handle (task_IncDeleteRef t);
  IncChildRef t.

Lemma submit_begin_flat V Tm va tr fr ev J G R hh j :
  flat V Tm va fr ev J J [] G R → j_id j ∉ j_id <$> J → j_id j ≠ rt → job_ok j →
  ∃ Tm', submit_begin hh (j_id j) (mk_dm V Tm va tr fr ev) = Some (tt, mk_dm V Tm' va tr fr ev) ∧
    flat V Tm' va fr ev (J ++ [j]) J [] G R.
Proof.
  intros Hfl Hnew Hrt Hok. destruct (fl_root _ _ _ _ _ _ _ _ _ _ _ Hfl) as (T0 & HT0 & Hr0).
  set (T1 := SCPUEUTask_ctor (Some rt) <| t_curStatus := SUBMITTED |> <| t_inHandles := [] |>).
  set (T2 := if hh then T1 <| t_rc ::= λ n, u32 (n + 1) |> else T1).
  exists (<[rt := T0 <| t_childRefCnt ::= λ n, u64 (n + 1) |>]> (<[j_id j := T2]> Tm)). split.
  - unfold submit_begin. erewrite bind_eq by done. cbn.
    erewrite bind_eq by (apply mod_task_eq, lookup_insert_eq). rewrite insert_insert_eq.
    erewrite bind_eq by (apply mod_task_eq, lookup_insert_eq). rewrite insert_insert_eq. fold T1.
    assert (E : ∀ s, DM_when hh (task_IncDeleteRef (j_id j)) (mk_dm V (<[j_id j := T1]> Tm) va tr fr ev) = s →
      s = Some (tt, mk_dm V (<[j_id j := T2]> Tm) va tr fr ev)).
    { intros s <-. unfold T2. destruct hh; [|done]. simpl. unfold task_IncDeleteRef.
      erewrite mod_task_eq by apply lookup_insert_eq. by rewrite insert_insert_eq. }
    erewrite bind_eq by (by apply E). unfold IncChildRef.
    erewrite bind_eq by (apply get_task_eq, lookup_insert_eq).
    erewrite bind_eq by (apply (deref_eq _ rt); by destruct hh).
    erewrite mod_task_eq by (by rewrite lookup_insert_ne). done.
  - eapply (flat_new_job _ _ _ _ _ _ _ _ _ _ T2 Hfl); try done; try by destruct hh.
    + exists (T0 <| t_childRefCnt ::= λ n, u64 (n + 1) |>). by rewrite lookup_insert_eq.
    + intros j' Hj'. rewrite !lookup_insert_ne; [done|..].
      * intros E. apply Hnew. rewrite E. by apply list_elem_of_fmap_2.
      * pose proof (job_not_root _ _ _ (fl_nodup _ _ _ _ _ _ _ _ _ _ _ Hfl) Hj'). done.
    + by rewrite lookup_insert_ne, lookup_insert_eq.
Qed.

Lemma live_no_consumed J G R x : live J G R → no_consumed (G x).
Proof.
  intros [HG _]%(λ H, H x) g Hg Hst. pose proof (s_chain_first (accs x J)) as Hf. rewrite <-HG in Hf.
  destruct (G x) as [|g0 gs]; [by apply elem_of_nil in Hg|]. simpl in Hf. destruct Hf as (H0 & _ & Hall).
  apply elem_of_cons in Hg as [->|Hg]; [done|]. specialize (Hall (g_st g, g_cons g)). simpl in Hall.
  rewrite Hst in Hall. discriminate Hall. apply list_elem_of_fmap. eexists. by rewrite Hst.
Qed.

Lemma erase_nil gs : erase gs = [] ↔ gs = [].
Proof. split; [|by intros ->]. by destruct gs. Qed.

(** The chains when the job has joined those of all its data. *)
Lemma live_submit J G R j G1 G2 R' :
  live J G R → job_ok j → joined_all (s_read (j_id j)) (j_ins j) G G1 → joined_all (s_write (j_id j)) (j_outs j) G1 G2 →
  (∀ x, x ∉ j_ins j → x ∉ j_outs j → R' x = R x) → live (J ++ [j]) G2 R'.
Proof.
  intros HL (_ & _ & Hdis & _) H1 H2 HR x. specialize (H1 x). specialize (H2 x). destruct (HL x) as [HG Hn].
  rewrite accs_snoc. unfold acc_of.
  destruct (decide (x ∈ j_outs j)) as [Ho|Ho]; [|destruct (decide (x ∈ j_ins j)) as [Hi|Hi]].
  - rewrite decide_False in H1 by (intros ?; by apply (Hdis x)). rewrite s_chain_snoc. simpl.
    rewrite H2, H1, HG. split; [done|]. intros E. exfalso. rewrite <-erase_nil, H2 in E.
    by apply app_nil in E as [_ [=]].
  - rewrite s_chain_snoc. simpl. rewrite H2, H1, HG. split; [done|]. intros E. exfalso.
    rewrite <-erase_nil, H1 in E. by apply s_read_nil in E.
  - rewrite app_nil_r, H2, H1. split; [done|]. intros ?. rewrite HR by done. auto.
Qed.

Definition job_of (has_handle : bool) (t : taskid) (i o : list signature) : job :=
  mk_job t i (if has_handle then o ++ [handle_sig t] else o).

(** Mapping the data of the job and joining their chains. *)
Definition submit_join (t : taskid) (i o : list signature) : DM unit :=
  '(inDatas, outDatas) ← MapSignature2Deps order rt i o;
  _ ← iter (λ '(v, ty), AddConsumer v t ty) inDatas;
  iter (λ '(v, _), AddProducer v t) outDatas.

Lemma submit_join_flat V Tm va tr fr ev J G R j :
  flat V Tm va fr ev (J ++ [j]) J [] G R → live J G R → j ∉ J → job_ok j →
  (∀ x g, g ∈ G x → j_id j ∉ g_cons g) → (∀ x g, g ∈ G x → g_prod g ≠ Some (j_id j)) →
  ∃ V' Tm' va' fr' G' R', submit_join (j_id j) (j_ins j) (j_outs j) (mk_dm V Tm va tr fr ev) =
      Some (tt, mk_dm V' Tm' va' tr fr' ev) ∧
    flat V' Tm' va' fr' ev (J ++ [j]) J [] G' R' ∧ live (J ++ [j]) G' R'.
Proof.
  intros Hfl1 HL Hjr Hok Nc Np. assert (Hj : j ∈ J ++ [j]) by (apply snoc_elem; by right).
  unfold submit_join, MapSignature2Deps.
  destruct (map_all_flat (map_in order rt) V Tm va tr fr ev (J ++ [j]) J G R (j_ins j)) as
    (V2 & va2 & fr2 & R2 & rs & E2 & Hfl2 & Hm2 & Hmono2 & Hout2); [intros; apply map_in_root, Hfl1|exact Hfl1|].
  destruct (map_all_flat (map_out order rt) V2 Tm va2 tr fr2 ev (J ++ [j]) J G R2 (j_outs j)) as
    (V3 & va3 & fr3 & R3 & rs' & E3 & Hfl3 & Hm3 & Hmono3 & Hout3); [intros; apply map_out_root, Hfl1|exact Hfl2|].
  erewrite (bind_eq (mbind _ _)).
  2:{ erewrite bind_eq by exact E2. erewrite bind_eq by exact E3. apply ret_eq. }
  destruct (iter_AddConsumer_flat (j_ins j) rs V3 Tm va3 tr fr3 ev _ _ G R3 j Hfl3 Hj Hjr) as
    (V4 & Tm4 & fr4 & G4 & E4 & Hfl4 & Hj4); [apply Hok|done|by eapply mapped_mono|by split; [eapply live_no_consumed|apply Nc]|].
  cbv beta iota. erewrite bind_eq by exact E4.
  destruct (iter_AddProducer_flat (j_outs j) rs' V4 Tm4 va3 tr fr4 ev _ _ G4 R3 j Hfl4 Hj Hjr) as
    (V5 & Tm5 & fr5 & G5 & E5 & Hfl5 & Hj5); [apply Hok|done|done| |].
  { intros x Hx. specialize (Hj4 x). rewrite decide_False in Hj4.
    - rewrite Hj4. by split; [eapply live_no_consumed|apply Np].
    - intros Hi. destruct Hok as (_ & _ & Hd & _). by apply (Hd x). }
  exists V5, Tm5, va3, fr5, G5, R3. split_and!; [exact E5|done|].
  eapply live_submit; [done..|]. intros x Hi' Ho'. by rewrite Hout3, Hout2.
Qed.

Definition submit_job (has_handle : bool) (j : job) : DM unit :=
  _ ← submit_begin has_handle (j_id j);
  if decide (j_ins j = [] ∧ j_outs j = []) then task_Ready (j_id j)
  else _ ← submit_join (j_id j) (j_ins j) (j_outs j); submit_end (j_id j).

Lemma onSubmit_eq hh t ins outs i o s :
  CheckOutsHandle outs = true → RemoveRepeatedDeps ins outs = ([], i, o) →
  onSubmit order hh t rt ins outs s = submit_job hh (job_of hh t i o) s.
Proof.
  intros Ho Hr. unfold onSubmit, submit_job, submit_begin, submit_join, submit_end. rewrite Ho, Hr. simpl.
  unfold mbind, DM_bind. simpl.
  destruct (task_SetStatus _ _ _) as [[[] s1]|]; [|done]. simpl.
  destruct (mod_task _ _ _) as [[[] s2]|]; [|done].
  destruct (DM_when _ _ _) as [[[] s3]|]; [|done]. destruct (IncChildRef _ _) as [[[] s4]|]; [|done].
  case_decide; [done|]. destruct (MapSignature2Deps _ _ _ _ _) as [[[a b] s5]|]; [|done].
  by destruct (iter _ _ _) as [[[] s6]|].
Qed.

Lemma submit_job_settled s J hh j :
  settled s J → job_ok j → j_id j ∉ j_id <$> J → j_id j ≠ rt → ready_count (dm_events s) (j_id j) = 0%nat →
  ∃ s', submit_job hh j s = Some (tt, s') ∧ settled s' (J ++ [j]) ∧
    ∀ t, t ≠ j_id j → ready_count (dm_events s') t = ready_count (dm_events s) t.
Proof.
  intros (V & Tm & va & fr & ev & G & R & -> & Hfl & HL) Hok Hnew Hrt Hz. unfold submit_job.
  destruct (flat_not_in _ _ _ _ _ _ _ _ _ _ Hfl Hnew) as [Nc Np].
  destruct (submit_begin_flat V Tm va [] fr ev J G R hh j) as (Tm1 & E1 & Hfl1); [done..|].
  erewrite bind_eq by exact E1. assert (Hj : j ∈ J ++ [j]) by (apply snoc_elem; by right).
  assert (Hjr : j ∉ J) by (intros ?; by apply Hnew, list_elem_of_fmap_2).
  case_decide as Hemp.
  - destruct (submit_end_flat V Tm1 va [] fr ev J G R j Hfl1 Hz) as (Tm2 & ev2 & E2 & Hfl2 & Hev).
    destruct Hemp as [Hi Ho]. exists (mk_dm V Tm2 va [] fr ev2). split; [|split; [|exact Hev]].
    + rewrite <-E2. unfold submit_end. destruct (fl_task _ _ _ _ _ _ _ _ _ _ _ Hfl1 j Hj) as (T & HT & HTok).
      erewrite bind_eq by (by apply get_task_eq). rewrite decide_False; [done|].
      rewrite (to_dep _ _ _ _ HTok). unfold dep_of. rewrite Hi, Ho. by intros [].
    + exists V, Tm2, va, fr, ev2, G, R. split_and!; [done..|].
      eapply (live_submit _ _ _ _ G G); [done|done|..]; [intros x; rewrite ?Hi, ?Ho..|done];
        by rewrite decide_False by apply not_elem_of_nil.
  - destruct (submit_join_flat V Tm1 va [] fr ev J G R j) as (V5 & Tm5 & va5 & fr5 & G5 & R5 & E5 & Hfl5 & HL5); [done..|].
    erewrite bind_eq by exact E5.
    destruct (submit_end_flat V5 Tm5 va5 [] fr5 ev J G5 R5 j Hfl5 Hz) as (Tm6 & ev6 & E6 & Hfl6 & Hev).
    eexists. split; [exact E6|split; [|exact Hev]]. by exists V5, Tm6, va5, fr5, ev6, G5, R5.
Qed.
End ops.
