(* ===== verification/DependenceDone.v ===== *)
(** * Finishing a sibling task

    [onTaskDone] on states that represent chains of versions: its versions are
    produced and consumed, the tasks that waited for them are handed over, and
    the versions nobody needs are freed. *)

From S2P Require Import Prelude Types Dependence DependenceFlat DependenceSpec DependenceChain DependenceOps.

(** ** Changing the oldest version *)

Section heads.
Implicit Types (gs : list grp) (g : grp) (t p : taskid) (v : vid) (G : signature → list grp).

Lemma sig_rep_head V va x r g gs g' my :
  sig_rep V va x (Some r) (g :: gs) → g_vid g' = g_vid g → g_my g' my →
  sig_rep (<[g_vid g := ver x r None g' gs my]> V) va x (Some r) (g' :: gs).
Proof.
  intros Hs Hv Hmy. assert (Hr' : g_vid g ≠ r) by (eapply sig_rep_root_ne; [exact Hs|left]).
  destruct Hs as (Hva & Hnd & Hr & Hc). simpl in Hc. rewrite app_nil_r in Hc. destruct Hc as [_ Hc].
  split_and!; [done| | |].
  - simpl. by rewrite Hv.
  - rewrite lookup_insert_ne by done. rewrite Hr. unfold root_version. destruct gs as [|g1 gs]; [simpl; by rewrite Hv|].
    by rewrite !last_cons_cons.
  - simpl. rewrite app_nil_r, Hv, lookup_insert_eq. split; [by exists my|].
    eapply chain_rep_frame; [|exact Hc]. intros g1 Hg1. rewrite lookup_insert_ne; [done|].
    simpl in Hnd. apply NoDup_cons in Hnd as [Hn _]. intros E. apply Hn. rewrite E. by apply list_elem_of_fmap_2.
Qed.

Lemma sig_rep_head_lookup V va x ro g gs :
  sig_rep V va x ro (g :: gs) →
  ∃ r my, ro = Some r ∧ V !! g_vid g = Some (ver x r None g gs my) ∧ g_my g my.
Proof.
  intros (_ & _ & Hc). destruct ro as [r|]; [|done]. destruct Hc as [_ [(my & Hg & Hmy) _]].
  rewrite app_nil_r in Hg. by exists r, my.
Qed.

Lemma chain_wf_head g g' gs :
  chain_wf (g :: gs) → g_cons g' ⊆ g_cons g → g_prod g' = None → chain_wf (g' :: gs).
Proof.
  intros [Ht Hc Hp] Hsub Hn. split.
  - apply Ht.
  - intros i k a b t Ha Hb HtA HtB.
    assert (∀ i a, (g' :: gs) !! i = Some a → t ∈ g_cons a → ∃ a', (g :: gs) !! i = Some a' ∧ t ∈ g_cons a') as Hl.
    { intros [|m] c; simpl; [intros [= <-] ?; exists g; split; [done|set_solver]|eauto]. }
    destruct (Hl i a Ha HtA) as (? & ? & ?). destruct (Hl k b Hb HtB) as (? & ? & ?). by eapply Hc.
  - intros [|i] [|k] a b t Ha Hb HpA HpB; simpl in *; simplify_eq; [done..|].
    apply (Hp (S i) (S k) a b t); done.
Qed.

(** A task is in one version of a chain only. *)
Lemma head_reader g gs t : chain_wf (g :: gs) → t ∈ g_cons g → in_blocked t gs = false.
Proof.
  intros [_ Hc _] Ht. apply in_blocked_none. intros g' Hg' Ht'. apply list_elem_of_lookup in Hg' as [i Hi].
  discriminate (Hc 0%nat (S i) g g' t eq_refl Hi Ht Ht').
Qed.

Lemma second_writer g g' gs t : chain_wf (g :: g' :: gs) → g_prod g' = Some t → out_blocked t (g' :: gs) = false.
Proof.
  intros [_ _ Hp] Ht. apply out_blocked_none. simpl. intros a Ha Hat. apply list_elem_of_lookup in Ha as [i Hi].
  discriminate (Hp 1%nat (S (S i)) g' a t eq_refl Hi Ht Hat).
Qed.

(** The readers of a version that is produced are released. *)
Lemma in_blocked_release g gs t :
  chain_wf (g :: gs) → g_prod g ≠ None →
  Z.b2z (in_blocked t (g <| g_st := GReady |> :: gs)) =
    Z.b2z (in_blocked t (g :: gs)) - if decide (t ∈ g_cons g) then 1 else 0.
Proof.
  intros Hwf Hp. rewrite !in_blocked_cons. simpl. rewrite andb_false_r, (bool_decide_true (g_prod g ≠ None)) by done.
  rewrite andb_true_r. simpl. case_decide as Ht; [|by rewrite bool_decide_false, Z.sub_0_r by done].
  rewrite (head_reader g gs) by done. by rewrite bool_decide_true.
Qed.

(** The writer of the next version is released when a version is consumed. *)
Lemma out_blocked_release g g' gs t :
  chain_wf (g :: gs) → g_st g ≠ GConsumed → g_st g' = GConsumed →
  Z.b2z (out_blocked t (g' :: gs)) =
    Z.b2z (out_blocked t (g :: gs)) - if decide (Some t = next_prod g gs) then 1 else 0.
Proof.
  intros Hwf Hst Hst'. destruct gs as [|a gs].
  { rewrite decide_False; [done|]. unfold next_prod. by destruct (g_st g). }
  assert (next_prod g (a :: gs) = g_prod a) as -> by (unfold next_prod; by destruct (g_st g)).
  rewrite !out_blocked_cons2, (bool_decide_true (g_st g ≠ _)), (bool_decide_false (g_st g' ≠ _)) by naive_solver.
  rewrite andb_false_r, andb_true_r, orb_false_l. case_decide as Ht.
  - symmetry in Ht. rewrite (bool_decide_true (g_prod a = _)) by done. by rewrite (second_writer g a gs).
  - rewrite (bool_decide_false (g_prod a = _)) by congruence. rewrite orb_false_l. lia.
Qed.
End heads.

Section done.
Context (order : gset positive → list positive).
Context (order_perm : ∀ X, order X ≡ₚ elements X).
Context (rt : taskid).

Implicit Types (V : gmap vid VersionCtx) (Tm : gmap taskid SCPUEUTask) (va : gmap signature vid)
  (tr : list vid) (fr : vid) (ev : list dm_event).
Implicit Types (J : list job) (E : list taskid) (G : signature → list grp) (R : signature → option vid)
  (j : job) (x y : signature) (t : taskid) (gs : list grp) (g : grp) (L : list taskid).

#[local] Abbreviation flat := (flat rt).

Lemma notified_task Tm Tm' ev ev' L t T :
  notified Tm Tm' ev ev' L → Tm !! t = Some T → Tm' !! t = Some (if decide (t ∈ L) then dec_dep T else T).
Proof. intros [H _] HT. rewrite H, HT. by case_decide. Qed.

Lemma notified_other Tm Tm' ev ev' L t : notified Tm Tm' ev ev' L → t ∉ L → Tm' !! t = Tm !! t.
Proof. intros [H _] Ht. by rewrite H, decide_False. Qed.

Lemma task_ok_notified G G' j T (b : bool) :
  task_ok rt G j T → job_ok j → dep_of G' j = dep_of G j - Z.b2z b →
  (∀ v, reads G' (j_id j) v ↔ reads G (j_id j) v) → (∀ v, writes G' (j_id j) v ↔ writes G (j_id j) v) →
  task_ok rt G' j (if b then dec_dep T else T) ∧ (b = true → t_dataRefCnt (dec_dep T) = dep_of G' j).
Proof.
  intros [] Hok Hdep Hr Hw. pose proof (dep_of_range G' j Hok).
  assert (Hd : b = true → t_dataRefCnt (dec_dep T) = dep_of G' j).
  { intros ->. unfold dec_dep. simpl in *.
    assert (u64 (t_dataRefCnt T - 1) = dep_of G' j) as Hu; [|by case_decide].
    rewrite to_dep, Hdep. apply u64_id. unfold is_u64, UINT64_MAX. lia. }
  split; [|done]. destruct b; simpl in *.
  - split; [..|by auto| |]; unfold dec_dep; case_decide; try done; intros v; by rewrite ?Hr, ?Hw.
  - split; try done; [lia|..]; intros v; by rewrite ?Hr, ?Hw.
Qed.

(** The oldest version of [x] changes and the tasks [L] are notified. *)
Lemma flat_notify V Tm va fr ev J E G R x V' Tm' ev' gs' L :
  flat V Tm va fr ev J J E G R → notified Tm Tm' ev ev' L → rt ∉ L →
  sig_rep V' va x (R x) gs' → g_vid <$> gs' = g_vid <$> G x →
  (∀ v, ¬ in_sig (R x) (G x) v → V' !! v = V !! v) →
  (∀ j, j ∈ J → dep_of (<[x := gs']> G) j = dep_of G j - if decide (j_id j ∈ L) then 1 else 0) →
  (∀ j v, j ∈ J → sreads gs' (j_id j) v ↔ sreads (G x) (j_id j) v) →
  (∀ j v, j ∈ J → swrites gs' (j_id j) v ↔ swrites (G x) (j_id j) v) →
  (∀ g t, g ∈ gs' → t ∈ g_cons g → ∃ g0, g0 ∈ G x ∧ t ∈ g_cons g0) →
  (∀ g t, g ∈ gs' → g_prod g = Some t → ∃ g0, g0 ∈ G x ∧ g_prod g0 = Some t) →
  chain_wf gs' →
  flat V' Tm' va fr ev' J J E (<[x := gs']> G) R.
Proof.
  intros Hfl Hn Hrt Hsig Hv HV Hdep Hr Hw Hcons Hprod Hwf.
  assert (Hsame : ∀ v, in_sig (R x) gs' v ↔ in_sig (R x) (G x) v) by (intros v; by rewrite !in_sig_vids, Hv).
  assert (Htask : ∀ j T, j ∈ J → Tm !! j_id j = Some T → task_ok rt G j T →
    task_ok rt (<[x := gs']> G) j (if decide (j_id j ∈ L) then dec_dep T else T) ∧
    (j_id j ∈ L → t_dataRefCnt (dec_dep T) = dep_of (<[x := gs']> G) j)).
  { intros j T Hj HT Hok. destruct (task_ok_notified G (<[x := gs']> G) j T (bool_decide (j_id j ∈ L))) as [H1 H2].
    - done.
    - by apply Hfl.
    - rewrite Hdep by done. case_decide; [rewrite bool_decide_true|rewrite bool_decide_false]; done.
    - intros v. rewrite (reads_change G x gs' _ v False); [tauto|]. rewrite Hr by done. tauto.
    - intros v. rewrite (writes_change G x gs' _ v False); [tauto|]. rewrite Hw by done. tauto.
    - split; [|intros ?; apply H2; by apply bool_decide_true]. case_decide.
      + by rewrite bool_decide_true in H1.
      + by rewrite bool_decide_false in H1. }
  assert (Hdom : ∀ v, is_Some (V' !! v) → in_sig (R x) gs' v ∨ is_Some (V !! v) ∧ ¬ in_sig (R x) (G x) v).
  { intros v Hs. destruct (decide (in_sig (R x) (G x) v)) as [Hi|Hi]; [left; by apply Hsame|right].
    by rewrite <-HV. }
  apply (flat_change _ _ _ _ _ _ _ _ _ _ _ _ _ _ _ _ _ _ _ Hfl); try done.
  - intros v ? _. by apply HV.
  - intros v [Hi|[Hs _]]%Hdom; [|by apply Hfl]. apply Hsame in Hi.
    destruct (sig_rep_lookup _ _ _ _ _ _ (fl_sig _ _ _ _ _ _ _ _ _ _ _ Hfl x) Hi) as (? & E1 & _).
    apply Hfl. by rewrite E1.
  - destruct (fl_root _ _ _ _ _ _ _ _ _ _ _ Hfl) as (T & HT & ?). exists T.
    by rewrite (notified_other _ _ _ _ _ _ Hn Hrt).
  - intros j Hj. destruct (fl_task _ _ _ _ _ _ _ _ _ _ _ Hfl j Hj) as (T & HT & Hok).
    eexists. split; [exact (notified_task _ _ _ _ _ _ _ Hn HT)|]. by apply Htask.
  - intros j Hj. destruct (fl_task _ _ _ _ _ _ _ _ _ _ _ Hfl j Hj) as (T & HT & Hok).
    destruct (Htask j T Hj HT Hok) as [_ Hd]. rewrite (proj1 (proj2 Hn) _ _ HT), (fl_ready _ _ _ _ _ _ _ _ _ _ _ Hfl j Hj).
    pose proof (dep_of_range (<[x := gs']> G) j ltac:(by apply Hfl)). rewrite Hdep in * by done.
    destruct (decide (j_id j ∈ L)) as [HL|HL].
    + rewrite (decide_False (P := dep_of G j = 0)) by lia. rewrite <-Hd by done.
      repeat case_decide; try lia; tauto.
    + rewrite (decide_False (P := _ ∧ _)) by tauto. rewrite Z.sub_0_r. lia.
  - intros g t Hg Ht. destruct (Hcons g t Hg Ht) as (g0 & ? & ?). by eapply Hfl.
  - intros g t Hg Ht. destruct (Hprod g t Hg Ht) as (g0 & ? & ?). by eapply Hfl.
Qed.

(** ** Counts *)

Section counts.
Context V Tm va fr ev J E G R (Hfl : flat V Tm va fr ev J J E G R).
Context (HE : ∀ j, j ∈ J → j_id j ∉ E).
Context x g gs (HG : G x = g :: gs).

Lemma wf_here : chain_wf (g :: gs).
Proof. rewrite <-HG. apply Hfl. Qed.

Lemma job_reads j : j ∈ J → j_id j ∈ g_cons g → x ∈ j_ins j.
Proof.
  intros Hj Ht. destruct (fl_cons _ _ _ _ _ _ _ _ _ _ _ Hfl x g (j_id j)) as [?|(j' & Hj' & E' & Hx)].
  - rewrite HG. left.
  - done.
  - by destruct (HE j).
  - apply (jobs_inj rt J) in E'; [by subst|apply Hfl|done..].
Qed.

Lemma job_writes_next j : j ∈ J → Some (j_id j) = next_prod g gs → x ∈ j_outs j.
Proof.
  intros Hj Ht. unfold next_prod in Ht.
  assert (∃ a, a ∈ gs ∧ g_prod a = Some (j_id j)) as (a & Ha & Hp).
  { destruct (g_st g), gs as [|a gs']; try done; exists a; (split; [left|done]). }
  destruct (fl_prod _ _ _ _ _ _ _ _ _ _ _ Hfl x a (j_id j)) as [?|(j' & Hj' & E' & Hx)].
  - rewrite HG. by right.
  - done.
  - by destruct (HE j).
  - apply (jobs_inj rt J) in E'; [by subst|apply Hfl|done..].
Qed.

Lemma dep_release_readers j :
  j ∈ J → g_prod g ≠ None →
  dep_of (<[x := g <| g_st := GReady |> :: gs]> G) j = dep_of G j - if decide (j_id j ∈ g_cons g) then 1 else 0.
Proof.
  intros Hj Hp. rewrite dep_of_change by (by apply Hfl). rewrite HG.
  rewrite (in_blocked_release g gs (j_id j) wf_here Hp).
  assert (out_blocked (j_id j) (g <| g_st := GReady |> :: gs) = out_blocked (j_id j) (g :: gs)) as ->.
  { destruct gs as [|a gs']; [done|]. rewrite !out_blocked_cons2. f_equal. f_equal.
    rewrite !bool_decide_true; [done| |done]. unfold g_prod in Hp. by destruct (g_st g). }
  pose proof (job_reads j Hj). repeat case_decide; try lia; tauto.
Qed.

Lemma dep_release_writer g' j :
  j ∈ J → g_st g ≠ GConsumed → g_st g' = GConsumed → j_id j ∉ g_cons g → 
  dep_of (<[x := g' :: gs]> G) j = dep_of G j - if decide (Some (j_id j) = next_prod g gs) then 1 else 0.
Proof.
  intros Hj Hst Hst' Hc. rewrite dep_of_change by (by apply Hfl).
  rewrite HG, (out_blocked_release g g' gs (j_id j) wf_here Hst Hst').
  assert (in_blocked (j_id j) (g' :: gs) = in_blocked (j_id j) (g :: gs)) as ->.
  { rewrite !in_blocked_cons. rewrite (bool_decide_false (_ ∈ g_cons g)) by done.
    assert (g_prod g' = None) as -> by (unfold g_prod; by rewrite Hst').
    by rewrite (bool_decide_false (None ≠ None)), andb_false_r by naive_solver. }
  pose proof (job_writes_next j Hj). repeat case_decide; try lia; tauto.
Qed.

Lemma dep_drop_reader X j :
  j ∈ J → (j_id j ∈ X ↔ j_id j ∈ g_cons g) →
  dep_of (<[x := g <| g_cons := X |> :: gs]> G) j = dep_of G j.
Proof.
  intros Hj HX. rewrite dep_of_change by (by apply Hfl). rewrite HG.
  assert (in_blocked (j_id j) (g <| g_cons := X |> :: gs) = in_blocked (j_id j) (g :: gs)) as ->.
  { rewrite !in_blocked_cons. f_equal. f_equal. by apply bool_decide_ext. }
  assert (out_blocked (j_id j) (g <| g_cons := X |> :: gs) = out_blocked (j_id j) (g :: gs)) as ->.
  { by apply out_blocked_st. }
  repeat case_decide; lia.
Qed.
End counts.

(** ** The versions of the finished task *)

Definition produce g : grp := if decide (g_cons g = ∅) then g <| g_st := GConsumed |> else g <| g_st := GReady |>.

Definition consume (t : taskid) g : grp :=
  let g' := g <| g_cons := g_cons g ∖ {[t]} |> in
  if decide (g_cons g ∖ {[t]} = ∅) then g' <| g_st := GConsumed |> else g'.

Lemma sreads_head g g' gs t v :
  g_vid g' = g_vid g → (t ∈ g_cons g' ↔ t ∈ g_cons g) → sreads (g' :: gs) t v ↔ sreads (g :: gs) t v.
Proof.
  intros Hv Ht. unfold sreads. setoid_rewrite elem_of_cons. split; intros (a & [->|Ha] & Hav & Hat).
  - exists g. rewrite <-Hv, <-Ht. auto.
  - exists a. auto.
  - exists g'. rewrite Hv, Ht. auto.
  - exists a. auto.
Qed.

Lemma swrites_head g g' gs t v :
  g_vid g' = g_vid g → (g_prod g' = Some t ↔ g_prod g = Some t) → swrites (g' :: gs) t v ↔ swrites (g :: gs) t v.
Proof.
  intros Hv Ht. unfold swrites. setoid_rewrite elem_of_cons. split; intros (a & [->|Ha] & Hav & Hat).
  - exists g. rewrite <-Hv, <-Ht. auto.
  - exists a. auto.
  - exists g'. rewrite Hv, Ht. auto.
  - exists a. auto.
Qed.

Lemma next_prod_in g gs p : next_prod g gs = Some p → ∃ a, a ∈ gs ∧ g_prod a = Some p.
Proof. unfold next_prod. destruct (g_st g), gs as [|a gs']; try done; exists a; (split; [left|done]). Qed.

Section finishing.
Context V Tm va tr fr ev J G R t (Hfl : flat V Tm va fr ev J J [t] G R).
Context (Ht : t ∉ j_id <$> J) (Hrt : t ≠ rt).
Context x g gs (HG : G x = g :: gs).

Lemma not_exiting j : j ∈ J → j_id j ∉ [t].
Proof. intros Hj <-%list_elem_of_singleton. by apply Ht, list_elem_of_fmap_2. Qed.

Lemma id_ne j : j ∈ J → j_id j ≠ t.
Proof. intros Hj <-. by apply Ht, list_elem_of_fmap_2. Qed.

(** Who is notified is an unfinished job. *)
Lemma readers_jobs p : p ∈ g_cons g → p ≠ t → p ∈ j_id <$> J.
Proof.
  intros Hp Hne. destruct (fl_cons _ _ _ _ _ _ _ _ _ _ _ Hfl x g p) as [Hpt|(j & Hj & <- & _)].
  - rewrite HG. left.
  - done.
  - by apply list_elem_of_singleton in Hpt.
  - by apply list_elem_of_fmap_2.
Qed.

Lemma next_jobs p : next_prod g gs = Some p → p ≠ t → p ∈ j_id <$> J.
Proof.
  intros (a & Ha & Hp)%next_prod_in Hne.
  destruct (fl_prod _ _ _ _ _ _ _ _ _ _ _ Hfl x a p) as [Hpt|(j & Hj & <- & _)].
  - rewrite HG. by right.
  - done.
  - by apply list_elem_of_singleton in Hpt.
  - by apply list_elem_of_fmap_2.
Qed.

Lemma jobs_alive p : p ∈ j_id <$> J → is_Some (Tm !! p) ∧ p ≠ rt.
Proof.
  intros (j & -> & Hj)%list_elem_of_fmap. split.
  - destruct (fl_task _ _ _ _ _ _ _ _ _ _ _ Hfl j Hj) as (T & -> & _). done.
  - eapply job_not_root; [apply Hfl|done].
Qed.

(** The head is replaced by [g'] and the jobs [L] are notified. *)
Lemma flat_head g' my V' Tm' ev' L :
  notified Tm Tm' ev ev' L → (∀ p, p ∈ L → p ∈ j_id <$> J) →
  (∀ r, R x = Some r → V' = <[g_vid g := ver x r None g' gs my]> V) → g_my g' my →
  g_vid g' = g_vid g → g_cons g' ⊆ g_cons g → g_prod g' = None →
  (∀ j, j ∈ J → dep_of (<[x := g' :: gs]> G) j = dep_of G j - if decide (j_id j ∈ L) then 1 else 0) →
  (∀ p, p ≠ t → p ∈ g_cons g' ↔ p ∈ g_cons g) → (∀ p, p ≠ t → g_prod g ≠ Some p) →
  flat V' Tm' va fr ev' J J [t] (<[x := g' :: gs]> G) R ∧ Tm' !! t = Tm !! t ∧
    (∀ p, p ∉ j_id <$> J → ready_count ev' p = ready_count ev p).
Proof.
  intros Hn HL HV' Hmy Hv Hsub Hp Hdep Hc Hpt. pose proof (fl_sig _ _ _ _ _ _ _ _ _ _ _ Hfl x) as Hsig.
  rewrite HG in Hsig. destruct (sig_rep_head_lookup _ _ _ _ _ _ Hsig) as (r & my0 & HR & Hg & _).
  specialize (HV' r HR). subst V'. split_and!.
  - eapply flat_notify; [exact Hfl|exact Hn|..].
    + intros ?%HL%jobs_alive. naive_solver.
    + rewrite HR in *. by apply sig_rep_head.
    + rewrite HG. simpl. by rewrite Hv.
    + intros v Hnv. rewrite lookup_insert_ne; [done|]. intros <-. apply Hnv. right. exists g. rewrite HG. split; [left|done].
    + done.
    + intros j v Hj. rewrite HG. apply sreads_head; [done|]. by apply Hc, id_ne.
    + intros j v Hj. rewrite HG. apply swrites_head; [done|]. rewrite Hp. split; [done|].
      intros H. exfalso. by apply (Hpt (j_id j)); [apply id_ne|].
    + intros a p [->|Ha]%elem_of_cons Hap; rewrite HG; [exists g|exists a]; (split; [by constructor|]); set_solver.
    + intros a p [->|Ha]%elem_of_cons Hap; [congruence|]. exists a. rewrite HG. split; [by right|done].
    + apply (chain_wf_head g); [|done..]. rewrite <-HG. apply Hfl.
  - apply (notified_other _ _ _ _ _ _ Hn). by intros ?%HL.
  - intros p Hpn. apply Hn. by intros ?%HL.
Qed.

Lemma elem_option_list p (o : option taskid) : p ∈ option_list o ↔ Some p = o.
Proof. destruct o as [q|]; simpl; [rewrite list_elem_of_singleton; naive_solver|]. split; [by intros ?%elem_of_nil|done]. Qed.

Lemma ver_next r g0 my : v_nextProducer (ver x r None g0 gs my) = next_prod g0 gs.
Proof. done. Qed.

Definition step_post V' Tm' ev' (G' : signature → list grp) : Prop :=
  flat V' Tm' va fr ev' J J [t] G' R ∧ Tm' !! t = Tm !! t ∧
  (∀ p, p ∉ j_id <$> J → ready_count ev' p = ready_count ev p).

Lemma onProduced_flat :
  g_prod g = Some t → t ∉ g_cons g →
  ∃ V' Tm' ev', onProduced order (g_vid g) (mk_dm V Tm va tr fr ev) =
      Some (tt, mk_dm V' Tm' va (if decide (g_cons g = ∅) then tr ++ [g_vid g] else tr) fr ev') ∧
    step_post V' Tm' ev' (<[x := produce g :: gs]> G).
Proof.
  intros Hp Htc. pose proof (fl_sig _ _ _ _ _ _ _ _ _ _ _ Hfl x) as Hsig. rewrite HG in Hsig.
  destruct (sig_rep_head_lookup _ _ _ _ _ _ Hsig) as (r & my & HR & Hg & Hmy).
  assert (Hwf : chain_wf (g :: gs)) by (rewrite <-HG; apply Hfl).
  assert (Hnt : ∀ p, next_prod g gs = Some p → p ≠ t).
  { intros p (a & Ha & Hap)%next_prod_in ->. apply list_elem_of_lookup in Ha as [i Hi].
    discriminate (cw_prod _ Hwf 0%nat (S i) g a t eq_refl Hi Hp Hap). }
  destruct (onProduced_spec order order_perm V Tm va tr fr ev (g_vid g) _ Hg) as (Tm' & ev' & E & Hn).
  { done. } { done. }
  { intros p Hnp. apply jobs_alive, next_jobs; auto. }
  { intros p Hpc. apply jobs_alive, readers_jobs; [done|]. by intros ->. }
  eexists _, Tm', ev'. split; [exact E|]. unfold produce. simpl in Hn.
  apply (flat_head _ my _ _ _ _ Hn).
  - intros p. case_decide.
    + rewrite elem_option_list. intros Hnp. apply next_jobs; auto.
    + rewrite elem_of_order by done. intros Hpc. apply readers_jobs; [done|]. by intros ->.
  - intros r' Hr'. assert (r' = r) as -> by congruence. f_equal. unfold ver, next_prod.
    destruct (g_st g) eqn:Hst; unfold g_prod in Hp; rewrite Hst in Hp; [|done..]. simpl. by case_decide.
  - intros p'. unfold g_prod. by case_decide.
  - by case_decide.
  - by case_decide.
  - unfold g_prod. by case_decide.
  - intros j Hj. assert (Hst : g_st g ≠ GConsumed) by (intros Hst; unfold g_prod in Hp; by rewrite Hst in Hp).
    case_decide as HX.
    + rewrite (dep_release_writer _ _ _ _ _ _ _ _ _ Hfl (not_exiting) x g gs HG) by (done || set_solver).
      f_equal. apply decide_ext. by rewrite elem_option_list.
    + rewrite (dep_release_readers _ _ _ _ _ _ _ _ _ Hfl (not_exiting) x g gs HG) by (done || congruence).
      f_equal. apply decide_ext. by rewrite elem_of_order.
  - intros p _. by case_decide.
  - intros p Hne. congruence.
Qed.

Lemma onConsumed_flat :
  g_st g = GReady → t ∈ g_cons g → next_prod g gs ≠ Some t →
  ∃ V' Tm' ev', onConsumed (g_vid g) t (mk_dm V Tm va tr fr ev) =
      Some (tt, mk_dm V' Tm' va (if decide (g_cons g ∖ {[t]} = ∅) then tr ++ [g_vid g] else tr) fr ev') ∧
    step_post V' Tm' ev' (<[x := consume t g :: gs]> G).
Proof.
  intros Hst Htc Hnt. pose proof (fl_sig _ _ _ _ _ _ _ _ _ _ _ Hfl x) as Hsig. rewrite HG in Hsig.
  destruct (sig_rep_head_lookup _ _ _ _ _ _ Hsig) as (r & my & HR & Hg & Hmy).
  destruct (onConsumed_spec V Tm va tr fr ev (g_vid g) _ t Hg) as (Tm' & ev' & E & Hn).
  { intros p Hnp. apply jobs_alive, next_jobs; [done|]. intros ->. by apply Hnt. }
  eexists _, Tm', ev'. split; [exact E|]. unfold consume. simpl in Hn.
  apply (flat_head _ my _ _ _ _ Hn).
  - intros p. case_decide; [|by intros ?%elem_of_nil].
    rewrite elem_option_list. intros Hnp. apply next_jobs; [done|]. intros ->. by apply Hnt.
  - intros r' Hr'. assert (r' = r) as -> by congruence. f_equal. unfold ver, next_prod, g_status. simpl.
    case_decide; simpl; by rewrite ?Hst.
  - intros p'. unfold g_prod. case_decide; simpl; by rewrite ?Hst.
  - by case_decide.
  - case_decide; simpl; set_solver.
  - unfold g_prod. case_decide; simpl; by rewrite ?Hst.
  - intros j Hj. pose proof (id_ne j Hj). case_decide as HX.
    + rewrite (dep_release_writer _ _ _ _ _ _ _ _ _ Hfl (not_exiting) x g gs HG); [|done|congruence|done|set_solver].
      f_equal. apply decide_ext. by rewrite elem_option_list.
    + rewrite (dep_drop_reader _ _ _ _ _ _ _ _ _ Hfl x g gs HG) by (done || set_solver).
      rewrite decide_False by apply not_elem_of_nil. lia.
  - intros p Hne. case_decide; simpl; set_solver.
  - intros p _. unfold g_prod. by rewrite Hst.
Qed.
End finishing.

(** ** The loops over the versions of the task *)

(** The trashcan holds the consumed versions, which nobody reads. *)
Record trash_ok tr G : Prop := {
  tk_nodup : NoDup tr;
  tk_in v : v ∈ tr ↔ ∃ x g gs, G x = g :: gs ∧ g_vid g = v ∧ g_st g = GConsumed;
  tk_cons x g gs : G x = g :: gs → g_st g = GConsumed → g_cons g = ∅;
}.

Lemma head_vid_inj V Tm va fr ev J E G R x y g g' gs gs' :
  flat V Tm va fr ev J J E G R → G x = g :: gs → G y = g' :: gs' → g_vid g = g_vid g' → x = y.
Proof.
  intros Hfl Hx Hy Hv. eapply (sig_rep_disjoint V va x y (R x) (R y) (G x) (G y) (g_vid g)); try apply Hfl.
  - right. exists g. rewrite Hx. split; [left|done].
  - right. exists g'. rewrite Hy. split; [left|done].
Qed.

Lemma trash_step V Tm va fr ev J E G R tr x g gs g' :
  flat V Tm va fr ev J J E G R → trash_ok tr G → G x = g :: gs → g_st g ≠ GConsumed → g_vid g' = g_vid g →
  (g_st g' = GConsumed → g_cons g' = ∅) →
  trash_ok (if decide (g_st g' = GConsumed) then tr ++ [g_vid g] else tr) (<[x := g' :: gs]> G).
Proof.
  intros Hfl [Hnd Hin Hcons] HG Hst Hv Hc.
  assert (Hold : ∀ v, v ∈ tr ↔ ∃ y a l, y ≠ x ∧ G y = a :: l ∧ g_vid a = v ∧ g_st a = GConsumed).
  { intros v. rewrite Hin. split; intros (y & a & l & H); exists y, a, l; [|naive_solver].
    destruct H as (H1 & H2 & H3). split_and!; [|done..]. intros ->. congruence. }
  assert (Hnew : ∀ v, (∃ y a l, (<[x := g' :: gs]> G) y = a :: l ∧ g_vid a = v ∧ g_st a = GConsumed) ↔
    v ∈ tr ∨ (v = g_vid g ∧ g_st g' = GConsumed)).
  { intros v. rewrite Hold. split.
    - intros (y & a & l & H1 & H2 & H3). rewrite fn_insert_decide in H1. case_decide as Hy.
      + injection H1 as <- <-. right. split; congruence.
      + left. by exists y, a, l.
    - intros [(y & a & l & Hy & H)|[-> H]].
      + exists y, a, l. by rewrite fn_lookup_insert_ne.
      + exists x, g', gs. by rewrite fn_lookup_insert. }
  split.
  - case_decide; [|done]. apply NoDup_app. split_and!; [done| |apply NoDup_singleton].
    intros v Hv1 ->%list_elem_of_singleton. apply Hold in Hv1 as (y & a & l & Hy & H1 & H2 & _).
    apply Hy. symmetry. by eapply head_vid_inj.
  - intros v. rewrite Hnew. case_decide; [rewrite snoc_elem|]; tauto.
  - intros y a l H1 H2. rewrite fn_insert_decide in H1. case_decide; [|by eapply Hcons].
    injection H1 as <- <-. auto.
Qed.

Definition hd_in (l : list vid) gs : bool := match gs with g :: _ => bool_decide (g_vid g ∈ l) | [] => false end.
Definition on_head (f : grp → grp) gs : list grp := match gs with g :: gs => f g :: gs | [] => [] end.

Section loop.
Context (va : gmap signature vid) (fr : vid) (J : list job) (R : signature → option vid) (t : taskid).
Context (op : vid → DM unit) (f : grp → grp) (P : grp → list grp → Prop).
Context (f_vid : ∀ g, g_vid (f g) = g_vid g).
Context (P_st : ∀ g gs, P g gs → g_st g ≠ GConsumed).
Context (f_cons : ∀ g gs, P g gs → g_st (f g) = GConsumed → g_cons (f g) = ∅).
Context (op_flat : ∀ V Tm tr ev G x g gs,
  flat V Tm va fr ev J J [t] G R → G x = g :: gs → P g gs →
  ∃ V' Tm' ev', op (g_vid g) (mk_dm V Tm va tr fr ev) =
      Some (tt, mk_dm V' Tm' va (if decide (g_st (f g) = GConsumed) then tr ++ [g_vid g] else tr) fr ev') ∧
    step_post Tm va fr ev J R t V' Tm' ev' (<[x := f g :: gs]> G)).

Lemma iter_heads V Tm tr ev G l :
  NoDup l → flat V Tm va fr ev J J [t] G R → trash_ok tr G →
  (∀ v, v ∈ l → ∃ x g gs, G x = g :: gs ∧ g_vid g = v ∧ P g gs) →
  ∃ V' Tm' tr' ev' G', iter op l (mk_dm V Tm va tr fr ev) = Some (tt, mk_dm V' Tm' va tr' fr ev') ∧
    step_post Tm va fr ev J R t V' Tm' ev' G' ∧ trash_ok tr' G' ∧
    ∀ x, G' x = if hd_in l (G x) then on_head f (G x) else G x.
Proof.
  intros Hnd. revert V Tm tr ev G. induction Hnd as [|v l Hv Hnd IH]; intros V Tm tr ev G Hfl Htr Hl.
  { exists V, Tm, tr, ev, G. split_and!; [done..|]. intros x. by destruct (G x). }
  destruct (Hl v) as (x & g & gs & HG & <- & HP); [left|].
  destruct (op_flat V Tm tr ev G x g gs Hfl HG HP) as (V1 & Tm1 & ev1 & E1 & Hfl1 & HT1 & Hev1).
  pose proof (trash_step _ _ _ _ _ _ _ _ _ _ _ _ _ (f g) Hfl Htr HG (P_st _ _ HP) (f_vid g) (f_cons _ _ HP)) as Htr1.
  assert (Hne : ∀ y a m, y ≠ x → G y = a :: m → g_vid a ≠ g_vid g).
  { intros y a m Hy HGy E. apply Hy. by eapply (head_vid_inj _ _ _ _ _ _ _ _ _ _ _ _ _ _ _ Hfl). }
  destruct (IH _ _ _ _ _ Hfl1 Htr1) as (V2 & Tm2 & tr2 & ev2 & G2 & E2 & (Hfl2 & HT2 & Hev2) & Htr2 & HG2).
  { intros w Hw. destruct (Hl w) as (y & a & m & HGy & Ha & HPa); [by right|]. exists y, a, m. split; [|done].
    rewrite fn_lookup_insert_ne; [done|]. intros ->. apply Hv. rewrite HG in HGy. injection HGy as -> ->. by subst. }
  exists V2, Tm2, tr2, ev2, G2. split_and!; [|split_and!|done|].
  - cbn [iter]. by erewrite bind_eq by exact E1.
  - done.
  - by rewrite HT2.
  - intros p Hp. by rewrite Hev2, Hev1.
  - intros y. rewrite HG2, fn_insert_decide. destruct (decide (y = x)) as [->|Hy].
    + rewrite HG. simpl. rewrite f_vid, (bool_decide_false (_ ∈ l)), bool_decide_true by (done || left). done.
    + destruct (G y) as [|a m] eqn:HGy; [done|]. simpl. pose proof (Hne y a m Hy HGy).
      by rewrite (bool_decide_ext (g_vid a ∈ g_vid g :: l) (g_vid a ∈ l)) by (rewrite elem_of_cons; naive_solver).
Qed.
End loop.

(** ** Recycling *)

Lemma sig_rep_tail V va x r g a gs my :
  sig_rep V va x (Some r) (g :: a :: gs) → V !! g_vid a = Some (ver x r (Some (g_vid g)) a gs my) → g_my a my →
  sig_rep (<[g_vid a := ver x r None a gs my]> (delete (g_vid g) V)) va x (Some r) (a :: gs).
Proof.
  intros Hs Ha Hmy.
  assert (Hgr : g_vid g ≠ r) by (eapply sig_rep_root_ne; [exact Hs|left]).
  assert (Har : g_vid a ≠ r) by (eapply sig_rep_root_ne; [exact Hs|right; left]).
  destruct Hs as (Hva & Hnd & Hr & _ & _ & Hc). simpl in Hnd.
  apply NoDup_cons in Hnd as [Hg Hnd]. split_and!; [done|done| |].
  - rewrite lookup_insert_ne, lookup_delete_ne by done. rewrite Hr. unfold root_version. by rewrite last_cons_cons.
  - simpl. rewrite app_nil_r. split; [exists my; by rewrite lookup_insert_eq|].
    apply NoDup_cons in Hnd as [Ha' _].
    eapply chain_rep_frame; [|exact Hc]. intros b Hb.
    rewrite lookup_insert_ne, lookup_delete_ne; [done|..].
    + intros E. apply Hg. right. rewrite E. by apply list_elem_of_fmap_2.
    + intros E. apply Ha'. rewrite E. by apply list_elem_of_fmap_2.
Qed.

Lemma dep_recycle G x g gs j :
  job_ok j → G x = g :: gs → g_st g = GConsumed → dep_of (<[x := gs]> G) j = dep_of G j.
Proof.
  intros Hok HG Hst. rewrite dep_of_change, HG by done.
  assert (in_blocked (j_id j) (g :: gs) = in_blocked (j_id j) gs) as ->.
  { rewrite in_blocked_cons. unfold g_prod. rewrite Hst, (bool_decide_false (None ≠ None)) by naive_solver.
    by rewrite andb_false_r. }
  assert (out_blocked (j_id j) (g :: gs) = out_blocked (j_id j) gs) as ->.
  { destruct gs as [|a gs]; [done|]. rewrite out_blocked_cons2, Hst, (bool_decide_false (GConsumed ≠ _)) by naive_solver.
    by rewrite andb_false_r. }
  repeat case_decide; lia.
Qed.

Lemma chain_wf_tail g gs : chain_wf (g :: gs) → chain_wf gs.
Proof.
  intros [Ht Hc Hp]. split.
  - intros a Ha. apply Ht. simpl. by apply tail_elem.
  - intros i k a b t Ha Hb H1 H2. by apply (inj S), (Hc (S i) (S k) a b t).
  - intros i k a b t Ha Hb H1 H2. by apply (inj S), (Hp (S i) (S k) a b t).
Qed.

(** The first version of a chain goes away. *)
Lemma flat_recycle V Tm va fr ev J E G R x g gs V' va' R' :
  flat V Tm va fr ev J J E G R → G x = g :: gs → g_st g = GConsumed → g_cons g = ∅ →
  sig_rep V' va' x (R' x) gs → (∀ y, y ≠ x → R' y = R y) → (∀ y, y ≠ x → va' !! y = va !! y) →
  (∀ v, ¬ in_sig (R x) (G x) v → V' !! v = V !! v) →
  (∀ v, is_Some (V' !! v) → in_sig (R x) (G x) v → in_sig (R' x) gs v) →
  flat V' Tm va' fr ev J J E (<[x := gs]> G) R'.
Proof.
  intros Hfl HG Hst Hc Hsig HR Hva HV Hdom.
  assert (Hreads : ∀ t v, sreads gs t v ↔ sreads (G x) t v).
  { intros t v. rewrite HG. split; intros (a & Ha & <- & Hat); exists a; [split; [by right|done]|].
    apply elem_of_cons in Ha as [->|Ha]; [set_solver|done]. }
  assert (Hwrites : ∀ t v, swrites gs t v ↔ swrites (G x) t v).
  { intros t v. rewrite HG. split; intros (a & Ha & <- & Hat); exists a; [split; [by right|done]|].
    apply elem_of_cons in Ha as [->|Ha]; [unfold g_prod in Hat; by rewrite Hst in Hat|done]. }
  apply (flat_change _ _ _ _ _ _ _ _ _ _ _ _ _ _ _ _ _ _ _ Hfl); try done.
  - intros v Hv _. by apply HV.
  - intros v Hs. destruct (decide (in_sig (R x) (G x) v)) as [Hi|Hi]; [|apply Hfl; by rewrite <-HV].
    destruct (sig_rep_lookup _ _ _ _ _ _ (fl_sig _ _ _ _ _ _ _ _ _ _ _ Hfl x) Hi) as (? & E1 & _).
    apply Hfl. by rewrite E1.
  - apply Hfl.
  - intros j Hj. destruct (fl_task _ _ _ _ _ _ _ _ _ _ _ Hfl j Hj) as (T & HT & []). exists T. split; [done|].
    split; [done..| | |].
    + rewrite (dep_recycle G x g gs); [done|by apply Hfl|done..].
    + intros v. rewrite to_ins. rewrite (reads_change G x gs _ v False); [tauto|]. rewrite Hreads. tauto.
    + intros v. rewrite to_outs. rewrite (writes_change G x gs _ v False); [tauto|]. rewrite Hwrites. tauto.
  - intros j Hj. rewrite (dep_recycle G x g gs); [by apply Hfl|by apply Hfl|done..].
  - intros a t Ha Ht. eapply (fl_cons _ _ _ _ _ _ _ _ _ _ _ Hfl x a); [rewrite HG; by right|done].
  - intros a t Ha Ht. eapply (fl_prod _ _ _ _ _ _ _ _ _ _ _ Hfl x a); [rewrite HG; by right|done].
  - apply (chain_wf_tail g). rewrite <-HG. apply Hfl.
  - intros v Hs. destruct (decide (in_sig (R x) (G x) v)) as [Hi|Hi]; [left; by apply Hdom|right].
    by rewrite <-HV.
Qed.

Lemma recycle_one_flat V Tm va tr fr ev J E G R x g gs :
  flat V Tm va fr ev J J E G R → G x = g :: gs → g_st g = GConsumed → g_cons g = ∅ →
  ∃ V' va' R', recycle_one (g_vid g) (mk_dm V Tm va tr fr ev) = Some (tt, mk_dm V' Tm va' tr fr ev) ∧
    flat V' Tm va' fr ev J J E (<[x := gs]> G) R' ∧ (∀ y, y ≠ x → R' y = R y) ∧ (gs = [] → R' x = None).
Proof.
  intros Hfl HG Hst Hc. pose proof (fl_sig _ _ _ _ _ _ _ _ _ _ _ Hfl x) as Hsig. rewrite HG in Hsig.
  destruct (sig_rep_head_lookup _ _ _ _ _ _ Hsig) as (r & my & HR & Hg & _). rewrite HR in Hsig.
  assert (Hgr : g_vid g ≠ r) by (eapply sig_rep_root_ne; [exact Hsig|left]).
  destruct gs as [|a gs].
  - assert (Hr : V !! r = Some (root_version x [g])) by apply Hsig.
    exists (delete r (delete (g_vid g) V)), (delete x va), (<[x := None]> R). split_and!.
    + erewrite recycle_one_eq; [|exact Hg|done..|exact Hr|done]. by rewrite decide_True.
    + eapply flat_recycle; [exact Hfl|exact HG|done..| | | | |].
      * rewrite fn_lookup_insert. split_and!; [by rewrite lookup_delete_eq|constructor|done].
      * intros y Hy. by rewrite fn_lookup_insert_ne.
      * intros y Hy. by rewrite lookup_delete_ne.
      * rewrite HR, HG. intros v Hv. rewrite !lookup_delete_ne; [done|..]; intros <-; apply Hv; [|by left].
        right. exists g. split; [left|done].
      * rewrite HR, HG. intros v Hv [[= <-]|(g' & ->%list_elem_of_singleton & <-)].
        -- by rewrite lookup_delete_eq in Hv; destruct Hv.
        -- rewrite lookup_delete_ne, lookup_delete_eq in Hv by done. by destruct Hv.
    + intros y Hy. by rewrite fn_lookup_insert_ne.
    + by rewrite fn_lookup_insert.
  - pose proof Hsig as (_ & Hnd & _ & _ & (my2 & Ha & Hmy2) & _). rewrite app_nil_r in Ha.
    assert (Hga : g_vid g ≠ g_vid a).
    { simpl in Hnd. apply NoDup_cons in Hnd as [Hnd _]. intros E1. apply Hnd. rewrite E1. left. }
    exists (<[g_vid a := ver x r None a gs my2]> (delete (g_vid g) V)), va, R. split_and!; [|..|done|done].
    + erewrite recycle_one_eq; [|exact Hg|done..|exact Ha|done]. by rewrite decide_False.
    + eapply flat_recycle; [exact Hfl|exact HG|done..| |done|done| |].
      * rewrite HR. by apply sig_rep_tail.
      * rewrite HR, HG. intros v Hv.
        rewrite lookup_insert_ne, lookup_delete_ne; [done|..]; intros <-; apply Hv; right.
        -- exists g. split; [left|done].
        -- exists a. split; [right; left|done].
      * rewrite HR, HG. intros v Hv [Hv'|(b & [->|Hb]%elem_of_cons & <-)]; [by left| |right; eauto].
        rewrite lookup_insert_ne, lookup_delete_eq in Hv by done. by destruct Hv.
Qed.

Definition drop_consumed gs : list grp :=
  match gs with g :: gs' => if decide (g_st g = GConsumed) then gs' else gs | [] => [] end.

Lemma drop_idle gs : (∀ g, g ∈ gs → g_prod g ≠ None) → drop_consumed gs = gs.
Proof.
  intros H. destruct gs as [|g gs]; [done|]. simpl. rewrite decide_False; [done|]. intros E.
  apply (H g); [left|]. unfold g_prod. by rewrite E.
Qed.

Lemma trash_recycle V Tm va fr ev J E G R x g gs l :
  flat V Tm va fr ev J J E G R → trash_ok (g_vid g :: l) G → G x = g :: gs → g_st g = GConsumed →
  trash_ok l (<[x := gs]> G).
Proof.
  intros Hfl [Hnd Hin Hcons] HG Hst. apply NoDup_cons in Hnd as [Hg Hnd].
  assert (Hgs : ∀ a m, gs = a :: m → g_st a ≠ GConsumed).
  { intros a m -> Ea. assert (Hwf : chain_wf (g :: a :: m)) by (rewrite <-HG; apply Hfl).
    apply (cw_tail _ Hwf a); [left|]. unfold g_prod. by rewrite Ea. }
  split; [done|..].
  - intros v. split.
    + intros Hv. destruct (proj1 (Hin v)) as (y & a & m & HGy & <- & Ha); [by right|]. exists y, a, m.
      rewrite fn_lookup_insert_ne; [done|]. intros ->. apply Hg. rewrite HG in HGy. by injection HGy as -> ->.
    + intros (y & a & m & HGy & <- & Ha). rewrite fn_insert_decide in HGy. case_decide as Hy; [by apply Hgs in HGy|].
      assert (Hv : g_vid a ∈ g_vid g :: l) by (apply Hin; eauto 6). apply elem_of_cons in Hv as [Hv|]; [|done].
      destruct Hy. by eapply (head_vid_inj _ _ _ _ _ _ _ _ _ _ _ _ _ _ _ Hfl).
  - intros y a m HGy Ha. rewrite fn_insert_decide in HGy. case_decide as Hy; [by apply Hgs in HGy|by eapply Hcons].
Qed.

Lemma iter_recycle_flat V Tm va tr fr ev J E G R l :
  flat V Tm va fr ev J J E G R → trash_ok l G →
  ∃ V' va' G' R', iter recycle_one l (mk_dm V Tm va tr fr ev) = Some (tt, mk_dm V' Tm va' tr fr ev) ∧
    flat V' Tm va' fr ev J J E G' R' ∧ (∀ x, G' x = drop_consumed (G x)) ∧
    (∀ x, (G x = [] → R x = None) → G' x = [] → R' x = None).
Proof.
  revert V va G R. induction l as [|v l IH]; intros V va G R Hfl Htr.
  { exists V, va, G, R. split_and!; [done..| |auto]. intros x. destruct (G x) as [|g gs] eqn:HG; [done|]. simpl.
    rewrite decide_False; [done|]. intros E1. apply (not_elem_of_nil (g_vid g)), Htr. eauto 6. }
  destruct (proj1 (tk_in _ _ Htr v)) as (x & g & gs & HG & <- & Hst); [left|].
  destruct (recycle_one_flat V Tm va tr fr ev J E G R x g gs) as (V1 & va1 & R1 & E1 & Hfl1 & HR1 & Hx1);
    [done..|by eapply Htr|].
  destruct (IH V1 va1 _ R1 Hfl1) as (V2 & va2 & G2 & R2 & E2 & Hfl2 & HG2 & HR2); [by eapply trash_recycle|].
  exists V2, va2, G2, R2. split_and!; [|done|..].
  - cbn [iter]. by erewrite bind_eq by exact E1.
  - intros y. rewrite HG2, fn_insert_decide. destruct (decide (y = x)) as [->|Hy]; [|done].
    rewrite HG. simpl. rewrite decide_True by done. apply drop_idle. intros a Ha.
    assert (Hwf : chain_wf (g :: gs)) by (rewrite <-HG; apply Hfl). by apply (cw_tail _ Hwf a).
  - intros y Hy Hn. apply HR2; [|done]. rewrite fn_insert_decide. destruct (decide (y = x)) as [->|Hyx]; [done|].
    by rewrite HR1.
Qed.
End done.
