(* ===== verification/DependenceRefine.v ===== *)
(** * Sibling tasks run in the order their data accesses demand

    The dependence manager against its specification: the jobs that are submitted
    and not finished, in submission order. *)

From S2P Require Import Prelude Types Dependence DependenceFlat DependenceSpec DependenceChain DependenceOps DependenceDone.

(** ** The chains of a job that waits for nothing *)

Lemma foldl_head st X c l : ∃ X' c', foldl s_apply ((st, X) :: c) l = (st, X') :: c'.
Proof.
  revert X c. induction l as [|a l IH]; intros X c; [by eexists _, _|]. simpl.
  destruct (s_apply_head st X c a) as (X' & c' & ->). apply IH.
Qed.

Lemma s_apply_head_in st X c a t :
  t ∈ X → ∃ X' c', s_apply ((st, X) :: c) a = (st, X') :: c' ∧ t ∈ X'.
Proof. intros Ht. destruct a; simpl; [destruct c|]; eexists _, _; (split; [done|]); set_solver. Qed.

Lemma foldl_head_in st X c l t : t ∈ X → ∃ X' c', foldl s_apply ((st, X) :: c) l = (st, X') :: c' ∧ t ∈ X'.
Proof.
  revert X c. induction l as [|a l IH]; intros X c Ht; [by eexists _, _|]. simpl.
  destruct (s_apply_head_in st X c a t Ht) as (X' & c' & -> & ?). by apply IH.
Qed.

(** The accesses of a chain are pending. *)
Lemma s_chain_members l st X :
  (st, X) ∈ s_chain l → (∀ t, t ∈ X → Rd t ∈ l) ∧ (∀ p, st = GIdle p → Wr p ∈ l).
Proof.
  revert st X. induction l as [|a l IH] using rev_ind; intros st X; [by intros ?%elem_of_nil|].
  rewrite s_chain_snoc. setoid_rewrite snoc_elem. destruct a as [q|q]; simpl.
  - destruct (s_chain l) as [|[st0 X0] c _] using rev_ind.
    + intros [= -> ->]%list_elem_of_singleton. split; [|done]. intros t ->%elem_of_singleton. by right.
    + rewrite s_read_snoc. intros [Hin|[= -> ->]]%snoc_elem.
      * destruct (IH st X) as [H1 H2]; [apply snoc_elem; by left|]. split; intros; left; auto.
      * destruct (IH st0 X0) as [H1 H2]; [apply snoc_elem; by right|].
        split; [intros t [->%elem_of_singleton|Ht]%elem_of_union; [by right|left; auto]|intros; left; auto].
  - unfold s_write. intros [Hin|[= -> ->]]%snoc_elem.
    + destruct (IH st X Hin) as [H1 H2]. split; intros; left; auto.
    + split; [set_solver|]. intros p [= ->]. by right.
Qed.

Lemma erase_cons_inv gs st X c :
  erase gs = (st, X) :: c → ∃ g gs', gs = g :: gs' ∧ g_st g = st ∧ g_cons g = X ∧ erase gs' = c.
Proof. destruct gs as [|g gs']; [done|]. intros [= <- <- <-]. by exists g, gs'. Qed.

Section refine.
Context (order : gset positive → list positive).
Context (order_perm : ∀ X, order X ≡ₚ elements X).
Context (rt : taskid).

Implicit Types (V : gmap vid VersionCtx) (Tm : gmap taskid SCPUEUTask) (va : gmap signature vid)
  (tr : list vid) (fr : vid) (ev : list dm_event).
Implicit Types (J : list job) (E : list taskid) (G : signature → list grp) (R : signature → option vid)
  (j : job) (x y : signature) (t : taskid) (gs : list grp) (g : grp).

#[local] Abbreviation flat := (flat rt).
#[local] Abbreviation settled := (settled rt).

Section one.
Context V Tm va fr ev J1 J2 j G R.
Context (Hfl : flat V Tm va fr ev (J1 ++ j :: J2) (J1 ++ j :: J2) [] G R) (HL : live (J1 ++ j :: J2) G R).
Context (Hc : ∀ j', j' ∈ J1 → conflict j' j = false).

Lemma one_in : j ∈ J1 ++ j :: J2.
Proof. apply elem_of_app. right. left. Qed.

Lemma one_ok : job_ok j.
Proof. eapply fl_ok; [exact Hfl|apply one_in]. Qed.

Lemma one_nodup : NoDup (j_id <$> (J1 ++ j :: J2)).
Proof. pose proof (fl_nodup _ _ _ _ _ _ _ _ _ _ _ Hfl) as [_ H]%NoDup_cons. done. Qed.

Lemma one_notin : j_id j ∉ j_id <$> (J1 ++ J2).
Proof.
  destruct (placed_notin J1 J2 j one_nodup) as [H1 H2]. rewrite fmap_app. by intros [?|?]%elem_of_app.
Qed.

Lemma no_accs_before x : x ∈ j_outs j → accs x J1 = [].
Proof.
  intros Hx. apply elem_of_nil_inv. intros a (j' & Hj' & H)%elem_of_accs.
  destruct (proj1 (conflict_false j' j) (Hc j' Hj')) as [_ Ho]. destruct (Ho x Hx). naive_solver.
Qed.

(** The data it writes: it is the producer of the oldest version. *)
Lemma out_head x :
  x ∈ j_outs j → ∃ g gs, G x = g :: gs ∧ g_prod g = Some (j_id j) ∧ j_id j ∉ g_cons g.
Proof.
  intros Hx. destruct (HL x) as [HG _]. rewrite accs_app, accs_cons, no_accs_before, acc_of_out in HG by done.
  simpl in HG. destruct (foldl_head (GIdle (j_id j)) ∅ [] (accs x J2)) as (X & c & E).
  change (s_chain (Wr (j_id j) :: accs x J2)) with (foldl s_apply [(GIdle (j_id j), ∅)] (accs x J2)) in HG.
  rewrite E in HG. apply erase_cons_inv in HG as (g & gs & HG & Hst & HX & _). exists g, gs. split_and!; [done|..].
  - unfold g_prod. by rewrite Hst.
  - intros Ht. destruct (fl_cons _ _ _ _ _ _ _ _ _ _ _ Hfl x g (j_id j)) as [?%elem_of_nil|(j' & Hj' & E' & Hx')];
      [rewrite HG; left|done|done|].
    apply (jobs_inj rt (J1 ++ j :: J2)) in E'; [subst|apply Hfl|done|apply one_in].
    destruct one_ok as (_ & _ & Hd & _). by apply (Hd x).
Qed.

(** The data it reads: it is a reader of the oldest version, which is produced. *)
Lemma in_head x :
  x ∈ j_ins j → ∃ g gs, G x = g :: gs ∧ g_st g = GReady ∧ j_id j ∈ g_cons g ∧ next_prod g gs ≠ Some (j_id j).
Proof.
  intros Hx. destruct (HL x) as [HG _]. rewrite accs_app, accs_cons, (acc_of_in j one_ok) in HG by done.
  assert (Hw : ∀ p, Wr p ∉ accs x J1).
  { intros p (j' & Hj' & [[_ Hx']|[[=] _]])%elem_of_accs.
    destruct (proj1 (conflict_false j' j) (Hc j' Hj')) as [Hi _]. by apply (Hi x). }
  assert (∃ X c, s_chain (accs x J1 ++ [Rd (j_id j)] ++ accs x J2) = (GReady, X) :: c ∧ j_id j ∈ X) as (X & c & E & HtX).
  { rewrite app_assoc. unfold s_chain. rewrite foldl_app. change (foldl s_apply [] (accs x J1 ++ [Rd (j_id j)])) with
      (s_chain (accs x J1 ++ [Rd (j_id j)])). rewrite s_chain_snoc.
    destruct (decide (accs x J1 = [])) as [->|Hne]; [apply foldl_head_in; simpl; set_solver|].
    destruct (s_chain_reads (accs x J1)) as (X & -> & _); [done..|]. simpl. apply foldl_head_in. set_solver. }
  rewrite E in HG. apply erase_cons_inv in HG as (g & gs & HG & Hst & HX & _). exists g, gs.
  split_and!; [done|done|by rewrite HX|]. intros (a & Ha & Hp)%next_prod_in.
  destruct (fl_prod _ _ _ _ _ _ _ _ _ _ _ Hfl x a (j_id j)) as [?%elem_of_nil|(j' & Hj' & E' & Hx')];
    [rewrite HG; by right|done|done|].
  apply (jobs_inj rt (J1 ++ j :: J2)) in E'; [subst|apply Hfl|done|apply one_in].
  destruct one_ok as (_ & _ & Hd & _). by apply (Hd x).
Qed.

(** Its versions are the heads of its data. *)
Lemma writes_head v :
  writes G (j_id j) v ↔ ∃ x g gs, x ∈ j_outs j ∧ G x = g :: gs ∧ g_vid g = v ∧ g_prod g = Some (j_id j) ∧ j_id j ∉ g_cons g.
Proof.
  split.
  - intros (x & a & Ha & <- & Hp).
    destruct (fl_prod _ _ _ _ _ _ _ _ _ _ _ Hfl x a (j_id j) Ha Hp) as [?%elem_of_nil|(j' & Hj' & E' & Hx)]; [done|].
    apply (jobs_inj rt (J1 ++ j :: J2)) in E'; [subst|apply Hfl|done|apply one_in].
    destruct (out_head x Hx) as (g & gs & HG & Hp' & Hn). exists x, g, gs. split_and!; try done.
    apply list_elem_of_lookup in Ha as [i Hi]. pose proof (fl_wf _ _ _ _ _ _ _ _ _ _ _ Hfl x) as Hwf.
    assert (i = 0%nat) as ->. { eapply (cw_prod _ Hwf i 0%nat a g); [done|by rewrite HG|done..]. }
    rewrite HG in Hi. by injection Hi as ->.
  - intros (x & g & gs & Hx & HG & Hv & Hp & _). exists x, g. rewrite HG. split; [left|done].
Qed.

Lemma reads_head v :
  reads G (j_id j) v ↔ ∃ x g gs, x ∈ j_ins j ∧ G x = g :: gs ∧ g_vid g = v ∧
    g_st g = GReady ∧ j_id j ∈ g_cons g ∧ next_prod g gs ≠ Some (j_id j).
Proof.
  split.
  - intros (x & a & Ha & <- & Hp).
    destruct (fl_cons _ _ _ _ _ _ _ _ _ _ _ Hfl x a (j_id j) Ha Hp) as [?%elem_of_nil|(j' & Hj' & E' & Hx)]; [done|].
    apply (jobs_inj rt (J1 ++ j :: J2)) in E'; [subst|apply Hfl|done|apply one_in].
    destruct (in_head x Hx) as (g & gs & HG & Hst & Hp' & Hn). exists x, g, gs. split_and!; try done.
    apply list_elem_of_lookup in Ha as [i Hi]. pose proof (fl_wf _ _ _ _ _ _ _ _ _ _ _ Hfl x) as Hwf.
    assert (i = 0%nat) as ->. { eapply (cw_cons _ Hwf i 0%nat a g); [done|by rewrite HG|done..]. }
    rewrite HG in Hi. by injection Hi as ->.
  - intros (x & g & gs & Hx & HG & Hv & _ & Ht & _). exists x, g. rewrite HG. split; [left|done].
Qed.

(** The job leaves the list of unfinished jobs. *)
Lemma flat_exit : flat V Tm va fr ev (J1 ++ J2) (J1 ++ J2) [j_id j] G R.
Proof.
  assert (Hsub : ∀ j', j' ∈ J1 ++ J2 → j' ∈ J1 ++ j :: J2).
  { intros j'. rewrite !elem_of_app, elem_of_cons. tauto. }
  assert (Hsplit : ∀ j', j' ∈ J1 ++ j :: J2 → j' = j ∨ j' ∈ J1 ++ J2).
  { intros j'. rewrite !elem_of_app, elem_of_cons. tauto. }
  pose proof one_notin as Hn. destruct Hfl. split; try done; auto.
  - apply NoDup_cons in fl_nodup as [H1 H2]. rewrite fmap_app in *. simpl in *. apply NoDup_cons. split.
    + rewrite elem_of_app in *. rewrite elem_of_cons in H1. tauto.
    + apply NoDup_app in H2 as (? & Hd & [_ ?]%NoDup_cons). apply NoDup_app. split_and!; [done| |done].
      intros a Ha Ha'. apply (Hd a Ha). by right.
  - intros x g t Hg Ht. destruct (fl_cons x g t Hg Ht) as [?%elem_of_nil|(j' & Hj' & E & Hx)]; [done|].
    destruct (Hsplit j' Hj') as [->|?]; [left; rewrite E; left|right; eauto].
  - intros x g t Hg Ht. destruct (fl_prod x g t Hg Ht) as [?%elem_of_nil|(j' & Hj' & E & Hx)]; [done|].
    destruct (Hsplit j' Hj') as [->|?]; [left; rewrite E; left|right; eauto].
Qed.

Lemma trash_start : trash_ok [] G.
Proof.
  assert (Hn : ∀ x g gs, G x = g :: gs → g_st g ≠ GConsumed).
  { intros x g gs HG. eapply (live_no_consumed _ _ _ x HL). rewrite HG. left. }
  split; [constructor|..].
  - intros v. split; [by intros ?%elem_of_nil|]. intros (x & g & gs & HG & _ & Hst). by apply Hn in HG.
  - intros x g gs HG Hst. by apply Hn in HG.
Qed.

Lemma hd_in_outs x l : (∀ v, v ∈ l ↔ writes G (j_id j) v) → hd_in l (G x) = bool_decide (x ∈ j_outs j).
Proof.
  intros Hl. destruct (decide (x ∈ j_outs j)) as [Hx|Hx].
  - rewrite (bool_decide_true (x ∈ _)) by done. destruct (out_head x Hx) as (g & gs & HG & Hp & _). rewrite HG.
    apply bool_decide_true, Hl. exists x, g. rewrite HG. split; [left|done].
  - rewrite (bool_decide_false (x ∈ _)) by done. destruct (G x) as [|g gs] eqn:HG; [done|].
    apply bool_decide_false. rewrite Hl, writes_head. intros (y & a & m & Hy & HGy & Hv & _). apply Hx.
    assert (x = y) as ->; [|done]. by eapply (head_vid_inj _ _ _ _ _ _ _ _ _ _ _ _ _ _ _ _ Hfl).
Qed.

Lemma hd_in_ins x l : (∀ v, v ∈ l ↔ reads G (j_id j) v) → hd_in l (G x) = bool_decide (x ∈ j_ins j).
Proof.
  intros Hl. destruct (decide (x ∈ j_ins j)) as [Hx|Hx].
  - rewrite (bool_decide_true (x ∈ _)) by done. destruct (in_head x Hx) as (g & gs & HG & _ & Hp & _). rewrite HG.
    apply bool_decide_true, Hl. exists x, g. rewrite HG. split; [left|done].
  - rewrite (bool_decide_false (x ∈ _)) by done. destruct (G x) as [|g gs] eqn:HG; [done|].
    apply bool_decide_false. rewrite Hl, reads_head. intros (y & a & m & Hy & HGy & Hv & _). apply Hx.
    assert (x = y) as ->; [|done]. by eapply (head_vid_inj _ _ _ _ _ _ _ _ _ _ _ _ _ _ _ _ Hfl).
Qed.

Definition done_chain x gs : list grp :=
  if decide (x ∈ j_outs j) then on_head produce gs
  else if decide (x ∈ j_ins j) then on_head (consume (j_id j)) gs else gs.

Lemma erase_done x : erase (drop_consumed (done_chain x (G x))) = s_done j x (erase (G x)).
Proof.
  assert (Hd : ∀ g gs f, erase (drop_consumed (f g :: gs)) =
    if decide (g_st (f g) = GConsumed) then erase gs else (g_st (f g), g_cons (f g)) :: erase gs).
  { intros g gs f. simpl. by case_decide. }
  unfold done_chain, s_done. case_decide as Ho; [|case_decide as Hi].
  - destruct (out_head x Ho) as (g & gs & -> & Hp & _). cbn [on_head]. rewrite Hd. unfold produce. simpl.
    by destruct (decide (g_cons g = ∅)).
  - destruct (in_head x Hi) as (g & gs & -> & Hst & Ht & _). cbn [on_head]. rewrite Hd. unfold consume. simpl.
    destruct (decide (g_cons g ∖ {[j_id j]} = ∅)); simpl; [done|]. by rewrite Hst.
  - f_equal. pose proof (live_no_consumed _ _ _ x HL) as Hn. destruct (G x) as [|g gs]; [done|]. simpl.
    rewrite decide_False; [done|]. apply Hn. left.
Qed.

Lemma done_chain_nil x gs : done_chain x gs = [] ↔ gs = [].
Proof. unfold done_chain. repeat case_decide; destruct gs; done. Qed.

(** The loops of [onTaskDone] over the versions of the job. *)
Lemma one_not_root : j_id j ≠ rt.
Proof. eapply job_not_root; [apply Hfl|apply one_in]. Qed.

Lemma produced_loop T :
  task_ok rt G j T →
  ∃ V' Tm' tr' ev' G', iter (onProduced order) (order (t_outs T)) (mk_dm V Tm va [] fr ev) =
      Some (tt, mk_dm V' Tm' va tr' fr ev') ∧
    step_post rt Tm va fr ev (J1 ++ J2) R (j_id j) V' Tm' ev' G' ∧ trash_ok tr' G' ∧
    ∀ x, G' x = if decide (x ∈ j_outs j) then on_head produce (G x) else G x.
Proof.
  intros Hok. assert (Hlo : ∀ v, v ∈ order (t_outs T) ↔ writes G (j_id j) v).
  { intros v. by rewrite elem_of_order, (to_outs _ _ _ _ Hok). }
  destruct (iter_heads rt va fr (J1 ++ J2) R (j_id j) (onProduced order) produce
      (λ g _, g_prod g = Some (j_id j) ∧ j_id j ∉ g_cons g)) with (V := V) (Tm := Tm) (tr := @nil vid) (ev := ev)
      (G := G) (l := order (t_outs T)) as (V1 & Tm1 & tr1 & ev1 & G1 & E1 & Hst1 & Htr1 & HG1).
  { intros g. unfold produce. by case_decide. }
  { intros g gs [Hg _] Hst. unfold g_prod in Hg. by rewrite Hst in Hg. }
  { intros g gs _. unfold produce. by case_decide. }
  { intros V0 Tm0 tr0 ev0 G0 x g gs Hfl0 HG0 [Hg Hgc].
    destruct (onProduced_flat order order_perm rt V0 Tm0 va tr0 fr ev0 _ G0 R _ Hfl0 one_notin one_not_root x g gs HG0 Hg Hgc)
      as (V' & Tm' & ev' & E & H). exists V', Tm', ev'. split; [|done]. rewrite E. unfold produce.
    by destruct (decide (g_cons g = ∅)). }
  { by apply order_NoDup. } { apply flat_exit. } { apply trash_start. }
  { intros v. rewrite Hlo, writes_head. intros (x & g & gs & _ & HG & Hv & H). by exists x, g, gs. }
  exists V1, Tm1, tr1, ev1, G1. split_and!; [done..|]. intros x. rewrite HG1, hd_in_outs by done.
  by destruct (decide (x ∈ j_outs j)); [rewrite bool_decide_true|rewrite bool_decide_false].
Qed.

Lemma consumed_loop T V1 Tm1 tr1 ev1 G1 :
  task_ok rt G j T → flat V1 Tm1 va fr ev1 (J1 ++ J2) (J1 ++ J2) [j_id j] G1 R → trash_ok tr1 G1 →
  (∀ x, G1 x = if decide (x ∈ j_outs j) then on_head produce (G x) else G x) →
  ∃ V' Tm' tr' ev' G', iter (λ v, onConsumed v (j_id j)) (order (t_ins T)) (mk_dm V1 Tm1 va tr1 fr ev1) =
      Some (tt, mk_dm V' Tm' va tr' fr ev') ∧
    step_post rt Tm1 va fr ev1 (J1 ++ J2) R (j_id j) V' Tm' ev' G' ∧ trash_ok tr' G' ∧
    ∀ x, G' x = done_chain x (G x).
Proof.
  intros Hok Hfl1 Htr1 HG1. assert (Hli : ∀ v, v ∈ order (t_ins T) ↔ reads G (j_id j) v).
  { intros v. by rewrite elem_of_order, (to_ins _ _ _ _ Hok). }
  assert (Hdis : ∀ x, x ∈ j_ins j → x ∉ j_outs j) by apply one_ok.
  destruct (iter_heads rt va fr (J1 ++ J2) R (j_id j) (λ v, onConsumed v (j_id j)) (consume (j_id j))
      (λ g gs, g_st g = GReady ∧ j_id j ∈ g_cons g ∧ next_prod g gs ≠ Some (j_id j)))
      with (V := V1) (Tm := Tm1) (tr := tr1) (ev := ev1) (G := G1) (l := order (t_ins T))
      as (V2 & Tm2 & tr2 & ev2 & G2 & E2 & Hst2 & Htr2 & HG2).
  { intros g. unfold consume. by case_decide. }
  { intros g gs [Hg _] Hst. by rewrite Hst in Hg. }
  { intros g gs [Hg _]. unfold consume. case_decide as Hx; simpl; [done|by rewrite Hg]. }
  { intros V0 Tm0 tr0 ev0 G0 x g gs Hfl0 HG0 (Hg & Hgc & Hgn).
    destruct (onConsumed_flat order order_perm rt V0 Tm0 va tr0 fr ev0 _ G0 R _ Hfl0 one_notin one_not_root x g gs HG0 Hg Hgc Hgn)
      as (V' & Tm' & ev' & E & H). exists V', Tm', ev'. split; [|done]. rewrite E. unfold consume.
    destruct (decide (g_cons g ∖ {[j_id j]} = ∅)); simpl; [done|]. by rewrite Hg. }
  { by apply order_NoDup. } { done. } { done. }
  { intros v. rewrite Hli, reads_head. intros (x & g & gs & Hx & HG & Hv & H). exists x, g, gs.
    rewrite HG1, decide_False by auto. done. }
  exists V2, Tm2, tr2, ev2, G2. split_and!; [done..|]. intros x. rewrite HG2, HG1. unfold done_chain.
  destruct (decide (x ∈ j_outs j)) as [Hx|Hx].
  - assert (hd_in (order (t_ins T)) (on_head produce (G x)) = false) as ->; [|done].
    trans (hd_in (order (t_ins T)) (G x)); [destruct (G x) as [|g gs]; [done|]; simpl; unfold produce; by case_decide|].
    rewrite hd_in_ins by done. apply bool_decide_false. intros ?. by apply (Hdis x).
  - rewrite hd_in_ins by done.
    by destruct (decide (x ∈ j_ins j)); [rewrite bool_decide_true|rewrite bool_decide_false].
Qed.

Definition done_versions (T : SCPUEUTask) : DM unit :=
  _ ← iter (onProduced order) (order (t_outs T));
  T ← get_task (j_id j);
  _ ← iter (λ v, onConsumed v (j_id j)) (order (t_ins T));
  _ ← iter task_DecDeleteRef (t_inHandles T);
  RecycleVersion.

Lemma done_versions_flat T :
  Tm !! j_id j = Some T → task_ok rt G j T →
  ∃ V' Tm' va' ev' G' R', done_versions T (mk_dm V Tm va [] fr ev) = Some (tt, mk_dm V' Tm' va' [] fr ev') ∧
    flat V' Tm' va' fr ev' (J1 ++ J2) (J1 ++ J2) [j_id j] G' R' ∧ live (J1 ++ J2) G' R' ∧
    Tm' !! j_id j = Some T ∧ ∀ p, p ∉ j_id <$> (J1 ++ J2) → ready_count ev' p = ready_count ev p.
Proof.
  intros HT Hok. destruct (produced_loop T Hok) as (V1 & Tm1 & tr1 & ev1 & G1 & E1 & (Hfl1 & HT1 & Hev1) & Htr1 & HG1).
  destruct (consumed_loop T V1 Tm1 tr1 ev1 G1 Hok Hfl1 Htr1 HG1)
    as (V2 & Tm2 & tr2 & ev2 & G2 & E2 & (Hfl2 & HT2 & Hev2) & Htr2 & HG2).
  destruct (iter_recycle_flat order order_perm rt V2 Tm2 va tr2 fr ev2 _ _ G2 R tr2 Hfl2 Htr2) as (V3 & va3 & G3 & R3 & E3 & Hfl3 & HG3 & HR3).
  exists V3, Tm2, va3, ev2, G3, R3. split_and!; [|done|..].
  - unfold done_versions. erewrite bind_eq by exact E1.
    erewrite bind_eq by (apply get_task_eq; by rewrite HT1). erewrite bind_eq by exact E2.
    rewrite (to_handles _ _ _ _ Hok). erewrite bind_eq by apply ret_eq. unfold RecycleVersion.
    erewrite bind_eq by done. cbn [dm_trashcan]. by erewrite bind_eq by exact E3.
  - intros x. destruct (HL x) as [HG Hnil].
    assert (HG3x : erase (G3 x) = s_done j x (erase (G x))) by (by rewrite HG3, HG2, erase_done).
    split; [rewrite HG3x, HG; symmetry; apply s_chain_done; [apply one_nodup|apply one_ok|done]|].
    apply HR3. rewrite HG2, done_chain_nil. done.
  - by rewrite HT2, HT1.
  - intros p Hp. by rewrite Hev2, Hev1.
Qed.
End one.

(** ** The end of a task *)

Lemma flat_no_exiting V Tm va fr ev J t G R :
  flat V Tm va fr ev J J [t] G R → live J G R → flat V Tm va fr ev J J [] G R.
Proof.
  intros Hfl HL. assert (Hmem : ∀ x g, g ∈ G x → (g_st g, g_cons g) ∈ s_chain (accs x J)).
  { intros x g Hg. rewrite <-(proj1 (HL x)). by apply (list_elem_of_fmap_2 (λ g, (g_st g, g_cons g))). }
  destruct Hfl. split; try done.
  - intros x g p Hg Hp. right. apply Hmem, s_chain_members in Hg as [H1 _]. apply H1, elem_of_accs in Hp.
    naive_solver.
  - intros x g p Hg Hp. right. apply Hmem, s_chain_members in Hg as [_ H2].
    assert (Hst : g_st g = GIdle p) by (unfold g_prod in Hp; destruct (g_st g); congruence).
    apply H2, elem_of_accs in Hst. naive_solver.
Qed.

Lemma ready_count_notify ev t p : ready_count (ev ++ [DmNotify t]) p = ready_count ev p.
Proof. rewrite ready_count_app. unfold ready_count at 2. simpl. lia. Qed.

Lemma ready_count_free ev t p : ready_count (ev ++ [DmFree t]) p = ready_count ev p.
Proof. rewrite ready_count_app. unfold ready_count at 2. simpl. lia. Qed.

(** Only the root, the finished task and other events change. *)
Lemma flat_other V Tm va fr ev J G R Tm' ev' :
  flat V Tm va fr ev J J [] G R → root_rep rt Tm' → (∀ p, p ∈ j_id <$> J → Tm' !! p = Tm !! p) →
  (∀ p, ready_count ev' p = ready_count ev p) → flat V Tm' va fr ev' J J [] G R.
Proof.
  intros [] Hroot HTm Hev. split; try done.
  - intros j Hj. rewrite HTm by (by apply list_elem_of_fmap_2). by apply fl_task.
  - intros j Hj. rewrite Hev. by apply fl_ready.
Qed.

Lemma DecChildRef_root V Tm va tr fr ev t T :
  root_rep rt Tm → Tm !! t = Some T → t_parent T = Some rt → t ≠ rt →
  ∃ Tr ev', DecChildRef t (mk_dm V Tm va tr fr ev) = Some (tt, mk_dm V (<[rt := Tr]> Tm) va tr fr ev') ∧
    root_rep rt (<[rt := Tr]> Tm) ∧ ∀ p, ready_count ev' p = ready_count ev p.
Proof.
  intros (T0 & HT0 & Hp0 & Ho0 & Hi0 & Hx0) HT Hp Hne. unfold DecChildRef.
  erewrite bind_eq by (by apply get_task_eq). erewrite bind_eq by (by apply deref_eq).
  erewrite bind_eq by (by apply mod_task_eq). erewrite bind_eq by (apply get_task_eq, lookup_insert_eq).
  set (T1 := T0 <| t_childRefCnt ::= _ |>).
  assert (Hr1 : root_rep rt (<[rt := T1]> Tm)) by (exists T1; by rewrite lookup_insert_eq).
  case_decide; [by exists T1, ev|]. rewrite decide_False by (intros [_ H1]; simpl in H1; congruence).
  rewrite decide_False by (intros [H1 _]; by apply H1). case_decide; [by exists T1, ev|].
  exists (T1 <| t_dependenceStatus := DEPENDENCE_INIT |>), (ev ++ [DmNotify rt]). split_and!.
  - erewrite bind_eq by (apply mod_task_eq, lookup_insert_eq). rewrite insert_insert_eq.
    unfold wake_waiting, task_GetBlockType. change (t_parent T1) with (t_parent T0). by rewrite Hp0, decide_True.
  - exists (T1 <| t_dependenceStatus := DEPENDENCE_INIT |>). by rewrite lookup_insert_eq.
  - intros p. apply ready_count_notify.
Qed.

Lemma task_Finish_eq V Tm va tr fr ev t T :
  Tm !! t = Some T → t_childRefCnt T = 0 →
  ∃ Tm' ev', task_Finish t (mk_dm V Tm va tr fr ev) = Some (tt, mk_dm V Tm' va tr fr ev') ∧
    (∀ p, p ≠ t → Tm' !! p = Tm !! p) ∧ ∀ p, ready_count ev' p = ready_count ev p.
Proof.
  intros HT Hc. unfold task_Finish. erewrite bind_eq by (by apply get_task_eq). rewrite decide_True by done.
  unfold task_DecDeleteRef. erewrite bind_eq by (by apply get_task_eq). erewrite bind_eq by (by apply mod_task_eq).
  destruct (bool_decide (t_rc T = 1)).
  - eexists _, (ev ++ [DmFree t]). split_and!; [done|..].
    + intros p Hp. simpl. by rewrite lookup_delete_ne, lookup_insert_ne.
    + intros p. apply ready_count_free.
  - eexists _, ev. split_and!; [done| |done]. intros p Hp. simpl. by rewrite lookup_insert_ne.
Qed.

Lemma done_or_nothing V Tm va fr ev J1 J2 j G R T :
  flat V Tm va fr ev (J1 ++ j :: J2) (J1 ++ j :: J2) [] G R → live (J1 ++ j :: J2) G R →
  (∀ j', j' ∈ J1 → conflict j' j = false) → Tm !! j_id j = Some T → task_ok rt G j T →
  ∃ V1 Tm1 va1 ev1 G1 R1,
    (if decide (t_ins T = ∅ ∧ t_outs T = ∅) then mret tt else done_versions j T) (mk_dm V Tm va [] fr ev) =
      Some (tt, mk_dm V1 Tm1 va1 [] fr ev1) ∧
    flat V1 Tm1 va1 fr ev1 (J1 ++ J2) (J1 ++ J2) [j_id j] G1 R1 ∧ live (J1 ++ J2) G1 R1 ∧
    Tm1 !! j_id j = Some T ∧ ∀ p, p ∉ j_id <$> (J1 ++ J2) → ready_count ev1 p = ready_count ev p.
Proof.
  intros Hfl HL Hc HT Hok. case_decide as Hemp; [|by apply (done_versions_flat V Tm va fr ev J1 J2 j G R)].
  exists V, Tm, va, ev, G, R. split_and!; [done|by apply flat_exit| |done|done].
  destruct Hemp as [Hi Ho]. assert (Hacc : ∀ x, acc_of x j = []).
  { intros x. unfold acc_of. rewrite !decide_False; [done|..]; intros Hx.
    - destruct (in_head _ _ _ _ _ _ _ _ _ _ Hfl HL Hc x Hx) as (g & gs & HG & _ & Ht & _).
      apply (not_elem_of_empty (C := gset vid) (g_vid g)). rewrite <-Hi. apply (to_ins _ _ _ _ Hok).
      exists x, g. rewrite HG. split; [left|done].
    - destruct (out_head _ _ _ _ _ _ _ _ _ _ Hfl HL Hc x Hx) as (g & gs & HG & Hp & _).
      apply (not_elem_of_empty (C := gset vid) (g_vid g)). rewrite <-Ho. apply (to_outs _ _ _ _ Hok).
      exists x, g. rewrite HG. split; [left|done]. }
  intros x. destruct (HL x) as [HG Hn]. split; [|done]. rewrite HG, !accs_app, accs_cons. by rewrite Hacc.
Qed.

(** A job that conflicts with no earlier one is done. *)
Lemma onTaskDone_settled s J1 j J2 :
  settled s (J1 ++ j :: J2) → (∀ j', j' ∈ J1 → conflict j' j = false) →
  ∃ s', onTaskDone order (j_id j) s = Some (tt, s') ∧ settled s' (J1 ++ J2) ∧
    ∀ p, p ∉ j_id <$> (J1 ++ J2) → ready_count (dm_events s') p = ready_count (dm_events s) p.
Proof.
  intros (V & Tm & va & fr & ev & G & R & -> & Hfl & HL) Hc.
  pose proof (one_in J1 J2 j) as Hj. destruct (fl_task _ _ _ _ _ _ _ _ _ _ _ Hfl j Hj) as (T & HT & Hok).
  pose proof (one_not_root _ _ _ _ _ _ _ _ _ _ Hfl) as Hrt. pose proof (one_notin _ _ _ _ _ _ _ _ _ _ Hfl) as Hnj.
  destruct (done_or_nothing V Tm va fr ev J1 J2 j G R T Hfl HL Hc HT Hok)
    as (V1 & Tm1 & va1 & ev1 & G1 & R1 & E1 & Hfl1 & HL1 & HT1 & Hev1).
  apply flat_no_exiting in Hfl1; [|done].
  destruct (DecChildRef_root V1 Tm1 va1 [] fr ev1 (j_id j) T) as (Tr & ev2 & E2 & Hr2 & Hev2);
    [apply Hfl1|done|apply Hok|done|].
  destruct (task_Finish_eq V1 (<[rt := Tr]> Tm1) va1 [] fr ev2 (j_id j) T) as (Tm3 & ev3 & E3 & HTm3 & Hev3);
    [by rewrite lookup_insert_ne|apply Hok|].
  exists (mk_dm V1 Tm3 va1 [] fr ev3). split_and!.
  - unfold onTaskDone. erewrite bind_eq by (by apply get_task_eq). erewrite bind_eq by exact E1.
    by erewrite bind_eq by exact E2.
  - exists V1, Tm3, va1, fr, ev3, G1, R1. split_and!; [done| |done]. eapply flat_other; [exact Hfl1|..].
    + destruct Hr2 as (T0 & HT0 & ?). exists T0. rewrite HTm3; done.
    + intros p Hp. rewrite HTm3 by (by intros ->). apply lookup_insert_ne. intros <-.
      apply list_elem_of_fmap in Hp as (j' & -> & Hj'). eapply job_not_root; [apply Hfl1|exact Hj'|done].
    + intros p. by rewrite Hev3, Hev2.
  - intros p Hp. simpl. by rewrite Hev3, Hev2, Hev1.
Qed.

(** ** Dependences as the interface passes them *)

(** Data addresses only, no input twice, and the lengths of the C interface. *)
Record plain_deps (has_handle : bool) (t : taskid) (ins outs : list ffrt_dependence) : Prop := {
  pd_ins : Forall (λ d, dep_task d = false) ins;
  pd_outs : Forall (λ d, dep_task d = false) outs;
  pd_nodup : NoDup (dep_ptr <$> ins);
  pd_handle : has_handle = true → handle_sig t ∉ dep_ptr <$> (ins ++ outs);
  pd_ins_len : Z.of_nat (length ins) <= UINT32_MAX;
  pd_outs_len : Z.of_nat (length outs) <= UINT32_MAX;
}.

Definition submitted (has_handle : bool) (t : taskid) (ins outs : list ffrt_dependence) : job :=
  let '(_, i, o) := RemoveRepeatedDeps (Some ins) (Some outs) in job_of has_handle t i o.

Lemma OutsDedup_spec acc l :
  NoDup acc → NoDup (OutsDedup acc l) ∧ (∀ x, x ∈ OutsDedup acc l ↔ x ∈ acc ∨ x ∈ dep_ptr <$> l) ∧
    (length (OutsDedup acc l) <= length acc + length l)%nat.
Proof.
  revert acc. induction l as [|d l IH]; intros acc Hnd.
  { simpl. split_and!; [done|intros x; rewrite elem_of_nil; tauto|lia]. }
  cbn [OutsDedup fmap list_fmap length]. setoid_rewrite elem_of_cons. case_decide as Hd.
  - destruct (IH acc Hnd) as (H1 & H2 & H3). split_and!; [done| |lia]. intros x. rewrite H2. naive_solver.
  - destruct (IH (acc ++ [dep_ptr d])) as (H1 & H2 & H3).
    { apply NoDup_app. split_and!; [done| |apply NoDup_singleton]. intros x Hx ->%list_elem_of_singleton. done. }
    rewrite length_app in H3. simpl in H3. split_and!; [done| |lia]. intros x. rewrite H2, snoc_elem. tauto.
Qed.

Lemma InsDedup_spec o l :
  Forall (λ d, dep_task d = false) l → NoDup (dep_ptr <$> l) →
  ∃ i, InsDedup o l = ([], i) ∧ NoDup i ∧ (∀ x, x ∈ i ↔ x ∈ dep_ptr <$> l ∧ x ∉ o) ∧ (length i <= length l)%nat.
Proof.
  induction 1 as [|d l Hd Hl IH]; intros Hnd.
  { exists []. split_and!; [done|constructor| |done]. intros x. rewrite elem_of_nil. simpl. rewrite elem_of_nil. tauto. }
  simpl in Hnd. apply NoDup_cons in Hnd as [Hn Hnd]. destruct (IH Hnd) as (i & E & H1 & H2 & H3).
  cbn [InsDedup fmap list_fmap length]. setoid_rewrite elem_of_cons. rewrite E. case_decide as Ho.
  - exists i. split_and!; [done|done| |lia]. intros x. rewrite H2. split; [tauto|]. intros [[->|?] ?]; [done|tauto].
  - exists (dep_ptr d :: i). rewrite Hd. split_and!; [by destruct (handle_of _)|..].
    + apply NoDup_cons. split; [|done]. rewrite H2. tauto.
    + intros x. rewrite elem_of_cons, H2. split; [intros [->|?]; tauto|tauto].
    + simpl. lia.
Qed.

Lemma plain_deps_ok hh t ins outs :
  plain_deps hh t ins outs →
  CheckOutsHandle (Some outs) = true ∧ job_ok (submitted hh t ins outs) ∧
  ∃ i o, RemoveRepeatedDeps (Some ins) (Some outs) = ([], i, o) ∧ submitted hh t ins outs = job_of hh t i o.
Proof.
  intros []. destruct (OutsDedup_spec [] outs) as (O1 & O2 & O3); [constructor|].
  destruct (InsDedup_spec (OutsDedup [] outs) ins) as (i & E & I1 & I2 & I3); [done..|].
  unfold submitted, RemoveRepeatedDeps. rewrite E. split_and!; [|split_and!|by eexists _, _].
  - simpl. apply forallb_forall. intros d Hd%list_elem_of_In. rewrite Forall_forall in pd_outs0. by rewrite pd_outs0.
  - done.
  - simpl. destruct hh; [|done]. apply NoDup_app. split_and!; [done| |apply NoDup_singleton].
    intros x Hx ->%list_elem_of_singleton. apply O2 in Hx as [?%elem_of_nil|Hx]; [done|].
    apply pd_handle0; [done|]. rewrite fmap_app. apply elem_of_app. by right.
  - simpl. intros x [Hx1 Hx2]%I2. destruct hh; [|done]. rewrite snoc_elem. intros [?| ->]; [done|].
    apply pd_handle0; [done|]. rewrite fmap_app. apply elem_of_app. by left.
  - simpl. unfold UINT32_MAX in *. destruct hh; rewrite ?length_app; simpl in *; lia.
Qed.

(** ** Runs *)

(** The manager before the first submission of the root task. *)
Definition dm_start : dm := mk_dm ∅ {[rt := SCPUEUTask_ctor None]} ∅ [] 1%positive [].

(** Submissions and completions of the children of [rt] in any order; a task is
    done only after it was handed over to the scheduler.  [J] are the unfinished
    jobs in submission order, [U] the tasks submitted so far. *)
Inductive flat_run : dm → list job → gset taskid → Prop :=
| run_start : flat_run dm_start [] ∅
| run_submit s J U hh t ins outs s' :
    flat_run s J U → t ∉ U → t ≠ rt → plain_deps hh t ins outs →
    onSubmit order hh t rt (Some ins) (Some outs) s = Some (tt, s') →
    flat_run s' (J ++ [submitted hh t ins outs]) ({[t]} ∪ U)
| run_done s J1 j J2 U s' :
    flat_run s (J1 ++ j :: J2) U → DmReady (j_id j) ∈ dm_events s →
    onTaskDone order (j_id j) s = Some (tt, s') →
    flat_run s' (J1 ++ J2) U.

Lemma settled_start : settled dm_start [].
Proof.
  exists ∅, {[rt := SCPUEUTask_ctor None]}, ∅, 1%positive, [], (λ _, []), (λ _, None). split; [done|].
  split; [|by intros x]. split; try by intros ? ?%elem_of_nil.
  - exists (SCPUEUTask_ctor None). by rewrite lookup_singleton_eq.
  - intros x. split_and!; [done|constructor|done].
  - intros v. rewrite lookup_empty. by intros [].
  - apply NoDup_singleton.
  - intros x g t ?%elem_of_nil. done.
  - intros x g t ?%elem_of_nil. done.
  - intros x. apply chain_wf_nil.
  - intros v. rewrite lookup_empty. by intros [].
Qed.

(** What is handed over is exactly what conflicts with no earlier unfinished job. *)
Lemma settled_ready s J1 j J2 :
  settled s (J1 ++ j :: J2) →
  ready_count (dm_events s) (j_id j) = if forallb (λ j', negb (conflict j' j)) J1 then 1%nat else 0%nat.
Proof.
  intros (V & Tm & va & fr & ev & G & R & -> & Hfl & HL). pose proof (one_in J1 J2 j) as Hj.
  simpl. rewrite (fl_ready _ _ _ _ _ _ _ _ _ _ _ Hfl j Hj).
  assert (dep_of G j = 0 ↔ forallb (λ j', negb (conflict j' j)) J1 = true) as Hd.
  { rewrite (dep_of_conflict J1 J2 j (one_nodup _ _ _ _ _ _ _ _ _ _ Hfl) (one_ok _ _ _ _ _ _ _ _ _ _ Hfl) G)
      by apply HL.
    rewrite forallb_forall. setoid_rewrite <-list_elem_of_In. setoid_rewrite negb_true_iff. done. }
  destruct (decide (dep_of G j = 0)) as [Hz|Hz].
  - by rewrite (proj1 Hd Hz).
  - destruct (forallb _ _); [|done]. exfalso. by apply Hz, Hd.
Qed.

Lemma ready_event ev t : DmReady t ∈ ev ↔ ready_count ev t ≠ 0%nat.
Proof.
  unfold ready_count. split.
  - intros Hin Hz. apply length_zero_iff_nil in Hz.
    apply (not_elem_of_nil (DmReady t)). rewrite <-Hz. by apply list_elem_of_filter.
  - intros Hn. destruct (filter _ ev) as [|e l] eqn:E; [done|].
    assert (He : e ∈ e :: l) by left. rewrite <-E in He. by apply list_elem_of_filter in He as [-> ?].
Qed.

Lemma settled_no_conflict s J1 j J2 :
  settled s (J1 ++ j :: J2) → DmReady (j_id j) ∈ dm_events s → ∀ j', j' ∈ J1 → conflict j' j = false.
Proof.
  intros Hs Hr%ready_event j' Hj'. rewrite (settled_ready s J1 j J2 Hs) in Hr.
  destruct (forallb _ _) eqn:E; [|done]. rewrite forallb_forall in E. apply negb_true_iff, E, list_elem_of_In, Hj'.
Qed.

Lemma flat_run_settled s J U :
  flat_run s J U →
  settled s J ∧ (∀ t, t ∈ j_id <$> J → t ∈ U) ∧ (∀ t, t ∉ U → ready_count (dm_events s) t = 0%nat).
Proof.
  induction 1 as [|s J U hh t ins outs s' _ (Hs & HJ & Hev) Ht Hrt Hp E|s J1 j J2 U s' _ (Hs & HJ & Hev) Hr E].
  - split_and!; [apply settled_start|by intros t ?%elem_of_nil|done].
  - destruct (plain_deps_ok _ _ _ _ Hp) as (Hc & Hok & i & o & Er & Ej). rewrite Ej in *.
    rewrite (onSubmit_eq order rt _ _ _ _ _ _ _ Hc Er) in E.
    destruct (submit_job_settled order order_perm rt s J hh (job_of hh t i o)) as (s1 & E1 & Hs1 & Hev1);
      [done|done|by intros ?%HJ|done|by apply Hev|].
    assert (s1 = s') as -> by congruence. split_and!; [done|..].
    + intros p. rewrite fmap_app. intros [?%HJ|Hp'%list_elem_of_singleton]%elem_of_app; set_solver.
    + intros p Hp'. rewrite Hev1 by (simpl; set_solver). apply Hev. set_solver.
  - destruct (onTaskDone_settled s J1 j J2 Hs) as (s1 & E1 & Hs1 & Hev1); [by eapply settled_no_conflict|].
    assert (s1 = s') as -> by congruence. split_and!; [done|..].
    + intros p Hp. apply HJ. rewrite fmap_app in *. simpl. set_solver.
    + intros p Hp. rewrite Hev1; [by apply Hev|]. intros Hp'. apply Hp, HJ. rewrite fmap_app in *. simpl. set_solver.
Qed.

(** C1: in every run of submissions and completions of the children of a root task
    that has no dependences itself, whose dependences are data addresses (no task
    handles) with no input given twice ([plain_deps]), a submitted and unfinished task
    has been handed to the scheduler exactly once if it conflicts with no unfinished
    task submitted before it (no common data that one of the two writes), and has not
    been handed over otherwise.  An input given twice breaks this
    ([duplicate_input_never_ready]). *)
Theorem dependence_ready_iff s J1 j J2 U :
  flat_run s (J1 ++ j :: J2) U →
  ready_count (dm_events s) (j_id j) = if forallb (λ j', negb (conflict j' j)) J1 then 1%nat else 0%nat.
Proof. intros (Hs & _ & _)%flat_run_settled. by apply (settled_ready s J1 j J2). Qed.

(** C2: no run of the children of a root task without dependences, with data
    addresses only and no input given twice, gets stuck: every further submission of
    this kind is defined (it touches no freed version or task), so is the completion of every task that
    was handed over, and while tasks are unfinished the oldest of them was. *)
Theorem dependence_never_stuck s J U :
  flat_run s J U →
  (∀ hh t ins outs, t ∉ U → t ≠ rt → plain_deps hh t ins outs →
     ∃ s', onSubmit order hh t rt (Some ins) (Some outs) s = Some (tt, s')) ∧
  (∀ j, j ∈ J → DmReady (j_id j) ∈ dm_events s → ∃ s', onTaskDone order (j_id j) s = Some (tt, s')) ∧
  (∀ j J', J = j :: J' → DmReady (j_id j) ∈ dm_events s).
Proof.
  intros (Hs & HJ & Hev)%flat_run_settled. split_and!.
  - intros hh t ins outs Ht Hrt Hp. destruct (plain_deps_ok _ _ _ _ Hp) as (Hc & Hok & i & o & Er & Ej). rewrite Ej in *.
    rewrite (onSubmit_eq order rt _ _ _ _ _ _ _ Hc Er).
    destruct (submit_job_settled order order_perm rt s J hh (job_of hh t i o)) as (s1 & E1 & _);
      [done|done|by intros ?%HJ|done|by apply Hev|]. by exists s1.
  - intros j Hj Hr. apply list_elem_of_split in Hj as (J1 & J2 & ->).
    destruct (onTaskDone_settled s J1 j J2 Hs) as (s1 & E1 & _); [by eapply settled_no_conflict|]. by exists s1.
  - intros j J' ->. apply ready_event. by rewrite (settled_ready s [] j J' Hs).
Qed.

(** C3: when all children of a root task without dependences are finished, which had
    data addresses only and no input given twice, the manager holds nothing: every
    version is freed, the address map and the trashcan are empty. *)
Theorem dependence_no_leak s U :
  flat_run s [] U → dm_versions s = ∅ ∧ dm_vaMap s = ∅ ∧ dm_trashcan s = [].
Proof.
  intros ((V & Tm & va & fr & ev & G & R & -> & Hfl & HL) & _ & _)%flat_run_settled.
  assert (Hn : ∀ x, G x = [] ∧ R x = None).
  { intros x. destruct (HL x) as [HG HR]. apply erase_nil in HG. auto. }
  split_and!; [|..|done].
  - apply map_empty. intros v. destruct (V !! v) as [y|] eqn:Hv; [|done].
    destruct (fl_dom _ _ _ _ _ _ _ _ _ _ _ Hfl v) as [x [Hx|(g & Hg & _)]]; [by rewrite Hv|..]; destruct (Hn x); [congruence|].
    exfalso. apply (not_elem_of_nil g). congruence.
  - apply map_empty. intros x. destruct (fl_sig _ _ _ _ _ _ _ _ _ _ _ Hfl x) as [Hva _].
    change (va !! x = None). rewrite Hva. apply Hn.
Qed.
End refine.

(** ** Examples *)

(** The children 2, 3 and 4 of the root task 1: a writer of the data at 100, and
    two tasks that read it. *)
Definition ex_data (p : Z) : list ffrt_dependence := [mk_dep p false].
Definition ex_after (m : DM unit) (s : dm) : dm := match m s with Some (_, s') => s' | None => s end.
Definition ex_s1 : dm := ex_after (onSubmit elements false 2 1 (Some []) (Some (ex_data 100))) (dm_start 1).
Definition ex_s2 : dm := ex_after (onSubmit elements false 3 1 (Some (ex_data 100)) (Some [])) ex_s1.
Definition ex_s3 : dm := ex_after (onTaskDone elements 2) ex_s2.
Definition ex_s4 : dm := ex_after (onTaskDone elements 3) ex_s3.

Lemma ex_plain (t : taskid) (a b : list ffrt_dependence) :
  forallb (λ d, negb (dep_task d)) (a ++ b) = true → NoDup (dep_ptr <$> a) →
  Z.of_nat (length a) <= UINT32_MAX → Z.of_nat (length b) <= UINT32_MAX → plain_deps false t a b.
Proof.
  intros H Hn Ha Hb. rewrite forallb_app, andb_true_iff, !forallb_forall in H. destruct H as [H1 H2].
  split; try done; apply Forall_forall; intros d Hd%list_elem_of_In; apply negb_true_iff; auto.
Qed.

Lemma ex_run2 : flat_run elements 1 ex_s2 ([mk_job 2 [] [100]] ++ mk_job 3 [100] [] :: []) ({[3]} ∪ ({[2]} ∪ ∅))%positive.
Proof.
  apply (run_submit _ _ ex_s1 [mk_job 2 [] [100]] _ false 3 (ex_data 100) []).
  - apply (run_submit _ _ (dm_start 1) [] ∅ false 2 [] (ex_data 100)).
    + apply run_start.
    + set_solver.
    + done.
    + apply ex_plain; [done|constructor|by vm_compute..].
    + vm_compute. reflexivity.
  - set_solver.
  - done.
  - apply ex_plain; [done|apply NoDup_singleton|by vm_compute..].
  - vm_compute. reflexivity.
Qed.

Lemma ex_run4 : flat_run elements 1 ex_s4 [] ({[3]} ∪ ({[2]} ∪ ∅))%positive.
Proof.
  apply (run_done _ _ ex_s3 [] (mk_job 3 [100] []) []).
  - apply (run_done _ _ ex_s2 [] (mk_job 2 [] [100]) [mk_job 3 [100] []]); [apply ex_run2|..].
    + vm_compute. set_solver.
    + vm_compute. reflexivity.
  - vm_compute. set_solver.
  - vm_compute. reflexivity.
Qed.

Lemma dependence_ready_iff_witness :
  flat_run elements 1 ex_s2 ([mk_job 2 [] [100]] ++ mk_job 3 [100] [] :: []) ({[3]} ∪ ({[2]} ∪ ∅))%positive ∧
  ready_count (dm_events ex_s2) 3 = 0%nat.
Proof.
  split; [apply ex_run2|].
  exact (dependence_ready_iff elements (λ X, reflexivity _) 1 ex_s2 [mk_job 2 [] [100]] (mk_job 3 [100] []) [] _ ex_run2).
Defined.

Lemma dependence_never_stuck_witness : ∃ s', onTaskDone elements 2 ex_s2 = Some (tt, s').
Proof.
  destruct (dependence_never_stuck elements (λ X, reflexivity _) 1 ex_s2 _ _ ex_run2) as (_ & Hdone & _).
  apply (Hdone (mk_job 2 [] [100])); [left|]. vm_compute. set_solver.
Defined.

Lemma dependence_no_leak_witness : dm_versions ex_s4 = ∅ ∧ dm_vaMap ex_s4 = ∅ ∧ dm_trashcan ex_s4 = [].
Proof. exact (dependence_no_leak elements (λ X, reflexivity _) 1 ex_s4 _ ex_run4). Defined.

(** ** Outside the hypotheses *)

Definition ex_runs (l : list (DM unit)) : option dm := snd <$> iter (λ m, m) l (dm_start 1).

(** an input given twice is counted twice but notified once: task 3 reads the
    data at 100 twice, its producer 2 is done and nothing else is pending, and
    task 3 still waits for one dependence and was never handed over. *)
Theorem duplicate_input_never_ready :
  ∃ s, ex_runs [onSubmit elements false 2 1 None (Some (ex_data 100));
                onSubmit elements false 3 1 (Some (ex_data 100 ++ ex_data 100)) None;
                onTaskDone elements 2] = Some s ∧
    ready_count (dm_events s) 3 = 0%nat ∧ t_dataRefCnt <$> dm_tasks s !! 3%positive = Some 1 ∧
    dm_tasks s !! 2%positive = None.
Proof. eexists. split; [vm_compute; reflexivity|]. vm_compute. done. Qed.

(** when a parent's output version is merged with its last child version, the
    readers of that child version are not merged.  Task 2 writes the data at 100;
    its child 3 writes it and its children 4 and 5 read it; task 6 writes it next.
    When 3, 2 and 4 are done, 6 is handed over although the reader 5 is not done,
    and when 5 is done it accesses a freed version. *)
Theorem merged_readers_lost :
  let l := [onSubmit elements false 2 1 None (Some (ex_data 100));
            onSubmit elements false 3 2 None (Some (ex_data 100));
            onSubmit elements false 4 2 (Some (ex_data 100)) None;
            onSubmit elements false 5 2 (Some (ex_data 100)) None;
            onSubmit elements false 6 1 None (Some (ex_data 100));
            onTaskDone elements 3; onTaskDone elements 2; onTaskDone elements 4] in
  (∃ s, ex_runs l = Some s ∧ ready_count (dm_events s) 6 = 1%nat ∧ ready_count (dm_events s) 5 = 1%nat ∧
    DmFree 5 ∉ dm_events s) ∧
  ex_runs (l ++ [onTaskDone elements 5]) = None.
Proof.
  split; [|by vm_compute]. eexists. split; [vm_compute; reflexivity|]. split_and!; [by vm_compute..|].
  vm_compute. intros H. repeat (apply elem_of_cons in H as [[=]|H]). by apply elem_of_nil in H.
Qed.
